(* ===== verification/_CoqProject ===== *)
-Q . S2P
Prelude.v
Wire.v
Records.v
MftParser.v
UiProtocol.v
Snapshot.v
SnapshotPool.v
FlatHashMap.v
NamePool.v
UsnParser.v
ChildrenMap.v
IndexHealth.v
TextMatch.v
Glob.v
QuerySyntax.v
Query.v
SearchPath.v
TopN.v
Search.v
Rules.v
Utf8.v
FilenameIndex.v
Projection.v
ProjectionRead.v
Residency.v
Rebuild.v
Sql.v
Store.v
ColdSearch.v
Maintenance.v
Pipeline.v
PipelineSync.v
PipelineRuns.v
PipelineEpochs.v
Candidates.v
Dispatch.v
Export.v
SessionState.v
Sessions.v
SessionRetries.v
SessionRuns.v
Worker.v
VolumeScan.v
JournalStream.v
Service.v
