(* ===== verification/Prelude.v ===== *)
(** * FastFiles: verification library

    FastFiles is a Windows file manager.  A privileged service ([src/src/indexsvc]) reads the
    MFT and the USN journal of a volume and streams record batches over a pipe; the engine
    ([src/src/engine]) decodes them ([src/src/protocol]), keeps them in a durable store and in
    an in-memory projection ([src/src/indexstore]), and answers searches and browsing
    ([src/src/search]) for the user interface ([src/src/ui]) over a second pipe protocol and
    through published snapshot files.  This library models the parts that carry the data:
    the codecs and parsers at the trust boundaries, the workers and connections of the
    service, the sessions and the pipeline of the engine, the index, its memory policy, and search.

    ** Conventions

    A fallible operation returns a [result]: [Ok] with a value, [Reject] for the error return
    or C++ exception of the code, [Fault] for what must not happen: an access outside a
    buffer, a vector or a table, or a loop that runs out of fuel.  [safe r Q] says that [r] is
    not [Fault] and that an [Ok] value satisfies [Q]; so a theorem [safe ...] also says that
    every loop of the operation ends.  Integers are [Z] with the wrap-around of their C++
    width written out ([wrap64], [add64], [wrap32]); bytes and UTF-16 units are [Z] with range
    predicates.  Mutable objects are records passed from operation to operation.  Code that
    is not in the repository is a parameter: [CompareStringOrdinal], the [towlower] family,
    [std::hash], [std::push_heap] and [std::sort] (a class with their documented laws), the
    clock, what an SQLite statement delivers, the capacities of standard containers, and the
    NTFS driver, the pipe and the stop flag that a worker of the service meets (the [world] of [Worker]).

    ** Files

    - [Prelude]: this header, fixed-width arithmetic, the [result] monad, buffers
      ([load], [store]), shared list lemmas, tactics and hint databases.
    - [Wire]: [protocol/src/Frame.cpp], [Commands.cpp], [Dispatch.cpp], [Version.cpp]: frame
      headers, message types, flags, versions.
    - [Records]: [protocol/src/Records.cpp]: MFT and USN batches; a generic codec whose parser
      accepts exactly the serializer's output, and the version adapters.
    - [MftParser], [UsnParser]: [indexsvc/src/MftParser.cpp], [UsnRecordParser.cpp]: raw disk
      records, parsed without reading outside them.
    - [UiProtocol], [IndexHealth]: [protocol/src/UiProtocol.cpp], [IndexHealth.cpp].
    - [Snapshot], [SnapshotPool]: [protocol/src/SnapshotFormat.cpp] and the string pool and
      builder of [SnapshotFormat.h].
    - [FlatHashMap], [ChildrenMap]: the open-addressing tables of
      [indexstore/include/ffindexstore/FlatHashMap.h], refined to finite maps.
    - [NamePool]: [indexstore/src/NamePool.cpp], the interned names.
    - [FilenameIndex]: the trigram accelerator of [indexstore/src/Projection.cpp].
    - [Projection]: class [Projection]: rows, free list, id map, children, names, access times;
      the operations that change them refine operations on a finite map from keys to records.
    - [ProjectionRead]: path reconstruction and folder totals over the projection.
    - [Residency]: the memory policy: victim choice, eviction of subtrees and volumes,
      compaction and the enforcement loops.
    - [Rebuild]: reloading a volume from the durable store, with its early stop and clean-up.
    - [Utf8]: the name encoding of [indexstore/src/Store.cpp].
    - [Sql]: a database connection whose calls can fail, and transactions over it.
    - [Store]: [indexstore/src/Store.cpp]: the tables, batches, volumes, reads, and the name
      candidate index with its rebuild.
    - [ColdSearch]: [StoreReadSession::ForEachEntryWithAsciiNameUntil]: name candidates of a
      volume that is not resident.
    - [Rules]: [IsPathIncluded] of [protocol/src/Settings.cpp] and [VolumeSettingsEqual].
    - [Maintenance]: checkpoints, planner statistics and vacuum of [indexstore/src/Store.cpp].
    - [Pipeline]: [engine/src/IndexPipeline.cpp]: every operation that changes the store, the
      index, the rules, the reconciliation passes or the epochs.
    - [PipelineSync], [PipelineRuns]: the invariant of the pipeline, operation by operation,
      and its properties over every sequence of operations.
    - [PipelineEpochs]: what the epoch check of a search relies on.
    - [Candidates]: the candidates of a search, from the index and from a read session.
    - [Dispatch]: the frames between engine and service: the payload structures, the service's
      writers, [PrivilegedConnection::DispatchReceivedFrame], the engine's requests and their
      reading in [indexsvc/src/ServiceConnection.cpp].
    - [Export]: the directory snapshots that [IndexPipeline.cpp] exports, with their bound.
    - [SessionState], [Sessions]: [engine/src/VolumeSessionManager.cpp]: sessions, pauses,
      reconciliation, the owners of a scan retry and the scheduler.  A handler is a program of
      atomic steps; between two steps any other thread may run.
    - [SessionRetries]: a rely-guarantee judgement on these programs, and that every handler
      satisfies it in its thread.
    - [SessionRuns]: the threads together, and schedules played on a concrete engine.
    - [Worker]: the monad of the service's workers over an arbitrary driver, pipe and stop flag, with its
      weakest preconditions, [WriteFrameWithDeadline], and the reading of one MFT record.
    - [VolumeScan]: [indexsvc/src/VolumeScanner.cpp]: a whole scan, its batches, cursors and terminal.
    - [JournalStream]: [indexsvc/src/UsnJournalReader.cpp]: the worker that follows the USN journal.
    - [Service]: [indexsvc/src/ConnectionRegistry.cpp], [ServiceConnection.cpp] and the worker
      lifecycle: handshake, control loop, barrier, joins and teardown, as steps of interleaved threads.
    - [TextMatch], [Glob], [QuerySyntax], [Query]: [search/src/Query.cpp]: ordinal and prepared
      substring matching, wildcards, size and date filters, query parsing and matching.
    - [SearchPath]: [search/src/Path.cpp].
    - [TopN], [Search]: [search/src/Search.cpp]: result order, the bounded accumulator, the
      search loops, path reconstruction over candidates.

    ** What the theorems show

    Codecs: parsers accept exactly the serializations of well-formed values, to the last byte,
    never read outside the input, and round-trip.  Tables: every operation sequence behaves as
    on a finite map.  The index: any sequence of upserts, partial updates, removals and bulk
    scans refines a map from keys to records, and the filename accelerator never misses a row
    the canonical matcher accepts.  The memory policy: enforcement ends for every size
    estimate, and a volume that is not marked cold is completely resident, across evictions
    and reloads.  The durable store: whatever call of SQLite fails, a batch is applied whole
    or not at all, a candidate index that is marked ready is in step with the entries, and a cold search that
    reports success has visited every row the canonical matcher accepts.  The pipeline: over
    any sequence of its operations, whatever fails, the index has of every volume that is not
    cold exactly the durable records, and a restart recovers this for the volumes it lists; an unchanged data epoch
    means unchanged records; and resident and cold rows of a file give the same candidate.
    The sessions: however the reader, the scheduler, the lifecycle and the UI threads
    interleave, the intent to scan a volume is never lost and a retry of a volume with one session never starts before its
    time; and one interleaving in which a reconciliation deletes live rows.  Engine and
    service: each accepts exactly what the other writes.  The service: whatever the driver, the
    pipe and the stop flag do, the frames of a scan deliver exactly the records read, field by field, and as long as no buffer of the
    driver has a malformed entry, with cursors from which nothing is missed and a completion only at the end of the enumeration; the frames of a
    journal are the changes of contiguous reads that the peer's protocol can carry; and both workers end; however its threads interleave,
    no worker launched before a barrier writes for its volume after it, a volume has one owner, and a closed connection
    leaves no worker and no claim.
    Search: the prepared matchers answer what the ordinal scan answers, and the matchers of a query agree on a row and its view, unless the
    host equates text outside ASCII with ASCII text (nothing is assumed of [CompareStringOrdinal] there); and the bounded accumulator returns the best rows whatever their order.  A few
    theorems show where the code does not do what its comments say; they are listed as findings
    in the manifest.

    ** Bounds and fuel

    Loops over a shrinking or bounded quantity carry fuel taken from that quantity: the bytes
    left (parsers), the 64 doublings of a [size_t] (table growth), the rows of the projection
    (eviction walks and enforcement loops), 4096 parents (paths).  [GetFolderAggregate] takes
    its fuel as an argument: it ends on trees, and provably never on a cycle of directories.
    The outer loops of the workers take the number of their rounds: it is enough when the stop flag is
    raised by then or, for a scan, when it exceeds the cursors that are left.

    ** Not modelled

    The user interface, the installer and setup programs, pipes and Win32 calls, the authentication of
    clients, the staleness monitor and the volume enumeration of the service, and SQLite itself: their logic is calls into the operating system or third-party code.
    Memory exhaustion ([std::bad_alloc]) and what a half-finished operation leaves behind
    after an exception are not modelled, nor are diagnostics and test hooks.  The
    pipeline's read plane, the engine's UI server and the handshake and heartbeat of its service
    connection are listed in the manifest as not modelled. *)

From stdpp Require Export prelude.
From Stdlib Require Export ZArith Lia.
#[global] Open Scope Z_scope.

(** ** Notation scope and hint databases of the development *)

Declare Scope ff_scope.
Delimit Scope ff_scope with ff.
#[global] Open Scope ff_scope.

Create HintDb ff.        (* facts discharged by [eauto with ff] *)
Create Rewrite HintDb ff_size. (* sizes of encodings, for [autorewrite with ff_size] *)

(** ** Fixed-width arithmetic

    A [w]-bit C++ integer is a [Z]; [size_t] is 64 bits wide on the only
    platform the program targets (x64 Windows).  Where the source computes in
    [size_t] or [uint64_t], the wrap-around is written out with [wrap64]. *)

Definition SIZE_MAX : Z := 18446744073709551615.
Definition UINT32_MAX : Z := 4294967295.
Definition wrap64 (x : Z) : Z := x mod 18446744073709551616.
Definition wrap32 (x : Z) : Z := x mod 4294967296.
Definition wrap16 (x : Z) : Z := x mod 65536.
Definition add64 (a b : Z) : Z := wrap64 (a + b).
Definition sub64 (a b : Z) : Z := wrap64 (a - b).
Definition mul64 (a b : Z) : Z := wrap64 (a * b).

(** The C++ casts between [int64_t] and [uint64_t] (two's complement). *)
Definition to_unsigned64 (x : Z) : Z := wrap64 x.
Definition to_signed64 (x : Z) : Z :=
  if x <? 9223372036854775808 then x else x - 18446744073709551616.

(** [~x] on [uint32_t] and on [uint8_t]. *)
Definition not32 (x : Z) : Z := Z.lxor x 4294967295.
Definition not8 (x : Z) : Z := Z.lxor x 255.

Lemma wrap64_small x : 0 <= x <= SIZE_MAX -> wrap64 x = x.
Proof. unfold wrap64, SIZE_MAX. intros. apply Z.mod_small. lia. Qed.

Lemma add64_small a b : 0 <= a -> 0 <= b -> a + b <= SIZE_MAX -> add64 a b = a + b.
Proof. intros. unfold add64. apply wrap64_small. lia. Qed.

Lemma wrap64_range x : 0 <= wrap64 x <= SIZE_MAX.
Proof.
  unfold wrap64, SIZE_MAX.
  pose proof (Z.mod_pos_bound x 18446744073709551616). lia.
Qed.

Lemma signed_unsigned64 x :
  -9223372036854775808 <= x < 9223372036854775808 -> to_signed64 (to_unsigned64 x) = x.
Proof.
  intros Hx. unfold to_signed64, to_unsigned64, wrap64.
  destruct (decide (0 <= x)).
  - rewrite Z.mod_small by lia. destruct (Z.ltb_spec x 9223372036854775808); lia.
  - replace (x mod 18446744073709551616) with (x + 18446744073709551616).
    + destruct (Z.ltb_spec (x + 18446744073709551616) 9223372036854775808); lia.
    + rewrite <-(Z.mod_add x 1) by lia. rewrite Z.mod_small by lia. lia.
Qed.

(** Testing one bit of a word. *)
Lemma land_pow2_testbit x i : 0 <= i -> (Z.land x (2 ^ i) =? 0) = negb (Z.testbit x i).
Proof.
  intros Hi. destruct (Z.testbit x i) eqn:E; cbn [negb].
  - apply Z.eqb_neq. intros H0. apply (f_equal (fun z => Z.testbit z i)) in H0.
    by rewrite Z.land_spec, Z.pow2_bits_true, E, Z.bits_0 in H0.
  - apply Z.eqb_eq, Z.bits_inj'. intros j Hj. rewrite Z.land_spec, Z.bits_0, Z.pow2_bits_eqb by lia.
    destruct (Z.eqb_spec i j) as [<-|]; [by rewrite E|apply andb_false_r].
Qed.

(** ** Lists measured in [Z] *)

Definition zlen {A} (l : list A) : Z := Z.of_nat (length l).

Lemma zlen_nonneg {A} (l : list A) : 0 <= zlen l.
Proof. unfold zlen. lia. Qed.
Lemma zlen_nil {A} : zlen (@nil A) = 0.
Proof. done. Qed.
Lemma zlen_cons {A} (x : A) l : zlen (x :: l) = 1 + zlen l.
Proof. unfold zlen. simpl. lia. Qed.
Lemma zlen_app {A} (l k : list A) : zlen (l ++ k) = zlen l + zlen k.
Proof. unfold zlen. rewrite length_app. lia. Qed.
Lemma zlen_to_nat {A} (l : list A) : Z.to_nat (zlen l) = length l.
Proof. unfold zlen. lia. Qed.

#[export] Hint Rewrite @zlen_nil @zlen_cons @zlen_app : ff_size.
#[export] Hint Resolve zlen_nonneg : ff.

(** ** Results of code that reads untrusted buffers

    [Ok] is the value, [Reject] the source's [std::nullopt] (or [false]), and
    [Fault] an access outside the buffer: undefined behaviour in C++.  A
    memory-safety theorem says that [Fault] is unreachable. *)

Inductive result (A : Type) : Type :=
| Ok (a : A)
| Reject
| Fault.
Arguments Ok {A} a.
Arguments Reject {A}.
Arguments Fault {A}.

Definition bind {A B} (r : result A) (k : A -> result B) : result B :=
  match r with
  | Ok a => k a
  | Reject => Reject
  | Fault => Fault
  end.

Notation "'let*' x := e 'in' k" := (bind e (fun x => k))
  (at level 10, x name, e at level 100, k at level 200) : ff_scope.
Notation "'let*' ' p := e 'in' k" := (bind e (fun x => match x with p => k end))
  (at level 10, p pattern, e at level 100, k at level 200) : ff_scope.

(** [guard b k]: the source's early [return std::nullopt] when [b] fails. *)
Definition guard {A} (b : bool) (k : result A) : result A := if b then k else Reject.

Definition of_option {A} (o : option A) : result A :=
  match o with Some a => Ok a | None => Reject end.

(** [safe r Q]: [r] does not fault and, if it returns, its value satisfies [Q]. *)
Definition safe {A} (r : result A) (Q : A -> Prop) : Prop :=
  match r with Ok a => Q a | Reject => True | Fault => False end.

Lemma safe_bind {A B} (r : result A) (k : A -> result B) P Q :
  safe r P -> (forall a, P a -> safe (k a) Q) -> safe (bind r k) Q.
Proof. destruct r; simpl; auto. Qed.

Lemma safe_guard {A} (b : bool) (k : result A) Q :
  (b = true -> safe k Q) -> safe (guard b k) Q.
Proof. destruct b; simpl; auto. Qed.

Lemma safe_mono {A} (r : result A) (P Q : A -> Prop) :
  safe r P -> (forall a, P a -> Q a) -> safe r Q.
Proof. destruct r; simpl; auto. Qed.

Lemma safe_no_fault {A} (r : result A) Q : safe r Q -> r <> Fault.
Proof. by destruct r. Qed.

Lemma bind_Ok_inv {A B} (r : result A) (k : A -> result B) b :
  bind r k = Ok b -> exists a, r = Ok a /\ k a = Ok b.
Proof. destruct r; simpl; try discriminate. eauto. Qed.

Lemma guard_Ok_inv {A} (b : bool) (k : result A) a :
  guard b k = Ok a -> b = true /\ k = Ok a.
Proof. destruct b; simpl; [auto|discriminate]. Qed.

(** Decompose hypotheses [bind .. = Ok ..] and [guard .. = Ok ..]. *)
Ltac inv_result :=
  repeat match goal with
  | H : bind _ _ = Ok _ |- _ =>
      let x := fresh "x" in apply bind_Ok_inv in H; destruct H as [x [? H]]
  | H : guard _ _ = Ok _ |- _ =>
      let E := fresh "Eg" in apply guard_Ok_inv in H; destruct H as [E H]
  | H : Ok _ = Ok _ |- _ => injection H as H
  | H : Reject = Ok _ |- _ => discriminate H
  | H : Fault = Ok _ |- _ => discriminate H
  end.

(** Turn boolean tests in the context and in the goal into propositions. *)
Ltac bool_prop :=
  repeat match goal with
  | H : (_ && _)%bool = true |- _ => apply andb_true_iff in H; destruct H
  | H : (_ || _)%bool = false |- _ => apply orb_false_iff in H; destruct H
  | H : negb _ = true |- _ => apply negb_true_iff in H
  | H : negb _ = false |- _ => apply negb_false_iff in H
  | H : (_ <=? _) = true |- _ => apply Z.leb_le in H
  | H : (_ <=? _) = false |- _ => apply Z.leb_gt in H
  | H : (_ <? _) = true |- _ => apply Z.ltb_lt in H
  | H : (_ <? _) = false |- _ => apply Z.ltb_ge in H
  | H : (_ =? _) = true |- _ => apply Z.eqb_eq in H
  | H : (_ =? _) = false |- _ => apply Z.eqb_neq in H
  end.

(** ** Buffers and little-endian words *)

(** [slice buf off n]: the [n] bytes of [buf] from offset [off]. *)
Definition slice (buf : list Z) (off : Z) (n : nat) : list Z :=
  take n (drop (Z.to_nat off) buf).

(** [memcpy] of [n] bytes out of [buf + off]. *)
Definition load (buf : list Z) (off : Z) (n : nat) : result (list Z) :=
  if (0 <=? off) && (off + Z.of_nat n <=? zlen buf) then Ok (slice buf off n) else Fault.

(** [std::memcpy] of [bs] to [buf + off]. *)
Definition store (buf : list Z) (off : Z) (bs : list Z) : result (list Z) :=
  if (0 <=? off) && (off + zlen bs <=? zlen buf)
  then Ok (list_inserts (Z.to_nat off) bs buf) else Fault.

Definition is_byte (b : Z) : Prop := 0 <= b < 256.

Fixpoint le_bytes (n : nat) (v : Z) : list Z :=
  match n with
  | O => []
  | S n' => v mod 256 :: le_bytes n' (v / 256)
  end.

Fixpoint le_value (bs : list Z) : Z :=
  match bs with
  | [] => 0
  | b :: bs' => b + 256 * le_value bs'
  end.

(** [fits n v]: [v] is representable in [n] bytes. *)
Definition fits (n : nat) (v : Z) : Prop := 0 <= v < 256 ^ Z.of_nat n.

Definition ReadU8 (buf : list Z) (off : Z) : result Z :=
  let* bs := load buf off 1 in Ok (le_value bs).
Definition ReadU16 (buf : list Z) (off : Z) : result Z :=
  let* bs := load buf off 2 in Ok (le_value bs).
Definition ReadU32 (buf : list Z) (off : Z) : result Z :=
  let* bs := load buf off 4 in Ok (le_value bs).
Definition ReadU64 (buf : list Z) (off : Z) : result Z :=
  let* bs := load buf off 8 in Ok (le_value bs).

Lemma length_slice buf off n :
  0 <= off -> off + Z.of_nat n <= zlen buf -> length (slice buf off n) = n.
Proof. unfold slice, zlen. intros. rewrite length_take, length_drop. lia. Qed.

Lemma load_Ok buf off n :
  0 <= off -> off + Z.of_nat n <= zlen buf -> load buf off n = Ok (slice buf off n).
Proof.
  intros. unfold load.
  rewrite (proj2 (Z.leb_le 0 off)), (proj2 (Z.leb_le _ _)) by lia. done.
Qed.

Lemma load_Ok_inv buf off n bs :
  load buf off n = Ok bs ->
  0 <= off /\ off + Z.of_nat n <= zlen buf /\ bs = slice buf off n.
Proof.
  unfold load. destruct (_ && _) eqn:E; [|discriminate].
  bool_prop. intros [= <-]. auto.
Qed.

Lemma safe_load buf off n (Q : list Z -> Prop) :
  0 <= off -> off + Z.of_nat n <= zlen buf ->
  Q (slice buf off n) -> safe (load buf off n) Q.
Proof. intros. by rewrite load_Ok. Qed.

Lemma slice_app_r l k n : slice (l ++ k) (zlen l) n = take n k.
Proof. unfold slice. by rewrite zlen_to_nat, drop_app_length. Qed.

Lemma slice_split buf off m n :
  0 <= off -> (m <= n)%nat ->
  slice buf off n = slice buf off m ++ slice buf (off + Z.of_nat m) (n - m).
Proof.
  intros. unfold slice.
  rewrite Z2Nat.inj_add, Nat2Z.id, <-drop_drop by lia.
  rewrite <-(take_drop m (take n (drop (Z.to_nat off) buf))), take_take.
  rewrite Nat.min_l by lia. f_equal.
  replace n with (m + (n - m))%nat at 1 by lia. by rewrite <-take_drop_commute.
Qed.

Lemma Forall_slice (P : Z -> Prop) buf off n : Forall P buf -> Forall P (slice buf off n).
Proof. intros. unfold slice. by apply Forall_take, Forall_drop. Qed.

Lemma lookup_slice buf off n j :
  0 <= off -> (j < n)%nat -> slice buf off n !! j = buf !! Z.to_nat (off + Z.of_nat j).
Proof.
  intros. unfold slice. rewrite lookup_take_lt, lookup_drop by lia. f_equal. lia.
Qed.

Lemma slice_ext buf buf' off n :
  0 <= off ->
  (forall i, off <= i < off + Z.of_nat n -> buf !! Z.to_nat i = buf' !! Z.to_nat i) ->
  slice buf off n = slice buf' off n.
Proof.
  intros Ho Heq. apply list_eq. intros j. destruct (decide (j < n)%nat).
  - rewrite !lookup_slice by lia. apply Heq. lia.
  - unfold slice. by rewrite !lookup_take_ge by lia.
Qed.

Lemma zlen_inserts (buf bs : list Z) i : zlen (list_inserts i bs buf) = zlen buf.
Proof. unfold zlen. by rewrite length_inserts. Qed.

Lemma store_Ok buf off bs :
  0 <= off -> off + zlen bs <= zlen buf ->
  store buf off bs = Ok (list_inserts (Z.to_nat off) bs buf).
Proof.
  intros. unfold store. by rewrite (proj2 (Z.leb_le 0 off)), (proj2 (Z.leb_le _ _)) by lia.
Qed.

Lemma slice_inserts_same buf off bs :
  0 <= off -> off + zlen bs <= zlen buf ->
  slice (list_inserts (Z.to_nat off) bs buf) off (Z.to_nat (zlen bs)) = bs.
Proof.
  unfold zlen. intros. rewrite Nat2Z.id. apply list_eq. intros j.
  destruct (decide (j < length bs)%nat).
  - rewrite lookup_slice, list_lookup_inserts by lia. f_equal. lia.
  - unfold slice. rewrite lookup_take_ge by lia. symmetry. apply lookup_ge_None. lia.
Qed.

Lemma slice_inserts_other buf off bs o n :
  0 <= o -> 0 <= off -> o + Z.of_nat n <= off \/ off + zlen bs <= o ->
  slice (list_inserts (Z.to_nat off) bs buf) o n = slice buf o n.
Proof.
  unfold zlen. intros ? ? Hd. apply slice_ext; [done|]. intros i Hi. destruct Hd.
  - apply list_lookup_inserts_lt. lia.
  - apply list_lookup_inserts_ge. lia.
Qed.

Lemma length_le_bytes n v : length (le_bytes n v) = n.
Proof. revert v. induction n; intros; simpl; auto. Qed.

Lemma zlen_le_bytes n v : zlen (le_bytes n v) = Z.of_nat n.
Proof. unfold zlen. by rewrite length_le_bytes. Qed.
#[export] Hint Rewrite zlen_le_bytes : ff_size.

Lemma le_bytes_are_bytes n v : Forall is_byte (le_bytes n v).
Proof.
  revert v. induction n; intros; simpl; constructor; auto.
  unfold is_byte. apply Z.mod_pos_bound. lia.
Qed.

Lemma pow256_S n : 256 ^ Z.of_nat (S n) = 256 * 256 ^ Z.of_nat n.
Proof. rewrite Nat2Z.inj_succ, Z.pow_succ_r; lia. Qed.

Lemma le_value_le_bytes n v : fits n v -> le_value (le_bytes n v) = v.
Proof.
  unfold fits. revert v. induction n as [|n IH]; intros v Hv.
  - simpl in *. lia.
  - cbn [le_bytes le_value]. rewrite pow256_S in Hv. rewrite IH.
    + pose proof (Z.div_mod v 256). lia.
    + split; [apply Z.div_pos; lia|]. apply Z.div_lt_upper_bound; lia.
Qed.

Lemma le_value_fits bs : Forall is_byte bs -> fits (length bs) (le_value bs).
Proof.
  unfold fits, is_byte. induction 1 as [|b bs Hb _ IH].
  - simpl. lia.
  - cbn [le_value length]. rewrite pow256_S. lia.
Qed.

Lemma le_bytes_le_value bs :
  Forall is_byte bs -> le_bytes (length bs) (le_value bs) = bs.
Proof.
  unfold is_byte. induction 1 as [|b bs Hb _ IH]; [done|].
  cbn [le_bytes le_value length]. f_equal.
  - rewrite Z.mul_comm, Z.mod_add by lia. apply Z.mod_small. lia.
  - rewrite Z.mul_comm, Z.div_add by lia. by rewrite Z.div_small, Z.add_0_l by lia.
Qed.

(** The 64-bit image of a signed field. *)
Lemma fits_unsigned64 x : fits 8 (to_unsigned64 x).
Proof. unfold fits, to_unsigned64. pose proof (wrap64_range x). unfold SIZE_MAX in *. simpl. lia. Qed.

Lemma unsigned_signed64 x : fits 8 x -> to_unsigned64 (to_signed64 x) = x.
Proof.
  unfold fits, to_unsigned64, to_signed64, wrap64. simpl. intros Hx.
  destruct (Z.ltb_spec x 9223372036854775808); [apply Z.mod_small; lia|].
  rewrite <-(Z.mod_add _ 1) by lia. rewrite Z.mod_small; lia.
Qed.

Lemma signed64_range x : fits 8 x -> -9223372036854775808 <= to_signed64 x < 9223372036854775808.
Proof.
  unfold fits, to_signed64. simpl. intros Hx. destruct (Z.ltb_spec x 9223372036854775808); lia.
Qed.
#[export] Hint Resolve fits_unsigned64 signed64_range : ff.

(** One-step reasoning for the word readers. *)
Lemma safe_read_word buf off n (Q : Z -> Prop) :
  0 <= off -> off + Z.of_nat n <= zlen buf ->
  Q (le_value (slice buf off n)) ->
  safe (let* bs := load buf off n in Ok (le_value bs)) Q.
Proof. intros. by rewrite load_Ok. Qed.

Lemma read_word_fits buf off n :
  Forall is_byte buf -> 0 <= off -> off + Z.of_nat n <= zlen buf ->
  fits n (le_value (slice buf off n)).
Proof.
  intros Hb ? ?. rewrite <-(length_slice buf off n) at 1 by lia.
  apply le_value_fits. by apply Forall_slice.
Qed.

Section reads.
Context {B : Type} (buf : list Z) (off : Z) (k : Z -> result B) (Q : B -> Prop).
Hypothesis Hbytes : Forall is_byte buf.
Hypothesis Hoff : 0 <= off.

Lemma safe_ReadU8 :
  off + 1 <= zlen buf -> (forall v, ReadU8 buf off = Ok v -> 0 <= v < 256 -> safe (k v) Q) ->
  safe (bind (ReadU8 buf off) k) Q.
Proof.
  intros Hl Hk. unfold ReadU8 in *. rewrite load_Ok in * by lia. cbn [bind] in *.
  apply Hk; [done|]. exact (read_word_fits buf off 1 Hbytes Hoff Hl).
Qed.

Lemma safe_ReadU16 :
  off + 2 <= zlen buf -> (forall v, ReadU16 buf off = Ok v -> 0 <= v < 65536 -> safe (k v) Q) ->
  safe (bind (ReadU16 buf off) k) Q.
Proof.
  intros Hl Hk. unfold ReadU16 in *. rewrite load_Ok in * by lia. cbn [bind] in *.
  apply Hk; [done|]. exact (read_word_fits buf off 2 Hbytes Hoff Hl).
Qed.

Lemma safe_ReadU32 :
  off + 4 <= zlen buf -> (forall v, ReadU32 buf off = Ok v -> 0 <= v < 4294967296 -> safe (k v) Q) ->
  safe (bind (ReadU32 buf off) k) Q.
Proof.
  intros Hl Hk. unfold ReadU32 in *. rewrite load_Ok in * by lia. cbn [bind] in *.
  apply Hk; [done|]. exact (read_word_fits buf off 4 Hbytes Hoff Hl).
Qed.

Lemma safe_ReadU64 :
  off + 8 <= zlen buf ->
  (forall v, ReadU64 buf off = Ok v -> 0 <= v <= SIZE_MAX -> safe (k v) Q) ->
  safe (bind (ReadU64 buf off) k) Q.
Proof.
  intros Hl Hk. unfold ReadU64 in *. rewrite load_Ok in * by lia. cbn [bind] in *.
  apply Hk; [done|]. pose proof (read_word_fits buf off 8 Hbytes Hoff Hl) as Hf.
  unfold fits in Hf. unfold SIZE_MAX. simpl in Hf. lia.
Qed.
End reads.

(** One step of a memory-safety proof: pass a guard, or read a word whose bounds
    follow from the context. *)
Ltac safe_step :=
  match goal with
  | |- safe (guard _ _) _ => apply safe_guard; intros ?; bool_prop
  | |- safe (bind (ReadU8 _ _) _) _ => apply safe_ReadU8; [done|lia|lia|intros ? ? ?]
  | |- safe (bind (ReadU16 _ _) _) _ => apply safe_ReadU16; [done|lia|lia|intros ? ? ?]
  | |- safe (bind (ReadU32 _ _) _) _ => apply safe_ReadU32; [done|lia|lia|intros ? ? ?]
  | |- safe (bind (ReadU64 _ _) _) _ => apply safe_ReadU64; [done|lia|lia|intros ? ? ?]
  | |- safe (bind (load _ _ _) _) _ => rewrite load_Ok by lia; cbn [bind]
  end.

(** ** UTF-16 code units *)

Definition encode_units (s : list Z) : list Z := s ≫= le_bytes 2.

Fixpoint decode_units (n : nat) (bs : list Z) : list Z :=
  match n with
  | O => []
  | S n' => le_value (take 2 bs) :: decode_units n' (drop 2 bs)
  end.

Definition is_unit (c : Z) : Prop := 0 <= c < 65536.

Lemma length_encode_units s : length (encode_units s) = (2 * length s)%nat.
Proof.
  induction s as [|c s IH]; [done|].
  unfold encode_units in *. cbn [mbind list_bind]. rewrite length_app, length_le_bytes, IH.
  simpl. lia.
Qed.

Lemma zlen_encode_units s : zlen (encode_units s) = 2 * zlen s.
Proof. unfold zlen. rewrite length_encode_units. lia. Qed.
#[export] Hint Rewrite zlen_encode_units : ff_size.

Lemma decode_encode_units s rest :
  Forall is_unit s -> decode_units (length s) (encode_units s ++ rest) = s.
Proof.
  induction 1 as [|c s Hc _ IH]; [done|].
  cbn [length decode_units]. unfold encode_units in *.
  cbn [mbind list_bind]. rewrite <-app_assoc.
  rewrite take_app_length' by (by rewrite length_le_bytes).
  rewrite drop_app_length' by (by rewrite length_le_bytes).
  rewrite IH, le_value_le_bytes; [done|]. unfold fits, is_unit in *. lia.
Qed.

Lemma length_decode_units n bs : length (decode_units n bs) = n.
Proof. revert bs. induction n; intros; simpl; auto. Qed.

Lemma decode_units_take n bs : decode_units n (take (2 * n) bs) = decode_units n bs.
Proof.
  revert bs. induction n as [|n IH]; intros bs; [done|].
  replace (2 * S n)%nat with (2 + 2 * n)%nat by lia.
  cbn [decode_units]. rewrite <-take_drop_commute, IH, take_take.
  by replace (2 `min` (2 + 2 * n))%nat with 2%nat by lia.
Qed.

Lemma encode_decode_units n bs :
  Forall is_byte bs -> length bs = (2 * n)%nat -> encode_units (decode_units n bs) = bs.
Proof.
  revert bs. induction n as [|n IH]; intros bs Hb Hl.
  - destruct bs; [done|simpl in Hl; lia].
  - destruct bs as [|b0 [|b1 bs]]; simpl in Hl; try lia.
    cbn [decode_units]. unfold encode_units. cbn [mbind list_bind].
    change (take 2 (b0 :: b1 :: bs)) with [b0; b1]. change (drop 2 (b0 :: b1 :: bs)) with bs.
    rewrite Forall_cons, Forall_cons in Hb. destruct Hb as (? & ? & Hb).
    change 2%nat with (length [b0; b1]) at 1.
    rewrite le_bytes_le_value by (do 2 (constructor; [done|]); constructor).
    fold (encode_units (decode_units n bs)). by rewrite IH by (auto; lia).
Qed.

Lemma decode_units_are_units n bs :
  Forall is_byte bs -> length bs = (2 * n)%nat -> Forall is_unit (decode_units n bs).
Proof.
  revert bs. induction n as [|n IH]; intros bs Hb Hl; [constructor|].
  destruct bs as [|b0 [|b1 bs]]; simpl in Hl; try lia.
  rewrite Forall_cons, Forall_cons in Hb. destruct Hb as (Hb0 & Hb1 & Hb).
  cbn [decode_units]. constructor; [|apply IH; [done|change (drop 2 (b0 :: b1 :: bs)) with bs; lia]].
  unfold is_byte, is_unit in *. simpl. lia.
Qed.

(** ** Packed structures

    A [#pragma pack(push, 1)] struct is a record whose fields have byte widths;
    its wire image is the concatenation of the little-endian fields.  The class
    states the view of such a struct as a list of field values: it is the
    contract of the [FixedT] template parameters of the source. *)

Fixpoint encode_fields (ws : list nat) (vs : list Z) : list Z :=
  match ws, vs with
  | w :: ws', v :: vs' => le_bytes w v ++ encode_fields ws' vs'
  | _, _ => []
  end.

Fixpoint decode_fields (ws : list nat) (bs : list Z) : list Z :=
  match ws with
  | [] => []
  | w :: ws' => le_value (take w bs) :: decode_fields ws' (drop w bs)
  end.

Class Packed (T : Type) := {
  widths : list nat;
  to_fields : T -> list Z;
  of_fields : list Z -> T;
  of_to_fields : forall t, of_fields (to_fields t) = t;
  to_of_fields : forall vs, length vs = length widths -> to_fields (of_fields vs) = vs;
  length_to_fields : forall t, length (to_fields t) = length widths
}.
Arguments widths T {_}.

Definition sizeof_nat (T : Type) `{Packed T} : nat := sum_list (widths T).
Definition sizeof (T : Type) `{Packed T} : Z := Z.of_nat (sizeof_nat T).
Definition struct_bytes {T} `{Packed T} (t : T) : list Z := encode_fields (widths T) (to_fields t).
Definition struct_of_bytes (T : Type) `{Packed T} (bs : list Z) : T :=
  of_fields (decode_fields (widths T) bs).

(** Every field holds a value of its declared width. *)
Definition struct_ok {T} `{Packed T} (t : T) : Prop := Forall2 fits (widths T) (to_fields t).

(** [std::memcpy(&fixed, payload + off, sizeof(FixedT))]. *)
Definition load_struct (T : Type) `{Packed T} (buf : list Z) (off : Z) : result T :=
  let* bs := load buf off (sizeof_nat T) in Ok (struct_of_bytes T bs).

Definition fld (vs : list Z) (i : nat) : Z := nth i vs 0.

Lemma length_encode_fields ws vs :
  length vs = length ws -> length (encode_fields ws vs) = sum_list ws.
Proof.
  revert vs. induction ws as [|w ws IH]; intros [|v vs] Hl; simpl in *; try lia.
  rewrite length_app, length_le_bytes, IH; lia.
Qed.

Lemma decode_encode_fields ws vs rest :
  Forall2 fits ws vs -> decode_fields ws (encode_fields ws vs ++ rest) = vs.
Proof.
  induction 1 as [|w v ws vs Hf _ IH]; [done|].
  cbn [encode_fields decode_fields]. rewrite <-app_assoc.
  rewrite take_app_length' by (by rewrite length_le_bytes).
  rewrite drop_app_length' by (by rewrite length_le_bytes).
  by rewrite le_value_le_bytes, IH.
Qed.

Lemma length_decode_fields ws bs : length (decode_fields ws bs) = length ws.
Proof. revert bs. induction ws; intros; simpl; auto. Qed.

Lemma encode_decode_fields ws bs :
  Forall is_byte bs -> length bs = sum_list ws -> encode_fields ws (decode_fields ws bs) = bs.
Proof.
  revert bs. induction ws as [|w ws IH]; intros bs Hb Hl; simpl in Hl.
  - by destruct bs.
  - cbn [decode_fields encode_fields].
    assert (length (take w bs) = w) as Hw by (rewrite length_take; lia).
    rewrite <-Hw at 1. rewrite le_bytes_le_value by by apply Forall_take.
    rewrite IH; [apply take_drop|by apply Forall_drop|rewrite length_drop; lia].
Qed.

Lemma decode_fields_fit ws bs :
  Forall is_byte bs -> length bs = sum_list ws -> Forall2 fits ws (decode_fields ws bs).
Proof.
  revert bs. induction ws as [|w ws IH]; intros bs Hb Hl; simpl in Hl; [constructor|].
  cbn [decode_fields]. constructor.
  - assert (length (take w bs) = w) as Hw by (rewrite length_take; lia).
    rewrite <-Hw at 1. apply le_value_fits. by apply Forall_take.
  - apply IH; [by apply Forall_drop|rewrite length_drop; lia].
Qed.

Section packed.
Context {T : Type} `{Packed T}.

Lemma length_struct_bytes (t : T) : length (struct_bytes t) = sizeof_nat T.
Proof. apply length_encode_fields, length_to_fields. Qed.

Lemma zlen_struct_bytes (t : T) : zlen (struct_bytes t) = sizeof T.
Proof. unfold zlen. by rewrite length_struct_bytes. Qed.

Lemma sizeof_nonneg : 0 <= sizeof T.
Proof. unfold sizeof. lia. Qed.

Lemma struct_of_struct_bytes (t : T) rest :
  struct_ok t -> struct_of_bytes T (struct_bytes t ++ rest) = t.
Proof.
  intros Hok. unfold struct_of_bytes, struct_bytes.
  by rewrite decode_encode_fields, of_to_fields.
Qed.

Lemma struct_bytes_of_bytes bs :
  Forall is_byte bs -> length bs = sizeof_nat T -> struct_bytes (struct_of_bytes T bs) = bs.
Proof.
  intros. unfold struct_bytes, struct_of_bytes.
  rewrite to_of_fields by apply length_decode_fields. by apply encode_decode_fields.
Qed.

Lemma struct_of_bytes_ok bs :
  Forall is_byte bs -> length bs = sizeof_nat T -> struct_ok (struct_of_bytes T bs).
Proof.
  intros. unfold struct_ok, struct_of_bytes.
  rewrite to_of_fields by apply length_decode_fields. by apply decode_fields_fit.
Qed.

Lemma load_struct_Ok buf off :
  0 <= off -> off + sizeof T <= zlen buf ->
  load_struct T buf off = Ok (struct_of_bytes T (slice buf off (sizeof_nat T))).
Proof. unfold sizeof, load_struct. intros. by rewrite load_Ok. Qed.

Lemma load_struct_app pre (t : T) rest :
  struct_ok t -> load_struct T (pre ++ struct_bytes t ++ rest) (zlen pre) = Ok t.
Proof.
  intros Hok. rewrite load_struct_Ok; [|apply zlen_nonneg|].
  - rewrite slice_app_r, take_app_length' by (by rewrite length_struct_bytes).
    by rewrite <-(app_nil_r (struct_bytes t)), struct_of_struct_bytes.
  - rewrite !zlen_app, zlen_struct_bytes. pose proof (zlen_nonneg rest). lia.
Qed.
Lemma load_struct_head (t : T) rest :
  struct_ok t -> load_struct T (struct_bytes t ++ rest) 0 = Ok t.
Proof. exact (load_struct_app [] t rest). Qed.
End packed.

#[export] Hint Rewrite @zlen_struct_bytes : ff_size.

(** Discharges the laws of [Packed] for a record given by its constructor and
    projections. *)
Ltac solve_packed :=
  first
    [ intros []; reflexivity
    | let vs := fresh "vs" in let Hl := fresh "Hl" in
      intros vs Hl; repeat (destruct vs as [|? vs]; try discriminate Hl); reflexivity ].

(** Concrete structs, strings and byte buffers. *)
Ltac solve_struct_ok :=
  unfold struct_ok; cbn [widths to_fields];
  repeat (apply Forall2_cons; split; [unfold fits; cbn; lia|]); apply Forall2_nil; done.
Ltac solve_units :=
  repeat (apply Forall_cons; split; [unfold is_unit; lia|]); apply Forall_nil; done.
Ltac solve_bytes :=
  vm_compute; repeat (apply Forall_cons; split; [split; [discriminate|reflexivity]|]);
  apply Forall_nil; done.
