(* ===== verification/Wire.v ===== *)
(** * Frames, message types and protocol versions

    The engine/service seam of [src/protocol]: the frame header and its length
    bound (Frame), the closed set of message types (Commands), header
    validation (Dispatch) and version compatibility (Version). *)

From S2P Require Import Prelude.

(** ** Frame header (Frame.h, Frame.cpp) *)

Record FrameHeader := mkFrameHeader {
  totalLength : Z;    (* uint32_t *)
  structVersion : Z;  (* uint16_t *)
  messageType : Z     (* uint16_t *)
}.

#[export, refine] Instance FrameHeader_packed : Packed FrameHeader := {|
  widths := [4; 2; 2]%nat;
  to_fields h := [totalLength h; structVersion h; messageType h];
  of_fields vs := mkFrameHeader (fld vs 0) (fld vs 1) (fld vs 2)
|}.
Proof. all: solve_packed. Defined.

Definition kMaxFrameSize : Z := 1 * 1024 * 1024.

Definition IsFrameLengthValid (len : Z) : bool :=
  (sizeof FrameHeader <=? len) && (len <=? kMaxFrameSize).

(** ** Message types (Commands.h, Commands.cpp) *)

Inductive MessageType :=
| Handshake | HandshakeAck | HandshakeReject | IncompatibleVersion
| EnumerateVolumes | VolumeList | StartVolumeScan | StopVolumeScan
| OpenUsnJournal | CloseUsnJournal | Heartbeat | HeartbeatAck
| ScanRecordBatch | ScanComplete | UsnJournalOpened | JournalRecordBatch
| JournalResumeInvalid | JournalRecordBatchV2 | ScanRecordBatchV2
| JournalRecordBatchV3 | ScanFailed | ScanAttemptStarted.

#[export] Instance MessageType_eq_dec : EqDecision MessageType.
Proof. solve_decision. Defined.

(** The enumerators' values. *)
Definition raw_of_MessageType (m : MessageType) : Z :=
  match m with
  | Handshake => 1 | HandshakeAck => 2 | HandshakeReject => 3 | IncompatibleVersion => 4
  | EnumerateVolumes => 5 | VolumeList => 6 | StartVolumeScan => 7 | StopVolumeScan => 8
  | OpenUsnJournal => 9 | CloseUsnJournal => 10 | Heartbeat => 12 | HeartbeatAck => 13
  | ScanRecordBatch => 14 | ScanComplete => 15 | UsnJournalOpened => 16
  | JournalRecordBatch => 17 | JournalResumeInvalid => 18 | JournalRecordBatchV2 => 19
  | ScanRecordBatchV2 => 20 | JournalRecordBatchV3 => 21 | ScanFailed => 22
  | ScanAttemptStarted => 23
  end.

(** The bounds-checked switch over the raw wire value. *)
Definition ToMessageType (raw : Z) : option MessageType :=
  match raw with
  | 1 => Some Handshake | 2 => Some HandshakeAck | 3 => Some HandshakeReject
  | 4 => Some IncompatibleVersion | 5 => Some EnumerateVolumes | 6 => Some VolumeList
  | 7 => Some StartVolumeScan | 8 => Some StopVolumeScan | 9 => Some OpenUsnJournal
  | 10 => Some CloseUsnJournal | 12 => Some Heartbeat | 13 => Some HeartbeatAck
  | 14 => Some ScanRecordBatch | 15 => Some ScanComplete | 16 => Some UsnJournalOpened
  | 17 => Some JournalRecordBatch | 18 => Some JournalResumeInvalid
  | 19 => Some JournalRecordBatchV2 | 20 => Some ScanRecordBatchV2
  | 21 => Some JournalRecordBatchV3 | 22 => Some ScanFailed | 23 => Some ScanAttemptStarted
  | _ => None
  end.

Definition kMaxScanCursorLengthBytes : Z := 256.
Definition kKnownStartVolumeScanFlags : Z := 1.

Definition AreStartVolumeScanFlagsValid (flags : Z) : bool :=
  Z.land flags (Z.lnot kKnownStartVolumeScanFlags) =? 0.

Definition IsScanCursorLengthValid (lengthBytes : Z) : bool :=
  lengthBytes <=? kMaxScanCursorLengthBytes.

(** ** Header validation (Dispatch.h, Dispatch.cpp) *)

Definition kCurrentStructVersion : Z := 1.

Inductive FrameValidationResult :=
| Valid
| RejectedOversizedFrame
| RejectedUnknownMessageType
| RejectedUnsupportedStructVersion.

Definition ValidateFrame (header : FrameHeader) : FrameValidationResult :=
  if negb (IsFrameLengthValid (totalLength header)) then RejectedOversizedFrame
  else match ToMessageType (messageType header) with
       | None => RejectedUnknownMessageType
       | Some _ =>
           if negb (structVersion header =? kCurrentStructVersion)
           then RejectedUnsupportedStructVersion
           else Valid
       end.

(** ** Protocol versions (Version.h, Version.cpp) *)

Record ProtocolVersion := mkProtocolVersion { major : Z; minor : Z }.

Definition kCurrentProtocolVersion : ProtocolVersion := mkProtocolVersion 2 3.

(** [peer.major + 1] is computed in [int]: no wrap-around at 65535. *)
Definition IsVersionCompatible (local peer : ProtocolVersion) : bool :=
  if major peer =? major local then true else major peer + 1 =? major local.

Definition ProtocolSupportsAllocatedSize (v : ProtocolVersion) : bool :=
  (2 <? major v) || ((major v =? 2) && (1 <=? minor v)).
Definition ProtocolSupportsScanFailure (v : ProtocolVersion) : bool :=
  (2 <? major v) || ((major v =? 2) && (2 <=? minor v)).
Definition ProtocolSupportsScanAttemptStarted (v : ProtocolVersion) : bool :=
  (2 <? major v) || ((major v =? 2) && (3 <=? minor v)).

(** ** Theorems *)

Lemma ToMessageType_raw m : ToMessageType (raw_of_MessageType m) = Some m.
Proof. by destruct m. Qed.

Lemma ToMessageType_Some raw m : ToMessageType raw = Some m -> raw = raw_of_MessageType m.
Proof.
  unfold ToMessageType. intros Hm.
  repeat (case_match; try discriminate); by simplify_eq/=.
Qed.

Lemma sizeof_FrameHeader : sizeof FrameHeader = 8.
Proof. reflexivity. Qed.

Lemma IsFrameLengthValid_iff len : IsFrameLengthValid len = true <-> 8 <= len <= kMaxFrameSize.
Proof. unfold IsFrameLengthValid. rewrite sizeof_FrameHeader, andb_true_iff, !Z.leb_le. lia. Qed.
