(* ===== verification/Records.v ===== *)
(** * MFT and USN record batches

    The wire layer for index records, [src/protocol/src/Records.cpp]: the fixed
    layouts, the whole-batch parser with its template parameter, the serializer,
    and the conversions between USN record versions.  [ParseBatch] is shown to
    be memory safe on every payload and to accept exactly the images of
    [SerializeBatch]. *)

From S2P Require Import Prelude.

Definition kMaxFileNameLengthChars : Z := 255.
Definition kMaxBatchRecordCount : Z := 8192.

(** ** Fixed layouts *)

Record MftRecordFixedV1 := mkMftRecordFixedV1 {
  m1_fileReferenceNumber : Z;
  m1_parentFileReferenceNumber : Z;
  m1_creationTime : Z;
  m1_lastModifiedTime : Z;
  m1_lastAccessTime : Z;
  m1_sizeBytes : Z;
  m1_fileAttributes : Z;
  m1_fileNameLengthChars : Z
}.

#[export, refine] Instance MftRecordFixedV1_packed : Packed MftRecordFixedV1 := {|
  widths := [8; 8; 8; 8; 8; 8; 4; 2]%nat;
  to_fields r := [m1_fileReferenceNumber r; m1_parentFileReferenceNumber r; m1_creationTime r; m1_lastModifiedTime r; m1_lastAccessTime r; m1_sizeBytes r; m1_fileAttributes r; m1_fileNameLengthChars r];
  of_fields vs := mkMftRecordFixedV1 (fld vs 0) (fld vs 1) (fld vs 2) (fld vs 3) (fld vs 4) (fld vs 5) (fld vs 6) (fld vs 7)
|}.
Proof. all: solve_packed. Defined.

Record MftRecordFixedV2 := mkMftRecordFixedV2 {
  m2_fileReferenceNumber : Z;
  m2_parentFileReferenceNumber : Z;
  m2_creationTime : Z;
  m2_lastModifiedTime : Z;
  m2_lastAccessTime : Z;
  m2_sizeBytes : Z;
  m2_allocatedSizeBytes : Z;
  m2_fileAttributes : Z;
  m2_fileNameLengthChars : Z
}.

#[export, refine] Instance MftRecordFixedV2_packed : Packed MftRecordFixedV2 := {|
  widths := [8; 8; 8; 8; 8; 8; 8; 4; 2]%nat;
  to_fields r := [m2_fileReferenceNumber r; m2_parentFileReferenceNumber r; m2_creationTime r; m2_lastModifiedTime r; m2_lastAccessTime r; m2_sizeBytes r; m2_allocatedSizeBytes r; m2_fileAttributes r; m2_fileNameLengthChars r];
  of_fields vs := mkMftRecordFixedV2 (fld vs 0) (fld vs 1) (fld vs 2) (fld vs 3) (fld vs 4) (fld vs 5) (fld vs 6) (fld vs 7) (fld vs 8)
|}.
Proof. all: solve_packed. Defined.

Record UsnDeltaFixedV1 := mkUsnDeltaFixedV1 {
  u1_usn : Z;
  u1_fileReferenceNumber : Z;
  u1_parentFileReferenceNumber : Z;
  u1_reason : Z;
  u1_timestamp : Z;
  u1_sizeBytes : Z;
  u1_fileAttributes : Z;
  u1_fileNameLengthChars : Z
}.

#[export, refine] Instance UsnDeltaFixedV1_packed : Packed UsnDeltaFixedV1 := {|
  widths := [8; 8; 8; 4; 8; 8; 4; 2]%nat;
  to_fields r := [u1_usn r; u1_fileReferenceNumber r; u1_parentFileReferenceNumber r; u1_reason r; u1_timestamp r; u1_sizeBytes r; u1_fileAttributes r; u1_fileNameLengthChars r];
  of_fields vs := mkUsnDeltaFixedV1 (fld vs 0) (fld vs 1) (fld vs 2) (fld vs 3) (fld vs 4) (fld vs 5) (fld vs 6) (fld vs 7)
|}.
Proof. all: solve_packed. Defined.

Record UsnDeltaFixedV2 := mkUsnDeltaFixedV2 {
  u2_usn : Z;
  u2_fileReferenceNumber : Z;
  u2_parentFileReferenceNumber : Z;
  u2_reason : Z;
  u2_timestamp : Z;
  u2_creationTime : Z;
  u2_lastModifiedTime : Z;
  u2_lastAccessTime : Z;
  u2_sizeBytes : Z;
  u2_fileAttributes : Z;
  u2_fieldMask : Z;
  u2_fileNameLengthChars : Z
}.

#[export, refine] Instance UsnDeltaFixedV2_packed : Packed UsnDeltaFixedV2 := {|
  widths := [8; 8; 8; 4; 8; 8; 8; 8; 8; 4; 4; 2]%nat;
  to_fields r := [u2_usn r; u2_fileReferenceNumber r; u2_parentFileReferenceNumber r; u2_reason r; u2_timestamp r; u2_creationTime r; u2_lastModifiedTime r; u2_lastAccessTime r; u2_sizeBytes r; u2_fileAttributes r; u2_fieldMask r; u2_fileNameLengthChars r];
  of_fields vs := mkUsnDeltaFixedV2 (fld vs 0) (fld vs 1) (fld vs 2) (fld vs 3) (fld vs 4) (fld vs 5) (fld vs 6) (fld vs 7) (fld vs 8) (fld vs 9) (fld vs 10) (fld vs 11)
|}.
Proof. all: solve_packed. Defined.

Record UsnDeltaFixedV3 := mkUsnDeltaFixedV3 {
  u3_usn : Z;
  u3_fileReferenceNumber : Z;
  u3_parentFileReferenceNumber : Z;
  u3_reason : Z;
  u3_timestamp : Z;
  u3_creationTime : Z;
  u3_lastModifiedTime : Z;
  u3_lastAccessTime : Z;
  u3_sizeBytes : Z;
  u3_allocatedSizeBytes : Z;
  u3_fileAttributes : Z;
  u3_fieldMask : Z;
  u3_fileNameLengthChars : Z
}.

#[export, refine] Instance UsnDeltaFixedV3_packed : Packed UsnDeltaFixedV3 := {|
  widths := [8; 8; 8; 4; 8; 8; 8; 8; 8; 8; 4; 4; 2]%nat;
  to_fields r := [u3_usn r; u3_fileReferenceNumber r; u3_parentFileReferenceNumber r; u3_reason r; u3_timestamp r; u3_creationTime r; u3_lastModifiedTime r; u3_lastAccessTime r; u3_sizeBytes r; u3_allocatedSizeBytes r; u3_fileAttributes r; u3_fieldMask r; u3_fileNameLengthChars r];
  of_fields vs := mkUsnDeltaFixedV3 (fld vs 0) (fld vs 1) (fld vs 2) (fld vs 3) (fld vs 4) (fld vs 5) (fld vs 6) (fld vs 7) (fld vs 8) (fld vs 9) (fld vs 10) (fld vs 11) (fld vs 12)
|}.
Proof. all: solve_packed. Defined.

(** The [static_assert]s of Records.h. *)
Lemma record_layout_contract :
  sizeof MftRecordFixedV1 = 8 * 6 + 4 + 2 /\ sizeof UsnDeltaFixedV1 = 8 * 5 + 4 * 2 + 2 /\
  sizeof UsnDeltaFixedV2 = 8 * 8 + 4 * 3 + 2.
Proof. auto. Qed.

(** ** USN presence mask *)

Definition kUsnFieldParentId : Z := Z.shiftl 1 0.
Definition kUsnFieldName : Z := Z.shiftl 1 1.
Definition kUsnFieldSizeBytes : Z := Z.shiftl 1 2.
Definition kUsnFieldCreationTime : Z := Z.shiftl 1 3.
Definition kUsnFieldLastModifiedTime : Z := Z.shiftl 1 4.
Definition kUsnFieldLastAccessTime : Z := Z.shiftl 1 5.
Definition kUsnFieldAttributes : Z := Z.shiftl 1 6.
Definition kUsnFieldAllocatedSizeBytes : Z := Z.shiftl 1 7.
Definition kUsnFieldMaskAll : Z :=
  Z.lor kUsnFieldParentId (Z.lor kUsnFieldName (Z.lor kUsnFieldSizeBytes
  (Z.lor kUsnFieldCreationTime (Z.lor kUsnFieldLastModifiedTime
  (Z.lor kUsnFieldLastAccessTime (Z.lor kUsnFieldAttributes kUsnFieldAllocatedSizeBytes)))))).
Definition kUsnFieldMaskRequiredForV1 : Z :=
  Z.lor kUsnFieldParentId (Z.lor kUsnFieldName (Z.lor kUsnFieldSizeBytes
  (Z.lor kUsnFieldLastModifiedTime kUsnFieldAttributes))).

(** [(mask & ~kUsnFieldMaskAll) != 0] is the parsers' rejection test. *)
Definition HasUnknownMaskBits (mask : Z) : bool :=
  negb (Z.land mask (not32 kUsnFieldMaskAll) =? 0).

(** ** The batch parser's template parameter

    What [ParseBatch]/[SerializeBatch] need of [FixedT]: a packed layout with a
    16-bit [fileNameLengthChars] field. *)

Class BatchFixed (FixedT : Type) := {
  batch_packed :: Packed FixedT;
  fileNameLengthChars : FixedT -> Z;
  fileNameLengthChars_u16 : forall t, struct_ok t -> fits 2 (fileNameLengthChars t);
  batch_size_small : 0 < sizeof FixedT < 65536
}.

Ltac solve_batch_fixed :=
  first
    [ by (vm_compute; auto)
    | let t := fresh "t" in let Hok := fresh "Hok" in
      intros t Hok; unfold struct_ok in Hok; simpl in Hok;
      repeat (apply Forall2_cons in Hok; destruct Hok as [? Hok]); done ].

#[export, refine] Instance MftRecordFixedV1_batch : BatchFixed MftRecordFixedV1 := {|
  fileNameLengthChars := m1_fileNameLengthChars
|}.
Proof. all: solve_batch_fixed. Defined.

#[export, refine] Instance MftRecordFixedV2_batch : BatchFixed MftRecordFixedV2 := {|
  fileNameLengthChars := m2_fileNameLengthChars
|}.
Proof. all: solve_batch_fixed. Defined.

#[export, refine] Instance UsnDeltaFixedV1_batch : BatchFixed UsnDeltaFixedV1 := {|
  fileNameLengthChars := u1_fileNameLengthChars
|}.
Proof. all: solve_batch_fixed. Defined.

#[export, refine] Instance UsnDeltaFixedV2_batch : BatchFixed UsnDeltaFixedV2 := {|
  fileNameLengthChars := u2_fileNameLengthChars
|}.
Proof. all: solve_batch_fixed. Defined.

#[export, refine] Instance UsnDeltaFixedV3_batch : BatchFixed UsnDeltaFixedV3 := {|
  fileNameLengthChars := u3_fileNameLengthChars
|}.
Proof. all: solve_batch_fixed. Defined.

(** ** Parser *)

Definition IsFileNameLengthValid (lengthChars : Z) : bool :=
  (1 <=? lengthChars) && (lengthChars <=? kMaxFileNameLengthChars).

Definition IsBatchCountPlausible (declaredCount payloadSize fixedRecordSize : Z) : bool :=
  if kMaxBatchRecordCount <? declaredCount then false
  else
    let minPossibleSize := mul64 declaredCount (add64 fixedRecordSize 2) in
    minPossibleSize <=? payloadSize.

(** A payload pointer: [None] is [nullptr]. *)
Definition load_ptr (payload : option (list Z)) (off : Z) (n : nat) : result (list Z) :=
  match payload with Some buf => load buf off n | None => if (n =? 0)%nat then Ok [] else Fault end.

Section batch.
Context {FixedT : Type} `{BatchFixed FixedT}.

Fixpoint ParseBatch_loop (n : nat) (payload : option (list Z)) (payloadSize offset : Z)
  : result (list (FixedT * list Z) * Z) :=
  match n with
  | O => Ok ([], offset)
  | S n' =>
      guard (negb ((payloadSize <? offset) || (sub64 payloadSize offset <? sizeof FixedT)))
      (let* fixedBytes := load_ptr payload offset (sizeof_nat FixedT) in
       let fixed := struct_of_bytes FixedT fixedBytes in
       let offset := add64 offset (sizeof FixedT) in
       guard (IsFileNameLengthValid (fileNameLengthChars fixed))
       (let fileNameBytes := mul64 (fileNameLengthChars fixed) 2 in
        guard (negb (sub64 payloadSize offset <? fileNameBytes))
        (let* nameBytes := load_ptr payload offset (Z.to_nat fileNameBytes) in
         let fileName := decode_units (Z.to_nat (fileNameLengthChars fixed)) nameBytes in
         let* '(records, last) :=
           ParseBatch_loop n' payload payloadSize (add64 offset fileNameBytes) in
         Ok ((fixed, fileName) :: records, last))))
  end.

Definition ParseBatch (payload : option (list Z)) (payloadSize declaredCount : Z)
  : result (list (FixedT * list Z)) :=
  guard (negb (bool_decide (payload = None) && negb (payloadSize =? 0)))
  (guard (IsBatchCountPlausible declaredCount payloadSize (sizeof FixedT))
   (let* '(records, offset) :=
      ParseBatch_loop (Z.to_nat declaredCount) payload payloadSize 0 in
    guard (offset =? payloadSize) (Ok records))).

(** Serializer: records whose declared length is out of range or differs from
    the name's are dropped. *)
Definition IsSerializable (r : FixedT * list Z) : bool :=
  IsFileNameLengthValid (fileNameLengthChars r.1) &&
  (fileNameLengthChars r.1 =? zlen r.2).

Definition SerializeRecord (r : FixedT * list Z) : list Z :=
  struct_bytes r.1 ++ encode_units r.2.

Definition SerializeBatch (records : list (FixedT * list Z)) : list Z :=
  filter (fun r => IsSerializable r = true) records ≫= SerializeRecord.
End batch.

(** ** Records as the callers see them *)

Record WireRecord (FixedT : Type) := mkRecord { fixed : FixedT; fileName : list Z }.
Arguments mkRecord {_} _ _.
Arguments fixed {_} _.
Arguments fileName {_} _.

Definition MftRecordV1 := WireRecord MftRecordFixedV1.
Definition MftRecordV2 := WireRecord MftRecordFixedV2.
Definition UsnDeltaV1 := WireRecord UsnDeltaFixedV1.
Definition UsnDeltaV2 := WireRecord UsnDeltaFixedV2.
Definition UsnDeltaV3 := WireRecord UsnDeltaFixedV3.

Definition of_pair {F} (p : F * list Z) : WireRecord F := mkRecord p.1 p.2.
Definition to_pair {F} (r : WireRecord F) : F * list Z := (fixed r, fileName r).

Definition ParseMftBatch (payload : option (list Z)) (payloadSize declaredCount : Z)
  : result (list MftRecordV1) :=
  let* parsed := ParseBatch (FixedT := MftRecordFixedV1) payload payloadSize declaredCount in
  Ok (of_pair <$> parsed).

Definition ParseMftBatchV2 (payload : option (list Z)) (payloadSize declaredCount : Z)
  : result (list MftRecordV2) :=
  let* parsed := ParseBatch (FixedT := MftRecordFixedV2) payload payloadSize declaredCount in
  Ok (of_pair <$> parsed).

Definition ParseUsnDeltaBatch (payload : option (list Z)) (payloadSize declaredCount : Z)
  : result (list UsnDeltaV1) :=
  let* parsed := ParseBatch (FixedT := UsnDeltaFixedV1) payload payloadSize declaredCount in
  Ok (of_pair <$> parsed).

(** The V2 and V3 parsers reject the batch at the first unknown mask bit. *)
Fixpoint CheckMasks {F} (mask : F -> Z) (parsed : list (F * list Z)) : result (list (WireRecord F)) :=
  match parsed with
  | [] => Ok []
  | p :: rest =>
      guard (negb (HasUnknownMaskBits (mask p.1)))
      (let* tail := CheckMasks mask rest in Ok (of_pair p :: tail))
  end.

Definition ParseUsnDeltaV2Batch (payload : option (list Z)) (payloadSize declaredCount : Z)
  : result (list UsnDeltaV2) :=
  let* parsed := ParseBatch (FixedT := UsnDeltaFixedV2) payload payloadSize declaredCount in
  CheckMasks u2_fieldMask parsed.

Definition ParseUsnDeltaV3Batch (payload : option (list Z)) (payloadSize declaredCount : Z)
  : result (list UsnDeltaV3) :=
  let* parsed := ParseBatch (FixedT := UsnDeltaFixedV3) payload payloadSize declaredCount in
  CheckMasks u3_fieldMask parsed.

Definition SerializeMftBatch (rs : list MftRecordV1) : list Z := SerializeBatch (to_pair <$> rs).
Definition SerializeMftBatchV2 (rs : list MftRecordV2) : list Z := SerializeBatch (to_pair <$> rs).
Definition SerializeUsnDeltaBatch (rs : list UsnDeltaV1) : list Z := SerializeBatch (to_pair <$> rs).
Definition SerializeUsnDeltaV2Batch (rs : list UsnDeltaV2) : list Z := SerializeBatch (to_pair <$> rs).
Definition SerializeUsnDeltaV3Batch (rs : list UsnDeltaV3) : list Z := SerializeBatch (to_pair <$> rs).

(** ** Conversions between USN versions *)

Definition UpgradeUsnDeltaV1 (record : UsnDeltaV1) : UsnDeltaV2 :=
  let f := fixed record in
  mkRecord
    {| u2_usn := u1_usn f; u2_fileReferenceNumber := u1_fileReferenceNumber f;
       u2_parentFileReferenceNumber := u1_parentFileReferenceNumber f;
       u2_reason := u1_reason f; u2_timestamp := u1_timestamp f;
       u2_creationTime := 0; u2_lastModifiedTime := u1_timestamp f; u2_lastAccessTime := 0;
       u2_sizeBytes := u1_sizeBytes f; u2_fileAttributes := u1_fileAttributes f;
       u2_fieldMask := Z.lor kUsnFieldParentId (Z.lor kUsnFieldName (Z.lor kUsnFieldSizeBytes
                         (Z.lor kUsnFieldLastModifiedTime kUsnFieldAttributes)));
       u2_fileNameLengthChars := u1_fileNameLengthChars f |}
    (fileName record).

Definition DowngradeUsnDeltaV2 (record : UsnDeltaV2) : UsnDeltaV1 :=
  let f := fixed record in
  mkRecord
    {| u1_usn := u2_usn f; u1_fileReferenceNumber := u2_fileReferenceNumber f;
       u1_parentFileReferenceNumber := u2_parentFileReferenceNumber f;
       u1_reason := u2_reason f; u1_timestamp := u2_timestamp f;
       u1_sizeBytes := u2_sizeBytes f; u1_fileAttributes := u2_fileAttributes f;
       u1_fileNameLengthChars := u2_fileNameLengthChars f |}
    (fileName record).

Definition UpgradeUsnDeltaV2 (record : UsnDeltaV2) : UsnDeltaV3 :=
  let f := fixed record in
  mkRecord
    {| u3_usn := u2_usn f; u3_fileReferenceNumber := u2_fileReferenceNumber f;
       u3_parentFileReferenceNumber := u2_parentFileReferenceNumber f;
       u3_reason := u2_reason f; u3_timestamp := u2_timestamp f;
       u3_creationTime := u2_creationTime f; u3_lastModifiedTime := u2_lastModifiedTime f;
       u3_lastAccessTime := u2_lastAccessTime f; u3_sizeBytes := u2_sizeBytes f;
       u3_allocatedSizeBytes := 0; u3_fileAttributes := u2_fileAttributes f;
       u3_fieldMask := u2_fieldMask f; u3_fileNameLengthChars := u2_fileNameLengthChars f |}
    (fileName record).

Definition IsRepresentableInUsnV2 (record : UsnDeltaV3) : bool :=
  if HasUnknownMaskBits (u3_fieldMask (fixed record)) then false
  else Z.land (u3_fieldMask (fixed record)) kUsnFieldAllocatedSizeBytes =? 0.

Definition DowngradeUsnDeltaV3 (record : UsnDeltaV3) : UsnDeltaV2 :=
  let f := fixed record in
  mkRecord
    {| u2_usn := u3_usn f; u2_fileReferenceNumber := u3_fileReferenceNumber f;
       u2_parentFileReferenceNumber := u3_parentFileReferenceNumber f;
       u2_reason := u3_reason f; u2_timestamp := u3_timestamp f;
       u2_creationTime := u3_creationTime f; u2_lastModifiedTime := u3_lastModifiedTime f;
       u2_lastAccessTime := u3_lastAccessTime f; u2_sizeBytes := u3_sizeBytes f;
       u2_fileAttributes := u3_fileAttributes f; u2_fieldMask := u3_fieldMask f;
       u2_fileNameLengthChars := u3_fileNameLengthChars f |}
    (fileName record).

Definition DowngradeUsnDeltaV3ToV1 (record : UsnDeltaV3) : UsnDeltaV1 :=
  let f := fixed record in
  mkRecord
    {| u1_usn := u3_usn f; u1_fileReferenceNumber := u3_fileReferenceNumber f;
       u1_parentFileReferenceNumber := u3_parentFileReferenceNumber f;
       u1_reason := u3_reason f; u1_timestamp := u3_timestamp f;
       u1_sizeBytes := u3_sizeBytes f; u1_fileAttributes := u3_fileAttributes f;
       u1_fileNameLengthChars := u3_fileNameLengthChars f |}
    (fileName record).

(** ** Correctness of the batch parser *)

Section batch_proofs.
Context {FixedT : Type} `{BatchFixed FixedT}.

(** A record that the wire can carry. *)
Definition record_ok (r : FixedT * list Z) : Prop :=
  struct_ok r.1 /\ Forall is_unit r.2 /\ IsSerializable r = true.

Lemma record_ok_length r :
  record_ok r -> fileNameLengthChars r.1 = zlen r.2 /\ 1 <= zlen r.2 <= 255.
Proof.
  intros (_ & _ & Hs). unfold IsSerializable, IsFileNameLengthValid in Hs.
  unfold kMaxFileNameLengthChars in Hs. bool_prop. lia.
Qed.

Lemma zlen_SerializeRecord r : zlen (SerializeRecord r) = sizeof FixedT + 2 * zlen r.2.
Proof. unfold SerializeRecord. by autorewrite with ff_size. Qed.

Lemma SerializeBatch_ok rs :
  Forall record_ok rs -> SerializeBatch rs = rs ≫= SerializeRecord.
Proof.
  intros Hok. unfold SerializeBatch. f_equal.
  induction Hok as [|r rs (_ & _ & Hs) _ IH]; [done|].
  by rewrite filter_cons_True, IH.
Qed.

Lemma zlen_SerializeBatch_lower rs :
  Forall record_ok rs ->
  Z.of_nat (length rs) * (sizeof FixedT + 2) <= zlen (SerializeBatch rs).
Proof.
  intros Hok. rewrite SerializeBatch_ok by done.
  induction Hok as [|r rs Hr _ IH]; [done|].
  cbn [mbind list_bind length]. rewrite zlen_app, zlen_SerializeRecord.
  destruct (record_ok_length r Hr). nia.
Qed.

(** One record is read back from where it was written. *)
Lemma ParseBatch_loop_complete n buf payloadSize rs pre post :
  length rs = n -> Forall record_ok rs ->
  buf = pre ++ (rs ≫= SerializeRecord) ++ post ->
  zlen pre + zlen (rs ≫= SerializeRecord) <= payloadSize <= SIZE_MAX ->
  ParseBatch_loop n (Some buf) payloadSize (zlen pre)
  = Ok (rs, zlen pre + zlen (rs ≫= SerializeRecord)).
Proof.
  revert rs pre. induction n as [|n IH]; intros [|[f name] rs] pre Hn Hok Hbuf Hsz; try discriminate.
  - cbn. by rewrite Z.add_0_r.
  - apply Forall_cons in Hok. destruct Hok as [Hr Hok].
    destruct (record_ok_length _ Hr) as [Hlen Hrange]. destruct Hr as (Hf & Hname & Hser).
    simpl in Hlen, Hrange, Hname.
    cbn [mbind list_bind] in *.
    set (tail := rs ≫= SerializeRecord) in *.
    rewrite zlen_app, zlen_SerializeRecord in Hsz. cbn [fst snd] in Hsz.
    pose proof (zlen_nonneg pre). pose proof (zlen_nonneg tail).
    pose proof (batch_size_small (FixedT := FixedT)).
    cbn [ParseBatch_loop].
    unfold sub64 at 1. rewrite wrap64_small by lia.
    replace (negb _) with true
      by (symmetry; apply negb_true_iff, orb_false_iff; split; apply Z.ltb_ge; lia).
    cbn [guard load_ptr].
    rewrite load_Ok; [|lia|].
    2:{ subst buf. unfold SerializeRecord, sizeof in *. cbn [fst snd].
        autorewrite with ff_size. unfold sizeof. pose proof (zlen_nonneg post). lia. }
    cbn [bind].
    assert (struct_of_bytes FixedT (slice buf (zlen pre) (sizeof_nat FixedT)) = f) as ->.
    { subst buf. rewrite slice_app_r. unfold SerializeRecord. cbn [fst snd].
      rewrite <-!app_assoc, take_app_length' by (by rewrite length_struct_bytes).
      by rewrite <-(app_nil_r (struct_bytes f)), struct_of_struct_bytes. }
    unfold add64, mul64, sub64. rewrite Hlen.
    rewrite !wrap64_small by (rewrite ?wrap64_small; lia).
    unfold IsSerializable in Hser. cbn [fst snd] in Hser. apply andb_true_iff in Hser.
    rewrite Hlen in Hser. rewrite (proj1 Hser). cbn [guard].
    replace (negb _) with true by (symmetry; apply negb_true_iff; apply Z.ltb_ge; lia).
    cbn [guard].
    assert (buf = (pre ++ struct_bytes f) ++ encode_units name ++ tail ++ post) as Hbuf2.
    { subst buf. unfold SerializeRecord. cbn [fst snd]. by rewrite <-!app_assoc. }
    assert (zlen pre + sizeof FixedT = zlen (pre ++ struct_bytes f)) as Hz
      by (autorewrite with ff_size; lia).
    rewrite Hz. rewrite load_Ok; [|apply zlen_nonneg|].
    2:{ rewrite Hbuf2. autorewrite with ff_size. pose proof (zlen_nonneg post). lia. }
    cbn [bind].
    assert (decode_units (Z.to_nat (zlen name))
              (slice buf (zlen (pre ++ struct_bytes f)) (Z.to_nat (zlen name * 2))) = name) as ->.
    { rewrite Hbuf2, slice_app_r. rewrite take_app_length' by (rewrite length_encode_units; unfold zlen; lia).
      rewrite zlen_to_nat. rewrite <-(app_nil_r (encode_units name)). by apply decode_encode_units. }
    assert (zlen (pre ++ struct_bytes f) + zlen name * 2 = zlen (pre ++ SerializeRecord (f, name))) as ->
      by (unfold SerializeRecord; cbn [fst snd]; autorewrite with ff_size; lia).
    rewrite (IH rs (pre ++ SerializeRecord (f, name))); [| by injection Hn |done| |].
    + cbn [bind]. fold tail. f_equal. f_equal. autorewrite with ff_size. lia.
    + fold tail. subst buf. by rewrite <-!app_assoc.
    + fold tail. rewrite zlen_app, zlen_SerializeRecord. cbn [fst snd]. lia.
Qed.

(** What the loop returns re-serializes to the bytes it consumed. *)
Lemma ParseBatch_loop_sound n buf payloadSize offset :
  0 <= offset <= payloadSize -> payloadSize <= zlen buf -> payloadSize <= SIZE_MAX ->
  Forall is_byte buf ->
  safe (ParseBatch_loop n (Some buf) payloadSize offset) (fun '(rs, last) =>
    offset <= last <= payloadSize /\ length rs = n /\ Forall record_ok rs /\
    slice buf offset (Z.to_nat (last - offset)) = rs ≫= SerializeRecord).
Proof.
  revert offset. induction n as [|n IH]; intros offset Ho Hp Hm Hb.
  - cbn. rewrite Z.sub_diag. repeat split; auto; lia.
  - cbn [ParseBatch_loop]. pose proof (batch_size_small (FixedT := FixedT)).
    apply safe_guard. unfold sub64 at 1. rewrite wrap64_small by lia.
    intros Hg. bool_prop. cbn [load_ptr].
    rewrite load_Ok by (unfold sizeof in *; lia). cbn [bind].
    set (fb := slice buf offset (sizeof_nat FixedT)).
    assert (length fb = sizeof_nat FixedT) as Hfl
      by (apply length_slice; unfold sizeof in *; lia).
    assert (Forall is_byte fb) as Hfb by by apply Forall_slice.
    set (f := struct_of_bytes FixedT fb).
    pose proof (struct_of_bytes_ok fb Hfb Hfl) as Hfok. fold f in Hfok.
    apply safe_guard. intros Hv. pose proof Hv as Hv2.
    unfold IsFileNameLengthValid, kMaxFileNameLengthChars in Hv2. bool_prop.
    set (k := fileNameLengthChars f) in *.
    unfold add64, mul64, sub64.
    rewrite (wrap64_small (k * 2)), (wrap64_small (offset + _)), (wrap64_small (payloadSize - _))
      by (unfold SIZE_MAX in *; lia).
    apply safe_guard. intros Hg2. bool_prop.
    rewrite (wrap64_small (_ + k * 2)) by lia.
    rewrite load_Ok by lia. cbn [bind].
    set (nb := slice buf (offset + sizeof FixedT) (Z.to_nat (k * 2))).
    assert (length nb = (2 * Z.to_nat k)%nat) as Hnl
      by (unfold nb; rewrite length_slice by lia; lia).
    assert (Forall is_byte nb) as Hnb by by apply Forall_slice.
    eapply safe_bind; [apply IH; auto; lia|].
    intros [rs last] (Hlast & Hn & Hok & Hbytes). cbn [safe].
    split; [lia|]. split; [simpl; lia|]. split.
    + constructor; [|done]. split; [done|]. cbn [fst snd]. split.
      * by apply decode_units_are_units.
      * unfold IsSerializable. cbn [fst snd]. fold k. rewrite Hv.
        unfold zlen. rewrite length_decode_units, Z2Nat.id by lia. by rewrite Z.eqb_refl.
    + cbn [mbind list_bind]. unfold SerializeRecord at 1. cbn [fst snd].
      unfold f. rewrite struct_bytes_of_bytes by done.
      rewrite encode_decode_units by done.
      rewrite <-Hbytes. unfold fb, nb.
      rewrite (slice_split buf offset (sizeof_nat FixedT)) by (unfold sizeof in *; lia).
      rewrite <-app_assoc. f_equal. unfold sizeof at 1.
      rewrite (slice_split buf (offset + Z.of_nat (sizeof_nat FixedT)) (Z.to_nat (k * 2)))
        by (unfold sizeof in *; lia).
      f_equal. f_equal; unfold sizeof in *; lia.
Qed.

Lemma IsBatchCountPlausible_bound count size :
  0 <= count -> IsBatchCountPlausible count size (sizeof FixedT) = true ->
  count <= 8192 /\ count * (sizeof FixedT + 2) <= size.
Proof.
  intros Hc. unfold IsBatchCountPlausible, kMaxBatchRecordCount, mul64, add64.
  pose proof (batch_size_small (FixedT := FixedT)).
  destruct (Z.ltb_spec 8192 count); [discriminate|].
  rewrite !wrap64_small by (rewrite ?wrap64_small; unfold SIZE_MAX; nia).
  intros. bool_prop. lia.
Qed.

Lemma IsBatchCountPlausible_of_records rs :
  Forall record_ok rs -> Z.of_nat (length rs) <= 8192 ->
  IsBatchCountPlausible (Z.of_nat (length rs)) (zlen (SerializeBatch rs)) (sizeof FixedT) = true.
Proof.
  intros Hok Hn. unfold IsBatchCountPlausible, kMaxBatchRecordCount, mul64, add64.
  pose proof (batch_size_small (FixedT := FixedT)).
  destruct (Z.ltb_spec 8192 (Z.of_nat (length rs))); [lia|].
  rewrite !wrap64_small by (rewrite ?wrap64_small; unfold SIZE_MAX; nia).
  apply Z.leb_le. by apply zlen_SerializeBatch_lower.
Qed.

(** On any buffer that holds at least [payloadSize] bytes the parser stays
    inside it and inside [payloadSize], and rejects rather than faults. *)
Lemma ParseBatch_sound buf payloadSize count :
  0 <= payloadSize <= zlen buf -> payloadSize <= SIZE_MAX -> 0 <= count ->
  Forall is_byte buf ->
  safe (ParseBatch (Some buf) payloadSize count) (fun rs =>
    take (Z.to_nat payloadSize) buf = SerializeBatch rs /\ Forall record_ok rs /\
    Z.of_nat (length rs) = count /\ count <= kMaxBatchRecordCount).
Proof.
  intros Hp Hm Hc Hb. unfold ParseBatch.
  apply safe_guard. intros _. apply safe_guard.
  intros Hpl. destruct (IsBatchCountPlausible_bound _ _ Hc Hpl) as [Hc2 _].
  eapply safe_bind; [apply ParseBatch_loop_sound; auto; lia|].
  intros [rs last] (Hlast & Hn & Hok & Hbytes).
  apply safe_guard. intros He. bool_prop. subst last. cbn [safe].
  rewrite SerializeBatch_ok, <-Hbytes by done. unfold slice, kMaxBatchRecordCount.
  rewrite Z.sub_0_r. repeat split; auto; lia.
Qed.

Lemma ParseBatch_complete rs :
  Forall record_ok rs -> Z.of_nat (length rs) <= kMaxBatchRecordCount ->
  zlen (SerializeBatch rs) <= SIZE_MAX ->
  ParseBatch (Some (SerializeBatch rs)) (zlen (SerializeBatch rs)) (Z.of_nat (length rs)) = Ok rs.
Proof.
  intros Hok Hn Hm. unfold ParseBatch. cbn [bool_decide decide_rel andb negb guard].
  rewrite IsBatchCountPlausible_of_records by done. cbn [guard].
  rewrite SerializeBatch_ok in * by done. rewrite Nat2Z.id.
  change 0 with (zlen (@nil Z)).
  rewrite (ParseBatch_loop_complete _ _ _ rs [] []); auto.
  - rewrite zlen_nil. cbn [bind guard]. by rewrite Z.add_0_l, Z.eqb_refl.
  - by rewrite app_nil_r.
  - rewrite zlen_nil. lia.
Qed.
End batch_proofs.

Arguments record_ok {FixedT _} r.

Lemma ParseBatch_exact {FixedT} `{BatchFixed FixedT}
    (payload : list Z) (count : Z) (rs : list (FixedT * list Z)) :
  Forall is_byte payload -> zlen payload <= SIZE_MAX -> 0 <= count ->
  ParseBatch (Some payload) (zlen payload) count <> Fault /\
  (ParseBatch (Some payload) (zlen payload) count = Ok rs <->
   payload = SerializeBatch rs /\ Forall record_ok rs /\
   Z.of_nat (length rs) = count /\ count <= kMaxBatchRecordCount).
Proof.
  intros Hb Hm Hc. pose proof (zlen_nonneg payload).
  assert (safe (ParseBatch (FixedT := FixedT) (Some payload) (zlen payload) count) (fun rs =>
      take (Z.to_nat (zlen payload)) payload = SerializeBatch rs /\ Forall record_ok rs /\
      Z.of_nat (length rs) = count /\ count <= kMaxBatchRecordCount)) as Hs
    by (apply ParseBatch_sound; auto; lia).
  rewrite zlen_to_nat, take_ge in Hs by lia. split; [by eapply safe_no_fault|]. split.
  - intros HP. by rewrite HP in Hs.
  - intros (-> & Hok & <- & Hn). by apply ParseBatch_complete.
Qed.

(** ** USN batches with presence masks *)

Lemma CheckMasks_Ok {F} (mask : F -> Z) ps rs :
  CheckMasks mask ps = Ok rs <->
  rs = of_pair <$> ps /\ Forall (fun p => HasUnknownMaskBits (mask p.1) = false) ps.
Proof.
  revert rs. induction ps as [|p ps IH]; intros rs; cbn [CheckMasks].
  - split; [intros [= <-]; auto|intros [-> _]; auto].
  - rewrite Forall_cons. destruct (HasUnknownMaskBits (mask p.1)) eqn:E; cbn [guard negb].
    + split; [discriminate|intros (_ & [=] & _)].
    + destruct (CheckMasks mask ps) as [tl| |] eqn:Etl; cbn [bind].
      * destruct (proj1 (IH tl) eq_refl) as [-> Hall].
        split; [intros [= <-]; auto|intros (-> & _); auto].
      * split; [discriminate|]. intros (-> & _ & Hall).
        discriminate (proj2 (IH (of_pair <$> ps)) (conj eq_refl Hall)).
      * split; [discriminate|]. intros (-> & _ & Hall).
        discriminate (proj2 (IH (of_pair <$> ps)) (conj eq_refl Hall)).
Qed.

Lemma of_pair_to_pair {F} (rs : list (WireRecord F)) : of_pair <$> (to_pair <$> rs) = rs.
Proof. induction rs as [|[] rs IH]; [done|]. by rewrite !fmap_cons, IH. Qed.

Lemma to_pair_of_pair {F} (ps : list (F * list Z)) : to_pair <$> (of_pair <$> ps) = ps.
Proof. induction ps as [|[] ps IH]; [done|]. by rewrite !fmap_cons, IH. Qed.

(** The V3 records a peer may send. *)
Definition usn3_ok (r : UsnDeltaV3) : Prop :=
  record_ok (to_pair r) /\ HasUnknownMaskBits (u3_fieldMask (fixed r)) = false.

Lemma HasUnknownMaskBits_iff m : fits 4 m -> HasUnknownMaskBits m = false <-> m < 256.
Proof.
  intros Hm. unfold fits in Hm. unfold HasUnknownMaskBits.
  rewrite negb_false_iff, Z.eqb_eq.
  change (not32 kUsnFieldMaskAll) with (Z.shiftl (Z.ones 24) 8).
  split; intros Hz.
  - assert (m = Z.land m (Z.ones 8)) as ->.
    { rewrite <-(Z.mod_small m (2 ^ 32)) at 1 by (simpl in *; lia).
      rewrite <-Z.land_ones by lia.
      change (Z.ones 32) with (Z.lor (Z.ones 8) (Z.shiftl (Z.ones 24) 8)).
      by rewrite Z.land_lor_distr_r, Hz, Z.lor_0_r. }
    rewrite Z.land_ones by lia. apply (Z.mod_pos_bound m 256). lia.
  - apply Z.bits_inj'. intros i Hi. rewrite Z.land_spec, Z.bits_0.
    destruct (Z.lt_ge_cases i 8).
    + rewrite Z.shiftl_spec_low by lia. apply andb_false_r.
    + rewrite <-(Z.mod_small m (2 ^ 8)) by (change (2 ^ 8) with 256; lia).
      by rewrite Z.mod_pow2_bits_high by lia.
Qed.

Lemma usn3_mask_fits (r : UsnDeltaV3) : record_ok (to_pair r) -> fits 4 (u3_fieldMask (fixed r)).
Proof.
  intros [Hok _]. unfold struct_ok in Hok. simpl in Hok.
  do 12 (apply Forall2_cons in Hok; destruct Hok as [? Hok]). done.
Qed.

(** C22. Whole-batch contract of the template [ParseBatch]: on a payload of
    bytes it returns records exactly when the payload is, to the last byte, the
    serialization of those records, every record is well formed (name of 1 to
    255 code units whose declared length is its length), the count is the
    declared one and at most 8192.  No other input is accepted, and no input
    reads outside the payload. *)
Theorem ParseBatch_accepts_exactly {FixedT} `{BatchFixed FixedT}
    (payload : list Z) (count : Z) (rs : list (FixedT * list Z)) :
  Forall is_byte payload -> zlen payload <= SIZE_MAX -> 0 <= count ->
  ParseBatch (Some payload) (zlen payload) count <> Fault /\
  (ParseBatch (Some payload) (zlen payload) count = Ok rs <->
   payload = SerializeBatch rs /\ Forall record_ok rs /\
   Z.of_nat (length rs) = count /\ count <= kMaxBatchRecordCount).
Proof. apply ParseBatch_exact. Qed.

Definition sample_mft : MftRecordFixedV1 * list Z :=
  (mkMftRecordFixedV1 281474976710661 5 1 2 3 4096 32 3, [97; 46; 99]).

Lemma sample_mft_ok : record_ok sample_mft.
Proof. split; [solve_struct_ok|]. split; [solve_units|reflexivity]. Qed.

Lemma ParseBatch_accepts_exactly_witness :
  ParseBatch (Some (SerializeBatch [sample_mft])) 60 1 = Ok [sample_mft] /\
  ParseBatch (FixedT := MftRecordFixedV1) (Some (SerializeBatch [sample_mft] ++ [0])) 61 1 = Reject.
Proof.
  split; [|vm_compute; reflexivity].
  change 60 with (zlen (SerializeBatch [sample_mft])).
  apply (ParseBatch_accepts_exactly (SerializeBatch [sample_mft]) 1 [sample_mft]).
  - solve_bytes.
  - vm_compute. discriminate.
  - discriminate.
  - repeat split; [constructor; [apply sample_mft_ok|constructor]|discriminate].
Defined.

(** The V3 journal batch parser accepts exactly the serializations of
    well-formed V3 records whose presence mask has no bit outside the eight
    defined ones: one unknown bit in one record rejects the whole batch. *)
Theorem ParseUsnDeltaV3Batch_accepts_exactly (payload : list Z) (count : Z) (rs : list UsnDeltaV3) :
  Forall is_byte payload -> zlen payload <= SIZE_MAX -> 0 <= count ->
  ParseUsnDeltaV3Batch (Some payload) (zlen payload) count <> Fault /\
  (ParseUsnDeltaV3Batch (Some payload) (zlen payload) count = Ok rs <->
   payload = SerializeUsnDeltaV3Batch rs /\
   Forall (fun r => record_ok (to_pair r) /\ u3_fieldMask (fixed r) < 256) rs /\
   Z.of_nat (length rs) = count /\ count <= kMaxBatchRecordCount).
Proof.
  intros Hb Hm Hc.
  destruct (ParseBatch_exact payload count (to_pair <$> rs) Hb Hm Hc) as [HF Hiff].
  unfold ParseUsnDeltaV3Batch, SerializeUsnDeltaV3Batch. split.
  - destruct (ParseBatch _ _ _) as [ps| |] eqn:EP; cbn [bind]; [|done..].
    clear. induction ps as [|p ps IH]; cbn [CheckMasks]; [done|].
    destruct (HasUnknownMaskBits _); cbn [guard negb]; [done|].
    by destruct (CheckMasks u3_fieldMask ps).
  - assert (Forall (fun r => record_ok (to_pair r) /\ u3_fieldMask (fixed r) < 256) rs <->
            Forall record_ok (to_pair <$> rs) /\
            Forall (fun p => HasUnknownMaskBits (u3_fieldMask p.1) = false) (to_pair <$> rs)) as ->.
    { rewrite !Forall_fmap, <-Forall_and. apply Forall_iff. intros r. simpl.
      split; intros [Hok Hmask]; (split; [done|]); apply HasUnknownMaskBits_iff; auto using usn3_mask_fits. }
    split.
    + intros HP. inv_result. apply CheckMasks_Ok in HP. destruct HP as [-> Hmask].
      rewrite to_pair_of_pair in *. apply Hiff in H. rewrite length_fmap in *.
      destruct H as (? & ? & ? & ?). auto 6.
    + intros (Hpay & [Hok Hmask] & Hn & Hc2).
      rewrite (proj2 Hiff) by (rewrite length_fmap; auto). cbn [bind].
      apply CheckMasks_Ok. by rewrite of_pair_to_pair.
Qed.

Definition sample_usn3 : UsnDeltaV3 :=
  mkRecord (mkUsnDeltaFixedV3 10 20 5 256 7 1 2 3 100 4096 32 255 2) [120; 121].

Lemma ParseUsnDeltaV3Batch_accepts_exactly_witness :
  ParseUsnDeltaV3Batch (Some (SerializeUsnDeltaV3Batch [sample_usn3])) 90 1 = Ok [sample_usn3].
Proof.
  change 90 with (zlen (SerializeUsnDeltaV3Batch [sample_usn3])).
  apply (ParseUsnDeltaV3Batch_accepts_exactly (SerializeUsnDeltaV3Batch [sample_usn3]) 1).
  - solve_bytes.
  - vm_compute. discriminate.
  - discriminate.
  - repeat split; [|discriminate]. constructor; [|constructor].
    split; [|reflexivity].
    split; [solve_struct_ok|]. split; [solve_units|reflexivity].
Defined.

(** ** Version conversions *)

(** The USN version adapters compose as the peers rely on: downgrading an
    upgraded V1 record gives it back; upgrading keeps the record serializable
    in V2 with exactly the presence bits V1 guarantees; a V3 record that a V2
    peer may carry has no allocated-size bit, and going down to V2 and up again
    loses nothing but the (absent) allocated size; the direct V3-to-V1
    downgrade is the composition of the two steps. *)
Theorem usn_conversions :
  (forall r1, DowngradeUsnDeltaV2 (UpgradeUsnDeltaV1 r1) = r1) /\
  (forall r1, record_ok (to_pair r1) ->
     record_ok (to_pair (UpgradeUsnDeltaV1 r1)) /\
     u2_fieldMask (fixed (UpgradeUsnDeltaV1 r1)) = kUsnFieldMaskRequiredForV1) /\
  (forall r3, IsRepresentableInUsnV2 r3 = true ->
     Z.testbit (u3_fieldMask (fixed r3)) 7 = false /\
     UpgradeUsnDeltaV2 (DowngradeUsnDeltaV3 r3) =
       mkRecord (mkUsnDeltaFixedV3 (u3_usn (fixed r3)) (u3_fileReferenceNumber (fixed r3))
         (u3_parentFileReferenceNumber (fixed r3)) (u3_reason (fixed r3)) (u3_timestamp (fixed r3))
         (u3_creationTime (fixed r3)) (u3_lastModifiedTime (fixed r3)) (u3_lastAccessTime (fixed r3))
         (u3_sizeBytes (fixed r3)) 0 (u3_fileAttributes (fixed r3)) (u3_fieldMask (fixed r3))
         (u3_fileNameLengthChars (fixed r3))) (fileName r3)) /\
  (forall r3, DowngradeUsnDeltaV3ToV1 r3 = DowngradeUsnDeltaV2 (DowngradeUsnDeltaV3 r3)).
Proof.
  repeat split.
  - by intros [[]].
  - unfold struct_ok in *. simpl in *. destruct H as [H _].
    repeat (apply Forall2_cons in H; destruct H as [? H]).
    repeat (constructor; try done); vm_compute; auto; discriminate.
  - by destruct H as (_ & ? & _).
  - by destruct H as (_ & _ & ?).
  - unfold IsRepresentableInUsnV2 in H. destruct (HasUnknownMaskBits _); [discriminate|].
    bool_prop. apply (f_equal (fun z => Z.testbit z 7)) in H.
    rewrite Z.land_spec, Z.bits_0 in H. change (Z.testbit kUsnFieldAllocatedSizeBytes 7) with true in H.
    by rewrite andb_true_r in H.
Qed.

(** The V2 parser accepts the allocated-size presence bit although the V2
    layout has no allocated-size field, and [UpgradeUsnDeltaV2] copies the mask:
    the upgraded record then declares an authoritative allocated size of 0. *)
Theorem UpgradeUsnDeltaV2_can_claim_allocated_size :
  exists payload r2,
    ParseUsnDeltaV2Batch (Some payload) (zlen payload) 1 = Ok [r2] /\
    Z.land (u3_fieldMask (fixed (UpgradeUsnDeltaV2 r2))) kUsnFieldAllocatedSizeBytes
      = kUsnFieldAllocatedSizeBytes /\
    u3_allocatedSizeBytes (fixed (UpgradeUsnDeltaV2 r2)) = 0.
Proof.
  set (r2 := mkRecord (mkUsnDeltaFixedV2 10 20 5 256 7 1 2 3 100 32 255 2) [120; 121] : UsnDeltaV2).
  exists (SerializeUsnDeltaV2Batch [r2]), r2. vm_compute. auto.
Qed.
