(* ===== verification/MftParser.v ===== *)
(** * NTFS file records

    [src/indexsvc/src/MftParser.cpp]: the update-sequence fixup, applied in
    place, and the walk over the attributes of a file record that extracts
    $STANDARD_INFORMATION and $FILE_NAME.  Every byte is untrusted input.

    A record is a list of bytes; a read or a write outside it is [Fault], and
    so is running out of the walk's fuel, so that "never [Fault]" is memory
    safety and termination at once. *)

From S2P Require Import Prelude.

(** ** Constants *)

Definition kFileRecordInUseFlag : Z := 1.
Definition kFileRecordDirectoryFlag : Z := 2.
Definition kFileAttributeDirectory : Z := 16.
Definition kOffsetSignature : Z := 0.
Definition kOffsetUpdateSeqArrayOffset : Z := 4.
Definition kOffsetUpdateSeqArraySize : Z := 6.
Definition kOffsetFlags : Z := 22.
Definition kOffsetBytesInUse : Z := 24.
Definition kOffsetFirstAttributeOffset : Z := 20.
Definition kAttributeTypeStandardInformation : Z := 16.
Definition kAttributeTypeFileName : Z := 48.
Definition kAttributeTypeEnd : Z := 4294967295.
Definition kFileNameNamespaceDos : Z := 2.
(** The bytes of ["FILE"]. *)
Definition kSignature : list Z := [70; 73; 76; 69].

Inductive FixupResult := FixupOk | NotAFileRecord | NotInUse | Malformed.

(** ** Fixup *)

(** [(sector + 1) * bytesPerSector - sizeof(uint16_t)] in [size_t]. *)
Definition lastTwoBytesOffset (sector bytesPerSector : Z) : Z :=
  sub64 (mul64 (add64 sector 1) bytesPerSector) 2.

(** First loop: compare every sector tail with the update sequence number and
    with its saved value.  [Reject] is the early [return Malformed]. *)
Fixpoint check_sectors (n : nat) (record : list Z) (bytesPerSector usaOffset usn sector : Z)
    (protectedOnDisk alreadyRestored : bool) : result (bool * bool) :=
  match n with
  | O => Ok (protectedOnDisk, alreadyRestored)
  | S n' =>
      let tail := lastTwoBytesOffset sector bytesPerSector in
      guard (negb (zlen record <? add64 tail 2))
      (let* p := (if protectedOnDisk
                  then let* v := ReadU16 record tail in Ok (v =? usn)
                  else Ok false) in
       let* r := (if alreadyRestored
                  then let* v := ReadU16 record tail in
                       let* t := ReadU16 record (usaOffset + (sector + 1) * 2) in Ok (v =? t)
                  else Ok false) in
       check_sectors n' record bytesPerSector usaOffset usn (sector + 1) p r)
  end.

(** Second loop: copy every saved value over its sector tail, in place. *)
Fixpoint restore_sectors (n : nat) (record : list Z) (bytesPerSector usaOffset sector : Z)
  : result (list Z) :=
  match n with
  | O => Ok record
  | S n' =>
      let tail := lastTwoBytesOffset sector bytesPerSector in
      let* t := load record (usaOffset + (sector + 1) * 2) 2 in
      let* record := store record tail t in
      restore_sectors n' record bytesPerSector usaOffset (sector + 1)
  end.

(** The function's result with the buffer as it leaves it. *)
Definition ApplyFixupAndValidate (record : list Z) (bytesPerSector : Z)
  : result (FixupResult * list Z) :=
  let recordSize := zlen record in
  if (bytesPerSector =? 0) || (recordSize <? kOffsetBytesInUse + 4) then Ok (Malformed, record)
  else
  let* sig := load record kOffsetSignature 4 in
  if negb (bool_decide (sig = kSignature)) then Ok (NotAFileRecord, record) else
  let* flags := ReadU16 record kOffsetFlags in
  if Z.land flags kFileRecordInUseFlag =? 0 then Ok (NotInUse, record) else
  let* usaOffset := ReadU16 record kOffsetUpdateSeqArrayOffset in
  let* usaSize := ReadU16 record kOffsetUpdateSeqArraySize in
  if (usaSize =? 0) || (recordSize <? add64 usaOffset (mul64 usaSize 2)) then Ok (Malformed, record)
  else
  let sectorCount := recordSize / bytesPerSector in
  if negb (add64 sectorCount 1 =? usaSize) then Ok (Malformed, record) else
  let* usn := ReadU16 record usaOffset in
  match check_sectors (Z.to_nat sectorCount) record bytesPerSector usaOffset usn 0 true true with
  | Fault => Fault
  | Reject => Ok (Malformed, record)
  | Ok (protectedOnDisk, alreadyRestored) =>
      if negb protectedOnDisk && negb alreadyRestored then Ok (Malformed, record)
      else if protectedOnDisk then
        let* record := restore_sectors (Z.to_nat sectorCount) record bytesPerSector usaOffset 0 in
        Ok (FixupOk, record)
      else Ok (FixupOk, record)
  end.

(** ** Attribute walk *)

Record ParsedMftRecord := mkParsedMftRecord {
  fileReferenceNumber : Z;
  parentFileReferenceNumber : Z;
  creationTime : Z;
  lastModifiedTime : Z;
  lastAccessTime : Z;
  sizeBytes : Z;
  allocatedSizeBytes : Z;
  fileAttributes : Z;
  fileName : list Z
}.

(** The $STANDARD_INFORMATION fields and the $FILE_NAME fields held by the
    function's locals; [None] is [have... == false]. *)
Record StandardInfo := mkStandardInfo {
  si_creationTime : Z; si_lastModifiedTime : Z; si_lastAccessTime : Z; si_attributes : Z
}.
Record NameInfo := mkNameInfo {
  ni_parentRef : Z; ni_realSize : Z; ni_allocatedSize : Z; ni_namespace : Z; ni_name : list Z
}.
Record WalkState := mkWalkState { ws_standard : option StandardInfo; ws_best : option NameInfo }.

Definition ReadStandardInfo (record : list Z) (value : Z) : result StandardInfo :=
  let* c := ReadU64 record (value + 0) in
  let* m := ReadU64 record (value + 8) in
  let* a := ReadU64 record (value + 24) in
  let* attrs := ReadU32 record (value + 32) in
  Ok (mkStandardInfo c m a attrs).

Definition ReadNameInfo (record : list Z) (value nameLengthChars nsType : Z) : result NameInfo :=
  let* parentRef := ReadU64 record (value + 0) in
  let* realSize := ReadU64 record (value + 48) in
  let* allocatedSize := ReadU64 record (value + 40) in
  let* name := load record (value + 66) (2 * Z.to_nat nameLengthChars) in
  Ok (mkNameInfo parentRef realSize allocatedSize nsType
        (decode_units (Z.to_nat nameLengthChars) name)).

(** [!haveName || (bestNamespace == Dos && nsType != Dos)]. *)
Definition prefers (best : option NameInfo) (nsType : Z) : bool :=
  match best with
  | None => true
  | Some b => (ni_namespace b =? kFileNameNamespaceDos) && negb (nsType =? kFileNameNamespaceDos)
  end.

(** The body of the loop for a resident attribute of one of the two types. *)
Definition ReadResident (record : list Z) (offset recordLength typeCode : Z) (st : WalkState)
  : result WalkState :=
  let* valueLength := ReadU32 record (offset + 16) in
  let* valueOffset := ReadU16 record (offset + 20) in
  guard (negb (recordLength <? add64 valueOffset valueLength))
  (let value := offset + valueOffset in
   if typeCode =? kAttributeTypeStandardInformation then
     guard (negb (valueLength <? 36))
     (let* si := ReadStandardInfo record value in
      Ok (mkWalkState (Some si) (ws_best st)))
   else if (typeCode =? kAttributeTypeFileName) && (66 <=? valueLength) then
     let* nameLengthChars := ReadU8 record (value + 64) in
     let* nsType := ReadU8 record (value + 65) in
     let nameBytes := mul64 nameLengthChars 2 in
     if (0 <? nameLengthChars) && (add64 66 nameBytes <=? valueLength) then
       if prefers (ws_best st) nsType then
         let* ni := ReadNameInfo record value nameLengthChars nsType in
         Ok (mkWalkState (ws_standard st) (Some ni))
       else Ok st
     else Ok st
   else Ok st).

(** One attribute: its length and the state after it; [None] is the end marker. *)
Definition ReadAttribute (record : list Z) (recordExtent offset : Z) (st : WalkState)
  : result (option (Z * WalkState)) :=
  let* typeCode := ReadU32 record offset in
  if typeCode =? kAttributeTypeEnd then Ok None else
  guard (negb (recordExtent <? add64 offset 24))
  (let* recordLength := ReadU32 record (offset + 4) in
   guard (negb ((recordLength <? 24) || (recordExtent <? add64 offset recordLength)))
   (let* formCode := ReadU8 record (offset + 8) in
    if (formCode =? 0) && ((typeCode =? kAttributeTypeStandardInformation)
                           || (typeCode =? kAttributeTypeFileName))
    then let* st := ReadResident record offset recordLength typeCode st in
         Ok (Some (recordLength, st))
    else Ok (Some (recordLength, st)))).

(** [while (offset + 8 <= recordExtent)].  Every attribute advances the offset
    by at least 24 bytes, so [recordExtent / 24 + 1] rounds are enough. *)
Fixpoint WalkAttributes (fuel : nat) (record : list Z) (recordExtent offset : Z) (st : WalkState)
  : result WalkState :=
  if add64 offset 8 <=? recordExtent then
    match fuel with
    | O => Fault
    | S fuel' =>
        let* next := ReadAttribute record recordExtent offset st in
        match next with
        | None => Ok st
        | Some (recordLength, st) =>
            WalkAttributes fuel' record recordExtent (add64 offset recordLength) st
        end
    end
  else Ok st.

Definition ParseMftAttributes (record : list Z) : result ParsedMftRecord :=
  let recordSize := zlen record in
  guard (negb (recordSize <? kOffsetBytesInUse + 4))
  (let* firstAttributeOffset := ReadU16 record kOffsetFirstAttributeOffset in
   let* bytesInUse := ReadU32 record kOffsetBytesInUse in
   let* headerFlags := ReadU16 record kOffsetFlags in
   let recordExtent := if bytesInUse <? recordSize then bytesInUse else recordSize in
   guard (negb (recordExtent <=? firstAttributeOffset))
   (let* st := WalkAttributes (S (Z.to_nat (recordExtent / 24))) record recordExtent
                 firstAttributeOffset (mkWalkState None None) in
    match ws_standard st, ws_best st with
    | Some si, Some ni =>
        Ok {| fileReferenceNumber := 0;
              parentFileReferenceNumber := ni_parentRef ni;
              creationTime := si_creationTime si;
              lastModifiedTime := si_lastModifiedTime si;
              lastAccessTime := si_lastAccessTime si;
              sizeBytes := ni_realSize ni;
              allocatedSizeBytes := ni_allocatedSize ni;
              fileAttributes := Z.lor (si_attributes si)
                (if Z.land headerFlags kFileRecordDirectoryFlag =? 0
                 then 0 else kFileAttributeDirectory);
              fileName := ni_name ni |}
    | _, _ => Reject
    end)).

(** ** Safety of the attribute walk *)

Section walk.
Variable record : list Z.
Hypothesis Hbytes : Forall is_byte record.
Variable recordExtent : Z.
Hypothesis Hextent : 0 <= recordExtent <= zlen record.
Hypothesis Hextent32 : recordExtent < 4294967296.

Lemma ReadResident_safe offset recordLength typeCode st :
  0 <= offset -> 24 <= recordLength < 4294967296 -> offset + recordLength <= recordExtent ->
  safe (ReadResident record offset recordLength typeCode st) (fun _ => True).
Proof.
  intros Ho Hl He. unfold ReadResident. do 2 safe_step.
  rewrite add64_small by (unfold SIZE_MAX; lia). safe_step.
  destruct (_ =? kAttributeTypeStandardInformation).
  - unfold ReadStandardInfo. safe_step. apply (safe_bind _ _ (fun _ => True)); [|done]. by repeat safe_step.
  - destruct (_ && (66 <=? _)) eqn:Ecase; [|done]. bool_prop. do 2 safe_step.
    destruct (_ && (add64 66 _ <=? _)) eqn:Elen; [|done]. bool_prop.
    unfold mul64, add64 in *. rewrite !wrap64_small in * by (rewrite ?wrap64_small; unfold SIZE_MAX; lia).
    destruct (prefers _ _); [|done].
    unfold ReadNameInfo. apply (safe_bind _ _ (fun _ => True)); [|done]. by repeat safe_step.
Qed.

(** One attribute is consumed inside the extent and advances by its length. *)
Lemma ReadAttribute_safe offset st :
  0 <= offset -> offset + 8 <= recordExtent ->
  safe (ReadAttribute record recordExtent offset st) (fun next =>
    match next with
    | None => True
    | Some (recordLength, _) => 24 <= recordLength /\ offset + recordLength <= recordExtent
    end).
Proof.
  intros Ho He. unfold ReadAttribute. safe_step.
  destruct (_ =? kAttributeTypeEnd); [done|].
  rewrite add64_small by (unfold SIZE_MAX; lia). safe_step. safe_step.
  rewrite add64_small by (unfold SIZE_MAX; lia). safe_step. safe_step.
  destruct (_ && _); [|simpl; lia].
  eapply safe_bind; [by apply ReadResident_safe; lia|]. simpl. lia.
Qed.

Lemma WalkAttributes_safe fuel offset st :
  0 <= offset <= recordExtent -> recordExtent - offset < 24 * Z.of_nat fuel + 8 ->
  safe (WalkAttributes fuel record recordExtent offset st) (fun _ => True).
Proof.
  revert offset st. induction fuel as [|fuel IH]; intros offset st Ho Hf; cbn [WalkAttributes];
    rewrite add64_small by (unfold SIZE_MAX; lia);
    (destruct (Z.leb_spec (offset + 8) recordExtent); [|done]); [lia|].
  eapply safe_bind; [apply ReadAttribute_safe; lia|].
  intros [[len st']|]; [|done]. intros [? ?].
  rewrite add64_small by (unfold SIZE_MAX; lia). apply IH; lia.
Qed.
End walk.

Lemma ParseMftAttributes_safe record :
  Forall is_byte record -> zlen record <= SIZE_MAX ->
  safe (ParseMftAttributes record) (fun _ => True).
Proof.
  intros Hb Hm. unfold ParseMftAttributes, kOffsetBytesInUse, kOffsetFirstAttributeOffset, kOffsetFlags.
  do 4 safe_step. set (recordExtent := if _ <? _ then _ else _).
  assert (0 <= recordExtent <= zlen record /\ recordExtent < 4294967296) as [? ?].
  { unfold recordExtent. destruct (Z.ltb_spec v0 (zlen record)); lia. }
  safe_step. apply (safe_bind _ _ (fun _ => True)).
  - apply WalkAttributes_safe; auto; try lia.
    pose proof (Z.div_mod recordExtent 24). pose proof (Z.mod_pos_bound recordExtent 24).
    pose proof (Z.div_pos recordExtent 24). lia.
  - intros [[si|] [ni|]] _; done.
Qed.

(** ** What the walk extracts *)

(** The [n]-byte word at [off]. *)
Definition word (record : list Z) (off : Z) (n : nat) : Z := le_value (slice record off n).

(** The offsets of the attributes from [o] to the end marker or the extent. *)
Inductive attribute_offsets (record : list Z) (extent : Z) : Z -> list Z -> Prop :=
| offsets_exhausted o : extent < o + 8 -> attribute_offsets record extent o []
| offsets_end_marker o :
    o + 8 <= extent -> word record o 4 = kAttributeTypeEnd -> attribute_offsets record extent o []
| offsets_next o rest :
    o + 24 <= extent -> word record o 4 <> kAttributeTypeEnd ->
    24 <= word record (o + 4) 4 -> o + word record (o + 4) 4 <= extent ->
    attribute_offsets record extent (o + word record (o + 4) 4) rest ->
    attribute_offsets record extent o (o :: rest).

(** The $FILE_NAME value an attribute offers: resident, with a non-empty name
    that fits in the value. *)
Definition usable_name (record : list Z) (o : Z) : option NameInfo :=
  let valueLength := word record (o + 16) 4 in
  let v := o + word record (o + 20) 2 in
  let n := word record (v + 64) 1 in
  if (word record o 4 =? kAttributeTypeFileName) && (word record (o + 8) 1 =? 0)
     && (66 <=? valueLength) && (0 <? n) && (66 + 2 * n <=? valueLength)
  then Some (mkNameInfo (word record v 8) (word record (v + 48) 8) (word record (v + 40) 8)
               (word record (v + 65) 1)
               (decode_units (Z.to_nat n) (slice record (v + 66) (2 * Z.to_nat n))))
  else None.

Definition standard_info (record : list Z) (o : Z) : option StandardInfo :=
  let v := o + word record (o + 20) 2 in
  if (word record o 4 =? kAttributeTypeStandardInformation) && (word record (o + 8) 1 =? 0)
  then Some (mkStandardInfo (word record v 8) (word record (v + 8) 8) (word record (v + 24) 8)
               (word record (v + 32) 4))
  else None.

(** The name rule: the first name that is not a DOS alias, else the first name. *)
Definition choose_name (names : list NameInfo) : option NameInfo :=
  match List.find (fun n => negb (ni_namespace n =? kFileNameNamespaceDos)) names with
  | Some n => Some n
  | None => head names
  end.

Definition better (best : option NameInfo) (n : NameInfo) : option NameInfo :=
  if prefers best (ni_namespace n) then Some n else best.

Lemma fold_better_Some names b :
  fold_left better names (Some b) =
  if ni_namespace b =? kFileNameNamespaceDos
  then Some (default b (List.find (fun n => negb (ni_namespace n =? kFileNameNamespaceDos)) names))
  else Some b.
Proof.
  revert b. induction names as [|n names IH]; intros b; cbn [fold_left List.find].
  - by destruct (_ =? _).
  - unfold better at 2. cbn [prefers].
    destruct (ni_namespace b =? kFileNameNamespaceDos) eqn:Eb; cbn [andb].
    + destruct (ni_namespace n =? kFileNameNamespaceDos) eqn:En; cbn [negb]; rewrite IH.
      * by rewrite Eb.
      * by rewrite En.
    + by rewrite IH, Eb.
Qed.

Lemma fold_better_None names : fold_left better names None = choose_name names.
Proof.
  destruct names as [|n names]; [done|]. cbn [fold_left]. unfold better at 2. cbn [prefers].
  rewrite fold_better_Some. unfold choose_name. cbn [List.find head].
  destruct (_ =? _); cbn [negb]; [|done]. by destruct (List.find _ names).
Qed.

Lemma ReadU8_word record o v : ReadU8 record o = Ok v -> v = word record o 1.
Proof. unfold ReadU8. intros. inv_result. apply load_Ok_inv in H0 as (_ & _ & ->). done. Qed.
Lemma ReadU16_word record o v : ReadU16 record o = Ok v -> v = word record o 2.
Proof. unfold ReadU16. intros. inv_result. apply load_Ok_inv in H0 as (_ & _ & ->). done. Qed.
Lemma ReadU32_word record o v : ReadU32 record o = Ok v -> v = word record o 4.
Proof. unfold ReadU32. intros. inv_result. apply load_Ok_inv in H0 as (_ & _ & ->). done. Qed.
Lemma ReadU64_word record o v : ReadU64 record o = Ok v -> v = word record o 8.
Proof. unfold ReadU64. intros. inv_result. apply load_Ok_inv in H0 as (_ & _ & ->). done. Qed.

(** Words read successfully become [word]s. *)
Ltac words :=
  repeat match goal with
  | H : ReadU8 _ _ = Ok _ |- _ => apply ReadU8_word in H
  | H : ReadU16 _ _ = Ok _ |- _ => apply ReadU16_word in H
  | H : ReadU32 _ _ = Ok _ |- _ => apply ReadU32_word in H
  | H : ReadU64 _ _ = Ok _ |- _ => apply ReadU64_word in H
  | H : load _ _ _ = Ok _ |- _ => apply load_Ok_inv in H as (_ & _ & H)
  end; subst.

Section extract.
Variable record : list Z.
Hypothesis Hbytes : Forall is_byte record.

Lemma word_range o n : 0 <= o -> 0 <= word record o n < 256 ^ Z.of_nat n.
Proof.
  intros Ho. unfold word.
  pose proof (le_value_fits (slice record o n) (Forall_slice _ _ _ _ Hbytes)) as [? Hlt].
  split; [done|]. eapply Z.lt_le_trans; [exact Hlt|]. apply Z.pow_le_mono_r; [lia|].
  unfold slice. rewrite length_take. lia.
Qed.

Lemma ReadResident_standard o len st st' :
  0 <= o -> ReadResident record o len kAttributeTypeStandardInformation st = Ok st' ->
  exists si, ws_standard st' = Some si /\ ws_best st' = ws_best st /\
    si = mkStandardInfo (word record (o + word record (o + 20) 2) 8)
           (word record (o + word record (o + 20) 2 + 8) 8)
           (word record (o + word record (o + 20) 2 + 24) 8)
           (word record (o + word record (o + 20) 2 + 32) 4).
Proof.
  intros Ho HR. unfold ReadResident in HR. inv_result. rewrite Z.eqb_refl in HR. inv_result.
  unfold ReadStandardInfo in *. inv_result. subst. words.
  eexists. split; [reflexivity|]. split; [reflexivity|]. by rewrite Z.add_0_r.
Qed.

Lemma ReadResident_name o len st st' :
  0 <= o -> word record o 4 = kAttributeTypeFileName -> word record (o + 8) 1 = 0 ->
  ReadResident record o len kAttributeTypeFileName st = Ok st' ->
  ws_standard st' = ws_standard st /\
  ws_best st' = match usable_name record o with
                | Some n => better (ws_best st) n
                | None => ws_best st
                end.
Proof.
  intros Ho Ht Hf HR. unfold ReadResident in HR. inv_result. words.
  change (kAttributeTypeFileName =? kAttributeTypeStandardInformation) with false in HR.
  change (kAttributeTypeFileName =? kAttributeTypeFileName) with true in HR.
  unfold usable_name. rewrite Ht, Hf. cbn [andb].
  pose proof (word_range (o + 20) 2 ltac:(lia)).
  pose proof (word_range (o + word record (o + 20) 2 + 64) 1 ltac:(lia)) as Hn.
  destruct (66 <=? word record (o + 16) 4); cbn [andb] in *; [|by inv_result; subst].
  inv_result. words. unfold mul64, add64 in HR.
  change (256 ^ Z.of_nat 1) with 256 in Hn.
  rewrite !wrap64_small in HR by (rewrite ?wrap64_small; unfold SIZE_MAX; lia).
  rewrite (Z.mul_comm _ 2) in HR.
  destruct (_ && _); [|by inv_result; subst].
  unfold better. cbn [ni_namespace]. destruct (prefers _ _); [|by inv_result; subst].
  unfold ReadNameInfo in *. inv_result. subst. words. by rewrite Z.add_0_r.
Qed.

Variable extent : Z.
Hypothesis Hextent : 0 <= extent <= zlen record.
Hypothesis Hextent32 : extent < 4294967296.

Lemma ReadAttribute_spec o st next :
  0 <= o -> o + 8 <= extent -> ReadAttribute record extent o st = Ok next ->
  match next with
  | None => word record o 4 = kAttributeTypeEnd
  | Some (len, st') =>
      word record o 4 <> kAttributeTypeEnd /\ o + 24 <= extent /\
      len = word record (o + 4) 4 /\ 24 <= len /\ o + len <= extent /\
      ws_standard st' = union (standard_info record o) (ws_standard st) /\
      ws_best st' = fold_left better (option_list (usable_name record o)) (ws_best st)
  end.
Proof.
  intros Ho He HR. unfold ReadAttribute in HR.
  apply bind_Ok_inv in HR as (t & Ht & HR). words.
  destruct (Z.eqb_spec (word record o 4) kAttributeTypeEnd) as [|Hend]; [by inv_result; subst|].
  rewrite add64_small in HR by (unfold SIZE_MAX; lia). inv_result. bool_prop. words.
  pose proof (word_range (o + 4) 4 ltac:(lia)) as Hlen. change (256 ^ Z.of_nat 4) with 4294967296 in Hlen.
  rewrite add64_small in * by (unfold SIZE_MAX; lia).
  destruct (_ && _) eqn:Eres.
  - apply andb_true_iff in Eres as [Hform Hty]. apply bind_Ok_inv in HR as (st' & HRes & [= <-]).
    repeat (split; [done || lia|]). apply orb_true_iff in Hty. destruct Hty as [Hty|Hty]; bool_prop.
    + rewrite Hty in HRes. apply ReadResident_standard in HRes as (si & Hsi & Hbest & ->); [|done].
      unfold standard_info, usable_name. rewrite Hsi, Hbest, Hty, Hform, Z.eqb_refl.
      split; [by destruct (ws_standard st)|done].
    + rewrite Hty in HRes. apply ReadResident_name in HRes as [Hsi Hbest]; [|done..].
      unfold standard_info. rewrite Hsi, Hbest, Hty.
      split; [by destruct (ws_standard st)|]. by destruct (usable_name _ _).
  - inv_result. subst next. repeat (split; [done || lia|]).
    unfold standard_info, usable_name.
    destruct (word record (o + 8) 1 =? 0); cbn [andb] in *.
    + apply orb_false_iff in Eres as [-> ->]. by destruct (ws_standard st).
    + rewrite !andb_false_r. by destruct (ws_standard st).
Qed.

Lemma WalkAttributes_spec fuel o st st' :
  0 <= o <= extent -> WalkAttributes fuel record extent o st = Ok st' ->
  exists offs, attribute_offsets record extent o offs /\
    ws_best st' = fold_left better (omap (usable_name record) offs) (ws_best st) /\
    ws_standard st' = union (last (omap (standard_info record) offs)) (ws_standard st).
Proof.
  revert o st. induction fuel as [|fuel IH]; intros o st Ho; cbn [WalkAttributes];
    rewrite add64_small by (unfold SIZE_MAX; lia);
    (destruct (Z.leb_spec (o + 8) extent);
      [|intros [= ->]; exists []; split; [by constructor|]; split; [done|];
        by destruct (ws_standard st')]); [discriminate|].
  intros HW. apply bind_Ok_inv in HW as (next & HR & HW).
  apply ReadAttribute_spec in HR; [|lia..].
  destruct next as [[len st1]|].
  - destruct HR as (Ht & H24 & -> & Hlen & Hend & Hst & Hbest).
    rewrite add64_small in HW by (unfold SIZE_MAX; lia).
    apply IH in HW as (offs & Hoffs & Hb & Hs); [|lia].
    exists (o :: offs). split; [by apply offsets_next|].
    rewrite Hb, Hs, Hst, Hbest. cbn [omap list_omap]. split.
    + by destruct (usable_name record o).
    + destruct (standard_info record o) as [si|]; [|by destruct (ws_standard st)].
      rewrite last_cons. destruct (last _); by destruct (ws_standard st).
  - inv_result. subst st'. exists []. split; [by apply offsets_end_marker|].
    split; [done|]. by destruct (ws_standard st).
Qed.
End extract.

(** C23. The attribute parser is memory safe and terminates on every buffer of
    bytes: whatever offsets, lengths and types the record declares, no read
    leaves the buffer and the walk ends within its fuel. *)
Theorem ParseMftAttributes_never_faults (record : list Z) :
  Forall is_byte record -> zlen record <= SIZE_MAX -> ParseMftAttributes record <> Fault.
Proof. intros. eapply safe_no_fault, ParseMftAttributes_safe; auto. Qed.

(** C35. What a parsed record holds: with [offs] the offsets of the record's
    attributes in order, the times and attributes come from the last resident
    $STANDARD_INFORMATION, the name, parent and sizes from the first usable
    $FILE_NAME outside the DOS namespace or, failing that, the first usable one,
    and the directory bit of the header is merged into the attributes. *)
Theorem ParseMftAttributes_selects (record : list Z) (r : ParsedMftRecord) :
  Forall is_byte record -> zlen record <= SIZE_MAX -> ParseMftAttributes record = Ok r ->
  exists offs si ni,
    attribute_offsets record (Z.min (word record 24 4) (zlen record)) (word record 20 2) offs /\
    last (omap (standard_info record) offs) = Some si /\
    choose_name (omap (usable_name record) offs) = Some ni /\
    r = mkParsedMftRecord 0 (ni_parentRef ni) (si_creationTime si) (si_lastModifiedTime si)
          (si_lastAccessTime si) (ni_realSize ni) (ni_allocatedSize ni)
          (Z.lor (si_attributes si) (if Z.testbit (word record 22 2) 1 then 16 else 0)) (ni_name ni).
Proof.
  intros Hb Hm HP. unfold ParseMftAttributes in HP.
  apply guard_Ok_inv in HP as [Hsize HP]. unfold kOffsetBytesInUse in *.
  apply bind_Ok_inv in HP as (first & Hfirst & HP). apply bind_Ok_inv in HP as (inuse & Hinuse & HP).
  apply bind_Ok_inv in HP as (flags & Hflags & HP). words.
  apply guard_Ok_inv in HP as [Hg HP]. apply bind_Ok_inv in HP as (st & HW & HP). bool_prop.
  set (extent := if _ <? _ then _ else _) in *.
  assert (extent = Z.min (word record 24 4) (zlen record)) as Hext.
  { unfold extent. destruct (Z.ltb_spec (word record 24 4) (zlen record)); lia. }
  pose proof (word_range record Hb 24 4 ltac:(lia)) as Hw. change (256 ^ Z.of_nat 4) with 4294967296 in Hw.
  pose proof (word_range record Hb 20 2 ltac:(lia)). unfold kOffsetFirstAttributeOffset in *.
  apply WalkAttributes_spec in HW as (offs & Hoffs & Hbest & Hst); [|done|lia..].
  cbn [ws_best ws_standard] in Hbest, Hst. rewrite fold_better_None in Hbest.
  destruct (ws_standard st) as [si|]; [|discriminate].
  destruct (ws_best st) as [ni|]; [|discriminate].
  rewrite Hext in Hoffs. exists offs, si, ni. inv_result. subst r.
  split; [done|]. split; [by destruct (last _)|]. split; [done|].
  unfold kOffsetFlags, kFileRecordDirectoryFlag, kFileAttributeDirectory.
  rewrite land_pow2_testbit with (i := 1) by lia. by destruct (Z.testbit _ 1).
Qed.

(** ** Fixup *)

Section fixup.
Variable bps usaOffset count : Z.
Hypothesis Hbps : 2 <= bps < 4294967296.
Hypothesis Husa : 0 <= usaOffset.
Hypothesis Hcount : 0 <= count.

Definition tail_offset (s : Z) : Z := (s + 1) * bps - 2.
Definition saved_offset (s : Z) : Z := usaOffset + (s + 1) * 2.

Lemma lastTwoBytesOffset_eq (record : list Z) s :
  count * bps <= zlen record <= SIZE_MAX -> 0 <= s < count ->
  lastTwoBytesOffset s bps = tail_offset s.
Proof.
  intros Hm Hs. unfold lastTwoBytesOffset, tail_offset, sub64, mul64, add64.
  assert (0 <= (s + 1) * bps <= count * bps) by nia.
  assert (2 <= (s + 1) * bps) by nia.
  rewrite (wrap64_small (s + 1)) by nia. rewrite !wrap64_small by (rewrite ?wrap64_small; lia). done.
Qed.

(** The two flags computed by the first loop. *)
Definition tails_are (record : list Z) (usn : Z) (sectors : list Z) : bool :=
  forallb (fun s => word record (tail_offset s) 2 =? usn) sectors.
Definition tails_restored (record : list Z) (sectors : list Z) : bool :=
  forallb (fun s => word record (tail_offset s) 2 =? word record (saved_offset s) 2) sectors.

Lemma ReadU16_Ok (record : list Z) o :
  0 <= o -> o + 2 <= zlen record -> ReadU16 record o = Ok (word record o 2).
Proof. intros. unfold ReadU16. by rewrite load_Ok by lia. Qed.

Lemma check_sectors_spec (record : list Z) usn n s p r :
  count * bps <= zlen record <= SIZE_MAX -> usaOffset + (count + 1) * 2 <= zlen record ->
  0 <= s -> s + Z.of_nat n = count ->
  check_sectors n record bps usaOffset usn s p r =
  Ok (p && tails_are record usn (seqZ s (Z.of_nat n)),
      r && tails_restored record (seqZ s (Z.of_nat n))).
Proof.
  intros Hm Hu. revert s p r. induction n as [|n IH]; intros s p r Hs Hn; cbn [check_sectors].
  - by rewrite !andb_true_r.
  - rewrite (lastTwoBytesOffset_eq record) by lia.
    assert (0 <= tail_offset s /\ tail_offset s + 2 <= count * bps) as [? ?] by (unfold tail_offset; nia).
    rewrite add64_small by lia.
    replace (negb _) with true by (symmetry; apply negb_true_iff, Z.ltb_ge; lia). cbn [guard].
    rewrite !ReadU16_Ok by (unfold saved_offset; lia). cbn [bind].
    rewrite seqZ_cons by lia. cbn [tails_are tails_restored forallb].
    replace (Z.pred (Z.of_nat (S n))) with (Z.of_nat n) by lia.
    destruct p, r; cbn [bind]; rewrite IH by lia; cbn [andb]; rewrite ?andb_false_l; done.
Qed.

(** The tails and the saved values do not overlap. *)
Variable record0 : list Z.
Hypothesis Hsize : count * bps <= zlen record0 <= SIZE_MAX.
Hypothesis Hsaved : usaOffset + (count + 1) * 2 <= bps - 2.

Lemma tail_offset_disjoint s s' :
  0 <= s -> 0 <= s' -> s <> s' -> tail_offset s + 2 <= tail_offset s' \/ tail_offset s' + 2 <= tail_offset s.
Proof. unfold tail_offset. intros. destruct (Z.lt_trichotomy s s') as [|[|]]; [left|lia|right]; nia. Qed.

Lemma saved_before_tail s s' :
  0 <= s < count -> 0 <= s' -> saved_offset s + 2 <= tail_offset s'.
Proof. unfold saved_offset, tail_offset. intros. nia. Qed.

(** [record'] is [record] with the tails of sectors [s .. count - 1] replaced. *)
Definition restored_from (record record' : list Z) (s : Z) : Prop :=
  zlen record' = zlen record /\
  (forall k, s <= k < count -> slice record' (tail_offset k) 2 = slice record (saved_offset k) 2) /\
  (forall i, 0 <= i -> (forall k, s <= k < count -> i < tail_offset k \/ tail_offset k + 2 <= i) ->
     record' !! Z.to_nat i = record !! Z.to_nat i).

Lemma restore_sectors_spec n s record :
  zlen record = zlen record0 -> 0 <= s -> s + Z.of_nat n = count ->
  exists record', restore_sectors n record bps usaOffset s = Ok record' /\
    restored_from record record' s.
Proof.
  revert s record. induction n as [|n IH]; intros s record Hl Hs Hn; cbn [restore_sectors].
  - exists record. split; [done|]. split; [done|]. split; [lia|done].
  - assert (count * bps <= zlen record <= SIZE_MAX) by lia.
    rewrite (lastTwoBytesOffset_eq record) by lia.
    pose proof (saved_before_tail s s ltac:(lia) ltac:(lia)) as Hst.
    assert (0 <= saved_offset s) by (unfold saved_offset; lia).
    assert (0 <= tail_offset s /\ tail_offset s + 2 <= count * bps) as [? ?] by (unfold tail_offset; nia).
    fold (saved_offset s). rewrite load_Ok by lia. cbn [bind].
    set (bs := slice record (saved_offset s) 2).
    assert (zlen bs = 2) as Hbs by (unfold zlen, bs; rewrite length_slice by lia; done).
    rewrite store_Ok by lia. cbn [bind].
    destruct (IH (s + 1) (list_inserts (Z.to_nat (tail_offset s)) bs record)) as (rec' & HR & Hlen & Htail & Hrest);
      [rewrite zlen_inserts; lia|lia|lia|].
    exists rec'. split; [done|]. rewrite zlen_inserts in Hlen. split; [done|]. split.
    + intros k Hk. destruct (decide (k = s)) as [->|Hne].
      * change (slice record (saved_offset s) 2) with bs.
        transitivity (slice (list_inserts (Z.to_nat (tail_offset s)) bs record) (tail_offset s) 2);
          [|rewrite <-(slice_inserts_same record (tail_offset s) bs) at 2 by lia; by rewrite Hbs].
        apply slice_ext; [lia|].
        intros i Hi. apply Hrest; [lia|]. intros k Hk2.
        destruct (tail_offset_disjoint s k); lia.
      * rewrite Htail by lia. apply slice_inserts_other; [unfold saved_offset; lia|lia|].
        left. apply saved_before_tail; lia.
    + intros i Hi Hdis. rewrite Hrest by (auto; intros; apply Hdis; lia).
      destruct (Hdis s ltac:(lia)).
      * rewrite list_lookup_inserts_lt; [done|lia].
      * rewrite list_lookup_inserts_ge; [done|]. unfold zlen in Hbs. lia.
Qed.
End fixup.

Lemma restore_sectors_safe bps usaOffset count n s record :
  2 <= bps < 4294967296 -> 0 <= usaOffset -> count * bps <= zlen record <= SIZE_MAX ->
  usaOffset + (count + 1) * 2 <= zlen record -> 0 <= s -> s + Z.of_nat n = count ->
  exists record', restore_sectors n record bps usaOffset s = Ok record' /\ zlen record' = zlen record.
Proof.
  intros Hbps Hu. revert s record. induction n as [|n IH]; intros s record Hc Hsv Hs Hn;
    cbn [restore_sectors]; [eauto|].
  rewrite (lastTwoBytesOffset_eq bps count Hbps) with (record := record) by lia.
  assert (0 <= tail_offset bps s /\ tail_offset bps s + 2 <= count * bps) as [? ?]
    by (unfold tail_offset; nia).
  rewrite load_Ok by lia. cbn [bind]. set (bs := slice _ _ 2).
  assert (zlen bs = 2) as Hbs by (unfold zlen, bs; rewrite length_slice by lia; done).
  rewrite store_Ok by lia. cbn [bind].
  destruct (IH (s + 1) (list_inserts (Z.to_nat (tail_offset bps s)) bs record)) as (rec' & HR & Hl);
    rewrite ?zlen_inserts in *; try lia. exists rec'. split; [exact HR|lia].
Qed.

(** The function with its reads resolved, for a sane sector count. *)
Section fixup_top.
Variable record : list Z.
Variable bps : Z.
Hypothesis Hbytes : Forall is_byte record.
Hypothesis Hsize : zlen record <= SIZE_MAX.
Hypothesis Hbps : 0 <= bps < 4294967296.

Definition fixup_sectors : Z := zlen record / bps.

(** Everything the function checks before it looks at the sector tails. *)
Definition fixup_header_ok : Prop :=
  bps <> 0 /\ 28 <= zlen record /\ slice record 0 4 = kSignature /\
  Z.testbit (word record 22 2) 0 = true /\
  word record 6 2 = fixup_sectors + 1 /\
  word record 4 2 + (fixup_sectors + 1) * 2 <= zlen record.

Lemma fixup_header_bounds :
  fixup_header_ok -> 2 <= bps /\ 0 <= word record 4 2 /\ 0 <= fixup_sectors /\
    fixup_sectors * bps <= zlen record.
Proof.
  intros (Hb0 & Hl & _ & _ & _ & Hu). pose proof (word_range record Hbytes 4 2 ltac:(lia)).
  unfold fixup_sectors in *. pose proof (Z.div_mod (zlen record) bps Hb0).
  pose proof (Z.mod_pos_bound (zlen record) bps ltac:(lia)).
  assert (0 <= zlen record / bps) by (apply Z.div_pos; lia).
  assert (bps <> 1) by (intros E; rewrite E, Z.div_1_r in Hu; lia). nia.
Qed.

Lemma ApplyFixup_header_ok :
  fixup_header_ok ->
  let p := tails_are bps record (word record (word record 4 2) 2) (seqZ 0 fixup_sectors) in
  let r := tails_restored bps (word record 4 2) record (seqZ 0 fixup_sectors) in
  ApplyFixupAndValidate record bps =
  if negb p && negb r then Ok (Malformed, record)
  else if p then
    let* record := restore_sectors (Z.to_nat fixup_sectors) record bps (word record 4 2) 0 in
    Ok (FixupOk, record)
  else Ok (FixupOk, record).
Proof.
  intros Hh. destruct (fixup_header_bounds Hh) as (H2 & H0 & Hc & Hcb).
  destruct Hh as (Hb0 & Hl & Hsig & Hflag & Hus & Hu). intros p r.
  pose proof (word_range record Hbytes 6 2 ltac:(lia)) as Hw. change (256 ^ Z.of_nat 2) with 65536 in Hw.
  unfold ApplyFixupAndValidate.
  unfold kOffsetBytesInUse, kOffsetSignature, kOffsetFlags, kOffsetUpdateSeqArrayOffset,
    kOffsetUpdateSeqArraySize, kFileRecordInUseFlag.
  replace ((bps =? 0) || (zlen record <? 24 + 4)) with false
    by (symmetry; apply orb_false_iff; split; [apply Z.eqb_neq|apply Z.ltb_ge]; lia).
  rewrite load_Ok by lia. cbn [bind]. rewrite Hsig, bool_decide_true by done. cbn [negb].
  rewrite !ReadU16_Ok by lia. cbn [bind].
  rewrite (land_pow2_testbit _ 0), Hflag by lia. cbn [negb].
  rewrite !ReadU16_Ok by lia. cbn [bind]. unfold mul64. rewrite Hus.
  rewrite (wrap64_small ((fixup_sectors + 1) * 2)), !add64_small by (unfold SIZE_MAX in *; lia).
  replace ((_ =? 0) || _) with false
    by (symmetry; apply orb_false_iff; split; [apply Z.eqb_neq|apply Z.ltb_ge]; lia).
  fold fixup_sectors. rewrite add64_small by (unfold SIZE_MAX in *; lia).
  rewrite Z.eqb_refl. cbn [negb]. rewrite ?ReadU16_Ok by lia. cbn [bind].
  rewrite (check_sectors_spec bps (word record 4 2) fixup_sectors) by lia.
  cbn [andb]. rewrite Z2Nat.id by lia. done.
Qed.

Lemma ApplyFixup_header_bad :
  ~ fixup_header_ok ->
  exists res, res <> FixupOk /\ ApplyFixupAndValidate record bps = Ok (res, record).
Proof.
  intros Hh. unfold ApplyFixupAndValidate.
  unfold kOffsetBytesInUse, kOffsetSignature, kOffsetFlags, kOffsetUpdateSeqArrayOffset,
    kOffsetUpdateSeqArraySize, kFileRecordInUseFlag.
  destruct ((bps =? 0) || _) eqn:E1; [by exists Malformed|]. bool_prop.
  rewrite load_Ok by lia. cbn [bind].
  destruct (bool_decide _) eqn:E2; cbn [negb]; [|by exists NotAFileRecord]. apply bool_decide_eq_true in E2.
  rewrite !ReadU16_Ok by lia. cbn [bind]. rewrite (land_pow2_testbit _ 0) by lia.
  destruct (Z.testbit _ 0) eqn:E3; cbn [negb]; [|by exists NotInUse].
  cbn [bind].
  pose proof (word_range record Hbytes 6 2 ltac:(lia)) as Hw. change (256 ^ Z.of_nat 2) with 65536 in Hw.
  pose proof (word_range record Hbytes 4 2 ltac:(lia)) as Hw4. change (256 ^ Z.of_nat 2) with 65536 in Hw4.
  unfold mul64. rewrite wrap64_small, add64_small by (unfold SIZE_MAX; lia).
  destruct ((_ =? 0) || _) eqn:E4; [by exists Malformed|]. bool_prop.
  fold fixup_sectors.
  destruct (add64 fixup_sectors 1 =? _) eqn:E5; cbn [negb]; [|by exists Malformed]. bool_prop.
  exfalso. apply Hh. unfold add64 in E5.
  assert (0 <= fixup_sectors <= zlen record) as Hfs.
  { unfold fixup_sectors. split; [apply Z.div_pos; lia|]. apply Z.div_le_upper_bound; nia. }
  destruct (decide (fixup_sectors + 1 <= SIZE_MAX)).
  - rewrite wrap64_small in E5 by lia. unfold fixup_header_ok. repeat split; auto; lia.
  - exfalso. unfold wrap64 in E5. replace (fixup_sectors + 1) with 18446744073709551616 in E5
      by (unfold SIZE_MAX in *; lia). rewrite Z.mod_same in E5 by lia. lia.
Qed.
End fixup_top.

Lemma decide_fixup_header record bps : fixup_header_ok record bps \/ ~ fixup_header_ok record bps.
Proof. unfold fixup_header_ok. destruct (decide (bps <> 0 /\ 28 <= zlen record /\ slice record 0 4 = kSignature /\
    Z.testbit (word record 22 2) 0 = true /\ word record 6 2 = fixup_sectors record bps + 1 /\
    word record 4 2 + (fixup_sectors record bps + 1) * 2 <= zlen record)); auto. Qed.

(** The fixup never reads or writes outside the record, whatever sector size
    and update sequence array the record declares (including a sector size of
    1, where the tail offset of sector 0 wraps around); it keeps the record's
    length, and on every result but [Ok] leaves the bytes untouched. *)
Theorem ApplyFixupAndValidate_safe (record : list Z) (bps : Z) :
  Forall is_byte record -> zlen record <= SIZE_MAX -> 0 <= bps < 4294967296 ->
  exists res record', ApplyFixupAndValidate record bps = Ok (res, record') /\
    zlen record' = zlen record /\ (res <> FixupOk -> record' = record).
Proof.
  intros Hb Hm Hbps.
  destruct (decide_fixup_header record bps) as [Hh|Hh].
  - rewrite ApplyFixup_header_ok by done. destruct (fixup_header_bounds record bps Hb Hbps Hh) as (?&?&?&?).
    destruct (_ && _); [by exists Malformed, record|].
    destruct (tails_are _ _ _ _); [|by exists FixupOk, record].
    destruct (restore_sectors_safe bps (word record 4 2) (fixup_sectors record bps)
                (Z.to_nat (fixup_sectors record bps)) 0 record) as (rec' & -> & Hl); try lia;
      [unfold fixup_header_ok in Hh; lia|].
    by exists FixupOk, rec'.
  - destruct (ApplyFixup_header_bad record bps Hb Hm Hbps Hh) as (res & Hr & ->).
    exists res, record. done.
Qed.

Lemma restored_word record record' s n (bps usa count : Z) :
  restored_from bps usa count record record' 0 -> 0 <= s -> 0 <= count ->
  (forall k, 0 <= k < count -> s + Z.of_nat n <= tail_offset bps k) ->
  slice record' s n = slice record s n.
Proof.
  intros (_ & _ & Hrest) Hs Hc Hb. apply slice_ext; [done|]. intros i Hi.
  apply Hrest; [lia|]. intros k Hk. left. specialize (Hb k Hk). lia.
Qed.

Lemma forallb_seqZ (f : Z -> bool) m n :
  (forall s, m <= s < m + n -> f s = true) -> forallb f (seqZ m n) = true.
Proof. intros Hf. apply forallb_forall. intros s Hs. apply Hf. apply list_elem_of_In, elem_of_seqZ in Hs. lia. Qed.

Lemma forallb_seqZ_inv (f : Z -> bool) m n :
  forallb f (seqZ m n) = true -> forall s, m <= s < m + n -> f s = true.
Proof. intros Hf s Hs. eapply forallb_forall in Hf; [exact Hf|]. apply list_elem_of_In, elem_of_seqZ. lia. Qed.

Lemma word_inj record a b n :
  Forall is_byte record -> 0 <= a -> 0 <= b -> a + Z.of_nat n <= zlen record -> b + Z.of_nat n <= zlen record ->
  word record a n = word record b n -> slice record a n = slice record b n.
Proof.
  intros Hb ? ? ? ? Hw. unfold word in Hw.
  rewrite <-(le_bytes_le_value (slice record a n)), <-(le_bytes_le_value (slice record b n))
    by by apply Forall_slice.
  by rewrite !length_slice, Hw by lia.
Qed.

Lemma restore_sectors_bytes n record bps usa s record' :
  Forall is_byte record -> restore_sectors n record bps usa s = Ok record' -> Forall is_byte record'.
Proof.
  revert s record. induction n as [|n IH]; intros s record Hb; cbn [restore_sectors]; intros HR.
  - by inv_result; subst.
  - apply bind_Ok_inv in HR as (bs & Hl & HR). apply bind_Ok_inv in HR as (r1 & Hst & HR).
    apply IH in HR; [done|]. apply load_Ok_inv in Hl as (_ & _ & ->).
    unfold store in Hst. destruct (_ && _); [|discriminate]. injection Hst as <-.
    apply Forall_inserts; [done|]. by apply Forall_slice.
Qed.

(** Restoring a record whose tails already hold the saved values changes nothing. *)
Lemma restored_from_fixpoint bps usa count record record' :
  0 <= count -> 2 <= bps -> count * bps <= zlen record ->
  (forall k, 0 <= k < count -> slice record (tail_offset bps k) 2 = slice record (saved_offset usa k) 2) ->
  restored_from bps usa count record record' 0 -> record' = record.
Proof.
  intros Hc Hb Hl Heq (Hlen & Htail & Hrest). apply list_eq. intros i.
  destruct (decide (Exists (fun k => tail_offset bps k <= Z.of_nat i < tail_offset bps k + 2) (seqZ 0 count)))
    as [Hex|Hnex].
  - apply Exists_exists in Hex as (k & Hk & Hi). apply elem_of_seqZ in Hk.
    assert (0 <= tail_offset bps k) by (unfold tail_offset; nia).
    pose proof (Htail k ltac:(lia)) as Hs. rewrite <-Heq in Hs by lia.
    apply (f_equal (fun l => l !! (i - Z.to_nat (tail_offset bps k))%nat)) in Hs.
    rewrite !lookup_slice in Hs by lia.
    by replace (Z.to_nat (tail_offset bps k + Z.of_nat (i - Z.to_nat (tail_offset bps k)))) with i in Hs by lia.
  - specialize (Hrest (Z.of_nat i) ltac:(lia)). rewrite Nat2Z.id in Hrest. apply Hrest.
    intros k Hk. destruct (decide (tail_offset bps k <= Z.of_nat i < tail_offset bps k + 2)); [|lia].
    exfalso. apply Hnex, Exists_exists. exists k. split; [|done]. apply elem_of_seqZ. lia.
Qed.

Section fixup_effect.
Variable record record' : list Z.
Variable bps : Z.
Hypothesis Hbytes : Forall is_byte record.
Hypothesis Hsize : zlen record <= SIZE_MAX.
Hypothesis Hbps : 32 <= bps < 4294967296.
Let usa := word record 4 2.
Let count := fixup_sectors record bps.
Hypothesis Hsaved : usa + (count + 1) * 2 <= bps - 2.
Hypothesis Hfix : ApplyFixupAndValidate record bps = Ok (FixupOk, record').

Lemma fixup_was_header_ok : fixup_header_ok record bps.
Proof.
  destruct (decide_fixup_header record bps) as [Hh|Hh]; [done|exfalso].
  destruct (ApplyFixup_header_bad record bps Hbytes Hsize ltac:(lia) Hh) as (res & Hr & He).
  rewrite Hfix in He. by injection He as <- <-.
Qed.

Lemma fixup_restored : restored_from bps usa count record record' 0 /\ Forall is_byte record'.
Proof.
  pose proof fixup_was_header_ok as Hh.
  destruct (fixup_header_bounds record bps Hbytes ltac:(lia) Hh) as (H2 & H0 & Hc & Hcb).
  assert (usa + (count + 1) * 2 <= zlen record) by (unfold fixup_header_ok, usa, count in *; lia).
  pose proof Hfix as Hf. rewrite ApplyFixup_header_ok in Hf by (auto; lia). fold usa count in Hf, H0, Hc, Hcb.
  destruct (tails_are _ _ _ _); cbn [negb andb] in Hf.
  - destruct (restore_sectors_spec bps usa count ltac:(lia) H0 Hc record ltac:(lia) Hsaved
                (Z.to_nat count) 0 record) as (rec2 & HR & Hspec); [done|lia..|].
    rewrite HR in Hf. injection Hf as <-. split; [done|]. by eapply restore_sectors_bytes.
  - destruct (tails_restored _ _ _ _) eqn:Er; [|discriminate]. injection Hf as <-.
    split; [|done]. split; [done|]. split; [|done]. intros k Hk.
    unfold tails_restored in Er. pose proof (forallb_seqZ_inv _ _ _ Er k ltac:(lia)) as Hw.
    cbn beta in Hw. bool_prop.
    assert (0 <= tail_offset bps k /\ tail_offset bps k + 2 <= count * bps) as [? ?] by (unfold tail_offset; nia).
    apply word_inj; auto; unfold saved_offset; lia.
Qed.

(** The header and the saved values are the same before and after. *)
Lemma fixup_keeps_low o n :
  0 <= o -> o + Z.of_nat n <= bps - 2 -> slice record' o n = slice record o n.
Proof.
  intros Ho Hn. destruct fixup_restored as [Hr _].
  destruct (fixup_header_bounds record bps Hbytes ltac:(lia) fixup_was_header_ok) as (_ & _ & Hc & _).
  eapply restored_word; eauto. intros k Hk. unfold tail_offset. nia.
Qed.

Lemma fixup_idempotent : ApplyFixupAndValidate record' bps = Ok (FixupOk, record').
Proof.
  pose proof fixup_was_header_ok as Hh. destruct fixup_restored as [Hr Hb'].
  pose proof Hr as (Hlen & Htail & _).
  destruct (fixup_header_bounds record bps Hbytes ltac:(lia) Hh) as (_ & H0 & Hc & Hcb).
  assert (fixup_sectors record' bps = count) as Hcnt by (unfold fixup_sectors, count; by rewrite Hlen).
  assert (word record' 4 2 = usa) as Husa by (unfold word, usa; by rewrite fixup_keeps_low by lia).
  assert (fixup_header_ok record' bps) as Hh'.
  { unfold fixup_header_ok. rewrite Hcnt, Husa, Hlen. unfold word. rewrite !fixup_keeps_low by lia. exact Hh. }
  rewrite ApplyFixup_header_ok by (auto; lia). rewrite Hcnt, Husa.
  assert (forall k, 0 <= k < count -> slice record' (tail_offset bps k) 2 = slice record' (saved_offset usa k) 2) as Heq.
  { intros k Hk. rewrite Htail by done. symmetry. apply fixup_keeps_low; unfold saved_offset, usa in *; lia. }
  assert (tails_restored bps usa record' (seqZ 0 count) = true) as Hrt.
  { apply forallb_seqZ. intros s Hs. apply Z.eqb_eq. unfold word. by rewrite Heq by lia. }
  rewrite Hrt, andb_false_r. destruct (tails_are _ _ _ _); [|done].
  destruct (restore_sectors_spec bps usa count ltac:(lia) H0 Hc record ltac:(fold count in Hcb; lia) Hsaved
              (Z.to_nat count) 0 record') as (rec2 & HR & Hspec); try (fold count in Hc; lia).
  rewrite HR. cbn [bind]. do 2 f_equal.
  eapply restored_from_fixpoint; eauto; fold count in Hc, Hcb; lia.
Qed.
End fixup_effect.

(** On a record whose update sequence array lies inside its first sector,
    before that sector's tail, a successful fixup yields the record in which
    each sector's last two bytes are the saved value of that sector and every
    other byte is unchanged, and it is idempotent: a record the NTFS driver has
    already restored is accepted and left as it is. *)
Theorem ApplyFixupAndValidate_restores (record record' : list Z) (bps : Z) :
  Forall is_byte record -> zlen record <= SIZE_MAX -> 32 <= bps < 4294967296 ->
  word record 4 2 + (zlen record / bps + 1) * 2 <= bps - 2 ->
  ApplyFixupAndValidate record bps = Ok (FixupOk, record') ->
  restored_from bps (word record 4 2) (zlen record / bps) record record' 0 /\
  ApplyFixupAndValidate record' bps = Ok (FixupOk, record').
Proof.
  intros. split; [by apply fixup_restored|by apply (fixup_idempotent record)].
Qed.

(** ** A concrete record

    One 256-byte sector: header, update sequence array at 40, resident
    $STANDARD_INFORMATION at 48 and $FILE_NAME ("A", Win32 namespace) at 112,
    end marker at 208; the tail holds the update sequence number. *)

Definition sample_patches : list (nat * list Z) :=
  [(0%nat, kSignature); (4%nat, le_bytes 2 40); (6%nat, le_bytes 2 2); (20%nat, le_bytes 2 48);
   (22%nat, le_bytes 2 3); (24%nat, le_bytes 4 216); (40%nat, [1; 1; 7; 8]);
   (48%nat, le_bytes 4 16); (52%nat, le_bytes 4 64); (64%nat, le_bytes 4 40); (68%nat, le_bytes 2 24);
   (72%nat, le_bytes 8 111); (80%nat, le_bytes 8 222); (96%nat, le_bytes 8 333); (104%nat, le_bytes 4 32);
   (112%nat, le_bytes 4 48); (116%nat, le_bytes 4 96); (128%nat, le_bytes 4 68); (132%nat, le_bytes 2 24);
   (136%nat, le_bytes 8 5); (176%nat, le_bytes 8 4096); (184%nat, le_bytes 8 1234);
   (200%nat, [1; 1; 65; 0]); (208%nat, [255; 255; 255; 255]); (254%nat, [1; 1])].

Definition sample_record : list Z :=
  fold_left (fun buf p => list_inserts p.1 p.2 buf) sample_patches (replicate 256 0).

Lemma sample_record_bytes : Forall is_byte sample_record.
Proof. solve_bytes. Qed.

Lemma ParseMftAttributes_never_faults_witness :
  ParseMftAttributes sample_record <> Fault /\ ParseMftAttributes (replicate 64 255) <> Fault.
Proof.
  split; apply ParseMftAttributes_never_faults; try solve_bytes; vm_compute; discriminate.
Defined.

Lemma ParseMftAttributes_selects_witness :
  let r := mkParsedMftRecord 0 5 111 222 333 1234 4096 48 [65] in
  ParseMftAttributes sample_record = Ok r /\
  exists offs si ni,
    attribute_offsets sample_record (Z.min (word sample_record 24 4) (zlen sample_record))
      (word sample_record 20 2) offs /\
    last (omap (standard_info sample_record) offs) = Some si /\
    choose_name (omap (usable_name sample_record) offs) = Some ni /\
    r = mkParsedMftRecord 0 (ni_parentRef ni) (si_creationTime si) (si_lastModifiedTime si)
          (si_lastAccessTime si) (ni_realSize ni) (ni_allocatedSize ni)
          (Z.lor (si_attributes si) (if Z.testbit (word sample_record 22 2) 1 then 16 else 0)) (ni_name ni).
Proof.
  split; [vm_compute; reflexivity|].
  apply ParseMftAttributes_selects; [apply sample_record_bytes|vm_compute; discriminate|].
  vm_compute. reflexivity.
Defined.

Lemma ApplyFixupAndValidate_safe_witness :
  exists res record', ApplyFixupAndValidate sample_record 1 = Ok (res, record') /\
    zlen record' = zlen sample_record /\ (res <> FixupOk -> record' = sample_record).
Proof.
  apply ApplyFixupAndValidate_safe; [apply sample_record_bytes|vm_compute; discriminate|lia].
Defined.

Definition sample_restored : list Z := list_inserts 254 [7; 8] sample_record.

Lemma ApplyFixupAndValidate_restores_witness :
  restored_from 256 40 1 sample_record sample_restored 0 /\
  ApplyFixupAndValidate sample_restored 256 = Ok (FixupOk, sample_restored).
Proof.
  apply (ApplyFixupAndValidate_restores sample_record sample_restored 256).
  - apply sample_record_bytes.
  - vm_compute. discriminate.
  - lia.
  - vm_compute. discriminate.
  - vm_compute. reflexivity.
Defined.
