(* ===== verification/UiProtocol.v ===== *)
(** * The UI seam

    [src/protocol/include/ffprotocol/UiProtocol.h] and
    [src/protocol/src/UiProtocol.cpp]: the closed message set, the validators of
    raw enum values, and the parsers and serializers of the indexed-search
    request and of the two response layouts (messages 18 and 21).

    The two response parsers and the two serializers of the source differ only
    in the candidate header; the class [CandidateHeader] states what the shared
    code needs of it, and both headers are instances. *)

From S2P Require Import Prelude Wire.

(** ** Message types *)

Inductive UiMessageType :=
| Subscribe | SubscribeAck | RequestDirectory | DirectoryError | NewGeneration | EngineStatus
| ReloadIndexingConfig | RequestUnavailableVolumes | UnavailableVolumes | ForgetUnavailableVolume
| ForgetUnavailableVolumeResult | RequestFolderAggregate | FolderAggregateResult
| RequestVolumeStatus | VolumeStatus | SetIndexingPaused | RequestIndexedSearch
| IndexedSearchResult | CancelIndexedSearch | FolderAggregateResultV2 | IndexedSearchResultV2.

#[export] Instance UiMessageType_eq_dec : EqDecision UiMessageType.
Proof. solve_decision. Defined.

Definition raw_of_UiMessageType (m : UiMessageType) : Z :=
  match m with
  | Subscribe => 1 | SubscribeAck => 2 | RequestDirectory => 3 | DirectoryError => 4
  | NewGeneration => 5 | EngineStatus => 6 | ReloadIndexingConfig => 7
  | RequestUnavailableVolumes => 8 | UnavailableVolumes => 9 | ForgetUnavailableVolume => 10
  | ForgetUnavailableVolumeResult => 11 | RequestFolderAggregate => 12
  | FolderAggregateResult => 13 | RequestVolumeStatus => 14 | VolumeStatus => 15
  | SetIndexingPaused => 16 | RequestIndexedSearch => 17 | IndexedSearchResult => 18
  | CancelIndexedSearch => 19 | FolderAggregateResultV2 => 20 | IndexedSearchResultV2 => 21
  end.

Definition ToUiMessageType (raw : Z) : option UiMessageType :=
  match raw with
  | 1 => Some Subscribe | 2 => Some SubscribeAck | 3 => Some RequestDirectory
  | 4 => Some DirectoryError | 5 => Some NewGeneration | 6 => Some EngineStatus
  | 7 => Some ReloadIndexingConfig | 8 => Some RequestUnavailableVolumes
  | 9 => Some UnavailableVolumes | 10 => Some ForgetUnavailableVolume
  | 11 => Some ForgetUnavailableVolumeResult | 12 => Some RequestFolderAggregate
  | 13 => Some FolderAggregateResult | 14 => Some RequestVolumeStatus | 15 => Some VolumeStatus
  | 16 => Some SetIndexingPaused | 17 => Some RequestIndexedSearch
  | 18 => Some IndexedSearchResult | 19 => Some CancelIndexedSearch
  | 20 => Some FolderAggregateResultV2 | 21 => Some IndexedSearchResultV2
  | _ => None
  end.

(** ** Bounds and validators

    The enum classes have a fixed underlying type, so a value read from the wire
    can be any 16-bit number: the validators take the raw value. *)

Definition kMaxPathLengthChars : Z := 32767.
Definition kMaxIndexedSearchQueryLengthChars : Z := 4095.
Definition kMaxIndexedSearchRequestResults : Z := 10000.
Definition kMaxIndexedSearchResultCount : Z := 4096.

Definition IsUiPathLengthValid (lengthChars : Z) : bool :=
  (0 <? lengthChars) && (lengthChars <=? kMaxPathLengthChars).

Definition IsForgetUnavailableVolumeStatusValid (status : Z) : bool :=
  match status with 1 | 2 | 3 | 4 => true | _ => false end.
Definition IsFolderAggregateStatusValid (status : Z) : bool :=
  match status with 1 | 2 | 3 => true | _ => false end.
Definition IsIndexedSearchStatusValid (status : Z) : bool :=
  match status with 1 | 2 | 3 | 4 => true | _ => false end.
Definition IsIndexedSearchScopeValid (scope : Z) : bool := scope <=? 3.
Definition IsIndexedSearchSortValid (sortField : Z) : bool :=
  match sortField with 0 | 1 | 2 | 3 | 4 | 5 | 6 => true | _ => false end.

Inductive UiFrameValidationResult :=
| UiValid
| UiRejectedOversizedFrame
| UiRejectedUnknownMessageType
| UiRejectedUnsupportedStructVersion.

Definition ValidateUiFrame (header : FrameHeader) : UiFrameValidationResult :=
  if negb (IsFrameLengthValid (totalLength header)) then UiRejectedOversizedFrame
  else match ToUiMessageType (messageType header) with
       | None => UiRejectedUnknownMessageType
       | Some _ =>
           if negb (structVersion header =? kCurrentStructVersion)
           then UiRejectedUnsupportedStructVersion
           else UiValid
       end.

(** ** Checked sizes *)

Definition AddBytes (left right : Z) : option Z :=
  if sub64 SIZE_MAX left <? right then None else Some (add64 left right).

Definition LengthBytes (chars : Z) : option Z :=
  if SIZE_MAX / 2 <? chars then None else Some (mul64 chars 2).

(** The destination after the call, and whether the bytes were appended. *)
Definition AppendBytes (destination data : list Z) (maximum : Z) : list Z * bool :=
  match AddBytes (zlen destination) (zlen data) with
  | None => (destination, false)
  | Some nextSize =>
      if maximum <? nextSize then (destination, false) else (destination ++ data, true)
  end.

Definition IsCandidateLengthValid (lengthChars : Z) (allowEmpty : bool) : bool :=
  (allowEmpty || (0 <? lengthChars)) && (lengthChars <=? kMaxPathLengthChars).

(** ** Layouts *)

Record IndexedSearchRequestHeader := mkIndexedSearchRequestHeader {
  rqh_requestId : Z;
  rqh_scope : Z;
  rqh_sortField : Z;
  rqh_descending : Z;
  rqh_reserved : Z;
  rqh_queryLengthChars : Z;
  rqh_scopePathLengthChars : Z;
  rqh_maxResults : Z
}.

#[export, refine] Instance IndexedSearchRequestHeader_packed : Packed IndexedSearchRequestHeader := {|
  widths := [8; 1; 1; 1; 1; 2; 2; 4]%nat;
  to_fields h := [rqh_requestId h; rqh_scope h; rqh_sortField h; rqh_descending h; rqh_reserved h;
                  rqh_queryLengthChars h; rqh_scopePathLengthChars h; rqh_maxResults h];
  of_fields vs := mkIndexedSearchRequestHeader (fld vs 0) (fld vs 1) (fld vs 2) (fld vs 3) (fld vs 4)
                    (fld vs 5) (fld vs 6) (fld vs 7)
|}.
Proof. all: solve_packed. Defined.

Record IndexedSearchResultHeader := mkIndexedSearchResultHeader {
  rsh_requestId : Z;
  rsh_status : Z;
  rsh_truncated : Z;
  rsh_reserved : Z;
  rsh_count : Z
}.

#[export, refine] Instance IndexedSearchResultHeader_packed : Packed IndexedSearchResultHeader := {|
  widths := [8; 2; 1; 1; 4]%nat;
  to_fields h := [rsh_requestId h; rsh_status h; rsh_truncated h; rsh_reserved h; rsh_count h];
  of_fields vs := mkIndexedSearchResultHeader (fld vs 0) (fld vs 1) (fld vs 2) (fld vs 3) (fld vs 4)
|}.
Proof. all: solve_packed. Defined.

(** [volumeId] holds the 64-bit image of the [int64_t] field. *)
Record IndexedSearchCandidateHeader := mkIndexedSearchCandidateHeader {
  ch1_nameLengthChars : Z;
  ch1_folderLengthChars : Z;
  ch1_flags : Z;
  ch1_reserved0 : Z;
  ch1_reserved1 : Z;
  ch1_reserved2 : Z;
  ch1_volumeId : Z;
  ch1_id : Z;
  ch1_parentId : Z;
  ch1_sizeBytes : Z;
  ch1_modifiedTime : Z;
  ch1_createdTime : Z
}.

#[export, refine] Instance IndexedSearchCandidateHeader_packed : Packed IndexedSearchCandidateHeader := {|
  widths := [2; 2; 1; 1; 1; 1; 8; 8; 8; 8; 8; 8]%nat;
  to_fields h := [ch1_nameLengthChars h; ch1_folderLengthChars h; ch1_flags h; ch1_reserved0 h;
                  ch1_reserved1 h; ch1_reserved2 h; ch1_volumeId h; ch1_id h; ch1_parentId h;
                  ch1_sizeBytes h; ch1_modifiedTime h; ch1_createdTime h];
  of_fields vs := mkIndexedSearchCandidateHeader (fld vs 0) (fld vs 1) (fld vs 2) (fld vs 3) (fld vs 4)
                    (fld vs 5) (fld vs 6) (fld vs 7) (fld vs 8) (fld vs 9) (fld vs 10) (fld vs 11)
|}.
Proof. all: solve_packed. Defined.

Record IndexedSearchCandidateHeaderV2 := mkIndexedSearchCandidateHeaderV2 {
  ch2_nameLengthChars : Z;
  ch2_folderLengthChars : Z;
  ch2_flags : Z;
  ch2_reserved0 : Z;
  ch2_reserved1 : Z;
  ch2_reserved2 : Z;
  ch2_volumeId : Z;
  ch2_id : Z;
  ch2_parentId : Z;
  ch2_sizeBytes : Z;
  ch2_modifiedTime : Z;
  ch2_createdTime : Z;
  ch2_allocatedSizeBytes : Z
}.

#[export, refine] Instance IndexedSearchCandidateHeaderV2_packed : Packed IndexedSearchCandidateHeaderV2 := {|
  widths := [2; 2; 1; 1; 1; 1; 8; 8; 8; 8; 8; 8; 8]%nat;
  to_fields h := [ch2_nameLengthChars h; ch2_folderLengthChars h; ch2_flags h; ch2_reserved0 h;
                  ch2_reserved1 h; ch2_reserved2 h; ch2_volumeId h; ch2_id h; ch2_parentId h;
                  ch2_sizeBytes h; ch2_modifiedTime h; ch2_createdTime h; ch2_allocatedSizeBytes h];
  of_fields vs := mkIndexedSearchCandidateHeaderV2 (fld vs 0) (fld vs 1) (fld vs 2) (fld vs 3) (fld vs 4)
                    (fld vs 5) (fld vs 6) (fld vs 7) (fld vs 8) (fld vs 9) (fld vs 10) (fld vs 11) (fld vs 12)
|}.
Proof. all: solve_packed. Defined.

(** ** Decoded messages *)

Record IndexedSearchRequest := mkIndexedSearchRequest {
  rq_requestId : Z;
  rq_scope : Z;
  rq_sortField : Z;
  rq_descending : bool;
  rq_maxResults : Z;
  rq_query : list Z;
  rq_scopePath : list Z
}.

Record IndexedSearchCandidate := mkIndexedSearchCandidate {
  c_name : list Z;
  c_folder : list Z;
  c_sizeBytes : Z;
  c_modifiedTime : Z;
  c_isDirectory : bool;
  c_createdTime : Z;
  c_volumeId : Z;   (* int64_t *)
  c_id : Z;
  c_parentId : Z;
  c_persistentIndexed : bool;
  c_allocatedSizeBytes : Z;
  c_allocatedSizeKnown : bool
}.

Record IndexedSearchResponse := mkIndexedSearchResponse {
  rs_requestId : Z;
  rs_status : Z;
  rs_truncated : bool;
  rs_candidates : list IndexedSearchCandidate
}.

(** ** The request *)

Definition kMaxPayload : Z := kMaxFrameSize - sizeof FrameHeader.

Definition RequestHeaderValid (header : IndexedSearchRequestHeader) : bool :=
  negb (rqh_requestId header =? 0) && (rqh_reserved header =? 0) && (rqh_descending header <=? 1) &&
  IsIndexedSearchScopeValid (rqh_scope header) && IsIndexedSearchSortValid (rqh_sortField header) &&
  IsUiPathLengthValid (rqh_queryLengthChars header) &&
  (rqh_queryLengthChars header <=? kMaxIndexedSearchQueryLengthChars) &&
  (rqh_scopePathLengthChars header <=? kMaxPathLengthChars) && negb (rqh_maxResults header =? 0) &&
  (rqh_maxResults header <=? kMaxIndexedSearchRequestResults).

(** [None] for the payload is [nullptr]. *)
Definition ParseIndexedSearchRequest (payload : option (list Z)) (payloadSize : Z)
  : result IndexedSearchRequest :=
  let* buf := of_option payload in
  guard (negb (payloadSize <? sizeof IndexedSearchRequestHeader) && negb (kMaxPayload <? payloadSize))
  (let* header := load_struct IndexedSearchRequestHeader buf 0 in
   guard (RequestHeaderValid header)
   (let* queryBytes := of_option (LengthBytes (rqh_queryLengthChars header)) in
    let* pathBytes := of_option (LengthBytes (rqh_scopePathLengthChars header)) in
    let* expectedSize := of_option (AddBytes (sizeof IndexedSearchRequestHeader) queryBytes) in
    let* expectedSize := of_option (AddBytes expectedSize pathBytes) in
    guard (expectedSize =? payloadSize)
    (let* queryData := load buf (sizeof IndexedSearchRequestHeader) (Z.to_nat queryBytes) in
     let* pathData := load buf (sizeof IndexedSearchRequestHeader + queryBytes) (Z.to_nat pathBytes) in
     Ok {| rq_requestId := rqh_requestId header; rq_scope := rqh_scope header;
           rq_sortField := rqh_sortField header;
           rq_descending := negb (rqh_descending header =? 0);
           rq_maxResults := rqh_maxResults header;
           rq_query := decode_units (Z.to_nat (rqh_queryLengthChars header)) queryData;
           rq_scopePath := decode_units (Z.to_nat (rqh_scopePathLengthChars header)) pathData |}))).

Definition RequestSerializable (request : IndexedSearchRequest) : bool :=
  negb (rq_requestId request =? 0) && IsIndexedSearchScopeValid (rq_scope request) &&
  IsIndexedSearchSortValid (rq_sortField request) && negb (bool_decide (rq_query request = [])) &&
  (zlen (rq_query request) <=? kMaxIndexedSearchQueryLengthChars) &&
  (zlen (rq_scopePath request) <=? kMaxPathLengthChars) && negb (rq_maxResults request =? 0) &&
  (rq_maxResults request <=? kMaxIndexedSearchRequestResults).

Definition RequestHeaderOf (request : IndexedSearchRequest) : IndexedSearchRequestHeader :=
  {| rqh_requestId := rq_requestId request; rqh_scope := rq_scope request;
     rqh_sortField := rq_sortField request;
     rqh_descending := if rq_descending request then 1 else 0; rqh_reserved := 0;
     rqh_queryLengthChars := wrap16 (zlen (rq_query request));
     rqh_scopePathLengthChars := wrap16 (zlen (rq_scopePath request));
     rqh_maxResults := rq_maxResults request |}.

Definition SerializeIndexedSearchRequest (request : IndexedSearchRequest) : list Z :=
  if RequestSerializable request
  then struct_bytes (RequestHeaderOf request) ++ encode_units (rq_query request) ++
       encode_units (rq_scopePath request)
  else [].

(** ** Candidates *)

(** What a candidate needs to have a wire image: values of their C++ types. *)
Record candidate_typed (c : IndexedSearchCandidate) : Prop := {
  typed_name : Forall is_unit (c_name c);
  typed_folder : Forall is_unit (c_folder c);
  typed_volume : -9223372036854775808 <= c_volumeId c < 9223372036854775808;
  typed_id : fits 8 (c_id c);
  typed_parent : fits 8 (c_parentId c);
  typed_size : fits 8 (c_sizeBytes c);
  typed_modified : fits 8 (c_modifiedTime c);
  typed_created : fits 8 (c_createdTime c);
  typed_allocated : fits 8 (c_allocatedSizeBytes c)
}.

Definition CandidateSerializable (c : IndexedSearchCandidate) : bool :=
  negb (bool_decide (c_name c = [])) && (zlen (c_name c) <=? kMaxPathLengthChars) &&
  (zlen (c_folder c) <=? kMaxPathLengthChars).

(** The part of the response code that depends on the message version:
    [header_valid] is the parser's test of the fixed fields, [header_decode] its
    field copies, [header_encode] the serializer's, and [normalize] what a
    candidate becomes by one trip over the wire. *)
Class CandidateHeader (H : Type) := {
  candidate_packed :: Packed H;
  nameLengthChars : H -> Z;
  folderLengthChars : H -> Z;
  header_valid : H -> bool;
  header_decode : H -> list Z -> list Z -> IndexedSearchCandidate;
  header_encode : IndexedSearchCandidate -> H;
  normalize : IndexedSearchCandidate -> IndexedSearchCandidate;
  candidate_size_small : 0 < sizeof H < 1024;
  header_lengths_u16 : forall h, struct_ok h -> fits 2 (nameLengthChars h) /\ fits 2 (folderLengthChars h);
  header_valid_lengths : forall h, header_valid h = true ->
    IsCandidateLengthValid (nameLengthChars h) false = true /\
    IsCandidateLengthValid (folderLengthChars h) true = true;
  header_encode_ok : forall c, candidate_typed c -> CandidateSerializable c = true ->
    struct_ok (header_encode c) /\ header_valid (header_encode c) = true /\
    nameLengthChars (header_encode c) = zlen (c_name c) /\
    folderLengthChars (header_encode c) = zlen (c_folder c);
  decode_encode : forall c, candidate_typed c -> CandidateSerializable c = true ->
    header_decode (header_encode c) (c_name c) (c_folder c) = normalize c;
  header_decode_ok : forall h name folder, struct_ok h -> header_valid h = true ->
    Forall is_unit name -> Forall is_unit folder ->
    nameLengthChars h = zlen name -> folderLengthChars h = zlen folder ->
    let c := header_decode h name folder in
    candidate_typed c /\ CandidateSerializable c = true /\ normalize c = c /\
    header_encode c = h /\ c_name c = name /\ c_folder c = folder
}.

Arguments header_encode H {_} _.
Arguments normalize H {_} _.

(** *** Message 18 *)

Definition HeaderValidV1 (h : IndexedSearchCandidateHeader) : bool :=
  IsCandidateLengthValid (ch1_nameLengthChars h) false &&
  IsCandidateLengthValid (ch1_folderLengthChars h) true &&
  (Z.land (ch1_flags h) (Z.lnot 3) =? 0) &&
  (ch1_reserved0 h =? 0) && (ch1_reserved1 h =? 0) && (ch1_reserved2 h =? 0).

Definition HeaderDecodeV1 (h : IndexedSearchCandidateHeader) (name folder : list Z)
  : IndexedSearchCandidate :=
  {| c_name := name; c_folder := folder;
     c_isDirectory := negb (Z.land (ch1_flags h) 1 =? 0);
     c_persistentIndexed := negb (Z.land (ch1_flags h) 2 =? 0);
     c_volumeId := to_signed64 (ch1_volumeId h); c_id := ch1_id h; c_parentId := ch1_parentId h;
     c_sizeBytes := ch1_sizeBytes h; c_modifiedTime := ch1_modifiedTime h;
     c_createdTime := ch1_createdTime h;
     c_allocatedSizeBytes := 0; c_allocatedSizeKnown := false |}.

Definition HeaderEncodeV1 (c : IndexedSearchCandidate) : IndexedSearchCandidateHeader :=
  {| ch1_nameLengthChars := wrap16 (zlen (c_name c));
     ch1_folderLengthChars := wrap16 (zlen (c_folder c));
     ch1_flags := Z.lor (if c_isDirectory c then 1 else 0) (if c_persistentIndexed c then 2 else 0);
     ch1_reserved0 := 0; ch1_reserved1 := 0; ch1_reserved2 := 0;
     ch1_volumeId := to_unsigned64 (c_volumeId c); ch1_id := c_id c; ch1_parentId := c_parentId c;
     ch1_sizeBytes := c_sizeBytes c; ch1_modifiedTime := c_modifiedTime c;
     ch1_createdTime := c_createdTime c |}.

(** A legacy candidate is allocated-unknown. *)
Definition NormalizeV1 (c : IndexedSearchCandidate) : IndexedSearchCandidate :=
  {| c_name := c_name c; c_folder := c_folder c; c_sizeBytes := c_sizeBytes c;
     c_modifiedTime := c_modifiedTime c; c_isDirectory := c_isDirectory c;
     c_createdTime := c_createdTime c; c_volumeId := c_volumeId c; c_id := c_id c;
     c_parentId := c_parentId c; c_persistentIndexed := c_persistentIndexed c;
     c_allocatedSizeBytes := 0; c_allocatedSizeKnown := false |}.

(** *** Message 21 *)

Definition HeaderValidV2 (h : IndexedSearchCandidateHeaderV2) : bool :=
  IsCandidateLengthValid (ch2_nameLengthChars h) false &&
  IsCandidateLengthValid (ch2_folderLengthChars h) true &&
  (Z.land (ch2_flags h) (Z.lnot 7) =? 0) &&
  (ch2_reserved0 h =? 0) && (ch2_reserved1 h =? 0) && (ch2_reserved2 h =? 0) &&
  negb ((Z.land (ch2_flags h) 4 =? 0) && negb (ch2_allocatedSizeBytes h =? 0)).

Definition HeaderDecodeV2 (h : IndexedSearchCandidateHeaderV2) (name folder : list Z)
  : IndexedSearchCandidate :=
  {| c_name := name; c_folder := folder;
     c_isDirectory := negb (Z.land (ch2_flags h) 1 =? 0);
     c_persistentIndexed := negb (Z.land (ch2_flags h) 2 =? 0);
     c_volumeId := to_signed64 (ch2_volumeId h); c_id := ch2_id h; c_parentId := ch2_parentId h;
     c_sizeBytes := ch2_sizeBytes h; c_modifiedTime := ch2_modifiedTime h;
     c_createdTime := ch2_createdTime h;
     c_allocatedSizeKnown := negb (Z.land (ch2_flags h) 4 =? 0);
     c_allocatedSizeBytes := ch2_allocatedSizeBytes h |}.

Definition HeaderEncodeV2 (c : IndexedSearchCandidate) : IndexedSearchCandidateHeaderV2 :=
  {| ch2_nameLengthChars := wrap16 (zlen (c_name c));
     ch2_folderLengthChars := wrap16 (zlen (c_folder c));
     ch2_flags := Z.lor (Z.lor (if c_isDirectory c then 1 else 0) (if c_persistentIndexed c then 2 else 0))
                    (if c_allocatedSizeKnown c then 4 else 0);
     ch2_reserved0 := 0; ch2_reserved1 := 0; ch2_reserved2 := 0;
     ch2_volumeId := to_unsigned64 (c_volumeId c); ch2_id := c_id c; ch2_parentId := c_parentId c;
     ch2_sizeBytes := c_sizeBytes c; ch2_modifiedTime := c_modifiedTime c;
     ch2_createdTime := c_createdTime c;
     ch2_allocatedSizeBytes := if c_allocatedSizeKnown c then c_allocatedSizeBytes c else 0 |}.

(** An unknown allocated size carries no bytes. *)
Definition NormalizeV2 (c : IndexedSearchCandidate) : IndexedSearchCandidate :=
  {| c_name := c_name c; c_folder := c_folder c; c_sizeBytes := c_sizeBytes c;
     c_modifiedTime := c_modifiedTime c; c_isDirectory := c_isDirectory c;
     c_createdTime := c_createdTime c; c_volumeId := c_volumeId c; c_id := c_id c;
     c_parentId := c_parentId c; c_persistentIndexed := c_persistentIndexed c;
     c_allocatedSizeBytes := if c_allocatedSizeKnown c then c_allocatedSizeBytes c else 0;
     c_allocatedSizeKnown := c_allocatedSizeKnown c |}.

(** ** The response *)

Section response.
Context {H : Type} `{CandidateHeader H}.

(** The loop over [header.count] candidates. *)
Fixpoint ParseCandidates (n : nat) (buf : list Z) (payloadSize offset : Z)
  : result (list IndexedSearchCandidate * Z) :=
  match n with
  | O => Ok ([], offset)
  | S n' =>
      let* fixedEnd := of_option (AddBytes offset (sizeof H)) in
      guard (negb (payloadSize <? fixedEnd))
      (let* header := load_struct H buf offset in
       guard (header_valid header)
       (let* nameBytes := of_option (LengthBytes (nameLengthChars header)) in
        let* folderBytes := of_option (LengthBytes (folderLengthChars header)) in
        let* stringEnd := of_option (AddBytes fixedEnd nameBytes) in
        let* stringEnd := of_option (AddBytes stringEnd folderBytes) in
        guard (negb (payloadSize <? stringEnd))
        (let* nameData := load buf fixedEnd (Z.to_nat nameBytes) in
         let* folderData := load buf (fixedEnd + nameBytes) (Z.to_nat folderBytes) in
         let candidate :=
           header_decode header (decode_units (Z.to_nat (nameLengthChars header)) nameData)
             (decode_units (Z.to_nat (folderLengthChars header)) folderData) in
         let* '(candidates, last) := ParseCandidates n' buf payloadSize stringEnd in
         Ok (candidate :: candidates, last))))
  end.

Definition ResultHeaderValid (header : IndexedSearchResultHeader) : bool :=
  negb (rsh_requestId header =? 0) && IsIndexedSearchStatusValid (rsh_status header) &&
  (rsh_truncated header <=? 1) && (rsh_reserved header =? 0) &&
  (rsh_count header <=? kMaxIndexedSearchResultCount).

Definition ParseResponse (payload : option (list Z)) (payloadSize : Z) : result IndexedSearchResponse :=
  let* buf := of_option payload in
  guard (negb (payloadSize <? sizeof IndexedSearchResultHeader) && negb (kMaxPayload <? payloadSize))
  (let* header := load_struct IndexedSearchResultHeader buf 0 in
   guard (ResultHeaderValid header)
   (let* '(candidates, offset) :=
      ParseCandidates (Z.to_nat (rsh_count header)) buf payloadSize (sizeof IndexedSearchResultHeader) in
    guard (offset =? payloadSize)
    (Ok {| rs_requestId := rsh_requestId header; rs_status := rsh_status header;
           rs_truncated := negb (rsh_truncated header =? 0); rs_candidates := candidates |}))).

(** The serializer's loop: [None] is [return {}], otherwise the payload, the
    number of candidates written and the truncation flag. *)
Fixpoint SerializeCandidates (candidates : list IndexedSearchCandidate) (payload : list Z)
  (count : Z) (truncated : bool) : option (list Z * Z * bool) :=
  match candidates with
  | [] => Some (payload, count, truncated)
  | c :: rest =>
      if negb (CandidateSerializable c) then None
      else
        let nameBytes := mul64 (zlen (c_name c)) 2 in
        let folderBytes := mul64 (zlen (c_folder c)) 2 in
        match (match AddBytes (sizeof H) nameBytes with
               | Some b => AddBytes b folderBytes
               | None => None end) with
        | None => Some (payload, count, true)
        | Some candidateBytes =>
            if sub64 kMaxPayload (zlen payload) <? candidateBytes then Some (payload, count, true)
            else
              let previousSize := length payload in
              let '(payload, headerAppended) :=
                AppendBytes payload (struct_bytes (header_encode H c)) kMaxPayload in
              if negb headerAppended then None
              else
                let '(payload, nameAppended) := AppendBytes payload (encode_units (c_name c)) kMaxPayload in
                let '(payload, folderAppended) :=
                  if nameAppended then AppendBytes payload (encode_units (c_folder c)) kMaxPayload
                  else (payload, false) in
                if negb folderAppended then Some (take previousSize payload, count, true)
                else SerializeCandidates rest payload (count + 1) truncated
        end
  end.

(** The payload and [*outTruncated]. *)
Definition SerializeResponse (response : IndexedSearchResponse) : list Z * bool :=
  if (rs_requestId response =? 0) || negb (IsIndexedSearchStatusValid (rs_status response)) ||
     (kMaxIndexedSearchResultCount <? zlen (rs_candidates response))
  then ([], false)
  else
    match SerializeCandidates (rs_candidates response)
            (replicate (sizeof_nat IndexedSearchResultHeader) 0) 0 (rs_truncated response) with
    | None => ([], false)
    | Some (payload, count, truncated) =>
        let truncated := if count <? zlen (rs_candidates response) then true else truncated in
        let header := {| rsh_requestId := rs_requestId response; rsh_status := rs_status response;
                         rsh_truncated := if truncated then 1 else 0; rsh_reserved := 0;
                         rsh_count := count |} in
        (list_inserts 0 (struct_bytes header) payload, truncated)
    end.
End response.

Arguments ParseCandidates H {_} n buf payloadSize offset.
Arguments ParseResponse H {_} payload payloadSize.
Arguments SerializeCandidates H {_} candidates payload count truncated.
Arguments SerializeResponse H {_} response.

(** ** The two layouts implement the interface *)

Lemma flags_V1_inv f :
  fits 1 f -> Z.land f (Z.lnot 3) = 0 ->
  Z.lor (if negb (Z.land f 1 =? 0) then 1 else 0) (if negb (Z.land f 2 =? 0) then 2 else 0) = f.
Proof.
  intros Hf Hm.
  assert (forallb (fun f => implb (Z.land f (Z.lnot 3) =? 0)
    (Z.lor (if negb (Z.land f 1 =? 0) then 1 else 0) (if negb (Z.land f 2 =? 0) then 2 else 0) =? f))
    (seqZ 0 256) = true) as Hall by (vm_compute; reflexivity).
  rewrite forallb_forall in Hall. specialize (Hall f).
  rewrite <-list_elem_of_In, elem_of_seqZ, Hm in Hall. apply Z.eqb_eq, Hall. unfold fits in Hf. cbn in Hf. lia.
Qed.

Lemma flags_V2_inv f :
  fits 1 f -> Z.land f (Z.lnot 7) = 0 ->
  Z.lor (Z.lor (if negb (Z.land f 1 =? 0) then 1 else 0) (if negb (Z.land f 2 =? 0) then 2 else 0))
    (if negb (Z.land f 4 =? 0) then 4 else 0) = f.
Proof.
  intros Hf Hm.
  assert (forallb (fun f => implb (Z.land f (Z.lnot 7) =? 0)
    (Z.lor (Z.lor (if negb (Z.land f 1 =? 0) then 1 else 0) (if negb (Z.land f 2 =? 0) then 2 else 0))
      (if negb (Z.land f 4 =? 0) then 4 else 0) =? f))
    (seqZ 0 256) = true) as Hall by (vm_compute; reflexivity).
  rewrite forallb_forall in Hall. specialize (Hall f).
  rewrite <-list_elem_of_In, elem_of_seqZ, Hm in Hall. apply Z.eqb_eq, Hall. unfold fits in Hf. cbn in Hf. lia.
Qed.

Lemma wrap16_len {A} (l : list A) : zlen l <= kMaxPathLengthChars -> wrap16 (zlen l) = zlen l.
Proof.
  intros. unfold wrap16. apply Z.mod_small. pose proof (zlen_nonneg l). unfold kMaxPathLengthChars in *. lia.
Qed.

Lemma fits_path_length {A} (l : list A) : zlen l <= kMaxPathLengthChars -> fits 2 (zlen l).
Proof. unfold fits, kMaxPathLengthChars. intros. pose proof (zlen_nonneg l). simpl. lia. Qed.

Lemma CandidateSerializable_iff c :
  CandidateSerializable c = true <->
  c_name c <> [] /\ zlen (c_name c) <= kMaxPathLengthChars /\ zlen (c_folder c) <= kMaxPathLengthChars.
Proof.
  unfold CandidateSerializable.
  rewrite !andb_true_iff, negb_true_iff, bool_decide_eq_false, !Z.leb_le. tauto.
Qed.

Lemma zlen_pos {A} (l : list A) : l <> [] <-> 0 < zlen l.
Proof. destruct l; unfold zlen; simpl; [split; [done|lia]|split; [lia|done]]. Qed.

#[local] Hint Resolve fits_path_length : ff.

(** A [struct_ok] hypothesis, field by field. *)
Ltac inv_struct_ok Hok :=
  unfold struct_ok in Hok; cbn [widths to_fields] in Hok;
  repeat (apply Forall2_cons in Hok; destruct Hok as [? Hok]).
Ltac split_struct_ok :=
  unfold struct_ok; cbn -[fits Z.lor zlen to_unsigned64];
  repeat (apply Forall2_cons; split); try (by apply Forall2_nil).

Lemma HeaderEncodeV1_ok c :
  candidate_typed c -> CandidateSerializable c = true ->
  struct_ok (HeaderEncodeV1 c) /\ HeaderValidV1 (HeaderEncodeV1 c) = true /\
  ch1_nameLengthChars (HeaderEncodeV1 c) = zlen (c_name c) /\
  ch1_folderLengthChars (HeaderEncodeV1 c) = zlen (c_folder c).
Proof.
  intros [] (Hne & Hn & Hf)%CandidateSerializable_iff. apply zlen_pos in Hne.
  unfold HeaderEncodeV1, HeaderValidV1, IsCandidateLengthValid.
  cbn -[Z.land Z.lor Z.lnot]. rewrite !wrap16_len by done.
  rewrite (proj2 (Z.ltb_lt _ _) Hne), (proj2 (Z.leb_le _ _) Hn), (proj2 (Z.leb_le _ _) Hf).
  split; [|by destruct (c_isDirectory c), (c_persistentIndexed c)].
  split_struct_ok; auto with ff; try done.
  by destruct (c_isDirectory c), (c_persistentIndexed c).
Qed.

Lemma HeaderDecodeV1_ok h name folder :
  struct_ok h -> HeaderValidV1 h = true -> Forall is_unit name -> Forall is_unit folder ->
  ch1_nameLengthChars h = zlen name -> ch1_folderLengthChars h = zlen folder ->
  let c := HeaderDecodeV1 h name folder in
  candidate_typed c /\ CandidateSerializable c = true /\ NormalizeV1 c = c /\
  HeaderEncodeV1 c = h /\ c_name c = name /\ c_folder c = folder.
Proof.
  intros Hok Hv Hun Huf Hn Hf c. unfold HeaderValidV1, IsCandidateLengthValid in Hv.
  destruct h as [nl fl flags r0 r1 r2 vol id par size mt ct]. cbn in *. inv_struct_ok Hok. cbn in *.
  bool_prop. cbn in *. bool_prop. subst. unfold c, HeaderDecodeV1, HeaderEncodeV1, NormalizeV1. cbn -[Z.land Z.lor].
  split; [constructor; cbn; auto with ff; done|].
  split; [apply CandidateSerializable_iff; cbn; rewrite zlen_pos; done|].
  split; [done|]. split; [|done].
  by rewrite !wrap16_len, unsigned_signed64, flags_V1_inv by done.
Qed.

Lemma decode_encode_V1 c :
  candidate_typed c -> HeaderDecodeV1 (HeaderEncodeV1 c) (c_name c) (c_folder c) = NormalizeV1 c.
Proof.
  intros []. unfold HeaderDecodeV1, HeaderEncodeV1, NormalizeV1. cbn -[Z.land Z.lor].
  rewrite signed_unsigned64 by done. by destruct (c_isDirectory c), (c_persistentIndexed c).
Qed.

Lemma HeaderEncodeV2_ok c :
  candidate_typed c -> CandidateSerializable c = true ->
  struct_ok (HeaderEncodeV2 c) /\ HeaderValidV2 (HeaderEncodeV2 c) = true /\
  ch2_nameLengthChars (HeaderEncodeV2 c) = zlen (c_name c) /\
  ch2_folderLengthChars (HeaderEncodeV2 c) = zlen (c_folder c).
Proof.
  intros [] (Hne & Hn & Hf)%CandidateSerializable_iff. apply zlen_pos in Hne.
  unfold HeaderEncodeV2, HeaderValidV2, IsCandidateLengthValid.
  cbn -[Z.land Z.lor Z.lnot]. rewrite !wrap16_len by done.
  rewrite (proj2 (Z.ltb_lt _ _) Hne), (proj2 (Z.leb_le _ _) Hn), (proj2 (Z.leb_le _ _) Hf).
  split; [|by destruct (c_isDirectory c), (c_persistentIndexed c), (c_allocatedSizeKnown c)].
  split_struct_ok; auto with ff; try done; destruct (c_allocatedSizeKnown c); try done;
    by destruct (c_isDirectory c), (c_persistentIndexed c).
Qed.

Lemma HeaderDecodeV2_ok h name folder :
  struct_ok h -> HeaderValidV2 h = true -> Forall is_unit name -> Forall is_unit folder ->
  ch2_nameLengthChars h = zlen name -> ch2_folderLengthChars h = zlen folder ->
  let c := HeaderDecodeV2 h name folder in
  candidate_typed c /\ CandidateSerializable c = true /\ NormalizeV2 c = c /\
  HeaderEncodeV2 c = h /\ c_name c = name /\ c_folder c = folder.
Proof.
  intros Hok Hv Hun Huf Hn Hf c. unfold HeaderValidV2, IsCandidateLengthValid in Hv.
  destruct h as [nl fl flags r0 r1 r2 vol id par size mt ct alloc]. cbn in *.
  inv_struct_ok Hok. cbn in *. apply andb_true_iff in Hv as [Hv Ha].
  bool_prop. cbn in *. bool_prop. subst.
  assert ((if negb (Z.land flags 4 =? 0) then alloc else 0) = alloc) as Halloc.
  { destruct (Z.land flags 4 =? 0); [|done]. cbn in *. bool_prop. by subst. }
  unfold c, HeaderDecodeV2, HeaderEncodeV2, NormalizeV2. cbn -[Z.land Z.lor].
  rewrite Halloc. split; [constructor; cbn; auto with ff; done|].
  split; [apply CandidateSerializable_iff; cbn; rewrite zlen_pos; done|].
  split; [done|]. split; [|done].
  by rewrite !wrap16_len, unsigned_signed64, flags_V2_inv by done.
Qed.

Lemma decode_encode_V2 c :
  candidate_typed c -> HeaderDecodeV2 (HeaderEncodeV2 c) (c_name c) (c_folder c) = NormalizeV2 c.
Proof.
  intros []. unfold HeaderDecodeV2, HeaderEncodeV2, NormalizeV2. cbn -[Z.land Z.lor].
  rewrite signed_unsigned64 by done.
  by destruct (c_isDirectory c), (c_persistentIndexed c), (c_allocatedSizeKnown c).
Qed.

#[export, refine] Instance CandidateHeaderV1 : CandidateHeader IndexedSearchCandidateHeader := {|
  nameLengthChars := ch1_nameLengthChars; folderLengthChars := ch1_folderLengthChars;
  header_valid := HeaderValidV1; header_decode := HeaderDecodeV1; header_encode := HeaderEncodeV1;
  normalize := NormalizeV1
|}.
Proof.
  - by vm_compute.
  - intros h Hok. by inv_struct_ok Hok.
  - intros h Hv. unfold HeaderValidV1 in Hv. by bool_prop.
  - apply HeaderEncodeV1_ok.
  - intros c Hc _. by apply decode_encode_V1.
  - apply HeaderDecodeV1_ok.
Defined.

#[export, refine] Instance CandidateHeaderV2 : CandidateHeader IndexedSearchCandidateHeaderV2 := {|
  nameLengthChars := ch2_nameLengthChars; folderLengthChars := ch2_folderLengthChars;
  header_valid := HeaderValidV2; header_decode := HeaderDecodeV2; header_encode := HeaderEncodeV2;
  normalize := NormalizeV2
|}.
Proof.
  - by vm_compute.
  - intros h Hok. by inv_struct_ok Hok.
  - intros h Hv. unfold HeaderValidV2 in Hv. by bool_prop.
  - apply HeaderEncodeV2_ok.
  - intros c Hc _. by apply decode_encode_V2.
  - apply HeaderDecodeV2_ok.
Defined.

Definition ParseIndexedSearchResponse := ParseResponse IndexedSearchCandidateHeader.
Definition ParseIndexedSearchResponseV2 := ParseResponse IndexedSearchCandidateHeaderV2.
Definition SerializeIndexedSearchResponse := SerializeResponse IndexedSearchCandidateHeader.
Definition SerializeIndexedSearchResponseV2 := SerializeResponse IndexedSearchCandidateHeaderV2.

(** ** Checked sizes do not fail on payload-sized values *)

Lemma AddBytes_Some a b : 0 <= a -> 0 <= b -> a + b <= SIZE_MAX -> AddBytes a b = Some (a + b).
Proof.
  intros. unfold AddBytes, sub64. rewrite wrap64_small, add64_small by lia.
  by rewrite (proj2 (Z.ltb_ge _ _)) by lia.
Qed.

Lemma LengthBytes_Some n : 0 <= n < 65536 -> LengthBytes n = Some (2 * n).
Proof.
  intros. unfold LengthBytes, mul64. rewrite wrap64_small by (unfold SIZE_MAX; lia).
  rewrite (proj2 (Z.ltb_ge _ _)); [f_equal; lia|].
  change (SIZE_MAX / 2) with 9223372036854775807. lia.
Qed.

Lemma AppendBytes_fits dst bs maximum :
  zlen dst + zlen bs <= maximum <= SIZE_MAX -> AppendBytes dst bs maximum = (dst ++ bs, true).
Proof.
  intros Hm. pose proof (zlen_nonneg dst). pose proof (zlen_nonneg bs).
  unfold AppendBytes. rewrite AddBytes_Some by lia. by rewrite (proj2 (Z.ltb_ge _ _)) by lia.
Qed.

Lemma kMaxPayload_value : kMaxPayload = 1048568.
Proof. reflexivity. Qed.

Lemma slice_whole buf : slice buf 0 (length buf) = buf.
Proof. unfold slice. cbn. apply firstn_all. Qed.

Lemma zlen_slice buf off n :
  0 <= off -> off + Z.of_nat n <= zlen buf -> zlen (slice buf off n) = Z.of_nat n.
Proof. intros. unfold zlen. by rewrite length_slice. Qed.

(** Reading a string of [n] code units at [off]. *)
Lemma decode_slice buf off n :
  Forall is_byte buf -> 0 <= off -> 0 <= n -> off + 2 * n <= zlen buf ->
  let s := decode_units (Z.to_nat n) (slice buf off (Z.to_nat (2 * n))) in
  Forall is_unit s /\ zlen s = n /\ encode_units s = slice buf off (Z.to_nat (2 * n)).
Proof.
  intros Hb Ho Hn Hl s.
  assert (length (slice buf off (Z.to_nat (2 * n))) = (2 * Z.to_nat n)%nat) as Hlen.
  { rewrite length_slice by lia. lia. }
  split; [|split].
  - apply decode_units_are_units; [by apply Forall_slice|done].
  - unfold s, zlen. rewrite length_decode_units. lia.
  - apply encode_decode_units; [by apply Forall_slice|done].
Qed.

Lemma load_struct_sound {T} `{Packed T} buf off (Q : T -> Prop) :
  Forall is_byte buf -> 0 <= off -> off + sizeof T <= zlen buf ->
  (forall t, struct_ok t -> struct_bytes t = slice buf off (sizeof_nat T) -> Q t) ->
  safe (load_struct T buf off) Q.
Proof.
  intros Hb Ho Hl HQ. rewrite load_struct_Ok by lia. cbn [safe]. unfold sizeof in Hl.
  apply HQ; [apply struct_of_bytes_ok|apply struct_bytes_of_bytes];
    (try by apply Forall_slice); by apply length_slice.
Qed.

(** Three consecutive regions make one. *)
Lemma slice_regions3 buf off (a b c : Z) :
  0 <= off -> 0 <= a -> 0 <= b -> 0 <= c ->
  slice buf off (Z.to_nat (a + b + c)) =
  slice buf off (Z.to_nat a) ++ slice buf (off + a) (Z.to_nat b) ++ slice buf (off + a + b) (Z.to_nat c).
Proof.
  intros. rewrite (slice_split buf off (Z.to_nat a)) by lia. f_equal.
  rewrite (slice_split buf _ (Z.to_nat b)) by lia.
  replace (off + Z.of_nat (Z.to_nat a)) with (off + a) by lia.
  replace (off + a + Z.of_nat (Z.to_nat b)) with (off + a + b) by lia.
  replace (Z.to_nat (a + b + c) - Z.to_nat a)%nat with (Z.to_nat (b + c)) by lia.
  by replace (Z.to_nat (b + c) - Z.to_nat b)%nat with (Z.to_nat c) by lia.
Qed.

(** ** The response loop *)

Section response_proofs.
Context {H : Type} `{CandidateHeader H}.

Definition candidate_image (c : IndexedSearchCandidate) : list Z :=
  struct_bytes (header_encode H c) ++ encode_units (c_name c) ++ encode_units (c_folder c).

Definition candidate_ok (c : IndexedSearchCandidate) : Prop :=
  candidate_typed c /\ CandidateSerializable c = true.

Lemma zlen_candidate_image c :
  zlen (candidate_image c) = sizeof H + 2 * zlen (c_name c) + 2 * zlen (c_folder c).
Proof. unfold candidate_image. autorewrite with ff_size. lia. Qed.

Lemma ParseCandidates_sound n buf payloadSize offset :
  Forall is_byte buf -> payloadSize <= zlen buf -> payloadSize <= kMaxPayload -> 0 <= offset <= payloadSize ->
  safe (ParseCandidates H n buf payloadSize offset)
    (fun '(cs, last) => offset <= last <= payloadSize /\ length cs = n /\
       Forall (fun c => candidate_ok c /\ normalize H c = c) cs /\
       slice buf offset (Z.to_nat (last - offset)) = cs ≫= candidate_image).
Proof.
  intros Hb Hps Hmax. revert offset. induction n as [|n IH]; intros offset Ho; cbn [ParseCandidates].
  { cbn. replace (offset - offset) with 0 by lia. split; [lia|]. split; [done|]. split; [constructor|done]. }
  pose proof (candidate_size_small (H := H)) as Hsz. rewrite kMaxPayload_value in Hmax.
  rewrite AddBytes_Some by (unfold SIZE_MAX; lia). cbn [of_option bind].
  apply safe_guard. intros Hfe. apply negb_true_iff, Z.ltb_ge in Hfe.
  eapply safe_bind.
  { apply (load_struct_sound buf offset (fun h => struct_ok h /\ struct_bytes h = slice buf offset (sizeof_nat H)));
      [done|lia|lia|auto]. }
  intros h [Hok Hhb]. apply safe_guard. intros Hv.
  destruct (header_lengths_u16 h Hok) as [Hn2 Hf2]. unfold fits in Hn2, Hf2. simpl in Hn2, Hf2.
  rewrite !LengthBytes_Some by lia. cbn [of_option bind].
  rewrite AddBytes_Some by (unfold SIZE_MAX; lia). cbn [of_option bind].
  rewrite AddBytes_Some by (unfold SIZE_MAX; lia). cbn [of_option bind].
  apply safe_guard. intros Hse. apply negb_true_iff, Z.ltb_ge in Hse.
  rewrite !load_Ok by lia. cbn [bind].
  destruct (decode_slice buf (offset + sizeof H) (nameLengthChars h)) as (Hnu & Hnl & Hne); [done|lia..|].
  destruct (decode_slice buf (offset + sizeof H + 2 * nameLengthChars h) (folderLengthChars h))
    as (Hfu & Hfl & Hfe2); [done|lia..|].
  destruct (header_decode_ok h _ _ Hok Hv Hnu Hfu (eq_sym Hnl) (eq_sym Hfl)) as (Ht & Hs & Hnorm & Henc & Hcn & Hcf).
  eapply safe_bind; [apply IH; lia|]. intros [cs last] (Hlast & Hlen & Hall & Himg). cbn [safe].
  split; [lia|]. split; [simpl; lia|]. split; [apply Forall_cons; split; [by split|done]|].
  cbn [mbind list_bind]. rewrite <-Himg. unfold candidate_image at 1.
  rewrite Henc, Hcn, Hcf, Hhb, Hne, Hfe2.
  replace (sizeof_nat H) with (Z.to_nat (sizeof H)) by (unfold sizeof; lia).
  rewrite <-slice_regions3 by lia.
  rewrite (slice_split buf offset (Z.to_nat (sizeof H + 2 * nameLengthChars h + 2 * folderLengthChars h))) by lia.
  f_equal. f_equal; lia.
Qed.

Lemma load_app_middle pre bs post :
  load (pre ++ bs ++ post) (zlen pre) (length bs) = Ok bs.
Proof.
  rewrite load_Ok; [|apply zlen_nonneg|].
  - by rewrite slice_app_r, take_app_length.
  - rewrite !zlen_app. pose proof (zlen_nonneg post). unfold zlen in *. lia.
Qed.

Lemma ParseCandidates_complete cs pre post payloadSize :
  Forall candidate_ok cs ->
  zlen pre + zlen (cs ≫= candidate_image) <= payloadSize <= kMaxPayload ->
  ParseCandidates H (length cs) (pre ++ (cs ≫= candidate_image) ++ post) payloadSize (zlen pre)
  = Ok (normalize H <$> cs, zlen pre + zlen (cs ≫= candidate_image)).
Proof.
  intros Hok. revert pre. induction Hok as [|c cs [Ht Hs] _ IH]; intros pre Hsz.
  { cbn. by rewrite Z.add_0_r. }
  cbn [length ParseCandidates mbind list_bind] in *. set (tail := cs ≫= candidate_image) in *.
  pose proof (zlen_nonneg pre). pose proof (zlen_nonneg tail). pose proof (candidate_size_small (H := H)) as Hsmall.
  pose proof (zlen_nonneg (c_name c)). pose proof (zlen_nonneg (c_folder c)).
  rewrite kMaxPayload_value, zlen_app, zlen_candidate_image in Hsz.
  destruct (header_encode_ok c Ht Hs) as (Hhok & Hhv & Hnl & Hfl).
  pose proof Hs as (_ & Hn & Hf)%CandidateSerializable_iff. unfold kMaxPathLengthChars in Hn, Hf.
  rewrite AddBytes_Some by (unfold SIZE_MAX; lia). cbn [of_option bind].
  rewrite (proj2 (Z.ltb_ge _ _)) by lia. cbn [negb guard]. unfold candidate_image at 1 2 3. rewrite <-!app_assoc.
  rewrite load_struct_app by done. cbn [bind]. rewrite Hhv, Hnl, Hfl. cbn [guard].
  rewrite !LengthBytes_Some by lia. cbn [of_option bind].
  rewrite AddBytes_Some by (unfold SIZE_MAX; lia). cbn [of_option bind].
  rewrite AddBytes_Some by (unfold SIZE_MAX; lia). cbn [of_option bind].
  rewrite (proj2 (Z.ltb_ge _ _)) by lia. cbn [negb guard].
  replace (zlen pre + sizeof H) with (zlen (pre ++ struct_bytes (header_encode H c))) by (by autorewrite with ff_size).
  replace (Z.to_nat (2 * zlen (c_name c))) with (length (encode_units (c_name c)))
    by (rewrite length_encode_units; unfold zlen; lia).
  replace (Z.to_nat (2 * zlen (c_folder c))) with (length (encode_units (c_folder c)))
    by (rewrite length_encode_units; unfold zlen; lia).
  rewrite (app_assoc pre (struct_bytes _)), load_app_middle. cbn [bind].
  replace (zlen (pre ++ struct_bytes (header_encode H c)) + 2 * zlen (c_name c))
    with (zlen ((pre ++ struct_bytes (header_encode H c)) ++ encode_units (c_name c))) by (autorewrite with ff_size; lia).
  rewrite (app_assoc (pre ++ _) (encode_units (c_name c))), load_app_middle. cbn [bind].
  replace (zlen ((pre ++ struct_bytes (header_encode H c)) ++ encode_units (c_name c)) + 2 * zlen (c_folder c))
    with (zlen (pre ++ candidate_image c)) by (unfold candidate_image; autorewrite with ff_size; lia).
  rewrite (app_assoc pre (candidate_image c)).
  rewrite IH by (rewrite kMaxPayload_value, zlen_app, zlen_candidate_image; lia). cbn [bind fmap list_fmap].
  rewrite !zlen_to_nat. pose proof (typed_name _ Ht) as Hnu. pose proof (typed_folder _ Ht) as Hfu.
  rewrite <-(app_nil_r (encode_units (c_name c))) at 1. rewrite decode_encode_units by done.
  rewrite <-(app_nil_r (encode_units (c_folder c))) at 1. rewrite decode_encode_units by done.
  rewrite decode_encode by (done || by constructor). do 2 f_equal. rewrite !zlen_app. lia.
Qed.

(** ** The whole response *)

Definition ResultHeaderOf (response : IndexedSearchResponse) : IndexedSearchResultHeader :=
  {| rsh_requestId := rs_requestId response; rsh_status := rs_status response;
     rsh_truncated := if rs_truncated response then 1 else 0; rsh_reserved := 0;
     rsh_count := zlen (rs_candidates response) |}.

(** The wire image of a response that needs no truncation. *)
Definition response_image (response : IndexedSearchResponse) : list Z :=
  struct_bytes (ResultHeaderOf response) ++ (rs_candidates response ≫= candidate_image).

Record response_ok (response : IndexedSearchResponse) : Prop := {
  ok_requestId : fits 8 (rs_requestId response);
  ok_requestId_nonzero : rs_requestId response <> 0;
  ok_status : IsIndexedSearchStatusValid (rs_status response) = true;
  ok_count : zlen (rs_candidates response) <= kMaxIndexedSearchResultCount;
  ok_candidates : Forall candidate_ok (rs_candidates response)
}.

Lemma IsIndexedSearchStatusValid_range s : IsIndexedSearchStatusValid s = true -> 1 <= s <= 4.
Proof. unfold IsIndexedSearchStatusValid. intros Hs. repeat (case_match; try discriminate); lia. Qed.

Lemma ResultHeaderOf_ok response :
  response_ok response ->
  struct_ok (ResultHeaderOf response) /\ ResultHeaderValid (ResultHeaderOf response) = true.
Proof.
  intros [Hid Hnz Hst Hc _]. pose proof (IsIndexedSearchStatusValid_range _ Hst).
  assert (zlen (rs_candidates response) <= 4096) by exact Hc. pose proof (zlen_nonneg (rs_candidates response)).
  unfold ResultHeaderOf, ResultHeaderValid. split.
  - split_struct_ok; try done; [unfold fits; simpl; lia|by destruct (rs_truncated response)|unfold fits; simpl; lia].
  - cbn -[IsIndexedSearchStatusValid zlen kMaxIndexedSearchResultCount]. rewrite Hst, (proj2 (Z.eqb_neq _ _) Hnz), (proj2 (Z.leb_le _ _) Hc).
    by destruct (rs_truncated response).
Qed.

Lemma ParseResponse_sound buf payloadSize :
  Forall is_byte buf -> payloadSize <= zlen buf ->
  safe (ParseResponse H (Some buf) payloadSize)
    (fun r => response_ok r /\ Forall (fun c => normalize H c = c) (rs_candidates r) /\
              payloadSize <= kMaxPayload /\ slice buf 0 (Z.to_nat payloadSize) = response_image r).
Proof.
  intros Hb Hps. unfold ParseResponse. cbn [of_option bind].
  apply safe_guard. intros [Hlo Hhi]%andb_true_iff. apply negb_true_iff, Z.ltb_ge in Hlo, Hhi.
  change (sizeof IndexedSearchResultHeader) with 16 in *.
  eapply safe_bind.
  { apply (load_struct_sound buf 0 (fun h => struct_ok h /\ struct_bytes h = slice buf 0 16));
      [done|lia|change (sizeof IndexedSearchResultHeader) with 16; lia|auto]. }
  intros h [Hok Hhb]. apply safe_guard. intros Hv.
  eapply safe_bind; [apply (ParseCandidates_sound _ _ payloadSize); [done..|lia]|].
  intros [cs last] (Hlast & Hlen & Hall & Himg). apply safe_guard. intros ->%Z.eqb_eq. cbn [safe].
  unfold ResultHeaderValid in Hv. destruct h as [id st tr rv cnt]. inv_struct_ok Hok.
  cbn [rsh_requestId rsh_status rsh_truncated rsh_reserved rsh_count] in *.
  repeat (apply andb_true_iff in Hv as [Hv ?]). bool_prop. subst rv.
  assert (zlen cs = cnt) as Hcnt by (unfold zlen, fits in *; simpl in *; lia).
  assert ((if negb (tr =? 0) then 1 else 0) = tr) as Htr.
  { unfold fits in *. simpl in *. destruct (Z.eqb_spec tr 0); cbn; lia. }
  split; [constructor; cbn; try done; [by rewrite Hcnt|eapply Forall_impl; [done|by intros ? []]]|].
  split; [eapply Forall_impl; [done|by intros ? []]|]. split; [done|].
  unfold response_image, ResultHeaderOf. cbn [rs_requestId rs_status rs_truncated rs_candidates].
  rewrite Hcnt, Htr, Hhb, <-Himg.
  rewrite (slice_split buf 0 16) by lia. do 2 f_equal. lia.
Qed.

Lemma ParseResponse_complete_prefix response post :
  response_ok response -> zlen (response_image response) <= kMaxPayload ->
  ParseResponse H (Some (response_image response ++ post)) (zlen (response_image response)) =
  Ok {| rs_requestId := rs_requestId response; rs_status := rs_status response;
        rs_truncated := rs_truncated response; rs_candidates := normalize H <$> rs_candidates response |}.
Proof.
  intros Hok Hsz. destruct (ResultHeaderOf_ok response Hok) as [Hhok Hhv].
  unfold ParseResponse. cbn [of_option bind].
  assert (zlen (response_image response) = 16 + zlen (rs_candidates response ≫= candidate_image)) as Hl.
  { unfold response_image. autorewrite with ff_size. done. }
  pose proof (zlen_nonneg (rs_candidates response ≫= candidate_image)).
  change (sizeof IndexedSearchResultHeader) with 16.
  rewrite (proj2 (Z.ltb_ge _ _)), (proj2 (Z.ltb_ge _ _)) by lia. cbn [guard negb andb].
  unfold response_image at 1 2. rewrite <-app_assoc.
  rewrite load_struct_head by done. cbn [bind]. rewrite Hhv. cbn [guard].
  change (rsh_count (ResultHeaderOf response)) with (zlen (rs_candidates response)). rewrite zlen_to_nat.
  replace 16 with (zlen (struct_bytes (ResultHeaderOf response))) at 1 by (by rewrite zlen_struct_bytes).
  rewrite ParseCandidates_complete; [|by destruct Hok|rewrite zlen_struct_bytes; change (sizeof IndexedSearchResultHeader) with 16; lia].
  cbn [bind]. rewrite zlen_struct_bytes. change (sizeof IndexedSearchResultHeader) with 16.
  rewrite (proj2 (Z.eqb_eq _ _)) by lia. cbn [guard]. unfold ResultHeaderOf. cbn. by destruct (rs_truncated response).
Qed.

(** ** The serializer *)

(** The candidates that fit into [budget] bytes: the longest such prefix. *)
Fixpoint fitting (budget : Z) (cs : list IndexedSearchCandidate) : list IndexedSearchCandidate :=
  match cs with
  | [] => []
  | c :: rest =>
      if zlen (candidate_image c) <=? budget
      then c :: fitting (budget - zlen (candidate_image c)) rest
      else []
  end.

Lemma fitting_prefix budget cs : fitting budget cs `prefix_of` cs.
Proof.
  revert budget. induction cs as [|c cs IH]; intros budget; cbn [fitting]; [done|].
  destruct (_ <=? _); [by apply prefix_cons|apply prefix_nil].
Qed.

Lemma fitting_size budget cs : 0 <= budget -> zlen (fitting budget cs ≫= candidate_image) <= budget.
Proof.
  revert budget. induction cs as [|c cs IH]; intros budget Hb; cbn [fitting]; [done|].
  destruct (Z.leb_spec (zlen (candidate_image c)) budget); [|done].
  cbn [mbind list_bind]. rewrite zlen_app. specialize (IH (budget - zlen (candidate_image c))). lia.
Qed.

(** Every strictly longer prefix is too long. *)
Lemma fitting_maximal budget cs k :
  0 <= budget -> (length (fitting budget cs) < k <= length cs)%nat ->
  budget < zlen (take k cs ≫= candidate_image).
Proof.
  revert budget k. induction cs as [|c cs IH]; intros budget [|k] Hb Hk; cbn [fitting length take] in *; try lia.
  cbn [mbind list_bind]. rewrite zlen_app. pose proof (zlen_nonneg (take k cs ≫= candidate_image)).
  destruct (Z.leb_spec (zlen (candidate_image c)) budget) as [Hle|]; [|lia].
  cbn [length] in Hk. specialize (IH (budget - zlen (candidate_image c)) k ltac:(lia) ltac:(lia)).
  unfold mbind in *. lia.
Qed.

Lemma SerializeCandidates_spec cs payload count truncated :
  Forall candidate_ok cs -> zlen payload <= kMaxPayload ->
  let fit := fitting (kMaxPayload - zlen payload) cs in
  SerializeCandidates H cs payload count truncated =
  Some (payload ++ (fit ≫= candidate_image), count + zlen fit,
        if (length fit <? length cs)%nat then true else truncated).
Proof.
  intros Hok. revert payload count. induction Hok as [|c cs [Ht Hs] _ IH]; intros payload count Hsz.
  { cbn. by rewrite app_nil_r, Z.add_0_r. }
  cbn [SerializeCandidates fitting]. rewrite Hs. cbn [negb].
  pose proof (candidate_size_small (H := H)) as Hsmall. pose proof (zlen_nonneg payload).
  pose proof (zlen_nonneg (c_name c)). pose proof (zlen_nonneg (c_folder c)).
  pose proof Hs as (_ & Hn & Hf)%CandidateSerializable_iff. unfold kMaxPathLengthChars in Hn, Hf.
  pose proof kMaxPayload_value. pose proof (zlen_candidate_image c) as Himg.
  unfold mul64, sub64. rewrite !wrap64_small by (unfold SIZE_MAX; lia).
  rewrite AddBytes_Some by (unfold SIZE_MAX; lia). rewrite AddBytes_Some by (unfold SIZE_MAX; lia).
  replace (sizeof H + zlen (c_name c) * 2 + zlen (c_folder c) * 2) with (zlen (candidate_image c)) by lia.
  destruct (Z.leb_spec (zlen (candidate_image c)) (kMaxPayload - zlen payload)) as [Hle|Hgt].
  - rewrite (proj2 (Z.ltb_ge _ _)) by lia.
    rewrite AppendBytes_fits by (autorewrite with ff_size; unfold SIZE_MAX; lia). cbn [negb].
    rewrite AppendBytes_fits by (autorewrite with ff_size; unfold SIZE_MAX; lia).
    rewrite AppendBytes_fits by (autorewrite with ff_size; unfold SIZE_MAX; lia). cbn [negb].
    rewrite <-!app_assoc. fold (candidate_image c).
    rewrite IH by (rewrite zlen_app; lia). rewrite zlen_app, Z.sub_add_distr.
    cbn [mbind list_bind length]. rewrite zlen_cons, app_assoc. do 3 f_equal. lia.
  - rewrite (proj2 (Z.ltb_lt _ _)) by lia. cbn. by rewrite app_nil_r, Z.add_0_r.
Qed.

(** The response the serializer puts on the wire. *)
Definition truncate_response (response : IndexedSearchResponse) : IndexedSearchResponse :=
  let fit := fitting (kMaxPayload - sizeof IndexedSearchResultHeader) (rs_candidates response) in
  {| rs_requestId := rs_requestId response; rs_status := rs_status response;
     rs_truncated := if (length fit <? length (rs_candidates response))%nat then true else rs_truncated response;
     rs_candidates := fit |}.

Lemma SerializeResponse_image response :
  response_ok response ->
  SerializeResponse H response =
  (response_image (truncate_response response), rs_truncated (truncate_response response)).
Proof.
  intros [Hid Hnz Hst Hc Hcs]. unfold SerializeResponse.
  rewrite (proj2 (Z.eqb_neq _ _) Hnz), Hst, (proj2 (Z.ltb_ge _ _) Hc). cbn [orb negb].
  rewrite SerializeCandidates_spec; [|done|rewrite kMaxPayload_value; vm_compute; discriminate].
  unfold truncate_response.
  replace (zlen (replicate (sizeof_nat IndexedSearchResultHeader) 0)) with (sizeof IndexedSearchResultHeader) by done.
  set (fit := fitting _ _). rewrite Z.add_0_l. cbn [rs_truncated].
  assert ((if zlen fit <? zlen (rs_candidates response) then true
           else if (length fit <? length (rs_candidates response))%nat then true else rs_truncated response)
          = (if (length fit <? length (rs_candidates response))%nat then true else rs_truncated response)) as ->.
  { unfold zlen. destruct (Nat.ltb_spec (length fit) (length (rs_candidates response)));
      destruct (Z.ltb_spec (Z.of_nat (length fit)) (Z.of_nat (length (rs_candidates response)))); try lia; done. }
  reflexivity.
Qed.

Lemma truncate_response_ok response :
  response_ok response ->
  response_ok (truncate_response response) /\ zlen (response_image (truncate_response response)) <= kMaxPayload.
Proof.
  intros [Hid Hnz Hst Hc Hcs]. unfold truncate_response. set (fit := fitting _ _).
  pose proof (fitting_prefix (kMaxPayload - sizeof IndexedSearchResultHeader) (rs_candidates response)) as [rest Hrest].
  fold fit in Hrest. rewrite Hrest in Hc, Hcs. apply Forall_app in Hcs as [Hfit _].
  rewrite zlen_app in Hc. pose proof (zlen_nonneg rest). split; [constructor; cbn; auto; lia|].
  unfold response_image. rewrite zlen_app, zlen_struct_bytes. cbn [rs_candidates].
  pose proof (fitting_size (kMaxPayload - sizeof IndexedSearchResultHeader) (rs_candidates response)) as Hsz.
  fold fit in Hsz. change (sizeof IndexedSearchResultHeader) with 16 in *. rewrite kMaxPayload_value in *. lia.
Qed.
End response_proofs.

(** ** Properties of the responses *)

(** The wire exactness of a response parser, for either layout. *)
Lemma ParseResponse_exact {H} `{CandidateHeader H} buf r :
  Forall is_byte buf ->
  ParseResponse H (Some buf) (zlen buf) = Ok r <->
  response_ok r /\ Forall (fun c => normalize H c = c) (rs_candidates r) /\
  response_image (H := H) r = buf /\ zlen buf <= kMaxPayload.
Proof.
  intros Hb. split.
  - intros Hp. pose proof (ParseResponse_sound (H := H) buf (zlen buf) Hb ltac:(lia)) as Hs.
    rewrite Hp in Hs. cbn [safe] in Hs. rewrite zlen_to_nat, slice_whole in Hs. naive_solver.
  - intros (Hok & Hnorm & <- & Hsz).
    rewrite <-(app_nil_r (response_image r)) at 1. rewrite ParseResponse_complete_prefix by done.
    f_equal. destruct r as [id st tr cs]. cbn in *. f_equal.
    rewrite <-(list_fmap_id cs) at 2. apply list_fmap_ext. intros i c Hc.
    by apply (Forall_lookup_1 _ _ _ _ Hnorm Hc).
Qed.

Lemma SerializeResponse_parses {H} `{CandidateHeader H} r :
  response_ok r ->
  let (bytes, truncated) := SerializeResponse H r in
  let fit := fitting (H := H) (kMaxPayload - sizeof IndexedSearchResultHeader) (rs_candidates r) in
  zlen bytes <= kMaxPayload /\
  truncated = (rs_truncated r || (length fit <? length (rs_candidates r))%nat) /\
  ParseResponse H (Some bytes) (zlen bytes) =
  Ok {| rs_requestId := rs_requestId r; rs_status := rs_status r; rs_truncated := truncated;
        rs_candidates := normalize H <$> fit |} /\
  fit `prefix_of` rs_candidates r /\
  (forall k, (length fit < k <= length (rs_candidates r))%nat ->
     kMaxPayload < zlen (response_image (H := H) {| rs_requestId := rs_requestId r; rs_status := rs_status r;
       rs_truncated := truncated; rs_candidates := take k (rs_candidates r) |})).
Proof.
  intros Hok. rewrite SerializeResponse_image by done. intros fit.
  destruct (truncate_response_ok (H := H) r Hok) as [Htok Htsz]. split; [done|]. split.
  { cbn [truncate_response rs_truncated]. fold fit. destruct (rs_truncated r), (_ <? _)%nat; done. }
  split; [|split; [apply fitting_prefix|]].
  - rewrite <-(app_nil_r (response_image _)) at 1. by rewrite ParseResponse_complete_prefix.
  - intros k Hk. unfold response_image. rewrite zlen_app, zlen_struct_bytes. cbn [rs_candidates].
    apply fitting_maximal in Hk; [lia|by vm_compute].
Qed.

(** The message-18 parser never reads outside the payload (whatever part of
    the buffer it is told to use), and on a whole buffer it accepts exactly the
    wire images of well-formed responses whose candidates are allocated-unknown:
    every accepted payload is the image of the response it returns, to the last
    byte, and fits a frame. *)
Theorem ParseIndexedSearchResponse_accepts_exactly buf :
  Forall is_byte buf ->
  (forall payloadSize, payloadSize <= zlen buf -> ParseIndexedSearchResponse (Some buf) payloadSize <> Fault) /\
  forall r, ParseIndexedSearchResponse (Some buf) (zlen buf) = Ok r <->
    response_ok r /\ Forall (fun c => NormalizeV1 c = c) (rs_candidates r) /\
    response_image (H := IndexedSearchCandidateHeader) r = buf /\ zlen buf <= kMaxPayload.
Proof.
  intros Hb. split.
  - intros n Hn. eapply safe_no_fault. by apply (ParseResponse_sound (H := IndexedSearchCandidateHeader)).
  - intros r. exact (ParseResponse_exact (H := IndexedSearchCandidateHeader) buf r Hb).
Qed.

(** C29. The same for message 21: the parser accepts exactly the images of
    well-formed responses in which an unknown allocated size carries no bytes. *)
Theorem ParseIndexedSearchResponseV2_accepts_exactly buf :
  Forall is_byte buf ->
  (forall payloadSize, payloadSize <= zlen buf -> ParseIndexedSearchResponseV2 (Some buf) payloadSize <> Fault) /\
  forall r, ParseIndexedSearchResponseV2 (Some buf) (zlen buf) = Ok r <->
    response_ok r /\
    Forall (fun c => c_allocatedSizeKnown c = false -> c_allocatedSizeBytes c = 0) (rs_candidates r) /\
    response_image (H := IndexedSearchCandidateHeaderV2) r = buf /\ zlen buf <= kMaxPayload.
Proof.
  intros Hb. split.
  - intros n Hn. eapply safe_no_fault. by apply (ParseResponse_sound (H := IndexedSearchCandidateHeaderV2)).
  - intros r. unfold ParseIndexedSearchResponseV2. rewrite ParseResponse_exact by done.
    apply and_iff_compat_l. apply and_iff_compat_r. apply Forall_iff. intros [].
    cbn. unfold NormalizeV2. cbn. split; [intros [= <-] ->; done|]. intros Ha. destruct c_allocatedSizeKnown0; [done|].
    by rewrite Ha.
Qed.

(** Serializing a well-formed response as message 21 yields a payload that
    fits a frame and that the parser reads back: the candidates are the longest
    prefix that fits the frame budget, each with a stray allocated size of an
    unknown candidate cleared, and the truncation flag (on the wire and in
    [*outTruncated]) is set exactly when it was set already or candidates were
    dropped. *)
Theorem SerializeIndexedSearchResponseV2_round_trip r :
  response_ok r ->
  let (bytes, truncated) := SerializeIndexedSearchResponseV2 r in
  let fit := fitting (H := IndexedSearchCandidateHeaderV2)
               (kMaxPayload - sizeof IndexedSearchResultHeader) (rs_candidates r) in
  zlen bytes <= kMaxPayload /\
  truncated = (rs_truncated r || (length fit <? length (rs_candidates r))%nat) /\
  ParseIndexedSearchResponseV2 (Some bytes) (zlen bytes) =
  Ok {| rs_requestId := rs_requestId r; rs_status := rs_status r; rs_truncated := truncated;
        rs_candidates := NormalizeV2 <$> fit |} /\
  fit `prefix_of` rs_candidates r /\
  (forall k, (length fit < k <= length (rs_candidates r))%nat ->
     kMaxPayload < zlen (response_image (H := IndexedSearchCandidateHeaderV2)
       {| rs_requestId := rs_requestId r; rs_status := rs_status r;
          rs_truncated := truncated; rs_candidates := take k (rs_candidates r) |})).
Proof. exact (SerializeResponse_parses (H := IndexedSearchCandidateHeaderV2) r). Qed.

(** The same for message 18: every candidate comes back allocated-unknown
    and otherwise unchanged. *)
Theorem SerializeIndexedSearchResponse_round_trip r :
  response_ok r ->
  let (bytes, truncated) := SerializeIndexedSearchResponse r in
  let fit := fitting (H := IndexedSearchCandidateHeader)
               (kMaxPayload - sizeof IndexedSearchResultHeader) (rs_candidates r) in
  zlen bytes <= kMaxPayload /\
  truncated = (rs_truncated r || (length fit <? length (rs_candidates r))%nat) /\
  ParseIndexedSearchResponse (Some bytes) (zlen bytes) =
  Ok {| rs_requestId := rs_requestId r; rs_status := rs_status r; rs_truncated := truncated;
        rs_candidates := NormalizeV1 <$> fit |} /\
  fit `prefix_of` rs_candidates r /\
  (forall k, (length fit < k <= length (rs_candidates r))%nat ->
     kMaxPayload < zlen (response_image (H := IndexedSearchCandidateHeader)
       {| rs_requestId := rs_requestId r; rs_status := rs_status r;
          rs_truncated := truncated; rs_candidates := take k (rs_candidates r) |})).
Proof. exact (SerializeResponse_parses (H := IndexedSearchCandidateHeader) r). Qed.

(** ** The request *)

Record request_ok (r : IndexedSearchRequest) : Prop := {
  rok_serializable : RequestSerializable r = true;
  rok_requestId : fits 8 (rq_requestId r);
  rok_scope : fits 1 (rq_scope r);
  rok_sortField : fits 1 (rq_sortField r);
  rok_maxResults : fits 4 (rq_maxResults r);
  rok_query : Forall is_unit (rq_query r);
  rok_scopePath : Forall is_unit (rq_scopePath r)
}.

Lemma RequestSerializable_lengths r :
  RequestSerializable r = true -> 0 < zlen (rq_query r) <= 4095 /\ zlen (rq_scopePath r) <= 32767.
Proof.
  unfold RequestSerializable, kMaxIndexedSearchQueryLengthChars, kMaxPathLengthChars. intros Hs.
  repeat (apply andb_true_iff in Hs as [Hs ?]). bool_prop.
  match goal with H : bool_decide _ = false |- _ => apply bool_decide_eq_false, zlen_pos in H end. lia.
Qed.

Lemma RequestHeaderOf_ok r :
  request_ok r -> struct_ok (RequestHeaderOf r) /\ RequestHeaderValid (RequestHeaderOf r) = true.
Proof.
  intros [Hs Hid Hsc Hso Hmr _ _]. destruct (RequestSerializable_lengths r Hs) as [Hq Hp].
  pose proof (zlen_nonneg (rq_scopePath r)).
  unfold RequestHeaderOf. rewrite !wrap16_len by (unfold kMaxPathLengthChars; lia). split.
  - split_struct_ok; try done; (by destruct (rq_descending r)) || (unfold fits; simpl; lia).
  - unfold RequestSerializable in Hs. unfold RequestHeaderValid, IsUiPathLengthValid.
    repeat (apply andb_true_iff in Hs as [Hs ?]).
    cbn [rqh_requestId rqh_scope rqh_sortField rqh_descending rqh_reserved rqh_queryLengthChars
         rqh_scopePathLengthChars rqh_maxResults].
    rewrite (proj2 (Z.leb_le (zlen (rq_query r)) kMaxPathLengthChars)) by (unfold kMaxPathLengthChars; lia).
    rewrite (proj2 (Z.ltb_lt 0 _)) by lia.
    repeat (apply andb_true_iff; split); try done. by destruct (rq_descending r).
Qed.

Lemma ParseIndexedSearchRequest_sound buf payloadSize :
  Forall is_byte buf -> payloadSize <= zlen buf ->
  safe (ParseIndexedSearchRequest (Some buf) payloadSize)
    (fun r => request_ok r /\ slice buf 0 (Z.to_nat payloadSize) = SerializeIndexedSearchRequest r).
Proof.
  intros Hb Hps. unfold ParseIndexedSearchRequest. cbn [of_option bind].
  apply safe_guard. intros [Hlo Hhi]%andb_true_iff. apply negb_true_iff, Z.ltb_ge in Hlo, Hhi.
  change (sizeof IndexedSearchRequestHeader) with 20 in *.
  eapply safe_bind.
  { apply (load_struct_sound buf 0 (fun h => struct_ok h /\ struct_bytes h = slice buf 0 (Z.to_nat 20)));
      [done|lia|change (sizeof IndexedSearchRequestHeader) with 20; lia|auto]. }
  intros h [Hok Hhb]. apply safe_guard. intros Hv. pose proof Hok as Hfit. inv_struct_ok Hfit.
  destruct h as [id sc so de rv ql pl mr].
  cbn [rqh_requestId rqh_scope rqh_sortField rqh_descending rqh_reserved rqh_queryLengthChars
       rqh_scopePathLengthChars rqh_maxResults] in *.
  assert (0 <= ql < 65536 /\ 0 <= pl < 65536) as [Hql Hpl] by (unfold fits in *; simpl in *; lia).
  rewrite !LengthBytes_Some by lia. cbn [of_option bind].
  rewrite AddBytes_Some by (unfold SIZE_MAX; lia). cbn [of_option bind].
  rewrite AddBytes_Some by (unfold SIZE_MAX; lia). cbn [of_option bind].
  apply safe_guard. intros Hsz%Z.eqb_eq. rewrite !load_Ok by lia. cbn [bind safe].
  destruct (decode_slice buf 20 ql Hb) as (Hqu & Hqlen & Hqe); [lia..|].
  destruct (decode_slice buf (20 + 2 * ql) pl Hb) as (Hpu & Hplen & Hpe); [lia..|].
  set (r := mkIndexedSearchRequest _ _ _ _ _ _ _).
  unfold RequestHeaderValid, IsUiPathLengthValid in Hv.
  cbn [rqh_requestId rqh_scope rqh_sortField rqh_descending rqh_reserved rqh_queryLengthChars
       rqh_scopePathLengthChars rqh_maxResults] in Hv.
  repeat match type of Hv with (_ && _)%bool = true => apply andb_true_iff in Hv as [Hv ?] end.
  assert (RequestSerializable r = true) as Hser.
  { unfold RequestSerializable, r. cbn [rq_requestId rq_scope rq_sortField rq_query rq_scopePath rq_maxResults].
    rewrite Hqlen, Hplen, bool_decide_false by (bool_prop; apply zlen_pos; lia).
    repeat (apply andb_true_iff; split); done. }
  bool_prop. split; [by constructor|].
  unfold SerializeIndexedSearchRequest. rewrite Hser. unfold RequestHeaderOf, r.
  cbn [rq_requestId rq_scope rq_sortField rq_query rq_scopePath rq_maxResults rq_descending].
  rewrite Hqe, Hpe, Hqlen, Hplen. unfold wrap16. rewrite !Z.mod_small by lia.
  assert ((if negb (de =? 0) then 1 else 0) = de) as ->.
  { unfold fits in *. simpl in *. destruct (Z.eqb_spec de 0); cbn; lia. }
  assert (rv = 0) as -> by lia. rewrite Hhb, <-Hsz. by rewrite slice_regions3 by lia.
Qed.

Lemma ParseIndexedSearchRequest_complete r :
  request_ok r ->
  ParseIndexedSearchRequest (Some (SerializeIndexedSearchRequest r)) (zlen (SerializeIndexedSearchRequest r)) = Ok r.
Proof.
  intros Hr. destruct (RequestHeaderOf_ok r Hr) as [Hhok Hhv]. destruct Hr as [Hs Hid Hsc Hso Hmr Hq Hp].
  destruct (RequestSerializable_lengths r Hs) as [Hql Hpl]. pose proof (zlen_nonneg (rq_scopePath r)).
  unfold SerializeIndexedSearchRequest. rewrite Hs.
  set (hb := struct_bytes (RequestHeaderOf r)). set (qb := encode_units (rq_query r)).
  set (pb := encode_units (rq_scopePath r)).
  assert (zlen hb = 20) as Hhl by done.
  assert (zlen qb = 2 * zlen (rq_query r)) as Hqb by apply zlen_encode_units.
  assert (zlen pb = 2 * zlen (rq_scopePath r)) as Hpb by apply zlen_encode_units.
  unfold ParseIndexedSearchRequest. cbn [of_option bind].
  change (sizeof IndexedSearchRequestHeader) with 20. rewrite !zlen_app, Hhl, Hqb, Hpb, kMaxPayload_value.
  rewrite (proj2 (Z.ltb_ge _ _)), (proj2 (Z.ltb_ge _ _)) by lia. cbn [guard negb andb].
  unfold hb at 1. rewrite load_struct_head by done. cbn [bind]. rewrite Hhv. cbn [guard].
  unfold RequestHeaderOf. rewrite !wrap16_len by (unfold kMaxPathLengthChars; lia).
  cbn [rqh_requestId rqh_scope rqh_sortField rqh_descending rqh_reserved rqh_queryLengthChars
       rqh_scopePathLengthChars rqh_maxResults].
  rewrite !LengthBytes_Some by lia. cbn [of_option bind].
  rewrite AddBytes_Some by (unfold SIZE_MAX; lia). cbn [of_option bind].
  rewrite AddBytes_Some by (unfold SIZE_MAX; lia). cbn [of_option bind].
  rewrite (proj2 (Z.eqb_eq _ _)) by lia. cbn [guard].
  rewrite <-Hqb, <-Hpb, !zlen_to_nat.
  replace 20 with (zlen hb) at 1 by done. rewrite load_app_middle. cbn [bind].
  replace (20 + zlen qb) with (zlen (hb ++ qb)) by (rewrite zlen_app; lia).
  rewrite <-(app_nil_r pb) at 1. rewrite (app_assoc hb qb), load_app_middle. cbn [bind].
  rewrite <-(app_nil_r qb), <-(app_nil_r pb). unfold qb, pb. rewrite !decode_encode_units by done.
  f_equal. destruct r as [id sc so de mr q p]. cbn. by destruct de.
Qed.

(** The search-request parser never reads outside the payload, and it
    accepts exactly the serializations of well-formed requests, to the last
    byte; serializing and parsing are inverse to each other. *)
Theorem ParseIndexedSearchRequest_accepts_exactly buf :
  Forall is_byte buf ->
  (forall payloadSize, payloadSize <= zlen buf -> ParseIndexedSearchRequest (Some buf) payloadSize <> Fault) /\
  forall r, ParseIndexedSearchRequest (Some buf) (zlen buf) = Ok r <->
    request_ok r /\ SerializeIndexedSearchRequest r = buf.
Proof.
  intros Hb. split.
  - intros n Hn. eapply safe_no_fault. by apply ParseIndexedSearchRequest_sound.
  - intros r. split.
    + intros Hp. pose proof (ParseIndexedSearchRequest_sound buf (zlen buf) Hb ltac:(lia)) as Hs.
      rewrite Hp in Hs. cbn [safe] in Hs. rewrite zlen_to_nat, slice_whole in Hs. naive_solver.
    + intros [Hr <-]. by apply ParseIndexedSearchRequest_complete.
Qed.

(** ** Frame headers *)

Lemma ToUiMessageType_iff raw m : ToUiMessageType raw = Some m <-> raw = raw_of_UiMessageType m.
Proof.
  split; [|by intros ->; destruct m].
  unfold ToUiMessageType. intros Hm. repeat (case_match; try discriminate); by simplify_eq/=.
Qed.

(** A UI frame header is accepted exactly when its total length covers the
    header and stays within the frame limit, its type is one of the 21 messages
    of the closed set, and its struct version is the current one; the checks
    report the first violation in that order. *)
Theorem ValidateUiFrame_exact h :
  (ValidateUiFrame h = UiValid <->
     8 <= totalLength h <= kMaxFrameSize /\ (exists m, messageType h = raw_of_UiMessageType m) /\
     structVersion h = kCurrentStructVersion) /\
  (ValidateUiFrame h = UiRejectedOversizedFrame <-> ~ 8 <= totalLength h <= kMaxFrameSize) /\
  (ValidateUiFrame h = UiRejectedUnknownMessageType <->
     8 <= totalLength h <= kMaxFrameSize /\ forall m, messageType h <> raw_of_UiMessageType m).
Proof.
  unfold ValidateUiFrame. pose proof (IsFrameLengthValid_iff (totalLength h)) as Hl.
  pose proof (fun m => ToUiMessageType_iff (messageType h) m) as Ht.
  destruct (IsFrameLengthValid (totalLength h)); cbn [negb].
  - destruct (ToUiMessageType (messageType h)) as [m|].
    + destruct (Z.eqb_spec (structVersion h) kCurrentStructVersion); cbn [negb]; naive_solver.
    + naive_solver.
  - naive_solver.
Qed.

(** ** Witnesses *)

Definition witness_request : IndexedSearchRequest :=
  {| rq_requestId := 7; rq_scope := 1; rq_sortField := 6; rq_descending := true; rq_maxResults := 50;
     rq_query := [97; 98]; rq_scopePath := [67; 58] |}.

Lemma ParseIndexedSearchRequest_accepts_exactly_witness :
  ParseIndexedSearchRequest (Some (SerializeIndexedSearchRequest witness_request))
    (zlen (SerializeIndexedSearchRequest witness_request)) = Ok witness_request.
Proof.
  apply (ParseIndexedSearchRequest_accepts_exactly (SerializeIndexedSearchRequest witness_request));
    [solve_bytes|]. split; [|reflexivity].
  constructor; try reflexivity; try (unfold fits; cbn; lia); solve_units.
Defined.

Definition witness_candidate (known : bool) : IndexedSearchCandidate :=
  {| c_name := [97]; c_folder := [67; 58]; c_sizeBytes := 10; c_modifiedTime := 11; c_isDirectory := false;
     c_createdTime := 12; c_volumeId := -1; c_id := 13; c_parentId := 14; c_persistentIndexed := true;
     c_allocatedSizeBytes := if known then 4096 else 0; c_allocatedSizeKnown := known |}.

Definition witness_response (known : bool) : IndexedSearchResponse :=
  {| rs_requestId := 9; rs_status := 1; rs_truncated := false; rs_candidates := [witness_candidate known] |}.

Lemma witness_response_ok known : response_ok (witness_response known).
Proof.
  constructor; try done. apply Forall_singleton. split; [|done].
  constructor; cbn; try (solve_units || (unfold fits; cbn; lia)). destruct known; unfold fits; cbn; lia.
Qed.

Lemma ParseIndexedSearchResponse_accepts_exactly_witness :
  ParseIndexedSearchResponse (Some (SerializeIndexedSearchResponse (witness_response false)).1)
    (zlen (SerializeIndexedSearchResponse (witness_response false)).1) = Ok (witness_response false).
Proof.
  apply (ParseIndexedSearchResponse_accepts_exactly (SerializeIndexedSearchResponse (witness_response false)).1);
    [solve_bytes|]. split; [apply witness_response_ok|]. split; [by apply Forall_singleton|].
  split; [reflexivity|by vm_compute].
Defined.

Lemma ParseIndexedSearchResponseV2_accepts_exactly_witness :
  ParseIndexedSearchResponseV2 (Some (SerializeIndexedSearchResponseV2 (witness_response true)).1)
    (zlen (SerializeIndexedSearchResponseV2 (witness_response true)).1) = Ok (witness_response true).
Proof.
  apply (ParseIndexedSearchResponseV2_accepts_exactly (SerializeIndexedSearchResponseV2 (witness_response true)).1);
    [solve_bytes|]. split; [apply witness_response_ok|]. split; [by apply Forall_singleton|].
  split; [reflexivity|by vm_compute].
Defined.

Lemma SerializeIndexedSearchResponse_round_trip_witness :
  zlen (SerializeIndexedSearchResponse (witness_response true)).1 <= kMaxPayload.
Proof. exact (proj1 (SerializeIndexedSearchResponse_round_trip _ (witness_response_ok true))). Defined.

Lemma SerializeIndexedSearchResponseV2_round_trip_witness :
  zlen (SerializeIndexedSearchResponseV2 (witness_response true)).1 <= kMaxPayload.
Proof. exact (proj1 (SerializeIndexedSearchResponseV2_round_trip _ (witness_response_ok true))). Defined.
