(* ===== verification/Snapshot.v ===== *)
(** * The snapshot format

    [src/protocol/include/ffprotocol/SnapshotFormat.h] and
    [src/protocol/src/SnapshotFormat.cpp]: the flat image of a directory map that
    the engine publishes and the UI reads without IPC.  The two-pass serializer
    (exact size, then bounds-checked writes into caller-owned storage), the
    cursor-based reader, the parser, and the pooled-name model with its builder
    and its copy operation.

    A [std::map] is modelled by the list of its bindings in iteration order; the
    parser's result map inserts in lexicographic order of code units and keeps
    the first of two equal keys, as [emplace] does. *)

From Stdlib Require Import Sorted.
From S2P Require Import Prelude.

Definition kSnapshotMaximumPayloadBytes : Z := 256 * 1024 * 1024.
Definition kSnapshotFormatVersion : Z := 3.
Definition IsSnapshotFormatCompatible (formatVersion : Z) : bool := formatVersion =? kSnapshotFormatVersion.

Record SnapshotSharedHeader := mkSnapshotSharedHeader {
  sh_formatVersion : Z;
  sh_reserved : Z;
  sh_generation : Z;
  sh_payloadSizeBytes : Z
}.

#[export, refine] Instance SnapshotSharedHeader_packed : Packed SnapshotSharedHeader := {|
  widths := [4; 4; 8; 8]%nat;
  to_fields h := [sh_formatVersion h; sh_reserved h; sh_generation h; sh_payloadSizeBytes h];
  of_fields vs := mkSnapshotSharedHeader (fld vs 0) (fld vs 1) (fld vs 2) (fld vs 3)
|}.
Proof. all: solve_packed. Defined.

(** [DirectoryEnumerationStatus]: 0 success, 1 access denied, 2 not found, 3 I/O error. *)
Definition kIoError : Z := 3.
Definition kNotFound : Z := 2.

Record SnapshotDirectoryEntry := mkEntry {
  e_name : list Z;
  e_isDirectory : bool;
  e_sizeBytes : Z;
  e_allocatedSizeBytes : Z;
  e_allocatedSizeKnown : bool;
  e_attributes : Z;
  e_creationTime : Z;
  e_lastModifiedTime : Z;
  e_volumeRowId : Z;      (* int64_t *)
  e_fileIdLow : Z;
  e_fileIdHigh : Z;
  e_parentIdLow : Z;
  e_parentIdHigh : Z
}.

Record SnapshotDirectory := mkDirectory {
  d_status : Z;
  d_entries : list SnapshotDirectoryEntry;
  d_volumeRowId : Z;      (* int64_t *)
  d_directoryIdLow : Z;
  d_directoryIdHigh : Z;
  d_parentIdLow : Z;
  d_parentIdHigh : Z
}.

(** A directory map in iteration order: path and directory. *)
Definition DirectoryMap := list (list Z * SnapshotDirectory).

(** ** Pass one: the exact size *)

Definition AddBytes (current additional : Z) : option Z :=
  if sub64 SIZE_MAX current <? additional then None else Some (add64 current additional).

Definition AddWideStringBytes (current : Z) (text : list Z) : option Z :=
  if UINT32_MAX <? zlen text then None
  else if SIZE_MAX / 2 <? zlen text then None
  else
    let byteCount := mul64 (zlen text) 2 in
    match AddBytes current 4 with
    | None => None
    | Some result => AddBytes result byteCount
    end.

(** [mbind] chains the [||] of the source: the first failure returns 0. *)
Fixpoint EntriesSize (total : Z) (entries : list SnapshotDirectoryEntry) : option Z :=
  match entries with
  | [] => Some total
  | e :: rest =>
      total ← AddBytes total (1 + 4 + 2 * 8 + 1 + 7 * 8);
      total ← AddWideStringBytes total (e_name e);
      EntriesSize total rest
  end.

Fixpoint DirectoriesSize (total : Z) (directories : DirectoryMap) : option Z :=
  match directories with
  | [] => Some total
  | (path, directory) :: rest =>
      total ← AddWideStringBytes total path;
      total ← AddBytes total 4;
      total ← AddBytes total (5 * 8);
      if UINT32_MAX <? zlen (d_entries directory) then None
      else
        total ← AddBytes total 4;
        total ← EntriesSize total (d_entries directory);
        DirectoriesSize total rest
  end.

Definition SerializedSnapshotSize (directories : DirectoryMap) : Z :=
  if UINT32_MAX <? zlen directories then 0
  else default 0 (DirectoriesSize 4 directories).

(** ** Pass two: the writer

    [Reject] is a [false] return, after which the caller gives up: the partly
    written destination of a failed call is not modelled. *)

Record Writer := mkWriter {
  destination_ : option (list Z);   (* [None] is [nullptr] *)
  capacity_ : Z;
  w_offset_ : Z
}.

Definition WriteRaw (w : Writer) (source : list Z) : result Writer :=
  guard (negb (sub64 (capacity_ w) (w_offset_ w) <? zlen source))
  (if zlen source =? 0 then Ok w
   else
     let* destination := of_option (destination_ w) in
     let* destination := store destination (w_offset_ w) source in
     Ok (mkWriter (Some destination) (capacity_ w) (add64 (w_offset_ w) (zlen source)))).

Definition WriteU32 (w : Writer) (value : Z) : result Writer := WriteRaw w (le_bytes 4 value).
Definition WriteU64 (w : Writer) (value : Z) : result Writer := WriteRaw w (le_bytes 8 value).
Definition WriteByte (w : Writer) (value : Z) : result Writer := WriteRaw w (le_bytes 1 value).

Definition WriteWideString (w : Writer) (text : list Z) : result Writer :=
  guard (negb ((UINT32_MAX <? zlen text) || (SIZE_MAX / 2 <? zlen text)))
  (let* w := WriteU32 w (wrap32 (zlen text)) in
   WriteRaw w (encode_units text)).

Definition b2z (b : bool) : Z := if b then 1 else 0.

Definition WriteEntry (w : Writer) (entry : SnapshotDirectoryEntry) : result Writer :=
  let* w := WriteByte w (b2z (e_isDirectory entry)) in
  let* w := WriteU64 w (e_sizeBytes entry) in
  let* w := WriteU64 w (e_allocatedSizeBytes entry) in
  let* w := WriteByte w (b2z (e_allocatedSizeKnown entry)) in
  let* w := WriteU32 w (e_attributes entry) in
  let* w := WriteU64 w (e_creationTime entry) in
  let* w := WriteU64 w (e_lastModifiedTime entry) in
  let* w := WriteU64 w (to_unsigned64 (e_volumeRowId entry)) in
  let* w := WriteU64 w (e_fileIdLow entry) in
  let* w := WriteU64 w (e_fileIdHigh entry) in
  let* w := WriteU64 w (e_parentIdLow entry) in
  let* w := WriteU64 w (e_parentIdHigh entry) in
  WriteWideString w (e_name entry).

Fixpoint WriteEntries (w : Writer) (entries : list SnapshotDirectoryEntry) : result Writer :=
  match entries with
  | [] => Ok w
  | e :: rest => let* w := WriteEntry w e in WriteEntries w rest
  end.

Fixpoint WriteDirectories (w : Writer) (directories : DirectoryMap) : result Writer :=
  match directories with
  | [] => Ok w
  | (path, directory) :: rest =>
      let* w := WriteWideString w path in
      let* w := WriteU32 w (d_status directory) in
      let* w := WriteU64 w (to_unsigned64 (d_volumeRowId directory)) in
      let* w := WriteU64 w (d_directoryIdLow directory) in
      let* w := WriteU64 w (d_directoryIdHigh directory) in
      let* w := WriteU64 w (d_parentIdLow directory) in
      let* w := WriteU64 w (d_parentIdHigh directory) in
      let* w := WriteU32 w (wrap32 (zlen (d_entries directory))) in
      let* w := WriteEntries w (d_entries directory) in
      WriteDirectories w rest
  end.

(** The destination after a call that returns [true]. *)
Definition SerializeSnapshotTo (directories : DirectoryMap) (destination : option (list Z)) (capacity : Z)
  : result (option (list Z)) :=
  guard (negb (bool_decide (destination = None)))
  (guard (negb (UINT32_MAX <? zlen directories))
   (let* w := WriteU32 (mkWriter destination capacity 0) (wrap32 (zlen directories)) in
    let* w := WriteDirectories w directories in
    Ok (destination_ w))).

Definition SerializeSnapshot (directories : DirectoryMap) : result (list Z) :=
  let size := SerializedSnapshotSize directories in
  if size =? 0 then Ok []
  else
    let buffer := replicate (Z.to_nat size) 0 in
    match SerializeSnapshotTo directories (Some buffer) size with
    | Ok written => Ok (default [] written)
    | Reject => Ok []
    | Fault => Fault
    end.

(** ** The reader *)

Record Reader := mkReader { data_ : option (list Z); size_ : Z; r_offset_ : Z }.

Definition remaining (r : Reader) : Z := sub64 (size_ r) (r_offset_ r).
Definition ExactlyConsumed (r : Reader) : bool := r_offset_ r =? size_ r.

(** [std::memcpy] out of [data_ + offset_]. *)
Definition load_data (r : Reader) (n : nat) : result (list Z) :=
  match data_ r with
  | Some buf => load buf (r_offset_ r) n
  | None => if (n =? 0)%nat then Ok [] else Fault
  end.

Definition advance (r : Reader) (n : Z) : Reader := mkReader (data_ r) (size_ r) (add64 (r_offset_ r) n).

(** The common body of [ReadByte], [ReadU32] and [ReadU64]. *)
Definition ReadWord (n : nat) (r : Reader) : result (Z * Reader) :=
  guard (negb (remaining r <? Z.of_nat n))
  (let* bs := load_data r n in
   Ok (le_value bs, advance r (Z.of_nat n))).

Definition Reader_ReadU32 : Reader -> result (Z * Reader) := ReadWord 4.
Definition Reader_ReadU64 : Reader -> result (Z * Reader) := ReadWord 8.
Definition Reader_ReadByte : Reader -> result (Z * Reader) := ReadWord 1.

Definition ReadWString (r : Reader) : result (list Z * Reader) :=
  let* '(lengthChars, r) := Reader_ReadU32 r in
  guard (negb (remaining r / 2 <? lengthChars))
  (let byteLength := mul64 lengthChars 2 in
   let* bs := load_data r (Z.to_nat byteLength) in
   Ok (decode_units (Z.to_nat lengthChars) bs, advance r byteLength)).

(** ** The parser *)

Definition ReadEntry (r : Reader) : result (SnapshotDirectoryEntry * Reader) :=
  let* '(isDirectoryByte, r) := Reader_ReadByte r in
  let* '(sizeBytes, r) := Reader_ReadU64 r in
  let* '(allocatedSizeBytes, r) := Reader_ReadU64 r in
  let* '(allocatedSizeKnownByte, r) := Reader_ReadByte r in
  let* '(attributes, r) := Reader_ReadU32 r in
  let* '(creationTime, r) := Reader_ReadU64 r in
  let* '(lastModifiedTime, r) := Reader_ReadU64 r in
  let* '(entryVolumeRowId, r) := Reader_ReadU64 r in
  let* '(fileIdLow, r) := Reader_ReadU64 r in
  let* '(fileIdHigh, r) := Reader_ReadU64 r in
  let* '(entryParentIdLow, r) := Reader_ReadU64 r in
  let* '(entryParentIdHigh, r) := Reader_ReadU64 r in
  let* '(name, r) := ReadWString r in
  Ok ({| e_name := name; e_isDirectory := negb (isDirectoryByte =? 0); e_sizeBytes := sizeBytes;
         e_allocatedSizeBytes := allocatedSizeBytes;
         e_allocatedSizeKnown := negb (allocatedSizeKnownByte =? 0); e_attributes := attributes;
         e_creationTime := creationTime; e_lastModifiedTime := lastModifiedTime;
         e_volumeRowId := to_signed64 entryVolumeRowId; e_fileIdLow := fileIdLow;
         e_fileIdHigh := fileIdHigh; e_parentIdLow := entryParentIdLow;
         e_parentIdHigh := entryParentIdHigh |}, r).

Fixpoint ReadEntries (n : nat) (r : Reader) : result (list SnapshotDirectoryEntry * Reader) :=
  match n with
  | O => Ok ([], r)
  | S n' =>
      let* '(entry, r) := ReadEntry r in
      let* '(entries, r) := ReadEntries n' r in
      Ok (entry :: entries, r)
  end.

Definition kMinBytesPerEntry : Z := 1 + 2 * 8 + 1 + 4 + 7 * 8.

Definition ReadDirectory (r : Reader) : result (list Z * SnapshotDirectory * Reader) :=
  let* '(path, r) := ReadWString r in
  let* '(statusRaw, r) := Reader_ReadU32 r in
  let* '(volumeRowId, r) := Reader_ReadU64 r in
  let* '(directoryIdLow, r) := Reader_ReadU64 r in
  let* '(directoryIdHigh, r) := Reader_ReadU64 r in
  let* '(parentIdLow, r) := Reader_ReadU64 r in
  let* '(parentIdHigh, r) := Reader_ReadU64 r in
  let* '(entryCount, r) := Reader_ReadU32 r in
  guard (negb (kIoError <? statusRaw))
  (guard (negb (remaining r <? mul64 entryCount kMinBytesPerEntry))
   (let* '(entries, r) := ReadEntries (Z.to_nat entryCount) r in
    Ok (path,
        {| d_status := statusRaw; d_entries := entries; d_volumeRowId := to_signed64 volumeRowId;
           d_directoryIdLow := directoryIdLow; d_directoryIdHigh := directoryIdHigh;
           d_parentIdLow := parentIdLow; d_parentIdHigh := parentIdHigh |}, r))).

(** [std::wstring]'s [operator<]: lexicographic on code units. *)
Fixpoint wless (a b : list Z) : bool :=
  match a, b with
  | _, [] => false
  | [], _ :: _ => true
  | x :: a', y :: b' => (x <? y) || ((x =? y) && wless a' b')
  end.

(** [std::map::emplace]: insert in key order, keep an existing binding. *)
Fixpoint emplace (path : list Z) (directory : SnapshotDirectory) (m : DirectoryMap) : DirectoryMap :=
  match m with
  | [] => [(path, directory)]
  | (p, d) :: rest =>
      if wless path p then (path, directory) :: m
      else if wless p path then (p, d) :: emplace path directory rest
      else m
  end.

Fixpoint ParseDirectories (n : nat) (r : Reader) (result_ : DirectoryMap) : result (DirectoryMap * Reader) :=
  match n with
  | O => Ok (result_, r)
  | S n' =>
      let* '(path, directory, r) := ReadDirectory r in
      ParseDirectories n' r (emplace path directory result_)
  end.

Definition ParseSnapshot (data : option (list Z)) (size : Z) : result DirectoryMap :=
  guard (negb (bool_decide (data = None) && negb (size =? 0)))
  (let* '(directoryCount, r) := Reader_ReadU32 (mkReader data size 0) in
   let* '(m, r) := ParseDirectories (Z.to_nat directoryCount) r [] in
   guard (ExactlyConsumed r) (Ok m)).

(** ** The image of a directory map *)

Definition string_image (s : list Z) : list Z := le_bytes 4 (zlen s) ++ encode_units s.

Definition entry_image (e : SnapshotDirectoryEntry) : list Z :=
  le_bytes 1 (b2z (e_isDirectory e)) ++ le_bytes 8 (e_sizeBytes e) ++ le_bytes 8 (e_allocatedSizeBytes e) ++
  le_bytes 1 (b2z (e_allocatedSizeKnown e)) ++ le_bytes 4 (e_attributes e) ++ le_bytes 8 (e_creationTime e) ++
  le_bytes 8 (e_lastModifiedTime e) ++ le_bytes 8 (to_unsigned64 (e_volumeRowId e)) ++
  le_bytes 8 (e_fileIdLow e) ++ le_bytes 8 (e_fileIdHigh e) ++ le_bytes 8 (e_parentIdLow e) ++
  le_bytes 8 (e_parentIdHigh e) ++ string_image (e_name e).

Definition directory_image (pd : list Z * SnapshotDirectory) : list Z :=
  let d := pd.2 in
  string_image pd.1 ++ le_bytes 4 (d_status d) ++ le_bytes 8 (to_unsigned64 (d_volumeRowId d)) ++
  le_bytes 8 (d_directoryIdLow d) ++ le_bytes 8 (d_directoryIdHigh d) ++ le_bytes 8 (d_parentIdLow d) ++
  le_bytes 8 (d_parentIdHigh d) ++ le_bytes 4 (zlen (d_entries d)) ++ (d_entries d ≫= entry_image).

Definition snapshot_image (ds : DirectoryMap) : list Z :=
  le_bytes 4 (zlen ds) ++ (ds ≫= directory_image).

Lemma zlen_string_image s : zlen (string_image s) = 4 + 2 * zlen s.
Proof. unfold string_image. by autorewrite with ff_size. Qed.

Lemma zlen_entry_image e : zlen (entry_image e) = 78 + (4 + 2 * zlen (e_name e)).
Proof. unfold entry_image. autorewrite with ff_size. rewrite zlen_string_image. lia. Qed.

Lemma zlen_directory_image p d :
  zlen (directory_image (p, d)) = 4 + 2 * zlen p + 4 + 5 * 8 + 4 + zlen (d_entries d ≫= entry_image).
Proof. unfold directory_image. autorewrite with ff_size. rewrite zlen_string_image. cbn. lia. Qed.

(** ** Pass one computes the size of the image *)

Definition short (s : list Z) : Prop := zlen s <= UINT32_MAX.
Definition directory_short (pd : list Z * SnapshotDirectory) : Prop :=
  short pd.1 /\ zlen (d_entries pd.2) <= UINT32_MAX /\ Forall (fun e => short (e_name e)) (d_entries pd.2).

(** The maps the format can represent. *)
Definition representable (ds : DirectoryMap) : Prop :=
  zlen ds <= UINT32_MAX /\ Forall directory_short ds /\ zlen (snapshot_image ds) <= SIZE_MAX.

Lemma AddBytes_spec current additional t :
  0 <= current <= SIZE_MAX -> 0 <= additional ->
  AddBytes current additional = Some t <-> t = current + additional /\ t <= SIZE_MAX.
Proof.
  intros. unfold AddBytes, sub64. rewrite wrap64_small by lia.
  destruct (Z.ltb_spec (SIZE_MAX - current) additional).
  - split; [done|lia].
  - rewrite add64_small by lia. split; [intros [= <-]; lia|]. by intros [-> _].
Qed.

Lemma AddWideStringBytes_spec current text t :
  0 <= current <= SIZE_MAX ->
  AddWideStringBytes current text = Some t <->
  short text /\ t = current + zlen (string_image text) /\ t <= SIZE_MAX.
Proof.
  intros Hc. unfold AddWideStringBytes, short. rewrite zlen_string_image. pose proof (zlen_nonneg text).
  destruct (Z.ltb_spec UINT32_MAX (zlen text)) as [|Hs]; [split; [done|lia]|].
  unfold UINT32_MAX in Hs. rewrite (proj2 (Z.ltb_ge _ _)) by (change (SIZE_MAX / 2) with 9223372036854775807; lia).
  unfold mul64. rewrite wrap64_small by (unfold SIZE_MAX; lia).
  destruct (AddBytes current 4) as [t1|] eqn:E1.
  - apply AddBytes_spec in E1 as [-> E1]; [|lia..]. rewrite AddBytes_spec by lia. unfold UINT32_MAX. lia.
  - split; [done|]. intros (_ & Ht & Hle). exfalso.
    assert (AddBytes current 4 = Some (current + 4)) by (apply AddBytes_spec; lia). congruence.
Qed.

Lemma AddBytes_small current additional :
  0 <= current -> 0 <= additional -> current + additional <= SIZE_MAX ->
  AddBytes current additional = Some (current + additional).
Proof. intros. by apply AddBytes_spec; [lia|lia|]. Qed.

Lemma AddWideStringBytes_small current text :
  0 <= current -> short text -> current + (4 + 2 * zlen text) <= SIZE_MAX ->
  AddWideStringBytes current text = Some (current + (4 + 2 * zlen text)).
Proof.
  intros. pose proof (zlen_nonneg text).
  apply AddWideStringBytes_spec; [lia|]. rewrite zlen_string_image. auto.
Qed.

Lemma EntriesSize_spec es t t' :
  0 <= t <= SIZE_MAX ->
  EntriesSize t es = Some t' <->
  Forall (fun e => short (e_name e)) es /\ t' = t + zlen (es ≫= entry_image) /\ t' <= SIZE_MAX.
Proof.
  revert t. induction es as [|e es IH]; intros t Ht; cbn [EntriesSize].
  { rewrite Forall_nil. change (zlen (mbind entry_image [])) with 0. rewrite Z.add_0_r.
    split; [intros [= <-]; lia|]. by intros (_ & -> & _). }
  rewrite bind_cons, zlen_app, zlen_entry_image, Forall_cons.
  pose proof (zlen_nonneg (es ≫= entry_image)) as Htl.
  pose proof (zlen_nonneg (e_name e)). rewrite bind_Some. setoid_rewrite bind_Some. split.
  - intros (t1 & H1 & t2 & H2 & H3). apply AddBytes_spec in H1 as [-> ?]; [|lia..].
    apply AddWideStringBytes_spec in H2 as (? & -> & ?); [|lia]. rewrite zlen_string_image in *.
    apply IH in H3 as (? & -> & ?); [|lia]. split; [done|]. lia.
  - intros ([Hs Hall] & -> & Hle). exists (t + 78). split; [apply AddBytes_spec; lia|].
    exists (t + 78 + (4 + 2 * zlen (e_name e))).
    split; [apply AddWideStringBytes_spec; rewrite ?zlen_string_image; [lia|split; [done|lia]]|].
    apply IH; [lia|]. split; [done|]. lia.
Qed.

Lemma DirectoriesSize_spec ds t t' :
  0 <= t <= SIZE_MAX ->
  DirectoriesSize t ds = Some t' <->
  Forall directory_short ds /\ t' = t + zlen (ds ≫= directory_image) /\ t' <= SIZE_MAX.
Proof.
  revert t. induction ds as [|[p d] ds IH]; intros t Ht; cbn [DirectoriesSize].
  { rewrite Forall_nil. change (zlen (mbind directory_image [])) with 0. rewrite Z.add_0_r.
    split; [intros [= <-]; lia|]. by intros (_ & -> & _). }
  rewrite bind_cons, zlen_app, zlen_directory_image, Forall_cons.
  pose proof (zlen_nonneg (ds ≫= directory_image)) as Htl.
  pose proof (zlen_nonneg (d_entries d ≫= entry_image)) as Hel. pose proof (zlen_nonneg p).
  unfold directory_short at 1. cbn [fst snd].
  destruct (Z.ltb_spec UINT32_MAX (zlen (d_entries d))) as [Hbig|Hsm].
  { split; [|lia]. by intros (? & _ & (? & _ & (? & _ & ?)%bind_Some)%bind_Some)%bind_Some. }
  split.
  - intros (t1 & H1 & (t2 & H2 & (t3 & H3 & (t4 & H4 & (t5 & H5 & H6)%bind_Some)%bind_Some)%bind_Some)%bind_Some)%bind_Some.
    apply AddWideStringBytes_spec in H1 as (? & -> & ?); [|lia]. rewrite zlen_string_image in *.
    apply AddBytes_spec in H2 as [-> ?]; [|lia..]. apply AddBytes_spec in H3 as [-> ?]; [|lia..].
    apply AddBytes_spec in H4 as [-> ?]; [|lia..]. apply EntriesSize_spec in H5 as (? & -> & ?); [|lia].
    apply IH in H6 as (? & -> & ?); [|lia]. split; [done|]. lia.
  - intros (((Hp & _ & He) & Hall) & -> & Hle).
    rewrite AddWideStringBytes_small by (done || lia). cbn [mbind option_bind].
    rewrite AddBytes_small by lia. cbn [mbind option_bind]. rewrite AddBytes_small by lia. cbn [mbind option_bind].
    rewrite AddBytes_small by lia. cbn [mbind option_bind].
    destruct (EntriesSize_spec (d_entries d) (t + (4 + 2 * zlen p) + 4 + 5 * 8 + 4)
      (t + (4 + 2 * zlen p) + 4 + 5 * 8 + 4 + zlen (d_entries d ≫= entry_image))) as [_ ->];
      [lia| |split; [done|split; [reflexivity|lia]]]. cbn [mbind option_bind].
    apply IH; [lia|]. split; [done|lia].
Qed.

(** Zero reports an unrepresentable map, any other value is the image's size. *)
Lemma SerializedSnapshotSize_spec ds :
  (representable ds /\ SerializedSnapshotSize ds = zlen (snapshot_image ds)) \/
  (~ representable ds /\ SerializedSnapshotSize ds = 0).
Proof.
  unfold SerializedSnapshotSize, representable. pose proof (zlen_nonneg (ds ≫= directory_image)) as Hnn.
  assert (zlen (snapshot_image ds) = 4 + zlen (ds ≫= directory_image)) as ->.
  { unfold snapshot_image. by autorewrite with ff_size. }
  destruct (Z.ltb_spec UINT32_MAX (zlen ds)); [right; split; [lia|done]|].
  pose proof (DirectoriesSize_spec ds 4) as Hs.
  destruct (DirectoriesSize 4 ds) as [t|] eqn:E; cbn [default].
  - left. specialize (Hs t ltac:(unfold SIZE_MAX; lia)). naive_solver.
  - right. split; [|done]. intros (_ & Hall & Hle).
    specialize (Hs (4 + zlen (ds ≫= directory_image)) ltac:(unfold SIZE_MAX; lia)). naive_solver.
Qed.

(** ** Pass two writes the image *)

(** The writer has produced [out] at the start of the buffer [orig], whose
    remaining bytes are untouched. *)
Definition writer_at (w : Writer) (orig out : list Z) (cap : Z) : Prop :=
  destination_ w = Some (out ++ drop (length out) orig) /\ capacity_ w = cap /\ w_offset_ w = zlen out /\
  zlen out <= cap <= zlen orig /\ cap <= SIZE_MAX.

(** [writes f bs]: [f] appends [bs] when they fit and returns [false] otherwise. *)
Definition writes (f : Writer -> result Writer) (bs : list Z) : Prop :=
  forall w orig out cap, writer_at w orig out cap ->
    match f w with
    | Ok w' => writer_at w' orig (out ++ bs) cap
    | Reject => cap < zlen out + zlen bs
    | Fault => False
    end.

Lemma inserts_at_end (out bs tl : list Z) :
  (length bs <= length tl)%nat ->
  list_inserts (length out) bs (out ++ tl) = (out ++ bs) ++ drop (length bs) tl.
Proof.
  intros Hle. apply list_eq. intros i. rewrite <-app_assoc.
  destruct (decide (i < length out)%nat); [|destruct (decide (i < length out + length bs)%nat)].
  - rewrite list_lookup_inserts_lt by lia. by rewrite !lookup_app_l by lia.
  - rewrite list_lookup_inserts by (rewrite ?length_app; lia).
    rewrite lookup_app_r by lia. by rewrite lookup_app_l by lia.
  - rewrite list_lookup_inserts_ge by lia. rewrite !lookup_app_r by lia. rewrite lookup_drop. f_equal. lia.
Qed.

Lemma writes_raw bs : writes (fun w => WriteRaw w bs) bs.
Proof.
  intros w orig out cap (Hd & Hc & Ho & Hle & Hmax). unfold WriteRaw. rewrite Hd, Hc, Ho.
  pose proof (zlen_nonneg out). pose proof (zlen_nonneg bs).
  unfold sub64. rewrite wrap64_small by lia.
  destruct (Z.ltb_spec (cap - zlen out) (zlen bs)) as [|Hfit]; cbn [negb guard]; [lia|].
  destruct (Z.eqb_spec (zlen bs) 0) as [E|_].
  { assert (bs = []) as -> by (destruct bs; [done|unfold zlen in E; simpl in E; lia]).
    rewrite app_nil_r. by split. }
  cbn [of_option bind]. unfold zlen in *.
  rewrite store_Ok by (unfold zlen; rewrite ?length_app, ?length_drop; lia). cbn [bind].
  rewrite Nat2Z.id, inserts_at_end by (rewrite length_drop; lia).
  split; [|split; [|split]]; cbn [destination_ capacity_ w_offset_]; [|done| |].
  - rewrite drop_drop, length_app. do 3 f_equal.
  - rewrite add64_small by (unfold zlen; lia). by rewrite zlen_app.
  - unfold zlen. rewrite length_app. lia.
Qed.

Lemma writes_bind f g a b :
  writes f a -> writes g b -> writes (fun w => let* w := f w in g w) (a ++ b).
Proof.
  intros Hf Hg w orig out cap Hw. specialize (Hf w orig out cap Hw). pose proof (zlen_nonneg b).
  destruct (f w) as [w'| |]; cbn [bind]; [|rewrite zlen_app; lia|done].
  specialize (Hg w' orig (out ++ a) cap Hf). rewrite app_assoc, zlen_app.
  destruct (g w'); [done|rewrite zlen_app in Hg; lia|done].
Qed.

Lemma writes_string s : short s -> writes (fun w => WriteWideString w s) (string_image s).
Proof.
  intros Hs. unfold WriteWideString, short, UINT32_MAX in *.
  rewrite (proj2 (Z.ltb_ge _ _)), (proj2 (Z.ltb_ge _ _)); [|change (SIZE_MAX / 2) with 9223372036854775807; lia|lia].
  cbn [orb negb guard]. unfold wrap32. rewrite Z.mod_small by (pose proof (zlen_nonneg s); lia).
  apply (writes_bind (fun w => WriteU32 w (zlen s))); apply writes_raw.
Qed.

Lemma writes_nil : writes (fun w => Ok w) [].
Proof. intros w orig out cap Hw. by rewrite app_nil_r. Qed.

(** Chains of writes: one step per field. *)
Ltac chain_writes :=
  repeat (apply (writes_bind _ (fun w => _)); [exact (writes_raw _)|]).

Lemma writes_entry e : short (e_name e) -> writes (fun w => WriteEntry w e) (entry_image e).
Proof.
  intros Hs. unfold WriteEntry, entry_image. chain_writes. by apply writes_string.
Qed.

Lemma writes_entries es :
  Forall (fun e => short (e_name e)) es -> writes (fun w => WriteEntries w es) (es ≫= entry_image).
Proof.
  induction 1 as [|e es He _ IH]; cbn [WriteEntries]; [apply writes_nil|]. rewrite bind_cons.
  apply (writes_bind (fun w => WriteEntry w e)); [by apply writes_entry|done].
Qed.

Lemma writes_directories ds :
  Forall directory_short ds -> writes (fun w => WriteDirectories w ds) (ds ≫= directory_image).
Proof.
  induction 1 as [|[p d] ds (Hp & Hc & He) _ IH]; cbn [WriteDirectories]; [apply writes_nil|].
  rewrite bind_cons. unfold directory_image at 1. cbn [fst snd] in *. rewrite <-!app_assoc.
  unfold wrap32. rewrite Z.mod_small by (pose proof (zlen_nonneg (d_entries d)); unfold UINT32_MAX in *; lia).
  apply (writes_bind (fun w => WriteWideString w p)); [by apply writes_string|]. chain_writes.
  apply (writes_bind (fun w => WriteEntries w (d_entries d))); [by apply writes_entries|done].
Qed.

(** ** The reader *)

(** The unread part of the input is [rest]. *)
Definition reader_at (r : Reader) (rest : list Z) : Prop :=
  exists buf post, data_ r = Some buf /\ 0 <= r_offset_ r /\ size_ r = r_offset_ r + zlen rest /\
    size_ r <= zlen buf /\ size_ r <= SIZE_MAX /\ drop (Z.to_nat (r_offset_ r)) buf = rest ++ post.

(** [reads f a bs]: [f] returns [a] on an input that starts with [bs], and
    consumes exactly [bs]. *)
Definition reads {A} (f : Reader -> result (A * Reader)) (a : A) (bs : list Z) : Prop :=
  forall r rest, reader_at r (bs ++ rest) -> exists r', f r = Ok (a, r') /\ reader_at r' rest.

Lemma reader_at_load r bs rest :
  reader_at r (bs ++ rest) ->
  remaining r = zlen bs + zlen rest /\ load_data r (length bs) = Ok bs /\ reader_at (advance r (zlen bs)) rest.
Proof.
  intros (buf & post & Hd & Ho & Hs & Hb & Hm & Hdrop). rewrite zlen_app in Hs.
  pose proof (zlen_nonneg bs). pose proof (zlen_nonneg rest). split; [|split].
  - unfold remaining, sub64. rewrite Hs, wrap64_small by lia. lia.
  - unfold load_data. rewrite Hd, load_Ok by (unfold zlen in *; lia). unfold slice. rewrite Hdrop.
    by rewrite <-app_assoc, take_app_length.
  - exists buf, post. unfold advance. cbn [data_ size_ r_offset_]. rewrite add64_small by lia.
    split; [done|]. split; [lia|]. split; [lia|]. split; [done|]. split; [done|].
    rewrite Z2Nat.inj_add by lia. rewrite <-drop_drop, Hdrop, zlen_to_nat, <-app_assoc.
    by rewrite drop_app_length.
Qed.

Lemma reads_word n v : fits n v -> reads (ReadWord n) v (le_bytes n v).
Proof.
  intros Hv r rest Hr. apply reader_at_load in Hr as (Hrem & Hld & Hr'). unfold ReadWord.
  rewrite length_le_bytes in Hld. rewrite zlen_le_bytes in *. pose proof (zlen_nonneg rest).
  rewrite Hrem, (proj2 (Z.ltb_ge _ _)) by lia. cbn [negb guard]. rewrite Hld. cbn [bind].
  rewrite le_value_le_bytes by done. eauto.
Qed.

Lemma reads_bind {A B} (f : Reader -> result (A * Reader)) (g : A -> Reader -> result (B * Reader)) a b bs bs' :
  reads f a bs -> reads (g a) b bs' ->
  reads (fun r => let* x := f r in let (a, r) := x in g a r) b (bs ++ bs').
Proof.
  intros Hf Hg r rest Hr. rewrite <-app_assoc in Hr. destruct (Hf r _ Hr) as (r1 & -> & Hr1). cbn [bind].
  by apply Hg.
Qed.

Lemma reads_ret {A} (a : A) : reads (fun r => Ok (a, r)) a [].
Proof. intros r rest Hr. eauto. Qed.

Lemma reads_string s : short s -> Forall is_unit s -> reads ReadWString s (string_image s).
Proof.
  intros Hs Hu r rest Hr. unfold string_image in Hr. rewrite <-app_assoc in Hr.
  pose proof (zlen_nonneg s). unfold short, UINT32_MAX in Hs.
  destruct (reads_word 4 (zlen s)) with (r := r) (rest := encode_units s ++ rest) as (r1 & E1 & Hr1);
    [unfold fits; simpl; lia|done|].
  unfold ReadWString, Reader_ReadU32. rewrite E1. cbn [bind].
  apply reader_at_load in Hr1 as (Hrem & Hld & Hr2). pose proof (zlen_nonneg rest).
  rewrite zlen_encode_units in *. rewrite length_encode_units in Hld.
  rewrite Hrem, (proj2 (Z.ltb_ge _ _)) by (apply Z.div_le_lower_bound; lia). cbn [negb guard].
  unfold mul64. rewrite wrap64_small by (unfold SIZE_MAX; lia).
  replace (Z.to_nat (zlen s * 2)) with (2 * length s)%nat by (unfold zlen; lia). rewrite Hld. cbn [bind].
  rewrite zlen_to_nat. rewrite <-(app_nil_r (encode_units s)), decode_encode_units by done.
  rewrite Z.mul_comm. eauto.
Qed.

(** Chains of reads: one step per field. *)
Ltac chain_reads :=
  unfold Reader_ReadByte, Reader_ReadU32, Reader_ReadU64;
  repeat (eapply (reads_bind (ReadWord _) (fun v r => _)); [apply reads_word; solve [auto]|]).

(** ** Typed maps *)

Record entry_ok (e : SnapshotDirectoryEntry) : Prop := {
  eok_name : Forall is_unit (e_name e);
  eok_short : short (e_name e);
  eok_size : fits 8 (e_sizeBytes e);
  eok_allocated : fits 8 (e_allocatedSizeBytes e);
  eok_attributes : fits 4 (e_attributes e);
  eok_creation : fits 8 (e_creationTime e);
  eok_modified : fits 8 (e_lastModifiedTime e);
  eok_volume : -9223372036854775808 <= e_volumeRowId e < 9223372036854775808;
  eok_fileLow : fits 8 (e_fileIdLow e);
  eok_fileHigh : fits 8 (e_fileIdHigh e);
  eok_parentLow : fits 8 (e_parentIdLow e);
  eok_parentHigh : fits 8 (e_parentIdHigh e)
}.

Record directory_ok (pd : list Z * SnapshotDirectory) : Prop := {
  dok_path : Forall is_unit pd.1;
  dok_short : short pd.1;
  dok_status : 0 <= d_status pd.2 <= kIoError;
  dok_volume : -9223372036854775808 <= d_volumeRowId pd.2 < 9223372036854775808;
  dok_idLow : fits 8 (d_directoryIdLow pd.2);
  dok_idHigh : fits 8 (d_directoryIdHigh pd.2);
  dok_parentLow : fits 8 (d_parentIdLow pd.2);
  dok_parentHigh : fits 8 (d_parentIdHigh pd.2);
  dok_count : zlen (d_entries pd.2) <= UINT32_MAX;
  dok_entries : Forall entry_ok (d_entries pd.2)
}.

Lemma fits_b2z b : fits 1 (b2z b).
Proof. destruct b; unfold fits; simpl; lia. Qed.

Lemma b2z_nonzero b : negb (b2z b =? 0) = b.
Proof. by destruct b. Qed.

#[local] Hint Resolve fits_unsigned64 fits_b2z : core.

Lemma reads_entry e : entry_ok e -> reads ReadEntry e (entry_image e).
Proof.
  intros []. unfold ReadEntry, entry_image. chain_reads.
  rewrite <-(app_nil_r (string_image _)).
  eapply (reads_bind ReadWString (fun v r => _)); [by apply reads_string|].
  rewrite !b2z_nonzero, signed_unsigned64 by done. destruct e. apply reads_ret.
Qed.

Lemma reads_entries es :
  Forall entry_ok es -> reads (ReadEntries (length es)) es (es ≫= entry_image).
Proof.
  induction 1 as [|e es He _ IH]; cbn [ReadEntries length]; [apply reads_ret|]. rewrite bind_cons.
  eapply (reads_bind ReadEntry (fun v r => _)); [by apply reads_entry|].
  rewrite <-(app_nil_r (es ≫= entry_image)).
  eapply (reads_bind (ReadEntries (length es)) (fun v r => _)); [exact IH|apply reads_ret].
Qed.

Lemma reads_guard {A} (b : Reader -> bool) (f : Reader -> result (A * Reader)) a bs :
  (forall r rest, reader_at r (bs ++ rest) -> b r = true) -> reads f a bs ->
  reads (fun r => guard (b r) (f r)) a bs.
Proof. intros Hb Hf r rest Hr. rewrite (Hb r rest Hr). by apply Hf. Qed.

Lemma entries_image_lower es : 82 * zlen es <= zlen (es ≫= entry_image).
Proof.
  induction es as [|e es IH]; [done|]. rewrite bind_cons, zlen_app, zlen_entry_image, zlen_cons.
  pose proof (zlen_nonneg (e_name e)). lia.
Qed.

Lemma fits_u32 n : 0 <= n <= UINT32_MAX -> fits 4 n.
Proof. unfold fits, UINT32_MAX. simpl. lia. Qed.

Lemma reads_directory pd : directory_ok pd -> reads ReadDirectory pd (directory_image pd).
Proof.
  destruct pd as [p d]. intros [Hpu Hps Hst Hvol ? ? ? ? Hc He]. cbn [fst snd] in *.
  pose proof (zlen_nonneg (d_entries d)). pose proof (fits_u32 (zlen (d_entries d)) ltac:(lia)).
  assert (fits 4 (d_status d)) by (apply fits_u32; unfold kIoError, UINT32_MAX in *; lia).
  unfold ReadDirectory, directory_image. cbn [fst snd].
  eapply (reads_bind ReadWString (fun v r => _)); [by apply reads_string|]. chain_reads.
  rewrite (proj2 (Z.ltb_ge kIoError _)) by lia. cbn [negb guard].
  apply reads_guard.
  - intros r rest Hr. apply reader_at_load in Hr as (Hrem & _). pose proof (entries_image_lower (d_entries d)).
    pose proof (zlen_nonneg rest). unfold mul64, kMinBytesPerEntry, UINT32_MAX in *.
    rewrite wrap64_small by (unfold SIZE_MAX; lia). rewrite Hrem, (proj2 (Z.ltb_ge _ _)) by lia. done.
  - rewrite zlen_to_nat, signed_unsigned64 by done. rewrite <-(app_nil_r (_ ≫= _)).
    eapply (reads_bind (ReadEntries _) (fun v r => _)); [by apply reads_entries|].
    destruct d. apply reads_ret.
Qed.

Definition emplace_all (m ds : DirectoryMap) : DirectoryMap :=
  fold_left (fun m pd => emplace pd.1 pd.2 m) ds m.

Lemma reads_directories ds m :
  Forall directory_ok ds ->
  reads (fun r => ParseDirectories (length ds) r m) (emplace_all m ds) (ds ≫= directory_image).
Proof.
  intros Hok. revert m. induction Hok as [|pd ds Hd _ IH]; intros m r rest Hr; cbn [ParseDirectories length].
  { by exists r. }
  rewrite bind_cons, <-app_assoc in Hr. destruct (reads_directory pd Hd r _ Hr) as (r1 & -> & Hr1).
  cbn [bind]. destruct pd as [p d]. by apply IH.
Qed.

Lemma ParseSnapshot_image ds post :
  Forall directory_ok ds -> zlen ds <= UINT32_MAX -> zlen (snapshot_image ds) <= SIZE_MAX ->
  ParseSnapshot (Some (snapshot_image ds ++ post)) (zlen (snapshot_image ds)) = Ok (emplace_all [] ds).
Proof.
  intros Hok Hn Hsz. unfold ParseSnapshot. rewrite bool_decide_false by done. cbn [andb negb guard].
  assert (reader_at (mkReader (Some (snapshot_image ds ++ post)) (zlen (snapshot_image ds)) 0)
            (le_bytes 4 (zlen ds) ++ (ds ≫= directory_image) ++ [])) as Hr.
  { rewrite app_nil_r. exists (snapshot_image ds ++ post), post. cbn [data_ size_ r_offset_].
    rewrite (zlen_app (snapshot_image ds) post).
    pose proof (zlen_nonneg post). split; [done|]. split; [lia|].
    split; [by rewrite Z.add_0_l|]. split; [lia|]. by split. }
  destruct (reads_word 4 (zlen ds)) with (1 := fits_u32 (zlen ds) (conj (zlen_nonneg ds) Hn)) (2 := Hr)
    as (r1 & E1 & Hr1).
  unfold Reader_ReadU32. rewrite E1. cbn [bind]. rewrite zlen_to_nat.
  destruct (reads_directories ds [] Hok r1 [] Hr1) as (r2 & -> & Hr2). cbn [bind].
  destruct Hr2 as (buf & post' & _ & _ & Hs & _). rewrite zlen_nil, Z.add_0_r in Hs.
  unfold ExactlyConsumed. by rewrite <-Hs, Z.eqb_refl.
Qed.

(** ** Sorted maps *)

Lemma wless_irrefl a : wless a a = false.
Proof. induction a as [|x a IH]; [done|]. cbn. rewrite Z.ltb_irrefl, Z.eqb_refl. done. Qed.

Lemma wless_trans a b c : wless a b = true -> wless b c = true -> wless a c = true.
Proof.
  revert b c. induction a as [|x a IH]; intros [|y b] [|z c]; cbn; try done.
  intros [Hxy|[Hxy Hab]%andb_true_iff]%orb_true_iff [Hyz|[Hyz Hbc]%andb_true_iff]%orb_true_iff; bool_prop;
    apply orb_true_iff.
  - left. apply Z.ltb_lt. lia.
  - left. apply Z.ltb_lt. lia.
  - left. apply Z.ltb_lt. lia.
  - right. apply andb_true_iff. split; [apply Z.eqb_eq; lia|by eapply IH].
Qed.

Lemma wless_total a b : wless a b = false -> wless b a = false -> a = b.
Proof.
  revert b. induction a as [|x a IH]; intros [|y b]; cbn; try done.
  intros [Hxy H1]%orb_false_iff [Hyx H2]%orb_false_iff. bool_prop. assert (x = y) as -> by lia.
  rewrite Z.eqb_refl in *. f_equal. by apply IH.
Qed.

(** The iteration order of [std::map<std::wstring, _>]: strictly increasing keys. *)
Definition sorted (m : DirectoryMap) : Prop :=
  StronglySorted (fun a b => wless a.1 b.1 = true) m.

Lemma emplace_last m pd :
  Forall (fun q => wless q.1 pd.1 = true) m -> emplace pd.1 pd.2 m = m ++ [pd].
Proof.
  intros Hall. induction Hall as [|[q d] m Hq _ IH]; cbn [emplace app]; [by destruct pd|].
  cbn in Hq. assert (wless pd.1 q = false) as ->.
  { destruct (wless pd.1 q) eqn:E; [|done]. 
    pose proof (wless_trans _ _ _ Hq E) as Hc. by rewrite wless_irrefl in Hc. }
  by rewrite Hq, IH.
Qed.

Lemma emplace_all_sorted_app m ds : sorted (m ++ ds) -> emplace_all m ds = m ++ ds.
Proof.
  revert m. induction ds as [|pd ds IH]; intros m Hs; [by rewrite app_nil_r|].
  cbn [emplace_all fold_left]. rewrite emplace_last.
  - fold (emplace_all (m ++ [pd]) ds). rewrite IH; [by rewrite <-app_assoc|by rewrite <-app_assoc].
  - unfold sorted in Hs. clear IH. induction m as [|q m IHm]; [constructor|].
    inversion Hs as [|? ? Hs' Hq]; subst. constructor; [|by apply IHm].
    apply Forall_app in Hq as [_ Hq]. by apply Forall_cons in Hq as [? _].
Qed.

Lemma emplace_sorted m p d : sorted m -> sorted (emplace p d m).
Proof.
  unfold sorted. induction 1 as [|[q e] m Hs IH Hq]; cbn [emplace].
  - repeat constructor.
  - destruct (wless p q) eqn:E1; [|destruct (wless q p) eqn:E2].
    + constructor; [by constructor|]. constructor; [done|]. eapply Forall_impl; [exact Hq|].
      intros [r ?] Hr. cbn in *. by eapply wless_trans.
    + constructor; [done|]. clear IH Hs. induction m as [|[r f] m IHm]; cbn [emplace].
      * by repeat constructor.
      * apply Forall_cons in Hq as [Hr Hq]. destruct (wless p r); [by repeat constructor|].
        destruct (wless r p); constructor; auto.
    + by constructor.
Qed.

(** ** Safety of the parser *)

Definition reader_ok (r : Reader) : Prop :=
  exists buf, data_ r = Some buf /\ Forall is_byte buf /\ 0 <= r_offset_ r <= size_ r /\
    size_ r <= zlen buf /\ size_ r <= SIZE_MAX.

(** [yields f P]: on a well-formed reader [f] does not fault, and a value it
    returns satisfies [P] together with the number of bytes consumed. *)
Definition yields {A} (f : Reader -> result (A * Reader)) (P : A -> Z -> Prop) : Prop :=
  forall r, reader_ok r ->
    safe (f r) (fun '(a, r') => reader_ok r' /\ size_ r' = size_ r /\ P a (r_offset_ r' - r_offset_ r)).

Lemma reader_ok_load r n :
  reader_ok r -> 0 <= n <= remaining r ->
  exists bs, load_data r (Z.to_nat n) = Ok bs /\ Forall is_byte bs /\ zlen bs = n /\
    reader_ok (advance r n) /\ r_offset_ (advance r n) = r_offset_ r + n.
Proof.
  intros (buf & Hd & Hb & Ho & Hs & Hm) Hn. unfold remaining, sub64 in Hn. rewrite wrap64_small in Hn by lia.
  exists (slice buf (r_offset_ r) (Z.to_nat n)). unfold load_data. rewrite Hd, load_Ok by lia.
  split; [done|]. split; [by apply Forall_slice|].
  split; [unfold zlen in *; rewrite length_slice; unfold zlen; lia|].
  unfold reader_ok, advance. cbn [data_ size_ r_offset_]. rewrite add64_small by lia.
  split; [|done]. exists buf. repeat (split; [done || lia|]). done.
Qed.

Lemma reader_ok_remaining r : reader_ok r -> remaining r = size_ r - r_offset_ r.
Proof. intros (buf & _ & _ & Ho & _ & Hm). unfold remaining, sub64. apply wrap64_small. lia. Qed.

Lemma yields_word n : yields (ReadWord n) (fun v k => fits n v /\ k = Z.of_nat n).
Proof.
  intros r Hr. unfold ReadWord. apply safe_guard. intros Hn%negb_true_iff%Z.ltb_ge.
  destruct (reader_ok_load r (Z.of_nat n) Hr ltac:(lia)) as (bs & Hld & Hb & Hl & Hr' & Ho').
  rewrite Nat2Z.id in Hld. rewrite Hld. cbn [bind safe]. split; [done|]. split; [done|]. rewrite Ho'.
  split; [|lia]. replace n with (length bs) by (unfold zlen in Hl; lia). by apply le_value_fits.
Qed.

Lemma yields_bind {A B} (f : Reader -> result (A * Reader)) (g : A -> Reader -> result (B * Reader)) P Q :
  yields f P -> (forall a n, P a n -> yields (g a) (fun b k => Q b (n + k))) ->
  yields (fun r => let* x := f r in let (a, r) := x in g a r) Q.
Proof.
  intros Hf Hg r Hr. eapply safe_bind; [by apply Hf|]. intros [a r1] (Hr1 & Hs1 & HP).
  eapply safe_mono; [by apply (Hg a _ HP)|]. intros [b r2] (Hr2 & Hs2 & HQ). split; [done|]. split; [congruence|].
  by replace (r_offset_ r2 - r_offset_ r) with (r_offset_ r1 - r_offset_ r + (r_offset_ r2 - r_offset_ r1)) by lia.
Qed.

Lemma yields_ret {A} (a : A) (P : A -> Z -> Prop) : P a 0 -> yields (fun r => Ok (a, r)) P.
Proof. intros HP r Hr. cbn. split; [done|]. split; [done|]. by rewrite Z.sub_diag. Qed.

Lemma yields_guard {A} (b : Reader -> bool) (f : Reader -> result (A * Reader)) P :
  yields f P -> yields (fun r => guard (b r) (f r)) P.
Proof. intros Hf r Hr. apply safe_guard. intros _. by apply Hf. Qed.

Lemma yields_string :
  yields ReadWString (fun s k => Forall is_unit s /\ short s /\ k = zlen (string_image s)).
Proof.
  intros r Hr. unfold ReadWString. eapply safe_bind; [by apply (yields_word 4)|].
  intros [len r1] (Hr1 & Hs1 & Hlen & Hk). unfold fits in Hlen. simpl in Hlen.
  apply safe_guard. intros Hn%negb_true_iff%Z.ltb_ge.
  assert (2 * len <= remaining r1) as Hle.
  { pose proof (Z.mul_div_le (remaining r1) 2). lia. }
  unfold mul64. rewrite wrap64_small by (unfold SIZE_MAX; lia). rewrite (Z.mul_comm len).
  destruct (reader_ok_load r1 (2 * len) Hr1 ltac:(lia)) as (bs & -> & Hb & Hl & Hr' & Ho'). cbn [bind safe].
  split; [done|]. split; [done|]. rewrite Ho', zlen_string_image.
  assert (length bs = (2 * Z.to_nat len)%nat) by (unfold zlen in Hl; lia).
  split; [by apply decode_units_are_units|].
  unfold short, zlen. rewrite length_decode_units. unfold UINT32_MAX. lia.
Qed.

Ltac chain_yields :=
  unfold Reader_ReadByte, Reader_ReadU32, Reader_ReadU64;
  repeat (eapply (yields_bind (ReadWord _) (fun v r => _)); [apply yields_word|intros ? ? [? ->]]).

Lemma yields_entry : yields ReadEntry (fun e k => entry_ok e /\ k = zlen (entry_image e)).
Proof.
  unfold ReadEntry. chain_yields.
  eapply (yields_bind ReadWString (fun v r => _)); [apply yields_string|]. intros name ? (Hu & Hs & ->).
  apply yields_ret. rewrite zlen_entry_image, zlen_string_image. cbn [e_name]. split; [|lia].
  constructor; cbn; auto using signed64_range.
Qed.

Lemma yields_entries n :
  yields (ReadEntries n) (fun es k => length es = n /\ Forall entry_ok es /\ k = zlen (es ≫= entry_image)).
Proof.
  induction n as [|n IH]; cbn [ReadEntries]; [by apply yields_ret|].
  eapply (yields_bind ReadEntry (fun v r => _)); [apply yields_entry|]. intros e ? (He & ->).
  eapply (yields_bind (ReadEntries n) (fun v r => _)); [apply IH|]. intros es ? (Hl & Hes & ->).
  apply yields_ret. rewrite bind_cons, zlen_app. split; [simpl; lia|]. split; [by constructor|lia].
Qed.

Lemma yields_directory :
  yields ReadDirectory (fun pd k => directory_ok pd /\ k = zlen (directory_image pd)).
Proof.
  unfold ReadDirectory.
  eapply (yields_bind ReadWString (fun v r => _)); [apply yields_string|]. intros path ? (Hu & Hs & ->).
  chain_yields. destruct (kIoError <? a) eqn:Est; cbn [negb guard]; [by intros r _|]. bool_prop.
  apply yields_guard.
  eapply (yields_bind (ReadEntries _) (fun v r => _)); [apply yields_entries|]. intros es ? (Hl & Hes & ->).
  apply yields_ret. rewrite zlen_directory_image, zlen_string_image. cbn [d_entries]. split; [|lia].
  unfold fits in *. constructor; cbn [fst snd d_status d_entries d_volumeRowId d_directoryIdLow d_directoryIdHigh
    d_parentIdLow d_parentIdHigh]; auto using signed64_range; try lia.
  simpl in *. unfold zlen, UINT32_MAX. lia.
Qed.

Lemma emplace_ok m p d :
  Forall directory_ok m -> directory_ok (p, d) -> Forall directory_ok (emplace p d m).
Proof.
  intros Hm Hd. induction Hm as [|[q e] m Hq Hm IH]; cbn [emplace]; [by constructor|].
  destruct (wless p q); [by do 2 (constructor; [done|])|]. destruct (wless q p); by constructor.
Qed.

Lemma emplace_image_size m p d :
  zlen (emplace p d m ≫= directory_image) <= zlen (m ≫= directory_image) + zlen (directory_image (p, d)) /\
  zlen (emplace p d m) <= zlen m + 1.
Proof.
  pose proof (zlen_nonneg (directory_image (p, d))).
  induction m as [|[q e] m IH]; cbn [emplace].
  { rewrite bind_cons, zlen_app, zlen_cons. by cbn. }
  destruct (wless p q); [|destruct (wless q p)]; rewrite ?bind_cons, ?zlen_app, ?zlen_cons; lia.
Qed.

(** What the parser knows of the map it is building. *)
Definition map_ok (m : DirectoryMap) (count size : Z) : Prop :=
  Forall directory_ok m /\ sorted m /\ zlen m <= count /\ zlen (m ≫= directory_image) <= size.

Lemma ParseDirectories_sound n m count size :
  map_ok m count size ->
  yields (fun r => ParseDirectories n r m) (fun m' k => map_ok m' (count + Z.of_nat n) (size + k)).
Proof.
  revert m count size. induction n as [|n IH]; intros m count size (Hok & Hs & Hc & Hsz) r Hr; cbn [ParseDirectories].
  { cbn. split; [done|]. split; [done|]. rewrite Z.sub_diag, !Z.add_0_r. by split. }
  eapply safe_bind; [by apply yields_directory|]. intros [[p d] r1] (Hr1 & Hs1 & Hd & Hk).
  destruct (emplace_image_size m p d) as [He1 He2].
  eapply safe_mono.
  { apply (IH (emplace p d m) (count + 1) (size + zlen (directory_image (p, d)))); [|done].
    split; [by apply emplace_ok|]. split; [by apply emplace_sorted|]. lia. }
  intros [m' r'] (Hr' & Hs' & Hmap). split; [done|]. split; [congruence|].
  replace (count + Z.of_nat (S n)) with (count + 1 + Z.of_nat n) by lia.
  by replace (size + (r_offset_ r' - r_offset_ r))
    with (size + zlen (directory_image (p, d)) + (r_offset_ r' - r_offset_ r1)) by lia.
Qed.

(** ** Properties of the format *)

Lemma SerializeSnapshotTo_image ds orig cap :
  zlen ds <= UINT32_MAX -> Forall directory_short ds -> 0 <= cap <= zlen orig -> cap <= SIZE_MAX ->
  SerializeSnapshotTo ds (Some orig) cap =
  if zlen (snapshot_image ds) <=? cap
  then Ok (Some (snapshot_image ds ++ drop (length (snapshot_image ds)) orig)) else Reject.
Proof.
  intros Hn Hd Hc Hm. unfold SerializeSnapshotTo. rewrite bool_decide_false by done.
  rewrite (proj2 (Z.ltb_ge _ _)) by lia. cbn [negb guard]. unfold wrap32.
  rewrite Z.mod_small by (pose proof (zlen_nonneg ds); unfold UINT32_MAX in *; lia).
  assert (writer_at (mkWriter (Some orig) cap 0) orig [] cap) as Hw.
  { split; [done|]. split; [done|]. split; [done|]. rewrite zlen_nil. lia. }
  pose proof (writes_bind _ _ _ _ (writes_raw (le_bytes 4 (zlen ds))) (writes_directories ds Hd) _ _ _ _ Hw) as Hb.
  fold (snapshot_image ds) in Hb. cbn [app] in Hb. change (zlen (@nil Z)) with 0 in Hb. unfold WriteU32.
  destruct (WriteRaw _ _) as [w1| |]; cbn [bind] in *; [|by rewrite (proj2 (Z.leb_gt _ _))|done].
  destruct (WriteDirectories w1 ds) as [w2| |]; cbn [bind] in *; [|by rewrite (proj2 (Z.leb_gt _ _))|done].
  destruct Hb as (-> & _ & _ & Hle & _). by rewrite (proj2 (Z.leb_le _ _)) by lia.
Qed.

Lemma SerializeSnapshot_image ds :
  representable ds -> SerializeSnapshot ds = Ok (snapshot_image ds).
Proof.
  intros Hr. unfold SerializeSnapshot. destruct (SerializedSnapshotSize_spec ds) as [[_ ->]|[Hn _]]; [|done].
  destruct Hr as (Hn & Hd & Hsz).
  assert (4 <= zlen (snapshot_image ds)) as Hpos.
  { unfold snapshot_image. autorewrite with ff_size. pose proof (zlen_nonneg (ds ≫= directory_image)). lia. }
  rewrite (proj2 (Z.eqb_neq _ _)) by lia. rewrite zlen_to_nat.
  rewrite SerializeSnapshotTo_image; [|done..| |done]; [|unfold zlen; rewrite length_replicate; lia].
  rewrite Z.leb_refl. cbn [default]. rewrite drop_ge by (by rewrite length_replicate). by rewrite app_nil_r.
Qed.

Lemma directory_ok_short ds : Forall directory_ok ds -> Forall directory_short ds.
Proof.
  intros Hok. eapply Forall_impl; [exact Hok|]. intros pd []. split; [done|]. split; [done|].
  eapply Forall_impl; [done|]. by intros e [].
Qed.

Lemma ParseSnapshot_sound buf size :
  Forall is_byte buf -> 0 <= size <= zlen buf -> size <= SIZE_MAX ->
  safe (ParseSnapshot (Some buf) size)
    (fun m => Forall directory_ok m /\ sorted m /\ zlen m <= UINT32_MAX /\ zlen (snapshot_image m) <= size).
Proof.
  intros Hb Hs Hm. unfold ParseSnapshot. apply safe_guard. intros _.
  assert (reader_ok (mkReader (Some buf) size 0)) as Hr.
  { exists buf. cbn [data_ size_ r_offset_]. repeat (split; [done || lia|]). done. }
  eapply safe_bind; [by apply (yields_word 4)|]. intros [count r1] (Hr1 & Hs1 & Hcnt & Hk).
  cbn [r_offset_ size_] in *. unfold fits in Hcnt. simpl in Hcnt.
  eapply safe_bind.
  { apply (ParseDirectories_sound (Z.to_nat count) [] 0 0); [|done]. by repeat constructor. }
  intros [m r2] (Hr2 & Hs2 & (Hok & Hsort & Hc & Hsz)). apply safe_guard. intros He%Z.eqb_eq. cbn [safe].
  split; [done|]. split; [done|]. unfold UINT32_MAX. split; [lia|].
  unfold snapshot_image. autorewrite with ff_size. lia.
Qed.

(** C26. Publishing and reading a snapshot round-trips: for a map of typed
    directories that the format can hold, the serializer allocates exactly the
    size of the first pass and returns the image, and parsing the image (with
    any bytes behind it) returns the map whose bindings are inserted in order,
    which is the published map itself when its keys are in [std::map] order. *)
Theorem snapshot_round_trip ds post :
  Forall directory_ok ds -> zlen ds <= UINT32_MAX -> zlen (snapshot_image ds) <= SIZE_MAX ->
  SerializeSnapshot ds = Ok (snapshot_image ds) /\
  SerializedSnapshotSize ds = zlen (snapshot_image ds) /\
  ParseSnapshot (Some (snapshot_image ds ++ post)) (zlen (snapshot_image ds)) = Ok (emplace_all [] ds) /\
  (sorted ds -> emplace_all [] ds = ds).
Proof.
  intros Hok Hn Hsz. assert (representable ds) as Hr.
  { split; [done|]. split; [by apply directory_ok_short|done]. }
  split; [by apply SerializeSnapshot_image|]. split.
  { by destruct (SerializedSnapshotSize_spec ds) as [[_ ?]|[? _]]. }
  split; [by apply ParseSnapshot_image|]. intros Hs. by apply (emplace_all_sorted_app []).
Qed.

(** C27. The parser never reads outside the bytes it is given, whatever they are.
    A map it accepts is typed and in key order, and serializing that map and
    parsing again gives the same map. *)
Theorem ParseSnapshot_safe_and_stable buf size :
  Forall is_byte buf -> 0 <= size <= zlen buf -> size <= SIZE_MAX ->
  ParseSnapshot (Some buf) size <> Fault /\
  forall m, ParseSnapshot (Some buf) size = Ok m ->
    Forall directory_ok m /\ sorted m /\
    SerializeSnapshot m = Ok (snapshot_image m) /\ zlen (snapshot_image m) <= size /\
    ParseSnapshot (Some (snapshot_image m)) (zlen (snapshot_image m)) = Ok m.
Proof.
  intros Hb Hs Hm. pose proof (ParseSnapshot_sound buf size Hb Hs Hm) as Hsafe. split.
  { by eapply safe_no_fault. }
  intros m Hp. rewrite Hp in Hsafe. cbn [safe] in Hsafe. destruct Hsafe as (Hok & Hsort & Hn & Hsz).
  split; [done|]. split; [done|].
  split; [apply SerializeSnapshot_image; split; [done|split; [by apply directory_ok_short|lia]]|].
  split; [done|]. rewrite <-(app_nil_r (snapshot_image m)) at 1.
  rewrite ParseSnapshot_image by (done || lia). by rewrite (emplace_all_sorted_app []).
Qed.

(** Two-pass publication is exact: writing a representable map into
    caller-owned storage succeeds exactly when the capacity is at least the size
    the first pass reports; it then fills the first bytes with the image and
    leaves the rest of the storage untouched, and in no case writes outside it. *)
Theorem SerializeSnapshotTo_exact ds orig capacity :
  representable ds -> 0 <= capacity <= zlen orig -> capacity <= SIZE_MAX ->
  SerializeSnapshotTo ds (Some orig) capacity =
  if SerializedSnapshotSize ds <=? capacity
  then Ok (Some (snapshot_image ds ++ drop (length (snapshot_image ds)) orig)) else Reject.
Proof.
  intros Hr Hc Hm. pose proof Hr as (Hn & Hd & _). rewrite SerializeSnapshotTo_image by done.
  by destruct (SerializedSnapshotSize_spec ds) as [[_ ->]|[? _]].
Qed.

(** ** Witnesses *)

Definition witness_entry : SnapshotDirectoryEntry :=
  {| e_name := [97; 98]; e_isDirectory := true; e_sizeBytes := 5; e_allocatedSizeBytes := 4096;
     e_allocatedSizeKnown := true; e_attributes := 16; e_creationTime := 1; e_lastModifiedTime := 2;
     e_volumeRowId := -1; e_fileIdLow := 3; e_fileIdHigh := 4; e_parentIdLow := 5; e_parentIdHigh := 6 |}.

Definition witness_directory : SnapshotDirectory :=
  {| d_status := 0; d_entries := [witness_entry]; d_volumeRowId := -2; d_directoryIdLow := 7;
     d_directoryIdHigh := 8; d_parentIdLow := 9; d_parentIdHigh := 10 |}.

Definition witness_map : DirectoryMap := [([67], witness_directory); ([67; 58], witness_directory)].

Lemma witness_map_ok : Forall directory_ok witness_map.
Proof.
  assert (entry_ok witness_entry).
  { constructor; try solve_units; try (unfold fits, short; vm_compute; intuition discriminate). }
  unfold witness_map. repeat (apply Forall_cons; split);
    [constructor; try solve_units; try (by apply Forall_singleton);
     unfold fits, short; vm_compute; intuition discriminate..|apply Forall_nil; done].
Qed.

Lemma snapshot_round_trip_witness :
  ParseSnapshot (Some (snapshot_image witness_map ++ [])) (zlen (snapshot_image witness_map))
  = Ok (emplace_all [] witness_map).
Proof.
  apply (snapshot_round_trip witness_map []); [exact witness_map_ok|by vm_compute..].
Defined.

Lemma ParseSnapshot_safe_and_stable_witness :
  ParseSnapshot (Some (snapshot_image witness_map)) 4 <> Fault.
Proof.
  apply (ParseSnapshot_safe_and_stable (snapshot_image witness_map) 4);
    [solve_bytes|vm_compute; intuition discriminate..].
Defined.

Lemma SerializeSnapshotTo_exact_witness :
  SerializeSnapshotTo witness_map (Some (replicate 1000 0)) 1000 <> Reject.
Proof.
  rewrite (SerializeSnapshotTo_exact witness_map (replicate 1000 0) 1000).
  - by vm_compute.
  - split; [by vm_compute|]. split; [apply directory_ok_short, witness_map_ok|by vm_compute].
  - vm_compute. intuition discriminate.
  - by vm_compute.
Defined.
