(* ===== verification/SnapshotPool.v ===== *)
(** * Pooled snapshot directories

    The engine-side model of [SnapshotFormat.h]/[SnapshotFormat.cpp] that keeps
    all names of a directory in one buffer: [PooledSnapshotDirectory], its
    builder, and its copy operations.

    Entries hold views into a buffer that another object may own, so the model
    has a heap: a buffer is an address with its code units, a view is an address
    with an offset and a length, and reading a view whose buffer is gone or too
    short is a fault ([None]). *)

From stdpp Require Import gmap.
From S2P Require Import Prelude Snapshot.

Abbreviation heap := (gmap Z (list Z)).

(** [std::wstring_view]: [v_buffer = None] is the null data pointer. *)
Record view := mkView { v_buffer : option Z; v_offset : Z; v_length : Z }.

Definition null_view : view := mkView None 0 0.

Definition read_view (h : heap) (v : view) : option (list Z) :=
  if v_length v =? 0 then Some []
  else
    b ← v_buffer v;
    chars ← h !! b;
    if (0 <=? v_offset v) && (0 <? v_length v) && (v_offset v + v_length v <=? zlen chars)
    then Some (take (Z.to_nat (v_length v)) (drop (Z.to_nat (v_offset v)) chars)) else None.

(** The scalar fields common to the owning, the pooled and the pending entry. *)
Record EntryMeta := mkMeta {
  m_isDirectory : bool;
  m_sizeBytes : Z;
  m_allocatedSizeBytes : Z;
  m_allocatedSizeKnown : bool;
  m_attributes : Z;
  m_creationTime : Z;
  m_lastModifiedTime : Z;
  m_volumeRowId : Z;
  m_fileIdLow : Z;
  m_fileIdHigh : Z;
  m_parentIdLow : Z;
  m_parentIdHigh : Z
}.

Definition owning_entry (name : list Z) (m : EntryMeta) : SnapshotDirectoryEntry :=
  {| e_name := name; e_isDirectory := m_isDirectory m; e_sizeBytes := m_sizeBytes m;
     e_allocatedSizeBytes := m_allocatedSizeBytes m; e_allocatedSizeKnown := m_allocatedSizeKnown m;
     e_attributes := m_attributes m; e_creationTime := m_creationTime m;
     e_lastModifiedTime := m_lastModifiedTime m; e_volumeRowId := m_volumeRowId m;
     e_fileIdLow := m_fileIdLow m; e_fileIdHigh := m_fileIdHigh m; e_parentIdLow := m_parentIdLow m;
     e_parentIdHigh := m_parentIdHigh m |}.

Record PooledSnapshotEntry := mkPooledEntry { pe_name : view; pe_meta : EntryMeta }.

Record PooledSnapshotDirectory := mkPooledDirectory {
  pd_status : Z;
  pd_nameChars : Z;     (* the address of the [nameChars] buffer *)
  pd_entries : list PooledSnapshotEntry;
  pd_volumeRowId : Z;
  pd_directoryIdLow : Z;
  pd_directoryIdHigh : Z;
  pd_parentIdLow : Z;
  pd_parentIdHigh : Z
}.

(** What the serializer sees of a pooled directory. *)
Definition resolve (h : heap) (d : PooledSnapshotDirectory) : option SnapshotDirectory :=
  entries ← mapM (fun e => name ← read_view h (pe_name e); Some (owning_entry name (pe_meta e))) (pd_entries d);
  Some {| d_status := pd_status d; d_entries := entries; d_volumeRowId := pd_volumeRowId d;
          d_directoryIdLow := pd_directoryIdLow d; d_directoryIdHigh := pd_directoryIdHigh d;
          d_parentIdLow := pd_parentIdLow d; d_parentIdHigh := pd_parentIdHigh d |}.

(** ** The builder *)

Record PendingEntry := mkPending { nameOffsetChars : Z; nameLengthChars : Z; pending_meta : EntryMeta }.

Record PooledSnapshotDirectoryBuilder := mkBuilder {
  status_ : Z;
  nameChars_ : list Z;
  pending_ : list PendingEntry;
  volumeRowId_ : Z;
  directoryIdLow_ : Z;
  directoryIdHigh_ : Z;
  parentIdLow_ : Z;
  parentIdHigh_ : Z
}.

Definition new_builder : PooledSnapshotDirectoryBuilder := mkBuilder kNotFound [] [] 0 0 0 0 0.

Definition SetStatus (b : PooledSnapshotDirectoryBuilder) (status : Z) : PooledSnapshotDirectoryBuilder :=
  mkBuilder status (nameChars_ b) (pending_ b) (volumeRowId_ b) (directoryIdLow_ b) (directoryIdHigh_ b)
    (parentIdLow_ b) (parentIdHigh_ b).

Definition SetIdentity (b : PooledSnapshotDirectoryBuilder)
  (volumeRowId directoryIdLow directoryIdHigh parentIdLow parentIdHigh : Z) : PooledSnapshotDirectoryBuilder :=
  mkBuilder (status_ b) (nameChars_ b) (pending_ b) volumeRowId directoryIdLow directoryIdHigh
    parentIdLow parentIdHigh.

(** Offsets and lengths are cast to [uint32_t]. *)
Definition AddEntryText (b : PooledSnapshotDirectoryBuilder) (name : list Z) (m : EntryMeta)
  : PooledSnapshotDirectoryBuilder :=
  let offsetChars := zlen (nameChars_ b) in
  mkBuilder (status_ b) (nameChars_ b ++ name)
    (pending_ b ++ [mkPending (wrap32 offsetChars) (wrap32 (zlen name)) m])
    (volumeRowId_ b) (directoryIdLow_ b) (directoryIdHigh_ b) (parentIdLow_ b) (parentIdHigh_ b).

Definition AddEntry := AddEntryText.

(** [Build]: the directory takes over the builder's buffer, at an address of its own. *)
Definition Build (h : heap) (b : PooledSnapshotDirectoryBuilder) : heap * PooledSnapshotDirectory :=
  let addr := fresh (dom h) in
  (<[addr := nameChars_ b]> h,
   {| pd_status := status_ b; pd_nameChars := addr;
      pd_entries := (fun p => mkPooledEntry (mkView (Some addr) (nameOffsetChars p) (nameLengthChars p))
                                (pending_meta p)) <$> pending_ b;
      pd_volumeRowId := volumeRowId_ b; pd_directoryIdLow := directoryIdLow_ b;
      pd_directoryIdHigh := directoryIdHigh_ b; pd_parentIdLow := parentIdLow_ b;
      pd_parentIdHigh := parentIdHigh_ b |}).

(** ** Copying *)

Definition chars_of (h : heap) (d : PooledSnapshotDirectory) : list Z := default [] (h !! pd_nameChars d).

(** The loop body of [RemapEntryNames]: pointer difference against the source
    buffer, then a view at the same offset of this directory's buffer. *)
Definition remap_name (thisChars otherChars : list Z) (thisBuffer : Z) (oldName : view) : view :=
  let offsetChars := if bool_decide (otherChars = []) || bool_decide (v_buffer oldName = None)
                     then 0 else v_offset oldName in
  if bool_decide (thisChars = []) then null_view
  else mkView (Some thisBuffer) offsetChars (v_length oldName).

Definition RemapEntryNames (h : heap) (this other : PooledSnapshotDirectory) : PooledSnapshotDirectory :=
  if (length (pd_entries other) <? length (pd_entries this))%nat then this
  else
    {| pd_status := pd_status this; pd_nameChars := pd_nameChars this;
       pd_entries := zip_with (fun e o => mkPooledEntry
                        (remap_name (chars_of h this) (chars_of h other) (pd_nameChars this) (pe_name o))
                        (pe_meta e)) (pd_entries this) (pd_entries other);
       pd_volumeRowId := pd_volumeRowId this; pd_directoryIdLow := pd_directoryIdLow this;
       pd_directoryIdHigh := pd_directoryIdHigh this; pd_parentIdLow := pd_parentIdLow this;
       pd_parentIdHigh := pd_parentIdHigh this |}.

(** The copy constructor: member-wise copy with a new buffer, then the remap. *)
Definition copy_directory (h : heap) (other : PooledSnapshotDirectory) : heap * PooledSnapshotDirectory :=
  let addr := fresh (dom h) in
  let h := <[addr := chars_of h other]> h in
  let this := {| pd_status := pd_status other; pd_nameChars := addr; pd_entries := pd_entries other;
                 pd_volumeRowId := pd_volumeRowId other; pd_directoryIdLow := pd_directoryIdLow other;
                 pd_directoryIdHigh := pd_directoryIdHigh other; pd_parentIdLow := pd_parentIdLow other;
                 pd_parentIdHigh := pd_parentIdHigh other |} in
  (h, RemapEntryNames h this other).

(** The destructor frees the buffer. *)
Definition destroy_directory (h : heap) (d : PooledSnapshotDirectory) : heap := delete (pd_nameChars d) h.

(** Copy assignment: [this == &other] when both own the same buffer; otherwise
    copy, free the old buffer, take over the copy's. *)
Definition assign_directory (h : heap) (this other : PooledSnapshotDirectory) : heap * PooledSnapshotDirectory :=
  if pd_nameChars this =? pd_nameChars other then (h, this)
  else
    let (h, copy) := copy_directory h other in
    (destroy_directory h this, copy).

(** ** Well-formed directories: every view lies in the directory's own buffer *)

Definition view_ok (addr : Z) (chars : list Z) (v : view) : Prop :=
  v_length v = 0 \/
  (v_buffer v = Some addr /\ 0 <= v_offset v /\ 0 < v_length v /\ v_offset v + v_length v <= zlen chars).

Definition directory_wf (h : heap) (d : PooledSnapshotDirectory) : Prop :=
  exists chars, h !! pd_nameChars d = Some chars /\
    Forall (fun e => view_ok (pd_nameChars d) chars (pe_name e)) (pd_entries d).

Definition view_text (chars : list Z) (v : view) : list Z :=
  take (Z.to_nat (v_length v)) (drop (Z.to_nat (v_offset v)) chars).

Lemma read_view_ok h addr chars v :
  h !! addr = Some chars -> view_ok addr chars v -> read_view h v = Some (view_text chars v).
Proof.
  intros Hh [Hz|(Hb & Ho & Hl & Hle)]; unfold read_view, view_text.
  - by rewrite Hz.
  - rewrite (proj2 (Z.eqb_neq _ _)), Hb by lia. cbn [mbind option_bind]. rewrite Hh. cbn [mbind option_bind].
    by rewrite (proj2 (Z.leb_le _ _)), (proj2 (Z.ltb_lt _ _)), (proj2 (Z.leb_le _ _)) by lia.
Qed.

(** The owning directory that a well-formed pooled directory stands for. *)
Definition owned (chars : list Z) (d : PooledSnapshotDirectory) : SnapshotDirectory :=
  {| d_status := pd_status d;
     d_entries := (fun e => owning_entry (view_text chars (pe_name e)) (pe_meta e)) <$> pd_entries d;
     d_volumeRowId := pd_volumeRowId d;
     d_directoryIdLow := pd_directoryIdLow d; d_directoryIdHigh := pd_directoryIdHigh d;
     d_parentIdLow := pd_parentIdLow d; d_parentIdHigh := pd_parentIdHigh d |}.

Lemma resolve_owned h d chars :
  h !! pd_nameChars d = Some chars ->
  Forall (fun e => view_ok (pd_nameChars d) chars (pe_name e)) (pd_entries d) ->
  resolve h d = Some (owned chars d).
Proof.
  intros Hh Hall. unfold resolve, owned. 
  assert (mapM (fun e => name ← read_view h (pe_name e); Some (owning_entry name (pe_meta e))) (pd_entries d)
    = Some ((fun e => owning_entry (view_text chars (pe_name e)) (pe_meta e)) <$> pd_entries d)) as ->; [|done].
  apply mapM_Some_2. rewrite Forall2_fmap_r. apply Forall_Forall2_diag. eapply Forall_impl; [exact Hall|].
  intros e He. cbn. by rewrite (read_view_ok h (pd_nameChars d) chars).
Qed.

(** ** The copy *)

Lemma remap_name_ok addr addr' chars v :
  view_ok addr chars v ->
  view_ok addr' chars (remap_name chars chars addr' v) /\
  view_text chars (remap_name chars chars addr' v) = view_text chars v.
Proof.
  intros Hv. unfold remap_name. destruct (decide (chars = [])) as [->|Hne].
  - rewrite !bool_decide_true by done. split; [by left|]. unfold view_text. by rewrite !drop_nil, !take_nil.
  - rewrite !(bool_decide_false (chars = [])) by done. cbn [orb].
    destruct Hv as [Hz|(Hb & Ho & Hl & Hle)].
    + split; [by left|]. unfold view_text. cbn. by rewrite Hz.
    + rewrite bool_decide_false by (by rewrite Hb). split; [by right|]. done.
Qed.

Lemma chars_of_eq h d chars : h !! pd_nameChars d = Some chars -> chars_of h d = chars.
Proof. intros Hh. unfold chars_of. by rewrite Hh. Qed.

Lemma copy_directory_wf h d chars :
  h !! pd_nameChars d = Some chars ->
  Forall (fun e => view_ok (pd_nameChars d) chars (pe_name e)) (pd_entries d) ->
  let (h', c) := copy_directory h d in
  h' = <[pd_nameChars c := chars]> h /\ pd_nameChars c ∉ dom h /\
  Forall (fun e => view_ok (pd_nameChars c) chars (pe_name e)) (pd_entries c) /\
  owned chars c = owned chars d.
Proof.
  intros Hh Hall. unfold copy_directory. set (addr := fresh (dom h)).
  assert (addr ∉ dom h) as Hfr by apply is_fresh.
  assert (pd_nameChars d <> addr) as Hne.
  { intros He. apply Hfr. rewrite <-He. by apply elem_of_dom_2 in Hh. }
  unfold RemapEntryNames. cbn [pd_entries]. rewrite (proj2 (Nat.ltb_ge _ _)) by lia.
  rewrite (chars_of_eq h d chars Hh).
  rewrite (chars_of_eq (<[addr:=chars]> h) (mkPooledDirectory _ _ _ _ _ _ _ _) chars) by (apply lookup_insert_eq).
  rewrite (chars_of_eq (<[addr:=chars]> h) d chars) by (by rewrite lookup_insert_ne).
  cbn [pd_nameChars pd_entries]. split; [done|]. split; [done|]. rewrite zip_with_diag. split.
  - rewrite Forall_fmap. eapply Forall_impl; [exact Hall|]. intros e He. cbn [compose pe_name].
    by apply (remap_name_ok (pd_nameChars d)).
  - unfold owned. cbn [pd_status pd_entries pd_volumeRowId pd_directoryIdLow pd_directoryIdHigh pd_parentIdLow pd_parentIdHigh].
    f_equal. rewrite <-list_fmap_compose. apply list_fmap_ext. intros i e He. cbn.
    by rewrite (proj2 (remap_name_ok (pd_nameChars d) addr chars (pe_name e) (Forall_lookup_1 _ _ _ _ Hall He))).
Qed.

(** Copying a pooled directory gives a directory whose names are read from
    its own new buffer: the copy shows the serializer the same directory as the
    source, also after the source has been destroyed, and the source is
    unaffected by the copy. *)
Theorem copy_directory_independent h d :
  directory_wf h d ->
  let (h', c) := copy_directory h d in
  directory_wf h' c /\ resolve h d <> None /\ pd_nameChars c <> pd_nameChars d /\
  resolve h' c = resolve h d /\ resolve h' d = resolve h d /\
  resolve (destroy_directory h' d) c = resolve h d /\
  resolve (destroy_directory h' c) d = resolve h d.
Proof.
  intros (chars & Hh & Hall). pose proof (copy_directory_wf h d chars Hh Hall) as Hc.
  destruct (copy_directory h d) as [h' c]. destruct Hc as (-> & Hfr & Hall' & Ho).
  assert (pd_nameChars c <> pd_nameChars d) as Hne.
  { intros He. apply Hfr. rewrite He. by apply elem_of_dom_2 in Hh. }
  unfold destroy_directory. rewrite (resolve_owned h d chars Hh Hall).
  split; [exists chars; by rewrite lookup_insert_eq|]. split; [done|]. split; [done|].
  rewrite <-Ho at 1. split; [apply resolve_owned; [by rewrite lookup_insert_eq|done]|].
  split; [apply resolve_owned; [by rewrite lookup_insert_ne|done]|].
  split.
  - rewrite <-Ho. apply resolve_owned; [by rewrite lookup_delete_ne, lookup_insert_eq|done].
  - apply resolve_owned; [by rewrite lookup_delete_ne, lookup_insert_ne|done].
Qed.

(** Copy assignment between distinct directories leaves the target showing
    what the source shows, with no buffer leaked (the old buffer of the target is
    freed, one new buffer is added) and the source unaffected. *)
Theorem assign_directory_correct h this other :
  directory_wf h other -> directory_wf h this -> pd_nameChars this <> pd_nameChars other ->
  let (h', this') := assign_directory h this other in
  directory_wf h' this' /\ resolve h' this' = resolve h other /\ resolve h' other = resolve h other /\
  dom h' = (dom h ∖ {[pd_nameChars this]}) ∪ {[pd_nameChars this']}.
Proof.
  intros (chars & Hh & Hall) (tchars & Ht & _) Hne. unfold assign_directory.
  rewrite (proj2 (Z.eqb_neq _ _)) by done.
  pose proof (copy_directory_wf h other chars Hh Hall) as Hc.
  destruct (copy_directory h other) as [h' c]. destruct Hc as (-> & Hfr & Hall' & Ho).
  assert (pd_nameChars c <> pd_nameChars other) by (intros He; apply Hfr; rewrite He; by apply elem_of_dom_2 in Hh).
  assert (pd_nameChars c <> pd_nameChars this) by (intros He; apply Hfr; rewrite He; by apply elem_of_dom_2 in Ht).
  unfold destroy_directory. rewrite (resolve_owned h other chars Hh Hall). split; [|split; [|split]].
  - exists chars. rewrite lookup_delete_ne, lookup_insert_eq by done. done.
  - rewrite <-Ho. apply resolve_owned; [by rewrite lookup_delete_ne, lookup_insert_eq|done].
  - apply resolve_owned; [by rewrite lookup_delete_ne, lookup_insert_ne|done].
  - rewrite dom_delete_L, dom_insert_L. set_solver.
Qed.

(** ** The builder *)

Definition add_all (b : PooledSnapshotDirectoryBuilder) (es : list (list Z * EntryMeta))
  : PooledSnapshotDirectoryBuilder := fold_left (fun b e => AddEntry b e.1 e.2) es b.

Definition text_of (es : list (list Z * EntryMeta)) : list Z := es ≫= fst.

(** The builder after adding [es] to an empty one: the pool is the concatenation
    of the names and each pending entry locates its own name in it. *)
Definition located (txt : list Z) (p : PendingEntry) (e : list Z * EntryMeta) : Prop :=
  pending_meta p = e.2 /\ nameLengthChars p = zlen e.1 /\ 0 <= nameOffsetChars p /\
  nameOffsetChars p + zlen e.1 <= zlen txt /\
  take (length e.1) (drop (Z.to_nat (nameOffsetChars p)) txt) = e.1.

Definition built (b : PooledSnapshotDirectoryBuilder) (es : list (list Z * EntryMeta)) : Prop :=
  nameChars_ b = text_of es /\ Forall2 (located (text_of es)) (pending_ b) es.

(** The view that [Build] makes of a pending entry. *)
Definition pending_view (addr : Z) (p : PendingEntry) : view :=
  mkView (Some addr) (nameOffsetChars p) (nameLengthChars p).

Lemma located_texts txt addr ps es :
  Forall2 (located txt) ps es ->
  (fun p => owning_entry (view_text txt (pending_view addr p)) (pending_meta p)) <$> ps
  = (fun e => owning_entry e.1 e.2) <$> es.
Proof.
  induction 1 as [|p e ps es (Hm & Hn & _ & _ & Htk) _ IH]; [done|]. cbn [fmap list_fmap].
  f_equal; [|exact IH]. unfold view_text. cbn [pending_view v_length v_offset]. by rewrite Hn, zlen_to_nat, Htk, Hm.
Qed.

Lemma located_views txt addr ps es :
  Forall2 (located txt) ps es -> Forall (fun p => view_ok addr txt (pending_view addr p)) ps.
Proof.
  induction 1 as [|p e ps es (_ & Hn & Ho & Hle & _) _ IH]; constructor; [|done].
  unfold view_ok. cbn [pending_view v_length v_offset v_buffer]. rewrite Hn. pose proof (zlen_nonneg e.1).
  destruct (decide (zlen e.1 = 0)); [by left|right]. repeat (split; [done || lia|]). lia.
Qed.

Lemma text_of_snoc es e : text_of (es ++ [e]) = text_of es ++ e.1.
Proof. unfold text_of. by rewrite bind_app, bind_cons; cbn; rewrite app_nil_r. Qed.

Lemma AddEntry_built b es name m :
  built b es -> zlen (text_of es) + zlen name <= UINT32_MAX -> built (AddEntry b name m) (es ++ [(name, m)]).
Proof.
  intros [Ht Hp] Hlen. unfold AddEntry, AddEntryText, built. cbn [nameChars_ pending_].
  pose proof (zlen_nonneg (text_of es)). pose proof (zlen_nonneg name). unfold UINT32_MAX in *.
  rewrite text_of_snoc, Ht. cbn [fst]. split; [done|]. unfold wrap32. rewrite !Z.mod_small by lia.
  apply Forall2_app.
  - eapply Forall2_impl; [exact Hp|]. intros p e (? & ? & ? & Hle & Htk). unfold located.
    rewrite zlen_app. split; [done|]. split; [done|]. split; [done|]. split; [lia|].
    unfold zlen in Hle. rewrite drop_app_le, take_app_le by (rewrite ?length_drop; lia). done.
  - constructor; [|constructor]. unfold located. cbn [nameOffsetChars nameLengthChars pending_meta fst snd].
    rewrite zlen_app, zlen_to_nat, drop_app_length, take_ge by lia. repeat (split; [done || lia|]). done.
Qed.

Lemma add_all_built es b es0 :
  built b es0 -> zlen (text_of (es0 ++ es)) <= UINT32_MAX -> built (add_all b es) (es0 ++ es).
Proof.
  revert b es0. induction es as [|[name m] es IH]; intros b es0 Hb Hlen; [by rewrite app_nil_r|].
  cbn [add_all fold_left]. rewrite cons_middle, app_assoc in *. apply IH; [|done].
  apply AddEntry_built; [done|]. unfold text_of in Hlen. rewrite bind_app, zlen_app in Hlen.
  fold (text_of (es0 ++ [(name, m)])) in Hlen. rewrite text_of_snoc, zlen_app in Hlen. cbn [fst] in Hlen.
  pose proof (zlen_nonneg (es ≫= fst)). lia.
Qed.

Lemma add_all_fields b es :
  status_ (add_all b es) = status_ b /\ volumeRowId_ (add_all b es) = volumeRowId_ b /\
  directoryIdLow_ (add_all b es) = directoryIdLow_ b /\ directoryIdHigh_ (add_all b es) = directoryIdHigh_ b /\
  parentIdLow_ (add_all b es) = parentIdLow_ b /\ parentIdHigh_ (add_all b es) = parentIdHigh_ b.
Proof. revert b. induction es as [|e es IH]; intros b; [done|]. exact (IH (AddEntry b e.1 e.2)). Qed.

(** A directory assembled by the builder shows the serializer exactly the
    entries that were added, in order, with the names that were given, as long
    as the names total at most 2^32-1 code units; the other fields are those set
    on the builder, and buffers of other directories are not disturbed. *)
Theorem builder_correct h status volume idLow idHigh parentLow parentHigh es :
  zlen (text_of es) <= UINT32_MAX ->
  let b := add_all (SetIdentity (SetStatus new_builder status) volume idLow idHigh parentLow parentHigh) es in
  let (h', d) := Build h b in
  directory_wf h' d /\
  resolve h' d = Some {| d_status := status; d_entries := (fun e => owning_entry e.1 e.2) <$> es;
                         d_volumeRowId := volume; d_directoryIdLow := idLow; d_directoryIdHigh := idHigh;
                         d_parentIdLow := parentLow; d_parentIdHigh := parentHigh |} /\
  (forall other, directory_wf h other -> resolve h' other = resolve h other).
Proof.
  intros Hlen. cbv zeta. set (b0 := SetIdentity _ _ _ _ _ _). set (b := add_all b0 es).
  destruct (add_all_built es b0 []) as [Ht Hp]; [by repeat constructor|done|]. cbn [app] in Ht, Hp.
  pose proof (add_all_fields b0 es) as (Hst & Hv & Hi & Hj & Hk & Hl). fold b in Ht, Hp, Hst, Hv, Hi, Hj, Hk, Hl.
  unfold Build. set (addr := fresh (dom h)). set (d := mkPooledDirectory _ _ _ _ _ _ _ _). rewrite Ht.
  assert (<[addr:=text_of es]> h !! pd_nameChars d = Some (text_of es)) as Hh by apply lookup_insert_eq.
  assert (Forall (fun e => view_ok (pd_nameChars d) (text_of es) (pe_name e)) (pd_entries d)) as Hall.
  { cbn [d pd_entries pd_nameChars]. rewrite Forall_fmap. exact (located_views _ addr _ _ Hp). }
  split; [by exists (text_of es)|]. split.
  - rewrite (resolve_owned _ d _ Hh Hall). unfold owned, d.
    cbn [pd_status pd_entries pd_volumeRowId pd_directoryIdLow pd_directoryIdHigh pd_parentIdLow pd_parentIdHigh].
    rewrite Hst, Hv, Hi, Hj, Hk, Hl. do 2 f_equal. rewrite <-list_fmap_compose.
    exact (located_texts _ addr _ _ Hp).
  - intros other (chars & Ho & Hoall). assert (pd_nameChars other <> addr).
    { intros He. apply (is_fresh (dom h)). fold addr. rewrite <-He. by apply elem_of_dom_2 in Ho. }
    rewrite (resolve_owned h other chars Ho Hoall). apply resolve_owned; [by rewrite lookup_insert_ne|done].
Qed.

(** ** Witnesses *)

Definition witness_meta : EntryMeta :=
  {| m_isDirectory := false; m_sizeBytes := 1; m_allocatedSizeBytes := 2; m_allocatedSizeKnown := true;
     m_attributes := 3; m_creationTime := 4; m_lastModifiedTime := 5; m_volumeRowId := 6; m_fileIdLow := 7;
     m_fileIdHigh := 8; m_parentIdLow := 9; m_parentIdHigh := 10 |}.

Definition witness_pooled (addr : Z) : PooledSnapshotDirectory :=
  {| pd_status := 0; pd_nameChars := addr;
     pd_entries := [mkPooledEntry (mkView (Some addr) 1 2) witness_meta; mkPooledEntry null_view witness_meta];
     pd_volumeRowId := 1; pd_directoryIdLow := 2; pd_directoryIdHigh := 3; pd_parentIdLow := 4;
     pd_parentIdHigh := 5 |}.

Definition witness_heap : heap := <[1 := [97; 98; 99]]> (<[2 := [100; 101; 102; 103]]> ∅).

Lemma witness_pooled_wf1 : directory_wf witness_heap (witness_pooled 1).
Proof.
  exists [97; 98; 99]. split; [done|]. apply Forall_cons. split.
  - right. repeat (split; [done|]). by vm_compute.
  - apply Forall_singleton. by left.
Qed.

Lemma witness_pooled_wf2 : directory_wf witness_heap (witness_pooled 2).
Proof.
  exists [100; 101; 102; 103]. split; [done|]. apply Forall_cons. split.
  - right. repeat (split; [done|]). by vm_compute.
  - apply Forall_singleton. by left.
Qed.

Lemma copy_directory_independent_witness :
  directory_wf (copy_directory witness_heap (witness_pooled 1)).1
    (copy_directory witness_heap (witness_pooled 1)).2.
Proof.
  pose proof (copy_directory_independent witness_heap (witness_pooled 1) witness_pooled_wf1) as Hc.
  destruct (copy_directory witness_heap (witness_pooled 1)). exact (proj1 Hc).
Defined.

Lemma assign_directory_correct_witness :
  directory_wf (assign_directory witness_heap (witness_pooled 1) (witness_pooled 2)).1
    (assign_directory witness_heap (witness_pooled 1) (witness_pooled 2)).2.
Proof.
  pose proof (assign_directory_correct witness_heap (witness_pooled 1) (witness_pooled 2)
                witness_pooled_wf2 witness_pooled_wf1 ltac:(done)) as Ha.
  destruct (assign_directory witness_heap (witness_pooled 1) (witness_pooled 2)). exact (proj1 Ha).
Defined.

Lemma builder_correct_witness :
  let b := add_all (SetIdentity (SetStatus new_builder 0) 1 2 3 4 5) [([97], witness_meta); ([98; 99], witness_meta)] in
  directory_wf (Build ∅ b).1 (Build ∅ b).2.
Proof.
  pose proof (builder_correct ∅ 0 1 2 3 4 5 [([97], witness_meta); ([98; 99], witness_meta)] ltac:(by vm_compute)) as Hb.
  cbv zeta in *. destruct (Build ∅ _). exact (proj1 Hb).
Defined.
