(* ===== verification/FlatHashMap.v ===== *)
(** * The open-addressing hash table of the index

    [src/indexstore/include/ffindexstore/FlatHashMap.h], class [FlatHashMap]:
    power-of-two table, linear probing bounded by 64 steps, tombstones, and a
    rebuild at doubling sizes when the load or a probe run is too high.  The key
    type, the value type and the hash function are the template parameters.

    The table refines a finite map: [represents m g] relates its arrays to a
    [gmap], and every operation commutes with the map operation.  [Reject]
    stands for a thrown exception. *)

From stdpp Require Import gmap.
From S2P Require Import Prelude.

Definition kMaxProbeDistance : nat := 64.

Record ProbeResult := mkProbe { index : Z; exhausted : bool }.

(** ** [pow2_ceil] *)

Definition pow2_ceil (n : Z) : Z :=
  if n <=? 1 then 1
  else
    let n := n - 1 in
    let n := Z.lor n (Z.shiftr n 1) in
    let n := Z.lor n (Z.shiftr n 2) in
    let n := Z.lor n (Z.shiftr n 4) in
    let n := Z.lor n (Z.shiftr n 8) in
    let n := Z.lor n (Z.shiftr n 16) in
    let n := Z.lor n (Z.shiftr n 32) in
    add64 n 1.

Section flat_hash_map.
Context {Key Value : Type} `{EqDecision Key, Inhabited Key, Inhabited Value}.
(** The [Hash] template parameter: any function into [size_t]. *)
Context (hasher : Key -> Z).

(** Slot states: 0 empty, 1 occupied, 2 tombstone. *)
Record FlatHashMap := mkFlatHashMap {
  keys_ : list Key;
  values_ : list Value;
  states_ : list Z;
  count_ : Z
}.

Definition empty_map : FlatHashMap := mkFlatHashMap [] [] [] 0.

Definition bucket_count (m : FlatHashMap) : Z := zlen (keys_ m).
Definition state_at (m : FlatHashMap) (i : Z) : Z := nth (Z.to_nat i) (states_ m) 0.
Definition key_at (m : FlatHashMap) (i : Z) : Key := keys_ m !!! Z.to_nat i.

(** ** Probing *)

Fixpoint probe_loop (n : nat) (m : FlatHashMap) (key : Key) (mask idx : Z) : ProbeResult :=
  match n with
  | O => mkProbe (bucket_count m) true
  | S n' =>
      if state_at m idx =? 0 then mkProbe idx false
      else if (state_at m idx =? 1) && bool_decide (key_at m idx = key) then mkProbe idx false
      else probe_loop n' m key mask (Z.land (add64 idx 1) mask)
  end.

Definition find_slot (m : FlatHashMap) (key : Key) : ProbeResult :=
  if bool_decide (keys_ m = []) then mkProbe 0 false
  else
    let mask := bucket_count m - 1 in
    probe_loop kMaxProbeDistance m key mask (Z.land (hasher key) mask).

(** ** Lookup and removal *)

Definition find (m : FlatHashMap) (key : Key) : option Value :=
  let probe := find_slot m key in
  if exhausted probe || (index probe =? bucket_count m) || negb (state_at m (index probe) =? 1)
  then None
  else values_ m !! Z.to_nat (index probe).

Definition contains (m : FlatHashMap) (key : Key) : bool :=
  match find m key with Some _ => true | None => false end.

Definition erase (m : FlatHashMap) (key : Key) : FlatHashMap :=
  let probe := find_slot m key in
  if exhausted probe || (index probe =? bucket_count m) || negb (state_at m (index probe) =? 1)
  then m
  else mkFlatHashMap (keys_ m) (values_ m) (<[Z.to_nat (index probe) := 2]> (states_ m)) (count_ m - 1).

Definition clear (m : FlatHashMap) : FlatHashMap := empty_map.

(** ** Growth *)

(** Writing [key], [value] into an empty slot. *)
Definition fill_slot (m : FlatHashMap) (i : Z) (key : Key) (value : Value) : FlatHashMap :=
  mkFlatHashMap (<[Z.to_nat i := key]> (keys_ m)) (<[Z.to_nat i := value]> (values_ m))
    (<[Z.to_nat i := 1]> (states_ m)) (count_ m + 1).

Definition set_value (m : FlatHashMap) (i : Z) (value : Value) : FlatHashMap :=
  mkFlatHashMap (keys_ m) (<[Z.to_nat i := value]> (values_ m)) (states_ m) (count_ m).

(** [Reject] is [return false]; the writes to [keys_[probe.index]] fault on a
    table without slots. *)
Definition PlaceWithoutGrowth (m : FlatHashMap) (key : Key) (value : Value) : result FlatHashMap :=
  let probe := find_slot m key in
  if exhausted probe then Reject
  else if (index probe <? bucket_count m) && (state_at m (index probe) =? 1)
  then Ok (set_value m (index probe) value)
  else if index probe <? bucket_count m then Ok (fill_slot m (index probe) key value)
  else Fault.

(** The entries in slot order: what the rebuild loop and [ForEach] visit. *)
Fixpoint live_entries (ks : list Key) (vs : list Value) (ss : list Z) : list (Key * Value) :=
  match ks, vs, ss with
  | k :: ks', v :: vs', s :: ss' =>
      if s =? 1 then (k, v) :: live_entries ks' vs' ss' else live_entries ks' vs' ss'
  | _, _, _ => []
  end.

(** The rebuild loop: [Reject] is [placed = false]. *)
Fixpoint place_all (m : FlatHashMap) (entries : list (Key * Value)) : result FlatHashMap :=
  match entries with
  | [] => Ok m
  | (k, v) :: rest => let* m' := PlaceWithoutGrowth m k v in place_all m' rest
  end.

Definition fresh_table (buckets : Z) : FlatHashMap :=
  mkFlatHashMap (replicate (Z.to_nat buckets) inhabitant) (replicate (Z.to_nat buckets) inhabitant)
    (replicate (Z.to_nat buckets) 0) 0.

(** The largest [max_size()] of a [std::vector]: [assign] beyond it throws
    [std::length_error]. *)
Definition PTRDIFF_MAX : Z := 9223372036854775807.

(** The [for (;;)] of [grow]: 64 doublings exhaust [size_t], so the fuel of the
    caller is never what ends it. *)
Fixpoint grow_loop (fuel : nat) (old : list (Key * Value)) (new_buckets : Z) : result FlatHashMap :=
  match fuel with
  | O => Fault
  | S fuel' =>
      guard (new_buckets <=? PTRDIFF_MAX)
      (match place_all (fresh_table new_buckets) old with
       | Ok m => Ok m
       | Fault => Fault
       | Reject =>
           guard (negb (SIZE_MAX / 2 <? new_buckets))
           (grow_loop fuel' old (mul64 new_buckets 2))
       end)
  end.

Definition grow (m : FlatHashMap) (new_buckets : Z) : result FlatHashMap :=
  grow_loop 65 (live_entries (keys_ m) (values_ m) (states_ m)) new_buckets.

Definition reserve (m : FlatHashMap) (n : Z) : result FlatHashMap :=
  if bucket_count m <? n then grow m (pow2_ceil (mul64 n 2)) else Ok m.

Definition EnsureInsertCapacity (m : FlatHashMap) : result FlatHashMap :=
  if bool_decide (keys_ m = []) then grow m 8
  else if mul64 (bucket_count m) 3 / 4 <=? count_ m then grow m (mul64 (bucket_count m) 2)
  else Ok m.

(** [rehashes] counts up to 8: at most nine rounds. *)
Fixpoint FindInsertSlot_loop (rounds : nat) (m : FlatHashMap) (key : Key)
  : result (FlatHashMap * ProbeResult) :=
  let* m := EnsureInsertCapacity m in
  let probe := find_slot m key in
  if negb (exhausted probe) then Ok (m, probe)
  else match rounds with
       | O => Reject
       | S rounds' =>
           guard (negb (SIZE_MAX / 2 <? bucket_count m))
           (let* m := grow m (mul64 (bucket_count m) 2) in
            FindInsertSlot_loop rounds' m key)
       end.

Definition FindInsertSlot (m : FlatHashMap) (key : Key) : result (FlatHashMap * ProbeResult) :=
  FindInsertSlot_loop 8 m key.

(** ** Insertion *)

Definition push_slot (m : FlatHashMap) (key : Key) (value : Value) : FlatHashMap :=
  mkFlatHashMap (keys_ m ++ [key]) (values_ m ++ [value]) (states_ m ++ [1]) (count_ m + 1).

Definition insert (m : FlatHashMap) (key : Key) (value : Value) : result FlatHashMap :=
  let* '(m, probe) := FindInsertSlot m key in
  if (index probe <? bucket_count m) && (state_at m (index probe) =? 1)
  then Ok (set_value m (index probe) value)
  else if index probe =? bucket_count m then Ok (push_slot m key value)
  else Ok (fill_slot m (index probe) key value).

(** [operator[]]: the table and the index of the value it refers to. *)
Definition subscript (m : FlatHashMap) (key : Key) : result (FlatHashMap * Z) :=
  let* '(m, probe) := FindInsertSlot m key in
  if (index probe <? bucket_count m) && (state_at m (index probe) =? 1)
  then Ok (m, index probe)
  else if index probe =? bucket_count m
  then Ok (push_slot m key inhabitant, bucket_count m)
  else Ok (fill_slot m (index probe) key inhabitant, index probe).

(** ** Traversal *)

Definition ForEach {A} (fn : A -> Key -> Value -> A) (m : FlatHashMap) (a : A) : A :=
  fold_left (fun acc e => fn acc e.1 e.2) (live_entries (keys_ m) (values_ m) (states_ m)) a.

Definition RemapValues (fn : Value -> Value) (m : FlatHashMap) : FlatHashMap :=
  mkFlatHashMap (keys_ m)
    (zip_with (fun s v => if s =? 1 then fn v else v) (states_ m) (values_ m))
    (states_ m) (count_ m).

(** ** Invariant *)

Definition occupied (m : FlatHashMap) (i : Z) (k : Key) (v : Value) : Prop :=
  0 <= i /\ states_ m !! Z.to_nat i = Some 1 /\ keys_ m !! Z.to_nat i = Some k /\
  values_ m !! Z.to_nat i = Some v.

Record table_inv (m : FlatHashMap) : Prop := {
  inv_values : length (values_ m) = length (keys_ m);
  inv_states : length (states_ m) = length (keys_ m);
  inv_size : keys_ m = [] \/ exists p, 0 <= p <= 62 /\ bucket_count m = 2 ^ p;
  inv_probe : forall i k v, occupied m i k v -> find_slot m k = mkProbe i false
}.

End flat_hash_map.

Arguments FlatHashMap : clear implicits.

(** ** [pow2_ceil] is the next power of two *)

(** All bits of [x] above [L] are clear and the [w] bits up to [L] are set. *)
Definition smeared (L w x : Z) : Prop :=
  (forall i, L < i -> Z.testbit x i = false) /\
  (forall i, 0 <= i -> L - w < i <= L -> Z.testbit x i = true).

Lemma smear_step L w x :
  0 <= L -> 0 < w -> smeared L w x -> smeared L (2 * w) (Z.lor x (Z.shiftr x w)).
Proof.
  intros HL Hw [Hhi Hlo]. split; intros i Hi.
  - rewrite Z.lor_spec, Z.shiftr_spec, !Hhi by lia. done.
  - intros Hr. rewrite Z.lor_spec, Z.shiftr_spec by lia. apply orb_true_iff.
    destruct (decide (L - w < i)); [left|right]; apply Hlo; lia.
Qed.

Lemma smeared_full L x : 0 <= L < 64 -> smeared L 64 x -> x + 1 = 2 ^ (L + 1).
Proof.
  intros HL [Hhi Hlo]. enough (x = Z.ones (L + 1)) as -> by (rewrite Z.ones_equiv; lia).
  apply Z.bits_inj'. intros i Hi. destruct (decide (i <= L)).
  - rewrite Z.ones_spec_low, Hlo by lia. done.
  - rewrite Z.ones_spec_high, Hhi by lia. done.
Qed.

Lemma smeared_start n : 0 < n -> smeared (Z.log2 n) 1 n.
Proof.
  intros Hn. split; intros i Hi.
  - apply Z.bits_above_log2; lia.
  - intros Hr. replace i with (Z.log2 n) by lia. by apply Z.bit_log2.
Qed.

Lemma pow2_ceil_log2_up n : n <= 2 ^ 63 -> pow2_ceil n = 2 ^ Z.log2_up n.
Proof.
  intros Hn. unfold pow2_ceil. destruct (Z.leb_spec n 1) as [H1|H1].
  - by rewrite Z.log2_up_eqn0.
  - assert (0 <= Z.log2 (n - 1) < 63) as HL.
    { split; [apply Z.log2_nonneg|]. apply Z.log2_lt_pow2; lia. }
    pose proof (smeared_start (n - 1) ltac:(lia)) as Hs.
    do 6 (apply smear_step in Hs; [|lia..];
          match type of Hs with smeared _ ?w _ => let v := eval compute in w in change w with v in Hs end).
    apply smeared_full in Hs; [|lia].
    rewrite Z.log2_up_eqn by lia. rewrite <-Z.sub_1_r. cbv zeta.
    unfold add64. rewrite Hs. unfold Z.succ. apply wrap64_small.
    assert (2 ^ (Z.log2 (n - 1) + 1) <= 2 ^ 63) by (apply Z.pow_le_mono_r; lia).
    assert (0 < 2 ^ (Z.log2 (n - 1) + 1)) by (apply Z.pow_pos_nonneg; lia).
    unfold SIZE_MAX. lia.
Qed.

(** ** Probing *)

Section proofs.
Context {Key Value : Type} `{Countable Key, Inhabited Key, Inhabited Value}.
Variable hasher : Key -> Z.

Abbreviation Map := (FlatHashMap Key Value).
Implicit Types (m : Map) (k : Key) (v : Value) (g : gmap Key Value).

Lemma land_mask_pow2 p x : 0 <= p -> Z.land x (2 ^ p - 1) = x mod 2 ^ p.
Proof. intros. rewrite Z.sub_1_r, <-Z.ones_equiv. by apply Z.land_ones. Qed.

(** What a probe that ends normally found. *)
Lemma probe_loop_found n m key mask idx i :
  probe_loop n m key mask idx = mkProbe i false ->
  state_at m i = 0 \/ (state_at m i = 1 /\ key_at m i = key).
Proof.
  revert idx. induction n as [|n IH]; intros idx; cbn [probe_loop]; [discriminate|].
  destruct (state_at m idx =? 0) eqn:E0; [intros [= <-]; bool_prop; auto|].
  destruct (_ && _) eqn:E1; [|apply IH]. intros [= <-].
  apply andb_true_iff in E1 as [Es Ek]. bool_prop. apply bool_decide_eq_true in Ek. auto.
Qed.

Lemma probe_loop_exhausted n m key mask idx :
  exhausted (probe_loop n m key mask idx) = true ->
  index (probe_loop n m key mask idx) = bucket_count m.
Proof.
  revert idx. induction n as [|n IH]; intros idx; cbn [probe_loop]; [done|].
  destruct (_ =? 0); [done|]. destruct (_ && _); [done|apply IH].
Qed.

Lemma probe_loop_bound n m key p idx i :
  0 <= p -> 0 <= idx < 2 ^ p -> probe_loop n m key (2 ^ p - 1) idx = mkProbe i false -> 0 <= i < 2 ^ p.
Proof.
  intros Hm. revert idx. induction n as [|n IH]; intros idx Hi; cbn [probe_loop]; [discriminate|].
  destruct (_ =? 0); [by intros [= <-]|]. destruct (_ && _); [by intros [= <-]|]. apply IH.
  rewrite land_mask_pow2 by done. apply Z.mod_pos_bound, Z.pow_pos_nonneg; lia.
Qed.

(** Changing one slot does not disturb a probe that never stops there. *)
Lemma probe_loop_frame n m m' key mask idx i j :
  bucket_count m' = bucket_count m ->
  probe_loop n m key mask idx = mkProbe j false -> i <> j ->
  (forall x, x <> i -> 0 <= x -> state_at m' x = state_at m x /\ key_at m' x = key_at m x) ->
  state_at m' i <> 0 -> ~ (state_at m' i = 1 /\ key_at m' i = key) -> 0 <= mask -> 0 <= idx ->
  probe_loop n m' key mask idx = mkProbe j false.
Proof.
  intros Hc. revert idx. induction n as [|n IH]; intros idx Hp Hij Hsame Hi0 Hi1 Hm Hidx;
    cbn [probe_loop] in *; [discriminate|].
  destruct (decide (idx = i)) as [->|Hne].
  - destruct (Z.eqb_spec (state_at m' i) 0); [done|].
    destruct ((_ =? 1) && bool_decide (key_at m' i = key)) eqn:E.
    { apply andb_true_iff in E as [Es Ek]. bool_prop. apply bool_decide_eq_true in Ek. by destruct Hi1. }
    apply IH; auto; [|apply Z.land_nonneg; auto].
    destruct (state_at m i =? 0); [congruence|]. destruct (_ && _); [congruence|done].
  - destruct (Hsame idx Hne Hidx) as [-> ->].
    destruct (_ =? 0); [done|]. destruct (_ && _); [done|].
    apply IH; auto. apply Z.land_nonneg; auto.
Qed.

Lemma table_size_pow2 m :
  table_inv hasher m -> keys_ m <> [] -> exists p, 0 <= p <= 62 /\ bucket_count m = 2 ^ p.
Proof. intros Hi Hne. by destruct (inv_size _ _ Hi) as [|Hp]. Qed.

Lemma find_slot_nonempty m key :
  keys_ m <> [] ->
  find_slot hasher m key =
  probe_loop kMaxProbeDistance m key (bucket_count m - 1) (Z.land (hasher key) (bucket_count m - 1)).
Proof. intros Hne. unfold find_slot. by rewrite bool_decide_false. Qed.

Lemma find_slot_bound m key i :
  table_inv hasher m -> keys_ m <> [] -> find_slot hasher m key = mkProbe i false ->
  0 <= i < bucket_count m.
Proof.
  intros Hi Hne. destruct (table_size_pow2 m Hi Hne) as (p & Hp & Hb).
  rewrite find_slot_nonempty, Hb by done. apply probe_loop_bound; [lia|].
  rewrite land_mask_pow2 by lia. apply Z.mod_pos_bound, Z.pow_pos_nonneg; lia.
Qed.

Lemma state_at_lookup m i s : 0 <= i -> states_ m !! Z.to_nat i = Some s -> state_at m i = s.
Proof. intros. unfold state_at. by apply nth_lookup_Some. Qed.

Lemma state_at_one m i : state_at m i = 1 -> states_ m !! Z.to_nat i = Some 1.
Proof.
  unfold state_at. intros Hs. destruct (states_ m !! Z.to_nat i) as [s|] eqn:E.
  - apply nth_lookup_Some with (d := 0) in E. congruence.
  - apply lookup_ge_None in E. rewrite nth_overflow in Hs by done. discriminate.
Qed.

Lemma key_at_lookup m i k : keys_ m !! Z.to_nat i = Some k -> key_at m i = k.
Proof. intros Hk. unfold key_at. by apply list_lookup_total_correct. Qed.

(** An occupied slot that holds [key] is an [occupied] entry. *)
Lemma occupied_intro m i key :
  table_inv hasher m -> 0 <= i -> state_at m i = 1 -> key_at m i = key ->
  exists v, occupied m i key v.
Proof.
  intros Hi Hge Hs Hk. apply state_at_one in Hs.
  assert (Z.to_nat i < length (keys_ m))%nat as Hlt.
  { rewrite <-(inv_states _ _ Hi). by apply lookup_lt_Some in Hs. }
  destruct (lookup_lt_is_Some_2 (values_ m) (Z.to_nat i)) as [v Hv]; [by rewrite (inv_values _ _ Hi)|].
  destruct (lookup_lt_is_Some_2 (keys_ m) (Z.to_nat i)) as [k' Hk']; [done|].
  exists v. split; [done|]. split; [done|]. split; [|done].
  rewrite (key_at_lookup _ _ _ Hk') in Hk. congruence.
Qed.

Lemma occupied_unique m i j k v v' :
  table_inv hasher m -> occupied m i k v -> occupied m j k v' -> i = j /\ v = v'.
Proof.
  intros Hi Ho Ho'. pose proof (inv_probe _ _ Hi _ _ _ Ho) as E1.
  rewrite (inv_probe _ _ Hi _ _ _ Ho') in E1. injection E1 as ->. split; [done|].
  destruct Ho as (_ & _ & _ & Hv), Ho' as (_ & _ & _ & Hv'). congruence.
Qed.

(** ** The abstract map *)

Definition represents m g : Prop :=
  table_inv hasher m /\
  (forall k v, g !! k = Some v <-> exists i, occupied m i k v) /\
  count_ m = Z.of_nat (size g).

(** A successful probe either meets the entry of [key] or proves it absent. *)
Lemma find_slot_cases m g key i :
  represents m g -> keys_ m <> [] -> find_slot hasher m key = mkProbe i false ->
  0 <= i < bucket_count m /\
  ((state_at m i = 1 /\ exists v, occupied m i key v /\ g !! key = Some v) \/
   (state_at m i = 0 /\ g !! key = None)).
Proof.
  intros (Hi & Hg & _) Hne Hp. pose proof (find_slot_bound m key i Hi Hne Hp) as Hb. split; [done|].
  rewrite find_slot_nonempty in Hp by done.
  destruct (probe_loop_found _ _ _ _ _ _ Hp) as [Hs|[Hs Hk]].
  - right. split; [done|]. destruct (g !! key) as [v|] eqn:E; [|done].
    apply Hg in E as [j Ho]. pose proof (inv_probe _ _ Hi _ _ _ Ho) as Hp'.
    rewrite find_slot_nonempty, Hp in Hp' by done. injection Hp' as ->.
    destruct Ho as (_ & Ho & _). apply state_at_lookup in Ho; [congruence|lia].
  - left. split; [done|]. destruct (occupied_intro m i key Hi) as [v Ho]; [lia|done..|].
    exists v. split; [done|]. apply Hg. eauto.
Qed.

Lemma find_refines m g k : represents m g -> find hasher m k = g !! k.
Proof.
  intros Hr. pose proof Hr as (Hi & Hg & Hc). unfold find.
  destruct (decide (keys_ m = [])) as [He|Hne].
  - unfold find_slot. rewrite bool_decide_true by done. cbn [exhausted index orb].
    unfold bucket_count. rewrite He. cbn.
    destruct (g !! k) as [v|] eqn:E; [|done]. apply Hg in E as (i & _ & _ & Hk & _).
    by rewrite He in Hk.
  - destruct (find_slot hasher m k) as [i [|]] eqn:Hp; cbn [exhausted index orb].
    + destruct (g !! k) as [v|] eqn:E; [|done]. apply Hg in E as [j Ho].
      apply (inv_probe _ _ Hi) in Ho. congruence.
    + destruct (find_slot_cases m g k i Hr Hne Hp) as [Hb [[Hs (v & Ho & ->)]|[Hs ->]]];
        rewrite Hs, (proj2 (Z.eqb_neq _ _)) by lia; cbn [orb Z.eqb negb]; [|done].
      by destruct Ho as (_ & _ & _ & ?).
Qed.

(** ** Updating one slot *)

Lemma probe_loop_ext n m m' key mask idx :
  keys_ m' = keys_ m -> states_ m' = states_ m ->
  probe_loop n m' key mask idx = probe_loop n m key mask idx.
Proof.
  intros Hk Hs. revert idx. induction n as [|n IH]; intros idx; cbn [probe_loop];
    unfold bucket_count, state_at, key_at in *; by rewrite ?Hk, ?Hs, ?IH.
Qed.

Lemma find_slot_ext m m' key :
  keys_ m' = keys_ m -> states_ m' = states_ m -> find_slot hasher m' key = find_slot hasher m key.
Proof.
  intros Hk Hs. unfold find_slot, bucket_count. rewrite Hk. by rewrite (probe_loop_ext _ m m').
Qed.

(** The probe for [key] still ends at [i] once [i] holds [key]. *)
Lemma probe_loop_reach n m m' key mask idx i :
  probe_loop n m key mask idx = mkProbe i false ->
  (forall x, x <> i -> 0 <= x -> state_at m' x = state_at m x /\ key_at m' x = key_at m x) ->
  state_at m' i = 1 -> key_at m' i = key -> 0 <= mask -> 0 <= idx ->
  probe_loop n m' key mask idx = mkProbe i false.
Proof.
  revert idx. induction n as [|n IH]; intros idx Hp Hsame Hs Hk Hm Hidx; cbn [probe_loop] in *;
    [discriminate|].
  destruct (decide (idx = i)) as [->|Hne].
  - rewrite Hs, Hk. cbn. by rewrite bool_decide_true.
  - destruct (Hsame idx Hne Hidx) as [-> ->].
    destruct (_ =? 0); [done|]. destruct (_ && _); [done|].
    apply IH; auto. apply Z.land_nonneg; auto.
Qed.

Lemma nth_insert_ne {A} (l : list A) (i j : nat) x d : i <> j -> nth j (<[i:=x]> l) d = nth j l d.
Proof. intros Hne. by rewrite !nth_lookup, list_lookup_insert_ne. Qed.

Lemma nth_insert_eq {A} (l : list A) (i : nat) x d : (i < length l)%nat -> nth i (<[i:=x]> l) d = x.
Proof. intros Hlt. by rewrite nth_lookup, list_lookup_insert_eq. Qed.

Lemma zlen_insert {A} (l : list A) i x : zlen (<[i:=x]> l) = zlen l.
Proof. unfold zlen. by rewrite length_insert. Qed.

Section slot.
Context (m : Map) (i : Z) (key : Key) (v : Value).
Hypothesis Hinv : table_inv hasher m.
Hypothesis Hi : 0 <= i < bucket_count m.

Lemma slot_lt : (Z.to_nat i < length (keys_ m))%nat.
Proof. unfold bucket_count, zlen in Hi. lia. Qed.

Lemma fill_slot_other x :
  x <> i -> 0 <= x ->
  state_at (fill_slot m i key v) x = state_at m x /\ key_at (fill_slot m i key v) x = key_at m x.
Proof.
  intros Hne Hx. unfold state_at, key_at. cbn [fill_slot states_ keys_].
  rewrite nth_insert_ne, list_lookup_total_insert_ne by lia. done.
Qed.

Lemma fill_slot_here :
  state_at (fill_slot m i key v) i = 1 /\ key_at (fill_slot m i key v) i = key.
Proof.
  pose proof slot_lt. unfold state_at, key_at. cbn [fill_slot states_ keys_].
  rewrite nth_insert_eq, list_lookup_total_insert_eq; [done..|]. by rewrite (inv_states _ _ Hinv).
Qed.

Lemma erase_slot_other x :
  x <> i -> 0 <= x ->
  nth (Z.to_nat x) (<[Z.to_nat i := 2]> (states_ m)) 0 = state_at m x.
Proof. intros Hne Hx. rewrite nth_insert_ne by lia. done. Qed.

Lemma occupied_fill_slot j k' v' :
  occupied (fill_slot m i key v) j k' v' <->
  (j = i /\ k' = key /\ v' = v) \/ (j <> i /\ occupied m j k' v').
Proof.
  pose proof slot_lt. unfold occupied. cbn [fill_slot states_ keys_ values_].
  destruct (decide (j = i)) as [->|Hne].
  - rewrite !list_lookup_insert_eq;
      [|rewrite ?(inv_values _ _ Hinv), ?(inv_states _ _ Hinv); done..].
    naive_solver lia.
  - destruct (decide (0 <= j)) as [Hj|Hj]; [|naive_solver lia].
    rewrite !list_lookup_insert_ne by lia. naive_solver.
Qed.

Lemma occupied_set_value k0 v0 j k' v' :
  occupied m i k0 v0 ->
  (occupied (set_value m i v) j k' v' <->
   (j = i /\ k' = k0 /\ v' = v) \/ (j <> i /\ occupied m j k' v')).
Proof.
  pose proof slot_lt. unfold occupied. cbn [set_value states_ keys_ values_].
  intros (_ & Hs & Hk & Hv). destruct (decide (j = i)) as [->|Hne].
  - rewrite list_lookup_insert_eq by (rewrite (inv_values _ _ Hinv); done).
    rewrite Hs, Hk. naive_solver lia.
  - destruct (decide (0 <= j)) as [Hj|Hj]; [|naive_solver lia].
    rewrite !list_lookup_insert_ne by lia. naive_solver.
Qed.

Lemma occupied_erase_slot j k' v' c :
  occupied (mkFlatHashMap (keys_ m) (values_ m) (<[Z.to_nat i := 2]> (states_ m)) c) j k' v' <->
  j <> i /\ occupied m j k' v'.
Proof.
  pose proof slot_lt. unfold occupied. cbn [states_ keys_ values_].
  destruct (decide (j = i)) as [->|Hne].
  - rewrite list_lookup_insert_eq by (rewrite (inv_states _ _ Hinv); done). naive_solver.
  - destruct (decide (0 <= j)) as [Hj|Hj]; [|naive_solver lia].
    rewrite !list_lookup_insert_ne by lia. naive_solver.
Qed.
End slot.

(** ** Operations on the slots refine operations on the map *)

Lemma size_insert_Z g k v :
  Z.of_nat (size (<[k:=v]> g)) = Z.of_nat (size g) + (if g !! k then 0 else 1).
Proof. destruct (g !! k) eqn:E; rewrite map_size_insert, E; simpl; lia. Qed.

Lemma fill_slot_inv m g key v i :
  represents m g -> keys_ m <> [] -> find_slot hasher m key = mkProbe i false ->
  state_at m i = 0 -> table_inv hasher (fill_slot m i key v).
Proof.
  intros Hr Hne Hp Hs. pose proof Hr as (Hi & Hg & _).
  pose proof (find_slot_bound m key i Hi Hne Hp) as Hb.
  destruct (table_size_pow2 m Hi Hne) as (p & Hp2 & Hsz).
  assert (0 < 2 ^ p) by (apply Z.pow_pos_nonneg; lia).
  assert (bucket_count (fill_slot m i key v) = bucket_count m) as Hbc by apply zlen_insert.
  assert (keys_ (fill_slot m i key v) <> []) as Hne'.
  { intros He. apply (f_equal zlen) in He. change (bucket_count (fill_slot m i key v) = 0) in He. lia. }
  destruct (fill_slot_here m i key v Hi Hb) as [Hs1 Hk1].
  pose proof (fill_slot_other m i key v Hb) as Hoth.
  rewrite find_slot_nonempty in Hp by done.
  assert (0 <= Z.land (hasher key) (bucket_count m - 1)) by (apply Z.land_nonneg; lia).
  split.
  - cbn. rewrite !length_insert. apply (inv_values _ _ Hi).
  - cbn. rewrite !length_insert. apply (inv_states _ _ Hi).
  - right. rewrite Hbc. eauto.
  - intros j k' v' Ho. apply occupied_fill_slot in Ho; [|done..].
    rewrite find_slot_nonempty, Hbc by done. destruct Ho as [(-> & -> & ->)|[Hne2 Ho]].
    + apply (probe_loop_reach _ m); auto; lia.
    + assert (k' <> key) as Hkne.
      { intros ->. apply (inv_probe _ _ Hi) in Ho as Hp'. rewrite find_slot_nonempty, Hp in Hp' by done.
        congruence. }
      apply (inv_probe _ _ Hi) in Ho. rewrite find_slot_nonempty in Ho by done.
      apply (probe_loop_frame _ m _ _ _ _ i); auto; try lia; [|apply Z.land_nonneg; lia].
      intros [_ ?]. congruence.
Qed.

Lemma fill_slot_represents m g key v i :
  represents m g -> keys_ m <> [] -> find_slot hasher m key = mkProbe i false ->
  state_at m i = 0 -> represents (fill_slot m i key v) (<[key:=v]> g).
Proof.
  intros Hr Hne Hp Hs. pose proof Hr as (Hi & Hg & Hc).
  destruct (find_slot_cases m g key i Hr Hne Hp) as [Hb [[Hs1 _]|[_ Habs]]]; [congruence|].
  split; [by eapply fill_slot_inv|]. split.
  - intros k' v'. setoid_rewrite (occupied_fill_slot m i key v Hi Hb).
    destruct (decide (k' = key)) as [->|Hkne].
    + rewrite lookup_insert_eq. split; [intros [= ->]; eauto|].
      intros (j & [(_ & _ & ->)|[_ Ho]]); [done|].
      assert (g !! key = Some v') as E by (apply Hg; eauto). congruence.
    + rewrite lookup_insert_ne, Hg by done. split.
      * intros [j Ho]. exists j. right. split; [|done]. intros ->.
        destruct Ho as (_ & Ho & _). apply state_at_lookup in Ho; [congruence|lia].
      * intros (j & [(_ & -> & _)|[_ Ho]]); [done|eauto].
  - rewrite size_insert_Z, Habs, <-Hc. done.
Qed.

Lemma set_value_represents m g key v v0 i :
  represents m g -> occupied m i key v0 -> represents (set_value m i v) (<[key:=v]> g).
Proof.
  intros Hr Ho0. pose proof Hr as (Hi & Hg & Hc).
  assert (0 <= i < bucket_count m) as Hb.
  { destruct Ho0 as (? & _ & Hk & _). apply lookup_lt_Some in Hk. unfold bucket_count, zlen. lia. }
  assert (g !! key = Some v0) as Hpres by (apply Hg; eauto).
  pose proof (fun j k' v' => occupied_set_value m i v Hi Hb key v0 j k' v' Ho0) as Hocc.
  split; [split|split].
  - cbn. rewrite length_insert. apply (inv_values _ _ Hi).
  - apply (inv_states _ _ Hi).
  - apply (inv_size _ _ Hi).
  - intros j k' v' Ho. rewrite (find_slot_ext m) by done.
    apply Hocc in Ho as [(-> & -> & ->)|[_ Ho]]; by eapply inv_probe.
  - intros k' v'. setoid_rewrite Hocc. destruct (decide (k' = key)) as [->|Hkne].
    + rewrite lookup_insert_eq. split; [intros [= ->]; eauto|].
      intros (j & [(_ & _ & ->)|[Hne Ho]]); [done|].
      by destruct (occupied_unique m i j key v0 v' Hi Ho0 Ho).
    + rewrite lookup_insert_ne, Hg by done. split.
      * intros [j Ho]. exists j. right. split; [|done]. intros ->.
        destruct Ho as (_ & _ & Hk' & _), Ho0 as (_ & _ & Hk & _). congruence.
      * intros (j & [(_ & -> & _)|[_ Ho]]); [done|eauto].
  - rewrite size_insert_Z, Hpres, Z.add_0_r. done.
Qed.

Lemma erase_slot_represents m g key v i :
  represents m g -> occupied m i key v ->
  represents (mkFlatHashMap (keys_ m) (values_ m) (<[Z.to_nat i := 2]> (states_ m)) (count_ m - 1))
    (delete key g).
Proof.
  intros Hr Ho0. pose proof Hr as (Hi & Hg & Hc). set (m' := mkFlatHashMap _ _ _ _).
  assert (0 <= i < bucket_count m) as Hb.
  { destruct Ho0 as (? & _ & Hk & _). apply lookup_lt_Some in Hk. unfold bucket_count, zlen. lia. }
  assert (keys_ m <> []) as Hne.
  { intros He. unfold bucket_count, zlen in Hb. rewrite He in Hb. simpl in Hb. lia. }
  assert (g !! key = Some v) as Hpres by (apply Hg; eauto).
  pose proof (slot_lt m i Hb) as Hlt. rewrite <-(inv_states _ _ Hi) in Hlt.
  assert (state_at m' i = 2) as Hs2 by (unfold state_at; by apply nth_insert_eq).
  split; [split|split].
  - apply (inv_values _ _ Hi).
  - cbn. rewrite length_insert. apply (inv_states _ _ Hi).
  - apply (inv_size _ _ Hi).
  - intros j k' v' Ho. apply occupied_erase_slot in Ho as [Hji Ho]; [|done..].
    apply (inv_probe _ _ Hi) in Ho. rewrite find_slot_nonempty in * by done.
    change (bucket_count m') with (bucket_count m).
    apply (probe_loop_frame _ m _ _ _ _ i); auto; rewrite ?Hs2; try lia; [|apply Z.land_nonneg; lia].
    intros x Hx Hx0. split; [by apply erase_slot_other|done].
  - assert (forall j k' v', occupied m' j k' v' <-> j <> i /\ occupied m j k' v') as Hocc.
    { intros j k' v'. by apply occupied_erase_slot. }
    intros k' v'. setoid_rewrite Hocc.
    rewrite lookup_delete_Some, Hg. split.
    + intros [Hk [j Ho]]. exists j. split; [|done]. intros ->.
      destruct Ho as (_ & _ & Hk' & _), Ho0 as (_ & _ & Hk0 & _). congruence.
    + intros (j & Hji & Ho). split; [|eauto]. intros ->.
      by destruct (occupied_unique m i j k' v v' Hi Ho0 Ho).
  - cbn [count_ m']. rewrite Hc. rewrite map_size_delete, Hpres.
    pose proof (map_size_ne_0_lookup_2 g key). rewrite Hpres in *. 
    assert (size g <> 0%nat) by eauto. lia.
Qed.

Lemma erase_refines m g k : represents m g -> represents (erase hasher m k) (delete k g).
Proof.
  intros Hr. pose proof Hr as (Hi & Hg & Hc). unfold erase.
  pose proof (find_refines m g k Hr) as Hf. unfold find in Hf.
  destruct (exhausted _ || _ || _) eqn:E.
  - by rewrite delete_id.
  - apply orb_false_iff in E as [E Hs]. apply orb_false_iff in E as [Hx Hn]. bool_prop.
    destruct (g !! k) as [v|] eqn:Ek; [|].
    + apply Hg in Ek as [i Ho]. pose proof (inv_probe _ _ Hi _ _ _ Ho) as Hp. rewrite Hp in *.
      by eapply erase_slot_represents.
    + exfalso. apply state_at_one in Hs. apply lookup_ge_None in Hf. apply lookup_lt_Some in Hs.
      rewrite (inv_values _ _ Hi), <-(inv_states _ _ Hi) in Hf. lia.
Qed.

(** ** The entries of a table *)

Lemma elem_of_live_entries (ks : list Key) (vs : list Value) ss k v :
  (k, v) ∈ live_entries ks vs ss <->
  exists n : nat, ks !! n = Some k /\ vs !! n = Some v /\ ss !! n = Some 1.
Proof.
  revert vs ss. induction ks as [|k0 ks IH]; intros [|v0 vs] [|s ss]; cbn [live_entries];
    try (split; [by intros ?%not_elem_of_nil|intros ([] & ? & ? & ?); done]).
  split.
  - destruct (s =? 1) eqn:E; [rewrite elem_of_cons; intros [[= -> ->]|Hin]|intros Hin].
    + bool_prop. subst. by exists 0%nat.
    + apply IH in Hin as (n & ?). by exists (S n).
    + apply IH in Hin as (n & ?). by exists (S n).
  - intros ([|n] & Hk & Hv & Hs); simplify_eq/=.
    + by apply elem_of_cons; left.
    + assert ((k, v) ∈ live_entries ks vs ss) by (apply IH; eauto).
      destruct (s =? 1); [by apply elem_of_cons; right|done].
Qed.

Lemma NoDup_live_entries (ks : list Key) (vs : list Value) ss :
  (forall (i j : nat) k, ks !! i = Some k -> ss !! i = Some 1 -> ks !! j = Some k -> ss !! j = Some 1 -> i = j) ->
  NoDup (live_entries ks vs ss).*1.
Proof.
  revert vs ss. induction ks as [|k0 ks IH]; intros [|v0 vs] [|s ss] Hinj; cbn [live_entries];
    try apply NoDup_nil_2.
  assert (NoDup (live_entries ks vs ss).*1) as Hnd.
  { apply IH. intros i j k ? ? ? ?. assert (S i = S j) as [=] by (by apply (Hinj _ _ k)). done. }
  destruct (Z.eqb_spec s 1) as [->|]; [|done]. apply NoDup_cons_2; [|done].
  intros ([k v] & Hk0 & Hin)%list_elem_of_fmap. cbn in Hk0. subst. apply elem_of_live_entries in Hin as (n & Hk & _ & Hs).
  by specialize (Hinj 0%nat (S n) _ eq_refl eq_refl Hk Hs).
Qed.

Abbreviation entries m := (live_entries (keys_ m) (values_ m) (states_ m)).

Lemma elem_of_entries m k v : (k, v) ∈ entries m <-> exists i, occupied m i k v.
Proof.
  rewrite elem_of_live_entries. split.
  - intros (n & ? & ? & ?). exists (Z.of_nat n). unfold occupied. rewrite Nat2Z.id. auto with lia.
  - intros (i & _ & ? & ? & ?). eauto.
Qed.

Lemma NoDup_entries m : table_inv hasher m -> NoDup (entries m).*1.
Proof.
  intros Hi. apply NoDup_live_entries. intros i j k Hki Hsi Hkj Hsj.
  assert (forall n : nat, keys_ m !! n = Some k -> states_ m !! n = Some 1 ->
    exists v, occupied m (Z.of_nat n) k v) as Hocc.
  { intros n Hk Hs. destruct (lookup_lt_is_Some_2 (values_ m) n) as [v Hv].
    { rewrite (inv_values _ _ Hi). by eapply lookup_lt_Some. }
    exists v. unfold occupied. rewrite Nat2Z.id. auto with lia. }
  destruct (Hocc i Hki Hsi) as [v Ho], (Hocc j Hkj Hsj) as [v' Ho'].
  apply (inv_probe _ _ Hi) in Ho, Ho'. rewrite Ho in Ho'. injection Ho'. lia.
Qed.

(** The live slots enumerate the map, each entry once. *)
Lemma entries_map_to_list m g : represents m g -> entries m ≡ₚ map_to_list g.
Proof.
  intros (Hi & Hg & _). apply NoDup_Permutation.
  - by eapply NoDup_fmap_1, NoDup_entries.
  - apply NoDup_map_to_list.
  - intros [k v]. by rewrite elem_of_entries, elem_of_map_to_list, Hg.
Qed.

Lemma length_live_entries (ks : list Key) (vs : list Value) ss :
  (length (live_entries ks vs ss) <= length ks)%nat.
Proof.
  revert vs ss. induction ks as [|k ks IH]; intros [|v vs] [|s ss]; simpl; try lia.
  specialize (IH vs ss). destruct (s =? 1); simpl; lia.
Qed.

Lemma size_le_buckets m g : represents m g -> Z.of_nat (size g) <= bucket_count m.
Proof.
  intros Hr. rewrite <-length_map_to_list, <-(entries_map_to_list m g Hr).
  unfold bucket_count, zlen. pose proof (length_live_entries (keys_ m) (values_ m) (states_ m)). lia.
Qed.

Lemma occupied_fresh n i k v : ~ occupied (fresh_table n : Map) i k v.
Proof. by intros (_ & [? _]%lookup_replicate & _). Qed.

Lemma fresh_represents p : 0 <= p <= 62 -> represents (fresh_table (2 ^ p)) ∅.
Proof.
  intros Hp. assert (0 < 2 ^ p) by (apply Z.pow_pos_nonneg; lia). split; [split|split].
  - cbn. by rewrite !length_replicate.
  - cbn. by rewrite !length_replicate.
  - right. exists p. unfold bucket_count, zlen. cbn [fresh_table keys_]. rewrite length_replicate. lia.
  - by intros i k v ?%occupied_fresh.
  - intros k v. rewrite lookup_empty. split; [done|]. by intros [i ?%occupied_fresh].
  - by rewrite map_size_empty.
Qed.

(** ** Rebuilding *)

Definition no_tombstones m : Prop := Forall (fun s => s = 0 \/ s = 1) (states_ m).

Lemma PlaceWithoutGrowth_represents m g k v :
  represents m g -> keys_ m <> [] ->
  match PlaceWithoutGrowth hasher m k v with
  | Ok m' => represents m' (<[k:=v]> g) /\ bucket_count m' = bucket_count m /\
             (no_tombstones m -> no_tombstones m')
  | Reject => exhausted (find_slot hasher m k) = true
  | Fault => False
  end.
Proof.
  intros Hr Hne. unfold PlaceWithoutGrowth.
  destruct (find_slot hasher m k) as [i [|]] eqn:Hp; cbn [exhausted index]; [done|].
  destruct (find_slot_cases m g k i Hr Hne Hp) as [Hb Hc].
  rewrite (proj2 (Z.ltb_lt i _)) by lia. cbn [andb].
  destruct Hc as [(Hs & v0 & Ho & _)|(Hs & Habs)]; rewrite Hs; cbn [Z.eqb].
  - split; [by eapply set_value_represents|]. split; [|auto]. done.
  - split; [by apply fill_slot_represents|]. split; [apply zlen_insert|].
    intros Hf. apply Forall_insert; auto.
Qed.

Definition insert_all (es : list (Key * Value)) g : gmap Key Value :=
  fold_left (fun g e => <[e.1:=e.2]> g) es g.

Lemma bucket_count_nonempty m : 0 < bucket_count m -> keys_ m <> [].
Proof. unfold bucket_count, zlen. intros Hb He. rewrite He in Hb. simpl in Hb. lia. Qed.

Lemma place_all_represents es m g :
  represents m g -> 0 < bucket_count m ->
  safe (place_all hasher m es)
    (fun m' => represents m' (insert_all es g) /\ bucket_count m' = bucket_count m /\
               (no_tombstones m -> no_tombstones m')).
Proof.
  revert m g. induction es as [|[k v] es IH]; intros m g Hr Hb; [by cbn|].
  cbn [place_all]. pose proof (PlaceWithoutGrowth_represents m g k v Hr) as Hp.
  destruct (PlaceWithoutGrowth hasher m k v) as [m1| |]; cbn [bind safe]; [|done|].
  - destruct Hp as (Hr1 & Hb1 & Hf1); [by apply bucket_count_nonempty|].
    specialize (IH m1 _ Hr1 ltac:(lia)). destruct (place_all hasher m1 es); cbn in *; [|done..].
    destruct IH as (? & ? & ?). split; [done|]. split; [lia|auto].
  - apply Hp. by apply bucket_count_nonempty.
Qed.

Lemma lookup_insert_all es g k v :
  NoDup es.*1 ->
  (insert_all es g !! k = Some v <-> (k, v) ∈ es \/ (k ∉ es.*1 /\ g !! k = Some v)).
Proof.
  revert g. induction es as [|[k0 v0] es IH]; intros g Hnd; cbn [insert_all fold_left fmap list_fmap].
  - set_solver.
  - apply NoDup_cons in Hnd as [Hnin Hnd]. fold (insert_all es (<[k0:=v0]> g)).
    rewrite IH by done. cbn. rewrite elem_of_cons, elem_of_cons.
    destruct (decide (k = k0)) as [->|Hne].
    + rewrite lookup_insert_eq. split.
      * intros [Hin|[_ [= ->]]]; [|auto]. destruct Hnin. by apply (list_elem_of_fmap_2 fst) in Hin.
      * intros [[[= ->]|Hin]|[[] _]]; [right; done|by left|by left].
    + rewrite lookup_insert_ne by done. naive_solver.
Qed.

Lemma insert_all_entries m g : represents m g -> insert_all (entries m) ∅ = g.
Proof.
  intros (Hi & Hg & _). apply map_eq. intros k. apply option_eq. intros v.
  rewrite lookup_insert_all, elem_of_entries, Hg by by apply NoDup_entries.
  rewrite lookup_empty. naive_solver.
Qed.

(** What a rebuild that returns has done. *)
Definition rebuilt (m' : Map) (g : gmap Key Value) (buckets : Z) : Prop :=
  represents m' g /\ buckets <= bucket_count m' /\ no_tombstones m'.

Lemma pow2_double p : 0 <= p <= 62 -> mul64 (2 ^ p) 2 = 2 ^ (p + 1).
Proof.
  intros Hp. unfold mul64. assert (2 ^ (p + 1) <= 2 ^ 63) by (apply Z.pow_le_mono_r; lia).
  rewrite Z.pow_add_r in * by lia. assert (0 < 2 ^ p) by (apply Z.pow_pos_nonneg; lia).
  apply wrap64_small. unfold SIZE_MAX. lia.
Qed.

Lemma PTRDIFF_MAX_pow2 p : 0 <= p -> 2 ^ p <= PTRDIFF_MAX -> p <= 62.
Proof.
  intros Hp Hle. destruct (decide (p <= 62)); [done|]. exfalso.
  assert (2 ^ 63 <= 2 ^ p) by (apply Z.pow_le_mono_r; lia). unfold PTRDIFF_MAX in *. lia.
Qed.

Lemma fresh_bucket_count n : 0 <= n -> bucket_count (fresh_table n : Map) = n.
Proof. intros. unfold bucket_count, zlen. cbn. rewrite length_replicate. lia. Qed.

Lemma grow_loop_represents fuel m g p :
  represents m g -> 0 <= p <= 63 -> 63 - p < Z.of_nat fuel ->
  safe (grow_loop hasher fuel (entries m) (2 ^ p)) (fun m' => rebuilt m' g (2 ^ p)).
Proof.
  intros Hr. revert p. induction fuel as [|fuel IH]; intros p Hp Hf; [lia|]. cbn [grow_loop].
  apply safe_guard. intros Hle%Z.leb_le. apply PTRDIFF_MAX_pow2 in Hle; [|lia].
  assert (0 < 2 ^ p) by (apply Z.pow_pos_nonneg; lia).
  pose proof (place_all_represents (entries m) _ _ (fresh_represents p ltac:(lia))) as Hpl.
  rewrite fresh_bucket_count in Hpl by lia.
  destruct (place_all hasher (fresh_table (2 ^ p)) (entries m)) as [m'| |]; cbn [safe].
  - destruct Hpl as (Hr' & Hb & Hst); [lia|]. rewrite (insert_all_entries m g) in Hr' by done.
    split; [done|]. split; [lia|]. apply Hst. apply Forall_replicate. auto.
  - apply safe_guard. intros _. rewrite pow2_double by lia.
    eapply safe_mono; [apply IH; lia|]. intros m' (? & Hb & ?). split; [done|]. split; [|done].
    rewrite Z.pow_add_r in Hb by lia. lia.
  - destruct Hpl. lia.
Qed.

Lemma grow_represents m g p :
  represents m g -> 0 <= p <= 63 ->
  safe (grow hasher m (2 ^ p)) (fun m' => rebuilt m' g (2 ^ p)).
Proof. intros. apply grow_loop_represents; [done|done|lia]. Qed.

Lemma double_pow2 m :
  table_inv hasher m -> keys_ m <> [] ->
  exists q, 0 <= q <= 63 /\ mul64 (bucket_count m) 2 = 2 ^ q /\ 2 ^ q = 2 * bucket_count m.
Proof.
  intros Hi Hne. destruct (table_size_pow2 m Hi Hne) as (p & Hp & ->).
  exists (p + 1). rewrite pow2_double, Z.pow_add_r by lia. lia.
Qed.

Lemma EnsureInsertCapacity_represents m g :
  represents m g ->
  safe (EnsureInsertCapacity hasher m)
    (fun m' => represents m' g /\ 0 < bucket_count m' /\ Z.of_nat (size g) < bucket_count m').
Proof.
  intros Hr. pose proof Hr as (Hi & Hg & Hc). unfold EnsureInsertCapacity.
  destruct (decide (keys_ m = [])) as [He|Hne]; [rewrite bool_decide_true|rewrite bool_decide_false]; try done.
  - eapply safe_mono; [apply (grow_represents m g 3 Hr); lia|]. intros m' (? & Hb & _).
    pose proof (size_le_buckets m g Hr) as Hsz. unfold bucket_count, zlen in Hsz.
    rewrite He in Hsz. simpl in Hsz. split; [done|lia].
  - pose proof (size_le_buckets m g Hr) as Hsz.
    destruct (table_size_pow2 m Hi Hne) as (p & Hp & Hbm).
    assert (0 < 2 ^ p <= 2 ^ 62) by (split; [apply Z.pow_pos_nonneg|apply Z.pow_le_mono_r]; lia).
    destruct (Z.leb_spec (mul64 (bucket_count m) 3 / 4) (count_ m)) as [Hge|Hlt].
    + destruct (double_pow2 m Hi Hne) as (q & Hq & -> & Hqb).
      eapply safe_mono; [by apply grow_represents|]. intros m' (? & Hb & _). split; [done|]. lia.
    + cbn. split; [done|]. unfold mul64 in Hlt. rewrite wrap64_small in Hlt by (unfold SIZE_MAX; lia).
      assert (bucket_count m * 3 / 4 <= bucket_count m) by (apply Z.div_le_upper_bound; lia). lia.
Qed.

Lemma FindInsertSlot_represents rounds m g key :
  represents m g ->
  safe (FindInsertSlot_loop hasher rounds m key)
    (fun '(m', probe) => represents m' g /\ 0 < bucket_count m' /\
                         probe = find_slot hasher m' key /\ exhausted probe = false).
Proof.
  revert m. induction rounds as [|rounds IH]; intros m Hr; cbn [FindInsertSlot_loop];
    (eapply safe_bind; [by apply EnsureInsertCapacity_represents|]);
    intros m1 (Hr1 & Hb1 & _); destruct (exhausted (find_slot hasher m1 key)) eqn:E; cbn [negb]; try by cbn.
  apply safe_guard. intros _. pose proof Hr1 as (Hi1 & _).
  destruct (double_pow2 m1 Hi1) as (q & Hq & -> & _); [by apply bucket_count_nonempty|].
  eapply safe_bind; [by apply grow_represents|]. intros m2 (Hr2 & _). by apply IH.
Qed.

(** [insert] neither faults nor runs out of fuel, and refines map insertion. *)
Lemma insert_represents m g key v :
  represents m g -> safe (insert hasher m key v) (fun m' => represents m' (<[key:=v]> g)).
Proof.
  intros Hr. unfold insert, FindInsertSlot.
  eapply safe_bind; [by apply FindInsertSlot_represents|].
  intros [m' probe] (Hr' & Hb' & -> & Hx). destruct (find_slot hasher m' key) as [i x] eqn:Hp.
  cbn in Hx. subst x. cbn [index].
  destruct (find_slot_cases m' g key i Hr' (bucket_count_nonempty _ Hb') Hp) as [Hb Hc].
  rewrite (proj2 (Z.ltb_lt i _)), (proj2 (Z.eqb_neq i _)) by lia. cbn [andb].
  destruct Hc as [(Hs & v0 & Ho & _)|(Hs & Habs)]; rewrite Hs; cbn [Z.eqb safe].
  - by eapply set_value_represents.
  - apply fill_slot_represents; [done|by apply bucket_count_nonempty|done..].
Qed.

(** ** Insertion succeeds on a table of fewer than 64 entries *)

Lemma probe_loop_exhausted_slots n m key p idx :
  0 <= p <= 62 -> 0 <= idx < 2 ^ p -> exhausted (probe_loop n m key (2 ^ p - 1) idx) = true ->
  forall d : nat, (d < n)%nat -> state_at m ((idx + Z.of_nat d) mod 2 ^ p) <> 0.
Proof.
  intros Hp. revert idx. induction n as [|n IH]; intros idx Hidx; cbn [probe_loop]; [lia|].
  destruct (Z.eqb_spec (state_at m idx) 0) as [|Hs]; [done|]. destruct (_ && _); [done|].
  assert (2 ^ p <= 2 ^ 62) by (apply Z.pow_le_mono_r; lia).
  rewrite add64_small, land_mask_pow2 by (unfold SIZE_MAX; lia). intros Hx [|d] Hd.
  - by rewrite Z.add_0_r, Z.mod_small by lia.
  - specialize (IH ((idx + 1) mod 2 ^ p) ltac:(apply Z.mod_pos_bound; lia) Hx d ltac:(lia)).
    rewrite Zplus_mod_idemp_l in IH. by replace (idx + Z.of_nat (S d)) with (idx + 1 + Z.of_nat d) by lia.
Qed.

(** Distinct probe steps inside one turn of the table visit distinct slots. *)
Lemma probe_slots_inj p idx (d e : Z) :
  0 <= p -> 0 <= d < 2 ^ p -> 0 <= e < 2 ^ p -> (idx + d) mod 2 ^ p = (idx + e) mod 2 ^ p -> d = e.
Proof.
  intros Hp Hd He Heq. assert (0 < 2 ^ p) by (apply Z.pow_pos_nonneg; lia).
  apply Z.cong_iff_0 in Heq. replace (idx + d - (idx + e)) with (d - e) in Heq by lia.
  apply Z.mod_divide in Heq as [c Hc]; [|lia]. enough (c = 0) by (subst; lia). generalize dependent (2 ^ p). intros N ? ? ? ?. nia.
Qed.

Lemma NoDup_keys_bound (l : list Key) g :
  NoDup l -> (forall k, k ∈ l -> is_Some (g !! k)) -> (length l <= size g)%nat.
Proof.
  intros Hnd Hin. rewrite <-size_dom, <-(size_list_to_set (C := gset Key)) by done.
  apply subseteq_size. intros k. rewrite elem_of_list_to_set, elem_of_dom. apply Hin.
Qed.

(** Without tombstones, an exhausted probe has met [min 64 buckets] keys. *)
Lemma exhausted_is_full m g key :
  represents m g -> 0 < bucket_count m -> no_tombstones m ->
  exhausted (find_slot hasher m key) = true -> Z.min 64 (bucket_count m) <= Z.of_nat (size g).
Proof.
  intros (Hi & Hg & _) Hb Hnt Hx. pose proof (bucket_count_nonempty m Hb) as Hne.
  destruct (table_size_pow2 m Hi Hne) as (p & Hp & Hbp). rewrite find_slot_nonempty, Hbp in Hx by done.
  assert (0 < 2 ^ p) by (apply Z.pow_pos_nonneg; lia).
  set (idx := Z.land (hasher key) (2 ^ p - 1)) in *.
  assert (0 <= idx < 2 ^ p) as Hidx.
  { unfold idx. rewrite land_mask_pow2 by lia. apply Z.mod_pos_bound. lia. }
  pose proof (probe_loop_exhausted_slots _ _ _ _ _ Hp Hidx Hx) as Hocc.
  set (slot := fun d : nat => (idx + Z.of_nat d) mod 2 ^ p).
  assert (forall d : nat, (d < 64)%nat -> exists v, occupied m (slot d) (key_at m (slot d)) v) as Hval.
  { intros d Hd. apply (occupied_intro m _ _ Hi); [apply Z.mod_pos_bound; lia| |done].
    specialize (Hocc d Hd). fold (slot d) in Hocc. unfold state_at in *. rewrite nth_lookup in *.
    destruct (states_ m !! Z.to_nat (slot d)) as [s|] eqn:E; [|done].
    by destruct (Forall_lookup_1 _ _ _ _ Hnt E). }
  pose proof (NoDup_keys_bound ((fun d => key_at m (slot d)) <$> seq 0 (Z.to_nat (Z.min 64 (2 ^ p)))) g) as Hcount.
  rewrite length_fmap, length_seq in Hcount. rewrite Hbp. enough (Z.to_nat (Z.min 64 (2 ^ p)) <= size g)%nat by lia.
  apply Hcount.
  - apply NoDup_fmap_2_strong; [|apply NoDup_seq]. intros d e Hd%elem_of_seq He%elem_of_seq Heq.
    destruct (Hval d ltac:(lia)) as [v Ho], (Hval e ltac:(lia)) as [v' Ho']. rewrite Heq in Ho.
    destruct (occupied_unique m _ _ _ _ _ Hi Ho Ho') as [Hs _].
    apply probe_slots_inj in Hs; lia.
  - intros k (d & -> & Hd%elem_of_seq)%list_elem_of_fmap.
    destruct (Hval d ltac:(lia)) as [v Ho]. exists v. apply Hg. eauto.
Qed.

Lemma size_insert_le g k v : (size (<[k:=v]> g) <= S (size g))%nat.
Proof. pose proof (size_insert_Z g k v). destruct (g !! k); lia. Qed.

Lemma place_all_total es m g :
  represents m g -> no_tombstones m ->
  Z.of_nat (size g) + zlen es <= Z.min 64 (bucket_count m) -> 0 < bucket_count m ->
  exists m', place_all hasher m es = Ok m'.
Proof.
  revert m g. induction es as [|[k v] es IH]; intros m g Hr Hnt Hlen Hb; cbn [place_all]; [eauto|].
  rewrite zlen_cons in Hlen. pose proof (zlen_nonneg es).
  pose proof (PlaceWithoutGrowth_represents m g k v Hr (bucket_count_nonempty m Hb)) as Hp.
  destruct (PlaceWithoutGrowth hasher m k v) as [m1| |]; cbn [bind]; [|exfalso|done].
  - destruct Hp as (Hr1 & Hb1 & Hf1). apply (IH m1 _ Hr1 (Hf1 Hnt)); [|lia].
    pose proof (size_insert_le g k v). lia.
  - apply (exhausted_is_full m g) in Hp; [lia|done..].
Qed.

Lemma zlen_entries m g : represents m g -> zlen (entries m) = Z.of_nat (size g).
Proof.
  intros Hr. unfold zlen. by rewrite (entries_map_to_list m g Hr), length_map_to_list.
Qed.

Lemma grow_total m g p :
  represents m g -> 0 <= p <= 62 -> Z.of_nat (size g) <= Z.min 64 (2 ^ p) ->
  exists m', grow hasher m (2 ^ p) = Ok m' /\ represents m' g /\ bucket_count m' = 2 ^ p /\ no_tombstones m'.
Proof.
  intros Hr Hp Hsz. assert (0 < 2 ^ p) by (apply Z.pow_pos_nonneg; lia).
  assert (2 ^ p <= 2 ^ 62) by (apply Z.pow_le_mono_r; lia).
  assert (no_tombstones (fresh_table (2 ^ p) : Map)) as Hnt by (apply Forall_replicate; auto).
  pose proof (fresh_bucket_count (2 ^ p) ltac:(lia)) as Hfb.
  destruct (place_all_total (entries m) (fresh_table (2 ^ p)) ∅) as [m' Hpl];
    [by apply fresh_represents|done|rewrite map_size_empty, (zlen_entries m g), Hfb by done; lia|lia|].
  pose proof (place_all_represents (entries m) _ _ (fresh_represents p Hp) ltac:(lia)) as Hs.
  rewrite Hpl, Hfb in Hs. cbn [safe] in Hs. destruct Hs as (Hr' & Hb & Hst).
  exists m'. unfold grow. cbn [grow_loop Nat.add]. rewrite (proj2 (Z.leb_le (2 ^ p) PTRDIFF_MAX)), Hpl.
  - rewrite (insert_all_entries m g) in Hr' by done. auto.
  - unfold PTRDIFF_MAX. lia.
Qed.

Lemma EnsureInsertCapacity_total m g :
  represents m g -> Z.of_nat (size g) < 64 -> bucket_count m <= 2 ^ 61 ->
  exists m', EnsureInsertCapacity hasher m = Ok m' /\ bucket_count m' <= Z.max 8 (2 * bucket_count m) /\
             (no_tombstones m -> no_tombstones m').
Proof.
  intros Hr Hsz Hb. pose proof Hr as (Hi & _ & Hc). unfold EnsureInsertCapacity.
  pose proof (size_le_buckets m g Hr) as Hle.
  destruct (decide (keys_ m = [])) as [He|Hne]; [rewrite bool_decide_true|rewrite bool_decide_false]; try done.
  - unfold bucket_count, zlen in Hle. rewrite He in Hle. simpl in Hle.
    destruct (grow_total m g 3 Hr ltac:(lia) ltac:(lia)) as (m' & Hgr & _ & Hb' & ?).
    exists m'. change (2 ^ 3) with 8 in *. split; [done|]. split; [lia|done].
  - destruct (_ <=? count_ m); [|exists m; split; [done|split; [lia|done]]].
    destruct (double_pow2 m Hi Hne) as (q & Hq & -> & Hqb).
    assert (q <= 62) by (destruct (decide (q = 63)) as [->|]; lia).
    destruct (grow_total m g q Hr ltac:(lia) ltac:(lia)) as (m' & Hgr & _ & Hb' & ?).
    exists m'. split; [done|]. split; [lia|done].
Qed.

Lemma FindInsertSlot_total m g key :
  represents m g -> Z.of_nat (size g) < 64 -> bucket_count m <= 2 ^ 59 ->
  exists r, FindInsertSlot hasher m key = Ok r.
Proof.
  intros Hr Hsz Hb. unfold FindInsertSlot. cbn [FindInsertSlot_loop].
  destruct (EnsureInsertCapacity_total m g Hr Hsz ltac:(lia)) as (m1 & He1 & Hb1 & _).
  pose proof (EnsureInsertCapacity_represents m g Hr) as Hs1. rewrite He1 in *. cbn [bind safe] in *.
  destruct Hs1 as (Hr1 & Hp1 & Hlt1). destruct (exhausted (find_slot hasher m1 key)); cbn [negb]; [|eauto].
  rewrite (proj2 (Z.ltb_ge _ _)) by (unfold SIZE_MAX; change (18446744073709551615 / 2) with 9223372036854775807; lia).
  cbn [guard negb]. pose proof Hr1 as (Hi1 & _).
  destruct (double_pow2 m1 Hi1 (bucket_count_nonempty _ Hp1)) as (q & Hq & -> & Hqb).
  assert (q <= 62) by (destruct (decide (q = 63)) as [->|]; lia).
  destruct (grow_total m1 g q Hr1 ltac:(lia) ltac:(lia)) as (m2 & -> & Hr2 & Hb2 & Hnt2). cbn [bind].
  destruct (EnsureInsertCapacity_total m2 g Hr2 Hsz ltac:(lia)) as (m3 & He3 & Hb3 & Hnt3).
  pose proof (EnsureInsertCapacity_represents m2 g Hr2) as Hs3. rewrite He3 in *. cbn [bind safe] in *.
  destruct Hs3 as (Hr3 & Hp3 & Hlt3). destruct (exhausted (find_slot hasher m3 key)) eqn:Hx; cbn [negb]; [|eauto].
  apply (exhausted_is_full m3 g) in Hx; [lia|auto..].
Qed.

Lemma insert_total m g key v :
  represents m g -> Z.of_nat (size g) < 64 -> bucket_count m <= 2 ^ 59 ->
  exists m', insert hasher m key v = Ok m'.
Proof.
  intros Hr Hsz Hb. unfold insert. destruct (FindInsertSlot_total m g key Hr Hsz Hb) as [[m' probe] ->].
  cbn [bind]. destruct (_ && _); [eauto|]. destruct (_ =? _); eauto.
Qed.

(** ** The remaining operations *)

Lemma subscript_represents m g key :
  represents m g ->
  safe (subscript hasher m key)
    (fun '(m', i) => represents m' (if g !! key then g else <[key:=inhabitant]> g) /\
                     exists v, occupied m' i key v).
Proof.
  intros Hr. unfold subscript, FindInsertSlot.
  eapply safe_bind; [by apply FindInsertSlot_represents|].
  intros [m' probe] (Hr' & Hb' & -> & Hx). destruct (find_slot hasher m' key) as [i x] eqn:Hp.
  cbn in Hx. subst x. cbn [index].
  destruct (find_slot_cases m' g key i Hr' (bucket_count_nonempty _ Hb') Hp) as [Hb Hc].
  rewrite (proj2 (Z.ltb_lt i _)), (proj2 (Z.eqb_neq i _)) by lia. cbn [andb].
  destruct Hc as [(Hs & v0 & Ho & ->)|(Hs & ->)]; rewrite Hs; cbn [Z.eqb safe]; [by split; eauto|].
  split; [apply fill_slot_represents; [done|by apply bucket_count_nonempty|done..]|].
  destruct Hr' as (Hi' & _). exists inhabitant. apply occupied_fill_slot; auto.
Qed.

Lemma clear_represents m : represents (clear m) ∅.
Proof.
  assert (forall i k v, ~ occupied (empty_map : Map) i k v) as Hno by (by intros i k v (_ & ? & _)).
  split; [split|split]; cbn; try done; auto.
  - by intros i k v ?%Hno.
  - intros k v. rewrite lookup_empty. split; [done|]. by intros [i ?%Hno].
Qed.

Lemma reserve_represents m g n :
  represents m g -> 0 <= n <= 2 ^ 62 ->
  safe (reserve hasher m n) (fun m' => represents m' g /\ n <= bucket_count m').
Proof.
  intros Hr Hn. unfold reserve. destruct (Z.ltb_spec (bucket_count m) n) as [Hlt|]; [|by cbn].
  unfold mul64. rewrite wrap64_small by (unfold SIZE_MAX; lia). rewrite pow2_ceil_log2_up by lia.
  assert (0 <= Z.log2_up (n * 2) <= 63) as Hl.
  { split; [apply Z.log2_up_nonneg|]. apply Z.log2_up_le_pow2; unfold bucket_count, zlen in *; lia. }
  eapply safe_mono; [by apply grow_represents|]. intros m' (? & Hb & _). split; [done|].
  pose proof (Z.log2_up_spec (n * 2)). unfold bucket_count, zlen in *. lia.
Qed.

Lemma occupied_RemapValues fn m i k v :
  table_inv hasher m ->
  (occupied (RemapValues fn m) i k v <-> exists v0, occupied m i k v0 /\ v = fn v0).
Proof.
  intros Hi. unfold occupied. cbn [RemapValues states_ keys_ values_]. rewrite lookup_zip_with.
  split.
  - intros (? & Hs & Hk & Hv). rewrite Hs in Hv. cbn in Hv.
    destruct (values_ m !! Z.to_nat i) as [v0|]; simplify_eq/=. eauto 10.
  - intros (v0 & (? & -> & Hk & ->) & ->). auto.
Qed.

Lemma RemapValues_represents fn m g : represents m g -> represents (RemapValues fn m) (fn <$> g).
Proof.
  intros (Hi & Hg & Hc). split; [split|split].
  - cbn. rewrite length_zip_with, (inv_states _ _ Hi), (inv_values _ _ Hi). lia.
  - apply (inv_states _ _ Hi).
  - apply (inv_size _ _ Hi).
  - intros i k v Ho. rewrite (find_slot_ext m) by done.
    apply occupied_RemapValues in Ho as (v0 & Ho & _); [|done]. by eapply inv_probe.
  - intros k v. rewrite lookup_fmap_Some. setoid_rewrite (fun i => occupied_RemapValues fn m i k v Hi).
    split.
    + intros (v0 & <- & [i Ho]%Hg). eauto.
    + intros (i & v0 & Ho & ->). exists v0. split; [done|]. apply Hg. eauto.
  - by rewrite map_size_fmap.
Qed.

(** ** Sequences of operations *)

Inductive op :=
| OpInsert (k : Key) (v : Value)
| OpAssign (k : Key) (v : Value)   (* map[k] = v *)
| OpErase (k : Key)
| OpClear
| OpReserve (n : Z)
| OpRemap (fn : Value -> Value).

Definition run_op m (o : op) : result Map :=
  match o with
  | OpInsert k v => insert hasher m k v
  | OpAssign k v => let* '(m', i) := subscript hasher m k in Ok (set_value m' i v)
  | OpErase k => Ok (erase hasher m k)
  | OpClear => Ok (clear m)
  | OpReserve n => reserve hasher m n
  | OpRemap fn => Ok (RemapValues fn m)
  end.

Fixpoint run m (os : list op) : result Map :=
  match os with
  | [] => Ok m
  | o :: os' => let* m' := run_op m o in run m' os'
  end.

Definition spec_op g (o : op) : gmap Key Value :=
  match o with
  | OpInsert k v | OpAssign k v => <[k:=v]> g
  | OpErase k => delete k g
  | OpClear => ∅
  | OpReserve _ => g
  | OpRemap fn => fn <$> g
  end.

Definition op_ok (o : op) : Prop := match o with OpReserve n => 0 <= n <= 2 ^ 62 | _ => True end.

Lemma run_op_refines m g o :
  represents m g -> op_ok o -> safe (run_op m o) (fun m' => represents m' (spec_op g o)).
Proof.
  intros Hr Hok. destruct o as [k v|k v|k| |n|fn]; cbn [run_op spec_op].
  - by apply insert_represents.
  - eapply safe_bind; [by apply subscript_represents|]. intros [m' i] (Hr' & v0 & Ho). cbn [safe].
    pose proof (set_value_represents m' _ k v v0 i Hr' Ho) as Hs.
    destruct (g !! k); [done|]. by rewrite insert_insert_eq in Hs.
  - by apply erase_refines.
  - apply clear_represents.
  - eapply safe_mono; [by apply reserve_represents|]. by intros m' [? _].
  - by apply RemapValues_represents.
Qed.

Lemma run_refines os m g :
  represents m g -> Forall op_ok os -> safe (run m os) (fun m' => represents m' (fold_left spec_op os g)).
Proof.
  intros Hr Hok. revert m g Hr. induction Hok as [|o os Ho _ IH]; intros m g Hr; cbn [run fold_left]; [done|].
  eapply safe_bind; [by apply run_op_refines|]. intros m' Hr'. by apply IH.
Qed.
End proofs.

Arguments op : clear implicits.

(** ** Properties of the table *)

Section properties.
Context {Key Value : Type} `{Countable Key, Inhabited Key, Inhabited Value}.
Variable hasher : Key -> Z.

(** C25. For every hash function and every sequence of insertions, subscript
    assignments, removals, clears, reservations (of at most 2^62 slots) and value
    remappings on a new table, the table refines the finite map obtained by the
    same operations: if none of them throws, [find] answers exactly as the map
    does, the element count is the size of the map, and a traversal visits each
    entry of the map exactly once; and no operation writes outside the arrays or
    loops beyond the doublings of the bucket count. *)
Theorem table_refines_map (os : list (op Key Value)) :
  Forall op_ok os ->
  let g := fold_left spec_op os (∅ : gmap Key Value) in
  run hasher empty_map os <> Fault /\
  forall m, run hasher empty_map os = Ok m ->
    (forall k, find hasher m k = g !! k) /\
    (forall k, contains hasher m k = bool_decide (is_Some (g !! k))) /\
    count_ m = Z.of_nat (size g) /\
    (forall A (fn : A -> Key -> Value -> A) (a : A), exists l,
       l ≡ₚ map_to_list g /\ ForEach fn m a = fold_left (fun acc e => fn acc e.1 e.2) l a).
Proof.
  intros Hok g. pose proof (run_refines hasher os _ _ (clear_represents hasher empty_map) Hok) as Hs.
  change (clear empty_map) with (empty_map : FlatHashMap Key Value) in Hs. fold g in Hs. split.
  { by eapply safe_no_fault. }
  intros m Hm. rewrite Hm in Hs. cbn [safe] in Hs. split; [|split; [|split]].
  - intros k. by apply find_refines.
  - intros k. unfold contains. rewrite (find_refines hasher m g) by done.
    destruct (g !! k); [by rewrite bool_decide_true|].
    rewrite bool_decide_false; [done|]. by intros [? ?].
  - by destruct Hs as (_ & _ & ->).
  - intros A fn a. eexists. split; [by apply (entries_map_to_list hasher)|done].
Qed.

(** Insertion does not throw while the table holds fewer than 64 entries,
    whatever the hash function does and whatever tombstones earlier removals
    left behind: it ends with the key bound to the value and every other key as
    before. *)
Theorem insert_succeeds_below_64 (os : list (op Key Value)) m k v :
  Forall op_ok os -> run hasher empty_map os = Ok m -> count_ m < 64 -> bucket_count m <= 2 ^ 59 ->
  exists m', insert hasher m k v = Ok m' /\ find hasher m' k = Some v /\
             forall k', k' <> k -> find hasher m' k' = find hasher m k'.
Proof.
  intros Hok Hm Hc Hb. pose proof (run_refines hasher os _ _ (clear_represents hasher empty_map) Hok) as Hs.
  change (clear empty_map) with (empty_map : FlatHashMap Key Value) in Hs. rewrite Hm in Hs. cbn [safe] in Hs.
  pose proof Hs as (_ & _ & Hsz). destruct (insert_total hasher m _ k v Hs) as [m' Hm']; [lia|done|].
  pose proof (insert_represents hasher m _ k v Hs) as Hr'. rewrite Hm' in Hr'. cbn [safe] in Hr'.
  exists m'. split; [done|]. rewrite (find_refines hasher m' _ k Hr'), lookup_insert_eq. split; [done|].
  intros k' Hne. by rewrite (find_refines hasher m' _ _ Hr'), (find_refines hasher m _ _ Hs), lookup_insert_ne.
Qed.
End properties.

Definition witness_ops : list (op Z Z) :=
  [OpInsert 1 10; OpInsert 2 20; OpErase 1; OpAssign 3 30; OpInsert 2 21; OpReserve 10; OpRemap (Z.add 1)].

Lemma table_refines_map_witness :
  run (fun _ => 0) empty_map witness_ops <> Fault.
Proof.
  refine (proj1 (table_refines_map (fun _ => 0) witness_ops _)).
  repeat (apply Forall_cons; split; [cbn; lia|]); by apply Forall_nil.
Defined.

Lemma insert_succeeds_below_64_witness :
  exists m m', run (fun _ => 0) empty_map witness_ops = Ok m /\ insert (fun _ => 0) m 7 70 = Ok m' /\
            find (fun _ => 0) m' 7 = Some 70.
Proof.
  destruct (run (fun _ => 0) empty_map witness_ops) as [m| |] eqn:E; [|vm_compute in E; discriminate..].
  exists m. destruct (insert_succeeds_below_64 (fun _ => 0) witness_ops m 7 70) as (m' & Hi & Hf & _).
  - repeat (apply Forall_cons; split; [cbn; lia|]); by apply Forall_nil.
  - exact E.
  - vm_compute in E. injection E as <-. reflexivity.
  - vm_compute in E. injection E as <-. vm_compute. discriminate.
  - exists m'. auto.
Defined.

(** [pow2_ceil] returns the least power of two that is at least its
    argument, for every argument up to 2^63. *)
Theorem pow2_ceil_least n :
  1 <= n <= 2 ^ 63 ->
  exists p, 0 <= p /\ pow2_ceil n = 2 ^ p /\ n <= pow2_ceil n /\
            forall q, 0 <= q -> n <= 2 ^ q -> pow2_ceil n <= 2 ^ q.
Proof.
  intros Hn. exists (Z.log2_up n). rewrite pow2_ceil_log2_up by lia.
  split; [apply Z.log2_up_nonneg|]. split; [done|]. split.
  - destruct (decide (n = 1)) as [->|]; [done|]. apply Z.log2_up_spec. lia.
  - intros q Hq Hle. apply Z.pow_le_mono_r; [lia|]. apply Z.log2_up_le_pow2; lia.
Qed.

Lemma pow2_ceil_least_witness : exists p, 0 <= p /\ pow2_ceil 100 = 2 ^ p.
Proof.
  destruct (pow2_ceil_least 100) as (p & Hp & He & _); [lia|]. by exists p.
Defined.
