(* ===== verification/NamePool.v ===== *)
(** * The interned-name pool

    [src/indexstore/include/ffindexstore/NamePool.h] and
    [src/indexstore/src/NamePool.cpp]: one UTF-16 arena, a table of offsets and
    lengths, and hash buckets of candidate ids that are compared against the
    arena.  The pool refines a duplicate-free list of names whose positions are
    the ids: [pool_rep]. *)

From stdpp Require Import gmap.
From S2P Require Import Prelude.

Record Slot := mkSlot { offset : Z; length_ : Z }.

Record NamePool := mkNamePool {
  arena_ : list Z;
  table_ : list Slot;
  hashBuckets_ : gmap Z (list Z)
}.

Definition empty_pool : NamePool := mkNamePool [] [] ∅.

(** FNV-1a over the code units. *)
Definition HashName (name : list Z) : Z :=
  fold_left (fun hash ch => mul64 (Z.lxor hash ch) 1099511628211) name 1469598103934665603.

(** [std::u16string_view(arena_.data() + slot.offset, slot.length)]. *)
Definition slot_view (p : NamePool) (s : Slot) : result (list Z) :=
  load (arena_ p) (offset s) (Z.to_nat (length_ s)).

(** The loop over a bucket: [Ok None] when no candidate has this name. *)
Fixpoint FindCandidate (p : NamePool) (bucket : list Z) (name : list Z) : result (option Z) :=
  match bucket with
  | [] => Ok None
  | candidateId :: rest =>
      match table_ p !! Z.to_nat candidateId with
      | None => Fault
      | Some slot =>
          if length_ slot =? zlen name then
            let* text := slot_view p slot in
            if bool_decide (text = name) then Ok (Some candidateId) else FindCandidate p rest name
          else FindCandidate p rest name
      end
  end.

Definition Intern (p : NamePool) (name : list Z) : result (NamePool * Z) :=
  let hash := HashName name in
  let bucket := default [] (hashBuckets_ p !! hash) in
  let* found := FindCandidate p bucket name in
  match found with
  | Some id => Ok (p, id)
  | None =>
      let newId := wrap32 (zlen (table_ p)) in
      let slot := mkSlot (wrap32 (zlen (arena_ p))) (wrap32 (zlen name)) in
      Ok (mkNamePool (arena_ p ++ name) (table_ p ++ [slot])
            (<[hash := bucket ++ [newId]]> (hashBuckets_ p)), newId)
  end.

Definition Get (p : NamePool) (id : Z) : result (list Z) :=
  if zlen (table_ p) <=? id then Ok []
  else match table_ p !! Z.to_nat id with
       | None => Fault
       | Some slot => slot_view p slot
       end.

(** ** The abstract pool *)

(** The names in order of insertion. *)
Definition pool_text (names : list (list Z)) : list Z := mjoin names.

Definition slot_names (txt : list Z) (s : Slot) (name : list Z) : Prop :=
  length_ s = zlen name /\ 0 <= offset s /\ offset s + zlen name <= zlen txt /\
  slice txt (offset s) (length name) = name.

(** Every bucket lists exactly the ids whose names have its hash. *)
Definition bucket_ok (names : list (list Z)) (hash : Z) (ids : list Z) : Prop :=
  forall id, id ∈ ids <-> 0 <= id /\ exists name, names !! Z.to_nat id = Some name /\ HashName name = hash.

Record pool_rep (p : NamePool) (names : list (list Z)) : Prop := {
  rep_arena : arena_ p = pool_text names;
  rep_table : Forall2 (slot_names (pool_text names)) (table_ p) names;
  rep_buckets : forall hash, bucket_ok names hash (default [] (hashBuckets_ p !! hash));
  rep_nodup : NoDup names;
  rep_chars : zlen (pool_text names) <= UINT32_MAX;
  rep_count : zlen names <= UINT32_MAX
}.

Lemma pool_text_snoc names name : pool_text (names ++ [name]) = pool_text names ++ name.
Proof. unfold pool_text. rewrite join_app. cbn. by rewrite app_nil_r. Qed.

Lemma slot_view_spec p names id s name :
  pool_rep p names -> table_ p !! id = Some s -> names !! id = Some name -> slot_view p s = Ok name.
Proof.
  intros Hp Hs Hn. pose proof (Forall2_lookup_lr _ _ _ _ _ _ (rep_table _ _ Hp) Hs Hn) as (Hl & Ho & Hle & Hsl).
  unfold slot_view. rewrite (rep_arena _ _ Hp), Hl, zlen_to_nat, load_Ok by (unfold zlen in *; lia). by rewrite Hsl.
Qed.

Lemma table_lookup p names (id : nat) name :
  pool_rep p names -> names !! id = Some name -> exists s, table_ p !! id = Some s.
Proof. intros Hp Hn. destruct (Forall2_lookup_r _ _ _ _ _ (rep_table _ _ Hp) Hn) as (s & ? & _). eauto. Qed.

(** The bucket scan returns the id of [name] when the bucket lists it. *)
Lemma FindCandidate_spec p names name ids :
  pool_rep p names ->
  (forall id, id ∈ ids -> 0 <= id /\ is_Some (names !! Z.to_nat id)) ->
  match FindCandidate p ids name with
  | Ok (Some id) => id ∈ ids /\ names !! Z.to_nat id = Some name
  | Ok None => forall id, id ∈ ids -> names !! Z.to_nat id <> Some name
  | _ => False
  end.
Proof.
  intros Hp. induction ids as [|id ids IH]; intros Hids; cbn [FindCandidate]; [by intros id ?%not_elem_of_nil|].
  destruct (Hids id) as [Hid [nm Hnm]]; [by apply elem_of_cons; left|].
  destruct (table_lookup p names _ nm Hp Hnm) as [s Hs]. rewrite Hs.
  pose proof (slot_view_spec p names _ s nm Hp Hs Hnm) as Hv.
  pose proof (Forall2_lookup_lr _ _ _ _ _ _ (rep_table _ _ Hp) Hs Hnm) as (Hl & _).
  specialize (IH ltac:(intros j Hj; apply Hids, elem_of_cons; by right)).
  assert (nm <> name -> match FindCandidate p ids name with
    | Ok (Some i) => i ∈ id :: ids /\ names !! Z.to_nat i = Some name
    | Ok None => forall i, i ∈ id :: ids -> names !! Z.to_nat i <> Some name | _ => False end) as Hskip.
  { intros Hne. destruct (FindCandidate p ids name) as [[i|]| |]; [| |done|done].
    - rewrite elem_of_cons. naive_solver.
    - intros i [->|Hi]%elem_of_cons; [congruence|by apply IH]. }
  rewrite Hl. destruct (Z.eqb_spec (zlen nm) (zlen name)) as [He|Hne]; [|apply Hskip; congruence].
  rewrite Hv. cbn [bind]. destruct (decide (nm = name)) as [->|Hne].
  - rewrite bool_decide_true by done. split; [by apply elem_of_cons; left|done].
  - rewrite bool_decide_false by done. by apply Hskip.
Qed.

Lemma slot_names_app txt tl s name : slot_names txt s name -> slot_names (txt ++ tl) s name.
Proof.
  intros (Hl & Ho & Hle & Hs). split; [done|]. split; [done|]. rewrite zlen_app. pose proof (zlen_nonneg tl).
  split; [lia|]. rewrite <-Hs at 2. unfold slice, zlen in *. rewrite drop_app_le, take_app_le; [done|..];
    rewrite ?length_drop; lia.
Qed.

Lemma bucket_ok_snoc names name hash ids :
  bucket_ok names hash ids ->
  bucket_ok (names ++ [name]) hash (if decide (hash = HashName name) then ids ++ [zlen names] else ids).
Proof.
  intros Hb id. assert (0 <= id -> forall nm, (names ++ [name]) !! Z.to_nat id = Some nm <->
    names !! Z.to_nat id = Some nm \/ (id = zlen names /\ nm = name)) as Hlk.
  { intros Hid nm. rewrite lookup_app_Some, list_lookup_singleton_Some. unfold zlen.
    split; [naive_solver lia|]. intros [H|[-> ->]]; [by left|right; rewrite Nat2Z.id, Nat.sub_diag; auto]. }
  pose proof (zlen_nonneg names). split.
  - intros Hin. assert (id ∈ ids \/ (id = zlen names /\ hash = HashName name)) as [Hi|[-> ->]].
    { destruct (decide _) as [->|]; [|by left]. rewrite elem_of_app, list_elem_of_singleton in Hin. naive_solver. }
    + apply Hb in Hi as [Hid (nm & Hnm & Hh)]. split; [done|]. exists nm. rewrite Hlk by done. auto.
    + split; [done|]. exists name. rewrite Hlk by done. auto.
  - intros [Hid (nm & Hnm & Hh)]. apply Hlk in Hnm; [|done]. destruct Hnm as [Hnm|[-> ->]].
    + assert (id ∈ ids) by (apply Hb; eauto). destruct (decide _); [rewrite elem_of_app; auto|done].
    + rewrite decide_True by done. rewrite elem_of_app, list_elem_of_singleton. auto.
Qed.

(** The candidates of a name are exactly its own id, if it is interned. *)
Lemma FindCandidate_bucket p names name :
  pool_rep p names ->
  exists found, FindCandidate p (default [] (hashBuckets_ p !! HashName name)) name = Ok found /\
    match found with
    | Some id => 0 <= id /\ names !! Z.to_nat id = Some name
    | None => name ∉ names
    end.
Proof.
  intros Hp. set (ids := default [] _).
  pose proof (rep_buckets _ _ Hp (HashName name)) as Hb. fold ids in Hb.
  pose proof (FindCandidate_spec p names name ids Hp) as Hf.
  assert (forall id, id ∈ ids -> 0 <= id /\ is_Some (names !! Z.to_nat id)) as Hids.
  { intros id (? & nm & ? & _)%Hb. eauto. }
  specialize (Hf Hids).
  destruct (FindCandidate p ids name) as [found| |]; [|done|done]. exists found. split; [done|].
  destruct found as [id|].
  - destruct Hf as [Hin Hn]. apply Hb in Hin as [? _]. auto.
  - intros [i Hi]%list_elem_of_lookup_1. apply (Hf (Z.of_nat i)); [|by rewrite Nat2Z.id].
    apply Hb. split; [lia|]. exists name. by rewrite Nat2Z.id.
Qed.

(** Interning a name that is already there changes nothing. *)
Lemma Intern_known p names name :
  pool_rep p names -> name ∈ names ->
  exists id, Intern p name = Ok (p, id) /\ 0 <= id /\ names !! Z.to_nat id = Some name.
Proof.
  intros Hp Hin. unfold Intern. destruct (FindCandidate_bucket p names name Hp) as ([id|] & -> & Hf); [|done].
  exists id. cbn. destruct Hf. auto.
Qed.

(** Interning refines insertion into the list of names. *)
Lemma Intern_spec p names name :
  pool_rep p names -> zlen (pool_text names) + zlen name <= UINT32_MAX -> zlen names < UINT32_MAX ->
  exists p' id, Intern p name = Ok (p', id) /\ 0 <= id /\
    pool_rep p' (if decide (name ∈ names) then names else names ++ [name]) /\
    (if decide (name ∈ names) then names else names ++ [name]) !! Z.to_nat id = Some name.
Proof.
  intros Hp Hch Hcnt. destruct (decide (name ∈ names)) as [Hin|Hnin].
  - destruct (Intern_known p names name Hp Hin) as (id & ? & ? & ?). exists p, id. auto.
  - unfold Intern. set (ids := default [] _). destruct (FindCandidate_bucket p names name Hp) as (found & Hfc & Hf). fold ids in Hfc. rewrite Hfc.
    cbn [bind]. destruct found as [id|]; [destruct Hf as [_ Hf]; apply list_elem_of_lookup_2 in Hf; done|].
    eexists _, _. split; [done|].
    pose proof (zlen_nonneg (pool_text names)). pose proof (zlen_nonneg name). pose proof (zlen_nonneg names).
    assert (zlen (table_ p) = zlen names) as Ht
      by (unfold zlen; by rewrite (Forall2_length _ _ _ (rep_table _ _ Hp))).
    rewrite (rep_arena _ _ Hp), Ht. unfold wrap32, UINT32_MAX in *. rewrite !Z.mod_small by lia.
    split; [done|]. split; [|rewrite zlen_to_nat; by rewrite lookup_app_r, Nat.sub_diag by done].
    constructor; cbn [arena_ table_ hashBuckets_].
    + by rewrite pool_text_snoc.
    + rewrite pool_text_snoc. apply Forall2_app.
      * eapply Forall2_impl; [apply (rep_table _ _ Hp)|]. intros. by apply slot_names_app.
      * constructor; [|constructor]. split; [done|]. cbn [offset]. rewrite zlen_app.
        split; [done|]. split; [lia|]. by rewrite slice_app_r, firstn_all.
    + intros hash. pose proof (bucket_ok_snoc names name hash _ (rep_buckets _ _ Hp hash)) as Hs.
      destruct (decide (hash = HashName name)) as [->|Hne].
      * rewrite lookup_insert_eq. done.
      * by rewrite lookup_insert_ne.
    + apply NoDup_app. split; [apply (rep_nodup _ _ Hp)|]. split; [|apply NoDup_singleton].
      intros x Hx ->%list_elem_of_singleton. done.
    + rewrite pool_text_snoc, zlen_app. unfold UINT32_MAX. lia.
    + rewrite zlen_app. unfold UINT32_MAX. change (zlen [name]) with 1. lia.
Qed.

Lemma Get_spec p names id :
  pool_rep p names -> 0 <= id -> Get p id = Ok (default [] (names !! Z.to_nat id)).
Proof.
  intros Hp Hid. unfold Get.
  assert (zlen (table_ p) = zlen names) as -> by (unfold zlen; by rewrite (Forall2_length _ _ _ (rep_table _ _ Hp))).
  destruct (Z.leb_spec (zlen names) id) as [Hge|Hlt].
  - unfold zlen in Hge. rewrite lookup_ge_None_2 by lia. done.
  - destruct (lookup_lt_is_Some_2 names (Z.to_nat id)) as [name Hn]; [unfold zlen in Hlt; lia|].
    destruct (table_lookup p names _ name Hp Hn) as [s Hs]. rewrite Hs, Hn. cbn. by eapply slot_view_spec.
Qed.

(** ** Sequences of insertions *)

Fixpoint InternAll (p : NamePool) (ns : list (list Z)) : result (NamePool * list Z) :=
  match ns with
  | [] => Ok (p, [])
  | n :: rest =>
      let* '(p, id) := Intern p n in
      let* '(p, ids) := InternAll p rest in
      Ok (p, id :: ids)
  end.

Lemma InternAll_spec ns p names :
  pool_rep p names -> zlen (pool_text names) + zlen (pool_text ns) <= UINT32_MAX ->
  zlen names + zlen ns <= UINT32_MAX ->
  exists p' ids names', InternAll p ns = Ok (p', ids) /\ pool_rep p' names' /\ names `prefix_of` names' /\
    (forall n, n ∈ names' <-> n ∈ names \/ n ∈ ns) /\
    Forall2 (fun n id => 0 <= id /\ names' !! Z.to_nat id = Some n) ns ids.
Proof.
  revert p names. induction ns as [|n ns IH]; intros p names Hp Hch Hcnt; cbn [InternAll].
  { exists p, [], names. split; [done|]. split; [done|]. split; [done|]. split; [set_solver|constructor]. }
  change (pool_text (n :: ns)) with (n ++ pool_text ns) in Hch. rewrite zlen_app in Hch. rewrite zlen_cons in Hcnt.
  pose proof (zlen_nonneg (pool_text ns)). pose proof (zlen_nonneg ns). pose proof (zlen_nonneg n).
  destruct (Intern_spec p names n Hp) as (p1 & id & -> & Hid & Hp1 & Hlk); [lia|lia|]. cbn [bind].
  set (names1 := if decide (n ∈ names) then names else names ++ [n]) in *.
  assert (zlen (pool_text names1) <= zlen (pool_text names) + zlen n /\ zlen names1 <= zlen names + 1 /\
          names `prefix_of` names1 /\ forall x, x ∈ names1 <-> x ∈ names \/ x = n) as (Ht & Hc & Hpre & Hel).
  { unfold names1. destruct (decide (n ∈ names)).
    - split; [lia|]. split; [lia|]. split; [done|]. naive_solver.
    - rewrite pool_text_snoc, !zlen_app. change (zlen [n]) with 1. split; [lia|]. split; [lia|].
      split; [by apply prefix_app_r|]. intros x. by rewrite elem_of_app, list_elem_of_singleton. }
  destruct (IH p1 names1 Hp1) as (p2 & ids & names2 & -> & Hp2 & Hpre2 & Hel2 & Hall); [lia|lia|]. cbn [bind].
  exists p2, (id :: ids), names2. split; [done|]. split; [done|]. split; [by etrans|]. split.
  - intros x. rewrite Hel2, Hel, elem_of_cons. naive_solver.
  - constructor; [|done]. split; [done|]. by eapply prefix_lookup_Some.
Qed.

Lemma empty_pool_rep : pool_rep empty_pool [].
Proof.
  constructor; [done|constructor| |constructor|done|done].
  intros hash id. cbn. rewrite lookup_empty. cbn. split; [by intros ?%not_elem_of_nil|].
  by intros (_ & name & ? & _).
Qed.

(** Interning any sequence of names into an empty pool, as long as they are
    fewer than 2^32 names and code units, succeeds without reading outside the
    arena, and afterwards every id returned along the way yields its own name,
    two ids are equal exactly when their names are, and the pool stores each
    distinct name once. *)
Theorem intern_all_correct ns :
  zlen (pool_text ns) <= UINT32_MAX -> zlen ns <= UINT32_MAX ->
  exists p ids, InternAll empty_pool ns = Ok (p, ids) /\ length ids = length ns /\
    (forall i n id, ns !! i = Some n -> ids !! i = Some id -> Get p id = Ok n) /\
    (forall i j n n' id id', ns !! i = Some n -> ns !! j = Some n' -> ids !! i = Some id -> ids !! j = Some id' ->
       id = id' <-> n = n') /\
    (exists distinct, NoDup distinct /\ (forall n, n ∈ distinct <-> n ∈ ns) /\
       arena_ p = pool_text distinct /\ length (table_ p) = length distinct).
Proof.
  intros Hch Hcnt. destruct (InternAll_spec ns empty_pool [] empty_pool_rep)
    as (p & ids & names & Hi & Hp & _ & Hel & Hall); [done|done|].
  exists p, ids. split; [done|]. split; [by rewrite (Forall2_length _ _ _ Hall)|]. split; [|split].
  - intros i n id Hn Hid. destruct (Forall2_lookup_lr _ _ _ _ _ _ Hall Hn Hid) as [Hge Hlk].
    rewrite (Get_spec p names) by done. by rewrite Hlk.
  - intros i j n n' id id' Hn Hn' Hid Hid'.
    destruct (Forall2_lookup_lr _ _ _ _ _ _ Hall Hn Hid) as [Hge Hlk].
    destruct (Forall2_lookup_lr _ _ _ _ _ _ Hall Hn' Hid') as [Hge' Hlk'].
    split; [intros ->; congruence|]. intros ->.
    pose proof (NoDup_lookup _ _ _ _ (rep_nodup _ _ Hp) Hlk Hlk'). lia.
  - exists names. split; [apply (rep_nodup _ _ Hp)|]. split; [intros n; rewrite Hel; set_solver|].
    split; [apply (rep_arena _ _ Hp)|]. by rewrite (Forall2_length _ _ _ (rep_table _ _ Hp)).
Qed.

Lemma intern_all_correct_witness :
  exists p ids, InternAll empty_pool [[97; 98]; [99]; [97; 98]; []] = Ok (p, ids).
Proof.
  destruct (intern_all_correct [[97; 98]; [99]; [97; 98]; []]) as (p & ids & Hi & _); [by vm_compute..|].
  by exists p, ids.
Defined.

(** An id that the pool did not hand out yields the empty view, and a name
    already present is found again with its first id without changing the pool. *)
Theorem intern_idempotent ns n p ids :
  zlen (pool_text ns) <= UINT32_MAX -> zlen ns < UINT32_MAX -> InternAll empty_pool ns = Ok (p, ids) ->
  (forall id, zlen (table_ p) <= id -> Get p id = Ok []) /\
  (n ∈ ns -> zlen (pool_text ns) + zlen n <= UINT32_MAX ->
   exists id, Intern p n = Ok (p, id) /\ id ∈ ids /\ Get p id = Ok n).
Proof.
  intros Hch Hcnt Hi. destruct (InternAll_spec ns empty_pool [] empty_pool_rep)
    as (p' & ids' & names & Hi' & Hp & _ & Hel & Hall); [done|rewrite zlen_nil; lia|].
  rewrite Hi in Hi'. injection Hi' as <- <-. split.
  - intros id Hid. unfold Get. by rewrite (proj2 (Z.leb_le _ _)).
  - intros Hin Hn. assert (n ∈ names) as Hnn by (apply Hel; auto).
    unfold Intern. pose proof (rep_buckets _ _ Hp (HashName n)) as Hb.
    pose proof (FindCandidate_spec p names n _ Hp
      (fun id Hid => let '(conj a (ex_intro _ nm (conj b _))) := proj1 (Hb id) Hid in conj a (ex_intro _ nm b))) as Hf.
    destruct (FindCandidate p _ n) as [[id|]| |]; [| |done|done].
    + destruct Hf as [Hid Hlk]. apply Hb in Hid as [Hge _]. exists id. cbn [bind]. split; [done|].
      rewrite (Get_spec p names), Hlk by done. split; [|done].
      apply list_elem_of_lookup_1 in Hin as [i Hin]. destruct (Forall2_lookup_l _ _ _ _ _ Hall Hin) as (id' & Hid' & Hge' & Hlk').
      assert (id' = id) as <- by (pose proof (NoDup_lookup _ _ _ _ (rep_nodup _ _ Hp) Hlk Hlk'); lia).
      by eapply list_elem_of_lookup_2.
    + exfalso. apply list_elem_of_lookup_1 in Hnn as [i Hnn].
      apply (Hf (Z.of_nat i)); [|by rewrite Nat2Z.id]. apply Hb. split; [lia|]. exists n. by rewrite Nat2Z.id.
Qed.

Lemma intern_idempotent_witness :
  exists p ids id, InternAll empty_pool [[97]; [98]] = Ok (p, ids) /\ Intern p [98] = Ok (p, id).
Proof.
  destruct (InternAll empty_pool [[97]; [98]]) as [[p ids]| |] eqn:E; [|vm_compute in E; discriminate..].
  destruct (intern_idempotent [[97]; [98]] [98] p ids) as [_ Hr]; [by vm_compute..|exact E|].
  destruct Hr as (id & Hi & _); [set_solver|by vm_compute|]. by exists p, ids, id.
Defined.
