(* ===== verification/UsnParser.v ===== *)
(** * The USN journal record decoder

    [src/indexsvc/src/UsnRecordParser.cpp]: one untrusted USN_RECORD_V2 or
    USN_RECORD_V3.  The structures are declared by the Windows SDK, which is not
    part of the repository: their field offsets are a parameter [UsnLayout], and
    what the code relies on ([layout_ok]: the fields it copies lie inside the
    fixed prefix before the file name) is a hypothesis.  [ntfs_layout] holds the
    documented offsets and satisfies it. *)

From S2P Require Import Prelude.

(** Offsets of the fields of USN_RECORD_V2 or USN_RECORD_V3 that the decoder reads. *)
Record RecordLayout := mkRecordLayout {
  off_FileReferenceNumber : Z;
  off_ParentFileReferenceNumber : Z;
  off_Usn : Z;
  off_TimeStamp : Z;
  off_Reason : Z;
  off_FileAttributes : Z;
  off_FileNameLength : Z;
  off_FileNameOffset : Z;
  off_FileName : Z;      (* offsetof(.., FileName) *)
  struct_size : Z        (* sizeof *)
}.

Record UsnLayout := mkUsnLayout {
  common_size : Z;       (* sizeof(USN_RECORD_COMMON_HEADER) *)
  off_RecordLength : Z;
  off_MajorVersion : Z;
  layout_v2 : RecordLayout;
  layout_v3 : RecordLayout
}.

Record DecodedUsnRecord := mkDecoded {
  usn : Z;
  fileReferenceNumber : Z;
  parentFileReferenceNumber : Z;
  reason : Z;
  timestamp : Z;
  fileAttributes : Z;
  fileNameLength : Z;
  fileNameOffset : Z
}.

(** A field of a local struct. *)
Definition field (record : list Z) (off : Z) (width : nat) : Z := le_value (slice record off width).

(** [USN_RECORD_Vn record{}; memcpy(&record, recordBytes, offsetof(.., FileName))]. *)
Definition copy_prefix (l : RecordLayout) (buf : list Z) : result (list Z) :=
  let* prefix := load buf 0 (Z.to_nat (off_FileName l)) in
  Ok (prefix ++ replicate (Z.to_nat (struct_size l - off_FileName l)) 0).

(** The 64-bit halves of a FILE_ID_128: [None] when the high half is not zero. *)
Definition DecodeNtfsFileId (record : list Z) (off : Z) : option Z :=
  let low := field record off 8 in
  let high := field record (off + 8) 8 in
  if high =? 0 then Some low else None.

Definition ValidateFilenameRange (filenameOffset filenameLength recordLength minimumFilenameOffset : Z) : bool :=
  if (filenameOffset <? minimumFilenameOffset) || negb (filenameLength mod 2 =? 0) then false
  else add64 filenameOffset filenameLength <=? recordLength.

Section decode.
Variable layout : UsnLayout.

Definition decoded_fields (l : RecordLayout) (record : list Z) (frn parent : Z) : DecodedUsnRecord :=
  {| usn := field record (off_Usn l) 8; fileReferenceNumber := frn; parentFileReferenceNumber := parent;
     reason := field record (off_Reason l) 4; timestamp := field record (off_TimeStamp l) 8;
     fileAttributes := field record (off_FileAttributes l) 4;
     fileNameLength := field record (off_FileNameLength l) 2;
     fileNameOffset := field record (off_FileNameOffset l) 2 |}.

(** The [switch] over the major version: the decoded fields and the minimum
    file-name offset. *)
Definition DecodeVersion (buf : list Z) (majorVersion declaredRecordLength : Z) : result (DecodedUsnRecord * Z) :=
  match majorVersion with
  | 2 =>
      let l := layout_v2 layout in
      guard (negb (declaredRecordLength <? off_FileName l))
      (let* record := copy_prefix l buf in
       Ok (decoded_fields l record (field record (off_FileReferenceNumber l) 8)
             (field record (off_ParentFileReferenceNumber l) 8), off_FileName l))
  | 3 =>
      let l := layout_v3 layout in
      guard (negb (declaredRecordLength <? off_FileName l))
      (let* record := copy_prefix l buf in
       let* frn := of_option (DecodeNtfsFileId record (off_FileReferenceNumber l)) in
       let* parent := of_option (DecodeNtfsFileId record (off_ParentFileReferenceNumber l)) in
       Ok (decoded_fields l record frn parent, off_FileName l))
  | _ => Reject
  end.

Definition DecodeUsnRecord (recordBytes : option (list Z)) (recordSize : Z) : result DecodedUsnRecord :=
  let* buf := of_option recordBytes in
  guard (negb (recordSize <? common_size layout))
  (let* common := load buf 0 (Z.to_nat (common_size layout)) in
   let declaredRecordLength := field common (off_RecordLength layout) 4 in
   guard (negb (declaredRecordLength <? common_size layout) && negb (recordSize <? declaredRecordLength))
   (let* '(decoded, minimumFilenameOffset) :=
      DecodeVersion buf (field common (off_MajorVersion layout) 2) declaredRecordLength in
    guard (ValidateFilenameRange (fileNameOffset decoded) (fileNameLength decoded) declaredRecordLength
             minimumFilenameOffset)
    (Ok decoded))).

(** ** The layout contract *)

(** The field of [width] bytes at [off] lies before [limit]. *)
Definition inside (off width limit : Z) : Prop := 0 <= off /\ off + width <= limit.

(** [idw] is the width of the file reference fields: 8 bytes in V2, 16 in V3. *)
Definition record_layout_ok (l : RecordLayout) (idw : Z) : Prop :=
  inside (off_FileReferenceNumber l) idw (off_FileName l) /\
  inside (off_ParentFileReferenceNumber l) idw (off_FileName l) /\
  inside (off_Usn l) 8 (off_FileName l) /\ inside (off_TimeStamp l) 8 (off_FileName l) /\
  inside (off_Reason l) 4 (off_FileName l) /\ inside (off_FileAttributes l) 4 (off_FileName l) /\
  inside (off_FileNameLength l) 2 (off_FileName l) /\ inside (off_FileNameOffset l) 2 (off_FileName l) /\
  off_FileName l <= struct_size l.

Definition layout_ok : Prop :=
  inside (off_RecordLength layout) 4 (common_size layout) /\
  inside (off_MajorVersion layout) 2 (common_size layout) /\
  record_layout_ok (layout_v2 layout) 8 /\ record_layout_ok (layout_v3 layout) 16.

Hypothesis Hlayout : layout_ok.

Lemma field_take buf n rest off w :
  0 <= off -> off + Z.of_nat w <= n -> n <= zlen buf ->
  field (slice buf 0 (Z.to_nat n) ++ rest) off w = field buf off w.
Proof.
  intros Ho Hw Hn. unfold field. f_equal. apply slice_ext; [done|]. intros i Hi.
  assert (length (slice buf 0 (Z.to_nat n)) = Z.to_nat n) as Hlen by (apply length_slice; lia).
  rewrite lookup_app_l by lia. rewrite lookup_slice by lia. f_equal. lia.
Qed.

Lemma field_fits buf off w :
  Forall is_byte buf -> 0 <= off -> off + Z.of_nat w <= zlen buf -> fits w (field buf off w).
Proof. apply read_word_fits. Qed.

(** A 128-bit id whose high half is zero is its low half. *)
Lemma le_value_app a b : le_value (a ++ b) = le_value a + 256 ^ zlen a * le_value b.
Proof.
  induction a as [|x a IH]; cbn [app le_value]; [change (zlen (@nil Z)) with 0; rewrite Z.pow_0_r; lia|].
  rewrite IH, zlen_cons, Z.pow_add_r by (pose proof (zlen_nonneg a); lia). lia.
Qed.

Lemma DecodeNtfsFileId_exact buf off id :
  0 <= off -> off + 16 <= zlen buf ->
  DecodeNtfsFileId buf off = Some id -> field buf off 16 = id.
Proof.
  intros Ho Hl. unfold DecodeNtfsFileId. destruct (Z.eqb_spec (field buf (off + 8) 8) 0) as [E|]; [|done].
  intros [= <-]. unfold field in *. rewrite (slice_split buf off 8 16) by lia.
  rewrite le_value_app. change (Z.of_nat 8) with 8. change (16 - 8)%nat with 8%nat. rewrite E. lia.
Qed.

Lemma high_half_zero buf off :
  Forall is_byte buf -> 0 <= off -> off + 16 <= zlen buf -> fits 8 (field buf off 16) ->
  (field buf (off + 8) 8 =? 0) = true.
Proof.
  intros Hb Ho Hl Hf. unfold fits, field in *. rewrite (slice_split buf off 8 16), le_value_app in Hf by lia.
  change (Z.of_nat 8) with 8 in Hf. change (16 - 8)%nat with 8%nat in Hf.
  pose proof (read_word_fits buf off 8 Hb Ho ltac:(lia)) as Hlo.
  pose proof (read_word_fits buf (off + 8) 8 Hb ltac:(lia) ltac:(lia)) as Hhi. unfold fits in *.
  unfold zlen in Hf. rewrite length_slice in Hf by lia. change (256 ^ Z.of_nat 8) with 18446744073709551616 in *.
  apply Z.eqb_eq. lia.
Qed.

Lemma le_value_nonneg bs : Forall is_byte bs -> 0 <= le_value bs.
Proof. intros Hb. pose proof (le_value_fits bs Hb) as [? _]. done. Qed.

(** What the decoder promises of an accepted record. *)
Record decoded_ok (buf : list Z) (recordSize : Z) (d : DecodedUsnRecord) : Prop := {
  dec_declared : common_size layout <= field buf (off_RecordLength layout) 4 <= recordSize;
  dec_name_even : fileNameLength d mod 2 = 0;
  dec_name_end : fileNameOffset d + fileNameLength d <= field buf (off_RecordLength layout) 4;
  dec_fields : exists l w,
    ((field buf (off_MajorVersion layout) 2 = 2 /\ l = layout_v2 layout /\ w = 8%nat) \/
     (field buf (off_MajorVersion layout) 2 = 3 /\ l = layout_v3 layout /\ w = 16%nat)) /\
    off_FileName l <= fileNameOffset d /\
    d = decoded_fields l buf (field buf (off_FileReferenceNumber l) w) (field buf (off_ParentFileReferenceNumber l) w)
}.

Lemma copy_prefix_safe l buf idw (Q : list Z -> Prop) :
  record_layout_ok l idw -> 0 <= idw -> off_FileName l <= zlen buf ->
  (forall record, (forall off w, 0 <= off -> off + Z.of_nat w <= off_FileName l -> field record off w = field buf off w) ->
     zlen record = struct_size l -> Q record) ->
  safe (copy_prefix l buf) Q.
Proof.
  intros (H1 & H2 & H3 & H4 & H5 & H6 & H7 & H8 & Hs) Hidw Hl HQ. unfold copy_prefix, inside in *.
  rewrite load_Ok by lia. cbn [bind safe]. apply HQ.
  - intros off w Ho Hw. by apply field_take.
  - unfold zlen in *. rewrite length_app, length_slice, length_replicate by (unfold zlen; lia). lia.
Qed.

Lemma decoded_fields_prefix l record buf frn parent idw :
  record_layout_ok l idw ->
  (forall off w, 0 <= off -> off + Z.of_nat w <= off_FileName l -> field record off w = field buf off w) ->
  decoded_fields l record frn parent = decoded_fields l buf frn parent.
Proof.
  intros (_ & _ & H3 & H4 & H5 & H6 & H7 & H8 & _) Hf. unfold inside, decoded_fields in *.
  by rewrite !Hf by lia.
Qed.

Lemma DecodeVersion_sound buf mv declared :
  declared <= zlen buf ->
  safe (DecodeVersion buf mv declared) (fun '(d, minimum) => exists l w,
    ((mv = 2 /\ l = layout_v2 layout /\ w = 8%nat) \/ (mv = 3 /\ l = layout_v3 layout /\ w = 16%nat)) /\
    minimum = off_FileName l /\ off_FileName l <= declared /\
    d = decoded_fields l buf (field buf (off_FileReferenceNumber l) w) (field buf (off_ParentFileReferenceNumber l) w)).
Proof.
  intros Hd. destruct Hlayout as (_ & _ & Hv2 & Hv3). unfold DecodeVersion.
  repeat (case_match; try done).
  - apply safe_guard. intros Hmin%negb_true_iff%Z.ltb_ge. pose proof Hv3 as (Hf & Hp & _). unfold inside in Hf, Hp.
    eapply safe_bind; [apply (copy_prefix_safe _ _ 16 (fun r => forall off w, 0 <= off ->
      off + Z.of_nat w <= off_FileName (layout_v3 layout) -> field r off w = field buf off w) Hv3); [lia|lia|auto]|].
    intros record Hrec.
    unfold DecodeNtfsFileId. rewrite !Hrec by lia. fold (DecodeNtfsFileId buf (off_FileReferenceNumber (layout_v3 layout))).
    fold (DecodeNtfsFileId buf (off_ParentFileReferenceNumber (layout_v3 layout))).
    destruct (DecodeNtfsFileId buf (off_FileReferenceNumber _)) as [frn|] eqn:E1; cbn [of_option bind safe]; [|done].
    destruct (DecodeNtfsFileId buf (off_ParentFileReferenceNumber _)) as [par|] eqn:E2; cbn [of_option bind safe]; [|done].
    apply DecodeNtfsFileId_exact in E1, E2; [|lia..].
    exists (layout_v3 layout), 16%nat. split; [auto|]. split; [done|]. split; [done|].
    by rewrite E1, E2, (decoded_fields_prefix _ record buf _ _ 16).
  - apply safe_guard. intros Hmin%negb_true_iff%Z.ltb_ge. pose proof Hv2 as (Hf & Hp & _). unfold inside in Hf, Hp.
    eapply safe_bind; [apply (copy_prefix_safe _ _ 8 (fun r => forall off w, 0 <= off ->
      off + Z.of_nat w <= off_FileName (layout_v2 layout) -> field r off w = field buf off w) Hv2); [lia|lia|auto]|].
    intros record Hrec. cbn [safe]. exists (layout_v2 layout), 8%nat. split; [auto|]. split; [done|]. split; [done|].
    rewrite !Hrec by lia. by rewrite (decoded_fields_prefix _ record buf _ _ 8).
Qed.

Lemma common_size_pos : 0 < common_size layout.
Proof. destruct Hlayout as ([? ?] & _). lia. Qed.

Lemma common_field buf off w :
  common_size layout <= zlen buf -> inside off (Z.of_nat w) (common_size layout) ->
  field (slice buf 0 (Z.to_nat (common_size layout))) off w = field buf off w.
Proof.
  intros Hl [Ho Hw]. rewrite <-(app_nil_r (slice _ _ _)). by apply field_take.
Qed.

Lemma decoded_name_range buf l frn parent :
  Forall is_byte buf -> off_FileName l <= zlen buf -> (exists idw, record_layout_ok l idw) ->
  let d := decoded_fields l buf frn parent in
  0 <= fileNameOffset d < 65536 /\ 0 <= fileNameLength d < 65536.
Proof.
  intros Hb Hl (idw & _ & _ & _ & _ & _ & _ & H7 & H8 & _) d. unfold inside in *.
  pose proof (field_fits buf (off_FileNameLength l) 2 Hb ltac:(lia) ltac:(lia)) as F1.
  pose proof (field_fits buf (off_FileNameOffset l) 2 Hb ltac:(lia) ltac:(lia)) as F2.
  unfold fits in *. split; [exact F2|exact F1].
Qed.

Lemma DecodeUsnRecord_sound buf recordSize :
  Forall is_byte buf -> recordSize <= zlen buf ->
  safe (DecodeUsnRecord (Some buf) recordSize) (decoded_ok buf recordSize).
Proof.
  intros Hb Hs. pose proof common_size_pos as Hcp. pose proof Hlayout as (Hrl & Hmv & Hv2 & Hv3).
  unfold DecodeUsnRecord. cbn [of_option bind]. apply safe_guard. intros Hc%negb_true_iff%Z.ltb_ge.
  rewrite load_Ok by lia. cbn [bind]. rewrite (common_field buf (off_RecordLength layout) 4) by (done || lia).
  rewrite (common_field buf (off_MajorVersion layout) 2) by (done || lia).
  apply safe_guard. intros [Hd1%negb_true_iff%Z.ltb_ge Hd2%negb_true_iff%Z.ltb_ge]%andb_true_iff.
  eapply safe_bind; [apply DecodeVersion_sound; lia|]. intros [d minimum] (l & w & Hver & -> & Hmin & Hd).
  apply safe_guard. unfold ValidateFilenameRange. intros Hv.
  destruct (_ || _) eqn:E in Hv; [done|]. apply orb_false_iff in E as [Ho He%negb_false_iff].
  apply Z.ltb_ge in Ho. apply Z.eqb_eq in He. apply Z.leb_le in Hv.
  assert (0 <= fileNameOffset d < 65536 /\ 0 <= fileNameLength d < 65536) as [Hno Hnl].
  { rewrite Hd. apply decoded_name_range; [done|lia|]. destruct Hver as [(_ & -> & _)|(_ & -> & _)]; eauto. }
  rewrite add64_small in Hv by (unfold SIZE_MAX; lia). cbn [safe]. constructor; [lia|done|done|]. by exists l, w.
Qed.

Lemma DecodeVersion_complete buf l w mv declared :
  ((mv = 2 /\ l = layout_v2 layout /\ w = 8%nat) \/ (mv = 3 /\ l = layout_v3 layout /\ w = 16%nat)) ->
  Forall is_byte buf -> off_FileName l <= declared <= zlen buf ->
  fits 8 (field buf (off_FileReferenceNumber l) w) -> fits 8 (field buf (off_ParentFileReferenceNumber l) w) ->
  DecodeVersion buf mv declared =
  Ok (decoded_fields l buf (field buf (off_FileReferenceNumber l) w) (field buf (off_ParentFileReferenceNumber l) w),
      off_FileName l).
Proof.
  intros Hver Hb Hd Hf Hp. pose proof (DecodeVersion_sound buf mv declared ltac:(lia)) as Hs.
  assert (DecodeVersion buf mv declared <> Reject) as Hnr.
  { destruct Hlayout as (_ & _ & Hv2 & Hv3). destruct Hver as [(-> & -> & ->)|(-> & -> & ->)]; cbn [DecodeVersion];
      rewrite (proj2 (Z.ltb_ge _ _)) by lia; cbn [negb guard].
    - by destruct (copy_prefix _ buf) as [|_|] eqn:E; unfold copy_prefix, load in *; case_match.
    - pose proof Hv3 as (Hfi & Hpi & _). unfold inside in Hfi, Hpi. 
      destruct (copy_prefix (layout_v3 layout) buf) as [record| |] eqn:E;
        [|unfold copy_prefix, load in E; by case_match|done]. cbn [bind].
      pose proof (copy_prefix_safe _ buf 16 (fun r => forall off w, 0 <= off ->
        off + Z.of_nat w <= off_FileName (layout_v3 layout) -> field r off w = field buf off w) Hv3
        ltac:(lia) ltac:(lia) ltac:(auto)) as Hrec. rewrite E in Hrec. cbn [safe] in Hrec.
      unfold DecodeNtfsFileId. rewrite !Hrec by lia.
      rewrite !(high_half_zero buf) by (done || lia). done. }
  destruct (DecodeVersion buf mv declared) as [[d m]| |]; [|done..]. cbn [safe] in Hs.
  destruct Hs as (l' & w' & Hver' & -> & _ & ->).
  assert (l' = l /\ w' = w) as [-> ->]; [|done]. destruct Hver as [(-> & -> & ->)|(-> & -> & ->)]; naive_solver.
Qed.

Lemma DecodeUsnRecord_complete buf recordSize d :
  Forall is_byte buf -> recordSize <= zlen buf -> decoded_ok buf recordSize d ->
  fits 8 (fileReferenceNumber d) -> fits 8 (parentFileReferenceNumber d) ->
  DecodeUsnRecord (Some buf) recordSize = Ok d.
Proof.
  intros Hb Hs [Hdecl Heven Hend (l & w & Hver & Hoff & Hd)] Hf Hp.
  pose proof common_size_pos as Hcp. pose proof Hlayout as (Hrl & Hmv & Hv2 & Hv3).
  assert (exists idw, record_layout_ok l idw) as Hlok by (destruct Hver as [(_ & -> & _)|(_ & -> & _)]; eauto).
  assert (off_FileName l <= field buf (off_RecordLength layout) 4 /\
          0 <= fileNameOffset d < 65536 /\ 0 <= fileNameLength d < 65536) as (Hmin & Hno & Hnl).
  { destruct (decide (off_FileName l <= zlen buf)) as [Hle|Hgt].
    - pose proof (decoded_name_range buf l (fileReferenceNumber d) (parentFileReferenceNumber d) Hb Hle Hlok) as Hr.
      rewrite Hd in *. cbn in *. lia.
    - assert (0 <= fileNameLength d) by (rewrite Hd; apply le_value_nonneg; by apply Forall_slice). lia. }
  unfold DecodeUsnRecord. cbn [of_option bind].
  rewrite (proj2 (Z.ltb_ge _ _)) by lia. cbn [negb guard]. rewrite load_Ok by lia. cbn [bind].
  rewrite (common_field buf (off_RecordLength layout) 4) by (done || lia).
  rewrite (common_field buf (off_MajorVersion layout) 2) by (done || lia).
  rewrite (proj2 (Z.ltb_ge _ _)), (proj2 (Z.ltb_ge _ _)) by lia. cbn [negb andb guard].
  rewrite (DecodeVersion_complete buf l w); [|done|done|lia|by rewrite Hd in Hf|by rewrite Hd in Hp].
  rewrite <-Hd. cbn [bind]. unfold ValidateFilenameRange.
  rewrite (proj2 (Z.ltb_ge _ _)), Heven, add64_small, (proj2 (Z.leb_le _ _)) by (unfold SIZE_MAX; lia). done.
Qed.

Lemma field8_fits record off : Forall is_byte record -> fits 8 (field record off 8).
Proof.
  intros Hr. unfold fits, field. pose proof (le_value_fits (slice record off 8) (Forall_slice _ _ _ _ Hr)) as F.
  unfold fits in F. assert (length (slice record off 8) <= 8)%nat by (unfold slice; rewrite length_take; lia).
  assert (256 ^ Z.of_nat (length (slice record off 8)) <= 256 ^ Z.of_nat 8) by (apply Z.pow_le_mono_r; lia). lia.
Qed.

Lemma copy_prefix_bytes l buf record :
  Forall is_byte buf -> copy_prefix l buf = Ok record -> Forall is_byte record.
Proof.
  intros Hb Hc. unfold copy_prefix in Hc. apply bind_Ok_inv in Hc as (x & Hld & Hr). injection Hr as <-.
  apply load_Ok_inv in Hld as (_ & _ & ->). apply Forall_app. split; [by apply Forall_slice|].
  apply Forall_replicate. unfold is_byte. lia.
Qed.

Lemma DecodeNtfsFileId_fits record off id :
  Forall is_byte record -> DecodeNtfsFileId record off = Some id -> fits 8 id.
Proof. intros Hr. unfold DecodeNtfsFileId. case_match; [|done]. intros [= <-]. by apply field8_fits. Qed.

Lemma DecodeVersion_ids buf mv declared d minimum :
  Forall is_byte buf -> DecodeVersion buf mv declared = Ok (d, minimum) ->
  fits 8 (fileReferenceNumber d) /\ fits 8 (parentFileReferenceNumber d).
Proof.
  intros Hb Hd. unfold DecodeVersion in Hd. repeat (case_match; try discriminate).
  - apply guard_Ok_inv in Hd as [_ Hd]. apply bind_Ok_inv in Hd as (record & Hc & Hd).
    apply copy_prefix_bytes in Hc; [|done]. apply bind_Ok_inv in Hd as (frn & Hf & Hd).
    apply bind_Ok_inv in Hd as (par & Hp & Hd). injection Hd as <- <-.
    destruct (DecodeNtfsFileId record (off_FileReferenceNumber _)) eqn:E1 in Hf; [|done].
    destruct (DecodeNtfsFileId record (off_ParentFileReferenceNumber _)) eqn:E2 in Hp; [|done].
    injection Hf as <-. injection Hp as <-. apply DecodeNtfsFileId_fits in E1, E2; done.
  - apply guard_Ok_inv in Hd as [_ Hd]. apply bind_Ok_inv in Hd as (record & Hc & Hd).
    apply copy_prefix_bytes in Hc; [|done]. injection Hd as <- <-. split; by apply field8_fits.
Qed.

Lemma DecodeUsnRecord_ids buf recordSize d :
  Forall is_byte buf -> DecodeUsnRecord (Some buf) recordSize = Ok d ->
  fits 8 (fileReferenceNumber d) /\ fits 8 (parentFileReferenceNumber d).
Proof.
  intros Hb Hd. unfold DecodeUsnRecord in Hd. cbn [of_option bind] in Hd.
  apply guard_Ok_inv in Hd as [_ Hd]. apply bind_Ok_inv in Hd as (common & _ & Hd).
  apply guard_Ok_inv in Hd as [_ Hd]. apply bind_Ok_inv in Hd as ([d0 minimum] & Hv & Hd).
  apply guard_Ok_inv in Hd as [_ Hd]. injection Hd as ->. by eapply DecodeVersion_ids.
Qed.
End decode.

(** ** Properties of the decoder *)

(** C36. For every layout in which the copied fields precede the file name, the
    decoder never reads outside the record bytes.  It accepts a record exactly
    when the declared length is between the common header and the bytes
    available, the version is 2 or 3, the file name is an even number of bytes
    that starts after the fixed fields and ends inside the declared length, and
    both file references fit 64 bits; every field it returns is the field of the
    record, and a 128-bit reference is returned whole, never truncated. *)
Theorem DecodeUsnRecord_exact layout buf recordSize :
  layout_ok layout -> Forall is_byte buf -> recordSize <= zlen buf ->
  DecodeUsnRecord layout (Some buf) recordSize <> Fault /\
  forall d, DecodeUsnRecord layout (Some buf) recordSize = Ok d <->
    decoded_ok layout buf recordSize d /\ fits 8 (fileReferenceNumber d) /\ fits 8 (parentFileReferenceNumber d).
Proof.
  intros Hl Hb Hs. pose proof (DecodeUsnRecord_sound layout Hl buf recordSize Hb Hs) as Hsafe. split.
  { by eapply safe_no_fault. }
  intros d. split.
  - intros Hd. rewrite Hd in Hsafe. cbn [safe] in Hsafe. split; [done|].
    by eapply DecodeUsnRecord_ids.
  - intros (Hok & Hf & Hp). by apply (DecodeUsnRecord_complete layout Hl).
Qed.

(** The documented offsets of the Windows SDK structures. *)
Definition ntfs_layout : UsnLayout :=
  {| common_size := 8; off_RecordLength := 0; off_MajorVersion := 4;
     layout_v2 := {| off_FileReferenceNumber := 8; off_ParentFileReferenceNumber := 16; off_Usn := 24;
                     off_TimeStamp := 32; off_Reason := 40; off_FileAttributes := 52;
                     off_FileNameLength := 56; off_FileNameOffset := 58; off_FileName := 60; struct_size := 64 |};
     layout_v3 := {| off_FileReferenceNumber := 8; off_ParentFileReferenceNumber := 24; off_Usn := 40;
                     off_TimeStamp := 48; off_Reason := 56; off_FileAttributes := 68;
                     off_FileNameLength := 72; off_FileNameOffset := 74; off_FileName := 76; struct_size := 80 |} |}.

Lemma ntfs_layout_ok : layout_ok ntfs_layout.
Proof. unfold layout_ok, record_layout_ok, inside. cbn. lia. Qed.

(** A V3 record of 78 bytes with a one-letter name. *)
Definition witness_record : list Z :=
  le_bytes 4 78 ++ le_bytes 2 3 ++ le_bytes 2 0 ++ le_bytes 16 5 ++ le_bytes 16 6 ++ le_bytes 8 7 ++ le_bytes 8 8 ++
  le_bytes 4 9 ++ le_bytes 8 0 ++ le_bytes 4 32 ++ le_bytes 2 2 ++ le_bytes 2 76 ++ le_bytes 2 97.

Lemma DecodeUsnRecord_exact_witness :
  exists d, DecodeUsnRecord ntfs_layout (Some witness_record) 78 = Ok d /\ decoded_ok ntfs_layout witness_record 78 d.
Proof.
  destruct (DecodeUsnRecord ntfs_layout (Some witness_record) 78) as [d| |] eqn:E; [|vm_compute in E; discriminate..].
  exists d. split; [reflexivity|].
  refine (proj1 (proj1 (proj2 (DecodeUsnRecord_exact ntfs_layout witness_record 78 ntfs_layout_ok _ _) d) E)).
  - solve_bytes.
  - vm_compute. discriminate.
Defined.
