(* ===== verification/ChildrenMap.v ===== *)
(** * Entry identity and the flat children map

    [src/indexstore/include/ffindexstore/Identity.h] (the key of an entry and its
    hash) and class [FlatChildrenMap] of [FlatHashMap.h]: a map from a directory
    to the slice of its children's indices, all slices in one flat array.

    The class repeats the probing code of [FlatHashMap]; its [keys_], [states_]
    and [count_] with the parallel arrays [offsets_] and [counts_] are modelled by
    a [FlatHashMap] whose values are (offset, count) pairs, so the lemmas of the
    table apply.  The map refines a finite map to lists: insertion appends,
    removal replaces the element by the last one. *)

From stdpp Require Import gmap.
From S2P Require Import Prelude FlatHashMap.

(** ** Identity *)

Record FileId := mkFileId { low : Z; high : Z }.

#[export] Instance FileId_eq_dec : EqDecision FileId.
Proof. solve_decision. Defined.

(** [operator<]: by the high half first. *)
Definition FileId_less (a b : FileId) : bool :=
  if negb (high a =? high b) then high a <? high b else low a <? low b.

Record EntryKey := mkEntryKey { volumeRowId : Z; frn : FileId }.

#[export] Instance EntryKey_eq_dec : EqDecision EntryKey.
Proof. solve_decision. Defined.

#[export] Instance EntryKey_countable : Countable EntryKey.
Proof.
  refine (inj_countable' (fun k => (volumeRowId k, (low (frn k), high (frn k))))
            (fun t => mkEntryKey t.1 (mkFileId t.2.1 t.2.2)) _).
  by intros [v [l h]].
Defined.

#[export] Instance EntryKey_inhabited : Inhabited EntryKey := populate (mkEntryKey 0 (mkFileId 0 0)).

Definition shl64 (x n : Z) : Z := wrap64 (Z.shiftl x n).

Definition EntryKeyHash (key : EntryKey) : Z :=
  let h := to_unsigned64 (volumeRowId key) in
  let mix h x := Z.lxor h (wrap64 (x + 11400714819323198485 + shl64 h 6 + Z.shiftr h 2)) in
  let h := mix h (low (frn key)) in
  let h := mix h (high (frn key)) in
  let h := Z.lxor h (Z.shiftr h 30) in
  let h := mul64 h 13787848793156543929 in
  let h := Z.lxor h (Z.shiftr h 27) in
  let h := mul64 h 10723151780598845931 in
  Z.lxor h (Z.shiftr h 31).

(** ** The map *)

Record FlatChildrenMap := mkChildren {
  table_ : FlatHashMap EntryKey (Z * Z);   (* keys_, states_, count_; offsets_ and counts_ *)
  child_values_ : list Z                   (* values_ *)
}.

Definition empty_children : FlatChildrenMap := mkChildren empty_map [].

Definition slot_pair (m : FlatChildrenMap) (idx : Z) : Z * Z := values_ (table_ m) !!! Z.to_nat idx.

(** The probe met an occupied slot. *)
Definition hit (m : FlatChildrenMap) (probe : ProbeResult) : bool :=
  negb (exhausted probe || (index probe =? bucket_count (table_ m)) ||
        negb (state_at (table_ m) (index probe) =? 1)).

(** The span is read when it is used. *)
Definition children_find (m : FlatChildrenMap) (key : EntryKey) : result (list Z) :=
  let probe := find_slot EntryKeyHash (table_ m) key in
  if negb (hit m probe) then Ok []
  else
    let '(off, cnt) := slot_pair m (index probe) in
    load (child_values_ m) off (Z.to_nat cnt).

Definition children_contains (m : FlatChildrenMap) (key : EntryKey) : result bool :=
  let* span := children_find m key in Ok (negb (bool_decide (span = []))).

(** One iteration of the rebuild loop of [grow]: [Reject] is [placed = false]. *)
Definition children_place (old_values : list Z) (m : FlatChildrenMap) (e : EntryKey * (Z * Z))
  : result FlatChildrenMap :=
  let '(key, (off, cnt)) := e in
  let probe := find_slot EntryKeyHash (table_ m) key in
  if exhausted probe then Reject
  else if negb (index probe <? bucket_count (table_ m)) then Fault
  else
    let* slice := load old_values off (Z.to_nat cnt) in
    Ok (mkChildren (fill_slot (table_ m) (index probe) key (zlen (child_values_ m), cnt))
          (child_values_ m ++ slice)).

Fixpoint children_place_all (old_values : list Z) (m : FlatChildrenMap) (es : list (EntryKey * (Z * Z)))
  : result FlatChildrenMap :=
  match es with
  | [] => Ok m
  | e :: rest => let* m' := children_place old_values m e in children_place_all old_values m' rest
  end.

Fixpoint children_grow_loop (fuel : nat) (old_values : list Z) (old : list (EntryKey * (Z * Z)))
  (new_buckets : Z) : result FlatChildrenMap :=
  match fuel with
  | O => Fault
  | S fuel' =>
      guard (new_buckets <=? PTRDIFF_MAX)
      (match children_place_all old_values (mkChildren (fresh_table new_buckets) []) old with
       | Ok m => Ok m
       | Fault => Fault
       | Reject =>
           guard (negb (SIZE_MAX / 2 <? new_buckets))
           (children_grow_loop fuel' old_values old (mul64 new_buckets 2))
       end)
  end.

Definition children_grow (m : FlatChildrenMap) (new_buckets : Z) : result FlatChildrenMap :=
  let t := table_ m in
  children_grow_loop 65 (child_values_ m) (live_entries (keys_ t) (values_ t) (states_ t)) new_buckets.

(** The search for a slot at the head of [insert]; at most nine rounds. *)
Fixpoint children_insert_slot (rounds : nat) (m : FlatChildrenMap) (key : EntryKey)
  : result (FlatChildrenMap * Z) :=
  let* m :=
    if mul64 (bucket_count (table_ m)) 7 / 10 <? count_ (table_ m) + 1
    then children_grow m (if bool_decide (keys_ (table_ m) = []) then 8 else mul64 (bucket_count (table_ m)) 2)
    else Ok m in
  let probe := find_slot EntryKeyHash (table_ m) key in
  if negb (exhausted probe) then Ok (m, index probe)
  else match rounds with
       | O => Reject
       | S rounds' =>
           guard (negb (SIZE_MAX / 2 <? bucket_count (table_ m)))
           (let* m := children_grow m (mul64 (bucket_count (table_ m)) 2) in
            children_insert_slot rounds' m key)
       end.

Definition children_insert (m : FlatChildrenMap) (key : EntryKey) (childIndex : Z) : result FlatChildrenMap :=
  let* '(m, idx) := children_insert_slot 8 m key in
  if (idx <? bucket_count (table_ m)) && (state_at (table_ m) idx =? 1) then
    let '(off, cnt) := slot_pair m idx in
    let* '(values, off) :=
      if negb (off + cnt =? zlen (child_values_ m))
      then let* slice := load (child_values_ m) off (Z.to_nat cnt) in
           Ok (child_values_ m ++ slice, zlen (child_values_ m ++ slice) - cnt)
      else Ok (child_values_ m, off) in
    Ok (mkChildren (set_value (table_ m) idx (off, cnt + 1)) (values ++ [childIndex]))
  else
    let entry := (zlen (child_values_ m), 1) in
    Ok (mkChildren
          (if idx =? bucket_count (table_ m) then push_slot (table_ m) key entry
           else fill_slot (table_ m) idx key entry)
          (child_values_ m ++ [childIndex])).

(** The search loop of [remove]: the position of the first occurrence. *)
Fixpoint position (childIndex : Z) (slice : list Z) : option nat :=
  match slice with
  | [] => None
  | x :: rest => if x =? childIndex then Some O else S <$> position childIndex rest
  end.

Definition children_remove (m : FlatChildrenMap) (key : EntryKey) (childIndex : Z) : result FlatChildrenMap :=
  let probe := find_slot EntryKeyHash (table_ m) key in
  if negb (hit m probe) then Ok m
  else
    let idx := index probe in
    let '(off, cnt) := slot_pair m idx in
    let* slice := load (child_values_ m) off (Z.to_nat cnt) in
    match position childIndex slice with
    | None => Ok m
    | Some i =>
        let* last := load (child_values_ m) (off + cnt - 1) 1 in
        let* values := store (child_values_ m) (off + Z.of_nat i) last in
        let t := set_value (table_ m) idx (off, cnt - 1) in
        Ok (mkChildren
              (if cnt - 1 =? 0
               then mkFlatHashMap (keys_ t) (FlatHashMap.values_ t) (<[Z.to_nat idx := 2]> (states_ t)) (count_ t - 1)
               else t) values)
    end.

Definition children_clear (m : FlatChildrenMap) : FlatChildrenMap := empty_children.

(** ** The abstract map *)

Definition content (values : list Z) (p : Z * Z) : list Z := slice values p.1 (Z.to_nat p.2).

Definition pair_ok (values : list Z) (p : Z * Z) : Prop := 0 <= p.1 /\ 0 < p.2 /\ p.1 + p.2 <= zlen values.

(** No element belongs to two slices. *)
Definition disjoint_pairs (p q : Z * Z) : Prop := p.1 + p.2 <= q.1 \/ q.1 + q.2 <= p.1.

Record slices_ok (t : gmap EntryKey (Z * Z)) (values : list Z) : Prop := {
  pairs_ok : forall k p, t !! k = Some p -> pair_ok values p;
  pairs_disjoint : forall k k' p q, t !! k = Some p -> t !! k' = Some q -> k <> k' -> disjoint_pairs p q
}.

(** [m] holds the children lists [g]. *)
Definition holds (m : FlatChildrenMap) (g : gmap EntryKey (list Z)) : Prop :=
  exists t, represents EntryKeyHash (table_ m) t /\ slices_ok t (child_values_ m) /\
            g = content (child_values_ m) <$> t.

(** The list operations. *)
Definition append_child (g : gmap EntryKey (list Z)) (key : EntryKey) (c : Z) : gmap EntryKey (list Z) :=
  <[key := default [] (g !! key) ++ [c]]> g.

(** Overwrite position [i] with the last element and drop the last. *)
Definition swap_remove (l : list Z) (i : nat) : list Z :=
  match last l with
  | None => []
  | Some x => take (length l - 1) (<[i := x]> l)
  end.

Definition remove_child (g : gmap EntryKey (list Z)) (key : EntryKey) (c : Z) : gmap EntryKey (list Z) :=
  match g !! key with
  | None => g
  | Some l =>
      match position c l with
      | None => g
      | Some i => if (length l =? 1)%nat then delete key g else <[key := swap_remove l i]> g
      end
  end.

(** ** Lookup *)

Lemma occupied_slot m key i p :
  occupied (table_ m) i key p -> slot_pair m i = p /\ state_at (table_ m) i = 1 /\ 0 <= i < bucket_count (table_ m).
Proof.
  intros (Hi & Hs & Hk & Hv). split; [by apply list_lookup_total_correct|].
  split; [by apply state_at_lookup|]. apply lookup_lt_Some in Hk. unfold bucket_count, zlen. lia.
Qed.

Lemma hit_present m t key p :
  represents EntryKeyHash (table_ m) t -> t !! key = Some p ->
  exists i, find_slot EntryKeyHash (table_ m) key = mkProbe i false /\ occupied (table_ m) i key p /\
            hit m (mkProbe i false) = true.
Proof.
  intros (Hi & Hg & _) Hp. apply Hg in Hp as [i Ho]. exists i.
  split; [by eapply inv_probe|]. split; [done|]. destruct (occupied_slot m key i p Ho) as (_ & Hs & Hb).
  unfold hit. cbn [exhausted index]. rewrite Hs, (proj2 (Z.eqb_neq _ _)) by lia. done.
Qed.

Lemma hit_absent m t key :
  represents EntryKeyHash (table_ m) t -> t !! key = None ->
  hit m (find_slot EntryKeyHash (table_ m) key) = false.
Proof.
  intros Hr Hn. pose proof (find_refines EntryKeyHash (table_ m) t key Hr) as Hf. rewrite Hn in Hf.
  unfold FlatHashMap.find in Hf. unfold hit. destruct (exhausted _ || _ || _) eqn:E; [done|].
  exfalso. apply orb_false_iff in E as [_ Hs%negb_false_iff%Z.eqb_eq]. apply state_at_one, lookup_lt_Some in Hs.
  apply lookup_ge_None in Hf. destruct Hr as (Hi & _). rewrite (inv_values _ _ Hi), <-(inv_states _ _ Hi) in Hf. lia.
Qed.

Lemma content_load values p : pair_ok values p -> load values p.1 (Z.to_nat p.2) = Ok (content values p).
Proof. intros (H1 & H2 & H3). by rewrite load_Ok by lia. Qed.

Lemma length_content values p : pair_ok values p -> length (content values p) = Z.to_nat p.2.
Proof. intros (H1 & H2 & H3). apply length_slice; lia. Qed.

Lemma children_find_refines m g key : holds m g -> children_find m key = Ok (default [] (g !! key)).
Proof.
  intros (t & Hr & Hs & ->). unfold children_find. rewrite lookup_fmap.
  destruct (t !! key) as [p|] eqn:E; cbn [fmap option_fmap option_map default].
  - destruct (hit_present m t key p Hr E) as (i & -> & Ho & ->). cbn [negb index].
    destruct (occupied_slot m key i p Ho) as (-> & _ & _).
    pose proof (pairs_ok _ _ Hs key p E) as Hp. destruct p as [off cnt]. by apply (content_load _ (off, cnt)).
  - by rewrite (hit_absent m t key Hr E).
Qed.

(** ** Updates of one slice *)

Lemma content_app values tl p : pair_ok values p -> content (values ++ tl) p = content values p.
Proof.
  intros (H1 & H2 & H3). unfold content, slice, zlen in *.
  rewrite drop_app_le, take_app_le; [done|..]; rewrite ?length_drop; lia.
Qed.

Lemma pair_ok_app values tl p : pair_ok values p -> pair_ok (values ++ tl) p.
Proof. intros (H1 & H2 & H3). unfold pair_ok. rewrite zlen_app. pose proof (zlen_nonneg tl). lia. Qed.

(** Replacing the slice of [key] by one that ends at the tail of the array. *)
Lemma slices_ok_tail t values key p :
  slices_ok t values -> pair_ok values p ->
  (forall k q, t !! k = Some q -> k <> key -> disjoint_pairs q p) ->
  slices_ok (<[key := p]> t) values.
Proof.
  intros [Hok Hdis] Hp Hd. split.
  - intros k q. destruct (decide (k = key)) as [->|Hne]; [by rewrite lookup_insert_eq; intros [= <-]|].
    rewrite lookup_insert_ne by done. apply Hok.
  - intros k k' q q' Hq Hq' Hne. destruct (decide (k = key)) as [->|Hk], (decide (k' = key)) as [->|Hk']; [done|..];
      rewrite ?lookup_insert_eq, ?lookup_insert_ne in * by done; simplify_eq.
    + destruct (Hd k' q' Hq' Hk'); [by right|by left].
    + by apply (Hd k q).
    + by apply (Hdis k k').
Qed.

Lemma slices_ok_app t values tl : slices_ok t values -> slices_ok t (values ++ tl).
Proof. intros [Hok Hdis]. split; [|done]. intros k p Hp. by eapply pair_ok_app, Hok. Qed.

Lemma content_map_app t values tl : slices_ok t values -> content (values ++ tl) <$> t = content values <$> t.
Proof.
  intros Hs. apply map_fmap_ext. intros k p Hp. apply content_app. by eapply pairs_ok.
Qed.

Lemma content_tail values tl : content (values ++ tl) (zlen values, zlen tl) = tl.
Proof. unfold content. cbn [fst snd]. by rewrite slice_app_r, zlen_to_nat, firstn_all. Qed.

(** [tl], appended to the array, becomes the slice of [key]. *)
Lemma holds_tail t values tl key :
  slices_ok t values -> 0 < zlen tl ->
  slices_ok (<[key := (zlen values, zlen tl)]> t) (values ++ tl) /\
  content (values ++ tl) <$> <[key := (zlen values, zlen tl)]> t = <[key := tl]> (content values <$> t).
Proof.
  intros Hs Htl. pose proof (zlen_nonneg values). split.
  - apply slices_ok_tail; [by apply slices_ok_app|unfold pair_ok; rewrite zlen_app; cbn; lia|].
    intros k q Hq _. left. pose proof (pairs_ok _ _ Hs k q Hq) as (? & ? & ?). cbn. lia.
  - by rewrite fmap_insert, content_tail, content_map_app.
Qed.

(** ** Rebuilding *)

Definition es_map (es : list (EntryKey * (Z * Z))) : gmap EntryKey (Z * Z) := list_to_map es.

Lemma children_place_refines old m t key p :
  represents EntryKeyHash (table_ m) t -> slices_ok t (child_values_ m) -> 0 < bucket_count (table_ m) ->
  t !! key = None -> pair_ok old p ->
  safe (children_place old m (key, p)) (fun m' => bucket_count (table_ m') = bucket_count (table_ m) /\
    exists t', represents EntryKeyHash (table_ m') t' /\ slices_ok t' (child_values_ m') /\
      dom t' = {[key]} ∪ dom t /\
      content (child_values_ m') <$> t' = <[key := content old p]> (content (child_values_ m) <$> t)).
Proof.
  intros Hr Hs Hb Hn Hp. destruct p as [off cnt]. cbn [children_place].
  destruct (find_slot EntryKeyHash (table_ m) key) as [i [|]] eqn:Ef; cbn [exhausted index]; [done|].
  destruct (find_slot_cases EntryKeyHash (table_ m) t key i Hr (bucket_count_nonempty _ Hb) Ef)
    as [Hi [(_ & v & _ & Hv)|(Hst & _)]]; [congruence|].
  rewrite (proj2 (Z.ltb_lt _ _)) by lia. cbn [negb].
  pose proof (content_load old (off, cnt) Hp) as Hld. cbn [fst snd] in Hld. rewrite Hld.
  cbn [bind safe table_ child_values_]. split; [apply zlen_insert|].
  assert (zlen (content old (off, cnt)) = cnt) as Hl.
  { unfold zlen. rewrite length_content by done. destruct Hp as (? & ? & ?). cbn in *. lia. }
  destruct (holds_tail t (child_values_ m) (content old (off, cnt)) key Hs) as [Hs' Hc'].
  { rewrite Hl. destruct Hp as (? & ? & ?). done. }
  rewrite Hl in *. exists (<[key := (zlen (child_values_ m), cnt)]> t).
  split; [by apply fill_slot_represents; [|apply bucket_count_nonempty|..]|]. split; [done|].
  split; [by rewrite dom_insert_L|done].
Qed.

Lemma children_place_all_refines old es m t :
  represents EntryKeyHash (table_ m) t -> slices_ok t (child_values_ m) -> 0 < bucket_count (table_ m) ->
  NoDup es.*1 -> (forall k p, (k, p) ∈ es -> t !! k = None /\ pair_ok old p) ->
  safe (children_place_all old m es) (fun m' => bucket_count (table_ m') = bucket_count (table_ m) /\
    exists t', represents EntryKeyHash (table_ m') t' /\ slices_ok t' (child_values_ m') /\
      content (child_values_ m') <$> t' =
      fold_left (fun g e => <[e.1 := content old e.2]> g) es (content (child_values_ m) <$> t)).
Proof.
  revert m t. induction es as [|[k p] es IH]; intros m t Hr Hs Hb Hnd Hes; cbn [children_place_all fold_left].
  { cbn. eauto. }
  apply NoDup_cons in Hnd as [Hnin Hnd]. destruct (Hes k p) as [Hn Hp]; [by apply elem_of_cons; left|].
  eapply safe_bind; [by apply children_place_refines|]. intros m1 (Hb1 & t1 & Hr1 & Hs1 & Hd1 & Hc1).
  eapply safe_mono; [apply (IH m1 t1); [done|done|lia|done|]|].
  - intros k' p' Hin. destruct (Hes k' p') as [Hn' ?]; [by apply elem_of_cons; right|]. split; [|done].
    apply not_elem_of_dom. rewrite Hd1. apply not_elem_of_union. rewrite not_elem_of_singleton, not_elem_of_dom.
    split; [|done]. intros ->. apply Hnin. by apply (list_elem_of_fmap_2 fst) in Hin.
  - intros m' (Hb' & t' & ? & ? & Hc'). split; [lia|]. exists t'. rewrite Hc', Hc1. auto.
Qed.

Abbreviation table_entries m := (live_entries (keys_ (table_ m)) (values_ (table_ m)) (states_ (table_ m))).

Lemma fold_contents old es (g : gmap EntryKey (list Z)) :
  fold_left (fun g e => <[e.1 := content old e.2]> g) es g =
  insert_all ((fun e => (e.1, content old e.2)) <$> es) g.
Proof. revert g. induction es as [|e es IH]; intros g; [done|]. cbn. apply IH. Qed.

Lemma fold_entries m t :
  represents EntryKeyHash (table_ m) t ->
  fold_left (fun g e => <[e.1 := content (child_values_ m) e.2]> g) (table_entries m) ∅ =
  content (child_values_ m) <$> t.
Proof.
  intros Hr. pose proof Hr as (Hi & Hg & _). rewrite fold_contents. apply map_eq. intros k. apply option_eq. intros l.
  rewrite (lookup_insert_all EntryKeyHash), lookup_fmap_Some.
  - rewrite lookup_empty. split.
    + intros [([k' p] & [= -> ->] & Hin)%list_elem_of_fmap|[_ ?]]; [|done].
      apply elem_of_entries, Hg in Hin. eauto.
    + intros (p & <- & Hp). left. apply list_elem_of_fmap. exists (k, p). split; [done|]. by apply elem_of_entries, Hg.
  - assert (((fun e => (e.1, content (child_values_ m) e.2)) <$> table_entries m).*1 = (table_entries m).*1) as ->.
    { induction (table_entries m) as [|e es IH]; [done|]. cbn. by f_equal. }
    by apply (NoDup_entries EntryKeyHash).
Qed.

Lemma empty_slices : slices_ok ∅ [].
Proof. split; by intros *; rewrite lookup_empty. Qed.

Lemma children_grow_loop_refines fuel m g p :
  holds m g -> 0 <= p <= 63 -> 63 - p < Z.of_nat fuel ->
  safe (children_grow_loop fuel (child_values_ m) (table_entries m) (2 ^ p))
    (fun m' => holds m' g /\ 0 < bucket_count (table_ m')).
Proof.
  intros (t & Hr & Hs & ->). revert p. induction fuel as [|fuel IH]; intros p Hp Hf; [lia|].
  cbn [children_grow_loop]. apply safe_guard. intros Hle%Z.leb_le. apply PTRDIFF_MAX_pow2 in Hle; [|lia].
  assert (0 < 2 ^ p) by (apply Z.pow_pos_nonneg; lia).
  pose proof (fresh_bucket_count (Key := EntryKey) (Value := Z * Z) (2 ^ p) ltac:(lia)) as Hfb.
  pose proof (children_place_all_refines (child_values_ m) (table_entries m) (mkChildren (fresh_table (2 ^ p)) []) ∅) as Hpl.
  specialize (Hpl (fresh_represents EntryKeyHash p ltac:(lia)) empty_slices ltac:(cbn [table_]; lia)
                (NoDup_entries EntryKeyHash (table_ m) (proj1 Hr))).
  assert (forall k q, (k, q) ∈ table_entries m -> (∅ : gmap EntryKey (Z * Z)) !! k = None /\ pair_ok (child_values_ m) q) as Hes.
  { intros k q Hin. split; [apply lookup_empty|]. apply elem_of_entries in Hin. apply (pairs_ok _ _ Hs k).
    by apply (proj1 (proj2 Hr)). }
  specialize (Hpl Hes). cbn [table_ child_values_] in Hpl. rewrite fmap_empty, (fold_entries m t Hr) in Hpl.
  destruct (children_place_all _ _ _) as [m'| |]; cbn [safe] in *; [|..|done].
  - destruct Hpl as (Hb & t' & Hr' & Hs' & Hc). split; [|lia]. exists t'. auto.
  - apply safe_guard. intros _. rewrite pow2_double by lia. apply IH; lia.
Qed.

Lemma children_grow_refines m g p :
  holds m g -> 0 <= p <= 63 ->
  safe (children_grow m (2 ^ p)) (fun m' => holds m' g /\ 0 < bucket_count (table_ m')).
Proof. intros. apply children_grow_loop_refines; [done|done|lia]. Qed.

Lemma holds_double m g :
  holds m g -> 0 < bucket_count (table_ m) ->
  safe (children_grow m (mul64 (bucket_count (table_ m)) 2)) (fun m' => holds m' g /\ 0 < bucket_count (table_ m')).
Proof.
  intros Hh Hb. pose proof Hh as (t & (Hi & _) & _).
  destruct (double_pow2 EntryKeyHash (table_ m) Hi (bucket_count_nonempty _ Hb)) as (q & Hq & -> & _).
  by apply children_grow_refines.
Qed.

Lemma holds_count m g : holds m g -> 0 <= count_ (table_ m).
Proof. intros (t & (_ & _ & ->) & _). lia. Qed.

Lemma children_capacity m g :
  holds m g ->
  safe (if mul64 (bucket_count (table_ m)) 7 / 10 <? count_ (table_ m) + 1
        then children_grow m (if bool_decide (keys_ (table_ m) = []) then 8 else mul64 (bucket_count (table_ m)) 2)
        else Ok m) (fun m' => holds m' g /\ 0 < bucket_count (table_ m')).
Proof.
  intros Hh. pose proof (holds_count m g Hh) as Hc.
  destruct (decide (keys_ (table_ m) = [])) as [He|Hne].
  - rewrite bool_decide_true by done. unfold bucket_count at 1, zlen. rewrite He.
    change (mul64 (Z.of_nat (length (@nil EntryKey))) 7 / 10) with 0.
    rewrite (proj2 (Z.ltb_lt _ _)) by lia. apply (children_grow_refines m g 3); [done|lia].
  - rewrite bool_decide_false by done.
    assert (0 < bucket_count (table_ m)) as Hb.
    { unfold bucket_count, zlen. destruct (keys_ (table_ m)); [done|simpl; lia]. }
    destruct (_ <? _); [by apply holds_double|]. by cbn.
Qed.

Lemma children_insert_slot_refines rounds m g key :
  holds m g ->
  safe (children_insert_slot rounds m key) (fun '(m', idx) => holds m' g /\ 0 < bucket_count (table_ m') /\
    find_slot EntryKeyHash (table_ m') key = mkProbe idx false).
Proof.
  revert m. induction rounds as [|rounds IH]; intros m Hh; cbn [children_insert_slot];
    (eapply safe_bind; [by apply children_capacity|]); intros m1 [Hh1 Hb1];
    destruct (find_slot EntryKeyHash (table_ m1) key) as [i [|]] eqn:E; cbn [exhausted negb index]; try by cbn.
  apply safe_guard. intros _. eapply safe_bind; [by apply holds_double|]. intros m2 [Hh2 _]. by apply IH.
Qed.

(** Appending to a slice, relocated to the tail when it is not there. *)
Lemma children_append m t key off cnt c :
  slices_ok t (child_values_ m) -> t !! key = Some (off, cnt) ->
  safe (if negb (off + cnt =? zlen (child_values_ m))
        then let* slice := load (child_values_ m) off (Z.to_nat cnt) in
             Ok (child_values_ m ++ slice, zlen (child_values_ m ++ slice) - cnt)
        else Ok (child_values_ m, off))
    (fun '(values, off') =>
       slices_ok (<[key := (off', cnt + 1)]> t) (values ++ [c]) /\
       content (values ++ [c]) <$> <[key := (off', cnt + 1)]> t =
       <[key := content (child_values_ m) (off, cnt) ++ [c]]> (content (child_values_ m) <$> t)).
Proof.
  intros Hs Hk. pose proof (pairs_ok _ _ Hs key _ Hk) as Hp. pose proof Hp as (H1 & H2 & H3). cbn [fst snd] in *.
  destruct (Z.eqb_spec (off + cnt) (zlen (child_values_ m))) as [He|Hne]; cbn [negb safe].
  - split.
    + apply slices_ok_tail; [by apply slices_ok_app| |].
      * unfold pair_ok. rewrite zlen_app. change (zlen [c]) with 1. cbn. lia.
      * intros k q Hq Hnk. pose proof (pairs_ok _ _ Hs k q Hq) as (? & ? & ?).
        destruct (pairs_disjoint _ _ Hs k key q (off, cnt) Hq Hk Hnk) as [Hd|Hd]; cbn in *; [by left|left; cbn; lia].
    + rewrite fmap_insert, content_map_app by done. f_equal. unfold content. cbn [fst snd].
      replace (Z.to_nat (cnt + 1)) with (Z.to_nat cnt + 1)%nat by lia.
      rewrite (slice_split _ off (Z.to_nat cnt)) by lia. f_equal.
      * apply (content_app _ _ (off, cnt) Hp).
      * replace (Z.to_nat cnt + 1 - Z.to_nat cnt)%nat with 1%nat by lia.
        replace (off + Z.of_nat (Z.to_nat cnt)) with (zlen (child_values_ m)) by lia. by rewrite slice_app_r.
  - pose proof (content_load _ _ Hp) as Hld. cbn [fst snd] in Hld. rewrite Hld. cbn [bind safe].
    assert (zlen (content (child_values_ m) (off, cnt)) = cnt) as Hl.
    { unfold zlen. rewrite length_content by done. cbn. lia. }
    rewrite zlen_app, Hl, <-app_assoc.
    replace (zlen (child_values_ m) + cnt - cnt) with (zlen (child_values_ m)) by lia.
    replace (cnt + 1) with (zlen (content (child_values_ m) (off, cnt) ++ [c]))
      by (rewrite zlen_app, Hl; done).
    apply holds_tail; [done|]. rewrite zlen_app, Hl. change (zlen [c]) with 1. lia.
Qed.

Lemma children_insert_refines m g key c :
  holds m g -> safe (children_insert m key c) (fun m' => holds m' (append_child g key c)).
Proof.
  intros Hh. unfold children_insert. eapply safe_bind; [by apply children_insert_slot_refines|].
  intros [m1 idx] ((t & Hr & Hs & ->) & Hb & Hf). unfold append_child. rewrite lookup_fmap.
  destruct (find_slot_cases EntryKeyHash (table_ m1) t key idx Hr (bucket_count_nonempty _ Hb) Hf)
    as [Hi [(Hst & p & Ho & Hp)|(Hst & Hp)]]; rewrite Hp, Hst, (proj2 (Z.ltb_lt _ _)) by lia; cbn [andb Z.eqb fmap option_fmap option_map default].
  - destruct (occupied_slot m1 key idx p Ho) as (-> & _). destruct p as [off cnt].
    eapply safe_bind; [by apply (children_append m1 t key off cnt c)|]. intros [values off'] [Hs' Hc']. cbn [safe].
    exists (<[key := (off', cnt + 1)]> t). cbn [table_ child_values_]. split; [by eapply set_value_represents|]. auto.
  - rewrite (proj2 (Z.eqb_neq _ _)) by lia. cbn [safe].
    destruct (holds_tail t (child_values_ m1) [c] key Hs) as [Hs' Hc']; [done|].
    exists (<[key := (zlen (child_values_ m1), 1)]> t). cbn [table_ child_values_].
    split; [apply fill_slot_represents; [done|by apply bucket_count_nonempty|done..]|]. auto.
Qed.

(** ** Removal *)

Lemma position_lt c l i : position c l = Some i -> (i < length l)%nat.
Proof.
  revert i. induction l as [|x l IH]; intros i; cbn [position]; [done|].
  destruct (x =? c); [intros [= <-]; simpl; lia|].
  destruct (position c l) as [j|]; [|done]. intros [= <-]. specialize (IH j eq_refl). simpl. lia.
Qed.

(** Writing one element inside a slice. *)
Lemma content_write values p i x :
  pair_ok values p -> (i < Z.to_nat p.2)%nat ->
  content (list_inserts (Z.to_nat (p.1 + Z.of_nat i)) [x] values) p = <[i := x]> (content values p).
Proof.
  intros (H1 & H2 & H3) Hi. unfold content. apply list_eq. intros j.
  destruct (decide (j < Z.to_nat p.2)%nat) as [Hj|Hj].
  - rewrite lookup_slice by lia. cbn [list_inserts]. destruct (decide (j = i)) as [->|Hne].
    + rewrite list_lookup_insert_eq by (unfold zlen in *; lia).
      by rewrite list_lookup_insert_eq by (rewrite length_slice; lia).
    + rewrite !list_lookup_insert_ne by lia. by rewrite lookup_slice by lia.
  - rewrite !lookup_ge_None_2; [done|..]; rewrite ?length_insert, length_slice; rewrite ?zlen_inserts; lia.
Qed.

Lemma content_write_other values p q i x :
  pair_ok values p -> pair_ok values q -> disjoint_pairs q p -> (i < Z.to_nat p.2)%nat ->
  content (list_inserts (Z.to_nat (p.1 + Z.of_nat i)) [x] values) q = content values q.
Proof.
  intros (H1 & H2 & H3) (H4 & H5 & H6) Hd Hi. unfold content, disjoint_pairs in *.
  apply slice_inserts_other; [lia|lia|]. change (zlen [x]) with 1. lia.
Qed.

Lemma last_slice values p x :
  pair_ok values p -> last (content values p) = Some x -> load values (p.1 + p.2 - 1) 1 = Ok [x].
Proof.
  intros Hp Hl. pose proof Hp as (H1 & H2 & H3). rewrite load_Ok by lia. f_equal.
  rewrite last_lookup, length_content in Hl by done. unfold content in Hl. rewrite lookup_slice in Hl by lia.
  replace (p.1 + Z.of_nat (Nat.pred (Z.to_nat p.2))) with (p.1 + p.2 - 1) in Hl by lia.
  unfold slice. by rewrite (drop_S _ x).
Qed.

Lemma content_prefix values off n k :
  0 <= k <= n -> content values (off, k) = take (Z.to_nat k) (content values (off, n)).
Proof. intros. unfold content, slice. cbn [fst snd]. rewrite take_take. f_equal. lia. Qed.

(** The array after a removal inside the slice of [key]. *)
Lemma slices_ok_write t values key off cnt i x :
  slices_ok t values -> t !! key = Some (off, cnt) -> (i < Z.to_nat cnt)%nat ->
  let values' := list_inserts (Z.to_nat (off + Z.of_nat i)) [x] values in
  slices_ok (delete key t) values' /\ content values' <$> delete key t = delete key (content values <$> t) /\
  (1 < cnt -> slices_ok (<[key := (off, cnt - 1)]> t) values' /\
     content values' <$> <[key := (off, cnt - 1)]> t =
     <[key := take (Z.to_nat (cnt - 1)) (<[i := x]> (content values (off, cnt)))]> (content values <$> t)).
Proof.
  intros Hs Hk Hi values'. pose proof (pairs_ok _ _ Hs key _ Hk) as Hp. pose proof Hp as (H1 & H2 & H3). cbn [fst snd] in *.
  assert (forall q, pair_ok values q -> pair_ok values' q) as Hpk.
  { intros q (? & ? & ?). unfold values', pair_ok. rewrite zlen_inserts. auto. }
  assert (forall k q, t !! k = Some q -> k <> key -> content values' q = content values q) as Hoth.
  { intros k q Hq Hne. apply (content_write_other _ (off, cnt)); [done|by eapply pairs_ok| |done].
    by apply (pairs_disjoint _ _ Hs k key). }
  assert (content values' <$> delete key t = content values <$> delete key t) as Hcd.
  { apply map_fmap_ext. intros k q [Hne Hq]%lookup_delete_Some. by apply (Hoth k). }
  split; [|split].
  - destruct Hs as [Hok Hdis]. split.
    + intros k q [_ Hq]%lookup_delete_Some. by eapply Hpk, Hok.
    + intros k k' q q' [_ Hq]%lookup_delete_Some [_ Hq']%lookup_delete_Some. by apply Hdis.
  - by rewrite Hcd, fmap_delete.
  - intros Hcnt. split.
    + apply slices_ok_tail.
      * destruct Hs as [Hok Hdis]. split; [|done]. intros k q Hq. by eapply Hpk, Hok.
      * apply Hpk. unfold pair_ok. cbn. lia.
      * intros k q Hq Hne. destruct (pairs_disjoint _ _ Hs k key q (off, cnt) Hq Hk Hne); cbn in *; [by left|right; cbn; lia].
    + rewrite <-(insert_delete_eq t), fmap_insert, Hcd, fmap_delete, insert_delete_eq. f_equal.
      rewrite <-(content_write values (off, cnt) i x Hp Hi). cbn [fst]. fold values'.
      apply content_prefix. lia.
Qed.

Lemma children_remove_refines m g key c :
  holds m g -> safe (children_remove m key c) (fun m' => holds m' (remove_child g key c)).
Proof.
  intros Hh. pose proof Hh as (t & Hr & Hs & Hg). unfold children_remove, remove_child.
  destruct (t !! key) as [p|] eqn:Ek.
  2: { rewrite (hit_absent m t key Hr Ek), Hg, lookup_fmap, Ek. cbn. by rewrite <-Hg. }
  destruct (hit_present m t key p Hr Ek) as (idx & -> & Ho & ->). cbn [negb index].
  destruct (occupied_slot m key idx p Ho) as (-> & _ & Hb). destruct p as [off cnt].
  pose proof (pairs_ok _ _ Hs key _ Ek) as Hp. pose proof Hp as (H1 & H2 & H3). cbn [fst snd] in *.
  pose proof (content_load _ _ Hp) as Hld. cbn [fst snd] in Hld. rewrite Hld. cbn [bind].
  assert (g !! key = Some (content (child_values_ m) (off, cnt))) as Hgk by (by rewrite Hg, lookup_fmap, Ek).
  rewrite Hgk. pose proof (length_content _ _ Hp) as Hlen. cbn [snd] in Hlen.
  set (l := content (child_values_ m) (off, cnt)) in *.
  destruct (position c l) as [i|] eqn:Ei; [|done]. apply position_lt in Ei.
  destruct (last l) as [x|] eqn:Ex.
  2: { apply last_None in Ex. rewrite Ex in Hlen. simpl in Hlen. lia. }
  pose proof (last_slice _ _ x Hp Ex) as Hll. cbn [fst snd] in Hll. rewrite Hll. cbn [bind].
  rewrite store_Ok; [|lia|change (zlen [x]) with 1; lia]. cbn [bind safe].
  destruct (slices_ok_write t (child_values_ m) key off cnt i x Hs Ek ltac:(lia)) as (Hsd & Hcd & Hlive).
  pose proof (set_value_represents EntryKeyHash (table_ m) t key (off, cnt - 1) _ idx Hr Ho) as Hset.
  destruct (Z.eqb_spec (cnt - 1) 0) as [Hz|Hnz].
  - replace (length l =? 1)%nat with true by (symmetry; apply Nat.eqb_eq; lia).
    exists (delete key t). cbn [table_ child_values_]. rewrite Hcd, <-Hg. split; [|auto].
    rewrite <-(delete_insert_eq t key (off, cnt - 1)).
    apply (erase_slot_represents EntryKeyHash (set_value (table_ m) idx (off, cnt - 1)) _ key (off, cnt - 1)); [done|].
    apply (occupied_set_value EntryKeyHash _ _ _ (proj1 Hr) Hb key (off, cnt)); auto.
  - replace (length l =? 1)%nat with false by (symmetry; apply Nat.eqb_neq; lia).
    destruct Hlive as [Hsl Hcl]; [lia|]. exists (<[key := (off, cnt - 1)]> t). cbn [table_ child_values_].
    split; [done|]. split; [done|]. rewrite Hcl, <-Hg. unfold swap_remove. rewrite Ex. fold l.
    do 2 f_equal. lia.
Qed.

(** ** Remapping all child indices *)

Definition remap_slice (fn : Z -> Z) (values : list Z) (p : Z * Z) : result (list Z) :=
  let* slice := load values p.1 (Z.to_nat p.2) in store values p.1 (fn <$> slice).

Fixpoint remap_slices (fn : Z -> Z) (values : list Z) (es : list (EntryKey * (Z * Z))) : result (list Z) :=
  match es with
  | [] => Ok values
  | e :: rest => let* values := remap_slice fn values e.2 in remap_slices fn values rest
  end.

Definition children_RemapValues (fn : Z -> Z) (m : FlatChildrenMap) : result FlatChildrenMap :=
  let* values := remap_slices fn (child_values_ m) (table_entries m) in
  Ok (mkChildren (table_ m) values).

Lemma remap_slice_refines fn values t k p :
  slices_ok t values -> t !! k = Some p ->
  safe (remap_slice fn values p) (fun values' => zlen values' = zlen values /\
    forall k' q, t !! k' = Some q ->
      content values' q = if decide (k' = k) then fn <$> content values q else content values q).
Proof.
  intros Hs Hk. pose proof (pairs_ok _ _ Hs k p Hk) as Hp. pose proof Hp as (H1 & H2 & H3).
  unfold remap_slice. rewrite (content_load _ _ Hp). cbn [bind].
  assert (zlen (fn <$> content values p) = p.2) as Hl.
  { unfold zlen. rewrite length_fmap, length_content by done. lia. }
  rewrite store_Ok by lia. cbn [safe]. split; [apply zlen_inserts|]. intros k' q Hq.
  pose proof (pairs_ok _ _ Hs k' q Hq) as (H4 & H5 & H6). destruct (decide (k' = k)) as [->|Hne].
  - simplify_eq. unfold content at 1. rewrite <-Hl. apply slice_inserts_same; lia.
  - apply slice_inserts_other; [lia|lia|]. rewrite Hl.
    destruct (pairs_disjoint _ _ Hs k' k q p Hq Hk Hne); lia.
Qed.

Lemma slices_ok_length t values values' : slices_ok t values -> zlen values' = zlen values -> slices_ok t values'.
Proof. intros [Hok Hd] Hl. split; [|done]. intros k p Hp. unfold pair_ok. rewrite Hl. by eapply Hok. Qed.

Lemma remap_slices_refines fn es values t :
  slices_ok t values -> NoDup es.*1 -> (forall k p, (k, p) ∈ es -> t !! k = Some p) ->
  safe (remap_slices fn values es) (fun values' => zlen values' = zlen values /\
    forall k q, t !! k = Some q ->
      content values' q = if decide (k ∈ es.*1) then fn <$> content values q else content values q).
Proof.
  revert values. induction es as [|[k p] es IH]; intros values Hs Hnd Hes; cbn [remap_slices].
  { cbn. split; [done|]. intros k q _. destruct (decide _) as [Hin|]; [by apply not_elem_of_nil in Hin|done]. }
  apply NoDup_cons in Hnd as [Hnin Hnd].
  eapply safe_bind; [apply (remap_slice_refines fn values t k p Hs), Hes, elem_of_cons; by left|].
  intros v1 (Hl1 & Hc1). eapply safe_mono; [apply (IH v1); [by eapply slices_ok_length|done|]|].
  { intros k' p' Hin. apply Hes, elem_of_cons. by right. }
  intros v2 (Hl2 & Hc2). split; [lia|]. intros k' q Hq. rewrite (Hc2 k' q Hq), (Hc1 k' q Hq).
  cbn [fmap list_fmap fst]. destruct (decide (k' = k)) as [->|Hne].
  - rewrite decide_False by done. rewrite decide_True; [done|]. apply elem_of_cons. by left.
  - destruct (decide (k' ∈ es.*1)) as [Hin|Hnin'].
    + rewrite decide_True; [done|]. apply elem_of_cons. by right.
    + rewrite decide_False; [done|]. rewrite elem_of_cons. by intros [?|?].
Qed.

Lemma children_RemapValues_refines fn m g :
  holds m g -> safe (children_RemapValues fn m) (fun m' => holds m' ((fun l : list Z => fn <$> l) <$> g)).
Proof.
  intros (t & Hr & Hs & ->). pose proof Hr as (Hi & Hg & _). unfold children_RemapValues.
  eapply safe_bind; [apply (remap_slices_refines fn _ _ t Hs); [by apply (NoDup_entries EntryKeyHash)|]|].
  { intros k p Hin. by apply Hg, elem_of_entries. }
  intros v (Hl & Hc). exists t. cbn [table_ child_values_]. split; [done|]. split; [by eapply slices_ok_length|].
  apply map_eq. intros k. rewrite !lookup_fmap. destruct (t !! k) as [q|] eqn:E; [|done].
  cbn [fmap option_fmap option_map]. f_equal. rewrite (Hc k q E). rewrite decide_True; [done|].
  apply list_elem_of_fmap. exists (k, q). split; [done|]. by apply elem_of_entries, Hg.
Qed.

(** ** Sequences of operations *)

Inductive children_op :=
| ChInsert (k : EntryKey) (c : Z)
| ChRemove (k : EntryKey) (c : Z)
| ChRemap (fn : Z -> Z)
| ChClear.

Definition run_children_op (m : FlatChildrenMap) (o : children_op) : result FlatChildrenMap :=
  match o with
  | ChInsert k c => children_insert m k c
  | ChRemove k c => children_remove m k c
  | ChRemap fn => children_RemapValues fn m
  | ChClear => Ok (children_clear m)
  end.

Fixpoint run_children (m : FlatChildrenMap) (os : list children_op) : result FlatChildrenMap :=
  match os with
  | [] => Ok m
  | o :: os' => let* m' := run_children_op m o in run_children m' os'
  end.

Definition spec_children_op (g : gmap EntryKey (list Z)) (o : children_op) : gmap EntryKey (list Z) :=
  match o with
  | ChInsert k c => append_child g k c
  | ChRemove k c => remove_child g k c
  | ChRemap fn => (fun l : list Z => fn <$> l) <$> g
  | ChClear => ∅
  end.

Lemma empty_holds : holds empty_children ∅.
Proof.
  exists ∅. split; [apply (clear_represents EntryKeyHash empty_map)|]. split; [apply empty_slices|].
  by rewrite fmap_empty.
Qed.

Lemma run_children_refines os m g :
  holds m g -> safe (run_children m os) (fun m' => holds m' (fold_left spec_children_op os g)).
Proof.
  revert m g. induction os as [|o os IH]; intros m g Hh; cbn [run_children fold_left]; [done|].
  apply (safe_bind _ _ (fun m' => holds m' (spec_children_op g o))); [|intros m' Hh'; by apply IH].
  destruct o; cbn [run_children_op spec_children_op].
  - by apply children_insert_refines.
  - by apply children_remove_refines.
  - by apply children_RemapValues_refines.
  - apply empty_holds.
Qed.

(** C28. The flat children map refines a map from directories to child lists:
    after any sequence of insertions, removals, remappings and clears on a new
    map in which nothing throws, [find] returns exactly the list that the same
    list operations give (append at the end; replace the first occurrence by the
    last element; map every element), so slices never overlap and a relocation
    never loses or mixes children; and no operation reads or writes outside the
    flat array. *)
Theorem children_map_refines os :
  run_children empty_children os <> Fault /\
  forall m, run_children empty_children os = Ok m ->
    let g := fold_left spec_children_op os ∅ in
    (forall k, children_find m k = Ok (default [] (g !! k))) /\
    (forall k, children_contains m k = Ok (bool_decide (default [] (g !! k) <> []))).
Proof.
  pose proof (run_children_refines os _ _ empty_holds) as Hs. split; [by eapply safe_no_fault|].
  intros m Hm g. rewrite Hm in Hs. cbn [safe] in Hs.
  assert (forall k, children_find m k = Ok (default [] (g !! k))) as Hf by (intros k; by apply children_find_refines).
  split; [done|]. intros k. unfold children_contains. rewrite Hf. cbn [bind]. f_equal. symmetry. apply bool_decide_not.
Qed.

Lemma position_spec c l :
  c ∈ l -> exists i, position c l = Some i /\ l !! i = Some c.
Proof.
  induction l as [|x l IH]; [by intros ?%not_elem_of_nil|]. intros Hin. cbn [position].
  destruct (Z.eqb_spec x c) as [->|Hne]; [by exists 0%nat|].
  apply elem_of_cons in Hin as [->|Hin]; [done|]. destruct (IH Hin) as (i & -> & Hi). by exists (S i).
Qed.

Lemma swap_remove_permutation l i c : l !! i = Some c -> l ≡ₚ c :: swap_remove l i.
Proof.
  intros Hi. unfold swap_remove. destruct (last l) as [x|] eqn:Ex; [|apply last_None in Ex; by subst].
  apply last_Some in Ex as [l' ->]. rewrite length_app. replace (length l' + length [x] - 1)%nat with (length l') by (simpl; lia).
  destruct (decide (i < length l')%nat) as [Hlt|Hge].
  - rewrite lookup_app_l in Hi by done. rewrite insert_app_l, take_app_length' by (rewrite ?length_insert; done).
    rewrite (insert_take_drop l' i x) by done. rewrite <-(take_drop_middle l' i c Hi) at 1.
    rewrite <-app_assoc. cbn. rewrite <-!Permutation_middle. apply perm_skip.
    by rewrite app_nil_r.
  - apply lookup_lt_Some in Hi as Hl. rewrite length_app in Hl. simpl in Hl. assert (i = length l') as -> by lia.
    rewrite lookup_app_r, Nat.sub_diag in Hi by lia. injection Hi as ->.
    rewrite insert_app_r_alt, Nat.sub_diag by lia. cbn. rewrite take_app_length. by rewrite Permutation_app_comm.
Qed.

Lemma remove_child_spec g k c l :
  g !! k = Some l -> c ∈ l ->
  l ≡ₚ c :: default [] (remove_child g k c !! k) /\ (forall k', k' <> k -> remove_child g k c !! k' = g !! k').
Proof.
  intros Hk Hin. unfold remove_child. rewrite Hk. destruct (position_spec c l Hin) as (i & -> & Hi).
  destruct (Nat.eqb_spec (length l) 1) as [H1|H1].
  - rewrite lookup_delete_eq. split; [|intros k' Hne; by rewrite lookup_delete_ne].
    destruct l as [|x [|]]; try discriminate. destruct i; [|done]. by injection Hi as ->.
  - rewrite lookup_insert_eq. split; [by apply swap_remove_permutation|intros k' Hne; by rewrite lookup_insert_ne].
Qed.

(** Removing a child takes exactly one occurrence out of its directory's
    children and leaves the others, up to order; a directory that loses its last
    child is gone. *)
Theorem remove_child_permutation m g k c l :
  holds m g -> g !! k = Some l -> c ∈ l ->
  safe (children_remove m k c) (fun m' => exists g', holds m' g' /\
    l ≡ₚ c :: default [] (g' !! k) /\ (forall k', k' <> k -> g' !! k' = g !! k')).
Proof.
  intros Hh Hk Hin. eapply safe_mono; [by apply children_remove_refines|]. intros m' Hm'.
  exists (remove_child g k c). split; [done|]. by apply remove_child_spec.
Qed.

Definition witness_key : EntryKey := mkEntryKey 1 (mkFileId 5 0).

Lemma remove_child_permutation_witness :
  exists m, run_children empty_children [ChInsert witness_key 7; ChInsert witness_key 8] = Ok m /\
            safe (children_remove m witness_key 7) (fun _ => True).
Proof.
  destruct (run_children empty_children [ChInsert witness_key 7; ChInsert witness_key 8]) as [m| |] eqn:E;
    [|vm_compute in E; discriminate..].
  exists m. split; [reflexivity|].
  pose proof (run_children_refines [ChInsert witness_key 7; ChInsert witness_key 8] _ _ empty_holds) as Hh.
  rewrite E in Hh. cbn [safe] in Hh.
  refine (safe_mono _ _ _ (remove_child_permutation m _ witness_key 7 [7; 8] Hh _ _) (fun _ _ => I)).
  - vm_compute. reflexivity.
  - apply elem_of_cons. left. reflexivity.
Defined.
