(* ===== verification/IndexHealth.v ===== *)
(** * Index health

    [src/protocol/src/IndexHealth.cpp]: the headline status of a volume and the
    list of every condition that applies, both derived from five flags. *)

From S2P Require Import Prelude.

Inductive IndexHealth := FullyIndexed | CurrentlyIndexing | PartiallyIndexed | Unavailable | NeedsReconciliation.

Record VolumeIndexConditions := mkConditions {
  privilegedConnectionActive : bool;
  reachable : bool;
  scanning : bool;
  needsReconciliation : bool;
  partiallyIndexed : bool
}.

Inductive IndexCondition :=
| CondUnavailable | CondCurrentlyIndexing | CondNeedsReconciliation | CondPartiallyIndexed | CondFullyIndexed.

#[export] Instance IndexCondition_eq_dec : EqDecision IndexCondition.
Proof. solve_decision. Defined.

Definition DeriveIndexHealth (conditions : VolumeIndexConditions) : IndexHealth :=
  if negb (privilegedConnectionActive conditions) || negb (reachable conditions) then Unavailable
  else if scanning conditions then CurrentlyIndexing
  else if needsReconciliation conditions then NeedsReconciliation
  else if partiallyIndexed conditions then PartiallyIndexed
  else FullyIndexed.

Definition ApplicableIndexConditions (conditions : VolumeIndexConditions) : list IndexCondition :=
  let result := [] in
  let result := if negb (privilegedConnectionActive conditions) || negb (reachable conditions)
                then result ++ [CondUnavailable] else result in
  let result := if scanning conditions then result ++ [CondCurrentlyIndexing] else result in
  let result := if needsReconciliation conditions then result ++ [CondNeedsReconciliation] else result in
  let result := if partiallyIndexed conditions then result ++ [CondPartiallyIndexed] else result in
  if bool_decide (result = []) then result ++ [CondFullyIndexed] else result.

(** The headline that a condition stands for. *)
Definition headline (c : IndexCondition) : IndexHealth :=
  match c with
  | CondUnavailable => Unavailable
  | CondCurrentlyIndexing => CurrentlyIndexing
  | CondNeedsReconciliation => NeedsReconciliation
  | CondPartiallyIndexed => PartiallyIndexed
  | CondFullyIndexed => FullyIndexed
  end.

(** The condition holds of the flags. *)
Definition applies (conditions : VolumeIndexConditions) (c : IndexCondition) : bool :=
  match c with
  | CondUnavailable => negb (privilegedConnectionActive conditions && reachable conditions)
  | CondCurrentlyIndexing => scanning conditions
  | CondNeedsReconciliation => needsReconciliation conditions
  | CondPartiallyIndexed => partiallyIndexed conditions
  | CondFullyIndexed => privilegedConnectionActive conditions && reachable conditions &&
      negb (scanning conditions || needsReconciliation conditions || partiallyIndexed conditions)
  end.

(** The detail list holds exactly the conditions that apply, each once, in
    precedence order; it is never empty, and its head is the headline status: the
    two derivations cannot disagree. *)
Theorem health_headline_and_detail conditions :
  let detail := ApplicableIndexConditions conditions in
  (forall c, c ∈ detail <-> applies conditions c = true) /\
  detail = filter (fun c => c ∈ detail)
    [CondUnavailable; CondCurrentlyIndexing; CondNeedsReconciliation; CondPartiallyIndexed; CondFullyIndexed] /\
  exists c rest, detail = c :: rest /\ DeriveIndexHealth conditions = headline c.
Proof.
  destruct conditions as [[] [] [] [] []]; cbv zeta;
    (split; [intros c; unfold ApplicableIndexConditions; cbn; rewrite ?elem_of_cons, elem_of_nil;
             destruct c; cbn; naive_solver|split; [reflexivity|by eexists _, _]]).
Qed.
