(* ===== verification/TextMatch.v ===== *)
(** * TextMatch: case-insensitive name matching

    Models the matchers of [src/src/search/src/Query.cpp]: the ASCII folds, the
    anchor scan and the Boyer-Moore-Horspool scan over a prepared needle (in
    their UTF-16 and wide variants), the ordinal scans they replace, and the
    tier classifiers.  A string is the list of its UTF-16 code units
    ([wchar_t] and [char16_t] are both 16 bits wide on the target, so the casts
    between them are the identity); an index is a [nat], since a string in
    memory is far shorter than [SIZE_MAX].  A subscript outside a string or
    outside the 128-entry shift table is [Fault].

    The Win32 call [CompareStringOrdinal (.., ignoreCase = TRUE)] is a parameter;
    what the matchers rely on is the class [OrdinalAscii].  How it compares a unit outside
    ASCII with an ASCII letter is up to the host, and nothing is assumed of it: a theorem that
    needs it speaks of [ordinal_plain] texts. *)

From S2P Require Import Prelude.

(** ** Strings *)

Definition is_ascii_unit (c : Z) : Prop := 0 <= c <= 127.

(** [text[i]] on a [string_view]. *)
Definition char_at (s : list Z) (i : nat) : result Z :=
  match s !! i with Some c => Ok c | None => Fault end.

(** [value.substr (pos, n)] for [pos] inside the string. *)
Definition substr (s : list Z) (pos n : nat) : list Z := take n (drop pos s).

(** [value.find_last_of (c)]. *)
Fixpoint find_last_of (s : list Z) (c : Z) : option nat :=
  match s with
  | [] => None
  | x :: s' =>
      match find_last_of s' c with
      | Some i => Some (S i)
      | None => if x =? c then Some O else None
      end
  end.

Definition IsAscii (value : list Z) : bool := forallb (fun ch => ch <=? 127) value.

Definition FoldAscii16Char (value : Z) : Z :=
  if (65 <=? value) && (value <=? 90) then value + 32 else value.
Definition FoldAsciiWideChar (value : Z) : Z :=
  if (65 <=? value) && (value <=? 90) then value + 32 else value.

Definition FoldAscii16 (value : list Z) : list Z :=
  map (fun ch => if (65 <=? ch) && (ch <=? 90) then ch + 32 else ch) value.

(** ** Preparing a needle *)

Definition AsciiFrequency (value : Z) : Z :=
  match value with
  | 101 => 255 (* e *) | 116 => 245 (* t *) | 97 => 235 (* a *) | 111 => 230 (* o *)
  | 105 => 225 (* i *) | 110 => 220 (* n *) | 115 => 210 (* s *) | 104 => 205 (* h *)
  | 114 => 200 (* r *) | 100 => 185 (* d *) | 108 => 180 (* l *) | 99 => 165 (* c *)
  | 117 => 155 (* u *) | 109 => 150 (* m *) | 119 => 145 (* w *) | 102 => 140 (* f *)
  | 103 => 135 (* g *) | 121 => 130 (* y *) | 112 => 110 (* p *) | 98 => 100 (* b *)
  | 118 => 90 (* v *) | 107 => 80 (* k *) | 106 => 60 (* j *) | 120 => 50 (* x *)
  | 113 => 30 (* q *) | 122 => 20 (* z *) | 95 => 40 (* _ *)
  | _ => 70
  end.

(** The loop [for (index = 1; index < needle.size (); ++index)]; [rest] is the
    needle from [index] on. *)
Fixpoint choose_anchor_loop (needle rest : list Z) (index anchor : nat) : result nat :=
  match rest with
  | [] => Ok anchor
  | c :: rest' =>
      let* a := char_at needle anchor in
      choose_anchor_loop needle rest' (S index)
        (if AsciiFrequency c <? AsciiFrequency a then index else anchor)
  end.

Definition ChooseAsciiAnchor (needle : list Z) : result nat :=
  choose_anchor_loop needle (drop 1 needle) 1 0.

(** [shifts[c] = v] on the [std::array<size_t, 128>]. *)
Definition set_shift (shifts : list nat) (c : Z) (v : nat) : result (list nat) :=
  if (0 <=? c) && (c <? zlen shifts) then Ok (<[Z.to_nat c := v]> shifts) else Fault.

(** [n] more iterations of the loop of [BuildAsciiShifts], from [index]. *)
Fixpoint build_shifts_loop (n index : nat) (needle : list Z) (shifts : list nat)
    : result (list nat) :=
  match n with
  | O => Ok shifts
  | S n' =>
      let shift := (length needle - 1 - index)%nat in
      let* c := char_at needle index in
      let* shifts := set_shift shifts c shift in
      let* shifts := if (97 <=? c) && (c <=? 122)
                     then set_shift shifts (c - 32) shift else Ok shifts in
      build_shifts_loop n' (S index) needle shifts
  end.

Definition BuildAsciiShifts (needle : list Z) : result (list nat) :=
  let shifts := replicate 128 (length needle) in
  if (length needle <? 2)%nat then Ok shifts
  else build_shifts_loop (length needle - 1) 0 needle shifts.

Record AsciiFoldNeedle := {
  ascii : bool;
  value : list Z;
  folded : list Z;
  anchor : Z;
  anchorIndex : nat;
  shifts : list nat
}.

Definition PrepareAsciiFoldNeedle (v : list Z) : result AsciiFoldNeedle :=
  let needle := {| ascii := IsAscii v; value := v; folded := []; anchor := 0;
                   anchorIndex := 0; shifts := replicate 128 0%nat |} in
  if negb needle.(ascii) then Ok needle
  else
    let f := FoldAscii16 v in
    match f with
    | [] => Ok needle
    | _ :: _ =>
        let* i := ChooseAsciiAnchor f in
        let* a := char_at f i in
        let* s := BuildAsciiShifts f in
        Ok {| ascii := true; value := v; folded := f; anchor := a; anchorIndex := i; shifts := s |}
    end.

(** ** The scans *)

(** The loop of [FoldedWindowEquals16]; [pos] is [start + index]. *)
Fixpoint FoldedWindowEquals16 (haystack : list Z) (pos : nat) (folded : list Z) : result bool :=
  match folded with
  | [] => Ok true
  | c :: folded' =>
      let* h := char_at haystack pos in
      if FoldAscii16Char h =? c then FoldedWindowEquals16 haystack (S pos) folded' else Ok false
  end.

Fixpoint FoldedWindowEqualsWide (haystack : list Z) (pos : nat) (folded : list Z) : result bool :=
  match folded with
  | [] => Ok true
  | c :: folded' =>
      let* h := char_at haystack pos in
      if FoldAsciiWideChar h =? c then FoldedWindowEqualsWide haystack (S pos) folded' else Ok false
  end.

(** [n] more iterations of the loop of [AnchorContainsFold], from [position]. *)
Fixpoint anchor_loop (n position : nat) (haystack folded : list Z) (anchor : Z)
    (anchorIndex : nat) : result bool :=
  match n with
  | O => Ok false
  | S n' =>
      let* h := char_at haystack position in
      if negb (FoldAscii16Char h =? anchor)
      then anchor_loop n' (S position) haystack folded anchor anchorIndex
      else
        let start := (position - anchorIndex)%nat in
        if (length haystack <? start + length folded)%nat then Ok false
        else
          let* eq := FoldedWindowEquals16 haystack start folded in
          if eq then Ok true else anchor_loop n' (S position) haystack folded anchor anchorIndex
  end.

Definition AnchorContainsFold (haystack folded : list Z) (anchor : Z) (anchorIndex : nat)
    : result bool :=
  match folded with
  | [] => Ok true
  | _ :: _ =>
      if (length haystack <? length folded)%nat then Ok false
      else anchor_loop (length haystack - anchorIndex) anchorIndex haystack folded anchor anchorIndex
  end.

Fixpoint anchor_loop_wide (n position : nat) (haystack : list Z) (needle : AsciiFoldNeedle)
    : result bool :=
  match n with
  | O => Ok false
  | S n' =>
      let* h := char_at haystack position in
      if negb (FoldAsciiWideChar h =? needle.(anchor))
      then anchor_loop_wide n' (S position) haystack needle
      else
        let start := (position - needle.(anchorIndex))%nat in
        if (length haystack <? start + length needle.(folded))%nat then Ok false
        else
          let* eq := FoldedWindowEqualsWide haystack start needle.(folded) in
          if eq then Ok true else anchor_loop_wide n' (S position) haystack needle
  end.

Definition AnchorContainsFoldWide (haystack : list Z) (needle : AsciiFoldNeedle) : result bool :=
  anchor_loop_wide (length haystack - needle.(anchorIndex)) needle.(anchorIndex) haystack needle.

(** [raw < shifts.size () ? shifts[raw] : needle.size ()]. *)
Definition shift_of (shifts : list nat) (needle : list Z) (raw : Z) : result nat :=
  if raw <? zlen shifts
  then match shifts !! Z.to_nat raw with Some k => Ok k | None => Fault end
  else Ok (length needle).

(** The [while (position < haystack.size ())] loop.  Running out of [fuel] is
    [Fault], so a theorem that the loop returns [Ok] includes its termination. *)
Fixpoint horspool_loop (fuel position : nat) (haystack needle : list Z) (shifts : list nat)
    : result bool :=
  match fuel with
  | O => Fault
  | S fuel' =>
      if (position <? length haystack)%nat then
        let lastIndex := (length needle - 1)%nat in
        let* rawTail := char_at haystack position in
        let* back := char_at needle lastIndex in
        let* hit := if FoldAscii16Char rawTail =? back
                    then FoldedWindowEquals16 haystack (position - lastIndex) needle
                    else Ok false in
        if hit then Ok true
        else
          let* k := shift_of shifts needle rawTail in
          horspool_loop fuel' (position + k) haystack needle shifts
      else Ok false
  end.

(** Every shift is at least 1, so one step more than the haystack has units is
    enough. *)
Definition BoyerMooreHorspoolContains (haystack needle : list Z) (shifts : list nat)
    : result bool :=
  match needle with
  | [] => Ok true
  | _ :: _ =>
      if (length haystack <? length needle)%nat then Ok false
      else horspool_loop (S (length haystack)) (length needle - 1) haystack needle shifts
  end.

Fixpoint horspool_loop_wide (fuel position : nat) (haystack : list Z) (needle : AsciiFoldNeedle)
    : result bool :=
  match fuel with
  | O => Fault
  | S fuel' =>
      if (position <? length haystack)%nat then
        let lastIndex := (length needle.(folded) - 1)%nat in
        let* rawTail := char_at haystack position in
        let* back := char_at needle.(folded) lastIndex in
        let* hit := if FoldAsciiWideChar rawTail =? back
                    then FoldedWindowEqualsWide haystack (position - lastIndex) needle.(folded)
                    else Ok false in
        if hit then Ok true
        else
          let* k := shift_of needle.(shifts) needle.(folded) rawTail in
          horspool_loop_wide fuel' (position + k) haystack needle
      else Ok false
  end.

Definition BoyerMooreHorspoolContainsWide (haystack : list Z) (needle : AsciiFoldNeedle)
    : result bool :=
  horspool_loop_wide (S (length haystack)) (length needle.(folded) - 1) haystack needle.

(** ** Matchers over the ordinal comparison *)

Definition CSTR_EQUAL : Z := 2.

Inductive MatchTier := Exact | Prefix | Substring | PathOnly.

(** [static_cast<int> (tier)]. *)
Definition tier_int (t : MatchTier) : Z :=
  match t with Exact => 0 | Prefix => 1 | Substring => 2 | PathOnly => 3 end.

Section ordinal.
(** [CompareStringOrdinal (left, |left|, right, |right|, TRUE)]. *)
Context (CompareStringOrdinal : list Z -> list Z -> Z).

Definition CompareOrdinal16 (left right : list Z) : Z :=
  CompareStringOrdinal left right - CSTR_EQUAL.

(** The loop [for (index = 0; index + needle.size () <= haystack.size (); ++index)]
    over the windows of the haystack; [n] alignments from [index]. *)
Fixpoint ordinal_scan (n index : nat) (haystack needle : list Z) : bool :=
  match n with
  | O => false
  | S n' =>
      if CompareOrdinal16 (substr haystack index (length needle)) needle =? 0 then true
      else ordinal_scan n' (S index) haystack needle
  end.

Definition alignments (haystack needle : list Z) : nat :=
  (S (length haystack) - length needle)%nat.

Definition OrdinalContains16 (haystack needle : list Z) : bool :=
  match needle with
  | [] => true
  | _ :: _ =>
      if (length haystack <? length needle)%nat then false
      else ordinal_scan (alignments haystack needle) 0 haystack needle
  end.

Definition OrdinalContains16Prepared (haystack needle foldedNeedle : list Z) (shifts : list nat)
    (nameIsAscii : bool) (anchor : Z) (anchorIndex : nat) : result bool :=
  match needle with
  | [] => Ok true
  | _ :: _ =>
      if (length haystack <? length needle)%nat then Ok false
      else if negb (bool_decide (foldedNeedle = [])) && nameIsAscii
      then if (4 <=? length foldedNeedle)%nat
           then BoyerMooreHorspoolContains haystack foldedNeedle shifts
           else AnchorContainsFold haystack foldedNeedle anchor anchorIndex
      else Ok (ordinal_scan (alignments haystack needle) 0 haystack needle)
  end.

(** The loop of [OrdinalContains] calls the Win32 function directly. *)
Fixpoint ordinal_scan_wide (n i : nat) (h nd : list Z) : bool :=
  match n with
  | O => false
  | S n' =>
      if CompareStringOrdinal (substr h i (length nd)) nd =? CSTR_EQUAL then true
      else ordinal_scan_wide n' (S i) h nd
  end.

Definition OrdinalContains (h nd : list Z) : bool :=
  match nd with
  | [] => true
  | _ :: _ => ordinal_scan_wide (alignments h nd) 0 h nd
  end.

Definition AsciiFoldContains (haystack : list Z) (needle : AsciiFoldNeedle) : result bool :=
  if negb needle.(ascii) || bool_decide (needle.(folded) = [])
  then Ok (OrdinalContains haystack needle.(value))
  else if (length haystack <? length needle.(folded))%nat then Ok false
  else if (4 <=? length needle.(folded))%nat
  then BoyerMooreHorspoolContainsWide haystack needle
  else AnchorContainsFoldWide haystack needle.

(** The shared shape of the unit-by-unit loops of [AsciiFoldEquals],
    [FoldedEquals16] and [FoldedStartsWith16]: compare [left[pos + index]] with
    every unit of [right]. *)
Fixpoint fold_equals_at (left : list Z) (pos : nat) (right : list Z) : result bool :=
  match right with
  | [] => Ok true
  | r :: right' =>
      let* l := char_at left pos in
      if FoldAscii16Char l =? FoldAsciiWideChar r then fold_equals_at left (S pos) right'
      else Ok false
  end.

Definition AsciiFoldEquals (left right : list Z) : result bool :=
  if negb (length left =? length right)%nat then Ok false else fold_equals_at left 0 right.

Definition AsciiFoldStartsWith (value prefix : list Z) : result bool :=
  if (length value <? length prefix)%nat then Ok false
  else AsciiFoldEquals (substr value 0 (length prefix)) prefix.

(** [OrdinalEqual] and [OrdinalStartsWith] of Search.cpp. *)
Definition OrdinalEqual (left right : list Z) : bool :=
  (length left =? length right)%nat && (CompareStringOrdinal left right =? CSTR_EQUAL).

Definition OrdinalStartsWith (value prefix : list Z) : bool :=
  (length prefix <=? length value)%nat &&
  (CompareStringOrdinal (substr value 0 (length prefix)) prefix =? CSTR_EQUAL).

Definition FoldedEquals16 (name term : list Z) : result bool :=
  if negb (length name =? length term)%nat then Ok false
  else if IsAscii term then fold_equals_at name 0 term
  else Ok (CompareOrdinal16 name term =? 0).

Definition FoldedStartsWith16 (name term : list Z) : result bool :=
  if (length name <? length term)%nat then Ok false
  else if IsAscii term then fold_equals_at name 0 term
  else Ok (CompareOrdinal16 (substr name 0 (length term)) term =? 0).

(** The ASCII branch of [FoldedContains16]: [n] alignments from [start]. *)
Fixpoint fold_scan (n start : nat) (name term : list Z) : result bool :=
  match n with
  | O => Ok false
  | S n' =>
      let* equal := fold_equals_at name start term in
      if equal then Ok true else fold_scan n' (S start) name term
  end.

Definition FoldedContains16 (name term : list Z) : result bool :=
  match term with
  | [] => Ok true
  | _ :: _ =>
      if (length name <? length term)%nat then Ok false
      else if IsAscii term then fold_scan (alignments name term) 0 name term
      else Ok (ordinal_scan (alignments name term) 0 name term)
  end.

(** [stem.substr (0, dot)] where there is a dot. *)
Definition stem_of (name : list Z) : list Z :=
  match find_last_of name 46 with Some dot => substr name 0 dot | None => name end.

Definition ClassifyMatchView (name term : list Z) : result MatchTier :=
  match term with
  | [] => Ok Substring
  | _ :: _ =>
      let* e1 := FoldedEquals16 (stem_of name) term in
      let* e2 := if e1 then Ok true else FoldedEquals16 name term in
      if e2 then Ok Exact else
      let* p := FoldedStartsWith16 name term in
      if p then Ok Prefix else
      let* s := FoldedContains16 name term in
      if s then Ok Substring else Ok PathOnly
  end.

(** [ClassifyMatch] of Search.cpp, on the name of a candidate. *)
Definition ClassifyMatch (name term : list Z) : result MatchTier :=
  match term with
  | [] => Ok Substring
  | _ :: _ =>
      let* needle := PrepareAsciiFoldNeedle term in
      let equals v := if needle.(ascii) then AsciiFoldEquals v term
                      else Ok (OrdinalEqual v term) in
      let startsWith v := if needle.(ascii) then AsciiFoldStartsWith v term
                          else Ok (OrdinalStartsWith v term) in
      let* e1 := equals (stem_of name) in
      let* e2 := if e1 then Ok true else equals name in
      if e2 then Ok Exact else
      let* p := startsWith name in
      if p then Ok Prefix else
      let* s := if needle.(ascii) then AsciiFoldContains name needle
                else Ok (OrdinalContains name term) in
      if s then Ok Substring else Ok PathOnly
  end.
End ordinal.

(** What the matchers rely on.  On two ASCII strings of one length, ignoring case
    is comparing the ASCII folds (Query.h records that this was tested for all
    pairs of units): all that the prepared matcher of ASCII names needs.  *)
Class OrdinalAscii (CompareStringOrdinal : list Z -> list Z -> Z) := {
  ordinal_ascii_fold : forall window needle,
    Forall is_ascii_unit window -> Forall is_ascii_unit needle -> length window = length needle ->
    (CompareStringOrdinal window needle = CSTR_EQUAL <->
     FoldAscii16 window = FoldAscii16 needle)
}.

(** A text no window of which the host equates with an ASCII string unless it is ASCII itself.
    Every ASCII text is one; of other texts it depends on the host (U+212A, the Kelvin sign,
    may or may not equal the letter k). *)
Definition ordinal_plain (CompareStringOrdinal : list Z -> list Z -> Z) (text : list Z) : Prop :=
  forall i needle, Forall is_ascii_unit needle -> (i + length needle <= length text)%nat ->
    CompareStringOrdinal (substr text i (length needle)) needle = CSTR_EQUAL ->
    Forall is_ascii_unit (substr text i (length needle)).

(** The comparison the wide matchers make: an ASCII needle is compared up to ASCII case,
    whatever the host equates it with. *)
Definition FoldCompare (CompareStringOrdinal : list Z -> list Z -> Z) (window needle : list Z) : Z :=
  if IsAscii needle
  then (if bool_decide (FoldAscii16 window = FoldAscii16 needle) then CSTR_EQUAL else 1)
  else CompareStringOrdinal window needle.

(** ** Specification: occurrences up to ASCII case *)

(** [needle], already folded, occurs in [haystack] at [i]. *)
Definition occurs_at (haystack needle : list Z) (i : nat) : Prop :=
  (i + length needle <= length haystack)%nat /\
  FoldAscii16 (substr haystack i (length needle)) = needle.

Definition FoldOccurs (haystack needle : list Z) : Prop :=
  exists pre window post, haystack = pre ++ window ++ post /\ FoldAscii16 window = needle.

(** A scan that returns, and whose answer decides [P]. *)
Definition decides (r : result bool) (P : Prop) : Prop :=
  exists b, r = Ok b /\ (b = true <-> P).

Lemma decides_true (P : Prop) : P -> decides (Ok true) P.
Proof. exists true. tauto. Qed.
Lemma decides_false (P : Prop) : ~ P -> decides (Ok false) P.
Proof. exists false. split; [done|]. split; [done|tauto]. Qed.
Lemma decides_Ok b (P : Prop) : (b = true <-> P) -> decides (Ok b) P.
Proof. exists b. tauto. Qed.
Lemma decides_iff r (P Q : Prop) : decides r P -> (P <-> Q) -> decides r Q.
Proof. intros (b & -> & Hb) HPQ. exists b. tauto. Qed.
Lemma decides_bind_or r (k : result bool) (P Q : Prop) :
  decides r P -> (~ P -> decides k Q) ->
  decides (let* b := r in if b then Ok true else k) (P \/ Q).
Proof.
  intros (b & -> & Hb) Hk. simpl. destruct b.
  - apply decides_true. left. by apply Hb.
  - destruct Hk as (b & -> & Hb'); [intros HP; apply Hb in HP; done|].
    exists b. intuition congruence.
Qed.
Lemma decides_unique r (P Q : Prop) : decides r P -> decides r Q -> (P <-> Q).
Proof. intros (b & -> & Hb) (b' & [= <-] & Hb'). tauto. Qed.
Lemma decides_eq r r' (P : Prop) : decides r P -> decides r' P -> r = r'.
Proof.
  intros (b & -> & Hb) (b' & -> & Hb'). f_equal. destruct b, b'; tauto || intuition congruence.
Qed.

Lemma fold_wide_16 c : FoldAsciiWideChar c = FoldAscii16Char c.
Proof. done. Qed.

Lemma FoldAscii16_map s : FoldAscii16 s = map FoldAscii16Char s.
Proof. done. Qed.

Lemma length_FoldAscii16 s : length (FoldAscii16 s) = length s.
Proof. apply length_map. Qed.

Lemma fold_char_idem c : FoldAscii16Char (FoldAscii16Char c) = FoldAscii16Char c.
Proof.
  unfold FoldAscii16Char. destruct (Z.leb_spec 65 c), (Z.leb_spec c 90); simpl; try done;
    destruct (Z.leb_spec 65 (c + 32)), (Z.leb_spec (c + 32) 90),
      (Z.leb_spec 65 c), (Z.leb_spec c 90); simpl; lia.
Qed.

Lemma FoldAscii16_idem s : FoldAscii16 (FoldAscii16 s) = FoldAscii16 s.
Proof.
  induction s as [|c s IH]; [done|].
  change (FoldAscii16Char (FoldAscii16Char c) :: FoldAscii16 (FoldAscii16 s)
          = FoldAscii16Char c :: FoldAscii16 s). by rewrite fold_char_idem, IH.
Qed.

Lemma fold_char_ascii c : is_ascii_unit c -> is_ascii_unit (FoldAscii16Char c).
Proof.
  unfold is_ascii_unit, FoldAscii16Char. intros.
  destruct (Z.leb_spec 65 c), (Z.leb_spec c 90); simpl; lia.
Qed.

Lemma FoldAscii16_ascii s : Forall is_ascii_unit s -> Forall is_ascii_unit (FoldAscii16 s).
Proof. rewrite FoldAscii16_map. induction 1; constructor; auto using fold_char_ascii. Qed.

(** A string that folds to an ASCII string is ASCII. *)
Lemma fold_ascii_inv w nd :
  Forall is_unit w -> Forall is_ascii_unit nd -> FoldAscii16 w = FoldAscii16 nd ->
  Forall is_ascii_unit w.
Proof.
  intros Hw Hnd He. apply FoldAscii16_ascii in Hnd. rewrite <-He in Hnd. clear He nd.
  induction Hw as [|c w Hc _ IH]; [done|]. change (FoldAscii16 (c :: w)) with
    (FoldAscii16Char c :: FoldAscii16 w) in Hnd. rewrite Forall_cons in Hnd.
  destruct Hnd as [Hc' Hnd]. constructor; [|auto]. unfold is_ascii_unit, is_unit, FoldAscii16Char in *.
  destruct (Z.leb_spec 65 c), (Z.leb_spec c 90); simpl in *; lia.
Qed.

Lemma IsAscii_spec s : Forall is_unit s -> (IsAscii s = true <-> Forall is_ascii_unit s).
Proof.
  unfold IsAscii, is_unit, is_ascii_unit. intros Hu. rewrite forallb_forall, Forall_forall.
  rewrite Forall_forall in Hu. split; intros H c Hc.
  - apply list_elem_of_In in Hc as Hi. specialize (H c Hi). specialize (Hu c Hc). lia.
  - apply list_elem_of_In in Hc. specialize (H c Hc). lia.
Qed.

(** Concrete strings are checked by evaluation. *)
Lemma units_check s : forallb (fun c => (0 <=? c) && (c <? 65536)) s = true -> Forall is_unit s.
Proof.
  intros H. rewrite forallb_forall in H. apply Forall_forall. intros c Hc%list_elem_of_In.
  apply H in Hc. unfold is_unit. lia.
Qed.
Lemma ascii_check s : forallb (fun c => (0 <=? c) && (c <=? 127)) s = true -> Forall is_ascii_unit s.
Proof.
  intros H. rewrite forallb_forall in H. apply Forall_forall. intros c Hc%list_elem_of_In.
  apply H in Hc. unfold is_ascii_unit. lia.
Qed.
Ltac solve_wide_literal :=
  first [apply units_check | apply ascii_check]; vm_compute; reflexivity.

Lemma char_at_lt s i : (i < length s)%nat -> exists c, s !! i = Some c /\ char_at s i = Ok c.
Proof.
  intros Hi. destruct (lookup_lt_is_Some_2 s i Hi) as [c Hc].
  exists c. unfold char_at. by rewrite Hc.
Qed.

Lemma substr_cons s i n c :
  s !! i = Some c -> substr s i (S n) = c :: substr s (S i) n.
Proof. intros Hc. unfold substr. by rewrite (drop_S s c i Hc). Qed.

Lemma occurs_at_iff haystack needle :
  FoldOccurs haystack needle <-> exists i, occurs_at haystack needle i.
Proof.
  split.
  - intros (pre & w & post & -> & Hf). exists (length pre). unfold occurs_at, substr.
    assert (length w = length needle) as Hl by (rewrite <-Hf; symmetry; apply length_FoldAscii16).
    rewrite !length_app, drop_app_length. split; [lia|]. by rewrite take_app_length' by lia.
  - intros (i & Hi & Hf). exists (take i haystack), (substr haystack i (length needle)),
      (drop (length needle) (drop i haystack)).
    split; [|done]. unfold substr. by rewrite take_drop, take_drop.
Qed.

Lemma FoldAscii16_cons c s : FoldAscii16 (c :: s) = FoldAscii16Char c :: FoldAscii16 s.
Proof. done. Qed.

Lemma FoldedWindowEquals16_spec haystack folded pos :
  (pos + length folded <= length haystack)%nat ->
  decides (FoldedWindowEquals16 haystack pos folded)
    (FoldAscii16 (substr haystack pos (length folded)) = folded).
Proof.
  revert pos. induction folded as [|c folded IH]; intros pos Hl; simpl in Hl.
  { by apply decides_true. }
  cbn [FoldedWindowEquals16 length]. destruct (char_at_lt haystack pos) as (h & Hh & ->); [lia|].
  rewrite (substr_cons _ _ _ h Hh), FoldAscii16_cons. cbn [bind].
  destruct (Z.eqb_spec (FoldAscii16Char h) c) as [->|Hne].
  - eapply decides_iff; [apply IH; lia|]. split; [by intros ->|by intros [=]].
  - apply decides_false. congruence.
Qed.

Lemma FoldedWindowEqualsWide_16 haystack pos folded :
  FoldedWindowEqualsWide haystack pos folded = FoldedWindowEquals16 haystack pos folded.
Proof.
  revert pos. induction folded as [|c folded IH]; intros pos; [done|].
  cbn [FoldedWindowEqualsWide FoldedWindowEquals16]. destruct (char_at haystack pos); [|done..].
  cbn [bind]. rewrite fold_wide_16. by rewrite IH.
Qed.

Lemma occurs_at_lookup haystack needle i j c :
  occurs_at haystack needle i -> needle !! j = Some c ->
  exists h, haystack !! (i + j)%nat = Some h /\ FoldAscii16Char h = c.
Proof.
  intros [Hl Hf] Hj. rewrite <-Hf in Hj. rewrite FoldAscii16_map in Hj.
  rewrite list_lookup_fmap in Hj. unfold substr in Hj.
  assert (j < length needle)%nat as Hlt.
  { destruct (decide (j < length needle)%nat); [done|].
    rewrite lookup_take_ge in Hj by lia. done. }
  rewrite lookup_take_lt, lookup_drop in Hj by done.
  destruct (haystack !! (i + j)%nat) as [h|] eqn:E; [|done].
  simpl in Hj. injection Hj as <-. eauto.
Qed.

Lemma decides_occurs_at haystack needle i :
  (i + length needle <= length haystack)%nat ->
  decides (FoldedWindowEquals16 haystack i needle) (occurs_at haystack needle i).
Proof.
  intros Hl. eapply decides_iff; [by apply FoldedWindowEquals16_spec|].
  unfold occurs_at. tauto.
Qed.

(** ** The anchor scan *)

Lemma choose_anchor_loop_ok needle rest index a :
  (a < length needle)%nat -> (index + length rest = length needle)%nat ->
  exists b, choose_anchor_loop needle rest index a = Ok b /\ (b < length needle)%nat.
Proof.
  revert index a. induction rest as [|c rest IH]; intros index a Ha Hl; simpl in Hl; [eauto|].
  cbn [choose_anchor_loop]. destruct (char_at_lt needle a Ha) as (x & _ & ->). cbn [bind].
  apply IH; [|lia]. destruct (_ <? _); lia.
Qed.

Lemma ChooseAsciiAnchor_ok needle :
  needle <> [] -> exists i, ChooseAsciiAnchor needle = Ok i /\ (i < length needle)%nat.
Proof.
  intros Hne. apply choose_anchor_loop_ok; destruct needle; simpl; [done|lia|done|].
  rewrite drop_0. lia.
Qed.

Section anchor_scan.
Context (haystack folded : list Z) (a : Z) (ai : nat).
Hypothesis Ha : folded !! ai = Some a.

Lemma anchor_loop_spec n position :
  (ai <= position)%nat -> (position + n = length haystack)%nat ->
  decides (anchor_loop n position haystack folded a ai)
    (exists i, (position - ai <= i)%nat /\ occurs_at haystack folded i).
Proof.
  apply lookup_lt_Some in Ha as Hai.
  revert position. induction n as [|n IH]; intros position Hp Hn; cbn [anchor_loop].
  - apply decides_false. intros (i & Hi & Hl & _). lia.
  - destruct (char_at_lt haystack position) as (h & Hh & ->); [lia|]. cbn [bind].
    assert (forall i, occurs_at haystack folded i -> i = (position - ai)%nat ->
      FoldAscii16Char h = a) as Hanchor.
    { intros i Ho ->. destruct (occurs_at_lookup _ _ _ _ _ Ho Ha) as (h' & Hh' & <-).
      replace (position - ai + ai)%nat with position in Hh' by lia. congruence. }
    assert ((exists i, (S position - ai <= i)%nat /\ occurs_at haystack folded i) ->
      exists i, (position - ai <= i)%nat /\ occurs_at haystack folded i) as Hmono.
    { intros (i & ? & ?). exists i. split; [lia|done]. }
    destruct (Z.eqb_spec (FoldAscii16Char h) a) as [Heq|Hne]; cbn [negb].
    + destruct (Nat.ltb_spec (length haystack) (position - ai + length folded)).
      { apply decides_false. intros (i & Hi & Hl & _). lia. }
      eapply decides_iff; [apply decides_bind_or;
        [by apply decides_occurs_at|intros _; apply IH; lia]|]. split.
      * intros [Ho|?]; [|auto]. eexists. split; [|exact Ho]. lia.
      * intros (i & Hi & Ho). destruct (decide (i = position - ai)%nat) as [->|]; [by left|].
        right. exists i. split; [lia|done].
    + eapply decides_iff; [apply IH; lia|]. split; [auto|].
      intros (i & Hi & Ho). exists i. split; [|done].
      destruct (decide (i = position - ai)%nat); [exfalso; eauto|lia].
Qed.

Lemma AnchorContainsFold_spec :
  decides (AnchorContainsFold haystack folded a ai) (FoldOccurs haystack folded).
Proof.
  apply lookup_lt_Some in Ha as Hai.
  assert (AnchorContainsFold haystack folded a ai =
    if (length haystack <? length folded)%nat then Ok false
    else anchor_loop (length haystack - ai) ai haystack folded a ai) as ->.
  { clear Ha. destruct folded; [simpl in Hai; lia|done]. }
  destruct (Nat.ltb_spec (length haystack) (length folded)).
  - apply decides_false. rewrite occurs_at_iff. intros (i & Hl & _). lia.
  - eapply decides_iff; [apply anchor_loop_spec; lia|]. rewrite occurs_at_iff. split.
    + intros (i & _ & Ho). eauto.
    + intros (i & Ho). exists i. split; [lia|done].
Qed.
End anchor_scan.

Lemma anchor_loop_wide_16 n position haystack nd :
  anchor_loop_wide n position haystack nd =
  anchor_loop n position haystack nd.(folded) nd.(anchor) nd.(anchorIndex).
Proof.
  revert position. induction n as [|n IH]; intros position; [done|].
  cbn [anchor_loop_wide anchor_loop]. destruct (char_at haystack position); [|done..].
  cbn [bind]. by rewrite fold_wide_16, FoldedWindowEqualsWide_16, IH.
Qed.

(** ** The shift table *)

(** [shifts_bound needle k s]: the cells written by the first [k] iterations. *)
Definition shifts_bound (needle : list Z) (k : nat) (s : list nat) : Prop :=
  length s = 128%nat /\
  (forall j v, s !! j = Some v -> (1 <= v <= length needle)%nat) /\
  (forall i c, (i < k)%nat -> needle !! i = Some c -> forall r, FoldAscii16Char r = c ->
     exists v, s !! Z.to_nat r = Some v /\ (v <= length needle - 1 - i)%nat).

Lemma set_shift_Ok (s : list nat) c v :
  0 <= c < zlen s -> set_shift s c v = Ok (<[Z.to_nat c := v]> s).
Proof.
  intros. unfold set_shift.
  by rewrite (proj2 (Z.leb_le 0 c)), (proj2 (Z.ltb_lt c (zlen s))) by lia.
Qed.

Lemma insert_below (s : list nat) (j j' v w b : nat) :
  s !! j = Some w -> (w <= b)%nat -> (v <= b)%nat ->
  exists w', <[j' := v]> s !! j = Some w' /\ (w' <= b)%nat.
Proof.
  intros Hj Hw Hv. destruct (decide (j = j')) as [->|].
  - exists v. rewrite list_lookup_insert_eq; [done|]. by eapply lookup_lt_Some.
  - exists w. by rewrite list_lookup_insert_ne.
Qed.

(** The units that fold to the folded unit [c]. *)
Lemma fold_char_inv r c :
  FoldAscii16Char r = c -> r = c \/ (r = c - 32 /\ 97 <= c <= 122).
Proof.
  unfold FoldAscii16Char. destruct (Z.leb_spec 65 r), (Z.leb_spec r 90); simpl; lia.
Qed.

(** One write below the bound keeps the table invariant. *)
Lemma shifts_bound_insert needle k s j v :
  shifts_bound needle k s -> (1 <= v)%nat -> (v <= length needle - k)%nat ->
  (v <= length needle)%nat -> (forall i, (i < k)%nat -> (v <= length needle - 1 - i)%nat) ->
  shifts_bound needle k (<[j := v]> s).
Proof.
  intros (Hl & Hr & Hb) H1 _ Hv Hlt. split; [by rewrite length_insert|]. split.
  - intros i w Hw. apply list_lookup_insert_Some in Hw as [(-> & <- & _)|[_ Hw]]; eauto.
  - intros i c Hi Hc r Hrc. destruct (Hb i c Hi Hc r Hrc) as (w & Hw & Hle).
    eapply insert_below; eauto.
Qed.

Lemma build_shifts_loop_spec n index needle s :
  Forall is_ascii_unit needle -> (index + n = length needle - 1)%nat ->
  shifts_bound needle index s ->
  exists s', build_shifts_loop n index needle s = Ok s' /\
             shifts_bound needle (length needle - 1) s'.
Proof.
  intros Hasc. revert index s. induction n as [|n IH]; intros index s Hn Hs; cbn [build_shifts_loop].
  { exists s. split; [done|]. by replace (length needle - 1)%nat with index by lia. }
  destruct (char_at_lt needle index) as (c & Hc & ->); [lia|]. cbn [bind].
  assert (is_ascii_unit c) as Hac by (eapply Forall_lookup_1; eauto). unfold is_ascii_unit in Hac.
  set (v := (length needle - 1 - index)%nat).
  assert (length s = 128%nat) as Hls by apply Hs.
  rewrite set_shift_Ok by (unfold zlen; lia). cbn [bind].
  assert (shifts_bound needle index (<[Z.to_nat c := v]> s)) as Hs1
    by (apply shifts_bound_insert; [done|unfold v; lia..]).
  assert ((<[Z.to_nat c := v]> s) !! Z.to_nat c = Some v) as Hcv
    by (apply list_lookup_insert_eq; lia).
  assert (forall r, (97 <=? c) && (c <=? 122) = false -> FoldAscii16Char r = c -> r = c) as Hnl.
  { intros r Hb Hr. apply andb_false_iff in Hb. apply fold_char_inv in Hr as [?|[_ ?]]; [done|].
    rewrite !Z.leb_gt in Hb. lia. }
  destruct ((97 <=? c) && (c <=? 122)) eqn:El.
  - bool_prop. rewrite set_shift_Ok by (unfold zlen; rewrite length_insert; lia). cbn [bind].
    apply IH; [lia|].
    assert (shifts_bound needle index (<[Z.to_nat (c - 32) := v]> (<[Z.to_nat c := v]> s))) as Hs2
      by (apply shifts_bound_insert; [done|unfold v; lia..]).
    split; [apply Hs2|]. split; [apply Hs2|]. intros i d Hi Hd r Hr.
    destruct (decide (i = index)) as [->|]; [|eapply Hs2; eauto; lia].
    replace d with c in * by congruence.
    apply fold_char_inv in Hr as [->|[-> _]].
    + rewrite list_lookup_insert_ne by lia. exists v. unfold v in *. by rewrite Hcv.
    + exists v. rewrite list_lookup_insert_eq by (rewrite length_insert; lia). done.
  - apply IH; [lia|]. split; [apply Hs1|]. split; [apply Hs1|]. intros i d Hi Hd r Hr.
    destruct (decide (i = index)) as [->|]; [|eapply Hs1; eauto; lia].
    replace d with c in * by congruence. rewrite (Hnl r); [|done..]. eauto.
Qed.

Lemma BuildAsciiShifts_spec needle :
  Forall is_ascii_unit needle -> needle <> [] ->
  exists s, BuildAsciiShifts needle = Ok s /\ shifts_bound needle (length needle - 1) s.
Proof.
  intros Hasc Hne. unfold BuildAsciiShifts.
  assert (1 <= length needle)%nat as Hl by (destruct needle; simpl; [done|lia]).
  assert (shifts_bound needle 0 (replicate 128 (length needle))) as H0.
  { split; [by rewrite length_replicate|]. split; [|lia].
    intros j v Hj. apply lookup_replicate in Hj. lia. }
  destruct (Nat.ltb_spec (length needle) 2).
  - eexists. split; [done|]. by replace (length needle - 1)%nat with 0%nat by lia.
  - apply build_shifts_loop_spec; [done|lia|done].
Qed.

(** ** The Boyer-Moore-Horspool scan *)

Section horspool.
Context (haystack needle : list Z) (s : list nat).
Hypothesis Hunits : Forall is_unit haystack.
Hypothesis Hascii : Forall is_ascii_unit needle.
Hypothesis Hne : needle <> [].
Hypothesis Hs : shifts_bound needle (length needle - 1) s.

Lemma shift_of_spec raw :
  is_unit raw ->
  exists k, shift_of s needle raw = Ok k /\ (1 <= k <= length needle)%nat /\
    forall i c, (i < length needle - 1)%nat -> needle !! i = Some c -> FoldAscii16Char raw = c ->
      (k <= length needle - 1 - i)%nat.
Proof.
  intros Hu. destruct Hs as (Hl & Hr & Hb). unfold shift_of, is_unit in *.
  destruct (Z.ltb_spec raw (zlen s)) as [Hlt|Hge]; unfold zlen in *.
  - destruct (lookup_lt_is_Some_2 s (Z.to_nat raw)) as [k Hk]; [lia|]. rewrite Hk.
    exists k. split; [done|]. split; [eauto|]. intros i c Hi Hc Hf.
    destruct (Hb i c Hi Hc raw Hf) as (v & Hv & ?). congruence.
  - exists (length needle). split; [done|]. split; [destruct needle; simpl; [done|lia]|].
    intros i c Hi Hc Hf. assert (is_ascii_unit c) as Hac by (eapply Forall_lookup_1; eauto).
    unfold is_ascii_unit in Hac. apply fold_char_inv in Hf. lia.
Qed.

(** The alignments skipped by the bad-character shift hold no occurrence. *)
Lemma horspool_skip position raw k i :
  (length needle - 1 <= position)%nat -> haystack !! position = Some raw ->
  (forall i c, (i < length needle - 1)%nat -> needle !! i = Some c -> FoldAscii16Char raw = c ->
      (k <= length needle - 1 - i)%nat) -> (k <= length needle)%nat ->
  occurs_at haystack needle i ->
  (position - (length needle - 1) < i)%nat -> (position + k - (length needle - 1) <= i)%nat.
Proof.
  intros Hp Hraw Hk Hkm Ho Hi.
  assert (1 <= length needle)%nat by (destruct needle; simpl; [done|lia]).
  destruct (decide (position + k - (length needle - 1) <= i)%nat); [done|].
  destruct (lookup_lt_is_Some_2 needle (position - i)) as [c Hc]; [lia|].
  destruct (occurs_at_lookup _ _ _ _ _ Ho Hc) as (h & Hh & Hf).
  replace (i + (position - i))%nat with position in Hh by lia.
  assert (h = raw) as -> by congruence.
  assert (k <= length needle - 1 - (position - i))%nat by (apply (Hk _ c); [lia|done|done]). lia.
Qed.

Lemma horspool_loop_spec fuel position :
  (length needle - 1 <= position)%nat -> (0 < fuel)%nat ->
  (length haystack < position + fuel)%nat ->
  decides (horspool_loop fuel position haystack needle s)
    (exists i, (position - (length needle - 1) <= i)%nat /\ occurs_at haystack needle i).
Proof.
  assert (1 <= length needle)%nat as Hm by (destruct needle; simpl; [done|lia]).
  revert position. induction fuel as [|fuel IH]; intros position Hp Hpos Hf; cbn [horspool_loop]; [lia|].
  destruct (Nat.ltb_spec position (length haystack)) as [Hlt|Hge].
  2:{ apply decides_false. intros (i & Hi & Hl & _). lia. }
  destruct (char_at_lt haystack position Hlt) as (raw & Hraw & ->).
  destruct (char_at_lt needle (length needle - 1)) as (back & Hback & ->); [lia|]. cbn [bind].
  set (start := (position - (length needle - 1))%nat).
  assert (decides (if FoldAscii16Char raw =? back
                   then FoldedWindowEquals16 haystack start needle else Ok false)
            (occurs_at haystack needle start)) as Hhit.
  { destruct (Z.eqb_spec (FoldAscii16Char raw) back) as [_|Hneq].
    - apply decides_occurs_at. unfold start. lia.
    - apply decides_false. intros Ho. destruct (occurs_at_lookup _ _ _ _ _ Ho Hback) as (h & Hh & Hhf).
      unfold start in Hh.
      replace (position - (length needle - 1) + (length needle - 1))%nat with position in Hh by lia.
      congruence. }
  destruct (shift_of_spec raw) as (k & -> & Hk & Hbad); [eapply Forall_lookup_1; eauto|].
  eapply decides_iff.
  - apply decides_bind_or; [exact Hhit|]. intros _. cbn [bind]. apply IH; lia.
  - split.
    + intros [Ho|(i & Hi & Ho)]; [exists start; split; [unfold start; lia|done]|].
      exists i. split; [unfold start; lia|done].
    + intros (i & Hi & Ho). destruct (decide (i = start)) as [->|]; [by left|]. right.
      exists i. split; [|done]. apply (horspool_skip position raw k i); [lia|done|done|lia|done|unfold start in *; lia].
Qed.

Lemma Horspool_spec :
  decides (BoyerMooreHorspoolContains haystack needle s) (FoldOccurs haystack needle).
Proof.
  assert (BoyerMooreHorspoolContains haystack needle s =
    if (length haystack <? length needle)%nat then Ok false
    else horspool_loop (S (length haystack)) (length needle - 1) haystack needle s) as ->
    by (clear - Hne; by destruct needle).
  destruct (Nat.ltb_spec (length haystack) (length needle)).
  - apply decides_false. rewrite occurs_at_iff. intros (i & Hl & _). lia.
  - eapply decides_iff; [apply horspool_loop_spec; lia|]. rewrite occurs_at_iff. split.
    + intros (i & _ & Ho). eauto.
    + intros (i & Ho). exists i. split; [lia|done].
Qed.
End horspool.

Lemma horspool_loop_wide_16 fuel position haystack nd :
  horspool_loop_wide fuel position haystack nd =
  horspool_loop fuel position haystack nd.(folded) nd.(shifts).
Proof.
  revert position. induction fuel as [|fuel IH]; intros position; [done|].
  cbn [horspool_loop_wide horspool_loop]. destruct (_ <? _)%nat; [|done].
  destruct (char_at haystack position); [|done..]. cbn [bind].
  destruct (char_at (folded nd) _); [|done..]. cbn [bind].
  rewrite fold_wide_16, FoldedWindowEqualsWide_16.
  destruct (if _ =? _ then _ else _) as [[]| |]; [done| |done..]. cbn [bind].
  destruct (shift_of _ _ _); [|done..]. cbn [bind]. apply IH.
Qed.

(** ** Prepared needles *)

(** The preparation done by the literal view predicates ([name:], plain terms and
    the simple-literal fast path of [ParseQuery]): the folded text, empty when the
    text is not ASCII, with its shift table, anchor and anchor index. *)
Definition prepare_literal (text : list Z) : result (list Z * list nat * Z * nat) :=
  let foldedText := if IsAscii text then FoldAscii16 text else [] in
  let* foldedShifts := BuildAsciiShifts foldedText in
  let* foldedAnchorIndex := ChooseAsciiAnchor foldedText in
  let* foldedAnchor := if bool_decide (foldedText = []) then Ok 0
                       else char_at foldedText foldedAnchorIndex in
  Ok (foldedText, foldedShifts, foldedAnchor, foldedAnchorIndex).

(** A table, an anchor and an anchor index that fit a folded needle. *)
Record prepared (f : list Z) (s : list nat) (a : Z) (ai : nat) : Prop := {
  prepared_shifts : shifts_bound f (length f - 1) s;
  prepared_anchor : f !! ai = Some a
}.

Lemma prepare_spec f :
  Forall is_ascii_unit f -> f <> [] ->
  exists s a ai, BuildAsciiShifts f = Ok s /\ ChooseAsciiAnchor f = Ok ai /\
    char_at f ai = Ok a /\ prepared f s a ai.
Proof.
  intros Hf Hne. destruct (BuildAsciiShifts_spec f Hf Hne) as (s & Hs & Hb).
  destruct (ChooseAsciiAnchor_ok f Hne) as (ai & Hai & Hlt).
  destruct (char_at_lt f ai Hlt) as (a & Ha & Hca). exists s, a, ai.
  do 3 (split; [done|]). by constructor.
Qed.

Lemma PrepareAsciiFoldNeedle_nonascii v :
  IsAscii v = false \/ v = [] ->
  exists nd, PrepareAsciiFoldNeedle v = Ok nd /\ nd.(value) = v /\ nd.(folded) = [] /\
    nd.(ascii) = IsAscii v.
Proof.
  intros H. unfold PrepareAsciiFoldNeedle. cbn [ascii].
  destruct (IsAscii v) eqn:E; simpl; [|by eexists].
  destruct H as [|Hv]; [done|]. rewrite Hv. by eexists.
Qed.

Lemma PrepareAsciiFoldNeedle_ascii v :
  Forall is_ascii_unit v -> v <> [] -> IsAscii v = true ->
  exists nd, PrepareAsciiFoldNeedle v = Ok nd /\ nd.(ascii) = true /\ nd.(value) = v /\
    nd.(folded) = FoldAscii16 v /\
    prepared nd.(folded) nd.(shifts) nd.(anchor) nd.(anchorIndex).
Proof.
  intros Hv Hne E. unfold PrepareAsciiFoldNeedle. cbn [ascii]. rewrite E. cbn [negb].
  assert (FoldAscii16 v <> []) as Hfne by (by destruct v).
  destruct (prepare_spec (FoldAscii16 v)) as (s & a & ai & H1 & H2 & H3 & H4);
    [by apply FoldAscii16_ascii|done|].
  destruct (FoldAscii16 v) eqn:Ef; [done|].
  rewrite H2. cbn [bind]. rewrite H3. cbn [bind]. rewrite H1. cbn [bind]. by eexists.
Qed.

Lemma Forall_substr (P : Z -> Prop) s i n : Forall P s -> Forall P (substr s i n).
Proof. intros. by apply Forall_take, Forall_drop. Qed.

Lemma length_substr s i n : (i + n <= length s)%nat -> length (substr s i n) = n.
Proof. intros. unfold substr. rewrite length_take, length_drop. lia. Qed.

Section ordinal_proofs.
Context (CompareStringOrdinal : list Z -> list Z -> Z).
Local Abbreviation CSO := CompareStringOrdinal.

Lemma ordinal_scan_wide_16 n i h nd :
  ordinal_scan CSO n i h nd = ordinal_scan_wide CSO n i h nd.
Proof.
  revert i. induction n as [|n IH]; intros i; [done|].
  cbn [ordinal_scan ordinal_scan_wide]. unfold CompareOrdinal16. rewrite IH.
  destruct (Z.eqb_spec (CSO (substr h i (length nd)) nd) CSTR_EQUAL) as [->|];
    [by rewrite Z.sub_diag|].
  destruct (Z.eqb_spec (CSO (substr h i (length nd)) nd - CSTR_EQUAL) 0); [lia|done].
Qed.

Lemma ordinal_scan_wide_true C n i h nd :
  ordinal_scan_wide C n i h nd = true <->
  exists j, (i <= j < i + n)%nat /\ C (substr h j (length nd)) nd = CSTR_EQUAL.
Proof.
  revert i. induction n as [|n IH]; intros i; cbn [ordinal_scan_wide].
  { split; [done|]. intros (j & ? & _). lia. }
  destruct (Z.eqb_spec (C (substr h i (length nd)) nd) CSTR_EQUAL) as [He|Hn].
  - split; [|done]. intros _. exists i. split; [lia|done].
  - rewrite IH. split; intros (j & Hj & He).
    + exists j. split; [lia|done].
    + exists j. split; [|done]. destruct (decide (j = i)) as [->|]; [done|lia].
Qed.

Lemma OrdinalContains_16 h nd : OrdinalContains16 CSO h nd = OrdinalContains CSO h nd.
Proof.
  unfold OrdinalContains16, OrdinalContains. destruct nd as [|c nd]; [done|].
  rewrite ordinal_scan_wide_16. destruct (Nat.ltb_spec (length h) (length (c :: nd))); [|done].
  unfold alignments. by replace (S (length h) - length (c :: nd))%nat with 0%nat by (simpl in *; lia).
Qed.

(** Where comparing the windows is comparing their folds, the ordinal scan decides
    the folded occurrence. *)
Lemma OrdinalContains_fold C h nd :
  (forall i, (i + length nd <= length h)%nat ->
     (C (substr h i (length nd)) nd = CSTR_EQUAL <->
      FoldAscii16 (substr h i (length nd)) = FoldAscii16 nd)) ->
  (OrdinalContains C h nd = true <-> FoldOccurs h (FoldAscii16 nd)).
Proof.
  intros Hcmp. unfold OrdinalContains. destruct nd as [|c nd].
  { split; [|done]. intros _. by exists [], [], h. }
  set (n := c :: nd) in *. rewrite ordinal_scan_wide_true, occurs_at_iff. unfold occurs_at.
  rewrite length_FoldAscii16. unfold alignments.
  split; intros (j & Hj & He); exists j.
  - split; [lia|]. apply Hcmp; [lia|done].
  - split; [simpl in *; lia|]. apply Hcmp; [lia|done].
Qed.

Lemma OrdinalContains_fold_ascii `{!OrdinalAscii CSO} h nd :
  Forall is_ascii_unit h -> Forall is_ascii_unit nd ->
  (OrdinalContains CSO h nd = true <-> FoldOccurs h (FoldAscii16 nd)).
Proof.
  intros Hh Hnd. apply OrdinalContains_fold. intros i Hi.
  apply ordinal_ascii_fold; [by apply Forall_substr|done|by apply length_substr].
Qed.

Local Abbreviation FC := (FoldCompare CSO).

(** An ASCII needle equals a string exactly when the folds are equal. *)
Lemma FoldCompare_fold w nd :
  IsAscii nd = true -> (FC w nd = CSTR_EQUAL <-> FoldAscii16 w = FoldAscii16 nd).
Proof.
  intros Ha. unfold FoldCompare. rewrite Ha. by case_bool_decide.
Qed.

Lemma FoldCompare_other w nd : IsAscii nd = false -> FC w nd = CSO w nd.
Proof. intros Ha. unfold FoldCompare. by rewrite Ha. Qed.

Lemma OrdinalContains_ext C C' h nd :
  (forall i, (i + length nd <= length h)%nat ->
     (C (substr h i (length nd)) nd = CSTR_EQUAL <-> C' (substr h i (length nd)) nd = CSTR_EQUAL)) ->
  OrdinalContains C h nd = OrdinalContains C' h nd.
Proof.
  intros Hcc. unfold OrdinalContains. destruct nd as [|c nd]; [done|].
  assert (forall n i, (i + n <= alignments h (c :: nd))%nat ->
    ordinal_scan_wide C n i h (c :: nd) = ordinal_scan_wide C' n i h (c :: nd)) as H; [|apply H; lia].
  induction n as [|n IH]; intros i Hi; [done|]. cbn [ordinal_scan_wide].
  assert ((C (substr h i (length (c :: nd))) (c :: nd) =? CSTR_EQUAL) =
    (C' (substr h i (length (c :: nd))) (c :: nd) =? CSTR_EQUAL)) as ->.
  { apply eq_bool_prop_intro. rewrite !Is_true_true, !Z.eqb_eq. apply Hcc. unfold alignments in Hi. lia. }
  rewrite IH by lia. done.
Qed.

Lemma FoldCompare_contains_other h nd : IsAscii nd = false -> OrdinalContains FC h nd = OrdinalContains CSO h nd.
Proof. intros Ha. apply OrdinalContains_ext. intros i _. by rewrite FoldCompare_other. Qed.

Lemma is_ascii_units s : Forall is_unit s -> IsAscii s = true -> Forall is_ascii_unit s.
Proof. intros Hs. by apply IsAscii_spec. Qed.

(** Either scan over a prepared needle decides the folded occurrence. *)
Lemma prepared_scan_spec h f s a ai :
  Forall is_unit h -> Forall is_ascii_unit f -> f <> [] -> prepared f s a ai ->
  decides (if (4 <=? length f)%nat then BoyerMooreHorspoolContains h f s
           else AnchorContainsFold h f a ai) (FoldOccurs h f).
Proof.
  intros Hh Hf Hne [Hs Ha]. destruct (4 <=? length f)%nat.
  - by apply Horspool_spec.
  - by apply AnchorContainsFold_spec.
Qed.

Lemma AsciiFoldContains_scan h nd :
  Forall is_unit h -> nd.(folded) <> [] -> nd.(ascii) = true ->
  AsciiFoldContains CSO h nd =
    (if (4 <=? length nd.(folded))%nat then BoyerMooreHorspoolContains h nd.(folded) nd.(shifts)
     else AnchorContainsFold h nd.(folded) nd.(anchor) nd.(anchorIndex)).
Proof.
  intros Hh Hne Ha. unfold AsciiFoldContains. rewrite Ha, bool_decide_false by done. cbn [negb orb].
  unfold BoyerMooreHorspoolContainsWide, BoyerMooreHorspoolContains,
    AnchorContainsFoldWide, AnchorContainsFold.
  rewrite horspool_loop_wide_16, anchor_loop_wide_16.
  destruct (folded nd) eqn:Ef; [done|]. rewrite <-Ef.
  destruct (_ <? _)%nat, (_ <=? _)%nat; done.
Qed.

Lemma AsciiFoldContains_correct h v nd :
  Forall is_unit h -> Forall is_unit v -> PrepareAsciiFoldNeedle v = Ok nd ->
  AsciiFoldContains CSO h nd = Ok (OrdinalContains FC h v).
Proof.
  intros Hh Hv Hp. destruct (IsAscii v) eqn:E; [destruct (decide (v = [])) as [Hnil|Hne]|].
  1, 3: destruct (PrepareAsciiFoldNeedle_nonascii v) as (nd' & Hp' & Hval & Hfold & _);
    [by (left + right)|]; rewrite Hp in Hp'; injection Hp' as <-;
    unfold AsciiFoldContains; rewrite Hfold, Hval, bool_decide_true, orb_true_r by done;
    (by rewrite Hnil) || by rewrite FoldCompare_contains_other.
  apply is_ascii_units in E as Ha; [|done].
  destruct (PrepareAsciiFoldNeedle_ascii v Ha Hne E) as (nd' & Hp' & Hasc & Hval & Hfold & Hprep).
  rewrite Hp in Hp'. injection Hp' as <-.
  assert (nd.(folded) <> []) as Hfne by (rewrite Hfold; by destruct v).
  rewrite AsciiFoldContains_scan by done. eapply decides_eq.
  - apply prepared_scan_spec; [done| |done|done]. rewrite Hfold. by apply FoldAscii16_ascii.
  - rewrite Hfold. apply decides_Ok. apply OrdinalContains_fold. intros i _. by apply FoldCompare_fold.
Qed.

(** What the wide matchers find, the ordinal scan finds. *)
Lemma FoldCompare_sound `{!OrdinalAscii CSO} w nd :
  Forall is_unit w -> Forall is_unit nd -> length w = length nd -> FC w nd = CSTR_EQUAL -> CSO w nd = CSTR_EQUAL.
Proof.
  intros Hw Hnd Hl He. destruct (IsAscii nd) eqn:Ha; [|by rewrite FoldCompare_other in He].
  apply FoldCompare_fold in He; [|done]. apply is_ascii_units in Ha; [|done].
  apply ordinal_ascii_fold; [by eapply fold_ascii_inv|done..].
Qed.

Lemma OrdinalContains_window C h nd :
  nd <> [] -> (OrdinalContains C h nd = true <->
    exists i, (i + length nd <= length h)%nat /\ C (substr h i (length nd)) nd = CSTR_EQUAL).
Proof.
  intros Hne. unfold OrdinalContains. destruct nd as [|c nd]; [done|]. rewrite ordinal_scan_wide_true. unfold alignments.
  split; intros (i & Hi & He); exists i; (split; [cbn [length] in *; lia|done]).
Qed.

Lemma FoldCompare_contains `{!OrdinalAscii CSO} h nd :
  Forall is_unit h -> Forall is_unit nd -> OrdinalContains FC h nd = true -> OrdinalContains CSO h nd = true.
Proof.
  intros Hh Hnd. destruct (decide (nd = [])) as [->|Hne]; [done|]. rewrite !OrdinalContains_window by done.
  intros (i & Hi & He). exists i. split; [done|].
  apply FoldCompare_sound; [by apply Forall_substr|done|by apply length_substr|done].
Qed.

(** What only the ordinal scan finds is a window outside ASCII that the host equates with the needle. *)
Lemma FoldCompare_misses `{!OrdinalAscii CSO} h nd :
  Forall is_unit nd -> OrdinalContains CSO h nd = true -> OrdinalContains FC h nd = true \/
  exists i, (i + length nd <= length h)%nat /\ IsAscii nd = true /\ CSO (substr h i (length nd)) nd = CSTR_EQUAL /\
    ~ Forall is_ascii_unit (substr h i (length nd)).
Proof.
  intros Hnd. destruct (decide (nd = [])) as [->|Hne]; [by left|]. rewrite !OrdinalContains_window by done.
  intros (i & Hi & He). destruct (IsAscii nd) eqn:Ha; [|left; exists i; by rewrite FoldCompare_other].
  destruct (IsAscii (substr h i (length nd))) eqn:Hw.
  - destruct (decide (Forall is_ascii_unit (substr h i (length nd)))) as [Hwa|Hwa].
    + left. exists i. split; [done|]. apply FoldCompare_fold; [done|].
      apply ordinal_ascii_fold; [done|by apply is_ascii_units|by apply length_substr|done].
    + right. by exists i.
  - right. exists i. split; [done|]. split; [done|]. split; [done|]. intros Hwa.
    assert (IsAscii (substr h i (length nd)) = true) as Ht; [|congruence].
    apply forallb_forall. intros c Hc. apply Z.leb_le. rewrite Forall_forall in Hwa. apply Hwa. by apply list_elem_of_In.
Qed.

Lemma ordinal_plain_ascii h : Forall is_ascii_unit h -> ordinal_plain CSO h.
Proof. intros Hh i nd _ _ _. by apply Forall_substr. Qed.

(** On a plain text both scans are the same. *)
Lemma FoldCompare_plain `{!OrdinalAscii CSO} h nd :
  ordinal_plain CSO h -> Forall is_unit h -> Forall is_unit nd -> OrdinalContains FC h nd = OrdinalContains CSO h nd.
Proof.
  intros Hp Hh Hnd. destruct (OrdinalContains CSO h nd) eqn:E.
  - destruct (FoldCompare_misses h nd Hnd E) as [|(i & Hi & Ha & He & Hn)]; [done|].
    destruct Hn. apply Hp; [by apply is_ascii_units|done|done].
  - destruct (OrdinalContains FC h nd) eqn:E'; [|done]. by apply FoldCompare_contains in E'; [congruence|..].
Qed.

Lemma prepare_literal_correct text :
  Forall is_unit text ->
  exists f s a ai, prepare_literal text = Ok (f, s, a, ai) /\
    (f = [] \/ (f = FoldAscii16 text /\ Forall is_ascii_unit text /\ f <> [] /\ prepared f s a ai)).
Proof.
  intros Ht. unfold prepare_literal.
  destruct (IsAscii text && negb (bool_decide (text = []))) eqn:E.
  - apply andb_true_iff in E as [E Hne]. rewrite E. apply negb_true_iff, bool_decide_eq_false in Hne.
    apply is_ascii_units in E as Ha; [|done].
    assert (FoldAscii16 text <> []) as Hfne by by destruct text.
    destruct (prepare_spec (FoldAscii16 text)) as (s & a & ai & H1 & H2 & H3 & H4);
      [by apply FoldAscii16_ascii|done|].
    rewrite H1. cbn [bind]. rewrite H2. cbn [bind]. rewrite bool_decide_false by done.
    rewrite H3. cbn [bind]. repeat eexists; eauto. 
  - assert ((if IsAscii text then FoldAscii16 text else []) = []) as ->.
    { destruct (IsAscii text); [|done]. destruct text; [done|]. by rewrite bool_decide_false in E. }
    cbn. repeat eexists. by left.
Qed.

Lemma Prepared_correct `{!OrdinalAscii CSO} h text f s a ai ascii_name :
  Forall is_unit h -> Forall is_unit text ->
  (ascii_name = true -> Forall is_ascii_unit h) ->
  prepare_literal text = Ok (f, s, a, ai) ->
  OrdinalContains16Prepared CSO h text f s ascii_name a ai = Ok (OrdinalContains CSO h text).
Proof.
  intros Hh Ht Hflag Hp. destruct (prepare_literal_correct text Ht) as (f' & s' & a' & ai' & Hp' & Hcase).
  rewrite Hp in Hp'. injection Hp' as <- <- <- <-.
  rewrite <-OrdinalContains_16. unfold OrdinalContains16Prepared, OrdinalContains16.
  destruct text as [|c text]; [done|]. set (t := c :: text) in *.
  destruct (Nat.ltb_spec (length h) (length t)) as [Hlt|Hge]; [done|].
  destruct (negb (bool_decide (f = [])) && ascii_name) eqn:E; [|done].
  apply andb_true_iff in E as [Hne Hasc_h]. apply negb_true_iff, bool_decide_eq_false in Hne.
  destruct Hcase as [|(-> & Hasc & _ & Hprep)]; [done|]. eapply decides_eq.
  - by apply prepared_scan_spec; [| apply FoldAscii16_ascii| |].
  - apply decides_Ok. rewrite <-OrdinalContains_fold_ascii by auto. rewrite <-OrdinalContains_16.
    unfold OrdinalContains16. rewrite (proj2 (Nat.ltb_ge _ _)) by done. done.
Qed.

(** ** The classifiers *)

(** The tier by comparison with the term: an ASCII term up to ASCII case, any other by the host. *)
Definition tier_spec (name term : list Z) : MatchTier :=
  match term with
  | [] => Substring
  | _ :: _ =>
      if OrdinalEqual FC (stem_of name) term || OrdinalEqual FC name term then Exact
      else if OrdinalStartsWith FC name term then Prefix
      else if OrdinalContains FC name term then Substring
      else PathOnly
  end.

Lemma fold_equals_at_spec l pos r :
  (pos + length r <= length l)%nat ->
  decides (fold_equals_at l pos r) (FoldAscii16 (substr l pos (length r)) = FoldAscii16 r).
Proof.
  revert pos. induction r as [|c r IH]; intros pos Hl; simpl in Hl.
  { by apply decides_true. }
  cbn [fold_equals_at length]. destruct (char_at_lt l pos) as (h & Hh & ->); [lia|].
  rewrite (substr_cons _ _ _ h Hh), !FoldAscii16_cons. cbn [bind]. 
  change (FoldAsciiWideChar c) with (FoldAscii16Char c).
  destruct (Z.eqb_spec (FoldAscii16Char h) (FoldAscii16Char c)) as [->|Hne].
  - eapply decides_iff; [apply IH; lia|]. split; [by intros ->|by intros [=]].
  - apply decides_false. congruence.
Qed.

Lemma match_nonempty {A} (l : list Z) (x y : A) :
  l <> [] -> match l with [] => x | _ :: _ => y end = y.
Proof. by destruct l. Qed.

Lemma substr_all s : substr s 0 (length s) = s.
Proof. unfold substr. by rewrite drop_0, firstn_all. Qed.

Lemma CompareOrdinal16_eqb l r : (CompareOrdinal16 CSO l r =? 0) = (CSO l r =? CSTR_EQUAL).
Proof.
  unfold CompareOrdinal16. destruct (Z.eqb_spec (CSO l r) CSTR_EQUAL) as [->|];
    [by rewrite Z.sub_diag|]. apply Z.eqb_neq. lia.
Qed.

Section classify.
Context (name term : list Z).
Hypothesis Hname : Forall is_unit name.
Hypothesis Hterm : Forall is_unit term.

(** The unit loop on an ASCII term is the ordinal comparison of the window. *)
Lemma fold_equals_at_ordinal l pos :
  Forall is_unit l -> IsAscii term = true -> (pos + length term <= length l)%nat ->
  fold_equals_at l pos term = Ok (FC (substr l pos (length term)) term =? CSTR_EQUAL).
Proof.
  intros Hl Ha Hp.
  eapply decides_eq; [by apply fold_equals_at_spec|]. apply decides_Ok. rewrite Z.eqb_eq.
  by apply FoldCompare_fold.
Qed.

Lemma FoldedEquals16_correct l :
  Forall is_unit l -> FoldedEquals16 CSO l term = Ok (OrdinalEqual FC l term).
Proof.
  intros Hl. unfold FoldedEquals16, OrdinalEqual.
  destruct (Nat.eqb_spec (length l) (length term)) as [He|]; [|done]. cbn [negb andb].
  destruct (IsAscii term) eqn:Ha; [|by rewrite CompareOrdinal16_eqb, FoldCompare_other].
  rewrite fold_equals_at_ordinal by (done || lia). by rewrite <-He, substr_all.
Qed.

Lemma FoldedStartsWith16_correct :
  FoldedStartsWith16 CSO name term = Ok (OrdinalStartsWith FC name term).
Proof.
  unfold FoldedStartsWith16, OrdinalStartsWith.
  destruct (Nat.ltb_spec (length name) (length term)), (Nat.leb_spec (length term) (length name));
    try lia; [done|]. cbn [andb].
  destruct (IsAscii term) eqn:Ha; [|by rewrite CompareOrdinal16_eqb, FoldCompare_other].
  by rewrite fold_equals_at_ordinal by (done || lia).
Qed.

Lemma fold_scan_ordinal n start :
  IsAscii term = true -> (start + n <= alignments name term)%nat ->
  fold_scan n start name term = Ok (ordinal_scan_wide FC n start name term).
Proof.
  intros Ha. revert start. induction n as [|n IH]; intros start Hn; [done|].
  cbn [fold_scan ordinal_scan_wide]. unfold alignments in Hn.
  rewrite fold_equals_at_ordinal by (done || lia). cbn [bind].
  destruct (_ =? _); [done|]. apply IH. unfold alignments. lia.
Qed.

Lemma FoldedContains16_correct :
  FoldedContains16 CSO name term = Ok (OrdinalContains FC name term).
Proof.
  destruct (IsAscii term) eqn:Ha.
  - unfold FoldedContains16, OrdinalContains. rewrite Ha.
    destruct (decide (term = [])) as [Et|Hne]; [by rewrite Et|]. rewrite !match_nonempty by done.
    destruct (Nat.ltb_spec (length name) (length term)); [|by apply fold_scan_ordinal].
    unfold alignments. by replace (S (length name) - length term)%nat with 0%nat by lia.
  - rewrite FoldCompare_contains_other, <-OrdinalContains_16 by done. unfold FoldedContains16, OrdinalContains16.
    rewrite Ha. destruct term; [done|]. by destruct (_ <? _)%nat.
Qed.

Lemma AsciiFoldEquals_16 l :
  IsAscii term = true -> AsciiFoldEquals l term = FoldedEquals16 CSO l term.
Proof. intros Ha. unfold AsciiFoldEquals, FoldedEquals16. by rewrite Ha. Qed.

Lemma AsciiFoldStartsWith_correct :
  IsAscii term = true ->
  AsciiFoldStartsWith name term = Ok (OrdinalStartsWith FC name term).
Proof.
  intros Ha. unfold AsciiFoldStartsWith, OrdinalStartsWith.
  destruct (Nat.ltb_spec (length name) (length term)), (Nat.leb_spec (length term) (length name));
    try lia; [done|]. cbn [andb].
  rewrite AsciiFoldEquals_16, FoldedEquals16_correct by (done || by apply Forall_substr).
  unfold OrdinalEqual. by rewrite length_substr, Nat.eqb_refl by lia.
Qed.

Lemma stem_units : Forall is_unit (stem_of name).
Proof. unfold stem_of. destruct (find_last_of name 46); [by apply Forall_substr|done]. Qed.

Lemma ClassifyMatchView_correct :
  ClassifyMatchView CSO name term = Ok (tier_spec name term).
Proof.
  unfold ClassifyMatchView, tier_spec.
  destruct (decide (term = [])) as [Et|Hne]; [by rewrite Et|]. rewrite !match_nonempty by done.
  pose proof stem_units.
  rewrite !FoldedEquals16_correct, FoldedStartsWith16_correct, FoldedContains16_correct by done.
  destruct (OrdinalEqual FC (stem_of name) term), (OrdinalEqual FC name term),
    (OrdinalStartsWith FC name term), (OrdinalContains FC name term); done.
Qed.

Lemma ClassifyMatch_correct :
  ClassifyMatch CSO name term = Ok (tier_spec name term).
Proof.
  unfold ClassifyMatch, tier_spec.
  destruct (decide (term = [])) as [Et|Hne]; [by rewrite Et|]. rewrite !match_nonempty by done.
  assert (exists nd, PrepareAsciiFoldNeedle term = Ok nd /\ nd.(ascii) = IsAscii term)
    as (nd & Hnd & Hasc).
  { destruct (IsAscii term) eqn:E.
    - destruct (PrepareAsciiFoldNeedle_ascii term) as (nd & ? & ? & _); eauto using is_ascii_units.
    - destruct (PrepareAsciiFoldNeedle_nonascii term) as (nd & ? & _ & _ & ?); auto.
      exists nd. by rewrite E in *. }
  rewrite Hnd. cbn [bind]. rewrite Hasc. pose proof stem_units.
  rewrite AsciiFoldContains_correct with (v := term) by done.
  destruct (IsAscii term) eqn:E.
  - rewrite !AsciiFoldEquals_16, !FoldedEquals16_correct, AsciiFoldStartsWith_correct by done.
    destruct (OrdinalEqual FC (stem_of name) term), (OrdinalEqual FC name term),
      (OrdinalStartsWith FC name term), (OrdinalContains FC name term); done.
  - rewrite <-!FoldCompare_contains_other by done.
    assert (forall l, OrdinalEqual CSO l term = OrdinalEqual FC l term) as He
      by (intros l; unfold OrdinalEqual; by rewrite FoldCompare_other).
    assert (OrdinalStartsWith CSO name term = OrdinalStartsWith FC name term) as Hs
      by (unfold OrdinalStartsWith; by rewrite FoldCompare_other).
    rewrite !He, Hs. destruct (OrdinalEqual FC (stem_of name) term), (OrdinalEqual FC name term),
      (OrdinalStartsWith FC name term), (OrdinalContains FC name term); done.
Qed.
End classify.
End ordinal_proofs.

Lemma PrepareAsciiFoldNeedle_total s :
  Forall is_unit s -> exists nd, PrepareAsciiFoldNeedle s = Ok nd.
Proof.
  intros Hs. destruct (IsAscii s) eqn:E; [destruct (decide (s = [])) as [Hn|Hn]|].
  - destruct (PrepareAsciiFoldNeedle_nonascii s) as (nd & ? & _); eauto.
  - destruct (PrepareAsciiFoldNeedle_ascii s) as (nd & ? & _); eauto using is_ascii_units.
  - destruct (PrepareAsciiFoldNeedle_nonascii s) as (nd & ? & _); eauto.
Qed.

(** ** Properties *)

(** An ordinal comparison for evaluating the matchers: the units after ASCII folding, in
    lexicographic order. *)
Fixpoint unit_compare (l r : list Z) : comparison :=
  match l, r with
  | [], [] => Eq
  | [], _ :: _ => Lt
  | _ :: _, [] => Gt
  | x :: l', y :: r' => match Z.compare x y with Eq => unit_compare l' r' | o => o end
  end.

Definition ascii_ordinal (w nd : list Z) : Z :=
  match unit_compare (FoldAscii16 w) (FoldAscii16 nd) with Lt => 1 | Eq => CSTR_EQUAL | Gt => 3 end.

Lemma unit_compare_eq l r : unit_compare l r = Eq <-> l = r.
Proof.
  revert r. induction l as [|x l IH]; intros [|y r]; simpl; try done.
  destruct (Z.compare_spec x y) as [->|Hl|Hg].
  - rewrite IH. split; [by intros ->|by intros [=]].
  - split; [done|]. intros [= -> _]. lia.
  - split; [done|]. intros [= -> _]. lia.
Qed.

Lemma ascii_ordinal_equal w nd :
  ascii_ordinal w nd = CSTR_EQUAL <-> FoldAscii16 w = FoldAscii16 nd.
Proof.
  unfold ascii_ordinal. rewrite <-unit_compare_eq.
  destruct (unit_compare _ _); split; (done || discriminate).
Qed.

#[export] Instance ascii_ordinal_ok : OrdinalAscii ascii_ordinal.
Proof. split. intros. apply ascii_ordinal_equal. Qed.

(** C31. The prepared needle of the wide matchers can always be built, and no scan over it
    reads outside a string or the shift table or fails to terminate.  Whatever the anchor and
    Boyer-Moore-Horspool scans find, the ordinal scan finds; and it finds nothing that they miss but a
    window with a unit outside ASCII that the host equates with the ASCII needle.  So on every text
    without such a window, every ASCII text among them, the two answers are the same. *)
Theorem AsciiFoldContains_equals_OrdinalContains CSO haystack needle :
  OrdinalAscii CSO -> Forall is_unit haystack -> Forall is_unit needle ->
  exists prepared found, PrepareAsciiFoldNeedle needle = Ok prepared /\
    AsciiFoldContains CSO haystack prepared = Ok found /\
    (found = true -> OrdinalContains CSO haystack needle = true) /\
    (OrdinalContains CSO haystack needle = true -> found = true \/
      exists i, (i + length needle <= length haystack)%nat /\ IsAscii needle = true /\
        CSO (substr haystack i (length needle)) needle = CSTR_EQUAL /\
        ~ Forall is_ascii_unit (substr haystack i (length needle))) /\
    (ordinal_plain CSO haystack -> found = OrdinalContains CSO haystack needle).
Proof.
  intros HO Hh Hn. destruct (PrepareAsciiFoldNeedle_total needle Hn) as [nd Hnd].
  exists nd, (OrdinalContains (FoldCompare CSO) haystack needle). split; [done|]. split; [by apply AsciiFoldContains_correct|].
  split; [by apply FoldCompare_contains|]. split; [by apply FoldCompare_misses|]. intros Hp. by apply FoldCompare_plain.
Qed.

(** A host that equates the Kelvin sign with the letter k. *)
Definition kelvin_fold (c : Z) : Z := if c =? 8490 then 107 else c.
Definition kelvin_host (window needle : list Z) : Z := ascii_ordinal (kelvin_fold <$> window) (kelvin_fold <$> needle).

#[export] Instance kelvin_host_ok : OrdinalAscii kelvin_host.
Proof.
  split. intros w nd Hw Hnd _. unfold kelvin_host. rewrite ascii_ordinal_equal.
  assert (forall s, Forall is_ascii_unit s -> kelvin_fold <$> s = s) as Hid.
  { induction 1 as [|c s Hc _ IH]; [done|]. cbn. rewrite IH. f_equal. unfold kelvin_fold, is_ascii_unit in *.
    destruct (Z.eqb_spec c 8490); [lia|done]. }
  by rewrite !Hid.
Qed.

(** On [my READMEK] with a Kelvin sign: [ReaD] is found, [mek] only by the ordinal scan. *)
Lemma AsciiFoldContains_witness :
  (exists prepared, PrepareAsciiFoldNeedle [109; 101; 107] = Ok prepared /\
    AsciiFoldContains kelvin_host [109; 121; 32; 82; 69; 65; 68; 77; 69; 8490] prepared = Ok false /\
    OrdinalContains kelvin_host [109; 121; 32; 82; 69; 65; 68; 77; 69; 8490] [109; 101; 107] = true) /\
  exists prepared found, PrepareAsciiFoldNeedle [82; 101; 97; 68] = Ok prepared /\
    AsciiFoldContains kelvin_host [109; 121; 32; 82; 69; 65; 68; 77; 69; 8490] prepared = Ok found /\
    (found = true -> OrdinalContains kelvin_host [109; 121; 32; 82; 69; 65; 68; 77; 69; 8490] [82; 101; 97; 68] = true).
Proof.
  split; [eexists; split; [vm_compute; reflexivity|split; vm_compute; reflexivity]|].
  destruct (AsciiFoldContains_equals_OrdinalContains kelvin_host
    [109; 121; 32; 82; 69; 65; 68; 77; 69; 8490] [82; 101; 97; 68] kelvin_host_ok
    ltac:(solve_units) ltac:(solve_units)) as (prepared & found & Hp & Hf & Hsound & _).
  exists prepared, found. split; [exact Hp|]. split; [exact Hf|exact Hsound].
Defined.

(** The view matcher prepared for a literal answers, for a name whose ASCII flag is
    truthful, exactly what the ordinal scan answers; the preparation never fails. *)
Theorem OrdinalContains16Prepared_correct CSO haystack text nameIsAscii :
  OrdinalAscii CSO -> Forall is_unit haystack -> Forall is_unit text ->
  (nameIsAscii = true -> Forall is_ascii_unit haystack) ->
  exists f s a ai, prepare_literal text = Ok (f, s, a, ai) /\
    OrdinalContains16Prepared CSO haystack text f s nameIsAscii a ai =
      Ok (OrdinalContains16 CSO haystack text).
Proof.
  intros HO Hh Ht Hflag. destruct (prepare_literal_correct text Ht) as (f & s & a & ai & Hp & _).
  exists f, s, a, ai. split; [done|]. rewrite OrdinalContains_16. by apply Prepared_correct.
Qed.

Lemma OrdinalContains16Prepared_witness :
  exists f s a ai, prepare_literal [77; 100] = Ok (f, s, a, ai) /\
    OrdinalContains16Prepared ascii_ordinal [82; 46; 109; 68] [77; 100] f s true a ai = Ok true.
Proof.
  exact (OrdinalContains16Prepared_correct ascii_ordinal [82; 46; 109; 68] [77; 100] true
    ascii_ordinal_ok ltac:(solve_units) ltac:(solve_units)
    ltac:(intros _; solve_wide_literal)).
Defined.

(** The owning classifier and the view classifier put every row in the same tier, the
    tier read off the comparison of the stem, the name, its prefix and its windows with the
    term, up to ASCII case for an ASCII term and by the host for any other; neither fails. *)
Theorem classifiers_agree CSO name term :
  Forall is_unit name -> Forall is_unit term ->
  ClassifyMatch CSO name term = Ok (tier_spec CSO name term) /\
  ClassifyMatchView CSO name term = Ok (tier_spec CSO name term).
Proof.
  intros. split; [by apply ClassifyMatch_correct|by apply ClassifyMatchView_correct].
Qed.

Lemma classifiers_agree_witness :
  ClassifyMatch ascii_ordinal [82; 69; 65; 68; 46; 109; 100] [114; 101; 97; 100] = Ok Exact /\
  ClassifyMatchView ascii_ordinal [82; 69; 65; 68; 46; 109; 100] [114; 101; 97; 100] = Ok Exact.
Proof.
  exact (classifiers_agree ascii_ordinal [82; 69; 65; 68; 46; 109; 100] [114; 101; 97; 100]
    ltac:(solve_units) ltac:(solve_units)).
Defined.
