(* ===== verification/Glob.v ===== *)
(** * Glob: wildcard matching

    Models [GlobMatches16] and [GlobMatches] of [src/src/search/src/Query.cpp]: one
    loop over a text and a pattern with [*] and [?], where a surrogate pair counts
    as one character and [star] / [saved] remember the last star for backtracking.
    The declarative meaning of a pattern is [glob]; the loop is shown to decide it
    and to terminate. *)

From S2P Require Import Prelude TextMatch.

(** ** The loop *)

Definition IS_HIGH_SURROGATE (c : Z) : bool := (55296 <=? c) && (c <=? 56319).
Definition IS_LOW_SURROGATE (c : Z) : bool := (56320 <=? c) && (c <=? 57343).

(** The lambda [width] of both functions. *)
Definition width (value : list Z) (offset : nat) : nat :=
  match value !! offset, value !! S offset with
  | Some a, Some b => if IS_HIGH_SURROGATE a && IS_LOW_SURROGATE b then 2%nat else 1%nat
  | _, _ => 1%nat
  end.

(** [patternWidth] as [GlobMatches16] spells it. *)
Definition patternWidth16 (pattern : list Z) (patternIndex : nat) : nat :=
  match pattern !! patternIndex with
  | Some a =>
      if (55296 <=? a) && (a <=? 56319) then
        match pattern !! S patternIndex with
        | Some b => if (56320 <=? b) && (b <=? 57343) then 2%nat else 1%nat
        | None => 1%nat
        end
      else 1%nat
  | None => 1%nat
  end.

Record GlobState := {
  textIndex : nat;
  patternIndex : nat;
  star : option nat;   (* [None] is [npos] *)
  saved : nat
}.

Section glob_code.
Context (compare : list Z -> list Z -> bool)          (* the ordinal comparison is equality *)
        (pwidth : list Z -> nat -> nat)               (* width of a pattern character *)
        (text pattern : list Z).

(** The two backtracking branches: [None] is [return false]. *)
Definition backtrack (s : GlobState) : option GlobState :=
  match s.(star) with
  | Some st =>
      let sv := (s.(saved) + width text s.(saved))%nat in
      Some {| textIndex := sv; patternIndex := S st; star := Some st; saved := sv |}
  | None => None
  end.

(** One iteration of the [while (textIndex < text.size ())] loop. *)
Definition glob_step (s : GlobState) : option GlobState :=
  match pattern !! s.(patternIndex) with
  | Some p =>
      if p =? 63 (* ? *) then
        Some {| textIndex := s.(textIndex) + width text s.(textIndex);
                patternIndex := S s.(patternIndex); star := s.(star); saved := s.(saved) |}
      else if negb (p =? 42 (* star *)) then
        let textWidth := width text s.(textIndex) in
        let patternWidth := pwidth pattern s.(patternIndex) in
        if (textWidth =? patternWidth)%nat &&
           compare (substr text s.(textIndex) textWidth) (substr pattern s.(patternIndex) patternWidth)
        then Some {| textIndex := s.(textIndex) + textWidth;
                     patternIndex := s.(patternIndex) + patternWidth;
                     star := s.(star); saved := s.(saved) |}
        else backtrack s
      else Some {| textIndex := s.(textIndex); patternIndex := S s.(patternIndex);
                   star := Some s.(patternIndex); saved := s.(textIndex) |}
  | None => backtrack s
  end.

(** [while (patternIndex < pattern.size () && pattern[patternIndex] == L'*')], then
    [patternIndex == pattern.size ()]; [rest] is the pattern from [patternIndex]. *)
Fixpoint trailing_stars (rest : list Z) : bool :=
  match rest with
  | [] => true
  | c :: rest' => if c =? 42 then trailing_stars rest' else false
  end.

(** The whole function; running out of fuel is [Fault]. *)
Fixpoint glob_loop (fuel : nat) (s : GlobState) : result bool :=
  match fuel with
  | O => Fault
  | S fuel' =>
      if (s.(textIndex) <? length text)%nat
      then match glob_step s with
           | Some s' => glob_loop fuel' s'
           | None => Ok false
           end
      else Ok (trailing_stars (drop s.(patternIndex) pattern))
  end.

Definition glob_start : GlobState :=
  {| textIndex := 0; patternIndex := 0; star := None; saved := 0 |}.

(** Every backtrack moves [saved], and between two of them the text or the star
    moves: this many iterations are enough. *)
Definition glob_fuel : nat :=
  S (S (length text) * (length text + length pattern + 2) +
     length text + length pattern + 1).
End glob_code.

Section glob_entry.
Context (CompareStringOrdinal : list Z -> list Z -> Z).

Definition GlobMatches16 (text pattern : list Z) : result bool :=
  glob_loop (fun l r => CompareOrdinal16 CompareStringOrdinal l r =? 0) patternWidth16 text pattern
    (glob_fuel text pattern) glob_start.

Definition GlobMatches (text pattern : list Z) : result bool :=
  glob_loop (fun l r => CompareStringOrdinal l r =? CSTR_EQUAL) width text pattern
    (glob_fuel text pattern) glob_start.
End glob_entry.

(** ** Meaning of a pattern *)

(** A pattern is a sequence of tokens, a text a sequence of characters. *)
Inductive token := Any | Star | Lit (c : list Z).

(** The characters of a string: surrogate pairs are kept together. *)
Fixpoint chars_fuel (n : nat) (s : list Z) : list (list Z) :=
  match n, s with
  | O, _ | _, [] => []
  | S n', _ :: _ => take (width s 0) s :: chars_fuel n' (drop (width s 0) s)
  end.
Definition chars (s : list Z) : list (list Z) := chars_fuel (length s) s.

Definition token_of (c : list Z) : token :=
  match c with
  | [63] => Any
  | [42] => Star
  | _ => Lit c
  end.
Definition tokens (pattern : list Z) : list token := map token_of (chars pattern).

Section meaning.
Context (compare : list Z -> list Z -> bool).

Definition lit_matches (l c : list Z) : bool :=
  (length c =? length l)%nat && compare c l.

Inductive glob : list token -> list (list Z) -> Prop :=
| glob_nil : glob [] []
| glob_any p c t : glob p t -> glob (Any :: p) (c :: t)
| glob_lit l p c t : lit_matches l c = true -> glob p t -> glob (Lit l :: p) (c :: t)
| glob_star_skip p t : glob p t -> glob (Star :: p) t
| glob_star_take p c t : glob (Star :: p) t -> glob (Star :: p) (c :: t).
End meaning.
#[export] Hint Constructors glob : ff.

(** ** Characters and tokens of suffixes *)

Lemma width_range s i : (i < length s)%nat -> (1 <= width s i)%nat /\ (i + width s i <= length s)%nat.
Proof.
  intros Hi. unfold width. destruct (lookup_lt_is_Some_2 s i Hi) as [a ->].
  destruct (s !! S i) as [b|] eqn:E; [|lia]. apply lookup_lt_Some in E. destruct (_ && _); lia.
Qed.

Lemma width_drop s i : width (drop i s) 0 = width s i.
Proof. unfold width. rewrite !lookup_drop. by rewrite Nat.add_0_r, Nat.add_1_r. Qed.

Lemma chars_fuel_enough n s : (length s <= n)%nat -> chars_fuel n s = chars s.
Proof.
  unfold chars. remember (length s) as m eqn:Hm. revert n s Hm.
  induction (lt_wf m) as [m _ IH]. intros n s Hm Hn.
  destruct s as [|c s]; [by destruct n, m|]. simpl in Hm. subst m.
  destruct n as [|n]; [lia|]. cbn [chars_fuel].
  destruct (width_range (c :: s) 0) as [Hw1 Hw2]; [simpl; lia|]. simpl in Hw2. f_equal.
  assert (length (drop (width (c :: s) 0) (c :: s)) <= length s)%nat as Hl.
  { rewrite length_drop. simpl length. lia. }
  rewrite (IH _ (le_n_S _ _ Hl) n _ eq_refl) by lia.
  rewrite (IH _ (le_n_S _ _ Hl) (length s) _ eq_refl) by lia. done.
Qed.

Lemma chars_step s i :
  (i < length s)%nat ->
  chars (drop i s) = substr s i (width s i) :: chars (drop (i + width s i) s).
Proof.
  intros Hi. destruct (width_range s i Hi) as [Hw1 Hw2].
  unfold chars at 1. destruct (drop i s) as [|c r] eqn:E.
  { apply (f_equal length) in E. rewrite length_drop in E. simpl in E. lia. }
  cbn [length chars_fuel]. rewrite <-E, width_drop. unfold substr. f_equal.
  rewrite drop_drop. apply chars_fuel_enough. apply (f_equal length) in E.
  rewrite length_drop in E. simpl in E. rewrite length_drop. lia.
Qed.

Lemma chars_end s i : (length s <= i)%nat -> chars (drop i s) = [].
Proof. intros. by rewrite drop_ge by lia. Qed.

Lemma patternWidth16_width pattern i : patternWidth16 pattern i = width pattern i.
Proof.
  unfold patternWidth16, width, IS_HIGH_SURROGATE, IS_LOW_SURROGATE.
  destruct (pattern !! i) as [a|]; [|done].
  destruct ((55296 <=? a) && (a <=? 56319)), (pattern !! S i); done.
Qed.

Lemma width_not_high s i c :
  s !! i = Some c -> c < 55296 -> width s i = 1%nat.
Proof.
  intros Hc Hlt. unfold width, IS_HIGH_SURROGATE. rewrite Hc. destruct (s !! S i); [|done].
  destruct (Z.leb_spec 55296 c); [lia|done].
Qed.

Lemma tokens_step s i :
  (i < length s)%nat ->
  tokens (drop i s) = token_of (substr s i (width s i)) :: tokens (drop (i + width s i) s).
Proof. intros Hi. unfold tokens. by rewrite (chars_step s i Hi). Qed.

Lemma substr_1 s i c : s !! i = Some c -> substr s i 1 = [c].
Proof. intros Hc. by rewrite (substr_cons _ _ _ c Hc). Qed.

Lemma tokens_lookup pattern i p :
  pattern !! i = Some p ->
  (p = 63 -> tokens (drop i pattern) = Any :: tokens (drop (S i) pattern)) /\
  (p = 42 -> tokens (drop i pattern) = Star :: tokens (drop (S i) pattern)) /\
  (p <> 63 -> p <> 42 -> tokens (drop i pattern) =
     Lit (substr pattern i (width pattern i)) :: tokens (drop (i + width pattern i) pattern)).
Proof.
  intros Hp. apply lookup_lt_Some in Hp as Hlt. rewrite (tokens_step _ _ Hlt).
  split; [|split].
  - intros ->. rewrite (width_not_high _ _ 63), (substr_1 _ _ _ Hp), Nat.add_1_r by (done || lia). done.
  - intros ->. rewrite (width_not_high _ _ 42), (substr_1 _ _ _ Hp), Nat.add_1_r by (done || lia). done.
  - intros H1 H2. f_equal. destruct (width_range _ _ Hlt) as [Hw _].
    destruct (width pattern i) as [|w]; [lia|]. rewrite (substr_cons _ _ _ p Hp).
    unfold token_of. destruct (substr pattern (S i) w); repeat case_match; try done; congruence.
Qed.

Lemma trailing_stars_spec rest :
  trailing_stars rest = true <-> Forall (eq Star) (tokens rest).
Proof.
  induction rest as [|c rest IH]; [done|]. cbn [trailing_stars].
  destruct (tokens_lookup (c :: rest) 0 c eq_refl) as (H63 & H42 & Hlit).
  change (drop 0 (c :: rest)) with (c :: rest) in *. change (drop 1 (c :: rest)) with rest in *.
  destruct (Z.eqb_spec c 42) as [->|Hne].
  - rewrite IH, H42 by done. rewrite Forall_cons. tauto.
  - split; [done|]. destruct (decide (c = 63)) as [->|].
    + rewrite H63 by done. rewrite Forall_cons. by intros [? _].
    + rewrite Hlit by done. rewrite Forall_cons. by intros [? _].
Qed.

(** ** Facts about the meaning *)

Definition not_star (t : token) : Prop := t <> Star.

Section glob_facts.
Context (compare : list Z -> list Z -> bool).
Local Abbreviation G := (glob compare).

Lemma glob_star_inv p t : G (Star :: p) t <-> exists u v, t = u ++ v /\ G p v.
Proof.
  split.
  - remember (Star :: p) as q eqn:Eq. induction 1; try discriminate; injection Eq as <-.
    + by exists [], t.
    + destruct IHglob as (u & v & -> & Hv); [done|]. by exists (c :: u), v.
  - intros (u & v & -> & Hv). induction u; simpl; auto with ff.
Qed.

Lemma glob_app p q t u : G p t -> G q u -> G (p ++ q) (t ++ u).
Proof. induction 1; simpl; auto with ff. Qed.

(** A segment without stars consumes one character per token. *)
Lemma glob_segment seg q t :
  Forall not_star seg -> G (seg ++ q) t ->
  exists u v, t = u ++ v /\ length u = length seg /\ G seg u /\ G q v.
Proof.
  intros Hs. revert t. induction Hs as [|x seg Hx _ IH]; intros t Ht; simpl in Ht.
  { exists [], t. auto with ff. }
  unfold not_star in Hx. inversion Ht; subst; try done;
    match goal with H : glob _ (seg ++ q) ?t0 |- _ =>
      destruct (IH t0 H) as (u & v & -> & Hl & Hu & Hv) end;
    exists (c :: u), v; simpl; rewrite Hl; auto with ff.
Qed.

Lemma glob_segment_exact seg q cs t :
  Forall not_star seg -> length seg = length cs -> G (seg ++ q) (cs ++ t) -> G seg cs /\ G q t.
Proof.
  intros Hs Hl HG. destruct (glob_segment _ _ _ Hs HG) as (u & v & Heq & Hlu & Hu & Hv).
  apply app_inj_1 in Heq as [-> ->]; [done|lia].
Qed.

Lemma glob_length seg t : Forall not_star seg -> G seg t -> length seg = length t.
Proof.
  intros Hs HG. rewrite <-(app_nil_r seg) in HG.
  destruct (glob_segment _ _ _ Hs HG) as (u & v & -> & Hl & _ & Hv).
  inversion Hv; subst. rewrite app_nil_r. done.
Qed.

Lemma glob_nil_iff p : G p [] <-> Forall (eq Star) p.
Proof.
  split.
  - remember [] as t eqn:Et. induction 1; try discriminate; auto.
  - induction 1; subst; auto with ff.
Qed.
End glob_facts.

Lemma glob_mono (f g : list Z -> list Z -> bool) p t :
  (forall l r, f l r = g l r) -> glob f p t -> glob g p t.
Proof.
  intros Hfg. induction 1; auto with ff.
  apply glob_lit; [|done]. unfold lit_matches in *. by rewrite <-Hfg.
Qed.

(** ** The loop decides the meaning *)

Section loop.
Context (compare : list Z -> list Z -> bool) (text pattern : list Z).
Local Abbreviation G := (glob compare).
Local Abbreviation T i := (chars (drop i text)).
Local Abbreviation P i := (tokens (drop i pattern)).

(** The loop invariant: with no star the suffixes decide the match; with one, the
    tokens since the star matched the text since [saved], and the match is decided
    by the star at [saved]. *)
Definition loop_inv (s : GlobState) : Prop :=
  (s.(textIndex) <= length text)%nat /\ (s.(saved) <= s.(textIndex))%nat /\
  match s.(star) with
  | None => G (tokens pattern) (chars text) <-> G (P s.(patternIndex)) (T s.(textIndex))
  | Some st => (st < s.(patternIndex))%nat /\ (st < length pattern)%nat /\
      exists seg cs, P (S st) = seg ++ P s.(patternIndex) /\ T s.(saved) = cs ++ T s.(textIndex) /\
        Forall not_star seg /\ G seg cs /\
        (G (tokens pattern) (chars text) <-> G (Star :: P (S st)) (T s.(saved)))
  end.

Definition loop_measure (s : GlobState) : nat :=
  (length text - s.(saved)) * (length text + length pattern + 2) + (length text - s.(textIndex)) +
  match s.(star) with None => S (length pattern) | Some st => length pattern - st end.

(** Consuming one token and one character. *)
Lemma consume_inv s x c wt wp :
  loop_inv s -> x <> Star -> (s.(textIndex) < length text)%nat ->
  (1 <= wt)%nat -> (s.(textIndex) + wt <= length text)%nat -> (1 <= wp)%nat ->
  P s.(patternIndex) = x :: P (s.(patternIndex) + wp) ->
  T s.(textIndex) = c :: T (s.(textIndex) + wt) -> G [x] [c] ->
  let s' := {| textIndex := s.(textIndex) + wt; patternIndex := s.(patternIndex) + wp;
               star := s.(star); saved := s.(saved) |} in
  loop_inv s' /\ (loop_measure s' < loop_measure s)%nat.
Proof.
  intros (Hti & Hsv & Hinv) Hx Hlt Hwt Hwt' Hwp HP HT Hxc s'.
  split; [|unfold loop_measure; simpl; destruct (star s); lia].
  split; [simpl; lia|]. split; [simpl; lia|]. subst s'. cbn [star patternIndex textIndex saved].
  assert (forall q t, G (x :: q) (c :: t) <-> G q t) as Hstep.
  { intros q t. split.
    - intros H. change (x :: q) with ([x] ++ q) in H. change (c :: t) with ([c] ++ t) in H.
      apply glob_segment_exact in H; [tauto| |done]. by constructor.
    - intros H. by apply (glob_app _ [x] q [c] t). }
  destruct (star s) as [st|]; [|rewrite Hinv, HP, HT; apply Hstep].
  destruct Hinv as (Hst & Hstp & seg & cs & HPs & HTs & Hns & HG & Hiff).
  split; [lia|]. split; [done|]. exists (seg ++ [x]), (cs ++ [c]).
  rewrite HPs, HTs, HP, HT, <-!app_assoc. split; [done|]. split; [done|].
  split; [by apply Forall_app; split; [|by constructor]|].
  split; [by apply glob_app|]. by rewrite Hiff, HPs, HTs, HP, HT.
Qed.

(** Backtracking after a mismatch. *)
Lemma backtrack_inv s :
  loop_inv s -> (s.(textIndex) < length text)%nat ->
  ~ G (P s.(patternIndex)) (T s.(textIndex)) ->
  match backtrack text s with
  | Some s' => loop_inv s' /\ (loop_measure s' < loop_measure s)%nat
  | None => ~ G (tokens pattern) (chars text)
  end.
Proof.
  intros (Hti & Hsv & Hinv) Hlt Hno. unfold backtrack.
  destruct (star s) as [st|] eqn:Est; [|tauto].
  destruct Hinv as (Hst & Hstp & seg & cs & HPs & HTs & Hns & HG & Hiff).
  destruct (width_range text (saved s)) as [Hw1 Hw2]; [lia|]. split.
  - unfold loop_inv. cbn [star patternIndex textIndex saved]. split; [lia|]. split; [lia|].
    split; [lia|]. split; [done|]. exists [], []. do 3 (split; [done|]). split; [constructor|].
    rewrite Hiff, (chars_step text (saved s)) by lia. split; [|by constructor].
    intros HS. inversion HS; subst; [|done]. exfalso. apply Hno.
    assert (length seg = length cs) as Hl by by eapply glob_length.
    match goal with H : glob _ (P (S st)) _ |- _ => rename H into HGs end.
    rewrite <-(chars_step text (saved s)), HPs, HTs in HGs by lia.
    by apply glob_segment_exact in HGs as [_ ?].
  - unfold loop_measure. cbn [star textIndex saved]. rewrite Est.
    assert ((length text - saved s) = S (length text - S (saved s)))%nat as -> by lia.
    pose proof (Nat.mul_le_mono_r (length text - (saved s + width text (saved s)))
      (length text - S (saved s)) (length text + length pattern + 2)). lia.
Qed.

(** Meeting a star: the alternatives of an earlier star are subsumed. *)
Lemma star_inv s :
  loop_inv s -> pattern !! s.(patternIndex) = Some 42 ->
  let s' := {| textIndex := s.(textIndex); patternIndex := S s.(patternIndex);
               star := Some s.(patternIndex); saved := s.(textIndex) |} in
  loop_inv s' /\ (loop_measure s' < loop_measure s)%nat.
Proof.
  intros (Hti & Hsv & Hinv) Hp s'. apply lookup_lt_Some in Hp as Hlt. split.
  - subst s'. split; [done|]. split; [done|]. cbn [star patternIndex textIndex saved].
    split; [lia|]. split; [done|]. exists [], []. do 3 (split; [done|]). split; [constructor|].
    destruct (tokens_lookup _ _ _ Hp) as (_ & HP & _). specialize (HP eq_refl).
    rewrite <-HP. destruct (star s) as [st|]; [|done].
    destruct Hinv as (Hst & Hstp & seg & cs & HPs & HTs & Hns & HG & Hiff).
    rewrite Hiff, HPs, HTs. split.
    + intros HS. apply glob_star_inv in HS as (u & v & Huv & HS).
      apply glob_segment in HS as (w & z & -> & Hl & _ & Hz); [|done].
      assert (length seg = length cs) as Hlc by by eapply glob_length.
      rewrite HP in Hz. apply glob_star_inv in Hz as (y & z' & -> & Hz).
      rewrite HP. apply glob_star_inv.
      assert (exists y', chars (drop (textIndex s) text) = y' ++ z') as [y' Hy'].
      { apply (f_equal (drop (length cs))) in Huv. rewrite drop_app_length in Huv.
        rewrite Huv. rewrite !app_assoc. rewrite drop_app_le; [eauto|].
        rewrite !length_app. lia. }
      eauto.
    + intros H. apply glob_star_skip. by apply glob_app.
  - unfold loop_measure. subst s'. cbn [star textIndex saved].
    pose proof (Nat.mul_le_mono_r (length text - textIndex s) (length text - saved s)
      (length text + length pattern + 2)).
    destruct (star s); [destruct Hinv as (? & ? & _)|]; lia.
Qed.

Context (pwidth : list Z -> nat -> nat).
Hypothesis Hpwidth : forall i, pwidth pattern i = width pattern i.

Lemma step_inv s :
  loop_inv s -> (s.(textIndex) < length text)%nat ->
  match glob_step compare pwidth text pattern s with
  | Some s' => loop_inv s' /\ (loop_measure s' < loop_measure s)%nat
  | None => ~ G (tokens pattern) (chars text)
  end.
Proof.
  intros Hinv Hlt. unfold glob_step. pose proof (chars_step text _ Hlt) as HT.
  destruct (width_range text _ Hlt) as [Hw1 Hw2].
  destruct (pattern !! patternIndex s) as [p|] eqn:Hp.
  2:{ apply backtrack_inv; [done..|]. apply lookup_ge_None in Hp.
      unfold tokens. rewrite (chars_end pattern) by done. rewrite HT. intros HG. inversion HG. }
  destruct (tokens_lookup _ _ _ Hp) as (Hany & Hstar & Hlit).
  destruct (Z.eqb_spec p 63) as [->|H63].
  { specialize (Hany eq_refl). rewrite <-(Nat.add_1_r (patternIndex s)) in *.
    eapply consume_inv; eauto with ff. done. }
  destruct (Z.eqb_spec p 42) as [->|H42]; cbn [negb]; [by apply star_inv|].
  specialize (Hlit H63 H42). rewrite Hpwidth. apply lookup_lt_Some in Hp as Hpl.
  destruct (width_range pattern _ Hpl) as [Hpw1 Hpw2].
  assert (lit_matches compare (substr pattern (patternIndex s) (width pattern (patternIndex s)))
      (substr text (textIndex s) (width text (textIndex s))) =
    (width text (textIndex s) =? width pattern (patternIndex s))%nat &&
    compare (substr text (textIndex s) (width text (textIndex s)))
      (substr pattern (patternIndex s) (width pattern (patternIndex s)))) as Hlm.
  { unfold lit_matches. by rewrite !length_substr by lia. }
  rewrite <-Hlm. destruct (lit_matches _ _ _) eqn:E.
  - eapply consume_inv; eauto with ff. done.
  - apply backtrack_inv; [done..|]. rewrite Hlit, HT. intros HG. inversion HG; subst. congruence.
Qed.

Lemma loop_decides fuel s :
  loop_inv s -> (loop_measure s < fuel)%nat ->
  decides (glob_loop compare pwidth text pattern fuel s) (G (tokens pattern) (chars text)).
Proof.
  revert s. induction fuel as [|fuel IH]; intros s Hinv Hm; [lia|]. cbn [glob_loop].
  destruct (Nat.ltb_spec (textIndex s) (length text)) as [Hlt|Hge].
  - pose proof (step_inv s Hinv Hlt) as Hs. destruct (glob_step _ _ _ _ s) as [s'|].
    + apply IH; [tauto|lia].
    + by apply decides_false.
  - apply decides_Ok. rewrite trailing_stars_spec, <-(glob_nil_iff compare).
    destruct Hinv as (Hti & Hsv & Hinv). rewrite (chars_end text (textIndex s)) in Hinv by done.
    destruct (star s) as [st|]; [|tauto].
    destruct Hinv as (_ & _ & seg & cs & HPs & HTs & Hns & HG & Hiff).
    rewrite Hiff, HPs, HTs, app_nil_r. split.
    + intros HP. apply glob_star_skip. rewrite <-(app_nil_r cs). by apply glob_app.
    + intros HS. apply glob_star_inv in HS as (u & v & Huv & HS).
      apply glob_segment in HS as (w & z & -> & Hl & _ & Hz); [|done].
      assert (length seg = length cs) as Hlc by by eapply glob_length.
      apply (f_equal length) in Huv. rewrite !length_app in Huv.
      destruct z; [done|simpl in Huv; lia].
Qed.

Lemma glob_start_inv : loop_inv glob_start.
Proof. unfold loop_inv, glob_start. simpl. split; [lia|]. split; [lia|]. done. Qed.

Lemma glob_fuel_enough : (loop_measure glob_start < glob_fuel text pattern)%nat.
Proof. unfold loop_measure, glob_fuel, glob_start. simpl. lia. Qed.
End loop.

Section entry_points.
Context (CompareStringOrdinal : list Z -> list Z -> Z) (text pattern : list Z).
Local Abbreviation equal := (fun l r => CompareStringOrdinal l r =? CSTR_EQUAL).

Lemma GlobMatches_decides :
  decides (GlobMatches CompareStringOrdinal text pattern) (glob equal (tokens pattern) (chars text)).
Proof. apply loop_decides; auto using glob_start_inv, glob_fuel_enough. Qed.

Lemma GlobMatches16_decides :
  decides (GlobMatches16 CompareStringOrdinal text pattern) (glob equal (tokens pattern) (chars text)).
Proof.
  eapply decides_iff.
  - apply loop_decides; auto using glob_start_inv, glob_fuel_enough, patternWidth16_width.
  - split; apply glob_mono; intros l r; by rewrite CompareOrdinal16_eqb.
Qed.
End entry_points.

(** ** Properties *)

(** C32. Both wildcard matchers terminate and accept a name exactly when the pattern's
    tokens match the name's characters in the declarative sense ([*] any run of
    characters, [?] one character, a surrogate pair counting as one, other characters up
    to the ordinal comparison), for every comparison function; so the owning and the
    view matcher always agree. *)
Theorem GlobMatches_exact CompareStringOrdinal text pattern :
  let equal l r := CompareStringOrdinal l r =? CSTR_EQUAL in
  exists b, GlobMatches CompareStringOrdinal text pattern = Ok b /\
    GlobMatches16 CompareStringOrdinal text pattern = Ok b /\
    (b = true <-> glob equal (tokens pattern) (chars text)).
Proof.
  intros equal. destruct (GlobMatches_decides CompareStringOrdinal text pattern) as (b & Hb & Hiff).
  exists b. split; [done|]. split; [|done].
  rewrite <-Hb. eapply decides_eq; [apply GlobMatches16_decides|apply GlobMatches_decides].
Qed.

(** [a*c?.TXT] against [abc1.txt], and a pair of surrogates against [?]. *)
Example glob_example :
  GlobMatches ascii_ordinal [97; 98; 99; 49; 46; 116; 120; 116] [97; 42; 99; 63; 46; 84; 88; 84]
    = Ok true /\
  GlobMatches16 ascii_ordinal [55357; 56832; 97] [63; 97] = Ok true /\
  GlobMatches ascii_ordinal [55357; 56832; 97] [63; 63; 97] = Ok false.
Proof. repeat split; vm_compute; reflexivity. Qed.
