(* ===== verification/QuerySyntax.v ===== *)
(** * QuerySyntax: tokens and filter values of a search query

    Models the parsing half of [src/src/search/src/Query.cpp]: [Tokenize], the size
    and date filter grammars with their 64-bit arithmetic, and the filter values of
    [src/src/search/include/ffsearch/Query.h].

    The platform the parsers call (locale tests of characters, the clock and the
    Win32 time conversions) is the class [Platform]. *)

From S2P Require Import Prelude TextMatch.
From Stdlib Require Import String Ascii.
Local Open Scope Z_scope.
Local Abbreviation length := List.length.

Definition UINT64_MAX : Z := 18446744073709551615.
Definition ULONG_MAX : Z := 4294967295.

(** A wide string literal. *)
Definition L (s : string) : list Z :=
  List.map (fun a => Z.of_nat (nat_of_ascii a)) (list_ascii_of_string s).

(** ** Platform *)

Record SYSTEMTIME := {
  wYear : Z; wMonth : Z; wDayOfWeek : Z; wDay : Z;
  wHour : Z; wMinute : Z; wSecond : Z; wMilliseconds : Z
}.

(** A [FILETIME] is its 64-bit tick count; [None] is a failed conversion. *)
Class Platform := {
  CompareStringOrdinal : list Z -> list Z -> Z;
  towlower : Z -> Z;
  iswspace : Z -> bool;
  CurrentFileTime : Z;
  SystemTimeToFileTime : SYSTEMTIME -> option Z;
  FileTimeToLocalFileTime : Z -> option Z;
  FileTimeToSystemTime : Z -> option SYSTEMTIME
}.

(** [iswdigit] of the C standard: the ten decimal digits. *)
Definition iswdigit (c : Z) : bool := (48 <=? c) && (c <=? 57).

(** ** Filter values *)

Module SizeOp.
Inductive Op := Equal | Greater | GreaterEqual | Less | LessEqual | Range.
End SizeOp.
Record SizeFilter := { sop : SizeOp.Op; sfirst : Z; ssecond : Z }.

Module DateOp.
Inductive Op := EqualDay | GreaterThan | Range.
End DateOp.
Record DateFilter := { dop : DateOp.Op; dfirst : Z; dsecond : Z }.

(** [std::variant<std::wstring, SizeFilter, DateFilter>]. *)
Inductive FilterValue :=
| VString (s : list Z)
| VSize (f : SizeFilter)
| VDate (f : DateFilter).

(** ** String operations of the standard library *)

Fixpoint starts_with (s prefix : list Z) {struct prefix} : bool :=
  match prefix, s with
  | [], _ => true
  | p :: prefix', c :: s' => (p =? c) && starts_with s' prefix'
  | _ :: _, [] => false
  end.

(** [value.find (pattern)]. *)
Fixpoint find_sub (s pattern : list Z) : option nat :=
  if starts_with s pattern then Some O
  else match s with
       | [] => None
       | _ :: s' => match find_sub s' pattern with Some i => Some (S i) | None => None end
       end.

(** [value.ends_with (c)] for a one-unit suffix. *)
Definition ends_with_unit (s : list Z) (c : Z) : bool :=
  match last s with Some x => x =? c | None => false end.

Section parsing.
Context `{Platform}.

Definition Lower (value : list Z) : list Z := List.map towlower value.

(** ** Tokenize *)

(** The loop over the units; [tokens] is kept in reverse. *)
Fixpoint tokenize_loop (text : list Z) (tokens : list (list Z)) (current : list Z) (quoted : bool)
    : list (list Z) :=
  match text with
  | [] => rev (match current with [] => tokens | _ :: _ => current :: tokens end)
  | c :: text' =>
      if c =? 34 then tokenize_loop text' tokens current (negb quoted)
      else if negb quoted && iswspace c
      then match current with
           | [] => tokenize_loop text' tokens [] quoted
           | _ :: _ => tokenize_loop text' (current :: tokens) [] quoted
           end
      else tokenize_loop text' tokens (current ++ [c]) quoted
  end.

Definition Tokenize (text : list Z) : list (list Z) := tokenize_loop text [] [] false.

(** ** Sizes *)

(** [while (digits < text.size () && iswdigit (text[digits])) ++digits]. *)
Fixpoint count_digits (text : list Z) : nat :=
  match text with
  | c :: text' => if iswdigit c then S (count_digits text') else O
  | [] => O
  end.

(** The accumulation loop over the digits, with its overflow test. *)
Fixpoint digits_value (ds : list Z) (value : Z) : option Z :=
  match ds with
  | [] => Some value
  | d :: ds' =>
      let digit := d - 48 in
      if (UINT64_MAX - digit) / 10 <? value then None
      else digits_value ds' (add64 (mul64 value 10) digit)
  end.

Definition ParseSize (text : list Z) : option Z :=
  let digits := count_digits text in
  if (digits =? 0)%nat then None
  else
    match digits_value (take digits text) 0 with
    | None => None
    | Some value =>
        let unit := Lower (drop digits text) in
        let scaled multiplier :=
          if UINT64_MAX / multiplier <? value then None else Some (mul64 value multiplier) in
        if bool_decide (unit = L "kb") then scaled 1024
        else if bool_decide (unit = L "mb") then scaled (1024 * 1024)
        else if bool_decide (unit = L "gb") then scaled (1024 * 1024 * 1024)
        else if negb (bool_decide (unit = [])) && negb (bool_decide (unit = L "b")) then None
        else scaled 1
    end.

Definition ParseSizeFilter (value : list Z) : option FilterValue :=
  match find_sub value (L "..") with
  | Some range =>
      match ParseSize (take range value), ParseSize (drop (range + 2) value) with
      | Some a, Some b =>
          if b <? a then None
          else Some (VSize {| sop := SizeOp.Range; sfirst := a; ssecond := b |})
      | _, _ => None
      end
  | None =>
      let '(op, offset) :=
        if starts_with value (L ">=") then (SizeOp.GreaterEqual, 2%nat)
        else if starts_with value (L "<=") then (SizeOp.LessEqual, 2%nat)
        else if starts_with value (L ">") then (SizeOp.Greater, 1%nat)
        else if starts_with value (L "<") then (SizeOp.Less, 1%nat)
        else if starts_with value (L "=") then (SizeOp.Equal, 1%nat)
        else (SizeOp.Equal, 0%nat) in
      match ParseSize (drop offset value) with
      | Some size => Some (VSize {| sop := op; sfirst := size; ssecond := 0 |})
      | None => None
      end
  end.

(** ** Dates *)

Definition kDay : Z := 24 * 60 * 60 * 10000000.

(** [_wtoi] of a short run of digits, cast to [WORD]. *)
Fixpoint decimal (ds : list Z) (acc : Z) : Z :=
  match ds with [] => acc | d :: ds' => decimal ds' (acc * 10 + (d - 48)) end.
Definition wtoi_word (ds : list Z) : Z := wrap16 (decimal ds 0).

(** [value[index] is a digit] at every index but 4 and 7. *)
Fixpoint day_digits (index : nat) (value : list Z) : bool :=
  match value with
  | [] => true
  | c :: value' =>
      (((index =? 4) || (index =? 7))%nat || iswdigit c) && day_digits (S index) value'
  end.

Definition ParseDay (value : list Z) : option Z :=
  if negb (length value =? 10)%nat || negb (bool_decide (value !! 4%nat = Some 45))
     || negb (bool_decide (value !! 7%nat = Some 45)) then None
  else if negb (day_digits 0 value) then None
  else
    let time := {| wYear := wtoi_word (substr value 0 4); wMonth := wtoi_word (substr value 5 2);
                   wDayOfWeek := 0; wDay := wtoi_word (substr value 8 2);
                   wHour := 0; wMinute := 0; wSecond := 0; wMilliseconds := 0 |} in
    SystemTimeToFileTime time.

Definition LocalDayStart (now : Z) : Z :=
  let fallback := now - now mod kDay in
  match FileTimeToLocalFileTime now with
  | None => fallback
  | Some localFileTime =>
      match FileTimeToSystemTime localFileTime with
      | None => fallback
      | Some local =>
          let local := {| wYear := wYear local; wMonth := wMonth local;
                          wDayOfWeek := wDayOfWeek local; wDay := wDay local;
                          wHour := 0; wMinute := 0; wSecond := 0; wMilliseconds := 0 |} in
          match SystemTimeToFileTime local with
          | None => fallback
          | Some dayStart => dayStart
          end
      end
  end.

(** [std::wcstoul (digits, nullptr, 10)]: saturates at [ULONG_MAX]. *)
Definition wcstoul (ds : list Z) : Z := Z.min (decimal ds 0) ULONG_MAX.

Definition ParseDateFilter (value : list Z) : option FilterValue :=
  if bool_decide (Lower value = L "today") then
    let day := LocalDayStart CurrentFileTime in
    Some (VDate {| dop := DateOp.Range; dfirst := day; dsecond := sub64 (add64 day kDay) 1 |})
  else
    match find_sub value (L "..") with
    | Some range =>
        match ParseDay (take range value), ParseDay (drop (range + 2) value) with
        | Some first, Some second =>
            if second <? first then None
            else Some (VDate {| dop := DateOp.Range; dfirst := first;
                                dsecond := sub64 (add64 second kDay) 1 |})
        | _, _ => None
        end
    | None =>
        if starts_with value (L ">") && ends_with_unit value 100 then
          let digits := substr value 1 (length value - 2) in
          if bool_decide (digits = []) || negb (forallb iswdigit digits) then None
          else
            let days := wcstoul digits in
            let dayStart := LocalDayStart CurrentFileTime in
            let back := if days =? 0 then 0 else days - 1 in
            if dayStart / kDay + 1 <? back then None
            else Some (VDate {| dop := DateOp.GreaterThan;
                                dfirst := sub64 (sub64 dayStart (mul64 back kDay)) 1;
                                dsecond := 0 |})
        else
          match ParseDay value with
          | Some day => Some (VDate {| dop := DateOp.EqualDay; dfirst := day;
                                       dsecond := sub64 (add64 day kDay) 1 |})
          | None => None
          end
    end.
End parsing.

(** ** Reading sizes *)

Definition is_digit (c : Z) : Prop := 48 <= c <= 57.

Lemma iswdigit_spec c : iswdigit c = true <-> is_digit c.
Proof. unfold iswdigit, is_digit. lia. Qed.

(** The value of a run of decimal digits. *)
Definition dec (ds : list Z) : Z := decimal ds 0.

Lemma decimal_mono ds acc : Forall is_digit ds -> 0 <= acc -> acc <= decimal ds acc.
Proof.
  intros Hd. revert acc. induction Hd as [|d ds Hd _ IH]; intros acc Ha; simpl; [lia|].
  unfold is_digit in Hd. specialize (IH (acc * 10 + (d - 48))). lia.
Qed.

Lemma mul64_small a b : 0 <= a -> 0 <= b -> a * b <= SIZE_MAX -> mul64 a b = a * b.
Proof. intros. unfold mul64. apply wrap64_small. nia. Qed.

(** The overflow test of the digit loop is exact. *)
Lemma digits_value_spec ds value :
  Forall is_digit ds -> 0 <= value <= UINT64_MAX ->
  digits_value ds value =
    (if decimal ds value <=? UINT64_MAX then Some (decimal ds value) else None).
Proof.
  intros Hd. revert value. induction Hd as [|d ds Hd Hds IH]; intros value Hv.
  { cbn [digits_value decimal]. by rewrite (proj2 (Z.leb_le _ _)) by lia. }
  cbn [digits_value decimal]. unfold is_digit in Hd.
  pose proof (Z.div_mod (UINT64_MAX - (d - 48)) 10).
  pose proof (Z.mod_pos_bound (UINT64_MAX - (d - 48)) 10).
  destruct (Z.ltb_spec ((UINT64_MAX - (d - 48)) / 10) value) as [Hlt|Hge].
  - pose proof (decimal_mono ds (value * 10 + (d - 48)) Hds).
    rewrite (proj2 (Z.leb_gt _ _)); [done|]. unfold UINT64_MAX in *. lia.
  - rewrite mul64_small, add64_small by (unfold SIZE_MAX, UINT64_MAX in *; lia).
    apply IH. unfold UINT64_MAX in *. lia.
Qed.

Lemma count_digits_spec text :
  Forall is_digit (take (count_digits text) text) /\
  (forall c u, drop (count_digits text) text = c :: u -> ~ is_digit c).
Proof.
  induction text as [|c text [IH1 IH2]]; [split; [constructor|done]|].
  cbn [count_digits]. destruct (iswdigit c) eqn:E.
  - apply iswdigit_spec in E. split; [by constructor|done].
  - split; [constructor|]. intros c' u [= <- <-]. rewrite <-iswdigit_spec. congruence.
Qed.

Lemma count_digits_app ds u :
  Forall is_digit ds -> (forall c u', u = c :: u' -> ~ is_digit c) ->
  count_digits (ds ++ u) = length ds.
Proof.
  intros Hd Hu. induction Hd as [|d ds Hd _ IH]; simpl.
  - destruct u as [|c u]; [done|]. simpl. destruct (iswdigit c) eqn:E; [|done].
    apply iswdigit_spec in E. by destruct (Hu c u).
  - apply iswdigit_spec in Hd. rewrite Hd. by rewrite IH.
Qed.

(** What a unit suffix multiplies by. *)
Definition unit_multiplier (unit : list Z) : option Z :=
  if bool_decide (unit = [] \/ unit = L "b") then Some 1
  else if bool_decide (unit = L "kb") then Some 1024
  else if bool_decide (unit = L "mb") then Some (1024 * 1024)
  else if bool_decide (unit = L "gb") then Some (1024 * 1024 * 1024)
  else None.

Section parsing_proofs.
Context `{Platform}.

Lemma ParseSize_split text :
  ParseSize text =
    let n := count_digits text in
    if (n =? 0)%nat then None
    else match unit_multiplier (Lower (drop n text)) with
         | Some m => if dec (take n text) * m <=? UINT64_MAX then Some (dec (take n text) * m) else None
         | None => None
         end.
Proof.
  unfold ParseSize. destruct (count_digits text =? 0)%nat; [done|].
  destruct (count_digits_spec text) as [Hd _].
  set (ds := take (count_digits text) text) in *.
  pose proof (decimal_mono ds 0 Hd ltac:(lia)).
  rewrite digits_value_spec by (done || (unfold UINT64_MAX; lia)). fold (dec ds) in *.
  assert (forall m, 1 <= m -> dec ds <= UINT64_MAX ->
    (if UINT64_MAX / m <? dec ds then None else Some (mul64 (dec ds) m)) =
    (if dec ds * m <=? UINT64_MAX then Some (dec ds * m) else None)) as Hscaled.
  { intros m Hm Hle. pose proof (Z.div_mod UINT64_MAX m). pose proof (Z.mod_pos_bound UINT64_MAX m).
    destruct (Z.ltb_spec (UINT64_MAX / m) (dec ds)), (Z.leb_spec (dec ds * m) UINT64_MAX);
      [nia|done| |nia].
    by rewrite mul64_small by (unfold SIZE_MAX, UINT64_MAX in *; lia). }
  assert (forall m, 1 <= m -> UINT64_MAX < dec ds -> (dec ds * m <=? UINT64_MAX) = false) as Hbig
    by (intros; apply Z.leb_gt; nia).
  unfold unit_multiplier. cbv zeta. generalize (Lower (drop (count_digits text) text)) as u.
  intros u. destruct (Z.leb_spec (dec ds) UINT64_MAX).
  - rewrite !Hscaled by lia.
    destruct (decide (u = [])) as [->|]; [reflexivity|].
    destruct (decide (u = L "b")) as [->|]; [reflexivity|].
    rewrite (bool_decide_false (u = [] \/ u = L "b")) by tauto.
    rewrite (bool_decide_false (u = [])), (bool_decide_false (u = L "b")) by done. cbn [negb andb].
    destruct (decide (u = L "kb")) as [->|]; [reflexivity|].
    rewrite !(bool_decide_false (u = L "kb")) by done.
    destruct (decide (u = L "mb")) as [->|]; [reflexivity|].
    rewrite !(bool_decide_false (u = L "mb")) by done.
    destruct (decide (u = L "gb")) as [->|]; [reflexivity|].
    by rewrite !(bool_decide_false (u = L "gb")) by done.
  - repeat case_bool_decide; rewrite ?Hbig by lia; done.
Qed.

(** ** Tokens *)

Definition well_formed_token (t : list Z) : Prop := t <> [] /\ 34 ∉ t.

Lemma tokenize_loop_wf text ts current quoted :
  Forall well_formed_token ts -> 34 ∉ current ->
  Forall well_formed_token (tokenize_loop text ts current quoted).
Proof.
  revert ts current quoted. induction text as [|c text IH]; intros ts current quoted Hts Hc.
  - cbn [tokenize_loop]. apply Forall_rev. destruct current; [done|].
    constructor; [|done]. split; [done|done].
  - cbn [tokenize_loop]. destruct (Z.eqb_spec c 34); [auto|]. destruct (_ && _).
    + destruct current; apply IH; try done; try set_solver.
      constructor; [by split|done].
    + apply IH; [done|]. set_solver.
Qed.

(** Writing tokens back: each one in quotes, separated by spaces. *)
Definition render (ts : list (list Z)) : list Z := ts ≫= fun t => 34 :: t ++ [34; 32].

Lemma tokenize_loop_quoted t rest ts current :
  34 ∉ t ->
  tokenize_loop (t ++ rest) ts current true = tokenize_loop rest ts (current ++ t) true.
Proof.
  revert current. induction t as [|c t IH]; intros current Ht; simpl; [by rewrite app_nil_r|].
  apply not_elem_of_cons in Ht as [Hc Ht]. destruct (Z.eqb_spec c 34); [done|].
  rewrite IH, <-app_assoc by done. done.
Qed.

Lemma tokenize_render ts acc :
  iswspace 32 = true -> Forall well_formed_token ts ->
  tokenize_loop (render ts) acc [] false = rev acc ++ ts.
Proof.
  intros Hsp. revert acc. induction ts as [|t ts IH]; intros acc Hts.
  { cbn. by rewrite app_nil_r. }
  rewrite Forall_cons in Hts. destruct Hts as [[Hne Hq] Hts].
  unfold render. rewrite bind_cons. fold (render ts). cbn [app tokenize_loop].
  rewrite <-app_assoc. change (34 =? 34) with true. cbn [negb].
  rewrite tokenize_loop_quoted by done. cbn [app tokenize_loop].
  change (34 =? 34) with true. change (32 =? 34) with false. cbn [negb andb]. rewrite Hsp.
  destruct t as [|c t]; [done|]. rewrite IH by done. cbn [rev]. by rewrite <-app_assoc.
Qed.
End parsing_proofs.

(** ** What the parsers rely on *)

Class PlatformLaws `{Platform} := {
  #[global] platform_ordinal :: OrdinalAscii CompareStringOrdinal;
  towlower_ascii : forall c, is_ascii_unit c -> towlower c = FoldAscii16Char c;
  iswspace_space : iswspace 32 = true
}.

(** A platform for evaluating the parsers: ASCII case, a clock at 2024-01-18 UTC and
    conversions that count days of 24 hours since 1601. *)
Definition test_platform : Platform := {|
  CompareStringOrdinal := ascii_ordinal;
  towlower := FoldAscii16Char;
  iswspace := fun c => (c =? 32) || ((9 <=? c) && (c <=? 13));
  CurrentFileTime := 133500100000000000;
  SystemTimeToFileTime := fun t => Some (wDay t * kDay);
  FileTimeToLocalFileTime := fun t => Some t;
  FileTimeToSystemTime := fun t =>
    Some {| wYear := 2024; wMonth := 1; wDayOfWeek := 0; wDay := t / kDay;
            wHour := 0; wMinute := 0; wSecond := 0; wMilliseconds := 0 |}
|}.

#[export] Instance test_platform_laws : @PlatformLaws test_platform.
Proof. split; [exact ascii_ordinal_ok|done|done]. Qed.

Section filter_proofs.
Context `{HP : Platform}.

Lemma digits_no_dots ds u :
  Forall is_digit ds -> find_sub u (L "..") = None -> find_sub (ds ++ u) (L "..") = None.
Proof.
  intros Hd Hu. induction Hd as [|d ds Hd _ IH]; [done|].
  cbn [app find_sub starts_with]. change (L "..") with [46; 46] in *. cbn [starts_with].
  destruct (Z.eqb_spec 46 d); [unfold is_digit in Hd; lia|]. cbn [andb]. by rewrite IH.
Qed.

Lemma find_dots_after ds u :
  Forall is_digit ds -> find_sub (ds ++ L ".." ++ u) (L "..") = Some (length ds).
Proof.
  intros Hd. induction Hd as [|d ds Hd _ IH]; [destruct u; done|].
  cbn [app find_sub starts_with]. change (L "..") with [46; 46] in *. cbn [starts_with].
  destruct (Z.eqb_spec 46 d); [unfold is_digit in Hd; lia|]. cbn [andb]. by rewrite IH.
Qed.

Lemma count_digits_all ds : Forall is_digit ds -> count_digits ds = length ds.
Proof. intros Hd. rewrite <-(app_nil_r ds) at 1. by apply count_digits_app. Qed.

Lemma ParseSize_digits ds :
  Forall is_digit ds -> ds <> [] -> dec ds <= UINT64_MAX -> ParseSize ds = Some (dec ds).
Proof.
  intros Hd Hne Hle. rewrite ParseSize_split, count_digits_all by done. cbv zeta.
  destruct (Nat.eqb_spec (length ds) 0); [by destruct ds|].
  rewrite firstn_all, skipn_all. change (unit_multiplier (Lower [])) with (Some 1).
  cbv beta iota. rewrite Z.mul_1_r, (proj2 (Z.leb_le _ _)) by done. done.
Qed.

(** The spelling of a size operator. *)
Definition op_text (op : SizeOp.Op) : list Z :=
  match op with
  | SizeOp.Equal => L "=" | SizeOp.Greater => L ">" | SizeOp.GreaterEqual => L ">="
  | SizeOp.Less => L "<" | SizeOp.LessEqual => L "<=" | SizeOp.Range => []
  end.

Lemma digit_not_eq_sign d : is_digit d -> (61 =? d) = false.
Proof. unfold is_digit. lia. Qed.

(** A lone operator in front of digits is read back as itself. *)
Lemma ParseSizeFilter_op op ds :
  op <> SizeOp.Range -> Forall is_digit ds -> ds <> [] -> dec ds <= UINT64_MAX ->
  ParseSizeFilter (op_text op ++ ds) =
    Some (VSize {| sop := op; sfirst := dec ds; ssecond := 0 |}).
Proof.
  intros Hop Hd Hne Hle.
  assert (find_sub ds (L "..") = None) as Hf.
  { rewrite <-(app_nil_r ds). by apply digits_no_dots. }
  assert (find_sub (op_text op ++ ds) (L "..") = None) as Hfind.
  { change (L "..") with [46; 46] in *. destruct op; try done; cbn; rewrite Hf; done. }
  unfold ParseSizeFilter. rewrite Hfind.
  destruct ds as [|d ds]; [done|].
  assert (is_digit d) as Hdd by by inversion Hd.
  change (L ">=") with [62; 61]. change (L "<=") with [60; 61]. change (L ">") with [62].
  change (L "<") with [60]. change (L "=") with [61].
  destruct op; try done;
    [change (op_text _) with [61]|change (op_text _) with [62]|change (op_text _) with [62; 61]
    |change (op_text _) with [60]|change (op_text _) with [60; 61]];
    cbn -[ParseSize dec Z.eqb]; rewrite ?(digit_not_eq_sign d Hdd); cbn -[ParseSize dec];
    by rewrite ParseSize_digits.
Qed.

Lemma Lower_ascii `{!PlatformLaws} s : Forall is_ascii_unit s -> Lower s = FoldAscii16 s.
Proof.
  induction 1 as [|c s Hc _ IH]; [done|]. unfold Lower in *. cbn [List.map].
  by rewrite towlower_ascii, IH.
Qed.
End filter_proofs.

(** ** Relative dates *)

Section relative_dates.
Context `{HP : Platform} `{HL : !PlatformLaws}.



(** [>Nd] reaches the relative-day branch. *)
Lemma ParseDateFilter_relative ds :
  Forall is_digit ds -> ds <> [] ->
  ParseDateFilter (L ">" ++ ds ++ L "d") =
    let dayStart := LocalDayStart CurrentFileTime in
    let days := wcstoul ds in
    let back := if days =? 0 then 0 else days - 1 in
    if dayStart / kDay + 1 <? back then None
    else Some (VDate {| dop := DateOp.GreaterThan;
                        dfirst := sub64 (sub64 dayStart (mul64 back kDay)) 1; dsecond := 0 |}).
Proof.
  intros Hd Hne. unfold ParseDateFilter.
  change (L ">") with [62]. change (L "d") with [100]. cbn [app].
  assert (Lower (62 :: ds ++ [100]) <> L "today") as Hlow.
  { unfold Lower. cbn [List.map]. rewrite towlower_ascii by (unfold is_ascii_unit; lia).
    discriminate. }
  rewrite bool_decide_false by done.
  assert (find_sub (62 :: ds ++ [100]) (L "..") = None) as ->.
  { change (L "..") with [46; 46]. cbn [find_sub starts_with]. change (46 =? 62) with false.
    cbn [andb]. pose proof (digits_no_dots ds [100] Hd eq_refl) as Hn.
    change (L "..") with [46; 46] in Hn. by rewrite Hn. }
  assert (starts_with (62 :: ds ++ [100]) [62] = true) as -> by done.
  assert (ends_with_unit (62 :: ds ++ [100]) 100 = true) as ->.
  { unfold ends_with_unit. rewrite app_comm_cons, last_snoc. done. }
  cbn [andb].
  assert (substr (62 :: ds ++ [100]) 1 (length (62 :: ds ++ [100]) - 2) = ds) as ->.
  { unfold substr. cbn [drop length]. rewrite length_app, drop_0. cbn [length].
    apply take_app_length'. lia. }
  rewrite bool_decide_false by done.
  assert (forallb iswdigit ds = true) as ->.
  { apply forallb_forall. intros x Hx. apply iswdigit_spec. rewrite Forall_forall in Hd.
    apply Hd, list_elem_of_In, Hx. }
  done.
Qed.
End relative_dates.

(** ** Properties *)

(** [ParseSize] accepts exactly a non-empty run of digits followed by nothing, b, kb,
    mb or gb in any case, and only when the scaled value fits 64 bits; the value is exact,
    so no overflow is ever silently accepted. *)
Theorem ParseSize_exact `{Platform} text v :
  ParseSize text = Some v <->
  exists ds u m, text = ds ++ u /\ ds <> [] /\ Forall is_digit ds /\
    (forall c u', u = c :: u' -> ~ is_digit c) /\
    unit_multiplier (Lower u) = Some m /\ v = dec ds * m /\ v <= UINT64_MAX.
Proof.
  rewrite ParseSize_split. cbv zeta. split.
  - destruct (Nat.eqb_spec (count_digits text) 0) as [|Hn]; [done|].
    destruct (unit_multiplier _) as [m|] eqn:Em; [|done].
    destruct (Z.leb_spec (dec (take (count_digits text) text) * m) UINT64_MAX); [|done].
    intros [= <-]. destruct (count_digits_spec text) as [Hd Hu].
    exists (take (count_digits text) text), (drop (count_digits text) text), m.
    rewrite take_drop. repeat split; auto. intros Hnil. apply Hn.
    destruct text; [done|]. simpl in *. by destruct (iswdigit z).
  - intros (ds & u & m & -> & Hne & Hd & Hu & Hm & -> & Hle).
    rewrite count_digits_app, take_app_length, drop_app_length by done.
    destruct (Nat.eqb_spec (length ds) 0); [by destruct ds|].
    by rewrite Hm, (proj2 (Z.leb_le _ _)) by done.
Qed.

(** The tokens of any query text are non-empty and hold no quote, and any such list of
    tokens is read back unchanged from its quoted rendering; so tokenizing is stable. *)
Theorem Tokenize_stable `{Platform} `{!PlatformLaws} text ts :
  Forall well_formed_token ts ->
  Forall well_formed_token (Tokenize text) /\ Tokenize (render ts) = ts /\
  Tokenize (render (Tokenize text)) = Tokenize text.
Proof.
  intros Hts.
  assert (Forall well_formed_token (Tokenize text)) as Hwf
    by (apply tokenize_loop_wf; [constructor|set_solver]).
  split; [done|]. unfold Tokenize.
  split; rewrite tokenize_render; auto using iswspace_space.
Qed.

Lemma Tokenize_stable_witness :
  @Tokenize test_platform (render [L "my file"; L "size:>1mb"]) = [L "my file"; L "size:>1mb"].
Proof.
  refine (proj1 (proj2 (@Tokenize_stable test_platform test_platform_laws
    (L "a b") [L "my file"; L "size:>1mb"] _))).
  repeat constructor; vm_compute; try discriminate; intros Hin;
    repeat (apply elem_of_cons in Hin as [Hin|Hin]; [discriminate|]); inversion Hin.
Defined.

(** A size filter written with an operator and a decimal number, or as a range of two
    ordered decimal numbers, parses to exactly that operator and those numbers; a range
    whose bounds are in the wrong order is rejected. *)
Theorem ParseSizeFilter_round_trip `{Platform} op ds ds' :
  op <> SizeOp.Range ->
  Forall is_digit ds -> ds <> [] -> dec ds <= UINT64_MAX ->
  Forall is_digit ds' -> ds' <> [] -> dec ds' <= UINT64_MAX ->
  ParseSizeFilter (op_text op ++ ds) =
    Some (VSize {| sop := op; sfirst := dec ds; ssecond := 0 |}) /\
  ParseSizeFilter (ds ++ L ".." ++ ds') =
    (if dec ds <=? dec ds'
     then Some (VSize {| sop := SizeOp.Range; sfirst := dec ds; ssecond := dec ds' |}) else None).
Proof.
  intros Hop Hd Hne Hle Hd' Hne' Hle'. split; [by apply ParseSizeFilter_op|].
  unfold ParseSizeFilter. rewrite find_dots_after by done.
  rewrite take_app_length, <-drop_drop, drop_app_length.
  change (drop 2 (L ".." ++ ds')) with ds'. rewrite !ParseSize_digits by done.
  destruct (Z.ltb_spec (dec ds') (dec ds)), (Z.leb_spec (dec ds) (dec ds')); (done || lia).
Qed.

Lemma ParseSizeFilter_round_trip_witness :
  @ParseSizeFilter test_platform (L ">=" ++ L "42") =
    Some (VSize {| sop := SizeOp.GreaterEqual; sfirst := 42; ssecond := 0 |}) /\
  @ParseSizeFilter test_platform (L "42" ++ L ".." ++ L "99") =
    Some (VSize {| sop := SizeOp.Range; sfirst := 42; ssecond := 99 |}).
Proof.
  refine (@ParseSizeFilter_round_trip test_platform SizeOp.GreaterEqual (L "42") (L "99")
    _ _ _ _ _ _ _); try discriminate; try (vm_compute; discriminate);
    repeat (apply Forall_cons; split; [split; vm_compute; discriminate|]); apply Forall_nil; done.
Defined.

(** The filter [>Nd] with N at least 1 is a strict lower bound one tick before the
    local midnight N-1 days back: it accepts exactly the times from that midnight on, as
    long as that midnight is after the origin of the clock. *)
Theorem relative_days_exact `{Platform} `{!PlatformLaws} ds :
  let dayStart := LocalDayStart CurrentFileTime in
  Forall is_digit ds -> 1 <= dec ds <= ULONG_MAX -> dayStart <= UINT64_MAX ->
  (dec ds - 1) * kDay < dayStart ->
  exists f, ParseDateFilter (L ">" ++ ds ++ L "d") = Some (VDate f) /\
    dop f = DateOp.GreaterThan /\
    forall t, dfirst f < t <-> dayStart - (dec ds - 1) * kDay <= t.
Proof.
  intros dayStart Hd Hdays Hday Hlt.
  assert (ds <> []) as Hne by (intros ->; unfold dec in *; simpl in *; lia).
  rewrite ParseDateFilter_relative by done. fold dayStart. cbv zeta.
  unfold wcstoul. fold (dec ds). rewrite Z.min_l by lia.
  destruct (Z.eqb_spec (dec ds) 0); [lia|].
  assert (0 < kDay) as Hk by (unfold kDay; lia).
  assert (dec ds - 1 <= dayStart / kDay).
  { apply Z.div_le_lower_bound; [done|]. lia. }
  destruct (Z.ltb_spec (dayStart / kDay + 1) (dec ds - 1)); [lia|].
  eexists. split; [done|]. split; [done|]. cbn [dfirst]. intros t.
  rewrite mul64_small by (unfold SIZE_MAX, UINT64_MAX in *; lia).
  unfold sub64. rewrite (wrap64_small (dayStart - _)), wrap64_small
    by (unfold SIZE_MAX, UINT64_MAX in *; nia). lia.
Qed.

Lemma relative_days_exact_witness :
  exists f, @ParseDateFilter test_platform (L ">" ++ L "3" ++ L "d") = Some (VDate f) /\
    dop f = DateOp.GreaterThan /\
    forall t, dfirst f < t <-> 154514 * kDay - (3 - 1) * kDay <= t.
Proof.
  refine (@relative_days_exact test_platform test_platform_laws (L "3") _ _ _ _);
    [repeat (apply Forall_cons; split; [split; vm_compute; discriminate|]); apply Forall_nil; done
    |split; vm_compute; discriminate|vm_compute; discriminate|vm_compute; reflexivity].
Defined.

(** The guard of [>Nd] admits one day too many: when N-1 is one more than the whole days
    since the origin of the clock, the filter is accepted, the subtraction wraps and the
    bound lies beyond every time below 2^63, so the filter matches nothing instead of
    everything. *)
Theorem relative_days_wraps `{Platform} `{!PlatformLaws} ds :
  let dayStart := LocalDayStart CurrentFileTime in
  Forall is_digit ds -> dec ds <= ULONG_MAX -> 0 <= dayStart < 9223372036854775808 ->
  dec ds - 1 = dayStart / kDay + 1 ->
  exists f, ParseDateFilter (L ">" ++ ds ++ L "d") = Some (VDate f) /\
    dop f = DateOp.GreaterThan /\ forall t, t < 9223372036854775808 -> ~ dfirst f < t.
Proof.
  intros dayStart Hd Hdays Hday Heq.
  assert (0 < kDay) as Hk by (unfold kDay; lia).
  pose proof (Z.div_pos dayStart kDay ltac:(lia) Hk).
  assert (ds <> []) as Hne by (intros ->; unfold dec in *; simpl in *; lia).
  rewrite ParseDateFilter_relative by done. fold dayStart. cbv zeta.
  unfold wcstoul. fold (dec ds). rewrite Z.min_l by lia.
  destruct (Z.eqb_spec (dec ds) 0); [lia|].
  destruct (Z.ltb_spec (dayStart / kDay + 1) (dec ds - 1)); [lia|].
  eexists. split; [done|]. split; [done|]. cbn [dfirst]. intros t Ht.
  rewrite Heq. pose proof (Z.div_mod dayStart kDay ltac:(lia)) as Hdm.
  pose proof (Z.mod_pos_bound dayStart kDay Hk). set (q := dayStart / kDay) in *.
  rewrite mul64_small by (unfold SIZE_MAX, kDay in *; lia).
  unfold sub64, wrap64.
  replace ((dayStart - (q + 1) * kDay) mod 18446744073709551616)
    with (dayStart - (q + 1) * kDay + 18446744073709551616).
  - rewrite Z.mod_small by (unfold kDay in *; lia). unfold kDay in *. lia.
  - rewrite <-(Z.mod_add _ 1), Z.mod_small by (unfold kDay in *; lia). lia.
Qed.

Lemma relative_days_wraps_witness :
  exists f, @ParseDateFilter test_platform (L ">" ++ L "154516" ++ L "d") = Some (VDate f) /\
    dop f = DateOp.GreaterThan /\ forall t, t < 9223372036854775808 -> ~ dfirst f < t.
Proof.
  refine (@relative_days_wraps test_platform test_platform_laws (L "154516") _ _ _ _);
    [repeat (apply Forall_cons; split; [split; vm_compute; discriminate|]); apply Forall_nil; done
    |vm_compute; discriminate|split; vm_compute; (discriminate || reflexivity)
    |vm_compute; reflexivity].
Defined.
