(* ===== verification/Query.v ===== *)
(** * Query: filters, predicates and the two matchers

    Models the rest of [src/src/search/src/Query.cpp] and the data of
    [src/src/search/include/ffsearch/Query.h]: candidates and their views, the filter
    registry with its default filters, [ParseQuery], and the matching of a query
    against an owned candidate ([Matches], [MatchesWithoutFolder]) and against a view
    ([MatchesView], [MatchesViewWithoutFolder]).

    A predicate is a function into [result bool]: [Fault] is undefined behaviour or an
    exception ([std::get] on the wrong alternative).  The benchmark-only diagnostics
    are not modelled: the matchers are those of a null [MatchDiagnostics] pointer. *)

From Stdlib Require Import String.
From stdpp Require Import gmap.
From S2P Require Import Prelude TextMatch Glob QuerySyntax.
Local Open Scope Z_scope.
Local Abbreviation length := List.length.

(** ** Candidates *)

Record Candidate := {
  name : list Z;
  folder : list Z;
  sizeBytes : Z;
  modifiedTime : Z;
  isDirectory : bool;
  createdTime : Z;
  volumeId : Z;
  id : Z;
  parentId : Z;
  persistentIndexed : bool;
  allocatedSizeBytes : Z;
  allocatedSizeKnown : bool
}.

Module View.
Record CandidateView := {
  name : list Z;
  folder : list Z;
  sizeBytes : Z;
  modifiedTime : Z;
  isDirectory : bool;
  createdTime : Z;
  volumeId : Z;
  id : Z;
  parentId : Z;
  persistentIndexed : bool;
  nameAsciiLower : bool;
  allocatedSizeBytes : Z;
  allocatedSizeKnown : bool;
  nameIsAscii : bool
}.
End View.
Abbreviation CandidateView := View.CandidateView.

Definition Predicate : Type := Candidate -> result bool.
Definition ViewPredicate : Type := CandidateView -> result bool.

Inductive PredicateKind :=
| Unknown | LiteralName | GlobName | FolderName | Extension | Size | AllocatedSize | Modified | Kind.

#[export] Instance PredicateKind_eq_dec : EqDecision PredicateKind.
Proof. solve_decision. Defined.

Record FilterDefinition := {
  parseValue : list Z -> option FilterValue;
  makePredicate : FilterValue -> result Predicate;
  makeViewPredicate : option (FilterValue -> result ViewPredicate)
}.

(** [std::unordered_map<std::wstring, FilterDefinition>]. *)
Abbreviation FilterRegistry := (gmap (list Z) FilterDefinition).

(** [std::get<std::wstring> (value)] and the like. *)
Definition get_string (v : FilterValue) : result (list Z) :=
  match v with VString s => Ok s | _ => Fault end.
Definition get_size (v : FilterValue) : result SizeFilter :=
  match v with VSize f => Ok f | _ => Fault end.
Definition get_date (v : FilterValue) : result DateFilter :=
  match v with VDate f => Ok f | _ => Fault end.

Record Query := {
  predicates : list Predicate;
  predicatesWithoutFolder : list Predicate;
  viewPredicates : list ViewPredicate;
  viewPredicatesWithoutFolder : list ViewPredicate;
  viewPredicateKinds : list PredicateKind;
  viewPredicateWithoutFolderKinds : list PredicateKind;
  unrecognizedKeys : list (list Z);
  invalidFilters : list (list Z);
  primaryTerm : list Z;
  simpleLiteralTerm : list Z;
  simpleLiteralFolded : list Z;
  simpleLiteralAnchor : Z;
  simpleLiteralAnchorIndex : nat;
  simpleLiteralShifts : list nat;
  requiresFolder : bool;
  viewCompatible : bool;
  simpleLiteralName : bool
}.

Definition empty_query : Query := {|
  predicates := []; predicatesWithoutFolder := []; viewPredicates := [];
  viewPredicatesWithoutFolder := []; viewPredicateKinds := [];
  viewPredicateWithoutFolderKinds := []; unrecognizedKeys := []; invalidFilters := [];
  primaryTerm := []; simpleLiteralTerm := []; simpleLiteralFolded := [];
  simpleLiteralAnchor := 0; simpleLiteralAnchorIndex := 0;
  simpleLiteralShifts := replicate 128 0%nat;
  requiresFolder := false; viewCompatible := true; simpleLiteralName := false
|}.

(** ** Metadata predicates *)

Definition size_test (filter : SizeFilter) (bytes : Z) : bool :=
  match sop filter with
  | SizeOp.Equal => bytes =? sfirst filter
  | SizeOp.Greater => sfirst filter <? bytes
  | SizeOp.GreaterEqual => sfirst filter <=? bytes
  | SizeOp.Less => bytes <? sfirst filter
  | SizeOp.LessEqual => bytes <=? sfirst filter
  | SizeOp.Range => (sfirst filter <=? bytes) && (bytes <=? ssecond filter)
  end.

Definition MakeSizePredicate (value : FilterValue) : result Predicate :=
  let* filter := get_size value in Ok (fun c => Ok (size_test filter (sizeBytes c))).

Definition MakeAllocatedSizePredicate (value : FilterValue) : result Predicate :=
  let* filter := get_size value in
  Ok (fun c => if negb (allocatedSizeKnown c) then Ok false
               else Ok (size_test filter (allocatedSizeBytes c))).

Definition date_test (filter : DateFilter) (time : Z) : bool :=
  match dop filter with
  | DateOp.GreaterThan => dfirst filter <? time
  | _ => (dfirst filter <=? time) && (time <=? dsecond filter)
  end.

Definition MakeDatePredicate (value : FilterValue) : result Predicate :=
  let* filter := get_date value in Ok (fun c => Ok (date_test filter (modifiedTime c))).

Section query.
Context `{Platform}.

(** ** Extensions *)

Definition LowerEquals16 (value lowerValue : list Z) : bool :=
  (length value =? length lowerValue)%nat &&
  forallb (fun p => towlower (fst p) =? snd p) (combine value lowerValue).

Definition HasLowerExtension16 (n extension : list Z) : bool :=
  match find_last_of n 46 with
  | Some dot => LowerEquals16 (drop (dot + 1) n) extension
  | None => false
  end.

(** The [ext:] predicate on an owned candidate. *)
Definition has_extension (n extension : list Z) : bool :=
  match find_last_of n 46 with
  | Some dot => bool_decide (Lower (drop (dot + 1) n) = extension)
  | None => false
  end.

(** ** The default filters *)

Definition ext_definition : FilterDefinition := {|
  parseValue v :=
    let x := match v with 46 :: v' => v' | _ => v end in
    if bool_decide (x = []) then None else Some (VString (Lower x));
  makePredicate v :=
    let* extension := get_string v in Ok (fun c => Ok (has_extension (name c) extension));
  makeViewPredicate := Some (fun v =>
    let* extension := get_string v in
    Ok (fun c => Ok (HasLowerExtension16 (View.name c) extension)))
|}.

Definition parse_nonempty (v : list Z) : option FilterValue :=
  if bool_decide (v = []) then None else Some (VString v).

Definition literal_predicate (text : list Z) : result Predicate :=
  let* needle := PrepareAsciiFoldNeedle text in
  Ok (fun c => AsciiFoldContains CompareStringOrdinal (name c) needle).

Definition literal_view_predicate (text : list Z) : result ViewPredicate :=
  let* '(foldedText, foldedShifts, foldedAnchor, foldedAnchorIndex) := prepare_literal text in
  Ok (fun c => OrdinalContains16Prepared CompareStringOrdinal (View.name c) text foldedText
                 foldedShifts (View.nameIsAscii c) foldedAnchor foldedAnchorIndex).

Definition name_definition : FilterDefinition := {|
  parseValue := parse_nonempty;
  makePredicate v := let* text := get_string v in literal_predicate text;
  makeViewPredicate := Some (fun v => let* text := get_string v in literal_view_predicate text)
|}.

Definition folder_definition : FilterDefinition := {|
  parseValue := parse_nonempty;
  makePredicate v :=
    let* text := get_string v in
    let* needle := PrepareAsciiFoldNeedle text in
    Ok (fun c => AsciiFoldContains CompareStringOrdinal (folder c) needle);
  makeViewPredicate := Some (fun v =>
    let* text := get_string v in
    let* needle := PrepareAsciiFoldNeedle text in
    Ok (fun c => AsciiFoldContains CompareStringOrdinal (View.folder c) needle))
|}.

Definition size_definition : FilterDefinition := {|
  parseValue := ParseSizeFilter;
  makePredicate := MakeSizePredicate;
  makeViewPredicate := Some (fun v =>
    let* filter := get_size v in Ok (fun c => Ok (size_test filter (View.sizeBytes c))))
|}.

Definition ondisk_definition : FilterDefinition := {|
  parseValue := ParseSizeFilter;
  makePredicate := MakeAllocatedSizePredicate;
  makeViewPredicate := Some (fun v =>
    let* filter := get_size v in
    Ok (fun c => if negb (View.allocatedSizeKnown c) then Ok false
                 else Ok (size_test filter (View.allocatedSizeBytes c))))
|}.

Definition modified_definition : FilterDefinition := {|
  parseValue := ParseDateFilter;
  makePredicate := MakeDatePredicate;
  makeViewPredicate := Some (fun v =>
    let* filter := get_date v in Ok (fun c => Ok (date_test filter (View.modifiedTime c))))
|}.

(** The extensions of a [kind:]; the last group is the default of the source's chain. *)
Definition kind_extensions (k : list Z) : list (list Z) :=
  if bool_decide (k = L "image") then [L "png"; L "jpg"; L "jpeg"; L "gif"]
  else if bool_decide (k = L "document") then [L "pdf"; L "doc"; L "docx"; L "txt"]
  else if bool_decide (k = L "video") then [L "mp4"; L "mkv"]
  else if bool_decide (k = L "audio") then [L "mp3"; L "wav"]
  else if bool_decide (k = L "archive") then [L "zip"; L "7z"]
  else [L "exe"; L "bat"; L "cmd"].

Definition kinds : list (list Z) :=
  [L "document"; L "image"; L "video"; L "audio"; L "archive"; L "executable"; L "folder"; L "file"].

Definition kind_definition : FilterDefinition := {|
  parseValue v := let x := Lower v in if bool_decide (x ∈ kinds) then Some (VString x) else None;
  makePredicate v :=
    let* k := get_string v in
    Ok (fun c =>
      if bool_decide (k = L "folder") then Ok (isDirectory c)
      else if bool_decide (k = L "file") then Ok (negb (isDirectory c))
      else
        let ext := match find_last_of (name c) 46 with
                   | Some dot => Lower (drop (dot + 1) (name c)) | None => [] end in
        Ok (existsb (fun e => bool_decide (ext = e)) (kind_extensions k)));
  makeViewPredicate := Some (fun v =>
    let* k := get_string v in
    Ok (fun c =>
      if bool_decide (k = L "folder") then Ok (View.isDirectory c)
      else if bool_decide (k = L "file") then Ok (negb (View.isDirectory c))
      else Ok (existsb (HasLowerExtension16 (View.name c)) (kind_extensions k))))
|}.

Definition Register (r : FilterRegistry) (key : list Z) (d : FilterDefinition) : FilterRegistry :=
  <[Lower key := d]> r.

Definition Find (r : FilterRegistry) (key : list Z) : option FilterDefinition := r !! Lower key.

Definition WithDefaults : FilterRegistry :=
  let defaults : FilterRegistry := ∅ in
  let defaults := Register defaults (L "ext") ext_definition in
  let defaults := Register defaults (L "name") name_definition in
  let defaults := Register defaults (L "folder") folder_definition in
  let defaults := Register defaults (L "size") size_definition in
  let defaults := Register defaults (L "ondisk") ondisk_definition in
  let defaults := Register defaults (L "modified") modified_definition in
  Register defaults (L "kind") kind_definition.

(** ** ParseQuery *)

(** The lambda [addPredicate]. *)
Definition addPredicate (q : Query) (p : Predicate) (v : option ViewPredicate)
    (needsFolder : bool) (kind : PredicateKind) : Query := {|
  predicates := predicates q ++ [p];
  predicatesWithoutFolder :=
    if needsFolder then predicatesWithoutFolder q else predicatesWithoutFolder q ++ [p];
  viewPredicates :=
    match v with Some vp => viewPredicates q ++ [vp] | None => viewPredicates q end;
  viewPredicatesWithoutFolder :=
    match v with
    | Some vp => if needsFolder then viewPredicatesWithoutFolder q
                 else viewPredicatesWithoutFolder q ++ [vp]
    | None => viewPredicatesWithoutFolder q
    end;
  viewPredicateKinds :=
    match v with Some _ => viewPredicateKinds q ++ [kind] | None => viewPredicateKinds q end;
  viewPredicateWithoutFolderKinds :=
    match v with
    | Some _ => if needsFolder then viewPredicateWithoutFolderKinds q
                else viewPredicateWithoutFolderKinds q ++ [kind]
    | None => viewPredicateWithoutFolderKinds q
    end;
  unrecognizedKeys := unrecognizedKeys q;
  invalidFilters := invalidFilters q;
  primaryTerm := primaryTerm q;
  simpleLiteralTerm := simpleLiteralTerm q;
  simpleLiteralFolded := simpleLiteralFolded q;
  simpleLiteralAnchor := simpleLiteralAnchor q;
  simpleLiteralAnchorIndex := simpleLiteralAnchorIndex q;
  simpleLiteralShifts := simpleLiteralShifts q;
  requiresFolder := if needsFolder then true else requiresFolder q;
  viewCompatible := match v with Some _ => viewCompatible q | None => false end;
  simpleLiteralName := simpleLiteralName q
|}.

(** Updates of the diagnostics lists and of [primaryTerm]. *)
Definition note (q : Query) (unrecognized invalid : list (list Z)) (primary : list Z) : Query := {|
  predicates := predicates q; predicatesWithoutFolder := predicatesWithoutFolder q;
  viewPredicates := viewPredicates q;
  viewPredicatesWithoutFolder := viewPredicatesWithoutFolder q;
  viewPredicateKinds := viewPredicateKinds q;
  viewPredicateWithoutFolderKinds := viewPredicateWithoutFolderKinds q;
  unrecognizedKeys := unrecognizedKeys q ++ unrecognized;
  invalidFilters := invalidFilters q ++ invalid;
  primaryTerm := match primaryTerm q with [] => primary | _ :: _ => primaryTerm q end;
  simpleLiteralTerm := simpleLiteralTerm q; simpleLiteralFolded := simpleLiteralFolded q;
  simpleLiteralAnchor := simpleLiteralAnchor q;
  simpleLiteralAnchorIndex := simpleLiteralAnchorIndex q;
  simpleLiteralShifts := simpleLiteralShifts q;
  requiresFolder := requiresFolder q; viewCompatible := viewCompatible q;
  simpleLiteralName := simpleLiteralName q
|}.

Definition kind_of_key (normalizedKey : list Z) : PredicateKind :=
  if bool_decide (normalizedKey = L "name") then LiteralName
  else if bool_decide (normalizedKey = L "folder") then FolderName
  else if bool_decide (normalizedKey = L "ext") then Extension
  else if bool_decide (normalizedKey = L "size") then Size
  else if bool_decide (normalizedKey = L "ondisk") then AllocatedSize
  else if bool_decide (normalizedKey = L "modified") then Modified
  else if bool_decide (normalizedKey = L "kind") then Kind
  else Unknown.

(** [token.find (c)]. *)
Fixpoint find_unit (s : list Z) (c : Z) : option nat :=
  match s with
  | [] => None
  | x :: s' => if x =? c then Some O
               else match find_unit s' c with Some i => Some (S i) | None => None end
  end.

(** The part of the loop body reached by plain terms and by unknown keys; the state is
    the query and the local [simpleLiteralTerm]. *)
Definition parse_plain (st : Query * list Z) (token : list Z) : result (Query * list Z) :=
  let '(q, simple) := st in
  if existsb (fun c => (c =? 42) || (c =? 63)) token then
    Ok (addPredicate q (fun c => GlobMatches CompareStringOrdinal (name c) token)
          (Some (fun c => GlobMatches16 CompareStringOrdinal (View.name c) token)) false GlobName,
        simple)
  else
    let q := note q [] [] token in
    let* vp := literal_view_predicate token in
    let* p := literal_predicate token in
    Ok (addPredicate q p (Some vp) false LiteralName, token).

Definition parse_token (registry : FilterRegistry) (st : Query * list Z) (token : list Z)
    : result (Query * list Z) :=
  let '(q, simple) := st in
  match find_unit token 58 with
  | Some colon =>
      let key := take colon token in
      let v := drop (colon + 1) token in
      match Find registry key with
      | Some definition =>
          match parseValue definition v with
          | Some parsed =>
              let needsFolder := bool_decide (Lower key = L "folder") in
              let kind := kind_of_key (Lower key) in
              let* simple := if bool_decide (kind = LiteralName) then get_string parsed
                             else Ok simple in
              let* viewPredicate := match makeViewPredicate definition with
                                    | Some make => let* vp := make parsed in Ok (Some vp)
                                    | None => Ok None
                                    end in
              let* p := makePredicate definition parsed in
              Ok (addPredicate q p viewPredicate needsFolder kind, simple)
          | None => Ok (note q [] [key] [], simple)
          end
      | None => parse_plain (note q [key] [] [], simple) token
      end
  | None => parse_plain st token
  end.

Fixpoint parse_tokens (registry : FilterRegistry) (ts : list (list Z)) (st : Query * list Z)
    : result (Query * list Z) :=
  match ts with
  | [] => Ok st
  | t :: ts' => let* st' := parse_token registry st t in parse_tokens registry ts' st'
  end.

(** The simple-literal fast path set up after the loop. *)
Definition with_simple_literal (q : Query) (term : list Z) : result Query :=
  let* '(f, s, a, ai) := prepare_literal term in
  Ok {|
    predicates := predicates q; predicatesWithoutFolder := predicatesWithoutFolder q;
    viewPredicates := viewPredicates q;
    viewPredicatesWithoutFolder := viewPredicatesWithoutFolder q;
    viewPredicateKinds := viewPredicateKinds q;
    viewPredicateWithoutFolderKinds := viewPredicateWithoutFolderKinds q;
    unrecognizedKeys := unrecognizedKeys q; invalidFilters := invalidFilters q;
    primaryTerm := primaryTerm q; simpleLiteralTerm := term;
    simpleLiteralFolded := f; simpleLiteralAnchor := a; simpleLiteralAnchorIndex := ai;
    simpleLiteralShifts := s;
    requiresFolder := requiresFolder q; viewCompatible := viewCompatible q;
    simpleLiteralName := true
  |}.

Definition is_simple_literal (q : Query) (simple : list Z) : bool :=
  viewCompatible q && negb (requiresFolder q) && (length (predicates q) =? 1)%nat &&
  (length (viewPredicateKinds q) =? 1)%nat &&
  bool_decide (head (viewPredicateKinds q) = Some LiteralName) &&
  negb (bool_decide (simple = [])).

Definition ParseQuery (text : list Z) (registry : FilterRegistry) : result Query :=
  let* '(q, simple) := parse_tokens registry (Tokenize text) (empty_query, []) in
  if is_simple_literal q simple then with_simple_literal q simple else Ok q.

(** ** Matching *)

(** [std::all_of] and the early return of [EvaluateViewPredicates]. *)
Fixpoint all_of {A} (ps : list (A -> result bool)) (c : A) : result bool :=
  match ps with
  | [] => Ok true
  | p :: ps' => let* b := p c in if b then all_of ps' c else Ok false
  end.

Definition Matches (q : Query) (c : Candidate) : result bool := all_of (predicates q) c.
Definition MatchesWithoutFolder (q : Query) (c : Candidate) : result bool :=
  all_of (predicatesWithoutFolder q) c.

Definition EvaluateViewPredicates (ps : list ViewPredicate) (c : CandidateView) : result bool :=
  all_of ps c.

Definition MatchSimpleLiteral (q : Query) (c : CandidateView) : result bool :=
  OrdinalContains16Prepared CompareStringOrdinal (View.name c) (simpleLiteralTerm q)
    (simpleLiteralFolded q) (simpleLiteralShifts q) (View.nameIsAscii c)
    (simpleLiteralAnchor q) (simpleLiteralAnchorIndex q).

Definition MatchesView (q : Query) (c : CandidateView) : result bool :=
  if viewCompatible q && simpleLiteralName q then MatchSimpleLiteral q c
  else if viewCompatible q then EvaluateViewPredicates (viewPredicates q) c else Ok false.

Definition MatchesViewWithoutFolder (q : Query) (c : CandidateView) : result bool :=
  if viewCompatible q && simpleLiteralName q then MatchSimpleLiteral q c
  else if viewCompatible q then EvaluateViewPredicates (viewPredicatesWithoutFolder q) c
  else Ok false.
End query.

(** ** A view of a candidate *)

(** The view shows the row, its folder aside: a view carries the folder only where a scope
    or a [folder:] filter needs it. *)
Record same_row (c : Candidate) (w : CandidateView) : Prop := {
  same_name : View.name w = name c;
  same_size : View.sizeBytes w = sizeBytes c;
  same_modified : View.modifiedTime w = modifiedTime c;
  same_created : View.createdTime w = createdTime c;
  same_directory : View.isDirectory w = isDirectory c;
  same_allocated : View.allocatedSizeBytes w = allocatedSizeBytes c;
  same_known : View.allocatedSizeKnown w = allocatedSizeKnown c;
  name_units : Forall is_unit (name c);
  ascii_flag : View.nameIsAscii w = true -> Forall is_ascii_unit (name c)
}.

Record corresponds (c : Candidate) (w : CandidateView) : Prop := {
  corresponds_row : same_row c w;
  same_folder : View.folder w = folder c;
  folder_units : Forall is_unit (folder c)
}.

(** The answers of an owning matcher and of a view matcher to a row: what the first accepts the second
    accepts, and on a name of which the host equates no part outside ASCII with ASCII text they
    are the same.  (The owning literal search compares an ASCII term up to ASCII case; the view search
    asks the host, unless the name is ASCII.) *)
Definition consistent `{Platform} (c : Candidate) (owning view : bool) : Prop :=
  (owning = true -> view = true) /\ (ordinal_plain CompareStringOrdinal (name c) -> owning = view).

Lemma consistent_refl `{Platform} c b : consistent c b b.
Proof. by split. Qed.

(** The two forms of a predicate return consistent answers on corresponding rows. *)
Definition agrees `{Platform} (p : Predicate) (v : ViewPredicate) : Prop :=
  forall c w, corresponds c w -> exists b b', p c = Ok b /\ v w = Ok b' /\ consistent c b b'.

(** They do so whatever folder the view shows. *)
Definition agrees_nf `{Platform} (p : Predicate) (v : ViewPredicate) : Prop :=
  forall c w, same_row c w -> exists b b', p c = Ok b /\ v w = Ok b' /\ consistent c b b'.

Lemma agrees_nf_agrees `{Platform} p v : agrees_nf p v -> agrees p v.
Proof. intros Ha c w [Hc _ _]. by apply Ha. Qed.
#[export] Hint Resolve agrees_nf_agrees : ff.

(** A predicate whose two forms give the same answer. *)
Lemma same_answer `{Platform} c (r r' : result bool) b :
  r = Ok b -> r' = Ok b -> exists b b', r = Ok b /\ r' = Ok b' /\ consistent c b b'.
Proof. intros -> ->. exists b, b. auto using consistent_refl. Qed.

Section query_proofs.
Context `{HP : Platform} `{HL : !PlatformLaws}.

(** [p] is the literal search for [s] in the name. *)
Definition is_literal (p : Predicate) (s : list Z) : Prop :=
  forall c w, same_row c w -> p c = Ok (OrdinalContains (FoldCompare CompareStringOrdinal) (name c) s).

(** What [ParseQuery] needs of a filter registered under a key: every value it accepts
    gives two predicates that agree, without looking at the folder unless it is the [folder]
    filter, and the [name] filter is the literal search. *)
Class FilterContract (key : list Z) (d : FilterDefinition) : Prop := {
  contract_make : forall v parsed, Forall is_unit v -> parseValue d v = Some parsed ->
    exists p vp make, makePredicate d parsed = Ok p /\ makeViewPredicate d = Some make /\
      make parsed = Ok vp /\ agrees p vp /\ (key <> L "folder" -> agrees_nf p vp) /\
      (kind_of_key key = LiteralName ->
       exists s, parsed = VString s /\ Forall is_unit s /\ is_literal p s)
}.

Lemma LowerEquals16_spec v e : LowerEquals16 v e = bool_decide (Lower v = e).
Proof.
  revert e. induction v as [|c v IH]; intros [|x e]; try done.
  unfold LowerEquals16, Lower in *. cbn [length List.map combine forallb fst snd].
  specialize (IH e). change (S (length v) =? S (length e))%nat with (length v =? length e)%nat.
  destruct (Z.eqb_spec (towlower c) x) as [<-|Hne]; cbn [andb].
  - rewrite IH. apply bool_decide_ext. split; [congruence|by intros [=]].
  - rewrite andb_false_r. symmetry. apply bool_decide_eq_false. congruence.
Qed.

Lemma HasLowerExtension16_spec n e : HasLowerExtension16 n e = has_extension n e.
Proof.
  unfold HasLowerExtension16, has_extension. destruct (find_last_of n 46); [|done].
  apply LowerEquals16_spec.
Qed.

(** The literal search of a name, up to ASCII case and by the host. *)
Lemma literal_consistent c s : Forall is_unit (name c) -> Forall is_unit s ->
  consistent c (OrdinalContains (FoldCompare CompareStringOrdinal) (name c) s) (OrdinalContains CompareStringOrdinal (name c) s).
Proof. intros Hn Hs. split; [intros Hm; by apply (FoldCompare_contains CompareStringOrdinal)|]. intros Hp. by apply (FoldCompare_plain CompareStringOrdinal). Qed.

Lemma literal_predicate_ok s :
  Forall is_unit s -> exists p, literal_predicate s = Ok p /\ is_literal p s.
Proof.
  intros Hs. unfold literal_predicate.
  destruct (PrepareAsciiFoldNeedle_total s Hs) as [nd Hnd]. rewrite Hnd. eexists. split; [done|]. intros c w Hc.
  apply AsciiFoldContains_correct; [apply Hc|done|done].
Qed.

Lemma literal_view_predicate_ok s p :
  Forall is_unit s -> is_literal p s ->
  exists vp, literal_view_predicate s = Ok vp /\ agrees_nf p vp.
Proof.
  intros Hs Hp. unfold literal_view_predicate.
  destruct (prepare_literal_correct s Hs) as (f & sh & a & ai & Hprep & _). rewrite Hprep.
  eexists. split; [done|]. intros c w Hc. eexists _, _. split; [by eapply Hp|].
  rewrite (same_name _ _ Hc). split; [apply Prepared_correct; [apply _|apply Hc|done|apply Hc|done]|].
  by apply literal_consistent; [apply Hc|].
Qed.

Lemma parse_nonempty_inv v parsed :
  parse_nonempty v = Some parsed -> parsed = VString v /\ v <> [].
Proof. unfold parse_nonempty. case_bool_decide; [done|]. by intros [= <-]. Qed.

(** The rest of the contract for a filter that is neither [name] nor looks at the folder. *)
Lemma contract_rest key p vp parsed :
  kind_of_key key <> LiteralName -> agrees_nf p vp ->
  agrees p vp /\ (key <> L "folder" -> agrees_nf p vp) /\
  (kind_of_key key = LiteralName ->
   exists s, parsed = VString s /\ Forall is_unit s /\ is_literal p s).
Proof. intros Hk Ha. split; [auto with ff|]. by split. Qed.

Lemma ext_contract key : kind_of_key key <> LiteralName -> FilterContract key ext_definition.
Proof.
  intros Hk. split. intros v parsed Hv Hp. cbn [parseValue ext_definition] in Hp.
  case_bool_decide; [done|]. injection Hp as <-. cbn. do 3 eexists.
  do 3 (split; [done|]). apply contract_rest; [done|]. intros c w Hc. eapply same_answer; [done|].
  by rewrite HasLowerExtension16_spec, (same_name _ _ Hc).
Qed.

Lemma name_contract key : FilterContract key name_definition.
Proof.
  split. intros v parsed Hv Hp. apply parse_nonempty_inv in Hp as [-> Hne].
  destruct (literal_predicate_ok v Hv) as (p & Hlp & Hlit).
  destruct (literal_view_predicate_ok v p Hv Hlit) as (vp & Hvp & Hag).
  do 3 eexists. split; [exact Hlp|]. split; [done|]. split; [exact Hvp|].
  split; [auto with ff|]. split; [done|]. intros _. by exists v.
Qed.

Lemma folder_contract key : key = L "folder" -> FilterContract key folder_definition.
Proof.
  intros ->. split. intros v parsed Hv Hp. apply parse_nonempty_inv in Hp as [-> Hne].
  destruct (PrepareAsciiFoldNeedle_total v Hv) as [nd Hnd].
  cbn [makePredicate folder_definition get_string bind]. rewrite Hnd. cbn [bind].
  do 3 eexists. split; [done|]. split; [done|]. cbn [get_string bind]. rewrite Hnd.
  split; [done|]. split; [|done]. intros c w Hc. rewrite (same_folder _ _ Hc).
  eapply same_answer; (eapply AsciiFoldContains_correct; [apply Hc|done|done]).
Qed.

(** What [ParseSizeFilter] and [ParseDateFilter] return is of their alternative. *)
Lemma ParseSizeFilter_size v parsed : ParseSizeFilter v = Some parsed -> exists f, parsed = VSize f.
Proof.
  unfold ParseSizeFilter. destruct (find_sub v (L "..")) as [r|].
  - destruct (ParseSize (take r v)), (ParseSize (drop (r + 2) v)); try done.
    destruct (_ <? _); [done|]. intros [= <-]. eauto.
  - match goal with |- context [let '(_, _) := ?x in _] => destruct x as [op off] end.
    destruct (ParseSize _); [|done]. intros [= <-]. eauto.
Qed.

Lemma ParseDateFilter_date v parsed : ParseDateFilter v = Some parsed -> exists f, parsed = VDate f.
Proof.
  unfold ParseDateFilter. intros Hp.
  repeat (case_bool_decide || case_match); simplify_eq; eauto.
Qed.

Lemma size_contract key : kind_of_key key <> LiteralName -> FilterContract key size_definition.
Proof.
  intros Hk. split. intros v parsed Hv Hp. apply ParseSizeFilter_size in Hp as [f ->]. cbn.
  do 3 eexists. do 3 (split; [done|]). apply contract_rest; [done|]. intros c w Hc.
  eapply same_answer; [done|]. by rewrite (same_size _ _ Hc).
Qed.

Lemma ondisk_contract key : kind_of_key key <> LiteralName -> FilterContract key ondisk_definition.
Proof.
  intros Hk. split. intros v parsed Hv Hp. apply ParseSizeFilter_size in Hp as [f ->]. cbn.
  do 3 eexists. do 3 (split; [done|]). apply contract_rest; [done|]. intros c w Hc.
  rewrite (same_known _ _ Hc), (same_allocated _ _ Hc). destruct (allocatedSizeKnown c); by eapply same_answer.
Qed.

Lemma modified_contract key :
  kind_of_key key <> LiteralName -> FilterContract key modified_definition.
Proof.
  intros Hk. split. intros v parsed Hv Hp. apply ParseDateFilter_date in Hp as [f ->]. cbn.
  do 3 eexists. do 3 (split; [done|]). apply contract_rest; [done|]. intros c w Hc.
  eapply same_answer; [done|]. by rewrite (same_modified _ _ Hc).
Qed.

Lemma kind_extensions_nonempty k e : In e (kind_extensions k) -> e <> [].
Proof.
  unfold kind_extensions. repeat case_bool_decide; simpl; intros He;
    repeat (destruct He as [<-|He]; [done|]); done.
Qed.

Lemma kind_contract key : kind_of_key key <> LiteralName -> FilterContract key kind_definition.
Proof.
  intros Hk. split. intros v parsed Hv Hp. cbn [parseValue kind_definition] in Hp.
  case_bool_decide; [|done]. injection Hp as <-. set (k := Lower v).
  cbn [makePredicate makeViewPredicate kind_definition get_string bind].
  do 3 eexists. do 3 (split; [done|]). apply contract_rest; [done|]. intros c w Hc. cbn beta.
  rewrite (same_directory _ _ Hc), (same_name _ _ Hc).
  destruct (bool_decide (k = L "folder")); [by eapply same_answer|].
  destruct (bool_decide (k = L "file")); [by eapply same_answer|]. eapply same_answer; [done|]. f_equal.
  assert (forall es, (forall e, In e es -> e <> []) ->
    existsb (HasLowerExtension16 (name c)) es =
    existsb (fun e => bool_decide (match find_last_of (name c) 46 with
      | Some dot => Lower (drop (dot + 1) (name c)) | None => [] end = e)) es) as Hes.
  { induction es as [|e es IH]; intros Hne; [done|]. cbn [existsb].
    rewrite IH by (intros; apply Hne; by right). f_equal.
    rewrite HasLowerExtension16_spec. unfold has_extension.
    destruct (find_last_of (name c) 46); [done|]. symmetry. apply bool_decide_eq_false.
    intros <-. exact (Hne [] (or_introl eq_refl) eq_refl). }
  apply Hes. intros e. apply kind_extensions_nonempty.
Qed.

(** ** The default registry keeps the contract *)

Definition registry_ok (r : FilterRegistry) : Prop :=
  forall key d, r !! key = Some d -> FilterContract key d.

Lemma registry_ok_empty : registry_ok ∅.
Proof. intros key d Hd. by rewrite lookup_empty in Hd. Qed.

Lemma Register_ok r key d :
  registry_ok r -> FilterContract (Lower key) d -> registry_ok (Register r key d).
Proof.
  intros Hr Hd k d' Hk. unfold Register in Hk.
  apply lookup_insert_Some in Hk as [[<- <-]|[_ Hk]]; eauto.
Qed.

Lemma Lower_literal s :
  Forall is_ascii_unit s -> FoldAscii16 s = s -> Lower s = s.
Proof. intros Ha Hf. by rewrite Lower_ascii. Qed.

Local Ltac solve_lower :=
  rewrite Lower_literal;
    [reflexivity || (vm_compute; discriminate)
    |solve_wide_literal
    |reflexivity].

Lemma WithDefaults_ok : registry_ok WithDefaults.
Proof.
  unfold WithDefaults. repeat apply Register_ok; [apply registry_ok_empty|..].
  - apply ext_contract. solve_lower.
  - apply name_contract.
  - apply folder_contract. solve_lower.
  - apply size_contract. solve_lower.
  - apply ondisk_contract. solve_lower.
  - apply modified_contract. solve_lower.
  - apply kind_contract. solve_lower.
Qed.

(** ** The parser keeps the two forms of the query together *)

Record query_inv (q : Query) (simple : list Z) : Prop := {
  inv_compatible : viewCompatible q = true;
  inv_agree : Forall2 agrees (predicates q) (viewPredicates q);
  inv_agree_wf : Forall2 agrees_nf (predicatesWithoutFolder q) (viewPredicatesWithoutFolder q);
  inv_kinds : length (viewPredicateKinds q) = length (predicates q);
  inv_no_folder : requiresFolder q = false ->
    predicatesWithoutFolder q = predicates q /\ viewPredicatesWithoutFolder q = viewPredicates q;
  inv_sublist : predicatesWithoutFolder q `sublist_of` predicates q;
  inv_not_simple : simpleLiteralName q = false;
  inv_simple_units : Forall is_unit simple;
  inv_primary : Forall is_unit (primaryTerm q);
  inv_simple : viewPredicateKinds q = [LiteralName] ->
    exists p, predicates q = [p] /\ is_literal p simple
}.

Lemma empty_query_inv : query_inv empty_query [].
Proof. split; try done; constructor. Qed.

Lemma addPredicate_inv q simple simple' p vp needsFolder kind :
  query_inv q simple -> agrees p vp -> (needsFolder = false -> agrees_nf p vp) ->
  Forall is_unit simple' ->
  (kind = LiteralName -> is_literal p simple') ->
  query_inv (addPredicate q p (Some vp) needsFolder kind) simple'.
Proof.
  intros [Hc Ha Hw Hk Hn Hs Hns Hu Hpr Hsim] Hpv Hpn Hu' Hkind. split; cbn; try done.
  - apply Forall2_app; auto.
  - destruct needsFolder; [done|]. apply Forall2_app; auto.
  - rewrite !length_app. simpl. lia.
  - destruct needsFolder; [done|]. intros Hr. destruct (Hn Hr) as [-> ->]. done.
  - destruct needsFolder; [by apply sublist_inserts_r|by apply sublist_app].
  - intros Heq. destruct (viewPredicateKinds q) as [|k ks] eqn:E.
    + injection Heq as ->. destruct (predicates q); [|done]. eauto.
    + simpl in Heq. injection Heq as _ Hnil. by destruct ks.
Qed.

Lemma note_inv q simple u i pr :
  query_inv q simple -> Forall is_unit pr -> query_inv (note q u i pr) simple.
Proof.
  intros [Hc Ha Hw Hk Hn Hs Hns Hu Hprim Hsim] Hpr. split; cbn; try done.
  by destruct (primaryTerm q).
Qed.

Lemma parse_plain_inv q simple token :
  query_inv q simple -> Forall is_unit token ->
  exists q' simple', parse_plain (q, simple) token = Ok (q', simple') /\ query_inv q' simple'.
Proof.
  intros Hq Ht. unfold parse_plain. destruct (existsb _ token).
  - assert (agrees_nf (fun c => GlobMatches CompareStringOrdinal (name c) token)
      (fun c => GlobMatches16 CompareStringOrdinal (View.name c) token)) as Hag;
      [|do 2 eexists; split; [done|]; eapply addPredicate_inv; [done|auto with ff|done|apply Hq|done]].
    intros c w Hc. destruct (GlobMatches_decides CompareStringOrdinal (name c) token) as (b & Hb & _).
    apply (same_answer c _ _ b); [done|]. rewrite (same_name _ _ Hc), <-Hb.
    eapply decides_eq; [apply GlobMatches16_decides|apply GlobMatches_decides].
  - destruct (literal_predicate_ok token Ht) as (p & Hp & Hlit).
    destruct (literal_view_predicate_ok token p Ht Hlit) as (vp & Hvp & Hag).
    rewrite Hvp. cbn [bind]. rewrite Hp. cbn [bind]. do 2 eexists. split; [done|].
    eapply addPredicate_inv; [by apply note_inv|auto with ff|done..].
Qed.

Lemma parse_token_inv r q simple token :
  registry_ok r -> query_inv q simple -> Forall is_unit token ->
  exists q' simple', parse_token r (q, simple) token = Ok (q', simple') /\ query_inv q' simple'.
Proof.
  intros Hr Hq Ht. unfold parse_token.
  destruct (find_unit token 58) as [colon|]; [|by apply parse_plain_inv].
  destruct (Find r (take colon token)) as [d|] eqn:Hf; [|by apply parse_plain_inv; [apply note_inv; [|constructor]|]].
  destruct (parseValue d _) as [parsed|] eqn:Hp; [|do 2 eexists; split; [done|by apply note_inv; [|constructor]]].
  destruct (Hr _ _ Hf) as [Hmake].
  destruct (Hmake _ _ (Forall_drop _ _ _ Ht) Hp) as (p & vp & make & Hmp & Hmv & Hvp & Hag & Hnf & Hlit).
  assert (bool_decide (Lower (take colon token) = L "folder") = false -> agrees_nf p vp) as Hnf'
    by (intros Hb; apply Hnf; by apply bool_decide_eq_false in Hb).
  rewrite Hmv, Hmp. destruct (bool_decide (kind_of_key (Lower (take colon token)) = LiteralName)) eqn:Hkind.
  - apply bool_decide_eq_true in Hkind. destruct (Hlit Hkind) as (s & -> & Hs & Hls). cbn [get_string bind]. rewrite Hvp. cbn [bind].
    do 2 eexists. split; [done|]. by eapply addPredicate_inv.
  - cbn [bind]. rewrite Hvp. cbn [bind]. do 2 eexists. split; [done|].
    apply bool_decide_eq_false in Hkind.
    eapply addPredicate_inv; [done|done|done|apply Hq|done].
Qed.

Lemma parse_tokens_inv r ts q simple :
  registry_ok r -> query_inv q simple -> Forall (Forall is_unit) ts ->
  exists q' simple', parse_tokens r ts (q, simple) = Ok (q', simple') /\ query_inv q' simple'.
Proof.
  intros Hr Hq Hts. revert q simple Hq. induction Hts as [|t ts Ht _ IH]; intros q simple Hq.
  { eauto. }
  cbn [parse_tokens]. destruct (parse_token_inv r q simple t Hr Hq Ht) as (q' & s' & -> & Hq').
  cbn [bind]. by apply IH.
Qed.

Lemma tokenize_loop_units text ts current quoted :
  Forall is_unit text -> Forall (Forall is_unit) ts -> Forall is_unit current ->
  Forall (Forall is_unit) (tokenize_loop text ts current quoted).
Proof.
  intros Ht. revert ts current quoted. induction Ht as [|c text Hc _ IH]; intros ts current quoted Hts Hcur.
  - cbn [tokenize_loop]. apply Forall_rev. destruct current; [done|]. by constructor.
  - cbn [tokenize_loop]. destruct (c =? 34); [auto|]. destruct (_ && _).
    + destruct current; apply IH; auto.
    + apply IH; [done|]. by apply Forall_app; split; [|constructor].
Qed.

(** ** Matching agrees *)

Lemma all_of_agree ps vs c w :
  Forall2 (fun (p : Predicate) (v : ViewPredicate) => exists b b', p c = Ok b /\ v w = Ok b' /\ consistent c b b') ps vs ->
  exists b b', all_of ps c = Ok b /\ all_of vs w = Ok b' /\ consistent c b b'.
Proof.
  induction 1 as [|p v ps vs (b & b' & Hp & Hv & Hi & He) _ (r & r' & Hr & Hr' & IHi & IHe)]; [by eapply same_answer|].
  cbn [all_of]. rewrite Hp, Hv. cbn [bind]. destruct b; [rewrite Hi by done; by exists r, r'|].
  destruct b'; [|by eapply same_answer]. exists false, r'. split; [done|]. split; [done|]. split; [done|].
  intros Hpl. specialize (He Hpl). discriminate.
Qed.

(** Dropping predicates only accepts more. *)
Lemma all_of_sublist (ps qs : list Predicate) c :
  qs `sublist_of` ps -> all_of ps c = Ok true -> all_of qs c = Ok true.
Proof.
  induction 1 as [|p qs ps _ IH|p qs ps _ IH]; cbn [all_of]; [done| |];
    destruct (p c) as [[]| |]; cbn [bind]; try done; auto.
Qed.

Lemma is_simple_literal_inv q simple :
  query_inv q simple -> is_simple_literal q simple = true ->
  requiresFolder q = false /\ exists p, predicates q = [p] /\ is_literal p simple.
Proof.
  intros Hq Hs. unfold is_simple_literal in Hs. rewrite !andb_true_iff in Hs.
  destruct Hs as [[[[[_ Hr] _] Hl] Hk] _]. apply negb_true_iff in Hr. split; [done|].
  apply (inv_simple _ _ Hq). apply bool_decide_eq_true in Hk. apply Nat.eqb_eq in Hl.
  destruct (viewPredicateKinds q) as [|k [|]]; try discriminate. by injection Hk as ->.
Qed.

(** The fast path answers as the only predicate. *)
Lemma simple_literal_matches q simple f s a ai p c w :
  prepare_literal simple = Ok (f, s, a, ai) -> Forall is_unit simple ->
  predicates q = [p] -> is_literal p simple -> same_row c w ->
  exists b b', Matches q c = Ok b /\
    OrdinalContains16Prepared CompareStringOrdinal (View.name w) simple f s (View.nameIsAscii w) a ai = Ok b' /\
    consistent c b b'.
Proof.
  intros Hprep Hu Hp Hlit Hc. unfold Matches. rewrite Hp. cbn [all_of].
  rewrite (Hlit c w Hc), (same_name _ _ Hc). cbn [bind].
  rewrite (Prepared_correct _ (name c) simple); [|apply Hc|done|apply Hc|done].
  exists (OrdinalContains (FoldCompare CompareStringOrdinal) (name c) simple), (OrdinalContains CompareStringOrdinal (name c) simple).
  split; [by destruct (OrdinalContains (FoldCompare _) _ _)|]. split; [done|].
  by apply literal_consistent; [apply Hc|].
Qed.

Lemma ParseQuery_inv text :
  Forall is_unit text -> exists q simple,
    parse_tokens WithDefaults (Tokenize text) (empty_query, []) = Ok (q, simple) /\ query_inv q simple.
Proof.
  intros Ht. apply parse_tokens_inv; [apply WithDefaults_ok|apply empty_query_inv|].
  apply tokenize_loop_units; [done|constructor|constructor].
Qed.

(** The parser's query before the fast path is set up. *)
Lemma query_inv_agree q simple c w :
  query_inv q simple -> corresponds c w ->
  exists b b', Matches q c = Ok b /\ all_of (viewPredicates q) w = Ok b' /\ consistent c b b'.
Proof.
  intros Hq Hc. apply all_of_agree. eapply Forall2_impl; [apply Hq|]. intros p v Hpv. by apply Hpv.
Qed.

Lemma query_inv_agree_nf q simple c w :
  query_inv q simple -> same_row c w ->
  exists b b', MatchesWithoutFolder q c = Ok b /\ all_of (viewPredicatesWithoutFolder q) w = Ok b' /\ consistent c b b' /\
    (Matches q c = Ok true -> b = true) /\
    (requiresFolder q = false -> Matches q c = Ok b /\ all_of (viewPredicates q) w = Ok b').
Proof.
  intros Hq Hc.
  destruct (all_of_agree (predicatesWithoutFolder q) (viewPredicatesWithoutFolder q) c w)
    as (b & b' & Hb & Hv & Hcons).
  { eapply Forall2_impl; [apply Hq|]. intros p v Hpv. by apply Hpv. }
  exists b, b'. split; [done|]. split; [done|]. split; [done|]. split.
  - intros Ht. apply (all_of_sublist _ _ _ (inv_sublist _ _ Hq)) in Ht. congruence.
  - intros Hr. destruct (inv_no_folder _ _ Hq Hr) as [H1 H2]. unfold Matches. by rewrite <-H1, <-H2.
Qed.

(** What a parsed query promises its users: the matchers and the prefilters return, and their
    answers for a row and for its view are [consistent], those of the prefilters whatever folder the view
    shows; the prefilters accept every row the matchers accept, and are the matchers when no
    filter needs the folder. *)
Definition matchers_agree (q : Query) : Prop :=
  (forall c w, same_row c w -> exists b b',
     MatchesWithoutFolder q c = Ok b /\ MatchesViewWithoutFolder q w = Ok b' /\ consistent c b b' /\
     (Matches q c = Ok true -> b = true) /\
     (requiresFolder q = false -> Matches q c = Ok b /\ MatchesView q w = Ok b')) /\
  (forall c w, corresponds c w -> exists b b', Matches q c = Ok b /\ MatchesView q w = Ok b' /\ consistent c b b').

Lemma query_inv_matchers_agree q simple : query_inv q simple -> matchers_agree q.
Proof.
  intros Hq. unfold matchers_agree, MatchesView, MatchesViewWithoutFolder.
  rewrite (inv_compatible _ _ Hq), (inv_not_simple _ _ Hq). cbn [andb].
  split; intros c w Hc; [by eapply query_inv_agree_nf|by eapply query_inv_agree].
Qed.

Lemma ParseQuery_correct text :
  Forall is_unit text ->
  exists q, ParseQuery text WithDefaults = Ok q /\ viewCompatible q = true /\
    Forall is_unit (primaryTerm q) /\ matchers_agree q.
Proof.
  intros Ht. destruct (ParseQuery_inv text Ht) as (q & simple & Hpt & Hq).
  unfold ParseQuery. rewrite Hpt. cbn [bind].
  destruct (is_simple_literal q simple) eqn:Hs.
  - destruct (is_simple_literal_inv q simple Hq Hs) as (Hr & p & Hp & Hlit).
    pose proof (inv_simple_units _ _ Hq) as Hu.
    destruct (prepare_literal_correct simple Hu) as (f & s & a & ai & Hprep & _).
    unfold with_simple_literal. rewrite Hprep. cbn [bind]. eexists. split; [done|].
    split; [apply Hq|]. split; [apply Hq|].
    unfold matchers_agree, MatchesView, MatchesViewWithoutFolder, MatchSimpleLiteral. cbn.
    rewrite (inv_compatible _ _ Hq). cbn [andb]. split; intros c w Hc.
    + destruct (query_inv_agree_nf q simple c w Hq Hc) as (b & b2 & H1 & _ & _ & H3 & H4).
      destruct (simple_literal_matches q simple f s a ai p c w Hprep Hu Hp Hlit Hc) as (b1 & b' & H5 & H6 & H7).
      destruct (H4 Hr) as [H8 _]. assert (b1 = b) as -> by (unfold Matches in *; congruence). exists b, b'. auto 10.
    + destruct Hc as [Hc _ _]. exact (simple_literal_matches q simple f s a ai p c w Hprep Hu Hp Hlit Hc).
  - eexists. split; [done|]. split; [apply Hq|]. split; [apply Hq|].
    by eapply query_inv_matchers_agree.
Qed.
End query_proofs.

(** ** Properties *)

(** C21. Every query text parses with the default filters, without any out-of-range access or
    exception, into a query whose matchers and folder-free prefilters return on every row and its
    view.  The view matcher accepts every row that the owning matcher accepts, and gives the same answer
    for a name of which the host equates no part outside ASCII with ASCII text, so for every ASCII name; and
    likewise the view prefilter and the owning one.  The prefilters reject no row the
    full matchers accept, and are the full matchers when no filter needs the folder. *)
Theorem ParseQuery_matchers_agree `{HP : Platform} `{HL : !PlatformLaws} text :
  Forall is_unit text ->
  exists q, ParseQuery text WithDefaults = Ok q /\ viewCompatible q = true /\ matchers_agree q.
Proof.
  intros Ht. destruct (ParseQuery_correct text Ht) as (q & Hq & Hc & _ & Ha). eauto.
Qed.

(** A row called [Report.TXT] and its view. *)
Definition sample_row : Candidate := {|
  name := L "Report.TXT"; folder := L "C:\docs"; sizeBytes := 2000000; modifiedTime := 5;
  isDirectory := false; createdTime := 1; volumeId := 67; id := 9; parentId := 5;
  persistentIndexed := true; allocatedSizeBytes := 0; allocatedSizeKnown := false
|}.
Definition sample_view : CandidateView := {|
  View.name := L "Report.TXT"; View.folder := L "C:\docs"; View.sizeBytes := 2000000;
  View.modifiedTime := 5; View.isDirectory := false; View.createdTime := 1; View.volumeId := 67;
  View.id := 9; View.parentId := 5; View.persistentIndexed := true;
  View.nameAsciiLower := false; View.allocatedSizeBytes := 0; View.allocatedSizeKnown := false;
  View.nameIsAscii := true
|}.

Lemma sample_corresponds : corresponds sample_row sample_view.
Proof. split; [split; try done; try (intros _)|done|]; solve_wide_literal. Qed.

Lemma ParseQuery_matchers_agree_witness :
  exists q, @ParseQuery test_platform (L "ext:txt port size:>1mb") (@WithDefaults test_platform) = Ok q /\
    exists b b', Matches q sample_row = Ok b /\ @MatchesView test_platform q sample_view = Ok b' /\
      @consistent test_platform sample_row b b'.
Proof.
  destruct (@ParseQuery_matchers_agree test_platform test_platform_laws (L "ext:txt port size:>1mb"))
    as (q & Hq & _ & _ & Hall); [solve_wide_literal|].
  exists q. split; [exact Hq|]. exact (Hall sample_row sample_view sample_corresponds).
Defined.

(** The sample query accepts the sample row. *)
Example sample_matches :
  (let* q := @ParseQuery test_platform (L "ext:txt port size:>1mb") (@WithDefaults test_platform) in
   Matches q sample_row) = Ok true.
Proof. vm_compute. reflexivity. Qed.

(** ** Unknown allocated sizes *)

Section ondisk.
Context `{HP : Platform} `{HL : !PlatformLaws}.

(** The token is an [ondisk:] filter with a valid value. *)
Definition ondisk_token (t : list Z) : Prop :=
  exists colon v, find_unit t 58 = Some colon /\ Lower (take colon t) = L "ondisk" /\
    ParseSizeFilter (drop (colon + 1) t) = Some v.

Lemma parse_plain_grows q simple t q' s' :
  parse_plain (q, simple) t = Ok (q', s') -> predicates q `prefix_of` predicates q'.
Proof.
  unfold parse_plain. destruct (existsb _ t).
  - intros [= <- _]. by eexists.
  - intros Hp. inv_result. simplify_eq. by eexists.
Qed.

Lemma parse_token_grows r q simple t q' s' :
  parse_token r (q, simple) t = Ok (q', s') -> predicates q `prefix_of` predicates q'.
Proof.
  unfold parse_token. destruct (find_unit t 58); [|apply parse_plain_grows].
  destruct (Find r _) as [d|]; [|intros Hp; by apply parse_plain_grows in Hp].
  destruct (parseValue d _); [|intros [= <- _]; done].
  intros Hp. inv_result. simplify_eq. by eexists.
Qed.

Lemma parse_tokens_grows r ts q simple q' s' :
  parse_tokens r ts (q, simple) = Ok (q', s') -> predicates q `prefix_of` predicates q'.
Proof.
  revert q simple. induction ts as [|t ts IH]; intros q simple Hp; cbn [parse_tokens] in Hp.
  - injection Hp as <- _. done.
  - apply bind_Ok_inv in Hp as ([q1 s1] & H1 & H2). apply parse_token_grows in H1.
    apply IH in H2. by etrans.
Qed.

Lemma Find_ondisk : @WithDefaults HP !! L "ondisk" = Some ondisk_definition.
Proof.
  assert (forall s, Forall is_ascii_unit s -> FoldAscii16 s = s -> Lower s = s) as Hlow
    by (intros; by apply Lower_literal).
  unfold WithDefaults, Register.
  rewrite !Hlow by (reflexivity || solve_wide_literal).
  rewrite lookup_insert_ne, lookup_insert_ne by discriminate. apply lookup_insert_eq.
Qed.

Lemma ondisk_token_predicate q simple t q' s' :
  ondisk_token t -> parse_token WithDefaults (q, simple) t = Ok (q', s') ->
  exists p, p ∈ predicates q' /\ forall c, allocatedSizeKnown c = false -> p c = Ok false.
Proof.
  intros (colon & v & Hcol & Hkey & Hv) Hp. unfold parse_token in Hp. rewrite Hcol in Hp.
  unfold Find in Hp. rewrite Hkey, Find_ondisk in Hp. cbn [parseValue ondisk_definition] in Hp.
  rewrite Hv in Hp. apply ParseSizeFilter_size in Hv as [f ->]. cbn in Hp. injection Hp as <- _.
  eexists. split; [apply elem_of_app; right; by apply list_elem_of_singleton|].
  intros c Hc. cbn beta. by rewrite Hc.
Qed.

Lemma all_of_false (ps : list Predicate) p c :
  p ∈ ps -> p c = Ok false -> (exists b, all_of ps c = Ok b) -> all_of ps c = Ok false.
Proof.
  intros Hin Hp [b Hb]. rewrite Hb. f_equal. destruct b; [|done]. exfalso. revert Hb.
  induction ps as [|q ps IH]; cbn [all_of]; [by apply not_elem_of_nil in Hin|].
  apply elem_of_cons in Hin as [<-|Hin]; [by rewrite Hp|].
  destruct (q c) as [[]| |]; cbn [bind]; [by apply IH|done..].
Qed.

Lemma ondisk_in_tokens ts q simple q' s' :
  Exists ondisk_token ts -> parse_tokens WithDefaults ts (q, simple) = Ok (q', s') ->
  exists p, p ∈ predicates q' /\ forall c, allocatedSizeKnown c = false -> p c = Ok false.
Proof.
  intros Hex. revert q simple. induction Hex as [t ts Ht|t ts _ IH]; intros q simple Hp;
    cbn [parse_tokens] in Hp; apply bind_Ok_inv in Hp as ([q1 s1] & H1 & H2); [|eauto].
  destruct (ondisk_token_predicate _ _ _ _ _ Ht H1) as (p & Hin & Hfalse).
  apply parse_tokens_grows in H2 as [k Hk]. exists p. split; [|done].
  rewrite Hk. apply elem_of_app. by left.
Qed.
End ondisk.

(** A query with a valid [ondisk:] filter, whatever its operator and whatever else the
    query holds, never matches a row whose allocated size is unknown. *)
Theorem ondisk_rejects_unknown `{HP : Platform} `{HL : !PlatformLaws} text q c w :
  Forall is_unit text -> Exists ondisk_token (Tokenize text) ->
  ParseQuery text WithDefaults = Ok q -> corresponds c w -> allocatedSizeKnown c = false ->
  Matches q c = Ok false.
Proof.
  intros Ht Hex Hq Hc Hk. destruct (ParseQuery_inv text Ht) as (q0 & simple & Hpt & Hinv).
  destruct (ondisk_in_tokens _ _ _ _ _ Hex Hpt) as (p & Hin & Hfalse).
  assert (predicates q = predicates q0) as Heq.
  { unfold ParseQuery in Hq. rewrite Hpt in Hq. cbn [bind] in Hq.
    destruct (is_simple_literal q0 simple); [|congruence].
    unfold with_simple_literal in Hq. destruct (prepare_literal simple) as [[[[f s] a] ai]| |];
      [|done..]. cbn [bind] in Hq. injection Hq as <-. done. }
  unfold Matches. rewrite Heq. apply (all_of_false _ p); [done|by apply Hfalse|].
  destruct (query_inv_agree _ _ c w Hinv Hc) as (b & _ & Hb & _). eauto.
Qed.

Lemma ondisk_rejects_unknown_witness :
  exists q, @ParseQuery test_platform (L "ondisk:>=0 report") (@WithDefaults test_platform) = Ok q /\
    Matches q sample_row = Ok false.
Proof.
  assert (Forall is_unit (L "ondisk:>=0 report")) as Hu by solve_wide_literal.
  destruct (@ParseQuery test_platform (L "ondisk:>=0 report") (@WithDefaults test_platform))
    as [q| |] eqn:Hq; [|vm_compute in Hq; discriminate..].
  exists q. split; [reflexivity|].
  apply (@ondisk_rejects_unknown test_platform test_platform_laws (L "ondisk:>=0 report") q
    sample_row sample_view Hu); [|exact Hq|exact sample_corresponds|reflexivity].
  apply Exists_cons_hd. exists 6%nat, (VSize {| sop := SizeOp.GreaterEqual; sfirst := 0; ssecond := 0 |}).
  split; [reflexivity|]. split; reflexivity.
Defined.
