(* ===== verification/SearchPath.v ===== *)
(** * SearchPath: Windows path helpers

    Models [src/src/search/src/Path.cpp]: the recognition of drive, UNC and
    extended-length roots, [ParentPath], [LeafName], [SameVolume] and [VolumeId].
    A path is a list of UTF-16 units.  The character classes [iswalpha] and
    [towupper] and the string hash are parameters ([PathPlatform]). *)

From Stdlib Require Import String.
From S2P Require Import Prelude TextMatch QuerySyntax.
Local Open Scope Z_scope.
Local Abbreviation length := List.length.

Class PathPlatform := {
  iswalpha : Z -> bool;
  towupper : Z -> Z;
  hash_wstring : list Z -> Z
}.

Definition backslash : Z := 92.
Definition is_separator (c : Z) : bool := (c =? 92) || (c =? 47).

(** [path[i]] guarded by [path.size () > i]. *)
Definition unit_is (path : list Z) (i : nat) (c : Z) : bool :=
  match path !! i with Some x => x =? c | None => false end.

(** [path.find (L'\\', from)]. *)
Fixpoint find_from (n : nat) (path : list Z) (i : nat) : option nat :=
  match n with
  | O => None
  | S n' => if unit_is path i backslash then Some i else find_from n' path (S i)
  end.
Definition find_backslash (path : list Z) (from : nat) : option nat :=
  find_from (length path - from) path from.

(** [path.find_last_of (L"\\/")] and [path.find_first_of (L"\\/")]. *)
Fixpoint find_last_separator (s : list Z) : option nat :=
  match s with
  | [] => None
  | c :: s' =>
      match find_last_separator s' with
      | Some i => Some (S i)
      | None => if is_separator c then Some O else None
      end
  end.
Fixpoint find_first_separator (s : list Z) : option nat :=
  match s with
  | [] => None
  | c :: s' => if is_separator c then Some O
               else match find_first_separator s' with Some i => Some (S i) | None => None end
  end.

(** [TrimTrailingSeparators]: the loop pops the back while more than one unit is left;
    [n] bounds it by the length. *)
Fixpoint trim_loop (n : nat) (value : list Z) : list Z :=
  match n with
  | O => value
  | S n' =>
      match last value with
      | Some c => if (1 <? length value)%nat && is_separator c
                  then trim_loop n' (take (length value - 1) value) else value
      | None => value
      end
  end.
Definition TrimTrailingSeparators (path : list Z) : list Z := trim_loop (length path) path.

Definition ShareBoundary (path : list Z) (prefixLength : nat) : option nat :=
  if (length path <=? prefixLength)%nat then None
  else
    match find_backslash path prefixLength with
    | None => None
    | Some serverEnd =>
        if (length path <=? serverEnd + 1)%nat then None
        else match find_backslash path (serverEnd + 1) with
             | None => Some (length path)
             | Some shareEnd => Some shareEnd
             end
    end.

Definition extended_prefix : list Z := [92; 92; 63; 92].
Definition extended_unc_prefix : list Z := [92; 92; 63; 92; 85; 78; 67; 92].

Definition IsExtendedUnc (path : list Z) : bool := starts_with path extended_unc_prefix.

Definition IsUnc (path : list Z) : bool :=
  unit_is path 0 92 && unit_is path 1 92 && negb (IsExtendedUnc path).

Section paths.
Context `{PathPlatform}.

(** The out-parameters [rootLength] and [driveLetter] are returned. *)
Definition IsDrivePath (path : list Z) : option (nat * Z) :=
  match path !! 0%nat, path !! 4%nat with
  | Some c, d =>
      if (3 <=? length path)%nat && iswalpha c && unit_is path 1 58 && unit_is path 2 92
      then Some (3%nat, towupper c)
      else
        match d with
        | Some d =>
            if (6 <=? length path)%nat && starts_with path extended_prefix && iswalpha d &&
               unit_is path 5 58 && ((length path =? 6)%nat || unit_is path 6 92)
            then Some (if (7 <=? length path)%nat then 7%nat else 6%nat, towupper d)
            else None
        | None => None
        end
  | None, _ => None
  end.

Definition IsRoot (path : list Z) : bool :=
  match IsDrivePath path with
  | Some (driveRootLength, _) => (length path =? driveRootLength)%nat
  | None =>
      if IsExtendedUnc path then
        match ShareBoundary path 8 with Some b => (length path =? b)%nat | None => false end
      else if IsUnc path then
        match ShareBoundary path 2 with Some b => (length path =? b)%nat | None => false end
      else false
  end.

Definition CanonicalVolumeRoot (path : list Z) : list Z :=
  let value := TrimTrailingSeparators path in
  match IsDrivePath value with
  | Some (_, driveLetter) => [driveLetter; 58]
  | None =>
      if IsExtendedUnc value then
        match ShareBoundary value 8 with
        | None => []
        | Some boundary => [92; 92] ++ substr value 8 (boundary - 8)
        end
      else if IsUnc value then
        match ShareBoundary value 2 with
        | None => []
        | Some boundary => substr value 0 boundary
        end
      else match find_first_separator value with
           | None => value
           | Some separator => substr value 0 separator
           end
  end.

Definition ParentPath (path : list Z) : list Z :=
  match path with
  | [] => []
  | _ :: _ =>
      let value := TrimTrailingSeparators path in
      if IsRoot value then []
      else
        match find_last_separator value with
        | None => []
        | Some separator =>
            let tail :=
              if IsExtendedUnc value then
                match ShareBoundary value 8 with
                | None => []
                | Some boundary => if (separator <? boundary)%nat then [] else substr value 0 separator
                end
              else if IsUnc value then
                match ShareBoundary value 2 with
                | None => []
                | Some boundary => if (separator <? boundary)%nat then [] else substr value 0 separator
                end
              else substr value 0 separator in
            match IsDrivePath value with
            | Some (driveRootLength, _) =>
                if (separator + 1 =? driveRootLength)%nat then substr value 0 driveRootLength
                else tail
            | None => tail
            end
        end
  end.

Definition LeafName (path : list Z) : list Z :=
  match path with
  | [] => []
  | _ :: _ =>
      let value := TrimTrailingSeparators path in
      if IsRoot path || IsRoot value then path
      else match find_last_separator value with
           | None => value
           | Some separator => drop (separator + 1) value
           end
  end.

Definition SameVolume `{Platform} (left right : list Z) : bool :=
  let leftRoot := CanonicalVolumeRoot left in
  let rightRoot := CanonicalVolumeRoot right in
  if bool_decide (leftRoot = []) || bool_decide (rightRoot = []) then false
  else CompareStringOrdinal leftRoot rightRoot =? CSTR_EQUAL.

(** [static_cast<int64_t> (std::hash<std::wstring>{} (root))]. *)
Definition VolumeId `{Platform} (path : list Z) : Z :=
  match CanonicalVolumeRoot path with
  | [c; 58] => c
  | root => to_signed64 (hash_wstring (Lower root))
  end.
End paths.

(** ** Facts *)

Lemma find_last_separator_spec s i :
  find_last_separator s = Some i ->
  exists c, s !! i = Some c /\ is_separator c = true /\
    forall j x, (i < j)%nat -> s !! j = Some x -> is_separator x = false.
Proof.
  revert i. induction s as [|c s IH]; intros i Hi; [done|]. cbn [find_last_separator] in Hi.
  destruct (find_last_separator s) as [k|] eqn:E.
  - injection Hi as <-. destruct (IH k eq_refl) as (x & Hx & Hs & Hlast). exists x.
    split; [done|]. split; [done|]. intros [|j] y Hj Hy; [lia|]. eapply (Hlast j); [lia|done].
  - destruct (is_separator c) eqn:Ec; [|done]. injection Hi as <-. exists c.
    split; [done|]. split; [done|]. intros [|j] y Hj Hy; [lia|]. simpl in Hy. clear IH Hj.
    revert j Hy. induction s as [|x s IHs]; intros j Hy; [done|]. cbn [find_last_separator] in E.
    destruct (find_last_separator s) eqn:Es; [done|]. destruct (is_separator x) eqn:Ex; [done|].
    destruct j; simpl in Hy; [congruence|]. by eapply IHs.
Qed.

Lemma trim_loop_spec n value :
  (length value <= n)%nat ->
  exists k, trim_loop n value = take k value /\ (value <> [] -> trim_loop n value <> []) /\
    (forall c, last (trim_loop n value) = Some c -> (1 < length (trim_loop n value))%nat ->
       is_separator c = false).
Proof.
  revert value. induction n as [|n IH]; intros value Hn.
  { destruct value; [|simpl in Hn; lia]. by exists 0%nat. }
  cbn [trim_loop]. destruct (last value) as [c|] eqn:El.
  2:{ exists (length value). rewrite firstn_all. split; [done|]. split; [done|]. congruence. }
  destruct ((1 <? length value)%nat && is_separator c) eqn:E.
  - apply andb_true_iff in E as [H1 _]. apply Nat.ltb_lt in H1.
    destruct (IH (take (length value - 1) value)) as (k & Hk & Hne & Hlast).
    { rewrite length_take. lia. }
    exists (k `min` (length value - 1))%nat. rewrite Hk, take_take in *. split; [done|]. split; [|done].
    intros _. apply Hne. intros Hnil. apply (f_equal length) in Hnil. rewrite length_take in Hnil.
    simpl in Hnil. lia.
  - exists (length value). rewrite firstn_all. split; [done|]. split; [done|].
    intros c' Hc' Hl. rewrite El in Hc'. injection Hc' as <-.
    apply andb_false_iff in E as [E|]; [|done]. apply Nat.ltb_ge in E. lia.
Qed.

Lemma Trim_length path : (length (TrimTrailingSeparators path) <= length path)%nat.
Proof.
  unfold TrimTrailingSeparators. destruct (trim_loop_spec (length path) path) as (k & -> & _); [done|].
  rewrite length_take. lia.
Qed.

Section path_proofs.
Context `{PP : PathPlatform}.

Lemma IsDrivePath_length path n d :
  IsDrivePath path = Some (n, d) -> (n <= length path)%nat.
Proof.
  unfold IsDrivePath. destruct (path !! 0%nat) as [c|]; [|done].
  destruct ((3 <=? length path)%nat && iswalpha c && unit_is path 1 58 && unit_is path 2 92) eqn:E.
  - intros [= <- _]. rewrite !andb_true_iff in E. apply Nat.leb_le. tauto.
  - destruct (path !! 4%nat) as [d'|]; [|done].
    destruct (_ && _ && _ && _ && _) eqn:E'; [|done]. rewrite !andb_true_iff in E'.
    destruct E' as [[[[E6 _] _] _] _]. apply Nat.leb_le in E6.
    destruct (Nat.leb_spec 7 (length path)); intros [= <- _]; lia.
Qed.

(** The parent is a proper prefix of the trimmed path. *)
Lemma ParentPath_prefix path :
  let value := TrimTrailingSeparators path in
  ParentPath path = [] \/
  IsRoot value = false /\ exists separator, find_last_separator value = Some separator /\
    (ParentPath path = substr value 0 separator \/
     (ParentPath path = substr value 0 (separator + 1) /\ (separator + 1 < length value)%nat)).
Proof.
  cbv zeta. unfold ParentPath. destruct path as [|c0 p0] eqn:Ep; [by left|]. rewrite <-Ep.
  set (value := TrimTrailingSeparators path).
  destruct (IsRoot value) eqn:Er; [by left|].
  destruct (find_last_separator value) as [sep|] eqn:Es; [|by left].
  assert (forall (r : list Z), r = [] \/ r = substr value 0 sep ->
    r = [] \/ false = false /\ exists separator, Some sep = Some separator /\
    (r = substr value 0 separator \/
     (r = substr value 0 (separator + 1) /\ (separator + 1 < length value)%nat))) as Hr.
  { intros r [->| ->]; [by left|]. right. split; [done|]. exists sep. auto. }
  destruct (IsDrivePath value) as [[n d]|] eqn:Ed.
  - destruct (Nat.eqb_spec (sep + 1) n) as [<-|].
    + right. split; [done|]. exists sep. split; [done|]. right. split; [done|].
      apply IsDrivePath_length in Ed as Hle. unfold IsRoot in Er. rewrite Ed in Er.
      apply Nat.eqb_neq in Er. lia.
    + apply Hr. destruct (IsExtendedUnc value), (IsUnc value); auto;
        destruct (ShareBoundary value _); auto; destruct (_ <? _)%nat; auto.
  - apply Hr. destruct (IsExtendedUnc value), (IsUnc value); auto;
        destruct (ShareBoundary value _); auto; destruct (_ <? _)%nat; auto.
Qed.

Lemma ParentPath_shorter path :
  path <> [] -> (length (ParentPath path) < length path)%nat.
Proof.
  intros Hne. assert (0 < length path)%nat by (destruct path; simpl; [done|lia]).
  pose proof (Trim_length path).
  destruct (ParentPath_prefix path) as [->|(_ & sep & Hs & Hp)]; [simpl; lia|].
  destruct (find_last_separator_spec _ _ Hs) as (c & Hc & _). apply lookup_lt_Some in Hc.
  destruct Hp as [->|[-> ?]]; unfold substr; rewrite drop_0, length_take; lia.
Qed.
End path_proofs.

(** ** Properties *)

(** [n] steps towards the root. *)
Fixpoint ancestors `{PathPlatform} (n : nat) (path : list Z) : list (list Z) :=
  match n, path with
  | O, _ | _, [] => []
  | S n', _ :: _ => path :: ancestors n' (ParentPath path)
  end.

(** Walking up with [ParentPath] terminates: every step strictly shortens a non-empty
    path, so after at most as many steps as the path has units the walk has ended, and
    more steps add nothing. *)
Theorem ParentPath_walk_terminates `{PathPlatform} path n :
  (length path <= n)%nat ->
  (path <> [] -> (length (ParentPath path) < length path)%nat) /\
  ancestors n path = ancestors (length path) path.
Proof.
  intros Hn. split; [apply ParentPath_shorter|].
  remember (length path) as m eqn:Hm. revert n path Hm Hn.
  induction (lt_wf m) as [m _ IH]. intros n path -> Hn.
  destruct path as [|c p]; [by destruct n|]. destruct n as [|n]; [simpl in Hn; lia|].
  pose proof (ParentPath_shorter (c :: p) ltac:(done)) as Hs.
  assert (length (c :: p) = S (length p)) as Hl by done.
  rewrite Hl at 1. cbn [ancestors]. f_equal.
  rewrite (IH _ Hs n _ eq_refl) by lia. by rewrite (IH _ Hs (length p) _ eq_refl) by lia.
Qed.

(** ASCII letters, for evaluating paths. *)
Definition test_paths : PathPlatform := {|
  iswalpha := fun c => ((65 <=? c) && (c <=? 90)) || ((97 <=? c) && (c <=? 122));
  towupper := fun c => if (97 <=? c) && (c <=? 122) then c - 32 else c;
  hash_wstring := fun s => 0
|}.

Lemma ParentPath_walk_witness :
  @ancestors test_paths 40 (L "C:\docs\x.txt") = [L "C:\docs\x.txt"; L "C:\docs"; L "C:\"].
Proof.
  exact (eq_trans (proj2 (@ParentPath_walk_terminates test_paths (L "C:\docs\x.txt") 40
    ltac:(vm_compute; lia))) eq_refl).
Defined.

(** On a path without trailing separators that has a parent, the parent and the leaf
    reassemble the path: they are its two parts around its last separator (which a drive
    root keeps), and the leaf is non-empty and holds no separator. *)
Theorem Parent_Leaf_reassemble `{PathPlatform} path :
  TrimTrailingSeparators path = path -> ParentPath path <> [] ->
  LeafName path <> [] /\ Forall (fun c => is_separator c = false) (LeafName path) /\
  exists c, is_separator c = true /\
    (path = ParentPath path ++ [c] ++ LeafName path \/
     (path = ParentPath path ++ LeafName path /\ last (ParentPath path) = Some c)).
Proof.
  intros Htrim Hp. destruct (ParentPath_prefix path) as [|(Hroot & sep & Hs & Hpp)]; [done|].
  rewrite Htrim in *.
  destruct (find_last_separator_spec _ _ Hs) as (c & Hc & Hsep & Hlast).
  apply lookup_lt_Some in Hc as Hlt.
  assert (LeafName path = drop (sep + 1) path) as Hleaf.
  { unfold LeafName. destruct path as [|x p] eqn:E; [done|]. rewrite <-E in *.
    by rewrite Htrim, Hroot, Hs. }
  assert (path = take sep path ++ [c] ++ drop (sep + 1) path) as Hsplit.
  { rewrite Nat.add_1_r. symmetry. apply take_drop_middle. done. }
  assert (sep + 1 < length path)%nat as Hend.
  { destruct (decide (sep + 1 < length path)%nat) as [|Hn]; [done|]. exfalso.
    destruct (trim_loop_spec (length path) path) as (k & _ & _ & Htl); [done|].
    fold (TrimTrailingSeparators path) in Htl. rewrite Htrim in Htl.
    assert (1 < length path)%nat.
    { destruct (decide (1 < length path)%nat); [done|]. exfalso. apply Hp.
      destruct Hpp as [->|[_ ?]]; [|lia]. replace sep with 0%nat by lia. done. }
    rewrite (Htl c) in Hsep; [done| |done].
    rewrite last_lookup. by replace (Nat.pred (length path)) with sep by lia. }
  rewrite Hleaf. split; [|split].
  - intros Hnil. apply (f_equal length) in Hnil. rewrite length_drop in Hnil. simpl in Hnil. lia.
  - apply Forall_lookup. intros i x Hx. rewrite lookup_drop in Hx. eapply Hlast; [|exact Hx]. lia.
  - exists c. split; [done|]. unfold substr in Hpp. rewrite drop_0 in Hpp.
    destruct Hpp as [->|[-> _]]; [by left|right]. split; [by rewrite take_drop|].
    rewrite last_lookup, length_take. replace (Nat.pred _) with sep by lia.
    rewrite lookup_take_lt by lia. done.
Qed.

Lemma Parent_Leaf_reassemble_witness :
  @LeafName test_paths (L "C:\docs\x.txt") = L "x.txt" /\
  @ParentPath test_paths (L "C:\docs\x.txt") <> [] /\
  exists c, is_separator c = true /\
    (L "C:\docs\x.txt" = L "C:\docs" ++ [c] ++ L "x.txt" \/
     (L "C:\docs\x.txt" = L "C:\docs" ++ L "x.txt" /\ last (L "C:\docs") = Some c)).
Proof.
  split; [reflexivity|]. split; [discriminate|].
  exact (proj2 (proj2 (@Parent_Leaf_reassemble test_paths (L "C:\docs\x.txt") eq_refl
    ltac:(discriminate)))).
Defined.

(** The volume id of a drive root spelled with a trailing separator keeps the letter's
    case, while the id of any path below it uses the upper-case letter: for a lower-case
    letter the two ids of one volume differ. *)
Theorem VolumeId_root_case `{PathPlatform} `{Platform} c rest x :
  iswalpha c = true -> is_separator c = false -> towupper c <> c -> is_separator x = false ->
  VolumeId [c; 58; 92] = c /\ VolumeId ([c; 58; 92] ++ rest ++ [x]) = towupper c /\
  VolumeId [c; 58; 92] <> VolumeId ([c; 58; 92] ++ rest ++ [x]).
Proof.
  intros Ha Hc Hup Hx.
  assert (VolumeId [c; 58; 92] = c) as H1.
  { unfold VolumeId, CanonicalVolumeRoot.
    change (TrimTrailingSeparators [c; 58; 92]) with [c; 58].
    cbn [IsDrivePath lookup list_lookup length Nat.leb andb IsExtendedUnc starts_with extended_unc_prefix].
    assert ((92 =? c) = false) as Hb by (unfold is_separator in Hc; lia).
    unfold IsExtendedUnc, extended_unc_prefix, IsUnc, unit_is. cbn [starts_with lookup list_lookup].
    rewrite (Z.eqb_sym c 92), Hb. cbn [andb find_first_separator]. rewrite Hc. done. }
  assert (VolumeId ([c; 58; 92] ++ rest ++ [x]) = towupper c) as H2; [|rewrite H1, H2; auto].
  unfold VolumeId, CanonicalVolumeRoot. set (p := [c; 58; 92] ++ rest ++ [x]).
  assert (TrimTrailingSeparators p = p) as ->.
  { unfold TrimTrailingSeparators, p. cbn [app length trim_loop].
    rewrite !app_comm_cons, last_snoc, Hx, andb_false_r. done. }
  assert (IsDrivePath p = Some (3%nat, towupper c)) as ->; [|done].
  unfold IsDrivePath, p. cbn [app lookup list_lookup length]. rewrite Ha. done.
Qed.

Lemma VolumeId_root_case_witness :
  @VolumeId test_paths test_platform (L "c:\") = 99 /\
  @VolumeId test_paths test_platform (L "c:\docs") = 67.
Proof.
  destruct (@VolumeId_root_case test_paths test_platform 99 (L "doc") 115 eq_refl eq_refl
    ltac:(discriminate) eq_refl) as (H1 & H2 & _).
  split; [exact H1|exact H2].
Defined.
