(* ===== verification/TopN.v ===== *)
(** * TopN: orders, heaps and bounded selection

    The generic half of the search accumulator of [src/src/search/src/Search.cpp]:
    three-way comparisons and their lexicographic composition, the contract of the
    standard algorithms the code calls ([std::push_heap], [std::pop_heap], [std::sort]),
    and what a bounded heap keeps of a stream of elements. *)

From stdpp Require Import sorting.
From S2P Require Import Prelude.
Local Open Scope Z_scope.

(** ** Comparators *)

(** A total preorder as a three-way comparison. *)
Class Comparator {A} (cmp : A -> A -> comparison) : Prop := {
  cmp_antisym : forall x y, cmp x y = CompOpp (cmp y x);
  cmp_trans : forall x y z, cmp x y <> Gt -> cmp y z <> Gt -> cmp x z <> Gt
}.

Definition lex {A} (c d : A -> A -> comparison) (x y : A) : comparison :=
  match c x y with Eq => d x y | o => o end.
Definition flip_if {A} (b : bool) (c : A -> A -> comparison) (x y : A) : comparison :=
  if b then c y x else c x y.
Definition by_key {A} (key : A -> Z) (x y : A) : comparison := Z.compare (key x) (key y).

(** The strict order of a comparator, as a boolean test. *)
Definition less_of {A} (cmp : A -> A -> comparison) (x y : A) : bool :=
  match cmp x y with Lt => true | _ => false end.

Section comparators.
Context {A : Type}.
Implicit Types (c d : A -> A -> comparison).

#[export] Instance by_key_ok (key : A -> Z) : Comparator (by_key key).
Proof.
  split; unfold by_key.
  - intros x y. apply Z.compare_antisym.
  - intros x y z. rewrite !Z.compare_le_iff. lia.
Qed.

#[export] Instance flip_if_ok b c : Comparator c -> Comparator (flip_if b c).
Proof.
  intros [Ha Ht]. split; unfold flip_if; destruct b; eauto.
Qed.

Lemma cmp_eq_trans c x y z : Comparator c -> c x y = Eq -> c y z = Eq -> c x z = Eq.
Proof.
  intros Hc Hxy Hyz.
  assert (c x z <> Gt) as H1 by (apply (cmp_trans x y z); congruence).
  assert (c z x <> Gt) as H2.
  { apply (cmp_trans z y x); rewrite cmp_antisym, ?Hxy, ?Hyz; done. }
  rewrite cmp_antisym in H2. by destruct (c x z).
Qed.

Lemma cmp_lt_le c x y z : Comparator c -> c x y = Lt -> c y z <> Gt -> c x z = Lt.
Proof.
  intros Hc Hxy Hyz. assert (c x z <> Gt) as H1 by (apply (cmp_trans x y z); congruence).
  destruct (c x z) eqn:E; [|done|done]. exfalso.
  assert (c y x <> Gt) as H2 by (apply (cmp_trans y z x); [done|by rewrite cmp_antisym, E]).
  by rewrite cmp_antisym, Hxy in H2.
Qed.

Lemma cmp_le_lt c x y z : Comparator c -> c x y <> Gt -> c y z = Lt -> c x z = Lt.
Proof.
  intros Hc Hxy Hyz. assert (c x z <> Gt) as H1 by (apply (cmp_trans x y z); congruence).
  destruct (c x z) eqn:E; [|done|done]. exfalso.
  assert (c z y <> Gt) as H2 by (apply (cmp_trans z x y); [by rewrite cmp_antisym, E|done]).
  by rewrite cmp_antisym, Hyz in H2.
Qed.

#[export] Instance lex_ok c d : Comparator c -> Comparator d -> Comparator (lex c d).
Proof.
  intros Hc Hd. split; unfold lex.
  - intros x y. rewrite (cmp_antisym (cmp := c)). destruct (c y x); simpl; [|done|done].
    apply cmp_antisym.
  - intros x y z Hxy Hyz. destruct (c x y) eqn:E1; [| |done].
    + destruct (c y z) eqn:E2; [| |done].
      * rewrite (cmp_eq_trans c x y z Hc E1 E2). by apply (cmp_trans x y z).
      * by rewrite (cmp_le_lt c x y z Hc) by congruence.
    + assert (c y z <> Gt) by by destruct (c y z).
      by rewrite (cmp_lt_le c x y z Hc) by congruence.
Qed.
End comparators.

(** ** Strict weak orders *)

(** What the standard requires of a [Compare]. *)
Class StrictWeak {A} (less : A -> A -> bool) : Prop := {
  less_irrefl : forall x, less x x = false;
  less_trans : forall x y z, less x y = true -> less y z = true -> less x z = true;
  notless_trans : forall x y z, less x y = false -> less y z = false -> less x z = false
}.

#[export] Instance less_of_strict {A} (cmp : A -> A -> comparison) :
  Comparator cmp -> StrictWeak (less_of cmp).
Proof.
  intros Hc. split; unfold less_of.
  - intros x. pose proof (cmp_antisym (cmp := cmp) x x) as H. by destruct (cmp x x).
  - intros x y z. destruct (cmp x y) eqn:E1; [done| |done]. intros _.
    destruct (cmp y z) eqn:E2; [done| |done]. intros _.
    by rewrite (cmp_lt_le cmp x y z Hc) by congruence.
  - intros x y z Hxy Hyz.
    assert (cmp z x <> Gt) as H.
    { apply (cmp_trans z y x); rewrite cmp_antisym; [by destruct (cmp y z)|by destruct (cmp x y)]. }
    rewrite cmp_antisym in H. by destruct (cmp x z).
Qed.

Lemma less_asym {A} (less : A -> A -> bool) `{!StrictWeak less} x y :
  less x y = true -> less y x = false.
Proof.
  intros H. destruct (less y x) eqn:E; [|done].
  pose proof (less_trans _ _ _ H E) as Hxx. by rewrite less_irrefl in Hxx.
Qed.

(** ** The standard algorithms *)

(** [std::push_heap] is called on the vector after [push_back], [std::pop_heap] before
    [pop_back]. *)
Class StdAlgorithms (A : Type) := {
  push_heap : (A -> A -> bool) -> list A -> list A;
  pop_heap : (A -> A -> bool) -> list A -> list A;
  std_sort : (A -> A -> bool) -> list A -> list A;
  is_heap : (A -> A -> bool) -> list A -> Prop
}.

(** Their guarantees for a strict weak order: reordering only; the front of a heap is a
    greatest element; popping moves a greatest element to the back and leaves a heap before
    it; sorting leaves no element before a smaller one. *)
Class StdLaws (A : Type) `{StdAlgorithms A} : Prop := {
  heap_nil : forall less, is_heap less [];
  heap_front : forall less x l, StrictWeak less -> is_heap less (x :: l) ->
    Forall (fun y => less x y = false) l;
  push_heap_ok : forall less l x, StrictWeak less -> is_heap less l ->
    push_heap less (l ++ [x]) ≡ₚ l ++ [x] /\ is_heap less (push_heap less (l ++ [x]));
  pop_heap_ok : forall less l, StrictWeak less -> is_heap less l -> l <> [] ->
    exists l' m, pop_heap less l = l' ++ [m] /\ l' ++ [m] ≡ₚ l /\ is_heap less l' /\
      Forall (fun y => less m y = false) l';
  sort_ok : forall less l, StrictWeak less ->
    std_sort less l ≡ₚ l /\
    StronglySorted (fun x y => less y x = false) (std_sort less l)
}.

(** ** Bounded selection *)

Section selection.
Context {A : Type} `{SL : StdLaws A} (less : A -> A -> bool) `{!StrictWeak less}.

(** Push onto the heap and, past the limit, pop the worst element. *)
Definition push_bounded (limit : Z) (l : list A) (x : A) : list A :=
  let heap := push_heap less (l ++ [x]) in
  if limit <? zlen heap then take (length heap - 1) (pop_heap less heap) else heap.

(** No element of [dropped] is strictly better than one of [kept]. *)
Definition no_better (dropped kept : list A) : Prop :=
  forall d k, d ∈ dropped -> k ∈ kept -> less d k = false.

(** [kept] is a selection of the [limit] best elements of [all]. *)
Record selects (limit : Z) (all kept : list A) : Prop := {
  selects_length : zlen kept = Z.min limit (zlen all);
  selects_best : exists dropped, kept ++ dropped ≡ₚ all /\ no_better dropped kept
}.

Lemma selects_nil limit : 0 <= limit -> selects limit [] [].
Proof.
  split; [unfold zlen; simpl; lia|]. exists []. split; [done|]. intros d k Hd. by apply not_elem_of_nil in Hd.
Qed.

Lemma selects_all limit all kept :
  zlen all <= limit -> kept ≡ₚ all -> selects limit all kept.
Proof.
  intros Hl Hp. split; [apply Permutation_length in Hp; unfold zlen in *; lia|].
  exists []. rewrite app_nil_r. split; [done|]. intros d k Hd. by apply not_elem_of_nil in Hd.
Qed.

Lemma zlen_perm {B} (l k : list B) : l ≡ₚ k -> zlen l = zlen k.
Proof. intros Hp. apply Permutation_length in Hp. unfold zlen. lia. Qed.

(** Below the limit nothing was dropped. *)
Lemma selects_below limit all kept :
  selects limit all kept -> zlen kept < limit -> kept ≡ₚ all.
Proof.
  intros [Hl (dropped & Hp & _)] Hlt. pose proof (zlen_perm _ _ Hp) as Hz. rewrite zlen_app in Hz.
  destruct dropped as [|d dropped]; [by rewrite app_nil_r in Hp|].
  rewrite zlen_cons in Hz. pose proof (zlen_nonneg dropped). lia.
Qed.

(** Replacing the worst of [kept ++ [x]] keeps the selection. *)
Lemma selects_replace limit all kept x l' m :
  selects limit all kept -> limit = zlen kept ->
  l' ++ [m] ≡ₚ kept ++ [x] -> Forall (fun y => less m y = false) l' ->
  selects limit (all ++ [x]) l'.
Proof.
  intros [Hl (dropped & Hp & Hb)] Hlim Hperm Hm. rewrite Forall_forall in Hm.
  pose proof (zlen_perm _ _ Hperm) as Hz. rewrite !zlen_app, !zlen_cons in Hz.
  split; [rewrite zlen_app, zlen_cons; unfold zlen in *; simpl in *; lia|].
  exists (m :: dropped). split.
  { rewrite (Permutation_app_comm l'). simpl. rewrite <-Hp.
    rewrite (Permutation_app_comm dropped l'), (Permutation_middle l' dropped m).
    rewrite <-app_assoc. change (m :: dropped) with ([m] ++ dropped).
    rewrite app_assoc, Hperm, <-!app_assoc. apply Permutation_app_head, Permutation_app_comm. }
  assert (forall k, k ∈ l' -> k ∈ kept \/ k = x) as Hk.
  { intros k Hk. assert (k ∈ kept ++ [x]) as Hin by (rewrite <-Hperm; apply elem_of_app; by left).
    apply elem_of_app in Hin as [?|Hin]; [by left|right]. by apply list_elem_of_singleton in Hin. }
  assert (m ∈ kept \/ m = x) as Hmk.
  { assert (m ∈ kept ++ [x]) as Hin.
    { rewrite <-Hperm. apply elem_of_app. right. by apply list_elem_of_singleton. }
    apply elem_of_app in Hin as [?|Hin]; [by left|right]. by apply list_elem_of_singleton in Hin. }
  intros d k Hd Hkl. apply elem_of_cons in Hd as [->|Hd]; [by apply Hm|].
  destruct (Hk k Hkl) as [Hkk| ->]; [by apply Hb|]. destruct Hmk as [Hmk| ->].
  - apply (notless_trans d m x); [by apply Hb|by apply Hm].
  - apply Permutation_app_inv_r in Hperm. apply Hb; [done|]. by rewrite <-Hperm.
Qed.

Lemma push_bounded_ok limit all kept x :
  1 <= limit -> is_heap less kept -> selects limit all kept ->
  is_heap less (push_bounded limit kept x) /\
  selects limit (all ++ [x]) (push_bounded limit kept x).
Proof.
  intros Hlim Hh Hs. unfold push_bounded.
  destruct (push_heap_ok less kept x _ Hh) as [Hp Hheap].
  set (heap := push_heap less (kept ++ [x])) in *.
  pose proof (zlen_perm _ _ Hp) as Hz. rewrite zlen_app, zlen_cons in Hz. change (zlen (@nil A)) with 0 in Hz.
  pose proof (selects_length _ _ _ Hs) as Hlen. pose proof (zlen_nonneg all).
  destruct (Z.ltb_spec limit (zlen heap)) as [Hlt|Hge].
  - destruct (pop_heap_ok less heap _ Hheap) as (l' & m & Hpop & Hperm & Hheap' & Hm).
    { intros Hnil. rewrite Hnil in Hz. change (zlen (@nil A)) with 0 in Hz.
      pose proof (zlen_nonneg kept). lia. }
    rewrite Hpop. assert (length heap - 1 = length l')%nat as ->.
    { apply Permutation_length in Hperm. rewrite length_app in Hperm. simpl in Hperm. lia. }
    rewrite take_app_length. split; [done|]. eapply selects_replace; [done|lia|by rewrite Hperm|done].
  - split; [done|]. assert (kept ≡ₚ all) as Hall by (apply (selects_below limit); [done|lia]).
    apply selects_all; [|by rewrite Hp, Hall].
    rewrite zlen_app, zlen_cons, <-(zlen_perm _ _ Hall). change (zlen (@nil A)) with 0. lia.
Qed.

(** The result of sorting the selection. *)
Record top_n (limit : Z) (all res : list A) : Prop := {
  top_sorted : StronglySorted (fun x y => less y x = false) res;
  top_selects : selects limit all res
}.

Lemma sort_selects limit all kept :
  selects limit all kept -> top_n limit all (std_sort less kept).
Proof.
  intros [Hl (dropped & Hp & Hb)]. destruct (sort_ok less kept _) as [Hperm Hsorted].
  split; [done|]. split; [by rewrite (zlen_perm _ _ Hperm)|].
  exists dropped. split; [by rewrite Hperm|]. intros d k Hd Hk. apply Hb; [done|]. by rewrite <-Hperm.
Qed.

(** The order separates the elements of [all]. *)
Definition separates (all : list A) : Prop :=
  forall x y, x ∈ all -> y ∈ all -> less x y = false -> less y x = false -> x = y.

(** The selection is a function of the multiset: the first [limit] of the sorted list. *)
Lemma top_n_unique limit all all' res res' :
  separates all -> all ≡ₚ all' -> top_n limit all res -> top_n limit all' res' -> res = res'.
Proof.
  intros Hsep Hall [Hs [Hl (dr & Hp & Hb)]] [Hs' [Hl' (dr' & Hp' & Hb')]].
  destruct (sort_ok less dr _) as [Hdp Hds]. destruct (sort_ok less dr' _) as [Hdp' Hds'].
  assert (forall r d, StronglySorted (fun x y => less y x = false) r ->
    no_better d r -> StronglySorted (fun x y => less y x = false) (std_sort less d) ->
    std_sort less d ≡ₚ d ->
    StronglySorted (fun x y => less y x = false) (r ++ std_sort less d)) as Happ.
  { intros r d Hr Hrd Hd Hperm. apply StronglySorted_app_2; [|done|done].
    intros x y Hx Hy. apply Hrd; [|done]. by rewrite <-Hperm. }
  assert (res ++ std_sort less dr = res' ++ std_sort less dr') as Heq.
  { apply (StronglySorted_unique_strong (fun x y => less y x = false)); [|by apply Happ|by apply Happ|].
    - intros x y Hx Hy Hxy Hyx. apply Hsep; [| |done|done].
      + rewrite <-Hp, <-Hdp. done.
      + rewrite Hall, <-Hp', <-Hdp'. done.
    - by rewrite Hdp, Hdp', Hp, Hp', Hall. }
  apply app_inj_1 in Heq as [-> _]; [done|].
  pose proof (zlen_perm _ _ Hall). unfold zlen in *. lia.
Qed.
End selection.

(** ** An implementation *)

(** A vector sorted from worst to best is a heap: pushing inserts the last element in its
    place, popping rotates the front to the back, sorting is insertion. *)
Section insertion.
Context {A : Type} (less : A -> A -> bool).

Fixpoint insert_desc (x : A) (l : list A) : list A :=
  match l with
  | [] => [x]
  | y :: l' => if less x y then y :: insert_desc x l' else x :: l
  end.

Definition sort_desc (l : list A) : list A := foldr insert_desc [] l.

Definition desc (x y : A) : Prop := less x y = false.

Lemma insert_desc_perm x l : insert_desc x l ≡ₚ x :: l.
Proof.
  induction l as [|y l IH]; [done|]. cbn [insert_desc]. destruct (less x y); [|done].
  rewrite IH. constructor.
Qed.

Lemma insert_desc_sorted `{!StrictWeak less} x l :
  StronglySorted desc l -> StronglySorted desc (insert_desc x l).
Proof.
  induction 1 as [|y l Hl IH Hy]; cbn [insert_desc]; [by repeat constructor|].
  destruct (less x y) eqn:E.
  - constructor; [done|]. rewrite Forall_forall in *. intros z Hz. rewrite insert_desc_perm in Hz.
    apply elem_of_cons in Hz as [->|Hz]; [|by apply Hy]. by apply less_asym.
  - constructor; [by constructor|]. constructor; [done|]. rewrite Forall_forall in *.
    intros z Hz. by apply (notless_trans x y z), Hy.
Qed.

Lemma sort_desc_ok `{!StrictWeak less} l :
  sort_desc l ≡ₚ l /\ StronglySorted desc (sort_desc l).
Proof.
  unfold sort_desc. induction l as [|x l [IH1 IH2]]; [split; [done|constructor]|]. cbn [foldr].
  split; [by rewrite insert_desc_perm, IH1|by apply insert_desc_sorted].
Qed.
End insertion.

#[export] Instance sorted_vector (A : Type) : StdAlgorithms A := {|
  push_heap less l := sort_desc less l;
  pop_heap less l := match l with [] => [] | x :: l' => l' ++ [x] end;
  std_sort less l := rev (sort_desc less l);
  is_heap less l := StronglySorted (desc less) l
|}.

Lemma StronglySorted_rev {A} (R : A -> A -> Prop) l :
  StronglySorted R l -> StronglySorted (fun x y => R y x) (rev l).
Proof.
  induction 1 as [|x l _ IH Hx]; [constructor|]. cbn [rev].
  apply StronglySorted_app_2; [|done|by repeat constructor].
  intros y z Hy Hz. apply list_elem_of_singleton in Hz as ->. rewrite Forall_forall in Hx.
  apply Hx, list_elem_of_In, in_rev, list_elem_of_In, Hy.
Qed.

#[export] Instance sorted_vector_laws (A : Type) : StdLaws A.
Proof.
  split.
  - intros. constructor.
  - intros less x l _ H. by inversion H.
  - intros less l x Hsw _. apply (sort_desc_ok less).
  - intros less [|x l] Hsw Hh Hne; [done|]. exists l, x. split; [done|].
    split; [by rewrite Permutation_app_comm|]. inversion Hh; subst. done.
  - intros less l Hsw. destruct (sort_desc_ok less l) as [Hp Hs]. split.
    + cbn. by rewrite <-Permutation_rev.
    + exact (StronglySorted_rev (desc less) _ Hs).
Qed.
