(* ===== verification/Search.v ===== *)
(** * Search: ordering, bounded top-N accumulation and path reconstruction

    Models [src/src/search/src/Search.cpp] and [ffsearch/Search.h]: scope tests, the
    result order [ResultLess], the accumulator ([Add], [AddViewMatched], [AdmitView],
    [Finish]) and [ReconstructPath].

    The cancellation callback is a function of the number of candidates visited when it
    is called (the accumulator never calls it twice at the same count); a materializer
    returns the updated candidate, or [None] where the source returns [false].  The
    standard algorithms are the class [StdAlgorithms] of [TopN]. *)

From Stdlib Require Import String.
From stdpp Require Import gmap sorting.
From S2P Require Import Prelude TopN TextMatch Glob QuerySyntax Query SearchPath.
Local Open Scope Z_scope.
Local Abbreviation length := List.length.

(** ** Requests and results *)

Inductive SearchScope := CurrentFolder | CurrentFolderAndSubfolders | CurrentDrive | AllIndexedLocations.

Module SortField.
Inductive SortField := Relevance | Filename | Path | Size | Modified | Created | AllocatedSize.
End SortField.
Abbreviation SortField := SortField.SortField.

#[export] Instance SearchScope_eq_dec : EqDecision SearchScope.
Proof. solve_decision. Defined.

Record SearchResult := { candidate : Candidate; tier : MatchTier }.

Record SearchRequest := {
  query : Query;
  scope : SearchScope;
  scopePath : list Z;
  sortField : SortField;
  descending : bool;
  chunkSize : Z;
  maxResults : Z;
  persistentOnly : bool;
  candidateFilter : option (Candidate -> bool);
  candidateFilterRequiresFolder : bool
}.

Record SearchResponse := {
  results : list SearchResult;
  cancelled : bool;
  truncated : bool;
  candidatesVisited : Z
}.

Definition empty_response : SearchResponse :=
  {| results := []; cancelled := false; truncated := false; candidatesVisited := 0 |}.

Section search.
Context `{HP : Platform} `{PP : PathPlatform} `{SA : StdAlgorithms SearchResult}.

(** ** Scope *)

Definition InScope (c : Candidate) (sc : SearchScope) (root : list Z) (persistent : bool) : bool :=
  if persistent && negb (persistentIndexed c) then false
  else
    match sc with
    | AllIndexedLocations => true
    | CurrentFolder => OrdinalEqual CompareStringOrdinal (folder c) root
    | CurrentDrive => SameVolume root (folder c)
    | CurrentFolderAndSubfolders =>
        if OrdinalEqual CompareStringOrdinal (folder c) root then true
        else if negb (OrdinalStartsWith CompareStringOrdinal (folder c) root) then false
        else bool_decide (root = []) || ends_with_unit root 92 ||
             ((length root <? length (folder c))%nat && unit_is (folder c) (length root) 92)
    end.

(** ** Order *)

Definition CompareOrdinal (l r : list Z) : Z := CompareStringOrdinal l r - CSTR_EQUAL.

(** The three-way comparison of two 64-bit keys. *)
Definition compare_key (l r : Z) : Z := if l <? r then -1 else if r <? l then 1 else 0.

(** [static_cast<int> (size)] differences: names and folders are far shorter than 2^31. *)
Definition size_difference (l r : list Z) : Z := zlen l - zlen r.

Definition relevance_primary (l r : SearchResult) : Z :=
  let primary := tier_int (tier l) - tier_int (tier r) in
  let primary := if primary =? 0 then size_difference (name (candidate l)) (name (candidate r))
                 else primary in
  if primary =? 0 then size_difference (folder (candidate l)) (folder (candidate r)) else primary.

(** What follows the switch of [ResultLess]. *)
Definition finish_less (l r : SearchResult) (desc : bool) (primary : Z) : bool :=
  if negb (primary =? 0) then (if desc then 0 <? primary else primary <? 0)
  else
    let byFolder := CompareOrdinal (folder (candidate l)) (folder (candidate r)) in
    if negb (byFolder =? 0) then byFolder <? 0
    else if negb (volumeId (candidate l) =? volumeId (candidate r))
    then volumeId (candidate l) <? volumeId (candidate r)
    else id (candidate l) <? id (candidate r).

Definition ResultLess (l r : SearchResult) (field : SortField) (desc : bool) : bool :=
  let cl := candidate l in
  let cr := candidate r in
  match field with
  | SortField.Relevance => finish_less l r desc (relevance_primary l r)
  | SortField.Filename => finish_less l r desc (CompareOrdinal (name cl) (name cr))
  | SortField.Path => finish_less l r desc (CompareOrdinal (folder cl) (folder cr))
  | SortField.Size => finish_less l r desc (compare_key (sizeBytes cl) (sizeBytes cr))
  | SortField.Modified => finish_less l r desc (compare_key (modifiedTime cl) (modifiedTime cr))
  | SortField.Created => finish_less l r desc (compare_key (createdTime cl) (createdTime cr))
  | SortField.AllocatedSize =>
      if negb (eqb (allocatedSizeKnown cl) (allocatedSizeKnown cr)) then allocatedSizeKnown cl
      else finish_less l r desc
             (if allocatedSizeKnown cl
              then compare_key (allocatedSizeBytes cl) (allocatedSizeBytes cr) else 0)
  end.

Definition SortResults (rs : list SearchResult) (field : SortField) (desc : bool)
    : list SearchResult :=
  std_sort (fun l r => ResultLess l r field desc) rs.

(** ** The accumulator *)

Context (request : SearchRequest) (cancel : option (Z -> bool)).

Definition request_less (l r : SearchResult) : bool :=
  ResultLess l r (sortField request) (descending request).

Definition folderNeededForEvaluation : bool :=
  negb (bool_decide (scope request = AllIndexedLocations)) || requiresFolder (query request).

(** [cancelled_ && cancelled_ ()] at a chunk boundary. *)
Definition cancel_requested (visited : Z) : bool :=
  (visited mod Z.max 1 (chunkSize request) =? 0) &&
  match cancel with Some f => f visited | None => false end.

(** The bounded heap: push the accepted result, pop the worst one past the limit. *)
Definition push_result (st : SearchResponse) (r : SearchResult) : SearchResponse :=
  let pushed := results st ++ [r] in
  if maxResults request =? 0
  then {| results := pushed; cancelled := cancelled st; truncated := truncated st;
          candidatesVisited := candidatesVisited st |}
  else
    let heap := push_heap request_less pushed in
    if maxResults request <? zlen heap
    then {| results := take (length heap - 1) (pop_heap request_less heap);
            cancelled := cancelled st; truncated := true;
            candidatesVisited := candidatesVisited st |}
    else {| results := heap; cancelled := cancelled st; truncated := truncated st;
            candidatesVisited := candidatesVisited st |}.

(** The tests between the visit and the push: [Ok None] is an early [return true]. *)
Definition accept (c : Candidate) (materialize : option (Candidate -> option Candidate))
    (alreadyEvaluated : bool) : result (option SearchResult) :=
  let* pre := if alreadyEvaluated then Ok true else MatchesWithoutFolder (query request) c in
  if negb pre then Ok None
  else
    let early := folderNeededForEvaluation || candidateFilterRequiresFolder request in
    match (if early then match materialize with Some m => m c | None => Some c end else Some c) with
    | None => Ok None
    | Some c =>
        let materialized := early && (if materialize then true else false) in
        if match candidateFilter request with Some f => negb (f c) | None => false end then Ok None
        else if negb (InScope c (scope request) (scopePath request) (persistentOnly request))
        then Ok None
        else
          let* full := if alreadyEvaluated then Ok true else Matches (query request) c in
          if negb full then Ok None
          else
            match (if negb materialized && negb folderNeededForEvaluation
                   then match materialize with Some m => m c | None => Some c end else Some c) with
            | None => Ok None
            | Some c =>
                let* t := ClassifyMatch CompareStringOrdinal (name c) (primaryTerm (query request)) in
                Ok (Some {| candidate := c; tier := t |})
            end
    end.

Definition AddImpl (st : SearchResponse) (c : Candidate)
    (materialize : option (Candidate -> option Candidate)) (alreadyEvaluated : bool)
    : result (bool * SearchResponse) :=
  if cancelled st then Ok (false, st)
  else if cancel_requested (candidatesVisited st)
  then Ok (false, {| results := []; cancelled := true; truncated := truncated st;
                     candidatesVisited := candidatesVisited st |})
  else
    let st := {| results := results st; cancelled := false; truncated := truncated st;
                 candidatesVisited := candidatesVisited st + 1 |} in
    let* accepted := accept c materialize alreadyEvaluated in
    match accepted with
    | None => Ok (true, st)
    | Some r => Ok (true, push_result st r)
    end.

Definition Add st c m := AddImpl st c m false.
Definition AddViewMatched st c m := AddImpl st c m true.

Definition Finish (st : SearchResponse) : SearchResponse :=
  if cancelled st
  then {| results := []; cancelled := true; truncated := truncated st;
          candidatesVisited := candidatesVisited st |}
  else {| results := SortResults (results st) (sortField request) (descending request);
          cancelled := false; truncated := truncated st;
          candidatesVisited := candidatesVisited st |}.

(** [verdict]: a rejection sets the truncated flag. *)
Definition verdict (st : SearchResponse) (admission : bool) : bool * SearchResponse :=
  (admission, if admission then st
          else {| results := results st; cancelled := cancelled st; truncated := true;
                  candidatesVisited := candidatesVisited st |}).

Definition admits (primary : Z) : bool :=
  if descending request then 0 <=? primary else primary <=? 0.

Definition AdmitView (st : SearchResponse) (v : CandidateView) : result (bool * SearchResponse) :=
  if cancelled st then Ok (false, st)
  else if maxResults request =? 0 then Ok (true, st)
  else if zlen (results st) <? maxResults request then Ok (true, st)
  else if (if candidateFilter request then true else false) || candidateFilterRequiresFolder request
          || folderNeededForEvaluation then Ok (true, st)
  else
    match results st with
    | [] => Fault
    | worst :: _ =>
        let w := candidate worst in
        match sortField request with
        | SortField.Relevance =>
            let* t := ClassifyMatchView CompareStringOrdinal (View.name v)
                        (primaryTerm (query request)) in
            let primary := tier_int t - tier_int (tier worst) in
            let primary := if primary =? 0 then size_difference (View.name v) (name w) else primary in
            Ok (verdict st (admits primary))
        | SortField.Filename =>
            Ok (verdict st (admits (CompareOrdinal16 CompareStringOrdinal (View.name v) (name w))))
        | SortField.Size => Ok (verdict st (admits (compare_key (View.sizeBytes v) (sizeBytes w))))
        | SortField.Modified =>
            Ok (verdict st (admits (compare_key (View.modifiedTime v) (modifiedTime w))))
        | SortField.Created =>
            Ok (verdict st (admits (compare_key (View.createdTime v) (createdTime w))))
        | SortField.AllocatedSize =>
            if negb (eqb (View.allocatedSizeKnown v) (allocatedSizeKnown w))
            then Ok (verdict st (View.allocatedSizeKnown v))
            else if negb (View.allocatedSizeKnown v) then Ok (true, st)
            else Ok (verdict st (admits (compare_key (View.allocatedSizeBytes v)
                                           (allocatedSizeBytes w))))
        | SortField.Path => Ok (true, st)
        end
    end.

(** ** Whole searches *)

(** The acceptance test of [ExecuteSearchCore]: as the accumulator's, but [materialized] does
    not depend on whether there is a materializer. *)
Definition accept_core (c : Candidate) (materialize : option (Candidate -> option Candidate))
    : result (option SearchResult) :=
  let* pre := MatchesWithoutFolder (query request) c in
  if negb pre then Ok None
  else
    let early := folderNeededForEvaluation || candidateFilterRequiresFolder request in
    match (if early then match materialize with Some m => m c | None => Some c end else Some c) with
    | None => Ok None
    | Some c =>
        let materialized := early in
        if match candidateFilter request with Some f => negb (f c) | None => false end then Ok None
        else if negb (InScope c (scope request) (scopePath request) (persistentOnly request))
        then Ok None
        else
          let* full := Matches (query request) c in
          if negb full then Ok None
          else
            match (if negb materialized && negb folderNeededForEvaluation
                   then match materialize with Some m => m c | None => Some c end else Some c) with
            | None => Ok None
            | Some c =>
                let* t := ClassifyMatch CompareStringOrdinal (name c) (primaryTerm (query request)) in
                Ok (Some {| candidate := c; tier := t |})
            end
    end.

(** The loop of [ExecuteSearchCore] over the remaining candidates; [candidatesVisited] is the
    loop index.  The candidates are the caller's vector before the call: what a lazy search
    writes back into it is not part of the response. *)
Fixpoint search_loop (cs : list Candidate) (materialize : option (Candidate -> option Candidate))
    (st : SearchResponse) : result SearchResponse :=
  match cs with
  | [] => Ok {| results := SortResults (results st) (sortField request) (descending request);
                cancelled := false; truncated := truncated st;
                candidatesVisited := candidatesVisited st |}
  | c :: cs' =>
      if cancel_requested (candidatesVisited st)
      then Ok {| results := []; cancelled := true; truncated := truncated st;
                 candidatesVisited := candidatesVisited st |}
      else
        let st := {| results := results st; cancelled := false; truncated := truncated st;
                     candidatesVisited := candidatesVisited st + 1 |} in
        let* accepted := accept_core c materialize in
        search_loop cs' materialize
          (match accepted with None => st | Some r => push_result st r end)
  end.

Definition ExecuteSearch (cs : list Candidate) : result SearchResponse :=
  search_loop cs None empty_response.
Definition ExecuteSearchLazy (cs : list Candidate) (m : Candidate -> option Candidate)
    : result SearchResponse := search_loop cs (Some m) empty_response.

(** The body of the visitor of [ExecuteSearchViews] after the cancellation test. *)
Definition accept_view (materialize : CandidateView -> option Candidate) (v : CandidateView)
    : result (option SearchResult) :=
  let classify c :=
    let* t := ClassifyMatch CompareStringOrdinal (name c) (primaryTerm (query request)) in
    Ok (Some {| candidate := c; tier := t |}) in
  let filtered c := match candidateFilter request with Some f => negb (f c) | None => false end in
  if folderNeededForEvaluation then
    let* pre := MatchesViewWithoutFolder (query request) v in
    if negb pre then Ok None
    else
      match materialize v with
      | None => Ok None
      | Some c =>
          if filtered c || negb (InScope c (scope request) (scopePath request) (persistentOnly request))
          then Ok None
          else
            let* full := Matches (query request) c in
            if negb full then Ok None else classify c
      end
  else
    let* full := MatchesView (query request) v in
    if negb full then Ok None
    else
      match materialize v with
      | None => Ok None
      | Some c => if filtered c then Ok None else classify c
      end.

(** One call of the visitor: its return value and the new response ([stopped] is the
    [cancelled] flag). *)
Definition visit (materialize : CandidateView -> option Candidate) (st : SearchResponse)
    (v : CandidateView) : result (bool * SearchResponse) :=
  if cancelled st then Ok (false, st)
  else if cancel_requested (candidatesVisited st)
  then Ok (false, {| results := []; cancelled := true; truncated := truncated st;
                     candidatesVisited := candidatesVisited st |})
  else
    let st := {| results := results st; cancelled := false; truncated := truncated st;
                 candidatesVisited := candidatesVisited st + 1 |} in
    let* accepted := accept_view materialize v in
    match accepted with
    | None => Ok (true, st)
    | Some r => Ok (true, push_result st r)
    end.

(** The enumerator calls the visitor on every row (whether it stops at [false] or not does
    not matter: a stopped visitor changes nothing). *)
Fixpoint visit_all (materialize : CandidateView -> option Candidate) (vs : list CandidateView)
    (st : SearchResponse) : result SearchResponse :=
  match vs with
  | [] => Ok st
  | v :: vs' => let* '(_, st') := visit materialize st v in visit_all materialize vs' st'
  end.

Definition ExecuteSearchViews (vs : list CandidateView) (materialize : CandidateView -> option Candidate)
    : result SearchResponse :=
  if negb (viewCompatible (query request)) then Ok empty_response
  else
    let* st := visit_all materialize vs empty_response in
    if cancelled st then Ok st
    else Ok {| results := SortResults (results st) (sortField request) (descending request);
               cancelled := false; truncated := truncated st;
               candidatesVisited := candidatesVisited st |}.
End search.

(** ** Path reconstruction *)

Record PathReconstruction := {
  segments : list (list Z);
  complete : bool;
  unresolvedParentId : Z
}.

(** [byId.emplace] keeps the first entry of a key. *)
Definition index_by_id (entries : list Candidate) : gmap (Z * Z) Candidate :=
  foldr (fun e m => <[(volumeId e, id e) := e]> m) ∅ entries.

(** The [while (current != nullptr)] loop; [segs] is in the order of the final reversal.
    A new key is added to [seen] in every iteration, so the fuel is the number of entries. *)
Fixpoint reconstruct_loop (fuel : nat) (byId : gmap (Z * Z) Candidate) (current : Candidate)
    (seen : gset (Z * Z)) (segs : list (list Z)) : result PathReconstruction :=
  match fuel with
  | O => Fault
  | S fuel' =>
      let key := (volumeId current, id current) in
      if bool_decide (key ∈ seen)
      then Ok {| segments := segs; complete := false; unresolvedParentId := id current |}
      else
        let seen := {[key]} ∪ seen in
        let segs := name current :: segs in
        if (parentId current =? 0) || (parentId current =? id current)
        then Ok {| segments := segs; complete := true; unresolvedParentId := 0 |}
        else
          match byId !! (volumeId current, parentId current) with
          | None => Ok {| segments := segs; complete := false;
                          unresolvedParentId := parentId current |}
          | Some parent => reconstruct_loop fuel' byId parent seen segs
          end
  end.

Definition ReconstructPath (entries : list Candidate) (entryIndex : nat) : result PathReconstruction :=
  match entries !! entryIndex with
  | None => Ok {| segments := []; complete := false; unresolvedParentId := 0 |}
  | Some current => reconstruct_loop (S (length entries)) (index_by_id entries) current ∅ []
  end.

(** ** The result order is a strict weak order *)

(** What the order relies on: the ordinal comparison is a total preorder with the values
    [CSTR_LESS_THAN] = 1, [CSTR_EQUAL] = 2 and [CSTR_GREATER_THAN] = 3. *)
Class OrdinalOrder (CSO : list Z -> list Z -> Z) : Prop := {
  ordinal_antisym : forall l r, CSO l r + CSO r l = 4;
  ordinal_trans : forall x y z, CSO x y <= 2 -> CSO y z <= 2 -> CSO x z <= 2
}.

Section order.
Context `{HP : Platform} `{HO : !OrdinalOrder CompareStringOrdinal}.

Definition by_ordinal (key : SearchResult -> list Z) (l r : SearchResult) : comparison :=
  Z.compare (CompareStringOrdinal (key l) (key r)) CSTR_EQUAL.

#[export] Instance by_ordinal_ok key : Comparator (by_ordinal key).
Proof.
  split; unfold by_ordinal, CSTR_EQUAL.
  - intros x y. pose proof (ordinal_antisym (key x) (key y)) as H.
    destruct (Z.compare_spec (CompareStringOrdinal (key x) (key y)) 2),
      (Z.compare_spec (CompareStringOrdinal (key y) (key x)) 2); simpl; done || lia.
  - intros x y z. rewrite !Z.compare_le_iff. apply ordinal_trans.
Qed.

Local Abbreviation key f := (fun r => f (candidate r)).

(** The tie-break chain: folder, volume, identity. *)
Definition tie_compare : SearchResult -> SearchResult -> comparison :=
  lex (by_ordinal (key folder)) (lex (by_key (key volumeId)) (by_key (key id))).

Definition primary_compare (field : SortField) (desc : bool)
    : SearchResult -> SearchResult -> comparison :=
  match field with
  | SortField.Relevance =>
      flip_if desc (lex (by_key (fun r => tier_int (tier r)))
        (lex (by_key (fun r => zlen (name (candidate r))))
             (by_key (fun r => zlen (folder (candidate r))))))
  | SortField.Filename => flip_if desc (by_ordinal (key name))
  | SortField.Path => flip_if desc (by_ordinal (key folder))
  | SortField.Size => flip_if desc (by_key (key sizeBytes))
  | SortField.Modified => flip_if desc (by_key (key modifiedTime))
  | SortField.Created => flip_if desc (by_key (key createdTime))
  | SortField.AllocatedSize =>
      lex (by_key (fun r => if allocatedSizeKnown (candidate r) then 0 else 1))
          (flip_if desc (by_key (fun r =>
             if allocatedSizeKnown (candidate r) then allocatedSizeBytes (candidate r) else 0)))
  end.

Definition result_compare (field : SortField) (desc : bool) :=
  lex (primary_compare field desc) tie_compare.

#[export] Instance result_compare_ok field desc : Comparator (result_compare field desc).
Proof. unfold result_compare, tie_compare. destruct field; cbn [primary_compare]; apply _. Qed.

Lemma less_of_lex {A} (c d : A -> A -> comparison) x y :
  less_of (lex c d) x y = match c x y with Eq => less_of d x y | Lt => true | Gt => false end.
Proof. unfold less_of, lex. by destruct (c x y). Qed.

Lemma compare_key_sign l r : Z.compare (compare_key l r) 0 = Z.compare l r.
Proof.
  unfold compare_key. destruct (Z.ltb_spec l r), (Z.ltb_spec r l), (Z.compare_spec l r); simpl;
    done || lia.
Qed.

Lemma CompareOrdinal_sign l r :
  Z.compare (CompareOrdinal l r) 0 = Z.compare (CompareStringOrdinal l r) CSTR_EQUAL.
Proof.
  unfold CompareOrdinal. destruct (Z.compare_spec (CompareStringOrdinal l r - CSTR_EQUAL) 0),
    (Z.compare_spec (CompareStringOrdinal l r) CSTR_EQUAL); done || lia.
Qed.

Lemma relevance_sign l r :
  Z.compare (relevance_primary l r) 0 =
  lex (by_key (fun r => tier_int (tier r)))
    (lex (by_key (fun r => zlen (name (candidate r))))
         (by_key (fun r => zlen (folder (candidate r))))) l r.
Proof.
  unfold relevance_primary, size_difference, lex, by_key.
  destruct (Z.compare_spec (tier_int (tier l)) (tier_int (tier r))) as [He|Hl|Hg].
  - rewrite He, Z.sub_diag. cbn [Z.eqb].
    destruct (Z.compare_spec (zlen (name (candidate l))) (zlen (name (candidate r)))) as [Hn|Hn|Hn].
    + rewrite Hn, Z.sub_diag. cbn [Z.eqb].
      destruct (Z.compare_spec (zlen (folder (candidate l))) (zlen (folder (candidate r))));
        [apply Z.compare_eq_iff; lia|apply Z.compare_lt_iff; lia|apply Z.compare_gt_iff; lia].
    + rewrite (proj2 (Z.eqb_neq _ 0)) by lia. apply Z.compare_lt_iff. lia.
    + rewrite (proj2 (Z.eqb_neq _ 0)) by lia. apply Z.compare_gt_iff. lia.
  - rewrite !(proj2 (Z.eqb_neq (tier_int (tier l) - tier_int (tier r)) 0)) by lia.
    apply Z.compare_lt_iff. lia.
  - rewrite !(proj2 (Z.eqb_neq (tier_int (tier l) - tier_int (tier r)) 0)) by lia.
    apply Z.compare_gt_iff. lia.
Qed.

Lemma tie_less l r :
  (let byFolder := CompareOrdinal (folder (candidate l)) (folder (candidate r)) in
   if negb (byFolder =? 0) then byFolder <? 0
   else if negb (volumeId (candidate l) =? volumeId (candidate r))
   then volumeId (candidate l) <? volumeId (candidate r)
   else id (candidate l) <? id (candidate r)) = less_of tie_compare l r.
Proof.
  cbv zeta. unfold tie_compare. rewrite !less_of_lex. unfold by_ordinal, by_key, less_of, CompareOrdinal.
  destruct (Z.compare_spec (CompareStringOrdinal (folder (candidate l)) (folder (candidate r))) CSTR_EQUAL)
    as [He|Hl|Hg].
  - rewrite He, Z.sub_diag. cbn [Z.eqb negb].
    destruct (Z.compare_spec (volumeId (candidate l)) (volumeId (candidate r))) as [Hv|Hv|Hv].
    + rewrite Hv, Z.eqb_refl. cbn [negb].
      destruct (Z.compare_spec (id (candidate l)) (id (candidate r))); lia.
    + rewrite (proj2 (Z.eqb_neq _ _)) by lia. cbn [negb]. lia.
    + rewrite (proj2 (Z.eqb_neq _ _)) by lia. cbn [negb]. lia.
  - rewrite (proj2 (Z.eqb_neq _ 0)) by lia. cbn [negb]. lia.
  - rewrite (proj2 (Z.eqb_neq _ 0)) by lia. cbn [negb]. lia.
Qed.

Lemma finish_less_compare (c : SearchResult -> SearchResult -> comparison) l r desc primary :
  Comparator c -> Z.compare primary 0 = c l r ->
  finish_less l r desc primary = less_of (lex (flip_if desc c) tie_compare) l r.
Proof.
  intros Hc Hp. rewrite less_of_lex. unfold finish_less. rewrite tie_less. unfold flip_if.
  rewrite (cmp_antisym (cmp := c) r l), <-Hp.
  destruct (Z.compare_spec primary 0) as [->|Hl|Hg]; destruct desc; simpl; try done;
    rewrite (proj2 (Z.eqb_neq _ 0)) by lia; simpl; lia.
Qed.

Lemma ResultLess_compare l r field desc :
  ResultLess l r field desc = less_of (result_compare field desc) l r.
Proof.
  unfold ResultLess, result_compare. destruct field; cbn [primary_compare];
    try (apply finish_less_compare; [apply _|];
         first [apply relevance_sign | apply CompareOrdinal_sign | apply compare_key_sign]).
  destruct (allocatedSizeKnown (candidate l)) eqn:El, (allocatedSizeKnown (candidate r)) eqn:Er;
    cbn [eqb negb].
  1, 4: erewrite (finish_less_compare (by_key (fun r => if allocatedSizeKnown (candidate r)
      then allocatedSizeBytes (candidate r) else 0))) by
      (first [apply _ | unfold by_key; rewrite El, Er; (apply compare_key_sign || reflexivity)]);
    rewrite !less_of_lex; unfold lex, by_key at 2; by rewrite El, Er.
  all: rewrite !less_of_lex; unfold lex, by_key; by rewrite El, Er.
Qed.

#[export] Instance ResultLess_strict field desc :
  StrictWeak (fun l r => ResultLess l r field desc).
Proof.
  destruct (less_of_strict (result_compare field desc) _) as [H1 H2 H3].
  split; intros *; rewrite !ResultLess_compare; eauto.
Qed.
End order.

(** ** Runs of the accumulator *)

(** The UTF-16 strings of a row are well-formed code units. *)
Definition row_ok (c : Candidate) : Prop := Forall is_unit (name c) /\ Forall is_unit (folder c).

Section runs.
Context `{HP : Platform} `{HL : !PlatformLaws} `{HO : !OrdinalOrder CompareStringOrdinal}
        `{PP : PathPlatform} `{SL : StdLaws SearchResult}.
Context (request : SearchRequest) (cancel : option (Z -> bool)).
Local Abbreviation less := (request_less request).

#[export] Instance request_less_strict : StrictWeak less.
Proof. apply ResultLess_strict. Qed.

(** Adding candidates in order, ignoring the return value as a source that does not stop. *)
Fixpoint add_all (m : option (Candidate -> option Candidate)) (cs : list Candidate)
    (st : SearchResponse) : result SearchResponse :=
  match cs with
  | [] => Ok st
  | c :: cs' => let* '(_, st') := Add request cancel st c m in add_all m cs' st'
  end.

(** The rows a run accepts. *)
Fixpoint accepted_rows (m : option (Candidate -> option Candidate)) (cs : list Candidate)
    : result (list SearchResult) :=
  match cs with
  | [] => Ok []
  | c :: cs' =>
      let* o := accept request c m false in
      let* rest := accepted_rows m cs' in
      Ok (match o with Some r => r :: rest | None => rest end)
  end.

(** The invariant of the bounded heap after accepting [rows]. *)
Record acc_inv (rows : list SearchResult) (st : SearchResponse) : Prop := {
  acc_running : cancelled st = false;
  acc_heap : is_heap less (results st);
  acc_selects : selects less (maxResults request) rows (results st);
  acc_truncated : truncated st = (maxResults request <? zlen rows)
}.

Lemma empty_acc_inv : 0 <= maxResults request -> acc_inv [] empty_response.
Proof.
  intros Hm. split; [done|apply heap_nil|by apply selects_nil|].
  cbn. symmetry. apply Z.ltb_ge. done.
Qed.

Lemma push_result_inv rows st r :
  1 <= maxResults request -> acc_inv rows st -> acc_inv (rows ++ [r]) (push_result request st r).
Proof.
  intros Hm [Hr Hh Hs Ht]. unfold push_result. rewrite (proj2 (Z.eqb_neq _ 0)) by lia.
  destruct (push_bounded_ok less (maxResults request) rows (results st) r Hm Hh Hs) as [Hh' Hs'].
  unfold push_bounded in Hh', Hs'.
  destruct (push_heap_ok less (results st) r _ Hh) as [Hp _]. pose proof (zlen_perm _ _ Hp) as Hz.
  pose proof (selects_length _ _ _ _ Hs) as Hl. rewrite zlen_app, zlen_cons in Hz.
  change (zlen (@nil SearchResult)) with 0 in Hz.
  assert (zlen (rows ++ [r]) = zlen rows + 1) as Hrows.
  { rewrite zlen_app, zlen_cons. change (zlen (@nil SearchResult)) with 0. lia. }
  destruct (Z.ltb_spec (maxResults request) (zlen (push_heap less (results st ++ [r])))) as [Hlt|Hge];
    split; cbn; try done.
  - symmetry. apply Z.ltb_lt. lia.
  - rewrite Ht, Hrows. destruct (Z.ltb_spec (maxResults request) (zlen rows)),
      (Z.ltb_spec (maxResults request) (zlen rows + 1)); done || lia.
Qed.

Lemma push_result_visited st r :
  candidatesVisited (push_result request st r) = candidatesVisited st.
Proof. unfold push_result. cbv zeta. by repeat case_match. Qed.

Lemma Finish_top_n rows st :
  acc_inv rows st ->
  top_n less (maxResults request) rows (results (Finish request st)) /\
  cancelled (Finish request st) = false /\
  truncated (Finish request st) = (maxResults request <? zlen rows) /\
  candidatesVisited (Finish request st) = candidatesVisited st.
Proof.
  intros [Hr Hh Hs Ht]. unfold Finish. rewrite Hr. cbn [results cancelled truncated candidatesVisited].
  split; [exact (sort_selects _ _ _ _ Hs)|done].
Qed.

Definition never_cancels : Prop := forall v, cancel_requested request cancel v = false.

Lemma add_all_inv m cs rows st rows' :
  1 <= maxResults request -> never_cancels -> acc_inv rows st ->
  accepted_rows m cs = Ok rows' ->
  exists st', add_all m cs st = Ok st' /\ acc_inv (rows ++ rows') st' /\
    candidatesVisited st' = candidatesVisited st + zlen cs.
Proof.
  intros Hm Hc. revert rows st rows'. induction cs as [|c cs IH]; intros rows st rows' Hinv Hrows;
    cbn [accepted_rows add_all] in *.
  { injection Hrows as <-. exists st. rewrite app_nil_r. split; [done|]. split; [done|].
    change (zlen (@nil Candidate)) with 0. lia. }
  apply bind_Ok_inv in Hrows as (o & Ho & Hrows). apply bind_Ok_inv in Hrows as (rest & Hrest & Hrows).
  injection Hrows as <-. unfold Add, AddImpl. rewrite (acc_running _ _ Hinv), Hc, Ho. cbn [bind].
  destruct Hinv as [Hr Hh Hs Ht].
  assert (acc_inv rows {| results := results st; cancelled := false; truncated := truncated st;
                          candidatesVisited := candidatesVisited st + 1 |}) as Hinv' by done.
  destruct o as [r|]; cbn [bind].
  - destruct (IH (rows ++ [r]) _ rest (push_result_inv _ _ r Hm Hinv') Hrest) as (st' & -> & Hst' & Hv).
    exists st'. rewrite <-app_assoc in Hst'. split; [done|]. split; [done|].
    rewrite Hv, zlen_cons, push_result_visited. cbn. lia.
  - destruct (IH rows _ rest Hinv' Hrest) as (st' & -> & Hst' & Hv). exists st'.
    split; [done|]. split; [done|]. rewrite Hv, zlen_cons. cbn. lia.
Qed.

(** ** Acceptance never faults *)

Definition view_of (c : Candidate) : CandidateView := {|
  View.name := name c; View.folder := folder c; View.sizeBytes := sizeBytes c;
  View.modifiedTime := modifiedTime c; View.isDirectory := isDirectory c;
  View.createdTime := createdTime c; View.volumeId := volumeId c; View.id := id c;
  View.parentId := parentId c; View.persistentIndexed := persistentIndexed c;
  View.nameAsciiLower := false; View.allocatedSizeBytes := allocatedSizeBytes c;
  View.allocatedSizeKnown := allocatedSizeKnown c; View.nameIsAscii := IsAscii (name c)
|}.

Lemma view_of_corresponds c : row_ok c -> corresponds c (view_of c).
Proof. intros [Hn Hf]. split; [split; try done|done|done]. cbn. by apply is_ascii_units. Qed.

(** A request whose query came out of [ParseQuery]. *)
Definition query_ok : Prop :=
  matchers_agree (query request) /\ Forall is_unit (primaryTerm (query request)).

Definition materializer_ok (m : option (Candidate -> option Candidate)) : Prop :=
  match m with Some f => forall c c', row_ok c -> f c = Some c' -> row_ok c' | None => True end.

Lemma materialize_row m c c' (b : bool) :
  materializer_ok m -> row_ok c ->
  (if b then match m with Some f => f c | None => Some c end else Some c) = Some c' -> row_ok c'.
Proof. destruct b, m as [f|]; simpl; intros; simplify_eq; eauto. Qed.

Lemma matches_total c : query_ok -> row_ok c ->
  (exists b, Matches (query request) c = Ok b) /\
  (exists b, MatchesWithoutFolder (query request) c = Ok b).
Proof.
  intros [[Hnf Ha] _] Hc. destruct (Ha _ _ (view_of_corresponds c Hc)) as (b & _ & H1 & _).
  destruct (Hnf _ _ (corresponds_row _ _ (view_of_corresponds c Hc))) as (b' & _ & H2 & _). eauto.
Qed.

Lemma accept_total m c already :
  query_ok -> materializer_ok m -> row_ok c -> exists o, accept request c m already = Ok o.
Proof.
  intros Hq Hm Hc. unfold accept.
  destruct (matches_total c Hq Hc) as [_ [b' Hb']].
  assert (exists b, (if already then Ok true else MatchesWithoutFolder (query request) c) = Ok b)
    as [pre ->] by (destruct already; eauto).
  cbn [bind]. destruct pre; cbn [negb]; [|eauto].
  destruct (if _ || _ then _ else Some c) as [c1|] eqn:E1; [|eauto].
  assert (row_ok c1) as Hc1 by by eapply materialize_row.
  destruct (match candidateFilter request with Some f => negb (f c1) | None => false end); [eauto|].
  destruct (negb (InScope c1 _ _ _)); [eauto|].
  destruct (matches_total c1 Hq Hc1) as [[b1 Hb1] _].
  assert (exists b, (if already then Ok true else Matches (query request) c1) = Ok b)
    as [full ->] by (destruct already; eauto).
  cbn [bind]. destruct full; cbn [negb]; [|eauto].
  destruct (if negb (_ && _) && _ then _ else Some c1) as [c2|] eqn:E2; [|eauto].
  assert (row_ok c2) as Hc2 by by eapply materialize_row.
  rewrite ClassifyMatch_correct; [eauto|apply Hc2|apply Hq].
Qed.

Lemma accepted_rows_total m cs :
  query_ok -> materializer_ok m -> Forall row_ok cs -> exists rows, accepted_rows m cs = Ok rows.
Proof.
  intros Hq Hm. induction 1 as [|c cs Hc _ [rows IH]]; [by eexists|]. cbn [accepted_rows].
  destruct (accept_total m c false Hq Hm Hc) as [o ->]. cbn [bind]. rewrite IH. cbn [bind]. eauto.
Qed.

Lemma accepted_rows_perm m cs cs' rows :
  cs ≡ₚ cs' -> accepted_rows m cs = Ok rows ->
  exists rows', accepted_rows m cs' = Ok rows' /\ rows ≡ₚ rows'.
Proof.
  intros Hp. revert rows. induction Hp as [|c cs cs' _ IH|c c' cs|cs cs' cs'' _ IH1 _ IH2]; intros rows Hrows.
  - eauto.
  - cbn [accepted_rows] in *. apply bind_Ok_inv in Hrows as (o & Ho & Hrows).
    apply bind_Ok_inv in Hrows as (rest & Hrest & [= <-]).
    destruct (IH rest Hrest) as (rest' & Hrest' & Hp'). rewrite Ho. cbn [bind]. rewrite Hrest'. cbn [bind].
    eexists. split; [done|]. destruct o; [by constructor|done].
  - cbn [accepted_rows] in *. apply bind_Ok_inv in Hrows as (o & Ho & Hrows).
    apply bind_Ok_inv in Hrows as (rest & Hrest & [= <-]).
    apply bind_Ok_inv in Hrest as (o' & Ho' & Hrest).
    apply bind_Ok_inv in Hrest as (rest' & Hrest' & [= <-]).
    rewrite Ho', Ho, Hrest'. cbn [bind]. eexists. split; [done|].
    destruct o, o'; try done. constructor.
  - destruct (IH1 rows Hrows) as (rows1 & H1 & Hp1). destruct (IH2 rows1 H1) as (rows2 & H2 & Hp2).
    exists rows2. split; [done|]. by rewrite Hp1.
Qed.

(** ** Admission *)

Lemma admits_false (c : SearchResult -> SearchResult -> comparison) worst r p :
  Comparator c -> Z.compare p 0 = c r worst -> admits request p = false ->
  flip_if (descending request) c worst r = Lt.
Proof.
  intros Hc Hp Ha. unfold admits in Ha. unfold flip_if. destruct (descending request).
  - rewrite <-Hp. apply Z.compare_lt_iff. lia.
  - rewrite (cmp_antisym (cmp := c)), <-Hp. assert (0 < p) as Hpos by lia.
    apply Z.compare_gt_iff in Hpos. by rewrite Hpos.
Qed.

Lemma primary_less worst r :
  primary_compare (sortField request) (descending request) worst r = Lt -> less worst r = true.
Proof.
  intros Hp. unfold request_less. rewrite ResultLess_compare. unfold result_compare, less_of, lex.
  by rewrite Hp.
Qed.

Lemma relevance_admit worst r :
  let p := tier_int (tier r) - tier_int (tier worst) in
  let p := if p =? 0 then size_difference (name (candidate r)) (name (candidate worst)) else p in
  admits request p = false ->
  primary_compare SortField.Relevance (descending request) worst r = Lt.
Proof.
  cbv zeta. set (p := if _ =? 0 then _ else _). intros Ha.
  apply (admits_false _ worst r p); [apply _| |done]. rewrite <-relevance_sign.
  assert (p <> 0) as Hne by (intros E; rewrite E in Ha; unfold admits in Ha; by destruct (descending _)).
  f_equal. unfold relevance_primary. fold p. by rewrite (proj2 (Z.eqb_neq p 0)).
Qed.

Lemma Ok_inj {A} (a b : A) : Ok a = Ok b -> a = b.
Proof. by intros [=]. Qed.

(** A refused view is strictly worse than the worst retained row. *)
Lemma AdmitView_refuses st st' worst tl v c t :
  results st = worst :: tl -> cancelled st = false ->
  Forall is_unit (primaryTerm (query request)) -> same_row c v ->
  ClassifyMatch CompareStringOrdinal (name c) (primaryTerm (query request)) = Ok t ->
  AdmitView request st v = Ok (false, st') ->
  less worst {| candidate := c; tier := t |} = true /\
  maxResults request <= zlen (results st) /\
  st' = {| results := results st; cancelled := false; truncated := true;
           candidatesVisited := candidatesVisited st |}.
Proof.
  intros Hres Hrun Hprim Hc Ht. unfold AdmitView. rewrite Hrun.
  destruct (Z.eqb_spec (maxResults request) 0) as [|Hmax]; [done|].
  destruct (Z.ltb_spec (zlen (results st)) (maxResults request)) as [|Hfull]; [done|].
  destruct (_ || _ || _); [done|]. rewrite Hres.
  set (r := {| candidate := c; tier := t |}).
  assert (forall b, verdict st b = (false, st') -> b = false /\
    st' = {| results := results st; cancelled := false; truncated := true;
             candidatesVisited := candidatesVisited st |}) as Hverdict.
  { intros []; unfold verdict; [by intros [=]|]. rewrite Hrun. by intros [= <-]. }
  assert (forall b, verdict st b = (false, st') ->
    (b = false -> primary_compare (sortField request) (descending request) worst r = Lt) ->
    less worst r = true /\ maxResults request <= zlen (worst :: tl) /\
    st' = {| results := worst :: tl; cancelled := false; truncated := true;
             candidatesVisited := candidatesVisited st |}) as Hdone.
  { intros b Hb Hp. destruct (Hverdict b Hb) as [-> ->]. rewrite <-Hres.
    split; [by apply primary_less, Hp|done]. }
  destruct (sortField request) eqn:Ef.
  - rewrite (same_name _ _ Hc), ClassifyMatchView_correct; [|apply Hc|done].
    rewrite ClassifyMatch_correct in Ht; [|apply Hc|done]. injection Ht as Ht.
    cbn [bind]. intros Hv%Ok_inj. apply (Hdone _ Hv). intros Ha. rewrite Ht in Ha.
    exact (relevance_admit worst r Ha).
  - intros Hv%Ok_inj. apply (Hdone _ Hv). apply (admits_false (by_ordinal _)); [apply _|].
    rewrite (same_name _ _ Hc). apply CompareOrdinal_sign.
  - done.
  - intros Hv%Ok_inj. apply (Hdone _ Hv). apply (admits_false (by_key _)); [apply _|].
    rewrite (same_size _ _ Hc). apply compare_key_sign.
  - intros Hv%Ok_inj. apply (Hdone _ Hv). apply (admits_false (by_key _)); [apply _|].
    rewrite (same_modified _ _ Hc). apply compare_key_sign.
  - intros Hv%Ok_inj. apply (Hdone _ Hv). apply (admits_false (by_key _)); [apply _|].
    rewrite (same_created _ _ Hc). apply compare_key_sign.
  - rewrite (same_known _ _ Hc), (same_allocated _ _ Hc). unfold primary_compare, lex, by_key at 1 in Hdone.
    cbn [candidate r] in Hdone.
    destruct (allocatedSizeKnown c) eqn:Ekc, (allocatedSizeKnown (candidate worst)) eqn:Ekw;
      cbn [eqb negb]; intros Hv%Ok_inj.
    + apply (Hdone _ Hv). cbn [Z.compare]. intros Ha.
      apply (admits_false (by_key _) worst r (compare_key (allocatedSizeBytes c)
        (allocatedSizeBytes (candidate worst)))); [apply _| |done].
      unfold by_key. cbn [candidate r]. rewrite Ekc, Ekw. apply compare_key_sign.
    + by apply (Hdone _ Hv).
    + by apply (Hdone _ Hv).
    + discriminate Hv.
Qed.

Lemma AdmitView_refused rows st st' v c t :
  1 <= maxResults request -> acc_inv rows st ->
  Forall is_unit (primaryTerm (query request)) -> same_row c v ->
  ClassifyMatch CompareStringOrdinal (name c) (primaryTerm (query request)) = Ok t ->
  AdmitView request st v = Ok (false, st') ->
  (exists worst tl, results st = worst :: tl /\ less worst {| candidate := c; tier := t |} = true) /\
  maxResults request <= zlen (results st) /\
  st' = {| results := results st; cancelled := false; truncated := true;
           candidatesVisited := candidatesVisited st |}.
Proof.
  intros Hmax [Hrun _ _ _] Hprim Hc Ht Hadm. destruct (results st) as [|worst tl] eqn:Hres.
  - unfold AdmitView in Hadm. rewrite Hrun, Hres in Hadm.
    rewrite (proj2 (Z.eqb_neq _ 0)) in Hadm by lia. change (zlen []) with 0 in Hadm.
    by rewrite (proj2 (Z.ltb_lt 0 _)) in Hadm by lia.
  - destruct (AdmitView_refuses st st' worst tl v c t Hres Hrun Hprim Hc Ht Hadm) as (Hl & Hf & ->).
    rewrite Hres in *. eauto 6.
Qed.

(** Skipping a refused row keeps the invariant of having accepted it. *)
Lemma AdmitView_skip rows st st' v c t :
  1 <= maxResults request -> acc_inv rows st ->
  Forall is_unit (primaryTerm (query request)) -> same_row c v ->
  ClassifyMatch CompareStringOrdinal (name c) (primaryTerm (query request)) = Ok t ->
  AdmitView request st v = Ok (false, st') ->
  acc_inv (rows ++ [{| candidate := c; tier := t |}]) st'.
Proof.
  intros Hmax Hinv Hprim Hc Ht Hadm. set (r := {| candidate := c; tier := t |}).
  destruct (AdmitView_refused rows st st' v c t Hmax Hinv Hprim Hc Ht Hadm)
    as ((worst & tl & Hres & Hless) & Hfull & ->). destruct Hinv as [Hrun Hh Hs Htr].
  rewrite Hres in *. pose proof (heap_front less worst tl _ Hh) as Hfront. rewrite Forall_forall in Hfront.
  pose proof (selects_length _ _ _ _ Hs) as Hl.
  assert (zlen (rows ++ [r]) = zlen rows + 1) as Hrows.
  { rewrite zlen_app, zlen_cons. change (zlen (@nil SearchResult)) with 0. lia. }
  split; cbn; [done|done| |symmetry; apply Z.ltb_lt; lia].
  destruct Hs as [_ (dropped & Hp & Hb)]. split; [lia|].
  exists (r :: dropped). split.
  { rewrite <-Hp, <-app_assoc. apply Permutation_app_head, Permutation_cons_append. }
  intros d k Hd Hk. apply elem_of_cons in Hd as [->|Hd]; [|by apply Hb].
  apply less_asym in Hless; [|apply _].
  apply elem_of_cons in Hk as [->|Hk]; [done|]. apply (notless_trans r worst k); auto.
Qed.

(** ** The one-shot search is the accumulator *)

Lemma accept_core_accept c m : accept_core request c m = accept request c m false.
Proof.
  unfold accept_core, accept. destruct (MatchesWithoutFolder _ c) as [[]| |]; [|done..]. cbn [bind negb].
  destruct m as [f|];
    [|by destruct (folderNeededForEvaluation request), (candidateFilterRequiresFolder request)].
  by rewrite andb_true_r.
Qed.

Lemma add_all_cancelled m cs st : cancelled st = true -> add_all m cs st = Ok st.
Proof.
  intros Hc. induction cs as [|c cs IH]; [done|]. cbn [add_all]. unfold Add, AddImpl.
  rewrite Hc. cbn [bind]. done.
Qed.

Lemma search_loop_add_all m cs st :
  cancelled st = false ->
  search_loop request cancel cs m st =
    let* st' := add_all m cs st in Ok (Finish request st').
Proof.
  revert st. induction cs as [|c cs IH]; intros st Hrun; cbn [search_loop add_all].
  { cbn [bind]. unfold Finish. by rewrite Hrun. }
  unfold Add, AddImpl. rewrite Hrun. destruct (cancel_requested _ _ _).
  { cbn [bind]. rewrite add_all_cancelled by done. done. }
  rewrite accept_core_accept. destruct (accept request c m false) as [o| |]; [|done..]. cbn [bind].
  destruct o as [r|]; cbn [bind]; apply IH; [|done]. unfold push_result. cbv zeta.
  by repeat case_match.
Qed.

(** ** Searching views *)

(** What the enumerator of views promises: a well-formed view, and a materializer that
    returns the row of the view with well-formed strings. *)
Definition view_ok (v : CandidateView) : Prop :=
  Forall is_unit (View.name v) /\ (View.nameIsAscii v = true -> Forall is_ascii_unit (View.name v)).

Definition view_materializer_ok (m : CandidateView -> option Candidate) : Prop :=
  forall v c, m v = Some c -> same_row c v /\ row_ok c.

Definition passes_filter (c : Candidate) : bool :=
  match candidateFilter request with Some f => f c | None => true end.

(** The reference: a row is accepted when it can be materialized, passes the caller's filter,
    is in scope and matches the query, all tested on the owned candidate. *)
Definition row_of_view (m : CandidateView -> option Candidate) (v : CandidateView)
    : result (option SearchResult) :=
  match m v with
  | None => Ok None
  | Some c =>
      if passes_filter c && InScope c (scope request) (scopePath request) (persistentOnly request)
      then
        let* full := Matches (query request) c in
        if full then
          let* t := ClassifyMatch CompareStringOrdinal (name c) (primaryTerm (query request)) in
          Ok (Some {| candidate := c; tier := t |})
        else Ok None
      else Ok None
  end.

(** The row is durable wherever only durable rows are asked for. *)
Definition durable (c : Candidate) : Prop :=
  persistentOnly request = true -> persistentIndexed c = true.

(** Where no folder is needed the search decides on the view alone: the row is then durable if it has to
    be, and the host equates no part of its name outside ASCII with ASCII text. *)
Definition decided_by_view (c : Candidate) : Prop :=
  folderNeededForEvaluation request = false -> durable c /\ ordinal_plain CompareStringOrdinal (name c).

Definition row_of_bare_view (v : CandidateView) : Candidate := {|
  name := View.name v; folder := []; sizeBytes := View.sizeBytes v;
  modifiedTime := View.modifiedTime v; isDirectory := View.isDirectory v;
  createdTime := View.createdTime v; volumeId := View.volumeId v; id := View.id v;
  parentId := View.parentId v; persistentIndexed := View.persistentIndexed v;
  allocatedSizeBytes := View.allocatedSizeBytes v; allocatedSizeKnown := View.allocatedSizeKnown v
|}.

Lemma bare_view_row v : view_ok v -> same_row (row_of_bare_view v) v.
Proof. intros [Hn Ha]. by split. Qed.

(** Where no folder is needed the scope is everything. *)
Lemma InScope_all c :
  folderNeededForEvaluation request = false -> durable c ->
  InScope c (scope request) (scopePath request) (persistentOnly request) = true.
Proof.
  intros Hf Hd. unfold folderNeededForEvaluation in Hf. apply orb_false_iff in Hf as [Hs _].
  apply negb_false_iff, bool_decide_eq_true in Hs. unfold InScope. rewrite Hs.
  unfold durable in Hd. destruct (persistentOnly request); [|done]. by rewrite Hd.
Qed.

Lemma accept_view_correct m v :
  query_ok -> view_ok v -> view_materializer_ok m ->
  (forall c, m v = Some c -> decided_by_view c) ->
  accept_view request m v = row_of_view m v.
Proof.
  intros [[Hnf Hmatch] Hprim] Hv Hm Hdur. unfold accept_view, row_of_view, passes_filter.
  destruct (folderNeededForEvaluation request) eqn:Hfold.
  - destruct (m v) as [c|] eqn:Em.
    + destruct (Hm v c Em) as [Hrow Hc]. destruct (Hnf c v Hrow) as (b0 & b & _ & -> & [Hi _] & Hle0 & _).
      assert (Matches (query request) c = Ok true -> b = true) as Hle by auto. clear Hle0 Hi.
      cbn [bind]. destruct (matches_total c (conj (conj Hnf Hmatch) Hprim) Hc) as [[full Hfull] _].
      rewrite Hfull in Hle |- *. cbn [bind].
      destruct b, (candidateFilter request) as [f|]; cbn [negb];
        try destruct (f c); try destruct (InScope c _ _ _); cbn [andb orb negb]; try done;
        destruct full; try done; by specialize (Hle eq_refl).
    + destruct (Hnf _ v (bare_view_row v Hv)) as (_ & b & _ & -> & _). cbn [bind]. by destruct b.
  - assert (requiresFolder (query request) = false) as Hr.
    { unfold folderNeededForEvaluation in Hfold. by apply orb_false_iff in Hfold as [_ ?]. }
    destruct (m v) as [c|] eqn:Em.
    + destruct (Hm v c Em) as [Hrow Hc]. destruct (Hnf c v Hrow) as (b & b' & _ & _ & [_ He] & _ & Hall).
      destruct (Hdur c eq_refl Hfold) as [Hd Hplain]. destruct (He Hplain).
      destruct (Hall Hr) as [-> ->]. cbn [bind]. rewrite (InScope_all c Hfold) by auto.
      destruct b, (candidateFilter request) as [f|]; cbn [negb]; try destruct (f c); done.
    + destruct (Hnf _ v (bare_view_row v Hv)) as (b0 & b & _ & _ & _ & _ & Hall).
      destruct (Hall Hr) as [_ ->]. cbn [bind]. by destruct b.
Qed.

(** The rows a search over views accepts. *)
Fixpoint view_rows (m : CandidateView -> option Candidate) (vs : list CandidateView)
    : result (list SearchResult) :=
  match vs with
  | [] => Ok []
  | v :: vs' =>
      let* o := row_of_view m v in
      let* rest := view_rows m vs' in
      Ok (match o with Some r => r :: rest | None => rest end)
  end.

Lemma row_of_view_total m v :
  query_ok -> view_materializer_ok m -> exists o, row_of_view m v = Ok o.
Proof.
  intros Hq Hm. unfold row_of_view. destruct (m v) as [c|] eqn:Em; [|eauto].
  destruct (Hm v c Em) as [_ Hc]. destruct (_ && _); [|eauto].
  destruct (matches_total c Hq Hc) as [[b ->] _]. cbn [bind]. destruct b; [|eauto].
  rewrite ClassifyMatch_correct; [eauto|apply Hc|apply Hq].
Qed.

Lemma visit_all_inv m vs rows st :
  1 <= maxResults request -> never_cancels -> query_ok -> view_materializer_ok m ->
  Forall view_ok vs -> (forall v c, v ∈ vs -> m v = Some c -> decided_by_view c) -> acc_inv rows st ->
  exists st' rows', visit_all request cancel m vs st = Ok st' /\ view_rows m vs = Ok rows' /\
    acc_inv (rows ++ rows') st'.
Proof.
  intros Hmax Hc Hq Hm Hvs. revert rows st. induction Hvs as [|v vs Hv _ IH]; intros rows st Hd Hinv.
  { exists st, []. by rewrite app_nil_r. }
  cbn [visit_all view_rows]. destruct (row_of_view_total m v Hq Hm) as [o Ho].
  unfold visit. rewrite (acc_running _ _ Hinv), Hc.
  rewrite accept_view_correct, Ho by (auto; intros c; apply Hd; set_solver). cbn [bind].
  destruct Hinv as [Hr Hh Hs Ht].
  assert (acc_inv rows {| results := results st; cancelled := false; truncated := truncated st;
                          candidatesVisited := candidatesVisited st + 1 |}) as Hinv' by done.
  assert (forall v0 c, v0 ∈ vs -> m v0 = Some c -> decided_by_view c) as Hd'
    by (intros v0 c Hin; apply Hd; set_solver).
  destruct o as [r|]; cbn [bind].
  - destruct (IH (rows ++ [r]) _ Hd' (push_result_inv _ _ r Hmax Hinv')) as (st' & rest & -> & -> & Hst').
    exists st', (r :: rest). rewrite <-app_assoc in Hst'. done.
  - destruct (IH rows _ Hd' Hinv') as (st' & rest & -> & -> & Hst'). by exists st', rest.
Qed.
End runs.

(** ** Path reconstruction *)

Definition row_key (c : Candidate) : Z * Z := (volumeId c, id c).
Definition is_root_row (c : Candidate) : bool := (parentId c =? 0) || (parentId c =? id c).

(** The names from a root down to a row, following parents by identity. *)
Inductive chain (byId : gmap (Z * Z) Candidate) : Candidate -> list (list Z) -> Prop :=
| chain_root c : is_root_row c = true -> chain byId c [name c]
| chain_child c p segs : is_root_row c = false -> byId !! (volumeId c, parentId c) = Some p ->
    chain byId p segs -> chain byId c (segs ++ [name c]).

Lemma chain_unique byId c s s' : chain byId c s -> chain byId c s' -> s = s'.
Proof.
  intros Hc. revert s'. induction Hc as [c Hr|c p s Hr Hp _ IH]; intros s' Hs'; inversion Hs'; subst;
    try congruence. replace p0 with p in * by congruence. by rewrite (IH segs).
Qed.

Lemma chain_nonempty byId c s : chain byId c s -> (0 < length s)%nat.
Proof. destruct 1; [simpl; lia|]. rewrite length_app. simpl. lia. Qed.

Section reconstruct.
Context (entries : list Candidate).
Local Abbreviation byId := (index_by_id entries).
Local Abbreviation keys := (list_to_set (C := gset (Z * Z)) (map row_key entries)).

Lemma index_by_id_lookup_gen es k p :
  index_by_id es !! k = Some p -> p ∈ es /\ row_key p = k.
Proof.
  induction es as [|e es IH]; cbn [index_by_id foldr]; [by rewrite lookup_empty|].
  intros Hp. apply lookup_insert_Some in Hp as [[<- <-]|[_ Hp]].
  - split; [by left|done].
  - destruct (IH Hp). split; [by right|done].
Qed.

Lemma index_by_id_row es c :
  NoDup (map row_key es) -> c ∈ es -> index_by_id es !! row_key c = Some c.
Proof.
  induction es as [|e es IH]; cbn [map]; intros Hnd Hc; [by apply not_elem_of_nil in Hc|].
  apply NoDup_cons in Hnd as [Hni Hnd]. cbn [index_by_id foldr].
  apply elem_of_cons in Hc as [->|Hc]; [apply lookup_insert_eq|].
  rewrite lookup_insert_ne; [by apply IH|]. intros Heq. apply Hni. unfold row_key at 1. rewrite Heq.
  by apply (list_elem_of_fmap_2 row_key).
Qed.

Lemma keys_size : (size keys <= length entries)%nat.
Proof.
  induction entries as [|e es IH]; [done|]. cbn [map list_to_set length].
  pose proof (size_union_alt (C := gset (Z * Z)) {[row_key e]} (list_to_set (map row_key es))) as H.
  pose proof (subseteq_size (C := gset (Z * Z))
    (list_to_set (map row_key es) ∖ {[row_key e]}) (list_to_set (map row_key es)) ltac:(set_solver)).
  rewrite size_singleton in H. lia.
Qed.

Lemma row_in_keys c : c ∈ entries -> row_key c ∈ keys.
Proof. intros Hc. apply elem_of_list_to_set. by apply (list_elem_of_fmap_2 row_key). Qed.

(** The loop returns within the fuel, and what it builds ends with the segments it had. *)
Lemma reconstruct_loop_total fuel c seen segs :
  c ∈ entries -> seen ⊆ keys -> (S (length entries) <= fuel + size seen)%nat ->
  exists r, reconstruct_loop fuel byId c seen segs = Ok r /\
    (complete r = true -> exists s, chain byId c s /\ segments r = s ++ segs).
Proof.
  revert c seen segs. induction fuel as [|fuel IH]; intros c seen segs Hc Hs Hf.
  { pose proof (subseteq_size seen keys Hs). pose proof keys_size. lia. }
  cbn [reconstruct_loop]. case_bool_decide as Hin; [by eexists|].
  destruct (is_root_row c) eqn:Er; unfold is_root_row in Er; rewrite Er.
  { eexists. split; [done|]. intros _. exists [name c]. split; [by constructor|done]. }
  destruct (byId !! (volumeId c, parentId c)) as [p|] eqn:Ep; [|by eexists].
  destruct (index_by_id_lookup_gen _ _ _ Ep) as [Hp _].
  destruct (IH p ({[row_key c]} ∪ seen) (name c :: segs)) as (r & Hr & Hcomp); [done| | |].
  - pose proof (row_in_keys c Hc). set_solver.
  - rewrite size_union, size_singleton by (unfold row_key; set_solver). lia.
  - exists r. split; [done|]. intros Hdone. destruct (Hcomp Hdone) as (s & Hch & Hseg).
    exists (s ++ [name c]). split; [by apply (chain_child byId c p)|]. by rewrite <-app_assoc.
Qed.

(** With unique identities, a row that has a chain is never seen twice. *)
Lemma reconstruct_loop_complete fuel c seen segs s r :
  NoDup (map row_key entries) -> c ∈ entries -> chain byId c s ->
  (forall c', c' ∈ entries -> row_key c' ∈ seen ->
     exists s', chain byId c' s' /\ (length s < length s')%nat) ->
  reconstruct_loop fuel byId c seen segs = Ok r -> complete r = true.
Proof.
  intros Hnd. revert c seen segs s. induction fuel as [|fuel IH]; intros c seen segs s Hc Hch Hseen; [done|].
  cbn [reconstruct_loop]. case_bool_decide as Hin.
  { destruct (Hseen c Hc Hin) as (s' & Hs' & Hl). rewrite (chain_unique _ _ _ _ Hch Hs') in Hl. lia. }
  inversion Hch as [c0 Hr|c0 p s0 Hr Hp Hs0]; subst; unfold is_root_row in Hr; rewrite Hr.
  { by intros [= <-]. }
  rewrite Hp. destruct (index_by_id_lookup_gen _ _ _ Hp) as [Hpe _].
  apply (IH p _ _ s0); [done|done|]. intros c' Hc' Hin'. apply elem_of_union in Hin' as [Hk|Hin'].
  - apply elem_of_singleton in Hk. exists (s0 ++ [name c]).
    assert (c' = c) as ->.
    { pose proof (index_by_id_row entries c' Hnd Hc') as H1.
      pose proof (index_by_id_row entries c Hnd Hc) as H2. rewrite Hk in H1. unfold row_key in H1, H2.
      congruence. }
    split; [done|]. rewrite length_app. simpl. lia.
  - destruct (Hseen c' Hc' Hin') as (s' & Hs' & Hl). exists s'. split; [done|].
    rewrite length_app in Hl. simpl in Hl. lia.
Qed.
End reconstruct.

(** ** Properties *)

Lemma unit_compare_antisym l r : unit_compare l r = CompOpp (unit_compare r l).
Proof.
  revert r. induction l as [|x l IH]; intros [|y r]; simpl; try done.
  rewrite (Z.compare_antisym y x). destruct (Z.compare y x); simpl; auto.
Qed.

Lemma unit_compare_trans x y z :
  unit_compare x y <> Gt -> unit_compare y z <> Gt -> unit_compare x z <> Gt.
Proof.
  revert y z. induction x as [|a x IH]; intros [|b y] [|c z]; simpl; try done.
  destruct (Z.compare_spec a b), (Z.compare_spec b c), (Z.compare_spec a c); try done; try lia; eauto.
Qed.

#[export] Instance ascii_ordinal_order : OrdinalOrder ascii_ordinal.
Proof.
  split; unfold ascii_ordinal.
  - intros l r. rewrite (unit_compare_antisym (FoldAscii16 r) (FoldAscii16 l)).
    by destruct (unit_compare _ _).
  - intros x y z Hxy Hyz.
    assert (unit_compare (FoldAscii16 x) (FoldAscii16 z) <> Gt) as Hxz.
    { apply (unit_compare_trans _ (FoldAscii16 y)).
      - by destruct (unit_compare (FoldAscii16 x) (FoldAscii16 y)).
      - by destruct (unit_compare (FoldAscii16 y) (FoldAscii16 z)). }
    destruct (unit_compare (FoldAscii16 x) (FoldAscii16 z)); unfold CSTR_EQUAL; (done || lia).
Qed.

(** C13. A bounded search keeps exactly the best rows: for a parsed query, well-formed rows and
    no cancellation, feeding any rows to the accumulator succeeds, and finishing it returns,
    sorted by the requested order, a selection of the [maxResults] best of all the rows that
    pass every test, none of the dropped rows being better than a kept one; the truncated
    flag is set exactly when rows were dropped. *)
Theorem accumulator_keeps_top_n `{HP : Platform} `{!PlatformLaws}
    `{!OrdinalOrder CompareStringOrdinal} `{PP : PathPlatform} `{SL : StdLaws SearchResult}
    request cancel m cs :
  query_ok request -> materializer_ok m -> Forall row_ok cs ->
  1 <= maxResults request -> never_cancels request cancel ->
  exists rows st, accepted_rows request m cs = Ok rows /\
    add_all request cancel m cs empty_response = Ok st /\
    top_n (request_less request) (maxResults request) rows (results (Finish request st)) /\
    cancelled (Finish request st) = false /\
    truncated (Finish request st) = (maxResults request <? zlen rows) /\
    candidatesVisited (Finish request st) = zlen cs.
Proof.
  intros Hq Hm Hcs Hmax Hc. destruct (accepted_rows_total request m cs Hq Hm Hcs) as [rows Hrows].
  destruct (add_all_inv request cancel m cs [] empty_response rows Hmax Hc) as (st & Hst & Hinv & Hv);
    [apply empty_acc_inv; lia|done|].
  exists rows, st. split; [done|]. split; [done|].
  destruct (Finish_top_n request rows st Hinv) as (Htop & Hcanc & Htr & Hvis).
  rewrite Hvis, Hv. auto.
Qed.

(** Two rows, a bound of one, sorted by descending size. *)
Definition sample_request (q : Query) : SearchRequest := {|
  query := q; scope := AllIndexedLocations; scopePath := []; sortField := SortField.Size;
  descending := true; chunkSize := 1024; maxResults := 1; persistentOnly := false;
  candidateFilter := None; candidateFilterRequiresFolder := false
|}.
Definition small_row : Candidate := {|
  name := L "other port.txt"; folder := L "C:\x"; sizeBytes := 3; modifiedTime := 5;
  isDirectory := false; createdTime := 1; volumeId := 67; id := 10; parentId := 5;
  persistentIndexed := true; allocatedSizeBytes := 4096; allocatedSizeKnown := true
|}.

Lemma sample_rows_ok : Forall row_ok [small_row; sample_row].
Proof.
  repeat (apply Forall_cons; split; [split; solve_wide_literal|]). by apply Forall_nil.
Qed.

Lemma accumulator_keeps_top_n_witness :
  exists q rows st,
    @ParseQuery test_platform (L "port") (@WithDefaults test_platform) = Ok q /\
    add_all (HP := test_platform) (PP := test_paths) (sample_request q) None None
      [small_row; sample_row] empty_response = Ok st /\
    top_n (request_less (HP := test_platform) (sample_request q)) 1 rows
      (results (Finish (HP := test_platform) (sample_request q) st)).
Proof.
  destruct (@ParseQuery_correct test_platform test_platform_laws (L "port"))
    as (q & Hq & _ & Hprim & Hag); [solve_wide_literal|].
  destruct (@accumulator_keeps_top_n test_platform test_platform_laws ascii_ordinal_order test_paths
    _ (sorted_vector_laws SearchResult) (sample_request q) None None [small_row; sample_row])
    as (rows & st & _ & Hst & Htop & _).
  - exact (conj Hag Hprim).
  - exact I.
  - exact sample_rows_ok.
  - vm_compute. discriminate.
  - intros v. unfold cancel_requested. apply andb_false_r.
  - exists q, rows, st. auto.
Defined.

(** The bounded result does not depend on the order in which rows are enumerated: when the
    result order tells the accepted rows apart, two enumerations of the same rows give the
    same list of results. *)
Theorem search_order_independent `{HP : Platform} `{!PlatformLaws}
    `{!OrdinalOrder CompareStringOrdinal} `{PP : PathPlatform} `{SL : StdLaws SearchResult}
    request cancel m cs cs' rows :
  query_ok request -> materializer_ok m -> Forall row_ok cs -> cs ≡ₚ cs' ->
  1 <= maxResults request -> never_cancels request cancel ->
  accepted_rows request m cs = Ok rows -> separates (request_less request) rows ->
  exists st st', add_all request cancel m cs empty_response = Ok st /\
    add_all request cancel m cs' empty_response = Ok st' /\
    results (Finish request st) = results (Finish request st').
Proof.
  intros Hq Hm Hcs Hp Hmax Hc Hrows Hsep.
  destruct (accepted_rows_perm request m cs cs' rows Hp Hrows) as (rows' & Hrows' & Hpr).
  destruct (add_all_inv request cancel m cs [] empty_response rows Hmax Hc) as (st & Hst & Hinv & _);
    [apply empty_acc_inv; lia|done|].
  destruct (add_all_inv request cancel m cs' [] empty_response rows' Hmax Hc) as (st' & Hst' & Hinv' & _);
    [apply empty_acc_inv; lia|done|].
  exists st, st'. split; [done|]. split; [done|].
  apply (top_n_unique (request_less request) (maxResults request) rows rows' _ _ Hsep Hpr).
  - by destruct (Finish_top_n request rows st Hinv).
  - by destruct (Finish_top_n request rows' st' Hinv').
Qed.

Lemma search_order_independent_witness :
  exists st st',
    add_all (HP := test_platform) (PP := test_paths) (sample_request empty_query) None None
      [small_row; sample_row] empty_response = Ok st /\
    add_all (HP := test_platform) (PP := test_paths) (sample_request empty_query) None None
      [sample_row; small_row] empty_response = Ok st' /\
    results (Finish (HP := test_platform) (sample_request empty_query) st) =
      results (Finish (HP := test_platform) (sample_request empty_query) st').
Proof.
  apply (@search_order_independent test_platform test_platform_laws ascii_ordinal_order test_paths
    _ (sorted_vector_laws SearchResult) (sample_request empty_query) None None [small_row; sample_row]
    [sample_row; small_row]
    [{| candidate := small_row; tier := Substring |}; {| candidate := sample_row; tier := Substring |}]).
  - split; [exact (query_inv_matchers_agree empty_query [] empty_query_inv)|constructor].
  - exact I.
  - exact sample_rows_ok.
  - constructor.
  - vm_compute. discriminate.
  - intros v. unfold cancel_requested. apply andb_false_r.
  - vm_compute. reflexivity.
  - intros x y Hx Hy. apply elem_of_cons in Hx as [Hx|Hx]; apply elem_of_cons in Hy as [Hy|Hy];
      rewrite ?list_elem_of_singleton in Hx; rewrite ?list_elem_of_singleton in Hy;
      rewrite Hx, Hy; vm_compute; (reflexivity || discriminate).
Defined.

(** C33. Refusing a view is sound: after any accepted rows, when [AdmitView] refuses a view while
    the search is running, the retained rows are still a selection of the best of the rows so
    far together with the row of the view, and the truncated flag says so; skipping the row is
    therefore as good as adding it. *)
Theorem AdmitView_sound `{HP : Platform} `{!PlatformLaws}
    `{!OrdinalOrder CompareStringOrdinal} `{PP : PathPlatform} `{SL : StdLaws SearchResult}
    request rows st st' v c :
  query_ok request -> 1 <= maxResults request -> acc_inv request rows st ->
  same_row c v -> AdmitView request st v = Ok (false, st') ->
  exists t, ClassifyMatch CompareStringOrdinal (name c) (primaryTerm (query request)) = Ok t /\
    results st' = results st /\ truncated st' = true /\
    selects (request_less request) (maxResults request)
      (rows ++ [{| candidate := c; tier := t |}]) (results st').
Proof.
  intros [_ Hprim] Hmax Hinv Hrow Hadm.
  eexists. split; [apply ClassifyMatch_correct; [apply Hrow|done]|].
  set (t := tier_spec _ _ _).
  assert (acc_inv request (rows ++ [{| candidate := c; tier := t |}]) st') as [_ _ Hs _].
  { apply (AdmitView_skip request rows st st' v c t); [done|done|done|done| |done].
    apply ClassifyMatch_correct; [apply Hrow|done]. }
  destruct (AdmitView_refused request rows st st' v c t Hmax Hinv Hprim Hrow) as (_ & _ & ->);
    [apply ClassifyMatch_correct; [apply Hrow|done]|done|]. done.
Qed.

(** A one-row result set whose row is larger than [small_row]. *)
Definition sample_state : SearchResponse := {|
  results := [{| candidate := sample_row; tier := Substring |}]; cancelled := false;
  truncated := false; candidatesVisited := 1
|}.

Definition refused_state : SearchResponse := {|
  results := results sample_state; cancelled := false; truncated := true; candidatesVisited := 1
|}.

Lemma AdmitView_sound_witness :
  exists q t, @ParseQuery test_platform (L "port") (@WithDefaults test_platform) = Ok q /\
    AdmitView (HP := test_platform) (sample_request q) sample_state (view_of small_row) =
      Ok (false, refused_state) /\
    selects (request_less (HP := test_platform) (sample_request q)) 1
      (results sample_state ++ [{| candidate := small_row; tier := t |}]) (results refused_state).
Proof.
  destruct (@ParseQuery test_platform (L "port") (@WithDefaults test_platform)) as [q| |] eqn:Hq;
    [|vm_compute in Hq; discriminate..].
  destruct (@ParseQuery_correct test_platform test_platform_laws (L "port"))
    as (q' & Hq' & _ & Hprim & Hag); [solve_wide_literal|].
  rewrite Hq in Hq'. injection Hq' as <-.
  assert (AdmitView (HP := test_platform) (sample_request q) sample_state (view_of small_row) =
    Ok (false, refused_state)) as Hadm.
  { clear Hprim Hag. vm_compute in Hq. injection Hq as <-. vm_compute. reflexivity. }
  destruct (@AdmitView_sound test_platform test_platform_laws ascii_ordinal_order test_paths
    _ (sorted_vector_laws SearchResult) (sample_request q) (results sample_state) sample_state refused_state
    (view_of small_row) small_row (conj Hag Hprim) ltac:(vm_compute; discriminate)) as (t & _ & _ & _ & Hs);
    [| |exact Hadm|].
  - split; [reflexivity|apply SSorted_cons; [constructor|constructor]| |reflexivity].
    apply selects_all; [vm_compute; discriminate|reflexivity].
  - apply view_of_corresponds. split; solve_wide_literal.
  - exists q, t. split; [reflexivity|]. split; [exact Hadm|exact Hs].
Defined.

(** The one-shot searches are the accumulator: with or without a materializer, under any
    cancellation behaviour, searching a list of candidates returns (or faults) exactly as
    adding them one by one to an accumulator and finishing it. *)
Theorem ExecuteSearch_is_accumulator `{HP : Platform} `{PP : PathPlatform}
    `{SA : StdAlgorithms SearchResult} request cancel cs materialize :
  ExecuteSearch request cancel cs =
    (let* st := add_all request cancel None cs empty_response in Ok (Finish request st)) /\
  ExecuteSearchLazy request cancel cs materialize =
    (let* st := add_all request cancel (Some materialize) cs empty_response in
     Ok (Finish request st)).
Proof. split; by apply search_loop_add_all. Qed.

(** C30. A search over views returns the top rows of the reference definition, which tests the
    caller's filter, the scope and the query on the materialized candidate: evaluating the
    query on the view, or prefiltering with it, neither adds nor loses a row.  Where no folder is
    needed, and the view alone decides, this is for rows that are durable if only durable
    rows are asked for, and in whose names the host equates nothing outside ASCII with ASCII text
    (as in every ASCII name). *)
Theorem ExecuteSearchViews_correct `{HP : Platform} `{!PlatformLaws}
    `{!OrdinalOrder CompareStringOrdinal} `{PP : PathPlatform} `{SL : StdLaws SearchResult}
    request cancel vs m :
  viewCompatible (query request) = true -> query_ok request -> view_materializer_ok m ->
  Forall view_ok vs -> (forall v c, v ∈ vs -> m v = Some c -> decided_by_view request c) ->
  1 <= maxResults request -> never_cancels request cancel ->
  exists rows res, view_rows request m vs = Ok rows /\
    ExecuteSearchViews request cancel vs m = Ok res /\
    top_n (request_less request) (maxResults request) rows (results res) /\
    truncated res = (maxResults request <? zlen rows).
Proof.
  intros Hcompat Hq Hm Hvs Hd Hmax Hc.
  destruct (visit_all_inv request cancel m vs [] empty_response Hmax Hc Hq Hm Hvs Hd)
    as (st & rows & Hst & Hrows & Hinv); [apply empty_acc_inv; lia|].
  exists rows, (Finish request st). split; [done|].
  destruct (Finish_top_n request rows st Hinv) as (Htop & _ & Htr & _). split; [|done].
  unfold ExecuteSearchViews. rewrite Hcompat, Hst. cbn [negb bind]. unfold Finish.
  by rewrite (acc_running _ _ _ Hinv).
Qed.

(** Materializes the views that show [small_row]. *)
Definition sample_materialize (v : CandidateView) : option Candidate :=
  if bool_decide (View.name v = name small_row /\ View.sizeBytes v = 3 /\
       View.modifiedTime v = 5 /\ View.isDirectory v = false /\ View.createdTime v = 1 /\
       View.allocatedSizeBytes v = 4096 /\ View.allocatedSizeKnown v = true)
  then Some small_row else None.

Lemma ExecuteSearchViews_correct_witness :
  exists q rows res, @ParseQuery test_platform (L "port") (@WithDefaults test_platform) = Ok q /\
    ExecuteSearchViews (HP := test_platform) (PP := test_paths) (sample_request q) None
      [view_of small_row] sample_materialize = Ok res /\
    top_n (request_less (HP := test_platform) (sample_request q)) 1 rows (results res).
Proof.
  destruct (@ParseQuery_correct test_platform test_platform_laws (L "port"))
    as (q & Hq & Hcompat & Hprim & Hag); [solve_wide_literal|].
  assert (row_ok small_row) as Hrow by (split; solve_wide_literal).
  destruct (@ExecuteSearchViews_correct test_platform test_platform_laws ascii_ordinal_order test_paths
    _ (sorted_vector_laws SearchResult) (sample_request q) None [view_of small_row]
    sample_materialize)
    as (rows & res & Hrows & Hres & Htop & _).
  - exact Hcompat.
  - exact (conj Hag Hprim).
  - intros v c Hv. unfold sample_materialize in Hv. case_bool_decide as Hd; [|discriminate].
    injection Hv as <-. destruct Hd as (Hn & Hs & Hmo & Hdir & Hcr & Hal & Hk). split; [|exact Hrow].
    split; try assumption; [apply Hrow|]. intros _. solve_wide_literal.
  - apply Forall_cons. split; [|by apply Forall_nil]. split; [apply Hrow|intros _; solve_wide_literal].
  - intros v c _ Hv _. split; [intros Hp; discriminate Hp|].
    unfold sample_materialize in Hv. case_bool_decide; [|discriminate]. injection Hv as <-.
    apply ordinal_plain_ascii. solve_wide_literal.
  - vm_compute. discriminate.
  - intros v. unfold cancel_requested. apply andb_false_r.
  - exists q, rows, res. split; [exact Hq|]. split; [exact Hres|exact Htop].
Defined.

(** Where no folder is needed, the view search does not test durability: a request for
    durable rows only accepts a matching row that is not durable, which the accumulator and
    the reference reject. *)
Theorem ExecuteSearchViews_ignores_persistentOnly `{HP : Platform} `{PP : PathPlatform}
    `{SA : StdAlgorithms SearchResult} request m v c t :
  folderNeededForEvaluation request = false -> persistentOnly request = true ->
  candidateFilter request = None -> persistentIndexed c = false ->
  MatchesView (query request) v = Ok true -> m v = Some c ->
  ClassifyMatch CompareStringOrdinal (name c) (primaryTerm (query request)) = Ok t ->
  accept_view request m v = Ok (Some {| candidate := c; tier := t |}) /\
  row_of_view request m v = Ok None.
Proof.
  intros Hf Hp Hcf Hpi Hm Hmv Ht. unfold accept_view, row_of_view, passes_filter.
  rewrite Hf, Hm, Hmv, Hcf, Ht. cbn [bind negb]. split; [done|].
  unfold InScope. rewrite Hp, Hpi. done.
Qed.

Definition volatile_row : Candidate := {|
  name := L "report"; folder := []; sizeBytes := 3; modifiedTime := 5; isDirectory := false;
  createdTime := 1; volumeId := 67; id := 11; parentId := 5; persistentIndexed := false;
  allocatedSizeBytes := 0; allocatedSizeKnown := false
|}.
Definition durable_request : SearchRequest := {|
  query := empty_query; scope := AllIndexedLocations; scopePath := []; sortField := SortField.Size;
  descending := true; chunkSize := 1024; maxResults := 1; persistentOnly := true;
  candidateFilter := None; candidateFilterRequiresFolder := false
|}.

Lemma ExecuteSearchViews_ignores_persistentOnly_witness :
  accept_view (HP := test_platform) (PP := test_paths) durable_request
    (fun _ => Some volatile_row) (view_of volatile_row) =
    Ok (Some {| candidate := volatile_row; tier := Substring |}) /\
  row_of_view (HP := test_platform) (PP := test_paths) durable_request
    (fun _ => Some volatile_row) (view_of volatile_row) = Ok None.
Proof.
  exact (@ExecuteSearchViews_ignores_persistentOnly test_platform test_paths (sorted_vector SearchResult)
    durable_request (fun _ => Some volatile_row) (view_of volatile_row) volatile_row Substring
    eq_refl eq_refl eq_refl eq_refl eq_refl eq_refl eq_refl).
Defined.

(** Rebuilding a path always returns, whatever cycles or missing parents the entries hold;
    a path reported complete is the chain of names from a root down to the entry, and with
    unique identities every entry that has such a chain is reported complete. *)
Theorem ReconstructPath_correct entries i c :
  entries !! i = Some c ->
  exists r, ReconstructPath entries i = Ok r /\
    (complete r = true -> chain (index_by_id entries) c (segments r)) /\
    (NoDup (map row_key entries) -> forall s, chain (index_by_id entries) c s ->
       complete r = true /\ segments r = s).
Proof.
  intros Hi. unfold ReconstructPath. rewrite Hi. apply list_elem_of_lookup_2 in Hi as Hc.
  destruct (reconstruct_loop_total entries (S (length entries)) c ∅ []) as (r & Hr & Hcomp);
    [done|set_solver|lia|].
  assert (complete r = true -> chain (index_by_id entries) c (segments r)) as Hchain.
  { intros Hdone. destruct (Hcomp Hdone) as (s & Hs & ->). by rewrite app_nil_r. }
  exists r. split; [done|]. split; [done|]. intros Hnd s Hs.
  assert (complete r = true) as Hdone.
  { apply (reconstruct_loop_complete entries (S (length entries)) c ∅ [] s r); [done..| |done].
    intros c' _ Hin. set_solver. }
  split; [done|]. by apply (chain_unique _ _ _ _ (Hchain Hdone)).
Qed.

Definition folder_row : Candidate := {|
  name := L "docs"; folder := []; sizeBytes := 0; modifiedTime := 5; isDirectory := true;
  createdTime := 1; volumeId := 67; id := 5; parentId := 5; persistentIndexed := true;
  allocatedSizeBytes := 0; allocatedSizeKnown := false
|}.

Lemma ReconstructPath_correct_witness :
  exists r, ReconstructPath [sample_row; folder_row] 0 = Ok r /\
    (complete r = true -> chain (index_by_id [sample_row; folder_row]) sample_row (segments r)) /\
    segments r = [L "docs"; L "Report.TXT"].
Proof.
  destruct (ReconstructPath_correct [sample_row; folder_row] 0 sample_row eq_refl)
    as (r & Hr & Hchain & Hall).
  exists r. split; [exact Hr|]. split; [exact Hchain|].
  refine (proj2 (Hall _ [L "docs"; L "Report.TXT"] _)).
  - apply NoDup_cons. split; [|apply NoDup_singleton].
    intros Hin. apply list_elem_of_singleton in Hin. discriminate Hin.
  - exact (chain_child (index_by_id [sample_row; folder_row]) sample_row folder_row [L "docs"]
      eq_refl eq_refl (chain_root _ folder_row eq_refl)).
Defined.
