(* ===== verification/Rules.v ===== *)
(** * Rules: which paths of a volume are indexed

    Models [DirectoryRule], [VolumeSetting] and [IsPathIncluded] of
    [src/src/protocol/include/ffprotocol/Settings.h] and [src/src/protocol/src/Settings.cpp], and
    [VolumeSettingsEqual] of [src/src/engine/src/IndexPipeline.cpp].  [towlower], through which
    [_wcsnicmp] ignores case, is a parameter. *)

From S2P Require Import Prelude TextMatch.

Record DirectoryRule := mkRule { rule_path : list Z; include : bool }.

Record VolumeSetting := mkSetting { key : list Z; enabled : bool; rules : list DirectoryRule }.

#[export] Instance DirectoryRule_eq_dec : EqDecision DirectoryRule.
Proof. solve_decision. Defined.

Section rules.
Context (towlower : Z -> Z).

(** The first unit of a C string: the terminator after its last. *)
Definition c_unit (s : list Z) : Z := default 0 (head s).

(** [_wcsnicmp (a, b, n) == 0]. *)
Fixpoint wcsnicmp_equal (a b : list Z) (n : nat) : bool :=
  match n with
  | O => true
  | S n =>
      (towlower (c_unit a) =? towlower (c_unit b)) && ((c_unit a =? 0) || wcsnicmp_equal (tail a) (tail b) n)
  end.

Definition rule_matches (rule : DirectoryRule) (canonicalPath : list Z) : bool :=
  (zlen (rule_path rule) <=? zlen canonicalPath) &&
  wcsnicmp_equal canonicalPath (rule_path rule) (length (rule_path rule)).

(** The loop over the rules, with [longest] and [included]. *)
Fixpoint scan_rules (rs : list DirectoryRule) (canonicalPath : list Z) (longest : Z) (included : bool) : bool :=
  match rs with
  | [] => included
  | rule :: rest =>
      if rule_matches rule canonicalPath && (longest <=? zlen (rule_path rule))
      then scan_rules rest canonicalPath (zlen (rule_path rule)) (include rule)
      else scan_rules rest canonicalPath longest included
  end.

Definition IsPathIncluded (volume : VolumeSetting) (canonicalPath : list Z) : bool :=
  scan_rules (rules volume) canonicalPath 0 (enabled volume).
End rules.

(** The loop over two rule lists of the same length. *)
Fixpoint rules_equal (ls rs : list DirectoryRule) : bool :=
  match ls, rs with
  | l :: ls, r :: rs =>
      bool_decide (rule_path l = rule_path r) && Bool.eqb (include l) (include r) && rules_equal ls rs
  | _, _ => true
  end.

Definition VolumeSettingsEqual (l r : VolumeSetting) : bool :=
  if negb (bool_decide (key l = key r)) || negb (Bool.eqb (enabled l) (enabled r)) ||
     negb (length (rules l) =? length (rules r))%nat
  then false
  else rules_equal (rules l) (rules r).

(** ** Facts *)

Lemma rules_equal_iff ls rs : length ls = length rs -> rules_equal ls rs = true <-> ls = rs.
Proof.
  revert rs. induction ls as [|[p i] ls IH]; intros [|[p' i'] rs] Hlen; cbn in *; try done.
  rewrite !andb_true_iff, bool_decide_eq_true, eqb_true_iff, IH by lia. naive_solver.
Qed.

Lemma VolumeSettingsEqual_iff l r : VolumeSettingsEqual l r = true <-> l = r.
Proof.
  unfold VolumeSettingsEqual. destruct l as [k e rs], r as [k' e' rs']. cbn.
  destruct (bool_decide_reflect (k = k')) as [->|]; cbn [negb orb]; [|naive_solver].
  destruct (Bool.eqb_spec e e') as [->|]; cbn [negb orb]; [|naive_solver].
  destruct (Nat.eqb_spec (length rs) (length rs')) as [E|E]; cbn [negb orb]; [|naive_solver].
  rewrite rules_equal_iff by done. naive_solver.
Qed.

Section facts.
Context (towlower : Z -> Z).
Notation matches := (rule_matches towlower).

(** [rule] decides the path: it matches, nothing before it that matches is longer, and what
    matches after it is shorter. *)
Definition decides (before : list DirectoryRule) (rule : DirectoryRule) (after : list DirectoryRule) (path : list Z) : Prop :=
  matches rule path = true /\
  (forall r, r ∈ before -> matches r path = true -> zlen (rule_path r) <= zlen (rule_path rule)) /\
  (forall r, r ∈ after -> matches r path = true -> zlen (rule_path r) < zlen (rule_path rule)).

Lemma scan_rules_skip rs path longest included :
  (forall r, r ∈ rs -> matches r path = true -> zlen (rule_path r) < longest) ->
  scan_rules towlower rs path longest included = included.
Proof.
  induction rs as [|r rs IH]; intros Hall; cbn [scan_rules]; [done|].
  destruct (matches r path) eqn:E; cbn [andb]; [|apply IH; set_solver].
  destruct (Z.leb_spec longest (zlen (rule_path r))); [|apply IH; set_solver].
  exfalso. assert (zlen (rule_path r) < longest) by (apply Hall; [set_solver|done]). lia.
Qed.

Lemma scan_rules_decides before rule after path longest included :
  decides before rule after path -> longest <= zlen (rule_path rule) ->
  scan_rules towlower (before ++ rule :: after) path longest included = include rule.
Proof.
  revert longest included. induction before as [|r before IH]; intros longest included (Hm & Hb & Ha) Hle; cbn [app scan_rules].
  - rewrite Hm. cbn [andb]. rewrite (proj2 (Z.leb_le _ _) Hle). by apply scan_rules_skip.
  - assert (decides before rule after path) as Hd by (split; [done|]; set_solver).
    destruct (matches r path) eqn:E; cbn [andb]; [|by apply IH].
    destruct (Z.leb_spec longest (zlen (rule_path r))); apply IH; try done. apply Hb; [set_solver|done].
Qed.

(** The rules either contain a deciding one or none that matches. *)
Lemma decides_exists rs path :
  (forall r, r ∈ rs -> matches r path = false) \/ exists before rule after, rs = before ++ rule :: after /\ decides before rule after path.
Proof.
  induction rs as [|r rs IH]; [left; set_solver|].
  destruct IH as [Hnone|(before & rule & after & -> & Hm & Hb & Ha)].
  - destruct (matches r path) eqn:E; [right|left; set_solver]. exists [], r, rs. split; [done|]. split; [done|].
    split; [set_solver|]. intros r' Hin. by rewrite Hnone.
  - right. destruct (decide (matches r path = true /\ zlen (rule_path rule) < zlen (rule_path r))) as [[E Hlt]|Hn].
    + exists [], r, (before ++ rule :: after). split; [done|]. split; [done|]. split; [set_solver|].
      intros r' [Hin|[->|Hin]%elem_of_cons]%elem_of_app Hm'; [specialize (Hb r' Hin Hm')| |specialize (Ha r' Hin Hm')]; lia.
    + exists (r :: before), rule, after. split; [done|]. split; [done|]. split; [|done].
      intros r' [->|Hin]%elem_of_cons Hm'; [|by apply Hb]. destruct (Z.le_gt_cases (zlen (rule_path r)) (zlen (rule_path rule))); [done|].
      exfalso. apply Hn. split; [done|lia].
Qed.

Lemma scan_rules_none rs path longest included :
  (forall r, r ∈ rs -> matches r path = false) -> scan_rules towlower rs path longest included = included.
Proof. intros H. apply scan_rules_skip. intros r Hin E. by rewrite H in E. Qed.
End facts.

(** ** Properties *)

(** The longest rule whose path is a prefix of the path, up to case, decides whether a path is
    indexed, the last of several of that length; without one the switch of the volume does. *)
Theorem IsPathIncluded_longest towlower volume path :
  (forall r, r ∈ rules volume -> rule_matches towlower r path = false) /\
    IsPathIncluded towlower volume path = enabled volume \/
  exists before rule after, rules volume = before ++ rule :: after /\ decides towlower before rule after path /\
    IsPathIncluded towlower volume path = include rule.
Proof.
  unfold IsPathIncluded. destruct (decides_exists towlower (rules volume) path) as [Hnone|(before & rule & after & E & Hd)].
  - left. split; [done|]. by apply scan_rules_none.
  - right. exists before, rule, after. split; [done|]. split; [done|]. rewrite E. apply scan_rules_decides; [done|apply zlen_nonneg].
Qed.

(** A rule for a folder also decides the paths of its siblings whose names begin with the
    folder's name: the match is on characters, not on path components. *)
Theorem IsPathIncluded_sibling towlower folder suffix on :
  folder <> [] -> Forall (fun u => u <> 0) folder ->
  IsPathIncluded towlower (mkSetting [] on [mkRule folder (negb on)]) (folder ++ suffix) = negb on.
Proof.
  intros Hf H0. unfold IsPathIncluded. cbn [rules scan_rules rule_path include enabled].
  assert (rule_matches towlower (mkRule folder (negb on)) (folder ++ suffix) = true) as ->; [|].
  - unfold rule_matches. cbn [rule_path]. rewrite zlen_app. pose proof (zlen_nonneg suffix).
    rewrite (proj2 (Z.leb_le _ _)) by lia. cbn [andb]. clear Hf H. induction H0 as [|u folder Hu H0 IH]; [done|].
    cbn [app length wcsnicmp_equal c_unit head default tail]. by rewrite Z.eqb_refl, IH, orb_true_r.
  - cbn [andb]. by rewrite (proj2 (Z.leb_le _ _) (zlen_nonneg _)).
Qed.

Lemma IsPathIncluded_sibling_witness :
  IsPathIncluded FoldAscii16Char (mkSetting [67; 58] true [mkRule [67; 58; 92; 87] true; mkRule [67; 58; 92; 119; 92; 80] false])
    [67; 58; 92; 87; 92; 112; 92; 110] = false /\
  IsPathIncluded FoldAscii16Char (mkSetting [] true [mkRule [67; 58; 92; 87] false]) ([67; 58; 92; 87] ++ [115]) = false.
Proof.
  split; [reflexivity|]. refine (IsPathIncluded_sibling FoldAscii16Char [67; 58; 92; 87] [115] true _ _); [done|].
  repeat constructor; lia.
Defined.
