(* ===== verification/Utf8.v ===== *)
(** * Utf8: the name encoding of the durable store

    Models [Utf16ToUtf8] and [Utf8ToUtf16] of [src/src/indexstore/src/Store.cpp]: file names
    are written to SQLite as bytes and read back as UTF-16 code units.  A code unit is a [Z]
    below 65536, a byte a [Z] below 256.  The decoder works on the bytes that are left; it
    drops at least one of them in every iteration, so the number of bytes is enough fuel. *)

From S2P Require Import Prelude TextMatch.

(** ** Encoding *)

Definition is_high_surrogate (u : Z) : bool := (55296 <=? u) && (u <=? 56319).
Definition is_low_surrogate (u : Z) : bool := (56320 <=? u) && (u <=? 57343).

Definition combine_surrogates (high low : Z) : Z :=
  65536 + Z.shiftl (high - 55296) 10 + (low - 56320).

(** A continuation byte: the six bits of [codepoint] from bit [shift] on. *)
Definition continuation_byte (codepoint shift : Z) : Z :=
  Z.lor 128 (Z.land (Z.shiftr codepoint shift) 63).

Definition encode_point (codepoint : Z) : list Z :=
  if codepoint <=? 127 then [codepoint]
  else if codepoint <=? 2047
  then [Z.lor 192 (Z.shiftr codepoint 6); continuation_byte codepoint 0]
  else if codepoint <=? 65535
  then [Z.lor 224 (Z.shiftr codepoint 12); continuation_byte codepoint 6; continuation_byte codepoint 0]
  else [Z.lor 240 (Z.shiftr codepoint 18); continuation_byte codepoint 12; continuation_byte codepoint 6;
        continuation_byte codepoint 0].

(** The loop: a high surrogate takes the low surrogate after it; one that stands alone is
    encoded as it is. *)
Fixpoint utf8_units (units : list Z) : list Z :=
  match units with
  | [] => []
  | u :: rest =>
      match rest with
      | low :: rest' =>
          if is_high_surrogate u && is_low_surrogate low
          then encode_point (combine_surrogates u low) ++ utf8_units rest'
          else encode_point u ++ utf8_units rest
      | [] => encode_point u
      end
  end.

Definition Utf16ToUtf8 (units : list Z) : list Z :=
  if IsAscii units then units else utf8_units units.

(** ** Decoding *)

(** The payload of a leading byte and the number of continuation bytes; [None] for a byte
    that cannot lead. *)
Definition leading_byte (b0 : Z) : option (Z * nat) :=
  if b0 <? 128 then Some (b0, 0%nat)
  else if Z.land b0 224 =? 192 then Some (Z.land b0 31, 1%nat)
  else if Z.land b0 240 =? 224 then Some (Z.land b0 15, 2%nat)
  else if Z.land b0 248 =? 240 then Some (Z.land b0 7, 3%nat)
  else None.

(** The [for] over the continuation bytes; [None] when one of them is not [10xxxxxx]. *)
Fixpoint continue_point (extra : nat) (bytes : list Z) (codepoint : Z) : option Z :=
  match extra, bytes with
  | O, _ => Some codepoint
  | S extra, cont :: rest =>
      if Z.land cont 192 =? 128
      then continue_point extra rest (Z.lor (Z.shiftl codepoint 6) (Z.land cont 63))
      else None
  | S _, [] => None
  end.

Definition point_units (codepoint : Z) : list Z :=
  if codepoint <=? 65535 then [codepoint]
  else [55296 + Z.shiftr (codepoint - 65536) 10; 56320 + Z.land (codepoint - 65536) 1023].

Fixpoint utf8_decode (fuel : nat) (bytes : list Z) : list Z :=
  match fuel, bytes with
  | S fuel, b0 :: rest =>
      match leading_byte b0 with
      | None => utf8_decode fuel rest
      | Some (payload, extra) =>
          if (length rest <? extra)%nat then []
          else
            match continue_point extra rest payload with
            | None => utf8_decode fuel (drop extra rest)
            | Some codepoint => point_units codepoint ++ utf8_decode fuel (drop extra rest)
            end
      end
  | _, _ => []
  end.

Definition Utf8ToUtf16 (bytes : list Z) : list Z :=
  if forallb (fun b => b <? 128) bytes then bytes else utf8_decode (length bytes) bytes.

(** ** The round trip *)

(** Every value below [2 ^ n] satisfies [P] when a computation over them says so. *)
Lemma below_forall n (P : Z -> bool) x :
  forallb P (Z.of_nat <$> seq 0 n) = true -> 0 <= x < Z.of_nat n -> P x = true.
Proof.
  intros H Hx. rewrite forallb_forall in H. apply H, list_elem_of_In, list_elem_of_fmap.
  exists (Z.to_nat x). split; [lia|]. apply elem_of_seq. lia.
Qed.

(** What the decoder sees in a byte [tag + x]. *)
Lemma continuation_bits x : 0 <= x < 64 -> Z.land (Z.lor 128 x) 192 = 128 /\ Z.land (Z.lor 128 x) 63 = x /\ 128 <= Z.lor 128 x.
Proof.
  intros Hx. pose proof (below_forall 64 (fun x => (Z.land (Z.lor 128 x) 192 =? 128) && (Z.land (Z.lor 128 x) 63 =? x) && (128 <=? Z.lor 128 x))
    x ltac:(vm_compute; reflexivity) ltac:(lia)) as H. cbn beta in H. bool_prop. auto.
Qed.

Definition leads (tag : Z) (extra : nat) (x : Z) : bool :=
  match leading_byte (Z.lor tag x) with Some (y, n) => (y =? x) && (n =? extra)%nat | None => false end.

Lemma lead_bits tag extra n x :
  forallb (leads tag extra) (Z.of_nat <$> seq 0 n) = true -> 0 <= x < Z.of_nat n ->
  leading_byte (Z.lor tag x) = Some (x, extra).
Proof.
  intros H Hx. pose proof (below_forall n _ x H Hx) as E. unfold leads in E.
  destruct (leading_byte _) as [[y m]|]; [|done]. apply andb_true_iff in E as [->%Z.eqb_eq ->%Nat.eqb_eq]. done.
Qed.

(** The six bits that one continuation byte adds. *)
Lemma append_bits c s : 0 <= s ->
  Z.lor (Z.shiftl (Z.shiftr c (s + 6)) 6) (Z.land (Z.shiftr c s) 63) = Z.shiftr c s.
Proof.
  intros Hs. apply Z.bits_inj'. intros n Hn. change 63 with (Z.ones 6).
  rewrite Z.lor_spec, Z.land_spec, Z.shiftl_spec, (Z.shiftr_spec c s n) by lia.
  destruct (Z.ltb_spec n 6).
  - rewrite (Z.testbit_neg_r _ (n - 6)), Z.ones_spec_low by lia. by rewrite andb_true_r.
  - rewrite Z.ones_spec_high, andb_false_r, orb_false_r, Z.shiftr_spec by lia. f_equal. lia.
Qed.

Lemma low_bits c s : 0 <= Z.land (Z.shiftr c s) 63 < 64.
Proof. change 63 with (Z.ones 6). rewrite Z.land_ones by lia. apply Z.mod_pos_bound. lia. Qed.

Lemma shiftr_range c s n : 0 <= s -> 0 <= n -> 0 <= c < 2 ^ (s + n) -> 0 <= Z.shiftr c s < 2 ^ n.
Proof.
  intros Hs Hn Hc. rewrite Z.shiftr_div_pow2 by lia. pose proof (Z.pow_pos_nonneg 2 s).
  split; [apply Z.div_pos; lia|]. apply Z.div_lt_upper_bound; [lia|]. rewrite <-Z.pow_add_r by lia. lia.
Qed.

(** One continuation byte, as the decoder reads it. *)
Lemma continue_step extra bytes c s t : 0 <= s -> t = s + 6 ->
  continue_point (S extra) (continuation_byte c s :: bytes) (Z.shiftr c t) = continue_point extra bytes (Z.shiftr c s).
Proof.
  intros Hs ->. destruct (continuation_bits _ (low_bits c s)) as (H1 & H2 & _).
  cbn [continue_point]. unfold continuation_byte. rewrite H1, H2, append_bits by done. done.
Qed.

Lemma continue_last bytes c s : s = 0 -> continue_point 0 bytes (Z.shiftr c s) = Some c.
Proof. intros ->. cbn. by rewrite Z.shiftr_0_r. Qed.

Lemma decode_point c rest fuel : 0 <= c < 1114112 ->
  utf8_decode (S fuel) (encode_point c ++ rest) = point_units c ++ utf8_decode fuel rest.
Proof.
  intros Hc. unfold encode_point. repeat case_match; bool_prop; cbn [app utf8_decode length].
  - unfold leading_byte. destruct (Z.ltb_spec c 128); [|lia]. done.
  - rewrite (lead_bits 192 1 32) by (reflexivity || (apply (shiftr_range c 6 5); lia)). cbn [Nat.ltb Nat.leb length].
    rewrite (continue_step 0 rest c 0 6), continue_last by done. done.
  - rewrite (lead_bits 224 2 16) by (reflexivity || (apply (shiftr_range c 12 4); lia)). cbn [Nat.ltb Nat.leb length].
    rewrite (continue_step 1 _ c 6 12), (continue_step 0 rest c 0 6), continue_last by done. done.
  - rewrite (lead_bits 240 3 8) by (reflexivity || (apply (shiftr_range c 18 3); lia)). cbn [Nat.ltb Nat.leb length].
    rewrite (continue_step 2 _ c 12 18), (continue_step 1 _ c 6 12), (continue_step 0 rest c 0 6), continue_last by done. done.
Qed.

(** A pair of surrogates comes back as the pair. *)
Lemma point_units_pair high low :
  is_high_surrogate high = true -> is_low_surrogate low = true ->
  0 <= combine_surrogates high low < 1114112 /\ point_units (combine_surrogates high low) = [high; low].
Proof.
  unfold is_high_surrogate, is_low_surrogate. intros Hh Hl. bool_prop. unfold combine_surrogates.
  rewrite Z.shiftl_mul_pow2 by lia. change (2 ^ 10) with 1024. split; [lia|]. unfold point_units.
  destruct (Z.leb_spec (65536 + (high - 55296) * 1024 + (low - 56320)) 65535); [lia|].
  replace (65536 + (high - 55296) * 1024 + (low - 56320) - 65536) with ((low - 56320) + (high - 55296) * 1024) by lia.
  rewrite Z.shiftr_div_pow2 by lia. change 1023 with (Z.ones 10). rewrite Z.land_ones by lia. change (2 ^ 10) with 1024.
  rewrite Z.div_add, Z.mod_add, Z.div_small, Z.mod_small by lia. f_equal; [lia|]. f_equal. lia.
Qed.

Lemma utf8_units_cons u rest :
  utf8_units (u :: rest) =
  match rest with
  | low :: rest' =>
      if is_high_surrogate u && is_low_surrogate low
      then encode_point (combine_surrogates u low) ++ utf8_units rest'
      else encode_point u ++ utf8_units rest
  | [] => encode_point u
  end.
Proof. done. Qed.

Lemma encode_point_length c : (0 < length (encode_point c))%nat.
Proof. unfold encode_point. repeat case_match; cbn; lia. Qed.

(** Every iteration consumes a byte, so the bytes are enough fuel. *)
Lemma decode_utf8_units n units fuel :
  (length units <= n)%nat -> (length (utf8_units units) <= fuel)%nat -> Forall is_unit units ->
  utf8_decode fuel (utf8_units units) = units.
Proof.
  revert units fuel. induction n as [|n IH]; intros units fuel Hn Hf Hu.
  { destruct units; [|cbn in Hn; lia]. by destruct fuel. }
  destruct units as [|u rest]; [by destruct fuel|].
  apply Forall_cons in Hu as [Hu Hr]. cbn [length] in Hn. unfold is_unit in Hu. rewrite utf8_units_cons in *.
  assert (forall fuel, (length (encode_point u ++ utf8_units rest) <= fuel)%nat ->
    utf8_decode fuel (encode_point u ++ utf8_units rest) = u :: rest) as Hsingle.
  { intros fuel' Hf'. pose proof (encode_point_length u). rewrite length_app in Hf'. destruct fuel' as [|fuel']; [lia|].
    rewrite decode_point by lia. rewrite IH by (done || lia). unfold point_units. destruct (Z.leb_spec u 65535); [done|lia]. }
  destruct rest as [|low rest']; [cbn [utf8_units] in Hsingle; rewrite app_nil_r in Hsingle; auto|].
  destruct (is_high_surrogate u && is_low_surrogate low) eqn:E; [|auto].
  apply andb_true_iff in E as [Eh El]. destruct (point_units_pair u low Eh El) as [Hc Hp].
  pose proof (encode_point_length (combine_surrogates u low)). rewrite length_app in Hf. destruct fuel as [|fuel]; [lia|].
  apply Forall_cons in Hr as [_ Hr]. cbn [length] in Hn. rewrite decode_point, Hp by done. rewrite IH by (done || lia). done.
Qed.

Lemma encode_point_ascii c : forallb (fun b => b <? 128) (encode_point c) = true -> c <= 127.
Proof.
  unfold encode_point. destruct (Z.leb_spec c 127); [done|].
  pose proof (continuation_bits _ (low_bits c 0)) as (_ & _ & H1). fold (continuation_byte c 0) in H1.
  assert ((continuation_byte c 0 <? 128) = false) as Hlast by (by apply Z.ltb_ge).
  repeat case_match; cbn [forallb]; rewrite Hlast, ?andb_false_r; cbn; rewrite ?andb_false_r; done.
Qed.

(** Only ASCII names have ASCII encodings. *)
Lemma utf8_units_ascii n units :
  (length units <= n)%nat -> forallb (fun b => b <? 128) (utf8_units units) = true -> IsAscii units = true.
Proof.
  revert units. induction n as [|n IH]; intros units Hn H; [destruct units; cbn in *; [done|lia]|].
  destruct units as [|u rest]; [done|]. rewrite utf8_units_cons in H. cbn [length] in Hn.
  assert (forallb (fun b => b <? 128) (encode_point u ++ utf8_units rest) = true -> IsAscii (u :: rest) = true) as Hsingle.
  { rewrite forallb_app. intros [Hu%encode_point_ascii Hr]%andb_true_iff. cbn. rewrite (proj2 (Z.leb_le _ _) Hu). apply IH; [lia|done]. }
  destruct rest as [|low rest']; [cbn [utf8_units] in Hsingle; rewrite app_nil_r in Hsingle; auto|].
  destruct (is_high_surrogate u && is_low_surrogate low) eqn:E; [|auto].
  apply andb_true_iff in E as [Eh El]. rewrite forallb_app in H. apply andb_true_iff in H as [Hc%encode_point_ascii _].
  unfold is_high_surrogate, is_low_surrogate, combine_surrogates in *. bool_prop. rewrite Z.shiftl_mul_pow2 in Hc by lia. lia.
Qed.

Lemma Utf8_roundtrip units : Forall is_unit units -> Utf8ToUtf16 (Utf16ToUtf8 units) = units.
Proof.
  intros Hu. unfold Utf16ToUtf8. destruct (IsAscii units) eqn:Ea; unfold Utf8ToUtf16.
  - assert (forallb (fun b => b <? 128) units = true) as ->; [|done].
    unfold IsAscii in Ea. rewrite forallb_forall in *. intros x Hx. apply Ea in Hx. bool_prop. apply Z.ltb_lt. lia.
  - destruct (forallb _ (utf8_units units)) eqn:Eb.
    + by rewrite (utf8_units_ascii _ units (Nat.le_refl _) Eb) in Ea.
    + by apply (decode_utf8_units (length units)).
Qed.

(** ** Properties *)

(** A name written to the durable store reads back as it was, for every sequence of UTF-16
    code units: pairs of surrogates, surrogates that stand alone, embedded zeros and the
    characters that only the slow path handles. *)
Theorem name_encoding_roundtrip units : Forall is_unit units -> Utf8ToUtf16 (Utf16ToUtf8 units) = units.
Proof. apply Utf8_roundtrip. Qed.

Lemma name_encoding_roundtrip_witness :
  Utf16ToUtf8 [0; 97; 233; 8364; 55357; 56832; 55357; 56832; 56832; 55357] =
    [0; 97; 195; 169; 226; 130; 172; 240; 159; 152; 128; 240; 159; 152; 128; 237; 184; 128; 237; 160; 189] /\
  Utf8ToUtf16 (Utf16ToUtf8 [0; 97; 233; 8364; 55357; 56832; 55357; 56832; 56832; 55357]) =
    [0; 97; 233; 8364; 55357; 56832; 55357; 56832; 56832; 55357].
Proof.
  split; [vm_compute; reflexivity|]. apply name_encoding_roundtrip.
  repeat (apply Forall_cons; split; [unfold is_unit; lia|]). apply Forall_nil. done.
Defined.
