(* ===== verification/FilenameIndex.v ===== *)
(** * FilenameIndex: the trigram accelerator of the projection

    Models the filename accelerator of [src/src/indexstore/src/Projection.cpp]: the
    classification of names that may match an ASCII needle through a non-ASCII unit,
    packed trigrams, the sorted postings, and [FilenameCandidateIndices].  The four
    fields of [Projection] that make up the accelerator are the record [FilenameIndex].

    A row is a slot number with its name.  The claim of the accelerator is that the
    candidate set misses no row the canonical matcher accepts, whatever the host's
    ordinal comparison table. *)

From stdpp Require Import gmap sorting.
From S2P Require Import Prelude TextMatch.

(** ** Names *)

Definition IsAsciiLower (name : list Z) : bool :=
  forallb (fun ch => negb ((127 <? ch) || ((65 <=? ch) && (ch <=? 90)))) name.

Definition FoldAscii (name : list Z) : list Z :=
  map (fun ch => if (65 <=? ch) && (ch <=? 90) then wrap16 (ch + 32) else ch) name.

(** ** Units that the host equates with an ASCII unit *)

Section fold_probe.
Context (CompareStringOrdinal : list Z -> list Z -> Z).

(** The loop over the 128 ASCII units: a failed comparison (0) counts as equal. *)
Definition probe_ascii (unit : Z) : bool :=
  existsb (fun ascii => let verdict := CompareStringOrdinal [unit] [ascii] in
                        (verdict =? CSTR_EQUAL) || (verdict =? 0)) (seqZ 0 128).

(** [UnitMayFoldToAscii] without its cache. *)
Definition may_fold_to_ascii (unit : Z) : bool :=
  if unit <=? 127 then false
  else if (55296 <=? unit) && (unit <=? 57343) then true
  else probe_ascii unit.

(** [gFoldProbe]: 0 (or absent) unknown, 1 ordinary, 2 exceptional. *)
Definition UnitMayFoldToAscii (gFoldProbe : gmap Z Z) (unit : Z) : bool * gmap Z Z :=
  if unit <=? 127 then (false, gFoldProbe)
  else if (55296 <=? unit) && (unit <=? 57343) then (true, gFoldProbe)
  else
    let state := default 0 (gFoldProbe !! unit) in
    if state =? 0 then
      let state := if probe_ascii unit then 2 else 1 in
      (state =? 2, <[unit := state]> gFoldProbe)
    else (state =? 2, gFoldProbe).

Definition NameNeedsExceptionalFallback (name : list Z) : bool :=
  existsb (fun ch => (127 <? ch) && may_fold_to_ascii ch) name.
End fold_probe.

(** ** Trigrams and sorted vectors *)

Definition PackTrigram (a b c : Z) : Z := Z.lor (Z.lor a (Z.shiftl b 16)) (Z.shiftl c 32).

(** The loop over the offsets [index + 2 < value.size ()]. *)
Fixpoint trigrams (value : list Z) : list Z :=
  match value with
  | a :: rest =>
      match rest with
      | b :: c :: _ => PackTrigram a b c :: trigrams rest
      | _ => []
      end
  | [] => []
  end.

(** [std::unique]: adjacent duplicates are dropped. *)
Fixpoint unique (l : list Z) : list Z :=
  match l with
  | x :: rest =>
      match rest with
      | y :: _ => if x =? y then unique rest else x :: unique rest
      | [] => [x]
      end
  | [] => []
  end.

Definition sort_unique (l : list Z) : list Z := unique (merge_sort Z.le l).

Definition UniqueTrigrams (value : list Z) : list Z := sort_unique (trigrams value).

(** [std::lower_bound] in a sorted vector, then the insertion or the erasure. *)
Fixpoint InsertSorted (values : list Z) (value : Z) : list Z :=
  match values with
  | [] => [value]
  | x :: rest =>
      if x <? value then x :: InsertSorted rest value
      else if x =? value then values else value :: values
  end.

Fixpoint EraseSorted (values : list Z) (value : Z) : list Z :=
  match values with
  | [] => []
  | x :: rest =>
      if x <? value then x :: EraseSorted rest value
      else if x =? value then rest else values
  end.

(** [std::set_intersection] and [std::set_union]. *)
Fixpoint set_intersection (l : list Z) : list Z -> list Z :=
  match l with
  | [] => fun _ => []
  | x :: l' =>
      fix go (r : list Z) : list Z :=
        match r with
        | [] => []
        | y :: r' =>
            if x <? y then set_intersection l' r
            else if y <? x then go r'
            else x :: set_intersection l' r'
        end
  end.

Fixpoint set_union (l : list Z) : list Z -> list Z :=
  match l with
  | [] => fun r => r
  | x :: l' =>
      fix go (r : list Z) : list Z :=
        match r with
        | [] => x :: l'
        | y :: r' =>
            if x <? y then x :: set_union l' r
            else if y <? x then y :: go r'
            else x :: set_union l' r'
        end
  end.

(** ** The accelerator *)

Record FilenameIndex := mkFilenameIndex {
  filenameTrigramPostings_ : gmap Z (list Z);
  filenameExceptionalEntries_ : list Z;
  filenameIndexValid_ : bool;
  filenameIndexBuilding_ : bool
}.

(** The initial values of the fields. *)
Definition new_filename_index : FilenameIndex := mkFilenameIndex ∅ [] true false.

Definition InvalidateFilenameIndex (ix : FilenameIndex) : FilenameIndex :=
  mkFilenameIndex ∅ [] false (filenameIndexBuilding_ ix).

Section index_operations.
Context (CompareStringOrdinal : list Z -> list Z -> Z).
Local Abbreviation needs_fallback := (NameNeedsExceptionalFallback CompareStringOrdinal).

(** [push_back] while the index is being built, a sorted insertion otherwise. *)
Definition add_value (ix : FilenameIndex) (values : list Z) (index : Z) : list Z :=
  if filenameIndexBuilding_ ix then values ++ [index] else InsertSorted values index.

(** [AddFilenameIndexEntry] for the row [index] whose name is [name]. *)
Definition AddFilenameIndexEntry (ix : FilenameIndex) (index : Z) (name : list Z) : FilenameIndex :=
  if negb (filenameIndexValid_ ix) then ix
  else
    mkFilenameIndex
      (fold_left (fun postings t =>
                    <[t := add_value ix (default [] (postings !! t)) index]> postings)
                 (UniqueTrigrams (FoldAscii name)) (filenameTrigramPostings_ ix))
      (if needs_fallback name
       then add_value ix (filenameExceptionalEntries_ ix) index
       else filenameExceptionalEntries_ ix)
      (filenameIndexValid_ ix) (filenameIndexBuilding_ ix).

(** The erasure from one posting; an empty posting is dropped. *)
Definition erase_posting (index : Z) (postings : gmap Z (list Z)) (t : Z) : gmap Z (list Z) :=
  match postings !! t with
  | None => postings
  | Some posting =>
      match EraseSorted posting index with
      | [] => delete t postings
      | rest => <[t := rest]> postings
      end
  end.

Definition RemoveFilenameIndexEntry (ix : FilenameIndex) (index : Z) (name : list Z) : FilenameIndex :=
  if negb (filenameIndexValid_ ix) then ix
  else
    mkFilenameIndex
      (fold_left (erase_posting index) (UniqueTrigrams (FoldAscii name)) (filenameTrigramPostings_ ix))
      (if needs_fallback name
       then EraseSorted (filenameExceptionalEntries_ ix) index
       else filenameExceptionalEntries_ ix)
      (filenameIndexValid_ ix) (filenameIndexBuilding_ ix).

(** [RebuildFilenameIndex] over the live rows in the order of [ForEachValue]. *)
Definition RebuildFilenameIndex (rows : list (Z * list Z)) : FilenameIndex :=
  let built := fold_left (fun ix row => AddFilenameIndexEntry ix row.1 row.2) rows
                         (mkFilenameIndex ∅ [] true true) in
  mkFilenameIndex (sort_unique <$> filenameTrigramPostings_ built)
    (sort_unique (filenameExceptionalEntries_ built)) (filenameIndexValid_ built) false.
End index_operations.

(** ** Candidates *)

(** [maximumCandidates != 0 && values.size () > maximumCandidates]. *)
Definition too_many (maximumCandidates : Z) (values : list Z) : bool :=
  negb (maximumCandidates =? 0) && (maximumCandidates <? zlen values).

(** The loop over the trigrams: [None] is [anyTrigramMissing]. *)
Fixpoint collect_postings (ix : FilenameIndex) (ts : list Z) : option (list (list Z)) :=
  match ts with
  | [] => Some []
  | t :: ts' =>
      match filenameTrigramPostings_ ix !! t with
      | None => None
      | Some posting =>
          match collect_postings ix ts' with
          | None => None
          | Some postings => Some (posting :: postings)
          end
      end
  end.

(** The intersection loop: [None] is [return std::nullopt]. *)
Fixpoint intersect_all (maximumCandidates : Z) (result : list Z) (postings : list (list Z))
    : option (list Z) :=
  match postings, result with
  | [], _ => Some result
  | _ :: _, [] => Some []
  | posting :: postings', _ :: _ =>
      let scratch := set_intersection result posting in
      if too_many maximumCandidates scratch then None
      else intersect_all maximumCandidates scratch postings'
  end.

Definition shorter (l r : list Z) : Prop := (length l <= length r)%nat.

#[export] Instance shorter_dec : RelDecision shorter.
Proof. intros l r. unfold shorter. apply _. Defined.

(** The part before the exceptional rows are merged. *)
Definition posting_candidates (ix : FilenameIndex) (ts : list Z) (maximumCandidates : Z)
    : option (list Z) :=
  match collect_postings ix ts with
  | None => Some []
  | Some postings =>
      match merge_sort shorter postings with
      | [] => Some []
      | front :: rest =>
          if too_many maximumCandidates front then None
          else intersect_all maximumCandidates front rest
      end
  end.

Definition FilenameCandidateIndices (ix : FilenameIndex) (foldedNeedle : list Z) (maximumCandidates : Z)
    : option (list Z) :=
  if negb (filenameIndexValid_ ix) || (length foldedNeedle <? 3)%nat || negb (IsAscii foldedNeedle)
  then None
  else
    match posting_candidates ix (UniqueTrigrams foldedNeedle) maximumCandidates with
    | None => None
    | Some result =>
        if too_many maximumCandidates result then None
        else
          match filenameExceptionalEntries_ ix with
          | [] => Some result
          | _ :: _ =>
              let merged := set_union result (filenameExceptionalEntries_ ix) in
              if too_many maximumCandidates merged then None else Some merged
          end
    end.

(** ** Sorted vectors *)

Abbreviation sorted := (StronglySorted Z.lt).

Lemma sorted_cons x l : sorted (x :: l) <-> sorted l /\ forall y, y ∈ l -> x < y.
Proof.
  split.
  - inversion_clear 1 as [|? ? Hs Hx]. split; [done|]. by apply Forall_forall.
  - intros [Hs Hx]. constructor; [done|]. by apply Forall_forall.
Qed.

Lemma elem_of_unique l x : x ∈ unique l <-> x ∈ l.
Proof.
  induction l as [|y [|z l] IH]; [done|done|].
  change (unique (y :: z :: l)) with (if y =? z then unique (z :: l) else y :: unique (z :: l)).
  destruct (Z.eqb_spec y z) as [->|Hne].
  - rewrite IH. set_solver.
  - rewrite !(elem_of_cons _ x y), IH. done.
Qed.

Lemma sorted_unique l : StronglySorted Z.le l -> sorted (unique l).
Proof.
  induction l as [|y [|z l] IH]; intros Hs; [constructor|repeat constructor|].
  inversion_clear Hs as [|? ? Hs' Hy].
  change (unique (y :: z :: l)) with (if y =? z then unique (z :: l) else y :: unique (z :: l)).
  destruct (Z.eqb_spec y z) as [->|Hne]; [by apply IH|].
  apply sorted_cons. split; [by apply IH|]. intros w Hw. rewrite elem_of_unique in Hw.
  inversion_clear Hs' as [|? ? _ Hz]. apply Forall_cons in Hy as [Hyz _].
  apply elem_of_cons in Hw as [->|Hw]; [lia|]. rewrite Forall_forall in Hz. specialize (Hz w Hw). lia.
Qed.

Lemma sorted_sort_unique l : sorted (sort_unique l).
Proof. apply sorted_unique, StronglySorted_merge_sort; [intros ???; lia|]. intros x y. lia. Qed.

Lemma elem_of_sort_unique l x : x ∈ sort_unique l <-> x ∈ l.
Proof. unfold sort_unique. by rewrite elem_of_unique, (merge_sort_Permutation Z.le). Qed.

Lemma sorted_NoDup l : sorted l -> NoDup l.
Proof.
  induction l as [|x l IH]; [constructor|]. intros [Hs Hx]%sorted_cons. constructor; [|by apply IH].
  intros Hin. specialize (Hx x Hin). lia.
Qed.

Lemma InsertSorted_spec l v :
  sorted l -> sorted (InsertSorted l v) /\ forall x, x ∈ InsertSorted l v <-> x = v \/ x ∈ l.
Proof.
  induction l as [|y l IH]; intros Hs; cbn [InsertSorted].
  { split; [repeat constructor|]. set_solver. }
  apply sorted_cons in Hs as [Hs Hy]. destruct (IH Hs) as [IHs IHe].
  destruct (Z.ltb_spec y v) as [Hlt|Hge]; [|destruct (Z.eqb_spec y v) as [->|Hne]].
  - split; [|intros x; rewrite !elem_of_cons, IHe; tauto].
    apply sorted_cons. split; [done|]. intros x [->|Hx]%IHe; auto.
  - split; [by apply sorted_cons|]. intros x. rewrite elem_of_cons. tauto.
  - split; [|intros x; by rewrite elem_of_cons].
    apply sorted_cons. split; [by apply sorted_cons|]. intros x [->|Hx]%elem_of_cons; [lia|].
    specialize (Hy x Hx). lia.
Qed.

Lemma EraseSorted_spec l v :
  sorted l -> sorted (EraseSorted l v) /\ forall x, x ∈ EraseSorted l v <-> x <> v /\ x ∈ l.
Proof.
  induction l as [|y l IH]; intros Hs; cbn [EraseSorted].
  { split; [constructor|]. set_solver. }
  apply sorted_cons in Hs as [Hs Hy]. destruct (IH Hs) as [IHs IHe].
  destruct (Z.ltb_spec y v) as [Hlt|Hge]; [|destruct (Z.eqb_spec y v) as [->|Hne]].
  - split; [apply sorted_cons; split; [done|]; intros x [_ Hx]%IHe; auto|].
    intros x. rewrite !elem_of_cons, IHe. split; [intros [->|?]; [split; [lia|tauto]|tauto]|tauto].
  - split; [done|]. intros x. rewrite elem_of_cons. split; [|tauto].
    intros Hx. specialize (Hy x Hx). split; [lia|tauto].
  - split; [by apply sorted_cons|]. intros x. rewrite elem_of_cons. split; [|tauto].
    intros [->|Hx]; [split; [done|tauto]|]. specialize (Hy x Hx). split; [lia|tauto].
Qed.

Lemma set_intersection_spec l r :
  sorted l -> sorted r ->
  sorted (set_intersection l r) /\ forall x, x ∈ set_intersection l r <-> x ∈ l /\ x ∈ r.
Proof.
  revert r. induction l as [|a l IHl]; intros r Hl Hr.
  { split; [constructor|]. set_solver. }
  apply sorted_cons in Hl as [Hl Ha]. induction r as [|b r IHr].
  { split; [constructor|]. set_solver. }
  pose proof Hr as [Hr' Hb]%sorted_cons. cbn [set_intersection].
  destruct (Z.ltb_spec a b) as [Hab|Hab]; [|destruct (Z.ltb_spec b a) as [Hba|Hba]].
  - destruct (IHl (b :: r) Hl Hr) as [Hs He]. split; [done|]. intros x. rewrite He, !elem_of_cons.
    split; [tauto|]. intros [[->|?] [->|Hx]]; try tauto; [lia|]. specialize (Hb _ Hx). lia.
  - destruct (IHr Hr') as [Hs He]. split; [done|]. intros x. etransitivity; [apply He|].
    rewrite !elem_of_cons. split; [tauto|]. intros [[->|Hx] [->|?]]; try tauto; [lia|]. specialize (Ha _ Hx). lia.
  - assert (a = b) as <- by lia. destruct (IHl r Hl Hr') as [Hs He]. split.
    + apply sorted_cons. split; [done|]. intros y [Hy _]%He. auto.
    + intros x. rewrite !elem_of_cons, He. tauto.
Qed.

Lemma set_union_spec l r :
  sorted l -> sorted r -> sorted (set_union l r) /\ forall x, x ∈ set_union l r <-> x ∈ l \/ x ∈ r.
Proof.
  revert r. induction l as [|a l IHl]; intros r Hl Hr.
  { split; [done|]. set_solver. }
  pose proof Hl as [Hl' Ha]%sorted_cons. induction r as [|b r IHr].
  { split; [done|]. set_solver. }
  pose proof Hr as [Hr' Hb]%sorted_cons. cbn [set_union].
  destruct (Z.ltb_spec a b) as [Hab|Hab]; [|destruct (Z.ltb_spec b a) as [Hba|Hba]].
  - destruct (IHl (b :: r) Hl' Hr) as [Hs He]. split; [|intros x; rewrite elem_of_cons, He, !elem_of_cons; tauto].
    apply sorted_cons. split; [done|]. intros y [Hy|[->|Hy]%elem_of_cons]%He; auto. specialize (Hb _ Hy). lia.
  - destruct (IHr Hr') as [Hs He]. split.
    + apply sorted_cons. split; [exact Hs|]. intros y [[->|Hy]%elem_of_cons|Hy]%He; auto. specialize (Ha _ Hy). lia.
    + intros x. rewrite elem_of_cons. pose proof (He x) as Hx. rewrite elem_of_cons in Hx |- *. rewrite elem_of_cons. tauto.
  - assert (a = b) as <- by lia. destruct (IHl r Hl' Hr') as [Hs He]. split.
    + apply sorted_cons. split; [done|]. intros y [Hy|Hy]%He; auto.
    + intros x. rewrite !elem_of_cons, He. tauto.
Qed.

(** ** The invariant of the accelerator

    [names] are the names of the live slots. *)

Definition posting (ix : FilenameIndex) (t : Z) : list Z :=
  default [] (filenameTrigramPostings_ ix !! t).

Lemma elem_of_UniqueTrigrams v t : t ∈ UniqueTrigrams v <-> t ∈ trigrams v.
Proof. apply elem_of_sort_unique. Qed.

Lemma NoDup_UniqueTrigrams v : NoDup (UniqueTrigrams v).
Proof. apply sorted_NoDup, sorted_sort_unique. Qed.

Section invariant.
Context (CSO : list Z -> list Z -> Z).
Local Abbreviation needs_fallback := (NameNeedsExceptionalFallback CSO).

Record index_ok (ix : FilenameIndex) (names : gmap Z (list Z)) : Prop := {
  ok_posting_sorted : forall t, sorted (posting ix t);
  ok_exceptional_sorted : sorted (filenameExceptionalEntries_ ix);
  ok_posting : forall t i,
    i ∈ posting ix t <-> exists n, names !! i = Some n /\ t ∈ trigrams (FoldAscii n);
  ok_exceptional : forall i,
    i ∈ filenameExceptionalEntries_ ix <-> exists n, names !! i = Some n /\ needs_fallback n = true
}.

(** Outside a rebuild. *)
Definition accelerator_ok (ix : FilenameIndex) (names : gmap Z (list Z)) : Prop :=
  filenameIndexBuilding_ ix = false /\ (filenameIndexValid_ ix = true -> index_ok ix names).

Lemma new_index_ok : accelerator_ok new_filename_index ∅.
Proof.
  split; [done|]. intros _. split; unfold posting; cbn.
  - intros t. rewrite lookup_empty. constructor.
  - constructor.
  - intros t i. rewrite lookup_empty. cbn. setoid_rewrite lookup_empty. split; [set_solver|naive_solver].
  - intros i. setoid_rewrite lookup_empty. split; [set_solver|naive_solver].
Qed.

Lemma invalidate_ok ix names names' :
  accelerator_ok ix names -> accelerator_ok (InvalidateFilenameIndex ix) names'.
Proof. intros [Hb _]. by split. Qed.

(** Updating the postings of distinct trigrams. *)
Lemma posting_updates (f : list Z -> list Z) ts (m : gmap Z (list Z)) t :
  NoDup ts ->
  default [] (fold_left (fun p t => <[t := f (default [] (p !! t))]> p) ts m !! t) =
  if decide (t ∈ ts) then f (default [] (m !! t)) else default [] (m !! t).
Proof.
  intros Hnd. revert m. induction Hnd as [|u ts Hu _ IH]; intros m; cbn [fold_left].
  { by rewrite decide_False by set_solver. }
  rewrite IH. destruct (decide (t = u)) as [->|Hne].
  - rewrite decide_False, decide_True by set_solver. by rewrite lookup_insert_eq.
  - rewrite lookup_insert_ne by done. by destruct (decide (t ∈ ts)), (decide (t ∈ u :: ts)); set_solver.
Qed.

Lemma posting_erasures index ts (m : gmap Z (list Z)) t :
  NoDup ts ->
  default [] (fold_left (erase_posting index) ts m !! t) =
  if decide (t ∈ ts) then EraseSorted (default [] (m !! t)) index else default [] (m !! t).
Proof.
  intros Hnd. revert m. induction Hnd as [|u ts Hu _ IH]; intros m; cbn [fold_left].
  { by rewrite decide_False by set_solver. }
  rewrite IH.
  assert (default [] (erase_posting index m u !! t) =
          if decide (t = u) then EraseSorted (default [] (m !! t)) index else default [] (m !! t)) as E.
  { unfold erase_posting. destruct (m !! u) as [l|] eqn:Em.
    - destruct (decide (t = u)) as [->|Hne].
      + rewrite Em. cbn. destruct (EraseSorted l index) eqn:El; [by rewrite lookup_delete_eq|by rewrite lookup_insert_eq].
      + destruct (EraseSorted l index); [by rewrite lookup_delete_ne|by rewrite lookup_insert_ne].
    - destruct (decide (t = u)) as [->|Hne]; [by rewrite Em|done]. }
  rewrite E. destruct (decide (t = u)) as [->|Hne].
  - by rewrite decide_False, decide_True by set_solver.
  - by destruct (decide (t ∈ ts)), (decide (t ∈ u :: ts)); set_solver.
Qed.

Lemma add_entry_ok ix names i n :
  accelerator_ok ix names -> names !! i = None ->
  accelerator_ok (AddFilenameIndexEntry CSO ix i n) (<[i := n]> names).
Proof.
  intros [Hb Hok] Hi. unfold AddFilenameIndexEntry. destruct (filenameIndexValid_ ix) eqn:Hv; cbn [negb].
  2: { split; [done|]. congruence. }
  split; [done|]. intros _. destruct (Hok eq_refl) as [Hps Hes Hp He].
  unfold add_value. rewrite Hb. split; unfold posting; cbn [filenameTrigramPostings_ filenameExceptionalEntries_].
  - intros t. rewrite (posting_updates (fun l => InsertSorted l i)) by apply NoDup_UniqueTrigrams.
    destruct (decide _); [apply InsertSorted_spec|]; apply Hps.
  - destruct (needs_fallback n); [by apply InsertSorted_spec|done].
  - intros t j. rewrite (posting_updates (fun l => InsertSorted l i)) by apply NoDup_UniqueTrigrams.
    fold (posting ix t). destruct (decide (j = i)) as [->|Hne].
    + setoid_rewrite lookup_insert_eq. destruct (decide _) as [Ht|Ht]; rewrite elem_of_UniqueTrigrams in Ht.
      * destruct (InsertSorted_spec (posting ix t) i (Hps t)) as [_ ->]. split; [eauto|tauto].
      * rewrite Hp. split; [intros (? & ? & _); congruence|]. intros (? & [= <-] & ?). done.
    + setoid_rewrite lookup_insert_ne; [|done]. destruct (decide _) as [Ht|Ht].
      * destruct (InsertSorted_spec (posting ix t) i (Hps t)) as [_ ->]. rewrite Hp. split; [by intros [->|?]|tauto].
      * apply Hp.
  - intros j. destruct (decide (j = i)) as [->|Hne].
    + setoid_rewrite lookup_insert_eq. destruct (needs_fallback n) eqn:En.
      * destruct (InsertSorted_spec _ i Hes) as [_ ->]. split; [eauto|tauto].
      * rewrite He. split; [intros (? & ? & _); congruence|]. intros (? & [= <-] & ?). congruence.
    + setoid_rewrite lookup_insert_ne; [|done]. destruct (needs_fallback n).
      * destruct (InsertSorted_spec _ i Hes) as [_ ->]. rewrite He. split; [by intros [->|?]|tauto].
      * apply He.
Qed.

Lemma remove_entry_ok ix names i n :
  accelerator_ok ix names -> names !! i = Some n ->
  accelerator_ok (RemoveFilenameIndexEntry CSO ix i n) (delete i names).
Proof.
  intros [Hb Hok] Hi. unfold RemoveFilenameIndexEntry. destruct (filenameIndexValid_ ix) eqn:Hv; cbn [negb].
  2: { split; [done|]. congruence. }
  split; [done|]. intros _. destruct (Hok eq_refl) as [Hps Hes Hp He].
  split; unfold posting; cbn [filenameTrigramPostings_ filenameExceptionalEntries_].
  - intros t. rewrite posting_erasures by apply NoDup_UniqueTrigrams.
    destruct (decide _); [apply EraseSorted_spec|]; apply Hps.
  - destruct (needs_fallback n); [by apply EraseSorted_spec|done].
  - intros t j. rewrite posting_erasures by apply NoDup_UniqueTrigrams. fold (posting ix t).
    destruct (decide (j = i)) as [->|Hne].
    + setoid_rewrite lookup_delete_eq. destruct (decide _) as [Ht|Ht]; rewrite elem_of_UniqueTrigrams in Ht.
      * destruct (EraseSorted_spec (posting ix t) i (Hps t)) as [_ ->]. split; [by intros [? _]|by intros (? & ? & _)].
      * rewrite Hp, Hi. split; [by intros (? & [= <-] & ?)|by intros (? & ? & _)].
    + setoid_rewrite lookup_delete_ne; [|done]. destruct (decide _) as [Ht|Ht]; [|apply Hp].
      destruct (EraseSorted_spec (posting ix t) i (Hps t)) as [_ ->]. rewrite Hp. tauto.
  - intros j. destruct (decide (j = i)) as [->|Hne].
    + setoid_rewrite lookup_delete_eq. destruct (needs_fallback n) eqn:En.
      * destruct (EraseSorted_spec _ i Hes) as [_ ->]. split; [by intros [? _]|by intros (? & ? & _)].
      * rewrite He, Hi. split; [intros (? & [= <-] & ?); congruence|by intros (? & ? & _)].
    + setoid_rewrite lookup_delete_ne; [|done]. destruct (needs_fallback n); [|apply He].
      destruct (EraseSorted_spec _ i Hes) as [_ ->]. rewrite He. tauto.
Qed.

(** While the index is built, the vectors are in the order of the rows. *)
Definition built_from (ix : FilenameIndex) (rows : list (Z * list Z)) : Prop :=
  filenameIndexBuilding_ ix = true /\ filenameIndexValid_ ix = true /\
  (forall t i, i ∈ posting ix t <-> exists n, (i, n) ∈ rows /\ t ∈ trigrams (FoldAscii n)) /\
  (forall i, i ∈ filenameExceptionalEntries_ ix <-> exists n, (i, n) ∈ rows /\ needs_fallback n = true).

Lemma exists_snoc {A B} (l : list (A * B)) i n (j : A) (P : B -> Prop) :
  (exists m, (j, m) ∈ l ++ [(i, n)] /\ P m) <-> (exists m, (j, m) ∈ l /\ P m) \/ (j = i /\ P n).
Proof.
  split.
  - intros (m & [Hm|Hm%list_elem_of_singleton]%elem_of_app & HP); [eauto|]. simplify_eq. auto.
  - intros [(m & ? & ?)|[-> ?]]; [exists m|exists n]; rewrite elem_of_app, list_elem_of_singleton; auto.
Qed.

Lemma add_built ix rows i n :
  built_from ix rows -> built_from (AddFilenameIndexEntry CSO ix i n) (rows ++ [(i, n)]).
Proof.
  intros (Hb & Hv & Hp & He). unfold AddFilenameIndexEntry, add_value. rewrite Hb, Hv. cbn [negb].
  split; [done|]. split; [done|]. split; unfold posting; cbn [filenameTrigramPostings_ filenameExceptionalEntries_].
  - intros t j. rewrite (posting_updates (fun l => l ++ [i])) by apply NoDup_UniqueTrigrams.
    rewrite exists_snoc, <-Hp. fold (posting ix t). destruct (decide _) as [Ht|Ht]; rewrite elem_of_UniqueTrigrams in Ht.
    + rewrite elem_of_app, list_elem_of_singleton. tauto.
    + tauto.
  - intros j. rewrite exists_snoc, <-He. destruct (needs_fallback n).
    + rewrite elem_of_app, list_elem_of_singleton. tauto.
    + split; [tauto|]. by intros [?|[_ ?]].
Qed.

Lemma build_all rows ix done :
  built_from ix done ->
  built_from (fold_left (fun ix row => AddFilenameIndexEntry CSO ix row.1 row.2) rows ix) (done ++ rows).
Proof.
  revert ix done. induction rows as [|[i n] rows IH]; intros ix d Hd; cbn [fold_left].
  - by rewrite app_nil_r.
  - rewrite (app_assoc d [(i, n)] rows : d ++ (i, n) :: rows = _). by apply IH, add_built.
Qed.

Lemma rebuild_ok rows :
  NoDup rows.*1 ->
  accelerator_ok (RebuildFilenameIndex CSO rows) (list_to_map rows) /\
  filenameIndexValid_ (RebuildFilenameIndex CSO rows) = true.
Proof.
  intros Hnd. pose proof (build_all rows (mkFilenameIndex ∅ [] true true) []) as Hb. cbn [app] in Hb.
  unfold RebuildFilenameIndex. set (ix := fold_left _ _ _) in *. destruct Hb as (Hb & Hv & Hp & He).
  { split; [done|]. split; [done|]. unfold posting. cbn.
    split; intros; rewrite ?lookup_empty; cbn; split; try set_solver; intros (? & ? & _); set_solver. }
  split; [|done]. split; [done|]. intros _.
  assert (forall t, default [] ((sort_unique <$> filenameTrigramPostings_ ix) !! t) = sort_unique (posting ix t)) as E.
  { intros t. rewrite lookup_fmap. unfold posting. by destruct (_ !! t). }
  split; unfold posting; cbn [filenameTrigramPostings_ filenameExceptionalEntries_].
  - intros t. rewrite E. apply sorted_sort_unique.
  - apply sorted_sort_unique.
  - intros t i. rewrite E, elem_of_sort_unique, Hp. by setoid_rewrite elem_of_list_to_map.
  - intros i. rewrite elem_of_sort_unique, He. by setoid_rewrite elem_of_list_to_map.
Qed.
End invariant.

(** ** Candidates *)

Lemma too_many_false m l : too_many m l = false -> m = 0 \/ zlen l <= m.
Proof. unfold too_many. destruct (Z.eqb_spec m 0); [auto|]. cbn. intros ?%Z.ltb_ge. auto. Qed.

Lemma collect_postings_Some ix ts ps :
  collect_postings ix ts = Some ps -> ps = map (posting ix) ts.
Proof.
  revert ps. induction ts as [|t ts IH]; intros ps; cbn [collect_postings map]; [by intros [= <-]|].
  unfold posting at 1. destruct (filenameTrigramPostings_ ix !! t) as [p|]; [|done].
  destruct (collect_postings ix ts); [|done]. intros [= <-]. cbn. f_equal. by apply IH.
Qed.

Lemma collect_postings_None ix ts :
  collect_postings ix ts = None -> exists t, t ∈ ts /\ posting ix t = [].
Proof.
  induction ts as [|t ts IH]; cbn [collect_postings]; [done|].
  destruct (filenameTrigramPostings_ ix !! t) as [p|] eqn:E.
  - destruct (collect_postings ix ts); [done|]. intros _. destruct IH as (u & ? & ?); [done|]. set_solver.
  - intros _. exists t. unfold posting. rewrite E. set_solver.
Qed.

Lemma intersect_all_spec m result ps r :
  sorted result -> Forall sorted ps -> intersect_all m result ps = Some r ->
  sorted r /\ forall i, i ∈ r <-> i ∈ result /\ Forall (fun p => i ∈ p) ps.
Proof.
  revert result. induction ps as [|p ps IH]; intros result Hr Hps; cbn [intersect_all].
  { intros [= <-]. split; [done|]. intros i. split; [auto|tauto]. }
  apply Forall_cons in Hps as [Hp Hps]. destruct result as [|x result].
  { intros [= <-]. split; [constructor|]. set_solver. }
  destruct (too_many _ _); [done|]. destruct (set_intersection_spec _ p Hr Hp) as [Hs He].
  intros [Hrs Hre]%IH; [|done..]. split; [done|]. intros i. rewrite Hre, He, Forall_cons. tauto.
Qed.

Lemma posting_candidates_spec CSO ix names ts m r :
  index_ok CSO ix names -> ts <> [] -> posting_candidates ix ts m = Some r ->
  sorted r /\ forall i, i ∈ r <-> forall t, t ∈ ts -> i ∈ posting ix t.
Proof.
  intros [Hps _ _ _] Hne. unfold posting_candidates.
  destruct (collect_postings ix ts) as [ps|] eqn:E.
  - apply collect_postings_Some in E as ->.
    pose proof (merge_sort_Permutation shorter (map (posting ix) ts)) as Hperm.
    destruct (merge_sort shorter _) as [|front rest].
    { apply Permutation_nil_l in Hperm. by destruct ts. }
    assert (Forall sorted (front :: rest)) as Hs.
    { rewrite Hperm. apply Forall_forall. intros p (t & -> & _)%list_elem_of_fmap. apply Hps. }
    apply Forall_cons in Hs as [Hf Hrest]. destruct (too_many m front); [done|].
    intros [Hr He]%intersect_all_spec; [|done..]. split; [done|]. intros i.
    rewrite He, <-Forall_cons, Hperm, Forall_forall. setoid_rewrite list_elem_of_fmap. naive_solver.
  - intros [= <-]. split; [constructor|]. intros i. split; [set_solver|]. intros Hall.
    destruct (collect_postings_None _ _ E) as (t & Ht & Hn). specialize (Hall t Ht). rewrite Hn in Hall. done.
Qed.

Lemma trigrams_nonempty s : (3 <= length s)%nat -> trigrams s <> [].
Proof. by destruct s as [|? [|? [|? ?]]]; cbn; try lia. Qed.

(** What the candidate set is: the rows that hold every trigram of the needle, and the
    rows whose names need the canonical matcher. *)
Lemma candidates_exact CSO ix names needle m cs :
  accelerator_ok CSO ix names -> FilenameCandidateIndices ix needle m = Some cs ->
  sorted cs /\ (m = 0 \/ zlen cs <= m) /\ (3 <= length needle)%nat /\ IsAscii needle = true /\
  forall i, i ∈ cs <-> exists n, names !! i = Some n /\
    ((forall t, t ∈ trigrams needle -> t ∈ trigrams (FoldAscii n)) \/
     NameNeedsExceptionalFallback CSO n = true).
Proof.
  intros [_ Hok]. unfold FilenameCandidateIndices.
  destruct (filenameIndexValid_ ix) eqn:Hv; [|done]. specialize (Hok eq_refl).
  destruct (Nat.ltb_spec (length needle) 3) as [|Hlen]; [done|].
  destruct (IsAscii needle) eqn:Ha; [|done]. cbn [negb orb].
  assert (UniqueTrigrams needle <> []) as Hne.
  { intros E. pose proof (trigrams_nonempty needle Hlen) as Ht. destruct (trigrams needle) as [|t l] eqn:El; [done|].
    assert (t ∈ UniqueTrigrams needle) as Hin by (rewrite elem_of_UniqueTrigrams, El; set_solver).
    rewrite E in Hin. set_solver. }
  destruct (posting_candidates ix _ m) as [r|] eqn:Er; [|done].
  destruct (posting_candidates_spec CSO ix names _ m r Hok Hne Er) as [Hr He].
  destruct (too_many m r) eqn:Et; [done|]. intros Hcs.
  assert (sorted cs /\ (m = 0 \/ zlen cs <= m) /\
          forall i, i ∈ cs <-> i ∈ r \/ i ∈ filenameExceptionalEntries_ ix) as (Hs & Hm & Hcse).
  { destruct (filenameExceptionalEntries_ ix) as [|x l] eqn:Ex.
    - injection Hcs as <-. split; [done|]. split; [by apply too_many_false|]. set_solver.
    - rewrite <-Ex in *. destruct (too_many m (set_union _ _)) eqn:Et'; [done|]. injection Hcs as <-.
      destruct (set_union_spec r (filenameExceptionalEntries_ ix) Hr (ok_exceptional_sorted _ _ _ Hok)) as [? Hu].
      split; [done|]. split; [by apply too_many_false|done]. }
  split; [done|]. split; [done|]. split; [done|]. split; [done|]. intros i.
  rewrite Hcse, He, (ok_exceptional _ _ _ Hok). setoid_rewrite (ok_posting _ _ _ Hok).
  setoid_rewrite elem_of_UniqueTrigrams. split.
  - intros [Hall|(n & ? & ?)]; [|eauto].
    destruct (trigrams needle) as [|t l] eqn:El; [by apply (trigrams_nonempty needle) in Hlen|].
    destruct (Hall t) as (n & Hn & _); [set_solver|]. exists n. split; [done|]. left. intros u Hu.
    destruct (Hall u Hu) as (n' & Hn' & ?). congruence.
  - intros (n & Hn & [Hall|Hx]); [left|right]; eauto.
Qed.

(** ** No canonical match is missed *)

Definition is_surrogate (c : Z) : Prop := 55296 <= c <= 57343.

(** What is assumed of the host's ordinal comparison: between ASCII strings it ignores
    ASCII case, and a string without surrogates that equals an ASCII string does so unit
    by unit.  Nothing is assumed about which non-ASCII units equal an ASCII unit. *)
Class OrdinalUnits (CompareStringOrdinal : list Z -> list Z -> Z) := {
  #[global] units_ascii :: OrdinalAscii CompareStringOrdinal;
  ordinal_units : forall window needle,
    Forall (fun c => ~ is_surrogate c) window -> Forall is_ascii_unit needle ->
    length window = length needle -> CompareStringOrdinal window needle = CSTR_EQUAL ->
    Forall2 (fun a b => CompareStringOrdinal [a] [b] = CSTR_EQUAL) window needle
}.

Lemma FoldAscii_16 s : FoldAscii s = FoldAscii16 s.
Proof.
  apply list_fmap_ext. intros _ ch _. destruct (_ && _) eqn:E; [|done]. bool_prop.
  unfold wrap16. rewrite Z.mod_small; lia.
Qed.

Lemma trigrams_app pre s post t : t ∈ trigrams s -> t ∈ trigrams (pre ++ s ++ post).
Proof.
  intros Ht. induction pre as [|a pre IH]; cbn [app].
  - induction s as [|x [|y [|z s]] IHs]; [set_solver..|].
    change (trigrams (x :: y :: z :: s)) with (PackTrigram x y z :: trigrams (y :: z :: s)) in Ht.
    change (trigrams ((x :: y :: z :: s) ++ post)) with (PackTrigram x y z :: trigrams ((y :: z :: s) ++ post)).
    apply elem_of_cons in Ht as [->|Ht]; [set_solver|]. apply elem_of_cons. right. by apply IHs.
  - assert (exists b c r, pre ++ s ++ post = b :: c :: r) as (b & c & r & E).
    { destruct s as [|x [|y [|z s]]]; [set_solver..|].
      destruct pre as [|p [|q pre]]; cbn; eauto. }
    cbn [trigrams]. rewrite E in *. set_solver.
Qed.

Lemma FoldAscii16_app a b : FoldAscii16 (a ++ b) = FoldAscii16 a ++ FoldAscii16 b.
Proof. apply map_app. Qed.

Lemma ordinal_scan_true CSO n i h nd :
  ordinal_scan CSO n i h nd = true ->
  exists j, (i <= j < i + n)%nat /\ CSO (substr h j (length nd)) nd = CSTR_EQUAL.
Proof.
  revert i. induction n as [|n IH]; intros i; cbn [ordinal_scan]; [done|].
  destruct (Z.eqb_spec (CompareOrdinal16 CSO (substr h i (length nd)) nd) 0) as [E|_].
  - intros _. exists i. unfold CompareOrdinal16 in E. split; [lia|lia].
  - intros (j & ? & ?)%IH. exists j. split; [lia|done].
Qed.

Lemma OrdinalContains16_window CSO n term :
  term <> [] -> OrdinalContains16 CSO n term = true ->
  exists pre w post, n = pre ++ w ++ post /\ length w = length term /\ CSO w term = CSTR_EQUAL.
Proof.
  intros Hne. unfold OrdinalContains16. destruct term as [|c term]; [done|].
  destruct (Nat.ltb_spec (length n) (length (c :: term))) as [|Hl]; [done|].
  intros (j & Hj & He)%ordinal_scan_true. unfold alignments in Hj.
  exists (take j n), (substr n j (length (c :: term))), (drop (j + length (c :: term)) n). split; [|split; [|done]].
  - unfold substr. rewrite <-drop_drop. by rewrite !take_drop.
  - unfold substr. rewrite length_take, length_drop. lia.
Qed.

Lemma not_exceptional CSO n :
  NameNeedsExceptionalFallback CSO n = false -> Forall is_unit n ->
  Forall (fun c => ~ is_surrogate c /\
    forall a, is_ascii_unit a -> CSO [c] [a] = CSTR_EQUAL -> is_ascii_unit c) n.
Proof.
  unfold NameNeedsExceptionalFallback. intros Hx Hu. apply Forall_forall. intros c Hc.
  rewrite Forall_forall in Hu. specialize (Hu c Hc). unfold is_unit, is_ascii_unit, is_surrogate in *.
  assert ((127 <? c) && may_fold_to_ascii CSO c = false) as E.
  { destruct (_ && _) eqn:E; [|done]. rewrite <-Hx. symmetry. apply existsb_exists. exists c.
    split; [by apply list_elem_of_In|done]. }
  destruct (Z.ltb_spec 127 c) as [Hgt|]; [|split; [lia|intros; lia]]. cbn in E.
  unfold may_fold_to_ascii in E. destruct (Z.leb_spec c 127); [lia|].
  destruct ((55296 <=? c) && (c <=? 57343)) eqn:Es; [done|].
  split; [intros [? ?]; apply andb_false_iff in Es as [?|?]; bool_prop; lia|].
  intros a Ha Heq. exfalso. unfold probe_ascii in E. rewrite <-not_true_iff_false in E. apply E.
  apply existsb_exists. exists a. split; [apply list_elem_of_In, elem_of_seqZ; lia|]. by rewrite Heq.
Qed.

Lemma IsAscii_units s : Forall is_unit s -> IsAscii (FoldAscii16 s) = true -> Forall is_ascii_unit s.
Proof.
  unfold IsAscii. rewrite forallb_forall. intros Hu Ha. apply Forall_forall. intros c Hc.
  rewrite Forall_forall in Hu. specialize (Hu c Hc). unfold is_unit, is_ascii_unit in *.
  specialize (Ha (FoldAscii16Char c)). unfold FoldAscii16Char in Ha.
  assert ((if (65 <=? c) && (c <=? 90) then c + 32 else c) <=? 127 = true) as E.
  { apply Ha. rewrite FoldAscii16_map. change (In (FoldAscii16Char c) (map FoldAscii16Char s)). by apply in_map, list_elem_of_In. }
  destruct (_ && _) eqn:Eb; bool_prop; lia.
Qed.

(** In a name without exceptional units, a match of an ASCII term is a fold of that term. *)
Lemma ordinary_window CSO `{!OrdinalUnits CSO} n term :
  Forall is_unit n -> Forall is_ascii_unit term -> term <> [] -> NameNeedsExceptionalFallback CSO n = false ->
  OrdinalContains16 CSO n term = true ->
  exists pre w post, n = pre ++ w ++ post /\ Forall is_ascii_unit w /\ FoldAscii16 w = FoldAscii16 term.
Proof.
  intros Hn Hat Hne0 Hx Hmatch. destruct (OrdinalContains16_window CSO n term) as (pre & w & post & -> & Hl & Heq); [done..|].
  pose proof (not_exceptional CSO _ Hx Hn) as Hne. rewrite !Forall_app in Hne. destruct Hne as (_ & Hw & _).
  assert (Forall is_ascii_unit w) as Haw.
  { assert (Forall2 (fun a b => CSO [a] [b] = CSTR_EQUAL) w term) as H2.
    { apply ordinal_units; [|done..]. eapply Forall_impl; [exact Hw|]. by intros ? [? _]. }
    clear -Hw Hat H2. induction H2 as [|a b w term Hab _ IH]; [constructor|].
    apply Forall_cons in Hw as [[_ Ha] Hw]. apply Forall_cons in Hat as [Hb Hat]. constructor; [by eapply Ha|auto]. }
  exists pre, w, post. split; [done|]. split; [done|]. by apply ordinal_ascii_fold in Heq.
Qed.

Lemma candidates_complete CSO `{!OrdinalUnits CSO} ix names term m cs i n :
  accelerator_ok CSO ix names -> Forall is_unit n -> Forall is_unit term ->
  FilenameCandidateIndices ix (FoldAscii16 term) m = Some cs ->
  names !! i = Some n -> OrdinalContains16 CSO n term = true -> i ∈ cs.
Proof.
  intros Hok Hn Hterm Hcs Hi Hmatch.
  destruct (candidates_exact CSO ix names _ m cs Hok Hcs) as (_ & _ & Hlen & Ha & He).
  apply He. exists n. split; [done|]. destruct (NameNeedsExceptionalFallback CSO n) eqn:Hx; [by right|left].
  intros t Ht. rewrite length_FoldAscii16 in Hlen.
  destruct (ordinary_window CSO n term) as (pre & w & post & -> & _ & Heq);
    [done|by apply IsAscii_units|by intros ->; cbn in Hlen; lia|done|done|].
  rewrite FoldAscii_16, !FoldAscii16_app, Heq. by apply trigrams_app.
Qed.

(** The cache of fold probes only remembers answers. *)
Lemma UnitMayFoldToAscii_cached CSO cache unit :
  (forall u s, cache !! u = Some s -> s = 0 \/ s = if probe_ascii CSO u then 2 else 1) ->
  (UnitMayFoldToAscii CSO cache unit).1 = may_fold_to_ascii CSO unit /\
  (forall u s, (UnitMayFoldToAscii CSO cache unit).2 !! u = Some s ->
     s = 0 \/ s = if probe_ascii CSO u then 2 else 1).
Proof.
  intros Hc. unfold UnitMayFoldToAscii, may_fold_to_ascii. destruct (unit <=? 127); [done|].
  destruct (_ && _); [done|]. destruct (cache !! unit) as [s|] eqn:E; cbn [default].
  - destruct (Hc unit s E) as [->| ->]; cbn [id Z.eqb fst snd].
    + split; [by destruct (probe_ascii CSO unit)|]. intros u s'. destruct (decide (u = unit)) as [->|].
      * rewrite lookup_insert_eq. intros [= <-]. auto.
      * rewrite lookup_insert_ne by done. apply Hc.
    + by destruct (probe_ascii CSO unit).
  - cbn [from_option id Z.eqb fst snd].
    split; [by destruct (probe_ascii CSO unit)|]. intros u s'. destruct (decide (u = unit)) as [->|].
    + rewrite lookup_insert_eq. intros [= <-]. auto.
    + rewrite lookup_insert_ne by done. apply Hc.
Qed.
