(* ===== verification/Projection.v ===== *)
(** * Projection: the in-memory index

    Models class [Projection] of [src/src/indexstore/include/ffindexstore/Projection.h] and
    [src/src/indexstore/src/Projection.cpp]: the dense array of rows with its free list, the
    id map ([FlatHashMap]), the children map, the interned names, the filename accelerator
    and the access times, and the operations that read and change them.

    A projection refines a finite map from entry keys to records: [refines].  [Reject] is a
    C++ exception of one of the hash tables ([std::length_error]); what an exception leaves
    behind is not modelled, nor are allocation failures. *)

From stdpp Require Import gmap.
From S2P Require Import Prelude TextMatch FlatHashMap NamePool ChildrenMap FilenameIndex.

(** ** Records *)

(** [EntryRecord] of [EntryRecord.h]. *)
Record EntryRecord := mkRecord {
  r_id : FileId;
  r_parentId : FileId;
  r_name : list Z;
  r_sizeBytes : Z;
  r_allocatedSizeBytes : Z;
  r_allocatedSizeKnown : bool;
  r_creationTime : Z;
  r_lastModifiedTime : Z;
  r_lastAccessTime : Z;
  r_attributes : Z
}.

Record ProjectionEntry := mkEntry {
  e_volumeRowId : Z;
  e_frn : FileId;
  e_parentFrn : FileId;
  e_nameId : Z;
  e_sizeBytes : Z;
  e_allocatedSizeBytes : Z;
  e_allocatedSizeKnown : bool;
  e_creationTime : Z;
  e_lastModifiedTime : Z;
  e_lastAccessTime : Z;
  e_attributes : Z;
  e_nameAsciiLower : bool;
  e_nameIsAscii : bool
}.

(** Presence masks of partial updates. *)
Definition kEntryFieldParentId : Z := 1.
Definition kEntryFieldName : Z := 2.
Definition kEntryFieldSizeBytes : Z := 4.
Definition kEntryFieldCreationTime : Z := 8.
Definition kEntryFieldLastModifiedTime : Z := 16.
Definition kEntryFieldLastAccessTime : Z := 32.
Definition kEntryFieldAttributes : Z := 64.
Definition kEntryFieldAllocatedSizeBytes : Z := 128.
Definition kEntryFieldMaskAll : Z := 255.

Definition HasEntryField (fields field : Z) : bool := negb (Z.land fields field =? 0).

(** ** State *)

Record Rows := mkRows {
  namePool_ : NamePool;
  entries_ : list ProjectionEntry;
  freeList_ : list Z;
  idToIndex_ : FlatHashMap EntryKey Z;
  parentToChildren_ : FlatChildrenMap;
  denseIterationOrderValid_ : bool
}.

(** The dense access times. *)
Record AccessTimes := mkTimes { accessClock_ : Z; lastAccessTimes_ : list Z }.

(** The memory policy. *)
Record Policy := mkPolicy {
  maximumMemoryBytes_ : Z;
  enforcingMemoryLimit_ : bool;
  bulkScanActive_ : bool;
  evictedVolumes_ : gset Z;
  subtreeEvictionCount_ : Z;
  coldReloadCount_ : Z;
  coldReloadFailedCount_ : Z;
  lastEvictionBytesBefore_ : Z;
  lastEvictionBytesAfter_ : Z
}.

Record Projection := mkProjection {
  rows : Rows;
  filenameIndex : FilenameIndex;
  times : AccessTimes;
  policy : Policy
}.

Definition kDefaultMaximumMemoryBytes : Z := 500 * 1024 * 1024.

Definition empty_rows : Rows := mkRows empty_pool [] [] empty_map empty_children false.

Definition new_projection : Projection :=
  mkProjection empty_rows new_filename_index (mkTimes 0 [])
    (mkPolicy kDefaultMaximumMemoryBytes true false ∅ 0 0 0 0 0).

Definition with_index (p : Projection) (ix : FilenameIndex) : Projection :=
  mkProjection (rows p) ix (times p) (policy p).

(** [entries_[index]]. *)
Definition entry_at (p : Projection) (index : Z) : result ProjectionEntry :=
  match entries_ (rows p) !! Z.to_nat index with Some e => Ok e | None => Fault end.

(** ** Access times *)

Definition UINT64_MAX : Z := 18446744073709551615.

Definition TouchIndex (t : AccessTimes) (index : Z) : AccessTimes :=
  if zlen (lastAccessTimes_ t) <=? index then t
  else if accessClock_ t =? UINT64_MAX
  then mkTimes 1 (<[Z.to_nat index := 1]> (replicate (length (lastAccessTimes_ t)) 0))
  else mkTimes (accessClock_ t + 1) (<[Z.to_nat index := accessClock_ t + 1]> (lastAccessTimes_ t)).

Definition touch (p : Projection) (index : Z) : Projection :=
  mkProjection (rows p) (filenameIndex p) (TouchIndex (times p) index) (policy p).

(** [lastAccessTimes_.resize (index + 1, 0)] where needed, then the slot is reset. *)
Definition reset_time (t : AccessTimes) (index : Z) : AccessTimes :=
  let ts := lastAccessTimes_ t ++ replicate (Z.to_nat (index + 1) - length (lastAccessTimes_ t)) 0 in
  mkTimes (accessClock_ t) (<[Z.to_nat index := 0]> ts).

Section projection.
Context (CompareStringOrdinal : list Z -> list Z -> Z).

(** ** The accelerator at row level *)

Definition add_index_entry (p : Projection) (index : Z) : result Projection :=
  if negb (filenameIndexValid_ (filenameIndex p)) then Ok p
  else
    let* entry := entry_at p index in
    let* name := Get (namePool_ (rows p)) (e_nameId entry) in
    Ok (with_index p (AddFilenameIndexEntry CompareStringOrdinal (filenameIndex p) index name)).

(** The rows in the order of [ForEachValue], with their names. *)
Fixpoint indexed_names (p : Projection) (es : list (EntryKey * Z)) : result (list (Z * list Z)) :=
  match es with
  | [] => Ok []
  | (_, index) :: rest =>
      let* entry := entry_at p index in
      let* name := Get (namePool_ (rows p)) (e_nameId entry) in
      let* more := indexed_names p rest in
      Ok ((index, name) :: more)
  end.

Definition live_ids (r : Rows) : list (EntryKey * Z) :=
  live_entries (keys_ (idToIndex_ r)) (values_ (idToIndex_ r)) (states_ (idToIndex_ r)).

Definition rebuild_index (p : Projection) : result Projection :=
  let* named := indexed_names p (live_ids (rows p)) in
  Ok (with_index p (RebuildFilenameIndex CompareStringOrdinal named)).

(** ** Upsert *)

Definition new_entry (volume : Z) (record : EntryRecord) (nameId : Z) : ProjectionEntry := {|
  e_volumeRowId := volume; e_frn := r_id record; e_parentFrn := r_parentId record;
  e_nameId := nameId; e_sizeBytes := r_sizeBytes record;
  e_allocatedSizeBytes := r_allocatedSizeBytes record;
  e_allocatedSizeKnown := r_allocatedSizeKnown record;
  e_creationTime := r_creationTime record; e_lastModifiedTime := r_lastModifiedTime record;
  e_lastAccessTime := r_lastAccessTime record; e_attributes := r_attributes record;
  e_nameAsciiLower := IsAsciiLower (r_name record); e_nameIsAscii := IsAscii (r_name record)
|}.

(** The assignments to an existing row: its volume and id stay. *)
Definition update_entry (entry : ProjectionEntry) (record : EntryRecord) (nameId : Z)
    : ProjectionEntry := {|
  e_volumeRowId := e_volumeRowId entry; e_frn := e_frn entry; e_parentFrn := r_parentId record;
  e_nameId := nameId; e_sizeBytes := r_sizeBytes record;
  e_allocatedSizeBytes := r_allocatedSizeBytes record;
  e_allocatedSizeKnown := r_allocatedSizeKnown record;
  e_creationTime := r_creationTime record; e_lastModifiedTime := r_lastModifiedTime record;
  e_lastAccessTime := r_lastAccessTime record; e_attributes := r_attributes record;
  e_nameAsciiLower := IsAsciiLower (r_name record); e_nameIsAscii := IsAscii (r_name record)
|}.

(** A self-referential parent is the volume root: not a child of itself. *)
Definition link_child (children : FlatChildrenMap) (volume : Z) (record : EntryRecord) (index : Z)
    : result FlatChildrenMap :=
  if bool_decide (r_parentId record = r_id record) then Ok children
  else children_insert children (mkEntryKey volume (r_parentId record)) index.

(** The branch of [Upsert] for a row that exists. *)
Definition UpsertExisting (p : Projection) (volume : Z) (record : EntryRecord) (index : Z)
    : result Projection :=
  let r := rows p in
  let* entry := entry_at p index in
  let* oldName := if filenameIndexValid_ (filenameIndex p) then Get (namePool_ r) (e_nameId entry)
                  else Ok [] in
  let* '(names, nameId) := Intern (namePool_ r) (r_name record) in
  let ix := if filenameIndexValid_ (filenameIndex p)
            then RemoveFilenameIndexEntry CompareStringOrdinal (filenameIndex p) index oldName
            else filenameIndex p in
  let* children :=
    if bool_decide (e_parentFrn entry = r_parentId record) then Ok (parentToChildren_ r)
    else
      let* children := children_remove (parentToChildren_ r)
                         (mkEntryKey volume (e_parentFrn entry)) index in
      link_child children volume record index in
  let r := mkRows names (<[Z.to_nat index := update_entry entry record nameId]> (entries_ r))
             (freeList_ r) (idToIndex_ r) children (denseIterationOrderValid_ r) in
  add_index_entry (touch (mkProjection r ix (times p) (policy p)) index) index.

(** A slot for a new row: the last free one, or the end of the array. *)
Definition allocate_slot (r : Rows) (entry : ProjectionEntry)
    : result (Z * list ProjectionEntry * list Z) :=
  match last (freeList_ r) with
  | Some index =>
      if (Z.to_nat index <? length (entries_ r))%nat
      then Ok (index, <[Z.to_nat index := entry]> (entries_ r),
               take (length (freeList_ r) - 1) (freeList_ r))
      else Fault
  | None => Ok (wrap32 (zlen (entries_ r)), entries_ r ++ [entry], freeList_ r)
  end.

(** The branch of [Upsert] for a new row. *)
Definition UpsertNew (p : Projection) (volume : Z) (record : EntryRecord) : result Projection :=
  let r := rows p in
  let* '(names, nameId) := Intern (namePool_ r) (r_name record) in
  let* '(index, entries, free) := allocate_slot r (new_entry volume record nameId) in
  let t := reset_time (times p) index in
  let* ids := insert EntryKeyHash (idToIndex_ r) (mkEntryKey volume (r_id record)) index in
  let* children := link_child (parentToChildren_ r) volume record index in
  let r := mkRows names entries free ids children false in
  add_index_entry (touch (mkProjection r (filenameIndex p) t (policy p)) index) index.

Definition Upsert (p : Projection) (volume : Z) (record : EntryRecord) : result Projection :=
  match find EntryKeyHash (idToIndex_ (rows p)) (mkEntryKey volume (r_id record)) with
  | Some index => UpsertExisting p volume record index
  | None => UpsertNew p volume record
  end.

(** ** Find *)

Definition Find (p : Projection) (volume : Z) (id : FileId)
    : result (option ProjectionEntry * Projection) :=
  match find EntryKeyHash (idToIndex_ (rows p)) (mkEntryKey volume id) with
  | None => Ok (None, p)
  | Some index => let* entry := entry_at p index in Ok (Some entry, touch p index)
  end.

(** ** Partial updates *)

(** [merged] before the masked assignments. *)
Definition existing_record (record : EntryRecord) (entry : ProjectionEntry) (name : list Z)
    : EntryRecord :=
  mkRecord (r_id record) (e_parentFrn entry) name (e_sizeBytes entry) (e_allocatedSizeBytes entry)
    (e_allocatedSizeKnown entry) (e_creationTime entry) (e_lastModifiedTime entry)
    (e_lastAccessTime entry) (e_attributes entry).

(** [merged] when there is no row: every absent field is zero. *)
Definition default_record (id : FileId) : EntryRecord :=
  mkRecord id (mkFileId 0 0) [] 0 0 false 0 0 0 0.

(** The masked assignments from [record] over [base]. *)
Definition merge_fields (base record : EntryRecord) (fields : Z) : EntryRecord :=
  let pick {A} (field : Z) (proj : EntryRecord -> A) : A :=
    if HasEntryField fields field then proj record else proj base in
  mkRecord (r_id record) (pick kEntryFieldParentId r_parentId) (pick kEntryFieldName r_name)
    (pick kEntryFieldSizeBytes r_sizeBytes)
    (pick kEntryFieldAllocatedSizeBytes r_allocatedSizeBytes)
    (pick kEntryFieldAllocatedSizeBytes r_allocatedSizeKnown)
    (pick kEntryFieldCreationTime r_creationTime)
    (pick kEntryFieldLastModifiedTime r_lastModifiedTime)
    (pick kEntryFieldLastAccessTime r_lastAccessTime)
    (pick kEntryFieldAttributes r_attributes).

Definition UpsertPartial (p : Projection) (volume : Z) (record : EntryRecord) (fields : Z)
    : result Projection :=
  if fields =? kEntryFieldMaskAll then Upsert p volume record
  else
    let* '(existing, p) := Find p volume (r_id record) in
    match existing with
    | Some entry =>
        let* name := Get (namePool_ (rows p)) (e_nameId entry) in
        Upsert p volume (merge_fields (existing_record record entry name) record fields)
    | None => Upsert p volume (merge_fields (default_record (r_id record)) record fields)
    end.

(** ** Removal *)

Definition Remove (p : Projection) (volume : Z) (id : FileId) : result Projection :=
  let key := mkEntryKey volume id in
  let r := rows p in
  match find EntryKeyHash (idToIndex_ r) key with
  | None => Ok p
  | Some index =>
      let* entry := entry_at p index in
      let* name := Get (namePool_ r) (e_nameId entry) in
      let ix := RemoveFilenameIndexEntry CompareStringOrdinal (filenameIndex p) index name in
      let* children := children_remove (parentToChildren_ r)
                         (mkEntryKey volume (e_parentFrn entry)) index in
      let ts := lastAccessTimes_ (times p) in
      let t := mkTimes (accessClock_ (times p))
                 (if index <? zlen ts then <[Z.to_nat index := 0]> ts else ts) in
      Ok (mkProjection
            (mkRows (namePool_ r) (entries_ r) (freeList_ r ++ [index])
               (erase EntryKeyHash (idToIndex_ r) key) children false)
            ix t (policy p))
  end.

Fixpoint remove_each (p : Projection) (volume : Z) (ids : list FileId) : result Projection :=
  match ids with
  | [] => Ok p
  | id :: rest => let* p := Remove p volume id in remove_each p volume rest
  end.

Definition kPerEntryFilenameRemovalThreshold : Z := 256.

Definition RemoveBatch (p : Projection) (volume : Z) (ids : list FileId)
    (keepFilenameIndexCurrent : bool) : result Projection :=
  match ids with
  | [] => Ok p
  | _ :: _ =>
      let wasValid := filenameIndexValid_ (filenameIndex p) in
      let bulk := kPerEntryFilenameRemovalThreshold <? zlen ids in
      let p := if bulk && wasValid then with_index p (InvalidateFilenameIndex (filenameIndex p))
               else p in
      let* p := remove_each p volume ids in
      let* p := if bulk && wasValid && keepFilenameIndexCurrent then rebuild_index p else Ok p in
      Ok (if keepFilenameIndexCurrent then p
          else with_index p (InvalidateFilenameIndex (filenameIndex p)))
  end.

Definition volume_ids (r : Rows) (volume : Z) : list FileId :=
  map (fun e => frn e.1) (filter (fun e => volumeRowId e.1 = volume) (live_ids r)).

Definition RemoveVolume (p : Projection) (volume : Z) (keepFilenameIndexCurrent : bool)
    : result Projection :=
  RemoveBatch p volume (volume_ids (rows p) volume) keepFilenameIndexCurrent.

(** ** Children and bulk scans *)

Definition ChildIndices (p : Projection) (volume : Z) (parent : FileId)
    : result (list Z * Projection) :=
  let key := mkEntryKey volume parent in
  let* children := children_find (parentToChildren_ (rows p)) key in
  Ok (children, match find EntryKeyHash (idToIndex_ (rows p)) key with
                | Some index => touch p index
                | None => p
                end).

Definition set_policy (p : Projection) (enforcing bulk : bool) : Projection :=
  let c := policy p in
  mkProjection (rows p) (filenameIndex p) (times p)
    (mkPolicy (maximumMemoryBytes_ c) enforcing bulk (evictedVolumes_ c) (subtreeEvictionCount_ c)
       (coldReloadCount_ c) (coldReloadFailedCount_ c) (lastEvictionBytesBefore_ c)
       (lastEvictionBytesAfter_ c)).

Definition SetBulkScanActive (p : Projection) (active : bool) : result Projection :=
  if active
  then Ok (set_policy (with_index p (InvalidateFilenameIndex (filenameIndex p))) false true)
  else
    let* p := rebuild_index p in
    Ok (set_policy p true false).
End projection.

(** ** The invariant

    [st] gives the slot and the record of every live key, [names] the interned names and
    [ch] the children lists. *)

Abbreviation State := (gmap EntryKey (Z * EntryRecord)).

Definition row_rep (names : list (list Z)) (k : EntryKey) (r : EntryRecord) (e : ProjectionEntry) : Prop :=
  r_id r = frn k /\
  exists nameId, 0 <= nameId /\ names !! Z.to_nat nameId = Some (r_name r) /\
    e = new_entry (volumeRowId k) r nameId.

(** What every operation needs of the rows. *)
Record rows_ok (r : Rows) (names : list (list Z)) (st : State) : Prop := {
  ok_names : pool_rep (namePool_ r) names;
  ok_ids : represents EntryKeyHash (idToIndex_ r) (fst <$> st);
  ok_inj : forall k k' i x x', st !! k = Some (i, x) -> st !! k' = Some (i, x') -> k = k';
  ok_row : forall k i x, st !! k = Some (i, x) ->
    0 <= i /\ exists e, entries_ r !! Z.to_nat i = Some e /\ row_rep names k x e
}.

(** [i] is the slot of a live child of the directory [k]. *)
Definition child_slot (st : State) (k : EntryKey) (i : Z) : Prop :=
  exists k' x, st !! k' = Some (i, x) /\ volumeRowId k' = volumeRowId k /\
    r_parentId x = frn k /\ r_parentId x <> r_id x.

Definition children_ok (ch : gmap EntryKey (list Z)) (st : State) : Prop :=
  forall k, NoDup (default [] (ch !! k)) /\
    forall i, i ∈ default [] (ch !! k) <-> child_slot st k i.

Definition slots_free (r : Rows) (st : State) : Prop :=
  NoDup (freeList_ r) /\
  forall i, i ∈ freeList_ r -> 0 <= i < zlen (entries_ r) /\ forall k x, st !! k <> Some (i, x).

(** The names of the live slots. *)
Definition slot_names_ok (sn : gmap Z (list Z)) (st : State) : Prop :=
  forall i n, sn !! i = Some n <-> exists k x, st !! k = Some (i, x) /\ r_name x = n.

Section refinement.
Context (CSO : list Z -> list Z -> Z).

Record tables_ok (r : Rows) (names : list (list Z)) (st : State) : Prop := {
  ok_rows : rows_ok r names st;
  ok_children : exists ch, holds (parentToChildren_ r) ch /\ children_ok ch st;
  ok_free : slots_free r st;
  ok_dense : denseIterationOrderValid_ r = true ->
    forall j : nat, (j < length (entries_ r))%nat -> exists k x, st !! k = Some (Z.of_nat j, x);
  ok_size : zlen (entries_ r) <= 4294967296
}.

Record proj_ok (p : Projection) (names : list (list Z)) (st : State) : Prop := {
  ok_tables : tables_ok (rows p) names st;
  ok_index : exists sn, slot_names_ok sn st /\ accelerator_ok CSO (filenameIndex p) sn
}.

(** [p] stores exactly the records [g]. *)
Definition refines (p : Projection) (g : gmap EntryKey EntryRecord) : Prop :=
  exists names st, proj_ok p names st /\ g = snd <$> st.

(** ** Small facts *)

Lemma lookup_slots (st : State) k i : (fst <$> st) !! k = Some i <-> exists x, st !! k = Some (i, x).
Proof.
  rewrite lookup_fmap_Some. split.
  - intros ([j x] & <- & Hk). eauto.
  - intros (x & Hk). by exists (i, x).
Qed.

Lemma row_rep_prefix names names' k r e : names `prefix_of` names' -> row_rep names k r e -> row_rep names' k r e.
Proof.
  intros Hp (Hid & nid & Hn & Hl & ->). split; [done|]. exists nid. split; [done|]. split; [|done].
  by eapply prefix_lookup_Some.
Qed.

Lemma row_rep_id names k r e : row_rep names k r e -> e_parentFrn e = r_parentId r /\ e_frn e = frn k /\ e_volumeRowId e = volumeRowId k.
Proof. intros (<- & nid & _ & _ & ->). done. Qed.

Lemma row_rep_name p names k r e :
  pool_rep p names -> row_rep names k r e -> Get p (e_nameId e) = Ok (r_name r).
Proof.
  intros Hp (_ & nid & Hn & Hl & ->). cbn [new_entry e_nameId]. rewrite (Get_spec p names) by done. by rewrite Hl.
Qed.

Lemma find_slot_of r names st k :
  rows_ok r names st -> find EntryKeyHash (idToIndex_ r) k = fst <$> st !! k.
Proof. intros H. rewrite (find_refines _ _ _ k (ok_ids _ _ _ H)). apply lookup_fmap. Qed.

Lemma rows_entry_at p names st k i x :
  rows_ok (rows p) names st -> st !! k = Some (i, x) ->
  exists e, entry_at p i = Ok e /\ entries_ (rows p) !! Z.to_nat i = Some e /\ row_rep names k x e.
Proof.
  intros H Hk. destruct (ok_row _ _ _ H k i x Hk) as (Hi & e & He & Hr). exists e.
  unfold entry_at. by rewrite He.
Qed.

(** ** Children *)

Lemma position_none c l : c ∉ l -> position c l = None.
Proof.
  induction l as [|x l IH]; intros Hc; cbn [position]; [done|]. apply not_elem_of_cons in Hc as [Hne Hc].
  destruct (Z.eqb_spec x c); [congruence|]. by rewrite IH.
Qed.

Lemma remove_child_absent ch k c : c ∉ default [] (ch !! k) -> remove_child ch k c = ch.
Proof. unfold remove_child. destruct (ch !! k) as [l|]; [|done]. cbn. intros. by rewrite position_none. Qed.

Lemma children_ok_remove ch st k i x :
  children_ok ch st -> st !! k = Some (i, x) ->
  (forall k' i' y y', st !! k = Some (i', y) -> st !! k' = Some (i', y') -> k = k') ->
  children_ok (remove_child ch (mkEntryKey (volumeRowId k) (r_parentId x)) i) (delete k st).
Proof.
  intros Hch Hk Hinj. set (pk := mkEntryKey _ _). intros q.
  assert (forall j, child_slot (delete k st) q j <-> child_slot st q j /\ j <> i) as Hdel.
  { intros j. split.
    - intros (k' & y & [Hne Hy]%lookup_delete_Some & Hr). split; [exists k', y; auto|].
      intros ->. by eapply Hne, Hinj.
    - intros [(k' & y & Hy & Hr) Hne]. exists k', y. split; [|done]. apply lookup_delete_Some.
      split; [|done]. intros ->. congruence. }
  destruct (decide (i ∈ default [] (ch !! pk))) as [Hin|Hnin].
  - destruct (ch !! pk) as [l|] eqn:El; [|set_solver]. cbn in Hin.
    destruct (remove_child_spec ch pk i l El Hin) as [Hperm Hoth].
    destruct (Hch pk) as [Hnd Hel]. rewrite El in Hnd, Hel. cbn in Hnd, Hel.
    rewrite Hperm in Hnd. apply NoDup_cons in Hnd as [Hni Hnd].
    destruct (decide (q = pk)) as [->|Hne].
    + split; [done|]. intros j. rewrite Hdel, <-Hel, Hperm, elem_of_cons. split; [|tauto].
      intros Hj. split; [auto|]. intros ->. done.
    + rewrite Hoth by done. destruct (Hch q) as [Hndq Helq]. split; [done|]. intros j. rewrite Hdel, Helq.
      split; [|tauto]. intros Hj. split; [done|]. intros ->. apply Hne.
      destruct Hj as (k' & y & Hy & Hv & Hp & _). assert (k = k') as <- by (by eapply Hinj). simplify_eq.
      unfold pk. destruct q. cbn in *. congruence.
  - rewrite remove_child_absent by done. destruct (Hch q) as [Hndq Helq]. split; [done|].
    intros j. rewrite Hdel, Helq. split; [|tauto]. intros Hj. split; [done|]. intros ->. apply Hnin.
    apply (Hch pk). destruct Hj as (k' & y & Hy & Hv & Hp & Hs). assert (k = k') as <- by (by eapply Hinj).
    simplify_eq. exists k, x. done.
Qed.

Lemma children_ok_link m ch st volume r i :
  holds m ch -> children_ok ch st -> st !! mkEntryKey volume (r_id r) = None ->
  (forall k y, st !! k <> Some (i, y)) ->
  safe (link_child m volume r i) (fun m' => exists ch', holds m' ch' /\
    children_ok ch' (<[mkEntryKey volume (r_id r) := (i, r)]> st)).
Proof.
  intros Hm Hch Hk Hfresh. unfold link_child. set (k := mkEntryKey volume (r_id r)) in *.
  assert (forall q j, child_slot (<[k := (i, r)]> st) q j <->
    child_slot st q j \/ (j = i /\ q = mkEntryKey volume (r_parentId r) /\ r_parentId r <> r_id r)) as Hins.
  { intros q j. split.
    - intros (k' & y & [[<- [= <- <-]]|[Hne Hy]]%lookup_insert_Some & Hv & Hp & Hs); [right|left; exists k', y; auto].
      split; [done|]. split; [|done]. destruct q. cbn in *. congruence.
    - intros [(k' & y & Hy & Hr)|(-> & -> & Hs)].
      + exists k', y. rewrite lookup_insert_ne by congruence. auto.
      + exists k, r. rewrite lookup_insert_eq. done. }
  destruct (bool_decide_reflect (r_parentId r = r_id r)) as [Hs|Hs].
  - cbn. exists ch. split; [done|]. intros q. destruct (Hch q) as [Hnd Hel]. split; [done|].
    intros j. rewrite Hins, Hel. tauto.
  - eapply safe_mono; [by apply children_insert_refines|]. intros m' Hm'. eexists. split; [exact Hm'|].
    intros q. destruct (Hch q) as [Hnd Hel]. unfold append_child.
    destruct (decide (q = mkEntryKey volume (r_parentId r))) as [->|Hne].
    + rewrite lookup_insert_eq. cbn. split.
      * apply NoDup_app. split; [done|]. split; [|apply NoDup_singleton].
        intros j Hj ->%list_elem_of_singleton. apply Hel in Hj as (k' & y & Hy & _). by eapply Hfresh.
      * intros j. rewrite Hins, elem_of_app, list_elem_of_singleton, Hel. tauto.
    + rewrite lookup_insert_ne by done. split; [done|]. intros j. rewrite Hins, Hel. tauto.
Qed.

Lemma children_ok_same ch st k i x x' :
  children_ok ch st -> st !! k = Some (i, x) -> r_parentId x' = r_parentId x -> r_id x' = r_id x ->
  children_ok ch (<[k := (i, x')]> st).
Proof.
  intros Hch Hk Hp Hid q. destruct (Hch q) as [Hnd Hel]. split; [done|]. intros j. rewrite Hel. split.
  - intros (k' & y & Hy & Hr). destruct (decide (k' = k)) as [->|Hne].
    + simplify_eq. exists k, x'. rewrite lookup_insert_eq. rewrite Hp, Hid. done.
    + exists k', y. by rewrite lookup_insert_ne by done.
  - intros (k' & y & [[<- [= <- <-]]|[Hne Hy]]%lookup_insert_Some & Hr).
    + exists k, x. rewrite Hp, Hid in Hr. done.
    + by exists k', y.
Qed.

(** ** Names *)

(** [name] is in the pool. *)
Definition interned (r : Rows) (name : list Z) : Prop :=
  exists id, 0 <= id < zlen (NamePool.table_ (namePool_ r)) /\ Get (namePool_ r) id = Ok name.

(** Room for one more record whose name needs at most [chars] units of the arena: the slot
    numbers, the name ids and the arena offsets are 32 bits wide. *)
Definition room (r : Rows) (record : EntryRecord) (chars : Z) : Prop :=
  (interned r (r_name record) \/ zlen (r_name record) <= chars) /\ 0 <= chars /\
  zlen (arena_ (namePool_ r)) + chars <= UINT32_MAX /\
  zlen (NamePool.table_ (namePool_ r)) < UINT32_MAX /\ zlen (entries_ r) < 4294967296.

(** What an operation on [record] may add. *)
Definition grown (p p' : Projection) (chars records : Z) : Prop :=
  zlen (arena_ (namePool_ (rows p'))) <= zlen (arena_ (namePool_ (rows p))) + chars /\
  zlen (NamePool.table_ (namePool_ (rows p'))) <= zlen (NamePool.table_ (namePool_ (rows p))) + records /\
  zlen (entries_ (rows p')) <= zlen (entries_ (rows p)) + records /\ policy p' = policy p.

Lemma pool_sizes p names :
  pool_rep p names -> zlen (arena_ p) = zlen (pool_text names) /\ zlen (NamePool.table_ p) = zlen names.
Proof.
  intros Hp. rewrite (rep_arena _ _ Hp). split; [done|].
  unfold zlen. by rewrite (Forall2_length _ _ _ (rep_table _ _ Hp)).
Qed.

Lemma interned_elem r names name : pool_rep (namePool_ r) names -> interned r name -> name ∈ names.
Proof.
  intros Hp (id & Hid & Hget). destruct (pool_sizes _ _ Hp) as [_ Et]. rewrite Et in Hid.
  rewrite (Get_spec _ names) in Hget by (done || lia).
  destruct (lookup_lt_is_Some_2 names (Z.to_nat id)) as [n Hn]; [unfold zlen in Hid; lia|].
  rewrite Hn in Hget. injection Hget as <-. by eapply list_elem_of_lookup_2.
Qed.

Lemma Intern_room r names record chars :
  pool_rep (namePool_ r) names -> room r record chars ->
  exists p' id names', Intern (namePool_ r) (r_name record) = Ok (p', id) /\ 0 <= id /\ pool_rep p' names' /\
    names `prefix_of` names' /\ names' !! Z.to_nat id = Some (r_name record) /\
    zlen (arena_ p') <= zlen (arena_ (namePool_ r)) + chars /\
    zlen (NamePool.table_ p') <= zlen (NamePool.table_ (namePool_ r)) + 1.
Proof.
  intros Hp (Hin & Hc & Ha & Ht & _).
  assert (r_name record ∈ names \/ zlen (r_name record) <= chars) as Hin'.
  { destruct Hin; [left; by eapply interned_elem|by right]. }
  destruct (decide (r_name record ∈ names)) as [Hk|Hk].
  - destruct (Intern_known _ names _ Hp Hk) as (id & -> & Hid & Hn).
    exists (namePool_ r), id, names. split; [done|]. split; [done|]. split; [done|]. split; [done|]. split; [done|]. lia.
  - destruct (pool_sizes _ names Hp) as [Ea Et]. rewrite Ea, Et in *. destruct Hin' as [?|Hle]; [done|].
    destruct (Intern_spec _ names (r_name record) Hp) as (p' & id & Hi & Hid & Hp' & Hn); [lia|done|].
    rewrite decide_False in Hp', Hn by done. exists p', id, (names ++ [r_name record]).
    split; [done|]. split; [done|]. split; [done|]. split; [by apply prefix_app_r|]. split; [done|].
    destruct (pool_sizes p' _ Hp') as [-> ->]. rewrite pool_text_snoc, !zlen_app.
    change (zlen [r_name record]) with 1. lia.
Qed.

(** ** Slots *)

Lemma slot_in_range r names st k i x : rows_ok r names st -> st !! k = Some (i, x) -> 0 <= i < zlen (entries_ r).
Proof.
  intros H Hk. destruct (ok_row _ _ _ H k i x Hk) as (Hi & e & He%lookup_lt_Some & _). unfold zlen. lia.
Qed.

Lemma allocate_slot_spec r names st e :
  rows_ok r names st -> slots_free r st -> zlen (entries_ r) < 4294967296 ->
  exists i entries free, allocate_slot r e = Ok (i, entries, free) /\ 0 <= i < 4294967296 /\
    (forall k x, st !! k <> Some (i, x)) /\ entries !! Z.to_nat i = Some e /\
    (forall j : nat, j <> Z.to_nat i -> (j < length (entries_ r))%nat -> entries !! j = entries_ r !! j) /\
    zlen (entries_ r) <= zlen entries <= zlen (entries_ r) + 1 /\
    NoDup free /\ forall j, j ∈ free -> j ∈ freeList_ r /\ j <> i.
Proof using.
  clear CSO. intros Hr [Hnd Hfree] Hsz. unfold allocate_slot. destruct (last (freeList_ r)) as [i|] eqn:El.
  - apply last_Some in El as [l Hl]. rewrite Hl in *.
    destruct (Hfree i) as [Hi Hst]; [rewrite elem_of_app, list_elem_of_singleton; auto|].
    rewrite (proj2 (Nat.ltb_lt _ _)) by (unfold zlen in Hi; lia). eexists i, _, l. split.
    { do 2 f_equal. rewrite length_app, Nat.add_sub. apply take_app_length. }
    apply NoDup_app in Hnd as (Hnd & Hdis & _).
    split; [lia|]. split; [done|]. split; [apply list_lookup_insert_eq; unfold zlen in Hi; lia|].
    split; [intros j Hj _; by apply list_lookup_insert_ne|]. split; [unfold zlen; rewrite length_insert; lia|].
    split; [done|]. intros j Hj. split; [by rewrite elem_of_app; left|]. intros ->. eapply Hdis; [done|]. set_solver.
  - apply last_None in El. rewrite El. pose proof (zlen_nonneg (entries_ r)).
    unfold wrap32. rewrite Z.mod_small by lia. eexists _, _, []. split; [done|]. split; [lia|].
    split; [intros k x Hk; pose proof (slot_in_range r names st k _ x Hr Hk); lia|].
    rewrite zlen_to_nat. split; [by rewrite lookup_app_r, Nat.sub_diag by done|].
    split; [intros j _ Hj; by apply lookup_app_l|]. rewrite zlen_app. change (zlen [e]) with 1.
    split; [lia|]. split; [constructor|]. set_solver.
Qed.

(** ** The accelerator *)

Lemma slot_names_delete sn st k i x :
  slot_names_ok sn st -> st !! k = Some (i, x) ->
  (forall k' y y', st !! k = Some (i, y) -> st !! k' = Some (i, y') -> k = k') ->
  sn !! i = Some (r_name x) /\ slot_names_ok (delete i sn) (delete k st).
Proof.
  intros Hsn Hk Hinj. split; [apply Hsn; eauto|]. intros j n. rewrite lookup_delete_Some. split.
  - intros [Hne (k' & y & Hy & Hn)%Hsn]. exists k', y. split; [|done]. rewrite lookup_delete_ne; [done|congruence].
  - intros (k' & y & [Hne Hy]%lookup_delete_Some & Hn). split; [|apply Hsn; eauto].
    intros ->. apply Hne. by eapply Hinj.
Qed.

Lemma slot_names_insert sn st k i x :
  slot_names_ok sn st -> st !! k = None -> (forall k' y, st !! k' <> Some (i, y)) ->
  sn !! i = None /\ slot_names_ok (<[i := r_name x]> sn) (<[k := (i, x)]> st).
Proof.
  intros Hsn Hk Hfresh. split.
  { destruct (sn !! i) as [n|] eqn:E; [|done]. apply Hsn in E as (k' & y & ? & _). by eapply Hfresh in H. }
  intros j n. rewrite lookup_insert_Some. split.
  - intros [[<- <-]|[Hne (k' & y & Hy & Hn)%Hsn]].
    + exists k, x. by rewrite lookup_insert_eq.
    + exists k', y. rewrite lookup_insert_ne by congruence. done.
  - intros (k' & y & [[<- [= <- <-]]|[Hne Hy]]%lookup_insert_Some & Hn); [auto|].
    right. split; [intros ->; by eapply Hfresh|]. apply Hsn. eauto.
Qed.

Lemma add_index_entry_ok p names st sn k i x :
  rows_ok (rows p) names st -> st !! k = Some (i, x) ->
  accelerator_ok CSO (filenameIndex p) sn -> sn !! i = None ->
  exists ix, add_index_entry CSO p i = Ok (with_index p ix) /\ accelerator_ok CSO ix (<[i := r_name x]> sn).
Proof.
  intros Hr Hk Hok Hi. unfold add_index_entry. destruct (filenameIndexValid_ (filenameIndex p)) eqn:Hv; cbn [negb].
  - destruct (rows_entry_at p names st k i x Hr Hk) as (e & -> & _ & He). cbn [bind].
    rewrite (row_rep_name _ names k x e (ok_names _ _ _ Hr) He). cbn [bind]. eexists. split; [done|].
    by apply add_entry_ok.
  - exists (filenameIndex p). split; [by destruct p|]. destruct Hok as [Hb _]. split; [done|]. congruence.
Qed.

Lemma remove_index_ok ix sn i n n' :
  accelerator_ok CSO ix sn -> sn !! i = Some n -> (filenameIndexValid_ ix = true -> n' = n) ->
  accelerator_ok CSO (if filenameIndexValid_ ix then RemoveFilenameIndexEntry CSO ix i n' else ix) (delete i sn).
Proof.
  intros Hok Hi Hn. destruct (filenameIndexValid_ ix) eqn:Hv.
  - rewrite Hn by done. by apply remove_entry_ok.
  - destruct Hok as [Hb _]. split; [done|]. congruence.
Qed.

(** ** Upsert *)

(** Rewriting one row of the array keeps the others. *)
Lemma rows_ok_write r r' names names' st k i x e nameId :
  rows_ok r names st -> names `prefix_of` names' -> pool_rep (namePool_ r') names' ->
  represents EntryKeyHash (idToIndex_ r') (<[k := i]> (fst <$> st)) ->
  (forall k' y, st !! k' = Some (i, y) -> k' = k) -> 0 <= i ->
  entries_ r' !! Z.to_nat i = Some e ->
  (forall j : nat, j <> Z.to_nat i -> (j < length (entries_ r))%nat -> entries_ r' !! j = entries_ r !! j) ->
  r_id x = frn k -> 0 <= nameId -> names' !! Z.to_nat nameId = Some (r_name x) ->
  e = new_entry (volumeRowId k) x nameId ->
  rows_ok r' names' (<[k := (i, x)]> st).
Proof.
  intros Hr Hpre Hn Hids Hfresh Hi He Hoth Hid Hnid Hname ->. split; [done|by rewrite fmap_insert| |].
  - intros k1 k2 j y y' H1%lookup_insert_Some H2%lookup_insert_Some.
    destruct H1 as [[<- [= <- <-]]|[Hne1 H1]], H2 as [[<- E2]|[Hne2 H2]]; [done| | |].
    + symmetry. by eapply Hfresh.
    + injection E2 as <- <-. by eapply Hfresh.
    + by eapply (ok_inj _ _ _ Hr).
  - intros k' j y [[<- [= <- <-]]|[Hne Hk']]%lookup_insert_Some.
    + split; [done|]. eexists. split; [exact He|]. split; [done|]. eauto.
    + destruct (ok_row _ _ _ Hr k' j y Hk') as (Hj & e' & He' & Hrep). split; [done|]. exists e'. split.
      * rewrite Hoth; [done| |by eapply lookup_lt_Some].
        intros E. apply Hne. symmetry. apply (Hfresh k' y). rewrite Hk'. do 2 f_equal. lia.
      * by eapply row_rep_prefix.
Qed.

(** Writing the row of [record] finishes with its access time and its index entry. *)
Lemma finish_upsert p names st k i x sn :
  tables_ok (rows p) names st ->
  st !! k = Some (i, x) -> slot_names_ok (<[i := r_name x]> sn) st ->
  accelerator_ok CSO (filenameIndex p) sn -> sn !! i = None ->
  exists p', add_index_entry CSO (touch p i) i = Ok p' /\ proj_ok p' names st /\ rows p' = rows p /\ policy p' = policy p.
Proof.
  intros Ht Hk Hsn Hacc Hi.
  destruct (add_index_entry_ok (touch p i) names st sn k i x (ok_rows _ _ _ Ht) Hk Hacc Hi) as (ix & -> & Hix).
  eexists. split; [done|]. split; [|done]. split; cbn; eauto.
Qed.

(** The tables after the row of a live slot was overwritten. *)
Lemma tables_ok_update r names st k i x e record np names' nid m ch' :
  tables_ok r names st -> st !! k = Some (i, x) -> entries_ r !! Z.to_nat i = Some e -> row_rep names k x e ->
  pool_rep np names' -> names `prefix_of` names' -> 0 <= nid -> names' !! Z.to_nat nid = Some (r_name record) ->
  r_id record = frn k -> holds m ch' -> children_ok ch' (<[k := (i, record)]> st) ->
  tables_ok (mkRows np (<[Z.to_nat i := update_entry e record nid]> (entries_ r)) (freeList_ r) (idToIndex_ r) m
               (denseIterationOrderValid_ r)) names' (<[k := (i, record)]> st).
Proof.
  intros [Hr _ [Hnd Hfree] Hd Hs] Hk He Hrep Hnp Hpre Hnid Hname Hid Hm Hch.
  split; cbn [namePool_ entries_ freeList_ idToIndex_ parentToChildren_ denseIterationOrderValid_]; [|eauto| | |].
  - destruct (ok_row _ _ _ Hr k i x Hk) as (Hi & _).
    eapply (rows_ok_write r _ names names' st k i record); [done..| | |done| | |done|exact Hnid|done|].
    + rewrite insert_id; [apply (ok_ids _ _ _ Hr)|]. by rewrite lookup_fmap, Hk.
    + intros k' y Hy. by eapply (ok_inj _ _ _ Hr).
    + cbn. apply list_lookup_insert_eq. by eapply lookup_lt_Some.
    + intros j Hj _. cbn. by apply list_lookup_insert_ne.
    + destruct Hrep as (Hx & nid0 & _ & _ & ->). unfold update_entry, new_entry. cbn. by rewrite Hid, Hx.
  - split; [done|]. intros j Hj. destruct (Hfree j Hj) as [Hjr Hjst]. split; [unfold zlen; cbn; by rewrite length_insert|].
    intros k' y [[<- [= <- <-]]|[_ Hy]]%lookup_insert_Some; by eapply Hjst.
  - intros Hdense j Hj. rewrite length_insert in Hj. destruct (Hd Hdense j Hj) as (k' & y & Hy).
    destruct (decide (k' = k)) as [->|Hne]; [exists k, record|exists k', y; by rewrite lookup_insert_ne].
    rewrite lookup_insert_eq. congruence.
  - unfold zlen. by rewrite length_insert.
Qed.

(** Moving a child, or leaving it in place, when its row is overwritten. *)
Lemma children_update m ch st k i x record volume :
  holds m ch -> children_ok ch st -> st !! k = Some (i, x) -> k = mkEntryKey volume (r_id record) -> r_id x = r_id record ->
  (forall k' i' y y', st !! k = Some (i', y) -> st !! k' = Some (i', y') -> k = k') ->
  safe (if bool_decide (r_parentId x = r_parentId record) then Ok m
        else let* m := children_remove m (mkEntryKey volume (r_parentId x)) i in link_child m volume record i)
    (fun m' => exists ch', holds m' ch' /\ children_ok ch' (<[k := (i, record)]> st)).
Proof.
  intros Hm Hcok Hk -> Hid Hinj. set (k := mkEntryKey volume (r_id record)) in *.
  destruct (bool_decide_reflect (r_parentId x = r_parentId record)) as [Hpar|Hpar].
  - cbn. exists ch. split; [done|]. by apply (children_ok_same ch st k i x).
  - eapply safe_bind; [by apply children_remove_refines|]. intros m' Hm'.
    eapply safe_mono; [apply (children_ok_link m' _ (delete k st) volume record i Hm')|].
    + by apply (children_ok_remove ch st k i x Hcok Hk).
    + apply lookup_delete_eq.
    + intros k' y [Hne Hy]%lookup_delete_Some. apply Hne. by eapply Hinj.
    + intros m2. by rewrite insert_delete_eq.
Qed.

Lemma UpsertExisting_ok p names st volume record chars i x :
  proj_ok p names st -> st !! mkEntryKey volume (r_id record) = Some (i, x) -> room (rows p) record chars ->
  safe (UpsertExisting CSO p volume record i) (fun p' =>
    grown p p' chars 1 /\
    exists names', proj_ok p' names' (<[mkEntryKey volume (r_id record) := (i, record)]> st)).
Proof.
  intros [Ht (sn & Hsn & Hacc)] Hk Hroom. pose proof Ht as [Hr (ch & Hch & Hcok) _ _ _].
  set (k := mkEntryKey _ _) in *. unfold UpsertExisting.
  destruct (rows_entry_at p names st k i x Hr Hk) as (e & -> & He & Hrep). cbn [bind].
  pose proof (row_rep_id _ _ _ _ Hrep) as (Hep & Hef & Hev). pose proof Hrep as (Hxid & _).
  assert (forall k' y y', st !! k = Some (i, y) -> st !! k' = Some (i, y') -> k = k') as Hinj
    by (intros; by eapply (ok_inj _ _ _ Hr)).
  destruct (slot_names_delete sn st k i x Hsn Hk Hinj) as [Hsi Hsn'].
  set (ro := if filenameIndexValid_ (filenameIndex p) then _ else _).
  assert (exists old, ro = Ok old /\ (filenameIndexValid_ (filenameIndex p) = true -> old = r_name x)) as (old & -> & Hold).
  { unfold ro. destruct (filenameIndexValid_ _); [|by exists []].
    rewrite (row_rep_name _ names k x e (ok_names _ _ _ Hr) Hrep). eauto. }
  cbn [bind].
  destruct (Intern_room _ names record chars (ok_names _ _ _ Hr) Hroom) as (np & nid & names' & -> & Hnid & Hnp & Hpre & Hname & Hga & Hgt).
  cbn [bind]. rewrite Hep.
  eapply safe_bind; [apply (children_update _ ch st k i x record volume Hch Hcok Hk eq_refl Hxid); intros; by eapply (ok_inj _ _ _ Hr)|].
  intros m (ch' & Hm & Hchok').
  pose proof (tables_ok_update (rows p) names st k i x e record np names' nid m ch' Ht Hk He Hrep Hnp Hpre Hnid Hname eq_refl Hm Hchok') as Ht'.
  set (ix := if filenameIndexValid_ (filenameIndex p) then RemoveFilenameIndexEntry _ _ _ _ else _). set (r' := mkRows _ _ _ _ _ _) in *.
  destruct (finish_upsert (mkProjection r' ix (times p) (policy p)) names' (<[k := (i, record)]> st) k i record (delete i sn) Ht')
    as (p' & -> & Hok' & Hrows & Hpol); [apply lookup_insert_eq| |by eapply remove_index_ok|apply lookup_delete_eq|].
  - destruct (slot_names_insert (delete i sn) (delete k st) k i record Hsn') as [_ Hins]; [apply lookup_delete_eq| |by rewrite (insert_delete_eq st) in Hins].
    intros k' y [Hne Hy]%lookup_delete_Some. apply Hne. by eapply Hinj.
  - cbn [safe]. split; [|eauto]. split; [rewrite Hrows; done|]. split; [by rewrite Hrows|]. split; [|done].
    rewrite Hrows. unfold r', zlen. cbn. rewrite length_insert. lia.
Qed.

(** The tables after a new row was written into the slot [i] that [allocate_slot] chose. *)
Lemma tables_ok_new r names st k record np names' nid i entries free ids m ch' :
  tables_ok r names st -> pool_rep np names' -> names `prefix_of` names' -> 0 <= nid ->
  names' !! Z.to_nat nid = Some (r_name record) -> r_id record = frn k ->
  allocate_slot r (new_entry (volumeRowId k) record nid) = Ok (i, entries, free) -> zlen (entries_ r) < 4294967296 ->
  represents EntryKeyHash ids (<[k := i]> (fst <$> st)) -> holds m ch' -> children_ok ch' (<[k := (i, record)]> st) ->
  tables_ok (mkRows np entries free ids m false) names' (<[k := (i, record)]> st).
Proof.
  intros [Hr _ Hfree _ _] Hnp Hpre Hnid Hname Hid Halloc Hsz Hids Hm Hch.
  destruct (allocate_slot_spec r names st (new_entry (volumeRowId k) record nid) Hr Hfree Hsz)
    as (i' & entries' & free' & E & Hi & Hfresh & Hei & Heo & Hlen & Hnd & Hfr).
  rewrite Halloc in E. injection E as <- <- <-.
  split; cbn [namePool_ entries_ freeList_ idToIndex_ parentToChildren_ denseIterationOrderValid_]; [|eauto| |done|lia].
  - eapply (rows_ok_write r _ names names' st k i record); [done..| |lia|done|done|done|exact Hnid|done|done].
    intros k' y Hy. by eapply Hfresh in Hy.
  - destruct Hfree as [_ Hfree]. split; [done|]. intros j Hj. destruct (Hfr j Hj) as [Hj' Hne].
    destruct (Hfree j Hj') as [Hjr Hjst]. split; [cbn; lia|].
    intros k' y [[<- [= <- <-]]|[_ Hy]]%lookup_insert_Some; [done|by eapply Hjst].
Qed.

Lemma UpsertNew_ok p names st volume record chars :
  proj_ok p names st -> st !! mkEntryKey volume (r_id record) = None -> room (rows p) record chars ->
  safe (UpsertNew CSO p volume record) (fun p' =>
    grown p p' chars 1 /\
    exists names' i, proj_ok p' names' (<[mkEntryKey volume (r_id record) := (i, record)]> st)).
Proof.
  intros [Ht (sn & Hsn & Hacc)] Hk Hroom. pose proof Ht as [Hr (ch & Hch & Hcok) Hfree Hd Hs]. pose proof Hroom as (_ & _ & _ & _ & Hre).
  set (k := mkEntryKey _ _) in *. unfold UpsertNew.
  destruct (Intern_room _ names record chars (ok_names _ _ _ Hr) Hroom) as (np & nid & names' & -> & Hnid & Hnp & Hpre & Hname & Hga & Hgt).
  cbn [bind].
  destruct (allocate_slot_spec (rows p) names st (new_entry volume record nid) Hr Hfree Hre)
    as (i & entries & free & Halloc & _ & Hfresh & _ & _ & Hlen & _). rewrite Halloc. cbn [bind].
  eapply safe_bind; [apply (insert_represents EntryKeyHash _ (fst <$> st) k i (ok_ids _ _ _ Hr))|]. intros ids Hids.
  eapply safe_bind; [by apply (children_ok_link _ ch st volume record i)|]. intros m (ch' & Hm & Hchok').
  pose proof (tables_ok_new (rows p) names st k record np names' nid i entries free ids m ch' Ht Hnp Hpre Hnid Hname eq_refl Halloc Hre Hids Hm Hchok') as Ht'.
  destruct (slot_names_insert sn st k i record Hsn Hk Hfresh) as [Hsi Hsn'].
  destruct (finish_upsert (mkProjection (mkRows np entries free ids m false) (filenameIndex p) (reset_time (times p) i) (policy p)) names'
      (<[k := (i, record)]> st) k i record sn Ht') as (p' & -> & Hok' & Hrows & Hpol); [apply lookup_insert_eq|done..|].
  cbn [safe]. split; [|eauto]. split; [by rewrite Hrows|]. split; [by rewrite Hrows|]. split; [|done].
  rewrite Hrows. cbn. lia.
Qed.

Lemma Upsert_ok p names st volume record chars :
  proj_ok p names st -> room (rows p) record chars ->
  safe (Upsert CSO p volume record) (fun p' =>
    grown p p' chars 1 /\
    exists names' i, proj_ok p' names' (<[mkEntryKey volume (r_id record) := (i, record)]> st)).
Proof.
  intros Hp Hroom. unfold Upsert. rewrite (find_slot_of _ names st) by apply Hp.
  destruct (st !! mkEntryKey volume (r_id record)) as [[i x]|] eqn:Hk; cbn [fmap option_fmap option_map fst].
  - eapply safe_mono; [by eapply UpsertExisting_ok|]. intros p' [? [names' ?]]. eauto.
  - by eapply UpsertNew_ok.
Qed.

Lemma Upsert_refines p g volume record chars :
  refines p g -> room (rows p) record chars ->
  safe (Upsert CSO p volume record) (fun p' =>
    grown p p' chars 1 /\ refines p' (<[mkEntryKey volume (r_id record) := record]> g)).
Proof.
  intros (names & st & Hp & ->) Hroom. eapply safe_mono; [by eapply Upsert_ok|].
  intros p' [Hg (names' & i & Hp')]. split; [done|]. eexists names', _. split; [exact Hp'|]. by rewrite fmap_insert.
Qed.

(** ** Find and partial updates *)

(** Access times are not part of the invariant. *)
Lemma touch_refines p g i : refines p g -> refines (touch p i) g.
Proof. intros (names & st & [Ht Hi] & ->). exists names, st. split; [by split|done]. Qed.

(** The row that stores [r], up to its name id. *)
Definition shows (p : Projection) (k : EntryKey) (r : EntryRecord) (e : ProjectionEntry) : Prop :=
  r_id r = frn k /\ e = new_entry (volumeRowId k) r (e_nameId e) /\
  Get (namePool_ (rows p)) (e_nameId e) = Ok (r_name r).

Lemma Find_refines p g volume id :
  refines p g ->
  exists o p', Find p volume id = Ok (o, p') /\ refines p' g /\ rows p' = rows p /\ policy p' = policy p /\
    match o with
    | None => g !! mkEntryKey volume id = None
    | Some e => exists r, g !! mkEntryKey volume id = Some r /\ shows p (mkEntryKey volume id) r e
    end.
Proof.
  intros Hp. pose proof Hp as (names & st & [Ht Hi] & ->). pose proof (ok_rows _ _ _ Ht) as Hr. unfold Find.
  rewrite (find_slot_of _ names st) by done. rewrite lookup_fmap.
  destruct (st !! mkEntryKey volume id) as [[i x]|] eqn:Hk; cbn [fmap option_fmap option_map fst snd].
  - destruct (rows_entry_at p names st _ i x Hr Hk) as (e & -> & _ & Hrep). cbn [bind].
    eexists _, _. split; [done|]. split; [by apply touch_refines|]. split; [done|]. split; [done|].
    exists x. split; [done|]. split; [apply Hrep|]. split; [|by eapply row_rep_name, Hrep; apply Hr].
    by destruct Hrep as (_ & nid & _ & _ & ->).
  - by eexists _, _.
Qed.

(** The record a partial update leads to. *)
Definition merged (g : gmap EntryKey EntryRecord) (volume : Z) (record : EntryRecord) (fields : Z) : EntryRecord :=
  if fields =? kEntryFieldMaskAll then record
  else merge_fields (default (default_record (r_id record)) (g !! mkEntryKey volume (r_id record))) record fields.

Lemma UpsertPartial_refines p g volume record fields chars :
  refines p g -> room (rows p) (merged g volume record fields) chars ->
  safe (UpsertPartial CSO p volume record fields) (fun p' =>
    grown p p' chars 1 /\
    refines p' (<[mkEntryKey volume (r_id record) := merged g volume record fields]> g)).
Proof.
  intros Hp. unfold UpsertPartial, merged. destruct (fields =? kEntryFieldMaskAll); [by apply Upsert_refines|].
  destruct (Find_refines p g volume (r_id record) Hp) as (o & p' & -> & Hp' & Hrows & Hpol & Ho). cbn [bind].
  assert (forall q, grown p' q = grown p q) as Hgr by (intros; unfold grown; by rewrite Hrows, Hpol).
  destruct o as [e|].
  - destruct Ho as (x & Hx & Hid & He & Hn). rewrite Hrows, Hn. cbn [bind]. rewrite Hx. cbn [default].
    assert (existing_record record e (r_name x) = x) as Hex.
    { rewrite He. unfold existing_record, new_entry. cbn. destruct x. cbn in *. by rewrite Hid. }
    rewrite Hex. intros Hroom. eapply safe_mono; [apply (Upsert_refines p' g); [done|by rewrite Hrows]|].
    intros q [Hg Hq]. rewrite Hgr in Hg. done.
  - rewrite Ho. cbn [default]. intros Hroom. eapply safe_mono; [apply (Upsert_refines p' g); [done|by rewrite Hrows]|].
    intros q [Hg Hq]. rewrite Hgr in Hg. done.
Qed.

(** ** Removal *)

Lemma Remove_ok p names st volume id :
  proj_ok p names st ->
  safe (Remove CSO p volume id) (fun p' =>
    grown p p' 0 0 /\ proj_ok p' names (delete (mkEntryKey volume id) st)).
Proof.
  intros Hp. pose proof Hp as [[Hr (ch & Hch & Hcok) [Hnd Hfree] Hd Hs] (sn & Hsn & Hacc)]. set (k := mkEntryKey volume id).
  unfold Remove. rewrite (find_slot_of _ names st) by done. fold k.
  destruct (st !! k) as [[i x]|] eqn:Hk; cbn [fmap option_fmap option_map fst].
  2: { cbn. rewrite delete_id by done. split; [repeat split; lia|done]. }
  destruct (rows_entry_at p names st _ i x Hr Hk) as (e & -> & He & Hrep). cbn [bind].
  rewrite (row_rep_name _ names k x e (ok_names _ _ _ Hr) Hrep). cbn [bind].
  assert (forall k' y y', st !! k = Some (i, y) -> st !! k' = Some (i, y') -> k = k') as Hinj
    by (intros; by eapply (ok_inj _ _ _ Hr)).
  eapply safe_bind; [by apply children_remove_refines|]. intros m Hm.
  destruct (row_rep_id _ _ _ _ Hrep) as (Hep & _ & _). rewrite Hep in Hm.
  destruct (slot_names_delete sn st k i x Hsn Hk Hinj) as [Hsi Hsn'].
  cbn [safe]. split; [repeat split; cbn; lia|]. split; cbn [rows filenameIndex].
  - split; cbn [namePool_ entries_ freeList_ idToIndex_ parentToChildren_ denseIterationOrderValid_]; [|eexists; split; [exact Hm|]| |done|done].
    + split; cbn [namePool_ entries_ idToIndex_].
      * apply Hr.
      * rewrite fmap_delete. apply erase_refines, Hr.
      * intros k1 k2 j y y' [_ H1]%lookup_delete_Some [_ H2]%lookup_delete_Some. by eapply (ok_inj _ _ _ Hr).
      * intros k' j y [_ Hy]%lookup_delete_Some. by apply (ok_row _ _ _ Hr).
    + apply (children_ok_remove ch st k i x Hcok Hk). intros. by eapply (ok_inj _ _ _ Hr).
    + assert (forall k' y, delete k st !! k' <> Some (i, y)) as Hgone.
      { intros k' y [Hne Hy]%lookup_delete_Some. apply Hne. by eapply Hinj. }
      split; cbn [freeList_ entries_].
      * apply NoDup_app. split; [done|]. split; [|apply NoDup_singleton].
        intros j Hj ->%list_elem_of_singleton. destruct (Hfree i Hj) as [_ Hno]. by eapply Hno.
      * intros j [Hj| ->%list_elem_of_singleton]%elem_of_app; [|split; [by eapply slot_in_range|done]].
        destruct (Hfree j Hj) as [Hjr Hjst]. split; [done|]. intros k' y [_ Hy]%lookup_delete_Some. by eapply Hjst.
  - exists (delete i sn). split; [done|]. by apply remove_entry_ok.
Qed.

Lemma grown_trans p q r c n c' n' : grown p q c n -> grown q r c' n' -> grown p r (c + c') (n + n').
Proof. intros (? & ? & ? & E) (? & ? & ? & E'). repeat split; try lia. by rewrite E', E. Qed.

Lemma grown_refl p : grown p p 0 0.
Proof. repeat split; lia. Qed.

(** Deleting several ids of a volume. *)
Definition delete_ids {A} (volume : Z) (ids : list FileId) (g : gmap EntryKey A) : gmap EntryKey A :=
  foldl (fun g id => delete (mkEntryKey volume id) g) g ids.

Lemma lookup_delete_ids {A} volume ids (g : gmap EntryKey A) k :
  delete_ids volume ids g !! k =
  if decide (volumeRowId k = volume /\ frn k ∈ ids) then None else g !! k.
Proof.
  revert g. induction ids as [|id ids IH]; intros g.
  { by rewrite decide_False by set_solver. }
  change (delete_ids volume (id :: ids) g) with (delete_ids volume ids (delete (mkEntryKey volume id) g)).
  rewrite IH. destruct (decide (k = mkEntryKey volume id)) as [->|Hne].
  - cbn. rewrite lookup_delete_eq. destruct (decide _); [|rewrite decide_True by set_solver]; [|done].
    by rewrite decide_True by set_solver.
  - rewrite lookup_delete_ne by done. destruct (decide (volumeRowId k = volume /\ frn k ∈ ids)) as [[? ?]|Hn].
    + by rewrite decide_True by set_solver.
    + rewrite decide_False; [done|]. intros [Hv [Hf|?]%elem_of_cons]; [|tauto]. apply Hne. destruct k. cbn in *. congruence.
Qed.

Lemma remove_each_ok p names st volume ids :
  proj_ok p names st ->
  safe (remove_each CSO p volume ids) (fun p' => grown p p' 0 0 /\ proj_ok p' names (delete_ids volume ids st)).
Proof.
  revert p st. induction ids as [|id ids IH]; intros p st Hp; cbn [remove_each].
  - split; [apply grown_refl|done].
  - eapply safe_bind; [by apply Remove_ok|]. intros p1 [Hg1 Hp1].
    eapply safe_mono; [by apply IH|]. intros p2 [Hg2 Hp2]. split; [by apply (grown_trans p p1 p2 0 0 0 0)|done].
Qed.

(** ** Rebuilding the accelerator *)

Lemma live_ids_spec r names st :
  rows_ok r names st ->
  NoDup (live_ids r).*1 /\ forall k i, (k, i) ∈ live_ids r <-> exists x, st !! k = Some (i, x).
Proof.
  intros Hr. pose proof (ok_ids _ _ _ Hr) as (Hinv & Hg & _). split; [by apply (NoDup_entries EntryKeyHash)|].
  intros k i. rewrite <-lookup_slots, Hg. apply elem_of_entries.
Qed.

Lemma indexed_names_spec p names st es :
  rows_ok (rows p) names st -> (forall k i, (k, i) ∈ es -> exists x, st !! k = Some (i, x)) ->
  exists named, indexed_names p es = Ok named /\ named.*1 = es.*2 /\
    forall i n, (i, n) ∈ named <-> exists k x, (k, i) ∈ es /\ st !! k = Some (i, x) /\ r_name x = n.
Proof.
  intros Hr. induction es as [|[k i] es IH]; intros Hes; cbn [indexed_names].
  { exists []. split; [done|]. split; [done|]. intros i n. split; [set_solver|]. intros (? & ? & ? & _). set_solver. }
  destruct (Hes k i) as [x Hk]; [set_solver|].
  destruct (rows_entry_at p names st k i x Hr Hk) as (e & -> & _ & Hrep). cbn [bind].
  rewrite (row_rep_name _ names k x e (ok_names _ _ _ Hr) Hrep). cbn [bind].
  destruct IH as (named & -> & Hfst & Hel); [intros; apply Hes; set_solver|]. cbn [bind].
  eexists. split; [done|]. split; [cbn; by rewrite Hfst|]. intros j n. rewrite elem_of_cons, Hel. split.
  - intros [[= -> ->]|(k' & y & ? & ? & ?)]; [exists k, x|exists k', y]; set_solver.
  - intros (k' & y & [[= -> ->]|Hin]%elem_of_cons & Hy & Hn); [left; congruence|right; eauto].
Qed.

Lemma rebuild_index_ok p names st :
  tables_ok (rows p) names st ->
  exists p', rebuild_index CSO p = Ok p' /\ proj_ok p' names st /\ rows p' = rows p /\
    times p' = times p /\ policy p' = policy p /\ filenameIndexValid_ (filenameIndex p') = true.
Proof.
  intros Ht. pose proof (ok_rows _ _ _ Ht) as Hr. destruct (live_ids_spec _ _ _ Hr) as [Hnd Hel]. unfold rebuild_index.
  destruct (indexed_names_spec p names st (live_ids (rows p)) Hr) as (named & -> & Hfst & Hnamed).
  { intros k i. by rewrite Hel. }
  cbn [bind]. eexists. split; [done|].
  assert (NoDup named.*1) as Hndn.
  { rewrite Hfst. apply NoDup_fmap_2_strong; [|by eapply NoDup_fmap_1].
    intros [k i] [k' i'] [x Hx]%Hel [y Hy]%Hel. cbn. intros ->. f_equal. by eapply (ok_inj _ _ _ Hr). }
  destruct (rebuild_ok CSO named Hndn) as [Hok Hv]. split; [|done]. split; [done|].
  exists (list_to_map named). split; [|done]. intros i n. rewrite <-elem_of_list_to_map by done. rewrite Hnamed. split.
  - intros (k & x & _ & ? & ?). eauto.
  - intros (k & x & Hk & Hn). exists k, x. split; [|done]. apply Hel. eauto.
Qed.

Lemma invalidate_proj_ok p names st :
  proj_ok p names st -> proj_ok (with_index p (InvalidateFilenameIndex (filenameIndex p))) names st.
Proof. intros [Ht (sn & Hsn & Hacc)]. split; [done|]. exists sn. split; [done|]. by eapply invalidate_ok. Qed.

Lemma RemoveBatch_ok p names st volume ids keep :
  proj_ok p names st ->
  safe (RemoveBatch CSO p volume ids keep) (fun p' => grown p p' 0 0 /\ proj_ok p' names (delete_ids volume ids st)).
Proof.
  intros Hp. unfold RemoveBatch. destruct ids as [|id ids]; [split; [apply grown_refl|done]|].
  set (l := id :: ids). set (bulk := _ <? _). set (wasValid := filenameIndexValid_ _).
  assert (forall q, grown (with_index p q) = grown p) as Hgw by done.
  eapply (safe_bind _ _ (fun p' => grown p p' 0 0 /\ proj_ok p' names (delete_ids volume l st))).
  { destruct (bulk && wasValid); [|by apply remove_each_ok]. rewrite <-(Hgw (InvalidateFilenameIndex (filenameIndex p))).
    apply remove_each_ok. by apply invalidate_proj_ok. }
  intros p1 [Hg1 Hp1].
  eapply (safe_bind _ _ (fun p' => grown p p' 0 0 /\ proj_ok p' names (delete_ids volume l st))).
  { destruct (bulk && wasValid && keep); [|done].
    destruct (rebuild_index_ok p1 names _ (ok_tables _ _ _ Hp1)) as (p2 & -> & Hp2 & Hrows & _ & Hpol & _).
    cbn. split; [|done]. unfold grown. by rewrite Hrows, Hpol. }
  intros p2 [Hg2 Hp2]. cbn [safe]. destruct keep; [done|]. split; [done|]. by apply invalidate_proj_ok.
Qed.

Lemma elem_of_volume_ids r names st volume id :
  rows_ok r names st -> (id ∈ volume_ids r volume <-> is_Some (st !! mkEntryKey volume id)).
Proof.
  intros Hr. destruct (live_ids_spec _ _ _ Hr) as [_ Hel]. unfold volume_ids. rewrite list_elem_of_fmap. split.
  - intros ([k i] & -> & [Hv Hin]%list_elem_of_filter). apply Hel in Hin as [x Hx]. cbn in *. subst volume. destruct k. eauto.
  - intros [[i x] Hx]. exists (mkEntryKey volume id, i). split; [done|]. apply list_elem_of_filter. split; [done|].
    apply Hel. eauto.
Qed.

Lemma RemoveVolume_ok p names st volume keep :
  proj_ok p names st ->
  safe (RemoveVolume CSO p volume keep) (fun p' =>
    grown p p' 0 0 /\ proj_ok p' names (filter (fun kv => volumeRowId kv.1 <> volume) st)).
Proof.
  intros Hp. eapply safe_mono; [by apply RemoveBatch_ok|]. intros p' [Hg Hp']. split; [done|].
  replace (filter _ st) with (delete_ids volume (volume_ids (rows p) volume) st); [done|].
  apply map_eq. intros k. rewrite lookup_delete_ids.
  pose proof (elem_of_volume_ids (rows p) names st volume (frn k) (ok_rows _ _ _ (ok_tables _ _ _ Hp))) as Hin.
  destruct (decide _) as [[Hv Hf]|Hn].
  - symmetry. apply map_lookup_filter_None. right. intros x _ Hne. by apply Hne.
  - destruct (st !! k) as [y|] eqn:E; symmetry.
    + apply map_lookup_filter_Some. split; [done|]. cbn. intros <-. apply Hn. split; [done|]. apply Hin.
      destruct k. cbn. rewrite E. eauto.
    + apply map_lookup_filter_None. by left.
Qed.

(** ** Children *)

(** The records of a duplicate-free list of child slots. *)
Lemma slots_records (st : State) volume parent slots :
  NoDup slots -> (forall i, i ∈ slots -> child_slot st (mkEntryKey volume parent) i) ->
  (forall k k' i x x', st !! k = Some (i, x) -> st !! k' = Some (i, x') -> k = k') ->
  (forall k i x, st !! k = Some (i, x) -> r_id x = frn k) ->
  exists rs, Forall2 (fun i r => st !! mkEntryKey volume (r_id r) = Some (i, r) /\ r_parentId r = parent /\ r_parentId r <> r_id r) slots rs /\
    NoDup rs.
Proof.
  intros Hnd Hin Hinj Hid. induction Hnd as [|i slots Hi Hnd IH]; [by exists []; split; constructor|].
  destruct IH as (rs & Hrs & Hndrs); [intros; apply Hin; by right|].
  destruct (Hin i) as (k & x & Hk & Hv & Hpar & Hs); [by left|].
  assert (k = mkEntryKey volume (r_id x)) as -> by (rewrite (Hid _ _ _ Hk); destruct k; cbn in *; congruence).
  exists (x :: rs). split; constructor; [done|done| |done].
  intros [n Hn]%list_elem_of_lookup_1. destruct (Forall2_lookup_r _ _ _ _ _ Hrs Hn) as (i' & Hi' & Hk' & _).
  assert (i = i') as -> by congruence. by apply Hi, (list_elem_of_lookup_2 _ n).
Qed.

(** The slots a directory lists, and the records they show: exactly the records of the volume
    whose parent the directory is, each once; the volume root is not its own child. *)
Lemma ChildIndices_refines p g volume parent :
  refines p g ->
  exists children rs p', ChildIndices p volume parent = Ok (children, p') /\
    refines p' g /\ rows p' = rows p /\ policy p' = policy p /\ NoDup children /\ NoDup rs /\
    Forall2 (fun i r => exists e, entry_at p i = Ok e /\ shows p (mkEntryKey volume (r_id r)) r e) children rs /\
    (forall r, r ∈ rs <-> g !! mkEntryKey volume (r_id r) = Some r /\ r_parentId r = parent /\ r_parentId r <> r_id r).
Proof.
  intros Hp. pose proof Hp as (names & st & [Ht Hi] & ->).
  pose proof (ok_rows _ _ _ Ht) as Hr. destruct (ok_children _ _ _ Ht) as (ch & Hch & Hcok). unfold ChildIndices.
  rewrite (children_find_refines _ ch) by done. cbn [bind].
  destruct (Hcok (mkEntryKey volume parent)) as [Hnd Hel].
  destruct (slots_records st volume parent _ Hnd (fun i => proj1 (Hel i))) as (rs & Hrs & Hndrs).
  { apply Hr. }
  { intros k i x Hk. by destruct (ok_row _ _ _ Hr k i x Hk) as (_ & e & _ & ? & _). }
  eexists _, rs, _. split; [done|]. split; [destruct (find _ _ _); [by apply touch_refines|done]|].
  split; [by destruct (find _ _ _)|]. split; [by destruct (find _ _ _)|]. split; [done|]. split; [done|]. split.
  - eapply Forall2_impl; [exact Hrs|]. intros i x (Hk & _).
    destruct (rows_entry_at p names st _ i x Hr Hk) as (e & He & _ & Hrep). exists e. split; [done|].
    split; [apply Hrep|]. split; [by destruct Hrep as (_ & nid & _ & _ & ->)|].
    by eapply row_rep_name, Hrep; apply Hr.
  - intros r. rewrite lookup_fmap, fmap_Some. split.
    + intros [n Hn]%list_elem_of_lookup_1. destruct (Forall2_lookup_r _ _ _ _ _ Hrs Hn) as (i & _ & Hk & ?). eauto.
    + intros (([i x] & Hk & ->) & Hpar & Hs). cbn in *.
      assert (i ∈ default [] (ch !! mkEntryKey volume parent)) as [n Hn]%list_elem_of_lookup_1.
      { apply Hel. exists (mkEntryKey volume (r_id x)), x. done. }
      destruct (Forall2_lookup_l _ _ _ _ _ Hrs Hn) as (x' & Hx' & Hk' & _).
      assert (mkEntryKey volume (r_id x) = mkEntryKey volume (r_id x')) as E by (by eapply (ok_inj _ _ _ Hr)).
      assert (x = x') as -> by (rewrite E in Hk; congruence). by eapply list_elem_of_lookup_2.
Qed.

(** ** Sequences of operations *)

Inductive proj_op :=
| OpUpsert (volume : Z) (record : EntryRecord)
| OpUpsertPartial (volume : Z) (record : EntryRecord) (fields : Z)
| OpRemove (volume : Z) (id : FileId)
| OpRemoveBatch (volume : Z) (ids : list FileId) (keep : bool)
| OpRemoveVolume (volume : Z) (keep : bool)
| OpFind (volume : Z) (id : FileId)
| OpSetBulkScan (active : bool).

Definition run_proj_op (p : Projection) (o : proj_op) : result Projection :=
  match o with
  | OpUpsert volume record => Upsert CSO p volume record
  | OpUpsertPartial volume record fields => UpsertPartial CSO p volume record fields
  | OpRemove volume id => Remove CSO p volume id
  | OpRemoveBatch volume ids keep => RemoveBatch CSO p volume ids keep
  | OpRemoveVolume volume keep => RemoveVolume CSO p volume keep
  | OpFind volume id => let* '(_, p) := Find p volume id in Ok p
  | OpSetBulkScan active => SetBulkScanActive CSO p active
  end.

Fixpoint run_proj (p : Projection) (os : list proj_op) : result Projection :=
  match os with
  | [] => Ok p
  | o :: os' => let* p := run_proj_op p o in run_proj p os'
  end.

Definition spec_proj_op (g : gmap EntryKey EntryRecord) (o : proj_op) : gmap EntryKey EntryRecord :=
  match o with
  | OpUpsert volume record => <[mkEntryKey volume (r_id record) := record]> g
  | OpUpsertPartial volume record fields =>
      <[mkEntryKey volume (r_id record) := merged g volume record fields]> g
  | OpRemove volume id => delete (mkEntryKey volume id) g
  | OpRemoveBatch volume ids _ => delete_ids volume ids g
  | OpRemoveVolume volume _ => filter (fun kv => volumeRowId kv.1 <> volume) g
  | OpFind _ _ | OpSetBulkScan _ => g
  end.

(** The units an operation may add to the name arena. *)
Definition op_chars (o : proj_op) : Z :=
  match o with
  | OpUpsert _ record => zlen (r_name record)
  | OpUpsertPartial _ record fields =>
      if HasEntryField fields kEntryFieldName then zlen (r_name record) else 0
  | _ => 0
  end.

Fixpoint total_chars (os : list proj_op) : Z :=
  match os with [] => 0 | o :: os' => op_chars o + total_chars os' end.

Lemma op_chars_nonneg o : 0 <= op_chars o.
Proof. destruct o; cbn; try lia; [apply zlen_nonneg|]. destruct (HasEntryField _ _); [apply zlen_nonneg|lia]. Qed.

Lemma total_chars_nonneg os : 0 <= total_chars os.
Proof. induction os as [|o os IH]; cbn; [lia|]. pose proof (op_chars_nonneg o). lia. Qed.

Lemma snd_delete_ids volume ids (st : State) : snd <$> delete_ids volume ids st = delete_ids volume ids (snd <$> st).
Proof. apply map_eq. intros k. rewrite lookup_fmap, !lookup_delete_ids, lookup_fmap. by destruct (decide _). Qed.

Lemma snd_filter_volume volume (st : State) :
  snd <$> filter (fun kv => volumeRowId kv.1 <> volume) st =
  filter (fun kv => volumeRowId kv.1 <> volume) (snd <$> st).
Proof. by rewrite map_filter_fmap. Qed.

Lemma shows_interned p k x e :
  (exists names, pool_rep (namePool_ (rows p)) names /\ row_rep names k x e) -> interned (rows p) (r_name x).
Proof.
  intros (names & Hp & Hrep). exists (e_nameId e). split; [|by eapply row_rep_name].
  destruct Hrep as (_ & nid & Hn & Hl & ->). cbn. destruct (pool_sizes _ _ Hp) as [_ ->].
  apply lookup_lt_Some in Hl. unfold zlen. lia.
Qed.

Lemma merged_interned p g volume record fields :
  refines p g -> 
  interned (rows p) (r_name (merged g volume record fields)) \/
  zlen (r_name (merged g volume record fields)) <= op_chars (OpUpsertPartial volume record fields).
Proof.
  intros (names & st & [Ht _] & ->). unfold merged, op_chars. rewrite lookup_fmap.
  destruct (Z.eqb_spec fields kEntryFieldMaskAll) as [->|_]; [right; apply Z.le_refl|].
  destruct (st !! mkEntryKey volume (r_id record)) as [[i x]|] eqn:Hk; cbn [fmap option_fmap option_map default snd].
  - unfold merge_fields. cbn [r_name]. destruct (HasEntryField fields kEntryFieldName); [right; apply Z.le_refl|left].
    destruct (ok_row _ _ _ (ok_rows _ _ _ Ht) _ i x Hk) as (_ & e & _ & Hrep).
    eapply shows_interned. exists names. split; [apply (ok_rows _ _ _ Ht)|exact Hrep].
  - right. unfold merge_fields. cbn [r_name]. destruct (HasEntryField fields kEntryFieldName); apply Z.le_refl.
Qed.

(** Room left for [chars] more units of names and [n] more operations. *)
Definition budget (p : Projection) (chars n : Z) : Prop :=
  zlen (arena_ (namePool_ (rows p))) + chars <= UINT32_MAX /\
  zlen (NamePool.table_ (namePool_ (rows p))) + n <= UINT32_MAX /\ zlen (entries_ (rows p)) + n <= UINT32_MAX.

Lemma run_proj_op_refines p g o n :
  refines p g -> budget p (op_chars o) (1 + n) -> 0 <= n ->
  safe (run_proj_op p o) (fun p' => refines p' (spec_proj_op g o) /\
    zlen (arena_ (namePool_ (rows p'))) <= zlen (arena_ (namePool_ (rows p))) + op_chars o /\
    zlen (NamePool.table_ (namePool_ (rows p'))) <= zlen (NamePool.table_ (namePool_ (rows p))) + 1 /\
    zlen (entries_ (rows p')) <= zlen (entries_ (rows p)) + 1).
Proof.
  intros Hp (Ha & Ht & He) Hn. pose proof (op_chars_nonneg o) as Hc. unfold UINT32_MAX in *.
  assert (forall record, interned (rows p) (r_name record) \/ zlen (r_name record) <= op_chars o ->
          room (rows p) record (op_chars o)) as Hroom.
  { intros record Hin. unfold room, UINT32_MAX. repeat split; (done || lia). }
  destruct o as [v x|v x f|v i|v l b|v b|v i|b]; cbn [run_proj_op spec_proj_op op_chars] in *.
  - eapply safe_mono; [apply (Upsert_refines p g v x (zlen (r_name x)) Hp), Hroom; right; lia|].
    intros p' [(? & ? & ? & _) ?]. auto.
  - eapply safe_mono; [eapply (UpsertPartial_refines p g v x f), Hroom, (merged_interned p g v x f Hp); exact Hp|].
    intros p' [(? & ? & ? & _) ?]. auto.
  - destruct Hp as (names & st & Hok & ->). eapply safe_mono; [by apply Remove_ok|]. intros p' [(? & ? & ? & _) Hp'].
    split; [|lia]. eexists names, _. split; [exact Hp'|]. by rewrite fmap_delete.
  - destruct Hp as (names & st & Hok & ->). eapply safe_mono; [by apply RemoveBatch_ok|]. intros p' [(? & ? & ? & _) Hp'].
    split; [|lia]. eexists names, _. split; [exact Hp'|]. by rewrite snd_delete_ids.
  - destruct Hp as (names & st & Hok & ->). eapply safe_mono; [by apply RemoveVolume_ok|]. intros p' [(? & ? & ? & _) Hp'].
    split; [|lia]. eexists names, _. split; [exact Hp'|]. symmetry. apply snd_filter_volume.
  - destruct (Find_refines p g v i Hp) as (? & p' & -> & Hp' & Hrows & _). cbn. rewrite Hrows. split; [done|lia].
  - destruct Hp as (names & st & Hok & ->). unfold SetBulkScanActive. destruct b; cbn [safe].
    + split; [|cbn; lia]. exists names, st. split; [|done]. by apply (invalidate_proj_ok p names st) in Hok as [? ?].
    + destruct (rebuild_index_ok p names st (ok_tables _ _ _ Hok)) as (p' & -> & Hp' & Hrows & _). cbn [bind safe].
      change (rows (set_policy p' true false)) with (rows p'). rewrite Hrows.
      split; [|lia]. exists names, st. split; [|done]. by destruct Hp'.
Qed.

Lemma run_proj_refines os p g :
  refines p g -> budget p (total_chars os) (zlen os) ->
  safe (run_proj p os) (fun p' => refines p' (foldl spec_proj_op g os)).
Proof.
  revert p g. induction os as [|o os IH]; intros p g Hp Hb; cbn [run_proj foldl]; [done|].
  destruct Hb as (Ha & Ht & He). cbn [total_chars] in Ha. rewrite zlen_cons in Ht, He.
  pose proof (total_chars_nonneg os). pose proof (zlen_nonneg os).
  eapply safe_bind; [apply (run_proj_op_refines p g o (zlen os)); [done| |done]|].
  { repeat split; lia. }
  intros p' (Hp' & ? & ? & ?). apply IH; [done|]. repeat split; lia.
Qed.

Lemma new_projection_refines : refines new_projection ∅.
Proof.
  exists [], ∅. split; [|by rewrite fmap_empty]. split; [split|]; cbn.
  - split; cbn; [apply empty_pool_rep|rewrite fmap_empty; apply (clear_represents EntryKeyHash empty_map)|by intros k k' i x x' ?%lookup_empty_Some|by intros k i x ?%lookup_empty_Some].
  - exists ∅. split; [apply empty_holds|]. intros k. rewrite lookup_empty. cbn. split; [constructor|]. intros i.
    split; [set_solver|]. by intros (k' & x & ?%lookup_empty_Some & _).
  - split; [constructor|]. cbn. set_solver.
  - done.
  - done.
  - exists ∅. split; [|apply new_index_ok]. intros i n. rewrite lookup_empty. split; [done|]. by intros (k & x & ?%lookup_empty_Some & _).
Qed.

Lemma run_new_refines os :
  total_chars os <= UINT32_MAX -> zlen os <= UINT32_MAX ->
  safe (run_proj new_projection os) (fun p => refines p (foldl spec_proj_op ∅ os)).
Proof. intros. apply run_proj_refines; [apply new_projection_refines|]. split; [done|]. split; done. Qed.

(** ** Filename candidates at the level of records *)

(** The row of a live slot. *)
Lemma slot_shows p names st k i x :
  rows_ok (rows p) names st -> st !! k = Some (i, x) -> exists e, entry_at p i = Ok e /\ shows p k x e.
Proof.
  intros Hr Hk. destruct (rows_entry_at p names st k i x Hr Hk) as (e & He & _ & Hrep). exists e. split; [done|].
  split; [apply Hrep|]. split; [by destruct Hrep as (_ & nid & _ & _ & ->)|]. by eapply row_rep_name, Hrep; apply Hr.
Qed.

Lemma FilenameCandidateIndices_rows `{!OrdinalUnits CSO} p g term m cs :
  refines p g -> Forall is_unit term ->
  FilenameCandidateIndices (filenameIndex p) (FoldAscii16 term) m = Some cs ->
  sorted cs /\ (m = 0 \/ zlen cs <= m) /\
  (forall i, i ∈ cs -> exists k r e, g !! k = Some r /\ entry_at p i = Ok e /\ shows p k r e) /\
  (forall k r, g !! k = Some r -> Forall is_unit (r_name r) -> OrdinalContains16 CSO (r_name r) term = true ->
     exists i e, i ∈ cs /\ entry_at p i = Ok e /\ shows p k r e).
Proof.
  intros (names & st & [Ht (sn & Hsn & Hix)] & ->) Hterm Hcs. pose proof (ok_rows _ _ _ Ht) as Hr.
  destruct (candidates_exact CSO _ _ _ _ _ Hix Hcs) as (Hs & Hm & _ & _ & He). split; [done|]. split; [done|]. split.
  - intros i (n & Hn & _)%He. apply Hsn in Hn as (k & x & Hk & _).
    destruct (slot_shows p names st k i x Hr Hk) as (e & He' & Hsh). exists k, x, e. by rewrite lookup_fmap, Hk.
  - intros k r Hk Hu Hmatch. apply lookup_fmap_Some in Hk as ([i x] & <- & Hk). cbn in *.
    destruct (slot_shows p names st k i x Hr Hk) as (e & He' & Hsh). exists i, e. split; [|done].
    eapply (candidates_complete CSO _ sn term m cs i (r_name x)); try done. apply Hsn. eauto.
Qed.
End refinement.

(** ** Properties *)

(** C12. Starting from an empty projection, any sequence of upserts, partial updates, removals,
    batch and volume removals, look-ups and bulk scans whose names fit the 32-bit arena never
    reads or writes outside a table (a hash table may only give up with an exception), and
    what the projection then answers is what a finite map from keys to records answers after
    the same sequence: [Find] returns the row of the key's record, with its interned name, or
    nothing, and [ChildIndices] returns exactly the slots of the records with that parent,
    each once. *)
Theorem projection_refines_map CSO os :
  total_chars os <= UINT32_MAX -> zlen os <= UINT32_MAX ->
  safe (run_proj CSO new_projection os) (fun p =>
    let g := foldl spec_proj_op ∅ os in
    forall volume id,
      (exists o p', Find p volume id = Ok (o, p') /\ rows p' = rows p /\
         match o with
         | None => g !! mkEntryKey volume id = None
         | Some e => exists r, g !! mkEntryKey volume id = Some r /\ shows p (mkEntryKey volume id) r e
         end) /\
      (exists children rs p', ChildIndices p volume id = Ok (children, p') /\ rows p' = rows p /\
         NoDup children /\ NoDup rs /\
         Forall2 (fun i r => exists e, entry_at p i = Ok e /\ shows p (mkEntryKey volume (r_id r)) r e) children rs /\
         forall r, r ∈ rs <-> g !! mkEntryKey volume (r_id r) = Some r /\ r_parentId r = id /\ r_parentId r <> r_id r)).
Proof.
  intros Hc Hn. eapply safe_mono; [by apply run_new_refines|]. intros p Hp g volume id. split.
  - destruct (Find_refines CSO p _ volume id Hp) as (o & p' & ? & _ & ? & _ & ?). eauto 6.
  - destruct (ChildIndices_refines CSO p _ volume id Hp) as (cs & rs & p' & ? & _ & ? & _ & ?). eauto 8.
Qed.

(** A host table that also equates the Kelvin sign U+212A with [k]. *)
Definition kelvin (c : Z) : Z := if c =? 8490 then 107 else c.

Definition kelvin_ordinal (w nd : list Z) : Z := ascii_ordinal (map kelvin w) (map kelvin nd).

(** A volume root, a directory and two files, renamed, moved and removed. *)
Definition sample_record (id parent attributes : Z) (name : list Z) : EntryRecord :=
  mkRecord (mkFileId id 0) (mkFileId parent 0) name 10 12 true 1 2 3 attributes.

Definition sample_ops : list proj_op := [
  OpUpsert 1 (sample_record 5 5 16 [46]);
  OpUpsert 1 (sample_record 30 5 16 [68; 79; 67]);
  OpUpsert 1 (sample_record 31 30 0 [84; 111; 8490; 69; 110]);
  OpUpsert 1 (sample_record 32 30 0 [111; 108; 100]);
  OpUpsertPartial 1 (sample_record 32 5 0 [116; 111; 107; 101; 110; 115]) 3;
  OpFind 1 (mkFileId 31 0);
  OpRemove 1 (mkFileId 30 0)
].

Definition is_ok {A} (r : result A) : bool := match r with Ok _ => true | _ => false end.

Lemma projection_refines_map_witness :
  is_ok (run_proj kelvin_ordinal new_projection sample_ops) = true /\
  safe (run_proj kelvin_ordinal new_projection sample_ops) (fun p =>
    exists e p', Find p 1 (mkFileId 32 0) = Ok (Some e, p') /\ e_parentFrn e = mkFileId 5 0).
Proof.
  split; [vm_compute; reflexivity|].
  eapply safe_mono; [apply (projection_refines_map kelvin_ordinal sample_ops); vm_compute; discriminate|].
  intros p H. destruct (H 1 (mkFileId 32 0)) as [(o & p' & Hf & _ & Ho) _].
  assert (foldl spec_proj_op ∅ sample_ops !! mkEntryKey 1 (mkFileId 32 0)
          = Some (sample_record 32 5 0 [116; 111; 107; 101; 110; 115])) as Hg by (vm_compute; reflexivity).
  destruct o as [e|]; [|congruence]. destruct Ho as (r & Hr & _ & He & _).
  assert (r = sample_record 32 5 0 [116; 111; 107; 101; 110; 115]) as -> by congruence.
  exists e, p'. split; [done|]. by rewrite He.
Defined.

#[export] Instance kelvin_ordinal_ok : OrdinalUnits kelvin_ordinal.
Proof.
  assert (forall s, Forall is_ascii_unit s -> map kelvin s = s) as Hid.
  { intros s Hs. induction Hs as [|c s Hc _ IH]; [done|]. cbn. rewrite IH. unfold kelvin, is_ascii_unit in *.
    destruct (Z.eqb_spec c 8490); [lia|done]. }
  split.
  - split. intros w nd Hw Hnd _. unfold kelvin_ordinal. rewrite !Hid by done. apply ascii_ordinal_equal.
  - intros w nd _ _ Hl E. apply ascii_ordinal_equal in E. revert nd Hl E.
    induction w as [|a w IH]; intros [|b nd] Hl E; cbn in *; try lia; [constructor|]. injection E as E1 E2.
    constructor; [|by apply IH; [lia|]]. unfold kelvin_ordinal. apply ascii_ordinal_equal. cbn. by rewrite E1.
Qed.

(** C24. The filename accelerator misses nothing: after any sequence of operations, if it answers
    a term at all, the candidates are sorted, within the caller's cap and rows that exist,
    and they include every row whose name the canonical ordinal matcher accepts, whatever
    non-ASCII units the host equates with ASCII ones. *)
Theorem filename_candidates_complete CSO os term m :
  OrdinalUnits CSO -> total_chars os <= UINT32_MAX -> zlen os <= UINT32_MAX -> Forall is_unit term ->
  safe (run_proj CSO new_projection os) (fun p =>
    let g := foldl spec_proj_op ∅ os in
    forall cs, FilenameCandidateIndices (filenameIndex p) (FoldAscii16 term) m = Some cs ->
      sorted cs /\ (m = 0 \/ zlen cs <= m) /\
      (forall i, i ∈ cs -> exists k r e, g !! k = Some r /\ entry_at p i = Ok e /\ shows p k r e) /\
      (forall k r, g !! k = Some r -> Forall is_unit (r_name r) ->
         OrdinalContains16 CSO (r_name r) term = true ->
         exists i e, i ∈ cs /\ entry_at p i = Ok e /\ shows p k r e)).
Proof.
  intros HO Hc Hn Ht. eapply safe_mono; [by apply run_new_refines|]. intros p Hp g cs Hcs.
  by eapply FilenameCandidateIndices_rows.
Qed.

Lemma filename_candidates_complete_witness :
  match run_proj kelvin_ordinal new_projection sample_ops with
  | Ok p => FilenameCandidateIndices (filenameIndex p) (FoldAscii16 [79; 107; 101]) 0 = Some [2; 3]
  | _ => False
  end /\
  safe (run_proj kelvin_ordinal new_projection sample_ops) (fun p =>
    forall cs, FilenameCandidateIndices (filenameIndex p) (FoldAscii16 [79; 107; 101]) 0 = Some cs ->
      exists i e, i ∈ cs /\ entry_at p i = Ok e /\ e_frn e = mkFileId 31 0).
Proof.
  split; [vm_compute; reflexivity|].
  eapply safe_mono; [apply (filename_candidates_complete kelvin_ordinal sample_ops [79; 107; 101] 0 _);
    [vm_compute; discriminate..|solve_units]|].
  intros p H cs Hcs. destruct (H cs Hcs) as (_ & _ & _ & Hin).
  destruct (Hin (mkEntryKey 1 (mkFileId 31 0)) (sample_record 31 30 0 [84; 111; 8490; 69; 110])) as (i & e & Hi & He & _ & Hee & _);
    [vm_compute; reflexivity|solve_units|vm_compute; reflexivity|].
  exists i, e. split; [done|]. split; [done|]. by rewrite Hee.
Defined.
