(* ===== verification/ProjectionRead.v ===== *)
(** * ProjectionRead: paths and folder totals of the in-memory index

    Models [ReconstructPathUntil] and [GetFolderAggregate] of
    [src/src/indexstore/src/Projection.cpp].  Both walk the projection with [Find] and
    [ChildIndices], which update the access times, so they return the new projection. *)

From stdpp Require Import gmap.
From S2P Require Import Prelude TextMatch FlatHashMap NamePool ChildrenMap FilenameIndex Projection.

(** ** Path reconstruction *)

Record PathResult := mkPathResult { path : list Z; reachedRoot : bool }.

Definition kMaxProjectionPathDepth : nat := 4096.

Section reads.
(** [cancelled && cancelled ()] at its n-th call. *)
Context (cancelled : option (nat -> bool)).

Definition is_cancelled (calls : nat) : bool :=
  match cancelled with Some f => f calls | None => false end.

(** The walk up the parents: the name ids from the last one found to the first, whether the
    root was reached, and the number of calls of [cancelled]. *)
Fixpoint path_walk (depth : nat) (p : Projection) (volume : Z) (current : FileId)
    (visited : gset EntryKey) (parts : list Z) (calls : nat)
    : result (list Z * bool * nat * Projection) :=
  match depth with
  | O => Ok (parts, false, calls, p)
  | S depth' =>
      if is_cancelled calls then Ok (parts, false, S calls, p)
      else
        let key := mkEntryKey volume current in
        if bool_decide (key ∈ visited) then Ok (parts, false, S calls, p)
        else
          let* '(found, p) := Find p volume current in
          match found with
          | None => Ok (parts, false, S calls, p)
          | Some entry =>
              let parts := e_nameId entry :: parts in
              if bool_decide (e_parentFrn entry = current) then Ok (parts, true, S calls, p)
              else path_walk depth' p volume (e_parentFrn entry) ({[key]} ∪ visited) parts (S calls)
          end
  end.

(** The names joined with backslashes, from the root to the leaf. *)
Fixpoint join_parts (p : Projection) (parts : list Z) (text : list Z) (root : bool) (calls : nat)
    : result PathResult :=
  match parts with
  | [] => Ok (mkPathResult text root)
  | nameId :: rest =>
      if is_cancelled calls then Ok (mkPathResult text false)
      else
        let* name := Get (namePool_ (rows p)) nameId in
        let text := match text with [] => [] | _ :: _ => text ++ [92] end in
        join_parts p rest (text ++ name) root (S calls)
  end.

Definition ReconstructPathUntil (p : Projection) (volume : Z) (id : FileId)
    : result (PathResult * Projection) :=
  let* '(parts, root, calls, p) := path_walk kMaxProjectionPathDepth p volume id ∅ [] 0 in
  let* r := join_parts p parts [] root calls in
  Ok (r, p).
End reads.

Definition ReconstructPath (p : Projection) (volume : Z) (id : FileId) : result (PathResult * Projection) :=
  ReconstructPathUntil None p volume id.

(** ** Folder totals *)

Record FolderAggregate := mkAggregate {
  itemCount : Z;
  totalSizeBytes : Z;
  totalAllocatedSizeBytes : Z;
  allocatedBytesKnownCount : Z;
  allocatedBytesTotalCount : Z;
  complete : bool
}.

Definition kFileAttributeDirectory : Z := 16.

Definition saturatingAdd (destination value : Z) (overflowed : bool) : Z * bool :=
  if UINT64_MAX - destination <? value then (UINT64_MAX, true)
  else (destination + value, overflowed).

(** The body of the loop over the children. *)
Definition add_child (child : ProjectionEntry) (acc : FolderAggregate * bool) : FolderAggregate * bool :=
  let '(result, overflowed) := acc in
  let '(size, overflowed) := saturatingAdd (totalSizeBytes result) (e_sizeBytes child) overflowed in
  let '(allocated, known, overflowed) :=
    if e_allocatedSizeKnown child then
      let '(a, o) := saturatingAdd (totalAllocatedSizeBytes result) (e_allocatedSizeBytes child) overflowed in
      (a, add64 (allocatedBytesKnownCount result) 1, o)
    else (totalAllocatedSizeBytes result, allocatedBytesKnownCount result, overflowed) in
  (mkAggregate (add64 (itemCount result) 1) size allocated known
     (add64 (allocatedBytesTotalCount result) 1) (complete result), overflowed).

Definition is_directory (attributes : Z) : bool := negb (Z.land attributes kFileAttributeDirectory =? 0).

Fixpoint add_children (p : Projection) (children : list Z) (stack : list FileId)
    (acc : FolderAggregate * bool) : result (list FileId * (FolderAggregate * bool)) :=
  match children with
  | [] => Ok (stack, acc)
  | index :: rest =>
      let* child := entry_at p index in
      let stack := if is_directory (e_attributes child) then stack ++ [e_frn child] else stack in
      add_children p rest stack (add_child child acc)
  end.

(** The [while (!stack.empty ())] loop; the top of the stack is the last element.  [Ok None] is
    a loop that has not ended after [fuel] iterations. *)
Fixpoint aggregate_loop (fuel : nat) (p : Projection) (volume : Z) (stack : list FileId)
    (acc : FolderAggregate * bool) : result (option (FolderAggregate * bool * Projection)) :=
  match last stack with
  | None => Ok (Some (acc, p))
  | Some current =>
      match fuel with
      | O => Ok None
      | S fuel' =>
          let stack := take (length stack - 1) stack in
          let* '(children, p) := ChildIndices p volume current in
          let* '(stack, acc) := add_children p children stack acc in
          aggregate_loop fuel' p volume stack acc
      end
  end.

(** [fuel] iterations of [GetFolderAggregate]: the inner [None] is [std::nullopt]. *)
Definition GetFolderAggregate (fuel : nat) (p : Projection) (volume : Z) (parent : FileId)
    : result (option (option FolderAggregate * Projection)) :=
  let* '(root, p) := Find p volume parent in
  match root with
  | None => Ok (Some (None, p))
  | Some _ =>
      let* o := aggregate_loop fuel p volume [parent] (mkAggregate 0 0 0 0 0 true, false) in
      match o with
      | None => Ok None
      | Some (r, overflowed, p) =>
          Ok (Some (Some (mkAggregate (itemCount r) (totalSizeBytes r) (totalAllocatedSizeBytes r)
                            (allocatedBytesKnownCount r) (allocatedBytesTotalCount r)
                            (negb overflowed &&
                             (allocatedBytesKnownCount r =? allocatedBytesTotalCount r))), p))
      end
  end.

(** ** The records a row shows *)

Section facts.
Context (CSO : list Z -> list Z -> Z).
Local Abbreviation refines := (refines CSO).

(** The chain of records from [id] up to the volume root, the root first. *)
Inductive parent_chain (g : gmap EntryKey EntryRecord) (volume : Z) : FileId -> list EntryRecord -> Prop :=
| chain_root id r : g !! mkEntryKey volume id = Some r -> r_parentId r = id -> parent_chain g volume id [r]
| chain_step id r rest : g !! mkEntryKey volume id = Some r -> r_parentId r <> id ->
    parent_chain g volume (r_parentId r) rest -> parent_chain g volume id (rest ++ [r]).

Lemma parent_chain_functional g volume id l l' :
  parent_chain g volume id l -> parent_chain g volume id l' -> l = l'.
Proof.
  intros H. revert l'. induction H as [id r Hg Hp|id r rest Hg Hp _ IH]; intros l'; inversion_clear 1; simplify_eq; try done.
  f_equal. by apply IH.
Qed.

(** [texts] joined with backslashes, as the code joins them. *)
Fixpoint join (text : list Z) (names : list (list Z)) : list Z :=
  match names with
  | [] => text
  | n :: rest => join (match text with [] => [] | _ :: _ => text ++ [92] end ++ n) rest
  end.

Lemma join_parts_spec p parts names text root calls :
  Forall2 (fun nid n => Get (namePool_ (rows p)) nid = Ok n) parts names ->
  join_parts None p parts text root calls = Ok (mkPathResult (join text names) root).
Proof.
  intros H. revert text calls. induction H as [|nid n parts names Hn _ IH]; intros text calls; cbn [join_parts join]; [done|].
  cbn [is_cancelled]. rewrite Hn. cbn [bind]. apply IH.
Qed.

(** The walk returns the records it met, in order; when it reaches the root they are the
    chain, and if a chain of admissible length exists that avoids what was visited, it
    reaches the root. *)
Lemma path_walk_spec depth p g volume current visited parts names calls :
  refines p g -> Forall2 (fun nid n => Get (namePool_ (rows p)) nid = Ok n) parts names ->
  exists parts' names' root calls' p',
    path_walk None depth p volume current visited parts calls = Ok (parts', root, calls', p') /\
    refines p' g /\ rows p' = rows p /\ policy p' = policy p /\
    Forall2 (fun nid n => Get (namePool_ (rows p)) nid = Ok n) parts' names' /\
    (root = true -> exists rs, parent_chain g volume current rs /\ (length rs <= depth)%nat /\
       names' = (r_name <$> rs) ++ names) /\
    (forall rs, parent_chain g volume current rs -> (length rs <= depth)%nat ->
       (forall k, k ∈ visited -> forall id' rs', parent_chain g volume id' rs' ->
          (length rs' <= length rs)%nat -> k <> mkEntryKey volume id') -> root = true).
Proof.
  revert p current visited parts names calls.
  induction depth as [|depth IH]; intros p current visited parts names calls Hp Hparts; cbn [path_walk].
  { eexists _, _, _, _, _. split; [done|]. split; [done|]. split; [done|]. split; [done|]. split; [exact Hparts|]. split; [done|].
    intros rs Hc Hl. destruct Hc; cbn in Hl; rewrite ?length_app in Hl; cbn in Hl; lia. }
  cbn [is_cancelled]. set (key := mkEntryKey volume current).
  destruct (bool_decide_reflect (key ∈ visited)) as [Hv|Hv].
  { eexists _, _, _, _, _. split; [done|]. split; [done|]. split; [done|]. split; [done|]. split; [exact Hparts|]. split; [done|].
    intros rs Hc _ Hav. exfalso. by apply (Hav key Hv current rs). }
  destruct (Find_refines CSO p g volume current Hp) as (o & p1 & -> & Hp1 & Hrows & Hpol & Ho). cbn [bind].
  destruct o as [e|].
  2: { eexists _, _, _, _, _. split; [done|]. split; [done|]. split; [done|]. split; [done|]. split; [exact Hparts|]. split; [done|].
       intros rs Hc. destruct Hc; congruence. }
  destruct Ho as (r & Hg & Hid & He & Hname). cbn in Hid.
  assert (e_parentFrn e = r_parentId r) as -> by (by rewrite He).
  destruct (bool_decide_reflect (r_parentId r = current)) as [Hroot|Hroot].
  - eexists _, (r_name r :: names), true, _, _. split; [done|]. split; [done|]. split; [done|]. split; [done|].
    split; [by constructor|]. split; [|done]. intros _. exists [r]. split; [by apply chain_root|]. split; [cbn; lia|done].
  - destruct (IH p1 (r_parentId r) ({[key]} ∪ visited) (e_nameId e :: parts) (r_name r :: names) (S calls))
      as (parts' & names' & root & calls' & p' & -> & Hp' & Hrows' & Hpol' & Hparts' & Hsound & Hcomplete); [done| |].
    { rewrite Hrows. by constructor. }
    rewrite Hrows in Hparts'. eexists _, names', root, _, _. split; [done|]. split; [done|]. split; [by rewrite Hrows', Hrows|].
    split; [by rewrite Hpol', Hpol|]. split; [done|]. split.
    + intros E. destruct (Hsound E) as (rs & Hc & Hl & ->). exists (rs ++ [r]).
      split; [by apply chain_step|]. split; [rewrite length_app; cbn; lia|].
      rewrite fmap_app. cbn. by rewrite <-app_assoc.
    + intros rs Hc Hl Hav. inversion Hc as [? r' Hg' Hp''|? r' rest Hg' Hne Hrest]; subst; [congruence|].
      assert (r' = r) as -> by congruence. rewrite length_app in Hl. cbn in Hl.
      apply (Hcomplete rest); [done|lia|]. intros k Hk id' rs' Hrs' Hlen.
      apply elem_of_union in Hk as [->%elem_of_singleton|Hk].
      * intros E. injection E as <-. pose proof (parent_chain_functional _ _ _ _ _ Hc Hrs') as <-.
        rewrite length_app in Hlen. cbn in Hlen. lia.
      * apply (Hav k Hk id' rs' Hrs'). rewrite length_app. lia.
Qed.

(** What [ReconstructPath] returns; only access times change. *)
Lemma ReconstructPath_spec p g volume id :
  refines p g ->
  exists res p', ReconstructPath p volume id = Ok (res, p') /\ refines p' g /\ rows p' = rows p /\ policy p' = policy p /\
    (reachedRoot res = true <-> exists rs, parent_chain g volume id rs /\ (length rs <= kMaxProjectionPathDepth)%nat) /\
    (forall rs, parent_chain g volume id rs -> (length rs <= kMaxProjectionPathDepth)%nat ->
       path res = join [] (r_name <$> rs)).
Proof.
  intros Hp. unfold ReconstructPath, ReconstructPathUntil.
  destruct (path_walk_spec kMaxProjectionPathDepth p g volume id ∅ [] [] 0 Hp (List.Forall2_nil _))
    as (parts & names & root & calls & p' & -> & Hp' & Hrows & Hpol & Hparts & Hsound & Hcomplete). cbn [bind].
  rewrite (join_parts_spec p' parts names) by (by rewrite Hrows). cbn [bind].
  eexists _, p'. split; [done|]. split; [done|]. split; [done|]. split; [done|]. cbn [reachedRoot path]. split; [split|].
  - intros E. destruct (Hsound E) as (rs & ? & ? & _). eauto.
  - intros (rs & Hc & Hl). apply (Hcomplete rs Hc Hl). set_solver.
  - intros rs Hc Hl. destruct Hsound as (rs' & Hc' & _ & ->); [apply (Hcomplete rs Hc Hl); set_solver|].
    by rewrite (parent_chain_functional _ _ _ _ _ Hc' Hc), app_nil_r.
Qed.

(** ** Totals of a list of records *)

Definition sum_of (f : EntryRecord -> Z) (l : list EntryRecord) : Z := foldr (fun r s => f r + s) 0 l.

Definition known_size (r : EntryRecord) : Z := if r_allocatedSizeKnown r then r_allocatedSizeBytes r else 0.

Definition known_one (r : EntryRecord) : Z := if r_allocatedSizeKnown r then 1 else 0.

(** What the loop has accumulated after the records [l], in any order. *)
Definition totals (l : list EntryRecord) : FolderAggregate * bool :=
  (mkAggregate (wrap64 (zlen l)) (Z.min UINT64_MAX (sum_of r_sizeBytes l))
     (Z.min UINT64_MAX (sum_of known_size l)) (wrap64 (sum_of known_one l)) (wrap64 (zlen l)) true,
   (UINT64_MAX <? sum_of r_sizeBytes l) || (UINT64_MAX <? sum_of known_size l)).

Definition sizes_ok (r : EntryRecord) : Prop :=
  0 <= r_sizeBytes r <= UINT64_MAX /\ 0 <= r_allocatedSizeBytes r <= UINT64_MAX.

Lemma sum_of_perm f l l' : l ≡ₚ l' -> sum_of f l = sum_of f l'.
Proof. induction 1; cbn; unfold sum_of in *; lia. Qed.

#[global] Instance totals_perm : Proper ((≡ₚ) ==> (=)) totals.
Proof.
  intros l l' H. unfold totals. rewrite !(sum_of_perm _ _ _ H). unfold zlen. by rewrite (Permutation_length H).
Qed.

Lemma sum_of_nonneg f l : Forall (fun r => 0 <= f r) l -> 0 <= sum_of f l.
Proof. induction 1; cbn; unfold sum_of in *; lia. Qed.

Lemma saturatingAdd_sum s v : 0 <= s -> 0 <= v <= UINT64_MAX -> forall o,
  saturatingAdd (Z.min UINT64_MAX s) v ((UINT64_MAX <? s) || o) = (Z.min UINT64_MAX (v + s), (UINT64_MAX <? v + s) || o).
Proof.
  intros Hs Hv o. unfold saturatingAdd, UINT64_MAX in *.
  destruct (Z.ltb_spec 18446744073709551615 s), (Z.ltb_spec 18446744073709551615 (v + s)), (Z.ltb_spec (18446744073709551615 - Z.min 18446744073709551615 s) v);
    cbn [orb]; f_equal; lia.
Qed.

Lemma add64_wrap a : add64 (wrap64 a) 1 = wrap64 (1 + a).
Proof. unfold add64, wrap64. rewrite Zplus_mod_idemp_l. f_equal. lia. Qed.

(** One more child. *)
Lemma add_child_totals p k r e l :
  shows p k r e -> sizes_ok r -> Forall sizes_ok l -> add_child e (totals l) = totals (r :: l).
Proof.
  intros (_ & He & _) [Hs Ha] Hl. rewrite He. clear He.
  assert (0 <= sum_of r_sizeBytes l) as H1 by (apply sum_of_nonneg; eapply Forall_impl; [exact Hl|]; intros ? [[? _] _]; done).
  assert (0 <= sum_of known_size l) as H2.
  { apply sum_of_nonneg. eapply Forall_impl; [exact Hl|]. intros y [_ [? _]]. unfold known_size. by destruct (r_allocatedSizeKnown y). }
  unfold add_child, totals. cbn [new_entry e_sizeBytes e_allocatedSizeKnown e_allocatedSizeBytes totalSizeBytes totalAllocatedSizeBytes
    itemCount allocatedBytesKnownCount allocatedBytesTotalCount complete].
  rewrite saturatingAdd_sum by done. cbn [sum_of foldr]. fold (sum_of r_sizeBytes l) (sum_of known_size l) (sum_of known_one l).
  rewrite (orb_comm (_ <? r_sizeBytes r + _)), zlen_cons, !add64_wrap.
  assert (known_size r = if r_allocatedSizeKnown r then r_allocatedSizeBytes r else 0) as -> by done.
  assert (known_one r = if r_allocatedSizeKnown r then 1 else 0) as -> by done.
  destruct (r_allocatedSizeKnown r).
  - rewrite saturatingAdd_sum by done. by rewrite (orb_comm (_ <? r_sizeBytes r + _)).
  - by rewrite !Z.add_0_l, (orb_comm (_ <? r_sizeBytes r + _)).
Qed.

(** ** The traversal *)

Definition dirs (rs : list EntryRecord) : list EntryRecord :=
  filter (fun r => is_directory (r_attributes r) = true) rs.

(** The slots [children] of [q], which has the rows of [p], show the records [rs]. *)
Abbreviation shown p volume := (Forall2 (fun i r => exists e, entry_at p i = Ok e /\ shows p (mkEntryKey volume (r_id r)) r e)).

Lemma add_children_spec p q volume children rs stack acc :
  rows q = rows p -> shown p volume children rs ->
  exists es, Forall2 (fun r e => shows p (mkEntryKey volume (r_id r)) r e) rs es /\
    add_children q children stack acc = Ok (stack ++ (r_id <$> dirs rs), foldl (fun acc e => add_child e acc) acc es).
Proof.
  intros Hq H. revert stack acc. induction H as [|i r children rs (e & He & Hs) _ IH]; intros stack acc; cbn [add_children].
  { exists []. split; [constructor|]. by rewrite app_nil_r. }
  unfold entry_at in He |- *. rewrite Hq. destruct (entries_ (rows p) !! Z.to_nat i) as [e'|]; [|done].
  injection He as ->. cbn [bind]. pose proof Hs as (_ & Heq & _).
  assert (e_attributes e = r_attributes r) as Ea by (by rewrite Heq). assert (e_frn e = r_id r) as Ef by (by rewrite Heq).
  edestruct IH as (es & Hes & ->). exists (e :: es). split; [by constructor|]. f_equal. f_equal.
  unfold dirs. rewrite filter_cons, Ea, Ef. destruct (is_directory (r_attributes r)); cbn.
  - by rewrite <-app_assoc.
  - done.
Qed.

Lemma fold_children_totals p volume rs es l :
  Forall2 (fun r e => shows p (mkEntryKey volume (r_id r)) r e) rs es -> Forall sizes_ok rs -> Forall sizes_ok l ->
  foldl (fun acc e => add_child e acc) (totals l) es = totals (rs ++ l).
Proof.
  intros H. revert l. induction H as [|r e rs es Hs _ IH]; intros l Hrs Hl; cbn [foldl]; [done|].
  apply Forall_cons in Hrs as [Hr Hrs]. rewrite (add_child_totals p _ r) by done.
  rewrite IH; [|done|by constructor]. by rewrite <-Permutation_middle.
Qed.

(** The records below [id]: its children and the records below those that are directories.
    There is such a list only when the directories below [id] do not form a cycle. *)
Inductive descendants (g : gmap EntryKey EntryRecord) (volume : Z) : FileId -> list EntryRecord -> Prop :=
| descend id cs below :
    NoDup cs ->
    (forall r, r ∈ cs <-> g !! mkEntryKey volume (r_id r) = Some r /\ r_parentId r = id /\ r_parentId r <> r_id r) ->
    Forall2 (fun d l => descendants g volume (r_id d) l) (dirs cs) below ->
    descendants g volume id (cs ++ concat below).

Lemma dirs_length rs : (length (dirs rs) <= length rs)%nat.
Proof. apply length_filter. Qed.

#[local] Instance concat_perm {A} : Proper ((≡ₚ) ==> (≡ₚ)) (@concat A).
Proof. intros l l' H. induction H; cbn; rewrite ?app_assoc; [done|by f_equiv|by rewrite (Permutation_app_comm y x)|by etrans]. Qed.

Lemma aggregate_loop_step fuel p volume stack current acc :
  aggregate_loop (S fuel) p volume (stack ++ [current]) acc =
  (let* '(children, p) := ChildIndices p volume current in
   let* '(stack, acc) := add_children p children stack acc in
   aggregate_loop fuel p volume stack acc).
Proof.
  cbn [aggregate_loop]. rewrite last_snoc, length_app, Nat.add_sub. by rewrite take_app_length.
Qed.

Lemma aggregate_loop_descendants fuel p g volume stack below l :
  refines p g -> Forall2 (descendants g volume) stack below ->
  (length (concat below) + length stack <= fuel)%nat -> Forall sizes_ok (concat below) -> Forall sizes_ok l ->
  exists p', aggregate_loop fuel p volume stack (totals l) = Ok (Some (totals (concat below ++ l), p')) /\
    refines p' g /\ rows p' = rows p.
Proof.
  revert p stack below l. induction fuel as [|fuel IH]; intros p stack below l Hp Hst Hf Hsz Hl;
    destruct stack as [|current stack _] using rev_ind.
  1,3: inversion_clear Hst; by eexists.
  { rewrite length_app in Hf. cbn in Hf. lia. }
  rewrite aggregate_loop_step. apply Forall2_app_inv_l in Hst as (below' & bl & Hst & Hlast & ->).
  inversion Hlast as [|? L ? ? HL Hnil]; subst. inversion Hnil; subst. clear Hlast Hnil.
  destruct (ChildIndices_refines CSO p g volume current Hp) as (children & rs & p1 & -> & Hp1 & Hrows & _ & _ & Hnd & Hsh & Hrs).
  cbn [bind]. inversion HL as [? cs bs Hndcs Hcs Hbs]; subst. clear HL.
  assert (cs ≡ₚ rs) as Hperm by (apply NoDup_Permutation; [done..|]; intros r; by rewrite Hrs, Hcs).
  rewrite concat_app, Forall_app in Hsz. cbn in Hsz. rewrite app_nil_r, Forall_app in Hsz. destruct Hsz as (Hsz & Hszc & Hszb).
  destruct (add_children_spec p p1 volume children rs stack (totals l) Hrows Hsh) as (es & Hes & ->). cbn [bind].
  rewrite (fold_children_totals p volume rs es l) by (done || by rewrite <-Hperm).
  assert (dirs cs ≡ₚ dirs rs) as Hd by (unfold dirs; by rewrite Hperm).
  destruct (Permutation_Forall2 Hd Hbs) as (bs' & Hbperm & Hbs').
  assert (concat bs ≡ₚ concat bs') as Hcat by (by rewrite Hbperm).
  destruct (IH p1 (stack ++ (r_id <$> dirs rs)) (below' ++ bs') (rs ++ l)) as (p' & -> & Hp' & Hrows'); [done| | | | |].
  - apply Forall2_app; [done|]. by apply Forall2_fmap_l.
  - rewrite !concat_app, !length_app, length_fmap in *. cbn in Hf. rewrite app_nil_r, length_app in Hf.
    rewrite <-(Permutation_length Hcat), <-(Permutation_length Hd). pose proof (dirs_length cs). lia.
  - rewrite concat_app, Forall_app. split; [done|]. by rewrite <-Hcat.
  - rewrite Forall_app. split; [by rewrite <-Hperm|done].
  - exists p'. split; [|by rewrite Hrows', Hrows]. f_equal. f_equal. f_equal. apply totals_perm.
    rewrite !concat_app. cbn. rewrite app_nil_r, <-!app_assoc. apply Permutation_app_head. rewrite <-Hcat, <-Hperm.
    rewrite !app_assoc. apply Permutation_app_tail, Permutation_app_comm.
Qed.

(** Two directories that are each other's parents stay on the stack for ever. *)
Lemma aggregate_loop_cycle fuel p g volume a b ra rb stack acc :
  refines p g -> a <> b ->
  g !! mkEntryKey volume a = Some ra -> r_id ra = a -> r_parentId ra = b -> is_directory (r_attributes ra) = true ->
  g !! mkEntryKey volume b = Some rb -> r_id rb = b -> r_parentId rb = a -> is_directory (r_attributes rb) = true ->
  a ∈ stack \/ b ∈ stack -> aggregate_loop fuel p volume stack acc = Ok None.
Proof.
  intros Hp Hne Ha Hia Hpa Hda Hb Hib Hpb Hdb. revert p Hp stack acc. induction fuel as [|fuel IH]; intros p Hp stack acc Hin;
    destruct stack as [|current stack _] using rev_ind; try set_solver.
  { cbn [aggregate_loop]. by rewrite last_snoc. }
  rewrite aggregate_loop_step.
  destruct (ChildIndices_refines CSO p g volume current Hp) as (children & rs & p1 & -> & Hp1 & Hrows & _ & _ & _ & Hsh & Hrs).
  cbn [bind]. destruct (add_children_spec p p1 volume children rs stack acc Hrows Hsh) as (es & _ & ->). cbn [bind].
  apply IH; [done|].
  assert (forall r, r_parentId r = current -> r_parentId r <> r_id r -> g !! mkEntryKey volume (r_id r) = Some r ->
    is_directory (r_attributes r) = true -> r_id r ∈ stack ++ (r_id <$> dirs rs)) as Hpush.
  { intros r Hr1 Hr2 Hr3 Hr4. apply elem_of_app. right. apply list_elem_of_fmap. exists r. split; [done|].
    apply list_elem_of_filter. split; [done|]. by apply Hrs. }
  rewrite !elem_of_app, !list_elem_of_singleton in Hin.
  destruct (decide (current = a)) as [->|]; [right; rewrite <-Hib; apply Hpush; congruence|].
  destruct (decide (current = b)) as [->|]; [left; rewrite <-Hia; apply Hpush; congruence|].
  rewrite !elem_of_app. intuition congruence.
Qed.
End facts.

Lemma sum_known_bounds l : 0 <= sum_of known_one l <= zlen l.
Proof.
  induction l as [|r l IH]; [done|]. rewrite zlen_cons. cbn. fold (sum_of known_one l). unfold known_one at 1 3.
  destruct (r_allocatedSizeKnown r); lia.
Qed.

Lemma sum_known_all l : (sum_of known_one l =? zlen l) = forallb r_allocatedSizeKnown l.
Proof.
  induction l as [|r l IH]; [done|]. rewrite zlen_cons. cbn. fold (sum_of known_one l). unfold known_one at 1.
  pose proof (sum_known_bounds l). destruct (r_allocatedSizeKnown r); cbn [andb].
  - rewrite <-IH. destruct (Z.eqb_spec (1 + sum_of known_one l) (1 + zlen l)), (Z.eqb_spec (sum_of known_one l) (zlen l)); lia.
  - destruct (Z.eqb_spec (0 + sum_of known_one l) (1 + zlen l)); lia.
Qed.

(** ** Properties *)

(** C37. Path reconstruction always returns, without reading outside a table.  It reports that it
    reached the root exactly when the parents of the entry lead, in at most 4096 steps, to an
    entry that is its own parent, and the path is then the names from the root to the entry
    joined with backslashes; a dangling or cyclic chain is reported as incomplete. *)
Theorem projection_path_correct CSO p g volume id :
  refines CSO p g ->
  exists res p', ReconstructPath p volume id = Ok (res, p') /\ refines CSO p' g /\
    (reachedRoot res = true <-> exists rs, parent_chain g volume id rs /\ (length rs <= kMaxProjectionPathDepth)%nat) /\
    (forall rs, parent_chain g volume id rs -> (length rs <= kMaxProjectionPathDepth)%nat ->
       path res = join [] (r_name <$> rs)).
Proof.
  intros Hp. destruct (ReconstructPath_spec CSO p g volume id Hp) as (res & p' & E & Hp' & _ & _ & H). by exists res, p'.
Qed.

(** The projections the witnesses read. *)
Definition sample_tree : list proj_op := [
  OpUpsert 1 (sample_record 5 5 16 [67; 58]);
  OpUpsert 1 (sample_record 30 5 16 [68]);
  OpUpsert 1 (sample_record 31 30 0 [102])
].

Definition sample_cycle : list proj_op := [
  OpUpsert 1 (sample_record 40 41 16 [97]);
  OpUpsert 1 (sample_record 41 40 16 [98])
].

Definition run_sample (os : list proj_op) : Projection :=
  match run_proj ascii_ordinal new_projection os with Ok p => p | _ => new_projection end.

Definition sample_map (os : list proj_op) : gmap EntryKey EntryRecord := foldl spec_proj_op ∅ os.

Lemma run_sample_refines os :
  is_ok (run_proj ascii_ordinal new_projection os) = true -> total_chars os <= UINT32_MAX -> zlen os <= UINT32_MAX ->
  refines ascii_ordinal (run_sample os) (sample_map os).
Proof.
  intros Hok Hc Hn. pose proof (run_new_refines ascii_ordinal os Hc Hn) as H. unfold run_sample.
  destruct (run_proj ascii_ordinal new_projection os); done.
Qed.

Lemma projection_path_correct_witness :
  exists res p', ReconstructPath (run_sample sample_tree) 1 (mkFileId 31 0) = Ok (res, p') /\
    reachedRoot res = true /\ path res = [67; 58; 92; 68; 92; 102].
Proof.
  destruct (projection_path_correct ascii_ordinal (run_sample sample_tree) (sample_map sample_tree) 1 (mkFileId 31 0))
    as (res & p' & Hr & _ & Hroot & Hpath).
  { apply run_sample_refines; [vm_compute; reflexivity|vm_compute; discriminate..]. }
  assert (parent_chain (sample_map sample_tree) 1 (mkFileId 31 0)
    (([sample_record 5 5 16 [67; 58]] ++ [sample_record 30 5 16 [68]]) ++ [sample_record 31 30 0 [102]])) as Hc.
  { apply chain_step; [reflexivity|discriminate|]. apply chain_step; [reflexivity|discriminate|]. by apply chain_root. }
  exists res, p'. split; [done|]. split; [apply Hroot; eexists; split; [exact Hc|unfold kMaxProjectionPathDepth; cbn; lia]|].
  rewrite (Hpath _ Hc) by (unfold kMaxProjectionPathDepth; cbn; lia). reflexivity.
Defined.

(** C34. The totals of a folder whose directories form no cycle: the loop ends, and the result
    counts every record below the folder once, with the sizes added without wrap-around (a
    sum that does not fit is the largest 64-bit value); the total is marked complete exactly
    when every allocated size below is known and no sum was cut off. *)
Theorem GetFolderAggregate_totals CSO p g volume id root below fuel :
  refines CSO p g -> g !! mkEntryKey volume id = Some root -> descendants g volume id below ->
  Forall sizes_ok below -> zlen below <= UINT64_MAX -> (length below < fuel)%nat ->
  exists p', GetFolderAggregate fuel p volume id =
      Ok (Some (Some (mkAggregate (zlen below) (Z.min UINT64_MAX (sum_of r_sizeBytes below))
                        (Z.min UINT64_MAX (sum_of known_size below)) (sum_of known_one below) (zlen below)
                        ((sum_of r_sizeBytes below <=? UINT64_MAX) && (sum_of known_size below <=? UINT64_MAX) &&
                         forallb r_allocatedSizeKnown below)), p')) /\
    refines CSO p' g /\ rows p' = rows p.
Proof.
  intros Hp Hroot Hd Hsz Hlen Hfuel. unfold GetFolderAggregate.
  destruct (Find_refines CSO p g volume id Hp) as (o & p1 & -> & Hp1 & Hrows1 & _ & Ho). cbn [bind].
  destruct o as [e|]; [|congruence].
  destruct (aggregate_loop_descendants CSO fuel p1 g volume [id] [below] [] Hp1) as (p' & Hloop & Hp' & Hrows);
    [by repeat constructor|cbn; rewrite app_nil_r; lia|cbn; by rewrite app_nil_r|constructor|].
  change (totals []) with (mkAggregate 0 0 0 0 0 true, false) in Hloop. rewrite Hloop. cbn [bind concat].
  rewrite !app_nil_r. unfold totals at 1.
  cbn [itemCount totalSizeBytes totalAllocatedSizeBytes allocatedBytesKnownCount allocatedBytesTotalCount].
  pose proof (sum_known_bounds below). pose proof (zlen_nonneg below).
  rewrite !wrap64_small by (unfold SIZE_MAX, UINT64_MAX in *; lia).
  rewrite sum_known_all, negb_orb, <-!Z.leb_antisym. exists p'. split; [done|]. by rewrite Hrows.
Qed.

(** The children lists of [sample_tree], by cases over its three records. *)
Local Ltac sample_children r :=
  split;
  [ intros ->%list_elem_of_singleton; done
  | intros (Hg & Hp & Hn); unfold sample_map in Hg; cbn [foldl spec_proj_op sample_tree] in Hg;
    rewrite !lookup_insert_Some, lookup_empty in Hg;
    destruct Hg as [[_ <-]|[_ [[_ <-]|[_ [[_ <-]|[_ ?]]]]]]; try done; by apply list_elem_of_singleton ].

Lemma GetFolderAggregate_totals_witness :
  exists p', GetFolderAggregate 3 (run_sample sample_tree) 1 (mkFileId 5 0) =
    Ok (Some (Some (mkAggregate 2 20 24 2 2 true), p')).
Proof.
  destruct (GetFolderAggregate_totals ascii_ordinal (run_sample sample_tree) (sample_map sample_tree) 1 (mkFileId 5 0)
    (sample_record 5 5 16 [67; 58]) [sample_record 30 5 16 [68]; sample_record 31 30 0 [102]] 3) as (p' & H & _).
  - apply run_sample_refines; [vm_compute; reflexivity|vm_compute; discriminate..].
  - reflexivity.
  - apply (descend _ 1 (mkFileId 5 0) [sample_record 30 5 16 [68]] [[sample_record 31 30 0 [102]]]);
      [apply NoDup_singleton|intros r; sample_children r|].
    change (dirs [sample_record 30 5 16 [68]]) with [sample_record 30 5 16 [68]]. constructor; [|constructor].
    apply (descend _ 1 (mkFileId 30 0) [sample_record 31 30 0 [102]] []);
      [apply NoDup_singleton|intros r; sample_children r|constructor].
  - repeat constructor; vm_compute; discriminate.
  - vm_compute; discriminate.
  - cbn. lia.
  - exists p'. exact H.
Defined.

(** Two directories that record each other as parent make the folder totals loop for ever:
    the traversal keeps no set of visited directories, so no number of iterations ends it. *)
Theorem GetFolderAggregate_cycle_never_returns CSO p g volume a b ra rb :
  refines CSO p g -> a <> b ->
  g !! mkEntryKey volume a = Some ra -> r_id ra = a -> r_parentId ra = b -> is_directory (r_attributes ra) = true ->
  g !! mkEntryKey volume b = Some rb -> r_id rb = b -> r_parentId rb = a -> is_directory (r_attributes rb) = true ->
  forall fuel, GetFolderAggregate fuel p volume a = Ok None.
Proof.
  intros Hp Hne Ha Hia Hpa Hda Hb Hib Hpb Hdb fuel. unfold GetFolderAggregate.
  destruct (Find_refines CSO p g volume a Hp) as (o & p1 & -> & Hp1 & _ & _ & Ho). cbn [bind].
  destruct o as [e|]; [|congruence].
  rewrite (aggregate_loop_cycle CSO fuel p1 g volume a b ra rb) by (done || set_solver). done.
Qed.

Lemma GetFolderAggregate_cycle_witness :
  GetFolderAggregate 1000 (run_sample sample_cycle) 1 (mkFileId 40 0) = Ok None.
Proof.
  apply (GetFolderAggregate_cycle_never_returns ascii_ordinal (run_sample sample_cycle) (sample_map sample_cycle) 1
    (mkFileId 40 0) (mkFileId 41 0) (sample_record 40 41 16 [97]) (sample_record 41 40 16 [98])); try reflexivity.
  - apply run_sample_refines; [vm_compute; reflexivity|vm_compute; discriminate..].
  - discriminate.
Defined.
