(* ===== verification/Residency.v ===== *)
(** * Residency: the memory policy of the in-memory index

    Models the eviction side of class [Projection] ([src/src/indexstore/src/Projection.cpp]):
    the choice of a victim, the eviction of a subtree or of a volume, the compaction of the
    tables, and the loops that enforce the memory limit.

    [EstimatedMemoryBytes] adds up [capacity()] and [bucket_count()] of standard containers,
    which the standard leaves open, so the sum is a parameter, a function of the tables: the
    theorems hold for every such function.  Loops carry fuel, and running out of it is a [Fault]: that no operation
    faults also says that every loop ends. *)

From stdpp Require Import gmap.
From S2P Require Import Prelude TextMatch FlatHashMap NamePool ChildrenMap FilenameIndex Projection ProjectionRead.

(** ** The victim *)

(** The oldest key so far of one class, with its access time. *)
Abbreviation Oldest := (option (EntryKey * Z)).

Definition older (current : Oldest) (key : EntryKey) (timestamp : Z) : Oldest :=
  match current with
  | None => Some (key, timestamp)
  | Some (_, t) => if timestamp <? t then Some (key, timestamp) else current
  end.

Record Victims := mkVictims { oldest : Oldest; oldestDirectory : Oldest; rootFallback : Oldest }.

Definition access_time (p : Projection) (index : Z) : Z :=
  default 0 (lastAccessTimes_ (times p) !! Z.to_nat index).

(** The visitor of [idToIndex_.ForEach]. *)
Definition visit_victim (p : Projection) (v : Victims) (key : EntryKey) (index : Z) : result Victims :=
  let* entry := entry_at p index in
  let timestamp := access_time p index in
  Ok (if bool_decide (e_parentFrn entry = e_frn entry)
      then mkVictims (oldest v) (oldestDirectory v) (older (rootFallback v) key timestamp)
      else if is_directory (e_attributes entry)
      then mkVictims (oldest v) (older (oldestDirectory v) key timestamp) (rootFallback v)
      else mkVictims (older (oldest v) key timestamp) (oldestDirectory v) (rootFallback v)).

Fixpoint scan_victims (p : Projection) (es : list (EntryKey * Z)) (v : Victims) : result Victims :=
  match es with
  | [] => Ok v
  | (key, index) :: rest => let* v := visit_victim p v key index in scan_victims p rest v
  end.

Definition LeastRecentlyUsedEntry (p : Projection) : result (option EntryKey) :=
  let* v := scan_victims p (live_ids (rows p)) (mkVictims None None None) in
  Ok (fst <$> match oldestDirectory v with
              | Some d => Some d
              | None => match oldest v with Some f => Some f | None => rootFallback v end
              end).

(** ** Compaction *)

(** The visitor of [CompactStorage]: [r] and [ts] are the replacement tables. *)
Definition compact_row (p : Projection) (r : Rows) (ts : list Z) (key : EntryKey) (oldIndex : Z)
    : result (Rows * list Z) :=
  let* old := entry_at p oldIndex in
  let* name := Get (namePool_ (rows p)) (e_nameId old) in
  let* '(names, nameId) := Intern (namePool_ r) name in
  let entry := mkEntry (e_volumeRowId old) (e_frn old) (e_parentFrn old) nameId (e_sizeBytes old)
                 (e_allocatedSizeBytes old) (e_allocatedSizeKnown old) (e_creationTime old)
                 (e_lastModifiedTime old) (e_lastAccessTime old) (e_attributes old)
                 (e_nameAsciiLower old) (e_nameIsAscii old) in
  let newIndex := wrap32 (zlen (entries_ r)) in
  let* ids := insert EntryKeyHash (idToIndex_ r) key newIndex in
  let* children :=
    if bool_decide (e_parentFrn entry = e_frn entry) then Ok (parentToChildren_ r)
    else children_insert (parentToChildren_ r) (mkEntryKey (e_volumeRowId entry) (e_parentFrn entry)) newIndex in
  Ok (mkRows names (entries_ r ++ [entry]) (freeList_ r) ids children (denseIterationOrderValid_ r),
      ts ++ [access_time p oldIndex]).

Fixpoint compact_rows (p : Projection) (es : list (EntryKey * Z)) (r : Rows) (ts : list Z)
    : result (Rows * list Z) :=
  match es with
  | [] => Ok (r, ts)
  | (key, oldIndex) :: rest =>
      let* '(r, ts) := compact_row p r ts key oldIndex in compact_rows p rest r ts
  end.

Definition CompactStorage (p : Projection) : result Projection :=
  let p := with_index p (InvalidateFilenameIndex (filenameIndex p)) in
  let* ids := reserve EntryKeyHash empty_map (count_ (idToIndex_ (rows p))) in
  let* '(r, ts) := compact_rows p (live_ids (rows p)) (mkRows empty_pool [] [] ids empty_children false) [] in
  Ok (mkProjection
        (mkRows (namePool_ r) (entries_ r) [] (idToIndex_ r) (parentToChildren_ r) true)
        (filenameIndex p) (mkTimes (accessClock_ (times p)) ts) (policy p)).

(** ** Eviction *)

(** The keys of the children; a slot past the end of the array is skipped. *)
Definition child_keys (p : Projection) (children : list Z) : list EntryKey :=
  omap (fun childIndex => match entries_ (rows p) !! Z.to_nat childIndex with
                          | Some child => Some (mkEntryKey (e_volumeRowId child) (e_frn child))
                          | None => None
                          end) children.

(** The [while (!pending.empty ())] loop; the top of [pending] is its last element. *)
Fixpoint evict_walk (fuel : nat) (p : Projection) (pending : list EntryKey) (visited : gset EntryKey)
    (removalOrder : list EntryKey) : result (list EntryKey) :=
  match last pending with
  | None => Ok removalOrder
  | Some current =>
      match fuel with
      | O => Fault
      | S fuel' =>
          let pending := take (length pending - 1) pending in
          if bool_decide (current ∈ visited) then evict_walk fuel' p pending visited removalOrder
          else
            let visited := {[current]} ∪ visited in
            match find EntryKeyHash (idToIndex_ (rows p)) current with
            | None => evict_walk fuel' p pending visited removalOrder
            | Some index =>
                let removalOrder := removalOrder ++ [current] in
                let* entry := entry_at p index in
                if negb (is_directory (e_attributes entry))
                then evict_walk fuel' p pending visited removalOrder
                else
                  let* children := children_find (parentToChildren_ (rows p)) current in
                  evict_walk fuel' p (pending ++ child_keys p children) visited removalOrder
            end
      end
  end.

Definition set_rows_ids (r : Rows) (ids : FlatHashMap EntryKey Z) : Rows :=
  mkRows (namePool_ r) (entries_ r) (freeList_ r) ids (parentToChildren_ r) false.

(** Forgetting identities without unlinking the rows. *)
Definition erase_keys (p : Projection) (keys : list EntryKey) : Projection :=
  mkProjection (set_rows_ids (rows p) (foldl (erase EntryKeyHash) (idToIndex_ (rows p)) keys))
    (InvalidateFilenameIndex (filenameIndex p)) (times p) (policy p).

Definition mark_evicted (p : Projection) (volume : Z) : Projection :=
  let c := policy p in
  mkProjection (rows p) (filenameIndex p) (times p)
    (mkPolicy (maximumMemoryBytes_ c) (enforcingMemoryLimit_ c) (bulkScanActive_ c)
       ({[volume]} ∪ evictedVolumes_ c) (add64 (subtreeEvictionCount_ c) 1) (coldReloadCount_ c)
       (coldReloadFailedCount_ c) (lastEvictionBytesBefore_ c) (lastEvictionBytesAfter_ c)).

(** The measurements of the last eviction. *)
Definition record_eviction (p : Projection) (before after : Z) : Projection :=
  let c := policy p in
  mkProjection (rows p) (filenameIndex p) (times p)
    (mkPolicy (maximumMemoryBytes_ c) (enforcingMemoryLimit_ c) (bulkScanActive_ c) (evictedVolumes_ c)
       (subtreeEvictionCount_ c) (coldReloadCount_ c) (coldReloadFailedCount_ c) before after).

Section eviction.
Context (CompareStringOrdinal : list Z -> list Z -> Z).

Fixpoint remove_keys (p : Projection) (keys : list EntryKey) : result Projection :=
  match keys with
  | [] => Ok p
  | key :: rest => let* p := Remove CompareStringOrdinal p (volumeRowId key) (frn key) in remove_keys p rest
  end.

Definition EvictSubtree (p : Projection) (rootKey : EntryKey) : result Projection :=
  match find EntryKeyHash (idToIndex_ (rows p)) rootKey with
  | None => Ok p
  | Some _ =>
      let* removalOrder := evict_walk (S (length (entries_ (rows p)))) p [rootKey] ∅ [] in
      let* p := if kPerEntryFilenameRemovalThreshold <? zlen removalOrder
                then Ok (erase_keys p removalOrder)
                else remove_keys p (rev removalOrder) in
      Ok (mark_evicted p (volumeRowId rootKey))
  end.

Definition EvictVolume (p : Projection) (volume : Z) : result Projection :=
  let keys := filter (fun k => volumeRowId k = volume) (live_ids (rows p)).*1 in
  match keys with
  | [] => Ok p
  | _ :: _ => CompactStorage (mark_evicted (erase_keys p keys) volume)
  end.

(** ** Enforcing the limit *)

(** The sum of the capacities of the tables. *)
Context (estimate : Rows -> FilenameIndex -> AccessTimes -> Z).

Definition EstimatedMemoryBytes (p : Projection) : Z := estimate (rows p) (filenameIndex p) (times p).

Definition EnforceMemoryLimitOnceTo (p : Projection) (targetBytes : Z) : result (bool * Projection) :=
  if negb (enforcingMemoryLimit_ (policy p)) || (EstimatedMemoryBytes p <=? targetBytes) then Ok (false, p)
  else
    let* victim := LeastRecentlyUsedEntry p in
    match victim with
    | None => Ok (false, p)
    | Some v =>
        let bytesBefore := EstimatedMemoryBytes p in
        let* p := EvictSubtree p v in
        let* p := CompactStorage p in
        Ok (true, record_eviction p bytesBefore (EstimatedMemoryBytes p))
    end.

Definition kMaxEnforcementPasses : nat := 8.

(** The bounded passes over subtrees. *)
Fixpoint enforce_passes (passes : nat) (p : Projection) (lowWatermark : Z) (evictedAny : bool)
    : result (bool * Projection) :=
  match passes with
  | O => Ok (evictedAny, p)
  | S passes' =>
      if EstimatedMemoryBytes p <=? lowWatermark then Ok (evictedAny, p)
      else
        let before := EstimatedMemoryBytes p in
        let* '(done, p) := EnforceMemoryLimitOnceTo p lowWatermark in
        if negb done then Ok (evictedAny, p)
        else if before <=? EstimatedMemoryBytes p then Ok (true, p)
        else enforce_passes passes' p lowWatermark true
  end.

(** The loop that makes whole volumes cold. *)
Fixpoint evict_volumes (fuel : nat) (p : Projection) (lowWatermark : Z) (evictedAny : bool)
    : result (bool * Projection) :=
  if negb (lowWatermark <? EstimatedMemoryBytes p) then Ok (evictedAny, p)
  else
    let* victim := LeastRecentlyUsedEntry p in
    match victim with
    | None => Ok (evictedAny, p)
    | Some v =>
        match fuel with
        | O => Fault
        | S fuel' =>
            let before := EstimatedMemoryBytes p in
            let* p := EvictVolume p (volumeRowId v) in
            let after := EstimatedMemoryBytes p in
            let p := record_eviction p before after in
            if before <=? after then Ok (true, p) else evict_volumes fuel' p lowWatermark true
        end
    end.

Definition low_watermark (p : Projection) : Z :=
  maximumMemoryBytes_ (policy p) - maximumMemoryBytes_ (policy p) / 5.

Definition EnforceMemoryLimit (p : Projection) : result (bool * Projection) :=
  if negb (enforcingMemoryLimit_ (policy p)) then Ok (false, p)
  else
    let lowWatermark := low_watermark p in
    let* '(evictedAny, p) := enforce_passes kMaxEnforcementPasses p lowWatermark false in
    evict_volumes (length (live_ids (rows p))) p lowWatermark evictedAny.

Definition EnforceMemoryLimitNow (p : Projection) : result (bool * Projection) := EnforceMemoryLimit p.

Fixpoint enforce_to (fuel : nat) (p : Projection) (targetBytes : Z) (evictedAny : bool)
    : result (bool * Projection) :=
  if negb (targetBytes <? EstimatedMemoryBytes p) then Ok (evictedAny, p)
  else
    let* victim := LeastRecentlyUsedEntry p in
    match victim with
    | None => Ok (evictedAny, p)
    | Some v =>
        match fuel with
        | O => Fault
        | S fuel' =>
            let before := EstimatedMemoryBytes p in
            let* p := EvictSubtree p v in
            let* p := CompactStorage p in
            let p := record_eviction p before (EstimatedMemoryBytes p) in
            if (before <=? EstimatedMemoryBytes p) && (count_ (idToIndex_ (rows p)) =? 0)
            then Ok (true, p) else enforce_to fuel' p targetBytes true
        end
    end.

Definition EnforceMemoryLimitTo (p : Projection) (targetBytes : Z) : result (bool * Projection) :=
  if negb (enforcingMemoryLimit_ (policy p)) then Ok (false, p)
  else enforce_to (length (live_ids (rows p))) p targetBytes false.

Definition set_limit (p : Projection) (maximum : Z) (enforcing : bool) : Projection :=
  let c := policy p in
  mkProjection (rows p) (filenameIndex p) (times p)
    (mkPolicy maximum enforcing (bulkScanActive_ c) (evictedVolumes_ c) (subtreeEvictionCount_ c)
       (coldReloadCount_ c) (coldReloadFailedCount_ c) (lastEvictionBytesBefore_ c) (lastEvictionBytesAfter_ c)).

Definition SetMaximumMemoryBytes (p : Projection) (maximumBytes : Z) : result Projection :=
  let maximum := if maximumBytes =? 0 then kDefaultMaximumMemoryBytes else maximumBytes in
  let wasEnforcing := enforcingMemoryLimit_ (policy p) in
  let* '(_, p) := EnforceMemoryLimitTo (set_limit p maximum true) maximum in
  Ok (set_limit p (maximumMemoryBytes_ (policy p)) wasEnforcing).

Definition IsMemoryPressureHigh (p : Projection) : bool :=
  if maximumMemoryBytes_ (policy p) =? 0 then false
  else low_watermark p <=? EstimatedMemoryBytes p.
End eviction.

Definition NeedsReload (p : Projection) (volume : Z) : bool :=
  bool_decide (volume ∈ evictedVolumes_ (policy p)).

(** ** The victim is the least recently used of its class *)

(** The class of a row: directories are evicted first, files next, volume roots last. *)
Definition victim_class (r : EntryRecord) : Z :=
  if bool_decide (r_parentId r = r_id r) then 2 else if is_directory (r_attributes r) then 0 else 1.

(** [o] is the oldest of the visited keys [es] that satisfy [P]. *)
Definition best (time : Z -> Z) (P : EntryKey -> Prop) (es : list (EntryKey * Z)) (o : Oldest) : Prop :=
  match o with
  | None => forall k i, (k, i) ∈ es -> ~ P k
  | Some (k, t) => P k /\ (exists i, (k, i) ∈ es /\ time i = t) /\
      forall k' i', (k', i') ∈ es -> P k' -> t <= time i'
  end.

Lemma best_skip time P es o k i : best time P es o -> ~ P k -> best time P (es ++ [(k, i)]) o.
Proof.
  intros Hb Hk. destruct o as [[k0 t]|]; cbn in *.
  - destruct Hb as (HP & (i0 & Hin & Ht) & Hmin). split; [done|]. split; [exists i0; set_solver|].
    intros k' i' [Hin'|[= -> ->]%list_elem_of_singleton]%elem_of_app HP'; [by eapply Hmin|done].
  - intros k' i' [Hin'|[= -> ->]%list_elem_of_singleton]%elem_of_app; [by eapply Hb|done].
Qed.

Lemma best_older time (P : EntryKey -> Prop) es o k i :
  best time P es o -> P k -> best time P (es ++ [(k, i)]) (older o k (time i)).
Proof.
  intros Hb Hk. destruct o as [[k0 t]|]; cbn in *.
  - destruct Hb as (HP & (i0 & Hin & Ht) & Hmin). destruct (Z.ltb_spec (time i) t) as [Hlt|Hge]; cbn.
    + split; [done|]. split; [exists i; set_solver|].
      intros k' i' [Hin'|[= -> ->]%list_elem_of_singleton]%elem_of_app HP'; [|lia]. specialize (Hmin k' i' Hin' HP'). lia.
    + split; [done|]. split; [exists i0; set_solver|].
      intros k' i' [Hin'|[= -> ->]%list_elem_of_singleton]%elem_of_app HP'; [by eapply Hmin|lia].
  - split; [done|]. split; [exists i; set_solver|].
    intros k' i' [Hin'|[= -> ->]%list_elem_of_singleton]%elem_of_app HP'; [by eapply Hb in Hin'|lia].
Qed.

Definition class_of (st : State) (c : Z) (k : EntryKey) : Prop :=
  exists i x, st !! k = Some (i, x) /\ victim_class x = c.

Definition victims_ok (time : Z -> Z) (st : State) (es : list (EntryKey * Z)) (v : Victims) : Prop :=
  best time (class_of st 1) es (oldest v) /\ best time (class_of st 0) es (oldestDirectory v) /\
  best time (class_of st 2) es (rootFallback v).

Lemma scan_victims_spec p names st done es v :
  rows_ok (rows p) names st -> (forall k i, (k, i) ∈ es -> exists x, st !! k = Some (i, x)) ->
  victims_ok (access_time p) st done v ->
  exists v', scan_victims p es v = Ok v' /\ victims_ok (access_time p) st (done ++ es) v'.
Proof.
  intros Hr. revert done v. induction es as [|[k i] es IH]; intros done v Hes Hv; cbn [scan_victims].
  { exists v. by rewrite app_nil_r. }
  destruct (Hes k i) as [x Hk]; [set_solver|]. unfold visit_victim.
  destruct (rows_entry_at p names st k i x Hr Hk) as (e & -> & _ & Hrep). cbn [bind].
  pose proof (row_rep_id _ _ _ _ Hrep) as (Hep & Hef & _). destruct Hrep as (Hid & nid & _ & _ & He).
  rewrite Hep, Hef, <-Hid. assert (e_attributes e = r_attributes x) as -> by (by rewrite He).
  replace (done ++ (k, i) :: es) with ((done ++ [(k, i)]) ++ es) by (by rewrite <-app_assoc).
  assert (forall c, class_of st c k <-> victim_class x = c) as Hc.
  { intros c. split; [intros (i' & x' & Hk' & Hx'); congruence|intros; by exists i, x]. }
  destruct Hv as (H1 & H0 & H2). apply IH; [intros; apply Hes; set_solver|]. unfold victims_ok.
  unfold victim_class in Hc. destruct (bool_decide (r_parentId x = r_id x)); [|destruct (is_directory (r_attributes x))];
    cbn [oldest oldestDirectory rootFallback]; (split; [|split]);
    (apply best_older || apply best_skip); (done || (rewrite Hc; done)).
Qed.

(** A live key, no other key of a better class, and none of its class touched earlier. *)
Definition is_victim (p : Projection) (st : State) (k : EntryKey) : Prop :=
  exists i x, st !! k = Some (i, x) /\
    forall k' i' x', st !! k' = Some (i', x') ->
      victim_class x < victim_class x' \/
      (victim_class x = victim_class x' /\ access_time p i <= access_time p i').

Lemma best_victim p st c k t :
  (forall k i x, st !! k = Some (i, x) -> (k, i) ∈ live_ids (rows p)) ->
  (forall k i, (k, i) ∈ live_ids (rows p) -> exists x, st !! k = Some (i, x)) ->
  best (access_time p) (class_of st c) (live_ids (rows p)) (Some (k, t)) ->
  (forall k' i' x', st !! k' = Some (i', x') -> c <= victim_class x') -> is_victim p st k.
Proof.
  intros Hin Hout ((i & x & Hk & Hc) & (i1 & Hi1 & Ht) & Hmin) Hlow. exists i, x. split; [done|]. intros k' i' x' Hk'.
  destruct (Hout _ _ Hi1) as [x1 Hk1]. assert (i1 = i) as -> by congruence. rewrite Hc, Ht.
  destruct (decide (victim_class x' = c)) as [E|Hne]; [right|left; specialize (Hlow _ _ _ Hk'); lia].
  split; [done|]. apply (Hmin k' i' (Hin _ _ _ Hk')). by exists i', x'.
Qed.

Lemma victim_class_range r : 0 <= victim_class r <= 2.
Proof. unfold victim_class. repeat case_match; lia. Qed.

Lemma LeastRecentlyUsedEntry_spec p names st :
  rows_ok (rows p) names st ->
  exists o, LeastRecentlyUsedEntry p = Ok o /\
    match o with None => st = ∅ | Some k => is_victim p st k end.
Proof.
  intros Hr. destruct (live_ids_spec _ _ _ Hr) as [_ Hel].
  destruct (scan_victims_spec p names st [] (live_ids (rows p)) (mkVictims None None None) Hr) as (v & Hs & H1 & H0 & H2).
  { intros k i. by rewrite Hel. }
  { by split; [|split]; intros ? ? ?%not_elem_of_nil. }
  unfold LeastRecentlyUsedEntry. rewrite Hs. cbn [bind app] in *. eexists. split; [done|].
  assert (forall k i x, st !! k = Some (i, x) -> (k, i) ∈ live_ids (rows p)) as Hin by (intros; apply Hel; eauto).
  assert (forall k i, (k, i) ∈ live_ids (rows p) -> exists x, st !! k = Some (i, x)) as Hout by (intros ? ?; by rewrite Hel).
  assert (forall c, best (access_time p) (class_of st c) (live_ids (rows p)) None ->
    forall k i x, st !! k = Some (i, x) -> victim_class x <> c) as Hnone.
  { intros c Hb k i x Hk Hc. apply (Hb k i); [by eapply Hin|]. by exists i, x. }
  destruct (oldestDirectory v) as [[k t]|]; cbn [fmap option_fmap option_map fst].
  { eapply (best_victim p st 0); [done..|exact H0|intros ? ? x' _; pose proof (victim_class_range x'); lia]. }
  destruct (oldest v) as [[k t]|]; cbn [fmap option_fmap option_map fst].
  { eapply (best_victim p st 1); [done..|exact H1|intros k' i' x' Hk'; pose proof (victim_class_range x'); pose proof (Hnone 0 H0 _ _ _ Hk'); lia]. }
  destruct (rootFallback v) as [[k t]|]; cbn [fmap option_fmap option_map fst].
  { eapply (best_victim p st 2); [done..|exact H2|intros k' i' x' Hk'; pose proof (victim_class_range x'); pose proof (Hnone 0 H0 _ _ _ Hk');
      pose proof (Hnone 1 H1 _ _ _ Hk'); lia]. }
  apply map_empty. intros k. destruct (st !! k) as [[i x]|] eqn:Hk; [|done].
  pose proof (victim_class_range x). pose proof (Hnone 0 H0 _ _ _ Hk). pose proof (Hnone 1 H1 _ _ _ Hk). pose proof (Hnone 2 H2 _ _ _ Hk). lia.
Qed.

(** ** Compaction keeps every record and its access time *)

Lemma pool_text_submseteq names names' : names ⊆+ names' -> zlen (pool_text names) <= zlen (pool_text names').
Proof.
  intros [k Hk]%submseteq_Permutation. enough (length (pool_text names) <= length (pool_text names'))%nat by (unfold zlen; lia).
  unfold pool_text. rewrite Hk, join_app, length_app. lia.
Qed.

(** Interning into a pool whose names all come from another pool cannot overflow. *)
Lemma Intern_within p names q names0 name :
  pool_rep p names -> pool_rep q names0 -> names ⊆ names0 -> name ∈ names0 ->
  exists p' id names', Intern p name = Ok (p', id) /\ 0 <= id /\ pool_rep p' names' /\
    names `prefix_of` names' /\ names' !! Z.to_nat id = Some name /\ names' ⊆ names0.
Proof.
  intros Hp Hq Hsub Hin. destruct (decide (name ∈ names)) as [Hk|Hk].
  - destruct (Intern_known p names name Hp Hk) as (id & ? & ? & ?). by exists p, id, names.
  - assert (names ++ [name] ⊆+ names0) as Hs.
    { apply NoDup_submseteq; [|set_solver]. apply NoDup_app. split; [apply Hp|]. split; [set_solver|apply NoDup_singleton]. }
    pose proof (pool_text_submseteq _ _ Hs) as Ht. rewrite pool_text_snoc, zlen_app in Ht.
    pose proof (submseteq_length _ _ Hs) as Hl. rewrite length_app in Hl. cbn in Hl.
    pose proof (rep_chars _ _ Hq). pose proof (rep_count _ _ Hq).
    destruct (Intern_spec p names name Hp) as (p' & id & Hi & Hid & Hp' & Hn); [lia|unfold zlen in *; lia|].
    rewrite decide_False in Hp', Hn by done. exists p', id, (names ++ [name]).
    split; [done|]. split; [done|]. split; [done|]. split; [by apply prefix_app_r|]. split; [done|]. set_solver.
Qed.

(** The live keys are at most as many as the slots. *)
Lemma live_ids_length r names st : rows_ok r names st -> (length (live_ids r) <= length (entries_ r))%nat.
Proof.
  intros Hr. destruct (live_ids_spec _ _ _ Hr) as [Hnd Hel].
  rewrite <-(length_fmap (fun e => Z.to_nat e.2)), <-(length_seq (length (entries_ r)) 0).
  apply submseteq_length, NoDup_submseteq.
  - apply NoDup_fmap_2_strong; [|by eapply NoDup_fmap_1]. intros [k i] [k' i'] [x Hx]%Hel [y Hy]%Hel E. cbn in E.
    pose proof (slot_in_range _ _ _ _ _ _ Hr Hx). pose proof (slot_in_range _ _ _ _ _ _ Hr Hy).
    assert (i = i') as -> by lia. f_equal. by eapply (ok_inj _ _ _ Hr).
  - intros j ([k i] & -> & [x Hx]%Hel)%list_elem_of_fmap. apply elem_of_seq. cbn.
    pose proof (slot_in_range _ _ _ _ _ _ Hr Hx). unfold zlen in *. lia.
Qed.

(** The replacement tables [r], [ts] hold the rows [done] of [p]. *)
Record compacted (p : Projection) (st : State) (done : list (EntryKey * Z)) (r : Rows) (ts : list Z) (st1 : State) : Prop := {
  c_free : freeList_ r = [];
  c_times : length ts = length (entries_ r);
  c_length : length (entries_ r) = length done;
  c_keys : forall k, is_Some (st1 !! k) <-> k ∈ done.*1;
  c_row : forall k j x, st1 !! k = Some (j, x) ->
    exists i, st !! k = Some (i, x) /\ ts !! Z.to_nat j = Some (access_time p i);
  c_dense : forall j : nat, (j < length (entries_ r))%nat -> exists k x, st1 !! k = Some (Z.of_nat j, x)
}.

Lemma compacted_snoc p st done r ts st1 k i x e r' :
  compacted p st done r ts st1 -> st !! k = Some (i, x) -> freeList_ r' = freeList_ r -> entries_ r' = entries_ r ++ [e] ->
  (forall k j x, st1 !! k = Some (j, x) -> 0 <= j < zlen (entries_ r)) ->
  compacted p st (done ++ [(k, i)]) r' (ts ++ [access_time p i]) (<[k := (zlen (entries_ r), x)]> st1) \/ k ∈ done.*1.
Proof.
  intros [Hf Ht Hl Hk Hrow Hd] Hst Ef Ee Hrange. destruct (decide (k ∈ done.*1)) as [|Hnew]; [by right|left].
  assert (st1 !! k = None) as Hnone by (apply eq_None_not_Some; by rewrite Hk).
  split; rewrite ?Ef, ?Ee, ?length_app, ?fmap_app; cbn; [done|lia|lia| | |].
  - intros k'. rewrite elem_of_app, list_elem_of_singleton, <-Hk. destruct (decide (k' = k)) as [->|Hne].
    + rewrite lookup_insert_eq. naive_solver.
    + rewrite lookup_insert_ne by done. naive_solver.
  - intros k' j y [[<- [= <- <-]]|[Hne Hy]]%lookup_insert_Some.
    + exists i. split; [done|]. rewrite zlen_to_nat, <-Ht. by rewrite lookup_app_r, Nat.sub_diag by done.
    + destruct (Hrow k' j y Hy) as (i' & ? & Hts). exists i'. split; [done|]. by apply lookup_app_l_Some.
  - intros j Hj. destruct (decide (j = length (entries_ r))) as [->|Hne].
    + exists k, x. by rewrite lookup_insert_eq.
    + destruct (Hd j) as (k' & y & Hy); [lia|]. exists k', y. rewrite lookup_insert_ne; [done|]. intros <-. congruence.
Qed.

(** When every slot is live the iteration order may be marked dense. *)
Lemma tables_ok_dense np es ids m names st b b' :
  tables_ok (mkRows np es [] ids m b) names st ->
  (forall j : nat, (j < length es)%nat -> exists k x, st !! k = Some (Z.of_nat j, x)) ->
  tables_ok (mkRows np es [] ids m b') names st.
Proof. intros [[? ? ? ?] Hch Hf _ Hs] Hd. split; [split; done|exact Hch|exact Hf|done|exact Hs]. Qed.

Lemma compact_row_ok p names st done r ts names1 st1 k i x :
  rows_ok (rows p) names st -> st !! k = Some (i, x) -> k ∉ done.*1 -> zlen (entries_ r) < 4294967296 ->
  tables_ok r names1 st1 -> names1 ⊆ names -> compacted p st done r ts st1 ->
  safe (compact_row p r ts k i) (fun '(r', ts') => exists names1' st1', tables_ok r' names1' st1' /\ names1' ⊆ names /\
    compacted p st (done ++ [(k, i)]) r' ts' st1').
Proof.
  intros Hr Hk Hnew Hsz Ht1 Hsub Hc. pose proof Ht1 as [Hr1 (ch & Hch & Hcok) _ _ _]. unfold compact_row.
  destruct (rows_entry_at p names st k i x Hr Hk) as (e & -> & _ & Hrep). cbn [bind].
  rewrite (row_rep_name _ names k x e (ok_names _ _ _ Hr) Hrep). cbn [bind]. destruct Hrep as (Hid & nid0 & _ & Hn0 & ->).
  destruct (Intern_within (namePool_ r) names1 (namePool_ (rows p)) names (r_name x)) as (np & nid & names1' & -> & Hnid & Hnp & Hpre & Hname & Hsub');
    [apply Hr1|apply Hr|done|by eapply list_elem_of_lookup_2|]. cbn [bind new_entry e_volumeRowId e_frn e_parentFrn e_sizeBytes
    e_allocatedSizeBytes e_allocatedSizeKnown e_creationTime e_lastModifiedTime e_lastAccessTime e_attributes e_nameAsciiLower e_nameIsAscii].
  change (mkEntry _ _ _ nid _ _ _ _ _ _ _ _ _) with (new_entry (volumeRowId k) x nid).
  assert (wrap32 (zlen (entries_ r)) = zlen (entries_ r)) as -> by (unfold wrap32; apply Z.mod_small; pose proof (zlen_nonneg (entries_ r)); lia).
  assert (forall k j x, st1 !! k = Some (j, x) -> 0 <= j < zlen (entries_ r)) as Hrange by (intros; by eapply slot_in_range).
  assert (st1 !! k = None) as Hnone by (apply eq_None_not_Some; by rewrite (c_keys _ _ _ _ _ _ Hc)).
  assert (mkEntryKey (volumeRowId k) (r_id x) = k) as Ek by (rewrite Hid; by destruct k).
  eapply safe_bind; [apply (insert_represents EntryKeyHash _ (fst <$> st1) k (zlen (entries_ r)) (ok_ids _ _ _ Hr1))|]. intros ids Hids.
  eapply safe_bind.
  { change (if bool_decide (r_parentId x = r_id x) then Ok (parentToChildren_ r) else _)
      with (link_child (parentToChildren_ r) (volumeRowId k) x (zlen (entries_ r))).
    apply (children_ok_link _ ch st1); [done|done|by rewrite Ek|]. intros k' y Hy. apply Hrange in Hy. lia. }
  intros m (ch' & Hm & Hchok). rewrite Ek in Hchok. cbn [safe].
  destruct (compacted_snoc p st done r ts st1 k i x (new_entry (volumeRowId k) x nid)
    (mkRows np (entries_ r ++ [new_entry (volumeRowId k) x nid]) (freeList_ r) ids m (denseIterationOrderValid_ r)) Hc Hk eq_refl eq_refl Hrange) as [Hc'|]; [|done].
  exists names1', (<[k := (zlen (entries_ r), x)]> st1). split; [|done].
  rewrite (c_free _ _ _ _ _ _ Hc). eapply tables_ok_dense; [|exact (c_dense _ _ _ _ _ _ Hc')].
  eapply (tables_ok_new r names1 st1 k x np names1' nid (zlen (entries_ r)) _ [] ids m ch'); try done.
  unfold allocate_slot. rewrite (c_free _ _ _ _ _ _ Hc). cbn [last]. unfold wrap32. rewrite Z.mod_small; [done|]. pose proof (zlen_nonneg (entries_ r)). lia.
Qed.

Lemma compact_rows_ok p names st es : forall done r ts names1 st1,
  rows_ok (rows p) names st -> (forall k i, (k, i) ∈ es -> exists x, st !! k = Some (i, x)) ->
  NoDup (done ++ es).*1 -> zlen done + zlen es <= 4294967296 ->
  tables_ok r names1 st1 -> names1 ⊆ names -> compacted p st done r ts st1 ->
  safe (compact_rows p es r ts) (fun '(r', ts') => exists names1' st1', tables_ok r' names1' st1' /\ names1' ⊆ names /\
    compacted p st (done ++ es) r' ts' st1').
Proof.
  induction es as [|[k i] es IH]; intros done r ts names1 st1 Hr Hes Hnd Hlen Ht Hsub Hc; cbn [compact_rows].
  { cbn. rewrite app_nil_r. eauto. }
  destruct (Hes k i) as [x Hk]; [set_solver|]. rewrite fmap_app in Hnd. cbn in Hnd. apply NoDup_app in Hnd as Hnd'.
  destruct Hnd' as (Hnd1 & Hdis & [Hnk Hnd2]%NoDup_cons). rewrite zlen_cons in Hlen. pose proof (zlen_nonneg es).
  eapply safe_bind; [eapply (compact_row_ok p names st done r ts names1 st1 k i x); try done|].
  - set_solver.
  - pose proof (c_length _ _ _ _ _ _ Hc). unfold zlen in *. lia.
  - intros [r' ts'] (names1' & st1' & Ht' & Hsub' & Hc').
    replace (done ++ (k, i) :: es) with ((done ++ [(k, i)]) ++ es) by (by rewrite <-app_assoc).
    apply (IH (done ++ [(k, i)]) r' ts' names1' st1'); [done| | | |done..].
    + intros; apply Hes; set_solver.
    + rewrite <-app_assoc, fmap_app. done.
    + rewrite zlen_app. change (zlen [(k, i)]) with 1. lia.
Qed.

Lemma empty_tables ids : represents EntryKeyHash ids ∅ -> tables_ok (mkRows empty_pool [] [] ids empty_children false) [] ∅.
Proof.
  intros Hids. split; cbn.
  - split; cbn; [apply empty_pool_rep|by rewrite fmap_empty|by intros k k' i x x' ?%lookup_empty_Some|by intros k i x ?%lookup_empty_Some].
  - exists ∅. split; [apply empty_holds|]. intros k. rewrite lookup_empty. cbn. split; [constructor|]. intros i.
    split; [set_solver|]. by intros (k' & x & ?%lookup_empty_Some & _).
  - split; [constructor|]. cbn. set_solver.
  - done.
  - done.
Qed.

Lemma count_live r names st : rows_ok r names st -> count_ (idToIndex_ r) = Z.of_nat (size st).
Proof. intros Hr. destruct (ok_ids _ _ _ Hr) as (_ & _ & ->). by rewrite map_size_fmap. Qed.

Lemma length_live r names st : rows_ok r names st -> length (live_ids r) = size st.
Proof.
  intros Hr. pose proof (zlen_entries EntryKeyHash _ _ (ok_ids _ _ _ Hr)) as H. rewrite map_size_fmap in H.
  unfold zlen in H. unfold live_ids. lia.
Qed.

Abbreviation Records := (gmap EntryKey EntryRecord).

Section evicting.
Context (CSO : list Z -> list Z -> Z).
Local Abbreviation proj_ok := (proj_ok CSO).
Local Abbreviation refines := (refines CSO).

Lemma slot_names_exist (st : State) :
  (forall k k' i x x', st !! k = Some (i, x) -> st !! k' = Some (i, x') -> k = k') -> exists sn, slot_names_ok sn st.
Proof.
  induction st as [|k [i x] st Hk IH] using map_ind; intros Hinj.
  { exists ∅. intros i n. rewrite lookup_empty. split; [done|]. by intros (? & ? & ?%lookup_empty_Some & _). }
  assert (forall k' y, st !! k' <> Some (i, y)) as Hfresh.
  { intros k' y Hk'. assert (k' = k) as ->; [|congruence].
    apply (Hinj k' k i y x); [rewrite lookup_insert_ne by congruence; done|apply lookup_insert_eq]. }
  destruct IH as [sn Hsn]; [|by destruct (slot_names_insert sn st k i x Hsn Hk Hfresh); eauto].
  intros k1 k2 j y y' H1 H2. by apply (Hinj k1 k2 j y y'); rewrite lookup_insert_ne by congruence.
Qed.

(** What the eviction steps need: the rows, and an accelerator that is not being built.  The
    children lists may be stale. *)
Record evictable (p : Projection) (names : list (list Z)) (st : State) : Prop := {
  ev_rows : rows_ok (rows p) names st;
  ev_size : zlen (entries_ (rows p)) <= 4294967296;
  ev_index : filenameIndexBuilding_ (filenameIndex p) = false
}.

Lemma proj_ok_evictable p names st : proj_ok p names st -> evictable p names st.
Proof. intros [[? ? ? ? ?] (sn & _ & [? _])]. by split. Qed.

Lemma CompactStorage_ok p names st :
  evictable p names st ->
  safe (CompactStorage p) (fun p' => exists names' st', proj_ok p' names' st' /\ snd <$> st' = snd <$> st /\
    grown p p' 0 0 /\
    forall k j x, st' !! k = Some (j, x) -> exists i, st !! k = Some (i, x) /\ access_time p' j = access_time p i).
Proof.
  intros [Hr Hsz Hb]. unfold CompactStorage. set (p1 := with_index p _).
  destruct (live_ids_spec _ _ _ Hr) as [Hnd Hel]. pose proof (live_ids_length _ _ _ Hr) as Hlen.
  assert (count_ (idToIndex_ (rows p1)) <= 4294967296) as Hcnt.
  { rewrite (count_live (rows p1) names st Hr), <-(length_live _ _ _ Hr). unfold zlen in Hsz. lia. }
  eapply safe_bind; [apply (reserve_represents EntryKeyHash empty_map ∅)|].
  { apply (clear_represents EntryKeyHash empty_map). }
  { rewrite (count_live (rows p1) names st Hr) in *. lia. }
  intros ids [Hids _].
  eapply safe_bind; [apply (compact_rows_ok p1 names st (live_ids (rows p1)) [] _ [] [] ∅)|].
  - done.
  - intros k i. apply Hel.
  - done.
  - unfold zlen in *. cbn. cbn in Hlen. lia.
  - by apply empty_tables.
  - set_solver.
  - split; cbn; [done..| |by intros ? ? ? ?%lookup_empty_Some|lia].
    intros k. rewrite lookup_empty. split; [by intros [? ?]|set_solver].
  - intros [r ts] (names' & st' & Ht & Hsub & [Hf Hts Hl Hkeys Hrow Hd]). cbn [safe app] in *.
    pose proof Ht as [Hr' _ _ _ _]. exists names', st'. split; [|split; [|split]].
    + split; cbn [rows filenameIndex].
      * eapply (tables_ok_dense _ _ _ _ _ _ (denseIterationOrderValid_ r)); [|done]. rewrite <-Hf. by destruct r.
      * destruct (slot_names_exist st' (ok_inj _ _ _ Hr')) as [sn Hsn]. exists sn. by split.
    + apply map_eq. intros k. rewrite !lookup_fmap. destruct (st' !! k) as [[j x]|] eqn:E.
      { destruct (Hrow _ _ _ E) as (i & -> & _). done. }
      destruct (st !! k) as [[i x]|] eqn:E'; [|done]. exfalso. assert (is_Some (st' !! k)) as [y Hy]; [|congruence].
      apply Hkeys, list_elem_of_fmap. exists (k, i). split; [done|]. apply Hel. eauto.
    + destruct (pool_sizes _ _ (ok_names _ _ _ Hr)) as [Ea Et]. destruct (pool_sizes _ _ (ok_names _ _ _ Hr')) as [Ea' Et'].
      assert (names' ⊆+ names) as Hs by (apply NoDup_submseteq; [apply Hr'|done]).
      pose proof (pool_text_submseteq _ _ Hs). pose proof (submseteq_length _ _ Hs).
      repeat split; cbn [rows namePool_ entries_]; [lia|unfold zlen in *; lia|unfold zlen in *; cbn in Hlen, Hl; lia].
    + intros k j x Hk. destruct (Hrow k j x Hk) as (i & Hi & Htj). exists i. split; [done|].
      unfold access_time at 1. cbn [times lastAccessTimes_]. by rewrite Htj.
Qed.

(** ** The subtree below a key *)

(** [k'] is a child of the directory [k]. *)
Definition below_edge (g : gmap EntryKey EntryRecord) (k k' : EntryKey) : Prop :=
  (exists r, g !! k = Some r /\ is_directory (r_attributes r) = true) /\
  exists r', g !! k' = Some r' /\ volumeRowId k' = volumeRowId k /\ r_parentId r' = frn k /\ r_parentId r' <> r_id r'.

Definition subtree (g : gmap EntryKey EntryRecord) (root k : EntryKey) : Prop :=
  is_Some (g !! root) /\ rtc (below_edge g) root k.

Lemma below_edge_parent g k1 k2 k : below_edge g k1 k -> below_edge g k2 k -> k1 = k2.
Proof. intros (_ & r & Hr & Hv & Hp & _) (_ & r' & Hr' & Hv' & Hp' & _). destruct k1, k2. cbn in *. congruence. Qed.

Lemma subtree_step g root k k' : subtree g root k -> below_edge g k k' -> subtree g root k'.
Proof. intros [? ?] He. split; [done|]. by eapply rtc_r. Qed.

Lemma subtree_live g root k : subtree g root k -> is_Some (g !! k).
Proof.
  intros [Hs Hr]. apply rtc_inv_r in Hr as [->|(k' & _ & _ & r & ? & _)]; [done|eauto].
Qed.

Lemma subtree_volume g root k : subtree g root k -> volumeRowId k = volumeRowId root.
Proof.
  intros [_ Hr]. induction Hr as [|k1 k2 k3 (_ & r & _ & Hv & _) _ IH]; [done|]. congruence.
Qed.

Lemma child_keys_spec p names st k :
  tables_ok (rows p) names st ->
  exists children, children_find (parentToChildren_ (rows p)) k = Ok children /\ NoDup (child_keys p children) /\
    forall k', k' ∈ child_keys p children <-> exists r', (snd <$> st) !! k' = Some r' /\ volumeRowId k' = volumeRowId k /\
      r_parentId r' = frn k /\ r_parentId r' <> r_id r'.
Proof.
  intros Ht. pose proof Ht as [Hr (ch & Hch & Hcok) _ _ _]. rewrite (children_find_refines _ ch) by done.
  eexists. split; [done|]. destruct (Hcok k) as [Hnd Hel]. assert (mkEntryKey (volumeRowId k) (frn k) = k) as Ek by (by destruct k).
  assert (forall k i x, st !! k = Some (i, x) -> r_id x = frn k) as Hid.
  { intros k' i x Hk. by destruct (ok_row _ _ _ Hr k' i x Hk) as (_ & e & _ & ? & _). }
  destruct (slots_records st (volumeRowId k) (frn k) _ Hnd) as (rs & Hrs & Hndrs);
    [intros i Hi; rewrite Ek; by apply Hel|apply Hr|done|].
  set (slots := default [] (ch !! k)) in *.
  assert (child_keys p slots = (fun r => mkEntryKey (volumeRowId k) (r_id r)) <$> rs) as ->.
  { clear -Hrs Hr. unfold child_keys. induction Hrs as [|i r slots rs (Hk & _) _ IH]; [done|]. cbn.
    destruct (ok_row _ _ _ Hr _ _ _ Hk) as (_ & e & -> & Hrep). destruct (row_rep_id _ _ _ _ Hrep) as (_ & -> & ->). by rewrite IH. }
  split.
  - apply NoDup_fmap_2_strong; [|done]. intros r r' [n Hn]%list_elem_of_lookup_1 [n' Hn']%list_elem_of_lookup_1 E.
    destruct (Forall2_lookup_r _ _ _ _ _ Hrs Hn) as (i & _ & Hi & _). destruct (Forall2_lookup_r _ _ _ _ _ Hrs Hn') as (i' & _ & Hi' & _).
    rewrite E in Hi. congruence.
  - intros k'. rewrite list_elem_of_fmap. setoid_rewrite lookup_fmap_Some. split.
    + intros (r & -> & [n Hn]%list_elem_of_lookup_1). destruct (Forall2_lookup_r _ _ _ _ _ Hrs Hn) as (i & _ & Hi & Hp & Hs).
      exists r. split; [by exists (i, r)|]. done.
    + intros (r & ([i x] & <- & Hk') & Hv & Hp & Hs). cbn in *. exists x. rewrite (Hid _ _ _ Hk'), <-Hv.
      split; [by destruct k'|]. assert (i ∈ slots) as [n Hn]%list_elem_of_lookup_1 by (apply Hel; exists k', x; done).
      destruct (Forall2_lookup_l _ _ _ _ _ Hrs Hn) as (x' & Hx' & Hk2 & _).
      assert (k' = mkEntryKey (volumeRowId k) (r_id x')) as E by (by eapply (ok_inj _ _ _ Hr)).
      rewrite <-E in Hk2. assert (x = x') as -> by congruence. by eapply list_elem_of_lookup_2.
Qed.

(** The state of the walk: what was visited, what is pending, and the keys pushed so far. *)
Record walk_inv (g : gmap EntryKey EntryRecord) (root : EntryKey) (pending : list EntryKey) (visited : gset EntryKey)
    (order pushed : list EntryKey) : Prop := {
  w_nodup : NoDup order;
  w_order : forall k, k ∈ order <-> k ∈ visited /\ is_Some (g !! k);
  w_sound : forall k, k ∈ order \/ k ∈ pending -> subtree g root k;
  w_closed : forall k k', k ∈ order -> below_edge g k k' -> k' ∈ visited \/ k' ∈ pending;
  w_root : root ∈ visited \/ root ∈ pending;
  w_pushed : NoDup pushed;
  w_parent : forall k', k' ∈ pushed -> exists k, k ∈ visited /\ below_edge g k k'
}.

Lemma walk_inv_done g root visited order pushed :
  walk_inv g root [] visited order pushed -> is_Some (g !! root) -> forall k, k ∈ order <-> subtree g root k.
Proof.
  intros [_ Ho Hs Hc Hr _ _] Hroot k. split; [intros; apply Hs; auto|]. intros [_ Hk]. revert Hk.
  apply (rtc_ind_r (fun k => k ∈ order)).
  - destruct Hr as [Hr|Hr%not_elem_of_nil]; [|done]. by apply Ho.
  - intros y z _ He Hy. destruct (Hc y z Hy He) as [Hv|Hv%not_elem_of_nil]; [|done]. apply Ho. split; [done|].
    destruct He as (_ & r & ? & _). eauto.
Qed.

Lemma pushed_bound (g : gmap EntryKey EntryRecord) l : NoDup l -> (forall k, k ∈ l -> is_Some (g !! k)) -> (length l <= size g)%nat.
Proof.
  intros Hnd Hin. rewrite <-size_dom, <-(size_list_to_set (C := gset EntryKey)) by done.
  apply subseteq_size. intros k. rewrite elem_of_list_to_set, elem_of_dom. apply Hin.
Qed.

Lemma evict_walk_step fuel p pending current visited order :
  evict_walk (S fuel) p (pending ++ [current]) visited order =
  if bool_decide (current ∈ visited) then evict_walk fuel p pending visited order
  else
    let visited := {[current]} ∪ visited in
    match find EntryKeyHash (idToIndex_ (rows p)) current with
    | None => evict_walk fuel p pending visited order
    | Some index =>
        let order := order ++ [current] in
        let* entry := entry_at p index in
        if negb (is_directory (e_attributes entry)) then evict_walk fuel p pending visited order
        else
          let* children := children_find (parentToChildren_ (rows p)) current in
          evict_walk fuel p (pending ++ child_keys p children) visited order
    end.
Proof. cbn [evict_walk]. rewrite last_snoc, length_app, Nat.add_sub. by rewrite take_app_length. Qed.

Lemma walk_inv_skip g root pending current visited order pushed :
  walk_inv g root (pending ++ [current]) visited order pushed -> current ∈ visited ->
  walk_inv g root pending visited order pushed.
Proof.
  intros [Hnd Ho Hs Hc Hr Hp Hpp] Hv.
  assert (forall k, k ∈ visited \/ k ∈ pending ++ [current] -> k ∈ visited \/ k ∈ pending) as Hdrop.
  { intros k [?|[?| ->%list_elem_of_singleton]%elem_of_app]; auto. }
  split; try done; [|intros; eapply Hdrop, Hc; done|by apply Hdrop].
  intros k [?|?]; apply Hs; [by left|right; rewrite elem_of_app; by left].
Qed.

Lemma walk_inv_visit g root pending current visited order pushed ks :
  walk_inv g root (pending ++ [current]) visited order pushed -> current ∉ visited ->
  NoDup ks -> (forall k', k' ∈ ks <-> below_edge g current k') ->
  walk_inv g root (pending ++ ks) ({[current]} ∪ visited) (order ++ [current]) (pushed ++ ks).
Proof.
  intros [Hnd Ho Hs Hc Hr Hp Hpp] Hnv Hndk Hks.
  assert (subtree g root current) as Hcur by (apply Hs; right; rewrite elem_of_app, list_elem_of_singleton; auto).
  assert (forall k, k ∈ visited \/ k ∈ pending ++ [current] -> k ∈ {[current]} ∪ visited \/ k ∈ pending ++ ks) as Hmove by set_solver.
  split.
  - apply NoDup_app. split; [done|]. split; [|apply NoDup_singleton]. intros k [Hk _]%Ho ->%list_elem_of_singleton. done.
  - intros k. rewrite elem_of_app, list_elem_of_singleton, elem_of_union, elem_of_singleton, Ho.
    pose proof (subtree_live _ _ _ Hcur). naive_solver.
  - intros k [[Hk| ->%list_elem_of_singleton]%elem_of_app|[Hk|Hk]%elem_of_app]; [apply Hs; auto|done| |].
    + apply Hs. right. rewrite elem_of_app. auto.
    + by eapply subtree_step, Hks.
  - intros k k' [Hk| ->%list_elem_of_singleton]%elem_of_app He; [by eapply Hmove, Hc|]. right. rewrite elem_of_app. right. by apply Hks.
  - by apply Hmove.
  - apply NoDup_app. split; [done|]. split; [|done]. intros k (k0 & Hk0 & He0)%Hpp He%Hks. by rewrite (below_edge_parent _ _ _ _ He He0) in Hnv.
  - intros k' [(k & ? & ?)%Hpp|Hk%Hks]%elem_of_app; [exists k|exists current]; (split; [set_solver|done]).
Qed.

Lemma evict_walk_ok fuel p names st root pending visited order pushed :
  tables_ok (rows p) names st -> walk_inv (snd <$> st) root pending visited order pushed ->
  is_Some ((snd <$> st) !! root) -> (length pending + size st <= fuel + length pushed)%nat ->
  exists order', evict_walk fuel p pending visited order = Ok order' /\ NoDup order' /\
    forall k, k ∈ order' <-> subtree (snd <$> st) root k.
Proof.
  intros Ht Hw Hroot. revert pending visited order pushed Hw. set (g := snd <$> st) in *.
  induction fuel as [|fuel IH]; intros pending visited order pushed Hw Hf; destruct pending as [|current pending _] using rev_ind.
  1,3: exists order; split; [done|]; split; [apply Hw|by eapply walk_inv_done].
  { assert (length pushed <= size st)%nat; [|rewrite length_app in Hf; cbn in Hf; lia].
    rewrite <-(map_size_fmap snd st). apply pushed_bound; [apply Hw|]. intros k (k0 & _ & _ & r & ? & _)%(w_parent _ _ _ _ _ _ Hw). eauto. }
  rewrite evict_walk_step. rewrite length_app in Hf. cbn [length] in Hf.
  destruct (bool_decide_reflect (current ∈ visited)) as [Hv|Hv].
  { eapply IH; [by eapply walk_inv_skip|lia]. }
  assert (subtree g root current) as Hcur by (apply (w_sound _ _ _ _ _ _ Hw); right; rewrite elem_of_app, list_elem_of_singleton; auto).
  destruct (subtree_live _ _ _ Hcur) as [x Hx]. apply lookup_fmap_Some in Hx as ([i x'] & E & Hx). cbn in E. subst x'.
  cbn zeta. rewrite (find_slot_of _ names st) by apply Ht. rewrite Hx. cbn [fmap option_fmap option_map fst].
  destruct (rows_entry_at p names st current i x (ok_rows _ _ _ Ht) Hx) as (e & -> & _ & Hrep). cbn [bind].
  assert (e_attributes e = r_attributes x) as -> by (by destruct Hrep as (_ & nid & _ & _ & ->)).
  assert (g !! current = Some x) as Hg by (unfold g; by rewrite lookup_fmap, Hx).
  destruct (is_directory (r_attributes x)) eqn:Hdir; cbn [negb].
  - destruct (child_keys_spec p names st current Ht) as (children & -> & Hnd & Hks). cbn [bind].
    eapply IH; [apply (walk_inv_visit g root pending current visited order pushed (child_keys p children) Hw Hv Hnd)|].
    + intros k'. rewrite Hks. unfold below_edge. rewrite Hg. fold g. naive_solver.
    + rewrite !length_app. lia.
  - pose proof (walk_inv_visit g root pending current visited order pushed [] Hw Hv (NoDup_nil_2)) as Hw'. rewrite !app_nil_r in Hw'.
    eapply IH; [apply Hw'|lia]. intros k'. split; [by intros ?%not_elem_of_nil|]. intros ((r & Hr & Hd) & _). congruence.
Qed.

(** ** Removing a list of keys *)

Definition delete_keys {A} (ks : list EntryKey) (g : gmap EntryKey A) : gmap EntryKey A :=
  foldl (fun g k => delete k g) g ks.

Lemma lookup_delete_keys {A} ks (g : gmap EntryKey A) k :
  delete_keys ks g !! k = if decide (k ∈ ks) then None else g !! k.
Proof.
  revert g. induction ks as [|k0 ks IH]; intros g.
  { by rewrite decide_False by apply not_elem_of_nil. }
  change (delete_keys (k0 :: ks) g) with (delete_keys ks (delete k0 g)).
  rewrite IH. destruct (decide (k ∈ ks)) as [Hin|Hnin].
  - by rewrite decide_True by (rewrite elem_of_cons; auto).
  - destruct (decide (k = k0)) as [->|Hne].
    + rewrite lookup_delete_eq. by rewrite decide_True by (rewrite elem_of_cons; auto).
    + rewrite lookup_delete_ne by done. rewrite decide_False; [done|]. rewrite elem_of_cons. tauto.
Qed.

Lemma fmap_delete_keys {A B} (f : A -> B) ks (g : gmap EntryKey A) : f <$> delete_keys ks g = delete_keys ks (f <$> g).
Proof. apply map_eq. intros k. rewrite lookup_fmap, !lookup_delete_keys, lookup_fmap. by destruct (decide _). Qed.

Lemma erase_keys_ok p names st ks :
  evictable p names st -> evictable (erase_keys p ks) names (delete_keys ks st).
Proof.
  intros [Hr Hs Hb]. split; [|done|done]. cbn [erase_keys rows set_rows_ids].
  assert (represents EntryKeyHash (foldl (erase EntryKeyHash) (idToIndex_ (rows p)) ks) (fst <$> delete_keys ks st)) as Hids.
  { pose proof (ok_ids _ _ _ Hr) as Hids. revert Hids. generalize (idToIndex_ (rows p)) as m. clear. revert st.
    induction ks as [|k ks IH]; intros st m Hm; cbn; [done|]. apply IH. rewrite fmap_delete. by apply erase_refines. }
  assert (forall k v, delete_keys ks st !! k = Some v -> st !! k = Some v) as Hsub.
  { intros k v. rewrite lookup_delete_keys. by destruct (decide _). }
  split; cbn; [apply Hr|done| |].
  - intros k k' i x x' H1%Hsub H2%Hsub. by eapply (ok_inj _ _ _ Hr).
  - intros k i x Hk%Hsub. by apply (ok_row _ _ _ Hr).
Qed.

(** The sizes that bound later operations have not grown. *)
Definition no_growth (p p' : Projection) : Prop :=
  zlen (arena_ (namePool_ (rows p'))) <= zlen (arena_ (namePool_ (rows p))) /\
  zlen (NamePool.table_ (namePool_ (rows p'))) <= zlen (NamePool.table_ (namePool_ (rows p))) /\
  zlen (entries_ (rows p')) <= zlen (entries_ (rows p)).

#[global] Instance no_growth_preorder : PreOrder no_growth.
Proof. split; [intros p; unfold no_growth; lia|intros p q r (? & ? & ?) (? & ? & ?); unfold no_growth; lia]. Qed.

Lemma grown_no_growth p p' : grown p p' 0 0 -> no_growth p p'.
Proof. intros (? & ? & ? & _). unfold no_growth. lia. Qed.

Lemma remove_keys_ok p names st ks :
  proj_ok p names st ->
  safe (remove_keys CSO p ks) (fun p' => proj_ok p' names (delete_keys ks st) /\ no_growth p p' /\ policy p' = policy p).
Proof.
  revert p st. induction ks as [|k ks IH]; intros p st Hp; cbn [remove_keys]; [done|].
  eapply safe_bind; [by apply (Remove_ok CSO p names st (volumeRowId k) (frn k))|]. intros p1 [Hg1 Hp1].
  assert (mkEntryKey (volumeRowId k) (frn k) = k) as E by (by destruct k). rewrite E in Hp1.
  eapply safe_mono; [by apply IH|]. intros p2 (Hp2 & Hn2 & Hpol). split; [done|].
  split; [etrans; [by apply grown_no_growth|done]|]. destruct Hg1 as (_ & _ & _ & E1). congruence.
Qed.

(** Eviction of the subtree below a live key. *)
Lemma EvictSubtree_ok p names st root :
  proj_ok p names st -> is_Some (st !! root) ->
  safe (EvictSubtree CSO p root) (fun p' => exists ks, (forall k, k ∈ ks <-> subtree (snd <$> st) root k) /\
    evictable p' names (delete_keys ks st) /\ no_growth p p' /\ policy p' = policy (mark_evicted p (volumeRowId root))).
Proof.
  intros Hp [[i x] Hroot]. pose proof Hp as [Ht _]. pose proof (ok_rows _ _ _ Ht) as Hr. unfold EvictSubtree.
  rewrite (find_slot_of _ names st) by done. rewrite Hroot. cbn [fmap option_fmap option_map fst].
  assert (is_Some ((snd <$> st) !! root)) as Hlive by (by rewrite lookup_fmap, Hroot).
  destruct (evict_walk_ok (S (length (entries_ (rows p)))) p names st root [root] ∅ [] [] Ht) as (ks & -> & Hnd & Hks); [|done| |].
  - split; [constructor|set_solver| |set_solver|set_solver|constructor|set_solver].
    intros k [?%not_elem_of_nil| ->%list_elem_of_singleton]; [done|]. split; [done|apply rtc_refl].
  - cbn. rewrite <-(length_live _ _ _ Hr). pose proof (live_ids_length _ _ _ Hr). lia.
  - cbn [bind]. destruct (kPerEntryFilenameRemovalThreshold <? zlen ks).
    + cbn [bind safe]. exists ks. split; [done|].
      destruct (erase_keys_ok p names st ks (proj_ok_evictable _ _ _ Hp)) as [H1 H2 H3]. split; [by split|]. split; [|done]. unfold no_growth. cbn. lia.
    + eapply safe_bind; [by apply remove_keys_ok|]. intros p1 (Hp1 & Hn1 & Hpol). cbn [safe]. exists ks. split; [done|].
      assert (delete_keys (rev ks) st = delete_keys ks st) as E.
      { apply map_eq. intros k. rewrite !lookup_delete_keys. assert (k ∈ rev ks <-> k ∈ ks) as Hrev by (rewrite !list_elem_of_In; symmetry; apply in_rev).
        destruct (decide (k ∈ rev ks)), (decide (k ∈ ks)); tauto. }
      rewrite E in Hp1. destruct (proj_ok_evictable _ _ _ Hp1) as [H1 H2 H3]. split; [by split|]. split; [done|].
      unfold mark_evicted. cbn. by rewrite Hpol.
Qed.

(** ** What eviction may lose *)

Definition cold (p : Projection) : gset Z := evictedVolumes_ (policy p).

(** From [p] with the records [g] to [p'] with [g']: records only disappear, exactly the
    volumes that lost one become cold, and the settings stay. *)
Record shrinks (p : Projection) (g : Records) (p' : Projection) (g' : Records) : Prop := {
  sh_sub : g' ⊆ g;
  sh_cold : cold p ⊆ cold p';
  sh_lost : forall k, is_Some (g !! k) -> g' !! k = None -> volumeRowId k ∈ cold p';
  sh_new : forall v, v ∈ cold p' -> v ∉ cold p -> exists k, volumeRowId k = v /\ is_Some (g !! k) /\ g' !! k = None;
  sh_limit : maximumMemoryBytes_ (policy p') = maximumMemoryBytes_ (policy p);
  sh_enforcing : enforcingMemoryLimit_ (policy p') = enforcingMemoryLimit_ (policy p);
  sh_bulk : bulkScanActive_ (policy p') = bulkScanActive_ (policy p);
  sh_size : no_growth p p'
}.

Lemma shrinks_refl p g : shrinks p g p g.
Proof. split; try done. intros k [? ?]; congruence. Qed.

Lemma lookup_subset_None (g g' : Records) k : g' ⊆ g -> g !! k = None -> g' !! k = None.
Proof. intros Hs Hk. by eapply lookup_weaken_None. Qed.

Lemma shrinks_trans p1 g1 p2 g2 p3 g3 : shrinks p1 g1 p2 g2 -> shrinks p2 g2 p3 g3 -> shrinks p1 g1 p3 g3.
Proof.
  intros [S1 C1 L1 N1 M1 E1 B1 G1] [S2 C2 L2 N2 M2 E2 B2 G2]. split; [by etrans|by etrans| | |congruence|congruence|congruence|by etrans].
  - intros k Hk Hk3. destruct (g2 !! k) as [r|] eqn:E; [apply L2; by rewrite ?E|apply C2, L1; done].
  - intros v Hv Hnv. destruct (decide (v ∈ cold p2)) as [Hv2|Hv2].
    + destruct (N1 v Hv2 Hnv) as (k & ? & ? & ?). exists k. split; [done|]. split; [done|]. by eapply lookup_subset_None.
    + destruct (N2 v Hv Hv2) as (k & ? & [r Hr] & ?). exists k. split; [done|]. split; [|done].
      exists r. by eapply lookup_weaken.
Qed.

Lemma shrinks_record p g p' g' before after : shrinks p g p' g' -> shrinks p g (record_eviction p' before after) g'.
Proof. by intros [? ? ? ? ? ? ? ?]. Qed.

Lemma refines_record p g before after : refines p g -> refines (record_eviction p before after) g.
Proof. intros (names & st & [Ht Hi] & ->). exists names, st. split; [by split|done]. Qed.

(** Dropping a set of keys of one volume that contains a live one. *)
Lemma shrinks_drop p g p' g' root (P : EntryKey -> Prop) :
  is_Some (g !! root) -> P root -> (forall k, P k -> volumeRowId k = volumeRowId root) ->
  (forall k, P k -> g' !! k = None) -> (forall k, g' !! k = g !! k \/ P k) ->
  policy p' = policy (mark_evicted p (volumeRowId root)) -> no_growth p p' -> shrinks p g p' g'.
Proof.
  intros Hroot HP Hvol Hgone Hkeep Hpol Hng. assert (cold p' = {[volumeRowId root]} ∪ cold p) as Hc by (unfold cold; by rewrite Hpol).
  split; rewrite ?Hpol, ?Hc; try done.
  - apply map_subseteq_spec. intros k r Hk. destruct (Hkeep k) as [E|E%Hgone]; congruence.
  - set_solver.
  - intros k [r Hr] Hk. destruct (Hkeep k) as [E|E%Hvol]; [congruence|]. set_solver.
  - intros v Hv Hnv. exists root. split; [set_solver|]. split; [done|]. by apply Hgone.
Qed.

Lemma size_drop (g g' : Records) k : g' ⊆ g -> is_Some (g !! k) -> g' !! k = None -> (size g' < size g)%nat.
Proof.
  intros Hs [r Hr] Hk. apply map_subset_size. split; [done|]. intros Hsub. pose proof (lookup_weaken _ _ _ _ Hr Hsub). congruence.
Qed.

(** One pass: the subtree of a live key is evicted and the tables are compacted. *)
Lemma evict_compact_ok p g root :
  refines p g -> is_Some (g !! root) ->
  safe (let* p := EvictSubtree CSO p root in CompactStorage p) (fun p' => exists g', refines p' g' /\
    (forall k, subtree g root k -> g' !! k = None) /\ (forall k, g' !! k = g !! k \/ subtree g root k) /\
    shrinks p g p' g').
Proof.
  intros (names & st & Hp & ->) Hroot. assert (is_Some (st !! root)) as Hlive by (by rewrite lookup_fmap, fmap_is_Some in Hroot).
  eapply safe_bind; [by apply EvictSubtree_ok|]. intros p1 (ks & Hks & Hev & Hn1 & Hpol).
  eapply safe_mono; [by eapply CompactStorage_ok|]. intros p2 (names' & st' & Hp2 & E & Hgr & _).
  exists (snd <$> st'). rewrite E, fmap_delete_keys.
  assert (forall k, subtree (snd <$> st) root k -> delete_keys ks (snd <$> st) !! k = None) as Hgone.
  { intros k Hk%Hks. rewrite lookup_delete_keys. by rewrite decide_True. }
  assert (forall k, delete_keys ks (snd <$> st) !! k = (snd <$> st) !! k \/ subtree (snd <$> st) root k) as Hkeep.
  { intros k. rewrite lookup_delete_keys. destruct (decide _) as [?%Hks|]; auto. }
  split; [exists names', st'; by rewrite <-fmap_delete_keys|]. split; [done|]. split; [done|].
  eapply (shrinks_drop p _ p2 _ root (subtree (snd <$> st) root)); try done.
  - intros k Hk. exact (subtree_volume _ _ _ Hk).
  - destruct Hgr as (_ & _ & _ & ->). done.
  - etrans; [done|by apply grown_no_growth].
Qed.

(** A whole volume becomes cold. *)
Lemma EvictVolume_ok p g root :
  refines p g -> is_Some (g !! root) ->
  safe (EvictVolume p (volumeRowId root)) (fun p' =>
    let g' := filter (fun kv => volumeRowId kv.1 <> volumeRowId root) g in refines p' g' /\ shrinks p g p' g').
Proof.
  intros (names & st & Hp & ->) Hroot. set (v := volumeRowId root). unfold EvictVolume.
  set (keys := filter _ _). destruct (live_ids_spec _ _ _ (ok_rows _ _ _ (ok_tables _ _ _ _ Hp))) as [_ Hel].
  assert (forall k, k ∈ keys <-> volumeRowId k = v /\ is_Some (st !! k)) as Hkeys.
  { intros k. unfold keys. rewrite list_elem_of_filter, list_elem_of_fmap. split.
    - intros (Hv & [k' i] & -> & [x Hx]%Hel). cbn. rewrite Hx. eauto.
    - intros (Hv & [[i x] Hx]). split; [done|]. exists (k, i). split; [done|]. apply Hel. eauto. }
  assert (root ∈ keys) as Hin by (apply Hkeys; split; [done|]; by rewrite lookup_fmap, fmap_is_Some in Hroot).
  destruct keys as [|k0 keys'] eqn:E; [by apply not_elem_of_nil in Hin|]. rewrite <-E in *. clear E k0 keys'.
  assert (evictable (mark_evicted (erase_keys p keys) v) names (delete_keys keys st)) as Hev.
  { destruct (erase_keys_ok p names st keys (proj_ok_evictable _ _ _ Hp)). by split. }
  eapply safe_mono; [by eapply CompactStorage_ok|]. intros p2 (names' & st' & Hp2 & E & Hgr & _). cbn zeta.
  assert (filter (fun kv => volumeRowId kv.1 <> v) (snd <$> st) = snd <$> st') as Eg.
  { rewrite E, fmap_delete_keys. apply map_eq. intros k. rewrite lookup_delete_keys. destruct (decide (k ∈ keys)) as [[Hv _]%Hkeys|Hnk].
    - apply map_lookup_filter_None. right. by intros x _ ?.
    - destruct ((snd <$> st) !! k) as [x|] eqn:Ex; [|apply map_lookup_filter_None; by left].
      apply map_lookup_filter_Some. split; [done|]. cbn. intros Hv. apply Hnk, Hkeys. split; [done|].
      apply (fmap_is_Some snd). by rewrite <-lookup_fmap, Ex. }
  split; [exists names', st'; done|].
  eapply (shrinks_drop p _ p2 _ root (fun k => volumeRowId k = v)); try done.
  - intros k Hk. apply map_lookup_filter_None. right. by intros x _ ?.
  - intros k. destruct (decide (volumeRowId k = v)); [by right|left]. destruct ((snd <$> st) !! k) eqn:Ex.
    + by apply map_lookup_filter_Some.
    + apply map_lookup_filter_None. by left.
  - destruct Hgr as (_ & _ & _ & ->). done.
  - etrans; [|by apply grown_no_growth]. unfold no_growth. cbn. lia.
Qed.

(** ** The enforcement loops *)

Context (estimate : Rows -> FilenameIndex -> AccessTimes -> Z).
Local Abbreviation bytes := (EstimatedMemoryBytes estimate).

(** [evictedAny] tells whether something was evicted in between. *)
Definition enforced (p : Projection) (g : Records) (evictedAny : bool) (p' : Projection) (g' : Records) : Prop :=
  refines p' g' /\ shrinks p g p' g' /\ (if evictedAny then (size g' < size g)%nat else p' = p /\ g' = g).

Lemma enforced_after p g p1 g1 b p' g' :
  shrinks p g p1 g1 -> (size g1 < size g)%nat -> enforced p1 g1 b p' g' -> enforced p g true p' g'.
Proof.
  intros H1 Hs (Hr & H2 & Hb). split; [done|]. split; [by eapply shrinks_trans|].
  destruct b; [lia|]. by destruct Hb as [_ ->].
Qed.

Lemma refines_live p g :
  refines p g -> exists o, LeastRecentlyUsedEntry p = Ok o /\
    match o with None => g = ∅ | Some k => is_Some (g !! k) end.
Proof.
  intros (names & st & Hp & ->). destruct (LeastRecentlyUsedEntry_spec p names st (ok_rows _ _ _ (ok_tables _ _ _ _ Hp))) as (o & -> & Ho).
  exists o. split; [done|]. destruct o as [k|]; [|subst st; apply fmap_empty].
  destruct Ho as (i & x & Hk & _). by rewrite lookup_fmap, Hk.
Qed.

Lemma refines_count p g : refines p g -> length (live_ids (rows p)) = size g /\ count_ (idToIndex_ (rows p)) = Z.of_nat (size g).
Proof.
  intros (names & st & Hp & ->). pose proof (ok_rows _ _ _ (ok_tables _ _ _ _ Hp)) as Hr. rewrite map_size_fmap.
  split; [by eapply length_live|by eapply count_live].
Qed.

(** One pass over the victim's subtree. *)
Lemma evict_pass_ok p g k before :
  refines p g -> is_Some (g !! k) ->
  safe (let* p1 := EvictSubtree CSO p k in
        let* p2 := CompactStorage p1 in Ok (record_eviction p2 before (bytes p2)))
    (fun p' => exists g', refines p' g' /\ shrinks p g p' g' /\ (size g' < size g)%nat).
Proof.
  intros Hp Hk. pose proof (evict_compact_ok p g k Hp Hk) as H.
  destruct (EvictSubtree CSO p k) as [p1| |]; cbn [bind] in *; [|done|done].
  destruct (CompactStorage p1) as [p2| |]; cbn [bind safe] in *; [|done|done].
  destruct H as (g' & Hp' & Hgone & _ & Hsh). exists g'. split; [by apply refines_record|]. split; [by apply shrinks_record|].
  eapply size_drop; [apply Hsh|exact Hk|]. apply Hgone. split; [done|apply rtc_refl].
Qed.

Lemma EnforceMemoryLimitOnceTo_ok p g target :
  refines p g ->
  safe (EnforceMemoryLimitOnceTo CSO estimate p target) (fun '(b, p') => exists g', enforced p g b p' g').
Proof.
  intros Hp. unfold EnforceMemoryLimitOnceTo. destruct (_ || _).
  { exists g. split; [done|]. split; [apply shrinks_refl|done]. }
  destruct (refines_live p g Hp) as ([k|] & -> & Hk); cbn [bind].
  - pose proof (evict_pass_ok p g k (bytes p) Hp Hk) as H.
    destruct (EvictSubtree CSO p k) as [p1| |]; cbn [bind] in *; [|done|done].
    destruct (CompactStorage p1) as [p2| |]; cbn [bind safe] in *; [|done|done].
    destruct H as (g' & ? & ? & ?). exists g'. split; [done|]. split; done.
  - exists g. split; [done|]. split; [apply shrinks_refl|done].
Qed.

Lemma enforce_passes_ok n p0 g0 p g low b :
  enforced p0 g0 b p g ->
  safe (enforce_passes CSO estimate n p low b) (fun '(b', p') => exists g', enforced p0 g0 b' p' g').
Proof.
  revert p g b. induction n as [|n IH]; intros p g b Hp; cbn [enforce_passes]; [by exists g|].
  destruct (_ <=? _); [by exists g|]. eapply safe_bind; [apply (EnforceMemoryLimitOnceTo_ok p g), Hp|].
  intros [b1 p1] (g1 & H1). destruct b1; cbn [negb].
  - assert (enforced p0 g0 true p1 g1) as H01.
    { destruct Hp as (_ & Hs & Hb), H1 as (Hr1 & Hs1 & Hl1). split; [done|]. split; [by eapply shrinks_trans|].
      destruct b; [lia|]. by destruct Hb as [-> ->]. }
    destruct (_ <=? _); [by exists g1|]. by eapply IH.
  - destruct H1 as (_ & _ & -> & ->). by exists g.
Qed.

Lemma evict_volumes_ok fuel p0 g0 p g low b :
  enforced p0 g0 b p g -> (size g <= fuel)%nat ->
  safe (evict_volumes estimate fuel p low b) (fun '(b', p') => exists g', enforced p0 g0 b' p' g' /\
    (bytes p' <= low \/ g' = ∅ \/
     lastEvictionBytesAfter_ (policy p') = bytes p' /\ lastEvictionBytesBefore_ (policy p') <= bytes p')).
Proof.
  revert p g b. induction fuel as [|fuel IH]; intros p g b Hp Hf; cbn [evict_volumes];
    (destruct (Z.ltb_spec low (bytes p)) as [Hlt|Hge]; cbn [negb]; [|by exists g; auto]);
    destruct (refines_live p g (proj1 Hp)) as ([k|] & -> & Hk); cbn [bind]; try (by exists g; auto).
  - destruct Hk as [r Hr]. assert (size g <> 0)%nat; [|lia]. intros E%map_size_empty_iff. by rewrite E, lookup_empty in Hr.
  - eapply safe_bind; [apply (EvictVolume_ok p g k), Hk; apply Hp|]. intros p1 [Hr1 Hs1]. set (g1 := filter _ g) in *.
    assert (size g1 < size g)%nat as Hlt1.
    { eapply size_drop; [apply Hs1|exact Hk|]. apply map_lookup_filter_None. right. by intros x _ ?. }
    set (q := record_eviction p1 _ _).
    assert (enforced p0 g0 true q g1) as Hq.
    { destruct Hp as (_ & Hs & Hb). split; [by apply refines_record|]. split; [by eapply shrinks_record, shrinks_trans|].
      destruct b; [lia|]. by destruct Hb as [-> ->]. }
    destruct (Z.leb_spec (bytes p) (bytes p1)).
    + cbn [safe]. exists g1. split; [done|]. right. right. by split.
    + apply (IH q g1); [done|lia].
Qed.

Lemma EnforceMemoryLimit_ok p g :
  refines p g ->
  safe (EnforceMemoryLimit CSO estimate p) (fun '(b, p') => exists g', enforced p g b p' g' /\
    (enforcingMemoryLimit_ (policy p) = true -> bytes p' <= low_watermark p \/ g' = ∅ \/
     lastEvictionBytesAfter_ (policy p') = bytes p' /\ lastEvictionBytesBefore_ (policy p') <= bytes p')).
Proof.
  intros Hp. assert (enforced p g false p g) as H0 by (split; [done|]; split; [apply shrinks_refl|done]).
  unfold EnforceMemoryLimit. destruct (enforcingMemoryLimit_ (policy p)); cbn [negb]; [|by exists g].
  eapply safe_bind; [by apply (enforce_passes_ok _ p g p g _ false)|]. intros [b p1] (g1 & H1).
  eapply safe_mono; [apply (evict_volumes_ok _ p g p1 g1 (low_watermark p) b H1)|].
  - by rewrite (proj1 (refines_count p1 g1 (proj1 H1))).
  - intros [b' p'] (g' & He & Hx). by exists g'.
Qed.

Lemma enforce_to_ok fuel p0 g0 p g target b :
  enforced p0 g0 b p g -> (size g <= fuel)%nat ->
  safe (enforce_to CSO estimate fuel p target b) (fun '(b', p') => exists g', enforced p0 g0 b' p' g' /\
    (bytes p' <= target \/ g' = ∅)).
Proof.
  revert p g b. induction fuel as [|fuel IH]; intros p g b Hp Hf; cbn [enforce_to];
    (destruct (Z.ltb_spec target (bytes p)) as [Hlt|Hge]; cbn [negb]; [|by exists g; auto]);
    destruct (refines_live p g (proj1 Hp)) as ([k|] & -> & Hk); cbn [bind]; try (by exists g; auto).
  - destruct Hk as [r Hr]. assert (size g <> 0)%nat; [|lia]. intros E%map_size_empty_iff. by rewrite E, lookup_empty in Hr.
  - pose proof (evict_pass_ok p g k (bytes p) (proj1 Hp) Hk) as H.
    destruct (EvictSubtree CSO p k) as [p1| |]; cbn [bind] in *; [|done|done].
    destruct (CompactStorage p1) as [p2| |]; cbn [bind safe] in *; [|done|done].
    destruct H as (g1 & Hr1 & Hs1 & Hlt1). set (q := record_eviction p2 _ _) in *.
    assert (enforced p0 g0 true q g1) as Hq.
    { destruct Hp as (_ & Hs & Hb). split; [done|]. split; [by eapply shrinks_trans|].
      destruct b; [lia|]. by destruct Hb as [-> ->]. }
    destruct (_ && _) eqn:Estop; [|by apply (IH q g1); [|lia]].
    apply andb_true_iff in Estop as [_ E%Z.eqb_eq]. rewrite (proj2 (refines_count q g1 Hr1)) in E.
    exists g1. split; [done|]. right. apply map_size_empty_iff. lia.
Qed.

Lemma refines_limit p g maximum enforcing : refines p g -> refines (set_limit p maximum enforcing) g.
Proof. intros (names & st & [Ht Hi] & ->). exists names, st. split; [by split|done]. Qed.

Lemma SetMaximumMemoryBytes_ok p g maximumBytes :
  refines p g ->
  let maximum := if maximumBytes =? 0 then kDefaultMaximumMemoryBytes else maximumBytes in
  safe (SetMaximumMemoryBytes CSO estimate p maximumBytes) (fun p' => exists g', refines p' g' /\
    shrinks (set_limit p maximum (enforcingMemoryLimit_ (policy p))) g p' g' /\ (bytes p' <= maximum \/ g' = ∅)).
Proof.
  intros Hp maximum. unfold SetMaximumMemoryBytes. fold maximum. set (q := set_limit p maximum true).
  assert (refines q g) as Hq by (by apply refines_limit). unfold EnforceMemoryLimitTo. cbn [q set_limit policy enforcingMemoryLimit_ negb].
  eapply safe_bind; [apply (enforce_to_ok _ q g q g maximum false)|].
  - split; [done|]. split; [apply shrinks_refl|done].
  - by rewrite (proj1 (refines_count q g Hq)).
  - intros [b p1] (g' & (Hr & [H1 H2 H3 H4 H5 H6 H7 H8] & _) & Hx). cbn [safe]. exists g'.
    split; [by apply refines_limit|]. split; [|done]. by split.
Qed.
End evicting.

(** ** Properties *)

(** [g] holds of the volume's true records [truth] everything that is not marked cold. *)
Definition hot_complete (truth : Records) (p : Projection) (g : Records) : Prop :=
  g ⊆ truth /\ forall k, volumeRowId k ∉ cold p -> g !! k = truth !! k.

Lemma hot_complete_shrinks truth p g p' g' : shrinks p g p' g' -> hot_complete truth p g -> hot_complete truth p' g'.
Proof.
  intros Hs [Hsub Hhot]. split; [etrans; [apply Hs|done]|]. intros k Hk.
  assert (volumeRowId k ∉ cold p) as Hk0 by (intros ?; by apply Hk, (sh_cold _ _ _ _ Hs)). rewrite <-(Hhot k Hk0).
  destruct (g' !! k) as [r|] eqn:E'; [symmetry; eapply lookup_weaken, Hs; done|].
  destruct (g !! k) as [r|] eqn:E; [|done]. exfalso. apply Hk, (sh_lost _ _ _ _ Hs); [by rewrite E|done].
Qed.

(** C14. Enforcing the memory limit, whatever the size estimates answer, ends, never reads or
    writes outside a table, and is sound: a volume that is not marked cold afterwards still has
    every one of its records, exactly the volumes that lost a record became cold, and unless
    the estimate is below the watermark the projection is empty or the last eviction freed
    nothing.  The result tells whether anything was evicted. *)
Theorem EnforceMemoryLimit_keeps_hot_volumes CSO estimate p g truth :
  refines CSO p g -> hot_complete truth p g ->
  safe (EnforceMemoryLimit CSO estimate p) (fun '(evictedAny, p') => exists g',
    refines CSO p' g' /\ hot_complete truth p' g' /\
    (forall v, v ∈ cold p' <-> v ∈ cold p \/ exists k, volumeRowId k = v /\ is_Some (g !! k) /\ g' !! k = None) /\
    (if evictedAny then (size g' < size g)%nat else p' = p) /\
    (enforcingMemoryLimit_ (policy p) = true ->
       EstimatedMemoryBytes estimate p' <= low_watermark p \/ g' = ∅ \/
       lastEvictionBytesBefore_ (policy p') <= EstimatedMemoryBytes estimate p')).
Proof.
  intros Hp Hhot. eapply safe_mono; [by apply EnforceMemoryLimit_ok|]. intros [b p'] (g' & (Hr & Hs & Hb) & Hx).
  exists g'. split; [done|]. split; [by eapply hot_complete_shrinks|]. split; [|split].
  - intros v. split.
    + intros Hv. destruct (decide (v ∈ cold p)) as [|Hnv]; [by left|right]. by apply (sh_new _ _ _ _ Hs).
    + intros [Hv|(k & <- & Hk & Hk')]; [by apply (sh_cold _ _ _ _ Hs)|by apply (sh_lost _ _ _ _ Hs)].
  - destruct b; [done|]. by destruct Hb.
  - intros E. destruct (Hx E) as [?|[?|[_ ?]]]; auto.
Qed.

(** A crude estimate, and a projection of two volumes with a limit of 450 bytes. *)
Definition sample_estimate (r : Rows) (ix : FilenameIndex) (t : AccessTimes) : Z := 100 * zlen (entries_ r).

Definition sample_volumes : list proj_op := sample_tree ++ [
  OpUpsert 2 (sample_record 5 5 16 [68; 58]);
  OpUpsert 2 (sample_record 9 5 0 [120]);
  OpFind 1 (mkFileId 30 0)
].

Definition sample_limited : Projection := set_limit (run_sample sample_volumes) 450 true.

Lemma sample_limited_refines : refines ascii_ordinal sample_limited (sample_map sample_volumes).
Proof. apply refines_limit, run_sample_refines; [vm_compute; reflexivity|vm_compute; discriminate..]. Qed.

Lemma EnforceMemoryLimit_keeps_hot_volumes_witness :
  match EnforceMemoryLimit ascii_ordinal sample_estimate sample_limited with
  | Ok (b, p') => b = true /\ cold p' = {[1]} /\ size (sample_map sample_volumes) = 5%nat /\ count_ (idToIndex_ (rows p')) = 3
  | _ => False
  end /\
  safe (EnforceMemoryLimit ascii_ordinal sample_estimate sample_limited) (fun '(_, p') => exists g',
    refines ascii_ordinal p' g' /\ hot_complete (sample_map sample_volumes) p' g').
Proof.
  split; [vm_compute; done|].
  eapply safe_mono; [apply (EnforceMemoryLimit_keeps_hot_volumes ascii_ordinal sample_estimate sample_limited
    (sample_map sample_volumes) (sample_map sample_volumes) sample_limited_refines); by split|].
  intros [b p'] (g' & ? & ? & _). by exists g'.
Defined.

(** Changing the limit is strict even during a bulk scan: afterwards the estimate is within
    the new limit or nothing is resident any more.  Records only leave with their volume
    marked cold, the call ends whatever the estimates are, and the enforcing flag is put back. *)
Theorem SetMaximumMemoryBytes_strict CSO estimate p g truth maximumBytes :
  refines CSO p g -> hot_complete truth p g ->
  safe (SetMaximumMemoryBytes CSO estimate p maximumBytes) (fun p' => exists g',
    refines CSO p' g' /\ hot_complete truth p' g' /\
    maximumMemoryBytes_ (policy p') = (if maximumBytes =? 0 then kDefaultMaximumMemoryBytes else maximumBytes) /\
    enforcingMemoryLimit_ (policy p') = enforcingMemoryLimit_ (policy p) /\
    (EstimatedMemoryBytes estimate p' <= maximumMemoryBytes_ (policy p') \/ g' = ∅)).
Proof.
  intros Hp Hhot. eapply safe_mono; [by apply SetMaximumMemoryBytes_ok|]. intros p' (g' & Hr & Hs & Hx).
  exists g'. split; [done|]. split; [by eapply (hot_complete_shrinks _ _ g)|].
  split; [apply (sh_limit _ _ _ _ Hs)|]. split; [apply (sh_enforcing _ _ _ _ Hs)|]. by rewrite (sh_limit _ _ _ _ Hs).
Qed.

Lemma SetMaximumMemoryBytes_strict_witness :
  match SetMaximumMemoryBytes ascii_ordinal sample_estimate sample_limited 250 with
  | Ok p' => count_ (idToIndex_ (rows p')) = 2 /\ cold p' = {[1; 2]}
  | _ => False
  end /\
  safe (SetMaximumMemoryBytes ascii_ordinal sample_estimate sample_limited 250) (fun p' => exists g',
    refines ascii_ordinal p' g' /\ hot_complete (sample_map sample_volumes) p' g').
Proof.
  split; [vm_compute; done|].
  eapply safe_mono; [apply (SetMaximumMemoryBytes_strict ascii_ordinal sample_estimate sample_limited
    (sample_map sample_volumes) (sample_map sample_volumes) 250 sample_limited_refines); by split|].
  intros p' (g' & ? & ? & _). by exists g'.
Defined.

(** Evicting a key and compacting removes exactly the key and what is below it through
    directories, in both the small and the large path, even when directories form a cycle;
    every other record stays, no table is left inconsistent, and the walk ends. *)
Theorem EvictSubtree_removes_subtree CSO p g root :
  refines CSO p g -> is_Some (g !! root) ->
  safe (let* p := EvictSubtree CSO p root in CompactStorage p) (fun p' => exists g', refines CSO p' g' /\
    (forall k, g' !! k = None <-> g !! k = None \/ subtree g root k) /\ g' ⊆ g /\ volumeRowId root ∈ cold p').
Proof.
  intros Hp Hroot. eapply safe_mono; [by apply evict_compact_ok|]. intros p' (g' & Hr & Hgone & Hkeep & Hs).
  exists g'. split; [done|]. split; [|split; [apply Hs|]].
  - intros k. split; [|intros [Hk|Hk]; [|by apply Hgone]].
    + intros Hk. destruct (Hkeep k) as [E|]; [left; congruence|by right].
    + eapply lookup_weaken_None; [exact Hk|apply Hs].
  - apply (sh_lost _ _ _ _ Hs); [done|]. apply Hgone. split; [done|apply rtc_refl].
Qed.

Lemma EvictSubtree_removes_subtree_witness :
  match (let* p := EvictSubtree ascii_ordinal (run_sample sample_cycle) (mkEntryKey 1 (mkFileId 40 0)) in CompactStorage p) with
  | Ok p' => count_ (idToIndex_ (rows p')) = 0
  | _ => False
  end /\
  safe (let* p := EvictSubtree ascii_ordinal (run_sample sample_cycle) (mkEntryKey 1 (mkFileId 40 0)) in CompactStorage p)
    (fun p' => exists g', refines ascii_ordinal p' g' /\ g' ⊆ sample_map sample_cycle).
Proof.
  split; [vm_compute; done|].
  eapply safe_mono; [apply (EvictSubtree_removes_subtree ascii_ordinal (run_sample sample_cycle) (sample_map sample_cycle)
    (mkEntryKey 1 (mkFileId 40 0))); [|vm_compute; eauto]|].
  - apply run_sample_refines; [vm_compute; reflexivity|vm_compute; discriminate..].
  - intros p' (g' & ? & _ & ? & _). by exists g'.
Defined.

(** The victim of an eviction is a live key, if there is any: a directory if there is one that
    is not a volume root, else a file, else a root, and the least recently used of its kind. *)
Theorem LeastRecentlyUsedEntry_picks_oldest CSO p names st :
  proj_ok CSO p names st ->
  exists o, LeastRecentlyUsedEntry p = Ok o /\
    match o with
    | None => st = ∅
    | Some k => exists i x, st !! k = Some (i, x) /\
        forall k' i' x', st !! k' = Some (i', x') ->
          victim_class x < victim_class x' \/
          (victim_class x = victim_class x' /\ access_time p i <= access_time p i')
    end.
Proof. intros Hp. by apply (LeastRecentlyUsedEntry_spec p names), Hp. Qed.

Lemma LeastRecentlyUsedEntry_picks_oldest_witness :
  LeastRecentlyUsedEntry sample_limited = Ok (Some (mkEntryKey 1 (mkFileId 30 0))) /\
  exists o, LeastRecentlyUsedEntry sample_limited = Ok o /\ o <> None.
Proof.
  split; [vm_compute; reflexivity|]. destruct sample_limited_refines as (names & st & Hok & E).
  destruct (LeastRecentlyUsedEntry_picks_oldest ascii_ordinal sample_limited names st Hok) as (o & Ho & Hx).
  exists o. split; [done|]. intros ->. subst st. apply (f_equal size) in E.
  rewrite fmap_empty, map_size_empty in E. vm_compute in E. discriminate E.
Defined.
