(* ===== verification/Rebuild.v ===== *)
(** * Rebuild: reloading volumes from the durable store

    Models [RebuildVolumeFromStore], [CompactEntriesForIterationOrder], [Reserve],
    [ReloadEvictedVolume] and [ReloadAllEvictedVolumes] of
    [src/src/indexstore/src/Projection.cpp], and the row loop of [Store::ForEachEntryUntil]
    ([src/src/indexstore/src/Store.cpp]).

    What the SQLite statement yields is a parameter, a [Cursor]: whether the statement could be
    prepared, the records it delivers, and whether it ended with [SQLITE_DONE].  The
    [catch (...)] around the stream, which turns a failed allocation into a failed read, is not
    modelled: an exception of the hash tables stays a [Reject].  [ShrinkBulkRebuildCapacity]
    changes capacities only, so it has no counterpart here. *)

From stdpp Require Import gmap.
From S2P Require Import Prelude TextMatch FlatHashMap NamePool ChildrenMap FilenameIndex Projection ProjectionRead Residency.

(** ** The durable stream *)

Record Cursor := mkCursor { prepared : bool; delivered : list EntryRecord; completed : bool }.

Section stream.
Context {S : Type} (visitor : S -> EntryRecord -> result (bool * S)).

(** The [while] over [SQLITE_ROW]: the bool is [true] when the visitor stopped it. *)
Fixpoint visit_rows (records : list EntryRecord) (s : S) : result (bool * S) :=
  match records with
  | [] => Ok (false, s)
  | record :: rest =>
      let* '(continue, s) := visitor s record in
      if negb continue then Ok (true, s) else visit_rows rest s
  end.

Definition ForEachEntryUntil (c : Cursor) (s : S) : result (bool * S) :=
  if negb (prepared c) then Ok (false, s)
  else
    let* '(stopped, s) := visit_rows (delivered c) s in
    Ok (if stopped then true else completed c, s).
End stream.

(** ** Compacting the rows into iteration order *)

(** The visitor: [remap], the reordered rows and their access times. *)
Fixpoint build_remap (p : Projection) (es : list (EntryKey * Z)) (remap : list Z)
    (reordered : list ProjectionEntry) (ts : list Z) : result (list Z * list ProjectionEntry * list Z) :=
  match es with
  | [] => Ok (remap, reordered, ts)
  | (_, oldIndex) :: rest =>
      let* entry := entry_at p oldIndex in
      build_remap p rest (<[Z.to_nat oldIndex := wrap32 (zlen reordered)]> remap) (reordered ++ [entry])
        (ts ++ [access_time p oldIndex])
  end.

Definition CompactEntriesForIterationOrder (p : Projection) : result Projection :=
  let r := rows p in
  if negb (bool_decide (freeList_ r = [])) || bool_decide (entries_ r = []) then Ok p
  else
    let* '(remap, reordered, ts) :=
      build_remap p (live_ids r) (replicate (length (entries_ r)) 0) [] [] in
    if negb (length reordered =? length (entries_ r))%nat then Ok p
    else
      let fn := fun oldIndex => default 0 (remap !! Z.to_nat oldIndex) in
      let* children := children_RemapValues fn (parentToChildren_ r) in
      Ok (mkProjection
            (mkRows (namePool_ r) reordered (freeList_ r) (RemapValues fn (idToIndex_ r)) children true)
            (filenameIndex p) (mkTimes (accessClock_ (times p)) ts) (policy p)).

(** ** The rebuild *)

Definition with_ids (p : Projection) (ids : FlatHashMap EntryKey Z) : Projection :=
  let r := rows p in
  mkProjection (mkRows (namePool_ r) (entries_ r) (freeList_ r) ids (parentToChildren_ r) (denseIterationOrderValid_ r))
    (filenameIndex p) (times p) (policy p).

Definition EntryCount (p : Projection) : Z := count_ (idToIndex_ (rows p)).

(** Only the id map has content that depends on [reserve]. *)
Definition Reserve (p : Projection) (expectedEntryCount : Z) : result Projection :=
  let* ids := reserve EntryKeyHash (idToIndex_ (rows p)) expectedEntryCount in Ok (with_ids p ids).

Definition set_cold (p : Projection) (volumes : gset Z) : Projection :=
  let c := policy p in
  mkProjection (rows p) (filenameIndex p) (times p)
    (mkPolicy (maximumMemoryBytes_ c) (enforcingMemoryLimit_ c) (bulkScanActive_ c) volumes
       (subtreeEvictionCount_ c) (coldReloadCount_ c) (coldReloadFailedCount_ c)
       (lastEvictionBytesBefore_ c) (lastEvictionBytesAfter_ c)).

(** [enforcingMemoryLimit_ = enforcing]. *)
Definition set_enforcing (p : Projection) (enforcing : bool) : Projection :=
  set_limit p (maximumMemoryBytes_ (policy p)) enforcing.

(** [denseIterationOrderValid_ = false; filenameIndexValid_ = false]: the postings stay. *)
Definition forget_orders (p : Projection) : Projection :=
  let r := rows p in let ix := filenameIndex p in
  mkProjection (mkRows (namePool_ r) (entries_ r) (freeList_ r) (idToIndex_ r) (parentToChildren_ r) false)
    (mkFilenameIndex (filenameTrigramPostings_ ix) (filenameExceptionalEntries_ ix) false (filenameIndexBuilding_ ix))
    (times p) (policy p).

Definition volume_present (p : Projection) (volume : Z) : bool :=
  existsb (fun e => volumeRowId e.1 =? volume) (live_ids (rows p)).

Section rebuild.
Context (CompareStringOrdinal : list Z -> list Z -> Z).
Context (estimate : Rows -> FilenameIndex -> AccessTimes -> Z).
(** [sizeof (ProjectionEntry)]. *)
Context (sizeofEntry : Z).

Definition kFitCheckIntervalRows : Z := 4096.

(** The visitor: the projection, the rows streamed so far and whether the fit was violated. *)
Definition stream_row (volume lowWatermark : Z) (s : Projection * Z * bool) (record : EntryRecord)
    : result (bool * (Projection * Z * bool)) :=
  let '(p, streamedRows, fitViolation) := s in
  let* p := Upsert CompareStringOrdinal p volume record in
  let streamedRows := add64 streamedRows 1 in
  if (streamedRows mod kFitCheckIntervalRows =? 0) && (lowWatermark <? EstimatedMemoryBytes estimate p)
  then Ok (false, (p, streamedRows, true))
  else Ok (true, (p, streamedRows, fitViolation)).

(** The rows of the volume leave, and the tables are compacted. *)
Definition discard_volume (p : Projection) (volume : Z) : result Projection :=
  let* p := RemoveVolume CompareStringOrdinal p volume false in CompactStorage p.

Definition RebuildVolumeFromStore (p : Projection) (c : Cursor) (volume expectedEntryCount : Z)
    : result (bool * Projection) :=
  let wasEnforcingMemoryLimit := enforcingMemoryLimit_ (policy p) in
  let p := set_enforcing p false in
  let* p := if volume_present p volume || NeedsReload p volume then discard_volume p volume else Ok p in
  let p := forget_orders (set_cold p (cold p ∖ {[volume]})) in
  let lowWatermark := low_watermark p in
  let reserveCapRows := lowWatermark / 2 / sizeofEntry in
  let* p := Reserve p (EntryCount p + Z.min expectedEntryCount reserveCapRows) in
  let* '(streamed, (p, _, fitViolation)) :=
    ForEachEntryUntil (stream_row volume lowWatermark) c (p, 0, false) in
  let fitViolation := fitViolation || (streamed && (lowWatermark <? EstimatedMemoryBytes estimate p)) in
  if negb streamed || fitViolation then
    let* p := discard_volume p volume in
    let p := set_enforcing (set_cold p ({[volume]} ∪ cold p)) wasEnforcingMemoryLimit in
    let* '(_, p) := EnforceMemoryLimit CompareStringOrdinal estimate p in
    Ok (false, p)
  else
    let* p := CompactEntriesForIterationOrder p in
    let* p := if negb (bulkScanActive_ (policy p)) then rebuild_index CompareStringOrdinal p else Ok p in
    let p := set_enforcing p wasEnforcingMemoryLimit in
    let* '(_, p) := EnforceMemoryLimit CompareStringOrdinal estimate p in
    Ok (negb (NeedsReload p volume), p).

(** ** Reloading cold volumes *)

Definition count_reload (p : Projection) (reloads failures : Z) : Projection :=
  let c := policy p in
  mkProjection (rows p) (filenameIndex p) (times p)
    (mkPolicy (maximumMemoryBytes_ c) (enforcingMemoryLimit_ c) (bulkScanActive_ c) (evictedVolumes_ c)
       (subtreeEvictionCount_ c) (add64 (coldReloadCount_ c) reloads) (add64 (coldReloadFailedCount_ c) failures)
       (lastEvictionBytesBefore_ c) (lastEvictionBytesAfter_ c)).

(** [store volume]: the entry count of [GetVolumeMetadata], and the stream. *)
Definition ReloadEvictedVolume (p : Projection) (store : Z -> option Z * Cursor) (volume : Z)
    : result (bool * Projection) :=
  if negb (NeedsReload p volume) then Ok (true, p)
  else
    let p := count_reload p 1 0 in
    match (store volume).1 with
    | None => Ok (false, count_reload p 0 1)
    | Some entryCount =>
        let* '(rebuilt, p) := RebuildVolumeFromStore p (store volume).2 volume entryCount in
        let reloaded := rebuilt && negb (NeedsReload p volume) in
        Ok (reloaded, if reloaded then p else count_reload p 0 1)
    end.

Fixpoint reload_volumes (p : Projection) (store : Z -> option Z * Cursor) (volumes : list Z) (allReloaded : bool)
    : result (bool * Projection) :=
  match volumes with
  | [] => Ok (allReloaded, p)
  | volume :: rest =>
      let* '(reloaded, p) := ReloadEvictedVolume p store volume in
      reload_volumes p store rest (if reloaded then allReloaded else false)
  end.

Definition ReloadAllEvictedVolumes (p : Projection) (store : Z -> option Z * Cursor) : result (bool * Projection) :=
  reload_volumes p store (elements (cold p)) true.
End rebuild.

(** ** Compaction into iteration order keeps the records and their access times *)

(** [remap] sends the slots [done] to their positions, and the new arrays follow it. *)
Definition remapped (p : Projection) (done : list (EntryKey * Z)) (remap : list Z) (reordered : list ProjectionEntry)
    (ts : list Z) : Prop :=
  length reordered = length done /\ length ts = length done /\
  forall n k i, done !! n = Some (k, i) -> remap !! Z.to_nat i = Some (Z.of_nat n) /\
    reordered !! n = entries_ (rows p) !! Z.to_nat i /\ ts !! n = Some (access_time p i).

Lemma build_remap_spec p names st es : forall done remap reordered ts,
  rows_ok (rows p) names st -> (forall k i, (k, i) ∈ done ++ es -> exists x, st !! k = Some (i, x)) ->
  NoDup (done ++ es).*1 -> length remap = length (entries_ (rows p)) ->
  zlen done + zlen es <= 4294967296 -> remapped p done remap reordered ts ->
  exists remap' reordered' ts', build_remap p es remap reordered ts = Ok (remap', reordered', ts') /\
    remapped p (done ++ es) remap' reordered' ts'.
Proof.
  induction es as [|[k i] es IH]; intros done remap reordered ts Hr Hes Hnd Hlen Hz (Hl & Hlt & Hm); cbn [build_remap].
  { exists remap, reordered, ts. rewrite app_nil_r. by split. }
  destruct (Hes k i) as [x Hk]; [set_solver|]. destruct (rows_entry_at p names st k i x Hr Hk) as (e & -> & He & _). cbn [bind].
  replace (done ++ (k, i) :: es) with ((done ++ [(k, i)]) ++ es) in * by (by rewrite <-app_assoc).
  rewrite zlen_cons in Hz. pose proof (zlen_nonneg es). pose proof (zlen_nonneg reordered).
  assert (wrap32 (zlen reordered) = Z.of_nat (length done)) as ->.
  { unfold wrap32. rewrite Z.mod_small; unfold zlen in *; lia. }
  apply IH; [done|done|done|by rewrite length_insert|rewrite zlen_app; change (zlen [(k, i)]) with 1; lia|].
  split; [rewrite !length_app; cbn; lia|]. split; [rewrite !length_app; cbn; lia|].
  pose proof (slot_in_range _ _ _ _ _ _ Hr Hk) as Hi. intros n k' i' Hn.
  destruct (decide (n = length done)) as [->|Hne].
  - rewrite lookup_app_r, Nat.sub_diag in Hn by done. injection Hn as <- <-.
    split; [apply list_lookup_insert_eq; unfold zlen in Hi; lia|].
    split; [rewrite lookup_app_r, Hl, Nat.sub_diag by lia; by rewrite He|]. by rewrite lookup_app_r, Hlt, Nat.sub_diag by lia.
  - pose proof (lookup_lt_Some _ _ _ Hn) as Hlt'. rewrite length_app in Hlt'. cbn in Hlt'.
    rewrite lookup_app_l in Hn by lia. destruct (Hm n k' i' Hn) as (H1 & H2 & H3).
    assert ((k', i') ∈ done) as Hin by (by eapply list_elem_of_lookup_2).
    destruct (Hes k' i') as [x' Hk']; [rewrite !elem_of_app; auto|].
    split; [|split; [by rewrite lookup_app_l by lia|by rewrite lookup_app_l by lia]].
    rewrite list_lookup_insert_ne; [done|]. pose proof (slot_in_range _ _ _ _ _ _ Hr Hk'). intros E. assert (i = i') as -> by lia.
    assert (k = k') as -> by (by eapply (ok_inj _ _ _ Hr)).
    rewrite !fmap_app in Hnd. cbn in Hnd. apply NoDup_app in Hnd as (Hnd & _). apply NoDup_app in Hnd as (_ & Hdis & _).
    apply (Hdis k'); [|set_solver]. apply list_elem_of_fmap. by exists (k', i').
Qed.

(** Moving every live slot along an injection. *)
Definition move_slots (fn : Z -> Z) (st : State) : State := (fun v => (fn v.1, v.2)) <$> st.

Lemma lookup_move_slots fn st k j x : move_slots fn st !! k = Some (j, x) <-> exists i, st !! k = Some (i, x) /\ j = fn i.
Proof.
  unfold move_slots. rewrite lookup_fmap_Some. split.
  - intros ([i y] & [= <- <-] & Hk). eauto.
  - intros (i & Hk & ->). by exists (i, x).
Qed.

Lemma snd_move_slots fn st : snd <$> move_slots fn st = snd <$> st.
Proof. unfold move_slots. rewrite <-map_fmap_compose. done. Qed.

Lemma fst_move_slots fn st : fst <$> move_slots fn st = fn <$> (fst <$> st).
Proof. unfold move_slots. by rewrite <-!map_fmap_compose. Qed.

Definition slot_inj (fn : Z -> Z) (st : State) : Prop :=
  forall k k' i i' x x', st !! k = Some (i, x) -> st !! k' = Some (i', x') -> fn i = fn i' -> i = i'.

Lemma children_ok_move fn ch st :
  children_ok ch st -> slot_inj fn st ->
  children_ok ((fun l : list Z => fn <$> l) <$> ch) (move_slots fn st).
Proof.
  intros Hch Hinj k. destruct (Hch k) as [Hnd Hel]. rewrite lookup_fmap.
  assert (default [] ((fun l : list Z => fn <$> l) <$> ch !! k) = fn <$> default [] (ch !! k)) as -> by (by destruct (ch !! k)).
  split.
  - apply NoDup_fmap_2_strong; [|done]. intros i i' (k1 & x1 & H1 & _)%Hel (k2 & x2 & H2 & _)%Hel E. by eapply Hinj.
  - intros j. rewrite list_elem_of_fmap. split.
    + intros (i & -> & (k' & x & Hk' & Hr)%Hel). exists k', x. split; [|done]. apply lookup_move_slots. eauto.
    + intros (k' & x & (i & Hk' & ->)%lookup_move_slots & Hr). exists i. split; [done|]. apply Hel. by exists k', x.
Qed.

Lemma tables_ok_move r names st fn reordered children :
  tables_ok r names st -> freeList_ r = [] -> length reordered = length (entries_ r) ->
  (forall k i x, st !! k = Some (i, x) -> 0 <= fn i /\ reordered !! Z.to_nat (fn i) = entries_ r !! Z.to_nat i) ->
  slot_inj fn st ->
  (forall j : nat, (j < length reordered)%nat -> exists k i x, st !! k = Some (i, x) /\ fn i = Z.of_nat j) ->
  (exists ch, holds (parentToChildren_ r) ch /\ children_ok ch st /\ holds children ((fun l : list Z => fn <$> l) <$> ch)) ->
  tables_ok (mkRows (namePool_ r) reordered (freeList_ r) (RemapValues fn (idToIndex_ r)) children true) names (move_slots fn st).
Proof.
  intros [Hr _ _ _ Hs] Hfree Hl Hmv Hinj Hsurj (ch & _ & Hcok & Hm).
  split; cbn [namePool_ entries_ freeList_ idToIndex_ parentToChildren_ denseIterationOrderValid_].
  - split; cbn [namePool_ entries_ idToIndex_]; [apply Hr| | |].
    + rewrite fst_move_slots. apply RemapValues_represents, Hr.
    + intros k k' j x x' (i & Hk & ->)%lookup_move_slots (i' & Hk' & E)%lookup_move_slots.
      assert (i = i') as -> by (by eapply Hinj). by eapply (ok_inj _ _ _ Hr).
    + intros k j x (i & Hk & ->)%lookup_move_slots. destruct (Hmv k i x Hk) as [H0 E]. split; [done|].
      destruct (ok_row _ _ _ Hr k i x Hk) as (_ & e & He & Hrep). exists e. by rewrite E.
  - eexists. split; [exact Hm|]. by apply children_ok_move.
  - rewrite Hfree. split; [constructor|]. cbn. set_solver.
  - intros _ j Hj. destruct (Hsurj j Hj) as (k & i & x & Hk & E). exists k, x. apply lookup_move_slots. eauto.
  - unfold zlen in *. lia.
Qed.

Section rebuilding.
Context (CSO : list Z -> list Z -> Z).
Local Abbreviation proj_ok := (proj_ok CSO).
Local Abbreviation refines := (refines CSO).

Lemma CompactEntries_ok p names st :
  proj_ok p names st -> filenameIndexValid_ (filenameIndex p) = false ->
  safe (CompactEntriesForIterationOrder p) (fun p' => exists st', proj_ok p' names st' /\ snd <$> st' = snd <$> st /\
    no_growth p p' /\ policy p' = policy p /\ filenameIndex p' = filenameIndex p /\
    forall k j x, st' !! k = Some (j, x) -> exists i, st !! k = Some (i, x) /\ access_time p' j = access_time p i).
Proof.
  intros Hp Hv. assert (forall q, q = p -> safe (Ok q) (fun p' => exists st', proj_ok p' names st' /\ snd <$> st' = snd <$> st /\
    no_growth p p' /\ policy p' = policy p /\ filenameIndex p' = filenameIndex p /\
    forall k j x, st' !! k = Some (j, x) -> exists i, st !! k = Some (i, x) /\ access_time p' j = access_time p i)) as Hsame.
  { intros q ->. exists st. split; [done|]. split; [done|]. split; [reflexivity|]. eauto 6. }
  unfold CompactEntriesForIterationOrder. destruct (_ || _) eqn:E0; [by apply Hsame|].
  apply orb_false_iff in E0 as [Hf%negb_false_iff%bool_decide_eq_true _].
  pose proof Hp as [Ht (sn & _ & Hacc)]. pose proof Ht as [Hr (ch & Hch & Hcok) _ _ Hs].
  destruct (live_ids_spec _ _ _ Hr) as [Hnd Hel]. pose proof (live_ids_length _ _ _ Hr) as Hle.
  destruct (build_remap_spec p names st (live_ids (rows p)) [] (replicate (length (entries_ (rows p))) 0) [] [])
    as (remap & reordered & ts & -> & Hl & Hlt & Hm); [done|intros k i; apply Hel|done|by rewrite length_replicate|unfold zlen in *; cbn; lia|done|].
  cbn [bind app] in *. destruct (Nat.eqb_spec (length reordered) (length (entries_ (rows p)))) as [Hlen|]; [|by apply Hsame]. cbn [negb].
  set (fn := fun i => default 0 (remap !! Z.to_nat i)).
  assert (forall n k i, live_ids (rows p) !! n = Some (k, i) -> fn i = Z.of_nat n) as Hfn.
  { intros n k i Hn. unfold fn. destruct (Hm n k i Hn) as (-> & _). done. }
  assert (forall k i x, st !! k = Some (i, x) -> exists n, live_ids (rows p) !! n = Some (k, i)) as Hpos.
  { intros k i x Hk. apply list_elem_of_lookup_1. apply Hel. eauto. }
  eapply safe_bind; [by apply (children_RemapValues_refines fn _ ch)|]. intros children Hchildren. cbn [safe].
  assert (tables_ok (mkRows (namePool_ (rows p)) reordered (freeList_ (rows p)) (RemapValues fn (idToIndex_ (rows p))) children true)
    names (move_slots fn st)) as Ht'.
  { apply tables_ok_move; [done..| | | |eauto].
    - intros k i x Hk. destruct (Hpos k i x Hk) as [n Hn]. rewrite (Hfn n k i Hn). split; [lia|]. rewrite Nat2Z.id. apply (Hm n k i Hn).
    - intros k k' i i' x x' Hk Hk' E. destruct (Hpos k i x Hk) as [n Hn], (Hpos k' i' x' Hk') as [n' Hn'].
      rewrite (Hfn n k i Hn), (Hfn n' k' i' Hn') in E. assert (n = n') as -> by lia. congruence.
    - intros j Hj. destruct (lookup_lt_is_Some_2 (live_ids (rows p)) j) as [[k i] Hn]; [lia|].
      assert ((k, i) ∈ live_ids (rows p)) as [x Hx]%Hel by (by eapply list_elem_of_lookup_2). exists k, i, x. eauto. }
  exists (move_slots fn st). split; [|split; [apply snd_move_slots|split; [|split; [done|split; [done|]]]]].
  - split; [done|]. destruct (slot_names_exist (move_slots fn st) (ok_inj _ _ _ (ok_rows _ _ _ Ht'))) as [sn' Hsn']. exists sn'.
    split; [done|]. destruct Hacc as [Hb _]. split; [done|]. cbn. congruence.
  - unfold no_growth. cbn. unfold zlen. lia.
  - intros k j x (i & Hk & ->)%lookup_move_slots. exists i. split; [done|]. destruct (Hpos k i x Hk) as [n Hn].
    destruct (Hm n k i Hn) as (_ & _ & Hts). unfold access_time at 1. cbn. rewrite (Hfn n k i Hn), Nat2Z.id. by rewrite Hts.
Qed.

(** ** An upsert does not revive the accelerator *)

Lemma add_index_entry_invalid p i : filenameIndexValid_ (filenameIndex p) = false -> add_index_entry CSO p i = Ok p.
Proof. intros H. unfold add_index_entry. by rewrite H. Qed.

Lemma Upsert_invalid p volume record :
  filenameIndexValid_ (filenameIndex p) = false ->
  match Upsert CSO p volume record with Ok p' => filenameIndexValid_ (filenameIndex p') = false | _ => True end.
Proof.
  intros Hv. unfold Upsert, UpsertExisting, UpsertNew. rewrite Hv.
  destruct (find _ _ _) as [i|].
  - destruct (entry_at p i) as [e| |]; cbn [bind]; [|done..].
    destruct (Intern _ _) as [[names nid]| |]; cbn [bind]; [|done..].
    destruct (if bool_decide _ then _ else _) as [ch| |]; cbn [bind]; [|done..]. by rewrite add_index_entry_invalid.
  - destruct (Intern _ _) as [[names nid]| |]; cbn [bind]; [|done..].
    destruct (allocate_slot _ _) as [[[i es] fr]| |]; cbn [bind]; [|done..].
    destruct (insert _ _ _ _) as [ids| |]; cbn [bind]; [|done..].
    destruct (link_child _ _ _ _) as [ch| |]; cbn [bind]; [|done..]. by rewrite add_index_entry_invalid.
Qed.

(** ** The stream *)

Definition stream_records (volume : Z) (g : Records) (records : list EntryRecord) : Records :=
  foldl (fun g r => <[mkEntryKey volume (r_id r) := r]> g) g records.

Lemma stream_records_other volume g records k :
  volumeRowId k <> volume -> stream_records volume g records !! k = g !! k.
Proof.
  intros Hk. revert g. induction records as [|r records IH]; intros g; [done|].
  cbn. fold (stream_records volume (<[mkEntryKey volume (r_id r) := r]> g) records). rewrite IH. apply lookup_insert_ne. by intros <-.
Qed.

Lemma stream_records_ext volume g g' records k :
  g !! k = g' !! k -> stream_records volume g records !! k = stream_records volume g' records !! k.
Proof.
  revert g g'. induction records as [|r records IH]; intros g g' Hk; [done|]. cbn. apply IH.
  destruct (decide (mkEntryKey volume (r_id r) = k)) as [->|Hne]; [by rewrite !lookup_insert_eq|by rewrite !lookup_insert_ne].
Qed.

Fixpoint record_chars (records : list EntryRecord) : Z :=
  match records with [] => 0 | r :: rest => zlen (r_name r) + record_chars rest end.

Lemma record_chars_nonneg records : 0 <= record_chars records.
Proof. induction records as [|r records IH]; cbn; [lia|]. pose proof (zlen_nonneg (r_name r)). lia. Qed.

Context (estimate : Rows -> FilenameIndex -> AccessTimes -> Z).

(** All records were upserted, or the visitor stopped the stream at a row of the volume. *)
Lemma stream_ok volume low records : forall p g n fv,
  refines p g -> budget p (record_chars records) (zlen records) -> filenameIndexValid_ (filenameIndex p) = false ->
  safe (visit_rows (stream_row CSO estimate volume low) records (p, n, fv)) (fun '(stopped, (p', _, fv')) =>
    policy p' = policy p /\ filenameIndexValid_ (filenameIndex p') = false /\
    if stopped then fv' = true /\ exists g', refines p' g' /\ forall k, volumeRowId k <> volume -> g' !! k = g !! k
    else fv' = fv /\ refines p' (stream_records volume g records)).
Proof.
  induction records as [|r records IH]; intros p g n fv Hp Hb Hv; cbn [visit_rows]; [done|].
  destruct Hb as (Ha & Ht & He). cbn [record_chars] in Ha. rewrite zlen_cons in Ht, He.
  pose proof (record_chars_nonneg records). pose proof (zlen_nonneg records). pose proof (zlen_nonneg (r_name r)).
  unfold UINT32_MAX in *. unfold stream_row at 1.
  pose proof (Upsert_refines CSO p g volume r (zlen (r_name r)) Hp) as Hup. pose proof (Upsert_invalid p volume r Hv) as Hinv.
  destruct (Upsert CSO p volume r) as [p1| |]; cbn [bind safe] in *; [|done|].
  2: { apply Hup. unfold room, UINT32_MAX. repeat split; [by right|lia..]. }
  destruct Hup as [(G1 & G2 & G3 & G4) Hp1]; [unfold room, UINT32_MAX; repeat split; [by right|lia..]|].
  destruct (_ && _); cbn [bind negb safe].
  - split; [done|]. split; [done|]. split; [done|]. eexists. split; [exact Hp1|]. intros k Hk. apply lookup_insert_ne. by intros <-.
  - eapply safe_mono; [apply (IH p1 (<[mkEntryKey volume (r_id r) := r]> g)); [done|unfold budget, UINT32_MAX; lia|done]|].
    intros [stopped [[p' n'] fv']] (Hpol & Hv' & Hx). split; [congruence|]. split; [done|].
    destruct stopped; [|done]. destruct Hx as [-> (g' & Hg' & Hk)]. split; [done|]. exists g'. split; [done|].
    intros k Hne. rewrite Hk by done. apply lookup_insert_ne. by intros <-.
Qed.

Lemma ForEachEntryUntil_ok volume low c p g n fv :
  refines p g -> budget p (record_chars (delivered c)) (zlen (delivered c)) -> filenameIndexValid_ (filenameIndex p) = false ->
  safe (ForEachEntryUntil (stream_row CSO estimate volume low) c (p, n, fv)) (fun '(streamed, (p', _, fv')) =>
    policy p' = policy p /\ filenameIndexValid_ (filenameIndex p') = false /\
    (exists g', refines p' g' /\ forall k, volumeRowId k <> volume -> g' !! k = g !! k) /\
    (streamed = true -> fv' = false -> completed c = true /\ refines p' (stream_records volume g (delivered c)))).
Proof.
  intros Hp Hb Hv. unfold ForEachEntryUntil. destruct (prepared c); cbn [negb].
  2: { cbn. split; [done|]. split; [done|]. split; [eauto|done]. }
  eapply safe_bind; [by apply stream_ok|]. intros [stopped [[p' n'] fv']] (Hpol & Hv' & Hx). cbn [safe].
  split; [done|]. split; [done|]. destruct stopped.
  - destruct Hx as [-> Hg]. split; [done|]. by intros _ ?.
  - destruct Hx as [-> Hg]. split; [|by intros -> _]. eexists. split; [exact Hg|]. intros k Hk. by apply stream_records_other.
Qed.

(** ** The steps of the rebuild *)

Abbreviation without volume g := (filter (fun kv : EntryKey * EntryRecord => volumeRowId kv.1 <> volume) g).

Lemma lookup_without volume (g : Records) k :
  without volume g !! k = if decide (volumeRowId k = volume) then None else g !! k.
Proof.
  destruct (decide (volumeRowId k = volume)) as [Hv|Hv].
  - apply map_lookup_filter_None. right. by intros x _ ?.
  - destruct (g !! k) eqn:E; [by apply map_lookup_filter_Some|apply map_lookup_filter_None; by left].
Qed.

Lemma discard_volume_ok p g volume :
  refines p g ->
  safe (discard_volume CSO p volume) (fun p' => refines p' (without volume g) /\ no_growth p p' /\ policy p' = policy p).
Proof.
  intros (names & st & Hp & ->). unfold discard_volume. eapply safe_bind; [by apply (RemoveVolume_ok CSO p names st volume false)|].
  intros p1 [Hg1 Hp1]. eapply safe_mono; [eapply (CompactStorage_ok CSO), proj_ok_evictable, Hp1|].
  intros p2 (names' & st' & Hp2 & E & Hg2 & _). split; [exists names', st'; split; [done|by rewrite E, snd_filter_volume]|].
  split; [etrans; by apply grown_no_growth|]. destruct Hg1 as (_ & _ & _ & E1), Hg2 as (_ & _ & _ & E2). congruence.
Qed.

Lemma clear_volume_ok p g volume :
  refines p g ->
  safe (if volume_present p volume || NeedsReload p volume then discard_volume CSO p volume else Ok p)
    (fun p' => refines p' (without volume g) /\ no_growth p p' /\ policy p' = policy p).
Proof.
  intros Hp. destruct (_ || _) eqn:E; [by apply discard_volume_ok|]. apply orb_false_iff in E as [Habs _]. cbn [safe].
  split; [|split; [reflexivity|done]]. replace (without volume g) with g; [done|].
  apply map_eq. intros k. rewrite lookup_without. destruct (decide (volumeRowId k = volume)) as [Hv|]; [|done].
  destruct (g !! k) as [r|] eqn:Hk; [|done]. exfalso. destruct Hp as (names & st & Hp & ->).
  apply lookup_fmap_Some in Hk as ([i x] & _ & Hk).
  destruct (live_ids_spec _ _ _ (ok_rows _ _ _ (ok_tables _ _ _ _ Hp))) as [_ Hel].
  assert (In (k, i) (live_ids (rows p))) as Hin by (apply list_elem_of_In, Hel; eauto).
  assert (volume_present p volume = true); [|congruence]. apply existsb_exists. exists (k, i). split; [done|]. by apply Z.eqb_eq.
Qed.

Lemma refines_forget p g volumes :
  refines p g -> refines (forget_orders (set_cold p volumes)) g.
Proof.
  intros (names & st & [[[? ? ? ?] Hch Hf _ Hs] (sn & Hsn & [Hb _])] & ->). exists names, st. split; [|done].
  split; [split; [by split|exact Hch|exact Hf|done|exact Hs]|]. exists sn. split; [done|]. split; [exact Hb|done].
Qed.

Lemma refines_cold p g volumes : refines p g -> refines (set_cold p volumes) g.
Proof. intros (names & st & [Ht Hi] & ->). exists names, st. split; [by split|done]. Qed.

Lemma Reserve_ok p g n :
  refines p g -> 0 <= n <= 2 ^ 62 ->
  safe (Reserve p n) (fun p' => refines p' g /\ no_growth p p' /\ policy p' = policy p /\ filenameIndex p' = filenameIndex p).
Proof.
  intros (names & st & [[[? Hids ? ?] Hch Hf Hd Hs] Hi] & ->) Hn. unfold Reserve.
  eapply safe_bind; [by apply (reserve_represents EntryKeyHash _ _ n Hids)|]. intros ids [Hids' _]. cbn [safe].
  split; [|split; [unfold no_growth; cbn; lia|done]]. exists names, st. split; [|done]. split; [split; [by split|exact Hch|exact Hf|exact Hd|exact Hs]|done].
Qed.

Lemma CompactEntries_refines p g :
  refines p g -> filenameIndexValid_ (filenameIndex p) = false ->
  safe (CompactEntriesForIterationOrder p) (fun p' => refines p' g /\ no_growth p p' /\ policy p' = policy p).
Proof.
  intros (names & st & Hp & ->) Hv. eapply safe_mono; [by apply CompactEntries_ok|].
  intros p' (st' & Hp' & E & Hn & Hpol & _). split; [exists names, st'; done|done].
Qed.

Lemma rebuild_index_refines p g :
  refines p g -> safe (rebuild_index CSO p) (fun p' => refines p' g /\ no_growth p p' /\ policy p' = policy p).
Proof.
  intros (names & st & Hp & ->). destruct (rebuild_index_ok CSO p names st (ok_tables _ _ _ _ Hp)) as (p' & -> & Hp' & Hrows & _ & Hpol & _).
  cbn [safe]. split; [exists names, st; done|]. split; [|done]. unfold no_growth. rewrite Hrows. lia.
Qed.

Lemma budget_no_growth p p' chars n : budget p chars n -> no_growth p p' -> budget p' chars n.
Proof. intros (? & ? & ?) (? & ? & ?). unfold budget in *. lia. Qed.

Lemma refines_entries p g : refines p g -> 0 <= EntryCount p <= 4294967296.
Proof.
  intros Hp. pose proof (refines_count CSO p g Hp) as [Hl Hc]. unfold EntryCount. rewrite Hc, <-Hl.
  destruct Hp as (names & st & Hp & _). pose proof (live_ids_length _ _ _ (ok_rows _ _ _ (ok_tables _ _ _ _ Hp))).
  pose proof (ok_size _ _ _ (ok_tables _ _ _ _ Hp)). unfold zlen in *. lia.
Qed.

Context (sizeofEntry : Z).

(** What holds before the memory limit is enforced again: the settings are as before, the other
    volumes are untouched, and the volume holds [records] and is cold or not. *)
Record reloaded (p : Projection) (g : Records) (volume : Z) (records : Records) (volumes : gset Z)
    (p1 : Projection) (g1 : Records) : Prop := {
  rl_refines : refines p1 g1;
  rl_limit : maximumMemoryBytes_ (policy p1) = maximumMemoryBytes_ (policy p);
  rl_enforcing : enforcingMemoryLimit_ (policy p1) = enforcingMemoryLimit_ (policy p);
  rl_bulk : bulkScanActive_ (policy p1) = bulkScanActive_ (policy p);
  rl_cold : cold p1 = volumes;
  rl_other : forall k, volumeRowId k <> volume -> g1 !! k = g !! k;
  rl_volume : forall k, volumeRowId k = volume -> g1 !! k = records !! k
}.

(** The policy after the cold marker of [volume] was dropped with enforcement off. *)
Definition streaming (p p' : Projection) (volume : Z) : Prop :=
  policy p' = policy (set_cold (set_enforcing p false) (cold p ∖ {[volume]})).

Lemma reloaded_fail p g volume p2 g2 :
  streaming p p2 volume -> refines p2 g2 -> (forall k, volumeRowId k <> volume -> g2 !! k = g !! k) ->
  safe (discard_volume CSO p2 volume) (fun p3 =>
    reloaded p g volume ∅ ({[volume]} ∪ cold p ∖ {[volume]})
      (set_enforcing (set_cold p3 ({[volume]} ∪ cold p3)) (enforcingMemoryLimit_ (policy p))) (without volume g2)).
Proof.
  intros Hpol Hp2 Hother. eapply safe_mono; [by apply discard_volume_ok|]. intros p3 (Hp3 & _ & Hpol3).
  unfold streaming in Hpol. split; unfold cold; cbn; rewrite ?Hpol3, ?Hpol; try done.
  - by apply refines_limit, refines_cold.
  - intros k Hk. rewrite lookup_without, decide_False by done. by apply Hother.
  - intros k Hk. rewrite lookup_without, decide_True by done. by rewrite lookup_empty.
Qed.

Lemma reloaded_done p g volume p2 records :
  streaming p p2 volume -> refines p2 (stream_records volume (without volume g) records) ->
  filenameIndexValid_ (filenameIndex p2) = false ->
  safe (let* q := CompactEntriesForIterationOrder p2 in
        if negb (bulkScanActive_ (policy q)) then rebuild_index CSO q else Ok q) (fun p3 =>
    reloaded p g volume (stream_records volume ∅ records) (cold p ∖ {[volume]})
      (set_enforcing p3 (enforcingMemoryLimit_ (policy p))) (stream_records volume (without volume g) records)).
Proof.
  intros Hpol Hp2 Hv. eapply safe_bind; [by apply CompactEntries_refines|]. intros q (Hq & _ & Hpolq).
  eapply (safe_mono _ (fun p3 => refines p3 (stream_records volume (without volume g) records) /\ policy p3 = policy q)).
  { destruct (negb _); [|done]. eapply safe_mono; [by apply rebuild_index_refines|]. by intros p3 (? & _ & ?). }
  intros p3 [Hp3 Hpol3]. unfold streaming in Hpol. split; unfold cold; cbn; rewrite ?Hpol3, ?Hpolq, ?Hpol; try done.
  - by apply refines_limit.
  - intros k Hk. rewrite stream_records_other by done. by rewrite lookup_without, decide_False by done.
  - intros k Hk. apply stream_records_ext. by rewrite lookup_without, decide_True, lookup_empty by done.
Qed.

(** Enforcing the limit at the end. *)
Lemma enforce_after p g volume records volumes p1 g1 (answer : Projection -> bool) :
  reloaded p g volume records volumes p1 g1 ->
  safe (let* '(_, q) := EnforceMemoryLimit CSO estimate p1 in Ok (answer q, q)) (fun '(b, p') => exists g',
    refines p' g' /\ shrinks p1 g1 p' g' /\ b = answer p').
Proof.
  intros Hr. eapply safe_bind; [apply (EnforceMemoryLimit_ok CSO estimate p1 g1), Hr|].
  intros [b q] (g' & (Hq & Hs & _) & _). cbn [safe]. by exists g'.
Qed.

Lemma reserve_in_range p g low expected :
  refines p g -> 0 <= low <= 18446744073709551615 -> 0 <= expected -> 16 <= sizeofEntry ->
  0 <= EntryCount p + Z.min expected (low / 2 / sizeofEntry) <= 2 ^ 62.
Proof.
  intros Hp Hlow He Hs. pose proof (refines_entries p g Hp).
  assert (0 <= low / 2 / sizeofEntry <= 18446744073709551615 / 2 / 16) as Hq;
    [|change (18446744073709551615 / 2 / 16) with 576460752303423487 in Hq; lia].
  split; [apply Z.div_pos; [apply Z.div_pos|]; lia|].
  etrans; [apply Z.div_le_mono; [lia|apply (Z.div_le_mono low 18446744073709551615 2); lia]|]. apply Z.div_le_compat_l; [done|lia].
Qed.

Lemma low_watermark_range p : 0 <= maximumMemoryBytes_ (policy p) <= 18446744073709551615 -> 0 <= low_watermark p <= 18446744073709551615.
Proof.
  intros H. unfold low_watermark. pose proof (Z.div_pos (maximumMemoryBytes_ (policy p)) 5).
  assert (maximumMemoryBytes_ (policy p) / 5 <= maximumMemoryBytes_ (policy p)) by (apply Z.div_le_upper_bound; lia). lia.
Qed.

Lemma RebuildVolumeFromStore_ok p g c volume expected :
  refines p g -> budget p (record_chars (delivered c)) (zlen (delivered c)) ->
  0 <= maximumMemoryBytes_ (policy p) <= UINT64_MAX -> 0 <= expected -> 16 <= sizeofEntry ->
  safe (RebuildVolumeFromStore CSO estimate sizeofEntry p c volume expected) (fun '(b, p') => exists p1 g1 g',
    refines p' g' /\ shrinks p1 g1 p' g' /\
    ((completed c = true /\ b = negb (NeedsReload p' volume) /\
      reloaded p g volume (stream_records volume ∅ (delivered c)) (cold p ∖ {[volume]}) p1 g1) \/
     (b = false /\ reloaded p g volume ∅ ({[volume]} ∪ cold p ∖ {[volume]}) p1 g1))).
Proof.
  intros Hp Hb Hmax Hexp Hsize. unfold RebuildVolumeFromStore. set (was := enforcingMemoryLimit_ (policy p)).
  eapply safe_bind; [apply (clear_volume_ok (set_enforcing p false) g volume), refines_limit, Hp|]. intros p1 (Hp1 & Hn1 & Hpol1).
  set (p2 := forget_orders _). cbn zeta. assert (refines p2 (without volume g)) as Hp2 by (by apply refines_forget).
  assert (low_watermark p2 = low_watermark p) as Elow by (unfold low_watermark; cbn; by rewrite Hpol1).
  eapply safe_bind; [eapply (Reserve_ok p2), (reserve_in_range p2); [exact Hp2|exact Hp2| |done|done]|].
  { rewrite Elow. by apply low_watermark_range. }
  intros p3 (Hp3 & Hn3 & Hpol3 & Hix3).
  assert (streaming p p3 volume) as Hst3 by (unfold streaming; rewrite Hpol3; cbn; unfold cold; rewrite Hpol1; done).
  eapply safe_bind; [apply (ForEachEntryUntil_ok volume (low_watermark p2) c p3 (without volume g) 0 false Hp3)|].
  { apply (budget_no_growth p2); [|exact Hn3]. apply (budget_no_growth p1); [|unfold no_growth; cbn; lia]. by apply (budget_no_growth (set_enforcing p false)). }
  { by rewrite Hix3. }
  intros [streamed [[p4 n4] fv4]] (Hpol4 & Hv4 & (g4 & Hg4 & Hother) & Hdone).
  assert (streaming p p4 volume) as Hst4 by (unfold streaming; by rewrite Hpol4).
  destruct (negb streamed || _) eqn:Efail.
  - pose proof (reloaded_fail p g volume p4 g4 Hst4 Hg4) as Hfail.
    eapply safe_bind; [apply Hfail|].
    { intros k Hk. rewrite Hother by done. by rewrite lookup_without, decide_False. }
    intros p5 Hr5. eapply safe_mono; [apply (enforce_after _ _ _ _ _ _ _ (fun _ => false) Hr5)|].
    intros [b p'] (g' & Hg' & Hs & ->). eexists _, _, g'. split; [done|]. split; [exact Hs|]. right. by split.
  - apply orb_false_iff in Efail as [->%negb_false_iff [-> _]%orb_false_iff].
    destruct (Hdone eq_refl eq_refl) as [Hcomp Hg5]. pose proof (reloaded_done p g volume p4 (delivered c) Hst4 Hg5 Hv4) as Hok.
    destruct (CompactEntriesForIterationOrder p4) as [q| |]; cbn [bind] in *; [|done|done].
    eapply safe_bind; [exact Hok|]. intros p5 Hr5.
    eapply safe_mono; [apply (enforce_after _ _ _ _ _ _ _ (fun q => negb (NeedsReload q volume)) Hr5)|].
    intros [b p'] (g' & Hg' & Hs & ->). eexists _, _, g'. split; [done|]. split; [exact Hs|]. left. by split.
Qed.
End rebuilding.

(** ** Properties *)

(** [g] agrees with [truth] at [k], or misses it because the volume is cold. *)
Definition hot_at (truth : Records) (p : Projection) (g : Records) (k : EntryKey) : Prop :=
  (g !! k = None \/ g !! k = truth !! k) /\ (volumeRowId k ∉ cold p -> g !! k = truth !! k).

Lemma hot_complete_iff truth p g : hot_complete truth p g <-> forall k, hot_at truth p g k.
Proof.
  split.
  - intros [Hsub Hhot] k. split; [|apply Hhot]. destruct (g !! k) eqn:E; [right|by left]. symmetry. by eapply lookup_weaken.
  - intros H. split; [|intros k; apply H]. apply map_subseteq_spec. intros k r Hk. destruct (H k) as [[?|E] _]; congruence.
Qed.

Lemma reloaded_hot CSO truth p g volume records volumes p1 g1 :
  reloaded CSO p g volume records volumes p1 g1 ->
  (forall k, volumeRowId k <> volume -> hot_at truth p g k) ->
  (forall v, v <> volume -> v ∈ cold p -> v ∈ volumes) ->
  (forall k, volumeRowId k = volume -> records !! k = None /\ volume ∈ volumes \/ records !! k = truth !! k) ->
  hot_complete truth p1 g1.
Proof.
  intros Hr Hhot Hcold Hvol. apply hot_complete_iff. intros k. unfold hot_at. rewrite (rl_cold _ _ _ _ _ _ _ _ Hr).
  destruct (decide (volumeRowId k = volume)) as [Hv|Hv].
  - rewrite (rl_volume _ _ _ _ _ _ _ _ Hr k Hv). destruct (Hvol k Hv) as [[-> Hin]|E]; [|by auto].
    split; [by left|]. intros Hn. by rewrite Hv in Hn.
  - rewrite (rl_other _ _ _ _ _ _ _ _ Hr k Hv). destruct (Hhot k Hv) as [H1 H2]. split; [done|].
    intros Hn. apply H2. intros Hc. by apply Hn, Hcold.
Qed.

Lemma RebuildVolumeFromStore_hot CSO estimate sizeofEntry p g truth c volume expected :
  refines CSO p g -> (forall k, volumeRowId k <> volume -> hot_at truth p g k) ->
  (completed c = true -> forall k, volumeRowId k = volume -> truth !! k = stream_records volume ∅ (delivered c) !! k) ->
  budget p (record_chars (delivered c)) (zlen (delivered c)) ->
  0 <= maximumMemoryBytes_ (policy p) <= UINT64_MAX -> 0 <= expected -> 16 <= sizeofEntry ->
  safe (RebuildVolumeFromStore CSO estimate sizeofEntry p c volume expected) (fun '(b, p') => exists g',
    refines CSO p' g' /\ hot_complete truth p' g' /\ (b = true <-> volume ∉ cold p') /\
    (b = true -> completed c = true) /\ enforcingMemoryLimit_ (policy p') = enforcingMemoryLimit_ (policy p)).
Proof.
  intros Hp Hhot Hdur Hb Hmax Hexp Hsize. eapply safe_mono; [by apply RebuildVolumeFromStore_ok|].
  intros [b p'] (p1 & g1 & g' & Hg' & Hs & Hcase). exists g'. split; [done|].
  destruct Hcase as [(Hcomp & -> & Hr)|(-> & Hr)].
  - assert (hot_complete truth p1 g1) as H1.
    { eapply reloaded_hot; [exact Hr|exact Hhot|set_solver|]. intros k Hk. right. by rewrite Hdur. }
    split; [by eapply hot_complete_shrinks|]. unfold NeedsReload. rewrite negb_true_iff, bool_decide_eq_false.
    split; [done|]. split; [done|]. rewrite (sh_enforcing _ _ _ _ Hs). apply Hr.
  - assert (hot_complete truth p1 g1) as H1.
    { eapply reloaded_hot; [exact Hr|exact Hhot|set_solver|]. intros k Hk. left. rewrite lookup_empty. set_solver. }
    split; [by eapply hot_complete_shrinks|]. split; [|split; [done|rewrite (sh_enforcing _ _ _ _ Hs); apply Hr]].
    split; [done|]. intros Hn. exfalso. apply Hn, (sh_cold _ _ _ _ Hs). rewrite (rl_cold _ _ _ _ _ _ _ _ Hr). set_solver.
Qed.

(** C15. Rebuilding a volume from the durable store, whatever the size estimates answer and even
    when the stream fails or is cut off at the memory watermark, ends without a fault, and
    afterwards every volume that is not marked cold has exactly its durable records.  It
    returns true exactly when the volume is hot afterwards, which needs a completed stream,
    and it puts the enforcing flag back. *)
Theorem RebuildVolumeFromStore_hot_or_cold CSO estimate sizeofEntry p g truth c volume expected :
  refines CSO p g -> (forall k, volumeRowId k <> volume -> hot_at truth p g k) ->
  (completed c = true -> forall k, volumeRowId k = volume -> truth !! k = stream_records volume ∅ (delivered c) !! k) ->
  budget p (record_chars (delivered c)) (zlen (delivered c)) ->
  0 <= maximumMemoryBytes_ (policy p) <= UINT64_MAX -> 0 <= expected -> 16 <= sizeofEntry ->
  safe (RebuildVolumeFromStore CSO estimate sizeofEntry p c volume expected) (fun '(b, p') => exists g',
    refines CSO p' g' /\ hot_complete truth p' g' /\ (b = true <-> volume ∉ cold p') /\
    (b = true -> completed c = true) /\ enforcingMemoryLimit_ (policy p') = enforcingMemoryLimit_ (policy p)).
Proof. apply RebuildVolumeFromStore_hot. Qed.

(** A cold volume 1 beside a hot volume 2, and the durable rows of volume 1. *)
Definition sample_cold : Projection :=
  set_cold (run_sample [OpUpsert 2 (sample_record 5 5 16 [68; 58]); OpUpsert 2 (sample_record 9 5 0 [120])]) {[1]}.

Definition sample_hot_records : Records :=
  sample_map [OpUpsert 2 (sample_record 5 5 16 [68; 58]); OpUpsert 2 (sample_record 9 5 0 [120])].

Definition sample_rows : list EntryRecord :=
  [sample_record 5 5 16 [67; 58]; sample_record 30 5 16 [68]; sample_record 31 30 0 [102]].

Definition sample_truth : Records := stream_records 1 sample_hot_records sample_rows.

Lemma sample_cold_refines : refines ascii_ordinal sample_cold sample_hot_records.
Proof. apply refines_cold, run_sample_refines; [vm_compute; reflexivity|vm_compute; discriminate..]. Qed.

Lemma sample_truth_other k : volumeRowId k <> 1 -> hot_at sample_truth sample_cold sample_hot_records k.
Proof. intros Hk. unfold hot_at, sample_truth. rewrite stream_records_other by done. auto. Qed.

Lemma sample_truth_volume k : volumeRowId k = 1 -> sample_truth !! k = stream_records 1 ∅ sample_rows !! k.
Proof.
  intros Hk. apply stream_records_ext. unfold sample_hot_records, sample_map. cbn [foldl spec_proj_op].
  rewrite !lookup_insert_ne; [done|intros <-; discriminate..].
Qed.

Lemma RebuildVolumeFromStore_hot_or_cold_witness :
  match RebuildVolumeFromStore ascii_ordinal sample_estimate 120 sample_cold (mkCursor true sample_rows true) 1 3 with
  | Ok (b, p') => b = true /\ EntryCount p' = 5
  | _ => False
  end /\
  match RebuildVolumeFromStore ascii_ordinal sample_estimate 120 sample_cold (mkCursor true (take 2 sample_rows) false) 1 3 with
  | Ok (b, p') => b = false /\ EntryCount p' = 2
  | _ => False
  end /\
  safe (RebuildVolumeFromStore ascii_ordinal sample_estimate 120 sample_cold (mkCursor true sample_rows true) 1 3)
    (fun '(b, p') => exists g', refines ascii_ordinal p' g' /\ hot_complete sample_truth p' g').
Proof.
  split; [vm_compute; done|]. split; [vm_compute; done|].
  eapply safe_mono; [apply (RebuildVolumeFromStore_hot_or_cold ascii_ordinal sample_estimate 120 sample_cold sample_hot_records
    sample_truth (mkCursor true sample_rows true) 1 3 sample_cold_refines sample_truth_other)|].
  - intros _. apply sample_truth_volume.
  - vm_compute. split; [|split]; discriminate.
  - vm_compute. split; discriminate.
  - lia.
  - lia.
  - intros [b p'] (g' & ? & ? & _). by exists g'.
Defined.

Lemma refines_count_reload CSO p g n m : refines CSO p g -> refines CSO (count_reload p n m) g.
Proof. intros (names & st & [Ht Hi] & ->). exists names, st. split; [by split|done]. Qed.

(** Reloading a volume before it is served: the result is true exactly when the volume is hot
    afterwards (at once when it already was), and then all its durable records are resident;
    a missing volume, a failed stream or a volume that does not fit leaves it cold, and in every
    case the volumes that are not marked cold stay complete. *)
Theorem ReloadEvictedVolume_hot_iff_true CSO estimate sizeofEntry p g truth store volume :
  refines CSO p g -> hot_complete truth p g ->
  (completed (store volume).2 = true -> forall k, volumeRowId k = volume ->
     truth !! k = stream_records volume ∅ (delivered (store volume).2) !! k) ->
  (forall n, (store volume).1 = Some n -> 0 <= n) ->
  budget p (record_chars (delivered (store volume).2)) (zlen (delivered (store volume).2)) ->
  0 <= maximumMemoryBytes_ (policy p) <= UINT64_MAX -> 16 <= sizeofEntry ->
  safe (ReloadEvictedVolume CSO estimate sizeofEntry p store volume) (fun '(b, p') => exists g',
    refines CSO p' g' /\ hot_complete truth p' g' /\ (b = true <-> volume ∉ cold p')).
Proof.
  intros Hp Hhot Hdur Hn Hb Hmax Hsize. unfold ReloadEvictedVolume. unfold NeedsReload at 1. fold (cold p).
  destruct (bool_decide_reflect (volume ∈ cold p)) as [Hc|Hc]; cbn [negb]; [|by cbn [safe]; exists g].
  cbn zeta. destruct ((store volume).1) as [n|] eqn:Es.
  - eapply safe_bind; [apply (RebuildVolumeFromStore_hot CSO estimate sizeofEntry (count_reload p 1 0) g truth)|]; try done.
    + by apply refines_count_reload.
    + intros k _. by apply (proj1 (hot_complete_iff truth p g)).
    + by apply Hn.
    + intros [b p'] (g' & Hg' & Hhot' & Hbc & _). cbn [safe]. exists g'.
      assert (b && negb (NeedsReload p' volume) = b) as E.
      { destruct b; [|done]. unfold NeedsReload. rewrite bool_decide_eq_false_2; [done|]. by apply Hbc. }
      rewrite E. destruct b; [done|]. split; [by apply refines_count_reload|]. done.
  - cbn [safe]. exists g. split; [by apply refines_count_reload, refines_count_reload|]. split; [done|]. by split.
Qed.

Lemma ReloadEvictedVolume_hot_iff_true_witness :
  match ReloadEvictedVolume ascii_ordinal sample_estimate 120 sample_cold (fun _ => (Some 3, mkCursor true sample_rows true)) 1 with
  | Ok (b, p') => b = true /\ EntryCount p' = 5 /\ coldReloadCount_ (policy p') = 1
  | _ => False
  end /\
  safe (ReloadEvictedVolume ascii_ordinal sample_estimate 120 sample_cold (fun _ => (Some 3, mkCursor true sample_rows true)) 1)
    (fun '(b, p') => exists g', refines ascii_ordinal p' g' /\ hot_complete sample_truth p' g').
Proof.
  split; [vm_compute; done|].
  eapply safe_mono; [apply (ReloadEvictedVolume_hot_iff_true ascii_ordinal sample_estimate 120 sample_cold sample_hot_records
    sample_truth (fun _ => (Some 3, mkCursor true sample_rows true)) 1 sample_cold_refines)|].
  - apply hot_complete_iff. intros k. destruct (decide (volumeRowId k = 1)) as [Hk|Hk]; [|by apply sample_truth_other].
    split; [left|intros Hn; exfalso; apply Hn; rewrite Hk; vm_compute; reflexivity]. unfold sample_hot_records, sample_map. cbn [foldl spec_proj_op].
    rewrite !lookup_insert_ne; [done|intros <-; discriminate..].
  - intros _. apply sample_truth_volume.
  - intros n [= <-]. lia.
  - vm_compute. split; [|split]; discriminate.
  - vm_compute. split; discriminate.
  - lia.
  - intros [b p'] (g' & ? & ? & _). by exists g'.
Defined.
