(* ===== verification/Sql.v ===== *)
(** * Sql: a connection whose calls can fail

    The durable store reaches its tables through SQLite, which is not part of the program:
    every call may fail.  [Sqlite] is what the store knows of it: whether its n-th call
    succeeds, after how many rows a query breaks off, in which order it delivers rows, and
    which unused row id an insert takes.  [Sql A] is a computation over a connection; a
    statement that fails changes nothing, and [transaction] is the
    [BEGIN] .. [COMMIT]/[ROLLBACK] frame that the operations of [Store.cpp] share.

    [wp m Q t]: run from the tables [t], whatever succeeds or fails, [m] ends with a result
    and tables that satisfy [Q]. *)

From stdpp Require Import gmap.
From S2P Require Import Prelude.

Class Sqlite := {
  succeeds : nat -> bool;
  breaks_off : nat -> option nat;
  delivery {A : Type} : nat -> list A -> list A;
  delivery_perm {A : Type} n (l : list A) : delivery n l ≡ₚ l;
  new_rowid : gset Z -> Z;
  new_rowid_fresh s : new_rowid s ∉ s
}.

(** [opened]: [db_ != nullptr].  [calls] counts the calls made so far. *)
Record Connection (T : Type) := mkConnection { opened : bool; tables : T; calls : nat }.
Arguments mkConnection {T}.
Arguments opened {T}.
Arguments tables {T}.
Arguments calls {T}.

Definition Sql (T A : Type) : Type := Connection T -> A * Connection T.

Definition sql_ret {T A} (a : A) : Sql T A := fun c => (a, c).

Definition sql_bind {T A B} (m : Sql T A) (k : A -> Sql T B) : Sql T B :=
  fun c => let '(a, c) := m c in k a c.

Declare Scope sql_scope.
Delimit Scope sql_scope with sql.
#[global] Open Scope sql_scope.

Notation "'let!' x := e 'in' k" := (sql_bind e (fun x => k))
  (at level 200, x name, e at level 200, k at level 200, right associativity) : sql_scope.
Notation "'let!' ' p := e 'in' k" := (sql_bind e (fun x => match x with p => k end))
  (at level 200, p pattern, e at level 200, k at level 200, right associativity) : sql_scope.

Section calls.
Context {DB : Sqlite} {T : Type}.

(** A call that leaves the tables alone: preparing a statement, [BEGIN], [COMMIT]. *)
Definition call : Sql T bool :=
  fun c => (succeeds (calls c), mkConnection (opened c) (tables c) (S (calls c))).

(** Every statement of a group is prepared, then all are checked. *)
Fixpoint prepare (n : nat) : Sql T bool :=
  match n with
  | O => sql_ret true
  | S n => let! valid := call in let! rest := prepare n in sql_ret (valid && rest)
  end.

Definition get_tables : Sql T T := fun c => (tables c, c).
Definition put_tables (t : T) : Sql T unit := fun c => (tt, mkConnection (opened c) t (calls c)).

(** One step of a statement that changes the tables; [None] is a violated constraint. *)
Definition exec (f : T -> option T) : Sql T bool :=
  let! ok := call in
  let! t := get_tables in
  match (if ok then f t else None) with
  | Some t' => let! _ := put_tables t' in sql_ret true
  | None => sql_ret false
  end.

(** One step of a query: [None] when it failed. *)
Definition query {A} (f : T -> A) : Sql T (option A) :=
  let! ok := call in
  let! t := get_tables in
  sql_ret (if ok then Some (f t) else None).

(** The rows a query delivers before it ends, and whether it ended with [SQLITE_DONE]. *)
Definition query_rows {A} (f : T -> list A) : Sql T (list A * bool) :=
  fun c =>
    let rows := delivery (calls c) (f (tables c)) in
    (match breaks_off (calls c) with Some n => (take n rows, false) | None => (rows, true) end,
     mkConnection (opened c) (tables c) (S (calls c))).

(** The same for a query with an [ORDER BY] that leaves no choice. *)
Definition query_ordered {A} (f : T -> list A) : Sql T (list A * bool) :=
  fun c =>
    (match breaks_off (calls c) with Some n => (take n (f (tables c)), false) | None => (f (tables c), true) end,
     mkConnection (opened c) (tables c) (S (calls c))).

Definition when_open {A} (otherwise : A) (m : Sql T A) : Sql T A :=
  fun c => if opened c then m c else (otherwise, c).

(** The body's changes become visible together or not at all. *)
Definition transaction (body : Sql T bool) : Sql T bool :=
  let! begun := call in
  if negb begun then sql_ret false
  else
    let! saved := get_tables in
    let! ok := body in
    let! committed := if ok then call else sql_ret false in
    if committed then sql_ret true
    else let! _ := call in let! _ := put_tables saved in sql_ret false.

(** ** Reasoning *)

Definition wp {A} (m : Sql T A) (Q : A -> T -> Prop) (t : T) : Prop :=
  forall c, tables c = t -> opened c = true -> let '(a, c') := m c in Q a (tables c') /\ opened c' = true.

Lemma wp_ret {A} (a : A) (Q : A -> T -> Prop) t : Q a t -> wp (sql_ret a) Q t.
Proof. intros HQ c <- Ho. done. Qed.

Lemma wp_bind {A B} (m : Sql T A) (k : A -> Sql T B) (Q : B -> T -> Prop) t :
  wp m (fun a => wp (k a) Q) t -> wp (sql_bind m k) Q t.
Proof.
  intros H c Hc Ho. unfold sql_bind. specialize (H c Hc Ho). destruct (m c) as [a c']. destruct H as [H Ho'].
  by apply H.
Qed.

Lemma wp_mono {A} (m : Sql T A) (P Q : A -> T -> Prop) t :
  wp m P t -> (forall a t', P a t' -> Q a t') -> wp m Q t.
Proof. intros H HPQ c Hc Ho. specialize (H c Hc Ho). destruct (m c). destruct H. auto. Qed.

Lemma wp_and {A} (m : Sql T A) (P Q : A -> T -> Prop) t :
  wp m P t -> wp m Q t -> wp m (fun a t' => P a t' /\ Q a t') t.
Proof. intros HP HQ c Hc Ho. specialize (HP c Hc Ho). specialize (HQ c Hc Ho). destruct (m c). tauto. Qed.

Lemma wp_if {A} (b : bool) (m n : Sql T A) (Q : A -> T -> Prop) t :
  (b = true -> wp m Q t) -> (b = false -> wp n Q t) -> wp (if b then m else n) Q t.
Proof. destruct b; auto. Qed.

Lemma wp_call (Q : bool -> T -> Prop) t : Q true t -> Q false t -> wp call Q t.
Proof. intros H1 H2 c <- Ho. unfold call. cbn. by destruct (succeeds _). Qed.

Lemma wp_prepare n (Q : bool -> T -> Prop) t : Q true t -> Q false t -> wp (prepare n) Q t.
Proof.
  intros H1 H2. enough (forall Q : bool -> T -> Prop, (forall b, Q b t) -> wp (prepare n) Q t) as H by (apply H; by intros []).
  clear. induction n as [|n IH]; intros Q HQ; cbn [prepare]; [by apply wp_ret|].
  apply wp_bind, wp_call; (apply wp_bind, IH; intros b; by apply wp_ret).
Qed.

Lemma wp_get (Q : T -> T -> Prop) t : Q t t -> wp get_tables Q t.
Proof. intros HQ c <- Ho. done. Qed.

Lemma wp_put t' (Q : unit -> T -> Prop) t : Q tt t' -> wp (put_tables t') Q t.
Proof. intros HQ c <- Ho. done. Qed.

Lemma wp_exec f (Q : bool -> T -> Prop) t :
  (forall t', f t = Some t' -> Q true t') -> Q false t -> wp (exec f) Q t.
Proof.
  intros H1 H2. unfold exec. apply wp_bind, wp_call; apply wp_bind, wp_get; [|by apply wp_ret].
  destruct (f t) as [t'|]; [apply wp_bind, wp_put, wp_ret; auto|by apply wp_ret].
Qed.

Lemma wp_query {A} (f : T -> A) (Q : option A -> T -> Prop) t :
  Q (Some (f t)) t -> Q None t -> wp (query f) Q t.
Proof. intros H1 H2. unfold query. apply wp_bind, wp_call; by apply wp_bind, wp_get, wp_ret. Qed.

Lemma wp_query_rows {A} (f : T -> list A) (Q : list A * bool -> T -> Prop) t :
  (forall rows, rows ≡ₚ f t -> Q (rows, true) t) ->
  (forall rows, rows ⊆+ f t -> Q (rows, false) t) -> wp (query_rows f) Q t.
Proof.
  intros H1 H2 c <- Ho. unfold query_rows. destruct (breaks_off _) as [n|]; cbn; split; try done.
  - apply H2. rewrite <-(delivery_perm (calls c) (f (tables c))) at 2. apply submseteq_take.
  - apply H1, delivery_perm.
Qed.

Lemma wp_query_ordered {A} (f : T -> list A) (Q : list A * bool -> T -> Prop) t :
  Q (f t, true) t -> (forall n, Q (take n (f t), false) t) -> wp (query_ordered f) Q t.
Proof. intros H1 H2 c <- Ho. unfold query_ordered. by destruct (breaks_off _); cbn. Qed.

Lemma wp_when_open {A} (otherwise : A) (m : Sql T A) Q t : wp m Q t -> wp (when_open otherwise m) Q t.
Proof. intros H c Hc Ho. unfold when_open. rewrite Ho. by apply H. Qed.

(** A transaction that returns true has done what its body does; otherwise nothing. *)
Lemma wp_transaction body (Q : bool -> T -> Prop) t :
  wp body (fun ok t' => ok = true -> Q true t') t -> Q false t -> wp (transaction body) Q t.
Proof.
  intros Hb Hf. unfold transaction. apply wp_bind, wp_call; cbn [negb]; [|by apply wp_ret].
  apply wp_bind, wp_get, wp_bind. eapply wp_mono; [exact Hb|]. intros ok t' Hok.
  assert (wp (let! _ := call in let! _ := put_tables t in sql_ret false) Q t') as Hroll.
  { apply wp_bind, wp_call; by apply wp_bind, wp_put, wp_ret. }
  apply wp_bind. destruct ok; [|by apply wp_ret]. apply wp_call; [apply wp_ret; by apply Hok|exact Hroll].
Qed.
End calls.

(** One step of a symbolic execution that splits on every outcome. *)
Ltac wp_step :=
  lazymatch goal with
  | |- wp (sql_bind _ _) _ _ => apply wp_bind
  | |- wp (sql_ret _) _ _ => apply wp_ret
  | |- wp call _ _ => apply wp_call
  | |- wp (prepare _) _ _ => apply wp_prepare
  | |- wp get_tables _ _ => apply wp_get
  | |- wp (query _) _ _ => apply wp_query
  | |- wp (exec _) _ _ => apply wp_exec
  | |- wp (when_open _ _) _ _ => apply wp_when_open
  | |- wp (match ?x with _ => _ end) _ _ => let E := fresh "E" in destruct x eqn:E; try discriminate E
  | |- forall t', _ = Some t' -> _ => let t' := fresh "t" in let E := fresh "E" in
      intros t' E; repeat case_match; simplify_eq
  end.
