(* ===== verification/Store.v ===== *)
(** * Store: the durable index

    Models class [Store] of [src/src/indexstore/src/Store.cpp]: the tables [volumes] and
    [entries], the candidate index derived from the names ([entry_name_index_map],
    [entry_name_terms], [entry_name_exceptions], [entry_name_index_meta]) and the operations
    that read and change them, statement by statement, over the connection of [Sql].

    A column holds what SQLite stores: 64-bit integers are signed, a name is its bytes, an
    unknown allocated size is [NULL].  [entries] is keyed by its primary key, and
    [foreign_keys] is on: an entry of an unknown volume is refused.  [Durable] reads the
    table back as a map from entry keys to records.  Opening, migrating, checkpoints and
    [VACUUM] are not modelled, nor are the timings and the fault hooks of the tests. *)

From stdpp Require Import gmap sorting.
From S2P Require Import Prelude TextMatch Utf8 FlatHashMap ChildrenMap FilenameIndex Projection Rebuild Sql.

(** ** Tables *)

Definition RowKey : Type := Z * Z * Z.

Record EntryRow := mkEntryRow {
  parent_frn_low : Z;
  parent_frn_high : Z;
  row_name : list Z;
  size_bytes : Z;
  allocated_size_bytes : option Z;
  creation_time : Z;
  last_modified_time : Z;
  last_access_time : Z;
  row_attributes : Z
}.

Record VolumeRow := mkVolumeRow {
  volume_guid : list Z;
  serial_number : Z;
  available : Z;
  last_seen_time : Z;
  journal_id : option Z;
  resume_usn : Z;
  scan_cursor : option (list Z);
  scan_complete : Z;
  last_reconciliation_time : Z
}.

(** [sqlite_sequence] is the [AUTOINCREMENT] counter of [volumes]; [index_meta] the single row
    of [entry_name_index_meta]: its state and its fold signature. *)
Record Tables := mkTables {
  volumes : gmap Z VolumeRow;
  sqlite_sequence : Z;
  entries : gmap RowKey EntryRow;
  index_map : gmap RowKey Z;
  name_terms : gmap Z (list Z);
  name_exceptions : gset Z;
  index_meta : option (Z * Z)
}.

Definition set_entries (t : Tables) (e : gmap RowKey EntryRow) : Tables :=
  mkTables (volumes t) (sqlite_sequence t) e (index_map t) (name_terms t) (name_exceptions t) (index_meta t).
Definition set_volumes (t : Tables) (v : gmap Z VolumeRow) : Tables :=
  mkTables v (sqlite_sequence t) (entries t) (index_map t) (name_terms t) (name_exceptions t) (index_meta t).
Definition set_index_map (t : Tables) (m : gmap RowKey Z) : Tables :=
  mkTables (volumes t) (sqlite_sequence t) (entries t) m (name_terms t) (name_exceptions t) (index_meta t).
Definition set_terms (t : Tables) (n : gmap Z (list Z)) : Tables :=
  mkTables (volumes t) (sqlite_sequence t) (entries t) (index_map t) n (name_exceptions t) (index_meta t).
Definition set_exceptions (t : Tables) (x : gset Z) : Tables :=
  mkTables (volumes t) (sqlite_sequence t) (entries t) (index_map t) (name_terms t) x (index_meta t).
Definition set_meta (t : Tables) (m : option (Z * Z)) : Tables :=
  mkTables (volumes t) (sqlite_sequence t) (entries t) (index_map t) (name_terms t) (name_exceptions t) m.

Definition row_key (volume : Z) (id : FileId) : RowKey := (volume, to_signed64 (low id), to_signed64 (high id)).

(** [ReadFileId]. *)
Definition ReadFileId (lowColumn highColumn : Z) : FileId :=
  mkFileId (to_unsigned64 lowColumn) (to_unsigned64 highColumn).

Definition ReadEntryRecord (key : RowKey) (row : EntryRow) : EntryRecord := {|
  r_id := ReadFileId key.1.2 key.2;
  r_parentId := ReadFileId (parent_frn_low row) (parent_frn_high row);
  r_name := Utf8ToUtf16 (row_name row);
  r_sizeBytes := to_unsigned64 (size_bytes row);
  r_allocatedSizeBytes := match allocated_size_bytes row with Some n => to_unsigned64 n | None => 0 end;
  r_allocatedSizeKnown := match allocated_size_bytes row with Some _ => true | None => false end;
  r_creationTime := to_unsigned64 (creation_time row);
  r_lastModifiedTime := to_unsigned64 (last_modified_time row);
  r_lastAccessTime := to_unsigned64 (last_access_time row);
  r_attributes := wrap32 (row_attributes row)
|}.

(** ** Changes *)

Inductive EntryChangeKind := ChangeUpsert | ChangeRemove.

Record EntryChange := mkChange {
  change_kind : EntryChangeKind;
  change_record : EntryRecord;
  change_fields : Z
}.

(** The values bound to the [INSERT] arm: absent fields are zero, an absent or unknown
    allocated size is [NULL]. *)
Definition inserted_row (record : EntryRecord) (fields : Z) : EntryRow :=
  let pick (field value : Z) : Z := to_signed64 (if HasEntryField fields field then value else 0) in
  mkEntryRow (pick kEntryFieldParentId (low (r_parentId record))) (pick kEntryFieldParentId (high (r_parentId record)))
    (if HasEntryField fields kEntryFieldName then Utf16ToUtf8 (r_name record) else [])
    (pick kEntryFieldSizeBytes (r_sizeBytes record))
    (if HasEntryField fields kEntryFieldAllocatedSizeBytes && r_allocatedSizeKnown record
     then Some (to_signed64 (r_allocatedSizeBytes record)) else None)
    (pick kEntryFieldCreationTime (r_creationTime record)) (pick kEntryFieldLastModifiedTime (r_lastModifiedTime record))
    (pick kEntryFieldLastAccessTime (r_lastAccessTime record)) (pick kEntryFieldAttributes (r_attributes record)).

(** [ON CONFLICT .. DO UPDATE SET]: a column takes the new value when its bit of [mask] is set. *)
Definition updated_row (mask : Z) (excluded old : EntryRow) : EntryRow :=
  let when {A} (bit : Z) (column : EntryRow -> A) : A :=
    if negb (Z.land mask bit =? 0) then column excluded else column old in
  mkEntryRow (when 1 parent_frn_low) (when 1 parent_frn_high) (when 2 row_name) (when 4 size_bytes)
    (when 128 allocated_size_bytes) (when 8 creation_time) (when 16 last_modified_time)
    (when 32 last_access_time) (when 64 row_attributes).

Definition upsert_statement (volume : Z) (record : EntryRecord) (fields : Z) (t : Tables) : option Tables :=
  let key := row_key volume (r_id record) in
  let excluded := inserted_row record fields in
  match volumes t !! volume with
  | None => None
  | Some _ =>
      Some (set_entries t (<[key := match entries t !! key with
                                    | Some old => updated_row fields excluded old
                                    | None => excluded
                                    end]> (entries t)))
  end.

Definition remove_statement (volume : Z) (id : FileId) (t : Tables) : option Tables :=
  Some (set_entries t (delete (row_key volume id) (entries t))).

(** ** The candidate index *)

Definition FoldAsciiUtf8 (utf8 : list Z) : list Z :=
  map (fun ch => if (65 <=? ch) && (ch <=? 90) then ch + 32 else ch) utf8.

Section store.
Context {DB : Sqlite} (CompareStringOrdinal : list Z -> list Z -> Z).

(** [NameRequiresCandidateSideSet] of [FoldClassification.h]. *)
Definition NameRequiresCandidateSideSet (name : list Z) : bool :=
  existsb (may_fold_to_ascii CompareStringOrdinal) name.

(** Whether the lookup worked, and the row id, -1 when there is none. *)
Definition CandidateTermRowid (key : RowKey) : Sql Tables (bool * Z) :=
  let! found := query (fun t => index_map t !! key) in
  sql_ret (match found with
           | None => (false, -1)
           | Some None => (true, -1)
           | Some (Some rowid) => (true, rowid)
           end).

(** The row ids in use: the primary key of the map table. *)
Definition used_rowids (t : Tables) : gset Z := list_to_set ((map_to_list (index_map t)).*2).

Definition map_upsert_statement (key : RowKey) (t : Tables) : option Tables :=
  Some (match index_map t !! key with
        | Some _ => t
        | None => set_index_map t (<[key := new_rowid (used_rowids t)]> (index_map t))
        end).

Definition terms_update_statement (rowid : Z) (folded : list Z) (t : Tables) : option Tables :=
  Some (match name_terms t !! rowid with
        | Some _ => set_terms t (<[rowid := folded]> (name_terms t))
        | None => t
        end).

Definition terms_insert_statement (rowid : Z) (folded : list Z) (t : Tables) : option Tables :=
  match name_terms t !! rowid with
  | Some _ => None
  | None => Some (set_terms t (<[rowid := folded]> (name_terms t)))
  end.

(** The update, and the insert when [sqlite3_changes] says that it changed no row. *)
Definition store_term (rowid : Z) (folded : list Z) : Sql Tables bool :=
  let! before := get_tables in
  let! updated := exec (terms_update_statement rowid folded) in
  if negb updated then sql_ret false
  else match name_terms before !! rowid with
       | Some _ => sql_ret true
       | None => exec (terms_insert_statement rowid folded)
       end.

Definition CandidateIndexUpsert (key : RowKey) (nameUtf8 nameUtf16 : list Z) (updateName : bool) : Sql Tables bool :=
  let! mapped := exec (map_upsert_statement key) in
  if negb mapped then sql_ret false
  else
    let! '(found, termRowid) := CandidateTermRowid key in
    if negb found || (termRowid <? 0) then sql_ret false
    else if negb updateName then sql_ret true
    else
      let! stored := store_term termRowid (FoldAsciiUtf8 nameUtf8) in
      if negb stored then sql_ret false
      else
        let exceptional := NameRequiresCandidateSideSet nameUtf16 in
        let! marked := exec (fun t => Some (set_exceptions t ({[termRowid]} ∪ name_exceptions t))) in
        if negb marked then sql_ret false
        else if exceptional then sql_ret true
        else exec (fun t => Some (set_exceptions t (name_exceptions t ∖ {[termRowid]}))).

Definition CandidateIndexRemove (key : RowKey) : Sql Tables bool :=
  let! '(found, termRowid) := CandidateTermRowid key in
  if negb found then sql_ret false
  else if termRowid <? 0 then sql_ret true
  else
    let! ok := exec (fun t => Some (set_exceptions t (name_exceptions t ∖ {[termRowid]}))) in
    if negb ok then sql_ret false
    else
      let! ok := exec (fun t => Some (set_terms t (delete termRowid (name_terms t)))) in
      if negb ok then sql_ret false
      else exec (fun t => Some (set_index_map t (filter (fun kv => kv.2 <> termRowid) (index_map t)))).

(** ** Batches *)

Definition apply_change (volume : Z) (change : EntryChange) : Sql Tables bool :=
  let record := change_record change in
  match change_kind change with
  | ChangeUpsert =>
      let! ok := exec (upsert_statement volume record (change_fields change)) in
      if negb ok then sql_ret false
      else CandidateIndexUpsert (row_key volume (r_id record)) (Utf16ToUtf8 (r_name record)) (r_name record)
             (HasEntryField (change_fields change) kEntryFieldName)
  | ChangeRemove =>
      let! ok := exec (remove_statement volume (r_id record)) in
      if negb ok then sql_ret false
      else CandidateIndexRemove (row_key volume (r_id record))
  end.

(** The loop, which breaks at the first failure. *)
Fixpoint apply_changes (volume : Z) (changes : list EntryChange) : Sql Tables bool :=
  match changes with
  | [] => sql_ret true
  | change :: rest =>
      let! ok := apply_change volume change in
      if negb ok then sql_ret false else apply_changes volume rest
  end.

Definition ApplyBatch (volume : Z) (changes : list EntryChange) : Sql Tables bool :=
  when_open false
    match changes with
    | [] => sql_ret true
    | _ :: _ =>
        transaction
          (let! valid := prepare 2 in
           if negb valid then sql_ret false
           else
             let! valid := prepare 8 in
             if negb valid then sql_ret false else apply_changes volume changes)
    end.

(** ** Forgetting a volume *)

(** The loop that deletes the terms of the row ids. *)
Fixpoint clear_terms (rowids : list Z) : Sql Tables bool :=
  match rowids with
  | [] => sql_ret true
  | rowid :: rest =>
      let! valid := call in
      if negb valid then sql_ret false
      else
        let! ok := exec (fun t => Some (set_terms t (delete rowid (name_terms t)))) in
        if negb ok then sql_ret false else clear_terms rest
  end.

Definition volume_rowids (volume : Z) (t : Tables) : list Z :=
  (map_to_list (filter (fun kv => kv.1.1.1 = volume) (index_map t))).*2.

Definition CandidateIndexRemoveVolume (volume : Z) : Sql Tables bool :=
  let! valid := call in
  if negb valid then sql_ret false
  else
    let! '(rowids, done) := query_rows (volume_rowids volume) in
    if negb done then sql_ret false
    else
      let! ok := clear_terms rowids in
      if negb ok then sql_ret false
      else
        let! valid := call in
        if negb valid then sql_ret false
        else
          let! ok := exec (fun t => Some (set_exceptions t (name_exceptions t ∖ list_to_set (volume_rowids volume t)))) in
          if negb ok then sql_ret false
          else
            let! valid := call in
            if negb valid then sql_ret false
            else exec (fun t => Some (set_index_map t (filter (fun kv => kv.1.1.1 <> volume) (index_map t)))).

(** [DELETE FROM volumes] is refused while entries refer to the volume. *)
Definition delete_volume_statement (volume : Z) (t : Tables) : option Tables :=
  if bool_decide (map_Forall (fun key _ => key.1.1 <> volume) (entries t))
  then Some (set_volumes t (delete volume (volumes t))) else None.

Definition ForgetVolume (volume : Z) : Sql Tables bool :=
  when_open false
    (transaction
       (let! valid := call in
        if negb valid then sql_ret false
        else
          let! row := query (fun t => volumes t !! volume) in
          match row with
          | Some (Some v) =>
              if negb (available v =? 0) then sql_ret false
              else
                let! valid := call in
                if negb valid then sql_ret false
                else
                  let! ok := exec (fun t => Some (set_entries t (filter (fun kv => kv.1.1.1 <> volume) (entries t)))) in
                  if negb ok then sql_ret false
                  else
                    let! ok := CandidateIndexRemoveVolume volume in
                    if negb ok then sql_ret false
                    else
                      let! valid := call in
                      if negb valid then sql_ret false else exec (delete_volume_statement volume)
          | _ => sql_ret false
          end)).

(** ** Volumes *)

Record VolumeKey := mkVolumeKey { volumeGuid : list Z; serialNumber : Z }.

Definition has_key (key : VolumeKey) (v : VolumeRow) : bool :=
  bool_decide (volume_guid v = volumeGuid key) && (serial_number v =? serialNumber key).

(** [SELECT id FROM volumes WHERE volume_guid=? AND serial_number=?], at most one row. *)
Definition find_volume (key : VolumeKey) (t : Tables) : option Z :=
  fst <$> List.find (fun kv => has_key key kv.2) (map_to_list (volumes t)).

Definition new_volume_row (key : VolumeKey) : VolumeRow :=
  mkVolumeRow (volumeGuid key) (serialNumber key) 1 0 None 0 None 0 0.

(** [AUTOINCREMENT] never gives out an id twice; [UNIQUE (volume_guid, serial_number)]. *)
Definition insert_volume_statement (key : VolumeKey) (t : Tables) : option Tables :=
  match find_volume key t with
  | Some _ => None
  | None =>
      let id := sqlite_sequence t + 1 in
      Some (mkTables (<[id := new_volume_row key]> (volumes t)) id (entries t) (index_map t) (name_terms t)
              (name_exceptions t) (index_meta t))
  end.

(** The row id, and [*outCreated]. *)
Definition GetOrCreateVolume (key : VolumeKey) : Sql Tables (option Z * bool) :=
  when_open (None, false)
    (let! valid := call in
     if negb valid then sql_ret (None, false)
     else
       let! found := query (find_volume key) in
       match found with
       | Some (Some id) => sql_ret (Some id, false)
       | _ =>
           let! valid := call in
           if negb valid then sql_ret (None, false)
           else
             let! inserted := exec (insert_volume_statement key) in
             if negb inserted then sql_ret (None, false)
             else let! t := get_tables in sql_ret (Some (sqlite_sequence t), true)
       end).

(** [UPDATE volumes SET .. WHERE id=?] succeeds also when there is no such row. *)
Definition update_volume (volume : Z) (f : VolumeRow -> VolumeRow) : Sql Tables bool :=
  when_open false
    (let! valid := call in
     if negb valid then sql_ret false
     else exec (fun t => Some (set_volumes t (alter f volume (volumes t))))).

(** The result, and [*outVisibilityChanged]. *)
Definition SetVolumeAvailable (volume : Z) (isAvailable : bool) (now : Z) : Sql Tables (bool * bool) :=
  when_open (false, false)
    (let! valid := call in
     if negb valid then sql_ret (false, false)
     else
       let! current := query (fun t => volumes t !! volume) in
       match current with
       | Some (Some v) =>
           let changed := negb (bool_decide (negb (available v =? 0) = isAvailable)) in
           let! ok := update_volume volume (fun v =>
             mkVolumeRow (volume_guid v) (serial_number v) (if isAvailable then 1 else 0) (to_signed64 now) (journal_id v)
               (resume_usn v) (scan_cursor v) (scan_complete v) (last_reconciliation_time v)) in
           sql_ret (ok, changed)
       | _ => sql_ret (false, false)
       end).

Definition SetJournalPosition (volume journalId resumeUsn : Z) : Sql Tables bool :=
  update_volume volume (fun v =>
    mkVolumeRow (volume_guid v) (serial_number v) (available v) (last_seen_time v) (Some (to_signed64 journalId))
      (to_signed64 resumeUsn) (scan_cursor v) (scan_complete v) (last_reconciliation_time v)).

Definition SetScanCursor (volume : Z) (cursor : list Z) : Sql Tables bool :=
  update_volume volume (fun v =>
    mkVolumeRow (volume_guid v) (serial_number v) (available v) (last_seen_time v) (journal_id v) (resume_usn v)
      (match cursor with [] => None | _ :: _ => Some cursor end) (scan_complete v) (last_reconciliation_time v)).

Definition MarkScanComplete (volume : Z) : Sql Tables bool :=
  update_volume volume (fun v =>
    mkVolumeRow (volume_guid v) (serial_number v) (available v) (last_seen_time v) (journal_id v) (resume_usn v)
      None 1 (last_reconciliation_time v)).

Definition SetLastReconciliationTime (volume now : Z) : Sql Tables bool :=
  update_volume volume (fun v =>
    mkVolumeRow (volume_guid v) (serial_number v) (available v) (last_seen_time v) (journal_id v) (resume_usn v)
      (scan_cursor v) (scan_complete v) (to_signed64 now)).

(** ** Reading *)

Definition volume_rows (volume : Z) (t : Tables) : list (RowKey * EntryRow) :=
  map_to_list (filter (fun kv => kv.1.1.1 = volume) (entries t)).

Definition CountEntries (volume : Z) : Sql Tables Z :=
  when_open 0
    (let! valid := call in
     if negb valid then sql_ret 0
     else let! n := query (fun t => zlen (volume_rows volume t)) in sql_ret (default 0 n)).

(** The statement behind [ForEachEntry] and [ForEachEntryUntil]. *)
Definition SelectEntries (volume : Z) : Sql Tables Cursor :=
  when_open (mkCursor false [] false)
    (let! valid := call in
     if negb valid then sql_ret (mkCursor false [] false)
     else
       let! '(rows, finished) := query_rows (volume_rows volume) in
       sql_ret (mkCursor true ((fun kv => ReadEntryRecord kv.1 kv.2) <$> rows) finished)).

(** The ids, and [*outSuccess]. *)
Definition ListEntryIds (volume : Z) : Sql Tables (list FileId * bool) :=
  when_open ([], false)
    (let! valid := call in
     if negb valid then sql_ret ([], false)
     else
       let! '(rows, finished) := query_rows (volume_rows volume) in
       sql_ret ((fun kv => ReadFileId kv.1.1.2 kv.1.2) <$> rows, finished)).

Definition FindEntry (volume : Z) (id : FileId) : Sql Tables (option EntryRecord) :=
  when_open None
    (let! valid := call in
     if negb valid then sql_ret None
     else
       let! row := query (fun t => entries t !! row_key volume id) in
       sql_ret (match row with Some (Some r) => Some (ReadEntryRecord (row_key volume id) r) | _ => None end)).

Record VolumeMetadata := mkVolumeMetadata {
  meta_rowId : Z;
  meta_key : VolumeKey;
  meta_available : bool;
  meta_lastSeenTime : Z;
  meta_journalId : option Z;
  meta_resumeUsn : Z;
  meta_scanCursor : list Z;
  meta_scanComplete : bool;
  meta_entryCount : Z;
  meta_lastReconciliationTime : Z
}.

(** A guid of the wrong length reads as zeros; the entry count is filled in later. *)
Definition ReadVolumeMetadataRow (id : Z) (v : VolumeRow) : VolumeMetadata :=
  mkVolumeMetadata id
    (mkVolumeKey (if (length (volume_guid v) =? 16)%nat then volume_guid v else replicate 16 0) (wrap32 (serial_number v)))
    (negb (available v =? 0)) (to_unsigned64 (last_seen_time v)) (to_unsigned64 <$> journal_id v)
    (to_unsigned64 (resume_usn v)) (default [] (scan_cursor v)) (negb (scan_complete v =? 0)) 0
    (to_unsigned64 (last_reconciliation_time v)).

Definition with_entry_count (meta : VolumeMetadata) (n : Z) : VolumeMetadata :=
  mkVolumeMetadata (meta_rowId meta) (meta_key meta) (meta_available meta) (meta_lastSeenTime meta) (meta_journalId meta)
    (meta_resumeUsn meta) (meta_scanCursor meta) (meta_scanComplete meta) n (meta_lastReconciliationTime meta).

Definition GetVolumeMetadata (volume : Z) : Sql Tables (option VolumeMetadata) :=
  when_open None
    (let! valid := call in
     if negb valid then sql_ret None
     else
       let! row := query (fun t => volumes t !! volume) in
       match row with
       | Some (Some v) =>
           let! n := CountEntries volume in
           sql_ret (Some (with_entry_count (ReadVolumeMetadataRow volume v) n))
       | _ => sql_ret None
       end).

Fixpoint count_volumes (metas : list VolumeMetadata) : Sql Tables (list VolumeMetadata) :=
  match metas with
  | [] => sql_ret []
  | meta :: rest =>
      let! n := CountEntries (meta_rowId meta) in
      let! rest := count_volumes rest in
      sql_ret (with_entry_count meta n :: rest)
  end.

(** [ORDER BY id]; a step that fails ends the loop like the last row does. *)
Definition id_order (a b : Z * VolumeRow) : Prop := a.1 <= b.1.

#[local] Instance id_order_dec a b : Decision (id_order a b).
Proof. apply Z_le_dec. Defined.

Definition ordered_volumes (t : Tables) : list VolumeMetadata :=
  (fun kv => ReadVolumeMetadataRow kv.1 kv.2) <$> merge_sort id_order (map_to_list (volumes t)).

Definition GetAllVolumesImpl (includeEntryCounts : bool) : Sql Tables (list VolumeMetadata) :=
  when_open []
    (let! valid := call in
     if negb valid then sql_ret []
     else
       let! '(metas, _) := query_ordered ordered_volumes in
       if includeEntryCounts then count_volumes metas else sql_ret metas).

(** ** Rebuilding the candidate index *)

(** What the probe cache holds for a unit once every unit has been probed: the ASCII units and
    the surrogates are never probed. *)
Definition fold_verdict (unit : Z) : Z :=
  if (unit <=? 127) || ((55296 <=? unit) && (unit <=? 57343)) then 0
  else if probe_ascii CompareStringOrdinal unit then 2 else 1.

(** FNV-1a over the verdicts. *)
Definition HostFoldSignature : Z :=
  foldl (fun hash unit => mul64 (Z.lxor hash (fold_verdict unit)) 1099511628211) 1469598103934665603 (seqZ 0 65536).

Definition clear_index_statements : list (Tables -> option Tables) :=
  [ (fun t => Some (set_exceptions t ∅)); (fun t => Some (set_terms t ∅)); (fun t => Some (set_index_map t ∅));
    (fun t => Some (set_meta t None)); (fun t => Some (set_meta t (Some (0, 0)))) ].

(** Statements one after the other, up to the first that fails. *)
Fixpoint exec_all (statements : list (Tables -> option Tables)) : Sql Tables bool :=
  match statements with
  | [] => sql_ret true
  | f :: rest => let! ok := exec f in if negb ok then sql_ret false else exec_all rest
  end.

Fixpoint index_rows (rows : list (RowKey * EntryRow)) : Sql Tables bool :=
  match rows with
  | [] => sql_ret true
  | (key, row) :: rest =>
      let! ok := CandidateIndexUpsert key (row_name row) (Utf8ToUtf16 (row_name row)) true in
      if negb ok then sql_ret false else index_rows rest
  end.

Definition rebuild_volume_index (volume : Z) : Sql Tables bool :=
  let! valid := prepare 8 in
  if negb valid then sql_ret false
  else
    transaction
      (let! valid := call in
       if negb valid then sql_ret false
       else
         let! '(rows, finished) := query_rows (volume_rows volume) in
         let! ok := index_rows rows in
         sql_ret (ok && finished)).

Fixpoint rebuild_volumes_index (ids : list Z) : Sql Tables bool :=
  match ids with
  | [] => sql_ret true
  | volume :: rest =>
      let! ok := rebuild_volume_index volume in
      if negb ok then sql_ret false else rebuild_volumes_index rest
  end.

(** The ready marker is set only when every entry is mapped. *)
Definition mark_ready (signature : Z) : Sql Tables bool :=
  transaction
    (let! valid := call in
     if negb valid then sql_ret false
     else
       let! complete := query (fun t => (size (index_map t) =? size (entries t))%nat) in
       match complete with
       | Some true =>
           let! valid := call in
           if negb valid then sql_ret false
           else exec (fun t => Some (set_meta t ((fun _ => (1, to_signed64 signature)) <$> index_meta t)))
       | _ => sql_ret false
       end).

(** The rebuild, with the signature the marker records. *)
Definition rebuild_candidate_index (signature : Z) : Sql Tables bool :=
  let! ok := transaction (exec_all clear_index_statements) in
  if negb ok then sql_ret false
  else
    let! valid := call in
    if negb valid then sql_ret false
    else
      let! '(ids, finished) := query_rows (fun t => (map_to_list (volumes t)).*1) in
      if negb finished then sql_ret false
      else
        let! ok := rebuild_volumes_index ids in
        if negb ok then sql_ret false else mark_ready signature.

Definition RebuildCandidateIndex : Sql Tables bool := rebuild_candidate_index HostFoldSignature.
End store.

(** ** The table as a map of records *)

Lemma column_roundtrip x : 0 <= x <= SIZE_MAX -> to_unsigned64 (to_signed64 x) = x.
Proof. unfold SIZE_MAX. intros Hx. apply unsigned_signed64. unfold fits. simpl. lia. Qed.

Definition id_in_range (id : FileId) : Prop := 0 <= low id <= SIZE_MAX /\ 0 <= high id <= SIZE_MAX.

Definition int64_range (x : Z) : Prop := -9223372036854775808 <= x < 9223372036854775808.

Definition row_in_range (key : RowKey) : Prop := int64_range key.1.2 /\ int64_range key.2.

Definition entry_key (key : RowKey) : EntryKey := mkEntryKey key.1.1 (ReadFileId key.1.2 key.2).

Lemma entry_key_row volume id : id_in_range id -> entry_key (row_key volume id) = mkEntryKey volume id.
Proof.
  intros [Hl Hh]. unfold entry_key, row_key, ReadFileId. cbn. rewrite !column_roundtrip by done. by destruct id.
Qed.

Lemma row_key_range volume id : id_in_range id -> row_in_range (row_key volume id).
Proof.
  intros [Hl Hh]. unfold row_in_range, row_key, int64_range, to_signed64, SIZE_MAX in *. cbn.
  destruct (Z.ltb_spec (low id) 9223372036854775808), (Z.ltb_spec (high id) 9223372036854775808); lia.
Qed.

Lemma entry_key_inj key key' : row_in_range key -> row_in_range key' -> entry_key key = entry_key key' -> key = key'.
Proof.
  destruct key as [[v l] h], key' as [[v' l'] h']. intros [H1 H2] [H3 H4]. unfold entry_key, ReadFileId. cbn in *.
  intros [= -> El Eh]. apply (f_equal to_signed64) in El, Eh. rewrite !signed_unsigned64 in El, Eh by done. congruence.
Qed.

(** Every key of [entries] fits its columns. *)
Definition keys_ok (t : Tables) : Prop := map_Forall (fun key _ => row_in_range key) (entries t).

Definition Durable (t : Tables) : gmap EntryKey EntryRecord :=
  list_to_map ((fun kv => (entry_key kv.1, ReadEntryRecord kv.1 kv.2)) <$> map_to_list (entries t)).

Lemma lookup_Durable t k r : keys_ok t ->
  Durable t !! k = Some r <-> exists key row, entries t !! key = Some row /\ entry_key key = k /\ ReadEntryRecord key row = r.
Proof.
  intros Hk. unfold Durable. rewrite <-elem_of_list_to_map.
  - rewrite list_elem_of_fmap. split.
    + intros ([key row] & [= -> ->] & Hin%elem_of_map_to_list). eauto.
    + intros (key & row & Hrow & <- & <-). exists (key, row). split; [done|]. by apply elem_of_map_to_list.
  - rewrite <-list_fmap_compose. apply NoDup_fmap_2_strong; [|apply NoDup_map_to_list].
    intros [key row] [key' row'] Hin%elem_of_map_to_list Hin'%elem_of_map_to_list E. cbn in E.
    apply entry_key_inj in E; [|by eapply Hk..]. simplify_eq. done.
Qed.

Lemma lookup_Durable_key t volume id : keys_ok t -> id_in_range id ->
  Durable t !! mkEntryKey volume id = ReadEntryRecord (row_key volume id) <$> entries t !! row_key volume id.
Proof.
  intros Hk Hid. apply option_eq. intros r. rewrite lookup_Durable, fmap_Some by done. split.
  - intros (key & row & Hrow & E & <-). rewrite <-entry_key_row in E by done.
    apply entry_key_inj in E; [|by eapply Hk|by apply row_key_range]. subst key. eauto.
  - intros (row & Hrow & ->). exists (row_key volume id), row. by rewrite entry_key_row.
Qed.

(** The records whose columns hold them exactly. *)
Record storable (r : EntryRecord) : Prop := {
  st_id : id_in_range (r_id r);
  st_parent : id_in_range (r_parentId r);
  st_name : Forall is_unit (r_name r);
  st_size : 0 <= r_sizeBytes r <= SIZE_MAX;
  st_allocated : 0 <= r_allocatedSizeBytes r <= SIZE_MAX;
  st_unknown : r_allocatedSizeKnown r = false -> r_allocatedSizeBytes r = 0;
  st_creation : 0 <= r_creationTime r <= SIZE_MAX;
  st_modified : 0 <= r_lastModifiedTime r <= SIZE_MAX;
  st_access : 0 <= r_lastAccessTime r <= SIZE_MAX;
  st_attributes : 0 <= r_attributes r < 4294967296
}.

Lemma to_signed64_0 : to_signed64 0 = 0.
Proof. done. Qed.

Lemma attributes_roundtrip a : 0 <= a < 4294967296 -> wrap32 (to_signed64 a) = a.
Proof.
  intros Ha. unfold to_signed64, wrap32. destruct (Z.ltb_spec a 9223372036854775808); [|lia]. by apply Z.mod_small.
Qed.

(** Reading back what one upsert leaves in a row. *)
Lemma read_row_id (volume : Z) id : id_in_range id -> ReadFileId (to_signed64 (low id)) (to_signed64 (high id)) = id.
Proof. intros Hid. by pose proof (entry_key_row volume id Hid) as [= E]. Qed.

Lemma read_inserted volume record fields :
  storable record ->
  ReadEntryRecord (row_key volume (r_id record)) (inserted_row record fields) =
  merge_fields (default_record (r_id record)) record fields.
Proof.
  intros [Hid Hp Hn Hs Ha Hu Hc Hm Hl Hat]. unfold ReadEntryRecord, inserted_row, merge_fields, default_record, row_key.
  cbn [fst snd r_id r_parentId r_name r_sizeBytes r_allocatedSizeBytes r_allocatedSizeKnown r_creationTime r_lastModifiedTime
       r_lastAccessTime r_attributes parent_frn_low parent_frn_high row_name size_bytes allocated_size_bytes creation_time
       last_modified_time last_access_time row_attributes].
  rewrite (read_row_id volume) by done.
  f_equal; destruct (HasEntryField fields _); try done; try by apply column_roundtrip.
  - by apply (read_row_id volume).
  - by apply Utf8_roundtrip.
  - cbn [andb]. destruct (r_allocatedSizeKnown record) eqn:Ek; [by apply column_roundtrip|by rewrite Hu].
  - cbn [andb]. by destruct (r_allocatedSizeKnown record).
  - by apply attributes_roundtrip.
Qed.

Lemma merge_all base record fields :
  fields = kEntryFieldMaskAll -> merge_fields base record fields = record.
Proof. intros ->. by destruct record. Qed.

Lemma read_updated volume record fields old :
  storable record ->
  ReadEntryRecord (row_key volume (r_id record)) (updated_row fields (inserted_row record fields) old) =
  merge_fields (ReadEntryRecord (row_key volume (r_id record)) old) record fields.
Proof.
  intros Hst. pose proof (read_inserted volume record fields Hst) as E. revert E.
  unfold ReadEntryRecord, updated_row, inserted_row, merge_fields, default_record, row_key.
  cbn [fst snd r_id r_parentId r_name r_sizeBytes r_allocatedSizeBytes r_allocatedSizeKnown r_creationTime r_lastModifiedTime
       r_lastAccessTime r_attributes parent_frn_low parent_frn_high row_name size_bytes allocated_size_bytes creation_time
       last_modified_time last_access_time row_attributes].
  intros [= Eid Ep En Es Ea Ek Ec Em El Eat]. rewrite Eid.
  unfold HasEntryField, kEntryFieldParentId, kEntryFieldName, kEntryFieldSizeBytes, kEntryFieldAllocatedSizeBytes,
    kEntryFieldCreationTime, kEntryFieldLastModifiedTime, kEntryFieldLastAccessTime, kEntryFieldAttributes in *.
  f_equal; match goal with |- context [negb ?b] => destruct (negb b) end; done.
Qed.

(** The effect of a change on the records. *)
Definition spec_change (volume : Z) (g : gmap EntryKey EntryRecord) (change : EntryChange) : gmap EntryKey EntryRecord :=
  let record := change_record change in
  match change_kind change with
  | ChangeUpsert => <[mkEntryKey volume (r_id record) := merged g volume record (change_fields change)]> g
  | ChangeRemove => delete (mkEntryKey volume (r_id record)) g
  end.

Lemma Durable_insert t key row : keys_ok t -> row_in_range key ->
  keys_ok (set_entries t (<[key := row]> (entries t))) /\
  Durable (set_entries t (<[key := row]> (entries t))) = <[entry_key key := ReadEntryRecord key row]> (Durable t).
Proof.
  intros Hk Hr. assert (keys_ok (set_entries t (<[key := row]> (entries t)))) as Hk'.
  { apply map_Forall_insert_2; [done|exact Hk]. }
  split; [done|]. apply map_eq. intros k. apply option_eq. intros r.
  rewrite lookup_Durable, lookup_insert_Some, lookup_Durable by done. cbn. split.
  - intros (key' & row' & [[<- <-]|[Hne Hrow]]%lookup_insert_Some & <- & <-); [by left|right].
    split; [|eauto]. intros E. apply Hne. apply entry_key_inj in E; [done|done|by eapply Hk].
  - intros [[<- <-]|[Hne (key' & row' & Hrow & <- & <-)]].
    + exists key, row. by rewrite lookup_insert_eq.
    + exists key', row'. rewrite lookup_insert_ne by congruence. done.
Qed.

Lemma Durable_filter t (P : EntryKey -> Prop) `{!forall k, Decision (P k)} : keys_ok t ->
  keys_ok (set_entries t (filter (fun kv => P (entry_key kv.1)) (entries t))) /\
  Durable (set_entries t (filter (fun kv => P (entry_key kv.1)) (entries t))) = filter (fun kv => P kv.1) (Durable t).
Proof.
  intros Hk. assert (keys_ok (set_entries t (filter (fun kv => P (entry_key kv.1)) (entries t)))) as Hk'.
  { intros key row [Hrow _]%map_lookup_filter_Some. by eapply Hk. }
  split; [done|]. apply map_eq. intros k. apply option_eq. intros r.
  rewrite lookup_Durable, map_lookup_filter_Some, lookup_Durable by done. cbn. split.
  - intros (key & row & [Hrow HP]%map_lookup_filter_Some & <- & <-). eauto 6.
  - intros [(key & row & Hrow & <- & <-) HP]. exists key, row. rewrite map_lookup_filter_Some. done.
Qed.

Lemma upsert_durable volume record fields t t' :
  keys_ok t -> storable record -> upsert_statement volume record fields t = Some t' ->
  keys_ok t' /\ Durable t' = <[mkEntryKey volume (r_id record) := merged (Durable t) volume record fields]> (Durable t).
Proof.
  intros Hk Hst. unfold upsert_statement. destruct (volumes t !! volume); [|done]. intros [= <-].
  pose proof (st_id _ Hst) as Hid. set (key := row_key volume (r_id record)).
  rewrite <-(entry_key_row volume (r_id record)) by done. fold key.
  destruct (Durable_insert t key (match entries t !! key with Some old => updated_row fields (inserted_row record fields) old
    | None => inserted_row record fields end) Hk (row_key_range _ _ Hid)) as [Hk' ->].
  split; [done|]. f_equal. unfold merged. rewrite lookup_Durable_key by done. fold key.
  assert (forall base, (if fields =? kEntryFieldMaskAll then record else merge_fields base record fields) = merge_fields base record fields) as E.
  { intros base. destruct (Z.eqb_spec fields kEntryFieldMaskAll); [|done]. by rewrite merge_all. }
  rewrite E. destruct (entries t !! key) as [old|]; cbn [fmap option_fmap option_map default from_option id].
  - by apply read_updated.
  - by apply read_inserted.
Qed.

Lemma remove_durable volume id t :
  keys_ok t -> id_in_range id ->
  keys_ok (set_entries t (delete (row_key volume id) (entries t))) /\
  Durable (set_entries t (delete (row_key volume id) (entries t))) = delete (mkEntryKey volume id) (Durable t).
Proof.
  intros Hk Hid. assert (keys_ok (set_entries t (delete (row_key volume id) (entries t)))) as Hk'.
  { by apply map_Forall_delete. }
  split; [done|]. apply map_eq. intros k. apply option_eq. intros r.
  rewrite lookup_Durable, lookup_delete_Some, lookup_Durable by done. cbn. split.
  - intros (key & row & [Hne Hrow]%lookup_delete_Some & <- & <-). split; [|eauto]. intros E. apply Hne.
    rewrite <-entry_key_row in E by done. apply entry_key_inj in E; [done|by apply row_key_range|by eapply Hk].
  - intros [Hne (key & row & Hrow & <- & <-)]. exists key, row. rewrite lookup_delete_ne; [done|].
    intros <-. by rewrite entry_key_row in Hne.
Qed.

(** ** The candidate index follows the names *)

Section index.
Context {DB : Sqlite} (CSO : list Z -> list Z -> Z).

(** A row without a name may have no term. *)
Definition indexed_row (t : Tables) (rowid : Z) (row : EntryRow) : Prop :=
  0 <= rowid /\
  (name_terms t !! rowid = Some (FoldAsciiUtf8 (row_name row)) \/ name_terms t !! rowid = None /\ row_name row = []) /\
  (rowid ∈ name_exceptions t <-> NameRequiresCandidateSideSet CSO (Utf8ToUtf16 (row_name row)) = true).

Record index_sound (P : RowKey -> Prop) (t : Tables) : Prop := {
  is_row : forall key rowid, P key -> index_map t !! key = Some rowid ->
    exists row, entries t !! key = Some row /\ indexed_row t rowid row;
  is_inj : forall key key' rowid, index_map t !! key = Some rowid -> index_map t !! key' = Some rowid -> key = key';
  is_used : forall rowid, is_Some (name_terms t !! rowid) \/ rowid ∈ name_exceptions t ->
    exists key, index_map t !! key = Some rowid
}.

(** Every entry is mapped, and the index says what its name says. *)
Definition index_ok (t : Tables) : Prop :=
  index_sound (fun _ => True) t /\ forall key, is_Some (entries t !! key) -> is_Some (index_map t !! key).

(** The operations on the index leave the other tables alone. *)
Definition same_base (t t' : Tables) : Prop :=
  volumes t' = volumes t /\ sqlite_sequence t' = sqlite_sequence t /\ entries t' = entries t /\ index_meta t' = index_meta t.

Lemma elem_of_used t rowid : rowid ∈ used_rowids t <-> exists key, index_map t !! key = Some rowid.
Proof.
  unfold used_rowids. rewrite elem_of_list_to_set, list_elem_of_fmap. split.
  - intros ([key r] & -> & Hin%elem_of_map_to_list). by exists key.
  - intros [key Hkey]. exists (key, rowid). split; [done|]. by apply elem_of_map_to_list.
Qed.

(** The state after the map row is there: the index is sound away from [key]. *)
Lemma map_upsert_sound key t t' :
  index_sound (fun k => k <> key) t -> map_upsert_statement key t = Some t' ->
  index_sound (fun k => k <> key) t' /\ same_base t t' /\
  (forall k, k <> key -> index_map t' !! k = index_map t !! k) /\
  exists rowid, index_map t' !! key = Some rowid /\
    ((index_map t !! key = Some rowid /\ t' = t) \/
     (index_map t !! key = None /\ name_terms t' !! rowid = None /\ rowid ∉ name_exceptions t')).
Proof.
  intros Hs. unfold map_upsert_statement. destruct (index_map t !! key) as [rowid|] eqn:Ek; intros [= <-].
  { split; [done|]. split; [done|]. split; [done|]. exists rowid. auto. }
  set (rowid := new_rowid _). pose proof (new_rowid_fresh (used_rowids t)) as Hf. fold rowid in Hf. rewrite elem_of_used in Hf.
  cbn [set_index_map index_map name_terms name_exceptions]. split; [split; cbn [set_index_map index_map name_terms name_exceptions entries]|].
  - intros k r Hne Hk. rewrite lookup_insert_ne in Hk by done. by apply (is_row _ _ Hs).
  - intros k k' r [[<- <-]|[Hne Hk]]%lookup_insert_Some [[<- E]|[Hne' Hk']]%lookup_insert_Some; subst; try done.
    + exfalso. eauto.
    + exfalso. eauto.
    + by eapply (is_inj _ _ Hs).
  - intros r [k Hr]%(is_used _ _ Hs). exists k. rewrite lookup_insert_ne; [done|]. congruence.
  - split; [done|]. split; [intros k Hne; by rewrite lookup_insert_ne|]. exists rowid. rewrite lookup_insert_eq. split; [done|]. right.
    split; [done|]. split.
    + destruct (name_terms t !! rowid) eqn:E; [|done]. exfalso. apply Hf, (is_used _ _ Hs). left. by rewrite E.
    + intros Hin. apply Hf, (is_used _ _ Hs). by right.
Qed.

(** Soundness at [key] closes the gap. *)
Lemma index_sound_at key t :
  index_sound (fun k => k <> key) t ->
  (forall rowid, index_map t !! key = Some rowid -> exists row, entries t !! key = Some row /\ indexed_row t rowid row) ->
  index_sound (fun _ => True) t.
Proof.
  intros [Hrow Hinj Hused] Hkey. split; [|done..]. intros k rowid _ Hk.
  destruct (decide (k = key)) as [->|Hne]; [by apply Hkey|by apply Hrow].
Qed.

(** Writing the term and the side-set membership of one row. *)
Definition set_name (t : Tables) (rowid : Z) (folded : list Z) (exceptional : bool) : Tables :=
  set_exceptions (set_terms t (<[rowid := folded]> (name_terms t)))
    (if exceptional then {[rowid]} ∪ name_exceptions t else ({[rowid]} ∪ name_exceptions t) ∖ {[rowid]}).

Lemma set_name_sound key t rowid row :
  index_sound (fun k => k <> key) t -> index_map t !! key = Some rowid -> 0 <= rowid -> entries t !! key = Some row ->
  index_sound (fun _ => True)
    (set_name t rowid (FoldAsciiUtf8 (row_name row)) (NameRequiresCandidateSideSet CSO (Utf8ToUtf16 (row_name row)))).
Proof.
  intros Hs Hk H0 Hrow. set (exc := NameRequiresCandidateSideSet _ _). set (t' := set_name _ _ _ _).
  assert (forall r, r <> rowid -> name_terms t' !! r = name_terms t !! r /\ (r ∈ name_exceptions t' <-> r ∈ name_exceptions t)) as Hother.
  { intros r Hne. cbn. split; [by rewrite lookup_insert_ne|]. destruct exc; set_solver. }
  apply (index_sound_at key).
  - split; cbn [t' set_name set_exceptions set_terms index_map entries]; [|apply Hs|].
    + intros k r Hne Hkr. destruct (is_row _ _ Hs k r Hne Hkr) as (row' & Hrow' & H1 & H2 & H3). exists row'. split; [done|].
      destruct (Hother r) as [E1 E2]; [intros ->; by apply Hne, (is_inj _ _ Hs k key rowid)|]. split; [done|].
      rewrite E1. split; [done|]. by rewrite E2.
    + intros r Hr. destruct (decide (r = rowid)) as [->|Hne]; [by exists key|]. destruct (Hother r Hne) as [E1 E2].
      apply (is_used _ _ Hs). rewrite <-E1, <-E2. exact Hr.
  - intros r Hkr. replace r with rowid by (cbn in Hkr; congruence). exists row. split; [exact Hrow|]. split; [done|].
    split; [left; apply lookup_insert_eq|]. cbn. fold exc. destruct exc; set_solver.
Qed.

Lemma wp_store_term rowid folded (Q : bool -> Tables -> Prop) t :
  Q true (set_terms t (<[rowid := folded]> (name_terms t))) -> (forall t', Q false t') -> wp (store_term rowid folded) Q t.
Proof.
  intros HQ HF. unfold store_term. apply wp_bind, wp_get, wp_bind, wp_exec; [|by apply wp_ret].
  unfold terms_update_statement. intros t' [= <-]. cbn [negb]. destruct (name_terms t !! rowid) eqn:E; [by apply wp_ret|].
  apply wp_exec; [|done]. unfold terms_insert_statement. rewrite E. by intros t' [= <-].
Qed.

Lemma CandidateIndexUpsert_ok key nameUtf8 nameUtf16 (updateName : bool) row t :
  index_sound (fun k => k <> key) t -> entries t !! key = Some row ->
  (if updateName then row_name row = nameUtf8 /\ Utf8ToUtf16 nameUtf8 = nameUtf16
   else match index_map t !! key with Some rowid => indexed_row t rowid row | None => row_name row = [] end) ->
  wp (CandidateIndexUpsert CSO key nameUtf8 nameUtf16 updateName) (fun ok t' => ok = true ->
    index_sound (fun _ => True) t' /\ same_base t t' /\ is_Some (index_map t' !! key) /\
    forall k, k <> key -> index_map t' !! k = index_map t !! k) t.
Proof.
  intros Hs Hrow Hname. unfold CandidateIndexUpsert. apply wp_bind, wp_exec; [|by apply wp_ret].
  intros t1 Ht1. destruct (map_upsert_sound key t t1 Hs Ht1) as (Hs1 & Hb1 & Hm1 & rowid & Hk1 & Hcase). cbn [negb].
  unfold CandidateTermRowid. apply wp_bind, wp_bind, wp_query; apply wp_ret; [|by apply wp_ret].
  rewrite Hk1. cbn [negb orb]. destruct (Z.ltb_spec rowid 0) as [|H0]; [by apply wp_ret|].
  assert (entries t1 !! key = Some row) as Hrow1 by (destruct Hb1 as (_ & _ & -> & _); done).
  destruct updateName; cbn [negb].
  - destruct Hname as [<- <-]. apply wp_bind, wp_store_term; [cbn [negb]|intros t'; by apply wp_ret].
    pose proof (set_name_sound key t1 rowid row Hs1 Hk1 H0 Hrow1) as Hset.
    set (t2 := set_name _ _ _ _) in Hset.
    assert (index_sound (fun _ => True) t2 /\ same_base t t2 /\ is_Some (index_map t2 !! key) /\
      forall k, k <> key -> index_map t2 !! k = index_map t !! k) as Hdone.
    { split; [done|]. split; [exact Hb1|]. split; [cbn; by rewrite Hk1|exact Hm1]. }
    unfold t2, set_name in Hdone. apply wp_bind, wp_exec; [|by apply wp_ret]. intros t3 [= <-]. cbn [negb].
    destruct (NameRequiresCandidateSideSet _ _); [by apply wp_ret|].
    apply wp_exec; [|done]. intros t4 [= <-] _. exact Hdone.
  - apply wp_ret. intros _. split; [|split; [done|split; [by rewrite Hk1|done]]].
    apply (index_sound_at key); [done|]. intros r Hr. replace r with rowid by congruence. exists row. split; [done|].
    destruct Hcase as [[Ek ->]|(Ek & Ht & He)]; rewrite Ek in Hname; [done|]. split; [done|]. rewrite Hname.
    split; [by right|]. split; [done|]. by vm_compute.
Qed.

(** The index statements leave the rest alone, whatever fails. *)
#[local] Instance same_base_preorder : PreOrder same_base.
Proof. split; [done|]. intros t1 t2 t3 (? & ? & ? & ?) (? & ? & ? & ?). unfold same_base. by repeat split; etrans. Qed.

Lemma CandidateIndexUpsert_base key nameUtf8 nameUtf16 updateName t :
  wp (CandidateIndexUpsert CSO key nameUtf8 nameUtf16 updateName) (fun _ => same_base t) t.
Proof.
  unfold CandidateIndexUpsert, CandidateTermRowid, store_term, map_upsert_statement, terms_update_statement, terms_insert_statement.
  repeat (wp_step || done).
Qed.

Lemma CandidateIndexRemove_base key t : wp (CandidateIndexRemove key) (fun _ => same_base t) t.
Proof. unfold CandidateIndexRemove, CandidateTermRowid. repeat (wp_step || done). Qed.

(** Dropping everything that belongs to a set of row ids. *)
Lemma drop_rowids_sound (gone : gset Z) (P : RowKey -> Prop) t t' :
  index_sound P t -> entries t' = entries t ->
  (forall key rowid, index_map t' !! key = Some rowid <-> index_map t !! key = Some rowid /\ rowid ∉ gone) ->
  (forall rowid, name_terms t' !! rowid = if decide (rowid ∈ gone) then None else name_terms t !! rowid) ->
  name_exceptions t' = name_exceptions t ∖ gone ->
  (forall key rowid, index_map t !! key = Some rowid -> rowid ∉ gone -> P key) ->
  index_sound (fun _ => True) t'.
Proof.
  intros Hs He Hmap Hterms Hexc Hgone. split.
  - intros key rowid _ [Hk Hn]%Hmap. destruct (is_row _ _ Hs key rowid (Hgone _ _ Hk Hn) Hk) as (row & Hrow & H1 & H2 & H3).
    exists row. rewrite He. split; [done|]. split; [done|]. rewrite Hterms, decide_False by done. split; [done|].
    rewrite Hexc. set_solver.
  - intros key key' rowid [Hk _]%Hmap [Hk' _]%Hmap. by eapply (is_inj _ _ Hs).
  - intros rowid Hr. assert (rowid ∉ gone /\ (is_Some (name_terms t !! rowid) \/ rowid ∈ name_exceptions t)) as [Hn Hr'].
    { rewrite Hterms, Hexc in Hr. case_decide; [|set_solver]. destruct Hr as [[? [=]]|Hr]. set_solver. }
    destruct (is_used _ _ Hs rowid Hr') as [key Hk]. exists key. by apply Hmap.
Qed.

Lemma CandidateIndexRemove_ok key t :
  index_sound (fun k => k <> key) t -> entries t !! key = None ->
  (forall rowid, index_map t !! key = Some rowid -> 0 <= rowid) ->
  wp (CandidateIndexRemove key) (fun ok t' => ok = true ->
    index_sound (fun _ => True) t' /\ forall k, index_map t' !! k = delete key (index_map t) !! k) t.
Proof.
  intros Hs Hnone H0. unfold CandidateIndexRemove, CandidateTermRowid. apply wp_bind, wp_bind, wp_query; apply wp_ret; [|by apply wp_ret].
  destruct (index_map t !! key) as [rowid|] eqn:Ek; cbn [negb].
  2: { apply wp_ret. intros _. split; [apply (index_sound_at key); [done|by rewrite Ek]|]. intros k. by rewrite delete_id. }
  destruct (Z.ltb_spec rowid 0); [specialize (H0 rowid eq_refl); lia|]. repeat (wp_step || done). intros _.
  set (t' := set_index_map _ _).
  assert (forall k r, index_map t' !! k = Some r <-> index_map t !! k = Some r /\ r ∉ ({[rowid]} : gset Z)) as Hmap.
  { intros k r. cbn. rewrite map_lookup_filter_Some, not_elem_of_singleton. done. }
  split.
  - apply (drop_rowids_sound {[rowid]} (fun k => k <> key) t); [done|done|exact Hmap| |done|].
    + intros r. cbn. destruct (decide (r = rowid)) as [->|Hne].
      * by rewrite lookup_delete_eq, decide_True by set_solver.
      * by rewrite lookup_delete_ne, decide_False by set_solver.
    + intros k r Hk Hn ->. apply Hn. set_solver.
  - intros k. apply option_eq. intros r. rewrite Hmap, lookup_delete_Some, not_elem_of_singleton. split.
    + intros [Hk Hn]. split; [|done]. intros <-. congruence.
    + intros [Hne Hk]. split; [done|]. intros ->. by apply Hne, (is_inj _ _ Hs key k rowid).
Qed.

(** ** Batches are atomic and keep the index *)

(** What an operation may change: the entries of the batch and their index. *)
Definition change_ok (change : EntryChange) : Prop := storable (change_record change).

Lemma row_key_fields t key : index_ok t -> index_sound (fun k => k <> key) t.
Proof. intros [[H1 H2 H3] _]. split; [|done..]. intros k r _. by apply H1. Qed.

Lemma apply_change_index volume change t :
  index_ok t -> change_ok change ->
  wp (apply_change CSO volume change) (fun ok t' => ok = true -> index_ok t') t.
Proof.
  intros Hi Hst. unfold apply_change. set (record := change_record change). set (fields := change_fields change).
  set (key := row_key volume (r_id record)). pose proof (row_key_fields t key Hi) as Hs. destruct Hi as [Hsound Hcomplete].
  destruct (change_kind change).
  - apply wp_bind, wp_exec; [|by apply wp_ret]. unfold upsert_statement. destruct (volumes t !! volume); [|done]. fold key.
    intros t1 [= <-]. cbn [negb]. set (row := match entries t !! key with Some _ => _ | None => _ end).
    set (t1 := set_entries t _).
    assert (forall k, k <> key -> entries t1 !! k = entries t !! k) as Hother by (intros; cbn; by rewrite lookup_insert_ne).
    assert (index_sound (fun k => k <> key) t1) as Hs1.
    { destruct Hs as [H1 H2 H3]. split; [|exact H2|exact H3]. intros k r Hne Hk. rewrite Hother by done. by apply H1. }
    eapply wp_mono; [apply (CandidateIndexUpsert_ok key _ _ _ row t1 Hs1)|].
    + apply lookup_insert_eq.
    + destruct (HasEntryField fields kEntryFieldName) eqn:Ef.
      * split; [|apply Utf8_roundtrip, Hst]. unfold row. destruct (entries t !! key); cbn; [|by rewrite Ef].
        unfold HasEntryField, kEntryFieldName in Ef. by rewrite Ef; unfold HasEntryField, kEntryFieldName; rewrite Ef.
      * change (index_map t1) with (index_map t). unfold row.
        destruct (index_map t !! key) as [r|] eqn:Er.
        -- destruct (is_row _ _ Hsound key r I Er) as (old & Eo & Hold). rewrite Eo.
           unfold indexed_row in *. cbn. unfold HasEntryField, kEntryFieldName in Ef. rewrite Ef. exact Hold.
        -- destruct (entries t !! key) eqn:Eo; [|cbn; by rewrite Ef]. destruct (Hcomplete key) as [? ?]; [by rewrite Eo|congruence].
    + intros ok t2 H Hok. destruct (H Hok) as (Hs2 & (_ & _ & He & _) & Hk2 & Hm2). split; [done|]. intros k.
      destruct (decide (k = key)) as [->|Hne]; [done|]. rewrite He, Hother, Hm2 by done. apply Hcomplete.
  - apply wp_bind, wp_exec; [|by apply wp_ret]. intros t1 [= <-]. cbn [negb]. fold key. set (t1 := set_entries t _).
    assert (forall k, k <> key -> entries t1 !! k = entries t !! k) as Hother by (intros; cbn; by rewrite lookup_delete_ne).
    assert (index_sound (fun k => k <> key) t1) as Hs1.
    { destruct Hs as [H1 H2 H3]. split; [|exact H2|exact H3]. intros k r Hne Hk. rewrite Hother by done. by apply H1. }
    eapply wp_mono; [apply wp_and; [apply (CandidateIndexRemove_ok key t1 Hs1)|apply CandidateIndexRemove_base]|].
    + apply lookup_delete_eq.
    + intros r Hr. by destruct (is_row _ _ Hsound key r I Hr) as (? & _ & ? & _).
    + intros ok t2 [H (_ & _ & He & _)] Hok. destruct (H Hok) as (Hs2 & Hm2). split; [done|]. intros k. rewrite He.
      destruct (decide (k = key)) as [->|Hne]; [cbn; rewrite lookup_delete_eq; by intros [? [=]]|].
      rewrite Hother, Hm2, lookup_delete_ne by done. apply Hcomplete.
Qed.

(** The tables that only volumes, checks and rebuilds change. *)
Definition same_volumes (t t' : Tables) : Prop :=
  volumes t' = volumes t /\ sqlite_sequence t' = sqlite_sequence t /\ index_meta t' = index_meta t.

Lemma same_base_durable t t' : same_base t t' -> keys_ok t -> keys_ok t' /\ Durable t' = Durable t /\ same_volumes t t'.
Proof. intros (Hv & Hq & He & Hm) Hk. unfold keys_ok, Durable, same_volumes. rewrite He. auto. Qed.

Lemma apply_change_durable volume change t :
  keys_ok t -> change_ok change ->
  wp (apply_change CSO volume change) (fun ok t' => ok = true ->
    keys_ok t' /\ Durable t' = spec_change volume (Durable t) change /\ same_volumes t t' /\
    (change_kind change = ChangeUpsert -> is_Some (volumes t !! volume))) t.
Proof.
  intros Hk Hst. unfold apply_change, spec_change. set (record := change_record change). destruct (change_kind change).
  - apply wp_bind, wp_exec; [|by apply wp_ret]. intros t1 Ht1. cbn [negb].
    destruct (upsert_durable volume record _ t t1 Hk Hst Ht1) as [Hk1 HD].
    assert (same_volumes t t1 /\ is_Some (volumes t !! volume)) as [Hv1 Hv].
    { unfold upsert_statement in Ht1. destruct (volumes t !! volume); [|done]. by injection Ht1 as <-. }
    eapply wp_mono; [apply CandidateIndexUpsert_base|]. intros ok t2 Hb _.
    destruct (same_base_durable _ _ Hb Hk1) as (Hk2 & -> & Hv2). split; [done|]. split; [done|]. split; [|done].
    unfold same_volumes in *. intuition congruence.
  - apply wp_bind, wp_exec; [|by apply wp_ret]. intros t1 [= <-]. cbn [negb].
    destruct (remove_durable volume (r_id record) t Hk (st_id _ Hst)) as [Hk1 HD].
    eapply wp_mono; [apply CandidateIndexRemove_base|]. intros ok t2 Hb _.
    destruct (same_base_durable _ _ Hb Hk1) as (Hk2 & -> & Hv2). split; [done|]. split; [done|]. by split.
Qed.

(** What a successful batch has done. *)
Record batch_applied (volume : Z) (changes : list EntryChange) (t t' : Tables) : Prop := {
  ba_keys : keys_ok t';
  ba_durable : Durable t' = foldl (spec_change volume) (Durable t) changes;
  ba_volumes : same_volumes t t';
  ba_index : index_ok t -> index_ok t'
}.

Lemma apply_changes_ok volume changes t :
  keys_ok t -> Forall change_ok changes ->
  wp (apply_changes CSO volume changes) (fun ok t' => ok = true -> batch_applied volume changes t t') t.
Proof.
  revert t. induction changes as [|change changes IH]; intros t Hk Hall; cbn [apply_changes].
  { apply wp_ret. by split. }
  apply Forall_cons in Hall as [Hc Hall]. apply wp_bind.
  eapply (wp_mono _ (fun ok t' => (ok = true -> keys_ok t' /\ Durable t' = spec_change volume (Durable t) change /\
    same_volumes t t') /\ (ok = true -> index_ok t -> index_ok t'))).
  { apply wp_and; [eapply wp_mono; [by apply apply_change_durable|]; intros ? ? H Hok; by destruct (H Hok) as (? & ? & ? & _)|].
    intros c Hct Ho. pose proof (apply_change_index volume change t) as H. destruct (apply_change CSO volume change c) as [ok c'] eqn:E.
    pose proof (apply_change_durable volume change t Hk Hc c Hct Ho) as H'. rewrite E in H'. split; [|apply H'].
    intros Hok Hi. specialize (H Hi Hc c Hct Ho). rewrite E in H. by apply H. }
  intros ok t1 [H1 H2]. destruct ok; cbn [negb]; [|by apply wp_ret]. destruct (H1 eq_refl) as (Hk1 & HD1 & Hv1).
  eapply wp_mono; [by apply IH|]. intros ok t2 H Hok. destruct (H Hok) as [Hk2 HD2 Hv2 Hi2]. split; [done| | |].
  - cbn [foldl]. by rewrite HD2, HD1.
  - unfold same_volumes in *. intuition congruence.
  - intros Hi. by apply Hi2, H2.
Qed.

Lemma ApplyBatch_ok volume changes t :
  keys_ok t -> Forall change_ok changes ->
  wp (ApplyBatch CSO volume changes) (fun ok t' => if ok then batch_applied volume changes t t' else t' = t) t.
Proof.
  intros Hk Hall. unfold ApplyBatch. apply wp_when_open.
  destruct changes as [|c changes]; [apply wp_ret; by split|]. apply wp_transaction; [|done].
  repeat (wp_step || done). eapply wp_mono; [by apply apply_changes_ok|]. done.
Qed.

(** ** Forgetting a volume *)

Lemma clear_terms_ok rowids t (Q : bool -> Tables -> Prop) :
  Q true (set_terms t (foldl (fun m rowid => delete rowid m) (name_terms t) rowids)) -> (forall t', same_base t t' -> Q false t') ->
  wp (clear_terms rowids) Q t.
Proof.
  revert t. induction rowids as [|rowid rowids IH]; intros t HQ HF; cbn [clear_terms].
  { apply wp_ret. by destruct t. }
  repeat (wp_step || apply HF || done). apply IH; [done|]. intros t' Ht'. by apply HF.
Qed.

Lemma lookup_delete_all {A} (m : gmap Z A) rowids r :
  foldl (fun m rowid => delete rowid m) m rowids !! r = if decide (r ∈ rowids) then None else m !! r.
Proof.
  revert m. induction rowids as [|x rowids IH]; intros m; cbn [foldl]; [by rewrite decide_False by set_solver|].
  rewrite IH. destruct (decide (r ∈ rowids)); [by rewrite decide_True by set_solver|].
  destruct (decide (r = x)) as [->|]; [by rewrite lookup_delete_eq, decide_True by set_solver|].
  by rewrite lookup_delete_ne, decide_False by set_solver.
Qed.

Lemma elem_of_volume_rowids volume t rowid :
  rowid ∈ volume_rowids volume t <-> exists key, index_map t !! key = Some rowid /\ key.1.1 = volume.
Proof.
  unfold volume_rowids. rewrite list_elem_of_fmap. split.
  - intros ([key r] & -> & [Hk Hv]%elem_of_map_to_list%map_lookup_filter_Some). eauto.
  - intros (key & Hk & Hv). exists (key, rowid). split; [done|]. by apply elem_of_map_to_list, map_lookup_filter_Some.
Qed.

Lemma CandidateIndexRemoveVolume_ok volume t :
  index_sound (fun k => k.1.1 <> volume) t ->
  wp (CandidateIndexRemoveVolume volume) (fun ok t' => ok = true ->
    index_sound (fun _ => True) t' /\ index_map t' = filter (fun kv => kv.1.1.1 <> volume) (index_map t)) t.
Proof.
  intros Hs. unfold CandidateIndexRemoveVolume. wp_step. wp_step; cbn [negb]; [|by apply wp_ret].
  apply wp_bind, wp_query_rows; intros rows Hrows; cbn [negb]; [|by apply wp_ret]. apply wp_bind, clear_terms_ok; cbn [negb]; [|by intros; apply wp_ret].
  repeat (wp_step || done). intros _. set (t' := set_index_map _ _). split; [|done].
  apply (drop_rowids_sound (list_to_set (volume_rowids volume t)) (fun k => k.1.1 <> volume) t); [done|done| | |done|].
  - intros key rowid. cbn. rewrite map_lookup_filter_Some, not_elem_of_list_to_set, elem_of_volume_rowids. cbn. split.
    + intros [Hk Hv]. split; [done|]. intros (key' & Hk' & Hv'). by rewrite (is_inj _ _ Hs key key' rowid Hk Hk') in Hv.
    + intros [Hk Hn]. split; [done|]. intros Hv. apply Hn. by exists key.
  - intros rowid. cbn. rewrite lookup_delete_all.
    destruct (decide (rowid ∈ volume_rowids volume t)) as [Hin|Hin].
    + by rewrite !decide_True by (rewrite ?Hrows, ?elem_of_list_to_set; done).
    + by rewrite !decide_False by (rewrite ?Hrows, ?elem_of_list_to_set; done).
  - intros key rowid Hk Hn Hv. apply Hn, elem_of_list_to_set, elem_of_volume_rowids. by exists key.
Qed.

Lemma CandidateIndexRemoveVolume_base volume t : wp (CandidateIndexRemoveVolume volume) (fun _ => same_base t) t.
Proof.
  unfold CandidateIndexRemoveVolume. wp_step. wp_step; cbn [negb]; [|by apply wp_ret].
  apply wp_bind, wp_query_rows; intros rows Hrows; cbn [negb]; [|by apply wp_ret].
  apply wp_bind, clear_terms_ok; cbn [negb]; [|by intros; apply wp_ret]. repeat (wp_step || done).
Qed.

(** What a successful [ForgetVolume] has done. *)
Record volume_forgotten (volume : Z) (t t' : Tables) : Prop := {
  vf_unavailable : exists v, volumes t !! volume = Some v /\ available v = 0;
  vf_keys : keys_ok t';
  vf_durable : Durable t' = filter (fun kv => volumeRowId kv.1 <> volume) (Durable t);
  vf_entries : entries t' = filter (fun kv => kv.1.1.1 <> volume) (entries t);
  vf_volumes : volumes t' = delete volume (volumes t) /\ sqlite_sequence t' = sqlite_sequence t /\ index_meta t' = index_meta t;
  vf_index : index_ok t -> index_ok t'
}.

Lemma forget_entries_ok volume t :
  keys_ok t ->
  let t' := set_entries t (filter (fun kv => kv.1.1.1 <> volume) (entries t)) in
  keys_ok t' /\ Durable t' = filter (fun kv => volumeRowId kv.1 <> volume) (Durable t) /\
  (index_ok t -> index_sound (fun k => k.1.1 <> volume) t').
Proof.
  intros Hk t'. destruct (Durable_filter t (fun k => volumeRowId k <> volume) Hk) as [Hk' HD]. split; [exact Hk'|]. split; [exact HD|].
  intros [[H1 H2 H3] _]. split; [|exact H2|exact H3]. intros key rowid Hv Hkey. destruct (H1 key rowid I Hkey) as (row & Hrow & Hir).
  exists row. split; [|exact Hir]. cbn. by apply map_lookup_filter_Some.
Qed.

Lemma ForgetVolume_ok volume t :
  keys_ok t -> wp (ForgetVolume volume) (fun ok t' => if ok then volume_forgotten volume t t' else t' = t) t.
Proof.
  intros Hk. unfold ForgetVolume. apply wp_when_open, wp_transaction; [|done].
  wp_step. wp_step; cbn [negb]; [|by apply wp_ret]. apply wp_bind, wp_query; [|by apply wp_ret].
  destruct (volumes t !! volume) as [v|] eqn:Ev; [|by apply wp_ret].
  destruct (Z.eqb_spec (available v) 0) as [Ea|]; cbn [negb]; [|by apply wp_ret].
  wp_step. wp_step; cbn [negb]; [|by apply wp_ret]. wp_step. wp_step; [|by apply wp_ret]. intros t1 [= <-]. cbn [negb].
  destruct (forget_entries_ok volume t Hk) as (Hk1 & HD1 & Hs1). set (t1 := set_entries _ _) in *.
  apply wp_bind. eapply (wp_mono _ (fun ok t' => same_base t1 t' /\ (ok = true -> index_ok t -> index_sound (fun _ => True) t' /\
    index_map t' = filter (fun kv => kv.1.1.1 <> volume) (index_map t)))).
  { apply wp_and; [apply CandidateIndexRemoveVolume_base|]. intros c Hct Ho.
    pose proof (CandidateIndexRemoveVolume_base volume t1 c Hct Ho) as H1.
    pose proof (fun Hi => CandidateIndexRemoveVolume_ok volume t1 (Hs1 Hi) c Hct Ho) as H2.
    destruct (CandidateIndexRemoveVolume volume c) as [ok c']. split; [|apply H1]. intros Hok Hi. by apply (proj1 (H2 Hi)). }
  intros ok t2 [Hb2 Hi2]. destruct ok; cbn [negb]; [|by apply wp_ret]. wp_step. wp_step; cbn [negb]; [|by apply wp_ret].
  apply wp_exec; [|done]. unfold delete_volume_statement. case_bool_decide; [|done]. intros t3 [= <-] _.
  destruct (same_base_durable _ _ Hb2 Hk1) as (Hk2 & HD2 & Hv2 & Hq2 & Hm2). destruct Hb2 as (_ & _ & He2 & _).
  split; [by exists v|exact Hk2|etrans; [exact HD2|exact HD1]|exact He2|cbn; by rewrite Hv2, Hq2, Hm2|].
  intros Hi. destruct (Hi2 eq_refl Hi) as [[H1 H2 H3] Hmap]. split; [by split|]. cbn. intros key [row Hrow].
  rewrite Hmap. rewrite He2 in Hrow. cbn in Hrow. apply map_lookup_filter_Some in Hrow as [Hrow Hv].
  destruct (proj2 Hi key) as [rowid Hr]; [by rewrite Hrow|]. exists rowid. by apply map_lookup_filter_Some.
Qed.

(** ** Rebuilding the index *)

Lemma index_sound_all key t : index_sound (fun _ => True) t -> index_sound (fun k => k <> key) t.
Proof. intros [H1 H2 H3]. split; [|done..]. intros k r _. by apply H1. Qed.

Lemma index_rows_ok rows t :
  index_sound (fun _ => True) t -> Forall (fun kv => entries t !! kv.1 = Some kv.2) rows ->
  wp (index_rows CSO rows) (fun ok t' => ok = true -> index_sound (fun _ => True) t' /\ same_base t t') t.
Proof.
  revert t. induction rows as [|[key row] rows IH]; intros t Hs Hrows; cbn [index_rows]; [by apply wp_ret|].
  apply Forall_cons in Hrows as [Hrow Hrows]. apply wp_bind.
  eapply wp_mono; [apply (CandidateIndexUpsert_ok key _ _ true row t); [by apply index_sound_all|done|done]|].
  intros ok t1 H. destruct ok; cbn [negb]; [|by apply wp_ret]. destruct (H eq_refl) as (Hs1 & Hb1 & _).
  assert (entries t1 = entries t) as He by apply Hb1.
  eapply wp_mono; [apply IH; [done|by rewrite He]|]. intros ok t2 H2 Hok. destruct (H2 Hok) as [Hs2 Hb2]. split; [done|by etrans].
Qed.

Lemma rebuild_volume_index_ok volume t :
  index_sound (fun _ => True) t ->
  wp (rebuild_volume_index CSO volume) (fun _ t' => index_sound (fun _ => True) t' /\ same_base t t') t.
Proof.
  intros Hs. unfold rebuild_volume_index. wp_step. wp_step; cbn [negb]; [|by apply wp_ret]. apply wp_transaction; [|done].
  wp_step. wp_step; cbn [negb]; [|by apply wp_ret]. apply wp_bind.
  assert (Forall (fun kv => entries t !! kv.1 = Some kv.2) (volume_rows volume t)) as Hall.
  { apply Forall_forall. intros [key row] [Hrow _]%elem_of_map_to_list%map_lookup_filter_Some. done. }
  apply wp_query_rows; intros rows Hrows; apply wp_bind.
  - eapply wp_mono; [apply (index_rows_ok rows t Hs); by rewrite Hrows|]. intros ok t1 H. apply wp_ret. rewrite andb_true_r. done.
  - eapply (wp_mono _ (fun _ _ => True)); [|intros ok t1 _; apply wp_ret; by rewrite andb_false_r].
    intros c Hct Ho. pose proof (index_rows_ok rows t Hs) as H. destruct (index_rows CSO rows c) as [ok c'] eqn:E. split; [done|].
    assert (Forall (fun kv => entries t !! kv.1 = Some kv.2) rows) as Hr.
    { rewrite Forall_forall in Hall |- *. intros x Hx. apply Hall. by eapply elem_of_submseteq. }
    specialize (H Hr c Hct Ho). rewrite E in H. apply H.
Qed.

Lemma rebuild_volumes_index_ok ids t :
  index_sound (fun _ => True) t ->
  wp (rebuild_volumes_index CSO ids) (fun _ t' => index_sound (fun _ => True) t' /\ same_base t t') t.
Proof.
  revert t. induction ids as [|id ids IH]; intros t Hs; cbn [rebuild_volumes_index]; [by apply wp_ret|].
  apply wp_bind. eapply wp_mono; [by apply rebuild_volume_index_ok|]. intros ok t1 [Hs1 Hb1].
  destruct ok; cbn [negb]; [|by apply wp_ret]. eapply wp_mono; [by apply IH|]. intros ok t2 [Hs2 Hb2]. split; [done|by etrans].
Qed.

(** Distinct mapped keys, all of them entries, and as many as there are entries. *)
Lemma index_complete t :
  index_sound (fun _ => True) t -> size (index_map t) = size (entries t) -> index_ok t.
Proof.
  intros Hs Hsize. split; [done|]. intros key Hkey. apply elem_of_dom.
  assert (dom (index_map t) ⊆ dom (entries t)) as Hsub.
  { intros k Hk. apply elem_of_dom in Hk as [r Hr]. destruct (is_row _ _ Hs k r I Hr) as (row & Hrow & _). apply elem_of_dom. eauto. }
  rewrite (set_subseteq_size_eq _ _ Hsub); [by apply elem_of_dom|]. rewrite !size_dom. lia.
Qed.

Lemma mark_ready_ok signature t :
  index_sound (fun _ => True) t -> is_Some (index_meta t) ->
  wp (mark_ready signature) (fun ok t' => volumes t' = volumes t /\ sqlite_sequence t' = sqlite_sequence t /\ entries t' = entries t /\
    if ok then index_ok t' /\ index_meta t' = Some (1, to_signed64 signature) else t' = t) t.
Proof.
  intros Hs [m Hm]. unfold mark_ready. apply wp_transaction; [|done]. wp_step. wp_step; cbn [negb]; [|by apply wp_ret].
  apply wp_bind, wp_query; [|by apply wp_ret]. destruct (Nat.eqb_spec (size (index_map t)) (size (entries t))) as [E|]; [|by apply wp_ret].
  repeat (wp_step || done). intros _. cbn [set_meta volumes sqlite_sequence entries index_meta]. rewrite Hm.
  split; [done|]. split; [done|]. split; [done|]. split; [|done].
  destruct (index_complete t Hs E) as [[H1 H2 H3] H4]. split; [by split|exact H4].
Qed.

(** The rebuild never touches the entries; the marker says ready only for a complete index. *)
Lemma RebuildCandidateIndex_ok t :
  wp (RebuildCandidateIndex CSO) (fun ok t' =>
    volumes t' = volumes t /\ sqlite_sequence t' = sqlite_sequence t /\ entries t' = entries t /\
    if ok then index_ok t' /\ index_meta t' = Some (1, to_signed64 (HostFoldSignature CSO))
    else t' = t \/ index_meta t' = Some (0, 0)) t.
Proof.
  unfold RebuildCandidateIndex, rebuild_candidate_index. apply wp_bind. set (t0 := mkTables (volumes t) (sqlite_sequence t) (entries t) ∅ ∅ ∅ (Some (0, 0))).
  eapply (wp_mono _ (fun (ok : bool) t' => if ok then t' = t0 else t' = t)).
  { apply wp_transaction; [|done]. unfold clear_index_statements. cbn [exec_all]. repeat (wp_step || done). }
  intros [] t1 ->; cbn [negb]; [|apply wp_ret; auto].
  assert (index_sound (fun _ => True) t0) as Hs0.
  { split; cbn; [by intros k r _ ?%lookup_empty_Some|by intros k k' r ?%lookup_empty_Some|].
    intros r [[x Hx]|Hx]; [by rewrite lookup_empty in Hx|set_solver]. }
  wp_step. wp_step; cbn [negb]; [|apply wp_ret; auto]. apply wp_bind, wp_query_rows; intros ids Hids; cbn [negb]; [|apply wp_ret; auto].
  apply wp_bind. eapply wp_mono; [by apply rebuild_volumes_index_ok|]. intros ok t2 [Hs2 (Hv & Hq & He & Hm)].
  assert (volumes t2 = volumes t /\ sqlite_sequence t2 = sqlite_sequence t /\ entries t2 = entries t) as (Hv2 & Hq2 & He2) by done.
  destruct ok; cbn [negb]; [|apply wp_ret; auto]. eapply wp_mono; [apply mark_ready_ok; [done|by rewrite Hm]|].
  intros ok t3 (Hv3 & Hq3 & He3 & H). rewrite Hv3, Hq3, He3. split; [done|]. split; [done|]. split; [done|].
  destruct ok; [done|]. subst t3. right. done.
Qed.

(** ** The invariant of the store *)

Lemma index_ok_ext t t' :
  entries t' = entries t -> index_map t' = index_map t -> name_terms t' = name_terms t -> name_exceptions t' = name_exceptions t ->
  index_ok t -> index_ok t'.
Proof.
  intros He Hm Ht Hx [[H1 H2 H3] H4]. unfold index_ok. split; [split|]; unfold indexed_row in *; by rewrite ?He, ?Hm, ?Ht, ?Hx.
Qed.

(** Every stored name is the encoding of one. *)
Definition encoded (bytes : list Z) : Prop := exists name, Forall is_unit name /\ bytes = Utf16ToUtf8 name.

Definition names_ok (t : Tables) : Prop := map_Forall (fun _ row => encoded (row_name row)) (entries t).

Record store_ok (t : Tables) : Prop := {
  so_keys : keys_ok t;
  so_foreign : map_Forall (fun key _ => is_Some (volumes t !! key.1.1)) (entries t);
  so_ids : map_Forall (fun id _ => 1 <= id <= sqlite_sequence t) (volumes t);
  so_unique : forall id id' v v', volumes t !! id = Some v -> volumes t !! id' = Some v' ->
    volume_guid v = volume_guid v' -> serial_number v = serial_number v' -> id = id';
  so_sequence : 0 <= sqlite_sequence t;
  so_names : names_ok t;
  so_ready : forall signature, index_meta t = Some (1, signature) -> index_ok t
}.

(** The parts of the invariant that speak of every row. *)
Definition rows_known (t : Tables) : Prop :=
  map_Forall (fun key _ => is_Some (volumes t !! key.1.1)) (entries t) /\ names_ok t.

Lemma same_base_known t t' : same_base t t' -> rows_known t -> rows_known t'.
Proof. intros (Hv & _ & He & _). unfold rows_known, names_ok. by rewrite Hv, He. Qed.

Lemma encoded_row fields record old :
  Forall is_unit (r_name record) -> encoded (row_name old) -> encoded (row_name (updated_row fields (inserted_row record fields) old)).
Proof.
  intros Hn Hold. unfold updated_row, inserted_row, HasEntryField, kEntryFieldName. cbn [row_name].
  destruct (negb (Z.land fields 2 =? 0)); [|done]. by exists (r_name record).
Qed.

Lemma encoded_new fields record : Forall is_unit (r_name record) -> encoded (row_name (inserted_row record fields)).
Proof. intros Hn. cbn [inserted_row row_name]. case_match; [by exists (r_name record)|by exists []]. Qed.

Lemma apply_change_known volume change t :
  rows_known t -> change_ok change ->
  wp (apply_change CSO volume change) (fun ok t' => ok = true -> rows_known t') t.
Proof.
  intros [Hf Hn] Hc. pose proof (st_name _ Hc) as Hcn. unfold apply_change. destruct (change_kind change).
  - apply wp_bind, wp_exec; [|by apply wp_ret]. unfold upsert_statement. destruct (volumes t !! volume) eqn:Ev; [|done]. intros t1 [= <-]. cbn [negb].
    eapply wp_mono; [apply CandidateIndexUpsert_base|]. intros ok t2 Hb _. eapply same_base_known; [exact Hb|].
    split; apply map_Forall_insert_2; [cbn; by rewrite Ev|done| |done].
    destruct (entries t !! _) eqn:E; [apply encoded_row; [done|by eapply Hn]|by apply encoded_new].
  - apply wp_bind, wp_exec; [|by apply wp_ret]. intros t1 [= <-]. cbn [negb].
    eapply wp_mono; [apply CandidateIndexRemove_base|]. intros ok t2 Hb _. eapply same_base_known; [exact Hb|].
    split; by apply map_Forall_delete.
Qed.

Lemma apply_changes_known volume changes t :
  rows_known t -> Forall change_ok changes ->
  wp (apply_changes CSO volume changes) (fun ok t' => ok = true -> rows_known t') t.
Proof.
  revert t. induction changes as [|change changes IH]; intros t Hf Hall; cbn [apply_changes]; [by apply wp_ret|].
  apply Forall_cons in Hall as [Hc Hall]. apply wp_bind. eapply wp_mono; [by apply apply_change_known|].
  intros ok t1 H. destruct ok; cbn [negb]; [apply IH; [by apply H|done]|by apply wp_ret].
Qed.

Lemma ApplyBatch_store_ok volume changes t :
  store_ok t -> Forall change_ok changes ->
  wp (ApplyBatch CSO volume changes) (fun ok t' => store_ok t' /\
    if ok then Durable t' = foldl (spec_change volume) (Durable t) changes else t' = t) t.
Proof.
  intros Hok Hall. pose proof Hok as [Hk Hf Hi Hu Hq Hn Hr].
  eapply wp_mono; [apply wp_and; [by apply ApplyBatch_ok|]|].
  - instantiate (1 := fun ok t' => ok = true -> rows_known t').
    unfold ApplyBatch. apply wp_when_open. destruct changes as [|c changes]; [by apply wp_ret|]. apply wp_transaction; [|done].
    repeat (wp_step || done). eapply wp_mono; [by apply apply_changes_known|]. intros ok t1 H1 H2 _. by apply H1.
  - intros [] t'; [|by intros [-> _]]. intros [[Hk' HD (Hv' & Hq' & Hm') Hi'] Hf']. destruct (Hf' eq_refl) as [Hf1 Hn1]. split; [|done].
    split; rewrite ?Hv', ?Hq'; [done| |done|done|done|done|].
    + intros key row Hrow. rewrite <-Hv'. by eapply Hf1.
    + intros sig. rewrite Hm'. intros Hs. by eapply Hi', Hr.
Qed.

Lemma ForgetVolume_store_ok volume t :
  store_ok t ->
  wp (ForgetVolume volume) (fun ok t' => store_ok t' /\
    if ok then Durable t' = filter (fun kv => volumeRowId kv.1 <> volume) (Durable t) else t' = t) t.
Proof.
  intros Hok. pose proof Hok as [Hk Hf Hi Hu Hq Hn Hr]. eapply wp_mono; [by apply ForgetVolume_ok|].
  intros [] t'; [|by intros ->]. intros [(v & Hv & Ha) Hk' HD He (Hv' & Hq' & Hm') Hi']. split; [|done].
  split; rewrite ?Hv', ?Hq'; unfold names_ok; rewrite ?He; [done| |by apply map_Forall_delete| |done| |].
  - intros key row [Hrow Hne]%map_lookup_filter_Some. rewrite lookup_delete_ne by (by intros ->). by eapply Hf.
  - intros id id' w w' [_ Hw]%lookup_delete_Some [_ Hw']%lookup_delete_Some. by apply (Hu id id' w w').
  - intros key row [Hrow _]%map_lookup_filter_Some. by eapply Hn.
  - intros sig. rewrite Hm'. intros Hs. by eapply Hi', Hr.
Qed.

Lemma find_volume_spec key t :
  match find_volume key t with
  | Some id => exists v, volumes t !! id = Some v /\ volume_guid v = volumeGuid key /\ serial_number v = serialNumber key
  | None => forall id v, volumes t !! id = Some v -> volume_guid v = volumeGuid key -> serial_number v <> serialNumber key
  end.
Proof.
  unfold find_volume. destruct (List.find _ _) as [[id v]|] eqn:E; cbn.
  - apply List.find_some in E as [Hin Hk]. cbn in Hk. apply list_elem_of_In, elem_of_map_to_list in Hin. unfold has_key in Hk.
    apply andb_true_iff in Hk as [Hg%bool_decide_eq_true Hs%Z.eqb_eq]. eauto.
  - intros id v Hv Hg Hs. assert (In (id, v) (map_to_list (volumes t))) as Hin by (by apply list_elem_of_In, elem_of_map_to_list).
    pose proof (List.find_none _ _ E _ Hin) as Hk. cbn in Hk. unfold has_key in Hk. rewrite bool_decide_eq_true_2, Hs, Z.eqb_refl in Hk by done. done.
Qed.

(** The id belongs to the key; a new id was never used before. *)
Lemma GetOrCreateVolume_ok key t :
  store_ok t ->
  wp (GetOrCreateVolume key) (fun '(id, created) t' => store_ok t' /\ Durable t' = Durable t /\
    match id with
    | None => t' = t
    | Some id => (exists v, volumes t' !! id = Some v /\ volume_guid v = volumeGuid key /\ serial_number v = serialNumber key) /\
        if created : bool then sqlite_sequence t < id else t' = t
    end) t.
Proof.
  intros Hok. pose proof Hok as [Hk Hf Hi Hu Hq Hn Hr]. unfold GetOrCreateVolume. wp_step. wp_step. wp_step; cbn [negb]; [|by apply wp_ret].
  assert (wp (let! valid := call in if negb valid then sql_ret (None, false) else
    let! inserted := exec (insert_volume_statement key) in if negb inserted then sql_ret (None, false)
    else let! t := get_tables in sql_ret (Some (sqlite_sequence t), true)) (fun '(id, created) t' => store_ok t' /\ Durable t' = Durable t /\
    match id with
    | None => t' = t
    | Some id => (exists v, volumes t' !! id = Some v /\ volume_guid v = volumeGuid key /\ serial_number v = serialNumber key) /\
        if created : bool then sqlite_sequence t < id else t' = t
    end) t) as Hins.
  { wp_step. wp_step; cbn [negb]; [|by apply wp_ret]. apply wp_bind, wp_exec; [|by apply wp_ret].
    unfold insert_volume_statement. pose proof (find_volume_spec key t) as Hfind. destruct (find_volume key t); [done|].
    intros t1 [= <-]. cbn [negb]. apply wp_bind, wp_get, wp_ret. cbn [volumes sqlite_sequence].
    assert (volumes t !! (sqlite_sequence t + 1) = None) as Hnew.
    { destruct (volumes t !! _) eqn:E; [|done]. apply Hi in E. cbn in E. lia. }
    split; [split; cbn [volumes sqlite_sequence entries]|split; [done|split; [|lia]]].
    - exact Hk.
    - intros k row Hrow. destruct (Hf k row Hrow) as [v Hv]. rewrite lookup_insert_ne by congruence. by exists v.
    - apply map_Forall_insert_2; [lia|]. intros id v Hv. apply Hi in Hv. cbn in *. lia.
    - intros id id' v v' [[<- <-]|[? Hv]]%lookup_insert_Some [[<- E]|[? Hv']]%lookup_insert_Some; subst; cbn; try done.
      + intros Eg Es. symmetry in Eg, Es. by destruct (Hfind id' v' Hv' Eg).
      + intros Eg Es. by destruct (Hfind id v Hv Eg).
      + by apply (Hu id id' v v').
    - lia.
    - exact Hn.
    - intros sig Hs. by eapply index_ok_ext, (Hr sig).
    - eexists. by rewrite lookup_insert_eq. }
  apply wp_bind, wp_query; [|exact Hins]. pose proof (find_volume_spec key t) as Hfind. destruct (find_volume key t); [|exact Hins].
  apply wp_ret. split; [done|]. split; [done|]. by split.
Qed.

(** Updating a volume's columns keeps its key. *)
Lemma update_volume_store_ok volume f t :
  store_ok t -> (forall v, volume_guid (f v) = volume_guid v /\ serial_number (f v) = serial_number v) ->
  wp (update_volume volume f) (fun ok t' => store_ok t' /\ Durable t' = Durable t /\
    if ok then volumes t' = alter f volume (volumes t) else t' = t) t.
Proof.
  intros Hok Hkeep. pose proof Hok as [Hk Hf Hi Hu Hq Hn Hr]. unfold update_volume. wp_step. wp_step. wp_step; cbn [negb]; [|by apply wp_ret].
  apply wp_exec; [|done]. intros t' [= <-]. split; [split; cbn|done].
  - exact Hk.
  - intros k row Hrow. destruct (Hf k row Hrow) as [v Hv]. rewrite lookup_alter. case_decide as E; rewrite ?E, Hv; eauto.
  - intros id v. rewrite lookup_alter. case_decide as E; [|apply Hi]. intros (v0 & Hv0 & _)%fmap_Some. subst id. by eapply Hi.
  - assert (forall id v, alter f volume (volumes t) !! id = Some v -> exists v0, volumes t !! id = Some v0 /\
      volume_guid v = volume_guid v0 /\ serial_number v = serial_number v0) as Hinv.
    { intros id v. rewrite lookup_alter. case_decide as E; [|eauto]. intros (v0 & Hv0 & ->)%fmap_Some. subst id. exists v0. by destruct (Hkeep v0). }
    intros id id' v v' (v0 & H0 & Eg & Es)%Hinv (v0' & H0' & Eg' & Es')%Hinv E1 E2. apply (Hu id id' v0 v0'); congruence.
  - done.
  - exact Hn.
  - intros sig Hs. by eapply index_ok_ext, (Hr sig).
Qed.
End index.

(** ** Reading the rows back *)

(** A list of records with distinct ids, read in any order. *)
Lemma lookup_stream_records volume records k r :
  NoDup (r_id <$> records) ->
  stream_records volume ∅ records !! k = Some r <-> r ∈ records /\ k = mkEntryKey volume (r_id r).
Proof.
  intros Hnd. enough (forall g, stream_records volume g records !! k = Some r <->
    (r ∈ records /\ k = mkEntryKey volume (r_id r)) \/ (g !! k = Some r /\ forall r', r' ∈ records -> k <> mkEntryKey volume (r_id r'))) as H.
  { rewrite H, lookup_empty. split; [intros [?|[[=] _]]; done|by left]. }
  induction records as [|x records IH]; intros g.
  { cbn. split; [intros ?; right; split; [done|set_solver]|intros [[? _]|[? _]]; [set_solver|done]]. }
  rewrite fmap_cons in Hnd. apply NoDup_cons in Hnd as [Hx Hnd].
  change (stream_records volume g (x :: records)) with (stream_records volume (<[mkEntryKey volume (r_id x) := x]> g) records).
  rewrite IH by done. setoid_rewrite elem_of_cons. split.
  - intros [[Hr ->]|[[[<- <-]|[Hne Hg]]%lookup_insert_Some Hall]]; [by left; auto|by left; auto|].
    right. split; [done|]. intros r' [->|Hr']; [done|by apply Hall].
  - intros [[[->|Hr] ->]|[Hg Hall]].
    + right. rewrite lookup_insert_eq. split; [done|]. intros r' Hr' [= E]. apply Hx. rewrite E. apply list_elem_of_fmap. eauto.
    + left. auto.
    + right. split; [|by intros r' Hr'; apply Hall; auto]. rewrite lookup_insert_ne; [done|]. intros E. symmetry in E. revert E. apply Hall. auto.
Qed.

Section reading.
Context {DB : Sqlite}.

Lemma volume_rows_ids volume t rows : keys_ok t -> rows ⊆+ volume_rows volume t ->
  NoDup ((fun kv => r_id (ReadEntryRecord kv.1 kv.2)) <$> rows) /\
  forall kv, kv ∈ rows -> entries t !! kv.1 = Some kv.2 /\ kv.1.1.1 = volume.
Proof.
  intros Hk Hsub.
  assert (forall kv, kv ∈ rows -> entries t !! kv.1 = Some kv.2 /\ kv.1.1.1 = volume) as Hin.
  { intros [key row] H. eapply elem_of_submseteq in H; [|exact Hsub].
    apply elem_of_map_to_list, map_lookup_filter_Some in H as [? ?]. done. }
  split; [|done]. apply NoDup_fmap_2_strong.
  - intros [key row] [key' row'] H H' E. destruct (Hin _ H) as [Hr Hv], (Hin _ H') as [Hr' Hv']. cbn in *.
    assert (key = key') as ->; [|congruence]. apply entry_key_inj; [by eapply Hk..|]. unfold entry_key. cbn in E. by rewrite E, Hv, Hv'.
  - apply submseteq_Permutation in Hsub as [l Hl]. pose proof (NoDup_map_to_list (filter (fun kv => kv.1.1.1 = volume) (entries t))) as H.
    unfold volume_rows in Hl. rewrite Hl in H. by apply NoDup_app in H as [? _].
Qed.

(** A completed read delivers exactly the durable records of the volume. *)
Lemma SelectEntries_ok volume t :
  keys_ok t ->
  wp (SelectEntries volume) (fun c t' => t' = t /\
    (completed c = true -> prepared c = true /\ forall k, volumeRowId k = volume ->
       Durable t !! k = stream_records volume ∅ (delivered c) !! k) /\
    NoDup (r_id <$> delivered c) /\
    forall r, r ∈ delivered c -> Durable t !! mkEntryKey volume (r_id r) = Some r) t.
Proof.
  intros Hk. unfold SelectEntries. wp_step. wp_step. wp_step; cbn [negb]; [|apply wp_ret; cbn; split; [done|split; [done|split; [constructor|set_solver]]]].
  assert (forall rows, rows ⊆+ volume_rows volume t ->
    let records := (fun kv => ReadEntryRecord kv.1 kv.2) <$> rows in
    NoDup (r_id <$> records) /\ forall r, r ∈ records -> Durable t !! mkEntryKey volume (r_id r) = Some r) as Hrows.
  { intros rows Hsub records. destruct (volume_rows_ids volume t rows Hk Hsub) as [Hnd Hin].
    split; [unfold records; by rewrite <-list_fmap_compose|]. intros r ([key row] & -> & H)%list_elem_of_fmap.
    destruct (Hin _ H) as [Hr Hv]. apply lookup_Durable; [done|]. exists key, row. split; [done|]. split; [|done].
    unfold entry_key. cbn in *. by rewrite Hv. }
  apply wp_bind, wp_query_rows; intros rows Hperm; apply wp_ret; cbn [completed delivered prepared].
  - destruct (Hrows rows) as [Hnd Hd]; [by rewrite Hperm|]. split; [done|]. split; [|done]. intros _. split; [done|]. intros k Hv.
    apply option_eq. intros r. rewrite (lookup_stream_records volume _ k r Hnd), (lookup_Durable t k r Hk). split.
    + intros (key & row & Hrow & <- & <-). split; [|by rewrite <-Hv]. apply list_elem_of_fmap. exists (key, row). split; [done|].
      rewrite Hperm. by apply elem_of_map_to_list, map_lookup_filter_Some.
    + intros [Hr ->]. by apply lookup_Durable, Hd.
  - destruct (Hrows rows Hperm) as [Hnd Hd]. split; [done|]. split; [done|]. by split.
Qed.

Lemma ListEntryIds_ok volume t :
  keys_ok t ->
  wp (ListEntryIds volume) (fun '(ids, finished) t' => t' = t /\
    (forall id, id ∈ ids -> is_Some (Durable t !! mkEntryKey volume id) /\ id_in_range id) /\
    (finished = true -> forall id, is_Some (Durable t !! mkEntryKey volume id) -> id ∈ ids)) t.
Proof.
  intros Hk. unfold ListEntryIds. wp_step. wp_step. wp_step; cbn [negb]; [|apply wp_ret; split; [done|split; [set_solver|done]]].
  assert (forall rows, rows ⊆+ volume_rows volume t -> forall id, id ∈ (fun kv => ReadFileId kv.1.1.2 kv.1.2) <$> rows ->
    is_Some (Durable t !! mkEntryKey volume id) /\ id_in_range id) as Hrows.
  { intros rows Hsub id ([key row] & -> & H)%list_elem_of_fmap. destruct (volume_rows_ids volume t rows Hk Hsub) as [_ Hin].
    destruct (Hin _ H) as [Hr Hv]. cbn in *. split; [|split; apply wrap64_range]. exists (ReadEntryRecord key row). apply lookup_Durable; [done|].
    exists key, row. split; [done|]. split; [|done]. unfold entry_key. by rewrite Hv. }
  apply wp_bind, wp_query_rows; intros rows Hperm; apply wp_ret; (split; [done|]; split; [apply Hrows; by rewrite Hperm|]); [|done].
  intros _ id [r Hr]. apply lookup_Durable in Hr as (key & row & Hrow & E & _); [|done]. injection E as Hv Hid.
  apply list_elem_of_fmap. exists (key, row). split; [done|]. rewrite Hperm. by apply elem_of_map_to_list, map_lookup_filter_Some.
Qed.
End reading.

(** ** Properties *)

Definition next_rowid (s : gset Z) : Z := foldr Z.max 0 (elements s) + 1.

Lemma next_rowid_fresh s : next_rowid s ∉ s.
Proof.
  intros Hin. apply elem_of_elements in Hin. unfold next_rowid in Hin.
  enough (forall l x, x ∈ l -> x <= foldr Z.max 0 l) as H by (apply H in Hin; lia).
  induction l as [|y l IH]; intros x Hx; [set_solver|]. cbn. apply elem_of_cons in Hx as [->|Hx%IH]; lia.
Qed.

(** A connection whose call [n] fails, and no other; the largest row id plus one is taken. *)
Definition failing_call (n : option nat) : Sqlite := {|
  succeeds i := negb (bool_decide (n = Some i));
  breaks_off _ := None;
  delivery A _ l := l;
  delivery_perm A _ l := reflexivity l;
  new_rowid := next_rowid;
  new_rowid_fresh := next_rowid_fresh
|}.

Definition empty_tables : Tables := mkTables ∅ 0 ∅ ∅ ∅ ∅ None.

(** A database with the volume [id] and nothing else. *)
Definition volume_tables (id : Z) : Tables :=
  mkTables {[id := new_volume_row (mkVolumeKey (replicate 16 7) 99)]} id ∅ ∅ ∅ ∅ (Some (1, 5)).

Lemma volume_tables_ok CSO id : 1 <= id -> store_ok CSO (volume_tables id).
Proof.
  intros Hid. split; cbn.
  - apply map_Forall_empty.
  - apply map_Forall_empty.
  - apply map_Forall_singleton. lia.
  - intros i i' v v' [<- _]%lookup_singleton_Some [<- _]%lookup_singleton_Some _ _. done.
  - lia.
  - apply map_Forall_empty.
  - intros sig _. split; [split; cbn|].
    + by intros k r _ ?%lookup_empty_Some.
    + by intros k k' r ?%lookup_empty_Some.
    + intros r [[x Hx]|Hx]; [by rewrite lookup_empty in Hx|set_solver].
    + intros key [row Hrow]. cbn in Hrow. by rewrite lookup_empty in Hrow.
Qed.

Definition sample_changes : list EntryChange := [
  mkChange ChangeUpsert (mkRecord (mkFileId 5 0) (mkFileId 5 0) [67; 58] 0 0 false 1 2 3 16) kEntryFieldMaskAll;
  mkChange ChangeUpsert (mkRecord (mkFileId 30 0) (mkFileId 5 0) [82; 233; 383] 70 4096 true 1 2 3 32) kEntryFieldMaskAll;
  mkChange ChangeUpsert (mkRecord (mkFileId 30 0) (mkFileId 0 0) [] 71 0 false 0 9 0 0)
    (Z.lor kEntryFieldSizeBytes kEntryFieldLastModifiedTime);
  mkChange ChangeRemove (mkRecord (mkFileId 5 0) (mkFileId 0 0) [] 0 0 false 0 0 0 0) kEntryFieldMaskAll ].

Lemma sample_changes_ok : Forall change_ok sample_changes.
Proof.
  repeat (apply Forall_cons; split; [split; cbn; unfold id_in_range, SIZE_MAX, is_unit; cbn; try done; try lia|]).
  all: repeat (apply Forall_nil || (apply Forall_cons; split; [unfold is_unit; lia|])). all: done.
Qed.

(** C16. A batch is atomic: whichever call on the connection fails, either [ApplyBatch] returns
    true and the durable records are those that the changes, one after the other, make of the
    old ones (an upsert keeps the fields its mask leaves out, a new row has them zero), or it
    returns false and no table has changed.  The invariant of the store is kept: entries
    belong to known volumes, and a candidate index that is marked ready has, for every entry,
    the folded name and the side-set membership of the stored name. *)
Theorem ApplyBatch_atomic (DB : Sqlite) CSO volume changes c :
  opened c = true -> store_ok CSO (tables c) -> Forall change_ok changes ->
  let '(ok, c') := ApplyBatch CSO volume changes c in
  store_ok CSO (tables c') /\
  if ok then Durable (tables c') = foldl (spec_change volume) (Durable (tables c)) changes else tables c' = tables c.
Proof.
  intros Ho Hok Hall. pose proof (ApplyBatch_store_ok CSO volume changes (tables c) Hok Hall c eq_refl Ho) as H.
  destruct (ApplyBatch CSO volume changes c). apply H.
Qed.

Lemma ApplyBatch_atomic_witness :
  (ApplyBatch (DB := failing_call None) ascii_ordinal 1 sample_changes (mkConnection true (volume_tables 1) 0)).1 = true /\
  (ApplyBatch (DB := failing_call (Some 20%nat)) ascii_ordinal 1 sample_changes (mkConnection true (volume_tables 1) 0)).1 = false /\
  tables (ApplyBatch (DB := failing_call (Some 20%nat)) ascii_ordinal 1 sample_changes (mkConnection true (volume_tables 1) 0)).2 = volume_tables 1 /\
  Durable (tables (ApplyBatch (DB := failing_call None) ascii_ordinal 1 sample_changes (mkConnection true (volume_tables 1) 0)).2) =
    foldl (spec_change 1) (Durable (volume_tables 1)) sample_changes.
Proof.
  pose proof (ApplyBatch_atomic (failing_call None) ascii_ordinal 1 sample_changes (mkConnection true (volume_tables 1) 0)
    eq_refl (volume_tables_ok ascii_ordinal 1 ltac:(lia)) sample_changes_ok) as H.
  assert ((ApplyBatch (DB := failing_call None) ascii_ordinal 1 sample_changes (mkConnection true (volume_tables 1) 0)).1 = true) as E
    by (vm_compute; reflexivity).
  split; [exact E|]. split; [vm_compute; reflexivity|]. split; [vm_compute; reflexivity|].
  destruct (ApplyBatch (DB := failing_call None) ascii_ordinal 1 sample_changes (mkConnection true (volume_tables 1) 0)) as [ok c'].
  cbn in E. subst ok. apply H.
Defined.

(** ** Any sequence of operations *)

Inductive store_op :=
| StoreApply (volume : Z) (changes : list EntryChange)
| StoreForget (volume : Z)
| StoreVolume (key : VolumeKey)
| StoreAvailable (volume : Z) (isAvailable : bool) (now : Z)
| StoreJournal (volume journalId resumeUsn : Z)
| StoreCursor (volume : Z) (cursor : list Z)
| StoreComplete (volume : Z)
| StoreReconciled (volume now : Z)
| StoreRebuildIndex.

Definition op_storable (o : store_op) : Prop :=
  match o with StoreApply _ changes => Forall change_ok changes | _ => True end.

Section runs.
Context {DB : Sqlite} (CSO : list Z -> list Z -> Z).

Definition run_store_op (o : store_op) : Sql Tables bool :=
  match o with
  | StoreApply volume changes => ApplyBatch CSO volume changes
  | StoreForget volume => ForgetVolume volume
  | StoreVolume key => let! '(id, _) := GetOrCreateVolume key in sql_ret (bool_decide (is_Some id))
  | StoreAvailable volume isAvailable now => let! '(ok, _) := SetVolumeAvailable volume isAvailable now in sql_ret ok
  | StoreJournal volume journalId resumeUsn => SetJournalPosition volume journalId resumeUsn
  | StoreCursor volume cursor => SetScanCursor volume cursor
  | StoreComplete volume => MarkScanComplete volume
  | StoreReconciled volume now => SetLastReconciliationTime volume now
  | StoreRebuildIndex => RebuildCandidateIndex CSO
  end.

Fixpoint run_store (os : list store_op) : Sql Tables (list bool) :=
  match os with
  | [] => sql_ret []
  | o :: os => let! ok := run_store_op o in let! oks := run_store os in sql_ret (ok :: oks)
  end.

Lemma SetVolumeAvailable_ok volume isAvailable now t :
  store_ok CSO t ->
  wp (SetVolumeAvailable volume isAvailable now) (fun '(ok, changed) t' => store_ok CSO t' /\ Durable t' = Durable t /\
    (ok = true -> exists v v', volumes t !! volume = Some v /\ volumes t' !! volume = Some v' /\
       (available v' =? 0) = negb isAvailable /\ (changed = true <-> (available v =? 0) <> (available v' =? 0)))) t.
Proof.
  intros Hok. unfold SetVolumeAvailable. wp_step. wp_step. wp_step; cbn [negb]; [|by apply wp_ret].
  apply wp_bind, wp_query; [|by apply wp_ret]. destruct (volumes t !! volume) as [v|] eqn:Ev; [|by apply wp_ret].
  apply wp_bind. eapply wp_mono; [by apply update_volume_store_ok|]. intros ok t' (Hok' & HD & Hv). apply wp_ret.
  split; [done|]. split; [done|]. intros ->. rewrite Hv, lookup_alter, Ev. rewrite decide_True by done. cbn. eexists _, _.
  split; [done|]. split; [done|]. cbn. destruct isAvailable, (available v =? 0); cbn; rewrite ?bool_decide_eq_true_2, ?bool_decide_eq_false_2 by done; done.
Qed.

Lemma RebuildCandidateIndex_store_ok t :
  store_ok CSO t -> wp (RebuildCandidateIndex CSO) (fun ok t' => store_ok CSO t' /\ Durable t' = Durable t /\
    (ok = true -> index_ok CSO t' /\ index_meta t' = Some (1, to_signed64 (HostFoldSignature CSO)))) t.
Proof.
  intros [Hk Hf Hi Hu Hq Hn Hr]. eapply wp_mono; [apply RebuildCandidateIndex_ok|]. intros ok t' (Hv & Hs & He & Hcase).
  split; [|split; [unfold Durable; by rewrite He|by intros ->]].
  split; unfold keys_ok, names_ok in *; rewrite ?Hv, ?Hs, ?He; [done..|].
  intros sig Hm. destruct ok; [apply Hcase|]. destruct Hcase as [->|Hm']; [by apply (Hr sig)|congruence].
Qed.

Lemma run_store_op_ok o t :
  store_ok CSO t -> op_storable o -> wp (run_store_op o) (fun _ => store_ok CSO) t.
Proof.
  intros Hok Ho. destruct o; cbn [run_store_op op_storable] in *.
  - eapply wp_mono; [by apply ApplyBatch_store_ok|]. by intros ? ? [? _].
  - eapply wp_mono; [by apply ForgetVolume_store_ok|]. by intros ? ? [? _].
  - apply wp_bind. eapply wp_mono; [by apply GetOrCreateVolume_ok|]. intros [id created] t' [? _]. by apply wp_ret.
  - apply wp_bind. eapply wp_mono; [by apply SetVolumeAvailable_ok|]. intros [ok changed] t' [? _]. by apply wp_ret.
  - eapply wp_mono; [by apply update_volume_store_ok|]. by intros ? ? [? _].
  - eapply wp_mono; [by apply update_volume_store_ok|]. by intros ? ? [? _].
  - eapply wp_mono; [by apply update_volume_store_ok|]. by intros ? ? [? _].
  - eapply wp_mono; [by apply update_volume_store_ok|]. by intros ? ? [? _].
  - eapply wp_mono; [by apply RebuildCandidateIndex_store_ok|]. by intros ? ? [? _].
Qed.

Lemma run_store_ok os t :
  store_ok CSO t -> Forall op_storable os -> wp (run_store os) (fun _ => store_ok CSO) t.
Proof.
  revert t. induction os as [|o os IH]; intros t Hok Hall; cbn [run_store]; [by apply wp_ret|].
  apply Forall_cons in Hall as [Ho Hall]. apply wp_bind. eapply wp_mono; [by apply run_store_op_ok|]. intros b t1 H1.
  apply wp_bind. eapply wp_mono; [by apply IH|]. intros bs t2 H2. by apply wp_ret.
Qed.
End runs.

Lemma empty_tables_ok CSO : store_ok CSO empty_tables.
Proof. split; [apply map_Forall_empty..| |done|apply map_Forall_empty|done]. intros id id' v v' H. cbn in H. by rewrite lookup_empty in H. Qed.

(** C18. Starting from an empty database, after any sequence of batches, forgotten and new
    volumes, status updates and index rebuilds, with any calls failing anywhere: every entry
    belongs to a volume of the table, no two volumes have the same key, and when the candidate
    index is marked ready it is complete and exact: every entry is mapped, its term is the
    folded stored name, and it is in the side set exactly when its name needs it.  A rebuild that then
    succeeds marks it ready.  (Searches do not use an index that is not marked.) *)
Theorem store_invariant (DB : Sqlite) CSO os c :
  opened c = true -> tables c = empty_tables -> Forall op_storable os ->
  let c1 := (run_store CSO os c).2 in
  store_ok CSO (tables c1) /\
  forall c2, RebuildCandidateIndex CSO c1 = (true, c2) ->
    index_ok CSO (tables c2) /\ index_meta (tables c2) = Some (1, to_signed64 (HostFoldSignature CSO)).
Proof.
  intros Ho Ht Hall. pose proof (run_store_ok CSO os empty_tables (empty_tables_ok CSO) Hall c Ht Ho) as H.
  destruct (run_store CSO os c) as [oks c1]. cbn [snd]. destruct H as [Hok Ho1]. split; [done|]. intros c2 E.
  pose proof (RebuildCandidateIndex_store_ok CSO (tables c1) Hok c1 eq_refl Ho1) as H. rewrite E in H. by apply H.
Qed.

Definition sample_store_ops : list store_op := [
  StoreVolume (mkVolumeKey (replicate 16 7) 99); StoreVolume (mkVolumeKey (replicate 16 8) 3); StoreApply 1 sample_changes;
  StoreApply 2 sample_changes; StoreApply 3 sample_changes; StoreAvailable 1 false 100; StoreForget 1; StoreForget 2 ].

Definition sample_store : list bool * Connection Tables :=
  run_store (DB := failing_call None) ascii_ordinal sample_store_ops (mkConnection true empty_tables 0).

Lemma RebuildCandidateIndex_signature {DB : Sqlite} CSO c :
  RebuildCandidateIndex CSO c = rebuild_candidate_index CSO (HostFoldSignature CSO) c.
Proof. reflexivity. Qed.

Lemma sample_rebuild signature :
  let '(ok, c2) := rebuild_candidate_index (DB := failing_call None) ascii_ordinal signature sample_store.2 in
  ok = true /\ size (index_map (tables c2)) = 1%nat.
Proof. vm_compute. split; reflexivity. Qed.

(** One volume and its file are left; the rebuild then succeeds and the index has exactly that file. *)
Lemma store_invariant_witness :
  sample_store.1 = [true; true; true; true; false; true; true; false] /\ size (entries (tables sample_store.2)) = 1%nat /\
  store_ok ascii_ordinal (tables sample_store.2) /\
  exists c2, RebuildCandidateIndex (DB := failing_call None) ascii_ordinal sample_store.2 = (true, c2) /\
    size (index_map (tables c2)) = 1%nat /\ index_ok ascii_ordinal (tables c2).
Proof.
  split; [vm_compute; reflexivity|]. split; [vm_compute; reflexivity|].
  destruct (store_invariant (failing_call None) ascii_ordinal sample_store_ops (mkConnection true empty_tables 0)) as [Hok Hready];
    [done|done|repeat (apply Forall_cons; split; [first [exact sample_changes_ok|done]|]); by apply Forall_nil|].
  split; [exact Hok|]. pose proof (sample_rebuild (HostFoldSignature ascii_ordinal)) as H.
  rewrite <- RebuildCandidateIndex_signature in H.
  change ((run_store ascii_ordinal sample_store_ops (mkConnection true empty_tables 0)).2) with sample_store.2 in Hready.
  destruct (RebuildCandidateIndex ascii_ordinal sample_store.2) as [ok c2]. destruct H as [-> Hsize].
  exists c2. split; [done|]. split; [exact Hsize|]. by apply (Hready c2).
Defined.
