(* ===== verification/ColdSearch.v ===== *)
(** * ColdSearch: name candidates from the durable index

    Models [StoreReadSession::CandidateIndexUsable] and [ForEachEntryWithAsciiNameUntil] of
    [src/src/indexstore/src/Store.cpp], and [ColdNamePrefilterNeedle] of
    [src/src/engine/src/IndexPipeline.cpp]: rows of a volume that is not resident are streamed
    from SQLite, narrowed by the FTS5 trigram index where that is usable and small enough, and
    otherwise by a [LIKE]/[GLOB] prefilter.

    How SQLite matches text is the class [SqliteText]: the functions, and what its
    documentation says about them.  The fault hooks and the planner probe of the tests, and
    the test switches that restore earlier behaviour, are not modelled. *)

From stdpp Require Import gmap.
From S2P Require Import Prelude TextMatch Query Utf8 FlatHashMap ChildrenMap FilenameIndex Projection Rebuild Sql Store.

(** ** Patterns *)

(** Backslash, percent sign and underscore are escaped. *)
Definition like_escape (ch : Z) : list Z :=
  if (ch =? 92) || (ch =? 37) || (ch =? 95) then [92; ch] else [ch].

Definition LikePatternForLiteralNeedle (needle : list Z) : list Z := [37] ++ (needle ≫= like_escape) ++ [37].

(** The needle as an FTS5 string: quotes are doubled. *)
Definition fts_phrase (needle : list Z) : list Z :=
  [34] ++ (needle ≫= fun ch => if ch =? 34 then [34; 34] else [ch]) ++ [34].

(** [ *[^ -~]* ]. *)
Definition kNonPrintableGlob : list Z := [42; 91; 94; 32; 45; 126; 93; 42].

(** The needle of a query that the prefilters can serve. *)
Definition ColdNamePrefilterNeedle (query : Query.Query) : option (list Z) :=
  if negb (simpleLiteralName query) then None
  else
    let folded := simpleLiteralFolded query in
    if zlen folded <? 3 then None
    else if existsb (fun ch => 127 <? ch) folded then None else Some folded.

(** The bytes of names without surrogates and without zeros: text that SQLite sees whole. *)
Definition plain_text (text : list Z) : Prop :=
  exists name, Forall (fun u => is_unit u /\ u <> 0 /\ ~ is_surrogate u) name /\ text = Utf16ToUtf8 name.

Class SqliteText := {
  fts_match : list Z -> list Z -> bool;
  like_match : list Z -> list Z -> bool;
  glob_match : list Z -> list Z -> bool;
  (** A trigram table finds substrings of three or more characters, case-sensitively. *)
  fts_substring pre needle post :
    (3 <= length needle)%nat -> Forall is_ascii_unit needle -> plain_text (pre ++ needle ++ post) ->
    fts_match (fts_phrase needle) (pre ++ needle ++ post) = true;
  (** [LIKE .. ESCAPE] finds the literal and ignores the case of ASCII letters. *)
  like_substring pre window post needle :
    Forall is_ascii_unit needle -> Forall (fun b => 0 < b) (pre ++ window ++ post) ->
    FoldAsciiUtf8 window = FoldAsciiUtf8 needle ->
    like_match (LikePatternForLiteralNeedle needle) (pre ++ window ++ post) = true;
  glob_nonprintable text b :
    Forall (fun b => 0 < b) text -> b ∈ text -> 128 <= b -> glob_match kNonPrintableGlob text = true
}.

(** ** The read session *)

Record Session := mkSession {
  isOpen : bool;
  failed_ : bool;
  candidateReadinessChecked_ : bool;
  candidateIndexUsable_ : bool
}.

Definition mark_failed (s : Session) : Session :=
  mkSession (isOpen s) true (candidateReadinessChecked_ s) (candidateIndexUsable_ s).

Definition kCandidateFallbackCap : Z := 16384.

(** [SELECT COUNT( * ) FROM (.. LIMIT cap + 1)]. *)
Definition limited_count (n : nat) : Z := Z.min (Z.of_nat n) (kCandidateFallbackCap + 1).

Section session.
Context {DB : Sqlite} {TX : SqliteText} (CompareStringOrdinal : list Z -> list Z -> Z).

(** The readiness of the index in this session's snapshot, checked once. *)
Definition CandidateIndexUsable (s : Session) : Sql Tables (bool * Session) :=
  if candidateReadinessChecked_ s then sql_ret (candidateIndexUsable_ s, s)
  else
    let unusable := mkSession (isOpen s) (failed_ s) true false in
    if negb (isOpen s) then sql_ret (false, unusable)
    else
      let! valid := call in
      if negb valid then sql_ret (false, unusable)
      else
        let! meta := query index_meta in
        match meta with
        | Some (Some (state, foldSignature)) =>
            let usable := (state =? 1) && (foldSignature =? to_signed64 (HostFoldSignature CompareStringOrdinal)) in
            sql_ret (usable, mkSession (isOpen s) (failed_ s) true usable)
        | _ => sql_ret (false, unusable)
        end.

(** ** Admission *)

Definition matching_terms (needle : list Z) (t : Tables) : list Z :=
  (map_to_list (filter (fun kv => fts_match (fts_phrase needle) kv.2 = true) (name_terms t))).*1.

(** Row ids of [rowids] that the map gives to the volume. *)
Definition in_volume (volume : Z) (rowids : list Z) (t : Tables) : list Z :=
  filter (fun rowid => rowid ∈ volume_rowids volume t) rowids.

(** Two counts; the second is not asked when the first failed. *)
Definition count_pair (f g : Tables -> nat) : Sql Tables (option Z) :=
  let! valid := prepare 2 in
  if negb valid then sql_ret None
  else
    let! a := query f in
    match a with
    | None => sql_ret None
    | Some a =>
        let! b := query g in
        sql_ret (match b with Some b => Some (limited_count a + limited_count b) | None => None end)
    end.

(** The whole database first, then the volume; [None] when the counts failed. *)
Definition admission (volume : Z) (needle : list Z) : Sql Tables (option Z) :=
  let! global := count_pair (fun t => length (matching_terms needle t)) (fun t => size (name_exceptions t)) in
  match global with
  | Some hits =>
      if hits <=? kCandidateFallbackCap then sql_ret (Some hits)
      else count_pair (fun t => length (in_volume volume (matching_terms needle t) t))
             (fun t => length (in_volume volume (elements (name_exceptions t)) t))
  | None => count_pair (fun t => length (in_volume volume (matching_terms needle t) t))
              (fun t => length (in_volume volume (elements (name_exceptions t)) t))
  end.

(** ** The rows *)

(** The join of the candidates with the map and the entries of the volume. *)
Definition is_candidate (needle : list Z) (t : Tables) (key : RowKey) : bool :=
  match index_map t !! key with
  | None => false
  | Some rowid =>
      bool_decide (rowid ∈ name_exceptions t) ||
      match name_terms t !! rowid with Some text => fts_match (fts_phrase needle) text | None => false end
  end.

Definition candidate_rows (volume : Z) (needle : list Z) (t : Tables) : list (RowKey * EntryRow) :=
  filter (fun kv => is_candidate needle t kv.1 = true) (volume_rows volume t).

(** The staged rows; [None] when the route was refused, failed or found too many. *)
Definition staged_candidates (volume : Z) (needle : list Z) : Sql Tables (option (list (RowKey * EntryRow))) :=
  let! hits := admission volume needle in
  match hits with
  | Some hits =>
      if hits <=? kCandidateFallbackCap then
        let! valid := call in
        if negb valid then sql_ret None
        else
          let! '(rows, finished) := query_rows (candidate_rows volume needle) in
          sql_ret (if finished && (zlen rows <=? kCandidateFallbackCap) then Some rows else None)
      else sql_ret None
  | None => sql_ret None
  end.

Definition prefilter_rows (volume : Z) (needle : list Z) (t : Tables) : list (RowKey * EntryRow) :=
  filter (fun kv => like_match (LikePatternForLiteralNeedle needle) (row_name kv.2) ||
                    glob_match kNonPrintableGlob (row_name kv.2) = true) (volume_rows volume t).

Section visitor.
Context {S : Type} (visitor : S -> EntryRecord -> bool * S).

(** Whether the visitor stopped the loop. *)
Fixpoint visit_all (rows : list (RowKey * EntryRow)) (s : S) : bool * S :=
  match rows with
  | [] => (false, s)
  | (key, row) :: rest =>
      let '(continue, s) := visitor s (ReadEntryRecord key row) in
      if negb continue then (true, s) else visit_all rest s
  end.

Definition ForEachEntryWithAsciiNameUntil (session : Session) (volume : Z) (asciiFoldedNeedle : list Z) (s : S)
    : Sql Tables (bool * Session * S) :=
  if negb (isOpen session) then sql_ret (false, mark_failed session, s)
  else
    let foldedNeedle := FoldAsciiUtf8 asciiFoldedNeedle in
    let needleEligible := (3 <=? zlen foldedNeedle) && forallb (fun ch => ch <? 128) foldedNeedle in
    let! '(usable, session) := if needleEligible then CandidateIndexUsable session else sql_ret (false, session) in
    let! staged := if usable then staged_candidates volume foldedNeedle else sql_ret None in
    match staged with
    | Some rows => let '(_, s) := visit_all rows s in sql_ret (true, session, s)
    | None =>
        let! valid := call in
        if negb valid then sql_ret (false, mark_failed session, s)
        else
          let! '(rows, finished) := query_rows (prefilter_rows volume asciiFoldedNeedle) in
          let '(stopped, s) := visit_all rows s in
          if stopped then sql_ret (true, session, s)
          else if finished then sql_ret (true, session, s)
          else sql_ret (false, mark_failed session, s)
    end.
End visitor.
End session.

(** ** Names, their folds and their bytes *)

Lemma FoldAsciiUtf8_fold16 s : FoldAsciiUtf8 s = FoldAscii16 s.
Proof. symmetry. apply FoldAscii16_map. Qed.

Lemma utf8_units_plain name : Forall (fun u => ~ is_surrogate u) name -> utf8_units name = name ≫= encode_point.
Proof.
  induction 1 as [|u name Hu _ IH]; [done|]. rewrite utf8_units_cons.
  assert (is_high_surrogate u = false) as E.
  { destruct (is_high_surrogate u) eqn:E; [|done]. unfold is_high_surrogate in E. bool_prop. exfalso. apply Hu. unfold is_surrogate. lia. }
  rewrite E. cbn [andb]. destruct name as [|v name]; [cbn; by rewrite app_nil_r|]. by rewrite IH.
Qed.

Lemma encode_ascii c : c <= 127 -> encode_point c = [c].
Proof. intros Hc. unfold encode_point. by rewrite (proj2 (Z.leb_le _ _) Hc). Qed.

Lemma Utf16ToUtf8_plain name : Forall (fun u => ~ is_surrogate u) name -> Utf16ToUtf8 name = name ≫= encode_point.
Proof.
  intros Hs. unfold Utf16ToUtf8. destruct (IsAscii name) eqn:Ea; [|by apply utf8_units_plain].
  clear Hs. induction name as [|c name IH]; [done|]. cbn in Ea. apply andb_true_iff in Ea as [Hc Ea]. bool_prop.
  cbn [mbind list_bind]. rewrite encode_ascii by done. by rewrite <-IH.
Qed.

(** Every byte of a longer encoding is above ASCII. *)
Lemma lead_high tag n x :
  forallb (fun x => 128 <=? Z.lor tag x) (Z.of_nat <$> seq 0 n) = true -> 0 <= x < Z.of_nat n -> 128 <= Z.lor tag x.
Proof. intros H Hx. pose proof (below_forall n _ x H Hx) as E. cbn beta in E. by bool_prop. Qed.

Lemma encode_high c : 128 <= c < 1114112 -> Forall (fun b => 128 <= b) (encode_point c).
Proof.
  intros Hc. unfold encode_point. destruct (Z.leb_spec c 127); [lia|].
  assert (forall s, 128 <= continuation_byte c s) as Hcont by (intros s; apply (continuation_bits _ (low_bits c s))).
  destruct (Z.leb_spec c 2047); [|destruct (Z.leb_spec c 65535)]; repeat (apply Forall_cons; split); try apply Hcont; try apply Forall_nil; try done.
  - apply (lead_high 192 32); [reflexivity|]. apply (shiftr_range c 6 5); lia.
  - apply (lead_high 224 16); [reflexivity|]. apply (shiftr_range c 12 4); lia.
  - apply (lead_high 240 8); [reflexivity|]. apply (shiftr_range c 18 3); lia.
Qed.

Lemma fold_high bs : Forall (fun b => 128 <= b) bs -> FoldAsciiUtf8 bs = bs.
Proof.
  induction 1 as [|b bs Hb _ IH]; [done|]. cbn. unfold FoldAsciiUtf8 in IH. rewrite IH.
  by destruct (Z.leb_spec 65 b), (Z.leb_spec b 90); cbn; try lia.
Qed.

Lemma fold_encode c : is_unit c -> FoldAsciiUtf8 (encode_point c) = encode_point (FoldAscii16Char c).
Proof.
  intros Hc. unfold is_unit in Hc. destruct (Z.leb_spec c 127).
  - rewrite !encode_ascii; [done| |done]. unfold FoldAscii16Char. destruct (_ && _) eqn:E; bool_prop; lia.
  - rewrite fold_high by (apply encode_high; lia). f_equal. unfold FoldAscii16Char.
    by destruct (Z.leb_spec 65 c), (Z.leb_spec c 90); cbn; try lia.
Qed.

Lemma fold_char_plain c : is_unit c /\ c <> 0 /\ ~ is_surrogate c ->
  is_unit (FoldAscii16Char c) /\ FoldAscii16Char c <> 0 /\ ~ is_surrogate (FoldAscii16Char c).
Proof.
  unfold is_unit, is_surrogate, FoldAscii16Char. intros (H1 & H2 & H3). destruct (_ && _) eqn:E; [|done]. bool_prop. lia.
Qed.

(** Folding a name and folding its bytes is the same. *)
Lemma fold_bytes name :
  Forall (fun u => is_unit u /\ u <> 0 /\ ~ is_surrogate u) name ->
  FoldAsciiUtf8 (Utf16ToUtf8 name) = Utf16ToUtf8 (FoldAscii16 name) /\ plain_text (Utf16ToUtf8 (FoldAscii16 name)).
Proof.
  intros Hp. assert (Forall (fun u => is_unit u /\ u <> 0 /\ ~ is_surrogate u) (FoldAscii16 name)) as Hp'.
  { rewrite FoldAscii16_map. apply Forall_fmap. eapply Forall_impl; [exact Hp|]. intros u Hu. by apply fold_char_plain. }
  split; [|by exists (FoldAscii16 name)].
  rewrite !Utf16ToUtf8_plain; [|eapply Forall_impl; [eassumption|]; by intros ? (_ & _ & ?)..].
  clear Hp'. induction Hp as [|u name (Hu & _) _ IH]; [done|]. rewrite FoldAscii16_cons. cbn [mbind list_bind].
  unfold FoldAsciiUtf8 in *. rewrite map_app. f_equal; [by apply fold_encode|exact IH].
Qed.

Lemma Utf16ToUtf8_positive name : Forall (fun u => is_unit u /\ u <> 0) name -> Forall (fun b => 0 < b) (Utf16ToUtf8 name).
Proof.
  assert (forall c, 1 <= c < 1114112 -> Forall (fun b => 0 < b) (encode_point c)) as Hpoint.
  { intros c Hc. destruct (Z.leb_spec c 127); [rewrite encode_ascii by done; apply Forall_singleton; lia|].
    eapply Forall_impl; [apply encode_high; lia|]. intros b Hb. cbn in Hb. lia. }
  assert (forall n name, (length name <= n)%nat -> Forall (fun u => is_unit u /\ u <> 0) name -> Forall (fun b => 0 < b) (utf8_units name)) as H.
  { induction n as [|n IH]; intros l Hl Hu; [destruct l; [constructor|cbn in Hl; lia]|].
    destruct l as [|u rest]; [constructor|]. apply Forall_cons in Hu as [[Hu Hu0] Hr]. unfold is_unit in Hu. cbn [length] in Hl. rewrite utf8_units_cons.
    destruct rest as [|low rest']; [apply Hpoint; lia|].
    destruct (is_high_surrogate u && is_low_surrogate low) eqn:E; apply Forall_app.
    - apply andb_true_iff in E as [Eh El]. destruct (point_units_pair u low Eh El) as [Hc _]. apply Forall_cons in Hr as [_ Hr]. cbn [length] in Hl.
      split; [apply Hpoint|by apply IH; [lia|]]. unfold combine_surrogates, is_high_surrogate, is_low_surrogate in *. bool_prop.
      rewrite Z.shiftl_mul_pow2 in * by lia. lia.
    - split; [apply Hpoint; lia|by apply IH; [lia|]]. }
  intros Hu. unfold Utf16ToUtf8. destruct (IsAscii name); [|by eapply H].
  eapply Forall_impl; [exact Hu|]. intros u [Hu1 Hu2]. unfold is_unit in Hu1. lia.
Qed.

Lemma forallb_false {A} (f : A -> bool) l : forallb f l = false -> exists x, x ∈ l /\ f x = false.
Proof.
  induction l as [|x l IH]; cbn; [done|]. intros [H|H]%andb_false_iff; [exists x; set_solver|].
  destruct (IH H) as (y & Hy & E). exists y. set_solver.
Qed.

(** A name with a non-ASCII unit has a byte that the [GLOB] finds. *)
Lemma non_ascii_byte name : IsAscii name = false -> exists b, b ∈ Utf16ToUtf8 name /\ 128 <= b.
Proof.
  intros Ha. unfold Utf16ToUtf8. rewrite Ha. destruct (forallb (fun b => b <? 128) (utf8_units name)) eqn:E.
  - by rewrite (utf8_units_ascii _ name (Nat.le_refl _) E) in Ha.
  - apply forallb_false in E as (b & Hb & E). exists b. split; [done|]. by bool_prop.
Qed.

Lemma side_set_fallback CSO name : NameRequiresCandidateSideSet CSO name = NameNeedsExceptionalFallback CSO name.
Proof.
  unfold NameRequiresCandidateSideSet, NameNeedsExceptionalFallback. induction name as [|c name IH]; [done|]. cbn [existsb].
  rewrite IH. f_equal. unfold may_fold_to_ascii. destruct (Z.leb_spec c 127), (Z.ltb_spec 127 c); (done || lia).
Qed.

(** ** No matching row is lost *)

Section complete.
Context {DB : Sqlite} {TX : SqliteText} (CSO : list Z -> list Z -> Z) {OU : OrdinalUnits CSO}.

Implicit Types (t : Tables) (row : EntryRow).

(** The stored name is that of a file: no zeros. *)
Definition file_name (row : EntryRow) (name : list Z) : Prop :=
  Forall (fun u => is_unit u /\ u <> 0) name /\ row_name row = Utf16ToUtf8 name.

Lemma file_name_units name : Forall (fun u => is_unit u /\ u <> 0) name -> Forall is_unit name.
Proof. intros H. eapply Forall_impl; [exact H|]. by intros ? [? _]. Qed.

Lemma plain_name name : Forall (fun u => is_unit u /\ u <> 0) name -> NameNeedsExceptionalFallback CSO name = false ->
  Forall (fun u => is_unit u /\ u <> 0 /\ ~ is_surrogate u) name.
Proof.
  intros Hn Hx. pose proof (not_exceptional CSO name Hx (file_name_units _ Hn)) as H.
  apply Forall_forall. intros u Hu. rewrite Forall_forall in Hn, H. destruct (Hn u Hu), (H u Hu). auto.
Qed.

Lemma candidate_complete t key row rowid name term :
  indexed_row CSO t rowid row -> index_map t !! key = Some rowid -> file_name row name ->
  Forall is_ascii_unit term -> (3 <= length term)%nat -> OrdinalContains16 CSO name term = true ->
  is_candidate (FoldAscii16 term) t key = true.
Proof.
  intros (H0 & Hterm & Hexc) Hk [Hn Hrow] Hat Hlen Hm. unfold is_candidate. rewrite Hk.
  rewrite Hrow, Utf8_roundtrip, side_set_fallback in Hexc by (by apply file_name_units).
  destruct (NameNeedsExceptionalFallback CSO name) eqn:Hx; [rewrite bool_decide_eq_true_2 by (by apply Hexc); done|].
  assert (term <> []) as Hne by (by intros ->; cbn in Hlen; lia).
  destruct (ordinary_window CSO name term (file_name_units _ Hn) Hat Hne Hx Hm) as (pre & w & post & -> & Haw & Hfold).
  pose proof (plain_name _ Hn Hx) as Hp. destruct (fold_bytes _ Hp) as [Hfb Hplain].
  destruct Hterm as [->|[_ Hnil]].
  2: { rewrite Hrow in Hnil. apply (f_equal Utf8ToUtf16) in Hnil. rewrite Utf8_roundtrip in Hnil by (by apply file_name_units).
       change (Utf8ToUtf16 []) with (@nil Z) in Hnil. apply app_eq_nil in Hnil as [_ [-> _]%app_eq_nil].
       apply (f_equal length) in Hfold. rewrite !length_FoldAscii16 in Hfold. cbn in Hfold. lia. }
  apply orb_true_iff. right. rewrite Hrow, Hfb, !FoldAscii16_app, Hfold in *.
  assert (Forall (fun u => ~ is_surrogate u) (FoldAscii16 pre ++ FoldAscii16 term ++ FoldAscii16 post)) as Hs.
  { rewrite <-Hfold, <-!FoldAscii16_app, FoldAscii16_map. apply Forall_fmap. eapply Forall_impl; [exact Hp|].
    intros u Hu. by apply fold_char_plain in Hu as (_ & _ & ?). }
  assert (Forall is_ascii_unit (FoldAscii16 term)) as Haf by (by apply FoldAscii16_ascii).
  rewrite Utf16ToUtf8_plain in * by done. rewrite !bind_app in *.
  assert ((FoldAscii16 term ≫= encode_point) = FoldAscii16 term) as Eterm.
  { clear -Haf. induction Haf as [|c l Hc _ IH]; [done|]. unfold is_ascii_unit in Hc. rewrite bind_cons, encode_ascii, IH by lia. done. }
  rewrite Eterm in *. apply fts_substring; [by rewrite length_FoldAscii16|done|done].
Qed.

Lemma prefilter_complete row name term :
  file_name row name -> Forall is_ascii_unit term -> (0 < length term)%nat -> OrdinalContains16 CSO name term = true ->
  like_match (LikePatternForLiteralNeedle (FoldAscii16 term)) (row_name row) || glob_match kNonPrintableGlob (row_name row) = true.
Proof.
  intros [Hn Hrow] Hat Hlen Hm. pose proof (Utf16ToUtf8_positive name Hn) as Hpos. rewrite Hrow. apply orb_true_iff.
  destruct (IsAscii name) eqn:Ea.
  - left. unfold Utf16ToUtf8 in *. rewrite Ea in *. assert (term <> []) as Hne by (by intros ->; cbn in Hlen; lia).
    destruct (OrdinalContains16_window CSO name term Hne Hm) as (pre & w & post & -> & Hl & Heq).
    assert (Forall is_ascii_unit w) as Haw.
    { apply file_name_units in Hn. unfold IsAscii in Ea. rewrite forallb_forall in Ea. rewrite !Forall_app in Hn. destruct Hn as (_ & Hw & _).
      apply Forall_forall. intros u Hu. rewrite Forall_forall in Hw. specialize (Hw u Hu). unfold is_unit, is_ascii_unit in *.
      assert ((u <=? 127) = true) as E by (apply Ea, list_elem_of_In; set_solver). bool_prop. lia. }
    apply like_substring; [by apply FoldAscii16_ascii|done|]. rewrite !FoldAsciiUtf8_fold16, FoldAscii16_idem.
    by apply ordinal_ascii_fold in Heq.
  - right. destruct (non_ascii_byte name Ea) as (b & Hb & Hge). by eapply glob_nonprintable.
Qed.

(** What the session remembers about the index is true of its snapshot. *)
Definition session_ok (s : Session) (t : Tables) : Prop :=
  candidateReadinessChecked_ s = true -> candidateIndexUsable_ s = true -> exists signature, index_meta t = Some (1, signature).

Lemma CandidateIndexUsable_ok s t :
  session_ok s t ->
  wp (CandidateIndexUsable CSO s) (fun '(usable, s') t' => t' = t /\ session_ok s' t /\ isOpen s' = isOpen s /\
    (usable = true -> exists signature, index_meta t = Some (1, signature))) t.
Proof.
  intros Hs. unfold CandidateIndexUsable. destruct (candidateReadinessChecked_ s) eqn:Ec.
  { apply wp_ret. split; [done|]. split; [done|]. split; [done|]. by apply Hs. }
  assert (session_ok (mkSession (isOpen s) (failed_ s) true false) t) as Hun by done.
  destruct (isOpen s) eqn:Eo; cbn [negb]; [|by apply wp_ret]. wp_step. wp_step; cbn [negb]; [|by apply wp_ret].
  apply wp_bind, wp_query; [|by apply wp_ret]. destruct (index_meta t) as [[state sig]|] eqn:Em; [|by apply wp_ret].
  apply wp_ret. assert ((state =? 1) && (sig =? to_signed64 (HostFoldSignature CSO)) = true -> exists sg, index_meta t = Some (1, sg)) as H.
  { intros [Hst%Z.eqb_eq _]%andb_true_iff. exists sig. by rewrite Em, Hst. }
  rewrite Em in H. split; [done|]. split; [intros _ Hu; cbn in Hu; rewrite Em; by apply H|]. split; [done|]. exact H.
Qed.

Lemma count_pair_ok f g t : wp (count_pair f g) (fun _ t' => t' = t) t.
Proof. unfold count_pair. repeat (wp_step || done). Qed.

Lemma staged_candidates_ok volume needle t :
  wp (staged_candidates volume needle) (fun staged t' => t' = t /\
    match staged with Some rows => rows ≡ₚ candidate_rows volume needle t | None => True end) t.
Proof.
  unfold staged_candidates. apply wp_bind. eapply (wp_mono _ (fun _ t' => t' = t)).
  { unfold admission. apply wp_bind. eapply wp_mono; [apply count_pair_ok|]. intros [hits|] t' ->; [|apply count_pair_ok].
    case_match; [by apply wp_ret|apply count_pair_ok]. }
  intros [hits|] t' ->; [|by apply wp_ret]. case_match; [|by apply wp_ret]. wp_step. wp_step; cbn [negb]; [|by apply wp_ret].
  apply wp_bind, wp_query_rows; intros rows Hrows; apply wp_ret; cbn [andb]; [|done]. split; [done|]. by destruct (zlen rows <=? kCandidateFallbackCap).
Qed.

(** Rows of the volume, and among them every row that the canonical matcher accepts. *)
Definition covers (volume : Z) (term : list Z) (t : Tables) (rows : list (RowKey * EntryRow)) : Prop :=
  forall (key : RowKey) row name, entries t !! key = Some row -> key.1.1 = volume -> file_name row name ->
    OrdinalContains16 CSO name term = true -> (key, row) ∈ rows.

Lemma candidate_rows_cover volume term t rows :
  index_ok CSO t -> Forall is_ascii_unit term -> (3 <= length term)%nat ->
  rows ≡ₚ candidate_rows volume (FoldAscii16 term) t -> covers volume term t rows.
Proof.
  intros [Hs Hc] Hat Hlen Hrows key row name Hrow Hv Hn Hm. rewrite Hrows. apply list_elem_of_filter. split.
  - destruct (Hc key) as [rowid Hk]; [by exists row|]. destruct (is_row _ _ _ Hs key rowid I Hk) as (row' & Hrow' & Hir). simplify_eq.
    by eapply candidate_complete.
  - by apply elem_of_map_to_list, map_lookup_filter_Some.
Qed.

Lemma prefilter_rows_cover volume term t rows :
  Forall is_ascii_unit term -> (0 < length term)%nat -> rows ≡ₚ prefilter_rows volume (FoldAscii16 term) t -> covers volume term t rows.
Proof.
  intros Hat Hlen Hrows key row name Hrow Hv Hn Hm. rewrite Hrows. apply list_elem_of_filter. split; [by eapply prefilter_complete|].
  by apply elem_of_map_to_list, map_lookup_filter_Some.
Qed.

Lemma volume_subset volume t (P : RowKey * EntryRow -> Prop) {Pdec : forall kv, Decision (P kv)} rows :
  rows ⊆+ filter P (volume_rows volume t) ->
  NoDup rows /\ forall kv, kv ∈ rows -> entries t !! kv.1 = Some kv.2 /\ kv.1.1.1 = volume.
Proof.
  intros Hsub. split.
  - apply submseteq_Permutation in Hsub as [l Hl].
    assert (NoDup (filter P (volume_rows volume t))) as H by (apply NoDup_filter, NoDup_map_to_list).
    rewrite Hl in H. by apply NoDup_app in H as [? _].
  - intros [key row] H. eapply elem_of_submseteq in H; [|exact Hsub]. apply list_elem_of_filter in H as [_ H].
    by apply elem_of_map_to_list, map_lookup_filter_Some in H as [? ?].
Qed.

Lemma ForEachEntryWithAsciiNameUntil_ok {S} (visitor : S -> EntryRecord -> bool * S) session volume term s t :
  store_ok CSO t -> session_ok session t -> isOpen session = true -> Forall is_ascii_unit term -> (3 <= length term)%nat ->
  wp (ForEachEntryWithAsciiNameUntil CSO visitor session volume (FoldAscii16 term) s) (fun '(ok, session', s') t' =>
    t' = t /\ exists rows, NoDup rows /\ (forall kv, kv ∈ rows -> entries t !! kv.1 = Some kv.2 /\ kv.1.1.1 = volume) /\
      s' = (visit_all visitor rows s).2 /\
      (ok = true -> (visit_all visitor rows s).1 = true \/ covers volume term t rows) /\
      (ok = false -> failed_ session' = true)) t.
Proof.
  intros Hok Hs Hopen Hat Hlen. unfold ForEachEntryWithAsciiNameUntil. rewrite Hopen. cbn [negb].
  rewrite FoldAsciiUtf8_fold16, FoldAscii16_idem. set (eligible := _ && _). apply wp_bind.
  eapply (wp_mono _ (fun '(usable, s') t' => t' = t /\ session_ok s' t /\
    (usable = true -> exists signature, index_meta t = Some (1, signature)))).
  { destruct eligible; [|by apply wp_ret]. eapply wp_mono; [by apply CandidateIndexUsable_ok|]. intros [u s'] t'. tauto. }
  intros [usable session1] t1 (-> & Hs1 & Hready). apply wp_bind.
  eapply (wp_mono _ (fun staged t' => t' = t /\ match staged with
    | Some rows => covers volume term t rows /\ rows ≡ₚ candidate_rows volume (FoldAscii16 term) t | None => True end)).
  { destruct usable; [|by apply wp_ret]. eapply wp_mono; [apply staged_candidates_ok|]. intros [rows|] t' [-> Hrows]; [|done].
    split; [done|]. split; [|done]. destruct (Hready eq_refl) as [sig Hm]. apply candidate_rows_cover; [by apply (so_ready _ _ Hok sig)|done..]. }
  intros [rows|] t1 [-> Hrows].
  - destruct Hrows as [Hcov Hperm]. destruct (visit_all visitor rows s) as [stopped s'] eqn:Ev. apply wp_ret. split; [done|].
    destruct (volume_subset volume t (fun kv => is_candidate (FoldAscii16 term) t kv.1 = true) rows) as [Hnd Hin]; [by rewrite Hperm|].
    exists rows. split; [done|]. split; [done|]. rewrite Ev. split; [done|]. split; [by right|done].
  - wp_step. wp_step; cbn [negb].
    2: { apply wp_ret. split; [done|]. exists []. split; [constructor|]. split; [set_solver|]. done. }
    apply wp_bind, wp_query_rows; intros rows Hperm; destruct (visit_all visitor rows s) as [stopped s'] eqn:Ev.
    + assert (covers volume term t rows) as Hcov by (apply prefilter_rows_cover; [done|lia|done]).
      assert (rows ⊆+ prefilter_rows volume (FoldAscii16 term) t) as Hsub by (by rewrite Hperm).
      apply volume_subset in Hsub as [Hnd Hin].
      destruct stopped; apply wp_ret; (split; [done|]); exists rows; rewrite Ev; cbn [fst snd]; split_and!; auto; done.
    + apply volume_subset in Hperm as [Hnd Hin].
      destruct stopped; apply wp_ret; (split; [done|]); exists rows; rewrite Ev; cbn [fst snd]; split_and!; auto; done.
Qed.
End complete.

(** The needle the engine asks for is the fold of an ASCII term of three or more units. *)
Lemma ColdNamePrefilterNeedle_term query needle :
  simpleLiteralFolded query = FoldAscii16 (simpleLiteralTerm query) -> Forall is_unit (simpleLiteralTerm query) ->
  ColdNamePrefilterNeedle query = Some needle ->
  needle = FoldAscii16 (simpleLiteralTerm query) /\ Forall is_ascii_unit (simpleLiteralTerm query) /\
  (3 <= length (simpleLiteralTerm query))%nat.
Proof.
  intros Hfold Hu. unfold ColdNamePrefilterNeedle. destruct (simpleLiteralName query); [|done]. cbn [negb]. rewrite Hfold.
  destruct (Z.ltb_spec (zlen (FoldAscii16 (simpleLiteralTerm query))) 3) as [|Hl]; [done|].
  destruct (existsb _ _) eqn:E; [done|]. intros [= <-]. split; [done|]. unfold zlen in Hl. rewrite length_FoldAscii16 in Hl. split; [|lia].
  apply IsAscii_units; [done|]. unfold IsAscii. apply forallb_forall. intros x Hx. apply Z.leb_le.
  destruct (Z.leb_spec x 127); [done|]. exfalso. assert (existsb (fun ch => 127 <? ch) (FoldAscii16 (simpleLiteralTerm query)) = true) as E'; [|congruence].
  apply existsb_exists. exists x. split; [done|]. by apply Z.ltb_lt.
Qed.

(** ** A concrete text matcher *)

Definition starts_with (needle text : list Z) : bool := bool_decide (take (length needle) text = needle).

Fixpoint infix_of (needle text : list Z) : bool :=
  starts_with needle text || match text with [] => false | _ :: text' => infix_of needle text' end.

Lemma infix_of_app pre needle post : infix_of needle (pre ++ needle ++ post) = true.
Proof.
  induction pre as [|c pre IH]; cbn [app].
  - assert (starts_with needle (needle ++ post) = true) as E by (apply bool_decide_eq_true; by rewrite take_app_length).
    destruct (needle ++ post); cbn [infix_of]; by rewrite E.
  - cbn [infix_of]. by rewrite IH, orb_true_r.
Qed.

(** The phrase between the quotes. *)
Fixpoint unquote (l : list Z) : list Z :=
  match l with
  | c :: rest =>
      if c =? 34 then match rest with d :: rest' => d :: unquote rest' | [] => [] end else c :: unquote rest
  | [] => []
  end.

Lemma unquote_phrase needle : unquote ((needle ≫= fun ch => if ch =? 34 then [34; 34] else [ch]) ++ [34]) = needle.
Proof.
  induction needle as [|c needle IH]; [done|]. rewrite bind_cons, <-app_assoc.
  destruct (Z.eqb_spec c 34) as [->|Hne]; cbn [app unquote].
  - by rewrite IH.
  - rewrite (proj2 (Z.eqb_neq _ _) Hne). by rewrite IH.
Qed.

(** The literal between the percent signs. *)
Fixpoint unescape (l : list Z) : list Z :=
  match l with
  | c :: rest =>
      if c =? 92 then match rest with d :: rest' => d :: unescape rest' | [] => [] end
      else if c =? 37 then [] else c :: unescape rest
  | [] => []
  end.

Lemma unescape_pattern needle : unescape ((needle ≫= like_escape) ++ [37]) = needle.
Proof.
  induction needle as [|c needle IH]; [done|]. rewrite bind_cons, <-app_assoc. unfold like_escape at 1.
  destruct ((c =? 92) || (c =? 37) || (c =? 95)) eqn:E; cbn [app unescape].
  - cbn. by rewrite IH.
  - apply orb_false_iff in E as [[E1 E2]%orb_false_iff _]. by rewrite E1, E2, IH.
Qed.

#[export] Instance literal_text : SqliteText.
Proof.
  refine {|
    fts_match pattern text := infix_of (unquote (tail pattern)) text;
    like_match pattern text := infix_of (FoldAsciiUtf8 (unescape (tail pattern))) (FoldAsciiUtf8 text);
    glob_match _ text := existsb (fun b => negb ((32 <=? b) && (b <=? 126))) text
  |}.
  - intros pre needle post _ _ _. unfold fts_phrase. cbn [app tail]. rewrite unquote_phrase. apply infix_of_app.
  - intros pre window post needle _ _ E. unfold LikePatternForLiteralNeedle. cbn [app tail]. rewrite unescape_pattern, <-E.
    unfold FoldAsciiUtf8. rewrite !map_app. apply infix_of_app.
  - intros text b _ Hb Hge. apply existsb_exists. exists b. split; [by apply list_elem_of_In|].
    destruct (Z.leb_spec b 126); [lia|]. by rewrite andb_false_r.
Defined.

(** ** Properties *)

(** C17. Searching a cold volume by name loses nothing: for an ASCII term of three or more
    characters, whichever SQLite calls fail and whichever route the planner takes (the trigram
    index with its side set, or the [LIKE]/[GLOB] prefilter), the visitor is offered distinct
    rows of the volume, and if the call returns true and the visitor did not stop it, they
    include every row whose name the canonical matcher accepts, whatever non-ASCII units the
    host equates with ASCII ones; if the call returns false the session says it failed. *)
Theorem cold_candidates_complete (DB : Sqlite) (TX : SqliteText) CSO {S} (visitor : S -> EntryRecord -> bool * S)
    session volume term s c :
  OrdinalUnits CSO -> opened c = true -> store_ok CSO (tables c) -> session_ok session (tables c) -> isOpen session = true ->
  Forall is_ascii_unit term -> (3 <= length term)%nat ->
  let '(ok, session', s', c') := ForEachEntryWithAsciiNameUntil CSO visitor session volume (FoldAscii16 term) s c in
  tables c' = tables c /\ exists rows, NoDup rows /\
    (forall kv, kv ∈ rows -> entries (tables c) !! kv.1 = Some kv.2 /\ kv.1.1.1 = volume) /\
    s' = (visit_all visitor rows s).2 /\
    (ok = true -> (visit_all visitor rows s).1 = true \/ covers CSO volume term (tables c) rows) /\
    (ok = false -> failed_ session' = true).
Proof.
  intros OU Ho Hok Hs Hopen Hat Hlen.
  pose proof (ForEachEntryWithAsciiNameUntil_ok CSO visitor session volume term s (tables c) Hok Hs Hopen Hat Hlen c eq_refl Ho) as H.
  destruct (ForEachEntryWithAsciiNameUntil CSO visitor session volume (FoldAscii16 term) s c) as [[[ok session'] s'] c']. apply H.
Qed.

Definition sample_named (id : Z) (name : list Z) : EntryChange :=
  mkChange ChangeUpsert (mkRecord (mkFileId id 0) (mkFileId 5 0) name 1 0 false 1 2 3 32) kEntryFieldMaskAll.

(** "Token", the same with a Kelvin sign, and a name without the term. *)
Definition sample_cold_changes : list EntryChange :=
  [sample_named 5 [84; 111; 107; 101; 110]; sample_named 6 [84; 111; 8490; 101; 110]; sample_named 7 [97; 98; 99; 233]].

Definition sample_cold_store : Connection Tables :=
  (ApplyBatch (DB := failing_call None) kelvin_ordinal 1 sample_cold_changes (mkConnection true (volume_tables 1) 0)).2.

Lemma sample_cold_store_ok : store_ok kelvin_ordinal (tables sample_cold_store).
Proof.
  assert (Forall change_ok sample_cold_changes) as Hall.
  { repeat (apply Forall_cons; split; [split; cbn; unfold id_in_range, SIZE_MAX, is_unit; cbn; try done; try lia|]).
    all: repeat (apply Forall_nil || (apply Forall_cons; split; [unfold is_unit; lia|])). all: done. }
  unfold sample_cold_store.
  pose proof (ApplyBatch_store_ok (DB := failing_call None) kelvin_ordinal 1 sample_cold_changes (volume_tables 1)
    (volume_tables_ok kelvin_ordinal 1 ltac:(lia)) Hall (mkConnection true (volume_tables 1) 0) eq_refl eq_refl) as H.
  destruct (ApplyBatch _ _ _ _). apply H.
Qed.

Definition collect (names : list (list Z)) (r : EntryRecord) : bool * list (list Z) := (true, names ++ [r_name r]).

Lemma collect_all rows names : visit_all collect rows names = (false, names ++ ((fun kv => r_name (ReadEntryRecord kv.1 kv.2)) <$> rows)).
Proof.
  revert names. induction rows as [|[key row] rows IH]; intros names; [by rewrite app_nil_r|].
  cbn [visit_all collect negb]. rewrite IH. by rewrite <-app_assoc.
Qed.

Lemma cold_candidates_complete_witness :
  (ForEachEntryWithAsciiNameUntil (DB := failing_call None) kelvin_ordinal collect (mkSession true false true true) 1
     (FoldAscii16 [84; 79; 75]) [] sample_cold_store).1 =
    (true, mkSession true false true true, [[84; 111; 107; 101; 110]; [84; 111; 8490; 101; 110]]) /\
  (ForEachEntryWithAsciiNameUntil (DB := failing_call None) kelvin_ordinal collect (mkSession true false true false) 1
     (FoldAscii16 [84; 79; 75]) [] sample_cold_store).1 =
    (true, mkSession true false true false, [[97; 98; 99; 233]; [84; 111; 107; 101; 110]; [84; 111; 8490; 101; 110]]) /\
  [84; 111; 8490; 101; 110] ∈
    (ForEachEntryWithAsciiNameUntil (DB := failing_call None) kelvin_ordinal collect (mkSession true false true true) 1
       (FoldAscii16 [84; 79; 75]) [] sample_cold_store).1.2.
Proof.
  split; [vm_compute; reflexivity|]. split; [vm_compute; reflexivity|].
  pose proof (cold_candidates_complete (failing_call None) literal_text kelvin_ordinal collect (mkSession true false true true) 1
    [84; 79; 75] [] sample_cold_store _ eq_refl sample_cold_store_ok) as H.
  assert ((ForEachEntryWithAsciiNameUntil (DB := failing_call None) kelvin_ordinal collect (mkSession true false true true) 1
     (FoldAscii16 [84; 79; 75]) [] sample_cold_store).1.1.1 = true) as E by (vm_compute; reflexivity).
  destruct (ForEachEntryWithAsciiNameUntil kelvin_ordinal collect (mkSession true false true true) 1
     (FoldAscii16 [84; 79; 75]) [] sample_cold_store) as [[[ok session'] s'] c']. cbn in E. subst ok. cbn [fst snd].
  destruct H as (_ & rows & _ & _ & -> & Hcov & _).
  - intros _ _. exists 5. vm_compute. reflexivity.
  - done.
  - repeat (apply Forall_cons; split; [unfold is_ascii_unit; lia|]). by apply Forall_nil.
  - cbn. lia.
  - rewrite collect_all in *. cbn [fst snd app] in *. destruct (Hcov eq_refl) as [?|Hc]; [done|].
    apply list_elem_of_fmap.
    exists (row_key 1 (mkFileId 6 0), inserted_row (mkRecord (mkFileId 6 0) (mkFileId 5 0) [84; 111; 8490; 101; 110] 1 0 false 1 2 3 32) kEntryFieldMaskAll).
    split; [vm_compute; reflexivity|]. apply (Hc _ _ [84; 111; 8490; 101; 110]); [vm_compute; reflexivity|done| |vm_compute; reflexivity].
    split; [|vm_compute; reflexivity]. repeat (apply Forall_cons; split; [unfold is_unit; lia|]). by apply Forall_nil.
Defined.
