(* ===== verification/Maintenance.v ===== *)
(** * Maintenance: checkpoints, statistics and compaction of the durable store

    Models [RunCheckpoint], [CheckpointPassive], [CheckpointIfWalExceeds], [Analyze] and
    [VacuumIfDue] of [src/src/indexstore/src/Store.cpp].  None of them changes a table; they
    keep their own state, [Maintenance].  What [sqlite3_wal_checkpoint_v2] reports, the page
    size and the size of the database file are parameters, numbered by the call that asks. *)

From stdpp Require Import gmap.
From S2P Require Import Prelude Sql.

Definition SQLITE_OK : Z := 0.
Definition SQLITE_BUSY : Z := 5.
Definition SQLITE_LOCKED : Z := 6.
Definition SQLITE_MISUSE : Z := 21.

Inductive CheckpointMode := CheckpointModePassive | CheckpointModeRestart.

Record CheckpointDiagnostics := mkDiagnostics {
  sqliteCalls : Z;
  busyResults : Z;
  errorResults : Z;
  lastResultCode : Z;
  logFrames : Z;
  checkpointedFrames : Z;
  restartAttempted : bool
}.

Record Maintenance := mkMaintenance {
  lastVacuumTimeSeconds_ : Z;
  lastVacuumSizeBytes_ : Z;
  cachedPageSize_ : Z;
  checkpointDiagnostics_ : CheckpointDiagnostics
}.

Definition new_maintenance : Maintenance :=
  mkMaintenance 0 0 0 (mkDiagnostics 0 0 0 0 (-1) (-1) false).

Definition set_diagnostics (m : Maintenance) (d : CheckpointDiagnostics) : Maintenance :=
  mkMaintenance (lastVacuumTimeSeconds_ m) (lastVacuumSizeBytes_ m) (cachedPageSize_ m) d.

Definition set_page_size (m : Maintenance) (pageSize : Z) : Maintenance :=
  mkMaintenance (lastVacuumTimeSeconds_ m) (lastVacuumSizeBytes_ m) pageSize (checkpointDiagnostics_ m).

Section maintenance.
Context {DB : Sqlite} {T : Type}.
(** The n-th call's result code, log frames and checkpointed frames. *)
Context (wal_checkpoint : nat -> Z * Z * Z).
(** The row of [PRAGMA page_size], [None] when there is none. *)
Context (pragma_page_size : nat -> option Z).
(** [DatabaseFileSize]: 0 when the file system gives none. *)
Context (file_size : nat -> Z).

Definition next_call : Sql T nat :=
  fun c => (calls c, mkConnection (opened c) (tables c) (S (calls c))).

Definition is_open : Sql T bool := fun c => (opened c, c).

Definition RunCheckpoint (m : Maintenance) (mode : CheckpointMode) : Sql T (bool * Maintenance) :=
  let! open := is_open in
  let! n := next_call in
  let '(code, frames, checkpointed) := if open : bool then wal_checkpoint n else (SQLITE_MISUSE, -1, -1) in
  let primary := Z.land code 255 in
  let d := checkpointDiagnostics_ m in
  let busy := (primary =? SQLITE_BUSY) || (primary =? SQLITE_LOCKED) in
  sql_ret (code =? SQLITE_OK,
    set_diagnostics m (mkDiagnostics (add64 (sqliteCalls d) 1)
      (if busy then add64 (busyResults d) 1 else busyResults d)
      (if negb busy && negb (primary =? SQLITE_OK) then add64 (errorResults d) 1 else errorResults d)
      code frames checkpointed (match mode with CheckpointModeRestart => true | _ => false end))).

Definition CheckpointPassive (m : Maintenance) : Sql T (bool * Maintenance) := RunCheckpoint m CheckpointModePassive.

(** The page size, asked for once. *)
Definition page_size (m : Maintenance) : Sql T (Z * Maintenance) :=
  if 0 <? cachedPageSize_ m then sql_ret (cachedPageSize_ m, m)
  else
    let! prepared := call in
    let! n := next_call in
    let pageSize :=
      match (if prepared : bool then pragma_page_size n else None) with
      | Some p => if 0 <? p then p else 4096
      | None => 4096
      end in
    sql_ret (pageSize, set_page_size m pageSize).

Definition CheckpointIfWalExceeds (m : Maintenance) (thresholdBytes : Z) : Sql T (bool * Maintenance) :=
  let! open := is_open in
  if negb open then sql_ret (false, m)
  else
    let! '(ok, m) := RunCheckpoint m CheckpointModePassive in
    if negb ok then sql_ret (false, m)
    else
      let frameCount := logFrames (checkpointDiagnostics_ m) in
      if frameCount <=? 0 then sql_ret (true, m)
      else
        let! '(pageSize, m) := page_size m in
        if thresholdBytes <? mul64 frameCount pageSize then RunCheckpoint m CheckpointModeRestart
        else sql_ret (true, m).

Definition Analyze : Sql T bool := when_open false call.

Definition kSecondsPerHour : Z := 3600.

Definition interval_seconds (intervalHours : Z) : Z :=
  if SIZE_MAX / kSecondsPerHour <? intervalHours then SIZE_MAX else intervalHours * kSecondsPerHour.

(** The guards of [VacuumIfDue] on the time and on the growth of the file. *)
Definition vacuum_time_due (m : Maintenance) (now intervalHours : Z) : bool :=
  negb ((now <? lastVacuumTimeSeconds_ m) || (sub64 now (lastVacuumTimeSeconds_ m) <? interval_seconds intervalHours)).

Definition vacuum_size_due (m : Maintenance) (currentSize sizeGrowthPercent : Z) : bool :=
  if currentSize <=? lastVacuumSizeBytes_ m then false
  else
    let growth := sub64 currentSize (lastVacuumSizeBytes_ m) in
    negb (negb (sizeGrowthPercent =? 0) &&
          ((SIZE_MAX / sizeGrowthPercent <? lastVacuumSizeBytes_ m) ||
           (growth <=? mul64 (lastVacuumSizeBytes_ m) sizeGrowthPercent / 100))).

(** [pathEmpty]: [dbPathUtf8_.empty ()]. *)
Definition VacuumIfDue (m : Maintenance) (pathEmpty userIdle : bool) (now intervalHours sizeGrowthPercent : Z)
    : Sql T (bool * Maintenance) :=
  let! open := is_open in
  if negb open || negb userIdle || pathEmpty then sql_ret (false, m)
  else if negb (vacuum_time_due m now intervalHours) then sql_ret (false, m)
  else
    let! n := next_call in
    if negb (vacuum_size_due m (file_size n) sizeGrowthPercent) then sql_ret (false, m)
    else
      let! ok := call in
      if negb ok then sql_ret (false, m)
      else
        let! n := next_call in
        sql_ret (true, mkMaintenance now (file_size n) (cachedPageSize_ m) (checkpointDiagnostics_ m)).

(** ** Facts *)

(** The tables and the connection stay; only calls are counted. *)
Definition quiet {A} (m : Sql T A) : Prop :=
  forall c, tables (m c).2 = tables c /\ opened (m c).2 = opened c.

Lemma quiet_ret {A} (a : A) : quiet (sql_ret a).
Proof. by intros c. Qed.

Lemma quiet_bind {A B} (m : Sql T A) (k : A -> Sql T B) : quiet m -> (forall a, quiet (k a)) -> quiet (sql_bind m k).
Proof.
  intros Hm Hk c. unfold sql_bind. specialize (Hm c). destruct (m c) as [a c1]. cbn in Hm.
  destruct (Hk a c1) as [-> ->]. done.
Qed.

Lemma quiet_call : quiet call.
Proof. by intros c. Qed.

Lemma quiet_next : quiet next_call.
Proof. by intros c. Qed.

Lemma quiet_open : quiet is_open.
Proof. by intros c. Qed.

Lemma quiet_if {A} (b : bool) (m n : Sql T A) : quiet m -> quiet n -> quiet (if b then m else n).
Proof. by destruct b. Qed.
End maintenance.

(** [quiet] goes through a computation built from quiet calls. *)
Ltac solve_quiet :=
  repeat first
    [ apply quiet_ret | apply quiet_call | apply quiet_next | apply quiet_open | apply quiet_if
    | apply quiet_bind; [|intros ?]
    | match goal with |- quiet (match ?x with (_, _) => _ end) => destruct x as [? ?] end ].

Section facts.
Context {DB : Sqlite} {T : Type} (wal_checkpoint : nat -> Z * Z * Z) (pragma_page_size : nat -> option Z).

Lemma RunCheckpoint_quiet m mode : quiet (RunCheckpoint (T := T) wal_checkpoint m mode).
Proof. unfold RunCheckpoint. solve_quiet. Qed.

Lemma CheckpointIfWalExceeds_quiet m threshold : quiet (CheckpointIfWalExceeds (T := T) wal_checkpoint pragma_page_size m threshold).
Proof.
  unfold CheckpointIfWalExceeds, page_size. solve_quiet; apply RunCheckpoint_quiet.
Qed.
End facts.

(** ** Properties *)

(** The guards of a compaction decide in 64-bit arithmetic what they say of the numbers
    themselves, however large the settings are: it is due when the interval has passed since
    the last one (an interval beyond 64 bits of seconds never passes but at the largest clock
    value) and the file grew by more than the percentage of its old size; an old size whose
    product with the percentage does not fit 64 bits counts as not grown. *)
Theorem vacuum_due_exact m now intervalHours currentSize percent :
  0 <= lastVacuumTimeSeconds_ m <= SIZE_MAX -> 0 <= now <= SIZE_MAX -> 0 <= intervalHours <= SIZE_MAX ->
  0 <= lastVacuumSizeBytes_ m <= SIZE_MAX -> 0 <= currentSize <= SIZE_MAX -> 0 <= percent <= SIZE_MAX ->
  (vacuum_time_due m now intervalHours = true <->
     lastVacuumTimeSeconds_ m <= now /\ Z.min (intervalHours * 3600) SIZE_MAX <= now - lastVacuumTimeSeconds_ m) /\
  (vacuum_size_due m currentSize percent = true <->
     lastVacuumSizeBytes_ m < currentSize /\
     (percent <> 0 -> lastVacuumSizeBytes_ m * percent <= SIZE_MAX /\
        lastVacuumSizeBytes_ m * percent / 100 < currentSize - lastVacuumSizeBytes_ m)).
Proof.
  intros Hl Hn Hi Hs Hc Hp. split.
  - unfold vacuum_time_due, interval_seconds, kSecondsPerHour. rewrite negb_true_iff, orb_false_iff, !Z.ltb_ge.
    destruct (Z.le_gt_cases (lastVacuumTimeSeconds_ m) now) as [Hle|]; [|naive_solver lia].
    unfold sub64. rewrite wrap64_small by lia. unfold SIZE_MAX in *. change (18446744073709551615 / 3600) with 5124095576030431.
    destruct (Z.ltb_spec 5124095576030431 intervalHours); lia.
  - unfold vacuum_size_due. destruct (Z.leb_spec currentSize (lastVacuumSizeBytes_ m)); [naive_solver lia|].
    unfold sub64. rewrite wrap64_small by lia. rewrite negb_true_iff, andb_false_iff, negb_false_iff, Z.eqb_eq, orb_false_iff, Z.ltb_ge, Z.leb_gt.
    assert (percent <> 0 -> lastVacuumSizeBytes_ m <= SIZE_MAX / percent <-> lastVacuumSizeBytes_ m * percent <= SIZE_MAX) as Hq.
    { intros Hp0. split; [intros Hle|intros Hle; apply Z.div_le_lower_bound; lia].
      pose proof (Z.mul_div_le SIZE_MAX percent ltac:(lia)). nia. }
    split.
    + intros [?|[Hle Hlt]]; [naive_solver lia|]. split; [lia|]. intros Hp0. apply Hq in Hle as Hm; [|done].
      unfold mul64 in Hlt. rewrite wrap64_small in Hlt by nia. done.
    + intros [_ Hgrow]. destruct (Z.eq_dec percent 0) as [->|Hp0]; [by left|right]. destruct (Hgrow Hp0) as [Hm Hlt].
      split; [by apply Hq|]. unfold mul64. rewrite wrap64_small by nia. done.
Qed.

Lemma vacuum_due_exact_witness :
  vacuum_size_due (mkMaintenance 10 1000 0 (checkpointDiagnostics_ new_maintenance)) 1101 10 = true /\
  vacuum_time_due (mkMaintenance 10 1000 0 (checkpointDiagnostics_ new_maintenance)) 86409 24 = false.
Proof.
  destruct (vacuum_due_exact (mkMaintenance 10 1000 0 (checkpointDiagnostics_ new_maintenance)) 86409 24 1101 10) as [Ht Hs];
    [cbn; unfold SIZE_MAX; lia..|]. split; [|reflexivity]. apply Hs. cbn. unfold SIZE_MAX. split; [lia|]. intros _. split; [lia|reflexivity].
Defined.
