(* ===== verification/Pipeline.v ===== *)
(** * Pipeline: the engine's index pipeline

    Models the mutating operations of [src/src/engine/src/IndexPipeline.cpp]: batches from scans
    and from the journal, inclusion rules, reconciliation passes, volumes, the memory budget,
    rebuilds and maintenance.  The pipeline owns the durable store and the in-memory index and
    commits to the store first; every method holds one mutex, so an operation is one step.

    [Pipe A] is an operation on the pipeline: a computation on its state that may reject (a
    C++ exception of the index) or fault.  Diagnostics are the estimates handed to
    [AppendDiagnostic]; the fault hooks of the tests and profiling output are not modelled.
    The order in which [std::unordered_map] yields its keys is a parameter. *)

From stdpp Require Import gmap.
From S2P Require Import Prelude Records FlatHashMap ChildrenMap FilenameIndex Projection ProjectionRead Residency Rebuild Rules Sql Store Maintenance.

#[export] Instance FileId_countable : Countable FileId.
Proof.
  apply (inj_countable' (fun id => (low id, high id)) (fun p => mkFileId p.1 p.2)). by intros [].
Defined.

(** ** State *)

Inductive QueryMutationReason :=
| EntryMutation | VolumeConfiguration | VolumeVisibility | RebuildReason | Forget | ProjectionResidency | Lifecycle.

Record Epochs := mkEpochs {
  queryVisibleEpoch_ : Z;
  dependencySetEpoch_ : Z;
  volumeDataEpochs_ : gmap Z Z;
  volumeConfigurationEpochs_ : gmap Z Z
}.

Record Counters := mkCounters {
  queryVisibleInvalidations_ : Z;
  metadataOnlyUpdates_ : Z;
  metadataOnlyInvalidationsAvoided_ : Z;
  recordsSinceAnalyze_ : Z;
  projectionMemoryWarningIssued_ : bool;
  diagnostics : list Z
}.

Record IndexPipeline := mkPipeline {
  store_ : Connection Tables;
  maintenance_ : Maintenance;
  projection_ : Projection;
  volumeRules_ : gmap Z VolumeSetting;
  reconciliationSeen_ : gmap Z (gset FileId);
  epochs_ : Epochs;
  counters_ : Counters
}.

Definition with_store (s : IndexPipeline) (c : Connection Tables) : IndexPipeline :=
  mkPipeline c (maintenance_ s) (projection_ s) (volumeRules_ s) (reconciliationSeen_ s) (epochs_ s) (counters_ s).
Definition with_maintenance (s : IndexPipeline) (m : Maintenance) : IndexPipeline :=
  mkPipeline (store_ s) m (projection_ s) (volumeRules_ s) (reconciliationSeen_ s) (epochs_ s) (counters_ s).
Definition with_projection (s : IndexPipeline) (p : Projection) : IndexPipeline :=
  mkPipeline (store_ s) (maintenance_ s) p (volumeRules_ s) (reconciliationSeen_ s) (epochs_ s) (counters_ s).
Definition with_rules (s : IndexPipeline) (r : gmap Z VolumeSetting) : IndexPipeline :=
  mkPipeline (store_ s) (maintenance_ s) (projection_ s) r (reconciliationSeen_ s) (epochs_ s) (counters_ s).
Definition with_seen (s : IndexPipeline) (seen : gmap Z (gset FileId)) : IndexPipeline :=
  mkPipeline (store_ s) (maintenance_ s) (projection_ s) (volumeRules_ s) seen (epochs_ s) (counters_ s).
Definition with_epochs (s : IndexPipeline) (e : Epochs) : IndexPipeline :=
  mkPipeline (store_ s) (maintenance_ s) (projection_ s) (volumeRules_ s) (reconciliationSeen_ s) e (counters_ s).
Definition with_counters (s : IndexPipeline) (c : Counters) : IndexPipeline :=
  mkPipeline (store_ s) (maintenance_ s) (projection_ s) (volumeRules_ s) (reconciliationSeen_ s) (epochs_ s) c.

(** A pipeline over an opened store. *)
Definition new_pipeline (c : Connection Tables) : IndexPipeline :=
  mkPipeline c new_maintenance new_projection ∅ ∅ (mkEpochs 1 1 ∅ ∅) (mkCounters 0 0 0 0 false []).

(** ** Operations as computations *)

Definition Pipe (A : Type) : Type := IndexPipeline -> result (A * IndexPipeline).

Definition pipe_ret {A} (a : A) : Pipe A := fun s => Ok (a, s).

Definition pipe_bind {A B} (m : Pipe A) (k : A -> Pipe B) : Pipe B :=
  fun s => let* '(a, s) := m s in k a s.

Declare Scope pipe_scope.
Delimit Scope pipe_scope with pipe.
#[global] Open Scope pipe_scope.

Notation "'let&' x := e 'in' k" := (pipe_bind e (fun x => k))
  (at level 200, x name, e at level 200, k at level 200, right associativity) : pipe_scope.
Notation "'let&' ' p := e 'in' k" := (pipe_bind e (fun x => match x with p => k end))
  (at level 200, p pattern, e at level 200, k at level 200, right associativity) : pipe_scope.

Definition gets {A} (f : IndexPipeline -> A) : Pipe A := fun s => Ok (f s, s).
Definition modify (f : IndexPipeline -> IndexPipeline) : Pipe unit := fun s => Ok (tt, f s).

Definition on_store {A} (m : Sql Tables A) : Pipe A :=
  fun s => let '(a, c) := m (store_ s) in Ok (a, with_store s c).

Definition on_projection {A} (f : Projection -> result (A * Projection)) : Pipe A :=
  fun s => let* '(a, p) := f (projection_ s) in Ok (a, with_projection s p).

Definition change_projection (f : Projection -> result Projection) : Pipe unit :=
  fun s => let* p := f (projection_ s) in Ok (tt, with_projection s p).

(** ** Epochs and counters *)

(** The epochs after one call of [AdvanceQueryVisibleEpochLocked]. *)
Definition advance_epochs (e : Epochs) (volume : Z) (reason : QueryMutationReason) (dependencySetChanged : bool) : Epochs :=
  let nextEpoch := add64 (queryVisibleEpoch_ e) 1 in
  let configuration := match reason with VolumeConfiguration | VolumeVisibility | Forget => true | _ => false end in
  let forget := match reason with Forget => true | _ => false end in
  mkEpochs nextEpoch
    (if dependencySetChanged || forget then add64 (dependencySetEpoch_ e) 1 else dependencySetEpoch_ e)
    (if negb (volume =? 0) then <[volume := nextEpoch]> (volumeDataEpochs_ e) else volumeDataEpochs_ e)
    (if negb (volume =? 0) && configuration then <[volume := nextEpoch]> (volumeConfigurationEpochs_ e)
     else volumeConfigurationEpochs_ e).

Definition count_invalidation (c : Counters) : Counters :=
  mkCounters (add64 (queryVisibleInvalidations_ c) 1) (metadataOnlyUpdates_ c) (metadataOnlyInvalidationsAvoided_ c)
    (recordsSinceAnalyze_ c) (projectionMemoryWarningIssued_ c) (diagnostics c).

Definition AdvanceQueryVisibleEpochLocked (volume : Z) (reason : QueryMutationReason) (dependencySetChanged : bool) : Pipe unit :=
  modify (fun s => with_counters (with_epochs s (advance_epochs (epochs_ s) volume reason dependencySetChanged))
                     (count_invalidation (counters_ s))).

Definition RecordMetadataOnlyUpdateLocked : Pipe unit :=
  modify (fun s =>
    let c := counters_ s in
    with_counters s (mkCounters (queryVisibleInvalidations_ c) (add64 (metadataOnlyUpdates_ c) 1)
      (add64 (metadataOnlyInvalidationsAvoided_ c) 1) (recordsSinceAnalyze_ c) (projectionMemoryWarningIssued_ c)
      (diagnostics c))).

Fixpoint advance_each (volumes : list Z) (reason : QueryMutationReason) : Pipe unit :=
  match volumes with
  | [] => pipe_ret tt
  | volume :: rest =>
      let& _ := AdvanceQueryVisibleEpochLocked volume reason false in advance_each rest reason
  end.

Definition kAnalyzeRecordThreshold : Z := 10000.

Definition set_pending_records (s : IndexPipeline) (n : Z) : IndexPipeline :=
  let c := counters_ s in
  with_counters s (mkCounters (queryVisibleInvalidations_ c) (metadataOnlyUpdates_ c) (metadataOnlyInvalidationsAvoided_ c) n
    (projectionMemoryWarningIssued_ c) (diagnostics c)).

Definition NoteBulkInsertForPlannerStatsLocked (recordCount : Z) : Pipe unit :=
  modify (fun s =>
    if recordCount =? 0 then s
    else if SIZE_MAX - recordCount <? recordsSinceAnalyze_ (counters_ s) then set_pending_records s kAnalyzeRecordThreshold
    else set_pending_records s (recordsSinceAnalyze_ (counters_ s) + recordCount)).

Definition set_warning (s : IndexPipeline) (issued : bool) (reported : list Z) : IndexPipeline :=
  let c := counters_ s in
  with_counters s (mkCounters (queryVisibleInvalidations_ c) (metadataOnlyUpdates_ c) (metadataOnlyInvalidationsAvoided_ c)
    (recordsSinceAnalyze_ c) issued (diagnostics c ++ reported)).

(** ** Records of the wire *)

Definition ToEntryRecord_Mft1 (record : MftRecordV1) : EntryRecord :=
  let f := fixed record in
  {| r_id := mkFileId (m1_fileReferenceNumber f) 0; r_parentId := mkFileId (m1_parentFileReferenceNumber f) 0;
     r_name := fileName record; r_sizeBytes := m1_sizeBytes f; r_allocatedSizeBytes := 0; r_allocatedSizeKnown := false;
     r_creationTime := m1_creationTime f; r_lastModifiedTime := m1_lastModifiedTime f;
     r_lastAccessTime := m1_lastAccessTime f; r_attributes := m1_fileAttributes f |}.

Definition ToEntryRecord_Mft2 (record : MftRecordV2) : EntryRecord :=
  let f := fixed record in
  {| r_id := mkFileId (m2_fileReferenceNumber f) 0; r_parentId := mkFileId (m2_parentFileReferenceNumber f) 0;
     r_name := fileName record; r_sizeBytes := m2_sizeBytes f; r_allocatedSizeBytes := m2_allocatedSizeBytes f;
     r_allocatedSizeKnown := true; r_creationTime := m2_creationTime f; r_lastModifiedTime := m2_lastModifiedTime f;
     r_lastAccessTime := m2_lastAccessTime f; r_attributes := m2_fileAttributes f |}.

Definition ToEntryRecord_Usn2 (record : UsnDeltaV2) : EntryRecord :=
  let f := fixed record in
  {| r_id := mkFileId (u2_fileReferenceNumber f) 0; r_parentId := mkFileId (u2_parentFileReferenceNumber f) 0;
     r_name := fileName record; r_sizeBytes := u2_sizeBytes f; r_allocatedSizeBytes := 0; r_allocatedSizeKnown := false;
     r_creationTime := u2_creationTime f; r_lastModifiedTime := u2_lastModifiedTime f;
     r_lastAccessTime := u2_lastAccessTime f; r_attributes := u2_fileAttributes f |}.

Definition ToEntryRecord_Usn3 (record : UsnDeltaV3) : EntryRecord :=
  let f := fixed record in
  let known := negb (Z.land (u3_fieldMask f) kUsnFieldAllocatedSizeBytes =? 0) in
  {| r_id := mkFileId (u3_fileReferenceNumber f) 0; r_parentId := mkFileId (u3_parentFileReferenceNumber f) 0;
     r_name := fileName record; r_sizeBytes := u3_sizeBytes f;
     r_allocatedSizeBytes := if known then u3_allocatedSizeBytes f else 0; r_allocatedSizeKnown := known;
     r_creationTime := u3_creationTime f; r_lastModifiedTime := u3_lastModifiedTime f;
     r_lastAccessTime := u3_lastAccessTime f; r_attributes := u3_fileAttributes f |}.

(** [field] of the store when [bit] of the wire is present. *)
Definition field_bit (fields bit field : Z) : Z := if Z.land fields bit =? 0 then 0 else field.

Definition ToEntryFieldMask (fields : Z) : option Z :=
  if negb (Z.land fields (not32 kUsnFieldMaskAll) =? 0) then None
  else Some
    (foldl Z.lor 0
      [field_bit fields kUsnFieldParentId kEntryFieldParentId; field_bit fields kUsnFieldName kEntryFieldName;
       field_bit fields kUsnFieldSizeBytes kEntryFieldSizeBytes; field_bit fields kUsnFieldCreationTime kEntryFieldCreationTime;
       field_bit fields kUsnFieldLastModifiedTime kEntryFieldLastModifiedTime;
       field_bit fields kUsnFieldLastAccessTime kEntryFieldLastAccessTime; field_bit fields kUsnFieldAttributes kEntryFieldAttributes;
       field_bit fields kUsnFieldAllocatedSizeBytes kEntryFieldAllocatedSizeBytes]).

Definition kUsnReasonFileDelete : Z := 512.

(** One journal record as a change; [None] for unknown presence bits. *)
Definition usn_change (reason fieldMask : Z) (record : EntryRecord) : option EntryChange :=
  if negb (Z.land reason kUsnReasonFileDelete =? 0) then Some (mkChange ChangeRemove record kEntryFieldMaskAll)
  else match ToEntryFieldMask fieldMask with
       | Some fields => Some (mkChange ChangeUpsert record fields)
       | None => None
       end.

Section pipeline.
Context {DB : Sqlite} (CompareStringOrdinal : list Z -> list Z -> Z) (towlower : Z -> Z).
Context (estimate : Rows -> FilenameIndex -> AccessTimes -> Z) (sizeofEntry : Z).
Context (wal_checkpoint : nat -> Z * Z * Z) (pragma_page_size : nat -> option Z) (file_size : nat -> Z).
(** The order in which a hash table of volumes is walked. *)
Context (hash_order : list Z -> list Z).

(** ** Memory *)

Definition AdvanceResidencyEpochsForStructuralChangeLocked : Pipe unit :=
  let& volumes := gets (fun s => hash_order (elements (dom (volumeDataEpochs_ (epochs_ s))))) in
  let& _ := advance_each volumes ProjectionResidency in
  AdvanceQueryVisibleEpochLocked 0 ProjectionResidency true.

Definition MaybeReportProjectionMemoryPressureLocked : Pipe unit :=
  modify (fun s =>
    let pressure := IsMemoryPressureHigh estimate (projection_ s) in
    if pressure && negb (projectionMemoryWarningIssued_ (counters_ s))
    then set_warning s true [EstimatedMemoryBytes estimate (projection_ s)]
    else if negb pressure then set_warning s false []
    else s).

(** [if (projection_.EnforceMemoryLimitNow ()) Advance..; MaybeReport..]. *)
Definition enforce_memory : Pipe unit :=
  let& evicted := on_projection (EnforceMemoryLimitNow CompareStringOrdinal estimate) in
  let& _ := if evicted : bool then AdvanceResidencyEpochsForStructuralChangeLocked else pipe_ret tt in
  MaybeReportProjectionMemoryPressureLocked.

Definition SetBulkScanActive (active : bool) : Pipe unit :=
  let& _ := change_projection (fun p => Projection.SetBulkScanActive CompareStringOrdinal p active) in
  RecordMetadataOnlyUpdateLocked.

(** ** Volumes and rules *)

Definition ResolveVolume (key : VolumeKey) : Pipe Z :=
  let& '(id, created) := on_store (GetOrCreateVolume key) in
  let& _ :=
    match id with
    | Some id => if created : bool then AdvanceQueryVisibleEpochLocked id VolumeConfiguration true else pipe_ret tt
    | None => pipe_ret tt
    end in
  pipe_ret (default 0 id).

Definition SetVolumeRules (volume : Z) (setting : VolumeSetting) : Pipe unit :=
  let& previous := gets (fun s => volumeRules_ s !! volume) in
  if match previous with Some p => VolumeSettingsEqual p setting | None => false end then pipe_ret tt
  else
    let& _ := modify (fun s => with_rules s (<[volume := setting]> (volumeRules_ s))) in
    AdvanceQueryVisibleEpochLocked volume VolumeConfiguration true.

(** The path rules are matched against: the volume's prefix and the reconstructed path. *)
Definition canonical_path (setting : VolumeSetting) (path : list Z) : list Z :=
  let prefix := key setting in
  (if negb (bool_decide (prefix = [])) && negb (bool_decide (last prefix = Some 92)) then prefix ++ [92] else prefix) ++ path.

Definition IsEntryIncludedLocked (volume : Z) (id : FileId) : Pipe bool :=
  let& rule := gets (fun s => volumeRules_ s !! volume) in
  match rule with
  | None => pipe_ret true
  | Some setting =>
      if bool_decide (rules setting = []) then pipe_ret (enabled setting)
      else
        let& pathResult := on_projection (fun p => ReconstructPath p volume id) in
        if negb (reachedRoot pathResult) then pipe_ret true
        else pipe_ret (IsPathIncluded towlower setting (canonical_path setting (path pathResult)))
  end.

(** ** Batches *)

Definition removal_of (change : EntryChange) : EntryChange := mkChange ChangeRemove (change_record change) kEntryFieldMaskAll.

(** [reconciling->second.insert (id)] while a pass is active. *)
Definition note_seen (volume : Z) (id : FileId) : Pipe unit :=
  modify (fun s => with_seen s (alter (fun seen => {[id]} ∪ seen) volume (reconciliationSeen_ s))).

Definition is_upsert (change : EntryChange) : bool :=
  match change_kind change with ChangeUpsert => true | ChangeRemove => false end.

(** The fused pass over a scan batch: included records are seen, the others are excluded. *)
Fixpoint gate_mft (volume : Z) (changes : list EntryChange) : Pipe (list EntryChange) :=
  match changes with
  | [] => pipe_ret []
  | change :: rest =>
      let& included := IsEntryIncludedLocked volume (r_id (change_record change)) in
      let& _ := if included : bool then note_seen volume (r_id (change_record change)) else pipe_ret tt in
      let& excluded := gate_mft volume rest in
      pipe_ret (if included then excluded else removal_of change :: excluded)
  end.

(** The same over a journal batch, where only upserts count. *)
Fixpoint gate_usn (volume : Z) (changes : list EntryChange) : Pipe (list EntryChange) :=
  match changes with
  | [] => pipe_ret []
  | change :: rest =>
      if is_upsert change then
        let& included := IsEntryIncludedLocked volume (r_id (change_record change)) in
        let& _ := if included : bool then note_seen volume (r_id (change_record change)) else pipe_ret tt in
        let& excluded := gate_usn volume rest in
        pipe_ret (if included then excluded else removal_of change :: excluded)
      else gate_usn volume rest
  end.

Fixpoint note_all (volume : Z) (changes : list EntryChange) : Pipe unit :=
  match changes with
  | [] => pipe_ret tt
  | change :: rest => let& _ := note_seen volume (r_id (change_record change)) in note_all volume rest
  end.

Definition change_ids (changes : list EntryChange) : list FileId := (fun c => r_id (change_record c)) <$> changes.

(** The excluded records leave the store and then the index; [false] when the store failed. *)
Definition prune (volume : Z) (ruleExcluded : list EntryChange) : Pipe bool :=
  if bool_decide (ruleExcluded = []) then pipe_ret true
  else
    let& applied := on_store (ApplyBatch CompareStringOrdinal volume ruleExcluded) in
    if applied : bool then
      let& _ := change_projection (fun p => RemoveBatch CompareStringOrdinal p volume (change_ids ruleExcluded) true) in
      pipe_ret true
    else pipe_ret false.

Definition has_rules (volume : Z) : Pipe bool := gets (fun s => bool_decide (is_Some (volumeRules_ s !! volume))).

Fixpoint upsert_all (p : Projection) (volume : Z) (changes : list EntryChange) : result Projection :=
  match changes with
  | [] => Ok p
  | change :: rest => let* p := Upsert CompareStringOrdinal p volume (change_record change) in upsert_all p volume rest
  end.

(** After the durable commit and the index: rules, memory and epochs. *)
Definition finish_batch (volume : Z) (changes ruleExcluded : list EntryChange) : Pipe bool :=
  let& pruned := prune volume ruleExcluded in
  let& _ := enforce_memory in
  if negb pruned then pipe_ret false
  else
    let& _ := if bool_decide (changes = []) then pipe_ret tt else AdvanceQueryVisibleEpochLocked volume EntryMutation false in
    pipe_ret true.

Definition ApplyMftBatchChanges (volume : Z) (changes : list EntryChange) : Pipe bool :=
  let& committed := on_store (ApplyBatch CompareStringOrdinal volume changes) in
  if negb committed then pipe_ret false
  else
    let& _ := NoteBulkInsertForPlannerStatsLocked (zlen changes) in
    let& _ := change_projection (fun p => upsert_all p volume changes) in
    let& _ := MaybeReportProjectionMemoryPressureLocked in
    let& hasRules := has_rules volume in
    let& ruleExcluded := if hasRules : bool then gate_mft volume changes
                         else let& _ := note_all volume changes in pipe_ret [] in
    finish_batch volume changes ruleExcluded.

Definition mft_change (record : EntryRecord) : EntryChange := mkChange ChangeUpsert record kEntryFieldMaskAll.

Definition ApplyMftBatchV1 (volume : Z) (records : list MftRecordV1) : Pipe bool :=
  ApplyMftBatchChanges volume ((fun r => mft_change (ToEntryRecord_Mft1 r)) <$> records).

Definition ApplyMftBatchV2 (volume : Z) (records : list MftRecordV2) : Pipe bool :=
  ApplyMftBatchChanges volume ((fun r => mft_change (ToEntryRecord_Mft2 r)) <$> records).

Fixpoint apply_each (p : Projection) (volume : Z) (changes : list EntryChange) : result Projection :=
  match changes with
  | [] => Ok p
  | change :: rest =>
      let* p :=
        if is_upsert change then UpsertPartial CompareStringOrdinal p volume (change_record change) (change_fields change)
        else Remove CompareStringOrdinal p volume (r_id (change_record change)) in
      apply_each p volume rest
  end.

Definition ApplyUsnBatchChanges (volume : Z) (changes : list EntryChange) : Pipe bool :=
  let& committed := on_store (ApplyBatch CompareStringOrdinal volume changes) in
  if negb committed then pipe_ret false
  else
    let upserts := List.filter is_upsert changes in
    let& _ := NoteBulkInsertForPlannerStatsLocked (zlen upserts) in
    let& _ := change_projection (fun p => apply_each p volume changes) in
    let& hasRules := has_rules volume in
    let& ruleExcluded := if hasRules : bool then gate_usn volume changes
                         else let& _ := note_all volume upserts in pipe_ret [] in
    finish_batch volume changes ruleExcluded.

(** The conversion stops at the first record with unknown presence bits. *)
Definition apply_usn (volume : Z) (changes : list (option EntryChange)) : Pipe bool :=
  match mapM id changes with
  | Some changes => ApplyUsnBatchChanges volume changes
  | None => pipe_ret false
  end.

Definition ApplyUsnBatchV2 (volume : Z) (records : list UsnDeltaV2) : Pipe bool :=
  apply_usn volume ((fun r => usn_change (u2_reason (fixed r)) (u2_fieldMask (fixed r)) (ToEntryRecord_Usn2 r)) <$> records).

Definition ApplyUsnBatchV3 (volume : Z) (records : list UsnDeltaV3) : Pipe bool :=
  apply_usn volume ((fun r => usn_change (u3_reason (fixed r)) (u3_fieldMask (fixed r)) (ToEntryRecord_Usn3 r)) <$> records).

Definition ApplyUsnBatchV1 (volume : Z) (records : list UsnDeltaV1) : Pipe bool :=
  ApplyUsnBatchV2 volume (UpgradeUsnDeltaV1 <$> records).

(** ** Volume metadata *)

(** A durable update of a volume's columns: no search result depends on it. *)
Definition metadata_update (m : Sql Tables bool) : Pipe bool :=
  let& result := on_store m in
  let& _ := if result : bool then RecordMetadataOnlyUpdateLocked else pipe_ret tt in
  pipe_ret result.

Definition SetVolumeAvailable (volume : Z) (isAvailable : bool) (now : Z) : Pipe bool :=
  let& '(result, visibilityChanged) := on_store (Store.SetVolumeAvailable volume isAvailable now) in
  let& _ :=
    if result : bool then
      if visibilityChanged : bool then AdvanceQueryVisibleEpochLocked volume VolumeVisibility true
      else RecordMetadataOnlyUpdateLocked
    else pipe_ret tt in
  pipe_ret result.

Definition SetScanCursor (volume : Z) (cursor : list Z) : Pipe bool := metadata_update (Store.SetScanCursor volume cursor).
Definition MarkScanComplete (volume : Z) : Pipe bool := metadata_update (Store.MarkScanComplete volume).
Definition SetJournalPosition (volume journalId resumeUsn : Z) : Pipe bool :=
  metadata_update (Store.SetJournalPosition volume journalId resumeUsn).
Definition SetLastReconciliationTime (volume now : Z) : Pipe bool :=
  metadata_update (Store.SetLastReconciliationTime volume now).

Definition ForgetVolume (volume : Z) : Pipe bool :=
  let& forgotten := on_store (Store.ForgetVolume volume) in
  if negb forgotten then pipe_ret false
  else
    let& _ := modify (fun s => with_seen s (delete volume (reconciliationSeen_ s))) in
    let& _ := change_projection (fun p => RemoveVolume CompareStringOrdinal p volume true) in
    let& _ := AdvanceQueryVisibleEpochLocked volume Forget true in
    pipe_ret true.

(** ** Reconciliation *)

Definition BeginReconciliationPass (volume : Z) : Pipe unit :=
  let& _ := modify (fun s => with_seen s (<[volume := ∅]> (reconciliationSeen_ s))) in
  RecordMetadataOnlyUpdateLocked.

Definition IsReconciliationPassActive (volume : Z) : Pipe bool :=
  gets (fun s => bool_decide (is_Some (reconciliationSeen_ s !! volume))).

Definition AbortReconciliationPass (volume : Z) : Pipe unit :=
  let& active := IsReconciliationPassActive volume in
  if active : bool then
    let& _ := modify (fun s => with_seen s (delete volume (reconciliationSeen_ s))) in
    RecordMetadataOnlyUpdateLocked
  else pipe_ret tt.

Definition removal_marker (id : FileId) : EntryChange := mkChange ChangeRemove (default_record id) kEntryFieldMaskAll.

(** The ids that were not seen or are excluded by the rules. *)
Fixpoint stale_entries (volume : Z) (seen : gset FileId) (hasRules : bool) (ids : list FileId) : Pipe (list EntryChange) :=
  match ids with
  | [] => pipe_ret []
  | id :: rest =>
      let notSeen := negb (bool_decide (id ∈ seen)) in
      let& excluded :=
        if hasRules then let& included := IsEntryIncludedLocked volume id in pipe_ret (negb included)
        else pipe_ret false in
      let& removals := stale_entries volume seen hasRules rest in
      pipe_ret (if notSeen || excluded then removal_marker id :: removals else removals)
  end.

Definition kReconciliationRemovalChunkRows : nat := 5000.
Definition kWalForceCheckpointThresholdBytes : Z := 4000 * 4096.

Definition on_maintenance {A} (f : Maintenance -> Sql Tables (A * Maintenance)) : Pipe A :=
  fun s => let '((a, m), c) := f (maintenance_ s) (store_ s) in Ok (a, with_maintenance (with_store s c) m).

(** Each chunk is a transaction of its own; the committed ids are returned even when a later
    chunk fails.  Every round consumes at least one removal. *)
Fixpoint remove_chunks (fuel : nat) (volume : Z) (removals : list EntryChange) (committed : list FileId)
    : Pipe (bool * list FileId) :=
  match removals with
  | [] => pipe_ret (true, committed)
  | _ :: _ =>
      match fuel with
      | O => fun _ => Fault
      | S fuel =>
          let chunk := take kReconciliationRemovalChunkRows removals in
          let& applied := on_store (ApplyBatch CompareStringOrdinal volume chunk) in
          if negb applied then pipe_ret (false, committed)
          else
            let& _ := on_maintenance (fun m => CheckpointIfWalExceeds wal_checkpoint pragma_page_size m kWalForceCheckpointThresholdBytes) in
            remove_chunks fuel volume (drop kReconciliationRemovalChunkRows removals) (committed ++ change_ids chunk)
      end
  end.

Definition FinishReconciliationPass (volume : Z) : Pipe unit :=
  let& pass := gets (fun s => reconciliationSeen_ s !! volume) in
  match pass with
  | None => pipe_ret tt
  | Some seen =>
      let& hasRules := has_rules volume in
      let& '(existingIds, enumerationSucceeded) := on_store (ListEntryIds volume) in
      if negb enumerationSucceeded then RecordMetadataOnlyUpdateLocked
      else
        let& removals := stale_entries volume seen hasRules existingIds in
        let& '(secondaryApplied, committedIds) := remove_chunks (length removals) volume removals [] in
        let& _ :=
          if bool_decide (committedIds = []) then pipe_ret tt
          else change_projection (fun p => RemoveBatch CompareStringOrdinal p volume committedIds true) in
        let& _ :=
          if secondaryApplied : bool then modify (fun s => with_seen s (delete volume (reconciliationSeen_ s)))
          else pipe_ret tt in
        if bool_decide (committedIds = []) then RecordMetadataOnlyUpdateLocked
        else AdvanceQueryVisibleEpochLocked volume EntryMutation false
  end.

(** ** Residency *)

(** [NeedsReload] of the listed volumes. *)
Definition residency (metas : list VolumeMetadata) (p : Projection) : gmap Z bool :=
  list_to_map ((fun meta => (meta_rowId meta, NeedsReload p (meta_rowId meta))) <$> metas).

Fixpoint advance_changed (before : gmap Z bool) (metas : list VolumeMetadata) (changed : bool) : Pipe bool :=
  match metas with
  | [] => pipe_ret changed
  | meta :: rest =>
      let& after := gets (fun s => NeedsReload (projection_ s) (meta_rowId meta)) in
      if bool_decide (before !! meta_rowId meta = Some after) then advance_changed before rest changed
      else
        let& _ := AdvanceQueryVisibleEpochLocked (meta_rowId meta) ProjectionResidency false in
        advance_changed before rest true
  end.

Definition SetProjectionMemoryBudget (maximumBytes : Z) : Pipe unit :=
  let& metas := on_store (GetAllVolumesImpl false) in
  let& before := gets (fun s => residency metas (projection_ s)) in
  let& _ := change_projection (fun p => SetMaximumMemoryBytes CompareStringOrdinal estimate p maximumBytes) in
  let& metas := on_store (GetAllVolumesImpl false) in
  let& residencyChanged := advance_changed before metas false in
  if residencyChanged : bool then pipe_ret tt else RecordMetadataOnlyUpdateLocked.

Definition UnloadVolumeFromProjection (volume : Z) : Pipe unit :=
  let& wasEvicted := gets (fun s => NeedsReload (projection_ s) volume) in
  let& _ := change_projection (fun p => EvictVolume p volume) in
  let& isEvicted := gets (fun s => NeedsReload (projection_ s) volume) in
  if negb wasEvicted && isEvicted then AdvanceQueryVisibleEpochLocked volume ProjectionResidency false
  else RecordMetadataOnlyUpdateLocked.

(** ** Rebuilding *)

(** The visitor of the second read: the records the rules exclude. *)
Fixpoint rule_excluded (volume : Z) (records : list EntryRecord) : Pipe (list EntryChange) :=
  match records with
  | [] => pipe_ret []
  | record :: rest =>
      let& included := IsEntryIncludedLocked volume (r_id record) in
      let& excluded := rule_excluded volume rest in
      pipe_ret (if included : bool then excluded else mkChange ChangeRemove record kEntryFieldMaskAll :: excluded)
  end.

Definition rebuild_one (meta : VolumeMetadata) : Pipe bool :=
  let volume := meta_rowId meta in
  let& cursor := on_store (SelectEntries volume) in
  let& rebuildSucceeded := on_projection (fun p =>
    RebuildVolumeFromStore CompareStringOrdinal estimate sizeofEntry p cursor volume (meta_entryCount meta)) in
  let& hasRules := has_rules volume in
  if rebuildSucceeded && hasRules then
    let& cursor := on_store (SelectEntries volume) in
    let& ruleExcluded := rule_excluded volume (delivered cursor) in
    if negb (completed cursor) then pipe_ret false else prune volume ruleExcluded
  else pipe_ret rebuildSucceeded.

Fixpoint rebuild_each (metas : list VolumeMetadata) : Pipe (list Z) :=
  match metas with
  | [] => pipe_ret []
  | meta :: rest =>
      let& rebuildSucceeded := rebuild_one meta in
      let& ids := rebuild_each rest in
      pipe_ret (if rebuildSucceeded : bool then meta_rowId meta :: ids else ids)
  end.

(** The volumes handed to the callback. *)
Definition RebuildAll : Pipe (list Z) :=
  let& metas := on_store (GetAllVolumesImpl true) in
  let& volumeIds := rebuild_each metas in
  let& _ := MaybeReportProjectionMemoryPressureLocked in
  let& _ := advance_each volumeIds RebuildReason in
  pipe_ret volumeIds.

(** ** Maintenance *)

Definition FlushPendingPlannerStatsLocked : Pipe unit :=
  let& pending := gets (fun s => recordsSinceAnalyze_ (counters_ s)) in
  if pending <? kAnalyzeRecordThreshold then pipe_ret tt
  else
    let& analyzed := on_store Analyze in
    if analyzed : bool then
      let& _ := modify (fun s => set_pending_records s 0) in RecordMetadataOnlyUpdateLocked
    else pipe_ret tt.

Definition RunStoreMaintenance (pathEmpty userIdle : bool) (now vacuumIntervalHours vacuumSizeGrowthPercent : Z) : Pipe unit :=
  let& open := gets (fun s => opened (store_ s)) in
  if negb open then pipe_ret tt
  else
    let& _ := on_maintenance (fun m => CheckpointPassive wal_checkpoint m) in
    let& _ := on_maintenance (fun m => CheckpointIfWalExceeds wal_checkpoint pragma_page_size m kWalForceCheckpointThresholdBytes) in
    let& _ := FlushPendingPlannerStatsLocked in
    let& _ :=
      if userIdle then
        let& _ := on_maintenance (fun m => VacuumIfDue file_size m pathEmpty true now vacuumIntervalHours vacuumSizeGrowthPercent) in
        pipe_ret tt
      else pipe_ret tt in
    RecordMetadataOnlyUpdateLocked.
End pipeline.
