(* ===== verification/PipelineSync.v ===== *)
(** * PipelineSync: the index agrees with the durable store

    The invariant of the pipeline of [Pipeline]: the store is well formed, and every volume that
    is not marked cold has in the index exactly the records it has in the store.  Every
    operation keeps it, whatever call of SQLite fails, and [RebuildAll] establishes it after a
    restart. *)

From stdpp Require Import gmap.
From S2P Require Import Prelude Records FlatHashMap ChildrenMap FilenameIndex Projection ProjectionRead Residency Rebuild Rules Utf8 Sql Store Maintenance Pipeline.

(** ** Reasoning about operations *)

(** [pwp m Q s]: from [s] the operation does not fault, and if it returns, [Q] holds. *)
Definition pwp {A} (m : Pipe A) (Q : A -> IndexPipeline -> Prop) (s : IndexPipeline) : Prop :=
  safe (m s) (fun '(a, s') => Q a s').

Lemma pwp_ret {A} (a : A) (Q : A -> IndexPipeline -> Prop) s : Q a s -> pwp (pipe_ret a) Q s.
Proof. done. Qed.

Lemma pwp_bind {A B} (m : Pipe A) (k : A -> Pipe B) (Q : B -> IndexPipeline -> Prop) s :
  pwp m (fun a => pwp (k a) Q) s -> pwp (pipe_bind m k) Q s.
Proof. unfold pwp, pipe_bind. intros H. eapply safe_bind; [exact H|]. by intros [a s']. Qed.

Lemma pwp_mono {A} (m : Pipe A) (P Q : A -> IndexPipeline -> Prop) s :
  pwp m P s -> (forall a s', P a s' -> Q a s') -> pwp m Q s.
Proof. intros H HPQ. eapply safe_mono; [exact H|]. intros [a s']. apply HPQ. Qed.

Lemma pwp_gets {A} (f : IndexPipeline -> A) (Q : A -> IndexPipeline -> Prop) s : Q (f s) s -> pwp (gets f) Q s.
Proof. done. Qed.

Lemma pwp_modify f (Q : unit -> IndexPipeline -> Prop) s : Q tt (f s) -> pwp (modify f) Q s.
Proof. done. Qed.

Lemma pwp_if {A} (b : bool) (m n : Pipe A) (Q : A -> IndexPipeline -> Prop) s :
  (b = true -> pwp m Q s) -> (b = false -> pwp n Q s) -> pwp (if b then m else n) Q s.
Proof. destruct b; auto. Qed.

Lemma pwp_change_projection f (Q : unit -> IndexPipeline -> Prop) s :
  safe (f (projection_ s)) (fun p => Q tt (with_projection s p)) -> pwp (change_projection f) Q s.
Proof. unfold pwp, change_projection. intros H. eapply safe_bind; [exact H|]. done. Qed.

Lemma pwp_on_projection {A} (f : Projection -> result (A * Projection)) (Q : A -> IndexPipeline -> Prop) s :
  safe (f (projection_ s)) (fun '(a, p) => Q a (with_projection s p)) -> pwp (on_projection f) Q s.
Proof. unfold pwp, on_projection. intros H. eapply safe_bind; [exact H|]. by intros [a p]. Qed.

Lemma pwp_on_store {A} (m : Sql Tables A) (Q : A -> IndexPipeline -> Prop) s :
  opened (store_ s) = true ->
  wp m (fun a t => forall c, tables c = t -> opened c = true -> Q a (with_store s c)) (tables (store_ s)) ->
  pwp (on_store m) Q s.
Proof.
  intros Ho H. unfold pwp, on_store. specialize (H (store_ s) eq_refl Ho). destruct (m (store_ s)) as [a c].
  destruct H as [H Hc]. cbn. by apply H.
Qed.

Lemma pwp_quiet {A} (f : Maintenance -> Sql Tables (A * Maintenance)) (Q : A -> IndexPipeline -> Prop) s :
  (forall m, quiet (f m)) ->
  (forall a c m, tables c = tables (store_ s) -> opened c = opened (store_ s) -> Q a (with_maintenance (with_store s c) m)) ->
  pwp (on_maintenance f) Q s.
Proof.
  intros Hq HQ. unfold pwp, on_maintenance. destruct (Hq (maintenance_ s) (store_ s)) as [Ht Ho].
  destruct (f (maintenance_ s) (store_ s)) as [[a m] c]. cbn in *. by apply HQ.
Qed.

(** The next step of an operation, by the lemma [l]. *)
Tactic Notation "pwp_do" uconstr(l) :=
  lazymatch goal with |- pwp (pipe_bind _ _) _ _ => apply pwp_bind | _ => idtac end;
  eapply pwp_mono; [by eapply l|cbv beta].

(** ** The invariant *)

Section sync.
Context {DB : Sqlite} (CSO : list Z -> list Z -> Z) (towlower : Z -> Z).
Context (estimate : Rows -> FilenameIndex -> AccessTimes -> Z) (sizeofEntry : Z).
Context (wal_checkpoint : nat -> Z * Z * Z) (pragma_page_size : nat -> option Z) (file_size : nat -> Z).
Context (hash_order : list Z -> list Z).
Local Abbreviation refines := (refines CSO).

(** [g] has of the records [truth] everything of the volumes that are neither cold nor in [W]. *)
Definition hot_outside (W : gset Z) (truth : Records) (p : Projection) (g : Records) : Prop :=
  forall k, volumeRowId k ∉ W -> volumeRowId k ∉ cold p -> g !! k = truth !! k.

Record linked (W : gset Z) (truth : Records) (s : IndexPipeline) (g : Records) : Prop := {
  li_open : opened (store_ s) = true;
  li_store : store_ok CSO (tables (store_ s));
  li_limit : 0 <= maximumMemoryBytes_ (policy (projection_ s)) <= UINT64_MAX;
  li_refines : refines (projection_ s) g;
  li_hot : hot_outside W truth (projection_ s) g
}.

(** The volumes outside [W] are in step with the store. *)
Definition synced_on (W : gset Z) (s : IndexPipeline) : Prop :=
  exists g, linked W (Durable (tables (store_ s))) s g.

Definition synced (s : IndexPipeline) : Prop := synced_on ∅ s.

(** Only the store and the index matter. *)
Lemma linked_ext W truth s s' g :
  store_ s' = store_ s -> projection_ s' = projection_ s -> linked W truth s g -> linked W truth s' g.
Proof. intros Es Ep [H1 H2 H3 H4 H5]. split; rewrite ?Es, ?Ep; done. Qed.

Lemma synced_ext W s s' : store_ s' = store_ s -> projection_ s' = projection_ s -> synced_on W s -> synced_on W s'.
Proof. intros Es Ep [g Hg]. exists g. rewrite Es. by eapply linked_ext. Qed.

(** A store with the same tables. *)
Lemma synced_store W s c : tables c = tables (store_ s) -> opened c = opened (store_ s) -> synced_on W s -> synced_on W (with_store s c).
Proof. intros Et Eo [g [H1 H2 H3 H4 H5]]. exists g. cbn [store_ with_store]. split; cbn; rewrite ?Et, ?Eo; done. Qed.

Lemma linked_projection W truth s g p g' :
  linked W truth s g -> refines p g' -> maximumMemoryBytes_ (policy p) = maximumMemoryBytes_ (policy (projection_ s)) ->
  hot_outside W truth p g' -> linked W truth (with_projection s p) g'.
Proof. intros [H1 H2 H3 H4 H5] Hp Hm Hh. split; cbn; rewrite ?Hm; done. Qed.

(** Evicting records only makes volumes cold. *)
Lemma hot_outside_shrinks W truth p g p' g' : shrinks p g p' g' -> hot_outside W truth p g -> hot_outside W truth p' g'.
Proof.
  intros Hs Hhot k HW Hk.
  assert (volumeRowId k ∉ cold p) as Hk0 by (intros ?; by apply Hk, (sh_cold _ _ _ _ Hs)). rewrite <-(Hhot k HW Hk0).
  destruct (g' !! k) as [r|] eqn:E'; [symmetry; eapply lookup_weaken, Hs; done|].
  destruct (g !! k) as [r|] eqn:E; [|done]. exfalso. apply Hk, (sh_lost _ _ _ _ Hs); [by rewrite E|done].
Qed.

Lemma linked_shrinks W truth s g p g' :
  linked W truth s g -> refines p g' -> shrinks (projection_ s) g p g' -> linked W truth (with_projection s p) g'.
Proof.
  intros Hl Hp Hs. eapply linked_projection; [done..|apply Hs|]. by eapply hot_outside_shrinks, Hl.
Qed.

(** ** Changes *)

Lemma spec_change_at volume g g' change k :
  g !! k = g' !! k -> spec_change volume g change !! k = spec_change volume g' change !! k.
Proof.
  intros E. unfold spec_change. destruct (change_kind change); set (key := mkEntryKey _ _); destruct (decide (k = key)) as [->|Hne].
  - rewrite !lookup_insert_eq. unfold merged. fold key. by rewrite E.
  - by rewrite !lookup_insert_ne by done.
  - by rewrite !lookup_delete_eq.
  - by rewrite !lookup_delete_ne by done.
Qed.

Lemma spec_changes_at volume changes g g' k :
  g !! k = g' !! k -> foldl (spec_change volume) g changes !! k = foldl (spec_change volume) g' changes !! k.
Proof.
  revert g g'. induction changes as [|change changes IH]; intros g g' E; cbn [foldl]; [done|]. by apply IH, spec_change_at.
Qed.

Lemma spec_removals volume changes g :
  Forall (fun c => change_kind c = ChangeRemove) changes ->
  foldl (spec_change volume) g changes = delete_ids volume (change_ids changes) g.
Proof.
  intros Hall. revert g. induction Hall as [|change changes Hk _ IH]; intros g; cbn [foldl]; [done|].
  rewrite IH. unfold spec_change. rewrite Hk. done.
Qed.

(** The units the changes may add to the name arena. *)
Definition change_op (volume : Z) (change : EntryChange) : proj_op :=
  if is_upsert change then OpUpsertPartial volume (change_record change) (change_fields change)
  else OpRemove volume (r_id (change_record change)).

Definition batch_chars (volume : Z) (changes : list EntryChange) : Z := total_chars (change_op volume <$> changes).

Lemma apply_one p g volume change n :
  refines p g -> budget p (op_chars (change_op volume change)) (1 + n) -> 0 <= n ->
  safe (if is_upsert change then UpsertPartial CSO p volume (change_record change) (change_fields change)
        else Remove CSO p volume (r_id (change_record change)))
    (fun p' => refines p' (spec_change volume g change) /\ grown p p' (op_chars (change_op volume change)) 1).
Proof.
  intros Hp (Ha & Ht & He) Hn. unfold change_op, is_upsert, spec_change in *. unfold UINT32_MAX in *.
  destruct (change_kind change).
  - set (record := change_record change) in *. set (fields := change_fields change) in *.
    pose proof (op_chars_nonneg (OpUpsertPartial volume record fields)) as Hc.
    eapply safe_mono; [apply (UpsertPartial_refines CSO p g volume record fields); [exact Hp|]|].
    + split; [by apply (merged_interned CSO)|]. unfold UINT32_MAX. repeat split; (done || lia).
    + intros p' [Hg Hr]. split; [exact Hr|exact Hg].
  - destruct Hp as (names & st & Hok & ->). eapply safe_mono; [by apply Remove_ok|]. intros p' [(H1 & H2 & H3 & H4) Hp'].
    split; [|cbn; unfold grown; rewrite H4; repeat split; lia]. eexists names, _. split; [exact Hp'|]. by rewrite fmap_delete.
Qed.

(** A batch brings the index to the same records as the store. *)
Lemma apply_each_ok p g volume changes :
  refines p g -> budget p (batch_chars volume changes) (zlen changes) ->
  safe (apply_each CSO p volume changes) (fun p' => refines p' (foldl (spec_change volume) g changes) /\ policy p' = policy p).
Proof.
  revert p g. induction changes as [|change changes IH]; intros p g Hp Hb; cbn [apply_each foldl]; [done|].
  unfold batch_chars in Hb. rewrite fmap_cons in Hb. cbn [total_chars] in Hb. rewrite zlen_cons in Hb.
  pose proof (total_chars_nonneg (change_op volume <$> changes)). pose proof (zlen_nonneg changes).
  destruct Hb as (Ha & Ht & He).
  eapply safe_bind; [apply (apply_one p g volume change (zlen changes)); [done| |lia]|].
  { unfold budget. lia. }
  intros p1 (Hp1 & Hg1 & Hg2 & Hg3 & Hpol). eapply safe_mono; [apply IH; [exact Hp1|]|].
  - unfold budget, batch_chars. lia.
  - intros p' [Hr Hp']. split; [done|]. by rewrite Hp'.
Qed.

(** ** Steps of the operations *)

Abbreviation durable s := (Durable (tables (store_ s))).

(** The store is [changes] ahead of the index. *)
Definition ahead (W : gset Z) (volume : Z) (changes : list EntryChange) (s : IndexPipeline) : Prop :=
  exists truth g, linked W truth s g /\ durable s = foldl (spec_change volume) truth changes.

Lemma synced_ahead W volume s : synced_on W s <-> ahead W volume [] s.
Proof. split; [intros [g Hg]; by exists (durable s), g|]. intros (truth & g & Hg & E). exists g. by rewrite E. Qed.

Lemma commit_ok W volume before changes s :
  ahead W volume before s -> Forall change_ok changes ->
  pwp (on_store (ApplyBatch CSO volume changes))
    (fun ok s' => ahead W volume (if ok : bool then before ++ changes else before) s' /\
       projection_ s' = projection_ s /\ volumeRules_ s' = volumeRules_ s) s.
Proof.
  intros (truth & g & [H1 H2 H3 H4 H5] & E) Hall. apply pwp_on_store; [done|].
  eapply wp_mono; [by apply ApplyBatch_store_ok|]. intros ok t [Hst HD] c <- Hc. split; [|done].
  exists truth, g. cbn [store_ with_store]. split; [by split|]. destruct ok; [|by rewrite HD].
  by rewrite HD, E, foldl_app.
Qed.

(** The index catches up. *)
Lemma catch_up W volume changes truth s g p :
  linked W truth s g -> durable s = foldl (spec_change volume) truth changes ->
  refines p (foldl (spec_change volume) g changes) -> policy p = policy (projection_ s) -> synced_on W (with_projection s p).
Proof.
  intros [H1 H2 H3 H4 H5] E Hp Hpol. exists (foldl (spec_change volume) g changes). cbn [store_ with_projection]. rewrite E.
  split; cbn; rewrite ?Hpol; try done.
  intros k HW Hk. apply spec_changes_at, H5; [done|]. unfold cold in *. by rewrite <-Hpol.
Qed.

Lemma remove_batch_ok p volume ids g :
  refines p g -> safe (RemoveBatch CSO p volume ids true) (fun p' => refines p' (delete_ids volume ids g) /\ policy p' = policy p).
Proof.
  intros (names & st & Hok & ->). eapply safe_mono; [by apply RemoveBatch_ok|]. intros p' [(_ & _ & _ & Hpol) Hp'].
  split; [|done]. eexists names, _. split; [exact Hp'|]. by rewrite snd_delete_ids.
Qed.

Definition removals_ok (changes : list EntryChange) : Prop :=
  Forall change_ok changes /\ Forall (fun c => change_kind c = ChangeRemove) changes.

(** The committed removals leave the index as well. *)
Lemma drop_removed_ok W volume removals s :
  ahead W volume removals s -> Forall (fun c => change_kind c = ChangeRemove) removals ->
  pwp (change_projection (fun p => RemoveBatch CSO p volume (change_ids removals) true)) (fun _ s' => synced_on W s') s.
Proof.
  intros Ha Hall. apply pwp_change_projection. destruct Ha as (truth & g & Hl & E).
  eapply safe_mono; [eapply remove_batch_ok, Hl|]. intros p' [Hp' Hpol].
  eapply catch_up; [exact Hl|exact E|by rewrite spec_removals|done].
Qed.

Lemma prune_ok W volume removals s :
  synced_on W s -> removals_ok removals -> pwp (prune CSO volume removals) (fun _ s' => synced_on W s') s.
Proof.
  intros Hs [Hok Hrm]. unfold prune. destruct (bool_decide_reflect (removals = [])); [by apply pwp_ret|]. apply pwp_bind.
  eapply pwp_mono; [apply (commit_ok W volume []); [by apply synced_ahead|done]|]. intros [] s' (Ha & _).
  - pwp_do drop_removed_ok. intros [] s2 Hs2. by apply pwp_ret.
  - apply pwp_ret. by apply (synced_ahead W volume).
Qed.

(** Access times are not part of the invariant. *)
Lemma included_ok W volume id s :
  synced_on W s -> pwp (IsEntryIncludedLocked towlower volume id) (fun _ s' => synced_on W s') s.
Proof.
  intros Hs. unfold IsEntryIncludedLocked. apply pwp_bind, pwp_gets. destruct (volumeRules_ s !! volume) as [setting|]; [|by apply pwp_ret].
  destruct (bool_decide _); [by apply pwp_ret|]. apply pwp_bind, pwp_on_projection. destruct Hs as [g Hl].
  destruct (ReconstructPath_spec CSO (projection_ s) g volume id (li_refines _ _ _ _ Hl)) as (res & p' & -> & Hp' & _ & Hpol & _).
  cbn [safe]. assert (synced_on W (with_projection s p')) as Hs'.
  { exists g. eapply linked_projection; [exact Hl|done|by rewrite Hpol|]. intros k HW Hk. apply Hl; [done|]. unfold cold in *. by rewrite <-Hpol. }
  destruct (negb _); by apply pwp_ret.
Qed.

Lemma note_seen_ok W volume id s : synced_on W s -> pwp (note_seen volume id) (fun _ s' => synced_on W s') s.
Proof. intros Hs. apply pwp_modify. by eapply synced_ext, Hs. Qed.

Lemma note_all_ok W volume changes s : synced_on W s -> pwp (note_all volume changes) (fun _ s' => synced_on W s') s.
Proof.
  revert s. induction changes as [|change changes IH]; intros s Hs; cbn [note_all]; [by apply pwp_ret|].
  pwp_do note_seen_ok. auto.
Qed.

(** Operations on the epochs, the counters, the rules and the seen ids. *)
Definition bookkeeping {A} (m : Pipe A) : Prop :=
  forall s, exists a s', m s = Ok (a, s') /\ store_ s' = store_ s /\ projection_ s' = projection_ s.

Lemma bookkeeping_ret {A} (a : A) : bookkeeping (pipe_ret a).
Proof. intros s. by exists a, s. Qed.

Lemma bookkeeping_gets {A} (f : IndexPipeline -> A) : bookkeeping (gets f).
Proof. intros s. by exists (f s), s. Qed.

Lemma bookkeeping_modify f :
  (forall s, store_ (f s) = store_ s /\ projection_ (f s) = projection_ s) -> bookkeeping (modify f).
Proof. intros H s. exists tt, (f s). by destruct (H s). Qed.

Lemma bookkeeping_bind {A B} (m : Pipe A) (k : A -> Pipe B) :
  bookkeeping m -> (forall a, bookkeeping (k a)) -> bookkeeping (pipe_bind m k).
Proof.
  intros Hm Hk s. destruct (Hm s) as (a & s1 & E1 & Es1 & Ep1). destruct (Hk a s1) as (b & s2 & E2 & Es2 & Ep2).
  exists b, s2. unfold pipe_bind. rewrite E1. cbn [bind]. by rewrite E2, Es2, Ep2.
Qed.

Lemma advance_bookkeeping volume reason b : bookkeeping (AdvanceQueryVisibleEpochLocked volume reason b).
Proof. by apply bookkeeping_modify. Qed.

Lemma metadata_bookkeeping : bookkeeping RecordMetadataOnlyUpdateLocked.
Proof. by apply bookkeeping_modify. Qed.

Lemma advance_each_bookkeeping volumes reason : bookkeeping (advance_each volumes reason).
Proof.
  induction volumes as [|v volumes IH]; cbn [advance_each]; [apply bookkeeping_ret|].
  apply bookkeeping_bind; [apply advance_bookkeeping|done].
Qed.

Lemma residency_bookkeeping : bookkeeping (AdvanceResidencyEpochsForStructuralChangeLocked hash_order).
Proof.
  apply bookkeeping_bind; [apply bookkeeping_gets|intros volumes].
  apply bookkeeping_bind; [apply advance_each_bookkeeping|intros _; apply advance_bookkeeping].
Qed.

Lemma note_bulk_bookkeeping n : bookkeeping (NoteBulkInsertForPlannerStatsLocked n).
Proof. apply bookkeeping_modify. intros s. cbv zeta. split; repeat case_match; reflexivity. Qed.

Lemma report_bookkeeping : bookkeeping (MaybeReportProjectionMemoryPressureLocked estimate).
Proof. apply bookkeeping_modify. intros s. cbv zeta. split; repeat case_match; reflexivity. Qed.

Lemma pwp_bookkeeping {A} (m : Pipe A) (Q : A -> IndexPipeline -> Prop) s :
  bookkeeping m -> (forall a s', store_ s' = store_ s -> projection_ s' = projection_ s -> Q a s') -> pwp m Q s.
Proof. intros Hm HQ. destruct (Hm s) as (a & s' & E & Es & Ep). unfold pwp. rewrite E. by apply HQ. Qed.

Lemma bookkeeping_synced {A} W (m : Pipe A) s : bookkeeping m -> synced_on W s -> pwp m (fun _ s' => synced_on W s') s.
Proof. intros Hm Hs. apply pwp_bookkeeping; [done|]. intros a s' Es Ep. by eapply synced_ext. Qed.
End sync.

Create HintDb books.
#[export] Hint Resolve bookkeeping_ret bookkeeping_gets bookkeeping_bind advance_bookkeeping metadata_bookkeeping
  advance_each_bookkeeping residency_bookkeeping note_bulk_bookkeeping report_bookkeeping : books.

Section operations.
Context {DB : Sqlite} (CSO : list Z -> list Z -> Z) (towlower : Z -> Z).
Context (estimate : Rows -> FilenameIndex -> AccessTimes -> Z) (sizeofEntry : Z).
Context (wal_checkpoint : nat -> Z * Z * Z) (pragma_page_size : nat -> option Z) (file_size : nat -> Z).
Context (hash_order : list Z -> list Z).
Local Abbreviation synced_on := (synced_on CSO).
Local Abbreviation ahead := (ahead CSO).
Local Abbreviation refines := (refines CSO).

Lemma ahead_ext W volume changes s s' :
  store_ s' = store_ s -> projection_ s' = projection_ s -> ahead W volume changes s -> ahead W volume changes s'.
Proof. intros Es Ep (truth & g & Hl & E). exists truth, g. rewrite Es. split; [by eapply linked_ext|done]. Qed.

(** What the gates exclude are removals of records of the batch. *)
Definition from_batch (changes removals : list EntryChange) : Prop :=
  Forall (fun r => exists change, change ∈ changes /\ r = removal_of change) removals.

Lemma from_batch_ok changes removals : Forall change_ok changes -> from_batch changes removals -> removals_ok removals.
Proof.
  intros Hok Hfrom. split; (eapply Forall_impl; [exact Hfrom|intros r (change & Hin & ->)]); [|done].
  rewrite Forall_forall in Hok. exact (Hok change Hin).
Qed.

Lemma from_batch_weaken change changes removals : from_batch changes removals -> from_batch (change :: changes) removals.
Proof. intros H. eapply Forall_impl; [exact H|]. intros r (c & Hc & ->). exists c. split; [by right|done]. Qed.

Lemma gate_one W volume (change : EntryChange) (included : bool) s :
  synced_on W s ->
  pwp (if included then note_seen volume (r_id (change_record change)) else pipe_ret tt) (fun _ s' => synced_on W s') s.
Proof. intros Hs. destruct included; [by apply note_seen_ok|by apply pwp_ret]. Qed.

Lemma gate_mft_ok W volume changes s :
  synced_on W s ->
  pwp (gate_mft towlower volume changes) (fun removals s' => synced_on W s' /\ from_batch changes removals) s.
Proof.
  revert s. induction changes as [|change changes IH]; intros s Hs; cbn [gate_mft]; [apply pwp_ret; split; [done|constructor]|].
  pwp_do included_ok. intros included s1 Hs1.
  pwp_do (gate_one W). intros [] s2 Hs2.
  pwp_do IH. intros removals s3 [Hs3 Hf]. apply pwp_ret. split; [done|].
  destruct included; [by apply from_batch_weaken|]. constructor; [|by apply from_batch_weaken]. exists change. split; [by left|done].
Qed.

Lemma gate_usn_ok W volume changes s :
  synced_on W s ->
  pwp (gate_usn towlower volume changes) (fun removals s' => synced_on W s' /\ from_batch changes removals) s.
Proof.
  revert s. induction changes as [|change changes IH]; intros s Hs; cbn [gate_usn]; [apply pwp_ret; split; [done|constructor]|].
  destruct (is_upsert change).
  - pwp_do included_ok. intros included s1 Hs1.
    pwp_do (gate_one W). intros [] s2 Hs2.
    pwp_do IH. intros removals s3 [Hs3 Hf]. apply pwp_ret. split; [done|].
    destruct included; [by apply from_batch_weaken|]. constructor; [|by apply from_batch_weaken]. exists change. split; [by left|done].
  - pwp_do IH. intros removals s1 [Hs1 Hf]. split; [done|by apply from_batch_weaken].
Qed.

Lemma enforce_memory_ok W s : synced_on W s -> pwp (enforce_memory CSO estimate hash_order) (fun _ s' => synced_on W s') s.
Proof.
  intros [g Hl]. unfold enforce_memory. apply pwp_bind, pwp_on_projection.
  eapply safe_mono; [apply (EnforceMemoryLimit_ok CSO estimate _ g), Hl|]. intros [evicted p'] (g' & (Hp' & Hsh & _) & _).
  assert (synced_on W (with_projection s p')) as Hs' by (exists g'; by eapply linked_shrinks).
  apply bookkeeping_synced; [|done]. destruct evicted; eauto with books.
Qed.

Lemma finish_batch_ok W volume changes removals s :
  synced_on W s -> removals_ok removals ->
  pwp (finish_batch CSO estimate hash_order volume changes removals) (fun _ s' => synced_on W s') s.
Proof.
  intros Hs Hr. unfold finish_batch. pwp_do prune_ok. intros pruned s1 Hs1.
  pwp_do enforce_memory_ok. intros [] s2 Hs2. destruct (negb pruned); [by apply pwp_ret|].
  apply bookkeeping_synced; [|done]. destruct (bool_decide _); eauto with books.
Qed.

(** Committing a batch and bringing the index up to date, with bookkeeping in between. *)
Lemma apply_batch_ok W volume changes f (note : Pipe unit) (k : Pipe bool) (Q : bool -> IndexPipeline -> Prop) s :
  (forall p, f p = apply_each CSO p volume changes) -> synced_on W s -> Forall change_ok changes -> budget (projection_ s) (batch_chars volume changes) (zlen changes) ->
  bookkeeping note -> (forall s', synced_on W s' -> Q false s') -> (forall s', synced_on W s' -> pwp k Q s') ->
  pwp (let& committed := on_store (ApplyBatch CSO volume changes) in
       if negb committed then pipe_ret false
       else let& _ := note in let& _ := change_projection f in k) Q s.
Proof.
  intros Hf Hs Hok Hb Hnote Hno Hk. apply pwp_bind.
  eapply pwp_mono; [apply (commit_ok CSO W volume []); [by apply synced_ahead|done]|]. intros [] s1 (Ha & Ep & _); cbn [negb app] in *.
  - apply pwp_bind, pwp_bookkeeping; [done|]. intros b s2 Es2 Ep2. apply pwp_bind, pwp_change_projection.
    apply (ahead_ext _ _ _ s1 s2) in Ha; [|done..]. destruct Ha as (truth & g & Hl & E).
    assert (projection_ s2 = projection_ s) as Ep3 by congruence. rewrite Ep3, Hf.
    eapply safe_mono; [eapply (apply_each_ok CSO); [rewrite <-Ep3; apply Hl|exact Hb]|]. intros p' [Hp' Hpol]. apply Hk.
    eapply (catch_up CSO); [exact Hl|exact E|done|by rewrite Ep3].
  - apply pwp_ret, Hno. by apply (synced_ahead CSO W volume).
Qed.
(** The rules are evaluated, then the batch is finished. *)
Lemma gated_ok W volume changes (gate : Pipe (list EntryChange)) seen s :
  synced_on W s -> Forall change_ok changes ->
  (forall s', synced_on W s' -> pwp gate (fun removals s' => synced_on W s' /\ from_batch changes removals) s') ->
  pwp (let& hasRules := has_rules volume in
       let& ruleExcluded := if hasRules : bool then gate else let& _ := note_all volume seen in pipe_ret [] in
       finish_batch CSO estimate hash_order volume changes ruleExcluded) (fun _ s' => synced_on W s') s.
Proof.
  intros Hs Hok Hgate. apply pwp_bind, pwp_gets. apply pwp_bind.
  apply (pwp_mono _ (fun removals s' => synced_on W s' /\ from_batch changes removals)).
  - destruct (bool_decide _); [by apply Hgate|]. pwp_do note_all_ok. intros [] s1 Hs1. apply pwp_ret. split; [done|constructor].
  - intros removals s1 [Hs1 Hf]. apply finish_batch_ok; [done|]. by eapply from_batch_ok.
Qed.

Definition mft_changes (changes : list EntryChange) : Prop :=
  Forall (fun c => is_upsert c = true /\ change_fields c = kEntryFieldMaskAll) changes.

Lemma upsert_all_each p volume changes : mft_changes changes -> upsert_all CSO p volume changes = apply_each CSO p volume changes.
Proof.
  intros Hall. revert p. induction Hall as [|change changes [Hu Hf] _ IH]; intros p; cbn [upsert_all apply_each]; [done|].
  rewrite Hu, Hf. change (UpsertPartial CSO p volume (change_record change) kEntryFieldMaskAll) with (Upsert CSO p volume (change_record change)).
  destruct (Upsert CSO p volume (change_record change)); cbn [bind]; done.
Qed.

Lemma ApplyMftBatchChanges_ok W volume changes s :
  synced_on W s -> Forall change_ok changes -> mft_changes changes ->
  budget (projection_ s) (batch_chars volume changes) (zlen changes) ->
  pwp (ApplyMftBatchChanges CSO towlower estimate hash_order volume changes) (fun _ s' => synced_on W s') s.
Proof.
  intros Hs Hok Hm Hb. unfold ApplyMftBatchChanges. apply apply_batch_ok with (W := W); try done.
  - intros p. by apply upsert_all_each.
  - apply note_bulk_bookkeeping.
  - intros s' Hs'. apply pwp_bind, pwp_bookkeeping; [apply report_bookkeeping|]. intros [] s2 Es Ep.
    apply gated_ok; [by eapply synced_ext|done|]. intros s3 Hs3. by apply gate_mft_ok.
Qed.

Lemma ApplyUsnBatchChanges_ok W volume changes s :
  synced_on W s -> Forall change_ok changes -> budget (projection_ s) (batch_chars volume changes) (zlen changes) ->
  pwp (ApplyUsnBatchChanges CSO towlower estimate hash_order volume changes) (fun _ s' => synced_on W s') s.
Proof.
  intros Hs Hok Hb. unfold ApplyUsnBatchChanges. apply apply_batch_ok with (W := W); try done.
  - apply note_bulk_bookkeeping.
  - intros s' Hs'. apply gated_ok; [done..|]. intros s3 Hs3. by apply gate_usn_ok.
Qed.

(** ** Volumes *)

(** A statement that leaves the records alone. *)
Lemma same_records_ok {A} W (m : Sql Tables A) s :
  synced_on W s ->
  (forall t, store_ok CSO t -> wp m (fun _ t' => store_ok CSO t' /\ Durable t' = Durable t) t) ->
  pwp (on_store m) (fun _ s' => synced_on W s') s.
Proof.
  intros [g [H1 H2 H3 H4 H5]] Hm. apply pwp_on_store; [done|]. eapply wp_mono; [by apply Hm|].
  intros a t [Hst HD] c <- Hc. exists g. cbn [store_ with_store]. rewrite HD. by split.
Qed.

Lemma metadata_update_ok W volume f s :
  synced_on W s -> (forall v, volume_guid (f v) = volume_guid v /\ serial_number (f v) = serial_number v) ->
  pwp (metadata_update (update_volume volume f)) (fun _ s' => synced_on W s') s.
Proof.
  intros Hs Hf. unfold metadata_update. apply pwp_bind. eapply pwp_mono; [apply (same_records_ok W); [done|]|].
  - intros t Ht. eapply wp_mono; [by apply (update_volume_store_ok CSO)|]. by intros ok t' (? & ? & _).
  - intros ok s1 Hs1. apply bookkeeping_synced; [destruct ok; eauto with books|done].
Qed.

Lemma SetVolumeAvailable_synced W volume isAvailable now s :
  synced_on W s -> pwp (SetVolumeAvailable volume isAvailable now) (fun _ s' => synced_on W s') s.
Proof.
  intros Hs. unfold SetVolumeAvailable. apply pwp_bind. eapply pwp_mono; [apply (same_records_ok W); [done|]|].
  - intros t Ht. eapply wp_mono; [by apply (SetVolumeAvailable_ok CSO)|]. by intros [ok changed] t' (? & ? & _).
  - intros [ok changed] s1 Hs1. apply bookkeeping_synced; [destruct ok, changed; eauto with books|done].
Qed.

Lemma ResolveVolume_ok W key s : synced_on W s -> pwp (ResolveVolume key) (fun _ s' => synced_on W s') s.
Proof.
  intros Hs. unfold ResolveVolume. apply pwp_bind. eapply pwp_mono; [apply (same_records_ok W); [done|]|].
  - intros t Ht. eapply wp_mono; [by apply (GetOrCreateVolume_ok CSO)|]. by intros [id created] t' (? & ? & _).
  - intros [id created] s1 Hs1. apply bookkeeping_synced; [destruct id, created; eauto with books|done].
Qed.

Lemma SetVolumeRules_ok W volume setting s : synced_on W s -> pwp (SetVolumeRules volume setting) (fun _ s' => synced_on W s') s.
Proof.
  intros Hs. apply bookkeeping_synced; [|done]. apply bookkeeping_bind; [apply bookkeeping_gets|intros previous].
  destruct (match previous with Some _ => _ | None => _ end); [apply bookkeeping_ret|].
  apply bookkeeping_bind; [by apply bookkeeping_modify|intros _; apply advance_bookkeeping].
Qed.

Lemma ForgetVolume_synced W volume s : synced_on W s -> pwp (ForgetVolume CSO volume) (fun _ s' => synced_on W s') s.
Proof.
  intros [g [H1 H2 H3 H4 H5]]. unfold ForgetVolume. apply pwp_bind, pwp_on_store; [done|].
  eapply wp_mono; [by apply (ForgetVolume_store_ok CSO)|]. intros ok t [Hst HD] c <- Hc. destruct ok; cbn [negb].
  - apply pwp_bind, pwp_modify, pwp_bind, pwp_change_projection. cbn [projection_ with_seen with_store].
    destruct H4 as (names & st & Hok & ->). eapply safe_mono; [by apply RemoveVolume_ok|]. intros p' [(_ & _ & _ & Hpol) Hp'].
    eapply (bookkeeping_synced CSO W); [eauto with books|]. exists (filter (fun kv => volumeRowId kv.1 <> volume) (snd <$> st)).
    cbn [store_ with_projection with_seen with_store]. rewrite HD. split; cbn; rewrite ?Hpol; try done.
    + eexists names, _. split; [exact Hp'|]. symmetry. apply snd_filter_volume.
    + intros k HW Hk. unfold cold in Hk. rewrite Hpol in Hk. rewrite !map_lookup_filter. by rewrite (H5 k HW Hk).
  - apply pwp_ret. exists g. cbn [store_ with_store]. rewrite HD. split; cbn; rewrite ?HD; done.
Qed.

Lemma SetBulkScanActive_ok W active s : synced_on W s -> pwp (SetBulkScanActive CSO active) (fun _ s' => synced_on W s') s.
Proof.
  intros [g Hl]. pose proof Hl as [H1 H2 H3 (names & st & Hok & ->) H5]. unfold SetBulkScanActive. apply pwp_bind, pwp_change_projection.
  assert (safe (Projection.SetBulkScanActive CSO (projection_ s) active) (fun p' => refines p' (snd <$> st) /\
    maximumMemoryBytes_ (policy p') = maximumMemoryBytes_ (policy (projection_ s)) /\ cold p' = cold (projection_ s))) as H.
  { unfold Projection.SetBulkScanActive. destruct active; cbn [safe].
    - split; [|done]. exists names, st. split; [|done]. by apply (invalidate_proj_ok CSO _ names st) in Hok as [? ?].
    - destruct (rebuild_index_ok CSO (projection_ s) names st (ok_tables _ _ _ _ Hok)) as (p' & -> & [Hp1 Hp2] & Hrows & _ & Hpol & _).
      cbn [bind safe]. unfold cold. cbn. rewrite Hpol. split; [|done]. exists names, st. by split. }
  eapply safe_mono; [exact H|]. intros p' (Hp' & Hmax & Hcold). apply bookkeeping_synced; [apply metadata_bookkeeping|].
  exists (snd <$> st). eapply linked_projection; [exact Hl|done|done|]. intros k HW Hk. rewrite Hcold in Hk. by apply H5.
Qed.

(** ** Reconciliation *)

Lemma removal_marker_ok id : id_in_range id -> change_ok (removal_marker id).
Proof.
  intros Hid. unfold change_ok, removal_marker. cbn [change_record].
  split; cbn; unfold id_in_range, SIZE_MAX in *; cbn; (done || lia || constructor || idtac).
Qed.

Lemma stale_entries_ok W volume seen hasRules ids s :
  synced_on W s -> (forall id, id ∈ ids -> id_in_range id) ->
  pwp (stale_entries towlower volume seen hasRules ids) (fun removals s' => synced_on W s' /\ removals_ok removals) s.
Proof.
  revert s. induction ids as [|id ids IH]; intros s Hs Hids; cbn [stale_entries].
  { apply pwp_ret. split; [done|split; constructor]. }
  apply pwp_bind. apply (pwp_mono _ (fun _ s' => synced_on W s')).
  { destruct hasRules; [|by apply pwp_ret]. pwp_do (included_ok CSO towlower W). intros included s1 Hs1. by apply pwp_ret. }
  intros excluded s1 Hs1. apply pwp_bind. eapply pwp_mono; [apply IH; [done|set_solver]|].
  intros removals s2 [Hs2 [Hok Hrm]]. apply pwp_ret. split; [done|]. destruct (_ || _); [|by split].
  split; constructor; try done. apply removal_marker_ok, Hids. set_solver.
Qed.

Lemma ahead_store W volume changes s c m :
  tables c = tables (store_ s) -> opened c = opened (store_ s) -> ahead W volume changes s ->
  ahead W volume changes (with_maintenance (with_store s c) m).
Proof.
  intros Et Eo (truth & g & [H1 H2 H3 H4 H5] & E). exists truth, g. cbn [store_ with_store with_maintenance]. rewrite Et.
  split; [|done]. split; cbn; rewrite ?Et, ?Eo; done.
Qed.

Lemma remove_chunks_ok W volume fuel gone removals s :
  ahead W volume gone s -> Forall (fun c => change_kind c = ChangeRemove) gone -> removals_ok removals ->
  (length removals <= fuel)%nat ->
  pwp (remove_chunks CSO wal_checkpoint pragma_page_size fuel volume removals (change_ids gone)) (fun r s' =>
    exists gone2, r.2 = change_ids gone2 /\ ahead W volume gone2 s' /\ Forall (fun c => change_kind c = ChangeRemove) gone2) s.
Proof.
  revert gone removals s. induction fuel as [|fuel IH]; intros gone removals s Ha Hd [Hok Hrm] Hlen;
    (destruct removals as [|r removals]; [apply pwp_ret; by exists gone|]); cbn [length] in Hlen; [lia|].
  cbn [remove_chunks]. set (chunk := take _ _). set (rest := drop _ _).
  assert (Forall change_ok chunk /\ Forall (fun c => change_kind c = ChangeRemove) chunk) as [Hc1 Hc2] by (split; by apply Forall_take).
  assert (removals_ok rest) as Hrest by (split; by apply Forall_drop).
  apply pwp_bind. eapply pwp_mono; [by apply (commit_ok CSO W volume gone)|]. intros [] s1 (Ha1 & _ & _); cbn [negb].
  - apply pwp_bind, pwp_quiet; [intros m; apply CheckpointIfWalExceeds_quiet|]. intros _ c m Et Eo.
    assert (change_ids gone ++ change_ids chunk = change_ids (gone ++ chunk)) as -> by (unfold change_ids; by rewrite fmap_app).
    apply IH; [by apply ahead_store|by apply Forall_app|done|].
    unfold rest. rewrite length_drop. unfold kReconciliationRemovalChunkRows. cbn [length]. lia.
  - apply pwp_ret. by exists gone.
Qed.

Lemma FinishReconciliationPass_ok W volume s :
  synced_on W s ->
  pwp (FinishReconciliationPass CSO towlower wal_checkpoint pragma_page_size volume) (fun _ s' => synced_on W s') s.
Proof.
  intros Hs. unfold FinishReconciliationPass. apply pwp_bind, pwp_gets. destruct (reconciliationSeen_ s !! volume) as [seen|]; [|by apply pwp_ret].
  apply pwp_bind, pwp_gets, pwp_bind. pose proof Hs as [g [H1 H2 H3 H4 H5]]. apply pwp_on_store; [done|].
  eapply wp_mono; [apply ListEntryIds_ok, H2|]. intros [ids finished] t (-> & Hids & _) c Et Ec.
  assert (synced_on W (with_store s c)) as Hs1 by (apply synced_store; congruence).
  destruct finished; cbn [negb]; [|by apply bookkeeping_synced; [apply metadata_bookkeeping|]].
  apply pwp_bind. eapply pwp_mono; [by apply stale_entries_ok; [|apply Hids]|]. intros removals s2 [Hs2 Hr].
  apply pwp_bind. eapply pwp_mono; [apply (remove_chunks_ok W volume _ []); [by apply synced_ahead|constructor|done|done]|].
  intros [applied committed] s3 (gone & Ec3 & Ha3 & Hd3). cbn [snd] in Ec3. subst committed.
  apply pwp_bind. apply (pwp_mono _ (fun _ s' => synced_on W s')).
  - destruct (bool_decide_reflect (change_ids gone = [])) as [E|]; [|by apply drop_removed_ok].
    apply fmap_nil_inv in E. subst gone. apply pwp_ret. by apply (synced_ahead CSO W volume).
  - intros [] s4 Hs4. apply pwp_bind. apply (pwp_mono _ (fun _ s' => synced_on W s')).
    + destruct applied; [apply pwp_modify; by eapply synced_ext, Hs4|by apply pwp_ret].
    + intros [] s5 Hs5. apply bookkeeping_synced; [destruct (bool_decide _); eauto with books|done].
Qed.

Lemma BeginReconciliationPass_ok W volume s : synced_on W s -> pwp (BeginReconciliationPass volume) (fun _ s' => synced_on W s') s.
Proof.
  intros Hs. apply bookkeeping_synced; [|done]. apply bookkeeping_bind; [by apply bookkeeping_modify|intros _; apply metadata_bookkeeping].
Qed.

Lemma AbortReconciliationPass_ok W volume s : synced_on W s -> pwp (AbortReconciliationPass volume) (fun _ s' => synced_on W s') s.
Proof.
  intros Hs. apply bookkeeping_synced; [|done]. apply bookkeeping_bind; [apply bookkeeping_gets|intros []; [|apply bookkeeping_ret]].
  apply bookkeeping_bind; [by apply bookkeeping_modify|intros _; apply metadata_bookkeeping].
Qed.

(** ** Residency *)

Lemma CountEntries_ok volume t : wp (CountEntries volume) (fun n t' => t' = t /\ 0 <= n) t.
Proof. unfold CountEntries. repeat wp_step; split; try done; cbn; apply zlen_nonneg. Qed.

Lemma count_volumes_ok metas t : wp (count_volumes metas) (fun metas t' => t' = t /\ Forall (fun m => 0 <= meta_entryCount m) metas) t.
Proof.
  induction metas as [|meta metas IH]; cbn [count_volumes]; [apply wp_ret; split; [done|constructor]|].
  apply wp_bind. eapply wp_mono; [apply CountEntries_ok|]. intros n t1 [-> Hn].
  apply wp_bind. eapply wp_mono; [apply IH|]. intros rest t2 [-> Hrest]. apply wp_ret. split; [done|by constructor].
Qed.

Lemma GetAllVolumesImpl_ok counts t :
  wp (GetAllVolumesImpl counts) (fun metas t' => t' = t /\ Forall (fun m => 0 <= meta_entryCount m) metas) t.
Proof.
  unfold GetAllVolumesImpl. wp_step. wp_step. wp_step; cbn [negb]; [|apply wp_ret; split; [done|constructor]].
  assert (forall metas, metas ⊆+ ordered_volumes t -> wp (if counts then count_volumes metas else sql_ret metas)
    (fun metas t' => t' = t /\ Forall (fun m => 0 <= meta_entryCount m) metas) t) as H.
  { intros metas Hsub. destruct counts; [apply count_volumes_ok|]. apply wp_ret. split; [done|]. apply Forall_forall. intros m Hm.
    eapply elem_of_submseteq in Hm; [|exact Hsub]. apply list_elem_of_fmap in Hm as (kv & -> & _). done. }
  apply wp_bind, wp_query_ordered; [by apply H|]. intros n. apply H, submseteq_take.
Qed.

Lemma evict_volume_ok p g volume :
  refines p g -> safe (EvictVolume p volume) (fun p' => exists g', refines p' g' /\ shrinks p g p' g').
Proof.
  intros Hp. destruct (filter (fun k => volumeRowId k = volume) (live_ids (rows p)).*1) as [|k keys] eqn:E.
  - unfold EvictVolume. rewrite E. exists g. split; [done|apply shrinks_refl].
  - assert (k ∈ filter (fun k => volumeRowId k = volume) (live_ids (rows p)).*1) as [<- Hin]%list_elem_of_filter by (rewrite E; by left).
    apply list_elem_of_fmap in Hin as ([k' i] & -> & Hin). eapply safe_mono; [apply (EvictVolume_ok CSO p g k' Hp)|].
    + destruct Hp as (names & st & Hok & ->). apply (live_ids_spec _ _ _ (ok_rows _ _ _ (ok_tables _ _ _ _ Hok))) in Hin as [x Hx].
      exists x. cbn. by rewrite lookup_fmap, Hx.
    + intros p' [Hp' Hsh]. eauto.
Qed.

Lemma UnloadVolumeFromProjection_ok W volume s :
  synced_on W s -> pwp (UnloadVolumeFromProjection volume) (fun _ s' => synced_on W s') s.
Proof.
  intros [g Hl]. unfold UnloadVolumeFromProjection. apply pwp_bind, pwp_gets, pwp_bind, pwp_change_projection.
  eapply safe_mono; [eapply evict_volume_ok, Hl|]. intros p' (g' & Hp' & Hsh).
  assert (synced_on W (with_projection s p')) as Hs' by (exists g'; by eapply linked_shrinks).
  apply pwp_bind, pwp_gets. apply bookkeeping_synced; [destruct (_ && _); eauto with books|done].
Qed.

Lemma advance_changed_bookkeeping before metas changed : bookkeeping (advance_changed before metas changed).
Proof.
  revert changed. induction metas as [|meta metas IH]; intros changed; cbn [advance_changed]; [apply bookkeeping_ret|].
  apply bookkeeping_bind; [apply bookkeeping_gets|intros after]. destruct (bool_decide _); [apply IH|].
  apply bookkeeping_bind; [apply advance_bookkeeping|intros _; apply IH].
Qed.

(** A read of the store. *)
Lemma read_ok {A} W (m : Sql Tables A) (P : A -> Prop) s :
  synced_on W s -> (forall t, wp m (fun a t' => t' = t /\ P a) t) ->
  pwp (on_store m) (fun a s' => synced_on W s' /\ P a /\ tables (store_ s') = tables (store_ s) /\ projection_ s' = projection_ s) s.
Proof.
  intros Hs Hm. pose proof Hs as [g Hl]. apply pwp_on_store; [apply Hl|]. eapply wp_mono; [apply Hm|].
  intros a t [-> HP] c Et Ec. split; [apply synced_store; [done| |done]; by rewrite Ec, (li_open _ _ _ _ _ Hl)|]. by rewrite <-Et.
Qed.

Lemma list_volumes_ok W counts s :
  synced_on W s ->
  pwp (on_store (GetAllVolumesImpl counts)) (fun metas s' => synced_on W s' /\ Forall (fun m => 0 <= meta_entryCount m) metas /\
    tables (store_ s') = tables (store_ s) /\ projection_ s' = projection_ s) s.
Proof. intros Hs. apply (read_ok W _ (Forall (fun m => 0 <= meta_entryCount m))); [done|]. apply GetAllVolumesImpl_ok. Qed.

Lemma SetProjectionMemoryBudget_ok W maximumBytes s :
  synced_on W s -> 0 <= maximumBytes <= UINT64_MAX ->
  pwp (SetProjectionMemoryBudget CSO estimate maximumBytes) (fun _ s' => synced_on W s') s.
Proof.
  intros Hs Hmax. unfold SetProjectionMemoryBudget.
  pwp_do list_volumes_ok. intros metas s1 ([g Hl] & _).
  apply pwp_bind, pwp_gets, pwp_bind, pwp_change_projection.
  eapply safe_mono; [apply (SetMaximumMemoryBytes_ok CSO estimate _ g), Hl|]. set (maximum := if maximumBytes =? 0 then _ else _).
  intros p' (g' & Hp' & Hsh & _).
  assert (synced_on W (with_projection s1 p')) as Hs2.
  { pose proof Hl as [H1 H2 H3 H4 H5]. exists g'. split; cbn; try done.
    - rewrite (sh_limit _ _ _ _ Hsh). cbn. unfold maximum, kDefaultMaximumMemoryBytes, UINT64_MAX in *. destruct (maximumBytes =? 0); lia.
    - by eapply hot_outside_shrinks. }
  pwp_do list_volumes_ok. intros metas2 s3 (Hs3 & _).
  apply bookkeeping_synced; [|done]. apply bookkeeping_bind; [apply advance_changed_bookkeeping|]. intros []; eauto with books.
Qed.

(** ** Maintenance *)

Lemma FlushPendingPlannerStats_ok W s : synced_on W s -> pwp FlushPendingPlannerStatsLocked (fun _ s' => synced_on W s') s.
Proof.
  intros Hs. unfold FlushPendingPlannerStatsLocked. apply pwp_bind, pwp_gets. destruct (_ <? _); [by apply pwp_ret|].
  apply pwp_bind. eapply pwp_mono; [apply (read_ok W _ (fun _ => True) s Hs)|].
  { intros t. unfold Analyze. wp_step. by wp_step. }
  intros analyzed s1 (Hs1 & _). apply bookkeeping_synced; [|done]. destruct analyzed; [|apply bookkeeping_ret].
  apply bookkeeping_bind; [by apply bookkeeping_modify|intros _; apply metadata_bookkeeping].
Qed.

Lemma quiet_ok {A} W (f : Maintenance -> Sql Tables (A * Maintenance)) s :
  synced_on W s -> (forall m, quiet (f m)) -> pwp (on_maintenance f) (fun _ s' => synced_on W s') s.
Proof.
  intros Hs Hf. apply pwp_quiet; [done|]. intros a c m Et Eo. apply (synced_ext CSO W (with_store s c)); [done..|].
  by apply synced_store.
Qed.

Lemma VacuumIfDue_quiet m pathEmpty userIdle now hours percent :
  quiet (VacuumIfDue (T := Tables) file_size m pathEmpty userIdle now hours percent).
Proof. unfold VacuumIfDue. solve_quiet. Qed.

Lemma RunStoreMaintenance_ok W pathEmpty userIdle now hours percent s :
  synced_on W s ->
  pwp (RunStoreMaintenance wal_checkpoint pragma_page_size file_size pathEmpty userIdle now hours percent) (fun _ s' => synced_on W s') s.
Proof.
  intros Hs. unfold RunStoreMaintenance. apply pwp_bind, pwp_gets. destruct (negb _); [by apply pwp_ret|].
  apply pwp_bind. eapply pwp_mono; [apply (quiet_ok W _ s Hs); intros; apply RunCheckpoint_quiet|cbv beta]. intros _ s1 Hs1.
  apply pwp_bind. eapply pwp_mono; [apply (quiet_ok W _ s1 Hs1); intros; apply CheckpointIfWalExceeds_quiet|cbv beta]. intros _ s2 Hs2.
  apply pwp_bind. eapply pwp_mono; [apply (FlushPendingPlannerStats_ok W s2 Hs2)|cbv beta]. intros _ s3 Hs3.
  apply pwp_bind. apply (pwp_mono _ (fun _ s' => synced_on W s')).
  - destruct userIdle; [|by apply pwp_ret]. apply pwp_bind.
    eapply pwp_mono; [apply (quiet_ok W _ s3 Hs3); intros; apply VacuumIfDue_quiet|cbv beta]. intros _ s4 Hs4. by apply pwp_ret.
  - intros [] s4 Hs4. by apply bookkeeping_synced; [apply metadata_bookkeeping|].
Qed.

(** ** Rebuilding *)

Lemma durable_storable t k r : store_ok CSO t -> Durable t !! k = Some r -> storable r.
Proof.
  intros Hok Hr. apply lookup_Durable in Hr as (key & row & Hrow & _ & <-); [|apply Hok].
  destruct (so_names _ _ Hok key row Hrow) as (name & Hname & Ename).
  split; cbn; unfold id_in_range, ReadFileId, to_unsigned64; cbn; try (split; apply wrap64_range); try apply wrap64_range.
  - rewrite Ename, Utf8_roundtrip; done.
  - destruct (allocated_size_bytes row); [apply wrap64_range|unfold SIZE_MAX; lia].
  - by destruct (allocated_size_bytes row).
  - apply Z.mod_pos_bound. lia.
Qed.

(** The index has room for the volume's durable records. *)
Definition room_for_volume (s : IndexPipeline) (volume : Z) : Prop :=
  forall records, NoDup (r_id <$> records) ->
    (forall r, r ∈ records -> Durable (tables (store_ s)) !! mkEntryKey volume (r_id r) = Some r) ->
    budget (projection_ s) (record_chars records) (zlen records).

(** What a statement over a volume's rows delivers. *)
Definition cursor_ok (truth : Records) (volume : Z) (c : Cursor) : Prop :=
  (completed c = true -> prepared c = true /\ forall k, volumeRowId k = volume ->
     truth !! k = stream_records volume ∅ (delivered c) !! k) /\
  NoDup (r_id <$> delivered c) /\ forall r, r ∈ delivered c -> truth !! mkEntryKey volume (r_id r) = Some r.

Lemma select_ok W volume s :
  synced_on W s ->
  pwp (on_store (SelectEntries volume)) (fun c s' => synced_on W s' /\ cursor_ok (Durable (tables (store_ s))) volume c /\
    tables (store_ s') = tables (store_ s) /\ projection_ s' = projection_ s) s.
Proof.
  intros Hs. pose proof Hs as [g Hl]. apply pwp_on_store; [apply Hl|]. eapply wp_mono; [apply SelectEntries_ok, (li_store _ _ _ _ _ Hl)|].
  intros c t (-> & Hc) c' Et Ec. split; [apply synced_store; [done| |done]; by rewrite Ec, (li_open _ _ _ _ _ Hl)|].
  split; [exact Hc|]. split; [exact Et|done].
Qed.

Lemma rebuild_projection_ok W volume s cursor expected :
  synced_on W s -> cursor_ok (Durable (tables (store_ s))) volume cursor -> 0 <= expected -> 16 <= sizeofEntry ->
  budget (projection_ s) (record_chars (delivered cursor)) (zlen (delivered cursor)) ->
  pwp (on_projection (fun p => RebuildVolumeFromStore CSO estimate sizeofEntry p cursor volume expected))
    (fun _ s' => synced_on (W ∖ {[volume]}) s' /\ store_ s' = store_ s) s.
Proof.
  intros [g [H1 H2 H3 H4 H5]] (Hdone & _ & _) Hexp Hsize Hb. apply pwp_on_projection.
  eapply safe_mono; [by apply (RebuildVolumeFromStore_ok CSO estimate sizeofEntry _ g)|].
  intros [b p'] (p1 & g1 & g' & Hg' & Hsh & Hcase). split; [|done]. exists g'. cbn [store_ with_projection].
  assert (hot_outside (W ∖ {[volume]}) (Durable (tables (store_ s))) p1 g1 /\
    maximumMemoryBytes_ (policy p1) = maximumMemoryBytes_ (policy (projection_ s))) as [Hhot Hmax].
  { destruct Hcase as [(Hcomp & _ & Hr)|(_ & Hr)]; (split; [|apply Hr]); intros k HW Hk; rewrite (rl_cold _ _ _ _ _ _ _ _ Hr) in Hk.
    - destruct (decide (volumeRowId k = volume)) as [Hv|Hv].
      + rewrite (rl_volume _ _ _ _ _ _ _ _ Hr k Hv). symmetry. by apply Hdone.
      + rewrite (rl_other _ _ _ _ _ _ _ _ Hr k Hv). apply H5; set_solver.
    - destruct (decide (volumeRowId k = volume)) as [Hv|Hv]; [set_solver|].
      rewrite (rl_other _ _ _ _ _ _ _ _ Hr k Hv). apply H5; set_solver. }
  split; cbn; try done; [by rewrite (sh_limit _ _ _ _ Hsh), Hmax|by eapply hot_outside_shrinks].
Qed.

Lemma rule_excluded_ok W volume records s :
  synced_on W s -> Forall storable records ->
  pwp (rule_excluded towlower volume records) (fun removals s' => synced_on W s' /\ removals_ok removals) s.
Proof.
  intros Hs Hall. revert s Hs. induction Hall as [|record records Hr _ IH]; intros s Hs; cbn [rule_excluded].
  { apply pwp_ret. split; [done|split; constructor]. }
  pwp_do (included_ok CSO towlower W). intros included s1 Hs1. pwp_do IH. intros removals s2 [Hs2 [Hok Hrm]]. apply pwp_ret.
  split; [done|]. destruct included; [by split|]. split; by constructor.
Qed.

Lemma rebuild_one_ok W meta s :
  synced_on W s -> 0 <= meta_entryCount meta -> 16 <= sizeofEntry -> room_for_volume s (meta_rowId meta) ->
  pwp (rebuild_one CSO towlower estimate sizeofEntry meta) (fun _ s' => synced_on (W ∖ {[meta_rowId meta]}) s') s.
Proof.
  intros Hs Hcount Hsize Hroom. unfold rebuild_one. set (volume := meta_rowId meta) in *.
  pwp_do select_ok. intros cursor s1 (Hs1 & Hc & Et & Ep). apply pwp_bind.
  eapply pwp_mono; [apply (rebuild_projection_ok W); [done|by rewrite Et|done|done|]|].
  { rewrite Ep. apply Hroom; apply Hc. }
  intros rebuilt s2 [Hs2 Es2]. apply pwp_bind, pwp_gets. destruct (_ && _); [|by apply pwp_ret].
  pwp_do select_ok. intros cursor2 s3 (Hs3 & Hc3 & Et3 & Ep3). apply pwp_bind.
  eapply pwp_mono; [apply rule_excluded_ok; [exact Hs3|]|].
  - apply Forall_forall. intros r Hr. apply Hc3 in Hr. destruct Hs2 as [g2 Hl2]. eapply durable_storable, Hr. apply Hl2.
  - intros removals s4 [Hs4 Hr4]. destruct (negb _); [by apply pwp_ret|]. by apply prune_ok.
Qed.

(** There is room for each volume when its turn comes. *)
Fixpoint room_for_rebuild (metas : list VolumeMetadata) (s : IndexPipeline) : Prop :=
  match metas with
  | [] => True
  | meta :: rest =>
      room_for_volume s (meta_rowId meta) /\
      forall b s', rebuild_one CSO towlower estimate sizeofEntry meta s = Ok (b, s') -> room_for_rebuild rest s'
  end.

Lemma rebuild_each_ok W metas s :
  synced_on W s -> Forall (fun m => 0 <= meta_entryCount m) metas -> 16 <= sizeofEntry -> room_for_rebuild metas s ->
  pwp (rebuild_each CSO towlower estimate sizeofEntry metas)
    (fun _ s' => synced_on (W ∖ list_to_set (meta_rowId <$> metas)) s') s.
Proof.
  intros Hs Hcounts Hsize. revert W s Hs. induction Hcounts as [|meta metas Hcount _ IH]; intros W s Hs Hroom; cbn [rebuild_each].
  { apply pwp_ret. cbn. by rewrite difference_empty_L. }
  destruct Hroom as [Hroom Hrest]. apply pwp_bind. pose proof (rebuild_one_ok W meta s Hs Hcount Hsize Hroom) as H. unfold pwp at 1 in H. unfold pwp at 1.
  destruct (rebuild_one _ _ _ _ meta s) as [[b s1]| |] eqn:E; cbn [safe] in *; [|done..].
  apply pwp_bind. eapply pwp_mono; [apply (IH _ s1 H), (Hrest b s1 eq_refl)|]. intros ids s2 Hs2. apply pwp_ret.
  rewrite fmap_cons, list_to_set_cons. by rewrite <-difference_difference_l_L.
Qed.

Lemma RebuildAll_ok W s metas c :
  synced_on W s -> 16 <= sizeofEntry -> GetAllVolumesImpl true (store_ s) = (metas, c) ->
  room_for_rebuild metas (with_store s c) ->
  pwp (RebuildAll CSO towlower estimate sizeofEntry) (fun _ s' => synced_on (W ∖ list_to_set (meta_rowId <$> metas)) s') s.
Proof.
  intros Hs Hsize Em Hroom. unfold RebuildAll. apply pwp_bind. pose proof (list_volumes_ok W true s Hs) as H. unfold pwp at 1 in H. unfold pwp at 1.
  unfold on_store in *. rewrite Em in *. cbn [safe] in *. destruct H as (Hs1 & Hcounts & _).
  apply pwp_bind. eapply pwp_mono; [by apply (rebuild_each_ok W)|]. intros ids s2 Hs2.
  apply bookkeeping_synced; [eauto using bookkeeping_bind with books|done].
Qed.
End operations.
