(* ===== verification/PipelineRuns.v ===== *)
(** * PipelineRuns: every sequence of pipeline operations

    The operations of [Pipeline] as a step relation: a state is reachable when a sequence of
    operations of [IndexPipeline], in any order and with any call of SQLite failing, leads to
    it.  The properties of the invariant of [PipelineSync] are proved over it: the index never
    drifts from the durable store, and a restart recovers it. *)

From stdpp Require Import gmap relations.
From S2P Require Import Prelude Records TextMatch FlatHashMap ChildrenMap FilenameIndex Projection ProjectionRead Residency Rebuild Rules Utf8 Sql Store Maintenance Pipeline PipelineSync.

(** ** Records of the wire are storable *)

(** The fields of a record, each in its width. *)
Ltac wire_fields H :=
  unfold struct_ok in H; cbn [widths to_fields] in H;
  repeat (apply Forall2_cons in H; destruct H as [? H]); unfold fits in *; cbn in *.

Ltac solve_storable :=
  intros [Hf [Hn _]]; unfold to_pair in *; cbn [fst snd] in *; wire_fields Hf;
  split; cbn; unfold id_in_range, SIZE_MAX; cbn; repeat (case_match || split); (done || lia).

Lemma Mft1_storable r : record_ok (to_pair r) -> storable (ToEntryRecord_Mft1 r).
Proof. solve_storable. Qed.

Lemma Mft2_storable r : record_ok (to_pair r) -> storable (ToEntryRecord_Mft2 r).
Proof. solve_storable. Qed.

Lemma Usn2_storable r : record_ok (to_pair r) -> storable (ToEntryRecord_Usn2 r).
Proof. solve_storable. Qed.

Lemma Usn3_storable r : record_ok (to_pair r) -> storable (ToEntryRecord_Usn3 r).
Proof. solve_storable. Qed.

Lemma Usn1_storable r : record_ok (to_pair r) -> storable (ToEntryRecord_Usn2 (UpgradeUsnDeltaV1 r)).
Proof. solve_storable. Qed.

Definition mft1_changes (records : list MftRecordV1) : list EntryChange := (fun r => mft_change (ToEntryRecord_Mft1 r)) <$> records.
Definition mft2_changes (records : list MftRecordV2) : list EntryChange := (fun r => mft_change (ToEntryRecord_Mft2 r)) <$> records.
Definition usn2_changes (records : list UsnDeltaV2) : list (option EntryChange) :=
  (fun r => usn_change (u2_reason (fixed r)) (u2_fieldMask (fixed r)) (ToEntryRecord_Usn2 r)) <$> records.
Definition usn3_changes (records : list UsnDeltaV3) : list (option EntryChange) :=
  (fun r => usn_change (u3_reason (fixed r)) (u3_fieldMask (fixed r)) (ToEntryRecord_Usn3 r)) <$> records.

Lemma usn_change_record reason mask record change : usn_change reason mask record = Some change -> change_record change = record.
Proof. unfold usn_change. intros. repeat case_match; simplify_eq; done. Qed.

(** The records a batch carries are storable. *)
Lemma mapM_usn_ok {A} (reason mask : A -> Z) (convert : A -> EntryRecord) (rs : list A) changes :
  Forall (fun r => storable (convert r)) rs ->
  mapM id ((fun r => usn_change (reason r) (mask r) (convert r)) <$> rs) = Some changes -> Forall change_ok changes.
Proof.
  intros Hall. revert changes. induction Hall as [|r rs Hr _ IH]; intros changes; rewrite ?fmap_nil, ?fmap_cons; cbn [mapM].
  - intros [= <-]. constructor.
  - unfold id at 1. destruct (usn_change _ _ _) as [change|] eqn:E; [|done]. cbn [mbind option_bind].
    destruct (mapM id _) as [rest|]; [|done]. cbn. intros [= <-]. constructor; [|by apply IH].
    unfold change_ok. by rewrite (usn_change_record _ _ _ _ E).
Qed.

Lemma mft_ok {A} (convert : A -> EntryRecord) (rs : list A) :
  Forall (fun r => storable (convert r)) rs ->
  Forall change_ok ((fun r => mft_change (convert r)) <$> rs) /\ mft_changes ((fun r => mft_change (convert r)) <$> rs).
Proof. intros Hall. split; apply Forall_fmap; eapply Forall_impl; [exact Hall|done|exact Hall|done]. Qed.

(** ** Operations *)

Inductive pipeline_op :=
| DoMft1 (volume : Z) (records : list MftRecordV1)
| DoMft2 (volume : Z) (records : list MftRecordV2)
| DoUsn1 (volume : Z) (records : list UsnDeltaV1)
| DoUsn2 (volume : Z) (records : list UsnDeltaV2)
| DoUsn3 (volume : Z) (records : list UsnDeltaV3)
| DoBulk (active : bool)
| DoResolve (key : VolumeKey)
| DoRules (volume : Z) (setting : VolumeSetting)
| DoAvailable (volume : Z) (isAvailable : bool) (now : Z)
| DoCursor (volume : Z) (cursor : list Z)
| DoComplete (volume : Z)
| DoJournal (volume journalId resumeUsn : Z)
| DoReconciled (volume now : Z)
| DoForget (volume : Z)
| DoBegin (volume : Z)
| DoAbort (volume : Z)
| DoFinish (volume : Z)
| DoBudget (maximumBytes : Z)
| DoUnload (volume : Z)
| DoRebuild
| DoMaintenance (pathEmpty userIdle : bool) (now vacuumIntervalHours vacuumSizeGrowthPercent : Z).

(** The environment of the pipeline: SQLite, Windows and the C++ library. *)
Record Env := {
  env_db : Sqlite;
  env_CompareStringOrdinal : list Z -> list Z -> Z;
  env_towlower : Z -> Z;
  env_estimate : Rows -> FilenameIndex -> AccessTimes -> Z;
  env_sizeofEntry : Z;
  env_wal_checkpoint : nat -> Z * Z * Z;
  env_page_size : nat -> option Z;
  env_file_size : nat -> Z;
  env_hash_order : list Z -> list Z;
  env_sizeofEntry_ok : 16 <= env_sizeofEntry
}.

Section runs.
Context (E : Env).
Local Abbreviation CSO := (env_CompareStringOrdinal E).
Local Abbreviation lower := (env_towlower E).
Local Abbreviation estimate := (env_estimate E).
Local Abbreviation order := (env_hash_order E).
Local Abbreviation wal := (env_wal_checkpoint E).
Local Abbreviation pages := (env_page_size E).
#[local] Instance env_sqlite : Sqlite := env_db E.

Definition yes (m : Pipe unit) : Pipe bool := let& _ := m in pipe_ret true.

Definition run_op (o : pipeline_op) : Pipe bool :=
  match o with
  | DoMft1 volume records => ApplyMftBatchV1 CSO lower estimate order volume records
  | DoMft2 volume records => ApplyMftBatchV2 CSO lower estimate order volume records
  | DoUsn1 volume records => ApplyUsnBatchV1 CSO lower estimate order volume records
  | DoUsn2 volume records => ApplyUsnBatchV2 CSO lower estimate order volume records
  | DoUsn3 volume records => ApplyUsnBatchV3 CSO lower estimate order volume records
  | DoBulk active => yes (SetBulkScanActive CSO active)
  | DoResolve key => let& id := ResolveVolume key in pipe_ret (negb (id =? 0))
  | DoRules volume setting => yes (SetVolumeRules volume setting)
  | DoAvailable volume isAvailable now => SetVolumeAvailable volume isAvailable now
  | DoCursor volume cursor => SetScanCursor volume cursor
  | DoComplete volume => MarkScanComplete volume
  | DoJournal volume journalId resumeUsn => SetJournalPosition volume journalId resumeUsn
  | DoReconciled volume now => SetLastReconciliationTime volume now
  | DoForget volume => ForgetVolume CSO volume
  | DoBegin volume => yes (BeginReconciliationPass volume)
  | DoAbort volume => yes (AbortReconciliationPass volume)
  | DoFinish volume => yes (FinishReconciliationPass CSO lower wal pages volume)
  | DoBudget maximumBytes => yes (SetProjectionMemoryBudget CSO estimate maximumBytes)
  | DoUnload volume => yes (UnloadVolumeFromProjection volume)
  | DoRebuild => let& _ := RebuildAll CSO lower estimate (env_sizeofEntry E) in pipe_ret true
  | DoMaintenance pathEmpty userIdle now hours percent =>
      yes (RunStoreMaintenance wal pages (env_file_size E) pathEmpty userIdle now hours percent)
  end.

(** There is room for the changes in the index's 32-bit tables. *)
Definition room (s : IndexPipeline) (volume : Z) (changes : list EntryChange) : Prop :=
  budget (projection_ s) (batch_chars volume changes) (zlen changes).

Definition usn_room (s : IndexPipeline) (volume : Z) (changes : list (option EntryChange)) : Prop :=
  match mapM id changes with Some changes => room s volume changes | None => True end.

Definition rebuild_room (s : IndexPipeline) : Prop :=
  let '(metas, c) := GetAllVolumesImpl true (store_ s) in
  room_for_rebuild CSO lower estimate (env_sizeofEntry E) metas (with_store s c).

(** The records are ones the wire can carry, the budget is 64 bits wide, and the 32-bit tables
    of the index have room. *)
Definition op_fits (s : IndexPipeline) (o : pipeline_op) : Prop :=
  match o with
  | DoMft1 volume records => Forall (fun r => record_ok (to_pair r)) records /\ room s volume (mft1_changes records)
  | DoMft2 volume records => Forall (fun r => record_ok (to_pair r)) records /\ room s volume (mft2_changes records)
  | DoUsn1 volume records =>
      Forall (fun r => record_ok (to_pair r)) records /\ usn_room s volume (usn2_changes (UpgradeUsnDeltaV1 <$> records))
  | DoUsn2 volume records => Forall (fun r => record_ok (to_pair r)) records /\ usn_room s volume (usn2_changes records)
  | DoUsn3 volume records => Forall (fun r => record_ok (to_pair r)) records /\ usn_room s volume (usn3_changes records)
  | DoBudget maximumBytes => 0 <= maximumBytes <= UINT64_MAX
  | DoRebuild => rebuild_room s
  | _ => True
  end.

(** One operation, and the states a sequence of them can lead to. *)
Inductive pipeline_step (s s' : IndexPipeline) : Prop :=
| step_op (o : pipeline_op) (result : bool) : op_fits s o -> run_op o s = Ok (result, s') -> pipeline_step s s'.

Definition reachable : IndexPipeline -> IndexPipeline -> Prop := rtc pipeline_step.

(** ** Every operation keeps the index in step *)

Lemma synced_weaken W W' s : W ⊆ W' -> synced_on CSO W s -> synced_on CSO W' s.
Proof. intros Hsub [g [H1 H2 H3 H4 H5]]. exists g. split; try done. intros k HW Hk. apply H5; [set_solver|done]. Qed.

Lemma yes_ok W (m : Pipe unit) s :
  pwp m (fun _ s' => synced_on CSO W s') s -> pwp (yes m) (fun _ s' => synced_on CSO W s') s.
Proof. intros H. apply pwp_bind. eapply pwp_mono; [exact H|]. intros [] s' Hs. by apply pwp_ret. Qed.

Lemma apply_usn_ok {A} W volume (reason mask : A -> Z) convert (rs : list A) s :
  synced_on CSO W s -> Forall (fun r => storable (convert r)) rs ->
  usn_room s volume ((fun r => usn_change (reason r) (mask r) (convert r)) <$> rs) ->
  pwp (apply_usn CSO lower estimate order volume ((fun r => usn_change (reason r) (mask r) (convert r)) <$> rs))
    (fun _ s' => synced_on CSO W s') s.
Proof.
  intros Hs Hall Hroom. unfold apply_usn, usn_room in *.
  destruct (mapM id _) as [changes|] eqn:Em; [|by apply pwp_ret].
  apply ApplyUsnBatchChanges_ok; [done|by eapply mapM_usn_ok|done].
Qed.

Lemma run_op_ok W o s : synced_on CSO W s -> op_fits s o -> pwp (run_op o) (fun _ s' => synced_on CSO W s') s.
Proof.
  intros Hs Ho. destruct o; cbn [run_op op_fits] in *; try apply yes_ok.
  - destruct Ho as [Hok Hroom]. eapply Forall_impl in Hok; [|exact Mft1_storable]. apply mft_ok in Hok as [? ?].
    by apply ApplyMftBatchChanges_ok.
  - destruct Ho as [Hok Hroom]. eapply Forall_impl in Hok; [|exact Mft2_storable]. apply mft_ok in Hok as [? ?].
    by apply ApplyMftBatchChanges_ok.
  - destruct Ho as [Hok Hroom]. apply apply_usn_ok; [done| |done]. apply Forall_fmap. eapply Forall_impl; [exact Hok|exact Usn1_storable].
  - destruct Ho as [Hok Hroom]. apply apply_usn_ok; [done| |done]. eapply Forall_impl; [exact Hok|exact Usn2_storable].
  - destruct Ho as [Hok Hroom]. apply apply_usn_ok; [done| |done]. eapply Forall_impl; [exact Hok|exact Usn3_storable].
  - by apply SetBulkScanActive_ok.
  - apply pwp_bind. eapply pwp_mono; [by apply ResolveVolume_ok|]. intros id s' Hs'. by apply pwp_ret.
  - by apply SetVolumeRules_ok.
  - by apply SetVolumeAvailable_synced.
  - by apply metadata_update_ok.
  - by apply metadata_update_ok.
  - by apply metadata_update_ok.
  - by apply metadata_update_ok.
  - by apply ForgetVolume_synced.
  - by apply BeginReconciliationPass_ok.
  - by apply AbortReconciliationPass_ok.
  - by apply FinishReconciliationPass_ok.
  - by apply SetProjectionMemoryBudget_ok.
  - by apply UnloadVolumeFromProjection_ok.
  - unfold rebuild_room in Ho. destruct (GetAllVolumesImpl true (store_ s)) as [metas c] eqn:Em. apply pwp_bind.
    eapply pwp_mono; [apply (RebuildAll_ok _ _ _ _ W s metas c); [done|apply env_sizeofEntry_ok|done|done]|].
    intros ids s' Hs'. apply pwp_ret. eapply synced_weaken; [|exact Hs']. set_solver.
  - by apply RunStoreMaintenance_ok.
Qed.

Lemma reachable_synced W s s' : synced_on CSO W s -> reachable s s' -> synced_on CSO W s'.
Proof.
  intros Hs Hr. induction Hr as [s|s s1 s' [o result Ho Eo] _ IH]; [done|]. apply IH.
  pose proof (run_op_ok W o s Hs Ho) as H. unfold pwp in H. by rewrite Eo in H.
Qed.

Lemma reachable_store_ok W s s' : synced_on CSO W s -> reachable s s' -> store_ok CSO (tables (store_ s')).
Proof. intros Hs Hr. by apply (reachable_synced W) in Hr as [g [? Hok ? ? ?]]. Qed.

Lemma synced_no_fault W o s : synced_on CSO W s -> op_fits s o -> run_op o s <> Fault.
Proof. intros Hs Ho Ef. pose proof (run_op_ok W o s Hs Ho) as H. unfold pwp in H. by rewrite Ef in H. Qed.
End runs.

(** ** Starting *)

(** A pipeline opened over a store has nothing in its index: the store's volumes are behind. *)
Lemma new_pipeline_synced CSO c W :
  opened c = true -> store_ok CSO (tables c) -> dom (volumes (tables c)) ⊆ W -> synced_on CSO W (new_pipeline c).
Proof.
  intros Ho Hok HW. exists ∅. split; cbn; try done.
  - apply new_projection_refines.
  - intros k Hk _. rewrite lookup_empty. symmetry. apply eq_None_not_Some. intros [r Hr].
    apply lookup_Durable in Hr as (key & row & Hrow & <- & _); [|apply Hok]. apply Hk, HW, elem_of_dom.
    exact (so_foreign _ _ Hok key row Hrow).
Qed.

(** Rows of a volume, each at most once, are among its durable records. *)
Lemma durable_rows_bound (D : Records) volume (records : list EntryRecord) :
  NoDup (r_id <$> records) -> (forall r, r ∈ records -> D !! mkEntryKey volume (r_id r) = Some r) ->
  records ⊆+ (map_to_list D).*2.
Proof.
  intros Hnd Hin. assert (((fun r => (mkEntryKey volume (r_id r), r)) <$> records) ⊆+ map_to_list D) as H.
  { apply NoDup_submseteq.
    - apply (NoDup_fmap_1 (fun kr : EntryKey * EntryRecord => frn kr.1)). by rewrite <-list_fmap_compose.
    - intros kr (r & -> & Hr)%list_elem_of_fmap. by apply elem_of_map_to_list, Hin. }
  apply (fmap_submseteq snd) in H. rewrite <-list_fmap_compose in H.
  by replace (fmap (snd ∘ _) records) with records in H by (symmetry; apply list_fmap_id).
Qed.

Lemma record_chars_submseteq l l' : l ⊆+ l' -> record_chars l <= record_chars l'.
Proof.
  induction 1 as [|x l l' _ IH|x y l|x l l' _ IH|l l2 l3 _ IH1 _ IH2]; cbn [record_chars]; try lia.
  pose proof (zlen_nonneg (r_name x)). lia.
Qed.

(** There is room for a volume when there is room for everything durable. *)
Lemma durable_room s volume :
  budget (projection_ s) (record_chars (map_to_list (Durable (tables (store_ s)))).*2) (zlen (map_to_list (Durable (tables (store_ s)))).*2) ->
  room_for_volume s volume.
Proof.
  intros (Ha & Ht & He) records Hnd Hin. pose proof (durable_rows_bound _ _ _ Hnd Hin) as Hsub.
  pose proof (record_chars_submseteq _ _ Hsub). apply submseteq_length in Hsub. unfold budget, zlen in *. lia.
Qed.

(** C2. The in-memory index never drifts from the durable store.  Over an empty database, after
    any sequence of scan and journal batches, volume and rule changes, reconciliation passes,
    memory-budget changes, unloads, rebuilds and maintenance, whichever calls of SQLite fail:
    the store's invariant holds, and the index has, of every volume that is not marked cold,
    exactly the durable records.  No further operation that fits reads or writes out of
    bounds, dereferences null or fails to terminate. *)
Theorem pipeline_never_drifts (E : Env) c s :
  opened c = true -> tables c = empty_tables -> reachable E (new_pipeline c) s ->
  synced (env_CompareStringOrdinal E) s /\ forall o, op_fits E s o -> run_op E o s <> Fault.
Proof.
  intros Ho Ht Hr. apply (reachable_synced E ∅) in Hr.
  - split; [done|]. intros o. by apply (synced_no_fault E ∅).
  - apply new_pipeline_synced; [done|rewrite Ht; apply empty_tables_ok|]. rewrite Ht. cbn. set_solver.
Qed.

(** C5. A restart recovers the index.  Over any well-formed database, [RebuildAll] of a fresh pipeline does
    not fault, and whichever of its reads fail, afterwards and after any further operations every
    volume that the listing of the volumes returned is either marked cold, so that
    searches go to the store, or has in the index exactly its durable records.  When the listing
    returned every volume, this holds for the whole store; a listing that a failed read cuts short
    leaves the volumes after it out. *)
Theorem RebuildAll_recovers (E : Env) c metas c' :
  opened c = true -> store_ok (env_CompareStringOrdinal E) (tables c) ->
  GetAllVolumesImpl (DB := env_db E) true c = (metas, c') ->
  op_fits E (new_pipeline c) DoRebuild ->
  safe (run_op E DoRebuild (new_pipeline c)) (fun '(_, s) => forall s', reachable E s s' ->
    synced_on (env_CompareStringOrdinal E) (dom (volumes (tables c)) ∖ list_to_set (meta_rowId <$> metas)) s' /\
    (dom (volumes (tables c)) ⊆ list_to_set (meta_rowId <$> metas) -> synced (env_CompareStringOrdinal E) s')).
Proof.
  intros Ho Hok Em Hroom. cbn [op_fits] in Hroom. unfold rebuild_room, env_sqlite in Hroom. cbn [store_ new_pipeline] in Hroom. rewrite Em in Hroom.
  set (W := dom (volumes (tables c))). set (listed := list_to_set (meta_rowId <$> metas) : gset Z).
  assert (pwp (run_op E DoRebuild) (fun _ s => synced_on (env_CompareStringOrdinal E) (W ∖ listed) s) (new_pipeline c)) as H.
  { cbn [run_op]. apply pwp_bind.
    eapply pwp_mono; [apply (RebuildAll_ok _ _ _ _ W _ metas c'); [by apply new_pipeline_synced|apply env_sizeofEntry_ok|done|done]|].
    intros ids s Hs. by apply pwp_ret. }
  unfold pwp in H. eapply safe_mono; [exact H|]. intros [b s] Hs s' Hr.
  assert (synced_on (env_CompareStringOrdinal E) (W ∖ listed) s') as Hs' by by apply (reachable_synced E _ s).
  split; [exact Hs'|]. intros Hall. unfold synced. replace (∅ : gset Z) with (W ∖ listed) by set_solver. exact Hs'.
Qed.

(** ** Runs *)

Section sequences.
Context (E : Env).

Fixpoint run_ops (os : list pipeline_op) (s : IndexPipeline) : result IndexPipeline :=
  match os with
  | [] => Ok s
  | o :: os => let* '(_, s) := run_op E o s in run_ops os s
  end.

Fixpoint ops_fit (os : list pipeline_op) (s : IndexPipeline) : Prop :=
  match os with
  | [] => True
  | o :: os => op_fits E s o /\ match run_op E o s with Ok (_, s) => ops_fit os s | _ => True end
  end.

Lemma run_ops_reachable os s s' : ops_fit os s -> run_ops os s = Ok s' -> reachable E s s'.
Proof.
  revert s. induction os as [|o os IH]; intros s; cbn [ops_fit run_ops].
  - intros _ [= <-]. apply rtc_refl.
  - intros [Ho Hos]. destruct (run_op E o s) as [[b s1]| |] eqn:Eo; cbn [bind]; [|done..].
    intros Hr. eapply rtc_l; [by eapply step_op|]. by apply IH.
Qed.
End sequences.

#[export] Instance budget_dec p chars n : Decision (budget p chars n).
Proof. unfold budget. apply _. Defined.

(** Lower case for ASCII only. *)
Definition ascii_towlower (c : Z) : Z := if (65 <=? c) && (c <=? 90) then c + 32 else c.

Lemma sizeof_sample : 16 <= 128.
Proof. done. Qed.

(** An environment in which call [n] of SQLite fails. *)
Definition sample_env (n : option nat) : Env := {|
  env_db := failing_call n; env_CompareStringOrdinal := ascii_ordinal; env_towlower := ascii_towlower;
  env_estimate := sample_estimate; env_sizeofEntry := 128; env_wal_checkpoint := fun _ => (0, 0, 0);
  env_page_size := fun _ => Some 4096; env_file_size := fun _ => 0; env_hash_order := fun l => l; env_sizeofEntry_ok := sizeof_sample
|}.

Definition sample_key : VolumeKey := mkVolumeKey (replicate 16 7) 99.

Definition sample_root : MftRecordV1 := Records.mkRecord (mkMftRecordFixedV1 5 5 1 2 3 0 16 1) [46].
Definition sample_work : MftRecordV1 := Records.mkRecord (mkMftRecordFixedV1 20 5 1 2 3 0 16 4) [87; 111; 114; 107].
Definition sample_file : MftRecordV1 := Records.mkRecord (mkMftRecordFixedV1 30 20 1 2 3 4096 32 3) [97; 46; 99].

Lemma sample_scan_ok : Forall (fun r => record_ok (to_pair r)) [sample_root; sample_work; sample_file].
Proof.
  repeat (apply Forall_cons; split; [split; [solve_struct_ok|split; [solve_units|reflexivity]]|]). by apply Forall_nil.
Qed.

(** A scan, a journal record that deletes the file, and a reconciliation pass. *)
Definition sample_delete : UsnDeltaV3 := Records.mkRecord (mkUsnDeltaFixedV3 10 30 20 512 7 0 0 0 0 0 0 0 3) [97; 46; 99].

Definition sample_run : list pipeline_op := [
  DoResolve sample_key; DoBegin 1; DoMft1 1 [sample_root; sample_work; sample_file]; DoUsn3 1 [sample_usn3; sample_delete]; DoFinish 1 ].

Definition final (r : result IndexPipeline) : IndexPipeline :=
  match r with Ok s => s | _ => new_pipeline (mkConnection true empty_tables 0) end.

Definition sample_start : IndexPipeline := new_pipeline (mkConnection true empty_tables 0).
Definition sample_end (n : option nat) : IndexPipeline := final (run_ops (sample_env n) sample_run sample_start).

(** The state after the first [i] operations of the run, in which call 44, in the journal batch, fails. *)
Definition sample_at (i : nat) : IndexPipeline := final (run_ops (sample_env (Some 44%nat)) (take i sample_run) sample_start).

Lemma ops_fit_cons E o os s s1 b :
  op_fits E s o -> run_op E o s = Ok (b, s1) -> ops_fit E os s1 -> ops_fit E (o :: os) s.
Proof. intros Ho Eo Hos. split; [done|]. by rewrite Eo. Qed.

Lemma sample_usn_ok : Forall (fun r => record_ok (to_pair r)) [sample_usn3; sample_delete].
Proof.
  repeat (apply Forall_cons; split; [split; [solve_struct_ok|split; [solve_units|reflexivity]]|]). by apply Forall_nil.
Qed.

Lemma sample_run_fits : ops_fit (sample_env (Some 44%nat)) sample_run sample_start.
Proof.
  apply (ops_fit_cons _ _ _ _ (sample_at 1) true); [done|vm_compute; reflexivity|].
  apply (ops_fit_cons _ _ _ _ (sample_at 2) true); [done|vm_compute; reflexivity|].
  apply (ops_fit_cons _ _ _ _ (sample_at 3) true); [|vm_compute; reflexivity|].
  { split; [exact sample_scan_ok|]. refine (bool_decide_unpack (budget _ _ _) _). vm_compute. exact I. }
  apply (ops_fit_cons _ _ _ _ (sample_at 4) false); [|vm_compute; reflexivity|].
  { split; [exact sample_usn_ok|]. change (room (sample_at 3) 1 (default [] (mapM id (usn3_changes [sample_usn3; sample_delete])))).
    refine (bool_decide_unpack (budget _ _ _) _). vm_compute. exact I. }
  apply (ops_fit_cons _ _ _ _ (sample_at 5) true); [done|vm_compute; reflexivity|done].
Qed.

(** The journal batch fails and is rolled back; the scan is in the store and in the index. *)
Lemma pipeline_never_drifts_witness :
  run_ops (sample_env (Some 44%nat)) sample_run sample_start = Ok (sample_at 5) /\
  size (Durable (tables (store_ (sample_at 5)))) = 3%nat /\ NeedsReload (projection_ (sample_at 5)) 1 = false /\
  synced ascii_ordinal (sample_at 5).
Proof.
  split; [vm_compute; reflexivity|]. split; [vm_compute; reflexivity|]. split; [vm_compute; reflexivity|].
  apply (pipeline_never_drifts (sample_env (Some 44%nat)) (mkConnection true empty_tables 0)); [done|done|].
  apply (run_ops_reachable _ sample_run); [exact sample_run_fits|vm_compute; reflexivity].
Defined.

(** The database the run leaves, opened again. *)
Definition reopen (t : Tables) : Connection Tables := mkConnection true t 0.

Lemma reopened_ok CSO t : store_ok CSO t -> store_ok CSO (tables (reopen t)).
Proof. done. Qed.

Definition sample_reopened : Connection Tables := reopen (tables (store_ (sample_at 5))).

Lemma sample_reopened_ok : store_ok ascii_ordinal (tables sample_reopened).
Proof.
  assert (reachable (sample_env (Some 44%nat)) sample_start (sample_at 5)) as Hr
    by (apply (run_ops_reachable _ sample_run); [exact sample_run_fits|vm_compute; reflexivity]).
  apply (reachable_store_ok _ ∅) in Hr.
  - exact (reopened_ok _ _ Hr).
  - apply new_pipeline_synced; [done|apply empty_tables_ok|done].
Qed.

Lemma sample_rebuild_room : rebuild_room (sample_env None) (new_pipeline sample_reopened).
Proof.
  unfold rebuild_room. destruct (GetAllVolumesImpl _ _) as [metas c] eqn:Em. vm_compute in Em. injection Em as <- <-.
  split; [|done]. apply durable_room. refine (bool_decide_unpack (budget _ _ _) _). vm_compute. exact I.
Qed.

(** After the restart the index has the volume again. *)
Lemma RebuildAll_recovers_witness :
  exists s, run_op (sample_env None) DoRebuild (new_pipeline sample_reopened) = Ok (true, s) /\
    NeedsReload (projection_ s) 1 = false /\ synced ascii_ordinal s.
Proof.
  destruct (GetAllVolumesImpl (DB := failing_call None) true sample_reopened) as [metas c'] eqn:Em.
  assert (dom (volumes (tables sample_reopened)) ⊆ list_to_set (meta_rowId <$> metas)) as Hall.
  { vm_compute in Em. injection Em as <- _. refine (bool_decide_unpack (_ ⊆ _) _). vm_compute. exact I. }
  pose proof (RebuildAll_recovers (sample_env None) sample_reopened metas c' eq_refl sample_reopened_ok Em sample_rebuild_room) as H.
  assert (is_ok (run_op (sample_env None) DoRebuild (new_pipeline sample_reopened)) = true) as Eok by (vm_compute; reflexivity).
  assert (NeedsReload (projection_ (final (run_ops (sample_env None) [DoRebuild] (new_pipeline sample_reopened)))) 1 = false) as Ehot
    by (vm_compute; reflexivity).
  cbn [run_ops] in Ehot. destruct (run_op (sample_env None) DoRebuild (new_pipeline sample_reopened)) as [[b s]| |] eqn:Er; [|done..].
  exists s. cbn in Ehot. split; [|split; [done|apply (H s); [apply rtc_refl|exact Hall]]]. rewrite <-Er in H |- *.
  assert (b = true) as -> by (change b with (match Ok (b, s) with Ok (b, _) => b | _ => false end); rewrite <-Er; vm_compute; reflexivity).
  exact Er.
Defined.
