(* ===== verification/PipelineEpochs.v ===== *)
(** * PipelineEpochs: an unchanged epoch means unchanged records

    A search of [IndexPipeline] reads without holding the pipeline's mutex.  It captures the
    data epoch of every volume it depends on, and later trusts what it read when the epochs
    are still the same.  This file proves what that check relies on: between two states in
    which a volume has the same data epoch, its durable records have not changed, except after
    a batch that reported failure. *)

From stdpp Require Import gmap relations sorting.
From S2P Require Import Prelude Records TextMatch FlatHashMap ChildrenMap FilenameIndex Projection ProjectionRead Residency Rebuild Rules Utf8 Sql Store Maintenance Pipeline PipelineSync PipelineRuns.

(** ** Partial correctness *)

(** If [m] returns from [s], [Q] holds of the result. *)
Definition returns {A} (m : Pipe A) (Q : A -> IndexPipeline -> Prop) (s : IndexPipeline) : Prop :=
  forall a s', m s = Ok (a, s') -> Q a s'.

Lemma returns_ret {A} (a : A) (Q : A -> IndexPipeline -> Prop) s : Q a s -> returns (pipe_ret a) Q s.
Proof. intros HQ b s' [= <- <-]. exact HQ. Qed.

Lemma returns_bind {A B} (m : Pipe A) (k : A -> Pipe B) (Q : B -> IndexPipeline -> Prop) s :
  returns m (fun a => returns (k a) Q) s -> returns (pipe_bind m k) Q s.
Proof. intros H b s' E. unfold pipe_bind in E. destruct (m s) as [[a s1]| |] eqn:Em; cbn [bind] in E; [|done..]. by eapply H. Qed.

Lemma returns_mono {A} (m : Pipe A) (P Q : A -> IndexPipeline -> Prop) s :
  returns m P s -> (forall a s', P a s' -> Q a s') -> returns m Q s.
Proof. intros H HPQ a s' E. by apply HPQ, H. Qed.

Lemma returns_gets {A} (f : IndexPipeline -> A) (Q : A -> IndexPipeline -> Prop) s : Q (f s) s -> returns (gets f) Q s.
Proof. intros HQ b s' [= <- <-]. exact HQ. Qed.

Lemma returns_modify f (Q : unit -> IndexPipeline -> Prop) s : Q tt (f s) -> returns (modify f) Q s.
Proof. intros HQ b s' [= <- <-]. exact HQ. Qed.

Lemma returns_on_projection {A} (f : Projection -> result (A * Projection)) (Q : A -> IndexPipeline -> Prop) s :
  (forall a p, Q a (with_projection s p)) -> returns (on_projection f) Q s.
Proof. intros HQ a s' E. unfold on_projection in E. destruct (f _) as [[b p]| |]; cbn [bind] in E; [|done..]. injection E as <- <-. apply HQ. Qed.

Lemma returns_change_projection f (Q : unit -> IndexPipeline -> Prop) s :
  (forall p, Q tt (with_projection s p)) -> returns (change_projection f) Q s.
Proof. intros HQ a s' E. unfold change_projection in E. destruct (f _) as [p| |]; cbn [bind] in E; [|done..]. injection E as <- <-. apply HQ. Qed.

(** The next step, by the lemma [l]. *)
Tactic Notation "returns_do" uconstr(l) :=
  lazymatch goal with |- returns (pipe_bind _ _) _ _ => apply returns_bind | _ => idtac end;
  eapply returns_mono; [by eapply l|cbv beta].

(** ** What an operation may touch *)

(** [e'] is [n] advances after [e]. *)
Record ticked (n : Z) (e e' : Epochs) : Prop := {
  tk_count : 0 <= n;
  tk_visible : queryVisibleEpoch_ e' = queryVisibleEpoch_ e + n;
  tk_volumes : forall v, volumeDataEpochs_ e' !! v = volumeDataEpochs_ e !! v \/
    exists i, volumeDataEpochs_ e' !! v = Some i /\ queryVisibleEpoch_ e < i <= queryVisibleEpoch_ e + n
}.

Section touched.
Context {DB : Sqlite} (CSO : list Z -> list Z -> Z).

(** From [s0] to [s] only records of the volumes [L] changed, and the [n] advances of the
    epoch gave every volume of [F] a new data epoch. *)
Record touched (L F : list Z) (n : Z) (s0 s : IndexPipeline) : Prop := {
  to_open : opened (store_ s) = true;
  to_store : store_ok CSO (tables (store_ s));
  to_records : forall k, volumeRowId k ∉ L -> Durable (tables (store_ s)) !! k = Durable (tables (store_ s0)) !! k;
  to_epochs : ticked n (epochs_ s0) (epochs_ s);
  to_fresh : forall v, v ∈ F -> v <> 0 -> exists i, volumeDataEpochs_ (epochs_ s) !! v = Some i /\ queryVisibleEpoch_ (epochs_ s0) < i
}.

Lemma touched_refl s : opened (store_ s) = true -> store_ok CSO (tables (store_ s)) -> touched [] [] 0 s s.
Proof. intros Ho Hok. split; try done; [split; [lia..|by left]|set_solver]. Qed.

Lemma touched_weaken L L' F F' n s0 s : L ⊆ L' -> F' ⊆ F -> touched L F n s0 s -> touched L' F' n s0 s.
Proof. intros HL HF [H1 H2 H3 H4 H5]. split; auto. Qed.

(** The rest of the state is free. *)
Lemma touched_ext L F n s0 s s' :
  store_ s' = store_ s -> epochs_ s' = epochs_ s -> touched L F n s0 s -> touched L F n s0 s'.
Proof. intros Es Ee [H1 H2 H3 H4 H5]. split; rewrite ?Es, ?Ee; done. Qed.

Lemma touched_store L F n s0 s c m :
  tables c = tables (store_ s) -> opened c = opened (store_ s) -> touched L F n s0 s ->
  touched L F n s0 (with_maintenance (with_store s c) m).
Proof. intros Et Eo [H1 H2 H3 H4 H5]. split; cbn; rewrite ?Et, ?Eo; done. Qed.

(** The operations that leave records and epochs alone. *)
Definition leaves {A} (m : Pipe A) : Prop :=
  forall L F n s0 s, touched L F n s0 s -> returns m (fun _ s' => touched L F n s0 s') s.

Lemma leaves_ret {A} (a : A) : leaves (pipe_ret a).
Proof. intros L F n s0 s Ht. by apply returns_ret. Qed.

Lemma leaves_bind {A B} (m : Pipe A) (k : A -> Pipe B) : leaves m -> (forall a, leaves (k a)) -> leaves (pipe_bind m k).
Proof. intros Hm Hk L F n s0 s Ht. returns_do Hm. intros a s1 H1. by apply Hk. Qed.

Lemma leaves_gets {A} (f : IndexPipeline -> A) : leaves (gets f).
Proof. intros L F n s0 s Ht. by apply returns_gets. Qed.

Lemma leaves_modify f : (forall s, store_ (f s) = store_ s /\ epochs_ (f s) = epochs_ s) -> leaves (modify f).
Proof. intros Hf L F n s0 s Ht. apply returns_modify. destruct (Hf s). by eapply touched_ext. Qed.

Lemma leaves_on_projection {A} (f : Projection -> result (A * Projection)) : leaves (on_projection f).
Proof. intros L F n s0 s Ht. apply returns_on_projection. intros a p. by eapply touched_ext, Ht. Qed.

Lemma leaves_change_projection f : leaves (change_projection f).
Proof. intros L F n s0 s Ht. apply returns_change_projection. intros p. by eapply touched_ext, Ht. Qed.

Lemma leaves_if {A} (b : bool) (m k : Pipe A) : leaves m -> leaves k -> leaves (if b then m else k).
Proof. by destruct b. Qed.

Lemma leaves_maintenance {A} (f : Maintenance -> Sql Tables (A * Maintenance)) : (forall m, quiet (f m)) -> leaves (on_maintenance f).
Proof.
  intros Hq L F n s0 s Ht a s' E. unfold on_maintenance in E. destruct (Hq (maintenance_ s) (store_ s)) as [Et Eo].
  destruct (f (maintenance_ s) (store_ s)) as [[b m] c]. injection E as <- <-. cbn in *. by apply touched_store.
Qed.

(** A statement, by its specification. *)
Lemma returns_on_store {A} (m : Sql Tables A) (Q : A -> IndexPipeline -> Prop) L F n s0 s :
  touched L F n s0 s ->
  wp m (fun a t => forall c, tables c = t -> opened c = true -> Q a (with_store s c)) (tables (store_ s)) ->
  returns (on_store m) Q s.
Proof.
  intros Ht H a s' E. unfold on_store in E. specialize (H (store_ s) eq_refl (to_open _ _ _ _ _ Ht)).
  destruct (m (store_ s)) as [b c]. injection E as <- <-. destruct H as [H Hc]. by apply H.
Qed.

(** Statements that change no record. *)
Lemma leaves_on_store {A} (m : Sql Tables A) :
  (forall t, store_ok CSO t -> wp m (fun _ t' => store_ok CSO t' /\ Durable t' = Durable t) t) -> leaves (on_store m).
Proof.
  intros Hm L F n s0 s Ht. eapply returns_on_store; [done|]. eapply wp_mono; [apply Hm, (to_store _ _ _ _ _ Ht)|].
  intros a t [Hst HD] c <- Hc. destruct Ht as [H1 H2 H3 H4 H5]. split; try done. intros k Hk. cbn. rewrite HD. by apply H3.
Qed.

Lemma leaves_read {A} (m : Sql Tables A) : (forall t, wp m (fun _ t' => t' = t) t) -> leaves (on_store m).
Proof. intros Hm. apply leaves_on_store. intros t Ht. eapply wp_mono; [apply Hm|]. by intros a t' ->. Qed.

(** ** Advancing *)

Lemma advance_ticked n e e' volume reason b :
  0 <= queryVisibleEpoch_ e -> queryVisibleEpoch_ e + n + 1 <= SIZE_MAX -> ticked n e e' ->
  ticked (n + 1) e (advance_epochs e' volume reason b) /\
  (volume <> 0 -> volumeDataEpochs_ (advance_epochs e' volume reason b) !! volume = Some (queryVisibleEpoch_ e + n + 1)).
Proof.
  intros H0 Hmax [Hn Hv Hvs].
  assert (add64 (queryVisibleEpoch_ e') 1 = queryVisibleEpoch_ e + n + 1) as En by (rewrite add64_small; lia).
  unfold advance_epochs. split; cbn; rewrite En.
  - split; cbn; [lia|lia|]. intros v. destruct (Z.eqb_spec volume 0) as [->|Hne]; cbn.
    + destruct (Hvs v) as [E|(i & E & Hi)]; [by left|right; exists i; split; [done|lia]].
    + destruct (decide (v = volume)) as [->|Hv2]; [rewrite lookup_insert_eq; right; eexists; split; [done|lia]|].
      rewrite lookup_insert_ne by done. destruct (Hvs v) as [E|(i & E & Hi)]; [by left|right; exists i; split; [done|lia]].
  - intros Hne. apply Z.eqb_neq in Hne. rewrite Hne. cbn. by rewrite lookup_insert_eq.
Qed.

Definition room_to_tick (n : Z) (s0 : IndexPipeline) : Prop :=
  0 <= queryVisibleEpoch_ (epochs_ s0) /\ queryVisibleEpoch_ (epochs_ s0) + n <= SIZE_MAX.

Lemma advance_touched L F n s0 s volume reason b :
  touched L F n s0 s -> room_to_tick (n + 1) s0 ->
  returns (AdvanceQueryVisibleEpochLocked volume reason b) (fun _ s' => touched L (volume :: F) (n + 1) s0 s') s.
Proof.
  intros [H1 H2 H3 H4 H5] [H0 Hmax]. apply returns_modify.
  destruct (advance_ticked n (epochs_ s0) (epochs_ s) volume reason b H0 ltac:(lia) H4) as [Ht Hf].
  split; try done. cbn [epochs_ with_counters with_epochs]. intros v Hv Hne. destruct (decide (v = volume)) as [->|Hv2].
  - eexists. split; [by apply Hf|]. pose proof (tk_count _ _ _ H4). lia.
  - apply elem_of_cons in Hv as [?|Hv]; [done|]. destruct (H5 v Hv Hne) as (i & Hi & Hlt).
    unfold advance_epochs. cbn. destruct (Z.eqb_spec volume 0); cbn; [by exists i|]. rewrite lookup_insert_ne by done. by exists i.
Qed.

Lemma advance_each_touched volumes reason L F n s0 s :
  touched L F n s0 s -> room_to_tick (n + zlen volumes) s0 ->
  returns (advance_each volumes reason) (fun _ s' => touched L (volumes ++ F) (n + zlen volumes) s0 s') s.
Proof.
  revert F n s. induction volumes as [|v volumes IH]; intros F n s Ht [H0 Hmax]; cbn [advance_each].
  { apply returns_ret. change (zlen (@nil Z)) with 0. rewrite Z.add_0_r. done. }
  rewrite zlen_cons in *. pose proof (zlen_nonneg volumes).
  apply returns_bind. eapply returns_mono; [apply advance_touched; [exact Ht|split; lia]|]. intros [] s1 H1.
  eapply returns_mono; [apply IH; [exact H1|split; lia]|]. intros [] s2 H2.
  replace (n + (1 + zlen volumes)) with (n + 1 + zlen volumes) by lia. eapply touched_weaken; [done| |exact H2]. set_solver.
Qed.

(** ** Batches of one volume *)

Lemma spec_change_other volume changes g k :
  volumeRowId k <> volume -> foldl (spec_change volume) g changes !! k = g !! k.
Proof.
  intros Hk. revert g. induction changes as [|change changes IH]; intros g; cbn [foldl]; [done|]. rewrite IH.
  unfold spec_change. destruct (change_kind change); [rewrite lookup_insert_ne|rewrite lookup_delete_ne]; try done; intros <-; by apply Hk.
Qed.

Lemma apply_touched L F n s0 s volume changes :
  touched L F n s0 s -> Forall change_ok changes ->
  returns (on_store (ApplyBatch CSO volume changes))
    (fun ok s' => touched (if ok && negb (bool_decide (changes = [])) then volume :: L else L) F n s0 s') s.
Proof.
  intros Ht Hall. eapply returns_on_store; [done|]. eapply wp_mono; [apply ApplyBatch_store_ok, Hall; apply Ht|].
  intros ok t [Hst Hcase] c <- Hc. destruct Ht as [H1 H2 H3 H4 H5]. destruct ok; [|rewrite <-Hcase in H3; by split].
  destruct (bool_decide_reflect (changes = [])) as [->|]; cbn [negb andb]; split; try done; cbn; intros k Hk; rewrite Hcase; [by apply H3|].
  rewrite spec_change_other by set_solver. apply H3. set_solver.
Qed.
End touched.

Create HintDb leaves.
#[export] Hint Resolve leaves_ret leaves_bind leaves_gets leaves_on_projection leaves_change_projection leaves_if : leaves.

Section operations.
Context {DB : Sqlite} (CSO : list Z -> list Z -> Z) (towlower : Z -> Z).
Context (estimate : Rows -> FilenameIndex -> AccessTimes -> Z) (sizeofEntry : Z).
Context (wal_checkpoint : nat -> Z * Z * Z) (pragma_page_size : nat -> option Z) (file_size : nat -> Z).
Context (hash_order : list Z -> list Z).
Local Abbreviation touched := (touched CSO).
Local Abbreviation leaves := (leaves CSO).

Lemma leaves_metadata : leaves RecordMetadataOnlyUpdateLocked.
Proof. by apply leaves_modify. Qed.

Lemma leaves_note_bulk n : leaves (NoteBulkInsertForPlannerStatsLocked n).
Proof. apply leaves_modify. intros s. cbv zeta. split; repeat case_match; reflexivity. Qed.

Lemma leaves_report : leaves (MaybeReportProjectionMemoryPressureLocked estimate).
Proof. apply leaves_modify. intros s. cbv zeta. split; repeat case_match; reflexivity. Qed.

Lemma leaves_note_seen volume id : leaves (note_seen volume id).
Proof. by apply leaves_modify. Qed.

Lemma leaves_note_all volume changes : leaves (note_all volume changes).
Proof. induction changes; cbn [note_all]; eauto using leaves_note_seen with leaves. Qed.

Lemma leaves_included volume id : leaves (IsEntryIncludedLocked towlower volume id).
Proof.
  apply leaves_bind; [apply leaves_gets|intros [setting|]; [|apply leaves_ret]]. apply leaves_if; [apply leaves_ret|].
  apply leaves_bind; [apply leaves_on_projection|intros r; apply leaves_if; apply leaves_ret].
Qed.

(** ** Rules *)

Lemma gate_one_leaves volume (change : EntryChange) (included : bool) :
  leaves (if included then note_seen volume (r_id (change_record change)) else pipe_ret tt).
Proof. destruct included; [apply leaves_note_seen|apply leaves_ret]. Qed.

Lemma from_batch_cons change changes removals (included : bool) :
  from_batch changes removals -> from_batch (change :: changes) (if included then removals else removal_of change :: removals).
Proof.
  intros H. destruct included; [by apply from_batch_weaken|]. constructor; [|by apply from_batch_weaken].
  exists change. split; [by left|done].
Qed.

Lemma gate_mft_touched L F n s0 volume changes s :
  touched L F n s0 s ->
  returns (gate_mft towlower volume changes) (fun removals s' => touched L F n s0 s' /\ from_batch changes removals) s.
Proof.
  revert s. induction changes as [|change changes IH]; intros s Ht; cbn [gate_mft]; [apply returns_ret; split; [done|constructor]|].
  returns_do leaves_included. intros included s1 H1. returns_do gate_one_leaves. intros [] s2 H2.
  returns_do IH. intros removals s3 [H3 Hf]. apply returns_ret. split; [done|by apply from_batch_cons].
Qed.

Lemma gate_usn_touched L F n s0 volume changes s :
  touched L F n s0 s ->
  returns (gate_usn towlower volume changes) (fun removals s' => touched L F n s0 s' /\ from_batch changes removals) s.
Proof.
  revert s. induction changes as [|change changes IH]; intros s Ht; cbn [gate_usn]; [apply returns_ret; split; [done|constructor]|].
  destruct (is_upsert change).
  - returns_do leaves_included. intros included s1 H1. returns_do gate_one_leaves. intros [] s2 H2.
    returns_do IH. intros removals s3 [H3 Hf]. apply returns_ret. split; [done|by apply from_batch_cons].
  - returns_do IH. intros removals s1 [H1 Hf]. split; [done|by apply from_batch_weaken].
Qed.

Lemma prune_touched L F n s0 volume removals s :
  touched L F n s0 s -> Forall change_ok removals ->
  returns (prune CSO volume removals)
    (fun ok s' => touched (if ok && negb (bool_decide (removals = [])) then volume :: L else L) F n s0 s' /\
       (removals = [] -> ok = true)) s.
Proof.
  intros Ht Hall. unfold prune. destruct (bool_decide_reflect (removals = [])) as [->|Hne]; [by apply returns_ret|].
  apply returns_bind. eapply returns_mono; [by apply apply_touched|]. rewrite bool_decide_eq_false_2 by done.
  intros [] s1 H1; cbn [negb andb] in *; [|by apply returns_ret].
  returns_do leaves_change_projection. intros [] s2 H2. by apply returns_ret.
Qed.

(** ** Memory *)

Lemma ticked_0 e e' : ticked 0 e e' -> volumeDataEpochs_ e' = volumeDataEpochs_ e.
Proof. intros [_ _ H]. apply map_eq. intros v. destruct (H v) as [|(i & _ & Hi)]; [done|lia]. Qed.

(** The advances of one eviction. *)
Definition eviction_ticks (s : IndexPipeline) : Z := zlen (hash_order (elements (dom (volumeDataEpochs_ (epochs_ s))))) + 1.

Lemma enforce_touched L s0 s :
  touched L [] 0 s0 s -> room_to_tick (eviction_ticks s0) s0 ->
  returns (enforce_memory CSO estimate hash_order) (fun _ s' => exists F n, n <= eviction_ticks s0 /\ touched L F n s0 s') s.
Proof.
  intros Ht Hroom. pose proof (zlen_nonneg (hash_order (elements (dom (volumeDataEpochs_ (epochs_ s0)))))) as H0.
  unfold enforce_memory. returns_do leaves_on_projection. intros evicted s1 H1. apply returns_bind.
  apply (returns_mono _ (fun _ s' => exists F n, n <= eviction_ticks s0 /\ touched L F n s0 s')).
  - destruct evicted; [|apply returns_ret; exists [], 0; split; [unfold eviction_ticks; lia|done]].
    unfold AdvanceResidencyEpochsForStructuralChangeLocked. apply returns_bind, returns_gets.
    rewrite (ticked_0 _ _ (to_epochs _ _ _ _ _ _ H1)). unfold eviction_ticks, room_to_tick in *.
    set (volumes := hash_order _) in *. apply returns_bind.
    eapply returns_mono; [apply (advance_each_touched CSO volumes _ L [] 0 s0); [exact H1|split; lia]|]. intros [] s2 H2.
    eapply returns_mono; [eapply advance_touched; [exact H2|split; lia]|]. intros [] s3 H3. eexists _, _. split; [|exact H3]. lia.
  - intros [] s2 (F & n & Hn & H2). eapply returns_mono; [by apply leaves_report|]. intros [] s3 H3. by exists F, n.
Qed.

(** Every volume whose records changed has a new epoch. *)
Definition settled (bound : Z) (s0 s : IndexPipeline) : Prop :=
  exists L F n, n <= bound /\ L ⊆ F /\ touched L F n s0 s.

(** The epochs are accounted for, whatever changed. *)
Definition tracked (bound : Z) (s0 s : IndexPipeline) : Prop :=
  exists L F n, n <= bound /\ touched L F n s0 s.

Lemma settled_tracked bound s0 s : settled bound s0 s -> tracked bound s0 s.
Proof. intros (L & F & n & Hn & _ & H). by exists L, F, n. Qed.

(** What a batch promises when it returns [ok]; [quiet] when it could not leave excluded records behind. *)
Definition batch_post (bound : Z) (s0 : IndexPipeline) (quiet : Prop) (ok : bool) (s : IndexPipeline) : Prop :=
  tracked bound s0 s /\ (ok = true \/ quiet -> settled bound s0 s).

Lemma settled_post bound s0 quiet ok s : settled bound s0 s -> batch_post bound s0 quiet ok s.
Proof. intros H. split; [by apply settled_tracked|done]. Qed.

Definition batch_ticks (s : IndexPipeline) : Z := eviction_ticks s + 1.

Lemma finish_touched volume changes removals s0 s :
  touched (if bool_decide (changes = []) then [] else [volume]) [] 0 s0 s -> Forall change_ok removals ->
  (changes = [] -> removals = []) -> room_to_tick (batch_ticks s0) s0 ->
  returns (finish_batch CSO estimate hash_order volume changes removals)
    (batch_post (batch_ticks s0) s0 (removals = [])) s.
Proof.
  intros Ht Hall Hnil [Hr0 Hr1]. unfold batch_ticks in *. pose proof (zlen_nonneg (hash_order (elements (dom (volumeDataEpochs_ (epochs_ s0)))))) as Hz.
  unfold finish_batch. returns_do prune_touched. intros ok s1 [H1 Hok].
  assert (touched (if bool_decide (changes = []) then [] else [volume]) [] 0 s0 s1) as H1'.
  { eapply touched_weaken; [|done|exact H1]. destruct (bool_decide_reflect (changes = [])) as [E|].
    - rewrite (bool_decide_eq_true_2 _ (Hnil E)). cbn. by rewrite andb_false_r.
    - destruct (_ && _); set_solver. }
  apply returns_bind. eapply returns_mono; [apply (enforce_touched _ s0 s1 H1'); split; lia|]. intros [] s2 (F & n & Hn & H2).
  destruct ok; cbn [negb].
  - apply returns_bind. destruct (bool_decide (changes = [])).
    + apply returns_ret, returns_ret, settled_post. exists [], F, n. split; [lia|]. split; [set_solver|done].
    + eapply returns_mono; [apply advance_touched; [exact H2|split; lia]|]. intros [] s3 H3. apply returns_ret, settled_post.
      exists [volume], (volume :: F), (n + 1). split; [lia|]. split; [set_solver|done].
  - apply returns_ret. split; [eexists _, F, n; split; [lia|exact H2]|]. intros [?|E]; [done|]. by specialize (Hok E).
Qed.

(** ** Batches *)

Definition batch_list (volume : Z) (changes : list EntryChange) : list Z := if bool_decide (changes = []) then [] else [volume].

Definition keeps_rules {A} (m : Pipe A) : Prop := forall s a s', m s = Ok (a, s') -> volumeRules_ s' = volumeRules_ s.

Lemma keeps_note_bulk n : keeps_rules (NoteBulkInsertForPlannerStatsLocked n).
Proof. intros s a s' [= _ <-]. repeat case_match; reflexivity. Qed.

Lemma keeps_report : keeps_rules (MaybeReportProjectionMemoryPressureLocked estimate).
Proof. intros s a s' [= _ <-]. repeat case_match; reflexivity. Qed.

Lemma keeps_change_projection f : keeps_rules (change_projection f).
Proof. intros s a s' E. unfold change_projection in E. destruct (f _); cbn [bind] in E; [|done..]. by injection E as _ <-. Qed.

Lemma leaves_keeps {A} (m : Pipe A) L F n s0 s :
  leaves m -> keeps_rules m -> touched L F n s0 s ->
  returns m (fun _ s' => touched L F n s0 s' /\ volumeRules_ s' = volumeRules_ s) s.
Proof. intros Hl Hk Ht a s' E. split; [by eapply Hl|by eapply Hk]. Qed.

Lemma commit_touched volume changes (note : Pipe unit) f (k : Pipe bool) (Q : bool -> IndexPipeline -> Prop) s :
  opened (store_ s) = true -> store_ok CSO (tables (store_ s)) -> Forall change_ok changes -> leaves note -> keeps_rules note ->
  (forall s', touched [] [] 0 s s' -> Q false s') ->
  (forall s', touched (batch_list volume changes) [] 0 s s' -> volumeRules_ s' = volumeRules_ s -> returns k Q s') ->
  returns (let& committed := on_store (ApplyBatch CSO volume changes) in
           if negb committed then pipe_ret false else let& _ := note in let& _ := change_projection f in k) Q s.
Proof.
  intros Ho Hok Hall Hl Hkeep Hno Hk. apply returns_bind. pose proof (touched_refl CSO s Ho Hok) as Ht.
  intros ok s1 E1. pose proof (apply_touched CSO [] [] 0 s s volume changes Ht Hall ok s1 E1) as H1.
  assert (volumeRules_ s1 = volumeRules_ s) as Er.
  { unfold on_store in E1. destruct (ApplyBatch _ _ _ _) as [b c]. by injection E1 as _ <-. }
  destruct ok; cbn [negb andb] in *; [|by apply returns_ret, Hno]. apply returns_bind.
  eapply returns_mono; [apply (leaves_keeps note _ _ _ _ _ Hl Hkeep H1)|]. intros [] s2 [H2 Er2]. apply returns_bind.
  eapply returns_mono; [apply (leaves_keeps _ _ _ _ _ _ (leaves_change_projection CSO f) (keeps_change_projection f) H2)|].
  intros [] s3 [H3 Er3]. apply Hk; [|congruence]. unfold batch_list. by destruct (bool_decide (changes = [])).
Qed.

Lemma gated_touched volume changes (gate : Pipe (list EntryChange)) seen s0 s :
  touched (batch_list volume changes) [] 0 s0 s -> volumeRules_ s = volumeRules_ s0 -> Forall change_ok changes ->
  (forall s', touched (batch_list volume changes) [] 0 s0 s' -> returns gate (fun removals s' =>
     touched (batch_list volume changes) [] 0 s0 s' /\ from_batch changes removals) s') ->
  room_to_tick (batch_ticks s0) s0 ->
  returns (let& hasRules := has_rules volume in
           let& ruleExcluded := if hasRules : bool then gate else let& _ := note_all volume seen in pipe_ret [] in
           finish_batch CSO estimate hash_order volume changes ruleExcluded)
    (batch_post (batch_ticks s0) s0 (volumeRules_ s0 !! volume = None)) s.
Proof.
  intros Ht Er Hall Hgate Hroom. apply returns_bind, returns_gets. rewrite Er. apply returns_bind.
  apply (returns_mono _ (fun removals s' => touched (batch_list volume changes) [] 0 s0 s' /\ from_batch changes removals /\
    (volumeRules_ s0 !! volume = None -> removals = []))).
  - destruct (bool_decide_reflect (is_Some (volumeRules_ s0 !! volume))) as [[x Hx]|].
    + eapply returns_mono; [by apply Hgate|]. intros removals s1 [H1 Hf]. split; [done|]. split; [done|congruence].
    + returns_do leaves_note_all. intros [] s1 H1. apply returns_ret. split; [done|]. split; [constructor|done].
  - intros removals s1 (H1 & Hf & Hnone). eapply returns_mono; [apply (finish_touched volume changes removals s0 s1 H1)|].
    + apply (from_batch_ok changes); [done|exact Hf].
    + intros ->. destruct removals as [|r removals]; [done|]. apply Forall_cons in Hf as [(c & Hc & _) _]. set_solver.
    + exact Hroom.
    + intros ok s2 [Ht2 H]. split; [done|]. intros [Hok|Hnr]; apply H; [by left|right; auto].
Qed.

Lemma ApplyMftBatchChanges_settled volume changes s :
  opened (store_ s) = true -> store_ok CSO (tables (store_ s)) -> Forall change_ok changes -> room_to_tick (batch_ticks s) s ->
  returns (ApplyMftBatchChanges CSO towlower estimate hash_order volume changes)
    (batch_post (batch_ticks s) s (volumeRules_ s !! volume = None)) s.
Proof.
  intros Ho Hok Hall Hroom. pose proof (zlen_nonneg (hash_order (elements (dom (volumeDataEpochs_ (epochs_ s)))))) as Hz.
  apply commit_touched; [done..|apply leaves_note_bulk|apply keeps_note_bulk| |].
  - intros s1 H1. apply settled_post. exists [], [], 0. split; [unfold batch_ticks, eviction_ticks; lia|done].
  - intros s1 H1 Er. apply returns_bind. eapply returns_mono; [apply (leaves_keeps _ _ _ _ _ _ leaves_report keeps_report H1)|].
    intros [] s2 [H2 Er2]. apply gated_touched; [done|congruence|done| |done]. intros s3 H3. by apply gate_mft_touched.
Qed.

Lemma ApplyUsnBatchChanges_settled volume changes s :
  opened (store_ s) = true -> store_ok CSO (tables (store_ s)) -> Forall change_ok changes -> room_to_tick (batch_ticks s) s ->
  returns (ApplyUsnBatchChanges CSO towlower estimate hash_order volume changes)
    (batch_post (batch_ticks s) s (volumeRules_ s !! volume = None)) s.
Proof.
  intros Ho Hok Hall Hroom. pose proof (zlen_nonneg (hash_order (elements (dom (volumeDataEpochs_ (epochs_ s)))))) as Hz.
  apply commit_touched; [done..|apply leaves_note_bulk|apply keeps_note_bulk| |].
  - intros s1 H1. apply settled_post. exists [], [], 0. split; [unfold batch_ticks, eviction_ticks; lia|done].
  - intros s1 H1 Er. apply gated_touched; [done|congruence|done| |done]. intros s3 H3. by apply gate_usn_touched.
Qed.

(** ** Volumes *)

Lemma settled_leaves {A} (m : Pipe A) s :
  opened (store_ s) = true -> store_ok CSO (tables (store_ s)) -> leaves m -> returns m (fun _ s' => settled 0 s s') s.
Proof.
  intros Ho Hok Hm. eapply returns_mono; [apply Hm, touched_refl; done|]. intros a s' H. exists [], [], 0. split; [lia|done].
Qed.

Lemma settled_weaken b b' s0 s : settled b s0 s -> b <= b' -> settled b' s0 s.
Proof. intros (L & F & n & Hn & H) Hle. exists L, F, n. split; [lia|done]. Qed.

(** One advance at the end. *)
Lemma settled_advance L s0 s volume reason b :
  touched L [] 0 s0 s -> L ⊆ [volume] -> room_to_tick 1 s0 ->
  returns (AdvanceQueryVisibleEpochLocked volume reason b) (fun _ s' => settled 1 s0 s') s.
Proof.
  intros Ht HL Hroom. eapply returns_mono; [apply advance_touched; [exact Ht|exact Hroom]|]. intros [] s' H'.
  exists L, [volume], 1. split; [lia|]. split; [done|]. exact H'.
Qed.

Lemma settled_leaves_ret {A} (m : Pipe A) L s0 s :
  touched L [] 0 s0 s -> L = [] -> leaves m -> returns m (fun _ s' => settled 1 s0 s') s.
Proof. intros Ht -> Hm. eapply returns_mono; [by apply Hm|]. intros a s' H'. exists [], [], 0. split; [lia|done]. Qed.

Lemma settled_bind_ret {A B} (m : Pipe A) (b : A -> B) bound s0 s :
  returns m (fun _ s' => settled bound s0 s') s -> returns (let& a := m in pipe_ret (b a)) (fun _ s' => settled bound s0 s') s.
Proof. intros H. apply returns_bind. eapply returns_mono; [exact H|]. intros a s' H'. by apply returns_ret. Qed.

Lemma leaves_metadata_update volume f :
  (forall v, volume_guid (f v) = volume_guid v /\ serial_number (f v) = serial_number v) -> leaves (metadata_update (update_volume volume f)).
Proof.
  intros Hf. apply leaves_bind.
  - apply leaves_on_store. intros t Ht. eapply wp_mono; [by apply (update_volume_store_ok CSO)|]. by intros ok t' (? & ? & _).
  - intros ok. apply leaves_bind; [apply leaves_if; [apply leaves_metadata|apply leaves_ret]|intros []; apply leaves_ret].
Qed.

Lemma ResolveVolume_settled key s :
  opened (store_ s) = true -> store_ok CSO (tables (store_ s)) -> room_to_tick 1 s ->
  returns (ResolveVolume key) (fun _ s' => settled 1 s s') s.
Proof.
  intros Ho Hok Hroom. unfold ResolveVolume. apply returns_bind. eapply returns_mono; [apply leaves_on_store; [|by apply touched_refl]|].
  - intros t Ht. eapply wp_mono; [by apply (GetOrCreateVolume_ok CSO)|]. by intros [id created] t' (? & ? & _).
  - intros [id created] s1 H1. apply (settled_bind_ret _ (fun _ => default 0 id)). destruct id as [id|]; [destruct created|].
    + eapply settled_advance; [done|set_solver|done].
    + by eapply settled_leaves_ret; [| |apply leaves_ret].
    + by eapply settled_leaves_ret; [| |apply leaves_ret].
Qed.

Lemma SetVolumeRules_settled volume setting s :
  opened (store_ s) = true -> store_ok CSO (tables (store_ s)) -> room_to_tick 1 s ->
  returns (SetVolumeRules volume setting) (fun _ s' => settled 1 s s') s.
Proof.
  intros Ho Hok Hroom. unfold SetVolumeRules. apply returns_bind, returns_gets. pose proof (touched_refl CSO s Ho Hok) as Ht.
  destruct (match volumeRules_ s !! volume with Some _ => _ | None => _ end).
  - by eapply settled_leaves_ret; [| |apply leaves_ret].
  - apply returns_bind, returns_modify. eapply settled_advance; [by eapply touched_ext, Ht|set_solver|done].
Qed.

Lemma SetVolumeAvailable_settled volume isAvailable now s :
  opened (store_ s) = true -> store_ok CSO (tables (store_ s)) -> room_to_tick 1 s ->
  returns (SetVolumeAvailable volume isAvailable now) (fun _ s' => settled 1 s s') s.
Proof.
  intros Ho Hok Hroom. unfold SetVolumeAvailable. apply returns_bind. eapply returns_mono; [apply leaves_on_store; [|by apply touched_refl]|].
  - intros t Ht. eapply wp_mono; [by apply (SetVolumeAvailable_ok CSO)|]. by intros [ok changed] t' (? & ? & _).
  - intros [ok changed] s1 H1. apply (settled_bind_ret _ (fun _ => ok)). destruct ok; [destruct changed|].
    + eapply settled_advance; [done|set_solver|done].
    + by eapply settled_leaves_ret; [| |apply leaves_metadata].
    + by eapply settled_leaves_ret; [| |apply leaves_ret].
Qed.

Lemma ForgetVolume_settled volume s :
  opened (store_ s) = true -> store_ok CSO (tables (store_ s)) -> room_to_tick 1 s ->
  returns (ForgetVolume CSO volume) (fun _ s' => settled 1 s s') s.
Proof.
  intros Ho Hok Hroom. unfold ForgetVolume. apply returns_bind. pose proof (touched_refl CSO s Ho Hok) as Ht.
  eapply returns_on_store; [exact Ht|]. eapply wp_mono; [by apply (ForgetVolume_store_ok CSO)|].
  intros ok t [Hst Hcase] c <- Hc. destruct ok; cbn [negb].
  - assert (touched [volume] [] 0 s (with_store s c)) as H1.
    { destruct Ht as [H1 H2 H3 H4 H5]. split; try done. cbn. intros k Hk. rewrite Hcase, map_lookup_filter. destruct (Durable _ !! k); [|done].
      cbn. rewrite option_guard_True; [done|set_solver]. }
    apply returns_bind, returns_modify, returns_bind.
    eapply returns_mono; [apply leaves_change_projection, (touched_ext CSO _ _ _ _ (with_store s c)); [done..|exact H1]|]. intros [] s2 H2.
    apply (settled_bind_ret _ (fun _ => true)). eapply settled_advance; [done|set_solver|done].
  - apply returns_ret. exists [], [], 0. split; [lia|]. split; [done|]. destruct Ht as [H1 H2 H3 H4 H5].
    split; try done. cbn. by rewrite Hcase.
Qed.

(** ** Reconciliation *)

Lemma stale_entries_touched L F n s0 volume seen hasRules ids s :
  touched L F n s0 s -> (forall id, id ∈ ids -> id_in_range id) ->
  returns (stale_entries towlower volume seen hasRules ids) (fun removals s' => touched L F n s0 s' /\ Forall change_ok removals) s.
Proof.
  revert s. induction ids as [|id ids IH]; intros s Ht Hids; cbn [stale_entries]; [apply returns_ret; split; [done|constructor]|].
  apply returns_bind. apply (returns_mono _ (fun _ s' => touched L F n s0 s')).
  { destruct hasRules; [|by apply returns_ret]. returns_do leaves_included. intros included s1 H1. by apply returns_ret. }
  intros excluded s1 H1. apply returns_bind. eapply returns_mono; [apply IH; [done|set_solver]|].
  intros removals s2 [H2 Hok]. apply returns_ret. split; [done|]. destruct (_ || _); [|done].
  constructor; [apply removal_marker_ok, Hids; set_solver|done].
Qed.

Lemma remove_chunks_touched volume fuel gone removals s0 s :
  touched (if bool_decide (gone = []) then [] else [volume]) [] 0 s0 s -> Forall change_ok removals ->
  returns (remove_chunks CSO wal_checkpoint pragma_page_size fuel volume removals gone)
    (fun r s' => touched (if bool_decide (r.2 = []) then [] else [volume]) [] 0 s0 s') s.
Proof.
  revert gone removals s. induction fuel as [|fuel IH]; intros gone removals s Ht Hok;
    (destruct removals as [|r removals]; [by apply returns_ret|]); cbn [remove_chunks]; [done|].
  set (chunk := take _ _). set (rest := drop _ _).
  assert (chunk <> []) as Hne by (unfold chunk, kReconciliationRemovalChunkRows; cbn; done).
  apply returns_bind. eapply returns_mono; [apply (apply_touched CSO _ _ _ _ _ volume chunk Ht); by apply Forall_take|].
  rewrite (bool_decide_eq_false_2 _ Hne). intros [] s1 H1; cbn [negb andb] in *; [|by apply returns_ret].
  apply returns_bind. eapply returns_mono; [apply leaves_maintenance, H1; intros m; apply CheckpointIfWalExceeds_quiet|]. intros b s2 H2.
  apply IH; [|by apply Forall_drop]. rewrite bool_decide_eq_false_2.
  - eapply touched_weaken; [|done|exact H2]. destruct (bool_decide (gone = [])); set_solver.
  - intros [_ E]%app_eq_nil. by apply fmap_nil_inv in E.
Qed.

Lemma FinishReconciliationPass_settled volume s :
  opened (store_ s) = true -> store_ok CSO (tables (store_ s)) -> room_to_tick 1 s ->
  returns (FinishReconciliationPass CSO towlower wal_checkpoint pragma_page_size volume) (fun _ s' => settled 1 s s') s.
Proof.
  intros Ho Hok Hroom. pose proof (touched_refl CSO s Ho Hok) as Ht. unfold FinishReconciliationPass. apply returns_bind, returns_gets.
  destruct (reconciliationSeen_ s !! volume) as [seen|]; [|by eapply settled_leaves_ret; [| |apply leaves_ret]].
  apply returns_bind, returns_gets, returns_bind. eapply returns_on_store; [exact Ht|].
  eapply wp_mono; [apply ListEntryIds_ok, Hok|]. intros [ids finished] t (-> & Hids & _) c Et Ec.
  assert (touched [] [] 0 s (with_store s c)) as H1.
  { apply (touched_ext CSO _ _ _ _ (with_maintenance (with_store s c) (maintenance_ s))); [done..|]. by apply touched_store; [|congruence|]. }
  destruct finished; cbn [negb]; [|by eapply settled_leaves_ret; [| |apply leaves_metadata]].
  apply returns_bind. eapply returns_mono; [by apply stale_entries_touched; [|apply Hids]|]. intros removals s2 [H2 Hr].
  apply returns_bind. eapply returns_mono; [by apply (remove_chunks_touched volume _ [])|]. intros [applied gone] s3 H3. cbn [snd] in H3.
  apply returns_bind. eapply returns_mono; [apply (leaves_if CSO _ _ _ (leaves_ret CSO tt) (leaves_change_projection CSO _)), H3|]. intros [] s4 H4.
  apply returns_bind. eapply returns_mono; [apply (leaves_if CSO); [by apply leaves_modify|apply leaves_ret|exact H4]|]. intros [] s5 H5.
  destruct (bool_decide (gone = [])); [by eapply settled_leaves_ret; [| |apply leaves_metadata]|].
  eapply settled_advance; [exact H5|set_solver|done].
Qed.

(** ** Residency *)

Lemma GetAllVolumesImpl_length counts t :
  wp (GetAllVolumesImpl counts) (fun metas t' => t' = t /\ zlen metas <= Z.of_nat (size (volumes t))) t.
Proof.
  assert (forall metas, wp (count_volumes metas) (fun metas' t' => t' = t /\ length metas' = length metas) t) as Hcount.
  { induction metas as [|meta metas IH]; cbn [count_volumes]; [by apply wp_ret|].
    apply wp_bind. eapply wp_mono; [apply CountEntries_ok|]. intros n t1 [-> _]. apply wp_bind. eapply wp_mono; [apply IH|].
    intros rest t2 [-> Hl]. apply wp_ret. split; [done|]. cbn. by rewrite Hl. }
  unfold GetAllVolumesImpl. wp_step. wp_step. wp_step; cbn [negb]; [|apply wp_ret; split; [done|unfold zlen; cbn; lia]].
  assert (forall metas, (length metas <= size (volumes t))%nat -> wp (if counts then count_volumes metas else sql_ret metas)
    (fun metas t' => t' = t /\ zlen metas <= Z.of_nat (size (volumes t))) t) as H.
  { intros metas Hl. destruct counts; [|apply wp_ret; split; [done|unfold zlen; lia]].
    eapply wp_mono; [apply Hcount|]. intros metas' t' [-> E]. split; [done|]. unfold zlen. lia. }
  assert (length (ordered_volumes t) = size (volumes t)) as Hlen by (unfold ordered_volumes; rewrite length_fmap, merge_sort_Permutation; apply length_map_to_list).
  apply wp_bind, wp_query_ordered; [apply H; lia|]. intros n. apply H. rewrite length_take. lia.
Qed.

Lemma advance_changed_touched before metas changed F n s0 s :
  touched [] F n s0 s -> room_to_tick (n + zlen metas) s0 ->
  returns (advance_changed before metas changed) (fun _ s' => exists F' n', n' <= n + zlen metas /\ touched [] F' n' s0 s') s.
Proof.
  revert changed F n s. induction metas as [|meta metas IH]; intros changed F n s Ht [H0 Hroom]; cbn [advance_changed].
  { apply returns_ret. exists F, n. split; [unfold zlen; cbn; lia|done]. }
  rewrite zlen_cons in *. pose proof (zlen_nonneg metas). apply returns_bind, returns_gets. destruct (bool_decide _).
  - eapply returns_mono; [apply (IH _ F n); [exact Ht|split; lia]|]. intros b s' (F' & n' & Hn & H'). exists F', n'. split; [lia|done].
  - apply returns_bind. eapply returns_mono; [apply advance_touched; [exact Ht|split; lia]|]. intros [] s1 H1.
    eapply returns_mono; [apply (IH _ (meta_rowId meta :: F) (n + 1)); [exact H1|split; lia]|]. intros b s' (F' & n' & Hn & H'). exists F', n'. split; [lia|done].
Qed.

Definition volume_count (s : IndexPipeline) : Z := Z.of_nat (size (volumes (tables (store_ s)))).

(** Listing the volumes. *)
Lemma list_touched counts L F n s0 s :
  touched L F n s0 s ->
  returns (on_store (GetAllVolumesImpl counts))
    (fun metas s' => touched L F n s0 s' /\ zlen metas <= volume_count s /\ volume_count s' = volume_count s) s.
Proof.
  intros Ht. eapply returns_on_store; [exact Ht|]. eapply wp_mono; [apply GetAllVolumesImpl_length|]. intros metas t [-> Hlen] c Et Ec.
  split; [|split; [exact Hlen|unfold volume_count; cbn; by rewrite Et]].
  apply (touched_ext CSO _ _ _ _ (with_maintenance (with_store s c) (maintenance_ s))); [done..|].
  apply touched_store; [done| |done]. rewrite Ec. symmetry. apply Ht.
Qed.

Lemma SetProjectionMemoryBudget_settled maximumBytes s :
  opened (store_ s) = true -> store_ok CSO (tables (store_ s)) -> room_to_tick (volume_count s) s ->
  returns (SetProjectionMemoryBudget CSO estimate maximumBytes) (fun _ s' => settled (volume_count s) s s') s.
Proof.
  intros Ho Hok [H0 Hroom]. unfold SetProjectionMemoryBudget. apply returns_bind.
  eapply returns_mono; [by apply list_touched, touched_refl|]. intros metas s1 (H1 & _ & Ec1).
  apply returns_bind, returns_gets, returns_bind, returns_change_projection. intros p. apply returns_bind.
  eapply returns_mono; [apply list_touched, (touched_ext CSO _ _ _ _ s1); [done..|exact H1]|]. intros metas2 s2 (H2 & Hlen & _).
  change (volume_count (with_projection s1 p)) with (volume_count s1) in Hlen. rewrite Ec1 in Hlen.
  apply returns_bind. eapply returns_mono; [apply (advance_changed_touched _ _ _ _ _ s s2 H2); split; lia|].
  intros b s3 (F & n & Hn & H3). eapply returns_mono; [apply (leaves_if CSO b _ _ (leaves_ret CSO tt) leaves_metadata), H3|].
  intros [] s4 H4. exists [], F, n. split; [lia|]. split; [set_solver|done].
Qed.

Lemma UnloadVolume_settled volume s :
  opened (store_ s) = true -> store_ok CSO (tables (store_ s)) -> room_to_tick 1 s ->
  returns (UnloadVolumeFromProjection volume) (fun _ s' => settled 1 s s') s.
Proof.
  intros Ho Hok Hroom. pose proof (touched_refl CSO s Ho Hok) as Ht. unfold UnloadVolumeFromProjection.
  apply returns_bind, returns_gets. returns_do leaves_change_projection. intros [] s1 H1. apply returns_bind, returns_gets.
  destruct (_ && _); [eapply settled_advance; [done|set_solver|done]|by eapply settled_leaves_ret; [| |apply leaves_metadata]].
Qed.

(** ** Rebuilding *)

Lemma select_touched L F n s0 volume s :
  touched L F n s0 s ->
  returns (on_store (SelectEntries volume)) (fun c s' => touched L F n s0 s' /\ Forall storable (delivered c)) s.
Proof.
  intros Ht. eapply returns_on_store; [exact Ht|]. eapply wp_mono; [apply SelectEntries_ok, (to_store _ _ _ _ _ _ Ht)|].
  intros c t (-> & _ & _ & Hin) c' Et Ec. split.
  - apply (touched_ext CSO _ _ _ _ (with_maintenance (with_store s c') (maintenance_ s))); [done..|].
    apply touched_store; [done| |done]. rewrite Ec. symmetry. apply Ht.
  - apply Forall_forall. intros r Hr. eapply durable_storable; [apply Ht|by apply Hin].
Qed.

Lemma rule_excluded_touched L F n s0 volume records s :
  touched L F n s0 s -> Forall storable records ->
  returns (rule_excluded towlower volume records) (fun removals s' => touched L F n s0 s' /\ Forall change_ok removals) s.
Proof.
  intros Ht Hall. revert s Ht. induction Hall as [|record records Hr _ IH]; intros s Ht; cbn [rule_excluded].
  { apply returns_ret. split; [done|constructor]. }
  returns_do leaves_included. intros included s1 H1. returns_do IH. intros removals s2 [H2 Hok]. apply returns_ret.
  split; [done|]. destruct included; [done|by constructor].
Qed.

Lemma rebuild_one_touched L F n s0 meta s :
  touched L F n s0 s ->
  returns (rebuild_one CSO towlower estimate sizeofEntry meta)
    (fun ok s' => touched (if ok : bool then meta_rowId meta :: L else L) F n s0 s') s.
Proof.
  intros Ht. unfold rebuild_one. set (volume := meta_rowId meta).
  assert (forall ok s', touched L F n s0 s' -> touched (if ok : bool then volume :: L else L) F n s0 s') as Hweak.
  { intros ok s' H'. eapply touched_weaken; [|done|exact H']. destruct ok; set_solver. }
  returns_do select_touched. intros cursor s1 [H1 _]. returns_do leaves_on_projection. intros rebuilt s2 H2.
  apply returns_bind, returns_gets. destruct (_ && _); [|apply returns_ret; by apply Hweak].
  returns_do select_touched. intros cursor2 s3 [H3 Hs3]. returns_do rule_excluded_touched. intros removals s4 [H4 Hr4].
  destruct (negb _); [by apply returns_ret|]. eapply returns_mono; [by apply prune_touched|]. intros ok s5 [H5 _].
  destruct ok; cbn [andb] in H5; [|done]. eapply touched_weaken; [|done|exact H5]. destruct (negb _); set_solver.
Qed.

Lemma rebuild_each_touched L F n s0 metas s :
  touched L F n s0 s ->
  returns (rebuild_each CSO towlower estimate sizeofEntry metas)
    (fun ids s' => touched (ids ++ L) F n s0 s' /\ zlen ids <= zlen metas) s.
Proof.
  revert L s. induction metas as [|meta metas IH]; intros L s Ht; cbn [rebuild_each]; [by apply returns_ret|].
  returns_do rebuild_one_touched. intros ok s1 H1. returns_do IH. intros ids s2 [H2 Hlen]. apply returns_ret. rewrite zlen_cons. split.
  - eapply touched_weaken; [|done|exact H2]. destruct ok; set_solver.
  - destruct ok; rewrite ?zlen_cons; lia.
Qed.

Lemma RebuildAll_settled s :
  opened (store_ s) = true -> store_ok CSO (tables (store_ s)) -> room_to_tick (volume_count s) s ->
  returns (RebuildAll CSO towlower estimate sizeofEntry) (fun _ s' => settled (volume_count s) s s') s.
Proof.
  intros Ho Hok [H0 Hroom]. unfold RebuildAll. apply returns_bind. eapply returns_mono; [by apply list_touched, touched_refl|].
  intros metas s1 (H1 & Hlen & _). returns_do rebuild_each_touched. intros ids s2 [H2 Hids]. rewrite app_nil_r in H2.
  returns_do leaves_report. intros [] s3 H3. apply returns_bind.
  eapply returns_mono; [apply (advance_each_touched CSO ids RebuildReason ids [] 0 s s3 H3); split; lia|]. intros [] s4 H4.
  apply returns_ret. exists ids, (ids ++ []), (0 + zlen ids). split; [lia|]. split; [set_solver|done].
Qed.

(** ** Maintenance *)

Lemma leaves_store_maintenance pathEmpty userIdle now hours percent :
  leaves (RunStoreMaintenance wal_checkpoint pragma_page_size file_size pathEmpty userIdle now hours percent).
Proof.
  unfold RunStoreMaintenance. apply leaves_bind; [apply leaves_gets|intros open]. apply leaves_if; [apply leaves_ret|].
  apply leaves_bind; [apply leaves_maintenance; intros; apply RunCheckpoint_quiet|intros _].
  apply leaves_bind; [apply leaves_maintenance; intros; apply CheckpointIfWalExceeds_quiet|intros _].
  apply leaves_bind; [|intros _].
  - unfold FlushPendingPlannerStatsLocked. apply leaves_bind; [apply leaves_gets|intros pending]. apply leaves_if; [apply leaves_ret|].
    apply leaves_bind; [apply leaves_read; intros t; unfold Analyze; wp_step; by wp_step|intros analyzed].
    apply leaves_if; [|apply leaves_ret]. apply leaves_bind; [by apply leaves_modify|intros _; apply leaves_metadata].
  - apply leaves_bind; [|intros _; apply leaves_metadata]. destruct userIdle; [|apply leaves_ret].
    apply leaves_bind; [apply leaves_maintenance; intros; apply VacuumIfDue_quiet|intros _; apply leaves_ret].
Qed.
End operations.


(** ** Any operation *)

Section runs.
Context (E : Env).
#[local] Instance env_sqlite : Sqlite := env_db E.
Local Abbreviation CSO := (env_CompareStringOrdinal E).

(** The most advances of the epoch an operation can make. *)
Definition op_ticks (s : IndexPipeline) (o : pipeline_op) : Z :=
  match o with
  | DoMft1 _ _ | DoMft2 _ _ | DoUsn1 _ _ | DoUsn2 _ _ | DoUsn3 _ _ => batch_ticks (env_hash_order E) s
  | DoBudget _ | DoRebuild => volume_count s
  | _ => 1
  end.

(** The volume of a batch. *)
Definition batch_volume (o : pipeline_op) : option Z :=
  match o with
  | DoMft1 v _ | DoMft2 v _ | DoUsn1 v _ | DoUsn2 v _ | DoUsn3 v _ => Some v
  | _ => None
  end.

(** The operation was not a batch that failed on a volume with rules. *)
Definition reported (s : IndexPipeline) (o : pipeline_op) (result : bool) : Prop :=
  match batch_volume o with Some v => result = true \/ volumeRules_ s !! v = None | None => True end.

Definition op_post (s : IndexPipeline) (o : pipeline_op) (result : bool) (s' : IndexPipeline) : Prop :=
  tracked CSO (op_ticks s o) s s' /\ (reported s o result -> settled CSO (op_ticks s o) s s').

Lemma settled_op s o b s' : settled CSO (op_ticks s o) s s' -> op_post s o b s'.
Proof. intros H. split; [by apply settled_tracked|done]. Qed.

Lemma settled_yes s o (m : Pipe unit) :
  returns m (fun _ s' => settled CSO (op_ticks s o) s s') s -> returns (yes m) (op_post s o) s.
Proof.
  intros H. apply returns_bind. eapply returns_mono; [exact H|]. intros [] s' H'. by apply returns_ret, settled_op.
Qed.

(** An operation that advances at most once. *)
Lemma settled_leaves_op {A} s o (m : Pipe A) (b : A -> bool) :
  opened (store_ s) = true -> store_ok CSO (tables (store_ s)) -> op_ticks s o = 1 -> leaves CSO m ->
  returns (let& a := m in pipe_ret (b a)) (op_post s o) s.
Proof.
  intros Ho Hok H1 Hm. apply returns_bind. eapply returns_mono; [by apply (settled_leaves CSO m s)|]. intros a s' H.
  apply returns_ret, settled_op. rewrite H1. eapply settled_weaken; [exact H|done].
Qed.

Lemma settled_result s o (m : Pipe bool) :
  returns m (fun _ s' => settled CSO (op_ticks s o) s s') s -> returns m (op_post s o) s.
Proof. intros H. eapply returns_mono; [exact H|]. intros b s' H'. by apply settled_op. Qed.

Lemma apply_usn_post {A} volume (reason mask : A -> Z) convert (rs : list A) s :
  opened (store_ s) = true -> store_ok CSO (tables (store_ s)) -> Forall (fun r => storable (convert r)) rs ->
  room_to_tick (batch_ticks (env_hash_order E) s) s ->
  returns (apply_usn CSO (env_towlower E) (env_estimate E) (env_hash_order E) volume ((fun r => usn_change (reason r) (mask r) (convert r)) <$> rs))
    (batch_post CSO (batch_ticks (env_hash_order E) s) s (volumeRules_ s !! volume = None)) s.
Proof.
  intros Ho Hok Hall Hroom. unfold apply_usn. destruct (mapM id _) as [changes|] eqn:Em.
  - apply ApplyUsnBatchChanges_settled; [done|done|by eapply mapM_usn_ok|done].
  - apply returns_ret, settled_post. exists [], [], 0. split; [|split; [done|by apply touched_refl]].
    pose proof (zlen_nonneg (env_hash_order E (elements (dom (volumeDataEpochs_ (epochs_ s)))))). unfold batch_ticks, eviction_ticks. lia.
Qed.

Lemma run_op_post o s :
  opened (store_ s) = true -> store_ok CSO (tables (store_ s)) -> op_fits E s o -> room_to_tick (op_ticks s o) s ->
  returns (run_op E o) (op_post s o) s.
Proof.
  intros Ho Hok Hfit Hroom. destruct o; cbn [run_op op_fits op_ticks] in *.
  - destruct Hfit as [Hw _]. eapply Forall_impl in Hw; [|exact Mft1_storable]. apply mft_ok in Hw as [? _].
    by apply ApplyMftBatchChanges_settled.
  - destruct Hfit as [Hw _]. eapply Forall_impl in Hw; [|exact Mft2_storable]. apply mft_ok in Hw as [? _].
    by apply ApplyMftBatchChanges_settled.
  - destruct Hfit as [Hw _]. apply apply_usn_post; [done|done| |done]. apply Forall_fmap. eapply Forall_impl; [exact Hw|exact Usn1_storable].
  - destruct Hfit as [Hw _]. apply apply_usn_post; [done|done| |done]. eapply Forall_impl; [exact Hw|exact Usn2_storable].
  - destruct Hfit as [Hw _]. apply apply_usn_post; [done|done| |done]. eapply Forall_impl; [exact Hw|exact Usn3_storable].
  - apply (settled_leaves_op _ _ _ (fun _ => true)); try done. apply leaves_bind; [apply leaves_change_projection|intros _; apply leaves_metadata].
  - apply returns_bind. eapply returns_mono; [by apply ResolveVolume_settled|]. intros id s' H. by apply returns_ret, settled_op.
  - apply settled_yes. by apply SetVolumeRules_settled.
  - apply settled_result. by apply SetVolumeAvailable_settled.
  - apply settled_result. eapply returns_mono; [apply (settled_leaves CSO _ s Ho Hok); by apply leaves_metadata_update|]. intros b s' H. eapply settled_weaken; [exact H|done].
  - apply settled_result. eapply returns_mono; [apply (settled_leaves CSO _ s Ho Hok); by apply leaves_metadata_update|]. intros b s' H. eapply settled_weaken; [exact H|done].
  - apply settled_result. eapply returns_mono; [apply (settled_leaves CSO _ s Ho Hok); by apply leaves_metadata_update|]. intros b s' H. eapply settled_weaken; [exact H|done].
  - apply settled_result. eapply returns_mono; [apply (settled_leaves CSO _ s Ho Hok); by apply leaves_metadata_update|]. intros b s' H. eapply settled_weaken; [exact H|done].
  - apply settled_result. by apply ForgetVolume_settled.
  - apply (settled_leaves_op _ _ _ (fun _ => true)); try done. apply leaves_bind; [by apply leaves_modify|intros _; apply leaves_metadata].
  - apply (settled_leaves_op _ _ _ (fun _ => true)); try done. apply leaves_bind; [apply leaves_gets|intros b]. apply leaves_if; [|apply leaves_ret].
    apply leaves_bind; [by apply leaves_modify|intros _; apply leaves_metadata].
  - apply settled_yes. by apply FinishReconciliationPass_settled.
  - apply settled_yes. by apply SetProjectionMemoryBudget_settled.
  - apply settled_yes. by apply UnloadVolume_settled.
  - apply returns_bind. eapply returns_mono; [by apply RebuildAll_settled|]. intros ids s' H. by apply returns_ret, settled_op.
  - apply (settled_leaves_op _ _ _ (fun _ => true)); try done. apply leaves_store_maintenance.
Qed.

(** ** Epochs as witnesses of records *)

Definition data_epoch (s : IndexPipeline) (volume : Z) : Z := default 0 (volumeDataEpochs_ (epochs_ s) !! volume).

(** No volume's epoch lies ahead of the counter. *)
Definition epochs_valid (s : IndexPipeline) : Prop :=
  0 <= queryVisibleEpoch_ (epochs_ s) /\
  forall v i, volumeDataEpochs_ (epochs_ s) !! v = Some i -> 0 < i <= queryVisibleEpoch_ (epochs_ s).

Definition volume_same (volume : Z) (s s' : IndexPipeline) : Prop :=
  forall k, volumeRowId k = volume -> Durable (tables (store_ s')) !! k = Durable (tables (store_ s)) !! k.

Lemma tracked_epochs bound s s' :
  tracked CSO bound s s' -> epochs_valid s -> epochs_valid s' /\ forall v, data_epoch s v <= data_epoch s' v.
Proof.
  intros (L & F & n & _ & [_ _ _ [Hn Hq Hv] _]) [H0 Hval]. split; [split; [lia|]|].
  - intros v i Hi. rewrite Hq. destruct (Hv v) as [Ev|(j & Ej & Hj)]; [rewrite Ev in Hi; apply Hval in Hi; lia|].
    rewrite Ej in Hi. injection Hi as <-. lia.
  - intros v. unfold data_epoch. destruct (Hv v) as [->|(j & -> & Hj)]; [done|]. cbn.
    destruct (volumeDataEpochs_ (epochs_ s) !! v) as [i|] eqn:Ei; cbn; [apply Hval in Ei; lia|lia].
Qed.

Lemma no_records_of_0 s k : store_ok CSO (tables (store_ s)) -> volumeRowId k = 0 -> Durable (tables (store_ s)) !! k = None.
Proof.
  intros Hok Hk. apply eq_None_not_Some. intros [r Hr]. apply lookup_Durable in Hr as (key & row & Hrow & <- & _); [|apply Hok].
  destruct (so_foreign _ _ Hok key row Hrow) as [v Hv]. pose proof (so_ids _ _ Hok _ _ Hv) as Hid. cbn in Hk, Hid. lia.
Qed.

Lemma settled_same bound s s' v :
  store_ok CSO (tables (store_ s)) -> settled CSO bound s s' -> epochs_valid s -> data_epoch s' v = data_epoch s v -> volume_same v s s'.
Proof.
  intros Hok (L & F & n & _ & HLF & [_ Hok' Hrec _ Hfresh]) [H0 Hval] Ev k Hk.
  destruct (decide (v = 0)) as [->|Hne]; [by rewrite !no_records_of_0|].
  apply Hrec. rewrite Hk. intros Hin. destruct (Hfresh v (HLF _ Hin) Hne) as (i & Hi & Hlt). unfold data_epoch in Ev. rewrite Hi in Ev. cbn in Ev.
  destruct (volumeDataEpochs_ (epochs_ s) !! v) as [j|] eqn:Ej; cbn in Ev; [apply Hval in Ej; lia|lia].
Qed.

(** An operation that fits and does not use up the 64-bit epoch counter. *)
Inductive timed_step (s s' : IndexPipeline) : Prop :=
| timed_op (o : pipeline_op) (result : bool) :
    op_fits E s o -> room_to_tick (op_ticks s o) s -> run_op E o s = Ok (result, s') -> timed_step s s'.

(** The same, and the operation was not a batch that failed on a volume with rules. *)
Inductive reported_step (s s' : IndexPipeline) : Prop :=
| reported_op (o : pipeline_op) (result : bool) :
    op_fits E s o -> room_to_tick (op_ticks s o) s -> run_op E o s = Ok (result, s') -> reported s o result -> reported_step s s'.

Lemma timed_step_ok W s s' :
  timed_step s s' -> synced_on CSO W s -> epochs_valid s -> synced_on CSO W s' /\ epochs_valid s'.
Proof.
  intros [o b Hfit Hroom Eo] Hs Hv. pose proof (run_op_ok E W o s Hs Hfit) as H. unfold pwp in H. rewrite Eo in H. split; [exact H|].
  destruct Hs as [g Hg]. destruct (run_op_post o s (li_open _ _ _ _ _ Hg) (li_store _ _ _ _ _ Hg) Hfit Hroom b s' Eo) as [Ht _].
  by apply (tracked_epochs _ _ _ Ht).
Qed.

Lemma timed_steps_ok W s s' :
  rtc timed_step s s' -> synced_on CSO W s -> epochs_valid s -> synced_on CSO W s' /\ epochs_valid s'.
Proof.
  induction 1 as [s|s s1 s' Hstep _ IH]; intros Hs Hv; [done|]. destruct (timed_step_ok W s s1 Hstep Hs Hv). by apply IH.
Qed.

Lemma reported_steps_same W s s' v :
  rtc reported_step s s' -> synced_on CSO W s -> epochs_valid s ->
  data_epoch s v <= data_epoch s' v /\ (data_epoch s' v = data_epoch s v -> volume_same v s s').
Proof.
  induction 1 as [s|s s1 s' [o b Hfit Hroom Eo Hrep] _ IH]; intros Hs Hv; [split; [lia|]; by intros _ k _|].
  pose proof Hs as [g Hg]. pose proof (run_op_post o s (li_open _ _ _ _ _ Hg) (li_store _ _ _ _ _ Hg) Hfit Hroom b s1 Eo) as [Ht Hset].
  destruct (timed_step_ok W s s1 (timed_op _ _ o b Hfit Hroom Eo) Hs Hv) as [Hs1 Hv1]. destruct (IH Hs1 Hv1) as [Hle Hsame].
  destruct (tracked_epochs _ _ _ Ht Hv) as [_ Hmono]. specialize (Hmono v). split; [lia|]. intros Ev k Hk.
  rewrite (Hsame ltac:(lia) k Hk). apply (settled_same _ _ _ v (li_store _ _ _ _ _ Hg) (Hset Hrep) Hv); [lia|done].
Qed.
End runs.

(** C6. The epoch check of a search is sound.  Over any well-formed database, between a state a
    search captured and any later one, as long as no batch failed on a volume with rules: the
    data epoch of a volume never goes back, and when it is the same the durable records of the
    volume are the same.  Every way to change records is covered: batches, rules applied after
    them, reconciliation, rebuilds and forgetting a volume. *)
Theorem same_epoch_same_records (E : Env) c s s' v :
  opened c = true -> store_ok (env_CompareStringOrdinal E) (tables c) ->
  rtc (timed_step E) (new_pipeline c) s -> rtc (reported_step E) s s' ->
  data_epoch s v <= data_epoch s' v /\ (data_epoch s' v = data_epoch s v -> volume_same v s s').
Proof.
  intros Ho Hok Hs Hs'. set (W := dom (volumes (tables c))).
  assert (epochs_valid (new_pipeline c)) as Hv by (split; [done|intros i x Hi; cbn in Hi; by rewrite lookup_empty in Hi]).
  destruct (timed_steps_ok E W _ _ Hs) as [Hsync Hval]; [by apply new_pipeline_synced|done|].
  by apply (reported_steps_same E W).
Qed.

(** ** Samples *)

#[export] Instance room_to_tick_dec n s : Decision (room_to_tick n s).
Proof. unfold room_to_tick. apply _. Defined.

Definition other_key : VolumeKey := mkVolumeKey (replicate 16 8) 100.

(** A scan of one volume, then of another. *)
Definition two_volumes : list pipeline_op := [
  DoResolve sample_key; DoMft1 1 [sample_root; sample_work; sample_file]; DoResolve other_key; DoMft1 2 [sample_root; sample_work; sample_file] ].

Definition two_at (i : nat) : IndexPipeline := final (run_ops (sample_env None) (take i two_volumes) sample_start).

Ltac solve_ticks := refine (bool_decide_unpack (room_to_tick _ _) _); vm_compute; exact I.

Lemma scan_fits volume i :
  bool_decide (budget (projection_ (two_at i)) (batch_chars volume (mft1_changes [sample_root; sample_work; sample_file])) 3) = true ->
  op_fits (sample_env None) (two_at i) (DoMft1 volume [sample_root; sample_work; sample_file]).
Proof. intros H. split; [exact sample_scan_ok|]. by apply bool_decide_eq_true in H. Qed.

(** The scan of the second volume leaves epoch and records of the first alone. *)
Lemma same_epoch_same_records_witness :
  data_epoch (two_at 2) 1 = 3 /\ data_epoch (two_at 4) 1 = 3 /\ data_epoch (two_at 4) 2 = 5 /\
  size (Durable (tables (store_ (two_at 4)))) = 6%nat /\ volume_same 1 (two_at 2) (two_at 4).
Proof.
  split; [vm_compute; reflexivity|]. split; [vm_compute; reflexivity|]. split; [vm_compute; reflexivity|]. split; [vm_compute; reflexivity|].
  apply (same_epoch_same_records (sample_env None) (mkConnection true empty_tables 0)).
  - reflexivity.
  - apply empty_tables_ok.
  - eapply rtc_l; [apply (timed_op _ _ (two_at 1) (DoResolve sample_key) true); [done|solve_ticks|vm_compute; reflexivity]|].
    eapply rtc_l; [|apply rtc_refl]. apply (timed_op _ _ (two_at 2) (DoMft1 1 [sample_root; sample_work; sample_file]) true);
      [apply scan_fits; vm_compute; reflexivity|solve_ticks|vm_compute; reflexivity].
  - eapply rtc_l; [apply (reported_op _ _ (two_at 3) (DoResolve other_key) true); [done|solve_ticks|vm_compute; reflexivity|done]|].
    eapply rtc_l; [|apply rtc_refl]. apply (reported_op _ _ (two_at 4) (DoMft1 2 [sample_root; sample_work; sample_file]) true);
      [apply scan_fits; vm_compute; reflexivity|solve_ticks|vm_compute; reflexivity|by left].
  - vm_compute; reflexivity.
Defined.

(** Everything on C: is excluded. *)
Definition exclude_all : VolumeSetting := mkSetting [67; 58] true [mkRule [67; 58; 92] false].

Definition excluded_start (n : nat) : IndexPipeline :=
  final (run_ops (sample_env (Some n)) [DoResolve sample_key; DoRules 1 exclude_all] sample_start).

Definition excluded_scan (n : nat) : result (bool * IndexPipeline) :=
  run_op (sample_env (Some n)) (DoMft1 1 [sample_root; sample_work]) (excluded_start n).

(** A batch that returns false may have been applied.  A scan batch is committed and enters
    the index; then the removal of the records that the rules exclude fails (call 30).  The
    batch returns false, the excluded records stay in the store and in the index, and the data
    epoch of the volume is the old one: searches that captured it before the batch take their
    view for current.  Had the first transaction failed (call 29), nothing would be stored. *)
Theorem failed_prune_keeps_epoch :
  (exists s', excluded_scan 30 = Ok (false, s') /\ size (Durable (tables (store_ s'))) = 2%nat /\
     zlen (live_ids (rows (projection_ s'))) = 2 /\ data_epoch s' 1 = data_epoch (excluded_start 30) 1) /\
  (exists s', excluded_scan 29 = Ok (false, s') /\ tables (store_ s') = tables (store_ (excluded_start 29))) /\
  (exists s', excluded_scan 1000 = Ok (true, s') /\ size (Durable (tables (store_ s'))) = 0%nat /\
     data_epoch s' 1 = data_epoch (excluded_start 1000) 1 + 1).
Proof.
  split; [|split]; (eexists; split; [vm_compute; reflexivity|]); [split; [|split]|..|split]; vm_compute; reflexivity.
Qed.
