(* ===== verification/Candidates.v ===== *)
(** * Candidates: search candidates of resident and of cold volumes

    Models the candidate builders and the folder materialization of
    [src/src/engine/src/IndexPipeline.cpp], for rows of the in-memory index and for rows of a
    read session of the store, and the rule filter of a search.  A search mixes both kinds of
    rows, so they must describe a file the same way.  A callback that asks for cancellation is a
    function from the number of its calls; each place that polls it has one of its own. *)

From stdpp Require Import gmap.
From S2P Require Import Prelude TextMatch Query FlatHashMap NamePool ChildrenMap FilenameIndex Projection ProjectionRead Residency Rebuild Rules Utf8 Sql Store ColdSearch Records Pipeline PipelineSync PipelineRuns.

Local Abbreviation fid := Query.id.

(** ** Rows and candidates *)

(** A row of the index copied under the lock; its name is in the buffer of the chunk. *)
Record LightweightHotRow := mkHotRow {
  h_volumeRowId : Z;
  h_frn : FileId;
  h_parentFrn : FileId;
  h_sizeBytes : Z;
  h_modifiedTime : Z;
  h_createdTime : Z;
  h_allocatedSizeBytes : Z;
  h_isDirectory : bool;
  h_allocatedSizeKnown : bool;
  h_nameId : Z;
  h_nameOffset : Z;
  h_nameLength : Z;
  h_nameIsAscii : bool
}.

Definition capture_row (e : ProjectionEntry) (offset length : Z) : LightweightHotRow :=
  {| h_volumeRowId := e_volumeRowId e; h_frn := e_frn e; h_parentFrn := e_parentFrn e; h_sizeBytes := e_sizeBytes e;
     h_modifiedTime := e_lastModifiedTime e; h_createdTime := e_creationTime e;
     h_allocatedSizeBytes := e_allocatedSizeBytes e; h_isDirectory := is_directory (e_attributes e);
     h_allocatedSizeKnown := e_allocatedSizeKnown e; h_nameId := e_nameId e; h_nameOffset := offset;
     h_nameLength := length; h_nameIsAscii := e_nameIsAscii e |}.

Definition MakeProjectionCandidateFromLightweight (row : LightweightHotRow) (text prefix : list Z) : Candidate :=
  {| name := if bool_decide (h_parentFrn row = h_frn row) then prefix ++ [92] else text; folder := [];
     sizeBytes := h_sizeBytes row; modifiedTime := h_modifiedTime row; isDirectory := h_isDirectory row;
     createdTime := h_createdTime row; volumeId := h_volumeRowId row; id := low (h_frn row);
     parentId := low (h_parentFrn row); persistentIndexed := true; allocatedSizeBytes := h_allocatedSizeBytes row;
     allocatedSizeKnown := h_allocatedSizeKnown row |}.

Definition MakeProjectionCandidate (p : Projection) (entry : ProjectionEntry) (prefix : list Z) : result Candidate :=
  let* text :=
    if bool_decide (e_parentFrn entry = e_frn entry) then Ok (prefix ++ [92])
    else Get (namePool_ (rows p)) (e_nameId entry) in
  Ok {| name := text; folder := []; sizeBytes := e_sizeBytes entry; modifiedTime := e_lastModifiedTime entry;
        isDirectory := is_directory (e_attributes entry); createdTime := e_creationTime entry;
        volumeId := e_volumeRowId entry; id := low (e_frn entry); parentId := low (e_parentFrn entry);
        persistentIndexed := true; allocatedSizeBytes := e_allocatedSizeBytes entry;
        allocatedSizeKnown := e_allocatedSizeKnown entry |}.

Definition MakeDurableCandidate (record : EntryRecord) (volume : Z) (prefix : list Z) : Candidate :=
  {| name := if bool_decide (r_parentId record = r_id record) then prefix ++ [92] else r_name record; folder := [];
     sizeBytes := r_sizeBytes record; modifiedTime := r_lastModifiedTime record;
     isDirectory := is_directory (r_attributes record); createdTime := r_creationTime record; volumeId := volume;
     id := low (r_id record); parentId := low (r_parentId record); persistentIndexed := true;
     allocatedSizeBytes := r_allocatedSizeBytes record; allocatedSizeKnown := r_allocatedSizeKnown record |}.

Definition with_folder (c : Candidate) (text : list Z) : Candidate :=
  {| name := name c; folder := text; sizeBytes := sizeBytes c; modifiedTime := modifiedTime c; isDirectory := isDirectory c;
     createdTime := createdTime c; volumeId := volumeId c; id := fid c; parentId := parentId c;
     persistentIndexed := persistentIndexed c; allocatedSizeBytes := allocatedSizeBytes c;
     allocatedSizeKnown := allocatedSizeKnown c |}.

(** ** Rules over candidates *)

Definition CandidateCanonicalPath (c : Candidate) : list Z :=
  if bool_decide (folder c = []) then name c
  else if bool_decide (name c = []) then folder c
  else if bool_decide (last (folder c) = Some 92) then folder c ++ name c
  else folder c ++ [92] ++ name c.

Section candidates.
Context {DB : Sqlite} (towlower towupper : Z -> Z).

Definition CandidateIncludedByRules (rules : gmap Z VolumeSetting) (c : Candidate) : bool :=
  match rules !! volumeId c with
  | None => true
  | Some setting => IsPathIncluded towlower setting (CandidateCanonicalPath c)
  end.

Definition NormalizeVolumePrefix (value : list Z) : list Z :=
  match value with
  | letter :: 58 :: _ => [towupper letter; 58]
  | _ => []
  end.

(** ** Folders of resident rows *)

Definition strip_root (rootName reconstructed : list Z) : list Z :=
  if bool_decide (rootName = []) then reconstructed
  else if bool_decide (reconstructed = rootName) then []
  else if (zlen rootName <? zlen reconstructed) && bool_decide (reconstructed !! length rootName = Some 92) &&
          wcsnicmp_equal towlower reconstructed rootName (length rootName)
  then drop (S (length rootName)) reconstructed
  else reconstructed.

Fixpoint strip_walk (cancelled : option (nat -> bool)) (fuel calls : nat) (p : Projection) (volume : Z) (current : FileId)
    (reconstructed : list Z) : result (list Z * Projection) :=
  match fuel with
  | O => Ok (reconstructed, p)
  | S fuel =>
      if is_cancelled cancelled calls then Ok ([], p)
      else
        let* '(found, p) := Find p volume current in
        match found with
        | None => Ok (reconstructed, p)
        | Some entry =>
            if bool_decide (e_parentFrn entry = e_frn entry) then
              let* rootName := Get (namePool_ (rows p)) (e_nameId entry) in Ok (strip_root rootName reconstructed, p)
            else strip_walk cancelled fuel (S calls) p volume (e_parentFrn entry) reconstructed
        end
  end.

(** The walk is bounded by the number of rows. *)
Definition StripVolumeRootName (cancelled : option (nat -> bool)) (p : Projection) (volume : Z) (current : FileId)
    (reconstructed : list Z) : result (list Z * Projection) :=
  strip_walk cancelled (S (Z.to_nat (EntryCount p))) 0 p volume current reconstructed.

(** The polls before the walks, during the path and during the root name. *)
Record Polls := mkPolls { poll_first : bool; poll_path : option (nat -> bool); poll_strip : option (nat -> bool) }.

Definition never : Polls := mkPolls false None None.

Definition MaterializeCandidateFolder (polls : Polls) (p : Projection) (prefixes : gmap Z (list Z)) (c : Candidate)
    : result (bool * Candidate * Projection) :=
  if poll_first polls then Ok (false, c, p)
  else
    match prefixes !! volumeId c with
    | None => Ok (false, c, p)
    | Some prefix =>
        let* '(found, p) := Find p (volumeId c) (mkFileId (fid c) 0) in
        match found with
        | None => Ok (false, c, p)
        | Some entry =>
            if bool_decide (e_parentFrn entry = e_frn entry) then Ok (true, c, p)
            else
              let* '(parentPath, p) := ReconstructPathUntil (poll_path polls) p (volumeId c) (e_parentFrn entry) in
              if negb (reachedRoot parentPath) then Ok (false, c, p)
              else
                let* '(reconstructedParent, p) :=
                  StripVolumeRootName (poll_strip polls) p (volumeId c) (e_parentFrn entry) (path parentPath) in
                Ok (true, with_folder c (prefix ++ [92] ++ reconstructedParent), p)
        end
    end.

(** ** Folders of stored rows *)

(** [StoreReadSession::FindEntry]. *)
Definition FindEntry (session : Session) (volume : Z) (key : FileId) : Sql Tables (option EntryRecord * Session) :=
  if negb (isOpen session) then sql_ret (None, mark_failed session)
  else
    let! valid := call in
    if negb valid then sql_ret (None, mark_failed session)
    else
      let! row := query (fun t => entries t !! row_key volume key) in
      sql_ret
        match row with
        | Some (Some r) => (Some (ReadEntryRecord (row_key volume key) r), session)
        | Some None => (None, session)
        | None => (None, mark_failed session)
        end.

Definition kMaxColdWalkDepth : nat := 4096.

(** The names from below the root to [current], or [None] when the root was not reached. *)
Fixpoint cold_walk (cancelled : option (nat -> bool)) (depth calls : nat) (session : Session) (volume : Z) (current : FileId)
    (segments : list (list Z)) : Sql Tables (option (list (list Z)) * Session) :=
  match depth with
  | O => sql_ret (None, session)
  | S depth =>
      if is_cancelled cancelled calls then sql_ret (None, session)
      else
        let! '(parent, session) := FindEntry session volume current in
        match parent with
        | None => sql_ret (None, session)
        | Some r =>
            if bool_decide (r_parentId r = r_id r) then sql_ret (Some segments, session)
            else cold_walk cancelled depth (S calls) session volume (r_parentId r) (r_name r :: segments)
        end
  end.

(** The components below the prefix. *)
Definition below (segments : list (list Z)) : list Z :=
  match segments with [] => [92] | _ :: _ => segments ≫= (fun text => 92 :: text) end.

Definition MaterializeCandidateFolderDurable (cancelled : option (nat -> bool)) (session : Session)
    (prefixes : gmap Z (list Z)) (c : Candidate) : Sql Tables (bool * Candidate * Session) :=
  match prefixes !! volumeId c with
  | None => sql_ret (false, c, session)
  | Some prefix =>
      let! '(entry, session) := FindEntry session (volumeId c) (mkFileId (fid c) 0) in
      match entry with
      | None => sql_ret (false, c, session)
      | Some r =>
          if bool_decide (r_parentId r = r_id r) then sql_ret (true, c, session)
          else
            let! '(walked, session) := cold_walk cancelled kMaxColdWalkDepth 0 session (volumeId c) (r_parentId r) [] in
            sql_ret
              match walked with
              | None => (false, c, session)
              | Some segments => (true, with_folder c (prefix ++ below segments), session)
              end
      end
  end.
End candidates.

Lemma same_depth : kMaxColdWalkDepth = kMaxProjectionPathDepth.
Proof. done. Qed.

#[local] Opaque kMaxProjectionPathDepth kMaxColdWalkDepth.

(** ** Chains *)

(** The keys of a chain are distinct, so a chain is not longer than the map. *)
Lemma chain_keys g volume current rs :
  parent_chain g volume current rs ->
  exists ks, length ks = length rs /\ NoDup ks /\ (forall k, k ∈ ks -> is_Some (g !! k) /\
    exists key rs', k = mkEntryKey volume key /\ parent_chain g volume key rs' /\ (length rs' <= length rs)%nat).
Proof.
  induction 1 as [key r Hg Hp|key r rest Hg Hp Hc (ks & Hlen & Hnd & Hks)].
  - exists [mkEntryKey volume key]. split; [done|]. split; [apply NoDup_singleton|]. intros k ->%list_elem_of_singleton.
    split; [by eexists|]. exists key, [r]. split; [done|]. split; [by constructor|done].
  - exists (mkEntryKey volume key :: ks). rewrite length_app. cbn. split; [lia|]. split.
    + constructor; [|done]. intros Hin. destruct (Hks _ Hin) as (_ & key' & rs' & [= <-] & Hc' & Hl).
      pose proof (parent_chain_functional _ _ _ _ _ Hc' (chain_step _ _ _ _ _ Hg Hp Hc)) as ->. rewrite length_app in Hl. cbn in Hl. lia.
    + intros k [->|Hin]%elem_of_cons.
      * split; [by eexists|]. exists key, (rest ++ [r]). split; [done|]. split; [by constructor|]. rewrite length_app. cbn. lia.
      * destruct (Hks k Hin) as (Hs & key' & rs' & -> & Hc' & Hl). split; [done|]. exists key', rs'. split; [done|]. split; [done|]. lia.
Qed.

Lemma chain_size (g : Records) volume current rs : parent_chain g volume current rs -> (length rs <= size g)%nat.
Proof.
  intros Hc. destruct (chain_keys _ _ _ _ Hc) as (ks & <- & Hnd & Hks).
  rewrite <-(size_dom (D := gset EntryKey) g), <-(size_list_to_set (C := gset EntryKey) ks) by done.
  apply subseteq_size. intros k Hk%elem_of_list_to_set. by apply elem_of_dom, Hks.
Qed.

Lemma parent_chain_ext (g g' : Records) volume current rs :
  (forall k, volumeRowId k = volume -> g !! k = g' !! k) -> parent_chain g volume current rs -> parent_chain g' volume current rs.
Proof. intros E. induction 1; constructor; try done; by rewrite <-E. Qed.

Lemma chain_cons g volume current rs : parent_chain g volume current rs -> exists root rest, rs = root :: rest.
Proof. destruct 1 as [|key r [|root rest]]; cbn; eauto. Qed.

(** ** Names *)

Abbreviation slashed names := (names ≫= (fun text : list Z => 92 :: text)).

Lemma join_slashed text names : text <> [] -> join text names = text ++ slashed names.
Proof.
  revert text. induction names as [|n names IH]; intros text Ht; cbn [join mbind list_bind]; [by rewrite app_nil_r|].
  destruct text as [|x text]; [done|]. rewrite IH by (cbn; done). cbn. by rewrite <-!app_assoc.
Qed.

Lemma join_root root names : root <> [] -> join [] (root :: names) = root ++ slashed names.
Proof. intros Hr. cbn [join app]. by apply join_slashed. Qed.

Lemma wcsnicmp_prefix towlower a b : wcsnicmp_equal towlower (a ++ b) a (length a) = true.
Proof.
  induction a as [|x a IH]; [done|]. cbn [app length wcsnicmp_equal c_unit head default tail]. by rewrite Z.eqb_refl, IH, orb_true_r.
Qed.

(** Stripping the root from a path leaves what the durable walk collects. *)
Lemma strip_root_below towlower root names :
  root <> [] -> 92 :: strip_root towlower root (root ++ slashed names) = below names.
Proof.
  intros Hr. unfold strip_root. rewrite bool_decide_eq_false_2 by done. destruct names as [|n names].
  - cbn [mbind list_bind]. rewrite app_nil_r, bool_decide_eq_true_2; done.
  - rewrite bool_decide_eq_false_2; [|intros E; apply (f_equal length) in E; rewrite length_app in E; cbn in E; lia].
    rewrite wcsnicmp_prefix, (bool_decide_eq_true_2 (_ !! _ = _)) by (by rewrite lookup_app_r, Nat.sub_diag by lia).
    rewrite (proj2 (Z.ltb_lt _ _)) by (rewrite zlen_app; cbn [mbind list_bind app]; rewrite zlen_cons; pose proof (zlen_nonneg (n ++ slashed names)); lia).
    cbn [andb mbind list_bind below app]. rewrite drop_app, drop_ge by lia.
    replace (S (length root) - length root)%nat with 1%nat by lia. done.
Qed.

(** ** What both ways compute *)

(** [c'] is [c] with its folder: a root keeps the empty one, other rows get the path of their
    parent below the volume's prefix, when the parents reach a root within the depth limit. *)
Inductive placed (g : Records) (prefix : list Z) (c c' : Candidate) : Prop :=
| placed_root r :
    g !! mkEntryKey (volumeId c) (mkFileId (fid c) 0) = Some r -> r_parentId r = r_id r -> c' = c -> placed g prefix c c'
| placed_below r root rs :
    g !! mkEntryKey (volumeId c) (mkFileId (fid c) 0) = Some r -> r_parentId r <> r_id r ->
    parent_chain g (volumeId c) (r_parentId r) (root :: rs) -> (length (root :: rs) <= kMaxProjectionPathDepth)%nat ->
    c' = with_folder c (prefix ++ below (r_name <$> rs)) -> placed g prefix c c'.

Lemma placed_functional g prefix c c1 c2 : placed g prefix c c1 -> placed g prefix c c2 -> c1 = c2.
Proof.
  intros H1 H2. destruct H1 as [r Hr Hp ->|r root rs Hr Hp Hc Hl ->], H2 as [r2 Hr2 Hp2 ->|r2 root2 rs2 Hr2 Hp2 Hc2 Hl2 ->]; simplify_eq; try done.
  pose proof (parent_chain_functional _ _ _ _ _ Hc Hc2) as [= -> ->]. done.
Qed.

Lemma placed_ext (g g' : Records) prefix c c' :
  (forall k, volumeRowId k = volumeId c -> g !! k = g' !! k) -> placed g prefix c c' -> placed g' prefix c c'.
Proof.
  intros E [r Hr Hp ->|r root rs Hr Hp Hc Hl ->].
  - apply (placed_root _ _ _ _ r); [|done|done]. by rewrite <-E.
  - apply (placed_below _ _ _ _ r root rs); [|done| |done|done]; [by rewrite <-E|by eapply parent_chain_ext].
Qed.

(** The roots of the volume have names. *)
Definition roots_named (g : Records) (volume : Z) : Prop :=
  forall key r, g !! mkEntryKey volume key = Some r -> r_parentId r = r_id r -> r_name r <> [].

Section agreement.
Context {DB : Sqlite} (CSO : list Z -> list Z -> Z) (towlower : Z -> Z).
Local Abbreviation refines := (refines CSO).

Lemma refines_id p g k r : refines p g -> g !! k = Some r -> r_id r = frn k.
Proof.
  intros Hp Hk. destruct k as [volume key]. destruct (Find_refines CSO p g volume key Hp) as ([e|] & p' & _ & _ & _ & _ & Ho); [|congruence].
  destruct Ho as (r' & Hr' & Hid & _). by simplify_eq.
Qed.

Lemma strip_walk_ok fuel calls p g volume current reconstructed root rs :
  refines p g -> parent_chain g volume current (root :: rs) -> (length (root :: rs) <= fuel)%nat ->
  exists p', strip_walk towlower None fuel calls p volume current reconstructed = Ok (strip_root towlower (r_name root) reconstructed, p') /\
    refines p' g /\ rows p' = rows p /\ policy p' = policy p.
Proof.
  revert calls p current rs. induction fuel as [|fuel IH]; intros calls p current rs Hp Hc Hl; [cbn in Hl; lia|].
  cbn [strip_walk is_cancelled]. destruct (Find_refines CSO p g volume current Hp) as (o & p1 & -> & Hp1 & Hrows & Hpol & Ho). cbn [bind].
  destruct o as [e|]; [|inversion Hc; congruence]. destruct Ho as (r & Hg & Hid & He & Hname). cbn in Hid.
  assert (e_parentFrn e = r_parentId r) as -> by (by rewrite He). assert (e_frn e = r_id r) as -> by (by rewrite He).
  inversion Hc as [key r' Hg' Hp'|key r' rest Hg' Hp' Hc' E]; simplify_eq.
  - rewrite bool_decide_eq_true_2 by congruence. rewrite Hrows, Hname. cbn [bind]. by eexists.
  - rewrite bool_decide_eq_false_2 by congruence. destruct (chain_cons _ _ _ _ Hc') as (root' & rest' & ->).
    match goal with H : _ ++ [r] = _ |- _ => cbn in H; injection H as -> <- end. destruct (IH (S calls) p1 (r_parentId r) rest' Hp1 Hc') as (p2 & -> & Hp2 & Hrows2 & Hpol2).
    { cbn [length] in Hl |- *. rewrite length_app in Hl. cbn in Hl. lia. }
    exists p2. split; [done|]. split; [done|]. split; congruence.
Qed.

Lemma chain_head_root g volume current root rs :
  parent_chain g volume current (root :: rs) -> exists key, g !! mkEntryKey volume key = Some root /\ r_parentId root = key.
Proof.
  remember (root :: rs) as l eqn:E. intros Hc. revert rs E. induction Hc as [key r Hg Hp|key r rest Hg Hp Hc IH]; intros rs E.
  - injection E as -> _. eauto.
  - destruct (chain_cons _ _ _ _ Hc) as (root' & rest' & ->). cbn in E. injection E as -> _. by eapply IH.
Qed.

(** The folder of a row of the index. *)
Lemma MaterializeCandidateFolder_ok p g prefixes prefix c :
  refines p g -> roots_named g (volumeId c) -> prefixes !! volumeId c = Some prefix ->
  exists b c' p', MaterializeCandidateFolder towlower never p prefixes c = Ok (b, c', p') /\ refines p' g /\
    rows p' = rows p /\ policy p' = policy p /\ (if b : bool then placed g prefix c c' else c' = c /\ forall c2, ~ placed g prefix c c2).
Proof.
  intros Hp Hnamed Hpre. unfold MaterializeCandidateFolder. cbn [never poll_first poll_path poll_strip]. rewrite Hpre.
  destruct (Find_refines CSO p g (volumeId c) (mkFileId (fid c) 0) Hp) as (o & p1 & -> & Hp1 & Hrows & Hpol & Ho). cbn [bind].
  destruct o as [e|].
  2: { eexists false, c, p1. split; [done|]. split; [done|]. split; [done|]. split; [done|]. split; [done|]. intros c2 []; congruence. }
  destruct Ho as (r & Hg & Hid & He & Hname). cbn in Hid.
  assert (e_parentFrn e = r_parentId r) as -> by (by rewrite He). assert (e_frn e = r_id r) as -> by (by rewrite He).
  destruct (bool_decide_reflect (r_parentId r = r_id r)) as [Er|Er].
  { exists true, c, p1. split; [done|]. split; [done|]. split; [done|]. split; [done|]. by eapply placed_root. }
  destruct (ReconstructPath_spec CSO p1 g (volumeId c) (r_parentId r) Hp1) as (res & p2 & E2 & Hp2 & Hrows2 & Hpol2 & Hroot & Hpath).
  unfold ReconstructPath in E2. rewrite E2. cbn [bind].
  destruct (reachedRoot res) eqn:Ereached; cbn [negb].
  - destruct Hroot as [Hroot _]. destruct (Hroot eq_refl) as (rs & Hc & Hl). rewrite (Hpath rs Hc Hl).
    destruct (chain_cons _ _ _ _ Hc) as (root & rest & ->). rewrite fmap_cons.
    destruct (chain_head_root _ _ _ _ _ Hc) as (key & Hkey & Hself).
    pose proof (refines_id p2 g _ _ Hp2 Hkey) as Hkid. cbn in Hkid.
    assert (r_name root <> []) as Hne by (apply (Hnamed _ _ Hkey); by rewrite Hself, Hkid).
    rewrite join_root by done. unfold StripVolumeRootName.
    edestruct (strip_walk_ok (S (Z.to_nat (EntryCount p2))) 0 p2 g) as (p3 & -> & Hp3 & Hrows3 & Hpol3); [done|exact Hc| |].
    { unfold EntryCount. destruct (refines_count CSO p2 g Hp2) as [_ ->]. rewrite Nat2Z.id. apply chain_size in Hc. lia. }
    cbn [bind]. exists true. eexists _, p3. split; [done|]. split; [done|]. split; [congruence|]. split; [congruence|].
    eapply placed_below; [done|done|exact Hc|done|]. cbn [app]. f_equal. f_equal. by apply strip_root_below.
  - exists false, c, p2. split; [done|]. split; [done|]. split; [congruence|]. split; [congruence|]. split; [done|].
    intros c2 [|r2 root rs Hr2 _ Hc Hl _]; simplify_eq. destruct Hroot as [_ Hroot]. discriminate Hroot. by exists (root :: rs).
Qed.

(** ** Stored rows *)

Lemma FindEntry_ok session volume key t :
  store_ok CSO t -> id_in_range key -> isOpen session = true ->
  wp (FindEntry session volume key) (fun '(o, session') t' => t' = t /\ isOpen session' = true /\
    match o with
    | Some r => session' = session /\ Durable t !! mkEntryKey volume key = Some r
    | None => (failed_ session' = false -> Durable t !! mkEntryKey volume key = None)
    end) t.
Proof.
  intros Hok Hkey Ho. unfold FindEntry. rewrite Ho. cbn [negb]. wp_step. wp_step; cbn [negb]; [|by apply wp_ret].
  pose proof (lookup_Durable_key t volume key (so_keys _ _ Hok) Hkey) as HD.
  apply wp_bind, wp_query; apply wp_ret; [|done]. destruct (entries t !! row_key volume key) as [row|]; done.
Qed.

Lemma cold_walk_ok depth calls session volume current segments t :
  store_ok CSO t -> id_in_range current -> isOpen session = true ->
  wp (cold_walk None depth calls session volume current segments) (fun '(o, session') t' => t' = t /\
    match o with
    | Some found => session' = session /\ exists root rs, parent_chain (Durable t) volume current (root :: rs) /\
        (length (root :: rs) <= depth)%nat /\ found = (r_name <$> rs) ++ segments
    | None => failed_ session' = false -> forall rs, parent_chain (Durable t) volume current rs -> ~ (length rs <= depth)%nat
    end) t.
Proof.
  intros Hok. revert calls session current segments. induction depth as [|depth IH]; intros calls session current segments Hcur Ho; cbn [cold_walk].
  { apply wp_ret. split; [done|]. intros _ rs Hc Hl. destruct (chain_cons _ _ _ _ Hc) as (root & rest & ->). cbn in Hl. lia. }
  cbn [is_cancelled]. apply wp_bind. eapply wp_mono; [by apply FindEntry_ok|]. intros [o session'] t' (-> & Ho' & H). destruct o as [r|].
  - destruct H as [-> HD].
    assert (r_id r = current) as Hid.
    { apply lookup_Durable in HD as (key & row & _ & E & <-); [|apply Hok]. by injection E. }
    destruct (bool_decide_reflect (r_parentId r = r_id r)) as [Er|Er].
    + apply wp_ret. split; [done|]. split; [done|]. exists r, []. split; [apply chain_root; [done|congruence]|]. split; [cbn; lia|done].
    + eapply wp_mono; [apply (IH (S calls) session (r_parentId r) (r_name r :: segments)); [|done]|].
      { by apply (durable_storable _ _ _ _ Hok HD). }
      intros [o2 session2] t2 (-> & H2). split; [done|]. destruct o2 as [found|].
      * destruct H2 as (-> & root & rs & Hc & Hl & ->). split; [done|]. exists root, (rs ++ [r]).
        split; [apply (chain_step _ _ _ _ (root :: rs)); [done|congruence|done]|]. cbn [length] in *. rewrite length_app. cbn.
        split; [lia|]. by rewrite fmap_app, <-app_assoc.
      * intros Hf rs Hc Hl. inversion Hc as [key r' Hr' Hp'|key r' rest Hr' Hp' Hc']; simplify_eq.
        apply (H2 Hf rest Hc'). rewrite length_app in Hl. cbn in Hl. lia.
  - apply wp_ret. split; [done|]. intros Hf rs Hc. specialize (H Hf). inversion Hc; congruence.
Qed.

(** The folder of a stored row. *)
Lemma MaterializeCandidateFolderDurable_ok session prefixes prefix c t :
  store_ok CSO t -> isOpen session = true -> 0 <= fid c <= SIZE_MAX -> prefixes !! volumeId c = Some prefix ->
  wp (MaterializeCandidateFolderDurable None session prefixes c) (fun '(b, c', session') t' => t' = t /\
    if b : bool then session' = session /\ placed (Durable t) prefix c c'
    else c' = c /\ (failed_ session' = false -> forall c2, ~ placed (Durable t) prefix c c2)) t.
Proof.
  intros Hok Ho Hid Hpre. unfold MaterializeCandidateFolderDurable. rewrite Hpre. apply wp_bind.
  eapply wp_mono; [apply FindEntry_ok; [done|split; cbn; [done|unfold SIZE_MAX; lia]|done]|]. intros [o session'] t' (-> & Ho' & H). destruct o as [r|].
  - destruct H as [-> HD]. destruct (bool_decide_reflect (r_parentId r = r_id r)) as [Er|Er].
    + apply wp_ret. split; [done|]. split; [done|]. by eapply placed_root.
    + apply wp_bind. eapply wp_mono; [apply cold_walk_ok; [done|by apply (durable_storable _ _ _ _ Hok HD)|done]|].
      intros [o2 session2] t2 H2. cbn beta iota in H2. destruct H2 as [-> H2]. rewrite same_depth in H2. apply wp_ret. destruct o2 as [found|]; (split; [done|]).
      * destruct H2 as (-> & root & rs & Hc & Hl & ->). split; [done|]. rewrite app_nil_r. by eapply placed_below.
      * split; [done|]. intros Hf c2 [|r2 root rs Hr2 Hp2 Hc Hl _]; simplify_eq. by apply (H2 Hf _ Hc).
  - apply wp_ret. split; [done|]. split; [done|]. intros Hf c2. specialize (H Hf). intros []; congruence.
Qed.
End agreement.

(** The row of a durable record shows as the same candidate. *)
Lemma shown_candidate p volume r e prefix :
  shows p (mkEntryKey volume (r_id r)) r e ->
  MakeProjectionCandidate p e prefix = Ok (MakeDurableCandidate r volume prefix) /\
  forall offset length, MakeProjectionCandidateFromLightweight (capture_row e offset length) (r_name r) prefix = MakeDurableCandidate r volume prefix.
Proof.
  intros (_ & He & Hname). unfold MakeProjectionCandidate, MakeProjectionCandidateFromLightweight, MakeDurableCandidate, capture_row.
  rewrite He in *. cbn in *. rewrite Hname. by destruct (bool_decide (r_parentId r = r_id r)).
Qed.

(** C11. A search describes a file the same way whether its volume is resident or cold.  For
    every durable record of a volume that is not marked cold, in any state of the pipeline:
    the index has a row for it, the candidate built from the row, from its copy under the lock
    and from the record are the same, and so are the folders that the index and the read
    session give it, on the same rows (roots keep the empty one, chains that do not reach a
    root within 4096 parents have none).  When a read of the session fails, the durable way
    reports it and gives no folder. *)
Theorem hot_and_cold_candidates_agree (DB : Sqlite) CSO towlower s volume prefixes prefix r session c :
  synced CSO s -> volume ∉ cold (projection_ s) -> roots_named (Durable (tables (store_ s))) volume ->
  prefixes !! volume = Some prefix -> Durable (tables (store_ s)) !! mkEntryKey volume (r_id r) = Some r ->
  isOpen session = true -> opened c = true -> tables c = tables (store_ s) ->
  let candidate := MakeDurableCandidate r volume prefix in
  (exists e p, Find (projection_ s) volume (r_id r) = Ok (Some e, p) /\ MakeProjectionCandidate (projection_ s) e prefix = Ok candidate /\
     forall offset length, MakeProjectionCandidateFromLightweight (capture_row e offset length) (r_name r) prefix = candidate) /\
  exists hot hotCandidate p,
    MaterializeCandidateFolder towlower never (projection_ s) prefixes candidate = Ok (hot, hotCandidate, p) /\
    let '(cold, coldCandidate, session') := (MaterializeCandidateFolderDurable None session prefixes candidate c).1 in
    if cold then hot = true /\ coldCandidate = hotCandidate
    else coldCandidate = candidate /\ (failed_ session' = false -> hot = false /\ hotCandidate = candidate).
Proof.
  intros [g [Ho Hok Hlimit Hp Hhot]] Hcold Hnamed Hpre Hr Hopen Hc Ht candidate. set (D := Durable (tables (store_ s))) in *.
  assert (forall k, volumeRowId k = volume -> g !! k = D !! k) as Hsame by (intros k <-; by apply Hhot).
  assert (roots_named g volume) as Hnamed' by (intros key r' Hr'; apply (Hnamed key); by rewrite <-Hsame).
  split.
  - destruct (Find_refines CSO (projection_ s) g volume (r_id r) Hp) as (o & p & E & _ & _ & _ & Hfound). rewrite Hsame, Hr in Hfound by done.
    destruct o as [e|]; [|done]. destruct Hfound as (r' & [= <-] & Hshow). exists e, p. split; [done|]. by apply shown_candidate.
  - destruct (MaterializeCandidateFolder_ok CSO towlower (projection_ s) g prefixes prefix candidate) as (hot & hc & p & E & _ & _ & _ & Hplaced);
      [done..|]. exists hot, hc, p. split; [done|].
    assert (0 <= fid candidate <= SIZE_MAX) as Hid by (destruct (st_id _ (durable_storable CSO _ _ _ Hok Hr)); cbn; done).
    pose proof (MaterializeCandidateFolderDurable_ok CSO session prefixes prefix candidate _ Hok Hopen Hid Hpre c Ht Hc) as H.
    destruct (MaterializeCandidateFolderDurable None session prefixes candidate c) as [[[cold cc] session'] c']. cbn [fst].
    destruct H as [[_ H] _]. fold D in H. destruct cold.
    + destruct H as [_ H]. apply (placed_ext D g) in H; [|intros k Hk; symmetry; by apply Hsame].
      destruct hot; [split; [done|]; by eapply placed_functional|]. by destruct (proj2 Hplaced cc).
    + destruct H as [-> H]. split; [done|]. intros Hf. destruct hot; [|by destruct Hplaced].
      destruct (H Hf hc). by apply (placed_ext g D); [intros k Hk; apply Hsame|].
Qed.

(** ** Samples *)

Lemma sample_synced : synced ascii_ordinal (sample_at 5).
Proof.
  apply (reachable_synced (sample_env (Some 44%nat)) ∅ sample_start).
  - apply new_pipeline_synced; [done|apply empty_tables_ok|done].
  - apply (run_ops_reachable _ sample_run); [exact sample_run_fits|vm_compute; reflexivity].
Qed.

Definition sample_prefixes : gmap Z (list Z) := {[1 := [67; 58]]}.
Definition sample_stored : EntryRecord := ToEntryRecord_Mft1 sample_file.
Definition sample_reader : Connection Tables := reopen (tables (store_ (sample_at 5))).

Lemma reopen_tables t : tables (reopen t) = t.
Proof. done. Qed.

Lemma roots_named_all (g : Records) volume :
  map_Forall (fun _ r => r_parentId r = r_id r -> r_name r <> []) g -> roots_named g volume.
Proof. intros H key r. apply H. Qed.

(** The file a.c in C:\Work. *)
Lemma hot_and_cold_candidates_agree_witness :
  exists p, MaterializeCandidateFolder ascii_towlower never (projection_ (sample_at 5)) sample_prefixes (MakeDurableCandidate sample_stored 1 [67; 58]) =
      Ok (true, with_folder (MakeDurableCandidate sample_stored 1 [67; 58]) [67; 58; 92; 87; 111; 114; 107], p).
Proof.
  destruct (hot_and_cold_candidates_agree (failing_call None) ascii_ordinal ascii_towlower (sample_at 5) 1 sample_prefixes [67; 58] sample_stored
    (mkSession true false false false) sample_reader) as [_ (hot & hc & p & E & H)].
  - exact sample_synced.
  - refine (bool_decide_unpack (1 ∉ cold (projection_ (sample_at 5))) _). vm_compute. exact I.
  - apply roots_named_all. refine (bool_decide_unpack (map_Forall (fun _ r => r_parentId r = r_id r -> r_name r <> []) _) _). vm_compute. exact I.
  - reflexivity.
  - vm_compute. reflexivity.
  - reflexivity.
  - reflexivity.
  - exact (reopen_tables (tables (store_ (sample_at 5)))).
  - assert ((MaterializeCandidateFolderDurable (DB := failing_call None) None (mkSession true false false false) sample_prefixes
        (MakeDurableCandidate sample_stored 1 [67; 58]) sample_reader).1 =
      (true, with_folder (MakeDurableCandidate sample_stored 1 [67; 58]) [67; 58; 92; 87; 111; 114; 107], mkSession true false false false)) as Ec
      by (vm_compute; reflexivity).
    rewrite Ec in H. destruct H as [-> <-]. exists p. exact E.
Defined.

(** ** Rules and the name of the root *)

(** The rule of [folder] excludes it. *)
Definition exclude_folder (text : list Z) : VolumeSetting := mkSetting [67; 58] true [mkRule text false].

Definition ruled_run (text : list Z) : list pipeline_op :=
  [DoResolve sample_key; DoRules 1 (exclude_folder text); DoMft1 1 [sample_root; sample_work; sample_file]].

Definition ruled_scan (text : list Z) : IndexPipeline := final (run_ops (sample_env None) (ruled_run text) sample_start).

Definition ruled_at (i : nat) (text : list Z) : IndexPipeline := final (run_ops (sample_env None) (take i (ruled_run text)) sample_start).

Lemma join_prefix text names : text <> [] -> exists t, join text names = text ++ t.
Proof.
  revert text. induction names as [|n names IH]; intros text Hne; cbn [join]; [exists []; by rewrite app_nil_r|].
  destruct text as [|y text]; [done|]. destruct (IH (((y :: text) ++ [92]) ++ n)) as [t ->]; [done|]. eexists. rewrite <-!app_assoc. done.
Qed.

Lemma wcsnicmp_mismatch towlower pre x a c b n :
  0 ∉ pre -> towlower c <> towlower x -> wcsnicmp_equal towlower (pre ++ x :: a) (pre ++ c :: b) (length pre + S n) = false.
Proof.
  intros H0 Hne. induction pre as [|y pre IH]; cbn [app length Nat.add wcsnicmp_equal c_unit head default tail].
  - cbn. destruct (Z.eqb_spec (towlower x) (towlower c)); [congruence|done].
  - cbn. rewrite Z.eqb_refl. destruct (Z.eqb_spec y 0) as [->|]; [set_solver|]. cbn [orb andb]. apply IH. set_solver.
Qed.

(** The rule names a folder whose first component under the prefix [key] begins with a unit that
    does not fold like [x]. *)
Definition names_folder (towlower : Z -> Z) (key : list Z) (x : Z) (rule : DirectoryRule) : Prop :=
  exists c rest, rule_path rule = key ++ 92 :: c :: rest /\ towlower c <> towlower x.

Lemma rule_misses towlower key x a rule :
  0 ∉ key -> names_folder towlower key x rule -> rule_matches towlower rule ((key ++ [92]) ++ x :: a) = false.
Proof.
  intros H0 (c & rest & E & Hne). unfold rule_matches. rewrite E. apply andb_false_iff. right.
  replace (key ++ 92%Z :: c :: rest) with ((key ++ [92%Z]) ++ c :: rest) by (by rewrite <-app_assoc).
  replace (length ((key ++ [92%Z]) ++ c :: rest)) with (length (key ++ [92%Z]) + S (length rest))%nat by (rewrite !length_app; cbn; lia).
  apply wcsnicmp_mismatch; [|done]. rewrite elem_of_app, list_elem_of_singleton. intros [?|[=]]. done.
Qed.

(** C40. The rules do not take effect on what is indexed.  The path the pipeline matches rules
    against contains the stored name of the volume's root, as in C:\.\Work.  So for a prefix such as C: (not
    empty, no backslash at its end) and every entry whose parents lead to the root within 4096 levels, every folder rule whose path, as the settings write it, goes
    on after C:\ with a character other than the first of the root's name (a dot on NTFS) is
    passed over, and the entry is indexed or not by the switch of the volume alone, whatever
    the rules say. *)
Theorem rules_miss_the_index CSO towlower s g volume id setting root rs x name :
  refines CSO (projection_ s) g -> volumeRules_ s !! volume = Some setting ->
  parent_chain g volume id (root :: rs) -> (length (root :: rs) <= kMaxProjectionPathDepth)%nat -> r_name root = x :: name ->
  key setting <> [] -> last (key setting) <> Some 92 -> 0 ∉ key setting ->
  (forall rule, rule ∈ rules setting -> names_folder towlower (key setting) x rule) ->
  exists s', IsEntryIncludedLocked towlower volume id s = Ok (enabled setting, s').
Proof.
  intros Hp Hrule Hc Hl Hx Hk Hk92 Hk0 Hall. unfold IsEntryIncludedLocked, pipe_bind, gets. cbn [bind]. rewrite Hrule.
  destruct (bool_decide (rules setting = [])); [by eexists|]. unfold pipe_bind, on_projection.
  destruct (ReconstructPath_spec CSO (projection_ s) g volume id Hp) as (res & p' & -> & _ & _ & _ & Hroot & Hpath). cbn [bind].
  rewrite (proj2 Hroot) by eauto. cbn [negb]. rewrite (Hpath _ Hc Hl), fmap_cons, Hx. cbn [join app].
  destruct (join_prefix (x :: name) (r_name <$> rs)) as [t ->]; [done|]. unfold canonical_path, IsPathIncluded.
  rewrite !bool_decide_eq_false_2 by done. cbn [negb andb app]. eexists. unfold pipe_ret. repeat f_equal.
  apply scan_rules_none. intros rule Hin. by apply rule_misses, Hall.
Qed.

Definition work_path : list Z := [67; 58; 92; 87; 111; 114; 107].

Lemma ruled_scan_synced : synced ascii_ordinal (ruled_scan work_path).
Proof.
  apply (reachable_synced (sample_env None) ∅ sample_start); [apply new_pipeline_synced; [done|apply empty_tables_ok|done]|].
  apply (run_ops_reachable _ (ruled_run work_path)); [|vm_compute; reflexivity].
  apply (ops_fit_cons _ _ _ _ (ruled_at 1 work_path) true); [done|vm_compute; reflexivity|].
  apply (ops_fit_cons _ _ _ _ (ruled_at 2 work_path) true); [done|vm_compute; reflexivity|].
  apply (ops_fit_cons _ _ _ _ (ruled_scan work_path) true); [|vm_compute; reflexivity|done].
  split; [exact sample_scan_ok|]. refine (bool_decide_unpack (budget _ _ _) _). vm_compute. exact I.
Qed.

Lemma ruled_scan_chain g :
  (forall k, g !! k = Durable (tables (store_ (ruled_scan work_path))) !! k) ->
  parent_chain g 1 (r_id sample_stored) [ToEntryRecord_Mft1 sample_root; ToEntryRecord_Mft1 sample_work; sample_stored].
Proof.
  intros Hg. apply (chain_step g 1 _ sample_stored [ToEntryRecord_Mft1 sample_root; ToEntryRecord_Mft1 sample_work]); [rewrite Hg; vm_compute; reflexivity|done|].
  apply (chain_step g 1 _ (ToEntryRecord_Mft1 sample_work) [ToEntryRecord_Mft1 sample_root]); [rewrite Hg; vm_compute; reflexivity|done|].
  apply chain_root; [rewrite Hg; vm_compute; reflexivity|done].
Qed.

(** With C:\Work excluded, a scan of the root, C:\Work and the file a.c in it keeps all three in the
    store and in the index, while a search hides the file, since its filter uses the path
    C:\Work\a.c; only the rule C:\.\Work keeps the folder and the file out of the index. *)
Lemma rules_miss_the_index_witness :
  (exists s', IsEntryIncludedLocked ascii_towlower 1 (r_id sample_stored) (ruled_scan work_path) = Ok (true, s')) /\
  size (Durable (tables (store_ (ruled_scan work_path)))) = 3%nat /\
  zlen (live_ids (rows (projection_ (ruled_scan work_path)))) = 3 /\
  CandidateIncludedByRules ascii_towlower {[1 := exclude_folder work_path]}
    (with_folder (MakeDurableCandidate sample_stored 1 [67; 58]) work_path) = false /\
  size (Durable (tables (store_ (ruled_scan [67; 58; 92; 46; 92; 87; 111; 114; 107])))) = 1%nat.
Proof.
  split; [|repeat split; vm_compute; reflexivity]. destruct ruled_scan_synced as [g [_ _ _ Hp Hhot]].
  assert (forall k, g !! k = Durable (tables (store_ (ruled_scan work_path))) !! k) as Hg.
  { intros k. apply Hhot; [set_solver|]. replace (cold (projection_ (ruled_scan work_path))) with (∅ : gset Z) by (vm_compute; reflexivity). set_solver. }
  apply (rules_miss_the_index ascii_ordinal ascii_towlower (ruled_scan work_path) g 1 (r_id sample_stored) (exclude_folder work_path)
    (ToEntryRecord_Mft1 sample_root) [ToEntryRecord_Mft1 sample_work; sample_stored] 46 []).
  - exact Hp.
  - vm_compute. reflexivity.
  - exact (ruled_scan_chain g Hg).
  - apply Nat.leb_le. vm_compute. reflexivity.
  - reflexivity.
  - done.
  - done.
  - refine (bool_decide_unpack (0 ∉ [67; 58]) _). vm_compute. exact I.
  - intros rule ->%list_elem_of_singleton. exists 87, [111; 114; 107]. split; [reflexivity|]. vm_compute. done.
Defined.
