(* ===== verification/Dispatch.v ===== *)
(** * Dispatch: the messages of the engine and the service

    Models the packed payloads of [src/src/protocol/include/ffprotocol/Commands.h], the frames the
    service writes ([SendVolumeList] and [SendScanAttemptStarted] of
    [src/src/indexsvc/src/ServiceConnection.cpp], [SendScanBatch] and the terminals of
    [VolumeScanner.cpp], [SendJournalOpened] and [SendJournalBatch] of [UsnJournalReader.cpp]),
    the engine's [ParseVolumeList] and [DispatchReceivedFrame]
    ([src/src/engine/src/PrivilegedConnection.cpp]), the engine's [BuildStartScanPayload]
    ([VolumeSessionManager.cpp]) and the service's reading of requests.

    [Reject] is the protocol violation that ends the connection; [Fault] is a read outside the
    payload, which never happens.  Shown: the engine accepts exactly the frames the service
    writes, and the service understands every request the engine builds. *)

From S2P Require Import Prelude Wire Records.

(** ** Payloads *)

(** [ScanCompletePayload], [ScanFailedPayload], [ScanAttemptStartedPayload],
    [JournalResumeInvalidPayload], [StopVolumeScanRequest] and [CloseUsnJournalRequest]. *)
Record VolumePayload := mkVolumePayload { vp_volumeId : Z }.

#[export, refine] Instance VolumePayload_packed : Packed VolumePayload := {|
  widths := [4]%nat;
  to_fields p := [vp_volumeId p];
  of_fields vs := mkVolumePayload (fld vs 0)
|}.
Proof. all: solve_packed. Defined.

Record VolumeInfo := mkVolumeInfo { vi_id : Z; vi_driveLetter : Z }.

#[export, refine] Instance VolumeInfo_packed : Packed VolumeInfo := {|
  widths := [4; 2]%nat;
  to_fields v := [vi_id v; vi_driveLetter v];
  of_fields vs := mkVolumeInfo (fld vs 0) (fld vs 1)
|}.
Proof. all: solve_packed. Defined.

Record VolumeListHeader := mkVolumeListHeader { vl_count : Z }.

#[export, refine] Instance VolumeListHeader_packed : Packed VolumeListHeader := {|
  widths := [4]%nat;
  to_fields h := [vl_count h];
  of_fields vs := mkVolumeListHeader (fld vs 0)
|}.
Proof. all: solve_packed. Defined.

Record ScanRecordBatchHeader := mkScanBatchHeader { sb_volumeId : Z; sb_recordCount : Z; sb_resumeCursorLengthBytes : Z }.

#[export, refine] Instance ScanRecordBatchHeader_packed : Packed ScanRecordBatchHeader := {|
  widths := [4; 4; 2]%nat;
  to_fields h := [sb_volumeId h; sb_recordCount h; sb_resumeCursorLengthBytes h];
  of_fields vs := mkScanBatchHeader (fld vs 0) (fld vs 1) (fld vs 2)
|}.
Proof. all: solve_packed. Defined.

Record ScanRecordBatchV2Header := mkScanBatchV2Header {
  sb2_volumeId : Z; sb2_recordCount : Z; sb2_resumeCursorLengthBytes : Z; sb2_recordFormatVersion : Z
}.

#[export, refine] Instance ScanRecordBatchV2Header_packed : Packed ScanRecordBatchV2Header := {|
  widths := [4; 4; 2; 2]%nat;
  to_fields h := [sb2_volumeId h; sb2_recordCount h; sb2_resumeCursorLengthBytes h; sb2_recordFormatVersion h];
  of_fields vs := mkScanBatchV2Header (fld vs 0) (fld vs 1) (fld vs 2) (fld vs 3)
|}.
Proof. all: solve_packed. Defined.

Record UsnJournalOpenedPayload := mkJournalOpened { jo_volumeId : Z; jo_journalId : Z; jo_currentUsn : Z }.

#[export, refine] Instance UsnJournalOpenedPayload_packed : Packed UsnJournalOpenedPayload := {|
  widths := [4; 8; 8]%nat;
  to_fields p := [jo_volumeId p; jo_journalId p; jo_currentUsn p];
  of_fields vs := mkJournalOpened (fld vs 0) (fld vs 1) (fld vs 2)
|}.
Proof. all: solve_packed. Defined.

Record JournalRecordBatchHeader := mkJournalHeader { jb_volumeId : Z; jb_recordCount : Z; jb_latestUsn : Z }.

#[export, refine] Instance JournalRecordBatchHeader_packed : Packed JournalRecordBatchHeader := {|
  widths := [4; 4; 8]%nat;
  to_fields h := [jb_volumeId h; jb_recordCount h; jb_latestUsn h];
  of_fields vs := mkJournalHeader (fld vs 0) (fld vs 1) (fld vs 2)
|}.
Proof. all: solve_packed. Defined.

(** [JournalRecordBatchV2Header] and [JournalRecordBatchV3Header]. *)
Record JournalRecordBatchVHeader := mkJournalVHeader {
  jv_volumeId : Z; jv_recordCount : Z; jv_latestUsn : Z; jv_recordFormatVersion : Z
}.

#[export, refine] Instance JournalRecordBatchVHeader_packed : Packed JournalRecordBatchVHeader := {|
  widths := [4; 4; 8; 2]%nat;
  to_fields h := [jv_volumeId h; jv_recordCount h; jv_latestUsn h; jv_recordFormatVersion h];
  of_fields vs := mkJournalVHeader (fld vs 0) (fld vs 1) (fld vs 2) (fld vs 3)
|}.
Proof. all: solve_packed. Defined.

Record StartVolumeScanRequestV1 := mkStartScanV1 { ss1_volumeId : Z; ss1_resumeCursorLengthBytes : Z }.

#[export, refine] Instance StartVolumeScanRequestV1_packed : Packed StartVolumeScanRequestV1 := {|
  widths := [4; 2]%nat;
  to_fields r := [ss1_volumeId r; ss1_resumeCursorLengthBytes r];
  of_fields vs := mkStartScanV1 (fld vs 0) (fld vs 1)
|}.
Proof. all: solve_packed. Defined.

Record StartVolumeScanRequest := mkStartScan { ss_volumeId : Z; ss_resumeCursorLengthBytes : Z; ss_flags : Z }.

#[export, refine] Instance StartVolumeScanRequest_packed : Packed StartVolumeScanRequest := {|
  widths := [4; 2; 2]%nat;
  to_fields r := [ss_volumeId r; ss_resumeCursorLengthBytes r; ss_flags r];
  of_fields vs := mkStartScan (fld vs 0) (fld vs 1) (fld vs 2)
|}.
Proof. all: solve_packed. Defined.

Record OpenUsnJournalRequest := mkOpenJournal { oj_volumeId : Z; oj_resumeUsn : Z }.

#[export, refine] Instance OpenUsnJournalRequest_packed : Packed OpenUsnJournalRequest := {|
  widths := [4; 8]%nat;
  to_fields r := [oj_volumeId r; oj_resumeUsn r];
  of_fields vs := mkOpenJournal (fld vs 0) (fld vs 1)
|}.
Proof. all: solve_packed. Defined.

(** ** The engine's side *)

(** A payload of exactly one struct, and one that begins with a struct. *)
Definition whole_struct (T : Type) `{Packed T} (payload : list Z) : result T :=
  guard (zlen payload =? sizeof T) (load_struct T payload 0).

Definition leading_struct (T : Type) `{Packed T} (payload : list Z) : result T :=
  guard (sizeof T <=? zlen payload) (load_struct T payload 0).

(** [memcpy] of [n] consecutive structs. *)
Fixpoint load_structs (T : Type) `{Packed T} (payload : list Z) (off : Z) (n : nat) : result (list T) :=
  match n with
  | O => Ok []
  | S n =>
      let* t := load_struct T payload off in
      let* ts := load_structs T payload (off + sizeof T) n in
      Ok (t :: ts)
  end.

Definition ParseVolumeList (payload : list Z) : result (list VolumeInfo) :=
  let* header := leading_struct VolumeListHeader payload in
  guard (zlen payload =? sizeof VolumeListHeader + vl_count header * sizeof VolumeInfo)
    (load_structs VolumeInfo payload (sizeof VolumeListHeader) (Z.to_nat (vl_count header))).

(** The callbacks a frame can lead to. *)
Inductive service_message :=
| HeartbeatAcked
| VolumesListed (volumes : list VolumeInfo)
| ScanBatch (id : Z) (cursor : list Z) (records : list MftRecordV1)
| ScanBatchV2 (id : Z) (cursor : list Z) (records : list MftRecordV2)
| ScanCompleted (id : Z)
| ScanHasFailed (id : Z)
| ScanAttemptHasStarted (id : Z)
| JournalOpened (id journalId currentUsn : Z)
| JournalInvalid (id : Z)
| JournalBatch (id latestUsn : Z) (records : list UsnDeltaV1)
| JournalBatchV2 (id latestUsn : Z) (records : list UsnDeltaV2)
| JournalBatchV3 (id latestUsn : Z) (records : list UsnDeltaV3).

(** The cursor after the header and the batch after the cursor. *)
Definition cursor_and_batch {R} (parse : option (list Z) -> Z -> Z -> result (list R)) (payload : list Z)
    (afterHeader cursorLength recordCount : Z) : result (list Z * list R) :=
  guard (afterHeader + cursorLength <=? zlen payload)
    (let* cursor := load payload afterHeader (Z.to_nat cursorLength) in
     let recordsOffset := afterHeader + cursorLength in
     let* records := parse (Some (drop (Z.to_nat recordsOffset) payload)) (zlen payload - recordsOffset) recordCount in
     Ok (cursor, records)).

Definition volume_message (make : Z -> service_message) (payload : list Z) : result service_message :=
  let* p := whole_struct VolumePayload payload in Ok (make (vp_volumeId p)).

Definition journal_batch {R} (parse : option (list Z) -> Z -> Z -> result (list R))
    (make : Z -> Z -> list R -> service_message) (format : Z) (payload : list Z) : result service_message :=
  let* header := leading_struct JournalRecordBatchVHeader payload in
  guard (jv_recordFormatVersion header =? format)
    (let offset := sizeof JournalRecordBatchVHeader in
     let* records := parse (Some (drop (Z.to_nat offset) payload)) (zlen payload - offset) (jv_recordCount header) in
     Ok (make (jv_volumeId header) (jv_latestUsn header) records)).

Definition DispatchReceivedFrame (active : bool) (messageType : Z) (payload : list Z) : result service_message :=
  guard active
  (let* type := of_option (ToMessageType messageType) in
   match type with
   | HeartbeatAck => Ok HeartbeatAcked
   | VolumeList => let* volumes := ParseVolumeList payload in Ok (VolumesListed volumes)
   | ScanRecordBatch =>
       let* header := leading_struct ScanRecordBatchHeader payload in
       let* '(cursor, records) := cursor_and_batch ParseMftBatch payload (sizeof ScanRecordBatchHeader)
         (sb_resumeCursorLengthBytes header) (sb_recordCount header) in
       Ok (ScanBatch (sb_volumeId header) cursor records)
   | ScanRecordBatchV2 =>
       let* header := leading_struct ScanRecordBatchV2Header payload in
       guard (sb2_recordFormatVersion header =? 2)
       (let* '(cursor, records) := cursor_and_batch ParseMftBatchV2 payload (sizeof ScanRecordBatchV2Header)
          (sb2_resumeCursorLengthBytes header) (sb2_recordCount header) in
        Ok (ScanBatchV2 (sb2_volumeId header) cursor records))
   | ScanComplete => volume_message ScanCompleted payload
   | ScanFailed => volume_message ScanHasFailed payload
   | ScanAttemptStarted => volume_message ScanAttemptHasStarted payload
   | UsnJournalOpened =>
       let* p := whole_struct UsnJournalOpenedPayload payload in
       Ok (JournalOpened (jo_volumeId p) (jo_journalId p) (jo_currentUsn p))
   | Wire.JournalResumeInvalid => volume_message JournalInvalid payload
   | JournalRecordBatch =>
       let* header := leading_struct JournalRecordBatchHeader payload in
       let offset := sizeof JournalRecordBatchHeader in
       let* records := ParseUsnDeltaBatch (Some (drop (Z.to_nat offset) payload)) (zlen payload - offset) (jb_recordCount header) in
       Ok (JournalBatch (jb_volumeId header) (jb_latestUsn header) records)
   | JournalRecordBatchV2 => journal_batch ParseUsnDeltaV2Batch JournalBatchV2 2 payload
   | JournalRecordBatchV3 => journal_batch ParseUsnDeltaV3Batch JournalBatchV3 3 payload
   | _ => Reject
   end).

(** ** The service's side *)

Definition SendVolumeList (volumes : list VolumeInfo) : list Z :=
  struct_bytes (mkVolumeListHeader (wrap32 (zlen volumes))) ++ (volumes ≫= struct_bytes).

Definition SendScanBatch (id : Z) (cursor : list Z) (records : list MftRecordV1) : list Z :=
  struct_bytes (mkScanBatchHeader id (wrap32 (zlen records)) (wrap16 (zlen cursor))) ++ cursor ++ SerializeMftBatch records.

Definition SendScanBatchV2 (id : Z) (cursor : list Z) (records : list MftRecordV2) : list Z :=
  struct_bytes (mkScanBatchV2Header id (wrap32 (zlen records)) (wrap16 (zlen cursor)) 2) ++ cursor ++ SerializeMftBatchV2 records.

Definition SendVolumePayload (id : Z) : list Z := struct_bytes (mkVolumePayload id).

Definition SendJournalOpened (id journalId currentUsn : Z) : list Z := struct_bytes (mkJournalOpened id journalId currentUsn).

Definition SendJournalBatchV1 (id latestUsn : Z) (records : list UsnDeltaV1) : list Z :=
  struct_bytes (mkJournalHeader id (wrap32 (zlen records)) latestUsn) ++ SerializeUsnDeltaBatch records.

Definition SendJournalBatchV2 (id latestUsn : Z) (records : list UsnDeltaV2) : list Z :=
  struct_bytes (mkJournalVHeader id (wrap32 (zlen records)) latestUsn 2) ++ SerializeUsnDeltaV2Batch records.

Definition SendJournalBatchV3 (id latestUsn : Z) (records : list UsnDeltaV3) : list Z :=
  struct_bytes (mkJournalVHeader id (wrap32 (zlen records)) latestUsn 3) ++ SerializeUsnDeltaV3Batch records.

(** The frame of a message: its type and its payload. *)
Definition frame_of (m : service_message) : MessageType * list Z :=
  match m with
  | HeartbeatAcked => (HeartbeatAck, [])
  | VolumesListed volumes => (VolumeList, SendVolumeList volumes)
  | ScanBatch id cursor records => (ScanRecordBatch, SendScanBatch id cursor records)
  | ScanBatchV2 id cursor records => (ScanRecordBatchV2, SendScanBatchV2 id cursor records)
  | ScanCompleted id => (ScanComplete, SendVolumePayload id)
  | ScanHasFailed id => (ScanFailed, SendVolumePayload id)
  | ScanAttemptHasStarted id => (ScanAttemptStarted, SendVolumePayload id)
  | JournalOpened id journalId currentUsn => (UsnJournalOpened, SendJournalOpened id journalId currentUsn)
  | JournalInvalid id => (Wire.JournalResumeInvalid, SendVolumePayload id)
  | JournalBatch id latestUsn records => (JournalRecordBatch, SendJournalBatchV1 id latestUsn records)
  | JournalBatchV2 id latestUsn records => (JournalRecordBatchV2, SendJournalBatchV2 id latestUsn records)
  | JournalBatchV3 id latestUsn records => (JournalRecordBatchV3, SendJournalBatchV3 id latestUsn records)
  end.

(** ** Exact parsers *)

(** [r] does not fault, and returns exactly the values that satisfy [P]. *)
Definition exactly {A} (r : result A) (P : A -> Prop) : Prop := r <> Fault /\ forall a, r = Ok a <-> P a.

Lemma exactly_intro {A} (r : result A) (P : A -> Prop) : safe r P -> (forall a, P a -> r = Ok a) -> exactly r P.
Proof.
  intros Hs Hc. split; [by destruct r|]. intros a. split; [|apply Hc]. intros ->. exact Hs.
Qed.

Lemma exactly_safe {A} (r : result A) (P : A -> Prop) : exactly r P -> safe r P.
Proof. intros [Hf Hr]. destruct r; [by apply Hr|done|done]. Qed.

Section structs.
Context {T : Type} `{Packed T}.

Lemma leading_struct_app (t : T) rest : struct_ok t -> leading_struct T (struct_bytes t ++ rest) = Ok t.
Proof.
  intros Hok. unfold leading_struct. rewrite zlen_app, zlen_struct_bytes. pose proof (zlen_nonneg rest).
  rewrite (proj2 (Z.leb_le _ _)) by lia. by apply load_struct_head.
Qed.

Lemma leading_struct_safe payload : Forall is_byte payload ->
  safe (leading_struct T payload) (fun t => struct_ok t /\ exists rest, payload = struct_bytes t ++ rest /\ Forall is_byte rest).
Proof.
  intros Hb. apply safe_guard. intros Hs. bool_prop.
  rewrite load_struct_Ok by (pose proof (sizeof_nonneg (T := T)); lia). unfold slice. cbn [Z.to_nat safe]. rewrite drop_0.
  assert (length (take (sizeof_nat T) payload) = sizeof_nat T) by (rewrite length_take; unfold sizeof, zlen in Hs; lia).
  split; [by apply struct_of_bytes_ok; [apply Forall_take|]|]. exists (drop (sizeof_nat T) payload).
  rewrite struct_bytes_of_bytes by (done || by apply Forall_take). split; [by rewrite take_drop|by apply Forall_drop].
Qed.

Lemma whole_struct_app (t : T) : struct_ok t -> whole_struct T (struct_bytes t) = Ok t.
Proof.
  intros Hok. unfold whole_struct. rewrite zlen_struct_bytes, Z.eqb_refl. cbn [guard].
  rewrite <-(app_nil_r (struct_bytes t)). by apply load_struct_head.
Qed.

Lemma whole_struct_safe payload : Forall is_byte payload ->
  safe (whole_struct T payload) (fun t => struct_ok t /\ payload = struct_bytes t).
Proof.
  intros Hb. apply safe_guard. intros Hs. bool_prop. pose proof (leading_struct_safe payload Hb) as Hl. unfold leading_struct in Hl.
  rewrite (proj2 (Z.leb_le _ _)) in Hl by lia. eapply safe_mono; [exact Hl|]. intros t (Hok & rest & -> & _). split; [done|].
  rewrite zlen_app, zlen_struct_bytes in Hs. destruct rest as [|x rest]; [by rewrite app_nil_r|].
  rewrite zlen_cons in Hs. pose proof (zlen_nonneg rest). lia.
Qed.

Lemma load_structs_app pre (ts : list T) :
  Forall struct_ok ts -> load_structs T (pre ++ (ts ≫= struct_bytes)) (zlen pre) (length ts) = Ok ts.
Proof.
  intros Hok. revert pre. induction Hok as [|t ts Ht _ IH]; intros pre; cbn [load_structs length]; [done|].
  rewrite bind_cons, load_struct_app by done. cbn [bind].
  specialize (IH (pre ++ struct_bytes t)). rewrite zlen_app, zlen_struct_bytes, <-app_assoc in IH. by rewrite IH.
Qed.

Lemma structs_of_bytes bytes n : Forall is_byte bytes -> length bytes = (n * sizeof_nat T)%nat ->
  exists ts : list T, Forall struct_ok ts /\ length ts = n /\ bytes = ts ≫= struct_bytes.
Proof.
  revert bytes. induction n as [|n IH]; intros bytes Hb Hl; [by exists []; destruct bytes|].
  cbn in Hl. assert (length (take (sizeof_nat T) bytes) = sizeof_nat T) by (rewrite length_take; lia).
  destruct (IH (drop (sizeof_nat T) bytes)) as (ts & Hok & Hn & Hr); [by apply Forall_drop|rewrite length_drop; lia|].
  exists (struct_of_bytes T (take (sizeof_nat T) bytes) :: ts).
  split; [constructor; [by apply struct_of_bytes_ok; [apply Forall_take|]|done]|]. split; [by rewrite <-Hn|].
  rewrite bind_cons, <-Hr, struct_bytes_of_bytes by (done || by apply Forall_take). by rewrite take_drop.
Qed.

Lemma length_structs (ts : list T) : length (ts ≫= struct_bytes) = (length ts * sizeof_nat T)%nat.
Proof. induction ts as [|t ts IH]; [done|]. rewrite bind_cons, length_app, length_struct_bytes, IH. cbn. lia. Qed.
End structs.

(** A batch parser that accepts exactly the serializations of records that satisfy [ok]. *)
Definition batch_parser {R} (parse : option (list Z) -> Z -> Z -> result (list R)) (serialize : list R -> list Z)
    (ok : R -> Prop) : Prop :=
  forall payload count, Forall is_byte payload -> zlen payload <= SIZE_MAX -> 0 <= count ->
  exactly (parse (Some payload) (zlen payload) count)
    (fun rs => Forall ok rs /\ zlen rs = count /\ count <= kMaxBatchRecordCount /\ payload = serialize rs).

Lemma plain_batch_parser {F} `{BatchFixed F} :
  batch_parser (fun payload size count => let* parsed := ParseBatch (FixedT := F) payload size count in Ok (of_pair <$> parsed))
    (fun rs => SerializeBatch (to_pair <$> rs)) (fun r => record_ok (to_pair r)).
Proof.
  intros payload count Hb Hm Hc. pose proof (fun rs => ParseBatch_exact (FixedT := F) payload count rs Hb Hm Hc) as HP. split.
  - destruct (HP []) as [Hf _]. by destruct (ParseBatch _ _ _).
  - intros rs. split.
    + intros Hr. destruct (ParseBatch (FixedT := F) (Some payload) (zlen payload) count) as [ps| |] eqn:Eps; cbn [bind] in Hr; try done.
      assert (rs = of_pair <$> ps) as -> by congruence. destruct (proj1 (proj2 (HP ps)) eq_refl) as (? & ? & ? & ?).
      rewrite to_pair_of_pair, Forall_fmap. split; [|unfold zlen; by rewrite length_fmap].
      eapply Forall_impl; [eassumption|]. by intros [].
    + intros (Hok & Hn & Hmax & Hp). rewrite (proj2 (proj2 (HP (to_pair <$> rs)))).
      * cbn [bind]. by rewrite of_pair_to_pair.
      * rewrite Forall_fmap, length_fmap. auto.
Qed.

Lemma CheckMasks_no_fault {F} (mask : F -> Z) ps : CheckMasks mask ps <> Fault.
Proof.
  induction ps as [|p ps IH]; cbn [CheckMasks]; [done|]. destruct (HasUnknownMaskBits _); cbn [guard negb]; [done|].
  by destruct (CheckMasks mask ps).
Qed.

Lemma masked_batch_parser {F} `{BatchFixed F} (mask : F -> Z) :
  batch_parser (fun payload size count => let* parsed := ParseBatch (FixedT := F) payload size count in CheckMasks mask parsed)
    (fun rs => SerializeBatch (to_pair <$> rs)) (fun r => record_ok (to_pair r) /\ HasUnknownMaskBits (mask (fixed r)) = false).
Proof.
  intros payload count Hb Hm Hc. destruct (plain_batch_parser (F := F) payload count Hb Hm Hc) as [Hf HP]. split.
  - destruct (ParseBatch _ _ _); cbn [bind] in *; [apply CheckMasks_no_fault|done..].
  - intros rs. specialize (HP rs). rewrite Forall_and. destruct (ParseBatch _ _ _) as [ps| |]; cbn [bind] in *.
    + rewrite CheckMasks_Ok. split.
      * intros [-> Hmask]. destruct (proj1 HP eq_refl) as (? & ? & ? & ?). split; [|done]. split; [done|]. by rewrite Forall_fmap.
      * intros ([Hok Hmask] & Hrest). assert (rs = of_pair <$> ps) as -> by (pose proof (proj2 HP (conj Hok Hrest)); congruence). split; [done|]. by rewrite Forall_fmap in Hmask.
    + split; [done|]. intros ([Hok _] & Hrest). by specialize (proj2 HP (conj Hok Hrest)).
    + done.
Qed.

(** ** The messages a frame can carry *)

Definition usn2_ok (r : UsnDeltaV2) : Prop := record_ok (to_pair r) /\ HasUnknownMaskBits (u2_fieldMask (fixed r)) = false.

Definition batch_ok {R} (ok : R -> Prop) (records : list R) : Prop := Forall ok records /\ zlen records <= kMaxBatchRecordCount.

Definition cursor_fits (cursor : list Z) : Prop := Forall is_byte cursor /\ zlen cursor < 65536.

Definition message_ok (m : service_message) : Prop :=
  match m with
  | HeartbeatAcked => True
  | VolumesListed volumes => Forall struct_ok volumes /\ zlen volumes <= UINT32_MAX
  | ScanBatch id cursor records => fits 4 id /\ cursor_fits cursor /\ batch_ok (R := MftRecordV1) (fun r => record_ok (to_pair r)) records
  | ScanBatchV2 id cursor records => fits 4 id /\ cursor_fits cursor /\ batch_ok (R := MftRecordV2) (fun r => record_ok (to_pair r)) records
  | ScanCompleted id | ScanHasFailed id | ScanAttemptHasStarted id | JournalInvalid id => fits 4 id
  | JournalOpened id journalId currentUsn => fits 4 id /\ fits 8 journalId /\ fits 8 currentUsn
  | JournalBatch id latestUsn records => fits 4 id /\ fits 8 latestUsn /\ batch_ok (R := UsnDeltaV1) (fun r => record_ok (to_pair r)) records
  | JournalBatchV2 id latestUsn records => fits 4 id /\ fits 8 latestUsn /\ batch_ok usn2_ok records
  | JournalBatchV3 id latestUsn records => fits 4 id /\ fits 8 latestUsn /\ batch_ok usn3_ok records
  end.

(** What the dispatcher makes of a frame of one type. *)
Definition carries (type : MessageType) (payload : list Z) (m : service_message) : Prop :=
  (frame_of m).1 = type /\ message_ok m /\ ((frame_of m).2 = payload \/ m = HeartbeatAcked).

Section batches.
Context {R : Type} (parse : option (list Z) -> Z -> Z -> result (list R)) (serialize : list R -> list Z) (ok : R -> Prop).
Hypothesis exact : batch_parser parse serialize ok.

(** What a header of [pre] bytes that declares [count] records is followed by. *)
Definition batch_after (count : Z) (bytes : list Z) (records : list R) : Prop :=
  batch_ok ok records /\ zlen records = count /\ bytes = serialize records.

Lemma batch_safe pre rest count : Forall is_byte rest -> zlen (pre ++ rest) <= SIZE_MAX -> 0 <= count ->
  safe (parse (Some (drop (Z.to_nat (zlen pre)) (pre ++ rest))) (zlen (pre ++ rest) - zlen pre) count) (batch_after count rest).
Proof.
  intros Hb Hm Hc. rewrite zlen_app in *. rewrite zlen_to_nat, drop_app_length. pose proof (zlen_nonneg pre).
  replace (zlen pre + zlen rest - zlen pre) with (zlen rest) by lia.
  eapply safe_mono; [apply exactly_safe, exact; (done || lia)|]. intros records (Hok & Hn & Hmax & ->). repeat split; (done || lia).
Qed.

Lemma batch_complete pre records : batch_ok ok records -> Forall is_byte (serialize records) ->
  zlen (pre ++ serialize records) <= SIZE_MAX ->
  parse (Some (drop (Z.to_nat (zlen pre)) (pre ++ serialize records))) (zlen (pre ++ serialize records) - zlen pre) (zlen records) = Ok records.
Proof.
  intros [Hok Hmax] Hb Hm. rewrite zlen_app in *. rewrite zlen_to_nat, drop_app_length. pose proof (zlen_nonneg pre).
  pose proof (zlen_nonneg records). replace (zlen pre + zlen (serialize records) - zlen pre) with (zlen (serialize records)) by lia.
  apply (exact (serialize records) (zlen records)); (done || lia || auto).
Qed.

Lemma cursor_and_batch_safe pre rest len count : Forall is_byte rest -> zlen (pre ++ rest) <= SIZE_MAX -> 0 <= len -> 0 <= count ->
  safe (cursor_and_batch parse (pre ++ rest) (zlen pre) len count) (fun '(cursor, records) =>
    Forall is_byte cursor /\ zlen cursor = len /\ exists bytes, rest = cursor ++ bytes /\ batch_after count bytes records).
Proof.
  intros Hb Hm Hlen Hcount. pose proof (zlen_nonneg pre) as Hpre. apply safe_guard. intros Hl. bool_prop. rewrite zlen_app in Hl.
  rewrite load_Ok by (rewrite ?zlen_app; lia). cbn [bind]. unfold slice. rewrite zlen_to_nat, drop_app_length.
  assert (length (take (Z.to_nat len) rest) = Z.to_nat len) as Hlc by (rewrite length_take; unfold zlen in *; lia).
  assert (zlen (pre ++ take (Z.to_nat len) rest) = zlen pre + len) as Hz by (rewrite zlen_app; unfold zlen in *; lia).
  rewrite <-Hz. rewrite <-(take_drop (Z.to_nat len) rest) at 2 3. rewrite app_assoc.
  eapply safe_bind; [apply batch_safe; [by apply Forall_drop|by rewrite <-app_assoc, take_drop|done]|].
  intros records Hr. cbn [safe]. split; [by apply Forall_take|]. split; [unfold zlen; lia|].
  exists (drop (Z.to_nat len) rest). by rewrite take_drop.
Qed.

Lemma cursor_and_batch_complete pre cursor records : batch_ok ok records -> Forall is_byte (serialize records) ->
  zlen (pre ++ cursor ++ serialize records) <= SIZE_MAX ->
  cursor_and_batch parse (pre ++ cursor ++ serialize records) (zlen pre) (zlen cursor) (zlen records) = Ok (cursor, records).
Proof.
  intros Hok Hb Hm. unfold cursor_and_batch. pose proof (zlen_nonneg pre). pose proof (zlen_nonneg cursor).
  pose proof (zlen_nonneg (serialize records)).
  rewrite (proj2 (Z.leb_le _ _)) by (rewrite !zlen_app; lia). cbn [guard]. rewrite load_Ok by (rewrite ?zlen_app; unfold zlen in *; lia).
  cbn [bind]. unfold slice. rewrite !zlen_to_nat, drop_app_length, take_app_length.
  rewrite <-zlen_app, app_assoc. by rewrite batch_complete by (rewrite <-?app_assoc; done).
Qed.
End batches.

(** Serializations are bytes. *)
Lemma encode_fields_bytes ws vs : Forall is_byte (encode_fields ws vs).
Proof.
  revert vs. induction ws as [|w ws IH]; intros [|v vs]; cbn [encode_fields]; try apply Forall_nil_2.
  apply Forall_app. split; [apply le_bytes_are_bytes|apply IH].
Qed.

Lemma struct_bytes_bytes {T} `{Packed T} (t : T) : Forall is_byte (struct_bytes t).
Proof. apply encode_fields_bytes. Qed.

Lemma serialized_bytes {F} `{BatchFixed F} (rs : list (WireRecord F)) : Forall is_byte (SerializeBatch (to_pair <$> rs)).
Proof.
  apply Forall_bind, Forall_true. intros p. apply Forall_app. split; [apply struct_bytes_bytes|].
  apply Forall_bind, Forall_true. intros c. apply le_bytes_are_bytes.
Qed.

Lemma kMaxBatch_small : kMaxBatchRecordCount <= UINT32_MAX.
Proof. by vm_compute. Qed.

(** The fields of a header that was read, and a header of fields that fit. *)
Ltac fields_of Hok :=
  unfold struct_ok in Hok; cbn in Hok; repeat (apply Forall2_cons in Hok as [? Hok]); clear Hok; unfold fits in *;
  change (256 ^ Z.of_nat 2) with 65536 in *; change (256 ^ Z.of_nat 4) with 4294967296 in *.
Ltac fields_fit :=
  unfold struct_ok; cbn; repeat constructor; unfold fits, wrap32, wrap16 in *; cbn in *; rewrite ?Z.mod_small by lia; (done || lia).

(** The counts and lengths of a message that fits are sent as they are. *)
Ltac as_sent :=
  pose proof kMaxBatch_small; unfold UINT32_MAX in *;
  unfold SendVolumeList, SendScanBatch, SendScanBatchV2, SendJournalBatchV1, SendJournalBatchV2, SendJournalBatchV3, wrap32, wrap16;
  repeat match goal with |- context [zlen ?l] => lazymatch goal with H : 0 <= zlen l |- _ => fail | _ => pose proof (zlen_nonneg l) end end;
  rewrite !Z.mod_small by lia.

Lemma volume_message_ok (make : Z -> service_message) id : fits 4 id ->
  volume_message make (SendVolumePayload id) = Ok (make id).
Proof. intros Hid. unfold volume_message, SendVolumePayload. rewrite whole_struct_app by fields_fit. done. Qed.

Lemma volume_message_safe make payload : Forall is_byte payload ->
  safe (volume_message make payload) (fun m => exists id, m = make id /\ fits 4 id /\ payload = SendVolumePayload id).
Proof.
  intros Hb. eapply safe_bind; [by apply whole_struct_safe|]. intros [id] [Hok ->]. cbn [safe vp_volumeId]. exists id.
  split; [done|]. split; [by inversion Hok|done].
Qed.

Lemma VolumeList_ok volumes : Forall struct_ok volumes -> zlen volumes <= UINT32_MAX ->
  ParseVolumeList (SendVolumeList volumes) = Ok volumes.
Proof.
  intros Hok Hn. unfold ParseVolumeList. as_sent. rewrite leading_struct_app by fields_fit. cbn [bind vl_count].
  rewrite <-(zlen_struct_bytes (mkVolumeListHeader (zlen volumes))). rewrite zlen_app.
  assert (zlen (volumes ≫= struct_bytes) = zlen volumes * sizeof VolumeInfo) as ->.
  { unfold zlen at 1. rewrite length_structs. unfold zlen, sizeof. lia. }
  rewrite Z.eqb_refl. cbn [guard]. rewrite zlen_to_nat. by apply load_structs_app.
Qed.

Lemma VolumeList_safe payload : Forall is_byte payload ->
  safe (ParseVolumeList payload) (fun volumes => Forall struct_ok volumes /\ zlen volumes <= UINT32_MAX /\ payload = SendVolumeList volumes).
Proof.
  intros Hb. eapply safe_bind; [by apply leading_struct_safe|]. intros [count] (Hok & rest & -> & Hrest). cbn [vl_count].
  apply safe_guard. intros Hs. bool_prop. rewrite <-(zlen_struct_bytes (mkVolumeListHeader count)) in *. rewrite zlen_app in Hs.
  assert (0 <= count <= UINT32_MAX) as Hc by (fields_of Hok; unfold UINT32_MAX; lia).
  destruct (structs_of_bytes (T := VolumeInfo) rest (Z.to_nat count)) as (volumes & Hvs & Hn & ->); [done| |].
  { unfold sizeof in Hs. unfold zlen in Hs. lia. }
  rewrite <-Hn, load_structs_app by done. cbn [safe]. split; [done|].
  assert (zlen volumes = count) as Hz by (unfold zlen; lia). split; [lia|]. as_sent. by rewrite Hz.
Qed.

(** ** Each kind of frame *)

Lemma scan_batch_ok id cursor records : message_ok (ScanBatch id cursor records) -> zlen (SendScanBatch id cursor records) <= SIZE_MAX ->
  DispatchReceivedFrame true 14 (SendScanBatch id cursor records) = Ok (ScanBatch id cursor records).
Proof.
  intros (Hid & [Hc Hlen] & Hok) Hm. pose proof (proj2 Hok). revert Hm. as_sent. intros Hm. cbn [DispatchReceivedFrame guard ToMessageType of_option bind].
  rewrite leading_struct_app by fields_fit. cbn [bind sb_resumeCursorLengthBytes sb_recordCount sb_volumeId].
  rewrite <-(zlen_struct_bytes (mkScanBatchHeader id (zlen records) (zlen cursor))).
  erewrite cursor_and_batch_complete; [done|apply plain_batch_parser|done|apply serialized_bytes|done].
Qed.

Lemma scan_batch_v2_ok id cursor records : message_ok (ScanBatchV2 id cursor records) -> zlen (SendScanBatchV2 id cursor records) <= SIZE_MAX ->
  DispatchReceivedFrame true 20 (SendScanBatchV2 id cursor records) = Ok (ScanBatchV2 id cursor records).
Proof.
  intros (Hid & [Hc Hlen] & Hok) Hm. pose proof (proj2 Hok). revert Hm. as_sent. intros Hm. cbn [DispatchReceivedFrame guard ToMessageType of_option bind].
  rewrite leading_struct_app by fields_fit.
  cbn [bind guard sb2_resumeCursorLengthBytes sb2_recordCount sb2_volumeId sb2_recordFormatVersion]. change (2 =? 2) with true. cbn [guard].
  rewrite <-(zlen_struct_bytes (mkScanBatchV2Header id (zlen records) (zlen cursor) 2)).
  erewrite cursor_and_batch_complete; [done|apply plain_batch_parser|done|apply serialized_bytes|done].
Qed.

Lemma journal_batch_ok id latestUsn records : message_ok (JournalBatch id latestUsn records) ->
  zlen (SendJournalBatchV1 id latestUsn records) <= SIZE_MAX ->
  DispatchReceivedFrame true 17 (SendJournalBatchV1 id latestUsn records) = Ok (JournalBatch id latestUsn records).
Proof.
  intros (Hid & Hu & Hok) Hm. pose proof (proj2 Hok). revert Hm. as_sent. intros Hm. cbn [DispatchReceivedFrame guard ToMessageType of_option bind].
  rewrite leading_struct_app by fields_fit. cbn [bind jb_recordCount jb_volumeId jb_latestUsn].
  rewrite <-(zlen_struct_bytes (mkJournalHeader id (zlen records) latestUsn)).
  erewrite batch_complete; [done|apply plain_batch_parser|done|apply serialized_bytes|done].
Qed.

(** The two formats with a version. *)
Lemma journal_batch_v_ok {R} parse serialize (ok : R -> Prop) make format id latestUsn records :
  batch_parser parse serialize ok -> fits 4 id -> fits 8 latestUsn -> fits 2 format -> batch_ok ok records ->
  Forall is_byte (serialize records) ->
  zlen (struct_bytes (mkJournalVHeader id (zlen records) latestUsn format) ++ serialize records) <= SIZE_MAX ->
  journal_batch parse make format (struct_bytes (mkJournalVHeader id (zlen records) latestUsn format) ++ serialize records) =
  Ok (make id latestUsn records).
Proof.
  intros Hp Hid Hu Hf Hok Hb Hm. pose proof (proj2 Hok). pose proof (zlen_nonneg records). pose proof kMaxBatch_small. unfold UINT32_MAX in *.
  unfold journal_batch. rewrite leading_struct_app by fields_fit. cbn [bind jv_recordFormatVersion]. rewrite Z.eqb_refl. cbn [guard jv_recordCount jv_volumeId jv_latestUsn].
  rewrite <-(zlen_struct_bytes (mkJournalVHeader id (zlen records) latestUsn format)).
  by erewrite batch_complete.
Qed.

Lemma journal_batch_v_safe {R} parse serialize (ok : R -> Prop) make format payload :
  batch_parser parse serialize ok -> Forall is_byte payload -> zlen payload <= SIZE_MAX ->
  safe (journal_batch parse make format payload) (fun m => exists id latestUsn records,
    m = make id latestUsn records /\ fits 4 id /\ fits 8 latestUsn /\ batch_ok ok records /\
    payload = struct_bytes (mkJournalVHeader id (zlen records) latestUsn format) ++ serialize records).
Proof.
  intros Hp Hb Hm. eapply safe_bind; [by apply leading_struct_safe|]. intros [id n usn f] (Hok & rest & -> & Hrest).
  cbn [jv_recordFormatVersion jv_recordCount jv_volumeId jv_latestUsn]. apply safe_guard. intros Hf. bool_prop. subst f. cbv zeta.
  rewrite <-(zlen_struct_bytes (mkJournalVHeader id n usn format)). fields_of Hok.
  eapply safe_bind; [apply (batch_safe parse serialize ok Hp); (done || lia)|]. intros records (Hrs & <- & ->). cbn [safe]. exists id, usn, records. done.
Qed.

Lemma scan_batch_safe payload : Forall is_byte payload -> zlen payload <= SIZE_MAX ->
  safe (DispatchReceivedFrame true 14 payload) (fun m => exists id cursor records, m = ScanBatch id cursor records /\
    message_ok m /\ payload = SendScanBatch id cursor records).
Proof.
  intros Hb Hm. cbn [DispatchReceivedFrame guard ToMessageType of_option bind].
  eapply safe_bind; [by apply leading_struct_safe|]. intros [id n len] (Hok & rest & -> & Hrest).
  cbn [sb_resumeCursorLengthBytes sb_recordCount sb_volumeId]. rewrite <-(zlen_struct_bytes (mkScanBatchHeader id n len)). fields_of Hok.
  eapply safe_bind; [apply (cursor_and_batch_safe _ _ _ plain_batch_parser); (done || lia)|].
  intros [cursor records] (Hc & <- & bytes & -> & Hrs & <- & ->). cbn [safe]. exists id, cursor, records. pose proof (proj2 Hrs : zlen (A := MftRecordV1) records <= _).
  split; [done|]. split; [repeat split; (done || lia || apply Hrs)|]. by as_sent.
Qed.

Lemma scan_batch_v2_safe payload : Forall is_byte payload -> zlen payload <= SIZE_MAX ->
  safe (DispatchReceivedFrame true 20 payload) (fun m => exists id cursor records, m = ScanBatchV2 id cursor records /\
    message_ok m /\ payload = SendScanBatchV2 id cursor records).
Proof.
  intros Hb Hm. cbn [DispatchReceivedFrame guard ToMessageType of_option bind].
  eapply safe_bind; [by apply leading_struct_safe|]. intros [id n len f] (Hok & rest & -> & Hrest).
  cbn [sb2_resumeCursorLengthBytes sb2_recordCount sb2_volumeId sb2_recordFormatVersion]. apply safe_guard. intros Hf. bool_prop. subst f.
  rewrite <-(zlen_struct_bytes (mkScanBatchV2Header id n len 2)). fields_of Hok.
  eapply safe_bind; [apply (cursor_and_batch_safe _ _ _ plain_batch_parser); (done || lia)|].
  intros [cursor records] (Hc & <- & bytes & -> & Hrs & <- & ->). cbn [safe]. exists id, cursor, records. pose proof (proj2 Hrs : zlen (A := MftRecordV2) records <= _).
  split; [done|]. split; [repeat split; (done || lia || apply Hrs)|]. by as_sent.
Qed.

Lemma journal_batch_safe payload : Forall is_byte payload -> zlen payload <= SIZE_MAX ->
  safe (DispatchReceivedFrame true 17 payload) (fun m => exists id usn records, m = JournalBatch id usn records /\
    message_ok m /\ payload = SendJournalBatchV1 id usn records).
Proof.
  intros Hb Hm. cbn [DispatchReceivedFrame guard ToMessageType of_option bind].
  eapply safe_bind; [by apply leading_struct_safe|]. intros [id n usn] (Hok & rest & -> & Hrest). cbv zeta.
  cbn [jb_recordCount jb_volumeId jb_latestUsn]. rewrite <-(zlen_struct_bytes (mkJournalHeader id n usn)). fields_of Hok.
  eapply safe_bind; [apply (batch_safe _ _ _ plain_batch_parser); (done || lia)|].
  intros records (Hrs & <- & ->). cbn [safe]. exists id, usn, records. pose proof (proj2 Hrs : zlen (A := UsnDeltaV1) records <= _).
  split; [done|]. split; [repeat split; (done || lia || apply Hrs)|]. by as_sent.
Qed.

Lemma DispatchReceivedFrame_safe messageType payload : Forall is_byte payload -> zlen payload <= SIZE_MAX ->
  safe (DispatchReceivedFrame true messageType payload) (fun m =>
    messageType = raw_of_MessageType (frame_of m).1 /\ message_ok m /\ (payload = (frame_of m).2 \/ m = HeartbeatAcked)).
Proof.
  intros Hb Hm. destruct (ToMessageType messageType) as [type|] eqn:Et.
  2:{ unfold DispatchReceivedFrame. cbn [guard]. by rewrite Et. }
  pose proof (ToMessageType_Some _ _ Et) as ->.
  destruct type; cbn [raw_of_MessageType]; try done; try (cbn; by auto).
  - cbn [DispatchReceivedFrame guard ToMessageType of_option bind].
    eapply safe_bind; [by apply VolumeList_safe|]. intros volumes (? & ? & ?). cbn. auto.
  - eapply safe_mono; [by apply scan_batch_safe|]. intros m (? & ? & ? & -> & ? & ?). cbn in *. auto.
  - eapply safe_mono; [by apply volume_message_safe|]. intros m (? & -> & ? & ?). cbn. auto.
  - cbn [DispatchReceivedFrame guard ToMessageType of_option bind].
    eapply safe_bind; [by apply whole_struct_safe|]. intros [id journalId usn] [Hok ->]. fields_of Hok. cbn. auto.
  - eapply safe_mono; [by apply journal_batch_safe|]. intros m (? & ? & ? & -> & ? & ?). cbn in *. auto.
  - eapply safe_mono; [by apply volume_message_safe|]. intros m (? & -> & ? & ?). cbn. auto.
  - eapply safe_mono; [by apply (journal_batch_v_safe _ _ _ JournalBatchV2 2 payload (masked_batch_parser u2_fieldMask))|].
    intros m (id & usn & records & -> & ? & ? & Hrs & ->). pose proof (proj2 Hrs : zlen (A := UsnDeltaV2) records <= _).
    cbn [frame_of fst snd message_ok raw_of_MessageType]. split; [done|]. split; [done|]. left. by as_sent.
  - eapply safe_mono; [by apply scan_batch_v2_safe|]. intros m (? & ? & ? & -> & ? & ?). cbn in *. auto.
  - eapply safe_mono; [by apply (journal_batch_v_safe _ _ _ JournalBatchV3 3 payload (masked_batch_parser u3_fieldMask))|].
    intros m (id & usn & records & -> & ? & ? & Hrs & ->). pose proof (proj2 Hrs : zlen (A := UsnDeltaV3) records <= _).
    cbn [frame_of fst snd message_ok raw_of_MessageType]. split; [done|]. split; [done|]. left. by as_sent.
  - eapply safe_mono; [by apply volume_message_safe|]. intros m (? & -> & ? & ?). cbn. auto.
  - eapply safe_mono; [by apply volume_message_safe|]. intros m (? & -> & ? & ?). cbn. auto.
Qed.

Lemma DispatchReceivedFrame_complete m : message_ok m -> zlen (frame_of m).2 <= SIZE_MAX ->
  DispatchReceivedFrame true (raw_of_MessageType (frame_of m).1) (frame_of m).2 = Ok m.
Proof.
  intros Hok Hm. destruct m; cbn [frame_of fst snd raw_of_MessageType] in *; try done.
  - cbn [DispatchReceivedFrame guard ToMessageType of_option bind]. by rewrite VolumeList_ok by apply Hok.
  - by apply scan_batch_ok.
  - by apply scan_batch_v2_ok.
  - by apply volume_message_ok.
  - by apply volume_message_ok.
  - by apply volume_message_ok.
  - destruct Hok as (? & ? & ?). cbn [DispatchReceivedFrame guard ToMessageType of_option bind]. unfold SendJournalOpened.
    by rewrite whole_struct_app by fields_fit.
  - by apply volume_message_ok.
  - by apply journal_batch_ok.
  - destruct Hok as (? & ? & Hrs). pose proof (proj2 Hrs : zlen (A := UsnDeltaV2) records <= _). revert Hm. as_sent. intros Hm.
    by apply (journal_batch_v_ok _ _ _ _ _ _ _ _ (masked_batch_parser u2_fieldMask)); [..|apply serialized_bytes|].
  - destruct Hok as (? & ? & Hrs). pose proof (proj2 Hrs : zlen (A := UsnDeltaV3) records <= _). revert Hm. as_sent. intros Hm.
    by apply (journal_batch_v_ok _ _ _ _ _ _ _ _ (masked_batch_parser u3_fieldMask)); [..|apply serialized_bytes|].
Qed.

(** C7. The engine accepts exactly the frames the service writes.  On an active connection
    [DispatchReceivedFrame] hands a message on precisely when the frame has the type of that
    message and, for every message with a payload, is byte for byte what the service's writer
    produces for it, with every field in range and every record well formed (a [HeartbeatAck] is accepted
    whatever payload follows it); no frame makes it
    read outside the payload, and on a connection that is not active nothing is handed on. *)
Theorem DispatchReceivedFrame_accepts_exactly (messageType : Z) (payload : list Z) :
  Forall is_byte payload -> zlen payload <= SIZE_MAX ->
  (exactly (DispatchReceivedFrame true messageType payload) (fun m =>
     messageType = raw_of_MessageType (frame_of m).1 /\ message_ok m /\ (payload = (frame_of m).2 \/ m = HeartbeatAcked))) /\
  DispatchReceivedFrame false messageType payload = Reject.
Proof.
  intros Hb Hm. split; [|done]. apply exactly_intro.
  - apply DispatchReceivedFrame_safe; done.
  - intros m (-> & Hok & [-> | ->]); [by apply DispatchReceivedFrame_complete|done].
Qed.

Definition sample_scan_batch : service_message :=
  ScanBatch 3 [1; 2] [mkRecord sample_mft.1 sample_mft.2].

Lemma DispatchReceivedFrame_accepts_exactly_witness :
  DispatchReceivedFrame true 14 (frame_of sample_scan_batch).2 = Ok sample_scan_batch /\
  DispatchReceivedFrame true 14 ((frame_of sample_scan_batch).2 ++ [0]) = Reject.
Proof.
  split; [|vm_compute; reflexivity].
  destruct (DispatchReceivedFrame_accepts_exactly 14 (frame_of sample_scan_batch).2) as [[_ Hexact] _].
  - solve_bytes.
  - vm_compute. discriminate.
  - apply Hexact. split; [reflexivity|]. split; [|left; reflexivity].
    split; [split; [discriminate|reflexivity]|]. split; [split; [solve_bytes|reflexivity]|].
    split; [|discriminate]. constructor; [apply sample_mft_ok|constructor].
Defined.

(** ** Requests *)

Inductive request :=
| RequestVolumes
| RequestScan (id : Z) (cursor : list Z) (flags : Z)
| RequestStopScan (id : Z)
| RequestJournal (id resumeUsn : Z)
| RequestCloseJournal (id : Z)
| RequestHeartbeat.

(** An oversized cursor yields the empty payload. *)
Definition BuildStartScanPayload (version : ProtocolVersion) (id : Z) (cursor : list Z) (flags : Z) : list Z :=
  if kMaxScanCursorLengthBytes <? zlen cursor then []
  else if major version =? 1 then struct_bytes (mkStartScanV1 id (wrap16 (zlen cursor))) ++ cursor
  else struct_bytes (mkStartScan id (wrap16 (zlen cursor)) flags) ++ cursor.

(** The payload the manager sends: a cursor that is too long is replaced by none. *)
Definition start_scan_payload (version : ProtocolVersion) (id : Z) (cursor : list Z) (flags : Z) : list Z :=
  let payload := BuildStartScanPayload version id cursor flags in
  if bool_decide (payload = []) && negb (bool_decide (cursor = [])) then BuildStartScanPayload version id [] flags else payload.

Definition IsAllowedClientRequest (rawMessageType : Z) : bool :=
  match ToMessageType rawMessageType with
  | Some (EnumerateVolumes | StartVolumeScan | StopVolumeScan | OpenUsnJournal | CloseUsnJournal | Heartbeat) => true
  | _ => false
  end.

(** The service's reading of a scan request, up to the lookup of the volume. *)
Definition ReadStartVolumeScan (version : ProtocolVersion) (payload : list Z) : result request :=
  let useV1 := major version =? 1 in
  let requestSize := if useV1 then sizeof StartVolumeScanRequestV1 else sizeof StartVolumeScanRequest in
  guard (requestSize <=? zlen payload)
  (let* r :=
     if useV1 then
       let* requestV1 := load_struct StartVolumeScanRequestV1 payload 0 in
       Ok (mkStartScan (ss1_volumeId requestV1) (ss1_resumeCursorLengthBytes requestV1) 0)
     else load_struct StartVolumeScanRequest payload 0 in
   let expectedCursorBytes := zlen payload - requestSize in
   guard (IsScanCursorLengthValid (ss_resumeCursorLengthBytes r) && AreStartVolumeScanFlagsValid (ss_flags r) &&
          (expectedCursorBytes =? ss_resumeCursorLengthBytes r))
     (Ok (RequestScan (ss_volumeId r) (drop (Z.to_nat requestSize) payload) (ss_flags r)))).

(** The switch of the control loop: what a frame asks for. *)
Definition ReadRequest (version : ProtocolVersion) (messageType : Z) (payload : list Z) : result request :=
  guard (IsAllowedClientRequest messageType)
  (let* type := of_option (ToMessageType messageType) in
   match type with
   | EnumerateVolumes => Ok RequestVolumes
   | StartVolumeScan => ReadStartVolumeScan version payload
   | StopVolumeScan => let* p := whole_struct VolumePayload payload in Ok (RequestStopScan (vp_volumeId p))
   | OpenUsnJournal => let* p := whole_struct OpenUsnJournalRequest payload in Ok (RequestJournal (oj_volumeId p) (oj_resumeUsn p))
   | CloseUsnJournal => let* p := whole_struct VolumePayload payload in Ok (RequestCloseJournal (vp_volumeId p))
   | Heartbeat => Ok RequestHeartbeat
   | _ => Reject
   end).

(** The frame the engine sends for a request. *)
Definition request_frame (version : ProtocolVersion) (r : request) : MessageType * list Z :=
  match r with
  | RequestVolumes => (EnumerateVolumes, [])
  | RequestScan id cursor flags => (StartVolumeScan, start_scan_payload version id cursor flags)
  | RequestStopScan id => (StopVolumeScan, struct_bytes (mkVolumePayload id))
  | RequestJournal id resumeUsn => (OpenUsnJournal, struct_bytes (mkOpenJournal id resumeUsn))
  | RequestCloseJournal id => (CloseUsnJournal, struct_bytes (mkVolumePayload id))
  | RequestHeartbeat => (Heartbeat, [])
  end.

Definition request_ok (r : request) : Prop :=
  match r with
  | RequestScan id cursor flags => fits 4 id /\ Forall is_byte cursor /\ (flags = 0 \/ flags = 1)
  | RequestStopScan id | RequestCloseJournal id => fits 4 id
  | RequestJournal id resumeUsn => fits 4 id /\ fits 8 resumeUsn
  | _ => True
  end.

(** The request as the service understands it: a version-1 peer has no flags, and a cursor over
    256 bytes is dropped. *)
Definition understood (version : ProtocolVersion) (r : request) : request :=
  match r with
  | RequestScan id cursor flags =>
      RequestScan id (if kMaxScanCursorLengthBytes <? zlen cursor then [] else cursor) (if major version =? 1 then 0 else flags)
  | r => r
  end.

Lemma read_built version id cursor flags : fits 4 id -> (flags = 0 \/ flags = 1) -> zlen cursor <= kMaxScanCursorLengthBytes ->
  ReadStartVolumeScan version (BuildStartScanPayload version id cursor flags) =
  Ok (RequestScan id cursor (if major version =? 1 then 0 else flags)).
Proof.
  intros Hid Hflags Hlen. pose proof (zlen_nonneg cursor). unfold kMaxScanCursorLengthBytes in *.
  unfold BuildStartScanPayload, kMaxScanCursorLengthBytes. rewrite (proj2 (Z.ltb_ge _ _)) by lia.
  unfold ReadStartVolumeScan, wrap16. rewrite Z.mod_small by lia. destruct (major version =? 1).
  - rewrite zlen_app, zlen_struct_bytes. rewrite (proj2 (Z.leb_le _ _)) by lia. cbn [guard]. rewrite load_struct_head by fields_fit.
    cbn [bind ss1_volumeId ss1_resumeCursorLengthBytes ss_resumeCursorLengthBytes ss_flags ss_volumeId].
    replace (sizeof StartVolumeScanRequestV1 + zlen cursor - sizeof StartVolumeScanRequestV1) with (zlen cursor) by lia.
    unfold IsScanCursorLengthValid, kMaxScanCursorLengthBytes. rewrite (proj2 (Z.leb_le _ _)), Z.eqb_refl by lia. cbn [andb guard].
    change (AreStartVolumeScanFlagsValid 0) with true. cbn [andb guard].
    rewrite <-(zlen_struct_bytes (mkStartScanV1 id (zlen cursor))), zlen_to_nat, drop_app_length. done.
  - rewrite zlen_app, zlen_struct_bytes. rewrite (proj2 (Z.leb_le _ _)) by lia. cbn [guard].
    rewrite load_struct_head by (destruct Hflags; subst; fields_fit). cbn [bind ss_resumeCursorLengthBytes ss_flags ss_volumeId].
    replace (sizeof StartVolumeScanRequest + zlen cursor - sizeof StartVolumeScanRequest) with (zlen cursor) by lia.
    unfold IsScanCursorLengthValid, kMaxScanCursorLengthBytes. rewrite (proj2 (Z.leb_le _ _)), Z.eqb_refl by lia.
    assert (AreStartVolumeScanFlagsValid flags = true) as -> by (by destruct Hflags; subst). cbn [andb guard].
    rewrite <-(zlen_struct_bytes (mkStartScan id (zlen cursor) flags)), zlen_to_nat, drop_app_length. done.
Qed.

Lemma build_empty version id cursor flags : BuildStartScanPayload version id cursor flags = [] <-> kMaxScanCursorLengthBytes < zlen cursor.
Proof.
  unfold BuildStartScanPayload. destruct (Z.ltb_spec kMaxScanCursorLengthBytes (zlen cursor)); [done|].
  destruct (major version =? 1); split; intros; (discriminate || lia).
Qed.

(** C39. Every request the engine builds passes the service's allowlist, version and
    length checks and is read back as the same request: for a scan the same volume, the same
    cursor (none when the stored cursor exceeds 256 bytes, so that a damaged cursor restarts the
    scan instead of being cut) and the same flags, except that a version-1 peer has none. *)
Theorem engine_requests_understood (version : ProtocolVersion) (r : request) :
  request_ok r ->
  let '(type, payload) := request_frame version r in
  ReadRequest version (raw_of_MessageType type) payload = Ok (understood version r).
Proof.
  intros Hok. destruct r as [|id cursor flags|id|id usn|id|]; cbn [request_frame understood]; try done;
    unfold ReadRequest, IsAllowedClientRequest; rewrite ToMessageType_raw; cbn [guard of_option bind].
  - destruct Hok as (Hid & Hb & Hf). unfold start_scan_payload. destruct (Z.ltb_spec kMaxScanCursorLengthBytes (zlen cursor)) as [Hl|Hl].
    + rewrite bool_decide_true by by apply build_empty. rewrite bool_decide_false; [cbn [andb negb]; by apply read_built|].
      intros ->. by vm_compute in Hl.
    + rewrite bool_decide_false; [cbn [andb]; by apply read_built|]. rewrite build_empty. lia.
  - cbn in Hok. rewrite whole_struct_app by fields_fit. done.
  - destruct Hok. rewrite whole_struct_app by fields_fit. done.
  - cbn in Hok. rewrite whole_struct_app by fields_fit. done.
Qed.

Lemma engine_requests_understood_witness :
  ReadRequest kCurrentProtocolVersion 7 (start_scan_payload kCurrentProtocolVersion 3 [9; 9] 1) = Ok (RequestScan 3 [9; 9] 1) /\
  ReadRequest (mkProtocolVersion 1 0) 7 (start_scan_payload (mkProtocolVersion 1 0) 3 (replicate 300 7) 1) = Ok (RequestScan 3 [] 0).
Proof.
  split.
  - apply (engine_requests_understood kCurrentProtocolVersion (RequestScan 3 [9; 9] 1)).
    split; [split; [discriminate|reflexivity]|]. split; [solve_bytes|]. by right.
  - apply (engine_requests_understood (mkProtocolVersion 1 0) (RequestScan 3 (replicate 300 7) 1)).
    split; [split; [discriminate|reflexivity]|]. split; [solve_bytes|]. by right.
Defined.
