(* ===== verification/Export.v ===== *)
(** * Export: the directories of a volume as a snapshot

    Models [ExportDirectorySnapshotBoundedPooled], [ToOwningSnapshotMap],
    [ExportDirectorySnapshot] and [ExportDirectorySnapshotBounded] of
    [src/src/engine/src/IndexPipeline.cpp]: a cold volume is reloaded, then every directory of the
    volume becomes an entry of the map, under its full path, with its children.  The map keeps at
    most [maxDirectories] of them: each insertion over the bound drops the largest path.

    Shown: the bounded map is the beginning of the complete one, whatever the order in which the
    index is visited. *)

From Stdlib Require Import Sorted.
From stdpp Require Import gmap.
From S2P Require Import Prelude Snapshot SnapshotPool FlatHashMap NamePool ChildrenMap FilenameIndex Projection ProjectionRead Residency Rebuild Sql Store ColdSearch Pipeline PipelineSync PipelineRuns Candidates.

(** [DirectoryEnumerationStatus::Success]. *)
Definition kSuccess : Z := 0.

(** [PooledSnapshotMap], in the order of its paths. *)
Definition PooledSnapshotMap : Type := list (list Z * PooledSnapshotDirectory).

(** [std::map::emplace]: a path that is present keeps its directory. *)
Fixpoint emplace_path {V} (path : list Z) (directory : V) (m : list (list Z * V)) : list (list Z * V) :=
  match m with
  | [] => [(path, directory)]
  | (p, d) :: rest =>
      if wless path p then (path, directory) :: m
      else if wless p path then (p, d) :: emplace_path path directory rest
      else m
  end.

(** The insertion, and the erasure of the last path when there is one too many. *)
Definition emplace_bounded {V} (maxDirectories : Z) (path : list Z) (directory : V) (m : list (list Z * V))
    : list (list Z * V) :=
  let m := emplace_path path directory m in
  if maxDirectories <? zlen m then removelast m else m.

Section export.
Context (E : Env).
Local Abbreviation CSO := (env_CompareStringOrdinal E).
#[local] Instance export_sqlite : Sqlite := env_db E.

(** [projection_.ReloadEvictedVolume (store_, id)]. *)
Definition ReloadEvictedVolumeFrom (volume : Z) : Pipe bool :=
  let& cold := gets (fun s => NeedsReload (projection_ s) volume) in
  if negb cold then pipe_ret true
  else
    let& metadata := on_store (Store.GetVolumeMetadata volume) in
    let& cursor := match metadata with Some _ => on_store (SelectEntries volume) | None => pipe_ret (mkCursor false [] false) end in
    on_projection (fun p =>
      Rebuild.ReloadEvictedVolume CSO (env_estimate E) (env_sizeofEntry E) p (fun _ => (meta_entryCount <$> metadata, cursor)) volume).

(** The path a directory is published under. *)
Definition directory_path (p : Projection) (volume : Z) (rootPathPrefix : list Z) (entry : ProjectionEntry)
    : result (list Z * Projection) :=
  let* '(pathResult, p) := ReconstructPath p volume (e_frn entry) in
  if bool_decide (e_parentFrn entry = e_frn entry) then Ok (rootPathPrefix, p)
  else if reachedRoot pathResult then
    let* '(relative, p) := StripVolumeRootName (env_towlower E) None p volume (e_frn entry) (path pathResult) in
    Ok (rootPathPrefix ++ match relative with [] => [] | _ :: _ => 92 :: relative end, p)
  else Ok (rootPathPrefix ++ 92 :: path pathResult, p).

Definition child_meta (child : ProjectionEntry) : EntryMeta :=
  mkMeta (is_directory (e_attributes child)) (e_sizeBytes child) (e_allocatedSizeBytes child)
    (e_allocatedSizeKnown child) (e_attributes child) (e_creationTime child)
    (e_lastModifiedTime child) (e_volumeRowId child) (low (e_frn child)) (high (e_frn child))
    (low (e_parentFrn child)) (high (e_parentFrn child)).

Fixpoint add_child_entries (p : Projection) (children : list Z) (builder : PooledSnapshotDirectoryBuilder)
    : result PooledSnapshotDirectoryBuilder :=
  match children with
  | [] => Ok builder
  | childIndex :: rest =>
      let* child := entry_at p childIndex in
      let* name := Get (namePool_ (rows p)) (e_nameId child) in
      add_child_entries p rest (AddEntry builder name (child_meta child))
  end.

(** One live entry of the index: its directory, when it is one of the volume. *)
Definition export_entry (volume : Z) (rootPathPrefix : list Z) (keyed : EntryKey * Z) (p : Projection) (h : heap)
    : result (option (list Z * PooledSnapshotDirectory) * Projection * heap) :=
  let* entry := entry_at p keyed.2 in
  if negb (volumeRowId keyed.1 =? volume) || negb (is_directory (e_attributes entry)) then Ok (None, p, h)
  else
    let* '(fullPath, p) := directory_path p volume rootPathPrefix entry in
    let builder := SetIdentity (SetStatus new_builder kSuccess) (e_volumeRowId entry)
      (low (e_frn entry)) (high (e_frn entry)) (low (e_parentFrn entry)) (high (e_parentFrn entry)) in
    let* '(children, p) := ChildIndices p volume (e_frn entry) in
    let* builder := add_child_entries p children builder in
    let '(h, directory) := Build h builder in
    Ok (Some (fullPath, directory), p, h).

Fixpoint export_entries (maxDirectories : Z) (volume : Z) (rootPathPrefix : list Z) (live : list (EntryKey * Z))
    (p : Projection) (h : heap) (m : PooledSnapshotMap) : result (PooledSnapshotMap * heap * Projection) :=
  match live with
  | [] => Ok (m, h, p)
  | keyed :: rest =>
      let* '(exported, p, h) := export_entry volume rootPathPrefix keyed p h in
      export_entries maxDirectories volume rootPathPrefix rest p h
        match exported with
        | Some (fullPath, directory) => emplace_bounded maxDirectories fullPath directory m
        | None => m
        end
  end.

(** The names live in the heap returned with the map. *)
Definition ExportDirectorySnapshotBoundedPooled (volume : Z) (rootPathPrefix : list Z) (maxDirectories : Z)
    : Pipe (PooledSnapshotMap * heap) :=
  if maxDirectories =? 0 then pipe_ret ([], ∅)
  else
    let& wasCold := gets (fun s => NeedsReload (projection_ s) volume) in
    let& reloaded := ReloadEvictedVolumeFrom volume in
    let& _ := if wasCold : bool then AdvanceResidencyEpochsForStructuralChangeLocked (env_hash_order E) else pipe_ret tt in
    if negb reloaded then pipe_ret ([], ∅)
    else on_projection (fun p => export_entries maxDirectories volume rootPathPrefix (live_ids (rows p)) p ∅ []).

(** The names are copied out of the pools. *)
Definition ToOwningSnapshotMap (pooled : PooledSnapshotMap * heap) : result DirectoryMap :=
  match mapM (fun pd => directory ← resolve pooled.2 pd.2; Some (pd.1, directory)) pooled.1 with
  | Some directories => Ok directories
  | None => Fault
  end.

Definition owning_of (m : Pipe (PooledSnapshotMap * heap)) : Pipe DirectoryMap :=
  fun s => let* '(pooled, s) := m s in let* owned := ToOwningSnapshotMap pooled in Ok (owned, s).

Definition ExportDirectorySnapshot (volume : Z) (rootPathPrefix : list Z) : Pipe DirectoryMap :=
  owning_of (ExportDirectorySnapshotBoundedPooled volume rootPathPrefix SIZE_MAX).

Definition ExportDirectorySnapshotBounded (volume : Z) (rootPathPrefix : list Z) (maxDirectories : Z) : Pipe DirectoryMap :=
  owning_of (ExportDirectorySnapshotBoundedPooled volume rootPathPrefix maxDirectories).
End export.

(** ** The bound *)

Section bound.
Context {V : Type}.

(** The paths are in strictly increasing order. *)
Definition path_sorted (m : list (list Z * V)) : Prop := StronglySorted (fun a b => wless a.1 b.1 = true) m.

Lemma emplace_path_head path (d : V) m q : Forall (fun b => wless q b.1 = true) m -> wless q path = true ->
  Forall (fun b => wless q b.1 = true) (emplace_path path d m).
Proof.
  induction 1 as [|[p e] m Hp Hm IH]; intros Hq; cbn [emplace_path]; [by repeat constructor|].
  destruct (wless path p); [by repeat constructor|]. destruct (wless p path); constructor; auto.
Qed.

Lemma emplace_path_sorted path (d : V) m : path_sorted m -> path_sorted (emplace_path path d m).
Proof.
  unfold path_sorted. induction 1 as [|[p e] m Hs IH Hp]; cbn [emplace_path]; [repeat constructor|].
  destruct (wless path p) eqn:E1; [|destruct (wless p path) eqn:E2]; constructor; auto.
  - by constructor.
  - constructor; [done|]. eapply Forall_impl; [exact Hp|]. intros b Hb. by eapply wless_trans.
  - by apply emplace_path_head.
Qed.

(** Keeping [n] paths commutes with insertion. *)
Lemma take_emplace n path (d : V) m :
  path_sorted m -> take n (emplace_path path d (take n m)) = take n (emplace_path path d m).
Proof.
  revert n. induction m as [|[p e] m IH]; intros n Hs; [by rewrite take_nil|].
  inversion Hs as [|? ? Hs' _]; subst. destruct n as [|n]; [done|].
  cbn [take emplace_path]. destruct (wless path p) eqn:E1.
  - cbn [take]. f_equal. destruct n as [|n]; cbn [take]; [done|]. f_equal. by rewrite take_take, Nat.min_l by lia.
  - destruct (wless p path); cbn [take]; [by rewrite IH|]. by rewrite take_take, Nat.min_id.
Qed.

Lemma emplace_path_length path (d : V) m : (length m <= length (emplace_path path d m) <= S (length m))%nat.
Proof.
  induction m as [|[p e] m IH]; cbn [emplace_path length]; [lia|].
  destruct (wless path p); [cbn; lia|]. destruct (wless p path); cbn [length]; lia.
Qed.

Lemma emplace_bounded_take n path (d : V) m :
  zlen m <= n -> emplace_bounded n path d m = take (Z.to_nat n) (emplace_path path d m).
Proof.
  intros Hn. unfold emplace_bounded. pose proof (emplace_path_length path d m) as Hl. cbv zeta. unfold zlen in *.
  destruct (Z.ltb_spec n (Z.of_nat (length (emplace_path path d m)))).
  - rewrite removelast_firstn_len. assert (length (emplace_path path d m) = S (Z.to_nat n)) as -> by lia. done.
  - rewrite take_ge by lia. done.
Qed.
End bound.

(** The map of the visit with the bound [n] is the beginning of the map of the visit with a
    bound that is never reached. *)
Lemma export_entries_take E n big volume prefix live p h m :
  path_sorted m -> 0 <= n -> zlen m + zlen live <= big ->
  export_entries E n volume prefix live p h (take (Z.to_nat n) m) =
  let* '(full, h', p') := export_entries E big volume prefix live p h m in Ok (take (Z.to_nat n) full, h', p').
Proof.
  intros Hs Hn. revert p h m Hs. induction live as [|keyed live IH]; intros p h m Hs Hbig; cbn [export_entries]; [done|].
  unfold zlen in Hbig. cbn [length] in Hbig.
  destruct (export_entry E volume prefix keyed p h) as [[[[[path directory]|] p1] h1]| |]; cbn [bind]; [|apply IH; [done|unfold zlen; lia]|done..].
  pose proof (emplace_path_length path directory m) as Hl.
  rewrite emplace_bounded_take by (unfold zlen; rewrite length_take; lia). rewrite take_emplace by done.
  rewrite (emplace_bounded_take big) by (unfold zlen; lia). rewrite (take_ge (emplace_path _ _ m) (Z.to_nat big)) by lia.
  apply IH; [by apply emplace_path_sorted|unfold zlen; lia].
Qed.

Lemma path_sorted_take {V} n (m : list (list Z * V)) : path_sorted m -> path_sorted (take n m).
Proof.
  unfold path_sorted. intros Hs. revert n. induction Hs as [|a m Hs IH Ha]; intros [|n]; cbn [take]; constructor; [done|]. by apply Forall_take.
Qed.

Lemma export_entries_sorted E n volume prefix live p h m m' h' p' :
  path_sorted m -> export_entries E n volume prefix live p h m = Ok (m', h', p') -> path_sorted m'.
Proof.
  revert p h m. induction live as [|keyed live IH]; intros p h m Hs; cbn [export_entries]; [by intros [= <- _ _]|].
  destruct (export_entry E volume prefix keyed p h) as [[[[[path directory]|] p1] h1]| |]; cbn [bind]; [apply IH|by apply IH|done..].
  unfold emplace_bounded. pose proof (emplace_path_sorted path directory m Hs) as Hs'. cbv zeta. case_match; [|done].
  rewrite removelast_firstn_len. by apply path_sorted_take.
Qed.

(** ** The whole export *)

(** The bounded export is the beginning of the complete one.  When an export of a
    volume that does not reach its bound returns the directories [full], an export with any
    smaller bound [n] returns the first [n] of them, in the order of their paths, with the same
    pools of names and the same effect on the pipeline, although it never holds more than [n]
    directories: which ones survive does not depend on the order in which the index is visited. *)
Theorem export_bound_keeps_first E volume prefix n big s full h s' :
  0 < n -> ExportDirectorySnapshotBoundedPooled E volume prefix big s = Ok ((full, h), s') -> zlen full < big ->
  path_sorted full /\
  ExportDirectorySnapshotBoundedPooled E volume prefix n s = Ok ((take (Z.to_nat n) full, h), s').
Proof.
  intros Hn Hbig Hlen. unfold ExportDirectorySnapshotBoundedPooled in *.
  rewrite (proj2 (Z.eqb_neq n 0)) by lia. destruct (Z.eqb_spec big 0) as [->|Hb].
  { pose proof (zlen_nonneg full). lia. }
  revert Hbig. unfold pipe_bind, gets. cbn [bind].
  destruct (ReloadEvictedVolumeFrom E volume s) as [[reloaded s1]| |]; cbn [bind]; [|done..].
  match goal with |- context [bind (?m s1) _] => destruct (m s1) as [[[] s2]| |] end; cbn [bind]; [|done..].
  destruct reloaded; cbn [negb].
  2:{ intros [= <- <- <-]. split; [constructor|]. by rewrite take_nil. }
  unfold on_projection. set (p2 := projection_ s2). set (live := live_ids (rows p2)).
  pose proof (export_entries_take E n (zlen live) volume prefix live p2 ∅ []) as Hn'.
  pose proof (export_entries_take E big (zlen live) volume prefix live p2 ∅ []) as Hb'.
  rewrite take_nil in Hn', Hb'. pose proof (zlen_nonneg full).
  rewrite Hb' by (repeat constructor || lia || (unfold zlen; cbn; lia)). rewrite Hn' by (repeat constructor || lia || (unfold zlen; cbn; lia)).
  destruct (export_entries E (zlen live) volume prefix live p2 ∅ []) as [[[all h1] p3]| |] eqn:Hall; cbn [bind]; [|done..].
  intros [= <- <- <-]. assert (take (Z.to_nat big) all = all) as Eall.
  { apply take_ge. unfold zlen in Hlen. rewrite length_take in Hlen. lia. }
  rewrite Eall. split; [|done]. eapply export_entries_sorted; [|exact Hall]. constructor.
Qed.

Definition sample_indexed : IndexPipeline :=
  final (run_ops (sample_env None) [DoResolve sample_key; DoMft1 1 [sample_root; sample_work; sample_file]] sample_start).

Definition exported_paths (r : result ((PooledSnapshotMap * heap) * IndexPipeline)) : option (list (list Z)) :=
  match r with Ok ((m, _), _) => Some m.*1 | _ => None end.

Lemma export_bound_keeps_first_witness :
  exported_paths (ExportDirectorySnapshotBoundedPooled (sample_env None) 1 [67; 58] 100 sample_indexed) =
    Some [[67; 58]; [67; 58; 92; 87; 111; 114; 107]] /\
  exported_paths (ExportDirectorySnapshotBoundedPooled (sample_env None) 1 [67; 58] 1 sample_indexed) = Some [[67; 58]].
Proof.
  assert (exported_paths (ExportDirectorySnapshotBoundedPooled (sample_env None) 1 [67; 58] 100 sample_indexed) =
    Some [[67; 58]; [67; 58; 92; 87; 111; 114; 107]]) as Hfull by (vm_compute; reflexivity).
  split; [exact Hfull|].
  destruct (ExportDirectorySnapshotBoundedPooled (sample_env None) 1 [67; 58] 100 sample_indexed) as [[[full h] s']| |] eqn:He; [|done..].
  injection Hfull as Hpaths.
  destruct (export_bound_keeps_first (sample_env None) 1 [67; 58] 1 100 sample_indexed full h s' eq_refl He) as [_ Hone].
  - apply (f_equal length) in Hpaths. rewrite length_fmap in Hpaths. unfold zlen. rewrite Hpaths. reflexivity.
  - rewrite Hone. cbn [exported_paths]. change (Z.to_nat 1) with 1%nat. rewrite fmap_take, Hpaths. reflexivity.
Defined.
