(* ===== verification/SessionState.v ===== *)
(** * SessionState: volume sessions, their retries and threads

    The data of [src/src/engine/src/VolumeSessionManager.h] and the parts of
    [PrivilegedConnection.h] it uses, the retry transitions of [VolumeSessionManager.cpp] that run
    with both mutexes held, and the programs its handlers are written in.

    A handler is a program of atomic steps: a critical section, a call of the index pipeline
    (which has a mutex of its own), a write on the connection, or a read of an atomic.  Between
    two steps any other thread may run.  A section that calls the pipeline while it holds a mutex
    is several steps between [acquire] and [release]; the mutexes it holds keep the sections of
    other threads out, and nothing else.  Time is read from the world: [steady] is
    [std::chrono::steady_clock] in nanoseconds, [filetime] the system time. *)

From stdpp Require Import gmap sorting.
From Stdlib Require Import String.
From stdpp Require Import strings.
From S2P Require Import Prelude Wire Records Dispatch Rules SnapshotPool Sql Store Pipeline PipelineRuns Export.

(** ** State *)

Record VolumeSession := mkSession {
  durableId : Z;
  driveLetter : Z;
  journalId : Z;
  journalIdKnown : bool;
  journalOpenRequested : bool;
  scanInProgress : bool;
  scanBatchFailed : bool;
  reconciliationScan : bool;
  deferredReconciliation : bool;
  awaitingScanAttemptStarted : bool
}.

Definition new_session (durable letter : Z) : VolumeSession :=
  mkSession durable letter 0 false false false false false false false.

Definition set_scan (s : VolumeSession) (inProgress batchFailed isReconciliation deferred awaiting : bool) : VolumeSession :=
  mkSession (durableId s) (driveLetter s) (journalId s) (journalIdKnown s) (journalOpenRequested s)
    inProgress batchFailed isReconciliation deferred awaiting.

Definition set_batch_failed (s : VolumeSession) (b : bool) : VolumeSession :=
  set_scan s (scanInProgress s) b (reconciliationScan s) (deferredReconciliation s) (awaitingScanAttemptStarted s).
Definition set_deferred (s : VolumeSession) (b : bool) : VolumeSession :=
  set_scan s (scanInProgress s) (scanBatchFailed s) (reconciliationScan s) b (awaitingScanAttemptStarted s).
Definition set_awaiting (s : VolumeSession) (b : bool) : VolumeSession :=
  set_scan s (scanInProgress s) (scanBatchFailed s) (reconciliationScan s) (deferredReconciliation s) b.
Definition set_attempt (s : VolumeSession) (inProgress isReconciliation : bool) : VolumeSession :=
  set_scan s inProgress (scanBatchFailed s) isReconciliation (deferredReconciliation s) (awaitingScanAttemptStarted s).

Definition set_journal (s : VolumeSession) (id : Z) (known requested : bool) : VolumeSession :=
  mkSession (durableId s) (driveLetter s) id known requested (scanInProgress s) (scanBatchFailed s)
    (reconciliationScan s) (deferredReconciliation s) (awaitingScanAttemptStarted s).

Record FailedScanRetry := mkRetry { due : Z; reconciliation : bool }.

Record VolumeSessionManager := mkManager {
  sessionsByEphemeralId_ : gmap Z VolumeSession;
  configuredVolumes_ : list VolumeSetting;
  lastSnapshotPublish_ : gmap Z Z;
  observedLetters_ : gset Z;
  paused_ : bool;
  pausedVolumes_ : gset Z;
  active_ : bool;
  running_ : bool;
  failedScanRetries_ : gmap Z FailedScanRetry;
  schedulerDispatchRetries_ : gmap Z FailedScanRetry;
  scanRetryGeneration_ : Z;
  scanReissueFloors_ : gmap Z FailedScanRetry
}.

Definition new_manager : VolumeSessionManager := mkManager ∅ [] ∅ ∅ false ∅ false false ∅ ∅ 0 ∅.

Definition with_sessions (m : VolumeSessionManager) (x : gmap Z VolumeSession) : VolumeSessionManager :=
  mkManager x (configuredVolumes_ m) (lastSnapshotPublish_ m) (observedLetters_ m) (paused_ m) (pausedVolumes_ m) (active_ m)
    (running_ m) (failedScanRetries_ m) (schedulerDispatchRetries_ m) (scanRetryGeneration_ m) (scanReissueFloors_ m).
Definition with_configuration (m : VolumeSessionManager) (x : list VolumeSetting) : VolumeSessionManager :=
  mkManager (sessionsByEphemeralId_ m) x (lastSnapshotPublish_ m) (observedLetters_ m) (paused_ m) (pausedVolumes_ m) (active_ m)
    (running_ m) (failedScanRetries_ m) (schedulerDispatchRetries_ m) (scanRetryGeneration_ m) (scanReissueFloors_ m).
Definition with_published (m : VolumeSessionManager) (x : gmap Z Z) : VolumeSessionManager :=
  mkManager (sessionsByEphemeralId_ m) (configuredVolumes_ m) x (observedLetters_ m) (paused_ m) (pausedVolumes_ m) (active_ m)
    (running_ m) (failedScanRetries_ m) (schedulerDispatchRetries_ m) (scanRetryGeneration_ m) (scanReissueFloors_ m).
Definition with_observed (m : VolumeSessionManager) (x : gset Z) : VolumeSessionManager :=
  mkManager (sessionsByEphemeralId_ m) (configuredVolumes_ m) (lastSnapshotPublish_ m) x (paused_ m) (pausedVolumes_ m) (active_ m)
    (running_ m) (failedScanRetries_ m) (schedulerDispatchRetries_ m) (scanRetryGeneration_ m) (scanReissueFloors_ m).
Definition with_pause (m : VolumeSessionManager) (global : bool) (x : gset Z) : VolumeSessionManager :=
  mkManager (sessionsByEphemeralId_ m) (configuredVolumes_ m) (lastSnapshotPublish_ m) (observedLetters_ m) global x (active_ m)
    (running_ m) (failedScanRetries_ m) (schedulerDispatchRetries_ m) (scanRetryGeneration_ m) (scanReissueFloors_ m).
Definition with_active (m : VolumeSessionManager) (x : bool) : VolumeSessionManager :=
  mkManager (sessionsByEphemeralId_ m) (configuredVolumes_ m) (lastSnapshotPublish_ m) (observedLetters_ m) (paused_ m) (pausedVolumes_ m)
    x (running_ m) (failedScanRetries_ m) (schedulerDispatchRetries_ m) (scanRetryGeneration_ m) (scanReissueFloors_ m).
Definition with_running (m : VolumeSessionManager) (x : bool) : VolumeSessionManager :=
  mkManager (sessionsByEphemeralId_ m) (configuredVolumes_ m) (lastSnapshotPublish_ m) (observedLetters_ m) (paused_ m) (pausedVolumes_ m)
    (active_ m) x (failedScanRetries_ m) (schedulerDispatchRetries_ m) (scanRetryGeneration_ m) (scanReissueFloors_ m).
Definition with_queue (m : VolumeSessionManager) (x : gmap Z FailedScanRetry) : VolumeSessionManager :=
  mkManager (sessionsByEphemeralId_ m) (configuredVolumes_ m) (lastSnapshotPublish_ m) (observedLetters_ m) (paused_ m) (pausedVolumes_ m)
    (active_ m) (running_ m) x (schedulerDispatchRetries_ m) (scanRetryGeneration_ m) (scanReissueFloors_ m).
Definition with_dispatch (m : VolumeSessionManager) (x : gmap Z FailedScanRetry) : VolumeSessionManager :=
  mkManager (sessionsByEphemeralId_ m) (configuredVolumes_ m) (lastSnapshotPublish_ m) (observedLetters_ m) (paused_ m) (pausedVolumes_ m)
    (active_ m) (running_ m) (failedScanRetries_ m) x (scanRetryGeneration_ m) (scanReissueFloors_ m).
Definition with_floors (m : VolumeSessionManager) (x : gmap Z FailedScanRetry) : VolumeSessionManager :=
  mkManager (sessionsByEphemeralId_ m) (configuredVolumes_ m) (lastSnapshotPublish_ m) (observedLetters_ m) (paused_ m) (pausedVolumes_ m)
    (active_ m) (running_ m) (failedScanRetries_ m) (schedulerDispatchRetries_ m) (scanRetryGeneration_ m) x.
Definition next_generation (m : VolumeSessionManager) : VolumeSessionManager :=
  mkManager (sessionsByEphemeralId_ m) (configuredVolumes_ m) (lastSnapshotPublish_ m) (observedLetters_ m) (paused_ m) (pausedVolumes_ m)
    (active_ m) (running_ m) (failedScanRetries_ m) (schedulerDispatchRetries_ m) (add64 (scanRetryGeneration_ m) 1) (scanReissueFloors_ m).

Definition put_session (m : VolumeSessionManager) (e : Z) (s : VolumeSession) : VolumeSessionManager :=
  with_sessions m (<[e := s]> (sessionsByEphemeralId_ m)).
Definition erase_session (m : VolumeSessionManager) (e : Z) : VolumeSessionManager :=
  with_sessions m (delete e (sessionsByEphemeralId_ m)).

(** The entries of a [std::map], in the order of its keys. *)
Definition key_order {A} (a b : Z * A) : Prop := a.1 <= b.1.

#[export] Instance key_order_dec {A} : RelDecision (@key_order A).
Proof. intros a b. unfold key_order. apply _. Defined.

Definition in_order {A} (m : gmap Z A) : list (Z * A) := merge_sort key_order (map_to_list m).

Definition any_scan (m : VolumeSessionManager) : bool := existsb (fun es => scanInProgress es.2) (in_order (sessionsByEphemeralId_ m)).

(** ** Retry transitions, with both mutexes held *)

Definition kScanFailureRetryDelay : Z := 5000000000.
Definition kSchedulerPollInterval : Z := 600000000000.
Definition kReconciliationIntervalFileTime : Z := 6 * 3600 * 10000000.
Definition kSnapshotPublishInterval : Z := 500000000.

Definition TakeScanReissueFloorLocked (m : VolumeSessionManager) (durable : Z) : option FailedScanRetry * VolumeSessionManager :=
  (scanReissueFloors_ m !! durable, with_floors m (delete durable (scanReissueFloors_ m))).

Inductive RetryOwnership := OwnedByNone | ActiveAttempt | EphemeralQueued | SchedulerDispatching | DurableFloor.

#[export] Instance RetryOwnership_eq_dec : EqDecision RetryOwnership.
Proof. solve_decision. Defined.

(** The loop over the sessions of [RetryOwnerStateLocked]. *)
Fixpoint session_owner (m : VolumeSessionManager) (durable : Z) (sessions : list (Z * VolumeSession)) : RetryOwnership :=
  match sessions with
  | [] => OwnedByNone
  | (e, s) :: rest =>
      if negb (durableId s =? durable) then session_owner m durable rest
      else if scanInProgress s then ActiveAttempt
      else if bool_decide (is_Some (failedScanRetries_ m !! e)) then EphemeralQueued
      else session_owner m durable rest
  end.

Definition RetryOwnerStateLocked (m : VolumeSessionManager) (durable : Z) : RetryOwnership :=
  if bool_decide (is_Some (schedulerDispatchRetries_ m !! durable)) then SchedulerDispatching
  else if bool_decide (is_Some (scanReissueFloors_ m !! durable)) then DurableFloor
  else session_owner m durable (in_order (sessionsByEphemeralId_ m)).

Definition merge_retry (existing : option FailedScanRetry) (retry : FailedScanRetry) : FailedScanRetry :=
  match existing with
  | None => retry
  | Some f => mkRetry (Z.max (due f) (due retry)) (reconciliation f || reconciliation retry)
  end.

Definition MergeDurableFloorLocked (m : VolumeSessionManager) (durable : Z) (retry : FailedScanRetry) : VolumeSessionManager :=
  with_floors m (<[durable := merge_retry (scanReissueFloors_ m !! durable) retry]> (scanReissueFloors_ m)).

(** What a session that ends at [at_] still owes. *)
Definition pending_retry (m : VolumeSessionManager) (e : Z) (s : VolumeSession) (at_ : Z) : option FailedScanRetry :=
  let pending := failedScanRetries_ m !! e in
  let pending :=
    if scanInProgress s then
      let bound := at_ + kScanFailureRetryDelay in
      Some (mkRetry (match pending with Some p => Z.max (due p) bound | None => bound end) (reconciliationScan s))
    else pending in
  match schedulerDispatchRetries_ m !! durableId s with
  | Some dispatch => Some match pending with Some p => mkRetry (Z.max (due p) (due dispatch)) (reconciliation p) | None => dispatch end
  | None => pending
  end.

Definition TransferSessionRetryToFloorLocked (m : VolumeSessionManager) (e : Z) (s : VolumeSession) (at_ : Z) : VolumeSessionManager :=
  let pending := pending_retry m e s at_ in
  let m := with_dispatch m (delete (durableId s) (schedulerDispatchRetries_ m)) in
  let m := match pending with Some p => MergeDurableFloorLocked m (durableId s) p | None => m end in
  with_queue m (delete e (failedScanRetries_ m)).

Definition InstallNonAuthoritativeRetryLocked (m : VolumeSessionManager) (e durable dueAt : Z) (isReconciliation : bool)
    : VolumeSessionManager :=
  let m := with_dispatch m (delete durable (schedulerDispatchRetries_ m)) in
  if active_ m then next_generation (with_queue m (<[e := mkRetry dueAt isReconciliation]> (failedScanRetries_ m)))
  else MergeDurableFloorLocked m durable (mkRetry dueAt isReconciliation).

Definition ClaimActiveAttemptLocked (m : VolumeSessionManager) (e durable : Z) (isReconciliation : bool) : VolumeSessionManager :=
  let m := with_dispatch m (delete durable (schedulerDispatchRetries_ m)) in
  let m := with_queue m (delete e (failedScanRetries_ m)) in
  match sessionsByEphemeralId_ m !! e with
  | Some s => if durableId s =? durable then put_session m e (set_attempt s true isReconciliation) else m
  | None => m
  end.

Definition ClearRetryOwnerLocked (m : VolumeSessionManager) (durable e : Z) : VolumeSessionManager :=
  let m := with_queue m (delete e (failedScanRetries_ m)) in
  let m := with_dispatch m (delete durable (schedulerDispatchRetries_ m)) in
  with_floors m (delete durable (scanReissueFloors_ m)).

Definition RearmFailedAdmissionLocked (m : VolumeSessionManager) (now e durable : Z) (isReconciliation : bool) : VolumeSessionManager :=
  match sessionsByEphemeralId_ m !! e with
  | Some s =>
      if durableId s =? durable then
        InstallNonAuthoritativeRetryLocked (put_session m e (set_attempt s false false)) e durable
          (now + kScanFailureRetryDelay) isReconciliation
      else m
  | None => m
  end.

(** ** The world *)

Inductive ConnectionState := Disconnected | Connecting | Handshaking | Active.

Record PrivilegedConnection := mkLink {
  state_ : ConnectionState;
  negotiated_ : ProtocolVersion;
  idleDropped_ : bool;
  activePipe_ : bool   (* whether a pipe is published *)
}.

Inductive effect :=
| Sent (messageType : MessageType) (payload : list Z)
| SnapshotReady (durable : Z) (directories : PooledSnapshotMap * SnapshotPool.heap)
| VolumeUnavailable (durable letter : Z)
| Diagnosed (state : string) (letter : Z)
| ConnectionStopped.

Inductive Lock := Mutex | Wake | Request.

#[export] Instance Lock_eq_dec : EqDecision Lock.
Proof. solve_decision. Defined.

Record World := mkWorld {
  manager : VolumeSessionManager;
  pipeline : IndexPipeline;
  link : PrivilegedConnection;
  steady : Z;
  filetime : Z;
  held : list Lock;
  outcomes : nat;         (* writes and identity lookups so far *)
  effects : list effect
}.

Definition with_manager (w : World) (m : VolumeSessionManager) : World :=
  mkWorld m (pipeline w) (link w) (steady w) (filetime w) (held w) (outcomes w) (effects w).
Definition with_pipeline (w : World) (p : IndexPipeline) : World :=
  mkWorld (manager w) p (link w) (steady w) (filetime w) (held w) (outcomes w) (effects w).
Definition with_link (w : World) (l : PrivilegedConnection) : World :=
  mkWorld (manager w) (pipeline w) l (steady w) (filetime w) (held w) (outcomes w) (effects w).
Definition with_clocks (w : World) (now system : Z) : World :=
  mkWorld (manager w) (pipeline w) (link w) now system (held w) (outcomes w) (effects w).
Definition with_held (w : World) (ls : list Lock) : World :=
  mkWorld (manager w) (pipeline w) (link w) (steady w) (filetime w) ls (outcomes w) (effects w).
Definition with_outcome (w : World) : World :=
  mkWorld (manager w) (pipeline w) (link w) (steady w) (filetime w) (held w) (S (outcomes w)) (effects w).
Definition emit (w : World) (x : effect) : World :=
  mkWorld (manager w) (pipeline w) (link w) (steady w) (filetime w) (held w) (outcomes w) (effects w ++ [x]).

Definition diagnose (w : World) (state : string) (letter : Z) : World := emit w (Diagnosed state letter).

Definition free (ls : list Lock) (w : World) : bool := forallb (fun l => negb (bool_decide (l ∈ held w))) ls.

(** ** Programs *)

(** What a step does to the scan attempt of a volume, where it matters: an attempt begins, ends
    with the authority to finalize, or ends while the volume is paused; the finalization is
    durable; the manager stops. *)
Inductive label :=
| Plain
| Claimed (e durable : Z)
| Authorized (e durable : Z)
| ClosedPaused (e durable : Z)
| Finalized (e durable : Z)
| Stopped.

Inductive prog (A : Type) : Type :=
| Ret (a : A)
| Act {B : Type} (ready : World -> bool) (body : World -> result (B * World)) (tag : B -> label) (k : B -> prog A).
Arguments Ret {A} a.
Arguments Act {A B} ready body tag k.

Fixpoint prog_bind {A B} (p : prog A) (k : A -> prog B) : prog B :=
  match p with
  | Ret a => k a
  | Act ready body tag k' => Act ready body tag (fun b => prog_bind (k' b) k)
  end.

Notation "'let%' x := e 'in' k" := (prog_bind e (fun x => k))
  (at level 10, x name, e at level 100, k at level 200) : ff_scope.
Notation "'let%' ' p := e 'in' k" := (prog_bind e (fun x => match x with p => k end))
  (at level 10, p pattern, e at level 100, k at level 200) : ff_scope.

(** A critical section, with the label its result gives it. *)
Definition labelled {B} (ls : list Lock) (f : World -> B * World) (tag : B -> label) : prog B :=
  Act (free ls) (fun w => Ok (f w)) tag Ret.

Definition section {B} (ls : list Lock) (f : World -> B * World) : prog B := labelled ls f (fun _ => Plain).

(** A step outside every mutex, or under mutexes that are held already. *)
Definition atomic {B} (f : World -> B * World) : prog B := section [] f.

Definition acquire (ls : list Lock) : prog unit := section ls (fun w => (tt, with_held w (ls ++ held w))).
Definition release (ls : list Lock) : prog unit := atomic (fun w => (tt, with_held w (filter (fun l => l ∉ ls) (held w)))).

(** A call of the pipeline; [call_at] also reads the system time. *)
Definition call_at {B} (m : Z -> Pipe B) : prog B :=
  Act (fun _ => true) (fun w => let* '(b, p) := m (filetime w) (pipeline w) in Ok (b, with_pipeline w p)) (fun _ => Plain) Ret.
Definition pipeline_call {B} (m : Pipe B) : prog B := call_at (fun _ => m).

Fixpoint for_each {A} (l : list A) (f : A -> prog unit) : prog unit :=
  match l with
  | [] => Ret tt
  | a :: rest => let% _ := f a in for_each rest f
  end.

(** ** Threads *)

(** The next step of a program, when it is ready and the pipeline does not fail in it. *)
Definition resume {A} (p : prog A) (w : World) : option (label * prog A * World) :=
  match p with
  | Ret _ => None
  | Act ready body tag k =>
      if ready w then match body w with Ok (b, w') => Some (tag b, k b, w') | _ => None end else None
  end.
