(* ===== verification/Sessions.v ===== *)
(** * Sessions: the handlers of the volume session manager

    Models [src/src/engine/src/VolumeSessionManager.cpp] and the operations of
    [PrivilegedConnection.cpp] it calls ([SendRequest], [SetState], [ResetForScanAuthority]).  The
    handlers run on the connection's reader thread, its lifecycle thread, the UI server's threads
    and the scheduler's thread; each is a program of [SessionState].

    The two callbacks of [Main.cpp] are registered.  [towupper], the outcome of a write on the
    pipe and the identity behind a drive letter are parameters, the latter two functions of the
    number of such calls so far.  [Stop] does not wait for the scheduler to end. *)

From stdpp Require Import gmap sorting.
From Stdlib Require Import String.
From stdpp Require Import strings.
From S2P Require Import Prelude Wire Records Dispatch Rules SnapshotPool Sql Store Pipeline PipelineRuns Export SessionState.

Section sessions.
Context (E : Env) (towupper : Z -> Z) (write_ok : nat -> bool) (volume_key : nat -> Z -> option VolumeKey).
#[local] Instance sessions_sqlite : Sqlite := env_db E.

(** ** The pipeline's operations *)

Definition run (o : pipeline_op) : prog bool := pipeline_call (run_op E o).
Definition run_at (o : Z -> pipeline_op) : prog bool := call_at (fun now => run_op E (o now)).
Definition GetVolumeMetadata (volume : Z) : prog (option VolumeMetadata) := pipeline_call (on_store (Store.GetVolumeMetadata volume)).
Definition ResolveVolumeId (key : VolumeKey) : prog Z := pipeline_call (ResolveVolume key).
Definition PassActive (volume : Z) : prog bool := pipeline_call (IsReconciliationPassActive volume).

(** ** The connection *)

Definition SendRequest (messageType : MessageType) (payload : list Z) : prog bool :=
  atomic (fun w =>
    if activePipe_ (link w) then
      let sent := write_ok (outcomes w) in
      let w := with_outcome w in
      (sent, if sent then emit w (Sent messageType payload) else w)
    else (false, w)).

Definition NegotiatedVersion : prog ProtocolVersion := atomic (fun w => (negotiated_ (link w), w)).

Definition is_active : prog bool := atomic (fun w => (active_ (manager w), w)).
Definition is_running : prog bool := atomic (fun w => (running_ (manager w), w)).

Definition RefreshProjectionScanState : prog unit :=
  let% anyScanInProgress := section [Mutex] (fun w => (any_scan (manager w), w)) in
  let% _ := run (DoBulk anyScanInProgress) in
  Ret tt.

(** The section in which a lost connection's retries move to the durable floor. *)
Definition abandon_sessions (w : World) : list (Z * Z) * World :=
  let m := manager w in
  let sessions := in_order (sessionsByEphemeralId_ m) in
  let m := fold_left (fun m es => TransferSessionRetryToFloorLocked m es.1 es.2 (steady w)) sessions m in
  let m := fold_left (fun m dr => MergeDurableFloorLocked m dr.1 dr.2) (in_order (schedulerDispatchRetries_ m)) m in
  let m := with_dispatch (with_queue (with_published (with_sessions m ∅) ∅) ∅) ∅ in
  ((fun es => (durableId es.2, driveLetter es.2)) <$> sessions, with_manager w (next_generation m)).

Definition OnConnectionStateChanged (state : ConnectionState) : prog unit :=
  match state with
  | Active =>
      let% wasActive := atomic (fun w => (active_ (manager w), with_manager w (with_active (manager w) true))) in
      if wasActive : bool then Ret tt
      else let% _ := SendRequest EnumerateVolumes [] in Ret tt
  | _ =>
      let% _ := atomic (fun w => (tt, with_manager w (with_active (manager w) false))) in
      let% abandonedPasses := section [Mutex; Wake] abandon_sessions in
      let% _ := for_each abandonedPasses (fun dl =>
        let% passActive := PassActive dl.1 in
        if passActive : bool then
          let% _ := run (DoAbort dl.1) in
          atomic (fun w => (tt, diagnose w "reconciliation-pass-aborted-connection-lost" dl.2))
        else Ret tt) in
      let% _ := run (DoBulk false) in
      Ret tt
  end.

(** [SetState]: the callback runs on the calling thread. *)
Definition SetState (state : ConnectionState) : prog unit :=
  let% _ := atomic (fun w => (tt, with_link w (mkLink state (negotiated_ (link w)) (idleDropped_ (link w)) (activePipe_ (link w))))) in
  OnConnectionStateChanged state.

Definition ResetForScanAuthority : prog unit :=
  let% _ := atomic (fun w => (tt, with_link w (mkLink (state_ (link w)) (negotiated_ (link w)) false (activePipe_ (link w))))) in
  SetState Disconnected.

Definition SendSessionTeardown (e : Z) (s : VolumeSession) : prog unit :=
  let% _ := acquire [Request] in
  let% active := is_active in
  let% _ :=
    if active : bool then
      let% _ := SendRequest StopVolumeScan (struct_bytes (mkVolumePayload e)) in
      if journalOpenRequested s then
        let% _ := SendRequest CloseUsnJournal (struct_bytes (mkVolumePayload e)) in Ret tt
      else Ret tt
    else Ret tt in
  release [Request].

(** The session ends: its teardown is sent and its directories are withdrawn. *)
Definition withdraw (es : Z * VolumeSession) : prog unit :=
  let% _ := SendSessionTeardown es.1 es.2 in
  atomic (fun w => (tt, emit w (VolumeUnavailable (durableId es.2) (driveLetter es.2)))).

(** ** Configuration and pauses *)

(** The first setting whose key begins with [letter]. *)
Definition configured_for (volumes : list VolumeSetting) (letter : Z) : option VolumeSetting :=
  List.find (fun v => match key v with [] => false | c :: _ => towupper c =? letter end) volumes.

Definition IsPausedLocked (m : VolumeSessionManager) (letter : Z) : bool :=
  paused_ m || bool_decide (towupper letter ∈ pausedVolumes_ m).

Definition set_session (w : World) (e : Z) (s : VolumeSession) : World := with_manager w (put_session (manager w) e s).

(** The session is recorded, its retry transferred, and it is erased. *)
Definition end_session (e at_ : Z) (w : World) : list (Z * VolumeSession) * World :=
  match sessionsByEphemeralId_ (manager w) !! e with
  | Some s => ([(e, s)], with_manager w (erase_session (TransferSessionRetryToFloorLocked (manager w) e s at_) e))
  | None => ([], w)
  end.

(** What the iterator shows of a session. *)
Definition look (e : Z) : prog (option VolumeSession) := atomic (fun w => (sessionsByEphemeralId_ (manager w) !! e, w)).

(** The loop over the sessions of [ReloadConfiguration]: the sessions to stop. *)
Fixpoint reload_sessions (volumes : list VolumeSetting) (disabledAt : Z) (ids : list Z) : prog (list (Z * VolumeSession)) :=
  match ids with
  | [] => Ret []
  | e :: rest =>
      let% session := look e in
      let setting := match session with Some s => configured_for volumes (towupper (driveLetter s)) | None => None end in
      let% ended :=
        match session, setting with
        | Some s, Some c =>
            if enabled c then let% _ := run (DoRules (durableId s) c) in Ret [] else atomic (end_session e disabledAt)
        | _, _ => atomic (end_session e disabledAt)
        end in
      let% toStop := reload_sessions volumes disabledAt rest in
      Ret (ended ++ toStop)
  end.

Definition RequestJournalOpen (e resumeUsn expectedDurableId : Z) : prog bool :=
  let% running := is_running in
  if negb running then Ret false
  else
    let% _ := acquire [Request] in
    let% running := is_running in
    if negb running then let% _ := release [Request] in Ret false
    else
      let expected s := (expectedDurableId =? 0) || (durableId s =? expectedDurableId) in
      let requested (b : bool) w :=
        match sessionsByEphemeralId_ (manager w) !! e with
        | Some s => if expected s then (true, set_session w e (set_journal s (journalId s) (journalIdKnown s) b)) else (false, w)
        | None => (false, w)
        end in
      let% found := section [Mutex] (requested true) in
      if negb found then let% _ := release [Request] in Ret false
      else
        let% sent := SendRequest OpenUsnJournal (struct_bytes (mkOpenJournal e resumeUsn)) in
        if sent : bool then let% _ := release [Request] in Ret true
        else
          let% _ := section [Mutex] (requested false) in
          let% _ := release [Request] in
          Ret false.

(** The first section of [StartOrResumeVolume]: whether the volume may be started. *)
Definition may_start (s : VolumeSession) (w : World) : bool * World :=
  let m := manager w in
  (negb (match configured_for (configuredVolumes_ m) (driveLetter s) with Some c => negb (enabled c) | None => false end) &&
   negb (IsPausedLocked m (driveLetter s)), w).

(** The floor's retry moves to this connection's queue. *)
Definition requeue_floor (m : VolumeSessionManager) (e : Z) (floor : FailedScanRetry) : VolumeSessionManager :=
  next_generation (with_queue m (<[e := floor]> (failedScanRetries_ m))).

Inductive start_decision :=
| StartReturns                                   (* [return false] *)
| StartFloor (floor : FailedScanRetry)           (* the floor was consumed *)
| StartReset                                     (* [resetConnectionForAuthority] *)
| StartScan                                      (* [startInitialScan] *)
| StartNothing.                                  (* only the journal is requested *)

(** The second section: the queue and the floor are inspected and the attempt is claimed. *)
Definition start_section (e durable : Z) (scanComplete supportsScanAttemptStarted : bool) (w : World) : start_decision * World :=
  let m := manager w in
  match sessionsByEphemeralId_ m !! e with
  | None => (StartReturns, w)
  | Some s =>
      if negb (durableId s =? durable) then (StartReturns, w)
      else if awaitingScanAttemptStarted s then (StartReturns, w)
      else
        let queuedRetry := failedScanRetries_ m !! e in
        let '(reissueFloor, m) := TakeScanReissueFloorLocked m durable in
        match reissueFloor with
        | Some floor => (StartFloor floor, with_manager w (requeue_floor m e floor))
        | None =>
            if bool_decide (queuedRetry = None) && negb scanComplete then
              if scanBatchFailed s || scanInProgress s then
                if negb supportsScanAttemptStarted then (StartReset, with_manager w m)
                else
                  let w := diagnose (with_manager w m) "scan-attempt-started-barrier-pending" (driveLetter s) in
                  (StartScan, with_manager w (ClaimActiveAttemptLocked (put_session m e (set_awaiting s true)) e durable false))
              else
                (StartScan, with_manager w (ClaimActiveAttemptLocked (put_session m e (set_batch_failed s false)) e durable false))
            else (StartNothing, with_manager w m)
        end
  end.

Definition start_tag (e durable : Z) (d : start_decision) : label := match d with StartScan => Claimed e durable | _ => Plain end.

Definition StartOrResumeVolume (e : Z) (session : VolumeSession) : prog bool :=
  let% allowed := section [Mutex; Wake] (may_start session) in
  if negb allowed then Ret false
  else
    let durable := durableId session in
    let% meta := GetVolumeMetadata durable in
    let scanComplete := match meta with Some x => meta_scanComplete x | None => false end in
    let resumeUsn := match meta with Some x => meta_resumeUsn x | None => 0 end in
    let% version := NegotiatedVersion in
    let% decision := labelled [Mutex; Wake] (start_section e durable scanComplete (ProtocolSupportsScanAttemptStarted version))
      (start_tag e durable) in
    match decision with
    | StartReturns => Ret false
    | StartReset => let% _ := ResetForScanAuthority in Ret false
    | StartFloor _ => if negb scanComplete then Ret false else RequestJournalOpen e resumeUsn durable
    | StartNothing => RequestJournalOpen e resumeUsn durable
    | StartScan =>
        let% _ := RefreshProjectionScanState in
        let% version := NegotiatedVersion in
        let cursor := match meta with Some x => meta_scanCursor x | None => [] end in
        let% sent := SendRequest StartVolumeScan (start_scan_payload version e cursor 0) in
        if negb sent then let% _ := ResetForScanAuthority in Ret false
        else RequestJournalOpen e resumeUsn durable
    end.

Definition ReloadConfiguration (volumes : list VolumeSetting) : prog unit :=
  let% _ := acquire [Mutex; Wake] in
  let% '(disabledAt, sessions) := atomic (fun w =>
    let m := with_configuration (manager w) volumes in
    ((steady w, (in_order (sessionsByEphemeralId_ m)).*1), with_manager w m)) in
  let% toStop := reload_sessions volumes disabledAt sessions in
  let% _ := release [Mutex; Wake] in
  let% _ := for_each toStop withdraw in
  let% _ := RefreshProjectionScanState in
  let% active := is_active in
  if active : bool then let% _ := SendRequest EnumerateVolumes [] in Ret tt else Ret tt.

Definition ResumeAffectedSessions (affectedLetters : list Z) : prog unit :=
  let% toResume := section [Mutex] (fun w =>
    (filter (fun es => (bool_decide (towupper (driveLetter es.2) ∈ affectedLetters) && negb (IsPausedLocked (manager w) (driveLetter es.2))) = true)
       (in_order (sessionsByEphemeralId_ (manager w))), w)) in
  for_each toResume (fun es => let% _ := StartOrResumeVolume es.1 es.2 in Ret tt).

(** The section of [SetIndexingPaused]; no letters are affected by a scope that is none. *)
Definition pause_section (scope : Z) (paused : bool) (w : World) : option (list Z) * World :=
  let m := manager w in
  if scope =? 0 then
    (Some ((fun es => towupper (driveLetter es.2)) <$> in_order (sessionsByEphemeralId_ m)),
     with_manager w (with_pause m paused (if paused then pausedVolumes_ m else ∅)))
  else
    let letter := towupper scope in
    if (letter <? 65) || (90 <? letter) then (None, w)
    else
      (Some [letter],
       with_manager w (with_pause m (paused_ m) (if paused then {[letter]} ∪ pausedVolumes_ m else pausedVolumes_ m ∖ {[letter]}))).

Definition SetIndexingPaused (scope : Z) (paused : bool) : prog unit :=
  let% affectedLetters := section [Mutex] (pause_section scope paused) in
  match affectedLetters with
  | None => Ret tt
  | Some letters => if paused then Ret tt else ResumeAffectedSessions letters
  end.

(** ** Reconciliation *)

Inductive trigger_decision :=
| TriggerReturns
| TriggerFloor
| TriggerReset
| TriggerScan.

Definition trigger_section (e durable : Z) (w : World) : trigger_decision * World :=
  let m := manager w in
  match sessionsByEphemeralId_ m !! e with
  | None => (TriggerReturns, w)
  | Some s =>
      if negb (durableId s =? durable) then (TriggerReturns, w)
      else if IsPausedLocked m (driveLetter s) then (TriggerReturns, w)
      else if scanInProgress s then
        (TriggerReturns,
         if deferredReconciliation s then w
         else diagnose (set_session w e (set_deferred s true)) "reconciliation-deferred-scan-in-flight" (driveLetter s))
      else
        let '(reissueFloor, m) := TakeScanReissueFloorLocked m durable in
        match reissueFloor with
        | Some floor => (TriggerFloor, with_manager w (requeue_floor m e floor))
        | None =>
            if scanBatchFailed s then (TriggerReset, with_manager w m)
            else if bool_decide (is_Some (failedScanRetries_ m !! e)) then (TriggerReturns, with_manager w m)
            else (TriggerScan, with_manager w (ClaimActiveAttemptLocked m e durable true))
        end
  end.

Definition trigger_tag (e durable : Z) (d : trigger_decision) : label := match d with TriggerScan => Claimed e durable | _ => Plain end.

Definition kStartVolumeScanLowPriority : Z := 1.

Definition TriggerReconciliation (e durable : Z) : prog bool :=
  let% decision := labelled [Mutex; Wake] (trigger_section e durable) (trigger_tag e durable) in
  match decision with
  | TriggerReturns | TriggerFloor => Ret false
  | TriggerReset => let% _ := ResetForScanAuthority in Ret false
  | TriggerScan =>
      let% _ := RefreshProjectionScanState in
      let% _ := run (DoBegin durable) in
      let% version := NegotiatedVersion in
      let% sent := SendRequest StartVolumeScan (BuildStartScanPayload version e [] kStartVolumeScanLowPriority) in
      if sent : bool then Ret true
      else
        let% _ := section [Mutex; Wake] (fun w => (tt, with_manager w (RearmFailedAdmissionLocked (manager w) (steady w) e durable true))) in
        let% _ := ResetForScanAuthority in
        Ret false
  end.

(** ** Snapshots *)

Definition kInitialIndexedExportDirectories : Z := 4096.

(** Whether the snapshot is due; a published one is remembered. *)
Definition publish_section (durable now : Z) (force : bool) (w : World) : bool * World :=
  let m := manager w in
  let scanning := existsb (fun es => (durableId es.2 =? durable) && scanInProgress es.2) (in_order (sessionsByEphemeralId_ m)) in
  let recent := match lastSnapshotPublish_ m !! durable with Some previous => now - previous <? kSnapshotPublishInterval | None => false end in
  if negb force && (scanning || recent) then (false, w)
  else (true, with_manager w (with_published m (<[durable := now]> (lastSnapshotPublish_ m)))).

Definition RepublishSnapshot (durable letter : Z) (force : bool) : prog unit :=
  let% now := atomic (fun w => (steady w, w)) in
  let% publish := section [Mutex] (publish_section durable now force) in
  if negb publish then Ret tt
  else
    let% directories := pipeline_call (ExportDirectorySnapshotBoundedPooled E durable [letter; 58] kInitialIndexedExportDirectories) in
    atomic (fun w => (tt, emit w (SnapshotReady durable directories))).

(** ** Scan messages *)

Inductive batch_decision :=
| BatchIgnored
| BatchBeforeBarrier (letter : Z)
| BatchWhilePaused (letter : Z)
| BatchApplies (durable letter : Z).

Definition batch_section (e : Z) (w : World) : batch_decision * World :=
  match sessionsByEphemeralId_ (manager w) !! e with
  | None => (BatchIgnored, w)
  | Some s =>
      if awaitingScanAttemptStarted s then (BatchBeforeBarrier (driveLetter s), w)
      else if IsPausedLocked (manager w) (driveLetter s) then
        (BatchWhilePaused (driveLetter s), set_session w e (set_batch_failed s true))
      else (BatchApplies (durableId s) (driveLetter s), w)
  end.

(** A batch the store rejected leaves a hole in the scan. *)
Definition hole_section (e durable : Z) (w : World) : unit * World :=
  match sessionsByEphemeralId_ (manager w) !! e with
  | Some s => (tt, if durableId s =? durable then set_session w e (set_batch_failed s true) else w)
  | None => (tt, w)
  end.

Definition ApplyScanBatch (e : Z) (cursor : list Z) (apply : Z -> pipeline_op) : prog unit :=
  let% decision := section [Mutex] (batch_section e) in
  match decision with
  | BatchIgnored => Ret tt
  | BatchBeforeBarrier letter => atomic (fun w => (tt, diagnose w "scan-batch-before-scan-attempt-started" letter))
  | BatchWhilePaused letter => atomic (fun w => (tt, diagnose w "scan-batch-dropped-paused-non-authoritative" letter))
  | BatchApplies durable letter =>
      let% applied := run (apply durable) in
      if negb applied then
        let% _ := section [Mutex] (hole_section e durable) in
        atomic (fun w => (tt, diagnose w "scan-batch-apply-failed-cursor-frozen" letter))
      else
        let% _ := run (DoCursor durable cursor) in
        RepublishSnapshot durable letter false
  end.

Definition OnScanBatch (e : Z) (cursor : list Z) (records : list MftRecordV1) : prog unit :=
  ApplyScanBatch e cursor (fun durable => DoMft1 durable records).
Definition OnScanBatchV2 (e : Z) (cursor : list Z) (records : list MftRecordV2) : prog unit :=
  ApplyScanBatch e cursor (fun durable => DoMft2 durable records).

Record Completion := mkCompletion {
  c_durable : Z; c_letter : Z; c_anyScanInProgress : bool; c_wasReconciliationScan : bool;
  c_batchFailed : bool; c_deferred : bool; c_paused : bool
}.

Inductive complete_decision :=
| CompleteIgnored
| CompleteBeforeBarrier (letter : Z)
| CompleteStale
| Completes (c : Completion).

(** Closing the attempt and installing its next retry owner are one section. *)
Definition complete_section (e : Z) (w : World) : complete_decision * World :=
  let m := manager w in
  match sessionsByEphemeralId_ m !! e with
  | None => (CompleteIgnored, w)
  | Some s =>
      if awaitingScanAttemptStarted s then (CompleteBeforeBarrier (driveLetter s), w)
      else if negb (scanInProgress s) then (CompleteStale, diagnose w "scan-complete-without-scan-in-progress" (driveLetter s))
      else
        let paused := IsPausedLocked m (driveLetter s) in
        let m := put_session m e (set_scan s false false false false (awaitingScanAttemptStarted s)) in
        let m' :=
          if scanBatchFailed s then
            InstallNonAuthoritativeRetryLocked m e (durableId s) (steady w + kScanFailureRetryDelay) (reconciliationScan s)
          else m in
        (Completes (mkCompletion (durableId s) (driveLetter s) (any_scan m) (reconciliationScan s) (scanBatchFailed s)
           (deferredReconciliation s) paused), with_manager w m')
  end.

Definition complete_tag (e : Z) (d : complete_decision) : label :=
  match d with
  | Completes c =>
      if c_batchFailed c then Plain
      else if c_paused c then ClosedPaused e (c_durable c) else Authorized e (c_durable c)
  | _ => Plain
  end.

(** [retryFinalization]. *)
Definition retry_section (e durable : Z) (isReconciliation : bool) (w : World) : unit * World :=
  let m := manager w in
  let dueAt := steady w + kScanFailureRetryDelay in
  let floor := MergeDurableFloorLocked m durable (mkRetry dueAt isReconciliation) in
  (tt, with_manager w
    match sessionsByEphemeralId_ m !! e with
    | Some s => if durableId s =? durable then InstallNonAuthoritativeRetryLocked m e durable dueAt isReconciliation else floor
    | None => floor
    end).

Definition retryFinalization (e : Z) (c : Completion) : prog unit :=
  let% _ := section [Mutex; Wake] (retry_section e (c_durable c) (c_wasReconciliationScan c || c_deferred c)) in
  let% _ := atomic (fun w => (tt, diagnose w "scan-finalization-failed-retry-owned" (c_letter c))) in
  RepublishSnapshot (c_durable c) (c_letter c) true.

(** The completion did not cover the volume: nothing it saw may delete rows. *)
Definition discard_completion (e : Z) (c : Completion) : prog unit :=
  let durable := c_durable c in
  let% passActive := PassActive durable in
  let% _ := if passActive : bool then let% _ := run (DoAbort durable) in Ret tt else Ret tt in
  let% _ :=
    if c_deferred c then
      section [Mutex] (fun w =>
        match sessionsByEphemeralId_ (manager w) !! e with
        | Some s => (tt, if durableId s =? durable then set_session w e (set_deferred s true) else w)
        | None => (tt, w)
        end)
    else Ret tt in
  let% _ := atomic (fun w => (tt, diagnose w (if c_paused c then "scan-complete-non-authoritative-paused"
                                              else "scan-complete-non-authoritative-batch-failed") (c_letter c))) in
  RepublishSnapshot durable (c_letter c) true.

(** The attempt's intent is satisfied. *)
Definition finish_completion (e : Z) (c : Completion) : prog unit :=
  let durable := c_durable c in
  let% _ := labelled [Mutex; Wake] (fun w => (tt, with_manager w (ClearRetryOwnerLocked (manager w) durable e))) (fun _ => Finalized e durable) in
  let% foreign := if c_wasReconciliationScan c then Ret false else PassActive durable in
  let% _ :=
    if foreign : bool then
      let% _ := atomic (fun w => (tt, diagnose w "reconciliation-pass-not-owned-by-completing-scan" (c_letter c))) in
      let% _ := run (DoAbort durable) in Ret tt
    else Ret tt in
  let% _ := if c_deferred c then let% _ := TriggerReconciliation e durable in Ret tt else Ret tt in
  RepublishSnapshot durable (c_letter c) true.

(** From the closed attempt to its durable finalization. *)
Definition finalize (e : Z) (c : Completion) : prog unit :=
  let durable := c_durable c in
  let% owned := if c_wasReconciliationScan c then PassActive durable else Ret false in
  let% stillActive :=
    if owned : bool then let% _ := run (DoFinish durable) in PassActive durable else Ret false in
  if stillActive : bool then retryFinalization e c
  else
    let% marked := run (DoComplete durable) in
    if negb marked then retryFinalization e c
    else
      let% recorded := if owned then run_at (fun now => DoReconciled durable now) else Ret true in
      if negb recorded then retryFinalization e c else finish_completion e c.

Definition OnScanComplete (e : Z) : prog unit :=
  let% decision := labelled [Mutex; Wake] (complete_section e) (complete_tag e) in
  match decision with
  | CompleteIgnored | CompleteStale => Ret tt
  | CompleteBeforeBarrier letter => atomic (fun w => (tt, diagnose w "scan-complete-before-scan-attempt-started" letter))
  | Completes c =>
      let% _ := run (DoBulk (c_anyScanInProgress c)) in
      if c_paused c || c_batchFailed c then discard_completion e c else finalize e c
  end.

Inductive failed_decision :=
| FailedIgnored
| FailedBeforeBarrier (letter : Z)
| FailedStale
| Fails (durable letter : Z) (anyScanInProgress : bool).

Definition failed_section (e : Z) (w : World) : failed_decision * World :=
  let m := manager w in
  match sessionsByEphemeralId_ m !! e with
  | None => (FailedIgnored, w)
  | Some s =>
      if awaitingScanAttemptStarted s then (FailedBeforeBarrier (driveLetter s), w)
      else if negb (scanInProgress s) then (FailedStale, diagnose w "scan-failed-without-scan-in-progress" (driveLetter s))
      else
        let m := put_session m e (set_scan s false false false (deferredReconciliation s) (awaitingScanAttemptStarted s)) in
        (Fails (durableId s) (driveLetter s) (any_scan m),
         with_manager w (InstallNonAuthoritativeRetryLocked m e (durableId s) (steady w + kScanFailureRetryDelay) (reconciliationScan s)))
  end.

Definition OnScanFailed (e : Z) : prog unit :=
  let% decision := section [Mutex; Wake] (failed_section e) in
  match decision with
  | FailedIgnored | FailedStale => Ret tt
  | FailedBeforeBarrier letter => atomic (fun w => (tt, diagnose w "scan-failed-before-scan-attempt-started" letter))
  | Fails durable letter anyScanInProgress =>
      let% _ := run (DoBulk anyScanInProgress) in
      let% passActive := PassActive durable in
      let% _ := if passActive : bool then let% _ := run (DoAbort durable) in Ret tt else Ret tt in
      let% _ := atomic (fun w => (tt, diagnose w "service-reported-scan-failure" letter)) in
      RepublishSnapshot durable letter true
  end.

Definition started_section (e : Z) (w : World) : option Z * World :=
  match sessionsByEphemeralId_ (manager w) !! e with
  | Some s =>
      if negb (scanInProgress s) || negb (awaitingScanAttemptStarted s) then (None, w)
      else (Some (driveLetter s), set_session w e (set_scan s (scanInProgress s) false (reconciliationScan s) (deferredReconciliation s) false))
  | None => (None, w)
  end.

Definition OnScanAttemptStarted (e : Z) : prog unit :=
  let% accepted := section [Mutex] (started_section e) in
  match accepted with
  | Some letter => atomic (fun w => (tt, diagnose w "scan-attempt-started-barrier-accepted" letter))
  | None => Ret tt
  end.

(** ** Journal messages *)

Definition OnJournalOpened (e newJournalId currentUsn : Z) : prog unit :=
  let% found := section [Mutex] (fun w =>
    match sessionsByEphemeralId_ (manager w) !! e with
    | Some s => (Some (durableId s), set_session w e (set_journal s newJournalId true true))
    | None => (None, w)
    end) in
  match found with
  | None => Ret tt
  | Some durable =>
      let% meta := GetVolumeMetadata durable in
      let replaced := match meta with
                      | Some x => match meta_journalId x with Some old => negb (old =? newJournalId) | None => false end
                      | None => false
                      end in
      if replaced then
        let% _ := run (DoJournal durable newJournalId currentUsn) in
        let% _ := TriggerReconciliation e durable in Ret tt
      else
        let% _ := run (DoJournal durable newJournalId match meta with Some x => meta_resumeUsn x | None => currentUsn end) in Ret tt
  end.

Definition journal_section (e : Z) (w : World) : option (Z * Z * Z) * World :=
  match sessionsByEphemeralId_ (manager w) !! e with
  | Some s =>
      if negb (journalIdKnown s) || IsPausedLocked (manager w) (driveLetter s) then (None, w)
      else (Some (durableId s, driveLetter s, journalId s), w)
  | None => (None, w)
  end.

Definition ApplyJournalBatch (e latestUsn : Z) (apply : Z -> pipeline_op) : prog unit :=
  let% found := section [Mutex] (journal_section e) in
  match found with
  | None => Ret tt
  | Some (durable, letter, journal) =>
      let% applied := run (apply durable) in
      if negb applied then
        let% _ := atomic (fun w => (tt, diagnose w "journal-batch-apply-failed-reconciliation-requested" letter)) in
        let% _ := TriggerReconciliation e durable in Ret tt
      else
        let% _ := run (DoJournal durable journal latestUsn) in
        RepublishSnapshot durable letter false
  end.

Definition OnJournalBatch (e latestUsn : Z) (records : list UsnDeltaV2) : prog unit :=
  ApplyJournalBatch e latestUsn (fun durable => DoUsn2 durable records).
Definition OnJournalBatchV3 (e latestUsn : Z) (records : list UsnDeltaV3) : prog unit :=
  ApplyJournalBatch e latestUsn (fun durable => DoUsn3 durable records).

Definition OnJournalResumeInvalid (e : Z) : prog unit :=
  let% found := section [Mutex] (fun w =>
    (match sessionsByEphemeralId_ (manager w) !! e with
     | Some s => Some (durableId s, journalId s, journalIdKnown s)
     | None => None
     end, w)) in
  match found with
  | None => Ret tt
  | Some (durable, journal, known) =>
      let% _ := if known : bool then let% _ := run (DoJournal durable journal 0) in Ret tt else Ret tt in
      let% _ := TriggerReconciliation e durable in
      let% _ := RequestJournalOpen e 0 durable in
      Ret tt
  end.

(** ** The volume list *)

(** [ResolveVolumeKeyForDriveLetter]. *)
Definition ResolveVolumeKeyForDriveLetter (letter : Z) : prog (option VolumeKey) :=
  atomic (fun w => (volume_key (outcomes w) letter, with_outcome w)).

(** The volumes that are new to this connection, enabled and resolved get a session. *)
Fixpoint open_volumes (volumes : list VolumeInfo) : prog (list (Z * VolumeSession)) :=
  match volumes with
  | [] => Ret []
  | info :: rest =>
      let% configured := atomic (fun w =>
        (match sessionsByEphemeralId_ (manager w) !! vi_id info with
         | Some _ => None
         | None => configured_for (configuredVolumes_ (manager w)) (towupper (vi_driveLetter info))
         end, w)) in
      match configured with
      | None => open_volumes rest
      | Some setting =>
          if negb (enabled setting) then open_volumes rest
          else
            let% found := ResolveVolumeKeyForDriveLetter (vi_driveLetter info) in
            match found with
            | None => open_volumes rest
            | Some identity =>
                let% durable := ResolveVolumeId identity in
                if durable =? 0 then open_volumes rest
                else
                  let% _ := run_at (fun now => DoAvailable durable true now) in
                  let% _ := run (DoRules durable setting) in
                  let session := new_session durable (vi_driveLetter info) in
                  let% _ := atomic (fun w => (tt, set_session w (vi_id info) session)) in
                  let% toStart := open_volumes rest in
                  Ret ((vi_id info, session) :: toStart)
            end
      end
  end.

(** The sessions whose volume is absent end. *)
Fixpoint drop_absent (seen ids : list Z) : prog (list (Z * VolumeSession)) :=
  match ids with
  | [] => Ret []
  | e :: rest =>
      if bool_decide (e ∈ seen) then drop_absent seen rest
      else
        let% session := look e in
        let% _ :=
          match session with
          | Some s => let% _ := run_at (fun now => DoAvailable (durableId s) false now) in Ret tt
          | None => Ret tt
          end in
        let% ended := atomic (fun w => end_session e (steady w) w) in
        let% unavailable := drop_absent seen rest in
        Ret (ended ++ unavailable)
  end.

Definition OnVolumeList (volumes : list VolumeInfo) : prog unit :=
  let% _ := acquire [Mutex; Wake] in
  let% _ := atomic (fun w => (tt, with_manager w (with_observed (manager w) (list_to_set ((fun v => towupper (vi_driveLetter v)) <$> volumes))))) in
  let% toStart := open_volumes volumes in
  let% ids := atomic (fun w => ((in_order (sessionsByEphemeralId_ (manager w))).*1, w)) in
  let% unavailable := drop_absent (vi_id <$> volumes) ids in
  let% _ := release [Mutex; Wake] in
  let% _ := RefreshProjectionScanState in
  let% _ := for_each toStart (fun es => let% _ := StartOrResumeVolume es.1 es.2 in Ret tt) in
  for_each unavailable withdraw.

(** ** The scheduler *)

Definition next_wake (m : VolumeSessionManager) (now : Z) : Z :=
  fold_left (fun wake er => if due er.2 <? wake then due er.2 else wake) (in_order (failedScanRetries_ m)) (now + kSchedulerPollInterval).

Definition any_due (m : VolumeSessionManager) (now : Z) : bool := existsb (fun er => due er.2 <=? now) (in_order (failedScanRetries_ m)).

(** [wake_until] with its predicate: the thread sleeps until it holds or the time has come. *)
Definition scheduler_wait : prog unit :=
  let% '(nextWake, generation) := section [Wake] (fun w => ((next_wake (manager w) (steady w), scanRetryGeneration_ (manager w)), w)) in
  Act (fun w => free [Wake] w &&
         (negb (running_ (manager w)) || negb (scanRetryGeneration_ (manager w) =? generation) ||
          any_due (manager w) (steady w) || (nextWake <=? steady w)))
    (fun w => Ok (tt, w)) (fun _ => Plain) Ret.

(** While the connection is down the queued retries keep their distance. *)
Definition postpone_section (w : World) : unit * World :=
  let retryAt := steady w + kScanFailureRetryDelay in
  let m := manager w in
  (tt, with_manager w (with_queue m ((fun r => if due r <=? retryAt then mkRetry retryAt (reconciliation r) else r) <$> failedScanRetries_ m))).

(** The retries that are due leave the queue for the scheduler's hand. *)
Definition dispatch_one (now : Z) (acc : VolumeSessionManager * list (Z * Z * bool)) (er : Z * FailedScanRetry)
    : VolumeSessionManager * list (Z * Z * bool) :=
  let '(m, dispatched) := acc in
  let '(e, r) := er in
  if now <? due r then acc
  else
    match sessionsByEphemeralId_ m !! e with
    | None => acc
    | Some s =>
        let m := with_dispatch m (<[durableId s := r]> (schedulerDispatchRetries_ m)) in
        (with_queue m (delete e (failedScanRetries_ m)), dispatched ++ [(e, durableId s, reconciliation r)])
    end.

Definition dispatch_section (w : World) : list (Z * Z * bool) * World :=
  let '(m, dispatched) := fold_left (dispatch_one (steady w)) (in_order (failedScanRetries_ (manager w))) (manager w, []) in
  (dispatched, with_manager w m).

Inductive adoption := AdoptGone | AdoptBusy | AdoptReady (s : VolumeSession).

Definition erase_dispatch (m : VolumeSessionManager) (durable : Z) : VolumeSessionManager :=
  with_dispatch m (delete durable (schedulerDispatchRetries_ m)).

Definition adopt_section (e durable : Z) (w : World) : adoption * World :=
  let m := manager w in
  match schedulerDispatchRetries_ m !! durable with
  | None => (AdoptGone, w)
  | Some r =>
      let lost := with_manager w (erase_dispatch (MergeDurableFloorLocked m durable r) durable) in
      match sessionsByEphemeralId_ m !! e with
      | None => (AdoptGone, lost)
      | Some s =>
          if negb (durableId s =? durable) then (AdoptGone, lost)
          else if negb (scanInProgress s) && negb (IsPausedLocked m (driveLetter s)) then (AdoptReady s, w)
          else (AdoptBusy, w)
      end
  end.

(** The dispatched retry goes back to the queue, five seconds away. *)
Definition requeue (m : VolumeSessionManager) (now e durable : Z) (r : FailedScanRetry) : VolumeSessionManager :=
  erase_dispatch (next_generation (with_queue m (<[e := mkRetry (now + kScanFailureRetryDelay) (reconciliation r)]> (failedScanRetries_ m)))) durable.

Definition requeue_section (e durable : Z) (w : World) : unit * World :=
  match schedulerDispatchRetries_ (manager w) !! durable with
  | Some r => (tt, with_manager w (requeue (manager w) (steady w) e durable r))
  | None => (tt, w)
  end.

(** After the admission: whoever owns the retry now; [true] when it went back to the queue. *)
Definition settle_section (e durable : Z) (w : World) : bool * World :=
  let m := manager w in
  match schedulerDispatchRetries_ m !! durable with
  | None => (false, w)
  | Some r =>
      let lost := (false, with_manager w (erase_dispatch (MergeDurableFloorLocked m durable r) durable)) in
      match sessionsByEphemeralId_ m !! e with
      | Some s =>
          if negb (durableId s =? durable) then lost
          else if scanInProgress s then (false, with_manager w (erase_dispatch m durable))
          else (true, with_manager w (requeue m (steady w) e durable r))
      | None => lost
      end
  end.

Definition dispatch_retry (retry : Z * Z * bool) : prog unit :=
  let '(e, durable, isReconciliation) := retry in
  let% adopted := section [Mutex; Wake] (adopt_section e durable) in
  match adopted with
  | AdoptGone => Ret tt
  | AdoptBusy => section [Mutex; Wake] (requeue_section e durable)
  | AdoptReady session =>
      let% issued := if isReconciliation : bool then TriggerReconciliation e durable else StartOrResumeVolume e session in
      let% keptOwner := section [Mutex; Wake] (settle_section e durable) in
      if negb issued && negb keptOwner && isReconciliation then let% _ := run (DoAbort durable) in Ret tt else Ret tt
  end.

(** The sessions whose last reconciliation is six hours old. *)
Fixpoint due_sessions (now : Z) (sessions : list (Z * VolumeSession)) : prog (list (Z * Z)) :=
  match sessions with
  | [] => Ret []
  | (e, s) :: rest =>
      let% meta := GetVolumeMetadata (durableId s) in
      let% paused := atomic (fun w => (IsPausedLocked (manager w) (driveLetter s), w)) in
      let% others := due_sessions now rest in
      Ret match meta with
          | Some x =>
              if meta_available x && meta_scanComplete x && negb paused &&
                 (kReconciliationIntervalFileTime <=? sub64 now (meta_lastReconciliationTime x))
              then (e, durableId s) :: others else others
          | None => others
          end
  end.

Definition periodic_reconciliation : prog unit :=
  let% _ := acquire [Mutex] in
  let% '(now, sessions) := atomic (fun w => ((filetime w, in_order (sessionsByEphemeralId_ (manager w))), w)) in
  let% dueNow := due_sessions now sessions in
  let% _ := release [Mutex] in
  for_each dueNow (fun ed => let% _ := TriggerReconciliation ed.1 ed.2 in Ret tt).

(** One round of [ReconciliationSchedulerLoop].  Without an idle user maintenance reads neither
    the clock nor the settings. *)
Definition SchedulerRound : prog unit :=
  let% running := is_running in
  if negb running then Ret tt
  else
    let% _ := scheduler_wait in
    let% running := is_running in
    if negb running then Ret tt
    else
      let% _ := run (DoMaintenance false false 0 0 0) in
      let% active := is_active in
      if negb active then section [Wake] postpone_section
      else
        let% failedRetries := section [Mutex; Wake] dispatch_section in
        let% _ := for_each failedRetries dispatch_retry in
        periodic_reconciliation.

(** ** Start, stop and status *)

Definition Start : prog unit := atomic (fun w => (tt, with_manager w (with_running (manager w) true))).

Definition stop_section (w : World) : bool * World :=
  let m := manager w in
  (running_ m, with_manager w (with_floors (with_dispatch (with_queue (with_running m false) ∅) ∅) ∅)).

Definition Stop : prog unit :=
  let% wasRunning := labelled [Mutex; Wake] stop_section (fun _ => Stopped) in
  if negb wasRunning then Ret tt
  else
    let% sessions := section [Mutex] (fun w => (in_order (sessionsByEphemeralId_ (manager w)), w)) in
    let% _ := for_each sessions (fun es => SendSessionTeardown es.1 es.2) in
    let% _ := atomic (fun w => (tt, with_manager w (with_active (manager w) false))) in
    atomic (fun w => (tt, emit w ConnectionStopped)).

Record VolumeStatusRecord := mkStatus { st_driveLetter : Z; st_flags : Z }.

Definition VolumeStatusReachable : Z := 1.
Definition VolumeStatusScanning : Z := 2.
Definition VolumeStatusNeedsReconciliation : Z := 4.
Definition VolumeStatusPaused : Z := 16.
Definition VolumeStatusPendingDecision : Z := 32.

Definition flag (b : bool) (f : Z) : Z := if b then f else 0.

Fixpoint configured_status (volumes : list VolumeSetting) : prog (list VolumeStatusRecord) :=
  match volumes with
  | [] => Ret []
  | volume :: rest =>
      match key volume with
      | [] => configured_status rest
      | c :: _ =>
          let letter := towupper c in
          if negb (enabled volume) || (letter <? 65) || (90 <? letter) then configured_status rest
          else
            let% session := atomic (fun w =>
              (List.find (fun es => towupper (driveLetter es.2) =? letter) (in_order (sessionsByEphemeralId_ (manager w))), w)) in
            match session with
            | None => let% records := configured_status rest in Ret (mkStatus letter 0 :: records)
            | Some (_, s) =>
                let% meta := GetVolumeMetadata (durableId s) in
                let% reconciliationActive := PassActive (durableId s) in
                let% paused := atomic (fun w => (IsPausedLocked (manager w) letter, w)) in
                let scanning := match meta with Some x => negb (meta_scanComplete x) | None => false end || reconciliationActive in
                let flags := Z.lor (Z.lor VolumeStatusReachable (flag scanning VolumeStatusScanning))
                  (Z.lor (flag reconciliationActive VolumeStatusNeedsReconciliation) (flag paused VolumeStatusPaused)) in
                let% records := configured_status rest in Ret (mkStatus letter flags :: records)
            end
      end
  end.

Definition CollectVolumeStatus : prog (list VolumeStatusRecord) :=
  let% _ := acquire [Mutex] in
  let% volumes := atomic (fun w => (configuredVolumes_ (manager w), w)) in
  let% records := configured_status volumes in
  let% pending := atomic (fun w =>
    (filter (fun letter => 65 <= letter <= 90 /\ configured_for (configuredVolumes_ (manager w)) letter = None)
       (merge_sort Z.le (elements (observedLetters_ (manager w)))), w)) in
  let% _ := release [Mutex] in
  Ret (records ++ ((fun letter => mkStatus letter (Z.lor VolumeStatusReachable VolumeStatusPendingDecision)) <$> pending)).

(** ** Entry points *)

(** The callbacks of the connection's reader thread. *)
Definition handle_message (m : service_message) : prog unit :=
  match m with
  | HeartbeatAcked => Ret tt
  | VolumesListed volumes => OnVolumeList volumes
  | ScanBatch e cursor records => OnScanBatch e cursor records
  | ScanBatchV2 e cursor records => OnScanBatchV2 e cursor records
  | ScanCompleted e => OnScanComplete e
  | ScanHasFailed e => OnScanFailed e
  | ScanAttemptHasStarted e => OnScanAttemptStarted e
  | JournalOpened e newJournalId currentUsn => OnJournalOpened e newJournalId currentUsn
  | JournalInvalid e => OnJournalResumeInvalid e
  | JournalBatch e latestUsn records => OnJournalBatch e latestUsn (UpgradeUsnDeltaV1 <$> records)
  | JournalBatchV2 e latestUsn records => OnJournalBatch e latestUsn records
  | JournalBatchV3 e latestUsn records => OnJournalBatchV3 e latestUsn records
  end.

(** The calls of the UI server, of [Main.cpp], of the idle timer and of the connection's
    lifecycle thread: [ActiveLoop] publishes the pipe before and withdraws it after. *)
Inductive entry_point :=
| CallReload (volumes : list VolumeSetting)
| CallPause (scope : Z) (paused : bool)
| CallStatus
| CallStart
| CallStop
| LinkConnecting
| LinkHandshaking
| LinkActive (version : ProtocolVersion)
| LinkLost
| LinkIdle.

Definition set_link (f : PrivilegedConnection -> PrivilegedConnection) : prog unit := atomic (fun w => (tt, with_link w (f (link w)))).

Definition enter (c : entry_point) : prog unit :=
  match c with
  | CallReload volumes => ReloadConfiguration volumes
  | CallPause scope paused => SetIndexingPaused scope paused
  | CallStatus => let% _ := CollectVolumeStatus in Ret tt
  | CallStart => Start
  | CallStop => Stop
  | LinkConnecting => SetState Connecting
  | LinkHandshaking => SetState Handshaking
  | LinkActive version =>
      let% _ := set_link (fun l => mkLink (state_ l) version (idleDropped_ l) (activePipe_ l)) in
      let% _ := set_link (fun l => mkLink (state_ l) (negotiated_ l) (idleDropped_ l) true) in
      SetState Active
  | LinkLost =>
      let% _ := set_link (fun l => mkLink (state_ l) (negotiated_ l) (idleDropped_ l) false) in
      SetState Disconnected
  | LinkIdle =>
      let% _ := set_link (fun l => mkLink (state_ l) (negotiated_ l) true (activePipe_ l)) in
      SetState Disconnected
  end.
End sessions.

(** ** The running engine *)

(** One reader thread at a time (a new one starts only after the old one was joined), one
    scheduler thread, and any number of others. *)
Record System := mkSystem { world : World; reader : prog unit; scheduler : prog unit; others : list (prog unit) }.

#[export] Instance ConnectionState_eq_dec : EqDecision ConnectionState.
Proof. solve_decision. Defined.

Section system.
Context (E : Env) (towupper : Z -> Z) (write_ok : nat -> bool) (volume_key : nat -> Z -> option VolumeKey).

(** A step of one thread, the arrival of a frame, a round of the scheduler, a call from
    outside, or the passing of time. *)
Inductive step : System -> label -> System -> Prop :=
| step_reader w r r' s os l w' : resume r w = Some (l, r', w') -> step (mkSystem w r s os) l (mkSystem w' r' s os)
| step_scheduler w r s s' os l w' : resume s w = Some (l, s', w') -> step (mkSystem w r s os) l (mkSystem w' r s' os)
| step_other w r s os o o' os' l w' :
    resume o w = Some (l, o', w') -> step (mkSystem w r s (os ++ o :: os')) l (mkSystem w' r s (os ++ o' :: os'))
| step_frame w s os messageType payload m :
    DispatchReceivedFrame (bool_decide (state_ (link w) = Active)) messageType payload = Ok m ->
    step (mkSystem w (Ret tt) s os) Plain (mkSystem w (handle_message E towupper write_ok volume_key m) s os)
| step_round w r os : step (mkSystem w r (Ret tt) os) Plain (mkSystem w r (SchedulerRound E towupper write_ok) os)
| step_enter w r s os c : step (mkSystem w r s os) Plain (mkSystem w r s (enter E towupper write_ok c :: os))
| step_time w r s os now system : steady w <= now -> step (mkSystem w r s os) Plain (mkSystem (with_clocks w now system) r s os).

Definition some_step (S S' : System) : Prop := exists l, step S l S'.

(** The engine just started: no session, no retry, no thread. *)
Definition initial (p : IndexPipeline) (now system : Z) : System :=
  mkSystem (mkWorld new_manager p (mkLink Disconnected (mkProtocolVersion 0 0) false false) now system [] 0 []) (Ret tt) (Ret tt) [].

(** The states an engine can be in. *)
Definition running_engine (S : System) : Prop := exists p now system, rtc some_step (initial p now system) S.
End system.
