(* ===== verification/SessionRetries.v ===== *)
(** * SessionRetries: retries of scans are never lost and never early

    Shown for the handlers of [Sessions], whatever the interleaving of their threads: a volume
    that owes a scan keeps an owner for it until the scan is durably finalized, is closed while
    the volume is paused, or the manager stops; a retry never starts before it is due; and a
    retry is never queued under the id of a session that does not exist.

    [sound role Q p m]: the program [p], on a thread of the given role that last saw the manager
    [m], respects all of this in each of its steps, under the interference of the other threads
    that the role tolerates, and ends with [Q]. *)

From stdpp Require Import gmap sorting.
From S2P Require Import Prelude Wire Records Dispatch Rules SnapshotPool Sql Store Pipeline PipelineRuns Export SessionState Sessions.

Abbreviation sessions m := (sessionsByEphemeralId_ m).
Abbreviation queue m := (failedScanRetries_ m).
Abbreviation hand m := (schedulerDispatchRetries_ m).
Abbreviation floors m := (scanReissueFloors_ m).

(** ** Owners and slots *)

Definition owned (m : VolumeSessionManager) (d : Z) : Prop :=
  is_Some (hand m !! d) \/ is_Some (floors m !! d) \/
  exists e s, sessions m !! e = Some s /\ durableId s = d /\ (scanInProgress s = true \/ is_Some (queue m !! e)).

Lemma session_owner_spec m d l :
  session_owner m d l <> OwnedByNone <->
  exists e s, (e, s) ∈ l /\ durableId s = d /\ (scanInProgress s = true \/ is_Some (queue m !! e)).
Proof.
  induction l as [|[e s] l IH]; cbn [session_owner].
  { split; [done|]. intros (? & ? & Hin & _). by apply elem_of_nil in Hin. }
  setoid_rewrite elem_of_cons.
  destruct (Z.eqb_spec (durableId s) d); cbn [negb]; [|rewrite IH; naive_solver].
  destruct (scanInProgress s) eqn:Es; [naive_solver|].
  case_bool_decide; [naive_solver|]. rewrite IH. split.
  - intros (e1 & s1 & ? & ? & ?). eauto 10.
  - intros (e1 & s1 & [[= -> ->]|?] & ? & [?|?]); [congruence|done|eauto 10..].
Qed.

Lemma elem_of_in_order {A} (m : gmap Z A) e a : (e, a) ∈ in_order m <-> m !! e = Some a.
Proof. unfold in_order. rewrite merge_sort_Permutation. apply elem_of_map_to_list. Qed.

(** An owner is what the code's [RetryOwnerStateLocked] sees. *)
Lemma owned_state m d : owned m d <-> RetryOwnerStateLocked m d <> OwnedByNone.
Proof.
  unfold owned, RetryOwnerStateLocked. case_bool_decide; [naive_solver|]. case_bool_decide; [naive_solver|].
  rewrite session_owner_spec. setoid_rewrite elem_of_in_order. naive_solver.
Qed.

(** A retry that waits for its time. *)
Definition slot (m : VolumeSessionManager) (d : Z) (r : FailedScanRetry) : Prop :=
  floors m !! d = Some r \/ exists e s, sessions m !! e = Some s /\ durableId s = d /\ queue m !! e = Some r.

(** The volume waits until [t]. *)
Definition resting (m : VolumeSessionManager) (d t : Z) : Prop :=
  (exists r, slot m d r) /\ forall r, slot m d r -> t <= due r.

(** The volume has at most one session. *)
Definition one_session (m : VolumeSessionManager) (d : Z) : Prop :=
  forall e1 e2 s1 s2, sessions m !! e1 = Some s1 -> sessions m !! e2 = Some s2 -> durableId s1 = d -> durableId s2 = d -> e1 = e2.

(** Every queued retry belongs to a session. *)
Definition keyed (m : VolumeSessionManager) : Prop := forall e, is_Some (queue m !! e) -> is_Some (sessions m !! e).

(** ** Interference *)

Inductive role := ReaderRole | SchedulerRole | OtherRole.

(** No session appears, and none changes its volume. *)
Definition no_new (m m' : VolumeSessionManager) : Prop :=
  forall e s', sessions m' !! e = Some s' -> exists s, sessions m !! e = Some s /\ durableId s = durableId s'.

(** Nothing is put in the scheduler's hand, and what stays there keeps its sessions. *)
Definition keeps_hand (m m' : VolumeSessionManager) : Prop :=
  forall d, is_Some (hand m' !! d) -> is_Some (hand m !! d) /\
    forall e s, sessions m !! e = Some s -> durableId s = d -> exists s', sessions m' !! e = Some s' /\ durableId s' = d.

Definition rely (r : role) (m m' : VolumeSessionManager) : Prop :=
  match r with ReaderRole => no_new m m' | SchedulerRole => keeps_hand m m' | OtherRole => True end.

Definition guarantee (r : role) (m m' : VolumeSessionManager) : Prop :=
  (r <> ReaderRole -> no_new m m') /\ (r <> SchedulerRole -> keeps_hand m m').

#[export] Instance no_new_refl : Reflexive no_new.
Proof. intros m e s Hs. eauto. Qed.
#[export] Instance no_new_trans : Transitive no_new.
Proof. intros m1 m2 m3 H12 H23 e s Hs. destruct (H23 _ _ Hs) as (s2 & Hs2 & He). destruct (H12 _ _ Hs2) as (s1 & Hs1 & He1). eauto with congruence. Qed.
#[export] Instance keeps_hand_refl : Reflexive keeps_hand.
Proof. intros m d Hd. eauto. Qed.
#[export] Instance keeps_hand_trans : Transitive keeps_hand.
Proof.
  intros m1 m2 m3 H12 H23 d Hd. destruct (H23 _ Hd) as [Hd2 Hs2]. destruct (H12 _ Hd2) as [Hd1 Hs1]. split; [done|].
  intros e s Hs He. destruct (Hs1 e s Hs He) as (s' & Hs' & He'). eauto.
Qed.
#[export] Instance rely_refl r : Reflexive (rely r).
Proof. destruct r; intros m; done. Qed.
#[export] Instance rely_trans r : Transitive (rely r).
Proof. destruct r; intros m1 m2 m3; cbn; [apply no_new_trans|apply keeps_hand_trans|done]. Qed.

Lemma guarantee_rely r r' m m' : guarantee r m m' -> r <> r' \/ r' = OtherRole -> rely r' m m'.
Proof. intros [Hn Hh] Hr. destruct r'; cbn; [apply Hn|apply Hh|done]; naive_solver. Qed.

(** ** What a step owes *)

(** The labels after which the volume owes nothing any more. *)
Definition spent (d : Z) (l : label) : Prop :=
  match l with
  | Finalized _ d' | ClosedPaused _ d' => d = d'
  | Stopped => True
  | _ => False
  end.

(** A step from [m] to [m'] at [now]; [P d]: the rest of the program takes care of [d]. *)
Record obliged (r : role) (now : Z) (m : VolumeSessionManager) (l : label) (m' : VolumeSessionManager) (P : Z -> Prop) : Prop := {
  ob_keyed : keyed m';
  ob_guarantee : guarantee r m m';
  ob_owned : forall d, owned m d -> owned m' d \/ spent d l \/ P d;
  ob_resting : forall d t, resting m d t -> one_session m d -> now < t -> t <= now + kScanFailureRetryDelay ->
    (resting m' d t /\ forall e, l <> Claimed e d) \/ spent d l
}.

(** The program [p] gives [d] an owner, or spends it, before it ends. *)
Fixpoint promises {A} (d : Z) (p : prog A) : Prop :=
  match p with
  | Ret _ => False
  | Act _ body tag k => forall w b w', body w = Ok (b, w') -> owned (manager w') d \/ spent d (tag b) \/ promises d (k b)
  end.

Fixpoint sound {A} (r : role) (Q : A -> VolumeSessionManager -> Prop) (p : prog A) (m : VolumeSessionManager) : Prop :=
  match p with
  | Ret a => forall m', rely r m m' -> Q a m'
  | Act ready body tag k =>
      forall w b w', rely r m (manager w) -> keyed (manager w) -> ready w = true -> body w = Ok (b, w') ->
      steady w' = steady w /\
      obliged r (steady w) (manager w) (tag b) (manager w') (fun d => promises d (k b)) /\
      sound r Q (k b) (manager w')
  end.

(** ** Rules for programs *)

Lemma promises_bind_l {A B} d (p : prog A) (k : A -> prog B) : promises d p -> promises d (prog_bind p k).
Proof.
  induction p as [a|C ready body tag k' IH]; cbn [promises prog_bind]; [done|]. intros Hp w b w' Hb.
  destruct (Hp w b w' Hb) as [|[|]]; auto.
Qed.

Lemma promises_bind_r {A B} d (p : prog A) (k : A -> prog B) : (forall a, promises d (k a)) -> promises d (prog_bind p k).
Proof. intros Hk. induction p as [a|C ready body tag k' IH]; cbn [promises prog_bind]; auto. Qed.

Lemma obliged_mono r now m l m' (P P' : Z -> Prop) : (forall d, P d -> P' d) -> obliged r now m l m' P -> obliged r now m l m' P'.
Proof. intros HP [Hk Hg Ho Hr]. split; [done|done| |done]. intros d Hd. destruct (Ho d Hd) as [|[|]]; auto. Qed.

Lemma sound_rely {A} r (Q : A -> VolumeSessionManager -> Prop) p m m' : rely r m m' -> sound r Q p m -> sound r Q p m'.
Proof.
  intros Hr. destruct p as [a|C ready body tag k]; cbn [sound].
  - intros Hp m'' Hr'. apply Hp. by transitivity m'.
  - intros Hp w b w' Hw. apply Hp. by transitivity m'.
Qed.

Lemma sound_mono {A} r (Q R : A -> VolumeSessionManager -> Prop) p m : (forall a m', Q a m' -> R a m') -> sound r Q p m -> sound r R p m.
Proof.
  intros HQ. revert m. induction p as [a|C ready body tag k IH]; intros m; cbn [sound]; [auto|].
  intros Hp w b w' Hw Hk Hready Hb. destruct (Hp w b w' Hw Hk Hready Hb) as (? & ? & ?). auto.
Qed.

Lemma sound_bind {A B} r (Q : A -> VolumeSessionManager -> Prop) (R : B -> VolumeSessionManager -> Prop) (p : prog A) (k : A -> prog B) m :
  sound r Q p m -> (forall a m', Q a m' -> sound r R (k a) m') -> sound r R (prog_bind p k) m.
Proof.
  intros Hp Hk. revert m Hp. induction p as [a|C ready body tag k' IH]; intros m Hp; cbn [prog_bind].
  - apply Hk, Hp. done.
  - intros w b w' Hw Hkeyed Hready Hb. destruct (Hp w b w' Hw Hkeyed Hready Hb) as (? & Ho & ?). split; [done|]. split; [|auto].
    eapply obliged_mono; [|exact Ho]. intros d. apply promises_bind_l.
Qed.

Lemma sound_labelled {B} r (Q : B -> VolumeSessionManager -> Prop) ls (f : World -> B * World) tag m :
  (forall w, rely r m (manager w) -> keyed (manager w) ->
     steady (f w).2 = steady w /\ obliged r (steady w) (manager w) (tag (f w).1) (manager (f w).2) (fun _ => False) /\
     forall m', rely r (manager (f w).2) m' -> Q (f w).1 m') ->
  sound r Q (labelled ls f tag) m.
Proof.
  intros Hf w b w' Hw Hk _ Hb. destruct (Hf w Hw Hk) as (Hs & Ho & HQ). destruct (f w) as [b' w'']. injection Hb as <- <-.
  cbn [fst snd] in *. auto.
Qed.

(** The manager's retries and attempts stay as they are. *)
Definition similar (s s' : VolumeSession) : Prop := durableId s' = durableId s /\ scanInProgress s' = scanInProgress s.

Definition quiet (m m' : VolumeSessionManager) : Prop :=
  queue m' = queue m /\ hand m' = hand m /\ floors m' = floors m /\
  forall e, option_Forall2 similar (sessions m !! e) (sessions m' !! e).

#[export] Instance quiet_refl : Reflexive quiet.
Proof. intros m. repeat split. intros e. by destruct (sessions m !! e); constructor. Qed.

Lemma quiet_same m m' : queue m' = queue m -> hand m' = hand m -> floors m' = floors m -> sessions m' = sessions m -> quiet m m'.
Proof. intros Hq Hh Hf Hs. repeat split; [done..|]. intros e. rewrite Hs. by destruct (sessions m !! e); constructor. Qed.

Lemma quiet_sessions m m' e s' : quiet m m' -> sessions m' !! e = Some s' -> exists s, sessions m !! e = Some s /\ similar s s'.
Proof. intros (_ & _ & _ & Hs) He. specialize (Hs e). rewrite He in Hs. inversion Hs; subst. eauto. Qed.

Lemma quiet_sessions' m m' e s : quiet m m' -> sessions m !! e = Some s -> exists s', sessions m' !! e = Some s' /\ similar s s'.
Proof. intros (_ & _ & _ & Hs) He. specialize (Hs e). rewrite He in Hs. inversion Hs; subst. eauto. Qed.

Lemma quiet_put m e s s' : sessions m !! e = Some s -> similar s s' -> quiet m (put_session m e s').
Proof.
  intros He Hs. repeat split. intros e'. cbn. destruct (decide (e = e')) as [<-|].
  - rewrite lookup_insert_eq, He. by constructor.
  - rewrite lookup_insert_ne by done. by destruct (sessions m !! e'); constructor.
Qed.

Lemma quiet_slot m m' d r : quiet m m' -> slot m' d r <-> slot m d r.
Proof.
  intros Hq. unfold slot. pose proof Hq as (-> & _ & -> & _). split; (intros [|(e & s & He & Hd & Hr)]; [by left|right]).
  - destruct (quiet_sessions _ _ _ _ Hq He) as (s0 & ? & [? _]). eauto 10 with congruence.
  - destruct (quiet_sessions' _ _ _ _ Hq He) as (s0 & ? & [? _]). eauto 10 with congruence.
Qed.

Lemma obliged_quiet r now m m' l P : quiet m m' -> keyed m -> (forall e d, l <> Claimed e d) -> obliged r now m l m' P.
Proof.
  intros Hq Hk Hl. pose proof Hq as (Hqu & Hh & Hf & _). split.
  - intros e He. rewrite Hqu in He. destruct (Hk e He) as [s Hs]. destruct (quiet_sessions' _ _ _ _ Hq Hs) as (s' & ? & _). eauto.
  - split; intros _.
    + intros e s' He. destruct (quiet_sessions _ _ _ _ Hq He) as (s & ? & [? _]). eauto.
    + intros d Hd. rewrite Hh in Hd. split; [done|]. intros e s He Hed. destruct (quiet_sessions' _ _ _ _ Hq He) as (s' & ? & [? _]).
      eauto with congruence.
  - intros d Hd. left. unfold owned in *. rewrite Hh, Hf, Hqu. destruct Hd as [|[|(e & s & He & Hed & Hs)]]; [by auto..|].
    right. right. destruct (quiet_sessions' _ _ _ _ Hq He) as (s' & ? & [? Hp]). exists e, s'. rewrite Hp. auto with congruence.
  - intros d t [[r0 Hr0] Hall] _ _ _. left. split; [|done]. split; [exists r0; by apply (quiet_slot _ _ _ _ Hq)|].
    intros r1 Hr1. apply Hall. by apply (quiet_slot _ _ _ _ Hq).
Qed.

(** ** Programs that any thread may run *)

(** A step that no thread is disturbed by. *)
Abbreviation calm now m m' := (obliged OtherRole now m Plain m' (fun _ => False)).

Definition fine {A} (p : prog A) : Prop := forall m, sound OtherRole (fun _ _ => True) p m.

Lemma obliged_other r now m l m' P : obliged OtherRole now m l m' P -> obliged r now m l m' P.
Proof. intros [Hk [Hn Hh] Ho Hr]. split; [done| |done|done]. split; intros _; [by apply Hn|by apply Hh]. Qed.

Lemma obliged_rely r now m l m' P : obliged OtherRole now m l m' P -> rely r m m'.
Proof. intros [_ [Hn Hh] _ _]. destruct r; cbn; [by apply Hn|by apply Hh|done]. Qed.

(** In any role the program leaves what the role relies on. *)
Lemma sound_other {A} r (Q : A -> VolumeSessionManager -> Prop) p m :
  sound OtherRole Q p m -> sound r (fun a m' => rely r m m' /\ Q a m') p m.
Proof.
  intros Hp. cut (forall m0, rely r m0 m -> sound r (fun a m' => rely r m0 m' /\ Q a m') p m).
  { intros Hall. by apply Hall. }
  revert m Hp. induction p as [a|C ready body tag k IH]; intros m Hp m0 Hm; cbn [sound] in *.
  - intros m' Hm'. split; [by transitivity m|by apply Hp].
  - intros w b w' Hw Hk Hready Hb. destruct (Hp w b w' I Hk Hready Hb) as (Hs & Ho & Hq). split; [done|].
    split; [by apply obliged_other|]. apply IH; [done|]. transitivity m; [done|]. transitivity (manager w); [done|].
    by eapply obliged_rely.
Qed.

Lemma fine_sound {A} r (p : prog A) m : fine p -> sound r (fun _ m' => rely r m m') p m.
Proof. intros Hp. eapply sound_mono, sound_other, Hp. naive_solver. Qed.

Lemma fine_ret {A} (a : A) : fine (Ret a).
Proof. intros m. cbn. done. Qed.

Lemma fine_bind {A B} (p : prog A) (k : A -> prog B) : fine p -> (forall a, fine (k a)) -> fine (prog_bind p k).
Proof. intros Hp Hk m. eapply sound_bind; [apply Hp|]. intros a m' _. apply Hk. Qed.

Lemma fine_for_each {A} (l : list A) f : (forall a, fine (f a)) -> fine (for_each l f).
Proof. intros Hf. induction l as [|a l IH]; cbn [for_each]; [apply fine_ret|]. apply fine_bind; auto. Qed.

Lemma fine_labelled {B} ls (f : World -> B * World) tag :
  (forall w, keyed (manager w) -> steady (f w).2 = steady w /\
     obliged OtherRole (steady w) (manager w) (tag (f w).1) (manager (f w).2) (fun _ => False)) ->
  fine (labelled ls f tag).
Proof. intros Hf m. apply sound_labelled. intros w _ Hk. destruct (Hf w Hk). auto. Qed.

Lemma fine_quiet {B} ls (f : World -> B * World) :
  (forall w, steady (f w).2 = steady w /\ quiet (manager w) (manager (f w).2)) -> fine (section ls f).
Proof. intros Hf. apply fine_labelled. intros w Hk. destruct (Hf w). split; [done|]. by apply obliged_quiet. Qed.

Lemma fine_call_at {B} (c : Z -> Pipe B) : fine (call_at c).
Proof.
  intros m w b w' _ Hk _ Hb. destruct (c (filetime w) (pipeline w)) as [[b' p]| |]; cbn in Hb; try done. injection Hb as <- <-.
  split; [done|]. split; [by apply obliged_quiet|]. done.
Qed.

(** ** Elementary changes of the manager *)

Lemma obliged_trans_in r now m1 m2 m3 l P :
  r <> ReaderRole -> obliged r now m1 Plain m2 (fun _ => False) -> obliged r now m2 l m3 P -> obliged r now m1 l m3 P.
Proof.
  intros Hrole [_ [Hn1 Hh1] Ho1 Hr1] [Hk2 [Hn2 Hh2] Ho2 Hr2]. split.
  - done.
  - split; intros Hr; [transitivity m2; [by apply Hn1|by apply Hn2]|transitivity m2; [by apply Hh1|by apply Hh2]].
  - intros d Hd. destruct (Ho1 d Hd) as [?|[[]|[]]]. auto.
  - intros d t Hres Hu Hlt Hle. destruct (Hr1 d t Hres Hu Hlt Hle) as [[Hres2 _]|[]]. apply Hr2; [done| |done|done].
    intros e1 e2 s1 s2 He1 He2 Hd1 Hd2. destruct (Hn1 Hrole _ _ He1) as (s1' & ? & ?). destruct (Hn1 Hrole _ _ He2) as (s2' & ? & ?).
    eapply Hu; eauto with congruence.
Qed.

Lemma obliged_trans now m1 m2 m3 l P : calm now m1 m2 -> obliged OtherRole now m2 l m3 P -> obliged OtherRole now m1 l m3 P.
Proof. by apply obliged_trans_in. Qed.

Section changes.
Context (now : Z) (m : VolumeSessionManager) (Hkeyed : keyed m).

(** A session stays, with its volume; its attempt may end where another owner is left. *)
Lemma calm_put e s s' :
  sessions m !! e = Some s -> durableId s' = durableId s ->
  (scanInProgress s = true -> scanInProgress s' = true \/
     is_Some (hand m !! durableId s) \/ is_Some (floors m !! durableId s) \/ is_Some (queue m !! e)) ->
  calm now m (put_session m e s').
Proof.
  intros He Hd Hp. set (m' := put_session m e s').
  assert (Hl : forall e1 s1, sessions m !! e1 = Some s1 -> exists s2, sessions m' !! e1 = Some s2 /\ durableId s2 = durableId s1 /\
    ((e1 = e /\ s1 = s /\ s2 = s') \/ s2 = s1)).
  { intros e1 s1 H1. cbn. destruct (decide (e = e1)) as [<-|]; [rewrite lookup_insert_eq|rewrite lookup_insert_ne by done]; eauto 10.
    replace s1 with s by congruence. eauto 10. }
  assert (Hl' : forall e1 s2, sessions m' !! e1 = Some s2 -> exists s1, sessions m !! e1 = Some s1 /\ durableId s1 = durableId s2).
  { intros e1 s2. cbn. destruct (decide (e = e1)) as [<-|]; [rewrite lookup_insert_eq|rewrite lookup_insert_ne by done]; eauto.
    intros [= <-]. eauto. }
  assert (Hslot : forall d r, slot m' d r <-> slot m d r).
  { intros d r. unfold slot. split; (intros [|(e1 & s1 & H1 & ? & ?)]; [by left|right]).
    - destruct (Hl' _ _ H1) as (? & ? & ?). eauto 10 with congruence.
    - destruct (Hl _ _ H1) as (? & ? & ? & ?). eauto 10 with congruence. }
  split.
  - intros e1 H1. destruct (Hkeyed e1 H1) as [s1 Hs1]. destruct (Hl _ _ Hs1) as (? & ? & _). eauto.
  - split; intros _.
    + intros e1 s1 H1. destruct (Hl' _ _ H1) as (? & ? & ?). eauto.
    + intros d H1. split; [done|]. intros e1 s1 Hs1 ?. destruct (Hl _ _ Hs1) as (? & ? & ? & _). eauto with congruence.
  - intros d Hown. left. destruct Hown as [?|[?|(e1 & s1 & Hs1 & <- & Hc)]]; [by left|by right; left|].
    destruct (Hl _ _ Hs1) as (s2 & H2 & Hd2 & [(-> & -> & ->)| ->]).
    + destruct Hc as [Hc|Hc]; [|right; right; exists e, s'; eauto].
      destruct (Hp Hc) as [?|[?|[?|?]]]; [right; right; exists e, s'; eauto|by left|by right; left|right; right; exists e, s'; eauto].
    + right. right. exists e1, s1. eauto.
  - intros d t [[r Hr] Hall] _ _ _. left. split; [|done]. split; [exists r; by apply Hslot|]. intros r' Hr'. apply Hall. by apply Hslot.
Qed.

(** A retry five seconds away, or no earlier than what the volume waits for. *)
Lemma calm_queue e s r :
  sessions m !! e = Some s ->
  now + kScanFailureRetryDelay <= due r \/ (exists r', slot m (durableId s) r' /\ due r' <= due r) ->
  calm now m (with_queue m (<[e := r]> (queue m))).
Proof.
  intros He Hdue. split.
  - intros e1. cbn. destruct (decide (e = e1)) as [<-|]; [eauto|]. rewrite lookup_insert_ne by done. apply Hkeyed.
  - split; intros _; [intros e1 s1 H1|intros d Hd]; eauto.
  - intros d Hown. left. destruct Hown as [?|[?|(e1 & s1 & Hs1 & <- & Hc)]]; [by left|by right; left|]. right. right. exists e1, s1. cbn.
    split; [done|]. split; [done|]. destruct Hc as [|Hc]; [by left|right].
    destruct (decide (e = e1)) as [<-|]; [rewrite lookup_insert_eq; eauto|by rewrite lookup_insert_ne].
  - intros d t [[r0 Hr0] Hall] _ Hlt Hle. left. split; [|done]. split.
    + destruct Hr0 as [|(e1 & s1 & ? & ? & ?)]; [exists r0; by left|]. destruct (decide (e = e1)) as [<-|].
      * exists r. right. exists e, s1. cbn. rewrite lookup_insert_eq. eauto.
      * exists r0. right. exists e1, s1. cbn. rewrite lookup_insert_ne by done. eauto.
    + intros r' [?|(e1 & s1 & H1 & Hd1 & Hq)]; [apply Hall; by left|]. cbn in H1, Hq. destruct (decide (e = e1)) as [<-|].
      * rewrite lookup_insert_eq in Hq. injection Hq as <-. replace s1 with s in Hd1 by congruence. subst d.
        destruct Hdue as [?|(r' & Hr' & ?)]; [lia|]. specialize (Hall _ Hr'). lia.
      * rewrite lookup_insert_ne in Hq by done. apply Hall. right. eauto.
Qed.

Lemma calm_floor d0 r :
  now + kScanFailureRetryDelay <= due r -> calm now m (MergeDurableFloorLocked m d0 r).
Proof.
  intros Hdue. split.
  - done.
  - split; intros _; [intros e1 s1 H1|intros d Hd]; eauto.
  - intros d Hown. left. destruct Hown as [?|[?|?]]; [by left|right; left|by right; right]. cbn.
    destruct (decide (d0 = d)) as [<-|]; [rewrite lookup_insert_eq; eauto|by rewrite lookup_insert_ne].
  - intros d t [[r0 Hr0] Hall] _ Hlt Hle. left. split; [|done]. split.
    + destruct Hr0 as [Hf|?]; [|exists r0; by right]. destruct (decide (d0 = d)) as [<-|].
      * eexists. left. cbn. by rewrite lookup_insert_eq.
      * exists r0. left. cbn. by rewrite lookup_insert_ne.
    + intros r' [Hf|?]; [|apply Hall; by right]. cbn in Hf. destruct (decide (d0 = d)) as [<-|].
      * rewrite lookup_insert_eq in Hf. injection Hf as <-. destruct (floors m !! d0); cbn; lia.
      * rewrite lookup_insert_ne in Hf by done. apply Hall. by left.
Qed.

(** The scheduler's hand lets go of what has another owner. *)
Lemma calm_erase_hand d0 :
  (is_Some (hand m !! d0) -> is_Some (floors m !! d0) \/
     exists e s, sessions m !! e = Some s /\ durableId s = d0 /\ (scanInProgress s = true \/ is_Some (queue m !! e))) ->
  calm now m (erase_dispatch m d0).
Proof.
  intros Hother. split.
  - done.
  - split; intros _; [intros e1 s1 H1; eauto|]. intros d. cbn. rewrite lookup_delete_is_Some. intros [_ Hd]. eauto.
  - intros d Hown. left. destruct Hown as [Hd|[?|?]]; [|by right; left|by right; right].
    destruct (decide (d0 = d)) as [<-|]; [right; by apply Hother|left]. cbn. by rewrite lookup_delete_ne.
  - intros d t Hres _ _ _. left. by split.
Qed.
End changes.

Lemma calm_quiet now m m' : keyed m -> quiet m m' -> calm now m m'.
Proof. intros Hk Hq. by apply obliged_quiet. Qed.

Lemma calm_keyed now m m' : calm now m m' -> keyed m'.
Proof. by intros []. Qed.

Lemma calm_install now m e s b :
  keyed m -> sessions m !! e = Some s ->
  calm now m (InstallNonAuthoritativeRetryLocked m e (durableId s) (now + kScanFailureRetryDelay) b).
Proof.
  intros Hk He. unfold InstallNonAuthoritativeRetryLocked. cbn [active_ with_dispatch]. destruct (active_ m).
  - set (m1 := with_queue m (<[e := mkRetry (now + kScanFailureRetryDelay) b]> (queue m))).
    assert (H1 : calm now m m1) by (eapply calm_queue; cbn; eauto; lia).
    eapply obliged_trans; [exact H1|]. eapply obliged_trans.
    { apply (calm_erase_hand now m1 (calm_keyed _ _ _ H1) (durableId s)). intros _. right. exists e, s.
      split; [done|]. split; [done|]. right. cbn. rewrite lookup_insert_eq. eauto. }
    apply calm_quiet; [exact (calm_keyed _ _ _ H1)|]. by apply quiet_same.
  - set (m1 := MergeDurableFloorLocked m (durableId s) (mkRetry (now + kScanFailureRetryDelay) b)).
    assert (H1 : calm now m m1) by (apply calm_floor; cbn; [done|lia]).
    eapply obliged_trans; [exact H1|]. apply (calm_erase_hand now m1 (calm_keyed _ _ _ H1) (durableId s)). intros _. left. cbn.
    rewrite lookup_insert_eq. eauto.
Qed.

Lemma install_owned m e s d dueAt b :
  sessions m !! e = Some s -> durableId s = d -> owned (InstallNonAuthoritativeRetryLocked m e d dueAt b) d.
Proof.
  intros He Hd. unfold InstallNonAuthoritativeRetryLocked. cbn [active_ with_dispatch]. destruct (active_ m).
  - right. right. exists e, s. cbn. rewrite lookup_insert_eq. eauto.
  - right. left. cbn. rewrite lookup_insert_eq. eauto.
Qed.

Lemma install_sessions m e d dueAt b : sessions (InstallNonAuthoritativeRetryLocked m e d dueAt b) = sessions m.
Proof. unfold InstallNonAuthoritativeRetryLocked. cbn [active_ with_dispatch]. by destruct (active_ m). Qed.

(** An attempt ends with its next retry installed. *)
Lemma calm_close now m e s s' b :
  keyed m -> sessions m !! e = Some s -> durableId s' = durableId s ->
  calm now m (InstallNonAuthoritativeRetryLocked (put_session m e s') e (durableId s) (now + kScanFailureRetryDelay) b).
Proof.
  intros Hk He Hd.
  replace (InstallNonAuthoritativeRetryLocked (put_session m e s') e (durableId s) (now + kScanFailureRetryDelay) b)
    with (put_session (InstallNonAuthoritativeRetryLocked m e (durableId s) (now + kScanFailureRetryDelay) b) e s')
    by (unfold InstallNonAuthoritativeRetryLocked; cbn [active_ with_dispatch put_session with_sessions]; by destruct (active_ m)).
  pose proof (calm_install now m e s b Hk He) as H1. eapply obliged_trans; [exact H1|].
  eapply calm_put; [exact (calm_keyed _ _ _ H1)|by rewrite install_sessions|done|]. intros _. right.
  unfold InstallNonAuthoritativeRetryLocked. cbn [active_ with_dispatch]. destruct (active_ m); cbn.
  - right. right. rewrite lookup_insert_eq. eauto.
  - right. left. rewrite lookup_insert_eq. eauto.
Qed.

(** The floor's retry moves to the queue of the volume's session. *)
Lemma calm_requeue_floor now m e s f :
  keyed m -> sessions m !! e = Some s -> floors m !! durableId s = Some f ->
  calm now m (requeue_floor (with_floors m (delete (durableId s) (floors m))) e f).
Proof.
  intros Hk He Hf. set (m1 := with_queue m (<[e := f]> (queue m))).
  assert (H1 : calm now m m1). { eapply calm_queue; [done|exact He|]. right. exists f. split; [by left|lia]. }
  eapply obliged_trans; [exact H1|]. split.
  - exact (calm_keyed _ _ _ H1).
  - split; intros _; [intros e1 s1 Hs1|intros d Hd]; eauto.
  - intros d Hown. left. destruct Hown as [?|[Hd|?]]; [by left| |by right; right].
    destruct (decide (durableId s = d)) as [<-|].
    + right. right. exists e, s. cbn. rewrite lookup_insert_eq. eauto.
    + right. left. cbn. by rewrite lookup_delete_ne.
  - intros d t [[r0 Hr0] Hall] _ _ _. left. split; [|done]. split.
    + destruct Hr0 as [Hr0|?]; [|exists r0; by right]. destruct (decide (durableId s = d)) as [<-|].
      * exists f. right. exists e, s. cbn. rewrite lookup_insert_eq. eauto.
      * exists r0. left. cbn. by rewrite lookup_delete_ne.
    + intros r' [Hr'|?]; [|apply Hall; by right]. cbn in Hr'. apply lookup_delete_Some in Hr' as [_ Hr']. apply Hall. by left.
Qed.

(** An attempt is claimed only where no retry of the volume waits. *)
Lemma obliged_claim now m e s s' :
  keyed m -> sessions m !! e = Some s -> durableId s' = durableId s -> scanInProgress s' = true ->
  floors m !! durableId s = None -> queue m !! e = None ->
  obliged OtherRole now m (Claimed e (durableId s)) (put_session (erase_dispatch m (durableId s)) e s') (fun _ => False).
Proof.
  intros Hk He Hd Hp Hf Hq. set (m1 := put_session m e s').
  assert (H1 : calm now m m1) by (eapply calm_put; eauto).
  assert (H2 : calm now m1 (erase_dispatch m1 (durableId s))).
  { apply calm_erase_hand; [exact (calm_keyed _ _ _ H1)|]. intros _. right. exists e, s'. cbn. rewrite lookup_insert_eq. eauto. }
  pose proof (obliged_trans _ _ _ _ _ _ H1 H2) as [Hk3 Hg3 Ho3 Hr3]. split; [done|done|exact Ho3|].
  intros d t Hres Hu Hlt Hle. destruct (Hr3 d t Hres Hu Hlt Hle) as [[? _]|[]]. left. split; [done|]. intros e0 [= -> <-].
  destruct Hres as [[r Hr] _]. destruct Hr as [Hr|(e1 & s1 & He1 & Hd1 & Hr)]; [congruence|].
  rewrite (Hu _ _ _ _ He He1 eq_refl Hd1) in *. congruence.
Qed.

Lemma claim_put m e s b :
  sessions m !! e = Some s -> queue m !! e = None ->
  ClaimActiveAttemptLocked m e (durableId s) b = put_session (erase_dispatch m (durableId s)) e (set_attempt s true b).
Proof.
  intros He Hq. unfold ClaimActiveAttemptLocked. cbn. rewrite He, Z.eqb_refl, (delete_id (queue m) e Hq). by destruct m.
Qed.

(** ** Sessions that end *)

Lemma merge_retry_due f r : due r <= due (merge_retry f r) /\ (forall f', f = Some f' -> due f' <= due (merge_retry f r)).
Proof. destruct f; cbn; split; [lia|naive_solver lia|lia|done]. Qed.

(** What the session owes is at least as late as its queued retry. *)
Lemma pending_retry_due m e s at_ q :
  queue m !! e = Some q -> exists p, pending_retry m e s at_ = Some p /\ due q <= due p.
Proof.
  intros Hq. unfold pending_retry. rewrite Hq. destruct (hand m !! durableId s); destruct (scanInProgress s); eexists; (split; [done|cbn; lia]).
Qed.

Lemma pending_retry_some m e s at_ :
  scanInProgress s = true \/ is_Some (queue m !! e) \/ is_Some (hand m !! durableId s) -> is_Some (pending_retry m e s at_).
Proof.
  unfold pending_retry. intros H. destruct (hand m !! durableId s); [eauto|]. destruct (scanInProgress s); [eauto|].
  destruct H as [?|[?|[? ?]]]; [done|done|done].
Qed.

Lemma transfer_floors m e s at_ :
  floors (TransferSessionRetryToFloorLocked m e s at_) =
  match pending_retry m e s at_ with
  | Some p => <[durableId s := merge_retry (floors m !! durableId s) p]> (floors m)
  | None => floors m
  end.
Proof. unfold TransferSessionRetryToFloorLocked. by destruct (pending_retry m e s at_). Qed.

Lemma transfer_queue m e s at_ : queue (TransferSessionRetryToFloorLocked m e s at_) = delete e (queue m).
Proof. unfold TransferSessionRetryToFloorLocked. by destruct (pending_retry m e s at_). Qed.

Lemma transfer_hand m e s at_ : hand (TransferSessionRetryToFloorLocked m e s at_) = delete (durableId s) (hand m).
Proof. unfold TransferSessionRetryToFloorLocked. by destruct (pending_retry m e s at_). Qed.

Lemma transfer_sessions m e s at_ : sessions (TransferSessionRetryToFloorLocked m e s at_) = sessions m.
Proof. unfold TransferSessionRetryToFloorLocked. by destruct (pending_retry m e s at_). Qed.

(** No floor is lost or comes closer. *)
Lemma transfer_floor_grows m e s at_ d f :
  floors m !! d = Some f -> exists f', floors (TransferSessionRetryToFloorLocked m e s at_) !! d = Some f' /\ due f <= due f'.
Proof.
  intros Hf. rewrite transfer_floors. destruct (pending_retry m e s at_) as [p|]; [|eauto with lia].
  destruct (decide (durableId s = d)) as [<-|]; [|rewrite lookup_insert_ne by done; eauto with lia].
  rewrite lookup_insert_eq. eexists. split; [done|]. by apply merge_retry_due.
Qed.

Lemma transfer_floor_takes m e s at_ :
  scanInProgress s = true \/ is_Some (queue m !! e) \/ is_Some (hand m !! durableId s) ->
  is_Some (floors (TransferSessionRetryToFloorLocked m e s at_) !! durableId s).
Proof.
  intros H. destruct (pending_retry_some m e s at_ H) as [p Hp]. rewrite transfer_floors, Hp, lookup_insert_eq. eauto.
Qed.

Lemma calm_transfer now m e s at_ :
  keyed m -> sessions m !! e = Some s -> calm now m (TransferSessionRetryToFloorLocked m e s at_).
Proof.
  intros Hk He. set (m' := TransferSessionRetryToFloorLocked m e s at_). split.
  - intros e1. unfold m'. rewrite transfer_queue, transfer_sessions, lookup_delete_is_Some. intros [_ ?]. by apply Hk.
  - split; intros _.
    + intros e1 s1. unfold m'. rewrite transfer_sessions. eauto.
    + intros d. unfold m'. rewrite transfer_hand, transfer_sessions, lookup_delete_is_Some. intros [_ ?]. eauto.
  - intros d Hown. left. destruct Hown as [Hd|[[f Hf]|(e1 & s1 & He1 & <- & Hc)]].
    + destruct (decide (durableId s = d)) as [<-|]; [right; left; apply transfer_floor_takes; auto|].
      left. unfold m'. by rewrite transfer_hand, lookup_delete_ne.
    + right. left. destruct (transfer_floor_grows m e s at_ d f Hf) as (? & ? & _). eauto.
    + destruct (decide (e = e1)) as [<-|].
      * replace s1 with s in * by congruence. right. left. apply transfer_floor_takes. tauto.
      * right. right. exists e1, s1. unfold m'. rewrite transfer_queue, transfer_sessions, lookup_delete_ne by done. auto.
  - intros d t [[r Hr] Hall] Hu Hlt Hle. left. split; [|done]. split.
    + destruct Hr as [Hf|(e1 & s1 & He1 & Hd1 & Hq)].
      * destruct (transfer_floor_grows m e s at_ d r Hf) as (f & ? & _). exists f. by left.
      * destruct (decide (e = e1)) as [<-|].
        -- destruct (transfer_floor_takes m e s at_) as [f Hf]; [eauto|]. exists f. left. unfold m'. congruence.
        -- exists r. right. exists e1, s1. unfold m'. rewrite transfer_queue, transfer_sessions, lookup_delete_ne by done. auto.
    + intros r' [Hf|(e1 & s1 & He1 & Hd1 & Hq)]; unfold m' in *.
      * rewrite transfer_floors in Hf. destruct (pending_retry m e s at_) as [p|] eqn:Hp; [|apply Hall; by left].
        destruct (decide (durableId s = d)) as [Hd|]; [|rewrite lookup_insert_ne in Hf by done; apply Hall; by left].
        subst d. rewrite lookup_insert_eq in Hf. injection Hf as <-. destruct (merge_retry_due (floors m !! durableId s) p) as [Hm1 Hm2].
        destruct Hr as [Hf|(e1 & s1 & He1 & Hd1 & Hq)].
        -- specialize (Hm2 _ Hf). specialize (Hall r ltac:(by left)). lia.
        -- rewrite (Hu _ _ _ _ He He1 eq_refl Hd1) in *. destruct (pending_retry_due m e1 s at_ r Hq) as (p' & Hp' & ?).
           replace p' with p in * by congruence. specialize (Hall r). unfold slot in Hall. specialize (Hall ltac:(eauto 10)). lia.
      * rewrite transfer_queue in Hq. rewrite transfer_sessions in He1. apply lookup_delete_Some in Hq as [_ Hq]. apply Hall. right. eauto.
Qed.

(** Sessions without a queued retry go, where no attempt of theirs is left without a floor and
    nothing of theirs is in the scheduler's hand. *)
Lemma calm_drop now m m' :
  (forall e s, sessions m !! e = Some s -> sessions m' !! e = Some s \/
     (sessions m' !! e = None /\ queue m !! e = None /\ hand m' !! durableId s = None /\
      (scanInProgress s = true -> is_Some (floors m' !! durableId s)))) ->
  (forall e s, sessions m' !! e = Some s -> sessions m !! e = Some s) ->
  queue m' = queue m ->
  (forall d, is_Some (hand m' !! d) -> is_Some (hand m !! d)) ->
  (forall d, is_Some (hand m !! d) -> is_Some (hand m' !! d) \/ is_Some (floors m' !! d)) ->
  (forall d f, floors m !! d = Some f -> exists f', floors m' !! d = Some f' /\ due f <= due f') ->
  (forall d f', floors m' !! d = Some f' -> is_Some (floors m !! d) \/ forall e s, sessions m !! e = Some s -> queue m !! e = None) ->
  keyed m -> calm now m m'.
Proof.
  intros Hs Hs' Hq Hh Hh' Hf Hf' Hk.
  assert (Hkeep : forall e s, sessions m !! e = Some s -> is_Some (queue m !! e) -> sessions m' !! e = Some s).
  { intros e s He [r Hr]. destruct (Hs e s He) as [|(_ & ? & _)]; [done|congruence]. }
  split.
  - intros e. rewrite Hq. intros He. destruct (Hk e He) as [s Hs1]. rewrite (Hkeep e s Hs1 He). eauto.
  - split; intros _; [intros e s He; eauto|]. intros d Hd. split; [by apply Hh|]. intros e s He <-.
    destruct (Hs e s He) as [?|(_ & _ & Hn & _)]; [eauto|]. rewrite Hn in Hd. by destruct Hd.
  - intros d Hown. left. destruct Hown as [Hd|[[f Hd]|(e & s & He & <- & Hc)]].
    + destruct (Hh' d Hd); [by left|by right; left].
    + destruct (Hf d f Hd) as (? & ? & _). right. left. eauto.
    + destruct (Hs e s He) as [?|(_ & Hn & _ & Hsc)].
      * right. right. exists e, s. rewrite Hq. auto.
      * destruct Hc as [Hc|Hc]; [right; left; auto|]. rewrite Hn in Hc. by destruct Hc.
  - intros d t [[r Hr] Hall] _ _ _. left. split; [|done]. split.
    + destruct Hr as [Hr|(e & s & He & Hd & Hr)].
      * destruct (Hf d r Hr) as (f & ? & _). exists f. by left.
      * exists r. right. exists e, s. rewrite Hq. eauto.
    + intros r' [Hr'|(e & s & He & Hd & Hr')]; [|apply Hall; right; exists e, s; rewrite Hq in Hr'; auto].
      destruct (Hf' d r' Hr') as [[f Hfl]|Hnone].
      * destruct (Hf d f Hfl) as (f' & ? & ?). specialize (Hall f ltac:(by left)). replace r' with f' by congruence. lia.
      * destruct Hr as [Hr|(e & s & He & Hd & Hr)]; [|rewrite (Hnone e s He) in Hr; done].
        destruct (Hf d r Hr) as (f' & ? & ?). specialize (Hall r ltac:(by left)). replace r' with f' by congruence. lia.
Qed.

Lemma calm_end now m e s at_ :
  keyed m -> sessions m !! e = Some s -> calm now m (erase_session (TransferSessionRetryToFloorLocked m e s at_) e).
Proof.
  intros Hk He. pose proof (calm_transfer now m e s at_ Hk He) as H1. eapply obliged_trans; [exact H1|].
  set (m1 := TransferSessionRetryToFloorLocked m e s at_) in *. apply calm_drop; [|intros e1 s1; cbn; rewrite lookup_delete_Some; by intros []|done|by auto|by auto|by eauto with lia|by eauto|exact (calm_keyed _ _ _ H1)].
  intros e1 s1 He1. destruct (decide (e = e1)) as [<-|]; [|left; cbn; by rewrite lookup_delete_ne]. right.
  unfold m1 in He1. rewrite transfer_sessions in He1. replace s1 with s by congruence. split_and!.
  - apply lookup_delete_eq.
  - unfold m1. by rewrite transfer_queue, lookup_delete_eq.
  - change (hand m1 !! durableId s = None). unfold m1. by rewrite transfer_hand, lookup_delete_eq.
  - intros Hp. apply (transfer_floor_takes m e s at_). auto.
Qed.

Lemma transfer_all now at_ l m :
  keyed m -> (forall e s, (e, s) ∈ l -> sessions m !! e = Some s) ->
  let m' := fold_left (fun m es => TransferSessionRetryToFloorLocked m es.1 es.2 at_) l m in
  calm now m m' /\ sessions m' = sessions m /\ (forall e, queue m !! e = None -> queue m' !! e = None) /\
  (forall d, is_Some (floors m !! d) -> is_Some (floors m' !! d)) /\
  (forall e s, (e, s) ∈ l -> queue m' !! e = None /\ (scanInProgress s = true -> is_Some (floors m' !! durableId s))).
Proof.
  revert m. induction l as [|[e s] l IH]; intros m Hk Hl; cbn [fold_left fst snd].
  { split; [by apply calm_quiet|]. split_and!; [done|done|done|]. by intros e s ?%elem_of_nil. }
  pose proof (calm_transfer now m e s at_ Hk (Hl e s ltac:(set_solver))) as H1.
  set (m1 := TransferSessionRetryToFloorLocked m e s at_) in *.
  destruct (IH m1 (calm_keyed _ _ _ H1)) as (H2 & Hs & Hq & Hf & Hrest).
  { intros e1 s1 Hin. unfold m1. rewrite transfer_sessions. apply Hl. set_solver. }
  split; [by eapply obliged_trans|]. split; [by rewrite Hs; apply transfer_sessions|].
  split. { intros e1 He1. apply Hq. unfold m1. rewrite transfer_queue, lookup_delete_None. auto. }
  split. { intros d [f Hd]. apply Hf. destruct (transfer_floor_grows m e s at_ d f Hd) as (? & ? & _). eauto. }
  intros e1 s1 Hin. apply elem_of_cons in Hin as [[= -> ->]|Hin]; [|by auto]. split.
  - apply Hq. unfold m1. by rewrite transfer_queue, lookup_delete_eq.
  - intros Hp. apply Hf, transfer_floor_takes. auto.
Qed.

Lemma merge_hand l m :
  let m' := fold_left (fun m dr => MergeDurableFloorLocked m dr.1 dr.2) l m in
  sessions m' = sessions m /\ queue m' = queue m /\ hand m' = hand m /\
  (forall d, d ∈ l.*1 -> is_Some (floors m' !! d)) /\
  (forall d f, floors m !! d = Some f -> exists f', floors m' !! d = Some f' /\ due f <= due f').
Proof.
  revert m. induction l as [|[d r] l IH]; intros m; cbn [fold_left fst snd fmap list_fmap].
  { repeat split; [by intros ? ?%elem_of_nil|eauto with lia]. }
  set (m1 := MergeDurableFloorLocked m d r). destruct (IH m1) as (Hs & Hq & Hh & Hin & Hf).
  assert (Hd : forall d' f, floors m !! d' = Some f -> exists f', floors m1 !! d' = Some f' /\ due f <= due f').
  { intros d' f Hf'. cbn. destruct (decide (d = d')) as [<-|]; [|rewrite lookup_insert_ne by done; eauto with lia].
    rewrite lookup_insert_eq. eexists. split; [done|]. by apply merge_retry_due. }
  repeat split; [done|done|done| |].
  - intros d' [-> |?]%elem_of_cons; [|by apply Hin].
    destruct (Hf d (merge_retry (floors m !! d) r)) as (? & ? & _); [cbn; by rewrite lookup_insert_eq|eauto].
  - intros d' f Hd'. destruct (Hd d' f Hd') as (f1 & Hf1 & ?). destruct (Hf d' f1 Hf1) as (f2 & ? & ?). eauto with lia.
Qed.

Lemma in_order_keys {A} (m : gmap Z A) k : k ∈ (in_order m).*1 <-> is_Some (m !! k).
Proof.
  rewrite list_elem_of_fmap. split.
  - intros ([k' a] & -> & Hin). apply elem_of_in_order in Hin. cbn. eauto.
  - intros [a Ha]. exists (k, a). split; [done|]. by apply elem_of_in_order.
Qed.

Lemma calm_abandon w : keyed (manager w) -> calm (steady w) (manager w) (manager (abandon_sessions w).2).
Proof.
  intros Hk. unfold abandon_sessions. cbn [snd manager with_manager].
  destruct (transfer_all (steady w) (steady w) (in_order (sessions (manager w))) (manager w) Hk) as (H1 & Hs1 & _ & _ & Hl1).
  { intros e s. apply elem_of_in_order. }
  set (m1 := fold_left _ (in_order (sessions (manager w))) (manager w)) in *. eapply obliged_trans; [exact H1|].
  pose proof (calm_keyed _ _ _ H1) as Hk1. destruct (merge_hand (in_order (hand m1)) m1) as (Hs2 & Hq2 & Hh2 & Hin2 & Hf2).
  set (m2 := fold_left _ (in_order (hand m1)) m1) in *.
  assert (Hempty : forall e, queue m1 !! e = None).
  { intros e. destruct (queue m1 !! e) eqn:Eq; [|done]. destruct (Hk1 e ltac:(eauto)) as [s Hs]. rewrite Hs1 in Hs.
    apply elem_of_in_order in Hs. destruct (Hl1 e s Hs). congruence. }
  apply calm_drop; cbn; try done.
  - intros e s He. right. rewrite lookup_empty. rewrite Hs1 in He. apply elem_of_in_order in He. destruct (Hl1 e s He) as [? Hp].
    repeat split; [done|]. intros Hsc. destruct (Hp Hsc) as [f Hf]. destruct (Hf2 _ _ Hf) as (? & ? & _). eauto.
  - apply map_eq. intros e. by rewrite lookup_empty, Hempty.
  - intros d Hd. rewrite lookup_empty in Hd. by destruct Hd.
  - intros d Hd. right. apply Hin2. by apply in_order_keys.
  - intros d f' _. right. auto.
Qed.

(** ** The handlers that any thread may run *)

Create HintDb fine discriminated.
#[export] Hint Resolve fine_ret fine_call_at : fine.

(** A step that leaves the retries and the attempts as they are. *)
Ltac quiet_step :=
  apply fine_quiet; intros ?w; cbn; repeat case_match; cbn;
  (split; [done|]); first [reflexivity | by apply quiet_same | (eapply quiet_put; [eassumption|done])].

Ltac fine_step :=
  match goal with
  | |- fine (prog_bind _ _) => apply fine_bind; [|intros ?]
  | |- fine (for_each _ _) => apply fine_for_each; intros ?
  | |- fine (if ?b then _ else _) => destruct b
  | |- fine (match ?x with _ => _ end) => destruct x
  | |- fine (section _ _) => quiet_step
  | |- fine (atomic _) => unfold atomic; quiet_step
  end.

Ltac fine_program := repeat first [solve [eauto with fine] | fine_step].

Section handlers.
Context (E : Env) (towupper : Z -> Z) (write_ok : nat -> bool) (volume_key : nat -> Z -> option VolumeKey).

Lemma fine_acquire ls : fine (acquire ls).
Proof. unfold acquire. fine_program. Qed.
Lemma fine_release ls : fine (release ls).
Proof. unfold release. fine_program. Qed.
Lemma fine_call {B} (c : Pipe B) : fine (pipeline_call c).
Proof. unfold pipeline_call. fine_program. Qed.
#[local] Hint Resolve fine_acquire fine_release : fine.
Lemma fine_run o : fine (run E o).
Proof. apply fine_call. Qed.
Lemma fine_run_at o : fine (run_at E o).
Proof. apply fine_call_at. Qed.
Lemma fine_PassActive d : fine (PassActive d).
Proof. apply fine_call. Qed.
Lemma fine_GetVolumeMetadata d : fine (GetVolumeMetadata E d).
Proof. apply fine_call. Qed.
Lemma fine_ResolveVolumeId k : fine (ResolveVolumeId E k).
Proof. apply fine_call. Qed.
#[local] Hint Resolve fine_call fine_run fine_run_at fine_PassActive fine_GetVolumeMetadata fine_ResolveVolumeId : fine.
Lemma fine_SendRequest t p : fine (SendRequest write_ok t p).
Proof. unfold SendRequest. fine_program. Qed.
Lemma fine_NegotiatedVersion : fine NegotiatedVersion.
Proof. unfold NegotiatedVersion. fine_program. Qed.
Lemma fine_is_active : fine is_active.
Proof. unfold is_active. fine_program. Qed.
Lemma fine_is_running : fine is_running.
Proof. unfold is_running. fine_program. Qed.
#[local] Hint Resolve fine_SendRequest fine_NegotiatedVersion fine_is_active fine_is_running : fine.
Lemma fine_RefreshProjectionScanState : fine (RefreshProjectionScanState E).
Proof. unfold RefreshProjectionScanState. fine_program. Qed.
#[local] Hint Resolve fine_RefreshProjectionScanState : fine.

Lemma fine_abandon : fine (section [Mutex; Wake] abandon_sessions).
Proof. apply fine_labelled. intros w Hk. split; [done|]. by apply calm_abandon. Qed.
#[local] Hint Resolve fine_abandon : fine.

Lemma fine_OnConnectionStateChanged s : fine (OnConnectionStateChanged E write_ok s).
Proof. unfold OnConnectionStateChanged. fine_program. Qed.
#[local] Hint Resolve fine_OnConnectionStateChanged : fine.
Lemma fine_SetState s : fine (SetState E write_ok s).
Proof. unfold SetState. fine_program. Qed.
#[local] Hint Resolve fine_SetState : fine.
Lemma fine_ResetForScanAuthority : fine (ResetForScanAuthority E write_ok).
Proof. unfold ResetForScanAuthority. fine_program. Qed.
#[local] Hint Resolve fine_ResetForScanAuthority : fine.
Lemma fine_SendSessionTeardown e s : fine (SendSessionTeardown write_ok e s).
Proof. unfold SendSessionTeardown. fine_program. Qed.
#[local] Hint Resolve fine_SendSessionTeardown : fine.
Lemma fine_withdraw es : fine (withdraw write_ok es).
Proof. unfold withdraw. fine_program. Qed.
#[local] Hint Resolve fine_withdraw : fine.

Lemma calm_end_session e at_ w :
  keyed (manager w) -> steady (end_session e at_ w).2 = steady w /\ calm (steady w) (manager w) (manager (end_session e at_ w).2).
Proof.
  intros Hk. unfold end_session. destruct (sessions (manager w) !! e) eqn:He; cbn; (split; [done|]).
  - by apply calm_end.
  - by apply calm_quiet.
Qed.

Lemma fine_end_session e at_ : fine (atomic (end_session e at_)).
Proof. apply fine_labelled. apply calm_end_session. Qed.
#[local] Hint Resolve fine_end_session : fine.

Lemma fine_reload_sessions volumes at_ ids : fine (reload_sessions E towupper volumes at_ ids).
Proof. induction ids; cbn [reload_sessions]; unfold look; fine_program. Qed.
#[local] Hint Resolve fine_reload_sessions : fine.

Lemma fine_RequestJournalOpen e usn d : fine (RequestJournalOpen write_ok e usn d).
Proof. unfold RequestJournalOpen. fine_program. Qed.
#[local] Hint Resolve fine_RequestJournalOpen : fine.

(** The floor's absence is not a change. *)
Lemma take_none m d : floors m !! d = None -> with_floors m (delete d (floors m)) = m.
Proof. intros Hf. rewrite delete_id by done. by destruct m. Qed.

Lemma fine_start e d sc su : fine (labelled [Mutex; Wake] (start_section e d sc su) (start_tag e d)).
Proof.
  apply fine_labelled. intros w Hk. unfold start_section, TakeScanReissueFloorLocked.
  destruct (sessions (manager w) !! e) as [s|] eqn:He; [|split; [done|by apply calm_quiet]].
  destruct (Z.eqb_spec (durableId s) d) as [<-|]; cbn [negb]; [|split; [done|by apply calm_quiet]].
  destruct (awaitingScanAttemptStarted s); [split; [done|by apply calm_quiet]|].
  destruct (floors (manager w) !! durableId s) as [f|] eqn:Hf.
  { split; [done|]. by apply calm_requeue_floor. }
  rewrite take_none by done.
  destruct (bool_decide (queue (manager w) !! e = None) && negb sc) eqn:Hc; [|split; [done|by apply calm_quiet]].
  apply andb_prop in Hc as [Hq%bool_decide_eq_true _].
  assert (Hclaim : forall s', sessions (put_session (manager w) e s') !! e = Some s' -> durableId s' = durableId s ->
    similar s s' -> obliged OtherRole (steady w) (manager w) (Claimed e (durableId s))
      (ClaimActiveAttemptLocked (put_session (manager w) e s') e (durableId s) false) (fun _ => False)).
  { intros s' Hs' Hd Hsim. eapply obliged_trans; [apply calm_quiet; [done|]; by eapply quiet_put|]. rewrite <- Hd.
    rewrite (claim_put _ _ _ _ Hs' Hq). apply obliged_claim; [|done|done|done|by rewrite Hd|done].
    apply (calm_keyed (steady w) (manager w)). eapply calm_quiet; [done|]. by eapply quiet_put. }
  destruct (scanBatchFailed s || scanInProgress s); [destruct su; cbn [negb]|]; (split; [done|]).
  - apply Hclaim; [apply lookup_insert_eq|done|done].
  - by apply calm_quiet.
  - apply Hclaim; [apply lookup_insert_eq|done|done].
Qed.
#[local] Hint Resolve fine_start : fine.

Lemma fine_StartOrResumeVolume e s : fine (StartOrResumeVolume E towupper write_ok e s).
Proof. unfold StartOrResumeVolume. fine_program. Qed.
#[local] Hint Resolve fine_StartOrResumeVolume : fine.
Lemma fine_ReloadConfiguration volumes : fine (ReloadConfiguration E towupper write_ok volumes).
Proof. unfold ReloadConfiguration. fine_program. Qed.
Lemma fine_ResumeAffectedSessions letters : fine (ResumeAffectedSessions E towupper write_ok letters).
Proof. unfold ResumeAffectedSessions. fine_program. Qed.
#[local] Hint Resolve fine_ReloadConfiguration fine_ResumeAffectedSessions : fine.

Lemma fine_pause_section scope paused : fine (section [Mutex] (pause_section towupper scope paused)).
Proof. unfold pause_section. fine_program. Qed.
#[local] Hint Resolve fine_pause_section : fine.
Lemma fine_SetIndexingPaused scope paused : fine (SetIndexingPaused E towupper write_ok scope paused).
Proof. unfold SetIndexingPaused. fine_program. Qed.
#[local] Hint Resolve fine_SetIndexingPaused : fine.

Lemma fine_trigger e d : fine (labelled [Mutex; Wake] (trigger_section towupper e d) (trigger_tag e d)).
Proof.
  apply fine_labelled. intros w Hk. unfold trigger_section, TakeScanReissueFloorLocked.
  destruct (sessions (manager w) !! e) as [s|] eqn:He; [|split; [done|by apply calm_quiet]].
  destruct (Z.eqb_spec (durableId s) d) as [<-|]; cbn [negb]; [|split; [done|by apply calm_quiet]].
  destruct (IsPausedLocked towupper (manager w) (driveLetter s)); [split; [done|by apply calm_quiet]|].
  destruct (scanInProgress s) eqn:Hp.
  { destruct (deferredReconciliation s); (split; [done|]); apply calm_quiet; [done|done|done|]. by eapply quiet_put. }
  destruct (floors (manager w) !! durableId s) as [f|] eqn:Hf.
  { split; [done|]. by apply calm_requeue_floor. }
  rewrite take_none by done. destruct (scanBatchFailed s); [split; [done|by apply calm_quiet]|].
  case_bool_decide as Hq; (split; [done|]); [by apply calm_quiet|]. apply eq_None_not_Some in Hq. cbn.
  rewrite (claim_put _ _ _ _ He Hq). by apply obliged_claim.
Qed.
#[local] Hint Resolve fine_trigger : fine.

Lemma fine_rearm e d b :
  fine (section [Mutex; Wake] (fun w => (tt, with_manager w (RearmFailedAdmissionLocked (manager w) (steady w) e d b)))).
Proof.
  apply fine_labelled. intros w Hk. split; [done|]. cbn. unfold RearmFailedAdmissionLocked.
  destruct (sessions (manager w) !! e) as [s|] eqn:He; [|by apply calm_quiet].
  destruct (Z.eqb_spec (durableId s) d) as [<-|]; [|by apply calm_quiet]. by apply calm_close.
Qed.
#[local] Hint Resolve fine_rearm : fine.
Lemma fine_TriggerReconciliation e d : fine (TriggerReconciliation E towupper write_ok e d).
Proof. unfold TriggerReconciliation. fine_program. Qed.
#[local] Hint Resolve fine_TriggerReconciliation : fine.
Lemma fine_RepublishSnapshot d letter b : fine (RepublishSnapshot E d letter b).
Proof. unfold RepublishSnapshot, publish_section. fine_program. Qed.
#[local] Hint Resolve fine_RepublishSnapshot : fine.
Lemma fine_ApplyScanBatch e cursor apply : fine (ApplyScanBatch E towupper e cursor apply).
Proof. unfold ApplyScanBatch, batch_section, hole_section. fine_program. Qed.

Lemma fine_retry_section e d b : fine (section [Mutex; Wake] (retry_section e d b)).
Proof.
  apply fine_labelled. intros w Hk. split; [done|]. unfold retry_section. cbn.
  destruct (sessions (manager w) !! e) as [s|] eqn:He; [destruct (Z.eqb_spec (durableId s) d) as [<-|]|].
  - by apply calm_install.
  - apply calm_floor; cbn; [done|lia].
  - apply calm_floor; cbn; [done|lia].
Qed.
#[local] Hint Resolve fine_retry_section : fine.
Lemma fine_retryFinalization e c : fine (retryFinalization E e c).
Proof. unfold retryFinalization. fine_program. Qed.
Lemma fine_discard_completion e c : fine (discard_completion E e c).
Proof. unfold discard_completion. fine_program. Qed.

Lemma fine_failed e : fine (section [Mutex; Wake] (failed_section e)).
Proof.
  apply fine_labelled. intros w Hk. unfold failed_section.
  destruct (sessions (manager w) !! e) as [s|] eqn:He; [|split; [done|by apply calm_quiet]].
  destruct (awaitingScanAttemptStarted s); [split; [done|by apply calm_quiet]|].
  destruct (scanInProgress s); (split; [done|]); [by apply calm_close|by apply calm_quiet].
Qed.
#[local] Hint Resolve fine_failed : fine.
Lemma fine_OnScanFailed e : fine (OnScanFailed E e).
Proof. unfold OnScanFailed. fine_program. Qed.
Lemma fine_OnScanAttemptStarted e : fine (OnScanAttemptStarted e).
Proof. unfold OnScanAttemptStarted, started_section. fine_program. Qed.
Lemma fine_OnJournalOpened e j u : fine (OnJournalOpened E towupper write_ok e j u).
Proof. unfold OnJournalOpened. fine_program. Qed.
Lemma fine_ApplyJournalBatch e u apply : fine (ApplyJournalBatch E towupper write_ok e u apply).
Proof. unfold ApplyJournalBatch, journal_section. fine_program. Qed.
Lemma fine_OnJournalResumeInvalid e : fine (OnJournalResumeInvalid E towupper write_ok e).
Proof. unfold OnJournalResumeInvalid. fine_program. Qed.
(** ** The reader's handlers *)

(** The session that an id names, if any, is the volume's. *)
Definition names (e d : Z) (m : VolumeSessionManager) : Prop := forall s, sessions m !! e = Some s -> durableId s = d.

Lemma names_no_new e d m m' : names e d m -> no_new m m' -> names e d m'.
Proof. intros Hn Hm s' Hs'. destruct (Hm e s' Hs') as (s & Hs & <-). by apply Hn. Qed.

Lemma sound_fine_bind {A B} r (R : B -> VolumeSessionManager -> Prop) (p : prog A) (k : A -> prog B) m :
  fine p -> (forall a m', rely r m m' -> sound r R (k a) m') -> sound r R (prog_bind p k) m.
Proof. intros Hp Hk. eapply sound_bind; [by apply fine_sound|exact Hk]. Qed.

Lemma sound_fine {A} r (p : prog A) m : fine p -> sound r (fun _ _ => True) p m.
Proof. intros Hp. eapply sound_mono; [|by apply fine_sound]. done. Qed.

Lemma sound_labelled_bind {A B} r (R : B -> VolumeSessionManager -> Prop) ls (f : World -> A * World) tag (k : A -> prog B) m :
  (forall w, rely r m (manager w) -> keyed (manager w) ->
     steady (f w).2 = steady w /\
     obliged r (steady w) (manager w) (tag (f w).1) (manager (f w).2) (fun d => promises d (k (f w).1)) /\
     sound r R (k (f w).1) (manager (f w).2)) ->
  sound r R (prog_bind (labelled ls f tag) k) m.
Proof.
  intros Hf w b w' Hw Hk _ Hb. destruct (Hf w Hw Hk) as (Hs & Ho & HQ). destruct (f w) as [b' w'']. injection Hb as <- <-.
  cbn [fst snd] in *. auto.
Qed.

Lemma obliged_finalized now m e d :
  keyed m -> names e d m -> obliged OtherRole now m (Finalized e d) (ClearRetryOwnerLocked m d e) (fun _ => False).
Proof.
  intros Hk Hn.
  assert (Hne : forall e1 s1, sessions m !! e1 = Some s1 -> durableId s1 <> d -> e <> e1).
  { intros e1 s1 He1 Hd1 <-. by apply Hd1, Hn. }
  split.
  - intros e1. cbn. rewrite lookup_delete_is_Some. intros [_ ?]. by apply Hk.
  - split; intros _; [intros e1 s1; cbn; eauto|]. intros d1. cbn. rewrite lookup_delete_is_Some. intros [_ ?]. eauto.
  - intros d1 Hown. destruct (decide (d1 = d)) as [->|Hd]; [right; by left|left].
    destruct Hown as [?|[?|(e1 & s1 & He1 & <- & Hc)]]; [left|right; left|right; right]; cbn; rewrite ?lookup_delete_ne by done; [done..|].
    exists e1, s1. rewrite lookup_delete_ne by eauto. auto.
  - intros d1 t [[r Hr] Hall] _ _ _. destruct (decide (d1 = d)) as [->|Hd]; [by right|left]. split; [|done]. split.
    + exists r. destruct Hr as [Hr|(e1 & s1 & He1 & Hd1 & Hr)]; [left; cbn; by rewrite lookup_delete_ne|].
      right. exists e1, s1. cbn. rewrite lookup_delete_ne by (eapply Hne; [exact He1|congruence]). auto.
    + intros r' [Hr'|(e1 & s1 & He1 & Hd1 & Hr')]; apply Hall; cbn in *; apply lookup_delete_Some in Hr' as [_ Hr']; [by left|].
      right. eauto.
Qed.

Lemma sound_finish_completion e c m : names e (c_durable c) m -> sound ReaderRole (fun _ _ => True) (finish_completion E towupper write_ok e c) m.
Proof.
  intros Hn. apply sound_labelled_bind. intros w Hw Hk. split; [done|]. split.
  - apply obliged_other. eapply obliged_mono; [|apply obliged_finalized; [done|by eapply names_no_new]]. done.
  - apply sound_fine. fine_program.
Qed.

Lemma sound_finalize e c m : names e (c_durable c) m -> sound ReaderRole (fun _ _ => True) (finalize E towupper write_ok e c) m.
Proof.
  intros Hn. unfold finalize. pose proof (fine_retryFinalization e c) as Hretry.
  apply sound_fine_bind; [fine_program|]. intros owned_ m1 H1. apply sound_fine_bind; [fine_program|]. intros stillActive m2 H2.
  destruct stillActive; [by apply sound_fine|]. apply sound_fine_bind; [fine_program|]. intros marked m3 H3.
  destruct marked; [|by apply sound_fine]. apply sound_fine_bind; [fine_program|]. intros recorded m4 H4.
  destruct recorded; [|by apply sound_fine]. apply sound_finish_completion. eapply names_no_new; [exact Hn|].
  by transitivity m1; [|transitivity m2; [|transitivity m3]].
Qed.

(** The attempt that was closed is finalized, or its retry is installed. *)
Lemma promises_retryFinalization e c : promises (c_durable c) (retryFinalization E e c).
Proof.
  intros w b w' Hb. injection Hb as <- <-. left. cbn. destruct (sessions (manager w) !! e) as [s|] eqn:He.
  - destruct (Z.eqb_spec (durableId s) (c_durable c)); [by eapply install_owned|]. right. left. cbn. rewrite lookup_insert_eq. eauto.
  - right. left. cbn. rewrite lookup_insert_eq. eauto.
Qed.

Lemma promises_finalize e c : promises (c_durable c) (finalize E towupper write_ok e c).
Proof.
  unfold finalize. apply promises_bind_r. intros owned_. apply promises_bind_r. intros stillActive.
  destruct stillActive; [apply promises_retryFinalization|]. apply promises_bind_r. intros marked.
  destruct marked; [|apply promises_retryFinalization]. apply promises_bind_r. intros recorded.
  destruct recorded; [|apply promises_retryFinalization]. intros w b w' _. right. by left.
Qed.

(** A closed attempt leaves its volume to the rest of the handler. *)
Lemma obliged_closed now m e s s' l (P : Z -> Prop) :
  keyed m -> sessions m !! e = Some s -> durableId s' = durableId s -> (forall e0 d0, l <> Claimed e0 d0) ->
  spent (durableId s) l \/ P (durableId s) ->
  obliged OtherRole now m l (put_session m e s') P.
Proof.
  intros Hk He Hd Hl HP.
  set (s1 := set_attempt s' true true).
  assert (H1 : calm now m (put_session m e s1)) by (eapply calm_put; eauto).
  destruct H1 as [Hk1 Hg1 Ho1 Hr1].
  assert (Hl1 : forall e1 s2, sessions (put_session m e s') !! e1 = Some s2 -> exists s3, sessions (put_session m e s1) !! e1 = Some s3 /\
    durableId s3 = durableId s2).
  { intros e1 s2. cbn. destruct (decide (e = e1)) as [<-|]; [rewrite !lookup_insert_eq|rewrite !lookup_insert_ne by done]; eauto.
    intros [= <-]. eexists. split; [done|]. done. }
  assert (Hl2 : forall e1 s2, sessions (put_session m e s1) !! e1 = Some s2 -> exists s3, sessions (put_session m e s') !! e1 = Some s3 /\
    durableId s3 = durableId s2).
  { intros e1 s2. cbn. destruct (decide (e = e1)) as [<-|]; [rewrite !lookup_insert_eq|rewrite !lookup_insert_ne by done]; eauto.
    intros [= <-]. eexists. split; [done|]. done. }
  assert (Hslot : forall d r, slot (put_session m e s') d r <-> slot (put_session m e s1) d r).
  { intros d r. unfold slot. split; (intros [|(e1 & s2 & Hs2 & ? & ?)]; [by left|right]).
    - destruct (Hl1 _ _ Hs2) as (? & ? & ?). eauto 10 with congruence.
    - destruct (Hl2 _ _ Hs2) as (? & ? & ?). eauto 10 with congruence. }
  split.
  - intros e1 He1. destruct (Hk1 e1 He1) as [s2 Hs2]. destruct (Hl2 _ _ Hs2) as (? & ? & _). eauto.
  - destruct Hg1 as [Hn1 Hh1]. split; intros Hr.
    + intros e1 s2 Hs2. destruct (Hl1 _ _ Hs2) as (s3 & Hs3 & Hd3). destruct (Hn1 Hr _ _ Hs3) as (s4 & ? & ?). eauto with congruence.
    + intros d Hd1. destruct (Hh1 Hr d Hd1) as [? Hs]. split; [done|]. intros e1 s2 Hs2 Hds2. destruct (Hs _ _ Hs2 Hds2) as (s3 & Hs3 & ?).
      destruct (Hl2 _ _ Hs3) as (? & ? & ?). eauto with congruence.
  - intros d Hown. destruct (decide (d = durableId s)) as [->|Hne]; [tauto|left].
    destruct Hown as [?|[?|(e1 & s2 & He1 & <- & Hc)]]; [by left|by right; left|]. right. right. exists e1, s2. cbn.
    rewrite lookup_insert_ne by congruence. auto.
  - intros d t Hres Hu Hlt Hle. destruct (Hr1 d t Hres Hu Hlt Hle) as [[[[r Hr] Hall] _]|[]]. left. split; [|naive_solver].
    split; [exists r; by apply Hslot|]. intros r' Hr'. apply Hall. by apply Hslot.
Qed.

Lemma sound_OnScanComplete e m : sound ReaderRole (fun _ _ => True) (OnScanComplete E towupper write_ok e) m.
Proof.
  apply sound_labelled_bind. intros w Hw Hk. unfold complete_section.
  destruct (sessions (manager w) !! e) as [s|] eqn:He; [|split; [done|split; [by apply obliged_quiet|apply sound_fine; cbn [fst negb]; fine_program]]].
  destruct (awaitingScanAttemptStarted s); [split; [done|split; [by apply obliged_quiet|apply sound_fine; cbn [fst negb]; fine_program]]|].
  destruct (scanInProgress s); [|split; [done|split; [by apply obliged_quiet|apply sound_fine; cbn [fst negb]; fine_program]]].
  cbn [negb fst snd]. set (c := mkCompletion _ _ _ _ _ _ _). pose proof (fine_discard_completion e c) as Hdiscard.
  destruct (scanBatchFailed s) eqn:Hbf; cbn [snd fst complete_tag].
  - split; [done|]. split.
    + apply obliged_other. eapply obliged_mono; [|by apply calm_close]. done.
    + apply sound_fine. change (c_batchFailed c) with true. rewrite orb_true_r. fine_program.
  - split; [done|]. split.
    + apply obliged_other. apply (obliged_closed _ _ _ s); [done|done|done| |].
      * intros e0 d0. change (c_batchFailed c) with false. by destruct (c_paused c).
      * change (c_batchFailed c) with false. rewrite orb_false_r. destruct (c_paused c); [by left|right].
        apply promises_bind_r. intros _. apply (promises_finalize e c).
    + change (c_batchFailed c) with false. rewrite orb_false_r. apply sound_fine_bind; [fine_program|]. intros _ m1 H1.
      destruct (c_paused c); [by apply sound_fine|]. apply sound_finalize. eapply names_no_new; [|exact H1].
      intros s1. cbn. rewrite lookup_insert_eq. by intros [= <-].
Qed.

Lemma obliged_open now m e s :
  keyed m -> sessions m !! e = None -> scanInProgress s = false -> obliged ReaderRole now m Plain (put_session m e s) (fun _ => False).
Proof.
  intros Hk He Hp.
  assert (Hq : queue m !! e = None). { apply eq_None_not_Some. intros Hq. destruct (Hk e Hq). congruence. }
  assert (Hgrow : forall e1 s1, sessions m !! e1 = Some s1 -> sessions (put_session m e s) !! e1 = Some s1).
  { intros e1 s1 He1. cbn. rewrite lookup_insert_ne; [done|congruence]. }
  assert (Hslot : forall d r, slot (put_session m e s) d r <-> slot m d r).
  { intros d r. split; (intros [|(e1 & s1 & He1 & Hd1 & Hr)]; [by left|right]); [|exists e1, s1; auto].
    cbn in He1, Hr. rewrite lookup_insert_ne in He1 by congruence. eauto. }
  split.
  - intros e1 He1. destruct (Hk e1 He1) as [s1 Hs1]. eauto.
  - split; [done|]. intros _ d Hd. split; [done|]. intros e1 s1 He1 Hd1. exists s1. auto.
  - intros d Hown. left. destruct Hown as [?|[?|(e1 & s1 & He1 & Hd1 & Hc)]]; [by left|by right; left|]. right. right. exists e1, s1. auto.
  - intros d t [[r Hr] Hall] _ _ _. left. split; [|done]. split; [exists r; by apply Hslot|]. intros r' Hr'. apply Hall. by apply Hslot.
Qed.

Lemma absent_no_new e m m' : sessions m !! e = None -> no_new m m' -> sessions m' !! e = None.
Proof. intros He Hm. destruct (sessions m' !! e) as [s|] eqn:Hs; [|done]. destruct (Hm _ _ Hs) as (? & ? & _). congruence. Qed.

Lemma sound_open_volumes volumes m : sound ReaderRole (fun _ _ => True) (open_volumes E towupper volume_key volumes) m.
Proof.
  revert m. induction volumes as [|info rest IH]; intros m; cbn [open_volumes]; [done|].
  apply sound_labelled_bind. intros w Hw Hk. split; [done|]. split; [by apply obliged_quiet|]. cbn [fst snd].
  destruct (sessions (manager w) !! vi_id info) eqn:He; [apply IH|].
  destruct (configured_for _ _ _) as [setting|]; [|apply IH]. destruct (enabled setting); cbn [negb]; [|apply IH].
  apply sound_fine_bind; [unfold ResolveVolumeKeyForDriveLetter; fine_program|]. intros [identity|] m1 H1; [|apply IH].
  apply sound_fine_bind; [fine_program|]. intros durable m2 H2. destruct (durable =? 0); [apply IH|].
  apply sound_fine_bind; [fine_program|]. intros _ m3 H3. apply sound_fine_bind; [fine_program|]. intros _ m4 H4.
  apply sound_labelled_bind. intros w5 H5 Hk5. split; [done|]. cbn [fst snd]. split.
  - eapply obliged_mono; [|apply obliged_open; [done| |done]]; [done|]. apply (absent_no_new _ _ _ He).
    by transitivity m1; [|transitivity m2; [|transitivity m3; [|transitivity m4]]].
  - eapply sound_bind; [apply IH|]. done.
Qed.

Lemma fine_drop_absent seen ids : fine (drop_absent E seen ids).
Proof.
  induction ids as [|e ids IH]; cbn [drop_absent]; unfold look; fine_program.
  apply fine_labelled. intros w. apply calm_end_session.
Qed.
#[local] Hint Resolve fine_drop_absent : fine.

Lemma sound_OnVolumeList volumes m : sound ReaderRole (fun _ _ => True) (OnVolumeList E towupper write_ok volume_key volumes) m.
Proof.
  unfold OnVolumeList. apply sound_fine_bind; [fine_program|]. intros _ m1 _. apply sound_fine_bind; [fine_program|]. intros _ m2 _.
  eapply sound_bind; [apply sound_open_volumes|]. intros toStart m3 _. apply sound_fine. fine_program.
Qed.

Lemma sound_handle_message msg m : sound ReaderRole (fun _ _ => True) (handle_message E towupper write_ok volume_key msg) m.
Proof.
  pose proof fine_ApplyScanBatch. pose proof fine_OnScanFailed. pose proof fine_OnScanAttemptStarted. pose proof fine_OnJournalOpened.
  pose proof fine_ApplyJournalBatch. pose proof fine_OnJournalResumeInvalid.
  destruct msg; cbn [handle_message]; unfold OnScanBatch, OnScanBatchV2, OnJournalBatch, OnJournalBatchV3;
    first [apply sound_OnVolumeList | apply sound_OnScanComplete | apply sound_fine; fine_program].
Qed.

(** ** The scheduler *)

(** What the scheduler holds of a volume has the session it was dispatched for. *)
Definition handed (e d : Z) (m : VolumeSessionManager) : Prop :=
  is_Some (hand m !! d) -> exists s, sessions m !! e = Some s /\ durableId s = d.

Lemma handed_keeps e d m m' : handed e d m -> keeps_hand m m' -> handed e d m'.
Proof. intros Hh Hm Hd. destruct (Hm d Hd) as [Hd' Hs]. destruct (Hh Hd') as (s & Hs1 & Hs2). eauto. Qed.

(** A retry that is due moves to the scheduler's hand. *)
Lemma obliged_dispatch now m e s r :
  keyed m -> sessions m !! e = Some s -> queue m !! e = Some r -> due r <= now ->
  obliged SchedulerRole now m Plain (with_queue (with_dispatch m (<[durableId s := r]> (hand m))) (delete e (queue m))) (fun _ => False).
Proof.
  intros Hk He Hq Hdue. split.
  - intros e1. cbn. rewrite lookup_delete_is_Some. intros [_ ?]. by apply Hk.
  - split; [|done]. intros _ e1 s1. cbn. eauto.
  - intros d Hown. left. destruct (decide (durableId s = d)) as [<-|Hd]; [left; cbn; rewrite lookup_insert_eq; eauto|].
    destruct Hown as [?|[?|(e1 & s1 & He1 & <- & Hc)]]; [left; cbn; by rewrite lookup_insert_ne|by right; left|].
    right. right. exists e1, s1. cbn. rewrite lookup_delete_ne by congruence. auto.
  - intros d t [[r0 Hr0] Hall] _ Hlt _. left. split; [|done].
    assert (Hd : durableId s <> d). { intros <-. specialize (Hall r). unfold slot in Hall. specialize (Hall ltac:(eauto 10)). lia. }
    split.
    + exists r0. destruct Hr0 as [|(e1 & s1 & He1 & Hd1 & Hr)]; [by left|]. right. exists e1, s1. cbn.
      rewrite lookup_delete_ne by congruence. auto.
    + intros r' [?|(e1 & s1 & He1 & Hd1 & Hr')]; apply Hall; [by left|]. cbn in Hr'. apply lookup_delete_Some in Hr' as [_ Hr']. right. eauto.
Qed.

Lemma dispatch_all now l m dispatched :
  keyed m -> (forall e r, (e, r) ∈ l -> queue m !! e = Some r) -> NoDup l.*1 ->
  let '(m', dispatched') := fold_left (dispatch_one now) l (m, dispatched) in
  obliged SchedulerRole now m Plain m' (fun _ => False) /\ sessions m' = sessions m /\
  (forall e d b, (e, d, b) ∈ dispatched' -> (e, d, b) ∈ dispatched \/ exists s, sessions m !! e = Some s /\ durableId s = d).
Proof.
  revert m dispatched. induction l as [|[e r] l IH]; intros m dispatched Hk Hl Hnd; cbn [fold_left].
  { split; [by apply obliged_quiet|]. auto. }
  apply NoDup_cons in Hnd as [Hnin Hnd]. pose proof (Hl e r ltac:(set_solver)) as Hq. unfold dispatch_one at 2.
  destruct (Z.ltb_spec now (due r)).
  { apply IH; [done| |done]. intros e1 r1 Hin. apply Hl. set_solver. }
  destruct (sessions m !! e) as [s|] eqn:He; [|destruct (Hk e ltac:(eauto)); congruence].
  pose proof (obliged_dispatch now m e s r Hk He Hq ltac:(lia)) as H1.
  set (m1 := with_queue _ _) in *. specialize (IH m1 (dispatched ++ [(e, durableId s, reconciliation r)]) (ob_keyed _ _ _ _ _ _ H1)).
  destruct (fold_left (dispatch_one now) l _) as [m' dispatched'].
  destruct IH as (H2 & Hs & Hin); [|done|].
  { intros e1 r1 Hin. cbn. rewrite lookup_delete_ne; [apply Hl; set_solver|]. intros <-. apply Hnin. apply list_elem_of_fmap. by exists (e, r1). }
  split; [by eapply obliged_trans_in|]. split; [done|]. intros e1 d1 b1 Hd1. destruct (Hin e1 d1 b1 Hd1) as [[?|Hx%list_elem_of_singleton]%elem_of_app|?].
  - by left.
  - injection Hx as -> -> ->. right. eauto.
  - by right.
Qed.

Lemma in_order_nodup {A} (m : gmap Z A) : NoDup (in_order m).*1.
Proof. unfold in_order. rewrite merge_sort_Permutation. apply NoDup_fst_map_to_list. Qed.

Lemma calm_requeue now m e s r :
  keyed m -> sessions m !! e = Some s -> calm now m (requeue m now e (durableId s) r).
Proof.
  intros Hk He. set (m1 := with_queue m (<[e := mkRetry (now + kScanFailureRetryDelay) (reconciliation r)]> (queue m))).
  assert (H1 : calm now m m1) by (eapply calm_queue; cbn; eauto; lia). eapply obliged_trans; [exact H1|].
  eapply obliged_trans; [apply calm_quiet; [exact (calm_keyed _ _ _ H1)|by apply (quiet_same _ (next_generation m1))]|].
  apply calm_erase_hand; [exact (calm_keyed _ _ _ H1)|]. intros _. right. exists e, s. split; [done|]. split; [done|]. right. cbn.
  rewrite lookup_insert_eq. eauto.
Qed.

(** A section of the scheduler that every other thread tolerates. *)
Lemma sound_calm {B} r ls (f : World -> B * World) m :
  (forall w, rely r m (manager w) -> keyed (manager w) -> steady (f w).2 = steady w /\ calm (steady w) (manager w) (manager (f w).2)) ->
  sound r (fun _ m' => rely r m m') (section ls f) m.
Proof.
  intros Hf. apply sound_labelled. intros w Hw Hk. destruct (Hf w Hw Hk) as [Hs Ho]. split; [done|]. split; [by apply obliged_other|].
  intros m' Hm'. transitivity (manager w); [done|]. transitivity (manager (f w).2); [by eapply obliged_rely|done].
Qed.

Lemma calm_adopt e d w :
  keyed (manager w) -> handed e d (manager w) ->
  steady (adopt_section towupper e d w).2 = steady w /\ calm (steady w) (manager w) (manager (adopt_section towupper e d w).2).
Proof.
  intros Hk Hh. unfold adopt_section, handed in *. destruct (hand (manager w) !! d); [|split; [done|by apply calm_quiet]].
  destruct Hh as (s & -> & ->); [eauto|]. rewrite Z.eqb_refl. cbn [negb]. case_match; (split; [done|by apply calm_quiet]).
Qed.

Lemma calm_requeue_section e d w :
  keyed (manager w) -> handed e d (manager w) ->
  steady (requeue_section e d w).2 = steady w /\ calm (steady w) (manager w) (manager (requeue_section e d w).2).
Proof.
  intros Hk Hh. unfold requeue_section, handed in *. destruct (hand (manager w) !! d); [|split; [done|by apply calm_quiet]].
  destruct Hh as (s & Hs & <-); [eauto|]. split; [done|]. by apply calm_requeue.
Qed.

Lemma calm_settle e d w :
  keyed (manager w) -> handed e d (manager w) ->
  steady (settle_section e d w).2 = steady w /\ calm (steady w) (manager w) (manager (settle_section e d w).2).
Proof.
  intros Hk Hh. unfold settle_section, handed in *. destruct (hand (manager w) !! d); [|split; [done|by apply calm_quiet]].
  destruct Hh as (s & Hs & <-); [eauto|]. rewrite Hs, Z.eqb_refl. cbn [negb].
  destruct (scanInProgress s) eqn:Hp; (split; [done|]); [|by apply calm_requeue]. apply calm_erase_hand; [done|]. intros _. right. eauto 10.
Qed.

Lemma sound_dispatch_retry x m :
  handed x.1.1 x.1.2 m -> sound SchedulerRole (fun _ m' => keeps_hand m m') (dispatch_retry E towupper write_ok x) m.
Proof.
  destruct x as [[e d] b]. cbn [fst snd]. intros Hh. unfold dispatch_retry.
  eapply sound_bind.
  { apply sound_calm. intros w Hw Hk. apply calm_adopt; [done|by eapply handed_keeps]. }
  cbn [rely]. intros [| |s] m1 H1.
  - intros m' Hm'. by transitivity m1.
  - eapply sound_mono; [|apply sound_calm]; [intros ? m'; by transitivity m1|].
    intros w Hw Hk. apply calm_requeue_section; [done|]. eapply handed_keeps; [exact Hh|]. by transitivity m1.
  - apply sound_fine_bind; [fine_program|]. intros issued m2 H2. eapply sound_bind.
    { apply sound_calm. intros w Hw Hk. apply calm_settle; [done|]. eapply handed_keeps; [exact Hh|].
      by transitivity m1; [|transitivity m2]. }
    intros kept m3 H3. eapply sound_mono; [|apply fine_sound; fine_program]. intros ? m' H4.
    by transitivity m1; [|transitivity m2; [|transitivity m3]].
Qed.

Lemma sound_dispatch_retries l m :
  (forall x, x ∈ l -> handed x.1.1 x.1.2 m) -> sound SchedulerRole (fun _ _ => True) (for_each l (dispatch_retry E towupper write_ok)) m.
Proof.
  revert m. induction l as [|x l IH]; intros m Hl; cbn [for_each]; [done|]. eapply sound_bind.
  { apply sound_dispatch_retry. apply Hl. set_solver. }
  intros ? m1 H1. apply IH. intros y Hy. eapply handed_keeps; [|exact H1]. apply Hl. set_solver.
Qed.

Lemma fine_postpone : fine (section [Wake] postpone_section).
Proof.
  apply fine_labelled. intros w Hk. split; [done|]. unfold postpone_section. cbn.
  set (f := fun r : FailedScanRetry => if due r <=? steady w + kScanFailureRetryDelay then mkRetry (steady w + kScanFailureRetryDelay) (reconciliation r) else r).
  assert (Hf : forall r, due r <= due (f r)). { intros r. unfold f. destruct (Z.leb_spec (due r) (steady w + kScanFailureRetryDelay)); cbn; lia. }
  assert (Hsome : forall e, is_Some ((f <$> queue (manager w)) !! e) <-> is_Some (queue (manager w) !! e)).
  { intros e. rewrite lookup_fmap. apply fmap_is_Some. }
  split.
  - intros e. cbn. rewrite Hsome. apply Hk.
  - split; intros _; [intros e1 s1 H1|intros d Hd]; eauto.
  - intros d Hown. left. destruct Hown as [?|[?|(e1 & s1 & He1 & <- & Hc)]]; [by left|by right; left|]. right. right. exists e1, s1.
    cbn. rewrite Hsome. auto.
  - intros d t [[r Hr] Hall] _ _ _. left. split; [|done]. split.
    + destruct Hr as [|(e1 & s1 & He1 & Hd1 & Hr)]; [exists r; by left|]. exists (f r). right. exists e1, s1. cbn. rewrite lookup_fmap, Hr. auto.
    + intros r' [?|(e1 & s1 & He1 & Hd1 & Hr')]; [apply Hall; by left|]. cbn in Hr'. rewrite lookup_fmap in Hr'.
      destruct (queue (manager w) !! e1) as [r1|] eqn:Hq; [|done]. injection Hr' as <-. specialize (Hf r1).
      specialize (Hall r1). unfold slot in Hall. specialize (Hall ltac:(eauto 10)). lia.
Qed.
#[local] Hint Resolve fine_postpone : fine.

Lemma fine_due_sessions now l : fine (due_sessions E towupper now l).
Proof. induction l as [|[e s] l IH]; cbn [due_sessions]; fine_program. Qed.
#[local] Hint Resolve fine_due_sessions : fine.
Lemma fine_periodic : fine (periodic_reconciliation E towupper write_ok).
Proof. unfold periodic_reconciliation. fine_program. Qed.
Lemma fine_scheduler_wait : fine scheduler_wait.
Proof.
  unfold scheduler_wait. apply fine_bind; [fine_program|]. intros [nextWake generation] m w b w' _ Hk _ Hb. injection Hb as <- <-.
  split; [done|]. split; [by apply obliged_quiet|]. done.
Qed.
#[local] Hint Resolve fine_periodic fine_scheduler_wait : fine.

Lemma sound_SchedulerRound m : sound SchedulerRole (fun _ _ => True) (SchedulerRound E towupper write_ok) m.
Proof.
  unfold SchedulerRound. apply sound_fine_bind; [fine_program|]. intros [] m1 _; cbn [negb]; [|done].
  apply sound_fine_bind; [fine_program|]. intros _ m2 _. apply sound_fine_bind; [fine_program|]. intros [] m3 _; cbn [negb]; [|done].
  apply sound_fine_bind; [fine_program|]. intros _ m4 _. apply sound_fine_bind; [fine_program|]. intros [] m5 _; cbn [negb]; [|apply sound_fine; fine_program].
  apply sound_labelled_bind. intros w _ Hk. unfold dispatch_section.
  pose proof (dispatch_all (steady w) (in_order (queue (manager w))) (manager w) [] Hk) as Hd.
  destruct (fold_left _ _ _) as [m' dispatched]. destruct Hd as (H1 & Hs & Hin); [intros e r; apply elem_of_in_order|apply in_order_nodup|].
  cbn [fst snd]. split; [done|]. split; [eapply obliged_mono; [|exact H1]; done|].
  eapply sound_bind; [apply sound_dispatch_retries|].
  - intros [[e d] b] Hx _. cbn. rewrite Hs. destruct (Hin e d b Hx) as [Hn|?]; [by apply elem_of_nil in Hn|done].
  - intros _ m6 _. apply sound_fine. fine_program.
Qed.

(** ** The other threads *)

Lemma obliged_stopped now m m' P :
  queue m' = ∅ -> hand m' = ∅ -> sessions m' = sessions m -> obliged OtherRole now m Stopped m' P.
Proof.
  intros Hq Hh Hs. split.
  - intros e. rewrite Hq, lookup_empty. by intros [].
  - split; intros _; [intros e s; rewrite Hs; eauto|]. intros d. rewrite Hh, lookup_empty. by intros [].
  - intros d _. right. by left.
  - intros d t _ _ _ _. by right.
Qed.

Lemma fine_configured_status volumes : fine (configured_status E towupper volumes).
Proof.
  induction volumes as [|v volumes IH]; cbn [configured_status]; [apply fine_ret|]. destruct (key v); [done|].
  destruct (_ || _ || _); [done|]. fine_program.
Qed.
#[local] Hint Resolve fine_configured_status : fine.

Lemma fine_stop : fine (labelled [Mutex; Wake] stop_section (fun _ => Stopped)).
Proof. apply fine_labelled. intros w Hk. split; [done|]. by apply obliged_stopped. Qed.
#[local] Hint Resolve fine_stop : fine.

Lemma fine_enter c : fine (enter E towupper write_ok c).
Proof.
  destruct c; cbn [enter]; unfold CollectVolumeStatus, Start, Stop, set_link; fine_program.
Qed.

End handlers.
