(* ===== verification/SessionRuns.v ===== *)
(** * SessionRuns: the retries of a running engine

    The threads of [Sessions] run together: whatever their interleaving, the intent to scan a
    volume is never lost and a retry is never early (from [SessionRetries]); and a schedule can be
    played, step by step, on a concrete engine. *)

From stdpp Require Import gmap sorting.
From S2P Require Import Prelude Wire Records Dispatch Rules SnapshotPool Sql Store Pipeline PipelineRuns Export SessionState Sessions SessionRetries.

Section runs.
Context (E : Env) (towupper : Z -> Z) (write_ok : nat -> bool) (volume_key : nat -> Z -> option VolumeKey).
#[local] Notation step := (step E towupper write_ok volume_key).
#[local] Notation running_engine := (running_engine E towupper write_ok volume_key).

(** ** The invariant of the threads *)

Record sane (S : System) : Prop := {
  sane_keyed : keyed (manager (world S));
  sane_reader : sound ReaderRole (fun _ _ => True) (reader S) (manager (world S));
  sane_scheduler : sound SchedulerRole (fun _ _ => True) (scheduler S) (manager (world S));
  sane_others : Forall (fun p => sound OtherRole (fun _ _ => True) p (manager (world S))) (others S)
}.

(** Somebody takes care of the volume: the manager, or the rest of a thread's program. *)
Definition cared (S : System) (d : Z) : Prop :=
  owned (manager (world S)) d \/ promises d (reader S) \/ promises d (scheduler S) \/ Exists (promises d) (others S).

Lemma resume_sound {A} r Q (p p' : prog A) w l w' :
  sound r Q p (manager w) -> keyed (manager w) -> resume p w = Some (l, p', w') ->
  steady w' = steady w /\ obliged r (steady w) (manager w) l (manager w') (fun d => promises d p') /\ sound r Q p' (manager w').
Proof.
  intros Hp Hk Hres. destruct p as [a|B ready body tag k]; [done|]. cbn in Hres.
  destruct (ready w) eqn:Hr; [|done]. destruct (body w) as [[b w1]| |] eqn:Hb; try done. injection Hres as <- <- <-. by apply (Hp w b w1).
Qed.

Lemma resume_promises {A} (p p' : prog A) w l w' d :
  promises d p -> resume p w = Some (l, p', w') -> owned (manager w') d \/ spent d l \/ promises d p'.
Proof.
  intros Hp Hres. destruct p as [a|B ready body tag k]; [done|]. cbn in Hres. destruct (ready w); [|done].
  destruct (body w) as [[b w1]| |] eqn:Hb; try done. injection Hres as <- <- <-. by apply (Hp w b w1).
Qed.

Lemma others_rely r now m l m' P os :
  obliged r now m l m' P -> Forall (fun p : prog unit => sound OtherRole (fun _ _ => True) p m) os ->
  Forall (fun p : prog unit => sound OtherRole (fun _ _ => True) p m') os.
Proof. intros Ho Hos. eapply Forall_impl; [exact Hos|]. intros p. by apply sound_rely. Qed.

Lemma step_sane S l S' :
  sane S -> step S l S' ->
  sane S' /\ steady (world S) <= steady (world S') /\
  exists (r : role) (P : Z -> Prop), obliged r (steady (world S)) (manager (world S)) l (manager (world S')) P /\ (forall d, P d -> cared S' d).
Proof.
  intros [Hk Hr Hs Ho] Hstep. destruct Hstep; cbn [world reader scheduler others] in *.
  - destruct (resume_sound _ _ _ _ _ _ _ Hr Hk H) as (Ht & Hob & Hr'). split; [|split; [lia|]].
    + split; cbn; [by destruct Hob|done| |by eapply others_rely]. eapply sound_rely; [|exact Hs].
      eapply guarantee_rely; [by destruct Hob|by left].
    + exists ReaderRole, (fun d => promises d r'). split; [done|]. intros d Hd. right. by left.
  - destruct (resume_sound _ _ _ _ _ _ _ Hs Hk H) as (Ht & Hob & Hs'). split; [|split; [lia|]].
    + split; cbn; [by destruct Hob| |done|by eapply others_rely]. eapply sound_rely; [|exact Hr].
      eapply guarantee_rely; [by destruct Hob|by left].
    + exists SchedulerRole, (fun d => promises d s'). split; [done|]. intros d Hd. right. right. by left.
  - apply Forall_app in Ho as [Ho1 [Ho Ho2]%Forall_cons].
    destruct (resume_sound _ _ _ _ _ _ _ Ho Hk H) as (Ht & Hob & Ho'). split; [|split; [lia|]].
    + split; cbn; [by destruct Hob| | |].
      * eapply sound_rely; [|exact Hr]. eapply guarantee_rely; [by destruct Hob|by left].
      * eapply sound_rely; [|exact Hs]. eapply guarantee_rely; [by destruct Hob|by left].
      * apply Forall_app. split; [by eapply others_rely|]. apply Forall_cons. split; [done|by eapply others_rely].
    + exists OtherRole, (fun d => promises d o'). split; [done|]. intros d Hd. right. right. right. cbn.
      apply Exists_app. right. by apply Exists_cons_hd.
  - split; [|split; [lia|]].
    + split; cbn; [done|apply sound_handle_message|done|done].
    + exists OtherRole, (fun _ => False). split; [by apply obliged_quiet|done].
  - split; [|split; [lia|]].
    + split; cbn; [done|done|apply sound_SchedulerRound|done].
    + exists OtherRole, (fun _ => False). split; [by apply obliged_quiet|done].
  - split; [|split; [lia|]].
    + split; cbn; [done|done|done|]. apply Forall_cons. split; [apply sound_fine, fine_enter|done].
    + exists OtherRole, (fun _ => False). split; [by apply obliged_quiet|done].
  - split; [|split; [done|]].
    + split; cbn; done.
    + exists OtherRole, (fun _ => False). split; [by apply obliged_quiet|done].
Qed.

(** The states visited satisfy [P]. *)
Inductive execution (P : System -> Prop) : System -> list label -> System -> Prop :=
| execution_nil S : P S -> execution P S [] S
| execution_cons S l S1 ls S' : P S -> step S l S1 -> execution P S1 ls S' -> execution P S (l :: ls) S'.

Lemma initial_sane p now system : sane (initial p now system).
Proof. split; cbn; [|done..]. intros e. cbn. rewrite lookup_empty. by intros []. Qed.

Lemma running_sane S : running_engine S -> sane S.
Proof.
  intros (p & now & system & Hrun). pose proof (initial_sane p now system) as Hsane. revert Hsane. induction Hrun as [|S1 S2 S3 [l Hl] _ IH]; [done|].
  intros Hsane. apply IH. by destruct (step_sane _ _ _ Hsane Hl).
Qed.

(** A promise is kept by the thread that gave it. *)
Lemma step_promises S l S' d : step S l S' -> cared S d -> ~ owned (manager (world S)) d -> cared S' d \/ spent d l.
Proof.
  intros Hstep [?|Hc] Hno; [done|]. destruct Hstep; cbn [world reader scheduler others] in *; unfold cared; cbn [world reader scheduler others].
  - destruct Hc as [Hc|[Hc|Hc]]; [|by auto..]. destruct (resume_promises _ _ _ _ _ _ Hc H) as [|[|]]; auto.
  - destruct Hc as [Hc|[Hc|Hc]]; [by auto| |by auto]. destruct (resume_promises _ _ _ _ _ _ Hc H) as [|[|]]; auto.
  - destruct Hc as [Hc|[Hc|Hc]]; [by auto..|]. apply Exists_app in Hc as [Hc|[Hc|Hc]%Exists_cons].
    + left. rewrite Exists_app. auto.
    + destruct (resume_promises _ _ _ _ _ _ Hc H) as [|[|]]; [by auto..|]. left. rewrite Exists_app, Exists_cons. auto 10.
    + left. rewrite Exists_app, Exists_cons. auto 10.
  - destruct Hc as [[]|Hc]. auto.
  - destruct Hc as [Hc|[[]|Hc]]; auto.
  - left. rewrite Exists_cons. naive_solver.
  - auto.
Qed.

Lemma step_cared S l S' d : sane S -> step S l S' -> cared S d -> cared S' d \/ spent d l.
Proof.
  intros Hsane Hstep Hc. destruct (step_sane _ _ _ Hsane Hstep) as (_ & _ & r & P & Hob & HP).
  destruct (decide (RetryOwnerStateLocked (manager (world S)) d = OwnedByNone)) as [Hn|Hn].
  - apply (step_promises S); [done|done|]. rewrite owned_state. tauto.
  - apply owned_state in Hn. destruct (ob_owned _ _ _ _ _ _ Hob d Hn) as [?|[?|?]]; [left; by left|by right|left; auto].
Qed.

Lemma execution_first P S ls S' : execution P S ls S' -> P S.
Proof. by destruct 1. Qed.

Lemma execution_cared P S ls S' d :
  sane S -> execution P S ls S' -> (forall l, l ∈ ls -> ~ spent d l) -> cared S d -> cared S' d.
Proof.
  intros Hsane Hex. induction Hex as [|S l S1 ls S' _ Hstep _ IH]; [done|]. intros Hls Hc.
  destruct (step_cared _ _ _ d Hsane Hstep Hc) as [Hc1|Hl]; [|by destruct (Hls l ltac:(set_solver))].
  apply IH; [by apply (step_sane S l)| |done]. intros l' Hl'. apply Hls. set_solver.
Qed.

(** C1. The intent to scan a volume is never lost, whatever the interleaving of the reader,
    the scheduler, the lifecycle and the UI threads, and whatever messages, writes, disconnections
    and reconfigurations happen: from any state of a running engine in which
    [RetryOwnerStateLocked] finds an owner for the volume (an attempt in flight, a queued retry, a
    retry in the scheduler's hand or a durable floor), every later state has an owner again,
    unless a scan of it was durably finalized or closed while the volume is paused, or the manager
    stopped.  The only states without one are those in which a thread is between the end of an
    attempt and its finalization, and the rest of that thread's handler gives the volume an owner
    or finalizes it. *)
Theorem retry_intent_never_lost S ls S' d :
  running_engine S -> RetryOwnerStateLocked (manager (world S)) d <> OwnedByNone ->
  execution (fun _ => True) S ls S' -> (forall l, l ∈ ls -> ~ spent d l) ->
  RetryOwnerStateLocked (manager (world S')) d <> OwnedByNone \/
  promises d (reader S') \/ promises d (scheduler S') \/ Exists (promises d) (others S').
Proof.
  intros Hrun Hown Hex Hls. rewrite <- owned_state.
  apply (execution_cared (fun _ => True) S ls S' d); [by apply running_sane|exact Hex|done|]. left. by apply owned_state.
Qed.

Lemma execution_resting S ls S' d t :
  sane S -> resting (manager (world S)) d t -> t <= steady (world S) + kScanFailureRetryDelay ->
  execution (fun S => one_session (manager (world S)) d /\ steady (world S) < t) S ls S' ->
  (forall l, l ∈ ls -> ~ spent d l) -> forall e, Claimed e d ∉ ls.
Proof.
  intros Hsane Hres Hle Hex. revert Hres Hle. induction Hex as [|S l S1 ls S' [Hu Hlt] Hstep Hex IH]; intros Hres Hle Hls e.
  { apply not_elem_of_nil. }
  destruct (step_sane _ _ _ Hsane Hstep) as (Hsane1 & Hmono & r & P & Hob & _).
  destruct (ob_resting _ _ _ _ _ _ Hob d t Hres Hu Hlt Hle) as [[Hres1 Hl]|Hl]; [|by destruct (Hls l ltac:(set_solver))].
  intros [Hc|Hc]%elem_of_cons; [by apply (Hl e)|]. revert Hc. apply IH; [done|done|lia|]. intros l' Hl'. apply Hls. set_solver.
Qed.

(** C3. A retry is never early.  While a volume waits - a retry of it is queued or is its
    floor, and every one of these is due at [t] or later, with [t] at most the five seconds of
    [kScanFailureRetryDelay] away - no thread claims a scan attempt of it before [t], however
    the threads interleave and although a lost connection, a reload or a failed admission may
    move the retry between the queue and the floor.  This holds while the volume
    has at most one session at a time (a second session of it would claim at once), and until a
    finalization, a close of the paused volume or the stop of the manager ends the wait. *)
Theorem retry_never_early S ls S' d t :
  running_engine S -> resting (manager (world S)) d t -> t <= steady (world S) + kScanFailureRetryDelay ->
  execution (fun S => one_session (manager (world S)) d /\ steady (world S) < t) S ls S' ->
  (forall l, l ∈ ls -> ~ spent d l) ->
  forall e, Claimed e d ∉ ls.
Proof. intros Hrun. apply execution_resting. by apply running_sane. Qed.

(** In every state of a running engine a queued retry belongs to a session of the
    current connection, and a retry that the scheduler dispatches is taken from such a one: no
    interleaving leaves a retry under the id of a session that is gone. *)
Theorem queued_retries_have_sessions S e r :
  running_engine S -> failedScanRetries_ (manager (world S)) !! e = Some r ->
  is_Some (sessionsByEphemeralId_ (manager (world S)) !! e).
Proof. intros Hrun Hq. apply (sane_keyed S); [by apply running_sane|eauto]. Qed.

(** ** Schedules *)

(** What happens next. *)
Inductive choice :=
| Reader
| Scheduler
| Other (i : nat)
| Frame (messageType : Z) (payload : list Z)
| Round
| Enter (c : entry_point)
| Tick (now system : Z).

Definition perform (S : System) (c : choice) : option (label * System) :=
  let '(mkSystem w r s os) := S in
  match c with
  | Reader => match resume r w with Some (l, r', w') => Some (l, mkSystem w' r' s os) | None => None end
  | Scheduler => match resume s w with Some (l, s', w') => Some (l, mkSystem w' r s' os) | None => None end
  | Other i =>
      match os !! i with
      | Some o => match resume o w with Some (l, o', w') => Some (l, mkSystem w' r s (take i os ++ o' :: drop (Nat.succ i) os)) | None => None end
      | None => None
      end
  | Frame messageType payload =>
      match r, DispatchReceivedFrame (bool_decide (state_ (link w) = Active)) messageType payload with
      | Ret tt, Ok m => Some (Plain, mkSystem w (handle_message E towupper write_ok volume_key m) s os)
      | _, _ => None
      end
  | Round => match s with Ret tt => Some (Plain, mkSystem w r (SchedulerRound E towupper write_ok) os) | _ => None end
  | Enter c => Some (Plain, mkSystem w r s (enter E towupper write_ok c :: os))
  | Tick now system => if bool_decide (steady w <= now) then Some (Plain, mkSystem (with_clocks w now system) r s os) else None
  end.

(** The choices in turn; one that is not possible is passed over. *)
Fixpoint play (S : System) (cs : list choice) : list label * System :=
  match cs with
  | [] => ([], S)
  | c :: rest => match perform S c with Some (l, S1) => let '(ls, S') := play S1 rest in (l :: ls, S') | None => play S rest end
  end.

Lemma perform_step S c l S' : perform S c = Some (l, S') -> step S l S'.
Proof.
  destruct S as [w r s os]. destruct c as [| |i|messageType payload| |c|now system]; cbn [perform].
  - destruct (resume r w) as [[[l1 r1] w1]|] eqn:Hr; [|done]. intros [= <- <-]. by apply step_reader.
  - destruct (resume s w) as [[[l1 r1] w1]|] eqn:Hr; [|done]. intros [= <- <-]. by apply step_scheduler.
  - destruct (os !! i) as [o|] eqn:Ho; [|done]. destruct (resume o w) as [[[l1 r1] w1]|] eqn:Hr; [|done]. intros [= <- <-].
    rewrite <- (take_drop_middle os i o Ho) at 1. by apply step_other.
  - destruct r as [[]|]; [|done]. destruct (DispatchReceivedFrame _ _ _) as [m| |] eqn:Hd; [|done..]. intros [= <- <-]. by eapply step_frame.
  - destruct s as [[]|]; [|done]. intros [= <- <-]. apply step_round.
  - intros [= <- <-]. apply step_enter.
  - case_bool_decide; [|done]. intros [= <- <-]. by apply step_time.
Qed.

Lemma play_execution S cs : execution (fun _ => True) S (play S cs).1 (play S cs).2.
Proof.
  revert S. induction cs as [|c cs IH]; intros S; cbn [play]; [by constructor|].
  destruct (perform S c) as [[l S1]|] eqn:Hc; [|apply IH]. specialize (IH S1). destruct (play S1 cs) as [ls S']. cbn [fst snd] in *.
  econstructor; [done|by eapply perform_step|done].
Qed.

Lemma execution_rtc P S ls S' : execution P S ls S' -> rtc (some_step E towupper write_ok volume_key) S S'.
Proof. induction 1 as [|S l S1 ls S' _ Hstep _ IH]; [done|]. eapply rtc_l; [by exists l|done]. Qed.

Lemma play_running p now system cs : running_engine (play (initial p now system) cs).2.
Proof. exists p, now, system. eapply execution_rtc, play_execution. Qed.
End runs.

(** ** An engine with one volume *)

Definition sample_towupper (c : Z) : Z := if (97 <=? c) && (c <=? 122) then c - 32 else c.
Definition sample_setting : VolumeSetting := mkSetting [67; 58] true [].

Definition sample_engine : System := initial sample_start 0 0.

(** Every write succeeds, and drive C: is the sample volume. *)
Definition sample_on (S : System) (cs : list choice) : list label * System :=
  play (sample_env None) sample_towupper (fun _ => true) (fun _ _ => Some sample_key) S cs.

Definition sample_play (cs : list choice) : list label * System := sample_on sample_engine cs.

Definition frame (m : service_message) : choice := Frame (raw_of_MessageType (frame_of m).1) (frame_of m).2.

Definition drain (n : nat) (c : choice) : list choice := replicate n c.

(** The engine starts, the service answers with volume 7, drive C:, whose scan is claimed. *)
Definition sample_boot : list choice :=
  Enter CallStart :: drain 5 (Other 0) ++ Enter (CallReload [sample_setting]) :: drain 30 (Other 0) ++
  Enter (LinkActive (mkProtocolVersion 2 1)) :: drain 30 (Other 0) ++ frame (VolumesListed [mkVolumeInfo 7 67]) :: drain 80 Reader.

(** The service reports every file of the volume. *)
Definition sample_batches : list choice := frame (ScanBatch 7 [1; 2; 3; 4] [sample_root; sample_work; sample_file]) :: drain 80 Reader.

Definition spend_free (d : Z) (l : label) : bool :=
  match l with Finalized _ d' | ClosedPaused _ d' => negb (d =? d') | Stopped => false | _ => true end.

Lemma spend_free_all d ls : forallb (spend_free d) ls = true -> forall l, l ∈ ls -> ~ spent d l.
Proof.
  intros Hall l Hl Hs. rewrite forallb_forall in Hall. apply list_elem_of_In in Hl. specialize (Hall l Hl).
  destruct l; cbn in *; [done..|subst; by rewrite Z.eqb_refl in Hall|subst; by rewrite Z.eqb_refl in Hall|done].
Qed.

(** The scan is claimed, fails, and the connection is lost: the intent survives as a floor. *)
Definition sample_loss : list choice := frame (ScanHasFailed 7) :: drain 80 Reader ++ Enter LinkLost :: drain 80 (Other 0).

Lemma retry_intent_never_lost_witness :
  RetryOwnerStateLocked (manager (world (sample_play sample_boot).2)) 1 = ActiveAttempt /\
  RetryOwnerStateLocked (manager (world (sample_on (sample_play sample_boot).2 sample_loss).2)) 1 <> OwnedByNone.
Proof.
  split; [vm_compute; reflexivity|].
  assert (Hown : RetryOwnerStateLocked (manager (world (sample_play sample_boot).2)) 1 <> OwnedByNone) by (vm_compute; discriminate).
  destruct (retry_intent_never_lost (sample_env None) sample_towupper (fun _ => true) (fun _ _ => Some sample_key)
    (sample_play sample_boot).2 _ _ 1 (play_running _ _ _ _ _ _ _ _) Hown (play_execution _ _ _ _ _ sample_loss)) as [H|_].
  - apply spend_free_all. vm_compute. reflexivity.
  - exact H.
  - vm_compute. discriminate.
Defined.

Section visits.
Context (E : Env) (towupper : Z -> Z) (write_ok : nat -> bool) (volume_key : nat -> Z -> option VolumeKey) (f : System -> bool).

(** Every state that the schedule visits satisfies [f]. *)
Fixpoint visits (S : System) (cs : list choice) : bool :=
  f S &&
  match cs with
  | [] => true
  | c :: rest => match perform E towupper write_ok volume_key S c with Some (_, S1) => visits S1 rest | None => visits S rest end
  end.

Lemma visits_execution (P : System -> Prop) S cs :
  (forall S, f S = true -> P S) -> visits S cs = true ->
  execution E towupper write_ok volume_key P S (play E towupper write_ok volume_key S cs).1 (play E towupper write_ok volume_key S cs).2.
Proof.
  intros Hf. revert S. induction cs as [|c cs IH]; intros S; cbn [visits play].
  - rewrite andb_true_r. intros HS. constructor. auto.
  - intros [HS Hrest]%andb_prop. destruct (perform _ _ _ _ S c) as [[l S1]|] eqn:Hc; [|by apply IH].
    specialize (IH S1 Hrest). destruct (play _ _ _ _ S1 cs) as [ls S']. cbn [fst snd] in *. econstructor; [auto|by eapply perform_step|done].
Qed.
End visits.

Lemma unique_by_size m d : (size (sessionsByEphemeralId_ m) <= 1)%nat -> one_session m d.
Proof.
  intros Hsize e1 e2 s1 s2 H1 H2 _ _. destruct (decide (e1 = e2)) as [|Hne]; [done|exfalso].
  assert (size (delete e1 (sessionsByEphemeralId_ m)) = 0%nat) as H0. { rewrite map_size_delete, H1. lia. }
  apply map_size_empty_inv in H0. apply (lookup_delete_ne (sessionsByEphemeralId_ m) e1 e2) in Hne. by rewrite H0, lookup_empty, H2 in Hne.
Qed.

Lemma resting_by_bound m d e s r t :
  sessionsByEphemeralId_ m !! e = Some s -> durableId s = d -> failedScanRetries_ m !! e = Some r ->
  map_Forall (fun _ r => t <= due r) (failedScanRetries_ m) -> map_Forall (fun _ r => t <= due r) (scanReissueFloors_ m) -> resting m d t.
Proof.
  intros He Hd Hq Hqueue Hfloors. split; [exists r; right; eauto|].
  intros r' [Hr'|(e' & s' & _ & _ & Hr')]; [exact (Hfloors _ _ Hr')|exact (Hqueue _ _ Hr')].
Qed.

(** Five seconds after the failure the retry is due; until then the scheduler's rounds, a reload
    and a lost connection leave it alone. *)
Definition sample_failed : list choice := sample_boot ++ frame (ScanHasFailed 7) :: drain 80 Reader.
Definition sample_wait : list choice :=
  Tick 3000000000 100 :: Round :: drain 40 Scheduler ++ Enter (CallReload [sample_setting]) :: drain 40 (Other 0) ++
  Enter LinkLost :: drain 80 (Other 0) ++ [Tick 4999999999 200; Enter (LinkActive (mkProtocolVersion 2 1))] ++ drain 30 (Other 0) ++
  frame (VolumesListed [mkVolumeInfo 7 67]) :: drain 80 Reader.

Definition one_volume_before (t : Z) (S : System) : bool :=
  bool_decide (size (sessionsByEphemeralId_ (manager (world S))) <= 1)%nat && (steady (world S) <? t).

Lemma retry_never_early_witness :
  length (sample_on (sample_play sample_failed).2 sample_wait).1 = 45%nat /\
  Claimed 7 1 ∉ (sample_on (sample_play sample_failed).2 sample_wait).1.
Proof.
  split; [vm_compute; reflexivity|].
  apply (retry_never_early (sample_env None) sample_towupper (fun _ => true) (fun _ _ => Some sample_key)
    (sample_play sample_failed).2 _ (sample_on (sample_play sample_failed).2 sample_wait).2 1 5000000000).
  - apply play_running.
  - eapply (resting_by_bound _ 1 7).
    + vm_compute. reflexivity.
    + reflexivity.
    + vm_compute. reflexivity.
    + refine (bool_decide_unpack _ _). vm_compute. exact I.
    + refine (bool_decide_unpack _ _). vm_compute. exact I.
  - vm_compute. discriminate.
  - apply (visits_execution _ _ _ _ (one_volume_before 5000000000)).
    + intros S [Hs%bool_decide_eq_true Ht%Z.ltb_lt]%andb_prop. split; [by apply unique_by_size|done].
    + vm_compute. reflexivity.
  - apply spend_free_all. vm_compute. reflexivity.
Defined.

Lemma queued_retries_have_sessions_witness :
  is_Some (failedScanRetries_ (manager (world (sample_play sample_failed).2)) !! 7) /\
  is_Some (sessionsByEphemeralId_ (manager (world (sample_play sample_failed).2)) !! 7).
Proof.
  split; [refine (bool_decide_unpack _ _); vm_compute; exact I|].
  apply (queued_retries_have_sessions (sample_env None) sample_towupper (fun _ => true) (fun _ _ => Some sample_key)
    (sample_play sample_failed).2 7 (mkRetry 5000000000 false)).
  - apply play_running.
  - vm_compute. reflexivity.
Defined.

(** ** A race of two reconciliations *)

Definition seven_hours : Z := 7 * 3600.

(** The first scan completes.  Seven hours later the scheduler reconciles the volume; the
    service reports every file again and that the scan is complete, and the reader has just
    closed the attempt, when the scheduler wakes and finds the volume still due. *)
Definition sample_race : list choice :=
  sample_boot ++ sample_batches ++ frame (ScanCompleted 7) :: drain 80 Reader ++
  Round :: drain 6 Scheduler ++ Tick (seven_hours * 1000000000) (seven_hours * 10000000) :: drain 80 Scheduler ++
  sample_batches ++ frame (ScanCompleted 7) :: drain 3 Reader ++
  Round :: drain 6 Scheduler ++ Tick (2 * seven_hours * 1000000000) (2 * seven_hours * 10000000) :: drain 80 Scheduler.

Definition rows_of (S : System) : nat := size (Durable (tables (store_ (pipeline (world S))))).
Definition attempts (ls : list label) : list label := List.filter (fun l => match l with Plain => false | _ => true end) ls.

(** C38. A reconciliation can delete every row of a volume although its scan saw every file.
    Between the close of a reconciliation attempt and its [FinishReconciliationPass] the volume
    counts as idle and as due; a [TriggerReconciliation] of the scheduler in that window begins
    a new pass, which clears the set of the files seen, and the finalization of the first scan
    then removes all rows: in this run of the engine, in which every scan reported all three
    files of the volume, the store goes from three rows to none. *)
Theorem reconciliation_race_deletes_live_rows :
  let before := sample_play sample_race in
  let after := sample_play (sample_race ++ drain 80 Reader) in
  attempts before.1 = [Claimed 7 1; Authorized 7 1; Finalized 7 1; Claimed 7 1; Authorized 7 1; Claimed 7 1] /\
  rows_of before.2 = 3%nat /\
  attempts after.1 = attempts before.1 ++ [Finalized 7 1] /\
  rows_of after.2 = 0%nat /\
  running_engine (sample_env None) sample_towupper (fun _ => true) (fun _ _ => Some sample_key) after.2.
Proof.
  split; [vm_compute; reflexivity|]. split; [vm_compute; reflexivity|]. split; [vm_compute; reflexivity|].
  split; [vm_compute; reflexivity|]. apply play_running.
Qed.
