(* ===== verification/Worker.v ===== *)
(** * Worker: what the scan and journal workers do to the outside world

    The workers of [src/src/indexsvc/src/VolumeScanner.cpp] and [UsnJournalReader.cpp] run on a
    thread of their own beside the connection's control loop.  They talk to the NTFS driver
    ([DeviceIoControl]), poll the stop flag of their [ActiveWorker], and write frames through
    [WriteFrameWithDeadline] of [WriteDeadline.h].  The driver, the pipe and the other threads are
    not part of the repository: they are the [world] of this file.  Its answers may differ from one
    moment to the next (a moment is the number of interactions so far), so a volume that changes
    during a scan, a pipe that fails at any frame and a stop at any poll are all covered.  What
    the code relies on is [world_ok]: the documented layouts and buffer sizes of the driver, and a stop
    flag that is never lowered.

    A worker is a program of the monad [M]: it returns a value and the [trace] of its interactions,
    faults (an access outside a buffer), or exhausts the fuel of its outer loop.  [wp] is its weakest
    liberal precondition, for every fuel, which excludes faults; [wp_total] makes it total for a run with enough fuel.

    [ReadFileRecord] is the reading of one MFT record, which both workers do:
    [FSCTL_GET_NTFS_FILE_RECORD], the check of the segment number, the copy, the fixup and the
    attribute walk. *)

From S2P Require Import Prelude Wire Records MftParser UsnParser Dispatch.

(** ** The outside world *)

(** Offsets in [NTFS_FILE_RECORD_OUTPUT_BUFFER], beside those of the USN records. *)
Record DeviceLayout := mkDeviceLayout {
  usn_layout : UsnLayout;
  off_OutputReference : Z;   (* FileReferenceNumber *)
  off_OutputLength : Z;      (* FileRecordLength *)
  off_OutputRecord : Z;      (* FileRecordBuffer *)
  output_struct_size : Z     (* sizeof *)
}.

(** A [DeviceIoControl] that fills a buffer: [GetLastError()], or the bytes returned. *)
Inductive DeviceReply :=
| DeviceError (error : Z)
| DeviceBuffer (bytes : list Z).

(** [USN_JOURNAL_DATA_V0]. *)
Record JournalData := mkJournalData { UsnJournalID : Z; NextUsn : Z }.

(** A query of the journal, when it fails: [GetLastError()]. *)
Inductive JournalReply :=
| JournalError (error : Z)
| JournalIs (data : JournalData).

Record world := mkWorld {
  device_layout : DeviceLayout;
  EnsureBackupPrivilegeEnabled : bool;
  volumeOpened : bool;
  NtfsVolumeData : option (Z * Z);              (* BytesPerFileRecordSegment, BytesPerSector *)
  QueryUsnJournal : nat -> JournalReply;
  CreateUsnJournal : nat -> bool;
  EnumUsnData : nat -> Z -> DeviceReply;        (* from a file reference *)
  ReadUsnJournal : nat -> Z -> DeviceReply;     (* from a USN *)
  NtfsFileRecord : nat -> Z -> option (list Z); (* the output buffer after a call that succeeds *)
  shouldStop : nat -> bool;                     (* the stop flag *)
  otherWriterFailed : nat -> bool;              (* [transportFailed], set by another thread *)
  WriteFrameOverlapped : nat -> bool
}.

(** ** Interactions *)

Inductive event :=
| Polled (stop : bool)
| Enumerated (start : Z) (reply : DeviceReply)
| JournalRead (start : Z) (reply : DeviceReply)
| JournalQueried (reply : JournalReply)
| JournalCreated (created : bool)
| Fetched (frn : Z) (reply : option (list Z))
| Slept
| Wrote (m : service_message)
| NotWritten (m : service_message).

(** The interactions so far, and the worker's view of [transportFailed]. *)
Record io := mkIo { trace : list event; transportFailed : bool }.

Definition now (s : io) : nat := length (trace s).
Definition observe (e : event) (s : io) : io := mkIo (trace s ++ [e]) (transportFailed s).

Inductive exec (A : Type) :=
| Ran (a : A) (s : io)
| Faulted
| Exhausted.
Arguments Ran {A} a s.
Arguments Faulted {A}.
Arguments Exhausted {A}.

Definition M (A : Type) : Type := io -> exec A.

Definition pure {A} (a : A) : M A := fun s => Ran a s.

Definition andThen {A B} (m : M A) (k : A -> M B) : M B := fun s =>
  match m s with
  | Ran a s => k a s
  | Faulted => Faulted
  | Exhausted => Exhausted
  end.

(** Reading a buffer: [Reject] has the value [none]. *)
Definition reading {A} (r : result A) : M (option A) := fun s =>
  match r with
  | Ok a => Ran (Some a) s
  | Reject => Ran None s
  | Fault => Faulted
  end.

Notation "x <-- m ; k" := (andThen m (fun x => k)) (at level 100, m at next level, right associativity) : ff_scope.
Notation "' p <-- m ; k" := (andThen m (fun x => match x with p => k end))
  (at level 100, p pattern, m at next level, right associativity) : ff_scope.

(** [shouldStop.load()]. *)
Definition poll (w : world) : M bool := fun s => let b := shouldStop w (now s) in Ran b (observe (Polled b) s).

Definition sleep : M unit := fun s => Ran tt (observe Slept s).

Definition ask_enum (w : world) (start : Z) : M DeviceReply := fun s =>
  let reply := EnumUsnData w (now s) start in Ran reply (observe (Enumerated start reply) s).

Definition ask_journal (w : world) (start : Z) : M DeviceReply := fun s =>
  let reply := ReadUsnJournal w (now s) start in Ran reply (observe (JournalRead start reply) s).

Definition ask_query (w : world) : M JournalReply := fun s =>
  let reply := QueryUsnJournal w (now s) in Ran reply (observe (JournalQueried reply) s).

Definition ask_create (w : world) : M bool := fun s =>
  let created := CreateUsnJournal w (now s) in Ran created (observe (JournalCreated created) s).

Definition ask_record (w : world) (frn : Z) : M (option (list Z)) := fun s =>
  let reply := NtfsFileRecord w (now s) frn in Ran reply (observe (Fetched frn reply) s).

(** [WriteFrameWithDeadline]: no frame once the transport has failed, and a failed write fails it. *)
Definition WriteFrameWithDeadline (w : world) (m : service_message) : M bool := fun s =>
  if transportFailed s || otherWriterFailed w (now s) then Ran false (mkIo (trace s ++ [NotWritten m]) true)
  else if WriteFrameOverlapped w (now s) then Ran true (observe (Wrote m) s)
  else Ran false (mkIo (trace s ++ [NotWritten m]) true).

(** ** One MFT record *)

Definition kMftSegmentNumberMask : Z := 0x0000FFFFFFFFFFFF.

Section record.
Context (layout : DeviceLayout) (recordSize bytesPerSector : Z).

Definition ReadFileRecord (frn : Z) (reply : option (list Z)) : result ParsedMftRecord :=
  let* output := of_option reply in
  let* reference := ReadU64 output (off_OutputReference layout) in
  guard (Z.land reference kMftSegmentNumberMask =? Z.land frn kMftSegmentNumberMask)
  (let* returnedRecordLength := ReadU32 output (off_OutputLength layout) in
   guard (negb ((returnedRecordLength =? 0) || (recordSize <? returnedRecordLength)))
   (let* bytes := load output (off_OutputRecord layout) (Z.to_nat returnedRecordLength) in
    let* recordScratch := store (replicate (Z.to_nat recordSize) 0) 0 bytes in
    let* '(fixupResult, scratch) := ApplyFixupAndValidate (take (Z.to_nat returnedRecordLength) recordScratch) bytesPerSector in
    match fixupResult with
    | FixupOk => ParseMftAttributes scratch
    | _ => Reject
    end)).
End record.

(** ** What the code relies on *)

Definition record_size (w : world) : Z := match NtfsVolumeData w with Some (size, _) => size | None => 0 end.

Record device_layout_ok (l : DeviceLayout) : Prop := {
  dl_usn : layout_ok (usn_layout l);
  dl_length : inside (off_RecordLength (usn_layout l)) 4 (struct_size (layout_v2 (usn_layout l)));
  dl_names : 60 <= off_FileName (layout_v2 (usn_layout l)) /\ 60 <= off_FileName (layout_v3 (usn_layout l));
  dl_reference : inside (off_OutputReference l) 8 (off_OutputRecord l);
  dl_output_length : inside (off_OutputLength l) 4 (off_OutputRecord l);
  dl_record : off_OutputRecord l < output_struct_size l
}.

Record world_ok (w : world) : Prop := {
  wo_layout : device_layout_ok (device_layout w);
  wo_volume : forall size sector, NtfsVolumeData w = Some (size, sector) -> fits 4 size /\ fits 4 sector;
  wo_query : forall t data, QueryUsnJournal w t = JournalIs data -> fits 8 (UsnJournalID data);
  wo_enum : forall t start bytes, EnumUsnData w t start = DeviceBuffer bytes -> Forall is_byte bytes /\ zlen bytes <= 65536;
  wo_journal : forall t start bytes, ReadUsnJournal w t start = DeviceBuffer bytes -> Forall is_byte bytes /\ zlen bytes <= 65536;
  wo_record : forall t frn output, NtfsFileRecord w t frn = Some output ->
    Forall is_byte output /\ zlen output = output_struct_size (device_layout w) - 1 + record_size w;
  wo_stop : forall t t', (t <= t')%nat -> shouldStop w t = true -> shouldStop w t' = true
}.

(** The documented layout of the Windows SDK. *)
Definition windows_layout : DeviceLayout := mkDeviceLayout ntfs_layout 0 8 12 16.

Lemma windows_layout_ok : device_layout_ok windows_layout.
Proof. constructor; [apply ntfs_layout_ok|..]; unfold inside; cbn; lia. Qed.

(** ** The fields of a parsed record fit their widths *)

Lemma read_word_inv buf off n v : Forall is_byte buf -> (let* bs := load buf off n in Ok (le_value bs)) = Ok v -> fits n v.
Proof.
  intros Hb Hr. apply bind_Ok_inv in Hr as (bs & Hl & [= <-]). apply load_Ok_inv in Hl as (? & ? & ->).
  by apply read_word_fits.
Qed.

Record parsed_ok (p : ParsedMftRecord) : Prop := {
  po_parent : fits 8 (MftParser.parentFileReferenceNumber p);
  po_created : fits 8 (creationTime p);
  po_modified : fits 8 (lastModifiedTime p);
  po_accessed : fits 8 (lastAccessTime p);
  po_size : fits 8 (sizeBytes p);
  po_allocated : fits 8 (allocatedSizeBytes p);
  po_attributes : fits 4 (MftParser.fileAttributes p);
  po_name : Forall is_unit (MftParser.fileName p) /\ 1 <= zlen (MftParser.fileName p) <= 255
}.

Definition standard_fits (si : StandardInfo) : Prop :=
  fits 8 (si_creationTime si) /\ fits 8 (si_lastModifiedTime si) /\ fits 8 (si_lastAccessTime si) /\ fits 4 (si_attributes si).

Definition name_fits (ni : NameInfo) : Prop :=
  fits 8 (ni_parentRef ni) /\ fits 8 (ni_realSize ni) /\ fits 8 (ni_allocatedSize ni) /\
  Forall is_unit (ni_name ni) /\ 1 <= zlen (ni_name ni) <= 255.

Definition walk_fits (st : WalkState) : Prop :=
  from_option standard_fits True (ws_standard st) /\ from_option name_fits True (ws_best st).

Section fields.
Context (record : list Z) (bytes : Forall is_byte record).

Lemma ReadStandardInfo_fits value si : ReadStandardInfo record value = Ok si -> standard_fits si.
Proof.
  unfold ReadStandardInfo, ReadU64, ReadU32. intros Hr.
  repeat (apply bind_Ok_inv in Hr as (? & ?%read_word_inv & Hr); [|done]). injection Hr as <-. done.
Qed.

Lemma ReadNameInfo_fits value n ns ni : 0 < n < 256 -> ReadNameInfo record value n ns = Ok ni -> name_fits ni.
Proof.
  unfold ReadNameInfo, ReadU64. intros Hn Hr.
  do 3 (apply bind_Ok_inv in Hr as (? & ?%read_word_inv & Hr); [|done]).
  apply bind_Ok_inv in Hr as (bs & Hl & Hr). injection Hr as <-. apply load_Ok_inv in Hl as (? & ? & ->).
  repeat (split; [done|]). cbn [ni_name]. split; [by apply decode_units_are_units; [apply Forall_slice|apply length_slice]|].
  unfold zlen. rewrite length_decode_units. lia.
Qed.

Lemma ReadResident_fits o len type st st' : walk_fits st -> ReadResident record o len type st = Ok st' -> walk_fits st'.
Proof.
  intros [Hs Hb] Hr. unfold ReadResident in Hr. inv_result. destruct (_ =? _) in Hr.
  { inv_result. subst st'. split; [by eapply ReadStandardInfo_fits|done]. }
  destruct (_ && _) in Hr; [|inv_result; by subst]. inv_result. destruct (_ && _) eqn:En in Hr; [|inv_result; by subst].
  destruct (prefers _ _); inv_result; subst st'; [|done]. split; [done|]. cbn. eapply ReadNameInfo_fits; [|done].
  match goal with H : ReadU8 record _ = Ok ?n, H' : context [0 <? ?n] |- _ => apply read_word_inv in H; [|done] end.
  unfold fits in *. bool_prop. change (256 ^ Z.of_nat 1) with 256 in *. lia.
Qed.

Lemma WalkAttributes_fits fuel extent o st st' : walk_fits st -> WalkAttributes fuel record extent o st = Ok st' -> walk_fits st'.
Proof.
  revert o st. induction fuel as [|fuel IH]; intros o st Hst Hr; cbn [WalkAttributes] in Hr;
    (destruct (_ <=? _) in Hr; [|inv_result; by subst]); [done|].
  apply bind_Ok_inv in Hr as (next & Hnext & Hr). destruct next as [[len st1]|]; [|inv_result; by subst].
  eapply IH; [|exact Hr]. unfold ReadAttribute in Hnext. inv_result. destruct (_ =? _) in Hnext; [done|]. inv_result.
  destruct (_ && _) in Hnext; inv_result; simplify_eq; [|done]. by eapply ReadResident_fits.
Qed.
End fields.

Lemma ParseMftAttributes_fits record p : Forall is_byte record -> ParseMftAttributes record = Ok p -> parsed_ok p.
Proof.
  intros Hb Hr. unfold ParseMftAttributes in Hr. inv_result.
  match goal with H : WalkAttributes _ _ _ _ _ = Ok ?st |- _ => apply WalkAttributes_fits in H; [|done|done]; destruct st as [[si|] [ni|]] end;
    cbn [ws_standard ws_best] in Hr; inv_result; try done.
  match goal with H : walk_fits _ |- _ => destruct H as [(? & ? & ? & Ha) (? & ? & ? & ? & ?)] end.
  subst p. constructor; cbn; try done. destruct (_ =? _); [by rewrite Z.lor_0_r|].
  unfold fits, kFileAttributeDirectory in *. change (256 ^ Z.of_nat 4) with (2 ^ 32) in *. split; [apply Z.lor_nonneg; lia|].
  destruct (decide (si_attributes si = 0)) as [->|]; [by vm_compute|].
  apply Z.log2_lt_pow2; [|rewrite Z.log2_lor by lia; apply Z.max_lub_lt; [apply Z.log2_lt_pow2; lia|by vm_compute]].
  assert (0 <= Z.lor (si_attributes si) 16) by (apply Z.lor_nonneg; lia).
  assert (Z.lor (si_attributes si) 16 <> 0) by (rewrite Z.lor_eq_0_iff; lia). lia.
Qed.

Lemma ApplyFixup_keeps record bps : Forall is_byte record -> zlen record <= SIZE_MAX -> 0 <= bps < 4294967296 ->
  safe (ApplyFixupAndValidate record bps) (fun '(_, record') => zlen record' = zlen record /\ Forall is_byte record').
Proof.
  intros Hb Hm Hbps. destruct (decide_fixup_header record bps) as [Hh|Hh].
  - rewrite ApplyFixup_header_ok by done. destruct (fixup_header_bounds record bps Hb Hbps Hh) as (?&?&?&?).
    destruct (_ && _); [done|]. destruct (tails_are _ _ _ _); [|done].
    destruct (restore_sectors_safe bps (word record 4 2) (fixup_sectors record bps)
                (Z.to_nat (fixup_sectors record bps)) 0 record) as (rec' & HR & Hl); try lia; [unfold fixup_header_ok in Hh; lia|].
    rewrite HR. cbn. split; [done|]. by eapply restore_sectors_bytes.
  - destruct (ApplyFixup_header_bad record bps Hb Hm Hbps Hh) as (res & Hr & ->). done.
Qed.

(** The copy into the scratch buffer. *)
Lemma scratch_copy recordSize bytes : zlen bytes <= recordSize ->
  exists copy, store (replicate (Z.to_nat recordSize) 0) 0 bytes = Ok copy /\ take (Z.to_nat (zlen bytes)) copy = bytes.
Proof.
  intros Hle. pose proof (zlen_nonneg bytes). assert (zlen (replicate (Z.to_nat recordSize) 0) = recordSize) as Hz by (unfold zlen; rewrite length_replicate; lia).
  eexists. split; [apply store_Ok; lia|].
  transitivity (slice (list_inserts (Z.to_nat 0) bytes (replicate (Z.to_nat recordSize) 0)) 0 (Z.to_nat (zlen bytes))); [done|].
  apply slice_inserts_same; lia.
Qed.

(** Reading a record stays inside the driver's buffer, the scratch buffer and the record, whatever
    length and reference the driver returns. *)
Lemma ReadFileRecord_safe layout recordSize bytesPerSector frn output :
  device_layout_ok layout -> fits 4 recordSize -> fits 4 bytesPerSector -> Forall is_byte output ->
  zlen output = output_struct_size layout - 1 + recordSize ->
  safe (ReadFileRecord layout recordSize bytesPerSector frn (Some output)) parsed_ok.
Proof.
  intros [_ _ _ [??] [??] ?] [? Hrs] [? Hbps] Hb Hlen. change (256 ^ Z.of_nat 4) with 4294967296 in *.
  unfold ReadFileRecord. cbn [of_option bind]. do 5 safe_step. set (bytes := slice _ _ _).
  match goal with H : ReadU32 _ _ = Ok ?v |- _ => rename v into n end.
  assert (zlen bytes = n) as Hn by (unfold zlen, bytes; rewrite length_slice by lia; lia).
  assert (Forall is_byte bytes) as Hbytes by by apply Forall_slice.
  destruct (scratch_copy recordSize bytes) as (copy & -> & Hcopy); [lia|]. cbn [bind]. rewrite <-Hn, Hcopy.
  eapply safe_bind; [apply ApplyFixup_keeps; (done || unfold SIZE_MAX; lia)|]. intros [res scratch] [Hl Hs].
  destruct res; [|done..]. pose proof (ParseMftAttributes_safe scratch Hs) as Hp.
  destruct (ParseMftAttributes scratch) as [p| |] eqn:Ep; [by eapply ParseMftAttributes_fits|done|].
  apply Hp. unfold SIZE_MAX. lia.
Qed.

(** ** Reasoning about a worker *)

(** Every run that returns satisfies [Q], and no run faults. *)
Definition wp {A} (m : M A) (Q : A -> io -> Prop) (s : io) : Prop :=
  match m s with Ran a s => Q a s | Faulted => False | Exhausted => True end.

Section rules.
Context {A B : Type}.
Implicit Types (m : M A) (k : A -> M B) (s : io).

Lemma wp_pure (a : A) Q s : Q a s -> wp (pure a) Q s.
Proof. done. Qed.

Lemma wp_andThen m k Q s : wp m (fun a => wp (k a) Q) s -> wp (andThen m k) Q s.
Proof. unfold wp, andThen. by destruct (m s). Qed.

Lemma run_mono m (P Q : A -> io -> Prop) s : wp m P s -> (forall a s', P a s' -> Q a s') -> wp m Q s.
Proof. unfold wp. destruct (m s); auto. Qed.

Lemma wp_reading (r : result A) P Q s : safe r P -> (forall a, r = Ok a -> P a -> Q (Some a) s) -> (r = Reject -> Q None s) -> wp (reading r) Q s.
Proof. unfold wp, reading. destruct r; cbn; auto. Qed.
End rules.

Lemma run_bind {A B} (m : M A) (k : A -> M B) (P : A -> io -> Prop) Q s :
  wp m P s -> (forall a s', P a s' -> wp (k a) Q s') -> wp (andThen m k) Q s.
Proof. intros Hm Hk. apply wp_andThen. eapply run_mono; eauto. Qed.

Lemma wp_poll w Q s : (forall b, b = shouldStop w (now s) -> Q b (observe (Polled b) s)) -> wp (poll w) Q s.
Proof. intros HQ. by apply HQ. Qed.

Lemma wp_ask_query w Q s : (forall r, QueryUsnJournal w (now s) = r -> Q r (observe (JournalQueried r) s)) -> wp (ask_query w) Q s.
Proof. intros HQ. by apply HQ. Qed.

Lemma wp_ask_create w Q s : (forall b, CreateUsnJournal w (now s) = b -> Q b (observe (JournalCreated b) s)) -> wp (ask_create w) Q s.
Proof. intros HQ. by apply HQ. Qed.

(** A write: the frame is on the wire, or it is not and the transport has failed. *)
Lemma wp_write w m Q s :
  (transportFailed s = false -> Q true (observe (Wrote m) s)) ->
  Q false (mkIo (trace s ++ [NotWritten m]) true) -> wp (WriteFrameWithDeadline w m) Q s.
Proof.
  intros Ht Hf. unfold wp, WriteFrameWithDeadline. destruct (transportFailed s); cbn [orb]; [done|].
  destruct (otherWriterFailed _ _); [done|]. destruct (WriteFrameOverlapped _ _); auto.
Qed.

(** ** Frames the engine accepts *)

(** The message satisfies the engine's parser and its frame is within the limit of the protocol. *)
Definition acceptable (m : service_message) : Prop :=
  message_ok m /\ IsFrameLengthValid (sizeof FrameHeader + zlen (frame_of m).2) = true.

(** The frames of a scan worker and of a journal worker of a volume. *)
Definition scan_frame (id : Z) (m : service_message) : Prop :=
  match m with ScanBatch id' _ _ | ScanBatchV2 id' _ _ | ScanCompleted id' | ScanHasFailed id' => id' = id | _ => False end.

Definition journal_frame (id : Z) (m : service_message) : Prop :=
  match m with
  | JournalOpened id' _ _ | JournalInvalid id' | JournalBatch id' _ _ | JournalBatchV2 id' _ _ | JournalBatchV3 id' _ _ => id' = id
  | _ => False
  end.

#[export] Instance scan_frame_dec id m : Decision (scan_frame id m).
Proof. destruct m; cbn; apply _. Defined.
#[export] Instance journal_frame_dec id m : Decision (journal_frame id m).
Proof. destruct m; cbn; apply _. Defined.

(** A record takes its fixed part and at most 255 units of name. *)
Lemma zlen_SerializeBatch {F} `{BatchFixed F} (rs : list (WireRecord F)) :
  zlen (SerializeBatch (to_pair <$> rs)) <= zlen rs * (sizeof F + 510).
Proof.
  pose proof batch_size_small. unfold SerializeBatch. induction rs as [|r rs IH]; [done|]. rewrite fmap_cons, filter_cons, zlen_cons.
  destruct (decide _) as [Hs|_]; [|lia]. rewrite bind_cons, zlen_app. unfold SerializeRecord at 1.
  rewrite zlen_app, zlen_struct_bytes, zlen_encode_units.
  unfold IsSerializable, IsFileNameLengthValid, kMaxFileNameLengthChars in Hs. bool_prop. lia.
Qed.

Lemma acceptable_small m n : message_ok m -> zlen (frame_of m).2 <= n -> n <= kMaxFrameSize - 8 -> acceptable m.
Proof.
  intros Hm Hl Hn. split; [done|]. apply IsFrameLengthValid_iff. rewrite sizeof_FrameHeader.
  pose proof (zlen_nonneg (frame_of m).2). lia.
Qed.

Lemma acceptable_dispatched m : acceptable m ->
  DispatchReceivedFrame true (raw_of_MessageType (frame_of m).1) (frame_of m).2 = Ok m.
Proof.
  intros [Hok Hl%IsFrameLengthValid_iff]. apply DispatchReceivedFrame_complete; [done|].
  rewrite sizeof_FrameHeader in Hl. unfold kMaxFrameSize, SIZE_MAX in *. lia.
Qed.

Lemma acceptable_volume m : In m [ScanCompleted; ScanHasFailed; ScanAttemptHasStarted; JournalInvalid] -> forall id, fits 4 id -> acceptable (m id).
Proof.
  cbn. intros Hm id Hid. repeat destruct Hm as [<- | Hm]; [by eapply (acceptable_small _ 4)..|done].
Qed.

(** ** Programs without an outer loop *)

(** [m] does not run out of fuel, and time does not go back. *)
Definition bounded {A} (m : M A) : Prop := forall s, match m s with Ran _ s' => (now s <= now s')%nat | Faulted => True | Exhausted => False end.

Lemma bounded_pure {A} (a : A) : bounded (pure a).
Proof. intros s. cbn. lia. Qed.

Lemma bounded_andThen {A B} (m : M A) (k : A -> M B) : bounded m -> (forall a, bounded (k a)) -> bounded (andThen m k).
Proof.
  intros Hm Hk s. specialize (Hm s). unfold andThen. destruct (m s) as [a s'| |]; [|done..].
  specialize (Hk a s'). destruct (k a s'); [lia|done..].
Qed.

Lemma bounded_reading {A} (r : result A) : bounded (reading r).
Proof. intros s. destruct r; cbn; [lia..|done]. Qed.

Lemma now_grows t e f : (length t <= now (mkIo (t ++ [e]) f))%nat.
Proof. unfold now. cbn. rewrite length_app. lia. Qed.

Lemma bounded_poll w : bounded (poll w).
Proof. intros s. apply now_grows. Qed.
Lemma bounded_sleep : bounded sleep.
Proof. intros s. apply now_grows. Qed.
Lemma bounded_ask_record w frn : bounded (ask_record w frn).
Proof. intros s. apply now_grows. Qed.
Lemma bounded_ask_query w : bounded (ask_query w).
Proof. intros s. apply now_grows. Qed.
Lemma bounded_ask_create w : bounded (ask_create w).
Proof. intros s. apply now_grows. Qed.
Lemma bounded_write w m : bounded (WriteFrameWithDeadline w m).
Proof.
  intros s. unfold WriteFrameWithDeadline. destruct (_ || _); [apply now_grows|]. destruct (WriteFrameOverlapped _ _); apply now_grows.
Qed.

Create HintDb bounded.
#[export] Hint Resolve bounded_pure bounded_reading bounded_poll bounded_sleep bounded_ask_record
  bounded_ask_query bounded_ask_create bounded_write : bounded.

(** Decompose a program without a loop. *)
Ltac solve_bounded := repeat first
  [ progress intros | solve [auto with bounded] | apply bounded_andThen | case_match ].

(** [m] only adds events to the trace. *)
Definition grows {A} (m : M A) : Prop := forall s, match m s with Ran _ s' => trace s `prefix_of` trace s' | _ => True end.

Lemma grows_pure {A} (a : A) : grows (pure a).
Proof. intros s. cbn. reflexivity. Qed.

Lemma grows_andThen {A B} (m : M A) (k : A -> M B) : grows m -> (forall a, grows (k a)) -> grows (andThen m k).
Proof.
  intros Hm Hk s. specialize (Hm s). unfold andThen. destruct (m s) as [a s'| |]; [|done..].
  specialize (Hk a s'). destruct (k a s') as [b s''| |]; [by transitivity (trace s')|done..].
Qed.

Lemma grows_reading {A} (r : result A) : grows (reading r).
Proof. intros s. destruct r; cbn; [reflexivity..|done]. Qed.

Lemma grows_observed {A} (f : io -> A) (e : io -> event) : grows (fun s => Ran (f s) (observe (e s) s)).
Proof. intros s. cbn. apply prefix_app_r. reflexivity. Qed.

Lemma grows_write w m : grows (WriteFrameWithDeadline w m).
Proof.
  intros s. unfold WriteFrameWithDeadline. destruct (_ || _); [|destruct (WriteFrameOverlapped _ _)]; cbn; apply prefix_app_r; reflexivity.
Qed.

Lemma grows_poll w : grows (poll w).
Proof. exact (grows_observed (fun s => shouldStop w (now s)) (fun s => Polled (shouldStop w (now s)))). Qed.
Lemma grows_sleep : grows sleep.
Proof. exact (grows_observed (fun _ => tt) (fun _ => Slept)). Qed.
Lemma grows_ask_record w frn : grows (ask_record w frn).
Proof. exact (grows_observed (fun s => NtfsFileRecord w (now s) frn) (fun s => Fetched frn (NtfsFileRecord w (now s) frn))). Qed.
Lemma grows_ask_journal w start : grows (ask_journal w start).
Proof. exact (grows_observed (fun s => ReadUsnJournal w (now s) start) (fun s => JournalRead start (ReadUsnJournal w (now s) start))). Qed.

Create HintDb grows.
#[export] Hint Resolve grows_pure grows_reading grows_write grows_poll grows_sleep grows_ask_record grows_ask_journal : grows.

Ltac solve_grows := repeat first
  [ progress intros | solve [auto with grows] | apply grows_andThen | case_match ].

(** What happened before a part of the program is still in its trace afterwards. *)
Lemma wp_grows {A} (m : M A) Q s : grows m -> wp m Q s -> wp m (fun a s' => Q a s' /\ trace s `prefix_of` trace s') s.
Proof. intros Hm. specialize (Hm s). unfold wp. destruct (m s); auto. Qed.

(** A run that has an outcome, from what its runs satisfy. *)
Lemma total_bind {A B} (m : M A) (k : A -> M B) P s : wp m P s -> m s <> Exhausted ->
  (forall a s', m s = Ran a s' -> P a s' -> k a s' <> Exhausted) -> andThen m k s <> Exhausted.
Proof. unfold wp, andThen. intros HP Hm Hk. destruct (m s) as [a s'| |]; [by apply Hk|done|done]. Qed.

Lemma wp_cases {A} (m : M A) P s : wp m P s -> m s <> Faulted /\ forall a s', m s = Ran a s' -> P a s'.
Proof. unfold wp. destruct (m s); intros Hm; split; (done || by intros ?? [= <- <-]). Qed.

Lemma wp_total {A} (m : M A) P s : wp m P s -> m s <> Exhausted -> exists a s', m s = Ran a s' /\ P a s'.
Proof. unfold wp. intros HP Hm. destruct (m s) as [a s'| |]; [eauto|done..]. Qed.

(** ** Frames of a trace, and reads in range *)

(** The frames on the wire. *)
Definition written (e : event) : option service_message := match e with Wrote m => Some m | _ => None end.
Definition wrote (t : list event) : list service_message := omap written t.

Lemma wrote_snoc t e : wrote (t ++ [e]) = wrote t ++ option_list (written e).
Proof. unfold wrote. rewrite omap_app. cbn. by destruct (written e). Qed.

Lemma last_wrote t m : last (wrote (t ++ [Wrote m])) = Some m.
Proof. rewrite wrote_snoc. apply last_snoc. Qed.

Lemma now_observe e s : now (observe e s) = S (now s).
Proof. unfold now, observe. cbn [trace]. rewrite length_app. cbn. lia. Qed.

Lemma ReadU32_field buffer off : 0 <= off -> off + 4 <= zlen buffer -> ReadU32 buffer off = Ok (field buffer off 4).
Proof. intros. unfold ReadU32. by rewrite load_Ok by lia. Qed.

Lemma ReadU64_field buffer off : 0 <= off -> off + 8 <= zlen buffer -> ReadU64 buffer off = Ok (field buffer off 8).
Proof. intros. unfold ReadU64. by rewrite load_Ok by lia. Qed.

Lemma not_written_last t m : NotWritten m ∈ t ++ [NotWritten m].
Proof. apply elem_of_app. right. by apply list_elem_of_singleton. Qed.

Lemma fits8_range x : fits 8 x -> 0 <= x < 18446744073709551616.
Proof. done. Qed.

(** The reading of any reply of the driver. *)
Lemma read_reply_safe w recordSize bytesPerSector t frn : world_ok w -> NtfsVolumeData w = Some (recordSize, bytesPerSector) ->
  safe (ReadFileRecord (device_layout w) recordSize bytesPerSector frn (NtfsFileRecord w t frn)) parsed_ok.
Proof.
  intros Hw Hg. destruct (NtfsFileRecord w t frn) as [output|] eqn:E; [|done]. destruct (wo_record w Hw t frn output E) as [Hb Hl].
  destruct (wo_volume w Hw _ _ Hg). unfold record_size in Hl. rewrite Hg in Hl.
  apply ReadFileRecord_safe; (done || apply (wo_layout w Hw)).
Qed.

(** ** What a buffer and a reply hold *)

(** The records of a buffer of [size] bytes from offset [o] on: each begins where the one before ends, has room for
    the fixed part ([least]) and a length that is not zero and stays inside; the last ends at [e]. *)
Inductive listing (length_at : Z -> Z) (least size : Z) : Z -> list Z -> Z -> Prop :=
| listing_stop o : listing length_at least size o [] o
| listing_entry o os e : o + least <= size -> 0 < length_at o -> o + length_at o <= size ->
    listing length_at least size (o + length_at o) os e -> listing length_at least size o (o :: os) e.

(** [p] is the MFT record of [frn] in a reply of the driver: the record in the output buffer has the segment
    number of [frn] and a length within the record size, and its bytes, with the sector tails restored, parse to [p]. *)
Definition record_of (layout : DeviceLayout) (recordSize bytesPerSector frn : Z) (reply : option (list Z)) (p : ParsedMftRecord) : Prop :=
  exists output scratch, reply = Some output /\
    let n := field output (off_OutputLength layout) 4 in
    field output (off_OutputReference layout) 8 mod 2 ^ 48 = frn mod 2 ^ 48 /\
    n <> 0 /\ n <= recordSize /\ off_OutputRecord layout + Z.of_nat (Z.to_nat n) <= zlen output /\
    ApplyFixupAndValidate (slice output (off_OutputRecord layout) (Z.to_nat n)) bytesPerSector = Ok (FixupOk, scratch) /\
    ParseMftAttributes scratch = Ok p.

Lemma ReadU32_Ok_field buf off v : ReadU32 buf off = Ok v -> v = field buf off 4.
Proof. unfold ReadU32. intros (bs & (_ & _ & ->)%load_Ok_inv & [= <-])%bind_Ok_inv. done. Qed.

Lemma ReadU64_Ok_field buf off v : ReadU64 buf off = Ok v -> v = field buf off 8.
Proof. unfold ReadU64. intros (bs & (_ & _ & ->)%load_Ok_inv & [= <-])%bind_Ok_inv. done. Qed.

Lemma zlen_slice_Z buf off n : 0 <= off -> off + Z.of_nat (Z.to_nat n) <= zlen buf -> Z.to_nat (zlen (slice buf off (Z.to_nat n))) = Z.to_nat n.
Proof. intros. unfold zlen. rewrite length_slice by lia. lia. Qed.

Lemma segment_eqb a b : (Z.land a kMftSegmentNumberMask =? Z.land b kMftSegmentNumberMask) = true <-> a mod 2 ^ 48 = b mod 2 ^ 48.
Proof. change kMftSegmentNumberMask with (Z.ones 48). by rewrite !Z.land_ones, Z.eqb_eq by lia. Qed.

Lemma ReadFileRecord_iff layout recordSize bytesPerSector frn reply p :
  device_layout_ok layout -> 0 <= recordSize ->
  ReadFileRecord layout recordSize bytesPerSector frn reply = Ok p <-> record_of layout recordSize bytesPerSector frn reply p.
Proof.
  intros [_ _ _ [??] [??] _] Hrs. unfold ReadFileRecord. split.
  - intros Hr. inv_result. destruct reply as [output|]; [|done]. cbn [of_option] in *. simplify_eq.
    repeat match goal with
      | H : ReadU64 _ _ = Ok _ |- _ => apply ReadU64_Ok_field in H as ->
      | H : ReadU32 _ _ = Ok _ |- _ => apply ReadU32_Ok_field in H as ->
      | H : load _ _ _ = Ok _ |- _ => apply load_Ok_inv in H as (? & ? & ->)
      end. rename x into output.
    destruct (scratch_copy recordSize (slice output (off_OutputRecord layout) (Z.to_nat (field output (off_OutputLength layout) 4)))) as (copy & Hs & Hcopy).
    { unfold zlen. rewrite length_slice by lia. bool_prop. lia. }
    match goal with H : store _ _ _ = Ok _ |- _ => rewrite H in Hs; injection Hs as -> end.
    rewrite zlen_slice_Z in Hcopy by lia. rewrite Hcopy in *. destruct x4 as [[] scratch]; [|done..].
    exists output, scratch. split; [done|]. split; [by apply segment_eqb|]. bool_prop. auto.
  - intros (output & scratch & -> & Href & Hn0 & Hn & Hb & Hfix & Hparse). cbn [of_option bind].
    rewrite ReadU64_field by lia. cbn [bind]. rewrite (proj2 (segment_eqb _ _)) by done. cbn [guard]. rewrite ReadU32_field by lia. cbn [bind].
    rewrite (proj2 (Z.eqb_neq _ _)), (proj2 (Z.ltb_ge _ _)) by lia. cbn [orb negb guard]. rewrite load_Ok by lia. cbn [bind].
    destruct (scratch_copy recordSize (slice output (off_OutputRecord layout) (Z.to_nat (field output (off_OutputLength layout) 4)))) as (copy & -> & Hcopy).
    { unfold zlen. rewrite length_slice by lia. lia. }
    rewrite zlen_slice_Z in Hcopy by lia. cbn [bind]. by rewrite Hcopy, Hfix.
Qed.
