(* ===== verification/VolumeScan.v ===== *)
(** * VolumeScan: the scan of a raw volume

    Models [src/src/indexsvc/src/VolumeScanner.cpp] ([RunVolumeScan], [ScanOutput],
    [SendScanTerminal], [DeliverFailedScanTerminal] and the cursors) as programs over the [world] of
    [Worker].  Pacing ([Sleep]) is an event; thread priorities, handles and diagnostics are left out.

    Shown, for every behaviour of the driver, the pipe, the other threads and the stop flag: no run
    reads outside a buffer; every frame carries exactly the records accepted since the frame
    before; as long as no buffer of the driver has a malformed entry, its cursor is one from which a new scan misses nothing, and
    [ScanComplete] is written only when the enumeration reached its end; nothing follows a terminal
    or a failed write; every frame is one the engine accepts; and a scan ends whenever it is stopped
    or the driver's cursor moves forward. *)

From S2P Require Import Prelude Wire Records MftParser UsnParser Dispatch Worker.

Inductive ScanRunResult :=
| Completed
| FailedTerminalDelivered
| Cancelled
| TransportFailed
| FailureAbortedConnection.

#[export] Instance ScanRunResult_dec : EqDecision ScanRunResult.
Proof. solve_decision. Defined.

Definition ScanRunResultRequiresConnectionAbort (outcome : ScanRunResult) : bool :=
  bool_decide (outcome = TransportFailed) || bool_decide (outcome = FailureAbortedConnection).

Inductive ScanTerminalOutcome :=
| SuccessTerminalDelivered
| FailureTerminalDelivered
| FailureNotRepresentable
| TerminalTransportFailed.

Definition kBatchSize : Z := 64.
Definition ERROR_HANDLE_EOF : Z := 38.

Definition DecodeCursor (cursor : list Z) : Z := if zlen cursor =? 8 then le_value cursor else 0.
Definition EncodeCursor (nextFileReference : Z) : list Z := le_bytes 8 nextFileReference.

Definition DowngradeMftRecordV2 (record : MftRecordV2) : MftRecordV1 :=
  let f := fixed record in
  mkRecord
    {| m1_fileReferenceNumber := m2_fileReferenceNumber f; m1_parentFileReferenceNumber := m2_parentFileReferenceNumber f;
       m1_creationTime := m2_creationTime f; m1_lastModifiedTime := m2_lastModifiedTime f; m1_lastAccessTime := m2_lastAccessTime f;
       m1_sizeBytes := m2_sizeBytes f; m1_fileAttributes := m2_fileAttributes f; m1_fileNameLengthChars := m2_fileNameLengthChars f |}
    (Records.fileName record).

(** The record of an enumerated file. *)
Definition scanned_record (frn : Z) (p : ParsedMftRecord) : MftRecordV2 :=
  mkRecord
    {| m2_fileReferenceNumber := frn; m2_parentFileReferenceNumber := MftParser.parentFileReferenceNumber p;
       m2_creationTime := creationTime p; m2_lastModifiedTime := lastModifiedTime p; m2_lastAccessTime := lastAccessTime p;
       m2_sizeBytes := sizeBytes p; m2_allocatedSizeBytes := allocatedSizeBytes p;
       m2_fileAttributes := MftParser.fileAttributes p; m2_fileNameLengthChars := wrap16 (zlen (MftParser.fileName p)) |}
    (MftParser.fileName p).

(** ** Frames *)

Section scan.
Context (w : world) (volumeId : Z) (negotiatedVersion : ProtocolVersion).

(** The frame of [ScanOutput::SendBatch]. *)
Definition batch_message (records : list MftRecordV2) (nextFileReference : Z) : service_message :=
  if ProtocolSupportsAllocatedSize negotiatedVersion
  then ScanBatchV2 volumeId (EncodeCursor nextFileReference) records
  else ScanBatch volumeId (EncodeCursor nextFileReference) (DowngradeMftRecordV2 <$> records).

(** [SendBatch] sets [writeFailed_] and returns whether the frame was sent. *)
Definition SendBatch (records : list MftRecordV2) (nextFileReference : Z) (writeFailed_ : bool) : M (bool * bool) :=
  sent <-- WriteFrameWithDeadline w (batch_message records nextFileReference);
  pure (sent, if sent then writeFailed_ else true).

Definition SendScanTerminal (success : bool) : M ScanTerminalOutcome :=
  if success then
    delivered <-- WriteFrameWithDeadline w (ScanCompleted volumeId);
    pure (if delivered : bool then SuccessTerminalDelivered else TerminalTransportFailed)
  else if ProtocolSupportsScanFailure negotiatedVersion then
    delivered <-- WriteFrameWithDeadline w (ScanHasFailed volumeId);
    pure (if delivered : bool then FailureTerminalDelivered else TerminalTransportFailed)
  else pure FailureNotRepresentable.

Definition DeliverFailedScanTerminal : M ScanRunResult :=
  stop <-- poll w;
  if stop : bool then pure Cancelled else
  terminal <-- SendScanTerminal false;
  pure (match terminal with
        | TerminalTransportFailed => TransportFailed
        | FailureNotRepresentable => FailureAbortedConnection
        | _ => FailedTerminalDelivered
        end).

(** [ScanOutput::Finish]. *)
Definition Finish (writeFailed_ enumerationFailed : bool) : M ScanRunResult :=
  stop <-- poll w;
  if writeFailed_ then pure TransportFailed else
  if stop : bool then pure Cancelled else
  terminal <-- SendScanTerminal (negb enumerationFailed);
  pure (match terminal with
        | TerminalTransportFailed => TransportFailed
        | FailureNotRepresentable => FailureAbortedConnection
        | _ => if enumerationFailed then FailedTerminalDelivered else Completed
        end).

(** ** The loops *)

(** The locals of [RunVolumeScan] that a buffer changes. *)
Record scanning := mkScanning {
  batch : list MftRecordV2;
  bufferHadRecords : bool;
  recordsSinceYield : Z;
  writeFailed : bool;
  output_writeFailed : bool   (* ScanOutput::writeFailed_ *)
}.

Context (recordSize bytesPerSector : Z) (lowPriority : bool).

Definition send_batch (st : scanning) (cursor : Z) : M scanning :=
  '(sent, failed) <-- SendBatch (batch st) cursor (output_writeFailed st);
  pure (mkScanning [] (bufferHadRecords st) (recordsSinceYield st) (negb sent) failed).

(** [if (lowPriority && ++recordsSinceYield >= 128)]. *)
Definition pace (st : scanning) : M scanning :=
  if negb lowPriority then pure st else
  let n := add64 (recordsSinceYield st) 1 in
  if 128 <=? n
  then _ <-- sleep; pure (mkScanning (batch st) (bufferHadRecords st) 0 (writeFailed st) (output_writeFailed st))
  else pure (mkScanning (batch st) (bufferHadRecords st) n (writeFailed st) (output_writeFailed st)).

(** One enumerated file: fetch, check, parse, and send when the batch is full. *)
Definition scan_entry (bufferStart frn : Z) (st : scanning) : M scanning :=
  reply <-- ask_record w frn;
  parsed <-- reading (ReadFileRecord (device_layout w) recordSize bytesPerSector frn reply);
  match parsed with
  | None => pure st
  | Some p =>
      let st := mkScanning (batch st ++ [scanned_record frn p]) (bufferHadRecords st) (recordsSinceYield st) (writeFailed st) (output_writeFailed st) in
      if kBatchSize <=? zlen (batch st) then send_batch st bufferStart else pure st
  end.

(** [while (offset + sizeof(USN_RECORD_V2) <= enumBytesReturned && !shouldStop && !writeFailed)].
    Every entry advances the offset, so the number of bytes is fuel enough. *)
Fixpoint scan_buffer (fuel : nat) (buffer : list Z) (bufferStart offset : Z) (st : scanning) : M scanning :=
  let layout := usn_layout (device_layout w) in
  if negb (offset + struct_size (layout_v2 layout) <=? zlen buffer) then pure st else
  stop <-- poll w;
  if stop || writeFailed st then pure st else
  match fuel with
  | O => fun _ => Faulted
  | S fuel =>
      length <-- reading (ReadU32 buffer (offset + off_RecordLength layout));
      match length with
      | None => pure st
      | Some recordLength =>
          if (recordLength =? 0) || (zlen buffer <? offset + recordLength) then pure st else
          st <-- pace (mkScanning (batch st) true (recordsSinceYield st) (writeFailed st) (output_writeFailed st));
          reference <-- reading (ReadU64 buffer (offset + off_FileReferenceNumber (layout_v2 layout)));
          match reference with
          | None => pure st
          | Some frn =>
              st <-- scan_entry bufferStart frn st;
              scan_buffer fuel buffer bufferStart (offset + recordLength) st
          end
      end
  end.

(** [while (!enumerationEnded && !shouldStop && !writeFailed)]; returns [enumerationFailed]. *)
Fixpoint enumerate (fuel : nat) (nextFileReference : Z) (st : scanning) : M (bool * (Z * scanning)) :=
  stop <-- poll w;
  if stop || writeFailed st then pure (false, (nextFileReference, st)) else
  match fuel with
  | O => fun _ => Exhausted
  | S fuel =>
      reply <-- ask_enum w nextFileReference;
      match reply with
      | DeviceError error => pure (negb (error =? ERROR_HANDLE_EOF), (nextFileReference, st))
      | DeviceBuffer buffer =>
          if zlen buffer <? 8 then pure (true, (nextFileReference, st)) else
          next <-- reading (ReadU64 buffer 0);
          match next with
          | None => pure (true, (nextFileReference, st))
          | Some bufferNextFileReference =>
              st <-- scan_buffer (length buffer) buffer nextFileReference 8
                       (mkScanning (batch st) false (recordsSinceYield st) (writeFailed st) (output_writeFailed st));
              stop <-- poll w;
              let bufferAbandoned := stop || writeFailed st in
              if negb bufferAbandoned && negb (bufferHadRecords st) && (bufferNextFileReference <=? nextFileReference)
              then pure (false, (nextFileReference, st)) else
              let nextFileReference := if bufferAbandoned then nextFileReference else bufferNextFileReference in
              st <-- (if negb (writeFailed st) && bufferHadRecords st then send_batch st nextFileReference else pure st);
              enumerate fuel nextFileReference st
          end
      end
  end.

(** The scan of an open volume of known geometry. *)
Definition scan_volume (fuel : nat) (nextFileReference : Z) : M ScanRunResult :=
  '(enumerationFailed, (nextFileReference, st)) <-- enumerate fuel nextFileReference (mkScanning [] false 0 false false);
  st <-- (if negb (zlen (batch st) =? 0) && negb (writeFailed st) then send_batch st nextFileReference else pure st);
  Finish (output_writeFailed st) enumerationFailed.
End scan.

Definition RunVolumeScan (w : world) (fuel : nat) (volumeId : Z) (resumeCursor : list Z) (lowPriority : bool)
    (negotiatedVersion : ProtocolVersion) : M ScanRunResult :=
  stop <-- poll w;
  if stop : bool then pure Cancelled else
  if negb (EnsureBackupPrivilegeEnabled w) then DeliverFailedScanTerminal w volumeId negotiatedVersion else
  if negb (volumeOpened w) then DeliverFailedScanTerminal w volumeId negotiatedVersion else
  match NtfsVolumeData w with
  | None => DeliverFailedScanTerminal w volumeId negotiatedVersion
  | Some (recordSize, bytesPerSector) =>
      if (recordSize =? 0) || (bytesPerSector =? 0) then DeliverFailedScanTerminal w volumeId negotiatedVersion else
      scan_volume w volumeId negotiatedVersion recordSize bytesPerSector lowPriority fuel (DecodeCursor resumeCursor)
  end.

(** ** What a trace shows *)

(** A record as the peer's protocol carries it, and the records of a frame. *)
Definition on_wire (v : ProtocolVersion) (r : MftRecordV2) : MftRecordV1 + MftRecordV2 :=
  if ProtocolSupportsAllocatedSize v then inr r else inl (DowngradeMftRecordV2 r).

Definition carried (m : service_message) : list (MftRecordV1 + MftRecordV2) :=
  match m with
  | ScanBatch _ _ records => inl <$> records
  | ScanBatchV2 _ _ records => inr <$> records
  | _ => []
  end.

Definition delivered (t : list event) : list (MftRecordV1 + MftRecordV2) := wrote t ≫= carried.

(** The file references of a buffer, up to its end or its first malformed entry. *)
Fixpoint entries_from (layout : UsnLayout) (fuel : nat) (buffer : list Z) (offset : Z) : list Z :=
  match fuel with
  | O => []
  | S fuel =>
      let recordLength := field buffer (offset + off_RecordLength layout) 4 in
      if negb (offset + struct_size (layout_v2 layout) <=? zlen buffer) || (recordLength =? 0) || (zlen buffer <? offset + recordLength)
      then []
      else field buffer (offset + off_FileReferenceNumber (layout_v2 layout)) 8 :: entries_from layout fuel buffer (offset + recordLength)
  end.

Definition entries (layout : UsnLayout) (buffer : list Z) : list Z := entries_from layout (length buffer) buffer 8.

(** The cursor at the head of a buffer. *)
Definition next_of (buffer : list Z) : Z := field buffer 0 8.

(** A buffer of the enumeration and the files of it that were fetched. *)
Record visit := mkVisit { v_start : Z; v_buffer : list Z; v_fetched : list Z }.

Definition add_event (vs : list visit) (e : event) : list visit :=
  match e with
  | Enumerated start (DeviceBuffer buffer) => if 8 <=? zlen buffer then mkVisit start buffer [] :: vs else vs
  | Fetched frn _ => match vs with v :: vs => mkVisit (v_start v) (v_buffer v) (v_fetched v ++ [frn]) :: vs | [] => [] end
  | _ => vs
  end.

(** The visits of a trace, the latest first. *)
Definition visits (t : list event) : list visit := fold_left add_event t [].

(** The last reply of the enumeration, with the cursor it was asked for. *)
Definition enumeration (e : event) : option (Z * DeviceReply) :=
  match e with Enumerated start reply => Some (start, reply) | _ => None end.
Definition last_reply (t : list event) : option (Z * DeviceReply) := last (omap enumeration t).

(** Neither a failed write nor a terminal. *)
Definition ongoing (e : event) : Prop :=
  match e with NotWritten _ | Wrote (ScanCompleted _) | Wrote (ScanHasFailed _) => False | _ => True end.

Section promises.
Context (layout : UsnLayout) (start : Z).

(** Buffers visited one after the other from [start], every entry fetched, up to a cursor. *)
Inductive chain : list visit -> Z -> Prop :=
| chain_start : chain [] start
| chain_next v vs : chain vs (v_start v) -> v_fetched v = entries layout (v_buffer v) -> chain (v :: vs) (next_of (v_buffer v)).

(** Every entry that precedes the cursor has been fetched: a scan that resumes there misses nothing. *)
Definition covers (vs : list visit) (cursor : Z) : Prop :=
  chain vs cursor \/ exists v rest, vs = v :: rest /\ v_start v = cursor /\ chain rest cursor.

(** The enumeration is complete: the driver reported the end of the MFT at the cursor reached, or returned no
    entry and no later cursor. *)
Definition at_end (t : list event) : Prop := exists cursor,
  (last_reply t = Some (cursor, DeviceError ERROR_HANDLE_EOF) /\ chain (visits t) cursor) \/
  exists buffer rest, last_reply t = Some (cursor, DeviceBuffer buffer) /\ visits t = mkVisit cursor buffer [] :: rest /\
    chain rest cursor /\ entries layout buffer = [] /\ next_of buffer <= cursor.
End promises.

Lemma delivered_snoc t e : delivered (t ++ [e]) = delivered t ++ from_option carried [] (written e).
Proof.
  unfold delivered. rewrite wrote_snoc, bind_app. f_equal. destruct (written e); [|done]. cbn. apply app_nil_r.
Qed.

Lemma visits_snoc t e : visits (t ++ [e]) = add_event (visits t) e.
Proof. unfold visits. by rewrite fold_left_app. Qed.

Lemma last_reply_snoc t e : last_reply (t ++ [e]) = match enumeration e with Some r => Some r | None => last_reply t end.
Proof. unfold last_reply. rewrite omap_app. cbn. destruct (enumeration e); [apply last_snoc|by rewrite app_nil_r]. Qed.

Lemma ongoing_snoc t e : Forall ongoing t -> ongoing e -> Forall ongoing (t ++ [e]).
Proof. intros. apply Forall_app. auto. Qed.

(** ** The promise of every frame *)

Section runs.
Context (w : world) (world_fine : world_ok w) (volumeId : Z) (v : ProtocolVersion) (id_fits : fits 4 volumeId).
Context (recordSize bytesPerSector : Z) (geometry : NtfsVolumeData w = Some (recordSize, bytesPerSector)) (lowPriority : bool) (start : Z).
Context (start_fits : fits 8 start).
Let layout := device_layout w.
Let message := batch_message volumeId v.

(** The record of a fetched file that was accepted. *)
Definition accept (e : event) : option MftRecordV2 :=
  match e with
  | Fetched frn reply => match ReadFileRecord layout recordSize bytesPerSector frn reply with Ok p => Some (scanned_record frn p) | _ => None end
  | _ => None
  end.

Definition accepted (t : list event) : list (MftRecordV1 + MftRecordV2) := on_wire v <$> omap accept t.

Lemma accepted_snoc t e : accepted (t ++ [e]) = accepted t ++ option_list (on_wire v <$> accept e).
Proof. unfold accepted. rewrite omap_app, fmap_app. cbn. by destruct (accept e). Qed.

(** What holds when [m] is written after [t]. *)
Definition frame_promise (t : list event) (m : service_message) : Prop :=
  Forall ongoing t /\ acceptable m /\ scan_frame volumeId m /\
  match m with
  | ScanBatch _ cursor _ | ScanBatchV2 _ cursor _ =>
      accepted t = delivered t ++ carried m /\
      exists c, cursor = EncodeCursor c /\ fits 8 c /\ covers (usn_layout layout) start (visits t) c
  | ScanCompleted _ => accepted t = delivered t /\ at_end (usn_layout layout) start t
  | ScanHasFailed _ => accepted t = delivered t /\ ProtocolSupportsScanFailure v = true
  | _ => False
  end.

Definition kept (t : list event) : Prop := forall t1 m t2, t = t1 ++ Wrote m :: t2 -> frame_promise t1 m.

Lemma kept_snoc t e : kept t -> (forall m, e = Wrote m -> frame_promise t m) -> kept (t ++ [e]).
Proof.
  intros Hk He t1 m t2 Ht. destruct t2 as [|e2 t2 _] using rev_ind.
  - apply app_inj_tail in Ht as [-> ->]. by apply He.
  - rewrite app_comm_cons, app_assoc in Ht. apply app_inj_tail in Ht as [-> _]. by eapply Hk.
Qed.

Lemma kept_quiet t e : written e = None -> kept t -> kept (t ++ [e]).
Proof. intros He Hk. apply kept_snoc; [done|]. by intros m ->. Qed.

(** ** The stream of a batch *)

Definition stopped (s : io) : Prop := shouldStop w (now s) = true.

Lemma stopped_later s s' : stopped s -> (now s <= now s')%nat -> stopped s'.
Proof. unfold stopped. intros Hs Hn. by eapply wo_stop. Qed.

(** Everything accepted is on the wire or in the batch, unless a write failed. *)
Record streaming (st : scanning) (s : io) : Prop := {
  sm_kept : kept (trace s);
  sm_same : output_writeFailed st = writeFailed st;
  sm_ongoing : writeFailed st = false -> Forall ongoing (trace s);
  sm_delivered : writeFailed st = false -> accepted (trace s) = delivered (trace s) ++ (on_wire v <$> batch st);
  sm_records : Forall (fun r => record_ok (to_pair r)) (batch st);
  sm_full : zlen (batch st) <= kBatchSize;
  sm_failed : writeFailed st = true -> exists m, NotWritten m ∈ trace s
}.

Lemma streaming_quiet st s e : written e = None -> accept e = None -> ongoing e -> streaming st s -> streaming st (observe e s).
Proof.
  intros Hw Ha Ho [Hk Hs Hon Hd Hr Hf Hnw]. constructor; cbn [trace observe]; auto using kept_quiet, ongoing_snoc.
  - intros Hwf. rewrite accepted_snoc, delivered_snoc, Hw, Ha. cbn. rewrite !app_nil_r. auto.
  - intros [m Hm]%Hnw. exists m. by apply elem_of_app; left.
Qed.

Lemma downgraded_ok r : record_ok (to_pair r) -> record_ok (to_pair (DowngradeMftRecordV2 r)).
Proof.
  intros (Hs & Hu & Hn). split; [|done]. unfold struct_ok in *. cbn in *.
  repeat (apply Forall2_cons in Hs as [? Hs]). clear Hs. by repeat (apply Forall2_cons; split; [done|]).
Qed.

Lemma cursor_fits_EncodeCursor c : cursor_fits (EncodeCursor c).
Proof. split; [apply le_bytes_are_bytes|]. unfold EncodeCursor. rewrite zlen_le_bytes. lia. Qed.

Lemma batch_acceptable records c : Forall (fun r => record_ok (to_pair r)) records -> zlen records <= kBatchSize -> acceptable (message records c).
Proof.
  intros Hr Hn. unfold message, batch_message. pose proof (cursor_fits_EncodeCursor c). assert (zlen (EncodeCursor c) = 8) as Hc by apply zlen_le_bytes.
  unfold kBatchSize in Hn. destruct (ProtocolSupportsAllocatedSize v).
  - apply (acceptable_small _ 50000); [|cbn [frame_of snd]|by vm_compute].
    + do 2 (split; [done|]). split; [done|]. unfold kMaxBatchRecordCount, MftRecordV2 in *. lia.
    + unfold SendScanBatchV2. rewrite !zlen_app, zlen_struct_bytes, Hc. change (sizeof ScanRecordBatchV2Header) with 12.
      pose proof (zlen_SerializeBatch (F := MftRecordFixedV2) records) as Hz. change (sizeof MftRecordFixedV2) with 62 in Hz.
      unfold SerializeMftBatchV2. unfold MftRecordV2 in *. lia.
  - assert (zlen (DowngradeMftRecordV2 <$> records) = zlen records) as Hl by (unfold zlen; by rewrite length_fmap).
    apply (acceptable_small _ 50000); [|cbn [frame_of snd]|by vm_compute].
    + do 2 (split; [done|]). split; [|unfold kMaxBatchRecordCount, MftRecordV1, MftRecordV2 in *; lia].
      apply Forall_fmap. eapply Forall_impl; [exact Hr|]. intros r. apply downgraded_ok.
    + unfold SendScanBatch. rewrite !zlen_app, zlen_struct_bytes, Hc. change (sizeof ScanRecordBatchHeader) with 10.
      pose proof (zlen_SerializeBatch (F := MftRecordFixedV1) (DowngradeMftRecordV2 <$> records)) as Hz. change (sizeof MftRecordFixedV1) with 54 in Hz.
      unfold SerializeMftBatch. unfold MftRecordV1, MftRecordV2 in *. lia.
Qed.

Lemma carried_message records c : carried (message records c) = on_wire v <$> records.
Proof.
  unfold message, batch_message, on_wire. destruct (ProtocolSupportsAllocatedSize v); cbn [carried]; [done|].
  by rewrite <-list_fmap_compose.
Qed.

Lemma message_promise t records c : Forall ongoing t -> Forall (fun r => record_ok (to_pair r)) records -> zlen records <= kBatchSize ->
  accepted t = delivered t ++ (on_wire v <$> records) -> fits 8 c -> covers (usn_layout layout) start (visits t) c ->
  frame_promise t (message records c).
Proof.
  intros Ho Hr Hn Ha Hc Hcov. split; [done|]. split; [by apply batch_acceptable|].
  split; [unfold message, batch_message; by destruct (ProtocolSupportsAllocatedSize v)|]. rewrite <-(carried_message records c) in Ha.
  revert Ha. unfold message, batch_message. destruct (ProtocolSupportsAllocatedSize v); eauto 10.
Qed.

(** What sending the batch leaves: an empty batch, and nothing else changed. *)
Lemma send_batch_wp st c s : streaming st s -> writeFailed st = false -> fits 8 c -> covers (usn_layout layout) start (visits (trace s)) c ->
  wp (send_batch w volumeId v st c) (fun st' s' => streaming st' s' /\ batch st' = [] /\ bufferHadRecords st' = bufferHadRecords st /\
    visits (trace s') = visits (trace s) /\ last_reply (trace s') = last_reply (trace s) /\ (now s <= now s')%nat) s.
Proof.
  intros [Hk Hs Hon Hd Hr Hf Hnw] Hw Hc Hcov. specialize (Hon Hw). specialize (Hd Hw).
  unfold send_batch, SendBatch. apply wp_andThen, wp_andThen, wp_write.
  - intros _. apply wp_pure, wp_pure. cbn [negb].
    assert (frame_promise (trace s) (message (batch st) c)) as Hp by by apply message_promise.
    split; [|unfold now; cbn [trace observe batch bufferHadRecords];
      rewrite visits_snoc, last_reply_snoc, length_app; cbn; repeat split; lia].
    constructor; cbn [trace observe batch writeFailed output_writeFailed]; try done.
    + apply kept_snoc; [done|]. by intros m [= <-].
    + congruence.
    + intros _. apply ongoing_snoc; [done|]. unfold batch_message. by destruct (ProtocolSupportsAllocatedSize v).
    + intros _. rewrite accepted_snoc, delivered_snoc. cbn. rewrite !app_nil_r. fold message. by rewrite carried_message, Hd.
  - apply wp_pure, wp_pure. cbn [negb].
    split; [|unfold now; cbn [trace batch bufferHadRecords];
      rewrite visits_snoc, last_reply_snoc, length_app; cbn; repeat split; lia].
    constructor; cbn [trace batch writeFailed output_writeFailed]; try done; [by apply kept_quiet|].
    intros _. eexists. apply elem_of_app. right. by apply list_elem_of_singleton.
Qed.

(** ** One buffer *)

(** Inside a buffer asked for at [c], with the entries [rest] still to fetch. *)
Record in_buffer (buffer : list Z) (c : Z) (rest : list Z) (st : scanning) (s : io) : Prop := {
  ib_stream : streaming st s;
  ib_room : zlen (batch st) < kBatchSize;
  ib_cursor : fits 8 c;
  ib_reply : last_reply (trace s) = Some (c, DeviceBuffer buffer);
  ib_visit : exists vs fetched, visits (trace s) = mkVisit c buffer fetched :: vs /\ chain (usn_layout layout) start vs c /\
    fetched ++ rest = entries (usn_layout layout) buffer /\ (bufferHadRecords st = false -> fetched = [] /\ batch st = []);
  ib_had : bufferHadRecords st = true -> entries (usn_layout layout) buffer <> []
}.

(** Events that show nothing. *)
Definition quiet (e : event) : Prop := match e with Polled _ | Slept => True | _ => False end.

Lemma in_buffer_quiet buffer c rest st s e : quiet e -> in_buffer buffer c rest st s -> in_buffer buffer c rest st (observe e s).
Proof.
  intros He [Hs Hr Hc Hl Hv Hne]. destruct e; try done; (constructor; [by apply streaming_quiet|done|done|..]);
    cbn [trace observe]; rewrite ?last_reply_snoc, ?visits_snoc; done.
Qed.

(** The counters do not matter. *)
Lemma in_buffer_counters buffer c rest st s n : in_buffer buffer c rest st s ->
  in_buffer buffer c rest (mkScanning (batch st) (bufferHadRecords st) n (writeFailed st) (output_writeFailed st)) s.
Proof. intros [[] ? ? ? ? ?]. by repeat (constructor; try done). Qed.

Lemma covers_in_buffer buffer c rest st s : in_buffer buffer c rest st s -> covers (usn_layout layout) start (visits (trace s)) c.
Proof. intros [_ _ _ _ (vs & fetched & -> & Hch & _) Hne]. right. eauto. Qed.

Lemma pace_wp buffer c rest st s : in_buffer buffer c rest st s ->
  wp (pace lowPriority st) (fun st' s' => in_buffer buffer c rest st' s' /\ bufferHadRecords st' = bufferHadRecords st /\ writeFailed st' = writeFailed st) s.
Proof.
  intros Hb. unfold pace. destruct lowPriority; cbn [negb]; [|by apply wp_pure].
  case_match; [|apply wp_pure; auto using in_buffer_counters].
  apply wp_andThen. cbn. split; [|done]. by apply (in_buffer_quiet _ _ _ _ _ Slept), in_buffer_counters.
Qed.

Lemma scanned_record_ok frn p : fits 8 frn -> parsed_ok p -> record_ok (to_pair (scanned_record frn p)).
Proof.
  intros Hf [? ? ? ? ? ? ? [Hu Hn]]. assert (wrap16 (zlen (MftParser.fileName p)) = zlen (MftParser.fileName p)) as Hw
    by (unfold wrap16; apply Z.mod_small; lia).
  split; [|split; [done|]].
  - unfold struct_ok. cbn. repeat (apply Forall2_cons; split; [done|]). apply Forall2_cons. split; [|done].
    rewrite Hw. unfold fits. change (256 ^ Z.of_nat 2) with 65536. lia.
  - unfold IsSerializable, IsFileNameLengthValid, kMaxFileNameLengthChars. cbn. rewrite Hw.
    rewrite (proj2 (Z.leb_le _ _)), (proj2 (Z.leb_le _ _)), Z.eqb_refl by lia. done.
Qed.

(** A fetched file: the visit records it, and an accepted record joins the batch. *)
Lemma fetched_in_buffer buffer c frn rest st s reply : bufferHadRecords st = true -> accept (Fetched frn reply) = None ->
  in_buffer buffer c (frn :: rest) st s -> in_buffer buffer c rest st (observe (Fetched frn reply) s).
Proof.
  intros Hh Ha [Hs Hr Hc Hl (vs & fetched & Hv & Hch & He & Hb) Hne]. constructor; [by apply streaming_quiet|done|done|..];
    cbn [trace observe]; rewrite ?last_reply_snoc, ?visits_snoc, ?Hv; [done| |done].
  eexists vs, (fetched ++ [frn]). rewrite <-app_assoc. repeat split; (done || congruence).
Qed.

Definition push (r : MftRecordV2) (st : scanning) : scanning :=
  mkScanning (batch st ++ [r]) (bufferHadRecords st) (recordsSinceYield st) (writeFailed st) (output_writeFailed st).

Lemma accepted_in_buffer buffer c frn rest st s reply r : bufferHadRecords st = true -> accept (Fetched frn reply) = Some r ->
  record_ok (to_pair r) -> in_buffer buffer c (frn :: rest) st s ->
  streaming (push r st) (observe (Fetched frn reply) s) /\
  (zlen (batch (push r st)) < kBatchSize -> in_buffer buffer c rest (push r st) (observe (Fetched frn reply) s)) /\
  (forall st' s', streaming st' s' -> batch st' = [] -> bufferHadRecords st' = true ->
    visits (trace s') = visits (trace (observe (Fetched frn reply) s)) -> last_reply (trace s') = last_reply (trace s) ->
    in_buffer buffer c rest st' s').
Proof.
  intros Hh Ha Hok [[Hk Hs Hon Hd Hrs Hf Hnw] Hroom Hc Hl (vs & fetched & Hv & Hch & He & Hb) Hne].
  assert (streaming (push r st) (observe (Fetched frn reply) s)) as Hst.
  { constructor; cbn [trace observe push batch writeFailed output_writeFailed]; auto using kept_quiet.
    - intros Hw. by apply ongoing_snoc; [auto|].
    - intros Hw. rewrite accepted_snoc, delivered_snoc, Ha. cbn. rewrite app_nil_r, fmap_app, app_assoc. f_equal. auto.
    - apply Forall_app. auto.
    - rewrite zlen_app, zlen_cons, zlen_nil. lia.
    - intros [m Hm]%Hnw. exists m. by apply elem_of_app; left. }
  assert (exists vs fetched, visits (trace (observe (Fetched frn reply) s)) = mkVisit c buffer fetched :: vs /\ chain (usn_layout layout) start vs c /\
    fetched ++ rest = entries (usn_layout layout) buffer) as (vs' & f' & Hv' & Hch' & He').
  { cbn [trace observe]. rewrite visits_snoc, Hv. exists vs, (fetched ++ [frn]). by rewrite <-app_assoc. }
  split; [done|]. split.
  - intros Hz. constructor; [done..| | |].
    + cbn [trace observe]. by rewrite last_reply_snoc.
    + exists vs', f'. repeat split; try done; cbn [push bufferHadRecords] in *; congruence.
    + done.
  - intros st' s' Hs' Hb' Hh' Hvis Hlr. constructor; [done|rewrite Hb'; by vm_compute|done|congruence| |by auto].
    rewrite Hvis. exists vs', f'. repeat split; (done || congruence).
Qed.

Lemma scan_entry_wp buffer c frn rest st s : bufferHadRecords st = true -> writeFailed st = false -> fits 8 frn ->
  in_buffer buffer c (frn :: rest) st s ->
  wp (scan_entry w volumeId v recordSize bytesPerSector c frn st) (fun st' s' => in_buffer buffer c rest st' s') s.
Proof.
  intros Hh Hw Hf Hb. unfold scan_entry. apply wp_andThen. cbn. apply wp_andThen.
  eapply wp_reading; [by apply read_reply_safe| |].
  - intros p Hp Hok. assert (accept (Fetched frn (NtfsFileRecord w (now s) frn)) = Some (scanned_record frn p)) as Ha by (unfold accept, layout; by rewrite Hp).
    destruct (accepted_in_buffer buffer c frn rest st s _ _ Hh Ha (scanned_record_ok frn p Hf Hok) Hb) as (Hst & Hin & Hsent).
    fold (push (scanned_record frn p) st). case_match.
    + eapply run_mono; [apply send_batch_wp; [done|done|apply Hb|]|].
      * destruct Hb as [_ _ _ _ (vs & fetched & Hv & Hch & _) _]. cbn [trace observe]. rewrite visits_snoc, Hv. right.
        eexists _, _. split; [done|]. done.
      * intros st' s' (? & ? & Hh' & ? & Hlr & ?). apply Hsent; [done|done|by rewrite Hh'|done|].
        rewrite Hlr. cbn [trace observe]. by rewrite last_reply_snoc.
    + apply wp_pure, Hin. by bool_prop.
  - intros Hrej. apply wp_pure, fetched_in_buffer; [done| |done]. unfold accept, layout. by rewrite Hrej.
Qed.

Lemma usn_struct_bounds : let u := usn_layout layout in
  0 < struct_size (layout_v2 u) /\ inside (off_RecordLength u) 4 (struct_size (layout_v2 u)) /\
  inside (off_FileReferenceNumber (layout_v2 u)) 8 (struct_size (layout_v2 u)).
Proof.
  destruct (wo_layout w world_fine) as [(_ & _ & (Hf & _ & _ & _ & _ & _ & _ & _ & Hs) & _) Hl _ _ _ _].
  unfold inside in *. subst layout. cbn zeta. lia.
Qed.

(** A buffer is left when a write failed, when the worker was stopped, or after its last entry. *)
Lemma scan_buffer_wp buffer c fuel offset st s : Forall is_byte buffer -> 8 <= offset -> zlen buffer - offset <= Z.of_nat fuel ->
  in_buffer buffer c (entries_from (usn_layout layout) fuel buffer offset) st s ->
  wp (scan_buffer w volumeId v recordSize bytesPerSector lowPriority fuel buffer c offset st)
    (fun st' s' => exists rest, in_buffer buffer c rest st' s' /\ (writeFailed st' = true \/ stopped s' \/ rest = [])) s.
Proof.
  intros Hbytes. revert offset st s. destruct usn_struct_bounds as (H0 & [??] & [??]).
  induction fuel as [|fuel IH]; intros offset st s Ho Hfuel Hin; cbn [scan_buffer]; fold layout;
    (destruct (Z.leb_spec (offset + struct_size (layout_v2 (usn_layout layout))) (zlen buffer)) as [Hle|Hgt]; cbn [negb];
     [|apply wp_pure; eexists; split; [exact Hin|do 2 right; cbn [entries_from]; try done;
       rewrite (proj2 (Z.leb_gt _ _)) by lia; done]]);
    [lia|].
  apply wp_andThen, wp_poll. intros b Hb. apply (in_buffer_quiet _ _ _ _ _ (Polled b)) in Hin; [|done].
  destruct b; cbn [orb]; [apply wp_pure; eexists; split; [exact Hin|right; left; eapply stopped_later; [by symmetry|rewrite now_observe; lia]]|].
  destruct (writeFailed st) eqn:Ew; [apply wp_pure; eauto|].
  rewrite ReadU32_field by lia. set (recordLength := field _ _ 4). cbn [entries_from] in Hin. fold recordLength in Hin.
  apply wp_andThen. cbn [reading wp]. rewrite (proj2 (Z.leb_le _ _)) in Hin by lia. cbn [negb orb] in Hin.
  destruct (_ || _) eqn:Em; [apply wp_pure; eauto|]. bool_prop.
  assert (0 <= recordLength) by (subst recordLength; apply (field_fits buffer (offset + off_RecordLength (usn_layout layout)) 4 Hbytes); lia).
  eapply run_bind; [apply pace_wp|].
  - destruct Hin as [[] ? ? ? (vs & fetched & ? & ? & ? & ?) Hne]. constructor; [constructor; cbn; auto; congruence|done..| |].
    + eexists vs, fetched. repeat split; done.
    + intros _ He0. match goal with H : _ ++ _ = entries _ _ |- _ => rewrite He0 in H; by destruct fetched end.
  - cbn [bufferHadRecords writeFailed]. intros st1 s1 (Hin1 & Hh1 & Hw1). rewrite ReadU64_field by lia.
    apply wp_andThen. cbn [reading wp].
    eapply run_bind; [apply scan_entry_wp; [done|congruence|apply field8_fits; done|exact Hin1]|].
    intros st2 s2 Hin2. apply IH; [lia|lia|exact Hin2].
Qed.

(** ** The enumeration *)

(** Between two buffers: nothing is pending, and every buffer up to the cursor was visited, unless
    the worker is about to leave. *)
Record between (c : Z) (st : scanning) (s : io) : Prop := {
  bt_stream : streaming st s;
  bt_cursor : fits 8 c;
  bt_batch : writeFailed st = false -> batch st = [];
  bt_chain : writeFailed st = true \/ stopped s \/ chain (usn_layout layout) start (visits (trace s)) c
}.

(** After the loop. *)
Record enumerated (failed : bool) (st : scanning) (s : io) : Prop := {
  en_stream : streaming st s;
  en_batch : writeFailed st = false -> batch st = [];
  en_end : writeFailed st = true \/ stopped s \/ failed = true \/ at_end (usn_layout layout) start (trace s)
}.

Lemma not_stopped s : false = shouldStop w (now s) -> ~ stopped s.
Proof. unfold stopped. congruence. Qed.

Lemma stopped_observe e s : true = shouldStop w (now s) -> stopped (observe e s).
Proof. intros Hs. eapply stopped_later; [by symmetry|]. rewrite now_observe. lia. Qed.

(** Entering a buffer. *)
Lemma in_buffer_enter buffer c st s : streaming st s -> fits 8 c -> writeFailed st = false -> batch st = [] ->
  chain (usn_layout layout) start (visits (trace s)) c -> 8 <= zlen buffer ->
  in_buffer buffer c (entries_from (usn_layout layout) (length buffer) buffer 8)
    (mkScanning (batch st) false (recordsSinceYield st) false (output_writeFailed st)) (observe (Enumerated c (DeviceBuffer buffer)) s).
Proof.
  intros Hs Hc Hw Hb Hch Hl. apply (streaming_quiet _ _ (Enumerated c (DeviceBuffer buffer))) in Hs; [|done..].
  constructor; [destruct Hs; constructor; cbn; auto; congruence|cbn; rewrite Hb; by vm_compute|done|..]; cbn [trace observe]; rewrite ?last_reply_snoc, ?visits_snoc; [done| |done].
  cbn [add_event]. rewrite (proj2 (Z.leb_le _ _)) by lia. eexists _, []. cbn. auto.
Qed.

(** Leaving it. *)
Lemma between_after buffer c rest st s b : Forall is_byte buffer -> in_buffer buffer c rest st s -> b = shouldStop w (now s) ->
  (writeFailed st = true \/ stopped s \/ rest = []) ->
  let next := if b || writeFailed st then c else next_of buffer in
  negb (b || writeFailed st) && negb (bufferHadRecords st) && (next_of buffer <=? c) = false ->
  wp (if negb (writeFailed st) && bufferHadRecords st then send_batch w volumeId v st next else pure st)
    (between next) (observe (Polled b) s).
Proof.
  intros Hbytes Hin Hb Hleft next Hgo.
  assert (fits 8 next) as Hnext by (subst next; case_match; [apply Hin|by apply field8_fits]).
  assert (writeFailed st = false -> covers (usn_layout layout) start (visits (trace (observe (Polled b) s))) next /\
    (stopped (observe (Polled b) s) \/ chain (usn_layout layout) start (visits (trace (observe (Polled b) s))) next)) as Hcov.
  { intros Hw. cbn [trace observe]. rewrite visits_snoc. subst next. rewrite Hw, orb_false_r. destruct b; cbn [add_event].
    - split; [by eapply covers_in_buffer|]. left. by apply stopped_observe.
    - destruct Hin as [_ _ _ _ (vs & fetched & -> & Hch & He & _) Hne]. apply not_stopped in Hb.
      destruct Hleft as [?|[?| ->]]; [congruence|done|]. rewrite app_nil_r in He.
      assert (chain (usn_layout layout) start (mkVisit c buffer fetched :: vs) (next_of buffer)) as Hn
        by by apply (chain_next _ _ (mkVisit c buffer fetched)).
      split; [by left|by right]. }
  pose proof (in_buffer_quiet _ _ _ _ _ (Polled b) I Hin) as [Hst _ _ _ (vs & fetched & _ & _ & _ & Hhad) Hne].
  destruct (writeFailed st) eqn:Ew; cbn [negb andb].
  { apply wp_pure. constructor; [done|done|congruence|by left]. }
  destruct (Hcov eq_refl) as [Hc Hend]. destruct (bufferHadRecords st) eqn:Eh.
  - eapply run_mono; [by apply send_batch_wp|]. intros st' s' (Hs' & Hb' & _ & Hv' & _ & Hn'). constructor; [done|done|done|].
    right. destruct Hend as [Hs|Hch]; [left; by eapply stopped_later|right; by rewrite Hv'].
  - apply wp_pure. constructor; [done|done| |by right]. intros _. by apply Hhad.
Qed.

Lemma at_end_no_progress buffer c st s : in_buffer buffer c [] st s -> bufferHadRecords st = false -> next_of buffer <= c ->
  at_end (usn_layout layout) start (trace s).
Proof.
  intros [_ _ _ Hl (vs & fetched & Hv & Hch & He & Hh) Hne] Hhad Hn. destruct (Hh Hhad) as [-> _]. exists c. right.
  exists buffer, vs. rewrite Hl, Hv. cbn in He. auto.
Qed.

Lemma enumerate_wp fuel c st s : between c st s ->
  wp (enumerate w volumeId v recordSize bytesPerSector lowPriority fuel c st) (fun '(failed, (_, st')) s' => enumerated failed st' s') s.
Proof.
  revert c st s. induction fuel as [|fuel IH]; intros c st s [Hs Hc Hbat Hch]; cbn [enumerate].
  all: apply wp_andThen, wp_poll; intros b Hb; apply (streaming_quiet _ _ (Polled b)) in Hs; [|done..].
  all: destruct b; cbn [orb]; [apply wp_pure; constructor; [done|done|right; left; by apply stopped_observe]|].
  all: destruct (writeFailed st) eqn:Ew; [apply wp_pure; constructor; auto; congruence|].
  { done. }
  specialize (Hbat eq_refl). apply not_stopped in Hb. destruct Hch as [?|[?|Hch]]; [done..|].
  set (s1 := observe (Polled false) s) in *. assert (chain (usn_layout layout) start (visits (trace s1)) c) as Hch1
    by (cbn [s1 trace observe]; by rewrite visits_snoc).
  apply wp_andThen. change (wp (ask_enum w c) ?Q s1) with (Q (EnumUsnData w (now s1) c) (observe (Enumerated c (EnumUsnData w (now s1) c)) s1)).
  destruct (EnumUsnData w (now s1) c) as [error|buffer] eqn:Ereply.
  { apply wp_pure. constructor; [by apply streaming_quiet|done|]. right. right. destruct (Z.eqb_spec error ERROR_HANDLE_EOF) as [->|]; [|by left].
    right. exists c. left. cbn [trace observe]. rewrite last_reply_snoc, visits_snoc. auto. }
  destruct (wo_enum w world_fine _ _ _ Ereply) as [Hbytes _].
  destruct (Z.ltb_spec (zlen buffer) 8) as [Hshort|Hlong].
  { apply wp_pure. constructor; [by apply streaming_quiet|done|]. auto. }
  rewrite ReadU64_field by lia. apply wp_andThen. cbn [reading wp]. fold (next_of buffer).
  eapply run_bind; [apply scan_buffer_wp; [done|lia|unfold zlen; lia|by apply in_buffer_enter]|].
  intros st1 s2 (rest & Hin & Hleft). apply wp_andThen, wp_poll. intros b Hb2.
  destruct (_ && (next_of buffer <=? c)) eqn:Eend.
  { apply andb_true_iff in Eend as [[[-> Hw1]%negb_true_iff%orb_false_iff Hhad%negb_true_iff]%andb_true_iff Hle%Z.leb_le].
    apply not_stopped in Hb2.
    destruct Hleft as [?|[?| ->]]; [congruence|done|]. apply (in_buffer_quiet _ _ _ _ _ (Polled false)) in Hin; [|done].
    apply wp_pure. constructor; [apply Hin| |].
    - intros _. destruct Hin as [_ _ _ _ (? & ? & _ & _ & _ & Hh) Hne]. by apply Hh.
    - do 3 right. by eapply at_end_no_progress. }
  eapply run_bind; [by apply (between_after buffer c rest)|]. intros st2 s3 Hbt. by apply IH.
Qed.

(** ** The end of a scan *)

(** What each result says of the stream. *)
Definition result_promise (r : ScanRunResult) (t : list event) : Prop :=
  match r with
  | Completed => last (wrote t) = Some (ScanCompleted volumeId)
  | FailedTerminalDelivered => last (wrote t) = Some (ScanHasFailed volumeId)
  | Cancelled => Forall ongoing t /\ accepted t = delivered t
  | TransportFailed => exists m, NotWritten m ∈ t
  | FailureAbortedConnection => Forall ongoing t /\ accepted t = delivered t /\ ProtocolSupportsScanFailure v = false
  end.

Definition finished (r : ScanRunResult) (s : io) : Prop := kept (trace s) /\ result_promise r (trace s).

Lemma terminal_promise t m : m = ScanCompleted volumeId \/ m = ScanHasFailed volumeId -> Forall ongoing t -> accepted t = delivered t ->
  (m = ScanCompleted volumeId -> at_end (usn_layout layout) start t) ->
  (m = ScanHasFailed volumeId -> ProtocolSupportsScanFailure v = true) -> frame_promise t m.
Proof.
  intros Hm Ho Ha Hc Hf. split; [done|].
  destruct Hm as [-> | ->]; (split; [apply acceptable_volume; cbn; auto|]); (split; [done|]); auto.
Qed.

Lemma SendScanTerminal_wp success s : kept (trace s) -> Forall ongoing (trace s) -> accepted (trace s) = delivered (trace s) ->
  (success = true -> at_end (usn_layout layout) start (trace s)) ->
  wp (SendScanTerminal w volumeId v success) (fun outcome s' => kept (trace s') /\
    match outcome with
    | SuccessTerminalDelivered => success = true /\ last (wrote (trace s')) = Some (ScanCompleted volumeId)
    | FailureTerminalDelivered => success = false /\ last (wrote (trace s')) = Some (ScanHasFailed volumeId)
    | FailureNotRepresentable => s' = s /\ ProtocolSupportsScanFailure v = false
    | TerminalTransportFailed => exists m, NotWritten m ∈ trace s'
    end) s.
Proof.
  intros Hk Ho Ha He. unfold SendScanTerminal. destruct success; [|destruct (ProtocolSupportsScanFailure v) eqn:Ev; [|by apply wp_pure]];
    (apply wp_andThen, wp_write; cbn [trace observe wp pure]; [intros _|split; [by apply kept_quiet|eexists; apply not_written_last]]).
  all: split; [|split; [done|apply last_wrote]].
  all: apply kept_snoc; [done|]; intros m [= <-]; apply terminal_promise; auto; discriminate.
Qed.

Lemma Finish_wp failed st s : enumerated failed st s -> wp (Finish w volumeId v (output_writeFailed st) failed) finished s.
Proof.
  intros [Hs Hb He]. unfold Finish. apply wp_andThen, wp_poll. intros b Hstop.
  assert (writeFailed st = false -> Forall ongoing (trace s) /\ accepted (trace s) = delivered (trace s)) as Hclean.
  { intros Hw. split; [by apply Hs|]. by rewrite (sm_delivered _ _ Hs Hw), (Hb Hw), app_nil_r. }
  assert (last_reply (trace (observe (Polled b) s)) = last_reply (trace s) /\ visits (trace (observe (Polled b) s)) = visits (trace s)) as [Hl Hv]
    by (cbn [trace observe]; by rewrite last_reply_snoc, visits_snoc).
  apply (streaming_quiet _ _ (Polled b)) in Hs; [|done..]. destruct (Hs) as [Hk -> _ _ _ _ Hnw].
  destruct (writeFailed st); [apply wp_pure; split; [done|by apply Hnw]|]. destruct (Hclean eq_refl) as [Ho Ha].
  assert (Forall ongoing (trace (observe (Polled b) s)) /\ accepted (trace (observe (Polled b) s)) = delivered (trace (observe (Polled b) s))) as [Ho' Ha'].
  { split; [by apply ongoing_snoc|]. cbn [trace observe]. rewrite accepted_snoc, delivered_snoc. cbn. by rewrite !app_nil_r. }
  destruct b; [by apply wp_pure|]. apply not_stopped in Hstop. destruct He as [?|[?|He]]; [done..|].
  apply wp_andThen. eapply run_mono; [apply SendScanTerminal_wp; try done|].
  - intros ->%negb_true_iff. destruct He as [?|(c & Hend)]; [done|]. exists c. by rewrite Hl, Hv.
  - intros outcome s' [Hk' Ho'']. apply wp_pure. split; [done|]. destruct outcome; destruct failed; cbn in *; try (by destruct Ho''); try done.
    all: destruct Ho'' as [-> Hv']; auto.
Qed.

Lemma DeliverFailedScanTerminal_wp s : kept (trace s) -> Forall ongoing (trace s) -> accepted (trace s) = delivered (trace s) ->
  wp (DeliverFailedScanTerminal w volumeId v) finished s.
Proof.
  intros Hk Ho Ha. unfold DeliverFailedScanTerminal. apply wp_andThen, wp_poll. intros b _.
  assert (kept (trace (observe (Polled b) s))) as Hk' by by apply kept_quiet.
  assert (Forall ongoing (trace (observe (Polled b) s))) as Ho' by by apply ongoing_snoc.
  assert (accepted (trace (observe (Polled b) s)) = delivered (trace (observe (Polled b) s))) as Ha'.
  { cbn [trace observe]. rewrite accepted_snoc, delivered_snoc. cbn. by rewrite !app_nil_r. }
  destruct b; [by apply wp_pure|]. apply wp_andThen. eapply run_mono; [by apply SendScanTerminal_wp|].
  intros outcome s' [Hk'' Ho'']. apply wp_pure. split; [done|]. destruct outcome; cbn in *; try (by destruct Ho''); try done.
  destruct Ho'' as [-> Hv']. auto.
Qed.

Lemma between_start s : kept (trace s) -> Forall ongoing (trace s) -> accepted (trace s) = [] -> delivered (trace s) = [] -> visits (trace s) = [] ->
  between start (mkScanning [] false 0 false false) s.
Proof.
  intros Hk Ho Ha Hd Hv. constructor; [|done|done|right; right; rewrite Hv; constructor].
  constructor; cbn; try done. by rewrite Ha, Hd.
Qed.

Lemma scan_volume_wp fuel s : between start (mkScanning [] false 0 false false) s ->
  wp (scan_volume w volumeId v recordSize bytesPerSector lowPriority fuel start) finished s.
Proof.
  intros Hs. unfold scan_volume. eapply run_bind; [by apply enumerate_wp|]. intros [failed [c st]] s' He.
  destruct (negb _ && negb _) eqn:E.
  - bool_prop. rewrite (en_batch _ _ _ He) in * by done. done.
  - apply wp_andThen, wp_pure. by apply Finish_wp.
Qed.

(** ** Scans end *)

Lemma bounded_send_batch st c : bounded (send_batch w volumeId v st c).
Proof. unfold send_batch, SendBatch. solve_bounded. Qed.

Lemma bounded_scan_entry c frn st : bounded (scan_entry w volumeId v recordSize bytesPerSector c frn st).
Proof. pose proof bounded_send_batch. unfold scan_entry. solve_bounded. Qed.

Lemma bounded_scan_buffer fuel buffer c offset st : bounded (scan_buffer w volumeId v recordSize bytesPerSector lowPriority fuel buffer c offset st).
Proof.
  pose proof bounded_scan_entry. revert offset st. induction fuel as [|fuel IH]; intros offset st; cbn [scan_buffer]; solve_bounded; try done.
  all: unfold pace; solve_bounded.
Qed.

Lemma bounded_Finish a b : bounded (Finish w volumeId v a b).
Proof. unfold Finish, SendScanTerminal. solve_bounded. Qed.

(** The driver moves its cursor forward whenever a buffer has entries. *)
Definition moves_forward : Prop := forall t c buffer, EnumUsnData w t c = DeviceBuffer buffer ->
  entries (usn_layout layout) buffer <> [] -> c < next_of buffer.

(** Fuel that is enough: until the stop flag is raised, or for every cursor that is left. *)
Definition enough (fuel : nat) (c : Z) (s : io) : Prop :=
  shouldStop w (now s + fuel)%nat = true \/ moves_forward /\ 18446744073709551616 - c <= Z.of_nat fuel.

(** A loop that is to be left is left. *)
Lemma enumerate_leaves fuel c st s : writeFailed st = true \/ stopped s ->
  enumerate w volumeId v recordSize bytesPerSector lowPriority fuel c st s <> Exhausted.
Proof.
  unfold stopped. destruct fuel as [|fuel]; cbn [enumerate]; unfold andThen, poll; intros [-> | ->]; rewrite ?orb_true_r; done.
Qed.


Lemma enough_next fuel c s s' : enough (S fuel) c s -> (S (now s) <= now s')%nat ->
  shouldStop w (now s' + fuel)%nat = true \/ moves_forward /\ 18446744073709551616 - c <= 1 + Z.of_nat fuel.
Proof. intros [Hs|[Hm Hf]] Hn; [left|right; split; [done|lia]]. eapply wo_stop; [done| |exact Hs]. lia. Qed.

(** What follows a buffer. *)
Lemma after_buffer_total fuel buffer c rest st s t : Forall is_byte buffer -> in_buffer buffer c rest st s ->
  (writeFailed st = true \/ stopped s \/ rest = []) -> EnumUsnData w t c = DeviceBuffer buffer ->
  (shouldStop w (now s + fuel)%nat = true \/ moves_forward /\ 18446744073709551616 - c <= 1 + Z.of_nat fuel) ->
  (forall c st s, between c st s -> enough fuel c s -> enumerate w volumeId v recordSize bytesPerSector lowPriority fuel c st s <> Exhausted) ->
  let b := shouldStop w (now s) in
  let next := if b || writeFailed st then c else next_of buffer in
  negb (b || writeFailed st) && negb (bufferHadRecords st) && (next_of buffer <=? c) = false ->
  andThen (if negb (writeFailed st) && bufferHadRecords st then send_batch w volumeId v st next else pure st)
    (fun st => enumerate w volumeId v recordSize bytesPerSector lowPriority fuel next st) (observe (Polled b) s) <> Exhausted.
Proof.
  intros Hbytes Hin Hleft Hreply Henough IH b next Hgo.
  assert (bounded (if negb (writeFailed st) && bufferHadRecords st then send_batch w volumeId v st next else pure st)) as Hbd
    by (pose proof bounded_send_batch; solve_bounded).
  eapply total_bind; [by apply (between_after buffer c rest)| |].
  { specialize (Hbd (observe (Polled b) s)). intros E. by rewrite E in Hbd. }
  intros st2 s3 Hrun Hbt. specialize (Hbd (observe (Polled b) s)). rewrite Hrun, now_observe in Hbd.
  destruct (writeFailed st) eqn:Ew; cbn [negb andb] in Hrun.
  { injection Hrun as <- <-. apply enumerate_leaves. auto. }
  destruct b eqn:Eb.
  { apply enumerate_leaves. right. unfold stopped. eapply wo_stop; [done| |exact Eb]. lia. }
  apply IH; [done|]. destruct Henough as [Hs|[Hm Hf]]; [left; eapply wo_stop; [done| |exact Hs]; lia|right; split; [done|]].
  assert (c < next_of buffer) as Hlt.
  { destruct (bufferHadRecords st) eqn:Eh; [|cbn in Hgo; bool_prop; done].
    eapply Hm; [exact Hreply|]. by apply (ib_had _ _ _ _ _ Hin). }
  subst next. cbn. lia.
Qed.

Lemma enumerate_total fuel c st s : between c st s -> enough fuel c s ->
  enumerate w volumeId v recordSize bytesPerSector lowPriority fuel c st s <> Exhausted.
Proof.
  revert c st s. induction fuel as [|fuel IH]; intros c st s Hbt He.
  { destruct He as [Hs|[_ Hf]]; [apply enumerate_leaves; right; unfold stopped; by rewrite Nat.add_0_r in Hs|].
    pose proof (fits8_range c (bt_cursor _ _ _ Hbt)). lia. }
  destruct (writeFailed st) eqn:Ew; [apply enumerate_leaves; auto|].
  destruct (shouldStop w (now s)) eqn:Estop; [apply enumerate_leaves; auto|].
  destruct Hbt as [Hs Hc Hbat Hch]. specialize (Hbat Ew). destruct Hch as [?|[Hst|Hch]]; [congruence|by rewrite Hst in Estop|].
  cbn [enumerate]. unfold andThen at 1, poll at 1. rewrite Estop, Ew. cbn [orb].
  apply (streaming_quiet _ _ (Polled false)) in Hs; [|done..]. set (s1 := observe (Polled false) s) in *.
  assert (chain (usn_layout layout) start (visits (trace s1)) c) as Hch1 by (cbn [s1 trace observe]; by rewrite visits_snoc).
  unfold andThen at 1, ask_enum. destruct (EnumUsnData w (now s1) c) as [error|buffer] eqn:Ereply; [done|].
  destruct (wo_enum w world_fine _ _ _ Ereply) as [Hbytes _]. destruct (Z.ltb_spec (zlen buffer) 8) as [|Hlong]; [done|].
  rewrite ReadU64_field by lia. unfold andThen at 1, reading. fold (next_of buffer).
  eapply total_bind; [apply scan_buffer_wp; [done|lia|unfold zlen; lia|by apply in_buffer_enter]| |].
  { pose proof (bounded_scan_buffer (length buffer) buffer c 8 (mkScanning (batch st) false (recordsSinceYield st) false (output_writeFailed st))
      (observe (Enumerated c (DeviceBuffer buffer)) s1)) as Hbd. intros E. by rewrite E in Hbd. }
  intros st2 s2 Hrun (rest & Hin & Hleft).
  pose proof (bounded_scan_buffer (length buffer) buffer c 8 (mkScanning (batch st) false (recordsSinceYield st) false (output_writeFailed st))
    (observe (Enumerated c (DeviceBuffer buffer)) s1)) as Hbd. rewrite Hrun, now_observe in Hbd. unfold s1 in Hbd at 1. rewrite now_observe in Hbd.
  unfold andThen at 1, poll. destruct (_ && (next_of buffer <=? c)) eqn:Eend; [done|].
  eapply (after_buffer_total fuel buffer c rest); try done. eapply enough_next; [exact He|lia].
Qed.

Lemma scan_volume_total fuel s : between start (mkScanning [] false 0 false false) s -> enough fuel start s ->
  scan_volume w volumeId v recordSize bytesPerSector lowPriority fuel start s <> Exhausted.
Proof.
  intros Hs He. unfold scan_volume. eapply total_bind; [by apply enumerate_wp|by apply enumerate_total|].
  intros [failed [c st]] s' _ _. pose proof bounded_send_batch. pose proof bounded_Finish.
  match goal with |- ?m s' <> _ => assert (bounded m) as Hb by (solve_bounded) end.
  specialize (Hb s'). intros E. by rewrite E in Hb.
Qed.
End runs.

(** ** Whole scans *)

Definition sector_size (w : world) : Z := match NtfsVolumeData w with Some (_, sector) => sector | None => 0 end.

Section whole.
Context (w : world) (world_fine : world_ok w) (volumeId : Z) (id_fits : fits 4 volumeId).
Context (resumeCursor : list Z) (cursor_bytes : Forall is_byte resumeCursor) (lowPriority : bool) (v : ProtocolVersion).

Lemma DecodeCursor_fits : fits 8 (DecodeCursor resumeCursor).
Proof.
  unfold DecodeCursor. destruct (Z.eqb_spec (zlen resumeCursor) 8) as [He|]; [|by vm_compute].
  pose proof (le_value_fits resumeCursor cursor_bytes) as Hf. by replace (length resumeCursor) with 8%nat in Hf by (unfold zlen in He; lia).
Qed.

Lemma polled_quiet f b : let s := observe (Polled b) (mkIo [] f) in
  kept w volumeId v (record_size w) (sector_size w) (DecodeCursor resumeCursor) (trace s) /\ Forall ongoing (trace s).
Proof. split; [|by repeat constructor]. apply kept_quiet; [done|]. by intros [|]. Qed.

Lemma between_first f b : between w volumeId v (record_size w) (sector_size w) (DecodeCursor resumeCursor) (DecodeCursor resumeCursor)
  (mkScanning [] false 0 false false) (observe (Polled b) (mkIo [] f)).
Proof. destruct (polled_quiet f b). apply between_start; (done || apply DecodeCursor_fits). Qed.

Lemma RunVolumeScan_wp fuel f :
  wp (RunVolumeScan w fuel volumeId resumeCursor lowPriority v)
    (finished w volumeId v (record_size w) (sector_size w) (DecodeCursor resumeCursor)) (mkIo [] f).
Proof.
  unfold RunVolumeScan. apply wp_andThen, wp_poll. intros b _. destruct (polled_quiet f b) as [Hk Ho].
  assert (wp (DeliverFailedScanTerminal w volumeId v)
    (finished w volumeId v (record_size w) (sector_size w) (DecodeCursor resumeCursor)) (observe (Polled b) (mkIo [] f))) as Hfail
    by by apply DeliverFailedScanTerminal_wp.
  destruct b; [by apply wp_pure|]. repeat (case_match; [done|]). destruct (NtfsVolumeData w) as [[size sector]|] eqn:Eg; [|done].
  case_match; [done|].
  assert (record_size w = size) as <- by (unfold record_size; by rewrite Eg).
  assert (sector_size w = sector) as <- by (unfold sector_size; by rewrite Eg).
  apply scan_volume_wp; (done || apply between_first).
Qed.

Lemma RunVolumeScan_total fuel f :
  shouldStop w (S fuel) = true \/ moves_forward w /\ 18446744073709551616 - DecodeCursor resumeCursor <= Z.of_nat fuel ->
  RunVolumeScan w fuel volumeId resumeCursor lowPriority v (mkIo [] f) <> Exhausted.
Proof.
  intros He. unfold RunVolumeScan. unfold andThen at 1, poll at 1.
  assert (bounded (DeliverFailedScanTerminal w volumeId v)) as Hfail by (unfold DeliverFailedScanTerminal, SendScanTerminal; solve_bounded).
  assert (forall s, DeliverFailedScanTerminal w volumeId v s <> Exhausted) as Hfail'.
  { intros s E. specialize (Hfail s). by rewrite E in Hfail. }
  repeat (case_match; [done || apply Hfail'|]). destruct (NtfsVolumeData w) as [[size sector]|] eqn:Eg; [|apply Hfail'].
  case_match; [apply Hfail'|].
  assert (record_size w = size) as <- by (unfold record_size; by rewrite Eg).
  assert (sector_size w = sector) as <- by (unfold sector_size; by rewrite Eg).
  apply (scan_volume_total w world_fine volumeId v id_fits _ _ Eg); [apply between_first|].
  destruct He as [Hs|[Hm Hf]]; [left; exact Hs|right; done].
Qed.
End whole.

(** Fuel for every interaction up to the moment the stop flag is raised, or, on a volume whose cursor
    moves forward with every buffer that has entries, for every cursor that is left. *)
Definition fuel_for (w : world) (fuel : nat) (cursor : Z) : Prop :=
  shouldStop w (S fuel) = true \/ moves_forward w /\ 18446744073709551616 - cursor <= Z.of_nat fuel.

(** ** The stream as its reader may take it *)

(** A buffer of the enumeration without a malformed entry, and the files it lists: its entries follow each other from
    the cursor at its head up to where no other has room. *)
Definition lists (layout : UsnLayout) (buffer files : list Z) : Prop := exists offsets e,
  listing (fun o => field buffer (o + off_RecordLength layout) 4) (struct_size (layout_v2 layout)) (zlen buffer) 8 offsets e /\
  zlen buffer < e + struct_size (layout_v2 layout) /\
  files = (fun o => field buffer (o + off_FileReferenceNumber (layout_v2 layout)) 8) <$> offsets.

Definition well_formed (layout : UsnLayout) (v : visit) : Prop := exists files, lists layout (v_buffer v) files.

Section reader.
Context (layout : UsnLayout) (start : Z).

(** Buffers asked for one after the other from [start], every file they list fetched, up to a cursor. *)
Inductive toured : list visit -> Z -> Prop :=
| toured_start : toured [] start
| toured_next v vs : toured vs (v_start v) -> lists layout (v_buffer v) (v_fetched v) -> toured (v :: vs) (next_of (v_buffer v)).

(** A scan that resumes at the cursor misses nothing: what precedes it was fetched, and at most the buffer that starts there
    is fetched again. *)
Definition misses_nothing (vs : list visit) (cursor : Z) : Prop :=
  toured vs cursor \/ exists v rest, vs = v :: rest /\ v_start v = cursor /\ toured rest cursor.

(** The enumeration is complete: every file listed from [start] on was fetched, and at the cursor reached the driver reported the end
    of the MFT (error 38), or returned a buffer that lists no file and has no later cursor. *)
Definition ended (t : list event) : Prop := exists cursor,
  (last_reply t = Some (cursor, DeviceError 38) /\ toured (visits t) cursor) \/
  exists buffer rest, last_reply t = Some (cursor, DeviceBuffer buffer) /\ visits t = mkVisit cursor buffer [] :: rest /\
    toured rest cursor /\ lists layout buffer [] /\ next_of buffer <= cursor.
End reader.

(** A record of the wire shows the parsed record [p] of file [frn]; the peers from 2.1 on also get the allocated size. *)
Definition shows (v : ProtocolVersion) (frn : Z) (p : ParsedMftRecord) (r : MftRecordV1 + MftRecordV2) : Prop :=
  let sized := 2 < major v \/ major v = 2 /\ 1 <= minor v in
  match r with
  | inl r =>
      ~ sized /\ m1_fileReferenceNumber (fixed r) = frn /\ m1_parentFileReferenceNumber (fixed r) = MftParser.parentFileReferenceNumber p /\
      m1_creationTime (fixed r) = creationTime p /\ m1_lastModifiedTime (fixed r) = lastModifiedTime p /\
      m1_lastAccessTime (fixed r) = lastAccessTime p /\ m1_sizeBytes (fixed r) = sizeBytes p /\
      m1_fileAttributes (fixed r) = MftParser.fileAttributes p /\
      m1_fileNameLengthChars (fixed r) = zlen (MftParser.fileName p) mod 65536 /\ Records.fileName r = MftParser.fileName p
  | inr r =>
      sized /\ m2_fileReferenceNumber (fixed r) = frn /\ m2_parentFileReferenceNumber (fixed r) = MftParser.parentFileReferenceNumber p /\
      m2_creationTime (fixed r) = creationTime p /\ m2_lastModifiedTime (fixed r) = lastModifiedTime p /\
      m2_lastAccessTime (fixed r) = lastAccessTime p /\ m2_sizeBytes (fixed r) = sizeBytes p /\
      m2_allocatedSizeBytes (fixed r) = allocatedSizeBytes p /\ m2_fileAttributes (fixed r) = MftParser.fileAttributes p /\
      m2_fileNameLengthChars (fixed r) = zlen (MftParser.fileName p) mod 65536 /\ Records.fileName r = MftParser.fileName p
  end.

Section stream.
Context (w : world) (volumeId start : Z) (v : ProtocolVersion).

Definition mft_record (frn : Z) (reply : option (list Z)) (p : ParsedMftRecord) : Prop :=
  record_of (device_layout w) (record_size w) (sector_size w) frn reply p.

(** [rs] are the records of the files fetched in the trace, in order; a file whose reply holds no record of it is left out. *)
Inductive scanned : list event -> list (MftRecordV1 + MftRecordV2) -> Prop :=
| scanned_nil : scanned [] []
| scanned_other e t rs : (forall frn reply, e <> Fetched frn reply) -> scanned t rs -> scanned (e :: t) rs
| scanned_nothing frn reply t rs : (forall p, ~ mft_record frn reply p) -> scanned t rs -> scanned (Fetched frn reply :: t) rs
| scanned_file frn reply p r t rs : mft_record frn reply p -> shows v frn p r -> scanned t rs -> scanned (Fetched frn reply :: t) (r :: rs).

(** What holds when [m] is written after [t]. *)
Definition stream_promise (t : list event) (m : service_message) : Prop :=
  Forall ongoing t /\ scan_frame volumeId m /\ scanned t (delivered t ++ carried m) /\
  match m with
  | ScanBatch _ cursor _ | ScanBatchV2 _ cursor _ =>
      zlen cursor = 8 /\ (Forall (well_formed (usn_layout (device_layout w))) (visits t) ->
        misses_nothing (usn_layout (device_layout w)) start (visits t) (le_value cursor))
  | ScanCompleted _ =>
      Forall (well_formed (usn_layout (device_layout w))) (visits t) -> ended (usn_layout (device_layout w)) start t
  | ScanHasFailed _ => ProtocolSupportsScanFailure v = true
  | _ => False
  end.
End stream.

Section reader_facts.
Context (w : world) (world_fine : world_ok w) (start : Z).
Let layout := usn_layout (device_layout w).

Lemma listing_entries buffer fuel o offsets e :
  listing (fun o => field buffer (o + off_RecordLength layout) 4) (struct_size (layout_v2 layout)) (zlen buffer) o offsets e ->
  zlen buffer < e + struct_size (layout_v2 layout) -> zlen buffer - o <= Z.of_nat fuel ->
  entries_from layout fuel buffer o = (fun o => field buffer (o + off_FileReferenceNumber (layout_v2 layout)) 8) <$> offsets.
Proof.
  destruct (usn_struct_bounds w world_fine) as (H0 & _). fold layout in H0. intros Hl He. revert fuel.
  induction Hl as [o|o os e Ho Hn Hend _ IH]; intros fuel Hfuel.
  - destruct fuel; [done|]. cbn [entries_from]. rewrite (proj2 (Z.leb_gt _ _)) by lia. done.
  - destruct fuel as [|fuel]; [lia|]. cbn [entries_from]. rewrite (proj2 (Z.leb_le _ _)), (proj2 (Z.eqb_neq _ _)), (proj2 (Z.ltb_ge _ _)) by lia.
    cbn [negb orb]. rewrite fmap_cons. f_equal. apply IH; [done|lia].
Qed.

Lemma lists_entries buffer files : lists layout buffer files -> entries layout buffer = files.
Proof. intros (offsets & e & Hl & He & ->). eapply listing_entries; [exact Hl|done|unfold zlen; lia]. Qed.

Lemma chain_toured vs c : Forall (well_formed layout) vs -> chain layout start vs c -> toured layout start vs c.
Proof.
  intros Hall Hc. induction Hc as [|v vs _ IH Hf]; [constructor|]. apply Forall_cons in Hall as [[files Hv] Hall].
  constructor; [by apply IH|]. by rewrite Hf, (lists_entries _ _ Hv).
Qed.

Lemma covers_misses_nothing vs c : Forall (well_formed layout) vs -> covers layout start vs c -> misses_nothing layout start vs c.
Proof.
  intros Hall [Hc|(v & rest & -> & Hv & Hc)]; [left; by apply chain_toured|right]. apply Forall_cons in Hall as [_ Hall].
  exists v, rest. auto using chain_toured.
Qed.

Lemma at_end_ended t : Forall (well_formed layout) (visits t) -> at_end layout start t -> ended layout start t.
Proof.
  intros Hall (c & [[Hl Hc]|(buffer & rest & Hl & Hv & Hc & He & Hn)]); exists c; [left; auto using chain_toured|right].
  rewrite Hv in Hall. apply Forall_cons in Hall as [[files Hf] Hall]. exists buffer, rest. cbn [v_buffer] in Hf.
  rewrite (lists_entries _ _ Hf) in He. subst files. auto using chain_toured.
Qed.

Lemma shows_on_wire v frn p : shows v frn p (on_wire v (scanned_record frn p)).
Proof.
  unfold on_wire, shows, ProtocolSupportsAllocatedSize.
  destruct (_ || _) eqn:E; cbn; (split; [bool_prop; lia|]); by repeat (split; [done|]).
Qed.

Lemma scanned_accepted v t : scanned w v t (accepted w v (record_size w) (sector_size w) t).
Proof.
  assert (0 <= record_size w) as Hrs.
  { unfold record_size. destruct (NtfsVolumeData w) as [[size sector]|] eqn:E; [|done]. by destruct (wo_volume w world_fine _ _ E) as [[? _] _]. }
  unfold accepted. induction t as [|e t IH]; [constructor|]. cbn. destruct e; try by apply scanned_other.
  cbn. destruct (ReadFileRecord _ _ _ _ _) as [p| |] eqn:E.
  - cbn. apply (scanned_file _ _ _ _ p); [|apply shows_on_wire|done]. apply ReadFileRecord_iff; [apply (wo_layout w world_fine)|done|done].
  - apply scanned_nothing; [|done]. intros p Hp. apply ReadFileRecord_iff in Hp; [congruence|apply (wo_layout w world_fine)|done].
  - apply scanned_nothing; [|done]. intros p Hp. apply ReadFileRecord_iff in Hp; [congruence|apply (wo_layout w world_fine)|done].
Qed.

Lemma le_value_EncodeCursor c : fits 8 c -> le_value (EncodeCursor c) = c.
Proof. intros Hc. by apply le_value_le_bytes. Qed.

Lemma frame_stream volumeId v t m :
  frame_promise w volumeId v (record_size w) (sector_size w) start t m -> stream_promise w volumeId start v t m.
Proof.
  intros (Ho & Hok & Hf & Hm). split; [done|]. split; [done|]. pose proof (scanned_accepted v t) as Hs.
  assert (forall c, fits 8 c -> covers layout start (visits t) c -> zlen (EncodeCursor c) = 8 /\
    (Forall (well_formed layout) (visits t) -> misses_nothing layout start (visits t) (le_value (EncodeCursor c)))) as Hcursor.
  { intros c Hc Hcov. split; [apply zlen_le_bytes|]. intros Hall. rewrite le_value_EncodeCursor by done. by apply covers_misses_nothing. }
  destruct m; try done; cbn [carried] in *; rewrite ?app_nil_r.
  1, 2: destruct Hm as [Ha (c & -> & Hc & Hcov)]; rewrite Ha in Hs; split; [done|]; by apply Hcursor.
  - destruct Hm as [Ha He]. rewrite Ha in Hs. split; [done|]. intros Hall. by apply at_end_ended.
  - destruct Hm as [Ha He]. by rewrite Ha in Hs.
Qed.
End reader_facts.

(** C4. Every frame of a scan, whatever the driver, the pipe, the other
    threads and the stop flag do: the run never reads outside a buffer; the engine understands the
    frame, which names the volume and follows neither a terminal nor a failed write; and the frames up to it carry exactly the
    MFT records of the files fetched so far, field by field and in order.  As long as no buffer of the driver had a
    malformed entry, the cursor of a batch is one from which a new scan misses nothing, and a
    [ScanComplete] is written only after every file the driver listed was fetched and the enumeration has reached its end.  (A malformed
    entry hides the rest of its buffer, which [malformed_entry_completes] shows.)  With enough fuel there is such a run. *)
Theorem RunVolumeScan_stream (w : world) (fuel : nat) (volumeId : Z) (resumeCursor : list Z) (lowPriority : bool)
    (v : ProtocolVersion) (transportFailed : bool) :
  world_ok w -> fits 4 volumeId -> Forall is_byte resumeCursor ->
  let run := RunVolumeScan w fuel volumeId resumeCursor lowPriority v (mkIo [] transportFailed) in
  let promised s := forall before m after, trace s = before ++ Wrote m :: after ->
    stream_promise w volumeId (DecodeCursor resumeCursor) v before m /\
    DispatchReceivedFrame true (raw_of_MessageType (frame_of m).1) (frame_of m).2 = Ok m in
  run <> Faulted /\ (forall result s, run = Ran result s -> promised s) /\
  (fuel_for w fuel (DecodeCursor resumeCursor) -> exists result s, run = Ran result s /\ promised s).
Proof.
  intros Hw Hid Hc run promised.
  assert (wp (RunVolumeScan w fuel volumeId resumeCursor lowPriority v) (fun _ s => promised s) (mkIo [] transportFailed)) as Hwp.
  { eapply run_mono; [by apply RunVolumeScan_wp|]. intros r s [Hk _] before m after Ht.
    specialize (Hk before m after Ht). split; [by apply frame_stream|]. by apply acceptable_dispatched, Hk. }
  split; [by apply (wp_cases _ _ _ Hwp)|]. split; [by apply (wp_cases _ _ _ Hwp)|].
  intros He. apply (wp_total _ _ _ Hwp). by apply RunVolumeScan_total.
Qed.

(** C19. A scan ends, and its result tells the stream.  With enough fuel it returns; [Completed] and
    [FailedTerminalDelivered] name the last frame on the wire; a cancelled scan and one whose failure the
    peer cannot be told have no terminal and have delivered every record they accepted; and
    [TransportFailed] is returned only after a frame that could not be written. *)
Theorem RunVolumeScan_returns (w : world) (fuel : nat) (volumeId : Z) (resumeCursor : list Z) (lowPriority : bool)
    (v : ProtocolVersion) (transportFailed : bool) :
  world_ok w -> fits 4 volumeId -> Forall is_byte resumeCursor -> fuel_for w fuel (DecodeCursor resumeCursor) ->
  exists result s, RunVolumeScan w fuel volumeId resumeCursor lowPriority v (mkIo [] transportFailed) = Ran result s /\
    result_promise w volumeId v (record_size w) (sector_size w) result (trace s).
Proof.
  intros Hw Hid Hc He. destruct (wp_total (RunVolumeScan w fuel volumeId resumeCursor lowPriority v) _ (mkIo [] transportFailed)
    (RunVolumeScan_wp w Hw volumeId Hid resumeCursor Hc lowPriority v fuel transportFailed)) as (r & s & Hr & _ & Hp); [by apply RunVolumeScan_total|eauto].
Qed.

(** ** A small volume *)

(** A [USN_RECORD_V2] of 64 bytes. *)
Definition sample_entry (frn : Z) : list Z := le_bytes 4 64 ++ [2; 0; 0; 0] ++ le_bytes 8 frn ++ replicate 48 0.

(** Two files are enumerated, one has vanished when it is fetched; the scan is never stopped. *)
Definition sample_world : world := {|
  device_layout := windows_layout;
  EnsureBackupPrivilegeEnabled := true;
  volumeOpened := true;
  NtfsVolumeData := Some (256, 256);
  QueryUsnJournal _ := JournalIs (mkJournalData 9 1000);
  CreateUsnJournal _ := false;
  EnumUsnData _ c := if c =? 18446744073709551000 then DeviceBuffer (le_bytes 8 18446744073709551600 ++ sample_entry 5 ++ sample_entry 6)
                     else DeviceError ERROR_HANDLE_EOF;
  ReadUsnJournal _ _ := DeviceError 1181;
  NtfsFileRecord _ frn := if frn =? 5 then Some (le_bytes 8 5 ++ le_bytes 4 256 ++ sample_record ++ [0; 0; 0]) else None;
  shouldStop _ := false;
  otherWriterFailed _ := false;
  WriteFrameOverlapped _ := true
|}.

Lemma sample_world_ok : world_ok sample_world.
Proof.
  constructor.
  - apply windows_layout_ok.
  - cbn. intros size sector Hd. simplify_eq. by vm_compute.
  - cbn. intros t data Hd. simplify_eq. by vm_compute.
  - intros t start bytes. cbn [EnumUsnData sample_world]. case_match; [|done]. intros Hd. simplify_eq. split; [solve_bytes|by vm_compute].
  - done.
  - intros t frn output. cbn [NtfsFileRecord sample_world]. case_match; [|done]. intros Hd. simplify_eq. split; [solve_bytes|by vm_compute].
  - done.
Qed.

Definition sample_cursor : list Z := EncodeCursor 18446744073709551000.
Definition sample_run (fuel : nat) : exec ScanRunResult := RunVolumeScan sample_world fuel 7 sample_cursor true kCurrentProtocolVersion (mkIo [] false).

Lemma sample_cursor_bytes : Forall is_byte sample_cursor.
Proof. solve_bytes. Qed.

(** The frames of a run. *)
Definition frames {A} (e : exec A) : list service_message := match e with Ran _ s => wrote (trace s) | _ => [] end.

Lemma sample_moves_forward : moves_forward sample_world.
Proof.
  intros t c buffer. cbn [EnumUsnData sample_world]. destruct (Z.eqb_spec c 18446744073709551000) as [->|]; [|done].
  intros [= <-] _. by vm_compute.
Qed.

Lemma sample_fuel : fuel_for sample_world 700 (DecodeCursor sample_cursor).
Proof. right. split; [exact sample_moves_forward|by vm_compute]. Qed.

Lemma RunVolumeScan_stream_witness :
  (exists record, frames (sample_run 700) = [ScanBatchV2 7 (EncodeCursor 18446744073709551600) [record]; ScanCompleted 7]) /\
  exists result s, sample_run 700 = Ran result s /\ forall before m after, trace s = before ++ Wrote m :: after ->
    stream_promise sample_world 7 18446744073709551000 kCurrentProtocolVersion before m /\
    DispatchReceivedFrame true (raw_of_MessageType (frame_of m).1) (frame_of m).2 = Ok m.
Proof.
  split; [eexists; vm_compute; reflexivity|].
  apply (RunVolumeScan_stream sample_world 700 7 sample_cursor true kCurrentProtocolVersion false sample_world_ok ltac:(by vm_compute) sample_cursor_bytes).
  exact sample_fuel.
Defined.

Lemma RunVolumeScan_returns_witness :
  match sample_run 700 with Ran result _ => result = Completed | _ => False end /\
  exists result s, sample_run 700 = Ran result s /\ result_promise sample_world 7 kCurrentProtocolVersion 256 256 result (trace s).
Proof.
  split; [vm_compute; reflexivity|].
  exact (RunVolumeScan_returns sample_world 700 7 sample_cursor true kCurrentProtocolVersion false sample_world_ok ltac:(by vm_compute) sample_cursor_bytes sample_fuel).
Defined.

(** The same volume with a second entry of length zero. *)
Definition malformed_world : world := {|
  device_layout := windows_layout;
  EnsureBackupPrivilegeEnabled := true;
  volumeOpened := true;
  NtfsVolumeData := Some (256, 256);
  QueryUsnJournal _ := JournalIs (mkJournalData 9 1000);
  CreateUsnJournal _ := false;
  EnumUsnData _ c := if c =? 0 then DeviceBuffer (le_bytes 8 100 ++ sample_entry 6 ++ replicate 64 0 ++ sample_entry 5) else DeviceError ERROR_HANDLE_EOF;
  ReadUsnJournal _ _ := DeviceError 1181;
  NtfsFileRecord := NtfsFileRecord sample_world;
  shouldStop _ := false;
  otherWriterFailed _ := false;
  WriteFrameOverlapped _ := true
|}.

(** The file that follows the malformed entry is never asked for; the cursor moves past the whole buffer and the scan completes. *)
Lemma malformed_entry_completes :
  match RunVolumeScan malformed_world 10 7 [] false kCurrentProtocolVersion (mkIo [] false) with
  | Ran result s => result = Completed /\ wrote (trace s) = [ScanBatchV2 7 (EncodeCursor 100) []; ScanCompleted 7] /\
      (v_fetched <$> visits (trace s)) = [[6]]
  | _ => False
  end.
Proof. vm_compute. repeat split; reflexivity. Qed.
