(* ===== verification/JournalStream.v ===== *)
(** * JournalStream: the worker that follows the USN journal

    Models [RunUsnJournalStream], [QueryOrCreateUsnJournal], [TryReenrichFromMft] and
    [SendJournalBatch] of [src/src/indexsvc/src/UsnJournalReader.cpp] over the [world] of [Worker], and
    the thread that runs it ([src/src/indexsvc/src/ServiceConnection.cpp]).  Handles are left out.

    Shown, for every behaviour of the driver, the pipe, the other threads and the stop flag: no run reads
    outside a buffer; each read starts where the one before ended; the frames carry, field by field, the
    changes of the reads that the peer's protocol can express, in order, each with the USN of its last change; every frame is one
    the engine accepts; and the worker ends once it is stopped. *)

From S2P Require Import Prelude Wire Records MftParser UsnParser Dispatch Worker.

Inductive JournalStreamOutcome := Ended | ResumePositionInvalid.

Definition kUsnReasonFileDelete : Z := 0x00000200.
Definition ERROR_INVALID_PARAMETER : Z := 87.
Definition ERROR_JOURNAL_NOT_ACTIVE : Z := 1179.
Definition ERROR_JOURNAL_ENTRY_DELETED : Z := 1181.

Definition IsRepresentableInLegacyV1 (record : UsnDeltaV3) : bool :=
  if HasUnknownMaskBits (u3_fieldMask (fixed record)) then false
  else
    let required := if Z.land (u3_reason (fixed record)) kUsnReasonFileDelete =? 0
                    then kUsnFieldMaskRequiredForV1 else Z.lor kUsnFieldParentId kUsnFieldName in
    Z.land (u3_fieldMask (fixed record)) required =? required.

(** ** Changes *)

(** The mask of a change whose MFT record was read, and of one whose record was not. *)
Definition enriched_mask : Z :=
  Z.lor kUsnFieldParentId (Z.lor kUsnFieldName (Z.lor kUsnFieldSizeBytes (Z.lor kUsnFieldCreationTime
  (Z.lor kUsnFieldLastModifiedTime (Z.lor kUsnFieldLastAccessTime (Z.lor kUsnFieldAttributes kUsnFieldAllocatedSizeBytes)))))).
Definition plain_mask : Z :=
  Z.lor kUsnFieldParentId (Z.lor kUsnFieldName (Z.lor kUsnFieldLastModifiedTime kUsnFieldAttributes)).

Definition enriched_delta (d : DecodedUsnRecord) (p : ParsedMftRecord) : UsnDeltaV3 :=
  mkRecord
    {| u3_usn := usn d; u3_fileReferenceNumber := UsnParser.fileReferenceNumber d;
       u3_parentFileReferenceNumber := MftParser.parentFileReferenceNumber p;
       u3_reason := reason d; u3_timestamp := timestamp d;
       u3_creationTime := creationTime p; u3_lastModifiedTime := lastModifiedTime p; u3_lastAccessTime := lastAccessTime p;
       u3_sizeBytes := sizeBytes p; u3_allocatedSizeBytes := allocatedSizeBytes p;
       u3_fileAttributes := MftParser.fileAttributes p; u3_fieldMask := enriched_mask;
       u3_fileNameLengthChars := wrap16 (zlen (MftParser.fileName p)) |}
    (MftParser.fileName p).

Definition plain_delta (d : DecodedUsnRecord) (name : list Z) : UsnDeltaV3 :=
  mkRecord
    {| u3_usn := usn d; u3_fileReferenceNumber := UsnParser.fileReferenceNumber d;
       u3_parentFileReferenceNumber := UsnParser.parentFileReferenceNumber d;
       u3_reason := reason d; u3_timestamp := timestamp d;
       u3_creationTime := 0; u3_lastModifiedTime := timestamp d; u3_lastAccessTime := 0;
       u3_sizeBytes := 0; u3_allocatedSizeBytes := 0;
       u3_fileAttributes := UsnParser.fileAttributes d; u3_fieldMask := plain_mask;
       u3_fileNameLengthChars := wrap16 (zlen name) |}
    name.

(** [delta.fileName.assign(nameStart, decoded->fileNameLength / sizeof(char16_t))]. *)
Definition usn_name (buffer : list Z) (offset : Z) (d : DecodedUsnRecord) : result (list Z) :=
  let n := Z.to_nat (fileNameLength d / 2) in
  let* bytes := load buffer (offset + fileNameOffset d) (2 * n) in
  Ok (decode_units n bytes).

Section stream.
Context (w : world) (volumeId : Z) (negotiatedVersion : ProtocolVersion).

(** The frame of [SendJournalBatch]. *)
Definition journal_message (records : list UsnDeltaV3) (latestUsn : Z) : service_message :=
  if major negotiatedVersion =? 1 then
    JournalBatch volumeId latestUsn (DowngradeUsnDeltaV3ToV1 <$> filter (fun r => IsRepresentableInLegacyV1 r = true) records)
  else if negb (ProtocolSupportsAllocatedSize negotiatedVersion) then
    JournalBatchV2 volumeId latestUsn (DowngradeUsnDeltaV3 <$> filter (fun r => IsRepresentableInUsnV2 r = true) records)
  else JournalBatchV3 volumeId latestUsn records.

Definition SendJournalBatch (records : list UsnDeltaV3) (latestUsn : Z) : M bool :=
  WriteFrameWithDeadline w (journal_message records latestUsn).

Definition QueryOrCreateUsnJournal : M (option JournalData) :=
  reply <-- ask_query w;
  match reply with
  | JournalIs data => pure (Some data)
  | JournalError error =>
      if error =? ERROR_JOURNAL_NOT_ACTIVE then
        created <-- ask_create w;
        if created : bool then
          reply <-- ask_query w;
          pure (match reply with JournalIs data => Some data | JournalError _ => None end)
        else pure None
      else pure None
  end.

Context (recordSize bytesPerSector : Z).

Definition TryReenrichFromMft (frn : Z) : M (option ParsedMftRecord) :=
  reply <-- ask_record w frn;
  reading (ReadFileRecord (device_layout w) recordSize bytesPerSector frn reply).

(** ** One read *)

Record reading_state := mkReading { changes : list UsnDeltaV3; latestUsnInBatch : Z }.

(** The body of the loop for a record that was decoded. *)
Definition read_record (buffer : list Z) (offset : Z) (d : DecodedUsnRecord) (st : reading_state) : M reading_state :=
  enriched <-- TryReenrichFromMft (UsnParser.fileReferenceNumber d);
  delta <-- (match enriched with
             | Some p => pure (Some (enriched_delta d p))
             | None => name <-- reading (usn_name buffer offset d); pure (plain_delta d <$> name)
             end);
  pure (match delta with
        | Some delta =>
            if IsFileNameLengthValid (u3_fileNameLengthChars (fixed delta))
            then mkReading (changes st ++ [delta]) (usn d) else st
        | None => st
        end).

(** [while (offset + sizeof(USN_RECORD_COMMON_HEADER) <= readBytesReturned)].  Every record advances
    the offset, so the number of bytes is fuel enough. *)
Fixpoint read_buffer (fuel : nat) (buffer : list Z) (offset : Z) (st : reading_state) : M reading_state :=
  let layout := usn_layout (device_layout w) in
  if negb (offset + common_size layout <=? zlen buffer) then pure st else
  match fuel with
  | O => fun _ => Faulted
  | S fuel =>
      length <-- reading (ReadU32 buffer (offset + off_RecordLength layout));
      match length with
      | None => pure st
      | Some recordLength =>
          if (recordLength =? 0) || (zlen buffer <? offset + recordLength) then pure st else
          decoded <-- reading (DecodeUsnRecord layout (Some (drop (Z.to_nat offset) buffer)) recordLength);
          st <-- (match decoded with None => pure st | Some d => read_record buffer offset d st end);
          read_buffer fuel buffer (offset + recordLength) st
      end
  end.

(** The idle wait: ten slices of 100 ms, each preceded by a poll. *)
Fixpoint idle_wait (slices : nat) : M unit :=
  match slices with
  | O => pure tt
  | S slices =>
      stop <-- poll w;
      if stop : bool then pure tt else
      _ <-- sleep;
      idle_wait slices
  end.

Definition idle_slices : nat := 10.   (* kIdlePollInterval / kIdlePollSliceInterval *)

(** [while (!shouldStop.load())]. *)
Fixpoint follow (fuel : nat) (startUsn latestUsn : Z) : M JournalStreamOutcome :=
  stop <-- poll w;
  if stop : bool then pure Ended else
  match fuel with
  | O => fun _ => Exhausted
  | S fuel =>
      reply <-- ask_journal w startUsn;
      match reply with
      | DeviceError error =>
          pure (if (error =? ERROR_JOURNAL_ENTRY_DELETED) || (error =? ERROR_INVALID_PARAMETER) then ResumePositionInvalid else Ended)
      | DeviceBuffer buffer =>
          if zlen buffer <? 8 then pure Ended else
          next <-- reading (ReadU64 buffer 0);
          match next with
          | None => pure Ended
          | Some nextUsn =>
              st <-- read_buffer (length buffer) buffer 8 (mkReading [] latestUsn);
              if zlen (changes st) =? 0
              then _ <-- idle_wait idle_slices; follow fuel (to_signed64 nextUsn) (latestUsnInBatch st)
              else
                sent <-- SendJournalBatch (changes st) (latestUsnInBatch st);
                if sent : bool then follow fuel (to_signed64 nextUsn) (latestUsnInBatch st) else pure Ended
          end
      end
  end.
End stream.

Definition RunUsnJournalStream (w : world) (fuel : nat) (volumeId resumeUsn : Z) (negotiatedVersion : ProtocolVersion) : M JournalStreamOutcome :=
  if negb (EnsureBackupPrivilegeEnabled w) then pure Ended else
  if negb (volumeOpened w) then pure Ended else
  journal <-- QueryOrCreateUsnJournal w;
  match journal with
  | None => pure Ended
  | Some data =>
      opened <-- WriteFrameWithDeadline w (JournalOpened volumeId (UsnJournalID data) (to_unsigned64 (NextUsn data)));
      if negb opened then pure Ended else
      match NtfsVolumeData w with
      | None => pure Ended
      | Some (recordSize, bytesPerSector) =>
          if (recordSize =? 0) || (bytesPerSector =? 0) then pure Ended else
          follow w volumeId negotiatedVersion recordSize bytesPerSector fuel (to_signed64 resumeUsn) resumeUsn
      end
  end.

(** The journal worker of the connection: the stream, and [JournalResumeInvalid] when it could not resume. *)
Definition run_journal_worker (w : world) (fuel : nat) (volumeId resumeUsn : Z) (peerVersion : ProtocolVersion) : M JournalStreamOutcome :=
  outcome <-- RunUsnJournalStream w fuel volumeId resumeUsn peerVersion;
  match outcome with
  | ResumePositionInvalid =>
      if negb (major peerVersion =? 1)
      then _ <-- WriteFrameWithDeadline w (JournalInvalid volumeId); pure outcome
      else pure outcome
  | Ended => pure outcome
  end.

(** ** What a trace shows *)

(** A read of the journal, with the replies for the records it held. *)
Record journal_read := mkRead { r_start : Z; r_buffer : list Z; r_replies : list (option (list Z)) }.

Definition add_read (rs : list journal_read) (e : event) : list journal_read :=
  match e with
  | JournalRead start (DeviceBuffer buffer) => if 8 <=? zlen buffer then mkRead start buffer [] :: rs else rs
  | Fetched _ reply => match rs with r :: rs => mkRead (r_start r) (r_buffer r) (r_replies r ++ [reply]) :: rs | [] => [] end
  | _ => rs
  end.

(** The reads of a trace, the latest first. *)
Definition reads (t : list event) : list journal_read := fold_left add_read t [].

(** The records of a buffer that decode, with their offsets, up to its end or its first malformed record. *)
Fixpoint decodings_from (layout : UsnLayout) (fuel : nat) (buffer : list Z) (offset : Z) : list (Z * DecodedUsnRecord) :=
  match fuel with
  | O => []
  | S fuel =>
      let recordLength := field buffer (offset + off_RecordLength layout) 4 in
      if negb (offset + common_size layout <=? zlen buffer) || (recordLength =? 0) || (zlen buffer <? offset + recordLength)
      then []
      else match DecodeUsnRecord layout (Some (drop (Z.to_nat offset) buffer)) recordLength with
           | Ok d => (offset, d) :: decodings_from layout fuel buffer (offset + recordLength)
           | _ => decodings_from layout fuel buffer (offset + recordLength)
           end
  end.

Definition decodings (layout : UsnLayout) (buffer : list Z) : list (Z * DecodedUsnRecord) :=
  decodings_from layout (length buffer) buffer 8.

Definition last_journal_reply (t : list event) : option (Z * DeviceReply) :=
  last (omap (fun e => match e with JournalRead start reply => Some (start, reply) | _ => None end) t).

Section promises.
Context (layout : DeviceLayout) (recordSize bytesPerSector volumeId : Z) (v : ProtocolVersion).

(** The change of a decoded record: from the MFT when its record can be read, from the journal otherwise. *)
Definition change_of (buffer : list Z) (od : Z * DecodedUsnRecord) (reply : option (list Z)) : option UsnDeltaV3 :=
  let delta :=
    match ReadFileRecord layout recordSize bytesPerSector (UsnParser.fileReferenceNumber od.2) reply with
    | Ok p => enriched_delta od.2 p
    | _ => plain_delta od.2 (match usn_name buffer od.1 od.2 with Ok name => name | _ => [] end)
    end in
  if IsFileNameLengthValid (u3_fileNameLengthChars (fixed delta)) then Some delta else None.

Definition changes_between (buffer : list Z) (ds : list (Z * DecodedUsnRecord)) (replies : list (option (list Z))) : list UsnDeltaV3 :=
  omap (fun p => change_of buffer p.1 p.2) (zip ds replies).

(** The changes of a read, and the frame that carries them. *)
Definition changes_of (r : journal_read) : list UsnDeltaV3 :=
  changes_between (r_buffer r) (decodings (usn_layout layout) (r_buffer r)) (r_replies r).

Definition read_frame (r : journal_read) : option service_message :=
  (fun c => journal_message volumeId v (changes_of r) (u3_usn (fixed c))) <$> last (changes_of r).

(** Reads one after the other from [resume], each record of them followed up. *)
Inductive read_chain (resume : Z) : list journal_read -> Z -> Prop :=
| read_chain_start : read_chain resume [] resume
| read_chain_next r rs : read_chain resume rs (r_start r) ->
    length (r_replies r) = length (decodings (usn_layout layout) (r_buffer r)) ->
    Forall is_byte (r_buffer r) -> 8 <= zlen (r_buffer r) ->
    read_chain resume (r :: rs) (to_signed64 (field (r_buffer r) 0 8)).
End promises.

Lemma reads_snoc t e : reads (t ++ [e]) = add_read (reads t) e.
Proof. unfold reads. by rewrite fold_left_app. Qed.

Lemma changes_between_snoc layout recordSize bps buffer ds replies od reply : length replies = length ds ->
  changes_between layout recordSize bps buffer (ds ++ [od]) (replies ++ [reply]) =
  changes_between layout recordSize bps buffer ds replies ++ option_list (change_of layout recordSize bps buffer od reply).
Proof.
  intros Hl. unfold changes_between. rewrite zip_with_app, omap_app by done. cbn. by destruct (change_of _ _ _ _ _ _).
Qed.

(** ** Decoded records and their changes fit the wire *)

Lemma field_fits_any n record off : Forall is_byte record -> fits n (field record off n).
Proof.
  intros Hr. unfold fits, field. pose proof (le_value_fits (slice record off n) (Forall_slice _ _ _ _ Hr)) as F.
  unfold fits in F. assert (length (slice record off n) <= n)%nat by (unfold slice; rewrite length_take; lia).
  assert (256 ^ Z.of_nat (length (slice record off n)) <= 256 ^ Z.of_nat n) by (apply Z.pow_le_mono_r; lia). lia.
Qed.

Record decoded_fits (n : Z) (d : DecodedUsnRecord) : Prop := {
  df_usn : fits 8 (usn d);
  df_reference : fits 8 (UsnParser.fileReferenceNumber d);
  df_parent : fits 8 (UsnParser.parentFileReferenceNumber d);
  df_reason : fits 4 (reason d);
  df_timestamp : fits 8 (timestamp d);
  df_attributes : fits 4 (UsnParser.fileAttributes d);
  df_length : fits 2 (fileNameLength d) /\ fileNameLength d mod 2 = 0;
  df_name : 60 <= fileNameOffset d /\ fileNameOffset d + fileNameLength d <= n
}.

Lemma DecodeUsnRecord_fits l buffer n d : device_layout_ok l -> Forall is_byte buffer -> n <= zlen buffer ->
  DecodeUsnRecord (usn_layout l) (Some buffer) n = Ok d -> decoded_fits n d.
Proof.
  intros Hl Hb Hn Hd. destruct (DecodeUsnRecord_ids _ _ _ _ Hb Hd) as [Hf Hp].
  pose proof (DecodeUsnRecord_sound (usn_layout l) (dl_usn l Hl) buffer n Hb Hn) as Hs. rewrite Hd in Hs.
  destruct Hs as [Hdecl Heven Hend (r & width & Hver & Hoff & Hfields)].
  assert (60 <= off_FileName r) by (destruct (dl_names l Hl), Hver as [(_ & -> & _)|(_ & -> & _)]; done).
  constructor; try done; try (rewrite Hfields; by apply field_fits_any).
  - split; [rewrite Hfields; by apply field_fits_any|done].
  - lia.
Qed.

Lemma usn_name_ok buffer offset n d : Forall is_byte buffer -> 0 <= offset -> offset + n <= zlen buffer -> decoded_fits n d ->
  exists name, usn_name buffer offset d = Ok name /\ Forall is_unit name /\ zlen name < 65536.
Proof.
  intros Hb Ho Hn [_ _ _ _ _ _ [[? Hlen] Heven] [? Hname]]. change (256 ^ Z.of_nat 2) with 65536 in Hlen.
  pose proof (Z.div_mod (fileNameLength d) 2). unfold usn_name. rewrite load_Ok by lia. cbn [bind].
  eexists. split; [done|]. split; [apply decode_units_are_units; [by apply Forall_slice|apply length_slice; lia]|].
  unfold zlen. rewrite length_decode_units. lia.
Qed.

Lemma delta_ok (f : UsnDeltaFixedV3) name : struct_ok f -> u3_fileNameLengthChars f = wrap16 (zlen name) -> zlen name < 65536 ->
  Forall is_unit name -> HasUnknownMaskBits (u3_fieldMask f) = false -> IsFileNameLengthValid (u3_fileNameLengthChars f) = true ->
  usn3_ok (mkRecord f name).
Proof.
  intros Hs Hl Hz Hu Hm Hv. split; [|done]. split; [done|]. split; [done|]. unfold IsSerializable. cbn.
  rewrite Hv, Hl. unfold wrap16. pose proof (zlen_nonneg name). rewrite Z.mod_small by lia. apply Z.eqb_refl.
Qed.

Lemma fits2_wrap16 x : fits 2 (wrap16 x).
Proof. unfold fits, wrap16. change (256 ^ Z.of_nat 2) with 65536. apply Z.mod_pos_bound. lia. Qed.

Ltac struct_fits := unfold struct_ok; cbn; repeat (apply Forall2_cons; split; [first [done|apply fits2_wrap16|by vm_compute]|]); done.

Lemma enriched_delta_ok n d p : decoded_fits n d -> parsed_ok p ->
  IsFileNameLengthValid (u3_fileNameLengthChars (fixed (enriched_delta d p))) = true -> usn3_ok (enriched_delta d p).
Proof.
  intros [] [? ? ? ? ? ? ? [Hu Hn]] Hv. apply delta_ok; try done; [struct_fits|lia].
Qed.

Lemma plain_delta_ok n d name : decoded_fits n d -> Forall is_unit name -> zlen name < 65536 ->
  IsFileNameLengthValid (u3_fileNameLengthChars (fixed (plain_delta d name))) = true -> usn3_ok (plain_delta d name).
Proof. intros [] Hu Hn Hv. apply delta_ok; try done. struct_fits. Qed.

Lemma change_of_ok w recordSize bytesPerSector buffer offset n d t : world_ok w -> NtfsVolumeData w = Some (recordSize, bytesPerSector) ->
  Forall is_byte buffer -> 0 <= offset -> offset + n <= zlen buffer -> decoded_fits n d -> forall c,
  change_of (device_layout w) recordSize bytesPerSector buffer (offset, d) (NtfsFileRecord w t (UsnParser.fileReferenceNumber d)) = Some c ->
  usn3_ok c /\ u3_usn (fixed c) = usn d.
Proof.
  intros Hw Hg Hb Ho Hn Hd c. unfold change_of. cbn [fst snd].
  pose proof (read_reply_safe w recordSize bytesPerSector t (UsnParser.fileReferenceNumber d) Hw Hg) as Hr.
  destruct (usn_name_ok buffer offset n d Hb Ho Hn Hd) as (name & -> & Hu & Hz).
  destruct (ReadFileRecord _ _ _ _ _) as [p| |]; [|..|done].
  - destruct (IsFileNameLengthValid _) eqn:E; [|done]. intros [= <-]. split; [by eapply enriched_delta_ok|done].
  - destruct (IsFileNameLengthValid _) eqn:E; [|done]. intros [= <-]. split; [by eapply plain_delta_ok|done].
Qed.

(** ** Every frame fits *)

(** A read has at most 1092 changes: each takes 60 bytes of a buffer of 64 KB. *)
Definition most_changes : Z := 1092.

Lemma zlen_filter {A} (P : A -> Prop) `{forall x, Decision (P x)} (l : list A) : zlen (filter P l) <= zlen l.
Proof. unfold zlen. pose proof (length_filter P l). lia. Qed.

Lemma usn1_downgraded r : usn3_ok r -> record_ok (to_pair (DowngradeUsnDeltaV3ToV1 r)).
Proof.
  intros [(Hs & Hu & Hn) _]. split; [|done]. unfold struct_ok in *. cbn in *.
  repeat (apply Forall2_cons in Hs as [? Hs]). clear Hs. by repeat (apply Forall2_cons; split; [done|]).
Qed.

Lemma usn2_downgraded r : usn3_ok r -> usn2_ok (DowngradeUsnDeltaV3 r).
Proof.
  intros [(Hs & Hu & Hn) Hm]. split; [|done]. split; [|done]. unfold struct_ok in *. cbn in *.
  repeat (apply Forall2_cons in Hs as [? Hs]). clear Hs. by repeat (apply Forall2_cons; split; [done|]).
Qed.

Lemma batch_ok_downgraded {R} (P : UsnDeltaV3 -> Prop) `{forall x, Decision (P x)} (f : UsnDeltaV3 -> R) (ok : R -> Prop) records :
  (forall r, usn3_ok r -> ok (f r)) -> Forall usn3_ok records -> zlen records <= most_changes ->
  batch_ok ok (f <$> filter P records) /\ zlen (f <$> filter P records) <= most_changes.
Proof.
  intros Hf Hr Hn. assert (zlen (f <$> filter P records) <= most_changes) as Hl.
  { pose proof (zlen_filter P records). unfold zlen in *. rewrite length_fmap. lia. }
  split; [|done]. split; [|unfold most_changes, kMaxBatchRecordCount in *; lia].
  apply Forall_fmap, Forall_forall. intros r [_ Hin]%list_elem_of_filter. apply Hf. by apply (proj1 (Forall_forall _ _) Hr).
Qed.

Lemma journal_message_acceptable volumeId v records latestUsn : fits 4 volumeId -> fits 8 latestUsn -> Forall usn3_ok records ->
  zlen records <= most_changes -> acceptable (journal_message volumeId v records latestUsn).
Proof.
  intros Hid Hu Hr Hn. unfold journal_message. destruct (_ =? 1); [|destruct (ProtocolSupportsAllocatedSize v); cbn [negb]].
  - destruct (batch_ok_downgraded (fun r => IsRepresentableInLegacyV1 r = true) DowngradeUsnDeltaV3ToV1
      (fun r => record_ok (to_pair r)) records usn1_downgraded Hr Hn) as [Hok Hl].
    apply (acceptable_small _ 1000000); [done| |by vm_compute]. cbn [frame_of snd]. unfold SendJournalBatchV1. rewrite zlen_app, zlen_struct_bytes.
    change (sizeof JournalRecordBatchHeader) with 16. unfold SerializeUsnDeltaBatch.
    pose proof (zlen_SerializeBatch (F := UsnDeltaFixedV1) (DowngradeUsnDeltaV3ToV1 <$> filter (fun r => IsRepresentableInLegacyV1 r = true) records)) as Hz.
    change (sizeof UsnDeltaFixedV1) with 50 in Hz. unfold most_changes, UsnDeltaV1 in *. lia.
  - assert (batch_ok usn3_ok records) as Hok by (split; [done|unfold most_changes, kMaxBatchRecordCount in *; lia]).
    apply (acceptable_small _ 1000000); [done| |by vm_compute]. cbn [frame_of snd]. unfold SendJournalBatchV3. rewrite zlen_app, zlen_struct_bytes.
    change (sizeof JournalRecordBatchVHeader) with 18. unfold SerializeUsnDeltaV3Batch.
    pose proof (zlen_SerializeBatch (F := UsnDeltaFixedV3) records) as Hz.
    change (sizeof UsnDeltaFixedV3) with 86 in Hz. unfold most_changes, UsnDeltaV3 in *. lia.
  - destruct (batch_ok_downgraded (fun r => IsRepresentableInUsnV2 r = true) DowngradeUsnDeltaV3
      usn2_ok records usn2_downgraded Hr Hn) as [Hok Hl].
    apply (acceptable_small _ 1000000); [done| |by vm_compute]. cbn [frame_of snd]. unfold SendJournalBatchV2. rewrite zlen_app, zlen_struct_bytes.
    change (sizeof JournalRecordBatchVHeader) with 18. unfold SerializeUsnDeltaV2Batch.
    pose proof (zlen_SerializeBatch (F := UsnDeltaFixedV2) (DowngradeUsnDeltaV3 <$> filter (fun r => IsRepresentableInUsnV2 r = true) records)) as Hz.
    change (sizeof UsnDeltaFixedV2) with 78 in Hz. unfold most_changes, UsnDeltaV2 in *. lia.
Qed.

(** ** One read *)

Section runs.
Context (w : world) (world_fine : world_ok w) (volumeId : Z) (id_fits : fits 4 volumeId) (v : ProtocolVersion).
Context (recordSize bytesPerSector : Z) (geometry : NtfsVolumeData w = Some (recordSize, bytesPerSector)).
Let layout := device_layout w.
Let between := changes_between layout recordSize bytesPerSector.

(** Inside a buffer read at [start], with the records [rest] still to decode; [frames] are on the wire. *)
Record in_read (frames : list service_message) (before : list journal_read) (buffer : list Z) (start offset : Z)
    (rest : list (Z * DecodedUsnRecord)) (st : reading_state) (s : io) : Prop := {
  ir_frames : wrote (trace s) = frames;
  ir_read : exists seen replies, reads (trace s) = mkRead start buffer replies :: before /\ length replies = length seen /\
    seen ++ rest = decodings (usn_layout layout) buffer /\ changes st = between buffer seen replies;
  ir_latest : forall c, last (changes st) = Some c -> latestUsnInBatch st = u3_usn (fixed c);
  ir_fits : fits 8 (latestUsnInBatch st);
  ir_changes : Forall usn3_ok (changes st);
  ir_count : 60 * zlen (changes st) <= offset - 8
}.

Lemma in_read_weaken frames before buffer start offset offset' rest st s : offset <= offset' ->
  in_read frames before buffer start offset rest st s -> in_read frames before buffer start offset' rest st s.
Proof. intros Ho []. constructor; (done || lia). Qed.

Lemma TryReenrichFromMft_wp frn (Q : option ParsedMftRecord -> io -> Prop) s :
  let reply := NtfsFileRecord w (now s) frn in
  (forall p, ReadFileRecord layout recordSize bytesPerSector frn reply = Ok p -> Q (Some p) (observe (Fetched frn reply) s)) ->
  (ReadFileRecord layout recordSize bytesPerSector frn reply = Reject -> Q None (observe (Fetched frn reply) s)) ->
  wp (TryReenrichFromMft w recordSize bytesPerSector frn) Q s.
Proof.
  intros reply Hok Hrej. unfold TryReenrichFromMft. apply wp_andThen. cbn. eapply wp_reading; [by apply read_reply_safe| |].
  - intros p Hp _. by apply Hok.
  - done.
Qed.

(** The change the code makes of a record is the change of the trace. *)
Lemma read_record_change buffer offset n d st s : Forall is_byte buffer -> 0 <= offset -> offset + n <= zlen buffer -> decoded_fits n d ->
  let reply := NtfsFileRecord w (now s) (UsnParser.fileReferenceNumber d) in
  wp (read_record w recordSize bytesPerSector buffer offset d st) (fun st' s' => s' = observe (Fetched (UsnParser.fileReferenceNumber d) reply) s /\
    st' = match change_of layout recordSize bytesPerSector buffer (offset, d) reply with
          | Some c => mkReading (changes st ++ [c]) (usn d) | None => st end) s.
Proof.
  intros Hb Ho Hn Hd reply. unfold read_record. apply wp_andThen, TryReenrichFromMft_wp; fold reply; intros Hr; unfold change_of; cbn [fst snd].
  - intros Hp. rewrite Hp. apply wp_andThen, wp_pure, wp_pure. split; [done|]. by destruct (IsFileNameLengthValid _).
  - rewrite Hr. destruct (usn_name_ok buffer offset n d Hb Ho Hn Hd) as (name & Hname & _ & _). rewrite Hname.
    apply wp_andThen, wp_andThen. cbn. split; [done|]. by destruct (IsFileNameLengthValid _).
Qed.

Lemma read_record_wp frames before buffer start offset n d rest st s : Forall is_byte buffer -> 0 <= offset -> offset + n <= zlen buffer ->
  decoded_fits n d -> in_read frames before buffer start offset ((offset, d) :: rest) st s ->
  wp (read_record w recordSize bytesPerSector buffer offset d st) (in_read frames before buffer start (offset + n) rest) s.
Proof.
  intros Hb Ho Hn Hd [Hf (seen & replies & Hr & Hl & Hs & Hc) Hlat Hfit Hok Hcnt].
  eapply run_mono; [by apply (read_record_change buffer offset n)|]. intros st' s' [-> ->].
  set (reply := NtfsFileRecord w (now s) (UsnParser.fileReferenceNumber d)).
  assert (exists seen' replies', reads (trace (observe (Fetched (UsnParser.fileReferenceNumber d) reply) s)) = mkRead start buffer replies' :: before /\
    length replies' = length seen' /\ seen' ++ rest = decodings (usn_layout layout) buffer /\
    between buffer seen' replies' = changes st ++ option_list (change_of layout recordSize bytesPerSector buffer (offset, d) reply)) as
    (seen' & replies' & Hr' & Hl' & Hs' & Hc').
  { exists (seen ++ [(offset, d)]), (replies ++ [reply]). cbn [trace observe]. rewrite reads_snoc, Hr, !length_app, Hl, <-app_assoc.
    repeat split; [done|]. unfold between. by rewrite changes_between_snoc, Hc. }
  assert (0 < n) by (destruct (df_name _ _ Hd), (df_length _ _ Hd) as [[? _] _]; lia).
  destruct (change_of _ _ _ _ _ _) as [c|] eqn:Ec; cbn [option_list] in Hc'.
  - destruct (change_of_ok w recordSize bytesPerSector buffer offset n d (now s) world_fine geometry Hb Ho Hn Hd c Ec) as [Hcok Hcu].
    constructor; cbn [changes latestUsnInBatch].
    + cbn [trace observe]. rewrite wrote_snoc. cbn. by rewrite app_nil_r.
    + exists seen', replies'. auto.
    + intros c'. rewrite last_snoc. intros [= <-]. done.
    + apply Hd.
    + apply Forall_app. auto.
    + rewrite zlen_app, zlen_cons, zlen_nil. destruct (df_name _ _ Hd), (df_length _ _ Hd) as [[? _] _]. lia.
  - constructor; try done; [| |lia].
    + cbn [trace observe]. rewrite wrote_snoc. cbn. by rewrite app_nil_r.
    + exists seen', replies'. rewrite app_nil_r in Hc'. auto.
Qed.

Lemma common_bounds : let u := usn_layout layout in 0 < common_size u /\ inside (off_RecordLength u) 4 (common_size u).
Proof. destruct (dl_usn _ (wo_layout w world_fine)) as ([??] & _). unfold inside. subst layout. cbn zeta. lia. Qed.

Lemma read_buffer_wp frames before buffer start fuel offset st s : Forall is_byte buffer -> 8 <= offset <= zlen buffer ->
  zlen buffer - offset <= Z.of_nat fuel -> in_read frames before buffer start offset (decodings_from (usn_layout layout) fuel buffer offset) st s ->
  wp (read_buffer w recordSize bytesPerSector fuel buffer offset st)
    (fun st' s' => exists offset', offset' <= zlen buffer /\ in_read frames before buffer start offset' [] st' s') s.
Proof.
  intros Hbytes. revert offset st s. destruct common_bounds as (H0 & [??]).
  induction fuel as [|fuel IH]; intros offset st s Ho Hfuel Hin; cbn [read_buffer]; fold layout;
    (destruct (Z.leb_spec (offset + common_size (usn_layout layout)) (zlen buffer)) as [Hle|Hgt]; cbn [negb];
     [|apply wp_pure; exists offset; split; [lia|]; cbn [decodings_from] in Hin; try done;
       rewrite (proj2 (Z.leb_gt _ _)) in Hin by lia; done]);
    [lia|].
  rewrite ReadU32_field by lia. set (recordLength := field _ _ 4). cbn [decodings_from] in Hin. fold recordLength in Hin.
  apply wp_andThen. cbn [reading wp]. rewrite (proj2 (Z.leb_le _ _)) in Hin by lia. cbn [negb orb] in Hin.
  destruct (_ || _) eqn:Em; [apply wp_pure; exists offset; split; [lia|done]|]. bool_prop.
  assert (0 <= recordLength) by (subst recordLength; apply (field_fits buffer (offset + off_RecordLength (usn_layout layout)) 4 Hbytes); lia).
  assert (zlen (drop (Z.to_nat offset) buffer) = zlen buffer - offset) as Hz by (unfold zlen in *; rewrite length_drop; lia).
  assert (Forall is_byte (drop (Z.to_nat offset) buffer)) as Hdrop by by apply Forall_drop.
  pose proof (DecodeUsnRecord_sound _ (dl_usn _ (wo_layout w world_fine)) (drop (Z.to_nat offset) buffer) recordLength Hdrop ltac:(lia)) as Hsafe.
  fold layout in Hsafe. apply wp_andThen. eapply wp_reading; [exact Hsafe| |].
  - intros d Hd _. rewrite Hd in Hin. eapply run_bind.
    + apply (read_record_wp frames before buffer start offset recordLength); [done|lia|lia| |exact Hin].
      eapply DecodeUsnRecord_fits; [apply (wo_layout w world_fine)|done|lia|done].
    + intros st' s' Hin'. apply IH; [lia|lia|exact Hin'].
  - intros Hd. rewrite Hd in Hin. apply wp_andThen, wp_pure, IH; [lia|lia|]. eapply in_read_weaken; [|exact Hin]. lia.
Qed.

(** ** The stream *)

Let frame := read_frame layout recordSize bytesPerSector volumeId v.

(** The frames of reads, the latest read first. *)
Definition frames_of (rs : list journal_read) : list service_message := omap frame (rev rs).

Lemma frames_of_cons r rs : frames_of (r :: rs) = frames_of rs ++ option_list (frame r).
Proof. unfold frames_of. cbn [rev]. rewrite omap_app. cbn. by destruct (frame r). Qed.

Section follow.
Context (opened : service_message) (resume : Z).

(** Before every read: the reads so far were followed up and their changes are on the wire. *)
Record following (start latest : Z) (s : io) : Prop := {
  fl_frames : wrote (trace s) = opened :: frames_of (reads (trace s));
  fl_chain : read_chain layout resume (reads (trace s)) start;
  fl_latest : fits 8 latest;
  fl_ok : Forall acceptable (wrote (trace s))
}.

(** After the stream. *)
Record followed (outcome : JournalStreamOutcome) (s : io) : Prop := {
  fd_ok : Forall acceptable (wrote (trace s));
  fd_stream : exists start, read_chain layout resume (reads (trace s)) start /\
    (wrote (trace s) = opened :: frames_of (reads (trace s)) /\
       (outcome = ResumePositionInvalid -> exists error, last_journal_reply (trace s) = Some (start, DeviceError error) /\
          (error = ERROR_JOURNAL_ENTRY_DELETED \/ error = ERROR_INVALID_PARAMETER)) \/
     exists r rs m, reads (trace s) = r :: rs /\ frame r = Some m /\ NotWritten m ∈ trace s /\
       wrote (trace s) = opened :: frames_of rs /\ outcome = Ended)
}.

Definition silent (e : event) : Prop := match e with Polled _ | Slept => True | _ => False end.

Lemma following_silent start latest s e : silent e -> following start latest s -> following start latest (observe e s).
Proof. intros He []. destruct e; try done; constructor; cbn [trace observe]; rewrite ?wrote_snoc, ?reads_snoc, ?app_nil_r; cbn; rewrite ?app_nil_r; done. Qed.

Lemma followed_Ended start latest s : following start latest s -> followed Ended s.
Proof. intros []. constructor; [done|]. exists start. split; [done|]. left. done. Qed.

Lemma idle_wait_wp n start latest s : following start latest s -> wp (idle_wait w n) (fun _ s' => following start latest s') s.
Proof.
  revert s. induction n as [|n IH]; intros s Hf; cbn [idle_wait]; [done|]. apply wp_andThen, wp_poll. intros b _.
  apply (following_silent _ _ _ (Polled b)) in Hf; [|done]. destruct b; [by apply wp_pure|]. apply wp_andThen. cbn.
  apply IH. by apply following_silent.
Qed.

(** Entering a read. *)
Lemma in_read_enter buffer start latest s : following start latest s -> 8 <= zlen buffer ->
  in_read (wrote (trace s)) (reads (trace s)) buffer start 8 (decodings (usn_layout layout) buffer) (mkReading [] latest)
    (observe (JournalRead start (DeviceBuffer buffer)) s).
Proof.
  intros Hf Hl. constructor; cbn [trace observe changes latestUsnInBatch]; try done; [..|apply Hf].
  - rewrite wrote_snoc. cbn. by rewrite app_nil_r.
  - exists [], []. rewrite reads_snoc. cbn [add_read]. rewrite (proj2 (Z.leb_le _ _)) by lia. done.
Qed.

(** Leaving it: its frame is the one the code writes, if it has changes. *)
Lemma in_read_leave buffer start latest s0 offset st s : following start latest s0 -> Forall is_byte buffer -> 8 <= zlen buffer <= 65536 -> offset <= zlen buffer ->
  in_read (wrote (trace s0)) (reads (trace s0)) buffer start offset [] st s ->
  exists r, reads (trace s) = r :: reads (trace s0) /\ read_chain layout resume (reads (trace s)) (to_signed64 (field buffer 0 8)) /\
    fits 8 (latestUsnInBatch st) /\ wrote (trace s) = wrote (trace s0) /\ zlen (changes st) <= most_changes /\ Forall usn3_ok (changes st) /\
    frame r = if zlen (changes st) =? 0 then None else Some (journal_message volumeId v (changes st) (latestUsnInBatch st)).
Proof.
  intros Hf Hbytes Hsize Ho [Hfr (seen & replies & Hr & Hl & Hs & Hc) Hlat Hfit Hok Hcnt]. rewrite app_nil_r in Hs.
  exists (mkRead start buffer replies). split; [done|]. split.
  { rewrite Hr. apply (read_chain_next _ _ (mkRead start buffer replies)); [apply Hf|cbn; by rewrite Hl, Hs|done|cbn; lia]. }
  split; [done|]. split; [done|]. split; [unfold most_changes; lia|]. split; [done|].
  unfold frame, read_frame, changes_of. cbn [r_buffer r_replies]. rewrite <-Hs. fold between. rewrite <-Hc.
  destruct (changes st) as [|c cs] eqn:E using rev_ind; [done|]. rewrite last_snoc. cbn [fmap option_fmap option_map].
  rewrite (Hlat c) by apply last_snoc. destruct (Z.eqb_spec (zlen (cs ++ [c])) 0) as [Hz|]; [|done].
  rewrite zlen_app, zlen_cons, zlen_nil in Hz. pose proof (zlen_nonneg cs). lia.
Qed.

Lemma last_journal_reply_snoc t start reply : last_journal_reply (t ++ [JournalRead start reply]) = Some (start, reply).
Proof. unfold last_journal_reply. rewrite omap_app. apply last_snoc. Qed.

(** A reply that holds no read. *)
Lemma followed_reply outcome start latest s reply : following start latest s ->
  (forall buffer, reply = DeviceBuffer buffer -> zlen buffer < 8) ->
  (outcome = ResumePositionInvalid -> exists error, reply = DeviceError error /\ (error = ERROR_JOURNAL_ENTRY_DELETED \/ error = ERROR_INVALID_PARAMETER)) ->
  followed outcome (observe (JournalRead start reply) s).
Proof.
  intros [Hf Hc Hl Hok] Hshort Hout. assert (reads (trace s ++ [JournalRead start reply]) = reads (trace s)) as Hr.
  { rewrite reads_snoc. destruct reply as [|buffer]; [done|]. cbn [add_read]. by rewrite (proj2 (Z.leb_gt _ _)) by by apply Hshort. }
  assert (wrote (trace s ++ [JournalRead start reply]) = wrote (trace s)) as Hw by (rewrite wrote_snoc; apply app_nil_r).
  constructor; cbn [trace observe]; rewrite ?Hw, ?Hr; [done|]. exists start. split; [done|]. left. split; [done|].
  intros (error & -> & He)%Hout. exists error. by rewrite last_journal_reply_snoc.
Qed.

Lemma follow_wp fuel start latest s : following start latest s ->
  wp (follow w volumeId v recordSize bytesPerSector fuel start latest) followed s.
Proof.
  revert start latest s. induction fuel as [|fuel IH]; intros start latest s Hf; cbn [follow].
  all: apply wp_andThen, wp_poll; intros b _; apply (following_silent _ _ _ (Polled b)) in Hf; [|done].
  all: destruct b; [apply wp_pure; by eapply followed_Ended|].
  { done. }
  set (s1 := observe (Polled false) s) in *. apply wp_andThen.
  change (wp (ask_journal w start) ?Q s1) with (Q (ReadUsnJournal w (now s1) start) (observe (JournalRead start (ReadUsnJournal w (now s1) start)) s1)).
  destruct (ReadUsnJournal w (now s1) start) as [error|buffer] eqn:Ereply.
  { apply wp_pure. eapply followed_reply; [done|done|]. destruct (_ || _) eqn:E; [|done]. intros _. exists error. split; [done|].
    apply orb_true_iff in E as [->%Z.eqb_eq| ->%Z.eqb_eq]; auto. }
  destruct (wo_journal w world_fine _ _ _ Ereply) as [Hbytes Hsize].
  destruct (Z.ltb_spec (zlen buffer) 8) as [Hshort|Hlong]; [apply wp_pure; eapply followed_reply; [done|by intros ? [= <-]|done]|].
  rewrite ReadU64_field by lia. apply wp_andThen. cbn [reading wp].
  eapply run_bind; [apply read_buffer_wp; [done|lia|unfold zlen; lia|by apply (in_read_enter buffer start latest)]|].
  intros st s2 (offset & Ho & Hin).
  destruct (in_read_leave buffer start latest s1 offset st s2 Hf Hbytes ltac:(lia) Ho Hin) as (r & Hr & Hchain & Hlat & Hw & Hmost & Hok & Hframe).
  assert (Forall acceptable (wrote (trace s2))) as Hacc by (rewrite Hw; apply Hf).
  destruct (zlen (changes st) =? 0).
  - eapply run_bind; [apply (idle_wait_wp _ (to_signed64 (field buffer 0 8)) (latestUsnInBatch st))|intros ? s3; apply IH].
    constructor; [|done..]. rewrite Hr, frames_of_cons, Hframe, Hw, (fl_frames _ _ _ Hf). cbn. by rewrite app_nil_r.
  - assert (acceptable (journal_message volumeId v (changes st) (latestUsnInBatch st))) as Hm by by apply journal_message_acceptable.
    apply wp_andThen. unfold SendJournalBatch. apply wp_write; [intros _; apply IH|apply wp_pure].
    + constructor; cbn [trace observe]; rewrite ?wrote_snoc, ?reads_snoc; cbn [add_read written]; [|done|done|apply Forall_app; split; [done|by apply Forall_singleton]].
      rewrite Hr, frames_of_cons, Hframe, Hw, (fl_frames _ _ _ Hf). done.
    + constructor; cbn [trace]; rewrite ?wrote_snoc, ?reads_snoc; cbn [add_read written]; rewrite ?app_nil_r; [done|].
      eexists. split; [done|]. right. exists r, (reads (trace s1)). eexists. split; [done|]. split; [done|].
      split; [apply not_written_last|]. split; [|done]. by rewrite Hw, (fl_frames _ _ _ Hf).
Qed.

(** ** The worker ends *)

Lemma bounded_read_buffer fuel buffer offset st : bounded (read_buffer w recordSize bytesPerSector fuel buffer offset st).
Proof.
  revert offset st. induction fuel as [|fuel IH]; intros offset st; cbn [read_buffer]; solve_bounded; done.
Qed.

Lemma bounded_idle_wait n : bounded (idle_wait w n).
Proof. induction n as [|n IH]; cbn [idle_wait]; solve_bounded. Qed.

(** The stop flag is raised before the fuel is used up. *)
Lemma follow_total fuel start latest s : shouldStop w (now s + fuel)%nat = true ->
  follow w volumeId v recordSize bytesPerSector fuel start latest s <> Exhausted.
Proof.
  revert start latest s. induction fuel as [|fuel IH]; intros start latest s Hs; cbn [follow]; unfold andThen at 1, poll at 1.
  { rewrite Nat.add_0_r in Hs. by rewrite Hs. }
  destruct (shouldStop w (now s)); [done|]. unfold andThen at 1, ask_journal.
  destruct (ReadUsnJournal _ _ _) as [error|buffer]; [done|]. case_match; [done|].
  set (s1 := observe _ (observe _ s)). assert (now s1 = S (S (now s))) as Hn by (unfold s1; by rewrite !now_observe).
  clearbody s1. unfold andThen at 1, reading. destruct (ReadU64 buffer 0) as [next| |]; [|done..].
  assert (forall start latest s', (now s1 <= now s')%nat -> follow w volumeId v recordSize bytesPerSector fuel start latest s' <> Exhausted) as Hnext.
  { intros ? ? s' Hle. apply IH. eapply wo_stop; [done| |exact Hs]. lia. }
  pose proof (bounded_read_buffer (length buffer) buffer 8 (mkReading [] latest) s1) as Hb. unfold andThen at 1.
  destruct (read_buffer _ _ _ _ _ _ _ s1) as [st s2| |]; [|done..]. case_match.
  - pose proof (bounded_idle_wait idle_slices s2) as Hi. unfold andThen. destruct (idle_wait _ _ s2) as [[] s3| |]; [|done..]. apply Hnext. lia.
  - pose proof (bounded_write w (journal_message volumeId v (changes st) (latestUsnInBatch st)) s2) as Hi.
    unfold andThen, SendJournalBatch. destruct (WriteFrameWithDeadline _ _ s2) as [[] s3| |]; [|done..]. apply Hnext. lia.
Qed.
End follow.
End runs.

(** ** Whole streams *)

Definition sector_bytes (w : world) : Z := match NtfsVolumeData w with Some (_, sector) => sector | None => 0 end.

(** What the frames of a journal worker are: nothing when the journal could not be opened, else the opening
    and the changes of the reads. *)
Definition journal_stream (w : world) (volumeId resumeUsn : Z) (v : ProtocolVersion) (outcome : JournalStreamOutcome) (s : io) : Prop :=
  (outcome = Ended /\ wrote (trace s) = [] /\ reads (trace s) = []) \/
  exists data, JournalQueried (JournalIs data) ∈ trace s /\ followed w volumeId v (record_size w) (sector_bytes w)
    (JournalOpened volumeId (UsnJournalID data) (to_unsigned64 (NextUsn data))) (to_signed64 resumeUsn) outcome s.

Section whole.
Context (w : world) (world_fine : world_ok w) (volumeId : Z) (id_fits : fits 4 volumeId) (v : ProtocolVersion).
Context (resumeUsn : Z) (usn_fits : fits 8 resumeUsn).

(** Nothing but queries of the journal so far. *)
Definition untouched (s : io) : Prop := wrote (trace s) = [] /\ reads (trace s) = [].

Lemma untouched_observe e s : written e = None -> add_read [] e = [] -> untouched s -> untouched (observe e s).
Proof. intros He Hr [Hw Hs]. split; cbn [trace observe]; [by rewrite wrote_snoc, He, Hw|by rewrite reads_snoc, Hs]. Qed.

Lemma QueryOrCreateUsnJournal_wp s : untouched s ->
  wp (QueryOrCreateUsnJournal w) (fun journal s' => untouched s' /\ forall data, journal = Some data ->
    fits 8 (UsnJournalID data) /\ JournalQueried (JournalIs data) ∈ trace s') s.
Proof.
  intros Hs. unfold QueryOrCreateUsnJournal. apply wp_andThen, wp_ask_query. intros reply E.
  apply (untouched_observe (JournalQueried reply)) in Hs; [|done..]. destruct reply as [error|data].
  2:{ apply wp_pure. split; [done|]. intros ? [= <-]. split; [by eapply wo_query|]. apply elem_of_app. right. by apply list_elem_of_singleton. }
  destruct (_ =? _); [|by apply wp_pure]. apply wp_andThen, wp_ask_create. intros created _.
  apply (untouched_observe (JournalCreated created)) in Hs; [|done..].
  destruct created; [|by apply wp_pure]. apply wp_andThen, wp_ask_query. intros reply E2.
  apply (untouched_observe (JournalQueried reply)) in Hs; [|done..]. apply wp_pure.
  split; [done|]. intros data Hd. destruct reply as [|data']; [done|]. injection Hd as ->. split; [by eapply wo_query|].
  apply elem_of_app. right. by apply list_elem_of_singleton.
Qed.

Lemma grows_follow size sector fuel start latest : grows (follow w volumeId v size sector fuel start latest).
Proof.
  assert (forall fuel buffer offset st, grows (read_buffer w size sector fuel buffer offset st)) as Hr.
  { intros n buffer. induction n as [|n IH]; intros offset st; cbn [read_buffer]; unfold read_record, TryReenrichFromMft; solve_grows; try done. }
  assert (forall n, grows (idle_wait w n)) as Hi by (intros n; induction n as [|n IH]; cbn [idle_wait]; solve_grows).
  revert start latest. induction fuel as [|fuel IH]; intros start latest; cbn [follow]; unfold SendJournalBatch; solve_grows; try done.
Qed.

Lemma RunUsnJournalStream_wp fuel f :
  wp (RunUsnJournalStream w fuel volumeId resumeUsn v) (journal_stream w volumeId resumeUsn v) (mkIo [] f).
Proof.
  unfold RunUsnJournalStream. repeat (case_match; [apply wp_pure; by left|]).
  eapply run_bind; [by apply QueryOrCreateUsnJournal_wp|]. intros [data|] s [[Hw Hr] Hdata]; [|apply wp_pure; by left].
  destruct (Hdata data eq_refl) as [Hid Hq].
  apply wp_andThen, wp_write; cbn [negb].
  2:{ apply wp_pure. left. cbn [trace]. rewrite wrote_snoc, reads_snoc, Hw, Hr. done. }
  intros _. set (opened := JournalOpened _ _ _). set (s1 := observe _ s).
  assert (following w volumeId v (record_size w) (sector_bytes w) opened (to_signed64 resumeUsn) (to_signed64 resumeUsn) resumeUsn s1) as Hf.
  { assert (reads (trace s1) = []) as Hr1 by (cbn [s1 trace observe]; by rewrite reads_snoc, Hr).
    assert (wrote (trace s1) = [opened]) as Hw1 by (cbn [s1 trace observe]; by rewrite wrote_snoc, Hw).
    constructor; rewrite ?Hr1, ?Hw1; [done|constructor|done|]. apply Forall_singleton.
    apply (acceptable_small _ 20); [|by vm_compute..]. split; [done|]. split; [done|apply fits_unsigned64]. }
  assert (JournalQueried (JournalIs data) ∈ trace s1) as Hq1 by (apply elem_of_app; by left).
  destruct (NtfsVolumeData w) as [[size sector]|] eqn:Eg; [|apply wp_pure; right; exists data; split; [done|by eapply followed_Ended]].
  assert (record_size w = size) as Hsize by (unfold record_size; by rewrite Eg).
  assert (sector_bytes w = sector) as Hsector by (unfold sector_bytes; by rewrite Eg).
  case_match; [apply wp_pure; right; exists data; split; [done|by eapply followed_Ended]|].
  rewrite Hsize, Hsector in Hf. eapply run_mono.
  { apply wp_grows; [apply grows_follow|by apply (follow_wp w world_fine volumeId id_fits v size sector Eg opened (to_signed64 resumeUsn))]. }
  intros outcome s' [Hd Hpre]. right. exists data. rewrite Hsize, Hsector. split; [|done]. by eapply elem_of_prefix.
Qed.

Lemma RunUsnJournalStream_total fuel f : shouldStop w fuel = true -> RunUsnJournalStream w fuel volumeId resumeUsn v (mkIo [] f) <> Exhausted.
Proof.
  intros Hs. unfold RunUsnJournalStream. repeat (case_match; [done|]).
  assert (bounded (QueryOrCreateUsnJournal w)) as Hq by (unfold QueryOrCreateUsnJournal; solve_bounded).
  specialize (Hq (mkIo [] f)). unfold andThen at 1. destruct (QueryOrCreateUsnJournal w _) as [[data|] s| |]; [|done..].
  pose proof (bounded_write w (JournalOpened volumeId (UsnJournalID data) (to_unsigned64 (NextUsn data))) s) as Hb.
  unfold andThen. destruct (WriteFrameWithDeadline _ _ s) as [[] s1| |]; [|done..]. cbn [negb].
  destruct (NtfsVolumeData w) as [[size sector]|]; [|done]. case_match; [done|].
  apply (follow_total w world_fine). eapply wo_stop; [done| |exact Hs]. lia.
Qed.
End whole.

(** ** The stream as its reader may take it *)

(** Where a change takes its fields from: the MFT record of the file, or, without one, the journal, with the name it has there. *)
Inductive source :=
| FromMft (p : ParsedMftRecord)
| FromJournal (name : list Z).

Definition change : Type := DecodedUsnRecord * source.

Definition name_in (src : source) : list Z := match src with FromMft p => MftParser.fileName p | FromJournal name => name end.

(** The name has a length the wire can carry. *)
Definition nameable (src : source) : Prop := 1 <= zlen (name_in src) mod 65536 <= 255.

Definition current (src : source) : Prop := match src with FromMft _ => True | FromJournal _ => False end.

Definition deletes (c : change) : Prop := Z.testbit (reason c.1) 9 = true.   (* USN_REASON_FILE_DELETE *)

#[export] Instance current_dec src : Decision (current src).
Proof. destruct src; cbn; apply _. Defined.
#[export] Instance deletes_dec c : Decision (deletes c).
Proof. unfold deletes. apply _. Defined.

(** The record of a change in the three versions of the protocol.  A mask of 255 says that every field is known, 83 that the parent, the
    name, the modification time and the attributes are. *)
Definition tells3 (c : change) (r : UsnDeltaV3) : Prop :=
  let f := fixed r in
  u3_usn f = usn c.1 /\ u3_fileReferenceNumber f = UsnParser.fileReferenceNumber c.1 /\ u3_reason f = reason c.1 /\
  u3_timestamp f = timestamp c.1 /\ Records.fileName r = name_in c.2 /\ u3_fileNameLengthChars f = zlen (name_in c.2) mod 65536 /\
  match c.2 with
  | FromMft p =>
      u3_parentFileReferenceNumber f = MftParser.parentFileReferenceNumber p /\ u3_creationTime f = creationTime p /\
      u3_lastModifiedTime f = lastModifiedTime p /\ u3_lastAccessTime f = lastAccessTime p /\ u3_sizeBytes f = sizeBytes p /\
      u3_allocatedSizeBytes f = allocatedSizeBytes p /\ u3_fileAttributes f = MftParser.fileAttributes p /\ u3_fieldMask f = 255
  | FromJournal _ =>
      u3_parentFileReferenceNumber f = UsnParser.parentFileReferenceNumber c.1 /\ u3_creationTime f = 0 /\
      u3_lastModifiedTime f = timestamp c.1 /\ u3_lastAccessTime f = 0 /\ u3_sizeBytes f = 0 /\
      u3_allocatedSizeBytes f = 0 /\ u3_fileAttributes f = UsnParser.fileAttributes c.1 /\ u3_fieldMask f = 83
  end.

(** Only changes from the journal are sent in this version. *)
Definition tells2 (c : change) (r : UsnDeltaV2) : Prop :=
  let f := fixed r in
  u2_usn f = usn c.1 /\ u2_fileReferenceNumber f = UsnParser.fileReferenceNumber c.1 /\ u2_reason f = reason c.1 /\
  u2_timestamp f = timestamp c.1 /\ Records.fileName r = name_in c.2 /\ u2_fileNameLengthChars f = zlen (name_in c.2) mod 65536 /\
  u2_parentFileReferenceNumber f = UsnParser.parentFileReferenceNumber c.1 /\ u2_creationTime f = 0 /\
  u2_lastModifiedTime f = timestamp c.1 /\ u2_lastAccessTime f = 0 /\ u2_sizeBytes f = 0 /\
  u2_fileAttributes f = UsnParser.fileAttributes c.1 /\ u2_fieldMask f = 83.

Definition tells1 (c : change) (r : UsnDeltaV1) : Prop :=
  let f := fixed r in
  u1_usn f = usn c.1 /\ u1_fileReferenceNumber f = UsnParser.fileReferenceNumber c.1 /\ u1_reason f = reason c.1 /\
  u1_timestamp f = timestamp c.1 /\ Records.fileName r = name_in c.2 /\ u1_fileNameLengthChars f = zlen (name_in c.2) mod 65536 /\
  match c.2 with
  | FromMft p =>
      u1_parentFileReferenceNumber f = MftParser.parentFileReferenceNumber p /\ u1_sizeBytes f = sizeBytes p /\
      u1_fileAttributes f = MftParser.fileAttributes p
  | FromJournal _ =>
      u1_parentFileReferenceNumber f = UsnParser.parentFileReferenceNumber c.1 /\ u1_sizeBytes f = 0 /\
      u1_fileAttributes f = UsnParser.fileAttributes c.1
  end.

Section reader.
Context (layout : DeviceLayout) (recordSize bytesPerSector volumeId : Z) (v : ProtocolVersion).
Let usns := usn_layout layout.

Definition length_in (buffer : list Z) (o : Z) : Z := field buffer (o + off_RecordLength usns) 4.

(** The record at an offset of a buffer is well formed: [d] has its fields. *)
Definition decodes (buffer : list Z) (o : Z) (d : DecodedUsnRecord) : Prop :=
  decoded_ok usns (drop (Z.to_nat o) buffer) (length_in buffer o) d /\
  fits 8 (UsnParser.fileReferenceNumber d) /\ fits 8 (UsnParser.parentFileReferenceNumber d).

(** Those of the records at [offsets] that are well formed. *)
Inductive decoded_at (buffer : list Z) : list Z -> list (Z * DecodedUsnRecord) -> Prop :=
| decoded_none : decoded_at buffer [] []
| decoded_skip o os ds : (forall d, ~ decodes buffer o d) -> decoded_at buffer os ds -> decoded_at buffer (o :: os) ds
| decoded_take o d os ds : decodes buffer o d -> decoded_at buffer os ds -> decoded_at buffer (o :: os) ((o, d) :: ds).

(** The well-formed records of a read: its records follow each other from the next USN at its head, up to the end of the buffer or a
    record whose length is zero or leaves it. *)
Definition recorded (buffer : list Z) (ds : list (Z * DecodedUsnRecord)) : Prop := exists offsets e,
  listing (length_in buffer) (common_size usns) (zlen buffer) 8 offsets e /\
  (zlen buffer < e + common_size usns \/ length_in buffer e = 0 \/ zlen buffer < e + length_in buffer e) /\
  decoded_at buffer offsets ds.

(** Where the change of a record takes its fields from, by the driver's reply for the file. *)
Definition sourced (buffer : list Z) (od : Z * DecodedUsnRecord) (reply : option (list Z)) (src : source) : Prop :=
  match src with
  | FromMft p => record_of layout recordSize bytesPerSector (UsnParser.fileReferenceNumber od.2) reply p
  | FromJournal name =>
      (forall p, ~ record_of layout recordSize bytesPerSector (UsnParser.fileReferenceNumber od.2) reply p) /\
      Forall is_unit name /\ encode_units name = slice buffer (od.1 + fileNameOffset od.2) (Z.to_nat (fileNameLength od.2))
  end.

(** The changes of the records: one each, in order, but for those without a usable name. *)
Inductive changed (buffer : list Z) : list (Z * DecodedUsnRecord) -> list (option (list Z)) -> list change -> Prop :=
| changed_none : changed buffer [] [] []
| changed_skip od reply src ds replies cs : sourced buffer od reply src -> ~ nameable src -> changed buffer ds replies cs ->
    changed buffer (od :: ds) (reply :: replies) cs
| changed_take od reply src ds replies cs : sourced buffer od reply src -> nameable src -> changed buffer ds replies cs ->
    changed buffer (od :: ds) (reply :: replies) ((od.2, src) :: cs).

Definition read_changes (r : journal_read) (cs : list change) : Prop :=
  exists ds, recorded (r_buffer r) ds /\ changed (r_buffer r) ds (r_replies r) cs.

(** The frame of the changes [cs]: peers from 2.1 on get every change; a 2.0 peer only those taken from the journal; a
    major-1 peer those taken from the MFT and deletions.  In each case the frame has the USN of the last change. *)
Definition carries (cs : list change) (m : service_message) : Prop :=
  exists d src, last cs = Some (d, src) /\
  match m with
  | JournalBatchV3 id latest rs => id = volumeId /\ latest = usn d /\ (2 < major v \/ major v = 2 /\ 1 <= minor v) /\ Forall2 tells3 cs rs
  | JournalBatchV2 id latest rs =>
      id = volumeId /\ latest = usn d /\ major v <> 1 /\ ~ (2 < major v \/ major v = 2 /\ 1 <= minor v) /\
      Forall2 tells2 (filter (fun c => ~ current c.2) cs) rs
  | JournalBatch id latest rs =>
      id = volumeId /\ latest = usn d /\ major v = 1 /\ Forall2 tells1 (filter (fun c => current c.2 \/ deletes c) cs) rs
  | _ => False
  end.

(** The frames of reads, the latest read first: a frame for each read with changes. *)
Inductive told : list journal_read -> list service_message -> Prop :=
| told_nothing : told [] []
| told_quiet r rs ms : read_changes r [] -> told rs ms -> told (r :: rs) ms
| told_changes r rs ms cs m : read_changes r cs -> carries cs m -> told rs ms -> told (r :: rs) (ms ++ [m]).

(** Each read starts at the USN the one before it ended with. *)
Inductive contiguous (resume : Z) : list journal_read -> Z -> Prop :=
| contiguous_start : contiguous resume [] resume
| contiguous_next r rs : contiguous resume rs (r_start r) -> contiguous resume (r :: rs) (to_signed64 (field (r_buffer r) 0 8)).
End reader.

Definition delta_of (c : change) : UsnDeltaV3 :=
  match c.2 with FromMft p => enriched_delta c.1 p | FromJournal name => plain_delta c.1 name end.

Lemma delta_named c : IsFileNameLengthValid (u3_fileNameLengthChars (fixed (delta_of c))) = true <-> nameable c.2.
Proof.
  unfold nameable, IsFileNameLengthValid, kMaxFileNameLengthChars. destruct c as [d [p|name]]; cbn; unfold wrap16;
    rewrite andb_true_iff, !Z.leb_le; done.
Qed.

Lemma delta_tells3 c : tells3 c (delta_of c).
Proof. destruct c as [d [p|name]]; repeat split. Qed.

Lemma delta_tells2 c : ~ current c.2 -> tells2 c (DowngradeUsnDeltaV3 (delta_of c)).
Proof. destruct c as [d [p|name]]; intros Hc; [by destruct Hc|]. repeat split. Qed.

Lemma delta_tells1 c : tells1 c (DowngradeUsnDeltaV3ToV1 (delta_of c)).
Proof. destruct c as [d [p|name]]; repeat split. Qed.

Lemma delete_bit x : (Z.land x kUsnReasonFileDelete =? 0) = negb (Z.testbit x 9).
Proof.
  change kUsnReasonFileDelete with (2 ^ 9). destruct (Z.testbit x 9) eqn:E; cbn [negb].
  - apply Z.eqb_neq. intros H. assert (Z.testbit (Z.land x (2 ^ 9)) 9 = true) as Hb by (rewrite Z.land_spec, E; done). by rewrite H in Hb.
  - apply Z.eqb_eq, Z.bits_inj'. intros n Hn. rewrite Z.land_spec, Z.bits_0, Z.pow2_bits_eqb by lia.
    destruct (Z.eqb_spec 9 n) as [<-|]; [by rewrite E|apply andb_false_r].
Qed.

Lemma representable2 c : IsRepresentableInUsnV2 (delta_of c) = true <-> ~ current c.2.
Proof. destruct c as [d [p|name]]; cbn [delta_of current fst snd]; [|split; [by intros _ []|done]]. split; [done|]. by intros []. Qed.

Lemma representable1 c : IsRepresentableInLegacyV1 (delta_of c) = true <-> current c.2 \/ deletes c.
Proof.
  unfold IsRepresentableInLegacyV1, deletes. rewrite delete_bit. destruct c as [d [p|name]]; cbn [delta_of fst snd current].
  - split; [by left|]. intros _. cbn [enriched_delta fixed u3_reason u3_fieldMask]. by destruct (Z.testbit _ 9).
  - cbn [plain_delta fixed u3_reason u3_fieldMask]. destruct (Z.testbit (reason d) 9); cbn; split; try done; [by right|intros [[]|]; done].
Qed.

(** The frame built from the changes that a test keeps. *)
Lemma sent_changes {R} (P : UsnDeltaV3 -> Prop) `{forall r, Decision (P r)} (Q : change -> Prop) `{forall c, Decision (Q c)} (f : UsnDeltaV3 -> R)
    (tells : change -> R -> Prop) cs :
  (forall c, P (delta_of c) <-> Q c) -> (forall c, Q c -> tells c (f (delta_of c))) ->
  Forall2 tells (filter Q cs) (f <$> filter P (delta_of <$> cs)).
Proof.
  intros HPQ Ht. induction cs as [|c cs IH]; [constructor|]. rewrite fmap_cons, !filter_cons.
  destruct (decide (Q c)) as [Hq|Hq]; [rewrite decide_True by (by apply HPQ)|rewrite decide_False by (by rewrite HPQ)]; [|done].
  rewrite fmap_cons. constructor; auto.
Qed.

Lemma message_carries volumeId v cs d src : last cs = Some (d, src) ->
  carries volumeId v cs (journal_message volumeId v (delta_of <$> cs) (usn d)).
Proof.
  intros Hl. exists d, src. split; [done|]. unfold journal_message, ProtocolSupportsAllocatedSize. destruct (Z.eqb_spec (major v) 1) as [|Hne].
  - do 3 (split; [done|]). apply sent_changes; [apply representable1|]. intros c _. apply delta_tells1.
  - destruct (_ || _) eqn:E; cbn [negb].
    + do 2 (split; [done|]). split; [bool_prop; lia|]. rewrite <-(list_fmap_id cs) at 1. apply Forall2_fmap. apply Forall_Forall2_diag, Forall_true, delta_tells3.
    + do 3 (split; [done|]). split; [bool_prop; lia|]. apply sent_changes; [apply representable2|]. intros c. apply delta_tells2.
Qed.

Section reader_facts.
Context (w : world) (world_fine : world_ok w) (recordSize bytesPerSector : Z) (size_nonneg : 0 <= recordSize).
Let layout := device_layout w.

(** The name of a decoded record can be read from the buffer. *)
Definition named (buffer : list Z) (od : Z * DecodedUsnRecord) : Prop := exists name, usn_name buffer od.1 od.2 = Ok name /\
  Forall is_unit name /\ encode_units name = slice buffer (od.1 + fileNameOffset od.2) (Z.to_nat (fileNameLength od.2)).

Lemma decoded_named buffer o n d : Forall is_byte buffer -> 0 <= o -> o + n <= zlen buffer -> decoded_fits n d -> named buffer (o, d).
Proof.
  intros Hb Ho Hn Hd. destruct (usn_name_ok buffer o n d Hb Ho Hn Hd) as (name & Hname & Hu & _). exists name. split; [done|]. split; [done|].
  unfold usn_name in Hname. apply bind_Ok_inv in Hname as (bytes & (_ & Hle & ->)%load_Ok_inv & [= <-]). cbn [fst snd].
  destruct Hd as [_ _ _ _ _ _ [[Hl _] Heven] [? _]]. pose proof (Z.div_mod (fileNameLength d) 2).
  replace (Z.to_nat (fileNameLength d)) with (2 * Z.to_nat (fileNameLength d / 2))%nat by lia.
  apply encode_decode_units; [by apply Forall_slice|]. rewrite length_slice by lia. done.
Qed.

Lemma decodes_iff buffer o d : Forall is_byte buffer -> 0 <= o <= zlen buffer -> o + length_in layout buffer o <= zlen buffer ->
  DecodeUsnRecord (usn_layout layout) (Some (drop (Z.to_nat o) buffer)) (length_in layout buffer o) = Ok d <-> decodes layout buffer o d.
Proof.
  intros Hb Ho Hn. pose proof (dl_usn _ (wo_layout w world_fine)) as Hl. assert (Forall is_byte (drop (Z.to_nat o) buffer)) as Hd by by apply Forall_drop.
  assert (zlen (drop (Z.to_nat o) buffer) = zlen buffer - o) as Hz by (unfold zlen in *; rewrite length_drop; lia). split.
  - intros E. pose proof (DecodeUsnRecord_sound _ Hl _ (length_in layout buffer o) Hd ltac:(lia)) as Hs. fold layout in Hs. rewrite E in Hs. split; [done|].
    by eapply DecodeUsnRecord_ids.
  - intros (Hok & Hf & Hp). apply (DecodeUsnRecord_complete _ Hl); (done || lia).
Qed.

Lemma decodings_recorded buffer fuel o : Forall is_byte buffer -> 0 <= o <= zlen buffer -> zlen buffer - o <= Z.of_nat fuel ->
  exists offsets e, listing (length_in layout buffer) (common_size (usn_layout layout)) (zlen buffer) o offsets e /\
    (zlen buffer < e + common_size (usn_layout layout) \/ length_in layout buffer e = 0 \/ zlen buffer < e + length_in layout buffer e) /\
    decoded_at layout buffer offsets (decodings_from (usn_layout layout) fuel buffer o) /\
    Forall (named buffer) (decodings_from (usn_layout layout) fuel buffer o).
Proof.
  intros Hb. revert o. pose proof (common_bounds w world_fine) as Hcb. fold layout in Hcb. destruct Hcb as [H0 [??]].
  induction fuel as [|fuel IH]; intros o Ho Hfuel; cbn [decodings_from].
  { exists [], o. split; [constructor|]. split; [left; lia|]. split; [constructor|by apply Forall_nil]. }
  fold (length_in layout buffer o). destruct (Z.leb_spec (o + common_size (usn_layout layout)) (zlen buffer)) as [Hle|]; cbn [negb orb].
  2:{ exists [], o. split; [constructor|]. split; [left; lia|]. split; [constructor|by apply Forall_nil]. }
  destruct (_ || _) eqn:Em.
  { exists [], o. split; [constructor|]. split; [right; apply orb_true_iff in Em as [?%Z.eqb_eq|?%Z.ltb_lt]; auto|]. split; [constructor|by apply Forall_nil]. }
  bool_prop. assert (0 <= length_in layout buffer o) by (apply (field_fits buffer (o + off_RecordLength (usn_layout layout)) 4 Hb); lia).
  destruct (IH (o + length_in layout buffer o)) as (os & e & Hl & He & Hd & Hn); [lia|lia|].
  exists (o :: os), e. split; [constructor; (done || lia)|]. split; [done|].
  pose proof (fun d => decodes_iff buffer o d Hb ltac:(lia) ltac:(lia)) as Hiff.
  destruct (DecodeUsnRecord _ _ _) as [d| |] eqn:Ed.
  - split; [constructor; [by apply Hiff|done]|]. apply Forall_cons. split; [|done].
    eapply (decoded_named buffer o (length_in layout buffer o)); [done|lia|lia|].
    eapply DecodeUsnRecord_fits; [apply (wo_layout w world_fine)| | |exact Ed]; [by apply Forall_drop|]. unfold zlen in *. rewrite length_drop. lia.
  - split; [|done]. constructor; [|done]. intros d Hd'%Hiff. done.
  - split; [|done]. constructor; [|done]. intros d Hd'%Hiff. done.
Qed.

Lemma between_changed buffer ds replies : length replies = length ds -> Forall (named buffer) ds ->
  exists cs, changed layout recordSize bytesPerSector buffer ds replies cs /\
    changes_between layout recordSize bytesPerSector buffer ds replies = delta_of <$> cs.
Proof.
  revert replies. induction ds as [|[o d] ds IH]; intros [|reply replies] Hlen Hn; [|done..|].
  { exists []. split; [constructor|done]. }
  apply Forall_cons in Hn as [(name & Hname & Hu & He) Hn]. destruct (IH replies) as (cs & Hc & Heq); [cbn in Hlen; lia|done|].
  assert (exists src, sourced layout recordSize bytesPerSector buffer (o, d) reply src /\
    change_of layout recordSize bytesPerSector buffer (o, d) reply = if decide (nameable src) then Some (delta_of (d, src)) else None) as (src & Hs & Hco).
  { unfold change_of. cbn [fst snd] in *. rewrite Hname. pose proof (fun p => ReadFileRecord_iff layout recordSize bytesPerSector (UsnParser.fileReferenceNumber d) reply p
      (wo_layout w world_fine) size_nonneg) as Hiff.
    assert (forall src, (if IsFileNameLengthValid (u3_fileNameLengthChars (fixed (delta_of (d, src)))) then Some (delta_of (d, src)) else None) =
      if decide (nameable src) then Some (delta_of (d, src)) else None) as Hvalid.
    { intros src. pose proof (delta_named (d, src)) as Hv. cbn [snd] in Hv. destruct (decide (nameable src)) as [Hy|Hy]; [by rewrite (proj2 Hv Hy)|].
      destruct (IsFileNameLengthValid _); [|done]. by destruct Hy, Hv; auto. }
    destruct (ReadFileRecord _ _ _ _ _) as [p| |] eqn:E.
    - exists (FromMft p). split; [by apply Hiff|]. apply (Hvalid (FromMft p)).
    - exists (FromJournal name). split; [split; [intros p Hp%Hiff; done|done]|]. apply (Hvalid (FromJournal name)).
    - exists (FromJournal name). split; [split; [intros p Hp%Hiff; done|done]|]. apply (Hvalid (FromJournal name)). }
  unfold changes_between in *. cbn. rewrite Hco. destruct (decide (nameable src)).
  - exists ((d, src) :: cs). split; [by apply (changed_take _ _ _ _ (o, d) reply src)|]. cbn. by rewrite Heq.
  - exists cs. split; [by apply (changed_skip _ _ _ _ (o, d) reply src)|done].
Qed.

Lemma read_frame_carries volumeId v r : Forall is_byte (r_buffer r) -> 8 <= zlen (r_buffer r) ->
  length (r_replies r) = length (decodings (usn_layout layout) (r_buffer r)) ->
  exists cs, read_changes layout recordSize bytesPerSector r cs /\
    match read_frame layout recordSize bytesPerSector volumeId v r with Some m => carries volumeId v cs m | None => cs = [] end.
Proof.
  intros Hb Hz Hlen. destruct (decodings_recorded (r_buffer r) (length (r_buffer r)) 8) as (os & e & Hl & He & Hd & Hn); [done|lia|unfold zlen; lia|].
  destruct (between_changed (r_buffer r) _ (r_replies r) Hlen Hn) as (cs & Hc & Heq). exists cs. split.
  { eexists. split; [|exact Hc]. exists os, e. auto. }
  unfold read_frame, changes_of. unfold decodings in *. rewrite Heq. rewrite fmap_last. destruct (last cs) as [[d src]|] eqn:El; cbn.
  - replace (u3_usn (fixed (delta_of (d, src)))) with (usn d) by (by destruct src). by eapply message_carries.
  - by apply last_None.
Qed.

Lemma chain_told volumeId v resume rs start : read_chain layout resume rs start ->
  contiguous resume rs start /\ told layout recordSize bytesPerSector volumeId v rs (frames_of w volumeId v recordSize bytesPerSector rs).
Proof.
  induction 1 as [|r rs _ [IHc IHt] Hlen Hb Hz]; [split; constructor|]. split; [by constructor|]. rewrite frames_of_cons.
  destruct (read_frame_carries volumeId v r Hb Hz Hlen) as (cs & Hcs & Hm). fold layout. destruct (read_frame _ _ _ _ _ r) as [m|]; cbn [option_list].
  - by apply (told_changes _ _ _ _ _ _ _ _ cs).
  - subst cs. rewrite app_nil_r. by apply told_quiet.
Qed.
End reader_facts.

(** What the frames of a journal worker are: nothing when the journal could not be opened, else its opening, with the journal
    the driver reported, and the changes of the reads. *)
Definition journal_told (w : world) (volumeId resumeUsn : Z) (v : ProtocolVersion) (outcome : JournalStreamOutcome) (s : io) : Prop :=
  let layout := device_layout w in
  (outcome = Ended /\ wrote (trace s) = [] /\ reads (trace s) = []) \/
  exists data start frames, JournalQueried (JournalIs data) ∈ trace s /\
    wrote (trace s) = JournalOpened volumeId (UsnJournalID data) (to_unsigned64 (NextUsn data)) :: frames /\
    contiguous (to_signed64 resumeUsn) (reads (trace s)) start /\
    (told layout (record_size w) (sector_bytes w) volumeId v (reads (trace s)) frames /\
       (outcome = ResumePositionInvalid -> exists error, last_journal_reply (trace s) = Some (start, DeviceError error) /\
          (error = ERROR_JOURNAL_ENTRY_DELETED \/ error = ERROR_INVALID_PARAMETER)) \/
     exists r rs cs m, reads (trace s) = r :: rs /\ told layout (record_size w) (sector_bytes w) volumeId v rs frames /\
       read_changes layout (record_size w) (sector_bytes w) r cs /\ carries volumeId v cs m /\ NotWritten m ∈ trace s /\ outcome = Ended).

Lemma stream_told w volumeId resumeUsn v outcome s : world_ok w ->
  journal_stream w volumeId resumeUsn v outcome s -> journal_told w volumeId resumeUsn v outcome s.
Proof.
  intros Hw [?|(data & Hq & [_ (start & Hc & Hcase)])]; [by left|right].
  assert (0 <= record_size w) as Hrs.
  { unfold record_size. destruct (NtfsVolumeData w) as [[size sector]|] eqn:E; [|done]. by destruct (wo_volume w Hw _ _ E) as [[? _] _]. }
  destruct (chain_told w Hw (record_size w) (sector_bytes w) Hrs volumeId v _ _ _ Hc) as [Hcont Htold].
  destruct Hcase as [[Hwr Hout]|(r & rs & m & Hr & Hm & Hnw & Hwr & ->)].
  - exists data, start. eexists. split; [done|]. split; [exact Hwr|]. auto.
  - exists data, start. eexists. split; [done|]. split; [exact Hwr|]. split; [done|]. right.
    rewrite Hr in Hc, Htold. inversion Hc as [|? ? Hc' Hlen Hb Hz]; subst.
    destruct (read_frame_carries w Hw (record_size w) (sector_bytes w) Hrs volumeId v r Hb Hz Hlen) as (cs & Hcs & Hcar).
    rewrite Hm in Hcar. destruct (chain_told w Hw (record_size w) (sector_bytes w) Hrs volumeId v _ _ _ Hc') as [_ Htold'].
    exists r, rs, cs, m. auto 10.
Qed.

(** C9. The frames of a journal worker, whatever the driver, the pipe, the other
    threads and the stop flag do: the opening of the journal, then a frame for each read that has changes, in the
    order of the reads; a read starts where the one before it ended.  The changes of a read are those of its well-formed
    records, up to the end of the buffer or the first malformed length, but for records without a usable name; each takes its fields from the MFT record of the file when the driver
    returns it and from the journal otherwise.  Peers from 2.1 on get every change; a 2.0 peer only those
    taken from the journal; a major-1 peer those taken from the MFT and deletions; every frame has the USN of the read's last
    change.  Only the frame of the last read can be missing, when it could not be written; the engine accepts every frame; and the worker reports an invalid
    resume position only when the driver refused the position it had reached.  The worker
    never reads outside a buffer, and it ends once its stop flag is raised. *)
Theorem RunUsnJournalStream_exact (w : world) (fuel : nat) (volumeId resumeUsn : Z) (v : ProtocolVersion) (transportFailed : bool) :
  world_ok w -> fits 4 volumeId -> fits 8 resumeUsn ->
  let run := RunUsnJournalStream w fuel volumeId resumeUsn v (mkIo [] transportFailed) in
  let promised outcome s := journal_told w volumeId resumeUsn v outcome s /\
    Forall (fun m => DispatchReceivedFrame true (raw_of_MessageType (frame_of m).1) (frame_of m).2 = Ok m) (wrote (trace s)) in
  run <> Faulted /\ (forall outcome s, run = Ran outcome s -> promised outcome s) /\
  (shouldStop w fuel = true -> exists outcome s, run = Ran outcome s /\ promised outcome s).
Proof.
  intros Hw Hid Hu run promised.
  assert (wp (RunUsnJournalStream w fuel volumeId resumeUsn v) promised (mkIo [] transportFailed)) as Hwp.
  { eapply run_mono; [by apply RunUsnJournalStream_wp|]. intros outcome s Hs. split; [by apply stream_told|].
    assert (Forall acceptable (wrote (trace s))) as Ha by (destruct Hs as [(_ & -> & _)|(data & _ & [Ha _])]; done).
    eapply Forall_impl; [exact Ha|]. apply acceptable_dispatched. }
  split; [by apply (wp_cases _ _ _ Hwp)|]. split; [by apply (wp_cases _ _ _ Hwp)|].
  intros He. apply (wp_total _ _ _ Hwp). by apply RunUsnJournalStream_total.
Qed.

Lemma stream_never_invalid w volumeId resumeUsn v outcome s : journal_stream w volumeId resumeUsn v outcome s -> JournalInvalid volumeId ∉ wrote (trace s).
Proof.
  assert (forall rs, JournalInvalid volumeId ∉ frames_of w volumeId v (record_size w) (sector_bytes w) rs) as Hno.
  { intros rs (r & _ & Hr)%list_elem_of_omap. unfold read_frame in Hr. destruct (last _) as [c|]; [|done].
    cbn in Hr. injection Hr as Hr. unfold journal_message in Hr. by repeat case_match. }
  intros [(_ & -> & _)|(data & _ & [_ (start & _ & [[-> _]|(? & ? & ? & _ & _ & _ & -> & _)])])]; [by intros ?%elem_of_nil|..];
    intros [?|Hin]%elem_of_cons; (done || by apply Hno in Hin).
Qed.

(** The engine is told of an invalid resume position exactly when the stream found
    it and the peer knows the message: then the frame follows every change on the wire, unless the
    transport has failed. *)
Theorem run_journal_worker_reports (w : world) (fuel : nat) (volumeId resumeUsn : Z) (v : ProtocolVersion) (failed : bool) :
  world_ok w -> fits 4 volumeId -> fits 8 resumeUsn ->
  wp (run_journal_worker w fuel volumeId resumeUsn v) (fun outcome s =>
    (JournalInvalid volumeId ∈ wrote (trace s) -> outcome = ResumePositionInvalid /\ major v <> 1 /\ last (wrote (trace s)) = Some (JournalInvalid volumeId)) /\
    (outcome = ResumePositionInvalid -> major v <> 1 -> JournalInvalid volumeId ∈ wrote (trace s) \/ transportFailed s = true)) (mkIo [] failed).
Proof.
  intros Hw Hid Hu. unfold run_journal_worker. eapply run_bind; [by apply RunUsnJournalStream_wp|].
  intros outcome s Hs%stream_never_invalid. destruct outcome; [by apply wp_pure|].
  destruct (Z.eqb_spec (major v) 1) as [|Hne]; cbn [negb]; [by apply wp_pure|]. apply wp_andThen, wp_write.
  - intros _. apply wp_pure. cbn [trace observe]. rewrite last_wrote. split; [done|]. intros _ _. left.
    rewrite wrote_snoc. apply elem_of_app. right. by apply list_elem_of_singleton.
  - apply wp_pure. cbn [trace transportFailed]. rewrite wrote_snoc. cbn. rewrite app_nil_r. split; [done|auto].
Qed.

(** ** A small journal *)

(** One change, whose MFT record has vanished, then silence, until the worker is stopped. *)
Definition journal_world : world := {|
  device_layout := windows_layout;
  EnsureBackupPrivilegeEnabled := true;
  volumeOpened := true;
  NtfsVolumeData := Some (256, 256);
  QueryUsnJournal _ := JournalIs (mkJournalData 9 2000);
  CreateUsnJournal _ := false;
  EnumUsnData _ _ := DeviceError 38;
  ReadUsnJournal _ start := DeviceBuffer (if start =? 1000 then le_bytes 8 2000 ++ witness_record else le_bytes 8 2000);
  NtfsFileRecord _ frn := None;
  shouldStop t := (20 <=? t)%nat;
  otherWriterFailed _ := false;
  WriteFrameOverlapped _ := true
|}.

Lemma journal_world_ok : world_ok journal_world.
Proof.
  constructor.
  - apply windows_layout_ok.
  - cbn. intros size sector Hd. simplify_eq. by vm_compute.
  - cbn. intros t data Hd. simplify_eq. by vm_compute.
  - done.
  - intros t start bytes. cbn [ReadUsnJournal journal_world]. case_match; intros Hd; simplify_eq; (split; [solve_bytes|by vm_compute]).
  - done.
  - cbn [shouldStop journal_world]. intros t t' Hle Hs%Nat.leb_le. apply Nat.leb_le. lia.
Qed.

Definition journal_frames (e : exec JournalStreamOutcome) : list service_message := match e with Ran _ s => wrote (trace s) | _ => [] end.

Lemma RunUsnJournalStream_exact_witness :
  (exists change, journal_frames (RunUsnJournalStream journal_world 20 7 1000 kCurrentProtocolVersion (mkIo [] false)) =
    [JournalOpened 7 9 2000; JournalBatchV3 7 7 [change]] /\ Records.fileName change = [97]) /\
  exists outcome s, RunUsnJournalStream journal_world 20 7 1000 kCurrentProtocolVersion (mkIo [] false) = Ran outcome s /\
    journal_told journal_world 7 1000 kCurrentProtocolVersion outcome s /\
    Forall (fun m => DispatchReceivedFrame true (raw_of_MessageType (frame_of m).1) (frame_of m).2 = Ok m) (wrote (trace s)).
Proof.
  split; [eexists; split; vm_compute; reflexivity|].
  apply (RunUsnJournalStream_exact journal_world 20 7 1000 kCurrentProtocolVersion false journal_world_ok ltac:(by vm_compute) ltac:(by vm_compute)).
  reflexivity.
Defined.
