(* ===== verification/Service.v ===== *)
(** * Service: connections, their workers and who owns a volume

    Models [src/src/indexsvc/src/ConnectionRegistry.cpp], [ServiceWorkerLifecycle.h],
    [ScanAttemptBarrier.h], [ScanWorkerBoundary.h], the revalidation predicate of [CommandSurface.h], and
    [PerformHandshake] and [RunCtrlConnection] of [ServiceConnection.cpp].

    The service runs one control thread per connection and one thread per scan and per journal.  They
    share the registry, the pipe and the flag [transportFailed].  A [service] is the registry and the open
    connections; a connection is what its control thread has still to do ([tasks]), its workers, the flag, and the
    frames on its pipe with their authors.  [perform] is one step of one thread: the control thread
    reads a frame or advances by one task, a worker writes a frame or ends.  A join waits for a worker
    that may still write, which is why it is a task of its own.  Workers write what [VolumeScan]
    and [JournalStream] show they write: frames of their own volume.

    Authentication, the clock, drive letters and the volume list are inputs of the steps.

    Shown, for every interleaving: the frames of a scan attempt never follow the barrier of
    the next attempt; of two connections at most one has a scan of a volume that nobody is stopping; a
    connection that has closed owns nothing and has no worker left; and no request is served more than 20 seconds
    after its client was last verified. *)

From stdpp Require Import gmap.
From S2P Require Import Prelude Wire Records UsnParser Dispatch Worker.

(** ** The registry *)

Record ConnectionRegistry := mkRegistry { volumeScanOwners : gmap Z Z; usnJournalOwners : gmap Z Z }.

(** [find], the owner test, and the assignment or the erasure. *)
Definition claim (owner id : Z) (owners : gmap Z Z) : option (gmap Z Z) :=
  match owners !! id with
  | Some other => if other =? owner then Some (<[id := owner]> owners) else None
  | None => Some (<[id := owner]> owners)
  end.

Definition release (requester id : Z) (owners : gmap Z Z) : option (gmap Z Z) :=
  match owners !! id with
  | Some other => if other =? requester then Some (delete id owners) else None
  | None => None
  end.

Definition TryMarkVolumeScanStarted (owner id : Z) (r : ConnectionRegistry) : option ConnectionRegistry :=
  (fun owners => mkRegistry owners (usnJournalOwners r)) <$> claim owner id (volumeScanOwners r).

Definition TryStopVolumeScan (requester id : Z) (r : ConnectionRegistry) : option ConnectionRegistry :=
  (fun owners => mkRegistry owners (usnJournalOwners r)) <$> release requester id (volumeScanOwners r).

Definition TryMarkUsnJournalOpened (owner id : Z) (r : ConnectionRegistry) : option ConnectionRegistry :=
  (fun owners => mkRegistry (volumeScanOwners r) owners) <$> claim owner id (usnJournalOwners r).

Definition TryCloseUsnJournal (requester id : Z) (r : ConnectionRegistry) : option ConnectionRegistry :=
  (fun owners => mkRegistry (volumeScanOwners r) owners) <$> release requester id (usnJournalOwners r).

Definition TeardownConnection (owner : Z) (r : ConnectionRegistry) : ConnectionRegistry :=
  mkRegistry (filter (fun p => p.2 <> owner) (volumeScanOwners r)) (filter (fun p => p.2 <> owner) (usnJournalOwners r)).

(** ** The handshake *)

(** What [PerformHandshake] does with the first frame. *)
Inductive handshake_outcome :=
| ClosedSilently
| SentIncompatibleVersion
| SentHandshakeReject (reason : Z)
| Negotiated (version : ProtocolVersion).

Definition HandshakeRequest_size : Z := 4.   (* sizeof(HandshakeRequest): the client's version *)

(** [verified]: [VerifyClientAtHandshake], with its reason when it fails; [ackWritten]: the ack's write. *)
Definition PerformHandshake (frame : option (Z * list Z)) (verified : option Z) (ackWritten : bool) : result handshake_outcome :=
  match frame with
  | None => Ok ClosedSilently
  | Some (messageType, payload) =>
      if negb (messageType =? raw_of_MessageType Handshake) then Ok ClosedSilently else
      if negb (zlen payload =? HandshakeRequest_size) then Ok ClosedSilently else
      let* maj := ReadU16 payload 0 in
      let* mino := ReadU16 payload 2 in
      let clientVersion := mkProtocolVersion maj mino in
      if negb (IsVersionCompatible kCurrentProtocolVersion clientVersion) then Ok SentIncompatibleVersion else
      match verified with
      | Some reason => Ok (SentHandshakeReject reason)
      | None =>
          let outVersion := if maj =? major kCurrentProtocolVersion
                            then mkProtocolVersion (major kCurrentProtocolVersion) (Z.min mino (minor kCurrentProtocolVersion))
                            else clientVersion in
          Ok (if ackWritten then Negotiated outVersion else ClosedSilently)
      end
  end.

(** ** Connections *)

(** [ActiveWorker]: its stop flag, and whether its thread still runs; the number tells workers apart. *)
Record worker := mkWorker { w_volume : Z; w_number : nat; w_stop : bool; w_alive : bool }.

Inductive author := Control | ScanWorker (n : nat) | JournalWorker (n : nat).

#[export] Instance author_dec : EqDecision author.
Proof. solve_decision. Defined.

(** What the control thread has still to do before it reads the next frame. *)
Inductive task :=
| JoinScan (id : Z)                                    (* StopAndJoin(activeScans, id) *)
| Barrier (id : Z)                                     (* ApplyScanAttemptBarrier *)
| LaunchScan (id : Z) (cursor : list Z) (flags : Z)    (* the replacement worker *)
| JoinJournal (id : Z)
| LaunchJournal (id resumeUsn : Z)
| Reply (m : service_message)
| JoinAllScans
| JoinAllJournals
| Teardown
| CloseConnection.

Record connection := mkConnection {
  version : ProtocolVersion;
  tasks : list task;
  scans : list worker;
  journals : list worker;
  poisoned : bool;                (* transportFailed *)
  lastRevalidated : Z;            (* milliseconds *)
  launches : list nat;            (* for each worker so far, how many frames were on the pipe when it started *)
  wire : list (author * service_message)
}.

(** The workers so far. *)
Definition launched (c : connection) : nat := length (launches c).

(** The ordered teardown after the loop. *)
Definition teardown : list task := [JoinAllScans; JoinAllJournals; Teardown; CloseConnection].

Definition kRevalidationInterval : Z := 20000.
Definition kRevalidationFreshEpsilon : Z := 100.

Definition ShouldRevalidate (now last interval : Z) : bool := interval <=? now - last.

(** What one turn of the loop sees of the outside: the frame ([None]: timeout, disconnect, shutdown, I/O
    error), the clock and the client's verification at the gate and at a heartbeat, and the volumes. *)
Record inbound := mkInbound {
  in_frame : option (Z * list Z);
  in_gate : Z; in_gate_valid : bool; in_gate_done : Z;
  in_beat : Z; in_beat_valid : bool; in_beat_done : Z;
  in_volume_known : bool;
  in_volumes : list VolumeInfo
}.

(** [if (ShouldRevalidate(now, ...)) { if (!RevalidateClient(...)) disconnect; lastRevalidated = now(); }]. *)
Definition revalidate (now last interval : Z) (valid : bool) (done : Z) : option Z :=
  if ShouldRevalidate now last interval then (if valid then Some done else None) else Some last.

(** The switch: the tasks of a request and the registry; [None] is [disconnect = true]. *)
Definition dispatch (self : Z) (i : inbound) (request : request) (last : Z) (r : ConnectionRegistry)
    : option (list task * ConnectionRegistry * Z) :=
  match request with
  | RequestVolumes => Some ([Reply (VolumesListed (in_volumes i))], r, last)
  | RequestScan id cursor flags =>
      if in_volume_known i
      then (fun r => ([JoinScan id; Barrier id; LaunchScan id cursor flags], r, last)) <$> TryMarkVolumeScanStarted self id r
      else None
  | RequestStopScan id => (fun r => ([JoinScan id], r, last)) <$> TryStopVolumeScan self id r
  | RequestJournal id resumeUsn =>
      if in_volume_known i
      then (fun r => ([JoinJournal id; LaunchJournal id resumeUsn], r, last)) <$> TryMarkUsnJournalOpened self id r
      else None
  | RequestCloseJournal id => (fun r => ([JoinJournal id], r, last)) <$> TryCloseUsnJournal self id r
  | RequestHeartbeat =>
      (fun last => ([Reply HeartbeatAcked], r, last)) <$> revalidate (in_beat i) last kRevalidationFreshEpsilon (in_beat_valid i) (in_beat_done i)
  end.

(** One turn of the loop up to the tasks of its request. *)
Definition handle (self : Z) (i : inbound) (c : connection) (r : ConnectionRegistry) : option (list task * ConnectionRegistry * Z) :=
  match in_frame i with
  | None => None
  | Some (messageType, payload) =>
      if negb (IsAllowedClientRequest messageType) then None else
      match revalidate (in_gate i) (lastRevalidated c) kRevalidationInterval (in_gate_valid i) (in_gate_done i) with
      | None => None
      | Some last =>
          match ReadRequest (version c) messageType payload with
          | Ok request => dispatch self i request last r
          | _ => None
          end
      end
  end.

(** ** Steps *)

Definition with_tasks (ts : list task) (c : connection) : connection :=
  mkConnection (version c) ts (scans c) (journals c) (poisoned c) (lastRevalidated c) (launches c) (wire c).
Definition with_scans (ws : list worker) (c : connection) : connection :=
  mkConnection (version c) (tasks c) ws (journals c) (poisoned c) (lastRevalidated c) (launches c) (wire c).
Definition with_journals (ws : list worker) (c : connection) : connection :=
  mkConnection (version c) (tasks c) (scans c) ws (poisoned c) (lastRevalidated c) (launches c) (wire c).
Definition with_poison (c : connection) : connection :=
  mkConnection (version c) (tasks c) (scans c) (journals c) true (lastRevalidated c) (launches c) (wire c).
Definition append (a : author) (m : service_message) (c : connection) : connection :=
  mkConnection (version c) (tasks c) (scans c) (journals c) (poisoned c) (lastRevalidated c) (launches c) (wire c ++ [(a, m)]).
Definition with_launched (c : connection) : connection :=
  mkConnection (version c) (tasks c) (scans c) (journals c) (poisoned c) (lastRevalidated c) (launches c ++ [length (wire c)]) (wire c).
Definition verified_at (last : Z) (c : connection) : connection :=
  mkConnection (version c) (tasks c) (scans c) (journals c) (poisoned c) last (launches c) (wire c).

Definition is_volume (id : Z) (wk : worker) : bool := w_volume wk =? id.
Definition stop_worker (wk : worker) : worker := mkWorker (w_volume wk) (w_number wk) true (w_alive wk).

(** [StopAndJoin]: [None] while the join waits; otherwise the workers, and whether it is done. *)
Fixpoint StopAndJoin (id : Z) (ws : list worker) : option (list worker * bool) :=
  match ws with
  | [] => Some ([], true)
  | wk :: ws =>
      if is_volume id wk then
        if negb (w_stop wk) then Some (stop_worker wk :: ws, false)
        else if w_alive wk then None else Some (ws, true)
      else (fun p => (wk :: p.1, p.2)) <$> StopAndJoin id ws
  end.

(** [StopAndJoinAll]. *)
Definition StopAndJoinAll (ws : list worker) : option (list worker * bool) :=
  if forallb w_stop ws then (if forallb (fun wk => negb (w_alive wk)) ws then Some ([], true) else None)
  else Some (stop_worker <$> ws, false).

(** The next task of the control thread; [ok] is the outcome of a write or of a thread's creation.
    [None] in the pair closes the pipe. *)
Definition advance (self : Z) (ok : bool) (c : connection) (r : ConnectionRegistry) : option (option connection * ConnectionRegistry) :=
  match tasks c with
  | [] => None
  | JoinScan id :: rest =>
      (fun p => (Some (with_tasks (if p.2 : bool then rest else tasks c) (with_scans p.1 c)), r)) <$> StopAndJoin id (scans c)
  | Barrier id :: rest =>
      if negb (ProtocolSupportsScanAttemptStarted (version c)) then Some (Some (with_tasks rest c), r)
      else if poisoned c || negb ok then Some (Some (with_poison (with_tasks teardown c)), r)
      else Some (Some (append Control (ScanAttemptHasStarted id) (with_tasks rest c)), r)
  | LaunchScan id _ _ :: rest =>
      let c' := with_launched (with_scans (scans c ++ [mkWorker id (launched c) false ok]) c) in
      Some (Some (with_tasks (if ok then rest else teardown) c'), r)
  | JoinJournal id :: rest =>
      (fun p => (Some (with_tasks (if p.2 : bool then rest else tasks c) (with_journals p.1 c)), r)) <$> StopAndJoin id (journals c)
  | LaunchJournal id _ :: rest =>
      let c' := with_launched (with_journals (journals c ++ [mkWorker id (launched c) false ok]) c) in
      Some (Some (with_tasks (if ok then rest else teardown) c'), r)
  | Reply m :: rest =>
      if poisoned c then Some (Some (with_tasks teardown c), r)
      else if ok then Some (Some (append Control m (with_tasks rest c)), r)
      else Some (Some (match m with HeartbeatAcked => with_poison (with_tasks teardown c) | _ => with_tasks teardown c end), r)
  | JoinAllScans :: rest =>
      (fun p => (Some (with_tasks (if p.2 : bool then rest else tasks c) (with_scans p.1 c)), r)) <$> StopAndJoinAll (scans c)
  | JoinAllJournals :: rest =>
      (fun p => (Some (with_tasks (if p.2 : bool then rest else tasks c) (with_journals p.1 c)), r)) <$> StopAndJoinAll (journals c)
  | Teardown :: rest => Some (Some (with_tasks rest c), TeardownConnection self r)
  | CloseConnection :: _ => Some (None, r)
  end.

(** The threads of the service, and what each of their steps sees. *)
Inductive label :=
| Connected (version : ProtocolVersion) (time : Z)      (* after a handshake *)
| Received (i : inbound)
| Advanced (ok : bool)
| Threw                                                 (* an exception inside the loop *)
| ScanWrote (n : nat) (m : service_message) (ok : bool)
| ScanEnded (n : nat) (abort : bool)                    (* RunScanWorkerBoundary *)
| JournalWrote (n : nat) (m : service_message) (ok : bool)
| JournalEnded (n : nat).

Definition find_worker (n : nat) (ws : list worker) : option worker :=
  head (filter (fun wk => w_number wk = n /\ w_alive wk = true) ws).

Definition end_worker (n : nat) (ws : list worker) : list worker :=
  (fun wk => if bool_decide (w_number wk = n) then mkWorker (w_volume wk) (w_number wk) (w_stop wk) false else wk) <$> ws.

(** A write of a worker: nothing once the transport has failed. *)
Definition worker_write (a : author) (m : service_message) (ok : bool) (c : connection) : connection :=
  if poisoned c then c else if ok then append a m c else with_poison c.

(** Where an exception can escape into the boundary of the loop: anywhere but in the joins. *)
Definition may_throw (c : connection) : bool :=
  match tasks c with
  | [] | Barrier _ :: _ | LaunchScan _ _ _ :: _ | LaunchJournal _ _ :: _ | Reply _ :: _ => true
  | _ => false
  end.

(** One step of one thread of the connection [self]. *)
Definition connection_step (self : Z) (l : label) (c : connection) (r : ConnectionRegistry) : option (option connection * ConnectionRegistry) :=
  match l with
  | Connected _ _ => None
  | Received i =>
      match tasks c with
      | [] =>
          if poisoned c then Some (Some (with_tasks teardown c), r) else
          match handle self i c r with
          | Some (ts, r, last) => Some (Some (with_tasks ts (verified_at last c)), r)
          | None => Some (Some (with_tasks teardown c), r)
          end
      | _ => None
      end
  | Advanced ok => advance self ok c r
  | Threw => if may_throw c then Some (Some (with_tasks teardown c), r) else None
  | ScanWrote n m ok =>
      match find_worker n (scans c) with
      | Some wk => if bool_decide (scan_frame (w_volume wk) m) then Some (Some (worker_write (ScanWorker n) m ok c), r) else None
      | None => None
      end
  | ScanEnded n abort =>
      match find_worker n (scans c) with
      | Some _ => let c := with_scans (end_worker n (scans c)) c in Some (Some (if abort then with_poison c else c), r)
      | None => None
      end
  | JournalWrote n m ok =>
      match find_worker n (journals c) with
      | Some wk => if bool_decide (journal_frame (w_volume wk) m) then Some (Some (worker_write (JournalWorker n) m ok c), r) else None
      | None => None
      end
  | JournalEnded n =>
      match find_worker n (journals c) with
      | Some _ => Some (Some (with_journals (end_worker n (journals c)) c), r)
      | None => None
      end
  end.

Record service := mkService { registry : ConnectionRegistry; connections : gmap Z connection }.

Definition perform (self : Z) (l : label) (s : service) : option service :=
  match connections s !! self, l with
  | None, Connected version time =>
      Some (mkService (registry s) (<[self := mkConnection version [] [] [] false time [] []]> (connections s)))
  | Some c, l =>
      (fun p => mkService p.2 (match p.1 with Some c => <[self := c]> (connections s) | None => delete self (connections s) end))
        <$> connection_step self l c (registry s)
  | None, _ => None
  end.

(** A schedule of steps. *)
Fixpoint play (steps : list (Z * label)) (s : service) : option service :=
  match steps with
  | [] => Some s
  | (self, l) :: steps => match perform self l s with Some s => play steps s | None => None end
  end.

Definition started : service := mkService (mkRegistry ∅ ∅) ∅.

(** The states the service can reach. *)
Inductive reachable : service -> Prop :=
| reachable_started : reachable started
| reachable_step self l s s' : reachable s -> perform self l s = Some s' -> reachable s'.

(** ** One connection *)

Definition no_volume (id : Z) (ws : list worker) : Prop := forall wk, wk ∈ ws -> w_volume wk <> id.

(** The tasks a control thread can have, with what is known of the workers at each of them. *)
Inductive plan : list task -> list worker -> list worker -> Prop :=
| plan_idle ws js : plan [] ws js
| plan_reply m ws js : (forall id, m <> ScanAttemptHasStarted id) -> plan [Reply m] ws js
| plan_stop_scan id ws js : plan [JoinScan id] ws js
| plan_start_scan id cursor flags ws js : plan [JoinScan id; Barrier id; LaunchScan id cursor flags] ws js
| plan_barrier id cursor flags ws js : no_volume id ws -> plan [Barrier id; LaunchScan id cursor flags] ws js
| plan_launch id cursor flags ws js : no_volume id ws -> plan [LaunchScan id cursor flags] ws js
| plan_close_journal id ws js : plan [JoinJournal id] ws js
| plan_open_journal id usn ws js : plan [JoinJournal id; LaunchJournal id usn] ws js
| plan_launch_journal id usn ws js : no_volume id js -> plan [LaunchJournal id usn] ws js
| plan_teardown ws js : plan teardown ws js
| plan_journals js : plan [JoinAllJournals; Teardown; CloseConnection] [] js
| plan_registry : plan [Teardown; CloseConnection] [] []
| plan_close : plan [CloseConnection] [] [].

(** Worker [n] was launched when at least [p] frames were on the pipe. *)
Definition launched_from (ns : list nat) (p n : nat) : Prop := exists q, ns !! n = Some q /\ (p <= q)%nat.

(** A barrier of a volume: the workers of the volume, and every worker that wrote for the volume after
    it, were launched after it. *)
Definition barrier_at (l1 : list (author * service_message)) (id : Z) (l2 : list (author * service_message)) (ws : list worker) (ns : list nat) : Prop :=
  (forall wk, wk ∈ ws -> w_volume wk = id -> launched_from ns (S (length l1)) (w_number wk)) /\
  (forall n m, (ScanWorker n, m) ∈ l2 -> scan_frame id m -> launched_from ns (S (length l1)) n).

Record tidy (c : connection) : Prop := {
  td_plan : plan (tasks c) (scans c) (journals c);
  td_scans : NoDup (w_volume <$> scans c);
  td_journals : NoDup (w_volume <$> journals c);
  td_fresh : forall wk, wk ∈ scans c -> exists q, launches c !! w_number wk = Some q /\ (q <= length (wire c))%nat;
  td_authors : forall i n m, wire c !! i = Some (ScanWorker n, m) -> exists q, launches c !! n = Some q /\ (q <= i)%nat;
  td_barrier : forall l1 id l2, wire c = l1 ++ (Control, ScanAttemptHasStarted id) :: l2 -> barrier_at l1 id l2 (scans c) (launches c)
}.

(** Joining one worker: it is told to stop, or it is gone and so is every worker of its volume. *)
Lemma StopAndJoin_inv id ws ws' done : NoDup (w_volume <$> ws) -> StopAndJoin id ws = Some (ws', done) ->
  (forall wk, wk ∈ ws' -> exists wk0, wk0 ∈ ws /\ w_volume wk0 = w_volume wk /\ w_number wk0 = w_number wk /\ (w_stop wk = false -> w_stop wk0 = false)) /\
  NoDup (w_volume <$> ws') /\ (done = true -> no_volume id ws') /\
  (done = false -> forall wk, wk ∈ ws' -> w_volume wk = id -> w_stop wk = true).
Proof.
  revert ws' done. induction ws as [|wk ws IH]; intros ws' done Hnd; cbn [StopAndJoin].
  { intros [= <- <-]. split; [by intros ? ?%elem_of_nil|]. split; [done|]. split; [by intros _ ? ?%elem_of_nil|done]. }
  rewrite fmap_cons in Hnd. apply NoDup_cons in Hnd as [Hni Hnd]. unfold is_volume at 1.
  assert (w_volume wk = id -> no_volume id ws) as Hrest.
  { intros Hid wk' Hin Hv. apply Hni. rewrite Hid, <-Hv. by apply list_elem_of_fmap_2. }
  destruct (Z.eqb_spec (w_volume wk) id) as [Hid|Hid].
  - destruct (w_stop wk) eqn:Es; cbn [negb].
    + destruct (w_alive wk); [done|]. intros [= <- <-].
      split; [intros wk' Hin; exists wk'; split; [by right|done]|]. split; [done|]. split; [auto|done].
    + intros [= <- <-]. split; [|split; [|split; [done|]]].
      * intros wk' [-> | Hin]%elem_of_cons; [exists wk; split; [by left|done]|exists wk'; split; [by right|done]].
      * rewrite fmap_cons. by apply NoDup_cons.
      * intros _ wk' [-> | Hin]%elem_of_cons Hv; [done|]. by destruct (Hrest Hid wk' Hin).
  - destruct (StopAndJoin id ws) as [[ws1 d]|] eqn:E; [|done]. cbn. intros [= <- <-].
    destruct (IH ws1 d Hnd eq_refl) as (Hfrom & Hnd1 & Hgone & Hstop). split; [|split; [|split]].
    + intros wk' [-> | Hin]%elem_of_cons; [exists wk; split; [by left|done]|].
      destruct (Hfrom wk' Hin) as (wk0 & ? & ?). exists wk0. split; [by right|done].
    + rewrite fmap_cons. apply NoDup_cons. split; [|done]. intros (wk' & Hv & Hin)%list_elem_of_fmap.
      destruct (Hfrom wk' Hin) as (wk0 & Hin0 & Hv0 & _). apply Hni. rewrite Hv, <-Hv0. by apply list_elem_of_fmap_2.
    + intros Hd wk' [-> | Hin]%elem_of_cons; [done|by apply Hgone].
    + intros Hd wk' [-> | Hin]%elem_of_cons Hv; [done|by apply Hstop].
Qed.

Lemma StopAndJoinAll_inv ws ws' done : StopAndJoinAll ws = Some (ws', done) ->
  (ws' = stop_worker <$> ws /\ done = false) \/ (ws' = [] /\ done = true /\ Forall (fun wk => w_alive wk = false) ws).
Proof.
  unfold StopAndJoinAll. destruct (forallb w_stop ws); [|intros [= <- <-]; by left].
  destruct (forallb _ ws) eqn:E; [|done]. intros [= <- <-]. right. split; [done|]. split; [done|].
  apply Is_true_true, forallb_True in E. eapply Forall_impl; [exact E|]. by intros wk ?%Is_true_true%negb_true_iff.
Qed.

(** Changes that keep what the wire says of barriers. *)
Lemma barrier_workers l1 id l2 ws ws' ns : barrier_at l1 id l2 ws ns ->
  (forall wk, wk ∈ ws' -> exists wk0, wk0 ∈ ws /\ w_volume wk0 = w_volume wk /\ w_number wk0 = w_number wk) -> barrier_at l1 id l2 ws' ns.
Proof.
  intros [Hw Ha] Hfrom. split; [|done]. intros wk Hin Hv. destruct (Hfrom wk Hin) as (wk0 & Hin0 & Hv0 & Hn0).
  rewrite <-Hn0. apply Hw; [done|congruence].
Qed.

Lemma launch_kept (ns : list nat) q n b : (exists x, ns !! n = Some x /\ (x <= b)%nat) -> exists x, (ns ++ [q]) !! n = Some x /\ (x <= b)%nat.
Proof. intros (x & Hx & Hle). exists x. split; [by apply lookup_app_l_Some|done]. Qed.

Lemma launched_from_kept ns q p n : launched_from ns p n -> launched_from (ns ++ [q]) p n.
Proof. intros (x & Hx & Hle). exists x. split; [by apply lookup_app_l_Some|done]. Qed.

Lemma barrier_kept l1 id l2 ws ns q : barrier_at l1 id l2 ws ns -> barrier_at l1 id l2 ws (ns ++ [q]).
Proof. intros [Hw Ha]. split; intros; apply launched_from_kept; eauto. Qed.

(** The frame at a position of a wire that has one more. *)
Lemma lookup_snoc {A} (l : list A) x i y : (l ++ [x]) !! i = Some y -> l !! i = Some y \/ i = length l /\ x = y.
Proof. intros [H|[? [Hi [= ->]]%list_lookup_singleton_Some]]%lookup_app_Some; [by left|]. right. split; [lia|done]. Qed.

(** Splitting a wire that has one more frame. *)
Lemma split_snoc {A} (l l1 l2 : list A) x y : l ++ [x] = l1 ++ y :: l2 -> (l = l1 /\ x = y /\ l2 = []) \/ exists l2', l = l1 ++ y :: l2' /\ l2 = l2' ++ [x].
Proof.
  intros Heq. destruct l2 as [|z l2 _] using rev_ind.
  - apply app_inj_tail in Heq as [-> ->]. by left.
  - rewrite app_comm_cons, app_assoc in Heq. apply app_inj_tail in Heq as [-> ->]. right. by exists l2.
Qed.

Definition same_workers (ws ws' : list worker) : Prop :=
  forall wk, wk ∈ ws' -> exists wk0, wk0 ∈ ws /\ w_volume wk0 = w_volume wk /\ w_number wk0 = w_number wk /\ (w_stop wk = false -> w_stop wk0 = false).

Lemma same_workers_refl ws : same_workers ws ws.
Proof. intros wk Hin. by exists wk. Qed.

Lemma same_workers_map f ws : (forall wk, w_volume (f wk) = w_volume wk /\ w_number (f wk) = w_number wk /\ (w_stop (f wk) = false -> w_stop wk = false)) ->
  same_workers ws (f <$> ws).
Proof. intros Hf wk (wk0 & -> & Hin)%list_elem_of_fmap. exists wk0. destruct (Hf wk0) as (? & ? & ?). done. Qed.

Lemma no_volume_same id ws ws' : same_workers ws ws' -> no_volume id ws -> no_volume id ws'.
Proof. intros Hs Hn wk Hin Hv. destruct (Hs wk Hin) as (wk0 & Hin0 & Hv0 & _). apply (Hn wk0 Hin0). congruence. Qed.

(** Fewer or stopped scan workers. *)
Lemma tidy_scans c ts ws : tidy c -> same_workers (scans c) ws -> NoDup (w_volume <$> ws) -> plan ts ws (journals c) ->
  tidy (with_tasks ts (with_scans ws c)).
Proof.
  intros [] Hs Hnd Hp. constructor; cbn; try done.
  { intros wk Hin. destruct (Hs wk Hin) as (wk0 & Hin0 & _ & <- & _). by apply td_fresh0. }
  intros l1 id l2 Hw. eapply barrier_workers; [by apply td_barrier0|]. intros wk Hin. destruct (Hs wk Hin) as (wk0 & ? & ? & ? & _). eauto.
Qed.

Lemma tidy_journals c ts js : tidy c -> NoDup (w_volume <$> js) -> plan ts (scans c) js -> tidy (with_tasks ts (with_journals js c)).
Proof. intros [] Hnd Hp. by constructor. Qed.

Lemma tidy_tasks c ts : tidy c -> plan ts (scans c) (journals c) -> tidy (with_tasks ts c).
Proof. intros [] Hp. by constructor. Qed.

Lemma tidy_poison c : tidy c -> tidy (with_poison c).
Proof. intros []. by constructor. Qed.

Lemma tidy_verified last c : tidy c -> tidy (verified_at last c).
Proof. intros []. by constructor. Qed.

(** A frame that is not a barrier. *)
Lemma tidy_append c a m : tidy c -> (forall id, (a, m) <> (Control, ScanAttemptHasStarted id)) ->
  (forall n, a = ScanWorker n -> exists wk, wk ∈ scans c /\ w_number wk = n /\ scan_frame (w_volume wk) m) ->
  tidy (append a m c).
Proof.
  intros [Hp Hs Hj Hfr Ha Hb] Hne Hwk. constructor; cbn; try done.
  - intros wk Hin. destruct (Hfr wk Hin) as (q & Hq & Hle). exists q. rewrite length_app. split; [done|lia].
  - intros i n m' [Hi|[-> He]]%lookup_snoc; [by eapply Ha|]. simplify_eq. destruct (Hwk n eq_refl) as (wk & Hin & <- & _). by apply Hfr.
  - intros l1 id l2 Heq. apply split_snoc in Heq as [(_ & Heq & _)|(l2' & Heq & ->)]; [by destruct (Hne id)|].
    destruct (Hb l1 id l2' Heq) as [Hw Hx]. split; [done|]. intros n m2 [Hin2|He%list_elem_of_singleton]%elem_of_app Hf2; [by eapply Hx|]. simplify_eq.
    destruct (Hwk n eq_refl) as (wk & Hin & <- & Hf). apply Hw; [done|]. destruct m; cbn in Hf, Hf2; try done; congruence.
Qed.

(** The barrier of a volume without worker. *)
Lemma tidy_append_barrier c id : tidy c -> no_volume id (scans c) -> tidy (append Control (ScanAttemptHasStarted id) c).
Proof.
  intros [Hp Hs Hj Hfr Ha Hb] Hno. constructor; cbn; try done.
  - intros wk Hin. destruct (Hfr wk Hin) as (q & Hq & Hle). exists q. rewrite length_app. split; [done|lia].
  - intros i n m' [Hi|[_ ?]]%lookup_snoc; [by eapply Ha|done].
  - intros l1 id' l2 Heq. apply split_snoc in Heq as [(<- & [= <-] & ->)|(l2' & Heq & ->)].
    + split; [intros wk Hin Hv; by destruct (Hno wk Hin)|]. by intros n m ?%elem_of_nil.
    + destruct (Hb l1 id' l2' Heq) as [Hw Hx]. split; [done|].
      intros n m [Hin|?%list_elem_of_singleton]%elem_of_app Hf; [by eapply Hx|done].
Qed.

(** What is known of the workers so far survives the launch of another. *)
Lemma wire_launch c q : tidy c ->
  (forall i n m, wire c !! i = Some (ScanWorker n, m) -> exists x, (launches c ++ [q]) !! n = Some x /\ (x <= i)%nat) /\
  (forall l1 id l2, wire c = l1 ++ (Control, ScanAttemptHasStarted id) :: l2 -> barrier_at l1 id l2 (scans c) (launches c ++ [q])).
Proof. intros [_ _ _ _ Ha Hb]. split; intros; [apply launch_kept; by eapply Ha|apply barrier_kept; by apply Hb]. Qed.

(** A new worker starts after every frame on the pipe. *)
Lemma tidy_launch c ts id alive : tidy c -> no_volume id (scans c) -> (forall ws, plan ts ws (journals c)) ->
  tidy (with_tasks ts (with_launched (with_scans (scans c ++ [mkWorker id (launched c) false alive]) c))).
Proof.
  intros Ht Hno Hts. destruct (wire_launch c (length (wire c)) Ht) as [Ha Hb]. destruct Ht as [Hp Hs Hj Hfr _ _]. constructor; cbn; try done.
  - rewrite fmap_app. apply NoDup_app. split; [done|]. split; [|apply NoDup_singleton].
    intros v (wk & -> & Hin)%list_elem_of_fmap Hv%list_elem_of_singleton. by destruct (Hno wk Hin).
  - intros wk [Hin| ->%list_elem_of_singleton]%elem_of_app; [by apply launch_kept, Hfr|]. exists (length (wire c)). split; [|done]. by apply list_lookup_middle.
  - intros l1 id' l2 Heq. destruct (Hb l1 id' l2 Heq) as [Hw Hx]. split; [|done].
    intros wk [Hin| ->%list_elem_of_singleton]%elem_of_app Hv; [by apply Hw|]. exists (length (wire c)). split; [by apply list_lookup_middle|].
    rewrite Heq, length_app. cbn. lia.
Qed.

Lemma find_worker_Some n ws wk : find_worker n ws = Some wk -> wk ∈ ws /\ w_number wk = n.
Proof.
  unfold find_worker. intros Hf. assert (wk ∈ filter (fun wk => w_number wk = n /\ w_alive wk = true) ws) as Hin by (destruct (filter _ ws); [done|by simplify_eq/=; left]).
  apply list_elem_of_filter in Hin as [[Hn _] Hin]. done.
Qed.

Lemma end_worker_volume n ws : w_volume <$> end_worker n ws = w_volume <$> ws.
Proof. unfold end_worker. rewrite <-list_fmap_compose. apply list_fmap_ext. intros i wk _. cbn. by case_match. Qed.

Lemma end_worker_same n ws : same_workers ws (end_worker n ws).
Proof. apply same_workers_map. intros wk. by case_match. Qed.

Lemma stop_workers_volume (ws : list worker) : w_volume <$> (stop_worker <$> ws) = w_volume <$> ws.
Proof. by rewrite <-list_fmap_compose. Qed.

Lemma plan_same ts ws js ws' js' : plan ts ws js -> (forall id, no_volume id ws -> no_volume id ws') -> (forall id, no_volume id js -> no_volume id js') ->
  (ws = [] -> ws' = []) -> (js = [] -> js' = []) -> plan ts ws' js'.
Proof. intros Hp Hn Hm Hw Hj. inversion Hp; subst; rewrite ?Hw, ?Hj by done; constructor; auto. Qed.

Lemma tidy_advance self ok c r c' r' : tidy c -> advance self ok c r = Some (Some c', r') -> tidy c'.
Proof.
  intros Ht. pose proof (td_plan c Ht) as Hp. unfold advance. destruct (tasks c) as [|t rest] eqn:Ets; [done|].
  assert (tidy (with_tasks teardown c)) as Hdown by (apply tidy_tasks; [done|constructor]).
  destruct t.
  - destruct (StopAndJoin id (scans c)) as [[ws fin]|] eqn:E; [|done]. cbn. intros [= <- _].
    destruct (StopAndJoin_inv _ _ _ _ (td_scans c Ht) E) as (Hs & Hnd & Hgone & _). apply tidy_scans; try done.
    destruct fin; [|by inversion Hp; subst; constructor]. specialize (Hgone eq_refl). inversion Hp; subst; constructor; done.
  - destruct (negb _); [intros [= <- _]; apply tidy_tasks; [done|]; by inversion Hp; subst; constructor|].
    destruct (_ || _); intros [= <- _]; [by apply tidy_poison|]. apply tidy_append_barrier; [apply tidy_tasks; [done|]|]; inversion Hp; subst; by try constructor.
  - intros [= <- _]. apply tidy_launch; [done|by inversion Hp|]. intros ws. destruct ok; [|constructor]. inversion Hp; subst; constructor.
  - destruct (StopAndJoin id (journals c)) as [[js fin]|] eqn:E; [|done]. cbn. intros [= <- _].
    destruct (StopAndJoin_inv _ _ _ _ (td_journals c Ht) E) as (Hs & Hnd & Hgone & _). apply tidy_journals; try done.
    destruct fin; [|by inversion Hp; subst; constructor]. specialize (Hgone eq_refl). inversion Hp; subst; constructor; done.
  - intros [= <- _]. destruct Ht. constructor; cbn; try done.
    + destruct ok; [|constructor]. inversion Hp; subst; constructor.
    + rewrite fmap_app. apply NoDup_app. split; [done|]. split; [|apply NoDup_singleton].
      intros v (wk & -> & Hin)%list_elem_of_fmap Hv%list_elem_of_singleton. inversion Hp as [| | | | | | | |? ? ? ? Hno| | | |]; subst. by destruct (Hno wk Hin).
    + intros wk Hin. by apply launch_kept, td_fresh0.
    + intros i n m Hi. apply launch_kept. by eapply td_authors0.
    + intros l1 id' l2 Heq. by apply barrier_kept, td_barrier0.
  - destruct (poisoned c); [by intros [= <- _]|]. destruct ok.
    + intros [= <- _]. apply tidy_append; [apply tidy_tasks; [done|]; inversion Hp; subst; constructor| |done].
      inversion Hp as [|? ? ? Hm| | | | | | | | | | |]; subst. intros id [= Hid]. by apply (Hm id).
    + intros [= <- _]. destruct m; (done || by apply tidy_poison).
  - destruct (StopAndJoinAll (scans c)) as [[ws fin]|] eqn:E; [|done]. cbn. intros [= <- _].
    destruct (StopAndJoinAll_inv _ _ _ E) as [[-> ->]|(-> & -> & _)].
    + apply tidy_scans; [done|by apply same_workers_map|rewrite stop_workers_volume; apply Ht|]. inversion Hp; subst; constructor.
    + apply tidy_scans; [done|by intros wk ?%elem_of_nil|apply NoDup_nil_2|]. inversion Hp; subst; constructor.
  - destruct (StopAndJoinAll (journals c)) as [[js fin]|] eqn:E; [|done]. cbn. intros [= <- _].
    destruct (StopAndJoinAll_inv _ _ _ E) as [[-> ->]|(-> & -> & _)].
    + apply tidy_journals; [done|rewrite stop_workers_volume; apply Ht|]. inversion Hp; subst; constructor.
    + apply tidy_journals; [done|apply NoDup_nil_2|]. inversion Hp; subst; constructor.
  - intros [= <- _]. apply tidy_tasks; [done|]. inversion Hp; subst; constructor.
  - done.
Qed.

Lemma dispatch_plan self i request last r ts r' last' ws js : dispatch self i request last r = Some (ts, r', last') -> plan ts ws js.
Proof.
  destruct request; cbn [dispatch]; intros Hd.
  - simplify_eq. by constructor.
  - destruct (in_volume_known i); [|done]. destruct (TryMarkVolumeScanStarted _ _ _); [|done]. simplify_eq/=. constructor.
  - destruct (TryStopVolumeScan _ _ _); [|done]. simplify_eq/=. constructor.
  - destruct (in_volume_known i); [|done]. destruct (TryMarkUsnJournalOpened _ _ _); [|done]. simplify_eq/=. constructor.
  - destruct (TryCloseUsnJournal _ _ _); [|done]. simplify_eq/=. constructor.
  - destruct (revalidate _ _ _ _ _); [|done]. simplify_eq/=. by constructor.
Qed.

Lemma handle_Some self i c r ts r' last : handle self i c r = Some (ts, r', last) ->
  exists request last0, dispatch self i request last0 r = Some (ts, r', last).
Proof. unfold handle. intros Hh. repeat (case_match; try done). eauto. Qed.

Lemma tidy_step self l c r c' r' : tidy c -> connection_step self l c r = Some (Some c', r') -> tidy c'.
Proof.
  intros Ht. assert (tidy (with_tasks teardown c)) as Hdown by (apply tidy_tasks; [done|constructor]).
  pose proof (td_plan c Ht) as Hp. destruct l; cbn [connection_step].
  - done.
  - destruct (tasks c) eqn:Ets; [|done]. destruct (poisoned c); [by intros [= <- _]|].
    destruct (handle self i c r) as [[[ts r1] last]|] eqn:Eh; [|by intros [= <- _]]. intros [= <- _].
    destruct (handle_Some _ _ _ _ _ _ _ Eh) as (request & last0 & Hd). apply tidy_tasks; [by apply tidy_verified|]. by eapply dispatch_plan.
  - by apply tidy_advance.
  - destruct (may_throw c); [|done]. by intros [= <- _].
  - destruct (find_worker n (scans c)) as [wk|] eqn:Ef; [|done]. case_bool_decide as Hf; [|done]. intros [= <- _].
    apply find_worker_Some in Ef as [Hin Hn]. unfold worker_write. destruct (poisoned c); [done|]. destruct ok; [|by apply tidy_poison].
    apply tidy_append; [done|done|]. intros n' [= <-]. eauto.
  - destruct (find_worker n (scans c)) as [wk|]; [|done]. intros [= <- _].
    assert (tidy (with_scans (end_worker n (scans c)) c)) as He; [|destruct abort; [by apply tidy_poison|done]].
    replace (with_scans (end_worker n (scans c)) c) with (with_tasks (tasks c) (with_scans (end_worker n (scans c)) c)) by done.
    apply tidy_scans; [done|apply end_worker_same|rewrite end_worker_volume; apply Ht|].
    eapply plan_same; [exact Hp|intros id; apply no_volume_same, end_worker_same|done|by intros ->|done].
  - destruct (find_worker n (journals c)) as [wk|] eqn:Ef; [|done]. case_bool_decide as Hf; [|done]. intros [= <- _].
    unfold worker_write. destruct (poisoned c); [done|]. destruct ok; [|by apply tidy_poison]. by apply tidy_append.
  - destruct (find_worker n (journals c)) as [wk|]; [|done]. intros [= <- _].
    replace (with_journals (end_worker n (journals c)) c) with (with_tasks (tasks c) (with_journals (end_worker n (journals c)) c)) by done.
    apply tidy_journals; [done|rewrite end_worker_volume; apply Ht|].
    eapply plan_same; [exact Hp|done|intros id; apply no_volume_same, end_worker_same|done|by intros ->].
Qed.

(** ** Ownership *)

(** The volume whose worker the control thread is about to stop, and the one it is about to scan. *)
Definition joining_scan (ts : list task) : option Z := match ts with JoinScan id :: _ => Some id | _ => None end.
Definition claiming_scan (ts : list task) : option Z :=
  match ts with
  | [JoinScan id; Barrier _; LaunchScan _ _ _] | [Barrier id; LaunchScan _ _ _] | [LaunchScan id _ _] => Some id
  | _ => None
  end.
Definition joining_journal (ts : list task) : option Z := match ts with JoinJournal id :: _ => Some id | _ => None end.
Definition claiming_journal (ts : list task) : option Z :=
  match ts with [JoinJournal id; LaunchJournal _ _] | [LaunchJournal id _] => Some id | _ => None end.

(** A worker that is not being stopped is registered to its connection, and so is a volume about to be scanned. *)
Definition holds (owners : gmap Z Z) (self : Z) (ws : list worker) (joining claiming : option Z) : Prop :=
  (forall wk, wk ∈ ws -> w_stop wk = false -> owners !! w_volume wk = Some self \/ joining = Some (w_volume wk)) /\
  (forall id, claiming = Some id -> owners !! id = Some self).

(** The entries of the other connections are untouched. *)
Definition same_others (self : Z) (m m' : gmap Z Z) : Prop := forall id o, o <> self -> m !! id = Some o <-> m' !! id = Some o.

Lemma claim_inv self id m m' : claim self id m = Some m' -> same_others self m m' /\ m' !! id = Some self /\ forall id', m !! id' = Some self -> m' !! id' = Some self.
Proof.
  intros Hc. assert (m' = <[id := self]> m /\ (forall o, m !! id = Some o -> o = self)) as [-> Hown].
  { unfold claim in Hc. destruct (m !! id) as [o|]; [|by simplify_eq]. destruct (Z.eqb_spec o self); [|done]. simplify_eq. split; [done|]. congruence. }
  split; [|split; [apply lookup_insert_eq|]].
  - intros id' o Ho. destruct (decide (id' = id)) as [->|]; [|by rewrite lookup_insert_ne]. rewrite lookup_insert_eq.
    split; [intros ->%Hown; done|intros [= ->]; done].
  - intros id' Hs. destruct (decide (id' = id)) as [->|]; [apply lookup_insert_eq|by rewrite lookup_insert_ne].
Qed.

Lemma release_inv self id m m' : release self id m = Some m' -> same_others self m m' /\ (forall id', id' <> id -> m' !! id' = m !! id').
Proof.
  unfold release. destruct (m !! id) as [o|] eqn:E; [|done]. destruct (Z.eqb_spec o self) as [->|]; [|done]. intros [= <-].
  split; [|intros id' Hne; by rewrite lookup_delete_ne]. intros id' o Ho. destruct (decide (id' = id)) as [->|]; [|by rewrite lookup_delete_ne].
  rewrite lookup_delete_eq, E. split; [congruence|done].
Qed.

Lemma teardown_inv self m : same_others self m (filter (fun p => p.2 <> self) m) /\ forall id, filter (fun p : Z * Z => p.2 <> self) m !! id <> Some self.
Proof.
  split.
  - intros id o Ho. rewrite map_lookup_filter_Some. cbn. naive_solver.
  - intros id. rewrite map_lookup_filter_Some. cbn. naive_solver.
Qed.

Section holds.
Context (m : gmap Z Z) (self : Z).

(** Nobody was being joined: the tasks may change as long as they claim nothing new. *)
Lemma holds_idle ws claiming joining : holds m self ws None claiming -> holds m self ws joining None.
Proof. intros [Hw _]. split; [|done]. intros wk Hin Hs. destruct (Hw wk Hin Hs); [by left|done]. Qed.

Lemma holds_claiming ws joining claiming : holds m self ws None claiming -> holds m self ws joining claiming.
Proof. intros [Hw Hc]. split; [|done]. intros wk Hin Hs. destruct (Hw wk Hin Hs); [by left|done]. Qed.

Lemma holds_same ws ws' joining claiming : holds m self ws joining claiming -> same_workers ws ws' -> holds m self ws' joining claiming.
Proof.
  intros [Hw Hc] Hs. split; [|done]. intros wk Hin Hst. destruct (Hs wk Hin) as (wk0 & Hin0 & <- & _ & Hstop). by apply Hw; auto.
Qed.

(** The join is over: the worker of the volume is gone. *)
Lemma holds_joined ws ws' id claiming claiming' : holds m self ws (Some id) claiming -> same_workers ws ws' -> no_volume id ws' ->
  (forall x, claiming' = Some x -> claiming = Some x) -> holds m self ws' None claiming'.
Proof.
  intros Hh Hs Hno Hcl. destruct (holds_same _ _ _ _ Hh Hs) as [Hw Hc]. split; [|auto].
  intros wk Hin Hst. destruct (Hw wk Hin Hst) as [?|[= Hid]]; [by left|]. by destruct (Hno wk Hin).
Qed.

Lemma holds_launch ws id n alive : holds m self ws None (Some id) -> holds m self (ws ++ [mkWorker id n false alive]) None None.
Proof.
  intros [Hw Hc]. split; [|done]. intros wk [Hin| ->%list_elem_of_singleton]%elem_of_app Hs; [by apply Hw|]. left. by apply Hc.
Qed.

Lemma holds_none ws joining claiming : holds m self ws joining claiming -> holds m self [] None None.
Proof. intros _. split; [by intros wk ?%elem_of_nil|done]. Qed.

Lemma holds_more m' ws joining claiming : holds m self ws joining claiming -> (forall id, m !! id = Some self -> m' !! id = Some self) ->
  holds m' self ws joining claiming.
Proof. intros [Hw Hc] Hm. split; [|auto]. intros wk Hin Hs. destruct (Hw wk Hin Hs); auto. Qed.
End holds.

Record owns (self : Z) (c : connection) (r : ConnectionRegistry) : Prop := {
  ow_scans : holds (volumeScanOwners r) self (scans c) (joining_scan (tasks c)) (claiming_scan (tasks c));
  ow_journals : holds (usnJournalOwners r) self (journals c) (joining_journal (tasks c)) (claiming_journal (tasks c));
  ow_closed : tasks c = [CloseConnection] -> forall id, volumeScanOwners r !! id <> Some self /\ usnJournalOwners r !! id <> Some self
}.

(** What a request does to the registry. *)
Lemma owns_dispatch self i request last0 c r ts r' last : owns self c r -> tasks c = [] -> dispatch self i request last0 r = Some (ts, r', last) ->
  same_others self (volumeScanOwners r) (volumeScanOwners r') /\ same_others self (usnJournalOwners r) (usnJournalOwners r') /\
  owns self (with_tasks ts (verified_at last c)) r'.
Proof.
  intros [Hs Hj _] Hts. rewrite Hts in *. cbn in Hs, Hj. assert (forall m, same_others self m m) as Hrefl by done.
  destruct request; cbn [dispatch]; intros Hd.
  - simplify_eq. split; [done|]. split; [done|]. by constructor.
  - destruct (in_volume_known i); [|done]. unfold TryMarkVolumeScanStarted in Hd. destruct (claim _ _ _) as [m|] eqn:E; [|done]. simplify_eq/=.
    destruct (claim_inv _ _ _ _ E) as (Ho & Hown & Hmore). split; [done|]. split; [done|]. constructor; cbn; [|done|done].
    split; [|intros x [= <-]; done]. apply (holds_claiming _ _ _ _ None). by eapply holds_more.
  - unfold TryStopVolumeScan in Hd. destruct (release _ _ _) as [m|] eqn:E; [|done]. simplify_eq/=.
    destruct (release_inv _ _ _ _ E) as (Ho & Hrest). split; [done|]. split; [done|]. constructor; cbn; [|done|done].
    split; [|done]. intros wk Hin Hst. destruct (decide (w_volume wk = id)) as [->|Hne]; [by right|]. left. rewrite Hrest by done.
    by destruct (proj1 Hs wk Hin Hst).
  - destruct (in_volume_known i); [|done]. unfold TryMarkUsnJournalOpened in Hd. destruct (claim _ _ _) as [m|] eqn:E; [|done]. simplify_eq/=.
    destruct (claim_inv _ _ _ _ E) as (Ho & Hown & Hmore). split; [done|]. split; [done|]. constructor; cbn; [done| |done].
    split; [|intros x [= <-]; done]. apply (holds_claiming _ _ _ _ None). by eapply holds_more.
  - unfold TryCloseUsnJournal in Hd. destruct (release _ _ _) as [m|] eqn:E; [|done]. simplify_eq/=.
    destruct (release_inv _ _ _ _ E) as (Ho & Hrest). split; [done|]. split; [done|]. constructor; cbn; [done| |done].
    split; [|done]. intros wk Hin Hst. destruct (decide (w_volume wk = id)) as [->|Hne]; [by right|]. left. rewrite Hrest by done.
    by destruct (proj1 Hj wk Hin Hst).
  - destruct (revalidate _ _ _ _ _); [|done]. simplify_eq/=. split; [done|]. split; [done|]. by constructor.
Qed.

(** A connection whose thread was not joining may give up. *)
Lemma owns_teardown self c r : owns self c r -> joining_scan (tasks c) = None -> joining_journal (tasks c) = None -> owns self (with_tasks teardown c) r.
Proof.
  intros [Hs Hj _] H1 H2. rewrite H1 in Hs. rewrite H2 in Hj. constructor; cbn; [by eapply holds_idle..|done].
Qed.

Lemma owns_poison self c r : owns self c r -> owns self (with_poison c) r.
Proof. by intros []. Qed.

Lemma owns_advance self ok c r oc r' : tidy c -> owns self c r -> advance self ok c r = Some (oc, r') ->
  same_others self (volumeScanOwners r) (volumeScanOwners r') /\ same_others self (usnJournalOwners r) (usnJournalOwners r') /\
  (forall c', oc = Some c' -> owns self c' r') /\ (oc = None -> tasks c = [CloseConnection] /\ r' = r).
Proof.
  intros Ht Ho. pose proof (td_plan c Ht) as Hp. unfold advance. destruct (tasks c) as [|t rest] eqn:Ets; [done|].
  assert (forall m, same_others self m m) as Hrefl by done.
  assert (joining_scan (t :: rest) = None -> joining_journal (t :: rest) = None -> owns self (with_tasks teardown c) r) as Hdown
    by (intros; apply owns_teardown; rewrite ?Ets; done).
  destruct (Ho) as [Hs Hj Hc]. rewrite Ets in Hs, Hj, Hc. destruct t; cbn [joining_scan joining_journal] in *.
  - destruct (StopAndJoin id (scans c)) as [[ws fin]|] eqn:E; [|done]. cbn. intros [= <- <-]. do 2 (split; [done|]). split; [|done]. intros c' [= <-].
    destruct (StopAndJoin_inv _ _ _ _ (td_scans c Ht) E) as (Hw & Hnd & Hgone & _).
    destruct fin; constructor; cbn; rewrite ?Ets; try done.
    + specialize (Hgone eq_refl). inversion Hp; subst; by eapply holds_joined.
    + inversion Hp; subst; done.
    + inversion Hp; subst; done.
    + by eapply holds_same.
  - assert (owns self (with_tasks rest c) r) as Hrest by (inversion Hp; subst; by constructor).
    destruct (negb _); [intros [= <- <-]|destruct (_ || _); intros [= <- <-]]; do 2 (split; [done|]); (split; [|done]); intros c' [= <-];
      [done|apply owns_poison, Hdown; done|]. by destruct Hrest.
  - intros [= <- <-]. do 2 (split; [done|]). split; [|done]. intros c' [= <-]. inversion Hp; subst. cbn in Hs, Hj.
    destruct ok; constructor; cbn; try done; by apply holds_launch.
  - destruct (StopAndJoin id (journals c)) as [[ws fin]|] eqn:E; [|done]. cbn. intros [= <- <-]. do 2 (split; [done|]). split; [|done]. intros c' [= <-].
    destruct (StopAndJoin_inv _ _ _ _ (td_journals c Ht) E) as (Hw & Hnd & Hgone & _).
    destruct fin; constructor; cbn; rewrite ?Ets; try done.
    + inversion Hp; subst; done.
    + specialize (Hgone eq_refl). inversion Hp; subst; by eapply holds_joined.
    + inversion Hp; subst; done.
    + by eapply holds_same.
  - intros [= <- <-]. do 2 (split; [done|]). split; [|done]. intros c' [= <-]. inversion Hp; subst. cbn in Hs, Hj.
    destruct ok; constructor; cbn; try done; by apply holds_launch.
  - assert (owns self (with_tasks rest c) r) as Hrest by (inversion Hp; subst; by constructor).
    destruct (poisoned c); [intros [= <- <-]; do 2 (split; [done|]); split; [|done]; intros c' [= <-]; by apply Hdown|].
    destruct ok; intros [= <- <-]; do 2 (split; [done|]); (split; [|done]); intros c' [= <-]; [by destruct Hrest|].
    destruct m; (by apply Hdown) || (by apply owns_poison, Hdown).
  - destruct (StopAndJoinAll (scans c)) as [[ws fin]|] eqn:E; [|done]. cbn. intros [= <- <-]. do 2 (split; [done|]). split; [|done]. intros c' [= <-].
    destruct (StopAndJoinAll_inv _ _ _ E) as [[-> ->]|(-> & -> & _)]; constructor; cbn; rewrite ?Ets; try done.
    + eapply holds_same; [exact Hs|]. by apply same_workers_map.
    + inversion Hp; subst. by eapply holds_none.
    + inversion Hp; subst. done.
    + inversion Hp; subst. done.
  - destruct (StopAndJoinAll (journals c)) as [[ws fin]|] eqn:E; [|done]. cbn. intros [= <- <-]. do 2 (split; [done|]). split; [|done]. intros c' [= <-].
    destruct (StopAndJoinAll_inv _ _ _ E) as [[-> ->]|(-> & -> & _)]; constructor; cbn; rewrite ?Ets; try done.
    + eapply holds_same; [exact Hj|]. by apply same_workers_map.
    + inversion Hp; subst. by eapply holds_none.
    + inversion Hp; subst. by eapply holds_none.
    + inversion Hp; subst. done.
  - intros [= <- <-]. cbn. destruct (teardown_inv self (volumeScanOwners r)) as [Ho1 Hn1]. destruct (teardown_inv self (usnJournalOwners r)) as [Ho2 Hn2].
    split; [done|]. split; [done|]. split; [|done]. intros c' [= <-].
    inversion Hp as [| | | | | | | | | | |Hr Hws Hjs|]; subst. constructor; cbn; rewrite <-?Hws, <-?Hjs.
    + split; [by intros wk ?%elem_of_nil|done].
    + split; [by intros wk ?%elem_of_nil|done].
    + intros _ id. auto.
  - intros [= <- <-]. do 2 (split; [done|]). split; [done|]. intros _. inversion Hp; subst. done.
Qed.

Lemma owns_step self l c r oc r' : tidy c -> owns self c r -> connection_step self l c r = Some (oc, r') ->
  same_others self (volumeScanOwners r) (volumeScanOwners r') /\ same_others self (usnJournalOwners r) (usnJournalOwners r') /\
  (forall c', oc = Some c' -> owns self c' r') /\ (oc = None -> tasks c = [CloseConnection] /\ r' = r).
Proof.
  intros Ht Ho. assert (forall m, same_others self m m) as Hrefl by done. destruct l; cbn [connection_step]; try by apply owns_advance.
  - done.
  - destruct (tasks c) eqn:Ets; [|done].
    assert (owns self (with_tasks teardown c) r) as Hdown by (apply owns_teardown; rewrite ?Ets; done).
    destruct (poisoned c); [intros [= <- <-]; do 2 (split; [done|]); split; [by intros c' [= <-]|done]|].
    destruct (handle self i c r) as [[[ts r1] last]|] eqn:Eh; [|intros [= <- <-]; do 2 (split; [done|]); split; [by intros c' [= <-]|done]].
    intros [= <- <-]. destruct (handle_Some _ _ _ _ _ _ _ Eh) as (request & last0 & Hd).
    destruct (owns_dispatch _ _ _ _ _ _ _ _ _ Ho Ets Hd) as (H1 & H2 & H3). do 2 (split; [done|]). split; [by intros c' [= <-]|done].
  - destruct (may_throw c) eqn:Em; [|done]. intros [= <- <-]. do 2 (split; [done|]). split; [|done]. intros c' [= <-].
    unfold may_throw in Em. apply owns_teardown; [done|..]; destruct (tasks c) as [|[] ?]; done.
  - destruct (find_worker n (scans c)); [|done]. case_bool_decide; [|done]. intros [= <- <-]. do 2 (split; [done|]). split; [|done]. intros c' [= <-].
    unfold worker_write. destruct (poisoned c); [done|]. by destruct ok, Ho.
  - destruct (find_worker n (scans c)); [|done]. intros [= <- <-]. do 2 (split; [done|]). split; [|done]. intros c' [= <-].
    destruct Ho as [Hs Hj Hc]. assert (owns self (with_scans (end_worker n (scans c)) c) r) as He; [|destruct abort; [by apply owns_poison|done]].
    constructor; cbn; [|done..]. eapply holds_same; [exact Hs|apply end_worker_same].
  - destruct (find_worker n (journals c)); [|done]. case_bool_decide; [|done]. intros [= <- <-]. do 2 (split; [done|]). split; [|done]. intros c' [= <-].
    unfold worker_write. destruct (poisoned c); [done|]. by destruct ok, Ho.
  - destruct (find_worker n (journals c)); [|done]. intros [= <- <-]. do 2 (split; [done|]). split; [|done]. intros c' [= <-].
    destruct Ho as [Hs Hj Hc]. constructor; cbn; [done| |done]. eapply holds_same; [exact Hj|apply end_worker_same].
Qed.

(** ** The service *)

Record sane (s : service) : Prop := {
  sn_connection : forall self c, connections s !! self = Some c -> tidy c /\ owns self c (registry s);
  sn_open : forall id o, volumeScanOwners (registry s) !! id = Some o \/ usnJournalOwners (registry s) !! id = Some o -> is_Some (connections s !! o)
}.

(** What a connection holds does not depend on the entries of another. *)
Lemma owns_others self o c r r' : o <> self -> same_others self (volumeScanOwners r) (volumeScanOwners r') ->
  same_others self (usnJournalOwners r) (usnJournalOwners r') -> owns o c r -> owns o c r'.
Proof.
  intros Hne H1 H2 [Hs Hj Hc]. constructor.
  - eapply holds_more; [exact Hs|]. intros id. by apply H1.
  - eapply holds_more; [exact Hj|]. intros id. by apply H2.
  - intros Ht id. destruct (Hc Ht id) as [Ha Hb]. split; [intros Hx; apply Ha; by apply H1|intros Hx; apply Hb; by apply H2].
Qed.

Lemma fresh_connection self v time r : tidy (mkConnection v [] [] [] false time [] []) /\ owns self (mkConnection v [] [] [] false time [] []) r.
Proof.
  split.
  - constructor; cbn; [constructor|apply NoDup_nil_2|apply NoDup_nil_2|by intros wk ?%elem_of_nil|done|by intros [] ? ?].
  - constructor; cbn; [|..|done]; (split; [by intros wk ?%elem_of_nil|done]).
Qed.

Lemma sane_perform self l s s' : sane s -> perform self l s = Some s' -> sane s'.
Proof.
  intros [Hconn Hopen] Hstep. unfold perform in Hstep. destruct (connections s !! self) as [c|] eqn:Ec.
  - destruct (connection_step self l c (registry s)) as [[oc r']|] eqn:E; [|done]. cbn in Hstep. simplify_eq.
    destruct (Hconn self c Ec) as [Ht Ho]. destruct (owns_step _ _ _ _ _ _ Ht Ho E) as (H1 & H2 & Hsome & Hnone). constructor; cbn.
    + intros self' c' Hl. destruct (decide (self' = self)) as [->|Hne].
      * destruct oc as [c1|]; [|by rewrite lookup_delete_eq in Hl]. rewrite lookup_insert_eq in Hl. simplify_eq. split; [by eapply tidy_step|by apply Hsome].
      * assert (connections s !! self' = Some c') as Hl' by (destruct oc; [by rewrite lookup_insert_ne in Hl|by rewrite lookup_delete_ne in Hl]).
        destruct (Hconn self' c' Hl') as [Ht' Ho']. split; [done|]. by eapply (owns_others self).
    + intros id o Hl. destruct (decide (o = self)) as [->|Hne].
      * destruct oc as [c1|]; [rewrite lookup_insert_eq; eauto|]. destruct (Hnone eq_refl) as [Hts ->].
        destruct (ow_closed _ _ _ Ho Hts id) as [Ha Hb]. by destruct Hl.
      * assert (is_Some (connections s !! o)) as Hs by (apply (Hopen id); destruct Hl as [Hl|Hl]; [left; by apply (H1 id o Hne)|right; by apply (H2 id o Hne)]).
        destruct oc; [by rewrite lookup_insert_ne|by rewrite lookup_delete_ne].
  - destruct l; try done. simplify_eq. constructor; cbn.
    + intros self' c' Hl. destruct (decide (self' = self)) as [->|Hne].
      * rewrite lookup_insert_eq in Hl. simplify_eq. apply fresh_connection.
      * rewrite lookup_insert_ne in Hl by done. by apply Hconn.
    + intros id o Hl. destruct (decide (o = self)) as [->|Hne]; [rewrite lookup_insert_eq; eauto|].
      rewrite lookup_insert_ne by done. by apply (Hopen id).
Qed.

Lemma reachable_sane s : reachable s -> sane s.
Proof.
  induction 1 as [|self l s s' _ IH Hstep]; [|by eapply sane_perform]. constructor; cbn.
  - intros self c Hl. by rewrite lookup_empty in Hl.
  - intros id o [Hl|Hl]; by rewrite lookup_empty in Hl.
Qed.


(** C10. Connection-scoped handles: of two connections, at most one has a
    scan worker of a volume that nobody is stopping, and that connection is the one registered as its owner;
    the same holds for journals. *)
Theorem volume_ownership_exclusive (s : service) (a b : Z) (ca cb : connection) (wa wb : worker) :
  reachable s -> connections s !! a = Some ca -> connections s !! b = Some cb ->
  w_volume wa = w_volume wb -> w_stop wa = false -> w_stop wb = false ->
  (wa ∈ scans ca -> wb ∈ scans cb -> joining_scan (tasks ca) <> Some (w_volume wa) -> joining_scan (tasks cb) <> Some (w_volume wb) ->
    a = b /\ volumeScanOwners (registry s) !! w_volume wa = Some a) /\
  (wa ∈ journals ca -> wb ∈ journals cb -> joining_journal (tasks ca) <> Some (w_volume wa) -> joining_journal (tasks cb) <> Some (w_volume wb) ->
    a = b /\ usnJournalOwners (registry s) !! w_volume wa = Some a).
Proof.
  intros Hr Ha Hb Hv Hsa Hsb. destruct (sn_connection _ (reachable_sane _ Hr) _ _ Ha) as [_ [[Ha1 _] [Ha2 _] _]].
  destruct (sn_connection _ (reachable_sane _ Hr) _ _ Hb) as [_ [[Hb1 _] [Hb2 _] _]]. split; intros Hia Hib Hja Hjb.
  - destruct (Ha1 wa Hia Hsa) as [Hoa|]; [|done]. destruct (Hb1 wb Hib Hsb) as [Hob|]; [|done]. rewrite Hv in Hoa. split; [congruence|by rewrite Hv].
  - destruct (Ha2 wa Hia Hsa) as [Hoa|]; [|done]. destruct (Hb2 wb Hib Hsb) as [Hob|]; [|done]. rewrite Hv in Hoa. split; [congruence|by rewrite Hv].
Qed.

(** C20. A connection that closes leaves nothing behind: it has no scan and no
    journal worker left that could write to the pipe, and it owns no volume, so a later connection
    that reuses the handle's value starts with nothing. *)
Theorem closed_connection_leaves_nothing (s s' : service) (self : Z) (l : label) (c : connection) :
  reachable s -> connections s !! self = Some c -> perform self l s = Some s' -> connections s' !! self = None ->
  scans c = [] /\ journals c = [] /\
  forall id, volumeScanOwners (registry s') !! id <> Some self /\ usnJournalOwners (registry s') !! id <> Some self.
Proof.
  intros Hr Hc Hstep Hnone. pose proof (reachable_sane _ Hr) as Hs. pose proof (sane_perform _ _ _ _ Hs Hstep) as [_ Hopen].
  destruct (sn_connection _ Hs _ _ Hc) as [Ht Ho]. unfold perform in Hstep. rewrite Hc in Hstep.
  destruct (connection_step self l c (registry s)) as [[oc r']|] eqn:E; [|done]. cbn in Hstep. simplify_eq.
  destruct oc as [c'|]; [cbn [connections] in Hnone; by rewrite lookup_insert_eq in Hnone|]. destruct (owns_step _ _ _ _ _ _ Ht Ho E) as (_ & _ & _ & Hlast).
  destruct (Hlast eq_refl) as [Hts ->]. pose proof (td_plan c Ht) as Hp. rewrite Hts in Hp. inversion Hp. split; [done|]. split; [done|].
  intros id. cbn [registry] in *. by apply (ow_closed _ _ _ Ho).
Qed.

(** ** A connection that restarts its scan *)

Lemma play_reachable steps s s' : reachable s -> play steps s = Some s' -> reachable s'.
Proof.
  revert s. induction steps as [|[self l] steps IH]; intros s Hr; cbn [play]; [by intros [= <-]|].
  destruct (perform self l s) as [s1|] eqn:E; [|done]. apply IH. by eapply reachable_step.
Qed.

Definition sample_frame (frame : option (Z * list Z)) : inbound := mkInbound frame 1000 true 1001 1000 true 1001 true [].

Definition sample_scan_request : label :=
  let '(type, payload) := request_frame kCurrentProtocolVersion (RequestScan 7 [] 0) in Received (sample_frame (Some (raw_of_MessageType type, payload))).

(** A scan of volume 7 is started, writes a batch, and is superseded by another. *)
Definition sample_steps : list (Z * label) := pair 1 <$>
  [Connected kCurrentProtocolVersion 0; sample_scan_request; Advanced true; Advanced true; Advanced true;
   ScanWrote 0 (ScanBatchV2 7 [] []) true; sample_scan_request; Advanced true; ScanEnded 0 false; Advanced true; Advanced true; Advanced true;
   ScanWrote 1 (ScanCompleted 7) true].


(** The client disconnects, and the control thread tears the connection down to its last task. *)
Definition sample_teardown : list (Z * label) := pair 1 <$>
  [Received (sample_frame None); Advanced true; ScanEnded 1 false; Advanced true; Advanced true; Advanced true].

Definition run_of (steps : list (Z * label)) : service := default started (play steps started).
Definition connection_of (s : service) : connection :=
  default (mkConnection kCurrentProtocolVersion [] [] [] false 0 [] []) (connections s !! 1).

Lemma run_of_reachable steps : reachable (run_of steps).
Proof.
  unfold run_of. destruct (play steps started) as [s|] eqn:E; cbn; [|constructor]. eapply play_reachable; [constructor|exact E].
Qed.


Lemma volume_ownership_exclusive_witness :
  scans (connection_of (run_of sample_steps)) = [mkWorker 7 1 false true] /\
  volumeScanOwners (registry (run_of sample_steps)) !! 7 = Some 1.
Proof.
  split; [vm_compute; reflexivity|].
  assert (mkWorker 7 1 false true ∈ scans (connection_of (run_of sample_steps))) as Hin by (vm_compute; left).
  assert (joining_scan (tasks (connection_of (run_of sample_steps))) <> Some 7) as Hj by (vm_compute; discriminate).
  apply (volume_ownership_exclusive (run_of sample_steps) 1 1 (connection_of (run_of sample_steps)) (connection_of (run_of sample_steps))
    (mkWorker 7 1 false true) (mkWorker 7 1 false true)); [apply run_of_reachable|vm_compute; reflexivity|vm_compute; reflexivity|done..].
Defined.

Lemma closed_connection_leaves_nothing_witness :
  exists s', perform 1 (Advanced true) (run_of (sample_steps ++ sample_teardown)) = Some s' /\
  volumeScanOwners (registry s') !! 7 <> Some 1.
Proof.
  destruct (perform 1 (Advanced true) (run_of (sample_steps ++ sample_teardown))) as [s'|] eqn:E; [|vm_compute in E; discriminate].
  exists s'. split; [done|].
  apply (closed_connection_leaves_nothing (run_of (sample_steps ++ sample_teardown)) s' 1 (Advanced true)
    (connection_of (run_of (sample_steps ++ sample_teardown))) (run_of_reachable _)); [vm_compute; reflexivity|exact E|].
  vm_compute in E. injection E as <-. vm_compute. reflexivity.
Defined.

(** ** The handshake and the verification of clients *)

(** A handshake never reads outside its payload, and it ends in a negotiated
    version only for a verified client: the version is one the engine accepts, and every
    capability it grants is one the client announced. *)
Theorem PerformHandshake_negotiates (messageType : Z) (payload : list Z) (verified : option Z) (ackWritten : bool) :
  Forall is_byte payload ->
  PerformHandshake (Some (messageType, payload)) verified ackWritten <> Fault /\
  forall v, PerformHandshake (Some (messageType, payload)) verified ackWritten = Ok (Negotiated v) ->
    verified = None /\ IsVersionCompatible kCurrentProtocolVersion v = true /\ major v <= major kCurrentProtocolVersion /\
    let client := mkProtocolVersion (field payload 0 2) (field payload 2 2) in
    (ProtocolSupportsAllocatedSize v = true -> ProtocolSupportsAllocatedSize client = true) /\
    (ProtocolSupportsScanFailure v = true -> ProtocolSupportsScanFailure client = true) /\
    (ProtocolSupportsScanAttemptStarted v = true -> ProtocolSupportsScanAttemptStarted client = true).
Proof.
  intros Hb. unfold PerformHandshake. destruct (_ =? _); cbn [negb]; [|done]. destruct (Z.eqb_spec (zlen payload) HandshakeRequest_size) as [Hl|]; cbn [negb]; [|done].
  unfold HandshakeRequest_size in Hl. unfold ReadU16. rewrite !load_Ok by lia. cbn [bind]. fold (field payload 0 2) (field payload 2 2).
  destruct (IsVersionCompatible _ _) eqn:Ec; cbn [negb]; [|done]. destruct verified; [done|].
  split; [by destruct ackWritten|]. intros v Hv. destruct ackWritten; [|done]. injection Hv as <-. split; [done|].
  set (maj := field payload 0 2) in *. set (mino := field payload 2 2) in *.
  destruct (Z.eqb_spec maj 2) as [->|Hne].
  - split; [done|]. split; [done|]. unfold ProtocolSupportsAllocatedSize, ProtocolSupportsScanFailure, ProtocolSupportsScanAttemptStarted.
    cbn [major minor kCurrentProtocolVersion]. repeat split; intros [?|[_ ?%Z.leb_le]%andb_true_iff]%orb_true_iff; try done;
      (apply orb_true_iff; right; apply andb_true_iff; split; [done|apply Z.leb_le; lia]).
  - split; [done|]. split; [|done]. unfold IsVersionCompatible in Ec. cbn [major kCurrentProtocolVersion] in *.
    rewrite (proj2 (Z.eqb_neq _ _) Hne) in Ec. bool_prop. lia.
Qed.

(** A request is served only for a client that was verified less than 20 seconds
    before its frame was examined, or that has just been verified again; and the time of the last verification is only ever
    moved by a successful one. *)
Theorem handle_serves_verified (self : Z) (i : inbound) (c : connection) (r r' : ConnectionRegistry) (ts : list task) (last : Z) :
  handle self i c r = Some (ts, r', last) ->
  (in_gate i - lastRevalidated c < kRevalidationInterval \/ in_gate_valid i = true) /\
  (last = lastRevalidated c \/ last = in_gate_done i /\ in_gate_valid i = true \/ last = in_beat_done i /\ in_beat_valid i = true).
Proof.
  unfold handle. destruct (in_frame i) as [[type payload]|]; [|done]. destruct (negb _); [done|].
  destruct (revalidate _ _ _ _ _) as [last0|] eqn:Er; [|done]. destruct (ReadRequest _ _ _) as [request| |]; [|done..]. intros Hd.
  assert ((in_gate i - lastRevalidated c < kRevalidationInterval \/ in_gate_valid i = true) /\
    (last0 = lastRevalidated c \/ last0 = in_gate_done i /\ in_gate_valid i = true)) as [Hg Hl].
  { unfold revalidate, ShouldRevalidate in Er. destruct (Z.leb_spec kRevalidationInterval (in_gate i - lastRevalidated c)).
    - destruct (in_gate_valid i); [|done]. injection Er as <-. auto.
    - injection Er as <-. auto. }
  split; [done|]. assert (last = last0 \/ last = in_beat_done i /\ in_beat_valid i = true) as Hlast; [|naive_solver].
  destruct request; cbn [dispatch] in Hd.
  - simplify_eq. auto.
  - destruct (in_volume_known i); [|done]. destruct (TryMarkVolumeScanStarted _ _ _); [|done]. simplify_eq/=. auto.
  - destruct (TryStopVolumeScan _ _ _); [|done]. simplify_eq/=. auto.
  - destruct (in_volume_known i); [|done]. destruct (TryMarkUsnJournalOpened _ _ _); [|done]. simplify_eq/=. auto.
  - destruct (TryCloseUsnJournal _ _ _); [|done]. simplify_eq/=. auto.
  - unfold revalidate in Hd. destruct (ShouldRevalidate _ last0 _); [destruct (in_beat_valid i) eqn:E; [|done]|]; simplify_eq/=; auto.
Qed.
